(* ===== verification/_CoqProject ===== *)
-Q . S2P
Prelude.v
BpfInstruction.v
BpfProgram.v
BpfControlFlow.v
BpfVerified.v
Effects.v
Atomics.v
BpfNative.v
BpfValidate.v
BpfTranslate.v
BpfX86.v
BpfLowering.v
BpfAssemble.v
BpfSimulation.v
BpfCall.v
BpfAccepted.v
BpfTranslated.v
BpfNativeVerified.v
FaultBroker.v
FaultSpec.v
FaultLinks.v
FaultTransitions.v
FaultAdmission.v
FaultRemoval.v
FaultSteps.v
FaultGuarantees.v
FaultVerified.v
PollSet.v
PollSections.v
PollVerified.v
Sched.v
SchedSpec.v
SchedRefinement.v
SchedVerified.v
Concurrent.v
Tlb.v
TlbProtocol.v
TlbVerified.v
Pmu.v
PmuVerified.v
EevdfTree.v
RbShape.v
RbFixup.v
RbBalance.v
RbSearch.v
RbInsert.v
RbRemoval.v
EevdfTreeRefinement.v
EevdfTreeVerified.v
Threads.v
Rcu.v
RcuSafety.v
RcuOwners.v
RcuProtocol.v
RcuWriters.v
RcuAlone.v
RcuVerified.v
ReadyTree.v
Cfs.v
CfsSpec.v
CfsQueue.v
CfsConfigure.v
CfsTick.v
CfsHistory.v
CfsVerified.v
EevdfMath.v
EevdfMathSpec.v
EevdfWide.v
EevdfModel.v
EevdfModelSpec.v
EevdfEntity.v
EevdfFair.v
EevdfModelVerified.v
EevdfTask.v
EevdfSched.v
EevdfLifecycle.v
EevdfSchedSpec.v
EevdfStructure.v
EevdfOwnership.v
EevdfSchedVerified.v
