(* ===== verification/Prelude.v ===== *)
(** * Verification of the kernel mechanism crates

    The repository is a workspace of mechanism crates of a kernel
    ([src/crates/thekernel-*]): a classic BPF verifier, interpreter
    and translator ([axcbpf]), a broker of page-fault requests ([axfault]), bounded readiness
    registries ([axpoll]), task schedulers behind one trait ([axsched]), TLB
    shootdown ([axtlb]), performance counters ([axpmu]), read-copy-update
    ([axrcu]) and the task layer ([axtask]). The
    crates share no code; they share idioms: slots with generations, opaque
    tokens, checked counters, atomic update loops, and errors as values. The
    task layer calls a scheduler through [BaseScheduler], a wait calls a poll
    set through [PollSet], packet filters run [Program::evaluate] or the image of
    [Program::translate].

    ** Files

    - [Prelude]: fixed-width integers, slices indexed by [usize], lists of
      slots, counting, the [result] type, tactics and the hint database
      [kernel]. [Effects]: the monad [M] of state, errors, panics and
      divergence, its weakest precondition and frame predicates (hint database
      [effects]). [Atomics]: the compare-exchange loops [try_update_*].
    - [BpfInstruction], [BpfProgram]: [axcbpf]'s [instruction.rs],
      [ancillary.rs] and [program.rs]. [BpfControlFlow]: paths of a program and
      the data-flow argument for scratch words. [BpfVerified]: the theorems
      C6-C7.
    - [BpfNative], [BpfValidate]: [translation_validate.rs], the decoder and the
      checks. [BpfTranslate]: [translate.rs], the assembler, the checks of its
      tables and the reference interpreter. [BpfX86]: a specification of the
      instruction set after the manual, independent of the decoder, and the
      decoder compared with it. [BpfLowering]: the lowering of an instruction as
      data, and the validator as a walk over it. [BpfAssemble]: the assembler
      emits the lowering, and its bytes decode to it. [BpfSimulation]: the
      lowering simulates the interpreter. [BpfCall]: calls of native code, and
      the interface [NativeInput] of the three kinds of input. [BpfAccepted],
      [BpfTranslated]: the checks of the source and what an accepted image
      contains; what the translator returns. [BpfNativeVerified]:
      C1-C5.
    - [FaultBroker]: [axfault/src/lib.rs], one definition per method of
      [FaultBroker] and [RequestCreditPool], on the linked slot arrays.
      [FaultSpec]: the link-free broker it implements. [FaultLinks]: doubly linked
      lists inside slot arrays, and the invariant of the links.
      [FaultTransitions], [FaultAdmission], [FaultRemoval], [FaultSteps]: one
      simulation lemma per operation. [FaultGuarantees]: runs, reachability
      and what runs keep. [FaultVerified]: C14-C17.
    - [PollSet]: [axpoll/src/lib.rs]. [PollSections]: the finite map of
      live registrations, the invariant, critical sections, and operations on one
      set as steps of the map.
      [PollVerified]: histories of several sets, C34-C35.
    - [Sched]: the interface of the intrusive list crate [linked_list_r4l], with
      its laws and an instance, and [axsched]'s [lib.rs], [fifo.rs] and
      [round_robin.rs]. [SchedSpec]: the
      abstract queues, the ownership invariant and what keeps it.
      [SchedRefinement]: each operation against the abstract queues.
      [SchedVerified]: histories, C36-C37.
    - [EevdfTree]: [axsched/src/eevdf_tree.rs]. [RbShape]: the trees that the
      memory represents, as values, zippers into them, and what a memory that
      holds a tree gives. [RbFixup], [RbBalance]: the balancing loops on memory
      and on values, and cached minima. [RbSearch]: walks. [RbInsert],
      [RbRemoval]: insertion, removal and destruction.
      [EevdfTreeRefinement]: the sorted list of entries, and each call against
      the list.
      [EevdfTreeVerified]: C18-C21.
    - [EevdfMath]: the integer arithmetic of [axsched/src/eevdf_model.rs], in
      computations that end in a value, an error or a crash. [EevdfMathSpec],
      [EevdfWide]: what it computes; numbers in four limbs. [EevdfModel]: the
      rest of that file and [eevdf_profile.rs]: profiles, requests, the virtual
      clock, entities. [EevdfModelSpec]: each formula, and exact service.
      [EevdfEntity]: the invariant, and the operations that keep it.
      [EevdfFair]: calls, queues that share a clock, migration.
      [EevdfModelVerified]: C29-C33.
    - [EevdfTask], [EevdfSched], [EevdfLifecycle]: [axsched/src/eevdf.rs]: tasks,
      their claims and the admission ledger; queues, servers, selection and
      service; migration, wake-up, parameter changes, the trait and the drop.
      [EevdfSchedSpec]: what every method of a call preserves, histories of calls,
      and the ledgers. [EevdfStructure]: owner words, trees and current tasks, and
      the invariant between them. [EevdfOwnership]: every call keeps it.
      [EevdfSchedVerified]: C8-C13, and the corner cases of the
      findings.
    - [Threads]: programs of atomic actions that may block, their
      interleavings, and rely-guarantee reasoning. [Rcu]: [axrcu/src/lib.rs].
      [RcuSafety]: the ring buffer, the invariant and what threads rely on.
      [RcuOwners], [RcuProtocol], [RcuWriters]: each action and
      method, and clients in every interleaving. [RcuAlone]:
      termination, destruction, executable schedules. [RcuVerified]:
      C22-C25.
    - [ReadyTree]: the interface of the ordered tree of [intrusive_collections],
      with its laws and an instance. [Cfs]: [axsched/src/cfs.rs]. [CfsSpec]: the
      invariant and the steps that keep it. [CfsQueue], [CfsConfigure],
      [CfsTick]: insertion and removal; configuration, reservations and
      updates; picking and ticks. [CfsHistory]: operations, their effect on the
      queues and the causes of their errors, over histories. [CfsVerified]:
      C26-C28.
    - [Concurrent]: programs of atomic steps, their interleavings, and
      rely-guarantee reasoning about them. [Tlb]: [axtlb/src/lib.rs].
      [TlbProtocol]: the invariant, the specification of each atomic access and
      of each method, and pools of CPUs. [TlbVerified]: C38.
    - [Pmu]: [axpmu/src/lib.rs], the calls a session makes of any backend, and
      the loops over its slots. [PmuVerified]: C39-C40.

    ** How the code is modelled

    Rust structs are records, enums inductive types. Integers are [Z]; every
    wrapping, checked or saturating operation writes its width out, [usize]
    having 64 bits. A method that mutates or fails is a computation in [M]: its
    error carries the state it leaves behind, a failed [expect], [assert!] or
    index is [Panic], and a cursor loop has a bound on its iterations whose
    exhaustion is [Diverged]. The theorems exclude both outcomes, but for the
    EEVDF scheduler, whose corner cases panic (see the end). Bounds: the
    length of the slot array for the loops of the broker, the length of the
    program for the interpreter (every jump is forward), the number of tasks
    plus one for the cursor loops and the drop loops of run queues (a queue has
    no duplicates), 257 divisions for a greatest common divisor of 128-bit
    numbers (every second one halves the divisor) and four limbs for a carry;
    each is shown to suffice.

    Atomics are modelled at the granularity of one atomic operation
    ([try_update]); [try_update_loop_linearizes] justifies this for the retry loop. Critical sections
    under a lock are atomic steps, and interleavings are sequences of steps.
    Code outside the repository is a parameter: the equivalence of wakers, the
    intrusive list and tree, counter backends, the success of allocations, the keys,
    handlers and completions of the fault broker. Interfaces are classes
    ([LinkedLists] and [ReadyTrees] with their documented behaviour as laws, [Backend] with no law); the
    theorems hold for every lawful instance, and one instance of each is given.
    Shootdown takes no lock, so its methods are programs of atomic steps; the
    methods of RCU are too, with locks that block and interrupts that suspend
    the reader below them. The nodes of the EEVDF tree are cells of a memory in
    which every dereference is checked; its loops are bounded by the number of
    cells plus two (the drop by two visits per cell). Loads of RCU slots spin
    while writers are at work: their rounds take a bound and the safety theorems
    hold for every bound.

    ** What the theorems show

    C1-C5: translated packet filters, run by the semantics of the
    instruction set, compute what the interpreter computes and keep the calling
    convention; so does whatever the validator accepts, but for one encoding that
    it misreads; the checks of the source agree.
    C6-C7: what the BPF verifier accepts, never panicking on the way, runs
    safely and independently of uninitialised scratch words; its rejections
    have a cause; loads are exact. C14-C17: the fault broker refines a broker
    without links; requests are claimed in order, coalesced uniquely, completed
    once; tokens never become valid again; credits are conserved; failed
    admissions have no effect. C34-C35: poll sets refine a finite map; tokens
    are exact; no waker is lost or used twice. C36-C37: both list schedulers
    refine queues; tasks have one owner; FIFO order; rotation of round robin.
    C18-C21: the EEVDF tree refines a sorted list, is a red-black tree
    with exact cached minima, selects the first eligible node in logarithmic
    time, rejects without loss and releases what it owns. C22-C25: no
    interleaving of RCU clients touches a released object, counts are exact, the
    retire FIFO is a bounded queue, and loads, reclamation and destruction
    terminate with the right result.
    C29-C33: the EEVDF value layer computes exactly in fixed width and
    fails without effect; the lags of a queue stay balanced, so some entity is
    always about to be eligible; requests are consumed exactly, do not depend on
    the order of reconfigurations and survive migration; sleeper credit is
    bounded.
    C8-C13: in every history of calls on EEVDF schedulers, failed ones
    included, tasks are where their owner words say and ledgers are not
    overdrawn; selection takes the first eligible task; no runtime is
    lost, and none is invented for periods of up to [2 ^ 32] ns; bulk ticks are single ticks; the ledger loop is atomic.
    C26-C28: the fair scheduler returns in every history, with the effect
    of sorted queues or a stated cause of refusal; it picks the best ready task,
    queues equals in order, restores failed updates, and keeps virtual time
    over updates and migrations.
    C38: grace of a TLB shootdown means that every target has flushed, in
    every interleaving, and requests reach the online CPUs.
    C39-C40: whatever a backend answers, counter sessions
    keep and return their counters, and a session that does not run has stopped
    what it started.

    ** What is not modelled, and the plan

    Debug assertions, [Display] implementations, memory orderings weaker than
    sequential consistency, closures with effects as predicates
    ([complete_where] takes a pure predicate), and platform code. The task
    layer [axtask] (run queues, context switches, wait queues, timers and
    futures) is left out: it is written in terms of interrupt masking, per-CPU
    data, stacks and context switches of a platform layer that is not in the
    repository, so a model would rest on invented definitions of these. The
    schedulers, the poll sets and the broker it drives are the parts of it that
    can be stated without them. Panics of the EEVDF scheduler are outcomes of
    the model; its theorems over histories are about the calls that return, and
    the findings show calls that panic. *)

From Stdlib Require Export ZArith Lia.
From stdpp Require Export base numbers option sets list_numbers list.

(** * Machine integers

    Integers are [Z]; a value of a fixed width is a [Z] in the range of the
    width, and each wrapping, checked or saturating operation of the Rust
    standard library writes its range out. [usize] is 64 bits wide. *)

Declare Scope kernel_scope.
Delimit Scope kernel_scope with kernel.
Local Open Scope Z_scope.

Definition u8_MAX : Z := 255.
Definition u16_MAX : Z := 65535.
Definition u32_MAX : Z := 4294967295.
Definition u64_MAX : Z := 18446744073709551615.
Definition usize_MAX : Z := u64_MAX.

Create HintDb kernel.

Definition in_u8 (z : Z) : Prop := 0 <= z <= u8_MAX.
Definition in_u16 (z : Z) : Prop := 0 <= z <= u16_MAX.
Definition in_u32 (z : Z) : Prop := 0 <= z <= u32_MAX.
Definition in_u64 (z : Z) : Prop := 0 <= z <= u64_MAX.
Definition in_usize (z : Z) : Prop := 0 <= z <= usize_MAX.

#[export] Instance in_u8_dec z : Decision (in_u8 z).
Proof. unfold in_u8. apply _. Defined.
#[export] Instance in_u16_dec z : Decision (in_u16 z).
Proof. unfold in_u16. apply _. Defined.
#[export] Instance in_u32_dec z : Decision (in_u32 z).
Proof. unfold in_u32. apply _. Defined.
#[export] Instance in_u64_dec z : Decision (in_u64 z).
Proof. unfold in_u64. apply _. Defined.
#[export] Instance in_usize_dec z : Decision (in_usize z).
Proof. unfold in_usize. apply _. Defined.

(** Decides a closed proposition by evaluation. *)
Ltac by_evaluation := apply (bool_decide_unpack _); vm_compute; exact I.

#[global] Hint Unfold in_u8 in_u16 in_u32 in_u64 in_usize : kernel.

(** [checked_add] and [checked_sub] of [u64] and [usize]. *)
Definition checked_add_u64 (a b : Z) : option Z :=
  if a + b <=? u64_MAX then Some (a + b) else None.
Definition checked_add_usize (a b : Z) : option Z :=
  if a + b <=? usize_MAX then Some (a + b) else None.
Definition checked_sub_usize (a b : Z) : option Z :=
  if b <=? a then Some (a - b) else None.
Definition saturating_sub_usize (a b : Z) : Z := Z.max 0 (a - b).
Definition checked_add_u32 (a b : Z) : option Z :=
  if a + b <=? u32_MAX then Some (a + b) else None.

(** Wrapping [u32] arithmetic; shift counts are taken modulo 32. *)
Definition wrap_u32 (z : Z) : Z := z mod 4294967296.
Definition wrapping_add_u32 (a b : Z) : Z := wrap_u32 (a + b).
Definition wrapping_sub_u32 (a b : Z) : Z := wrap_u32 (a - b).
Definition wrapping_mul_u32 (a b : Z) : Z := wrap_u32 (a * b).
Definition wrapping_neg_u32 (a : Z) : Z := wrap_u32 (- a).
Definition wrapping_shl_u32 (a s : Z) : Z := wrap_u32 (Z.shiftl a (Z.land s 31)).
Definition wrapping_shr_u32 (a s : Z) : Z := Z.shiftr a (Z.land s 31).

Lemma wrap_u32_range z : in_u32 (wrap_u32 z).
Proof.
  unfold in_u32, wrap_u32, u32_MAX.
  pose proof (Z.mod_pos_bound z 4294967296). lia.
Qed.

Lemma wrap_u32_id z : in_u32 z -> wrap_u32 z = z.
Proof. unfold in_u32, wrap_u32, u32_MAX. intros ?. apply Z.mod_small. lia. Qed.

(** Bitwise operations stay within a power-of-two range. *)
Lemma nonneg_bits_bound (n z : Z) :
  0 <= n -> 0 <= z -> (forall i, n <= i -> Z.testbit z i = false) -> z < 2 ^ n.
Proof.
  intros Hn Hz Hbits. destruct (Z.lt_ge_cases z (2 ^ n)) as [?|Hge]; [done|].
  assert (0 < z) as Hpos by (pose proof (Z.pow_pos_nonneg 2 n); lia).
  assert (n <= Z.log2 z) as Hlog by (apply Z.log2_le_pow2; lia).
  pose proof (Z.bit_log2 z Hpos) as Hbit. rewrite (Hbits _ Hlog) in Hbit. done.
Qed.

Lemma small_high_bits (n z i : Z) :
  0 <= z < 2 ^ n -> n <= i -> Z.testbit z i = false.
Proof.
  intros Hz Hi. destruct (decide (z = 0)) as [->|Hne]; [apply Z.bits_0|].
  apply Z.bits_above_log2; [lia|].
  assert (Z.log2 z < n) by (apply Z.log2_lt_pow2; lia). lia.
Qed.

Lemma lor_bound n a b :
  0 <= n -> 0 <= a < 2 ^ n -> 0 <= b < 2 ^ n -> 0 <= Z.lor a b < 2 ^ n.
Proof.
  intros Hn Ha Hb. assert (0 <= Z.lor a b) by (apply Z.lor_nonneg; lia).
  split; [done|]. apply nonneg_bits_bound; [done..|]. intros i Hi.
  by rewrite Z.lor_spec, (small_high_bits n a), (small_high_bits n b).
Qed.

Lemma lxor_bound n a b :
  0 <= n -> 0 <= a < 2 ^ n -> 0 <= b < 2 ^ n -> 0 <= Z.lxor a b < 2 ^ n.
Proof.
  intros Hn Ha Hb. assert (0 <= Z.lxor a b) by (apply Z.lxor_nonneg; lia).
  split; [done|]. apply nonneg_bits_bound; [done..|]. intros i Hi.
  by rewrite Z.lxor_spec, (small_high_bits n a), (small_high_bits n b).
Qed.

Lemma land_bound a b : 0 <= a -> 0 <= b -> 0 <= Z.land a b <= a.
Proof.
  intros Ha Hb. split; [apply Z.land_nonneg; lia|].
  pose proof (Z.sub_nocarry_ldiff a (Z.land a b)) as Hsub.
  assert (Z.ldiff (Z.land a b) a = 0) as Hld.
  { apply Z.bits_inj'. intros i _. rewrite Z.ldiff_spec, Z.land_spec, Z.bits_0.
    destruct (Z.testbit a i), (Z.testbit b i); done. }
  specialize (Hsub Hld).
  assert (0 <= Z.ldiff a (Z.land a b)) by (apply Z.ldiff_nonneg; lia). lia.
Qed.

Lemma u32_pow z : in_u32 z <-> 0 <= z < 2 ^ 32.
Proof. unfold in_u32, u32_MAX. change (2 ^ 32) with 4294967296. lia. Qed.

Lemma lor_u32 a b : in_u32 a -> in_u32 b -> in_u32 (Z.lor a b).
Proof. rewrite !u32_pow. apply lor_bound. lia. Qed.
Lemma lxor_u32 a b : in_u32 a -> in_u32 b -> in_u32 (Z.lxor a b).
Proof. rewrite !u32_pow. apply lxor_bound. lia. Qed.
Lemma land_u32 a b : in_u32 a -> in_u32 b -> in_u32 (Z.land a b).
Proof. unfold in_u32. intros. pose proof (land_bound a b). lia. Qed.
Lemma shiftr_u32 a n : in_u32 a -> 0 <= n -> in_u32 (Z.shiftr a n).
Proof.
  unfold in_u32. intros Ha Hn. rewrite Z.shiftr_div_pow2 by done.
  assert (0 < 2 ^ n) by (apply Z.pow_pos_nonneg; lia).
  split; [apply Z.div_pos; lia|].
  apply Z.le_trans with a; [|lia]. apply Z.div_le_upper_bound; [done|]. nia.
Qed.
Lemma div_u32 a b : in_u32 a -> 0 < b -> in_u32 (a / b).
Proof.
  unfold in_u32. intros Ha Hb. split; [apply Z.div_pos; lia|].
  apply Z.le_trans with a; [|lia]. apply Z.div_le_upper_bound; [done|]. nia.
Qed.
Lemma mod_u32 a b : in_u32 a -> 0 < b -> in_u32 (a mod b).
Proof.
  unfold in_u32. intros Ha Hb. pose proof (Z.mod_pos_bound a b Hb).
  pose proof (Z.mod_le a b). lia.
Qed.

(** The database [kernel]: range facts of the machine operations. *)
#[export] Hint Resolve wrap_u32_range lor_u32 lxor_u32 land_u32 shiftr_u32
  div_u32 mod_u32 : kernel.

(** * Slices indexed by a [usize]

    [get l i] is Rust's [l.get(i)]; [put l i v] is the store [l[i] = v] when
    the index is in bounds. Both test the bound on [Z] before converting, so
    that a huge index still evaluates. *)

Definition in_bounds {A} (l : list A) (i : Z) : bool :=
  (0 <=? i) && (i <? Z.of_nat (length l)).

Definition get {A} (l : list A) (i : Z) : option A :=
  if in_bounds l i then l !! Z.to_nat i else None.

Definition put {A} (l : list A) (i : Z) (v : A) : option (list A) :=
  if in_bounds l i then Some (<[Z.to_nat i := v]> l) else None.

Definition zlen {A} (l : list A) : Z := Z.of_nat (length l).

Lemma in_bounds_true {A} (l : list A) i :
  in_bounds l i = true <-> 0 <= i < zlen l.
Proof. unfold in_bounds, zlen. lia. Qed.

Lemma get_is_Some {A} (l : list A) i : is_Some (get l i) <-> 0 <= i < zlen l.
Proof.
  unfold get. rewrite <- in_bounds_true. destruct (in_bounds l i) eqn:E.
  - apply in_bounds_true in E. unfold zlen in E.
    split; [done|]. intros _. apply lookup_lt_is_Some. lia.
  - split; [by intros [? ?]|done].
Qed.

Lemma get_Some {A} (l : list A) i x :
  get l i = Some x -> 0 <= i < zlen l /\ l !! Z.to_nat i = Some x.
Proof.
  intros H. split; [apply get_is_Some; eauto|].
  unfold get in H. by destruct (in_bounds l i).
Qed.

Lemma get_nat {A} (l : list A) (n : nat) : get l (Z.of_nat n) = l !! n.
Proof.
  unfold get. destruct (in_bounds l (Z.of_nat n)) eqn:E; rewrite ?Nat2Z.id; [done|].
  symmetry. apply lookup_ge_None. unfold in_bounds in E. lia.
Qed.

Lemma get_in_range {A} (l : list A) i : 0 <= i < zlen l -> exists x, get l i = Some x.
Proof. intros H. by apply get_is_Some in H as [x ?]; eauto. Qed.

Lemma put_in_range {A} (l : list A) i v :
  0 <= i < zlen l -> put l i v = Some (<[Z.to_nat i := v]> l).
Proof. intros H. unfold put. by rewrite (proj2 (in_bounds_true l i)). Qed.

Lemma put_Some {A} (l l' : list A) i v :
  put l i v = Some l' -> 0 <= i < zlen l /\ l' = <[Z.to_nat i := v]> l.
Proof.
  unfold put. destruct (in_bounds l i) eqn:E; [|done]. intros [= <-].
  by apply in_bounds_true in E.
Qed.

Lemma zlen_insert {A} (l : list A) i v : zlen (<[i := v]> l) = zlen l.
Proof. unfold zlen. by rewrite length_insert. Qed.

Lemma zlen_nonneg {A} (l : list A) : 0 <= zlen l.
Proof. unfold zlen. lia. Qed.

#[export] Hint Resolve zlen_nonneg : kernel.

(** * Results of fallible functions: Rust's [Result]. *)

Inductive result (A E : Type) : Type :=
| Ok (a : A)
| Err (e : E).
Arguments Ok {A E} a.
Arguments Err {A E} e.

Definition is_ok {A E} (r : result A E) : bool :=
  match r with Ok _ => true | Err _ => false end.

Definition ok_or {A E} (o : option A) (e : E) : result A E :=
  match o with Some a => Ok a | None => Err e end.

Notation "'let?' x ':=' r 'in' k" :=
  (match r with Ok x => k | Err e => Err e end)
  (at level 200, x binder, r at level 100, k at level 200) : kernel_scope.

Lemma ok_or_Ok {A E} (o : option A) (e : E) a : ok_or o e = Ok a <-> o = Some a.
Proof. destruct o; naive_solver. Qed.

(** * Generic list facts *)

Lemma NoDup_bounded_length (l : list nat) (n : nat) :
  NoDup l -> (forall x, x ∈ l -> (x < n)%nat) -> (length l <= n)%nat.
Proof.
  intros Hnd Hlt. rewrite <- (length_seq n 0). apply submseteq_length, NoDup_submseteq; [done|].
  intros x Hx. apply elem_of_seq. specialize (Hlt x Hx). lia.
Qed.

Lemma filter_neq_not_elem (l : list nat) x : x ∉ l -> filter (fun y => y <> x) l = l.
Proof.
  induction l as [|y l IH]; [done|]. intros [Hne Hx]%not_elem_of_cons.
  rewrite filter_cons, decide_True by done. by rewrite IH.
Qed.

Lemma filter_neq_middle (l1 l2 : list nat) x :
  NoDup (l1 ++ x :: l2) -> filter (fun y => y <> x) (l1 ++ x :: l2) = l1 ++ l2.
Proof.
  intros (_ & Hd & [Hx2 _]%NoDup_cons)%NoDup_app.
  rewrite filter_app, filter_cons, decide_False by auto.
  rewrite !filter_neq_not_elem; [done|done|]. intros Hx1. apply (Hd x Hx1). set_solver.
Qed.

Lemma elem_of_split_nat (l : list nat) x : x ∈ l -> exists l1 l2, l = l1 ++ x :: l2.
Proof. apply list_elem_of_split. Qed.

(** Two lists with the same occupied indices have the same length. *)
Lemma same_lookup_length {A B} (l1 : list A) (l2 : list B) :
  (forall i, is_Some (l1 !! i) <-> is_Some (l2 !! i)) -> length l1 = length l2.
Proof.
  intros Hiff. apply Nat.le_antisymm; apply Nat.nlt_ge; intros Hlt.
  - apply (lookup_lt_is_Some l1), Hiff, lookup_lt_is_Some in Hlt. lia.
  - apply (lookup_lt_is_Some l2), Hiff, lookup_lt_is_Some in Hlt. lia.
Qed.

(** A slot of a registry is a generation and an optional content; [on_content]
    updates the content and keeps the generation. *)
Definition on_content {A} (f : A -> A) (s : Z * option A) : Z * option A := (s.1, f <$> s.2).

Lemma on_content_id {A} (s : Z * option A) : on_content (fun x => x) s = s.
Proof. by destruct s as [? []]. Qed.

(** Counting the elements of a list that satisfy a decidable predicate. *)
Definition count {A} (P : A -> Prop) `{forall x, Decision (P x)} (l : list A) : Z :=
  zlen (filter P l).

Section Count.
Context {A : Type} (P : A -> Prop) `{!forall x, Decision (P x)}.

Definition weight (x : A) : Z := if decide (P x) then 1 else 0.

Lemma count_nil : count P [] = 0.
Proof. done. Qed.

Lemma count_cons x l : count P (x :: l) = weight x + count P l.
Proof.
  unfold count, weight. rewrite filter_cons. case_decide; [|lia].
  unfold zlen. cbn [length]. lia.
Qed.

Lemma count_app l1 l2 : count P (l1 ++ l2) = count P l1 + count P l2.
Proof. unfold count. rewrite filter_app. unfold zlen. rewrite length_app. lia. Qed.

Lemma count_nonneg l : 0 <= count P l.
Proof. apply zlen_nonneg. Qed.

Lemma count_le_length l : count P l <= zlen l.
Proof. unfold count, zlen. pose proof (length_filter P l). lia. Qed.

(** Replacing one element changes the count by the difference of weights. *)
Lemma count_insert l i x y :
  l !! i = Some x -> count P (<[i := y]> l) = count P l - weight x + weight y.
Proof.
  revert i. induction l as [|z l IH]; intros [|i] Hi; simplify_eq/=; rewrite ?count_cons; [lia|].
  rewrite (IH i Hi). lia.
Qed.

Lemma count_alter l i f x :
  l !! i = Some x -> count P (alter f i l) = count P l - weight x + weight (f x).
Proof.
  intros Hi. rewrite <- (count_insert l i x (f x) Hi). f_equal.
  apply list_eq. intros j. rewrite list_lookup_alter. case_decide as Hj.
  - subst. rewrite list_lookup_insert_eq by (apply lookup_lt_is_Some; eauto). by rewrite Hi.
  - by rewrite list_lookup_insert_ne.
Qed.

Lemma count_pos l i x : l !! i = Some x -> P x -> 1 <= count P l.
Proof.
  revert i. induction l as [|z l IH]; intros [|i] Hi HP; simplify_eq/=; rewrite count_cons.
  - unfold weight. rewrite decide_True by done. pose proof (count_nonneg l). lia.
  - specialize (IH i Hi HP). unfold weight. case_decide; lia.
Qed.

Lemma count_all_false l : (forall x, x ∈ l -> ~ P x) -> count P l = 0.
Proof.
  induction l as [|x l IH]; intros Hl; [done|]. rewrite count_cons, IH by set_solver.
  unfold weight. rewrite decide_False by (apply Hl; set_solver). lia.
Qed.

End Count.

(** Two lists that agree on two predicates position by position. *)
Lemma count_ext {A B} (P : A -> Prop) (Q : B -> Prop) `{!forall x, Decision (P x)}
    `{!forall x, Decision (Q x)} l1 l2 :
  length l1 = length l2 ->
  (forall i x y, l1 !! i = Some x -> l2 !! i = Some y -> P x <-> Q y) ->
  count P l1 = count Q l2.
Proof.
  revert l2. induction l1 as [|x l1 IH]; intros [|y l2] Hlen HPQ; try done.
  rewrite !count_cons, (IH l2); [|by injection Hlen|by intros i; apply (HPQ (S i))].
  f_equal. unfold weight. pose proof (HPQ 0%nat x y eq_refl eq_refl).
  destruct (decide (P x)), (decide (Q y)); tauto.
Qed.

(** * Occurrences

    Distinctness is counted: [occ v l] is the number of occurrences of the
    number [v] in [l]. *)

Definition hit (v a : nat) : nat := if decide (a = v) then 1 else 0.
Fixpoint occ (v : nat) (l : list nat) : nat :=
  match l with [] => 0 | a :: l => hit v a + occ v l end.

Lemma hit_refl v : hit v v = 1%nat.
Proof. unfold hit. by rewrite decide_True. Qed.
Lemma hit_ne v a : v <> a -> hit v a = 0%nat.
Proof. intros. unfold hit. by rewrite decide_False. Qed.
Lemma hit_zero v a : hit v a = 0%nat -> v <> a.
Proof. intros Hh ->. by rewrite hit_refl in Hh. Qed.
Lemma occ_app v l1 l2 : occ v (l1 ++ l2) = (occ v l1 + occ v l2)%nat.
Proof. induction l1 as [|a l1 IH]; cbn; lia. Qed.
Lemma occ_cons v a l : occ v (a :: l) = (hit v a + occ v l)%nat.
Proof. done. Qed.
Lemma occ_nil v : occ v [] = 0%nat.
Proof. done. Qed.
Lemma occ_zero v l : occ v l = 0%nat <-> v ∉ l.
Proof.
  induction l as [|a l IH]; cbn; [by split; [intros _; apply not_elem_of_nil|]|].
  rewrite not_elem_of_cons, <- IH. unfold hit. destruct (decide (a = v)) as [->|]; naive_solver lia.
Qed.
Lemma occ_pos v l : v ∈ l -> (1 <= occ v l)%nat.
Proof. intros Hv. destruct (occ v l) eqn:Ho; [|lia]. by apply occ_zero in Ho. Qed.
Lemma NoDup_occ l : NoDup l <-> forall v, (occ v l <= 1)%nat.
Proof.
  induction l as [|a l IH]; cbn; [split; [lia|constructor]|]. rewrite NoDup_cons, IH. split.
  - intros [Ha Hl] v. specialize (Hl v). unfold hit. destruct (decide (a = v)) as [->|]; [|lia].
    apply occ_zero in Ha. lia.
  - intros Hv. split; [|intros v; specialize (Hv v); lia].
    apply occ_zero. specialize (Hv a). rewrite hit_refl in Hv. lia.
Qed.
Lemma occ_Permutation v l1 l2 : l1 ≡ₚ l2 -> occ v l1 = occ v l2.
Proof. induction 1; cbn; lia. Qed.

(** Counts out the occurrences in the lists of [H : forall v, _] at [a]. *)
Ltac occ_norm := rewrite ?occ_app, ?occ_cons, ?occ_nil, ?hit_refl in *.
