(* ===== verification/BpfInstruction.v ===== *)
(** Classic BPF, part 1: the instruction encoding of
    [crates/thekernel-axcbpf/src/instruction.rs]. The constants of the source
    module [opcode] are the constructors of [opcode]; [code_of] gives their raw
    [u16] value and [decode] is the Rust [match] on the raw value, proved to be
    the inverse of [code_of].

    Classic BPF, part 2: Linux socket-filter ancillary metadata, from
    [crates/thekernel-axcbpf/src/ancillary.rs]. An ancillary load is encoded as
    a negative offset in [k]; [ancillary_from_offset] recognises exactly the
    encodings of the supported fields. *)

From S2P Require Import Prelude.
Local Open Scope Z_scope.

Inductive opcode : Type :=
  | LD_IMM | LD_W_ABS | LD_H_ABS | LD_B_ABS | LD_W_IND | LD_H_IND | LD_B_IND
  | LD_MEM | LD_LEN | LDX_IMM | LDX_MEM | LDX_LEN | LDX_B_MSH | ST | STX
  | ALU_ADD_K | ALU_ADD_X | ALU_SUB_K | ALU_SUB_X | ALU_MUL_K | ALU_MUL_X
  | ALU_DIV_K | ALU_DIV_X | ALU_OR_K | ALU_OR_X | ALU_AND_K | ALU_AND_X
  | ALU_LSH_K | ALU_LSH_X | ALU_RSH_K | ALU_RSH_X | ALU_NEG | ALU_MOD_K
  | ALU_MOD_X | ALU_XOR_K | ALU_XOR_X | JMP_JA | JMP_JEQ_K | JMP_JEQ_X
  | JMP_JGT_K | JMP_JGT_X | JMP_JGE_K | JMP_JGE_X | JMP_JSET_K | JMP_JSET_X
  | RET_K | RET_A | MISC_TAX | MISC_TXA.

#[export] Instance opcode_eq_dec : EqDecision opcode.
Proof. solve_decision. Defined.

Definition code_of (o : opcode) : Z :=
  match o with
  | LD_IMM => 0x00
  | LD_W_ABS => 0x20
  | LD_H_ABS => 0x28
  | LD_B_ABS => 0x30
  | LD_W_IND => 0x40
  | LD_H_IND => 0x48
  | LD_B_IND => 0x50
  | LD_MEM => 0x60
  | LD_LEN => 0x80
  | LDX_IMM => 0x01
  | LDX_MEM => 0x61
  | LDX_LEN => 0x81
  | LDX_B_MSH => 0xb1
  | ST => 0x02
  | STX => 0x03
  | ALU_ADD_K => 0x04
  | ALU_ADD_X => 0x0c
  | ALU_SUB_K => 0x14
  | ALU_SUB_X => 0x1c
  | ALU_MUL_K => 0x24
  | ALU_MUL_X => 0x2c
  | ALU_DIV_K => 0x34
  | ALU_DIV_X => 0x3c
  | ALU_OR_K => 0x44
  | ALU_OR_X => 0x4c
  | ALU_AND_K => 0x54
  | ALU_AND_X => 0x5c
  | ALU_LSH_K => 0x64
  | ALU_LSH_X => 0x6c
  | ALU_RSH_K => 0x74
  | ALU_RSH_X => 0x7c
  | ALU_NEG => 0x84
  | ALU_MOD_K => 0x94
  | ALU_MOD_X => 0x9c
  | ALU_XOR_K => 0xa4
  | ALU_XOR_X => 0xac
  | JMP_JA => 0x05
  | JMP_JEQ_K => 0x15
  | JMP_JEQ_X => 0x1d
  | JMP_JGT_K => 0x25
  | JMP_JGT_X => 0x2d
  | JMP_JGE_K => 0x35
  | JMP_JGE_X => 0x3d
  | JMP_JSET_K => 0x45
  | JMP_JSET_X => 0x4d
  | RET_K => 0x06
  | RET_A => 0x16
  | MISC_TAX => 0x07
  | MISC_TXA => 0x87
  end.

Definition all_opcodes : list opcode :=
  [
    LD_IMM; LD_W_ABS; LD_H_ABS; LD_B_ABS; LD_W_IND; LD_H_IND; LD_B_IND;
    LD_MEM; LD_LEN; LDX_IMM; LDX_MEM; LDX_LEN; LDX_B_MSH; ST; STX; ALU_ADD_K;
    ALU_ADD_X; ALU_SUB_K; ALU_SUB_X; ALU_MUL_K; ALU_MUL_X; ALU_DIV_K;
    ALU_DIV_X; ALU_OR_K; ALU_OR_X; ALU_AND_K; ALU_AND_X; ALU_LSH_K;
    ALU_LSH_X; ALU_RSH_K; ALU_RSH_X; ALU_NEG; ALU_MOD_K; ALU_MOD_X;
    ALU_XOR_K; ALU_XOR_X; JMP_JA; JMP_JEQ_K; JMP_JEQ_X; JMP_JGT_K; JMP_JGT_X;
    JMP_JGE_K; JMP_JGE_X; JMP_JSET_K; JMP_JSET_X; RET_K; RET_A; MISC_TAX;
    MISC_TXA].

(** The arm of a [match code { opcode::... }] that a raw value selects. *)
Fixpoint find_opcode (code : Z) (os : list opcode) : option opcode :=
  match os with
  | [] => None
  | o :: os => if code_of o =? code then Some o else find_opcode code os
  end.

Definition decode (code : Z) : option opcode := find_opcode code all_opcodes.

Lemma decode_code_of o : decode (code_of o) = Some o.
Proof. by destruct o. Qed.

Lemma find_opcode_Some code os o : find_opcode code os = Some o -> code = code_of o.
Proof.
  induction os as [|o' os IH]; [done|]. simpl.
  destruct (Z.eqb_spec (code_of o') code); [|done]. by intros [= ->].
Qed.

Lemma decode_Some code o : decode code = Some o <-> code = code_of o.
Proof.
  split; [apply find_opcode_Some|]. intros ->. apply decode_code_of.
Qed.

(** The eight-byte wire instruction. *)
Record Instruction : Type := mkInstruction {
  code : Z;
  jt : Z;
  jf : Z;
  k : Z
}.

#[export] Instance Instruction_eq_dec : EqDecision Instruction.
Proof. solve_decision. Defined.

(** The field widths of [Instruction]: [u16], [u8], [u8], [u32]. *)
Definition instruction_typed (i : Instruction) : Prop :=
  in_u16 (code i) /\ in_u8 (jt i) /\ in_u8 (jf i) /\ in_u32 (k i).

#[export] Instance instruction_typed_dec i : Decision (instruction_typed i).
Proof. unfold instruction_typed. apply _. Defined.

Definition statement (op : Z) (k : Z) : Instruction := mkInstruction op 0 0 k.
Definition jump (op : Z) (k jt jf : Z) : Instruction := mkInstruction op jt jf k.

(** The groups of opcodes the source tests with or-patterns. *)
Definition is_return (o : opcode) : bool :=
  match o with RET_K | RET_A => true | _ => false end.

Definition is_scratch_load (o : opcode) : bool :=
  match o with LD_MEM | LDX_MEM => true | _ => false end.

Definition is_scratch_store (o : opcode) : bool :=
  match o with ST | STX => true | _ => false end.

Definition is_absolute_load (o : opcode) : bool :=
  match o with LD_W_ABS | LD_H_ABS | LD_B_ABS => true | _ => false end.

Definition is_conditional_jump (o : opcode) : bool :=
  match o with
  | JMP_JEQ_K | JMP_JEQ_X | JMP_JGT_K | JMP_JGT_X
  | JMP_JGE_K | JMP_JGE_X | JMP_JSET_K | JMP_JSET_X => true
  | _ => false
  end.

#[export] Hint Rewrite decode_code_of : kernel.

Definition SKF_AD_OFF : Z := 0xfffff000.
Definition SKF_AD_PROTOCOL : Z := 0.
Definition SKF_AD_PKTTYPE : Z := 4.
Definition SKF_AD_IFINDEX : Z := 8.
Definition SKF_AD_MARK : Z := 20.
Definition SKF_AD_QUEUE : Z := 24.
Definition SKF_AD_VLAN_TAG : Z := 44.
Definition SKF_AD_VLAN_TAG_PRESENT : Z := 48.
Definition SKF_AD_VLAN_TPID : Z := 60.
Definition SKF_AD_MAX : Z := 64.

Inductive Ancillary : Type :=
| Protocol | Pkttype | Ifindex | Mark | Queue | VlanTag | VlanTagPresent | VlanTpid.

#[export] Instance Ancillary_eq_dec : EqDecision Ancillary.
Proof. solve_decision. Defined.

Module Ancillary.

Definition offset (f : Ancillary) : Z :=
  match f with
  | Protocol => SKF_AD_PROTOCOL
  | Pkttype => SKF_AD_PKTTYPE
  | Ifindex => SKF_AD_IFINDEX
  | Mark => SKF_AD_MARK
  | Queue => SKF_AD_QUEUE
  | VlanTag => SKF_AD_VLAN_TAG
  | VlanTagPresent => SKF_AD_VLAN_TAG_PRESENT
  | VlanTpid => SKF_AD_VLAN_TPID
  end.

Definition metadata_offset (f : Ancillary) : Z :=
  match f with
  | Protocol => 0
  | Ifindex => 4
  | Pkttype => 8
  | Mark => 12
  | Queue => 16
  | VlanTag => 20
  | VlanTagPresent => 24
  | VlanTpid => 28
  end.

Definition encoded_offset (f : Ancillary) : Z := wrapping_add_u32 SKF_AD_OFF (offset f).

End Ancillary.

Record PacketMetadata : Type := mkPacketMetadata {
  protocol : Z;
  ifindex : Z;
  pkttype : Z;
  mark : Z;
  queue : Z;
  vlan_tag : Z;
  vlan_tag_present : Z;
  vlan_tpid : Z
}.

(** Every field is a [u32]. *)
Definition metadata_typed (m : PacketMetadata) : Prop :=
  in_u32 (protocol m) /\ in_u32 (ifindex m) /\ in_u32 (pkttype m) /\ in_u32 (mark m) /\
  in_u32 (queue m) /\ in_u32 (vlan_tag m) /\ in_u32 (vlan_tag_present m) /\
  in_u32 (vlan_tpid m).

Module PacketMetadata.

(** [PacketMetadata::new]: [u16] arguments are widened, the packet type is
    masked to three bits and the presence flag becomes zero or one. *)
Definition new (protocol ifindex pkttype mark queue vlan_tag : Z)
    (vlan_tag_present : bool) (vlan_tpid : Z) : PacketMetadata :=
  {| protocol := protocol;
     ifindex := ifindex;
     pkttype := Z.land pkttype 7;
     mark := mark;
     queue := queue;
     vlan_tag := vlan_tag;
     vlan_tag_present := if vlan_tag_present then 1 else 0;
     vlan_tpid := vlan_tpid |}.

End PacketMetadata.

(** [Ancillary::read] and [PacketMetadata::ancillary]. *)
Definition read (f : Ancillary) (m : PacketMetadata) : Z :=
  match f with
  | Protocol => protocol m
  | Pkttype => pkttype m
  | Ifindex => ifindex m
  | Mark => mark m
  | Queue => queue m
  | VlanTag => vlan_tag m
  | VlanTagPresent => vlan_tag_present m
  | VlanTpid => vlan_tpid m
  end.

Definition metadata_ancillary (m : PacketMetadata) (f : Ancillary) : Z := read f m.

(** A packet with its metadata snapshot; bytes are integers in [0, 255]. *)
Record PacketInput : Type := mkPacketInput {
  bytes : list Z;
  metadata : PacketMetadata
}.

Definition ancillary_from_offset (offset : Z) : option Ancillary :=
  if offset =? wrapping_add_u32 SKF_AD_OFF SKF_AD_PROTOCOL then Some Protocol
  else if offset =? wrapping_add_u32 SKF_AD_OFF SKF_AD_PKTTYPE then Some Pkttype
  else if offset =? wrapping_add_u32 SKF_AD_OFF SKF_AD_IFINDEX then Some Ifindex
  else if offset =? wrapping_add_u32 SKF_AD_OFF SKF_AD_MARK then Some Mark
  else if offset =? wrapping_add_u32 SKF_AD_OFF SKF_AD_QUEUE then Some Queue
  else if offset =? wrapping_add_u32 SKF_AD_OFF SKF_AD_VLAN_TAG then Some VlanTag
  else if offset =? wrapping_add_u32 SKF_AD_OFF SKF_AD_VLAN_TAG_PRESENT
    then Some VlanTagPresent
  else if offset =? wrapping_add_u32 SKF_AD_OFF SKF_AD_VLAN_TPID then Some VlanTpid
  else None.

Definition is_ancillary_offset (offset : Z) : bool :=
  wrapping_sub_u32 offset SKF_AD_OFF <? SKF_AD_MAX.

(** ** Facts *)

Lemma encoded_offset_negative f : Z.land (Ancillary.encoded_offset f) 0x80000000 <> 0.
Proof. by destruct f. Qed.

Lemma ancillary_from_offset_encoded f :
  ancillary_from_offset (Ancillary.encoded_offset f) = Some f.
Proof. by destruct f. Qed.

Lemma ancillary_from_offset_Some offset f :
  ancillary_from_offset offset = Some f -> offset = Ancillary.encoded_offset f.
Proof.
  unfold ancillary_from_offset.
  repeat match goal with
  | |- (if ?a =? ?b then _ else _) = _ -> _ => destruct (Z.eqb_spec a b)
  end; intros; simplify_eq; done.
Qed.

Lemma metadata_ancillary_typed m f : metadata_typed m -> in_u32 (metadata_ancillary m f).
Proof. unfold metadata_typed. intros. destruct f; simpl; tauto. Qed.

#[export] Hint Resolve metadata_ancillary_typed : kernel.

Lemma new_typed protocol ifindex pkttype mark queue vlan_tag present vlan_tpid :
  in_u16 protocol -> in_u32 ifindex -> in_u32 pkttype -> in_u32 mark -> in_u16 queue ->
  in_u16 vlan_tag -> in_u16 vlan_tpid ->
  metadata_typed
    (PacketMetadata.new protocol ifindex pkttype mark queue vlan_tag present vlan_tpid).
Proof.
  intros. assert (in_u32 (Z.land pkttype 7)) by (apply land_u32; [done|]; unfold in_u32, u32_MAX; lia).
  unfold metadata_typed, in_u16, in_u32, u16_MAX, u32_MAX in *; simpl.
  destruct present; lia.
Qed.
