(* ===== verification/BpfProgram.v ===== *)
(** Classic BPF, part 3: the verifier and the interpreter of
    [crates/thekernel-axcbpf/src/program.rs].

    [verify_program] is the two-pass verifier ([verify_structure], then the
    forward all-paths scratch analysis [verify_scratch_initialization]);
    [evaluate_counted] is the interpreter loop. Every way in which the Rust
    code can panic (slice index, division, [unreachable!]) is the explicit
    outcome [Panicked]. *)

From S2P Require Import Prelude BpfInstruction.
Local Open Scope Z_scope.
Local Open Scope kernel_scope.

Definition MAX_INSTRUCTIONS : Z := 4096.
Definition SCRATCH_WORDS : Z := 16.

Inductive LoadWidth : Type := Byte | Half | Word.

Definition width_bytes (w : LoadWidth) : Z :=
  match w with Byte => 1 | Half => 2 | Word => 4 end.

(** The trait [Input]; [input_ancillary] defaults to [None] for byte inputs. *)
Class Input (I : Type) : Type := {
  input_len : I -> Z;
  input_load : I -> Z -> LoadWidth -> option Z;
  input_ancillary : I -> Ancillary -> option Z
}.

(** What the return types of the trait promise: every value is a [u32]. *)
Class InputTyped (I : Type) `{Input I} (wf : I -> Prop) : Prop := {
  input_len_u32 i : wf i -> in_u32 (input_len i);
  input_load_u32 i off w v : wf i -> input_load i off w = Some v -> in_u32 v;
  input_ancillary_u32 i f v : wf i -> input_ancillary i f = Some v -> in_u32 v
}.

(** [impl Input for [u8]]: network byte order. *)
Definition from_be_bytes (bs : list Z) : Z := fold_left (fun acc b => acc * 256 + b) bs 0.

(** [slice.get(start..end)] *)
Definition get_range {A} (l : list A) (start finish : Z) : option (list A) :=
  if (0 <=? start) && (start <=? finish) && (finish <=? zlen l)
  then Some (take (Z.to_nat (finish - start)) (drop (Z.to_nat start) l)) else None.

Definition bytes_len (b : list Z) : Z := if zlen b <=? u32_MAX then zlen b else u32_MAX.

Definition bytes_load (b : list Z) (offset : Z) (w : LoadWidth) : option Z :=
  match checked_add_usize offset (width_bytes w) with
  | None => None
  | Some finish =>
      match get_range b offset finish with
      | None => None
      | Some bs => Some (from_be_bytes bs)
      end
  end.

#[export] Instance bytes_input : Input (list Z) := {
  input_len := bytes_len;
  input_load := bytes_load;
  input_ancillary _ _ := None
}.

(** [impl Input for PacketInput]. *)
#[export] Instance packet_input : Input PacketInput := {
  input_len p := bytes_len (bytes p);
  input_load p := bytes_load (bytes p);
  input_ancillary p f := Some (metadata_ancillary (metadata p) f)
}.

Inductive VerifyError : Type :=
| Empty
| TooLong (length : Z)
| NoMemory
| UnsupportedOpcode (pc : Z) (code : Z)
| UnsupportedAncillaryLoad (pc : Z) (offset : Z)
| ImmediateDivisionByZero (pc : Z)
| ImmediateShiftOutOfRange (pc : Z) (shift : Z)
| ScratchOutOfRange (pc : Z) (index : Z)
| ScratchUninitialized (pc : Z) (index : Z)
| JumpOutOfRange (pc : Z)
| MissingFinalReturn.

(** ** The structural pass *)

Definition is_supported (code : Z) : bool :=
  match decode code with
  | Some (LD_IMM | LD_W_ABS | LD_H_ABS | LD_B_ABS | LD_W_IND | LD_H_IND | LD_B_IND
         | LD_MEM | LD_LEN | LDX_IMM | LDX_MEM | LDX_LEN | LDX_B_MSH | ST | STX
         | ALU_ADD_K | ALU_ADD_X | ALU_SUB_K | ALU_SUB_X | ALU_MUL_K | ALU_MUL_X
         | ALU_DIV_K | ALU_DIV_X | ALU_OR_K | ALU_OR_X | ALU_AND_K | ALU_AND_X
         | ALU_LSH_K | ALU_LSH_X | ALU_RSH_K | ALU_RSH_X | ALU_NEG | ALU_MOD_K
         | ALU_MOD_X | ALU_XOR_K | ALU_XOR_X | JMP_JA | JMP_JEQ_K | JMP_JEQ_X
         | JMP_JGT_K | JMP_JGT_X | JMP_JGE_K | JMP_JGE_X | JMP_JSET_K | JMP_JSET_X
         | RET_K | RET_A | MISC_TAX | MISC_TXA) => true
  | None => false
  end.

(** The body of the [for] loop: the checks of one instruction. *)
Definition verify_instruction (len pc : Z) (i : Instruction) : result unit VerifyError :=
  if negb (is_supported (code i)) then Err (UnsupportedOpcode pc (code i)) else
  match decode (code i) with
  | Some (ALU_DIV_K | ALU_MOD_K) =>
      if k i =? 0 then Err (ImmediateDivisionByZero pc) else Ok tt
  | Some (ALU_LSH_K | ALU_RSH_K) =>
      if 32 <=? k i then Err (ImmediateShiftOutOfRange pc (k i)) else Ok tt
  | Some (LD_MEM | LDX_MEM | ST | STX) =>
      if SCRATCH_WORDS <=? k i then Err (ScratchOutOfRange pc (k i)) else Ok tt
  | Some JMP_JA =>
      match checked_add_usize pc 1 ≫= (fun next => checked_add_usize next (k i)) with
      | None => Err (JumpOutOfRange pc)
      | Some target => if len <=? target then Err (JumpOutOfRange pc) else Ok tt
      end
  | Some (JMP_JEQ_K | JMP_JEQ_X | JMP_JGT_K | JMP_JGT_X
         | JMP_JGE_K | JMP_JGE_X | JMP_JSET_K | JMP_JSET_X) =>
      let true_target := pc + 1 + jt i in
      let false_target := pc + 1 + jf i in
      if (len <=? true_target) || (len <=? false_target)
      then Err (JumpOutOfRange pc) else Ok tt
  | Some (LD_W_ABS | LD_H_ABS | LD_B_ABS) =>
      if negb (Z.land (k i) 0x80000000 =? 0) &&
         match ancillary_from_offset (k i) with None => true | Some _ => false end
      then Err (UnsupportedAncillaryLoad pc (k i)) else Ok tt
  | Some LDX_B_MSH =>
      if negb (Z.land (k i) 0x80000000 =? 0)
      then Err (UnsupportedAncillaryLoad pc (k i)) else Ok tt
  | _ => Ok tt
  end.

Fixpoint verify_instructions (len pc : Z) (l : list Instruction) : result unit VerifyError :=
  match l with
  | [] => Ok tt
  | i :: l =>
      let? _ := verify_instruction len pc i in
      verify_instructions len (pc + 1) l
  end.

Definition ends_in_return (l : list Instruction) : bool :=
  match last l ≫= (fun i => decode (code i)) with
  | Some (RET_K | RET_A) => true
  | _ => false
  end.

Definition verify_structure (instructions : list Instruction) : result unit VerifyError :=
  if zlen instructions =? 0 then Err Empty else
  if MAX_INSTRUCTIONS <? zlen instructions then Err (TooLong (zlen instructions)) else
  let? _ := verify_instructions (zlen instructions) 0 instructions in
  if negb (ends_in_return instructions) then Err MissingFinalReturn else Ok tt.

(** ** The scratch pass

    [incoming] holds, per instruction, the set of scratch words initialized on
    every path analysed so far ([None]: not reached yet). *)

Definition merge_initialized (slot : option Z) (incoming : Z) : option Z :=
  Some (match slot with
        | Some existing => Z.land existing incoming
        | None => incoming
        end).

(** A store to [incoming[target]]; an index out of range panics. *)
Definition merge_at (incoming : list (option Z)) (target initialized : Z)
    : option (list (option Z)) :=
  match get incoming target with
  | Some slot => put incoming target (merge_initialized slot initialized)
  | None => None
  end.

(** Outcome of one analysis step: the updated table, an error or a panic. *)
Inductive scratch_step : Type :=
| ScratchNext (incoming : list (option Z))
| ScratchError (e : VerifyError)
| ScratchPanic.

Definition of_merge (o : option (list (option Z))) : scratch_step :=
  match o with Some t => ScratchNext t | None => ScratchPanic end.

(** [1_u16 << k]; the structural pass has established [k < 16]. *)
Definition scratch_bit (k : Z) : Z := Z.shiftl 1 k.

Definition verify_scratch_at (incoming : list (option Z)) (pc : Z) (i : Instruction)
    : scratch_step :=
  match get incoming pc with
  | None => ScratchPanic
  | Some None => ScratchNext incoming
  | Some (Some initialized) =>
      let checked :=
        match decode (code i) with
        | Some (LD_MEM | LDX_MEM) =>
            if Z.land initialized (scratch_bit (k i)) =? 0
            then Err (ScratchUninitialized pc (k i)) else Ok initialized
        | Some (ST | STX) => Ok (Z.lor initialized (scratch_bit (k i)))
        | _ => Ok initialized
        end in
      match checked with
      | Err e => ScratchError e
      | Ok initialized =>
          match decode (code i) with
          | Some (RET_K | RET_A) => ScratchNext incoming
          | Some JMP_JA => of_merge (merge_at incoming (pc + 1 + k i) initialized)
          | Some (JMP_JEQ_K | JMP_JEQ_X | JMP_JGT_K | JMP_JGT_X
                 | JMP_JGE_K | JMP_JGE_X | JMP_JSET_K | JMP_JSET_X) =>
              match merge_at incoming (pc + 1 + jt i) initialized with
              | None => ScratchPanic
              | Some incoming => of_merge (merge_at incoming (pc + 1 + jf i) initialized)
              end
          | _ => of_merge (merge_at incoming (pc + 1) initialized)
          end
      end
  end.

Fixpoint verify_scratch_loop (incoming : list (option Z)) (pc : Z) (l : list Instruction)
    : scratch_step :=
  match l with
  | [] => ScratchNext incoming
  | i :: l =>
      match verify_scratch_at incoming pc i with
      | ScratchNext incoming => verify_scratch_loop incoming (pc + 1) l
      | stop => stop
      end
  end.

(** Outcome of a verifier entry point: a result or a panic. *)
Inductive verdict (A : Type) : Type :=
| Verdict (r : result A VerifyError)
| VerifierPanic.
Arguments Verdict {A} r.
Arguments VerifierPanic {A}.

(** The two fallible allocations, by site. *)
Inductive allocation_site : Type := IncomingTable | OwnedCopy.

Section WithAllocator.

(** [try_reserve_exact] succeeds or fails by the allocator's choice. *)
Variable try_reserve_exact : allocation_site -> Z -> bool.

Definition verify_scratch_initialization (instructions : list Instruction) : verdict unit :=
  if negb (try_reserve_exact IncomingTable (zlen instructions))
  then Verdict (Err NoMemory) else
  match put (replicate (length instructions) None) 0 (Some 0) with
  | None => VerifierPanic
  | Some incoming =>
      match verify_scratch_loop incoming 0 instructions with
      | ScratchNext _ => Verdict (Ok tt)
      | ScratchError e => Verdict (Err e)
      | ScratchPanic => VerifierPanic
      end
  end.

Definition verify_program (instructions : list Instruction) : verdict unit :=
  match verify_structure instructions with
  | Err e => Verdict (Err e)
  | Ok _ => verify_scratch_initialization instructions
  end.

(** [Program]: an instruction vector owned after verification. *)
Record Program : Type := mkProgram { instructions : list Instruction }.

Definition verify (raw : list Instruction) : verdict Program :=
  match verify_program raw with
  | VerifierPanic => VerifierPanic
  | Verdict (Err e) => Verdict (Err e)
  | Verdict (Ok _) =>
      if negb (try_reserve_exact OwnedCopy (zlen raw)) then Verdict (Err NoMemory)
      else Verdict (Ok (mkProgram raw))
  end.

Definition try_from_vec (raw : list Instruction) : verdict Program :=
  match verify_program raw with
  | VerifierPanic => VerifierPanic
  | Verdict (Err e) => Verdict (Err e)
  | Verdict (Ok _) => Verdict (Ok (mkProgram raw))
  end.

End WithAllocator.

Definition program_len (p : Program) : Z := zlen (instructions p).
Definition is_empty (p : Program) : bool := zlen (instructions p) =? 0.

Definition uses_ancillary (p : Program) : bool :=
  existsb (fun i =>
    match decode (code i) with
    | Some (LD_W_ABS | LD_H_ABS | LD_B_ABS) =>
        match ancillary_from_offset (k i) with Some _ => true | None => false end
    | _ => false
    end) (instructions p).

(** ** The interpreter *)

Record Machine : Type := mkMachine {
  accumulator : Z;
  index : Z;
  scratch : list Z;
  pc : Z
}.

(** Outcome of one loop iteration. *)
Inductive step_outcome : Type :=
| Continue (m : Machine)
| Return (v : Z)
| Crash.

(** Assignments of the loop body followed by [pc += 1]. *)
Definition set_a (m : Machine) (a : Z) : step_outcome :=
  Continue (mkMachine a (index m) (scratch m) (pc m + 1)).
Definition set_x (m : Machine) (x : Z) : step_outcome :=
  Continue (mkMachine (accumulator m) x (scratch m) (pc m + 1)).
Definition jump_to (m : Machine) (target : Z) : step_outcome :=
  Continue (mkMachine (accumulator m) (index m) (scratch m) target).

Definition load_scratch (m : Machine) (k : Z) (assign : Machine -> Z -> step_outcome)
    : step_outcome :=
  match get (scratch m) k with Some v => assign m v | None => Crash end.

Definition store_scratch (m : Machine) (k v : Z) : step_outcome :=
  match put (scratch m) k v with
  | Some s => Continue (mkMachine (accumulator m) (index m) s (pc m + 1))
  | None => Crash
  end.

(** A zero divisor panics in the immediate forms (the register forms test it). *)
Definition divide (m : Machine) (f : Z -> Z -> Z) (d : Z) : step_outcome :=
  if d =? 0 then Crash else set_a m (f (accumulator m) d).

Section Evaluate.
Context {I : Type} `{Input I}.

Definition load_absolute (input : I) (m : Machine) (k : Z) (w : LoadWidth) : step_outcome :=
  match ancillary_from_offset k with
  | Some field => set_a m (default 0 (input_ancillary input field))
  | None =>
      match input_load input k w with
      | Some v => set_a m v
      | None => Return 0
      end
  end.

Definition load_indirect (input : I) (m : Machine) (k : Z) (w : LoadWidth) : step_outcome :=
  match checked_add_u32 (index m) k with
  | None => Return 0
  | Some offset =>
      match input_load input offset w with
      | Some v => set_a m v
      | None => Return 0
      end
  end.

(** The condition of a conditional jump. *)
Definition jump_condition (o : opcode) (a operand : Z) : option bool :=
  match o with
  | JMP_JEQ_K | JMP_JEQ_X => Some (a =? operand)
  | JMP_JGT_K | JMP_JGT_X => Some (operand <? a)
  | JMP_JGE_K | JMP_JGE_X => Some (operand <=? a)
  | JMP_JSET_K | JMP_JSET_X => Some (negb (Z.land a operand =? 0))
  | _ => None
  end.

Definition jump_operand (o : opcode) (m : Machine) (k : Z) : Z :=
  match o with
  | JMP_JEQ_X | JMP_JGT_X | JMP_JGE_X | JMP_JSET_X => index m
  | _ => k
  end.

Definition conditional_jump (o : opcode) (m : Machine) (i : Instruction) : step_outcome :=
  match jump_condition o (accumulator m) (jump_operand o m (k i)) with
  | Some condition => jump_to m (pc m + 1 + (if condition then jt i else jf i))
  | None => Crash
  end.

Definition execute (input : I) (i : Instruction) (m : Machine) : step_outcome :=
  let a := accumulator m in
  let x := index m in
  let k := k i in
  match decode (code i) with
  | Some LD_IMM => set_a m k
  | Some LD_W_ABS => load_absolute input m k Word
  | Some LD_H_ABS => load_absolute input m k Half
  | Some LD_B_ABS => load_absolute input m k Byte
  | Some LD_W_IND => load_indirect input m k Word
  | Some LD_H_IND => load_indirect input m k Half
  | Some LD_B_IND => load_indirect input m k Byte
  | Some LD_MEM => load_scratch m k set_a
  | Some LD_LEN => set_a m (input_len input)
  | Some LDX_IMM => set_x m k
  | Some LDX_MEM => load_scratch m k set_x
  | Some LDX_LEN => set_x m (input_len input)
  | Some LDX_B_MSH =>
      match input_load input k Byte with
      | Some v => set_x m (wrap_u32 (Z.shiftl (Z.land v 15) 2))
      | None => Return 0
      end
  | Some ST => store_scratch m k a
  | Some STX => store_scratch m k x
  | Some ALU_ADD_K => set_a m (wrapping_add_u32 a k)
  | Some ALU_ADD_X => set_a m (wrapping_add_u32 a x)
  | Some ALU_SUB_K => set_a m (wrapping_sub_u32 a k)
  | Some ALU_SUB_X => set_a m (wrapping_sub_u32 a x)
  | Some ALU_MUL_K => set_a m (wrapping_mul_u32 a k)
  | Some ALU_MUL_X => set_a m (wrapping_mul_u32 a x)
  | Some ALU_DIV_K => divide m Z.div k
  | Some ALU_DIV_X => if x =? 0 then Return 0 else divide m Z.div x
  | Some ALU_OR_K => set_a m (Z.lor a k)
  | Some ALU_OR_X => set_a m (Z.lor a x)
  | Some ALU_AND_K => set_a m (Z.land a k)
  | Some ALU_AND_X => set_a m (Z.land a x)
  | Some ALU_LSH_K => set_a m (wrapping_shl_u32 a k)
  | Some ALU_LSH_X => set_a m (wrapping_shl_u32 a (Z.land x 31))
  | Some ALU_RSH_K => set_a m (wrapping_shr_u32 a k)
  | Some ALU_RSH_X => set_a m (wrapping_shr_u32 a (Z.land x 31))
  | Some ALU_NEG => set_a m (wrapping_neg_u32 a)
  | Some ALU_MOD_K => divide m Z.modulo k
  | Some ALU_MOD_X => if x =? 0 then Return 0 else divide m Z.modulo x
  | Some ALU_XOR_K => set_a m (Z.lxor a k)
  | Some ALU_XOR_X => set_a m (Z.lxor a x)
  | Some JMP_JA => jump_to m (pc m + 1 + k)
  | Some ((JMP_JEQ_K | JMP_JEQ_X | JMP_JGT_K | JMP_JGT_X
          | JMP_JGE_K | JMP_JGE_X | JMP_JSET_K | JMP_JSET_X) as o) => conditional_jump o m i
  | Some RET_K => Return k
  | Some RET_A => Return a
  | Some MISC_TAX => set_x m a
  | Some MISC_TXA => set_a m x
  | None => Crash
  end.

(** Outcome of an evaluation: a value with the number of executed
    instructions, or a panic. *)
Inductive evaluation : Type :=
| Evaluated (value : Z) (steps : Z)
| Panicked.

(** [while steps < self.instructions.len()]; [fuel] is [len - steps], so the
    [unreachable!] after the loop is the case [fuel = 0]. *)
Fixpoint evaluate_loop (input : I) (l : list Instruction) (fuel : nat) (steps : Z)
    (m : Machine) : evaluation :=
  match fuel with
  | O => Panicked
  | S fuel =>
      match get l (pc m) with
      | None => Panicked
      | Some i =>
          match execute input i m with
          | Continue m => evaluate_loop input l fuel (steps + 1) m
          | Return v => Evaluated v (steps + 1)
          | Crash => Panicked
          end
      end
  end.

Definition initial_machine : Machine :=
  mkMachine 0 0 (replicate (Z.to_nat SCRATCH_WORDS) 0) 0.

Definition evaluate_counted (p : Program) (input : I) : evaluation :=
  evaluate_loop input (instructions p) (length (instructions p)) 0 initial_machine.

Definition evaluate (p : Program) (input : I) : option Z :=
  match evaluate_counted p input with
  | Evaluated v _ => Some v
  | Panicked => None
  end.

End Evaluate.
