(* ===== verification/BpfControlFlow.v ===== *)
(** Classic BPF, part 4: what the structural pass establishes.

    The control-flow graph of a program ([successors], [cfg_path]) is stated
    independently of the verifier. A structurally verified program only has
    forward edges inside the program, and one interpreter step on a verified
    instruction never crashes, keeps every register a [u32], keeps the scratch
    store at sixteen words and moves along an edge of the graph.

    Classic BPF, part 5: the all-paths scratch analysis.

    [verify_scratch_initialization] is one forward sweep over a table of bit
    sets. The lemmas here show that the sweep computes the meet over all paths
    of the control-flow graph: after it has processed the instructions below
    [j], every table entry is covered by paths from below and from above
    ([table_lower], [table_upper]). Since all edges go forward, an entry is
    final when its instruction is processed. *)

From S2P Require Import Prelude BpfInstruction BpfProgram.
Local Open Scope Z_scope.

(** Possible next program counters of the instruction at [pc]. *)
Definition successors (pc : Z) (i : Instruction) : list Z :=
  match decode (code i) with
  | Some o =>
      if is_return o then []
      else if is_conditional_jump o then [pc + 1 + jt i; pc + 1 + jf i]
      else match o with JMP_JA => [pc + 1 + k i] | _ => [pc + 1] end
  | None => []
  end.

(** Effect of an instruction on the set of initialized scratch words. *)
Definition transfer (i : Instruction) (initialized : Z) : Z :=
  match decode (code i) with
  | Some o => if is_scratch_store o then Z.lor initialized (scratch_bit (k i)) else initialized
  | None => initialized
  end.

(** [cfg_path l pc m]: some path of the control-flow graph leads from the entry
    to [pc] and stores exactly the scratch words of the bit set [m]. *)
Inductive cfg_path (l : list Instruction) : Z -> Z -> Prop :=
| cfg_path_entry : cfg_path l 0 0
| cfg_path_edge pc m i s :
    cfg_path l pc m -> get l pc = Some i -> s ∈ successors pc i ->
    cfg_path l s (transfer i m).

(** The invariant of machine states: register widths and scratch size. *)
Definition machine_typed (m : Machine) : Prop :=
  in_u32 (accumulator m) /\ in_u32 (index m) /\ Forall in_u32 (scratch m) /\
  zlen (scratch m) = SCRATCH_WORDS.

(** What the structural pass checks, as a predicate. *)
Definition structure_ok (l : list Instruction) : Prop :=
  0 < zlen l <= MAX_INSTRUCTIONS /\
  (forall pc i, get l pc = Some i -> verify_instruction (zlen l) pc i = Ok tt) /\
  ends_in_return l = true.

(** The conditions the structural pass imposes on one supported instruction. *)
Definition instruction_checks (len pc : Z) (i : Instruction) (o : opcode) : Prop :=
  match o with
  | ALU_DIV_K | ALU_MOD_K => k i <> 0
  | ALU_LSH_K | ALU_RSH_K => k i < 32
  | LD_MEM | LDX_MEM | ST | STX => k i < SCRATCH_WORDS
  | JMP_JA => pc + 1 + k i < len
  | JMP_JEQ_K | JMP_JEQ_X | JMP_JGT_K | JMP_JGT_X
  | JMP_JGE_K | JMP_JGE_X | JMP_JSET_K | JMP_JSET_X =>
      pc + 1 + jt i < len /\ pc + 1 + jf i < len
  | LD_W_ABS | LD_H_ABS | LD_B_ABS =>
      Z.land (k i) 0x80000000 = 0 \/ exists f, k i = Ancillary.encoded_offset f
  | LDX_B_MSH => Z.land (k i) 0x80000000 = 0
  | _ => True
  end.

Lemma verify_instruction_Ok len pc i :
  0 <= pc -> in_u32 (k i) -> len <= MAX_INSTRUCTIONS ->
  verify_instruction len pc i = Ok tt <->
  exists o, decode (code i) = Some o /\ instruction_checks len pc i o.
Proof.
  intros Hpc Hk Hlen. unfold in_u32, u32_MAX, MAX_INSTRUCTIONS in *.
  unfold verify_instruction, is_supported.
  generalize (decode (code i)). intros [o|]; [|split; [done|by intros (? & ? & _)]].
  transitivity (instruction_checks len pc i o);
    [|split; [by exists o|by intros (? & [= <-] & ?)]].
  assert (forall b (e : VerifyError) (P : Prop), (b = false <-> P) ->
    (if b then Err e else Ok tt) = Ok tt <-> P) as Hif
    by (intros [] e P <-; done).
  assert (checked_add_usize pc 1 ≫= (fun next => checked_add_usize next (k i)) =
    if pc + 1 + k i <=? usize_MAX then Some (pc + 1 + k i) else None) as Hadd.
  { unfold checked_add_usize. destruct (Z.leb_spec (pc + 1) usize_MAX); [done|].
    simpl. destruct (Z.leb_spec (pc + 1 + k i) usize_MAX); [lia|done]. }
  rewrite Hadd. unfold usize_MAX, u64_MAX.
  destruct o; simpl; unfold SCRATCH_WORDS; try done; try (apply Hif; lia).
  1-3: apply Hif; destruct (ancillary_from_offset (k i)) as [f|] eqn:Hf;
    [apply ancillary_from_offset_Some in Hf; rewrite andb_false_r; split; eauto|];
    rewrite andb_true_r, negb_false_iff, Z.eqb_eq; split; [auto|];
    intros [?|[f Hk']]; [done|]; by rewrite Hk', ancillary_from_offset_encoded in Hf.
  destruct (Z.leb_spec (pc + 1 + k i) 18446744073709551615); [apply Hif; lia|].
  split; [done|lia].
Qed.

(** ** The loop over the instructions *)

Lemma verify_instructions_Ok len pc l :
  verify_instructions len pc l = Ok tt <->
  forall n i, l !! n = Some i -> verify_instruction len (pc + Z.of_nat n) i = Ok tt.
Proof.
  revert pc. induction l as [|j l IH]; intros pc; simpl.
  - split; [by intros _ n i|done].
  - destruct (verify_instruction len pc j) as [[]|e] eqn:E.
    + rewrite IH. split.
      * intros Hl [|n] i Hi; simplify_eq/=; [by rewrite Z.add_0_r|].
        rewrite <- (Hl _ _ Hi). f_equal. lia.
      * intros Hl n i Hi. rewrite <- (Hl (S n) i Hi). f_equal. lia.
    + split; [done|]. intros Hl. specialize (Hl 0%nat j eq_refl).
      rewrite Z.add_0_r in Hl. congruence.
Qed.

Lemma verify_structure_Ok l : verify_structure l = Ok tt <-> structure_ok l.
Proof.
  unfold verify_structure, structure_ok, MAX_INSTRUCTIONS.
  pose proof (zlen_nonneg l).
  destruct (Z.eqb_spec (zlen l) 0) as [?|Hne]; [split; [done|]; intros; lia|].
  destruct (Z.ltb_spec 4096 (zlen l)); [split; [done|]; intros; lia|].
  assert (verify_instructions (zlen l) 0 l = Ok tt <->
    forall pc i, get l pc = Some i -> verify_instruction (zlen l) pc i = Ok tt) as Heq.
  { rewrite verify_instructions_Ok. split.
    - intros Hl pc i [? Hi]%get_Some. rewrite <- (Hl _ _ Hi). f_equal. lia.
    - intros Hl n i Hi. apply Hl. by rewrite Z.add_0_l, get_nat. }
  destruct (verify_instructions (zlen l) 0 l) as [[]|e].
  - destruct (ends_in_return l); simpl; naive_solver lia.
  - split; [done|]. intros (_ & Hall & _). by apply Heq in Hall.
Qed.

(** ** Edges go forward and stay inside the program *)

Lemma ends_in_return_last l i :
  ends_in_return l = true -> get l (zlen l - 1) = Some i ->
  exists o, decode (code i) = Some o /\ is_return o = true.
Proof.
  unfold ends_in_return. rewrite last_lookup. intros Hret [? Hi]%get_Some.
  replace (Z.to_nat (zlen l - 1)) with (pred (length l)) in Hi by (unfold zlen; lia).
  rewrite Hi in Hret. simpl in Hret.
  destruct (decode (code i)) as [o|]; [|done]. exists o. by destruct o.
Qed.

Lemma fallthrough_in_range l pc i o :
  structure_ok l -> get l pc = Some i -> decode (code i) = Some o ->
  is_return o = false -> pc + 1 < zlen l.
Proof.
  intros (_ & _ & Hret) Hget Hdec Hno. pose proof (get_Some _ _ _ Hget) as [? _].
  destruct (decide (pc = zlen l - 1)) as [->|]; [|lia].
  destruct (ends_in_return_last _ _ Hret Hget) as (o' & ? & ?). congruence.
Qed.

Lemma successors_in_range l pc i s :
  structure_ok l -> Forall instruction_typed l -> get l pc = Some i ->
  s ∈ successors pc i -> pc < s < zlen l.
Proof.
  intros Hok Htyped Hget Hs. pose proof Hok as (Hlen & Hall & _).
  specialize (Hall _ _ Hget). destruct (get_Some _ _ _ Hget) as [Hpc Hlook].
  apply (Forall_lookup_1 _ _ _ _ Htyped) in Hlook as (_ & Hjt & Hjf & Hk).
  apply verify_instruction_Ok in Hall as (o & Hdec & Hchk); [|lia..|done|lia].
  pose proof (fallthrough_in_range l pc i o Hok Hget Hdec) as Hfall.
  unfold in_u8, in_u32, u8_MAX, u32_MAX, MAX_INSTRUCTIONS in *.
  unfold successors in Hs. rewrite Hdec in Hs.
  destruct o; simpl in *; rewrite ?elem_of_cons, ?elem_of_nil in Hs;
    specialize (Hfall eq_refl) || clear Hfall; lia || naive_solver lia.
Qed.

Lemma cfg_path_in_range l pc m :
  structure_ok l -> Forall instruction_typed l -> cfg_path l pc m -> 0 <= pc < zlen l.
Proof.
  intros Hok Ht. destruct 1 as [|pc m i s Hpath Hget Hs].
  - destruct Hok as ((? & ?) & _). lia.
  - pose proof (successors_in_range l pc i s Hok Ht Hget Hs).
    apply get_Some in Hget. lia.
Qed.

(** ** One interpreter step on a verified instruction *)

(** What the outcome of a step promises, relative to the machine before it. *)
Definition step_safe (i : Instruction) (m : Machine) (o : step_outcome) : Prop :=
  match o with
  | Continue m' => machine_typed m' /\ pc m' ∈ successors (pc m) i
  | Return v => in_u32 v
  | Crash => False
  end.

Lemma machine_typed_set_a m a target :
  machine_typed m -> in_u32 a ->
  machine_typed (mkMachine a (index m) (scratch m) target).
Proof. unfold machine_typed. simpl. tauto. Qed.

Lemma machine_typed_set_x m x target :
  machine_typed m -> in_u32 x ->
  machine_typed (mkMachine (accumulator m) x (scratch m) target).
Proof. unfold machine_typed. simpl. tauto. Qed.

Lemma machine_typed_jump m target :
  machine_typed m -> machine_typed (mkMachine (accumulator m) (index m) (scratch m) target).
Proof. unfold machine_typed. simpl. tauto. Qed.

Lemma zero_u32 : in_u32 0.
Proof. unfold in_u32, u32_MAX. lia. Qed.

#[export] Hint Resolve machine_typed_set_a machine_typed_set_x machine_typed_jump
  zero_u32 : kernel.

Lemma set_a_safe i m a :
  machine_typed m -> pc m + 1 ∈ successors (pc m) i -> in_u32 a -> step_safe i m (set_a m a).
Proof. intros. split; [by apply machine_typed_set_a|done]. Qed.

Lemma set_x_safe i m x :
  machine_typed m -> pc m + 1 ∈ successors (pc m) i -> in_u32 x -> step_safe i m (set_x m x).
Proof. intros. split; [by apply machine_typed_set_x|done]. Qed.

Lemma load_scratch_safe i m kk assign :
  machine_typed m -> 0 <= kk < SCRATCH_WORDS ->
  (forall v, in_u32 v -> step_safe i m (assign m v)) ->
  step_safe i m (load_scratch m kk assign).
Proof.
  intros (_ & _ & Hall & Hlen) Hk Hassign. unfold load_scratch.
  destruct (get_in_range (scratch m) kk) as [v Hv]; [lia|]. rewrite Hv.
  apply Hassign. apply get_Some in Hv as [_ Hv]. by eapply Forall_lookup_1.
Qed.

Lemma store_scratch_safe i m kk v :
  machine_typed m -> 0 <= kk < SCRATCH_WORDS -> in_u32 v ->
  pc m + 1 ∈ successors (pc m) i -> step_safe i m (store_scratch m kk v).
Proof.
  intros (Ha & Hx & Hall & Hlen) Hk Hv Hsucc. unfold store_scratch.
  rewrite put_in_range by lia. split; [|done].
  repeat split; simpl; auto.
  - apply Ha.
  - apply Ha.
  - apply Hx.
  - apply Hx.
  - by apply Forall_insert.
  - by rewrite zlen_insert.
Qed.

Section StepSafety.
Context {I : Type} `{HI : Input I} {wf : I -> Prop} `{!InputTyped I wf}.

Lemma load_absolute_safe (input : I) i m kk w :
  wf input -> machine_typed m -> pc m + 1 ∈ successors (pc m) i ->
  step_safe i m (load_absolute input m kk w).
Proof.
  intros Hwf Hm Hsucc. unfold load_absolute.
  destruct (ancillary_from_offset kk) as [f|].
  - split; [|done]. apply machine_typed_set_a; [done|].
    destruct (input_ancillary input f) eqn:E; simpl; eauto using input_ancillary_u32, zero_u32.
  - destruct (input_load input kk w) eqn:E; [|apply zero_u32].
    split; [|done]. eauto using machine_typed_set_a, input_load_u32.
Qed.

Lemma load_indirect_safe (input : I) i m kk w :
  wf input -> machine_typed m -> pc m + 1 ∈ successors (pc m) i ->
  step_safe i m (load_indirect input m kk w).
Proof.
  intros Hwf Hm Hsucc. unfold load_indirect.
  destruct (checked_add_u32 (index m) kk) as [off|]; [|apply zero_u32].
  destruct (input_load input off w) eqn:E; [|apply zero_u32].
  split; [|done]. eauto using machine_typed_set_a, input_load_u32.
Qed.

Lemma conditional_jump_safe o i m :
  decode (code i) = Some o -> is_conditional_jump o = true -> machine_typed m ->
  step_safe i m (conditional_jump o m i).
Proof.
  intros Hdec Hc Hm. unfold conditional_jump.
  destruct (jump_condition o (accumulator m) (jump_operand o m (k i))) as [c|] eqn:E;
    [|by destruct o].
  split; [by apply machine_typed_jump|]. unfold successors. rewrite Hdec, Hc.
  assert (is_return o = false) as -> by (by destruct o).
  simpl. destruct c; set_solver.
Qed.

Lemma divide_safe i m (f : Z -> Z -> Z) d :
  machine_typed m -> d <> 0 -> in_u32 (f (accumulator m) d) ->
  pc m + 1 ∈ successors (pc m) i -> step_safe i m (divide m f d).
Proof.
  intros Hm Hd Hf Hs. unfold divide. destruct (Z.eqb_spec d 0); [done|].
  split; [|done]. by apply machine_typed_set_a.
Qed.

Lemma shl_u32 a s : in_u32 (wrapping_shl_u32 a s).
Proof. apply wrap_u32_range. Qed.
Lemma shr_u32 a s : in_u32 a -> 0 <= s -> in_u32 (wrapping_shr_u32 a s).
Proof. intros. apply shiftr_u32; [done|]. apply Z.land_nonneg. lia. Qed.

Lemma successors_next i o m :
  decode (code i) = Some o -> is_return o = false -> is_conditional_jump o = false ->
  o <> JMP_JA -> pc m + 1 ∈ successors (pc m) i.
Proof.
  intros Hdec Hr Hc Hj. unfold successors. rewrite Hdec, Hr, Hc.
  destruct o; try done; apply list_elem_of_singleton; done.
Qed.

Lemma execute_safe (input : I) len i m :
  wf input -> instruction_typed i -> machine_typed m -> 0 <= pc m -> len <= MAX_INSTRUCTIONS ->
  verify_instruction len (pc m) i = Ok tt -> step_safe i m (execute input i m).
Proof.
  intros Hwf (_ & Hjt & Hjf & Hk) Hm Hpc Hlen Hv.
  apply verify_instruction_Ok in Hv as (o & Hdec & Hchk); [|done..].
  pose proof Hm as (Ha & Hx & _).
  assert (0 <= Z.land (index m) 31) by (apply Z.land_nonneg; lia).
  assert (0 <= k i) by (unfold in_u32 in Hk; lia).
  assert (0 <= index m) by (unfold in_u32 in Hx; lia).
  pose proof (successors_next i o m Hdec) as Hnext.
  pose proof (conditional_jump_safe o i m Hdec) as Hjump.
  unfold execute. rewrite Hdec.
  destruct o; simpl in Hchk;
    try (specialize (Hnext eq_refl eq_refl ltac:(done)));
    try (by apply Hjump);
    try (by apply load_absolute_safe);
    try (by apply load_indirect_safe);
    try (apply load_scratch_safe; [done|lia|]; auto using set_a_safe, set_x_safe; fail);
    try (by apply store_scratch_safe);
    try (apply set_a_safe || apply set_x_safe;
      eauto using wrap_u32_range, lor_u32, lxor_u32, land_u32, shl_u32, shr_u32,
        input_len_u32; fail);
    try (apply divide_safe; auto; (apply div_u32 || apply mod_u32); auto; lia);
    try (destruct (Z.eqb_spec (index m) 0); [apply zero_u32|];
      apply divide_safe; auto; (apply div_u32 || apply mod_u32); auto; lia);
    try done.
  - destruct (input_load input (k i) Byte) eqn:?; [|apply zero_u32].
    apply set_x_safe; auto using wrap_u32_range.
  - split; [by apply machine_typed_jump|]. unfold successors. rewrite Hdec.
    by apply list_elem_of_singleton.
Qed.

End StepSafety.

(** Inclusion of bit sets. *)
Definition mask_subseteq (m1 m2 : Z) : Prop :=
  forall b, 0 <= b -> Z.testbit m1 b = true -> Z.testbit m2 b = true.

#[export] Instance mask_subseteq_preorder : PreOrder mask_subseteq.
Proof. split; [by intros m b|]. intros m1 m2 m3 H1 H2 b Hb Hm. auto. Qed.

Lemma mask_land_l m1 m2 : mask_subseteq (Z.land m1 m2) m1.
Proof. intros b _. rewrite Z.land_spec, andb_true_iff. by intros [? ?]. Qed.
Lemma mask_land_r m1 m2 : mask_subseteq (Z.land m1 m2) m2.
Proof. intros b _. rewrite Z.land_spec, andb_true_iff. by intros [? ?]. Qed.

Lemma transfer_mono i m1 m2 :
  mask_subseteq m1 m2 -> mask_subseteq (transfer i m1) (transfer i m2).
Proof.
  intros Hsub b Hb. unfold transfer. destruct (decode (code i)) as [o|]; [|by apply Hsub].
  destruct (is_scratch_store o); [|by apply Hsub].
  rewrite !Z.lor_spec, !orb_true_iff. intros [?|?]; auto.
Qed.

Lemma scratch_bit_test kk b :
  0 <= kk -> 0 <= b -> Z.testbit (scratch_bit kk) b = bool_decide (b = kk).
Proof.
  intros Hk Hb. unfold scratch_bit. rewrite Z.shiftl_1_l, Z.pow2_bits_eqb by done.
  destruct (Z.eqb_spec kk b); symmetry; [apply bool_decide_eq_true|apply bool_decide_eq_false];
    congruence.
Qed.

Lemma scratch_bit_clear m kk :
  0 <= kk -> (Z.land m (scratch_bit kk) =? 0) = negb (Z.testbit m kk).
Proof.
  intros Hk. destruct (Z.testbit m kk) eqn:E; simpl.
  - apply Z.eqb_neq. intros H0.
    assert (Z.testbit (Z.land m (scratch_bit kk)) kk = true) as Ht; [|by rewrite H0, Z.bits_0 in Ht].
    rewrite Z.land_spec, E, scratch_bit_test by done. by rewrite bool_decide_eq_true_2.
  - apply Z.eqb_eq, Z.bits_inj'. intros b Hb.
    rewrite Z.land_spec, Z.bits_0, scratch_bit_test by done.
    case_bool_decide as Hbk; [subst; by rewrite E|by rewrite andb_false_r].
Qed.

(** ** One step of the sweep, in terms of the control-flow graph *)

(** The load of an uninitialized scratch word at [pc]. *)
Definition reads_uninitialized (i : Instruction) (initialized : Z) : bool :=
  match decode (code i) with
  | Some o => is_scratch_load o && negb (Z.testbit initialized (k i))
  | None => false
  end.

Definition merge_all (t : list (option Z)) (targets : list Z) (m : Z)
    : option (list (option Z)) :=
  fold_left (fun acc s => acc ≫= (fun t => merge_at t s m)) targets (Some t).

Lemma verify_scratch_at_reached t pc i o m :
  decode (code i) = Some o -> 0 <= k i -> get t pc = Some (Some m) ->
  verify_scratch_at t pc i =
    if reads_uninitialized i m then ScratchError (ScratchUninitialized pc (k i))
    else of_merge (merge_all t (successors pc i) (transfer i m)).
Proof.
  intros Hdec Hk Hget. unfold verify_scratch_at, reads_uninitialized, transfer, successors.
  rewrite Hget, Hdec, scratch_bit_clear by done.
  destruct o; simpl; try done;
    try (destruct (Z.testbit m (k i)); simpl; done);
    unfold merge_all; simpl; by destruct (merge_at t (pc + 1 + jt i) m).
Qed.

Lemma verify_scratch_at_unreached t pc i :
  get t pc = Some None -> verify_scratch_at t pc i = ScratchNext t.
Proof. intros Hget. unfold verify_scratch_at. by rewrite Hget. Qed.

(** ** Merging into the table *)

Lemma merge_at_lookup t s m p :
  0 <= s < zlen t -> exists t' old,
    merge_at t s m = Some t' /\ zlen t' = zlen t /\ get t s = Some old /\
    get t' p = if decide (p = s) then Some (merge_initialized old m) else get t p.
Proof.
  intros Hs. destruct (get_in_range t s Hs) as [old Hold].
  unfold merge_at. rewrite Hold, put_in_range by done.
  eexists _, _. split; [done|]. rewrite zlen_insert. split; [done|]. split; [done|].
  case_decide as Hp.
  - subst. unfold get, in_bounds. rewrite length_insert.
    fold (in_bounds t s). rewrite (proj2 (in_bounds_true t s)) by done.
    apply list_lookup_insert_eq. unfold zlen in Hs. lia.
  - unfold get, in_bounds. rewrite length_insert. destruct (_ && _) eqn:E; [|done].
    apply list_lookup_insert_ne. lia.
Qed.

(** The entry of [p] after merging [m] into all [targets]. *)
Lemma merge_all_lookup t targets m :
  (forall s, s ∈ targets -> 0 <= s < zlen t) ->
  exists t', merge_all t targets m = Some t' /\ zlen t' = zlen t /\
    forall p, get t' p =
      if decide (p ∈ targets)
      then (fun old => Some (match old with Some e => Z.land e m | None => m end)) <$> get t p
      else get t p.
Proof.
  unfold merge_all. revert t. induction targets as [|s targets IH]; intros t Hin; cbn [fold_left].
  - exists t. split; [done|]. split; [done|]. intros p.
    by rewrite decide_False by apply not_elem_of_nil.
  - destruct (merge_at_lookup t s m s) as (t1 & old & Hm & Hlen1 & Hold & _).
    { apply Hin. set_solver. }
    cbn [mbind option_bind]. rewrite Hm. destruct (IH t1) as (t' & Ht' & Hlen' & Hget').
    { intros s' Hs'. rewrite Hlen1. apply Hin. set_solver. }
    exists t'. split; [done|]. split; [congruence|]. intros p. rewrite Hget'.
    destruct (merge_at_lookup t s m p) as (t1' & old' & Hm' & _ & Hold' & Hp).
    { apply Hin. set_solver. }
    assert (t1' = t1) as -> by congruence. assert (old' = old) as -> by congruence.
    rewrite Hp. destruct (decide (p = s)) as [->|Hne].
    + rewrite (decide_True (P := s ∈ s :: targets)) by set_solver. rewrite Hold.
      unfold merge_initialized. case_decide; [|done]. simpl.
      destruct old as [e|]; rewrite <-?Z.land_assoc, ?Z.land_diag; done.
    + destruct (decide (p ∈ targets)).
      * rewrite decide_True by set_solver. done.
      * rewrite decide_False by set_solver. done.
Qed.

(** ** The sweep computes the meet over all paths *)

Section Sweep.
Context (l : list Instruction).
Hypothesis Hok : structure_ok l.
Hypothesis Htyped : Forall instruction_typed l.

(** Processed entries are checked and pushed along every edge. *)
Definition table_lower (j : Z) (t : list (option Z)) : Prop :=
  get t 0 = Some (Some 0) /\
  forall p m i, p < j -> get t p = Some (Some m) -> get l p = Some i ->
    reads_uninitialized i m = false /\
    forall s, s ∈ successors p i ->
      exists m', get t s = Some (Some m') /\ mask_subseteq m' (transfer i m).

(** Every reached entry is witnessed by paths, bit by bit. *)
Definition table_upper (t : list (option Z)) : Prop :=
  forall p m, get t p = Some (Some m) ->
    (exists mp, cfg_path l p mp) /\
    forall b, 0 <= b -> Z.testbit m b = false ->
      exists mp, cfg_path l p mp /\ Z.testbit mp b = false.

Lemma transfer_testbit i m1 m2 b :
  0 <= b -> (Z.testbit m1 b = false -> Z.testbit m2 b = false) ->
  Z.testbit (transfer i m1) b = false -> Z.testbit (transfer i m2) b = false.
Proof.
  intros Hb Himp. unfold transfer. destruct (decode (code i)) as [o|]; [|done].
  destruct (is_scratch_store o); [|done].
  rewrite !Z.lor_spec, !orb_false_iff. intros [? ?]. auto.
Qed.

Lemma merge_all_upper t t' p i m :
  table_upper t -> get t p = Some (Some m) -> get l p = Some i ->
  (forall s, get t' s = if decide (s ∈ successors p i)
      then (fun old => Some (match old with Some e => Z.land e (transfer i m)
                                          | None => transfer i m end)) <$> get t s
      else get t s) ->
  table_upper t'.
Proof.
  intros Hup Hp Hi Hget q mq. rewrite Hget. case_decide as Hq; [|by apply Hup].
  destruct (Hup p m Hp) as [[mp Hmp] Hbits].
  assert (forall b, 0 <= b -> Z.testbit (transfer i m) b = false ->
    exists mp, cfg_path l q mp /\ Z.testbit mp b = false) as Hedge.
  { intros b Hb Hbit. destruct (Z.testbit m b) eqn:Hmb.
    - exists (transfer i mp). split; [by eapply cfg_path_edge|].
      revert Hbit. apply transfer_testbit; [done|]. congruence.
    - destruct (Hbits b Hb Hmb) as (mp' & Hpath & Hf). exists (transfer i mp').
      split; [by eapply cfg_path_edge|]. revert Hbit. by apply transfer_testbit. }
  destruct (get t q) as [[e|]|] eqn:Hqe; simpl; intros [= <-].
  - split; [by eexists; eapply cfg_path_edge|]. intros b Hb.
    rewrite Z.land_spec, andb_false_iff. intros [Hf|Hf]; [|by apply Hedge].
    by apply (Hup q e Hqe).
  - split; [by eexists; eapply cfg_path_edge|]. by apply Hedge.
Qed.

Lemma merge_all_lower j t t' i m :
  table_lower j t -> 0 <= j -> zlen t = zlen l ->
  get t j = Some (Some m) -> get l j = Some i -> reads_uninitialized i m = false ->
  (forall s, get t' s = if decide (s ∈ successors j i)
      then (fun old => Some (match old with Some e => Z.land e (transfer i m)
                                          | None => transfer i m end)) <$> get t s
      else get t s) ->
  table_lower (j + 1) t'.
Proof.
  intros [H0 Hlow] Hj Hlen Hm Hi Hread Hget.
  assert (forall q, q <= j -> get t' q = get t q) as Hsame.
  { intros q Hq. rewrite Hget, decide_False; [done|]. intros Hs.
    pose proof (successors_in_range l j i q Hok Htyped Hi Hs). lia. }
  split; [rewrite Hsame; [done|lia]|]. intros p mp ip Hp Hgp Hip.
  rewrite Hsame in Hgp by lia. destruct (decide (p = j)) as [->|Hne].
  - simplify_eq. split; [done|]. intros s Hs. rewrite Hget, decide_True by done.
    pose proof (successors_in_range l j _ s Hok Htyped Hi Hs).
    destruct (get_in_range t s) as [[e|] ->]; [lia|..]; simpl; eauto using mask_land_r.
    eexists. split; [done|]. reflexivity.
  - destruct (Hlow p mp ip) as [Hr Hsucc]; [lia|done..|]. split; [done|]. intros s Hs.
    destruct (Hsucc s Hs) as (m' & Hm' & Hsub). rewrite Hget. case_decide; [|by eauto].
    rewrite Hm'. simpl. eexists. split; [done|]. etrans; [apply mask_land_l|done].
Qed.

(** The loop from position [j] on: it never panics, succeeds exactly when no
    reached instruction reads an uninitialized word, and an error names a
    witnessed path. *)
Lemma verify_scratch_loop_spec rest j t :
  0 <= j -> drop (Z.to_nat j) l = rest -> zlen t = zlen l ->
  table_lower j t -> table_upper t ->
  match verify_scratch_loop t j rest with
  | ScratchNext t' => zlen t' = zlen l /\ table_lower (zlen l) t' /\ table_upper t'
  | ScratchError e => exists p i mp,
      e = ScratchUninitialized p (k i) /\ get l p = Some i /\ cfg_path l p mp /\
      (exists o, decode (code i) = Some o /\ is_scratch_load o = true) /\
      Z.testbit mp (k i) = false
  | ScratchPanic => False
  end.
Proof.
  revert j t. induction rest as [|i rest IH]; intros j t Hj Hdrop Hlen Hlow Hup; simpl.
  - split; [done|]. split; [|done].
    assert (zlen l <= j).
    { unfold zlen. apply (f_equal length) in Hdrop. rewrite length_drop in Hdrop.
      simpl in Hdrop. lia. }
    destruct Hlow as [? Hl]. split; [done|]. intros p m i' Hp. apply Hl. lia.
  - assert (l !! Z.to_nat j = Some i) as Hlook.
    { rewrite <- (Nat.add_0_r (Z.to_nat j)), <- lookup_drop, Hdrop. done. }
    assert (get l j = Some i) as Hi.
    { rewrite <- Hlook, <- get_nat. f_equal. lia. }
    assert (drop (Z.to_nat (j + 1)) l = rest) as Hdrop'.
    { replace (Z.to_nat (j + 1)) with (S (Z.to_nat j)) by lia.
      rewrite (drop_S _ _ _ Hlook) in Hdrop. by simplify_eq. }
    destruct (get_Some _ _ _ Hi) as [Hrange _].
    assert (exists o, decode (code i) = Some o /\ 0 <= k i) as (o & Hdec & Hk).
    { pose proof Hok as (Hl & Hall & _). pose proof (Forall_lookup_1 _ _ _ _ Htyped Hlook) as (_ & _ & _ & Hk).
      apply Hall, verify_instruction_Ok in Hi as (o & ? & _); [|lia|done|lia].
      exists o. split; [done|]. unfold in_u32 in Hk. lia. }
    destruct (get_in_range t j) as [[m|] Hm]; [lia|..].
    + rewrite (verify_scratch_at_reached t j i o m) by done.
      destruct (reads_uninitialized i m) eqn:Hread.
      * unfold reads_uninitialized in Hread. rewrite Hdec in Hread.
        apply andb_true_iff in Hread as [Hload Hbit%negb_true_iff].
        destruct (Hup j m Hm) as [_ Hw]. destruct (Hw (k i)) as (mp & ? & ?); [done..|].
        exists j, i, mp. eauto 10.
      * destruct (merge_all_lookup t (successors j i) (transfer i m)) as (t' & Ht' & Hlen' & Hget').
        { intros s Hs. pose proof (successors_in_range l j i s Hok Htyped Hi Hs). lia. }
        rewrite Ht'. simpl. apply IH; [lia|done|lia|..].
        -- by eapply merge_all_lower.
        -- by eapply merge_all_upper.
    + rewrite verify_scratch_at_unreached by done. apply IH; try done; [lia|].
      destruct Hlow as [? Hl]. split; [done|]. intros p mp ip Hp Hgp.
      destruct (decide (p = j)) as [->|]; [congruence|]. apply Hl; [lia|done].
Qed.

(** A final table bounds every path. *)
Lemma table_lower_path t p mp :
  table_lower (zlen l) t -> cfg_path l p mp ->
  exists m, get t p = Some (Some m) /\ mask_subseteq m mp.
Proof.
  intros [H0 Hlow]. induction 1 as [|p mp i s Hpath IH Hi Hs].
  - exists 0. split; [done|reflexivity].
  - destruct IH as (m & Hm & Hsub). apply get_Some in Hi as Hr. destruct Hr as [Hr _].
    destruct (Hlow p m i) as [_ Hsucc]; [lia|done..|].
    destruct (Hsucc s Hs) as (m' & Hm' & Hsub'). exists m'. split; [done|].
    etrans; [done|]. by apply transfer_mono.
Qed.

End Sweep.
