(* ===== verification/BpfVerified.v ===== *)
(** Classic BPF, part 6: the theorems of the verifier and the interpreter.

    Verified programs run to completion on every input within the step bound,
    the verifier accepts exactly the programs whose structure is valid and
    whose scratch loads are initialized on every path, the result does not
    depend on the initial scratch contents, and the typed inputs read exactly
    the bytes they address. *)

From S2P Require Import Prelude BpfInstruction BpfProgram BpfControlFlow.
Local Open Scope Z_scope.

(** ** The byte inputs are typed *)

Definition bytes_wf (b : list Z) : Prop := Forall in_u8 b.
Definition packet_wf (p : PacketInput) : Prop :=
  bytes_wf (bytes p) /\ metadata_typed (metadata p).

(** Big-endian value of the [n] bytes from [start]. *)
Fixpoint big_endian_at (b : list Z) (start : Z) (n : nat) : Z :=
  match n with
  | O => 0
  | S n => default 0 (get b start) * 256 ^ Z.of_nat n + big_endian_at b (start + 1) n
  end.

Lemma fold_be_acc bs acc :
  fold_left (fun acc b => acc * 256 + b) bs acc =
  acc * 256 ^ zlen bs + fold_left (fun acc b => acc * 256 + b) bs 0.
Proof.
  revert acc. induction bs as [|b bs IH]; intros acc; cbn [fold_left];
    [unfold zlen; simpl; lia|].
  rewrite (IH (acc * 256 + b)), (IH (0 * 256 + b)). unfold zlen. cbn [length].
  rewrite Nat2Z.inj_succ, Z.pow_succ_r by lia. ring.
Qed.

Lemma from_be_bytes_range bs : bytes_wf bs -> 0 <= from_be_bytes bs < 256 ^ zlen bs.
Proof.
  unfold from_be_bytes. induction 1 as [|b bs Hb Hbs IH]; cbn [fold_left];
    [unfold zlen; simpl; lia|].
  rewrite fold_be_acc. unfold zlen in *. cbn [length].
  rewrite Nat2Z.inj_succ, Z.pow_succ_r by lia. unfold in_u8, u8_MAX in Hb. nia.
Qed.

Lemma from_be_bytes_at b start n :
  0 <= start -> start + Z.of_nat n <= zlen b ->
  from_be_bytes (take n (drop (Z.to_nat start) b)) = big_endian_at b start n.
Proof.
  revert start. induction n as [|n IH]; intros start Hs Hn; [by rewrite take_0|].
  destruct (get_in_range b start) as [x Hx]; [lia|].
  cbn [big_endian_at]. rewrite Hx. apply get_Some in Hx as [_ Hx].
  rewrite (drop_S _ _ _ Hx). cbn [take default]. unfold from_be_bytes. cbn [fold_left].
  rewrite fold_be_acc, <- IH by lia. unfold from_be_bytes.
  replace (Z.to_nat (start + 1)) with (S (Z.to_nat start)) by lia.
  assert (zlen (take n (drop (S (Z.to_nat start)) b)) = Z.of_nat n) as ->.
  { unfold zlen in *. rewrite length_take, length_drop. lia. }
  simpl. lia.
Qed.

Definition width_nat (w : LoadWidth) : nat := Z.to_nat (width_bytes w).

Lemma bytes_load_spec b off w :
  in_u32 off ->
  bytes_load b off w =
    if off + width_bytes w <=? zlen b then Some (big_endian_at b off (width_nat w)) else None.
Proof.
  intros Hoff. unfold in_u32, u32_MAX in Hoff.
  unfold bytes_load, checked_add_usize, usize_MAX, u64_MAX, get_range, width_nat.
  assert (1 <= width_bytes w <= 4) by (destruct w; simpl; lia).
  destruct (Z.leb_spec (off + width_bytes w) 18446744073709551615); [|lia].
  rewrite (proj2 (Z.leb_le 0 off)), (proj2 (Z.leb_le off (off + width_bytes w))) by lia. simpl.
  destruct (Z.leb_spec (off + width_bytes w) (zlen b)); [|done].
  rewrite <- from_be_bytes_at by lia.
  by replace (off + width_bytes w - off) with (width_bytes w) by lia.
Qed.

Lemma bytes_load_u32 b off w v : bytes_wf b -> bytes_load b off w = Some v -> in_u32 v.
Proof.
  intros Hwf. unfold bytes_load, get_range. repeat case_match; intros; simplify_eq.
  assert (1 <= width_bytes w <= 4) by (destruct w; simpl; lia).
  pose proof (from_be_bytes_range (take (Z.to_nat (z - off)) (drop (Z.to_nat off) b))) as Hr.
  unfold checked_add_usize in *. repeat case_match; simplify_eq.
  assert (zlen (take (Z.to_nat (off + width_bytes w - off)) (drop (Z.to_nat off) b)) <= 4)
    as Hl by (unfold zlen; rewrite length_take; lia).
  assert (256 ^ zlen (take (Z.to_nat (off + width_bytes w - off)) (drop (Z.to_nat off) b))
    <= 256 ^ 4) by (apply Z.pow_le_mono_r; lia).
  assert (bytes_wf (take (Z.to_nat (off + width_bytes w - off)) (drop (Z.to_nat off) b)))
    by (by apply Forall_take, Forall_drop).
  unfold in_u32, u32_MAX. change (256 ^ 4) with 4294967296 in *. specialize (Hr ltac:(done)). lia.
Qed.

Lemma bytes_len_u32 b : in_u32 (bytes_len b).
Proof.
  unfold bytes_len, in_u32, u32_MAX. pose proof (zlen_nonneg b). case_match; lia.
Qed.

#[export] Instance bytes_input_typed : InputTyped (list Z) bytes_wf.
Proof.
  split; simpl; [intros; apply bytes_len_u32|intros; by eapply bytes_load_u32|done].
Qed.

#[export] Instance packet_input_typed : InputTyped PacketInput packet_wf.
Proof.
  split; simpl.
  - intros. apply bytes_len_u32.
  - intros i off w v [? ?] ?. by eapply bytes_load_u32.
  - intros i f v [_ ?] [= <-]. by apply metadata_ancillary_typed.
Qed.

(** ** The loop terminates within its step bound *)

Section Evaluation.
Context {I : Type} `{HI : Input I} {wf : I -> Prop} `{!InputTyped I wf}.

Lemma evaluate_loop_total (input : I) l fuel steps m :
  wf input -> structure_ok l -> Forall instruction_typed l -> machine_typed m ->
  0 <= pc m < zlen l -> zlen l - pc m <= Z.of_nat fuel ->
  exists v n, evaluate_loop input l fuel steps m = Evaluated v n /\ in_u32 v /\
    steps + 1 <= n <= steps + (zlen l - pc m).
Proof.
  intros Hwf Hok Htyped. revert steps m.
  induction fuel as [|fuel IH]; intros steps m Hm Hpc Hfuel; [lia|]. simpl.
  destruct (get_in_range l (pc m) Hpc) as [i Hi]. rewrite Hi.
  pose proof Hok as (Hlen & Hall & _). destruct (get_Some _ _ _ Hi) as [_ Hlook].
  pose proof (Forall_lookup_1 _ _ _ _ Htyped Hlook) as Hty.
  pose proof (execute_safe input (zlen l) i m Hwf Hty Hm) as Hsafe.
  specialize (Hsafe ltac:(lia) ltac:(lia) (Hall _ _ Hi)).
  destruct (execute input i m) as [m'|v|]; simpl in Hsafe; [|by exists v, (steps + 1); auto with lia|done].
  destruct Hsafe as [Hm' Hs].
  pose proof (successors_in_range l (pc m) i (pc m') Hok Htyped Hi Hs).
  destruct (IH (steps + 1) m') as (v & n & -> & Hv & Hn); [done|lia|lia|].
  exists v, n. repeat split; [apply Hv|apply Hv|lia|lia].
Qed.

(** ** Scratch contents before the first store are irrelevant *)

Definition with_scratch (m : Machine) (s : list Z) : Machine :=
  mkMachine (accumulator m) (index m) s (pc m).

Definition outcome_with_scratch (o : step_outcome) (s : list Z) : step_outcome :=
  match o with Continue m => Continue (with_scratch m s) | o => o end.

Lemma execute_frame (input : I) i o m s :
  decode (code i) = Some o -> is_scratch_load o = false -> is_scratch_store o = false ->
  execute input i (with_scratch m s) = outcome_with_scratch (execute input i m) s.
Proof.
  intros Hdec Hl Hs. unfold execute. rewrite Hdec.
  destruct o; try done;
    unfold load_absolute, load_indirect, conditional_jump, divide, jump_operand; simpl;
    repeat (case_match; simpl); done.
Qed.

Lemma execute_keeps_scratch (input : I) i o m m' :
  decode (code i) = Some o -> is_scratch_store o = false ->
  execute input i m = Continue m' -> scratch m' = scratch m.
Proof.
  intros Hdec Hs. unfold execute. rewrite Hdec.
  destruct o; try done;
    unfold load_absolute, load_indirect, conditional_jump, divide, load_scratch,
      set_a, set_x, jump_to; simpl;
    repeat (case_match; simpl); intros; simplify_eq; done.
Qed.

(** The scratch words of [mask] agree. *)
Definition scratch_agree (mask : Z) (s1 s2 : list Z) : Prop :=
  zlen s1 = SCRATCH_WORDS /\ zlen s2 = SCRATCH_WORDS /\
  forall b, Z.testbit mask b = true -> get s1 b = get s2 b.

Lemma get_insert {A} (l : list A) a b (v : A) :
  0 <= a < zlen l ->
  get (<[Z.to_nat a := v]> l) b = if decide (b = a) then Some v else get l b.
Proof.
  intros Ha. unfold get, in_bounds. rewrite length_insert. fold (in_bounds l b).
  destruct (in_bounds l b) eqn:E; case_decide as Hb; subst; try done.
  - apply list_lookup_insert_eq. unfold zlen in Ha. lia.
  - apply list_lookup_insert_ne. apply in_bounds_true in E. lia.
  - apply in_bounds_true in Ha. congruence.
Qed.

Lemma scratch_agree_store mask kk v s1 s2 :
  0 <= kk < SCRATCH_WORDS -> scratch_agree mask s1 s2 ->
  scratch_agree (Z.lor mask (scratch_bit kk)) (<[Z.to_nat kk := v]> s1) (<[Z.to_nat kk := v]> s2).
Proof.
  intros Hk (H1 & H2 & Hagree). unfold scratch_agree. rewrite !zlen_insert.
  repeat split; [done..|]. intros b. rewrite Z.lor_spec.
  rewrite !get_insert by lia. case_decide as Hb; [done|].
  destruct (Z.lt_ge_cases b 0); [by rewrite !Z.testbit_neg_r by done|].
  rewrite scratch_bit_test by lia. rewrite bool_decide_eq_false_2, orb_false_r by done.
  apply Hagree.
Qed.

(** All scratch loads on all paths of [l] are initialized. *)
Definition all_paths_initialized (l : list Instruction) : Prop :=
  forall p i o m, cfg_path l p m -> get l p = Some i -> decode (code i) = Some o ->
    is_scratch_load o = true -> Z.testbit m (k i) = true.

Lemma execute_agree (input : I) l i mask m s :
  wf input -> structure_ok l -> Forall instruction_typed l -> all_paths_initialized l ->
  machine_typed m -> get l (pc m) = Some i -> cfg_path l (pc m) mask ->
  scratch_agree mask (scratch m) s ->
  match execute input i m with
  | Continue m' => exists s',
      execute input i (with_scratch m s) = Continue (with_scratch m' s') /\
      scratch_agree (transfer i mask) (scratch m') s'
  | o => execute input i (with_scratch m s) = o
  end.
Proof.
  intros Hwf Hok Htyped Hinit Hm Hi Hpath Hagree.
  pose proof Hok as (Hlen & Hall & _). destruct (get_Some _ _ _ Hi) as [Hpc Hlook].
  pose proof (Forall_lookup_1 _ _ _ _ Htyped Hlook) as (_ & _ & _ & Hk).
  pose proof (Hall _ _ Hi) as Hv.
  apply verify_instruction_Ok in Hv as (o & Hdec & Hchk); [|lia|done|lia].
  assert (0 <= k i) by (unfold in_u32 in Hk; lia).
  pose proof Hagree as (Hl1 & Hl2 & Hbits).
  destruct (is_scratch_store o) eqn:Hst; [|destruct (is_scratch_load o) eqn:Hld].
  - unfold execute, transfer. rewrite Hdec, Hst.
    destruct o; try done; unfold store_scratch; simpl in *;
      rewrite !put_in_range by lia; eexists; (split; [done|]);
      by apply scratch_agree_store.
  - pose proof (Hinit _ _ _ _ Hpath Hi Hdec Hld) as Hbit. apply Hbits in Hbit.
    unfold execute, transfer. rewrite Hdec, Hst.
    destruct o; try done; unfold load_scratch; simpl in *; rewrite <- Hbit;
      destruct (get (scratch m) (k i)); try done; by exists s.
  - rewrite (execute_frame input i o) by done.
    destruct (execute input i m) as [m'|v|] eqn:E; simpl; try done.
    exists s. split; [done|]. unfold transfer. rewrite Hdec, Hst.
    by rewrite (execute_keeps_scratch input i o m m').
Qed.

Lemma evaluate_loop_agree (input : I) l fuel steps mask m s :
  wf input -> structure_ok l -> Forall instruction_typed l -> all_paths_initialized l ->
  machine_typed m -> cfg_path l (pc m) mask -> scratch_agree mask (scratch m) s ->
  evaluate_loop input l fuel steps (with_scratch m s) = evaluate_loop input l fuel steps m.
Proof.
  intros Hwf Hok Htyped Hinit. revert steps mask m s.
  induction fuel as [|fuel IH]; intros steps mask m s Hm Hpath Hagree; [done|]. simpl.
  destruct (get l (pc m)) as [i|] eqn:Hi; [|done].
  pose proof (execute_agree input l i mask m s Hwf Hok Htyped Hinit Hm Hi Hpath Hagree) as Hex.
  pose proof Hok as (Hlen & Hall & _). destruct (get_Some _ _ _ Hi) as [Hpc Hlook].
  pose proof (Forall_lookup_1 _ _ _ _ Htyped Hlook) as Hty.
  pose proof (execute_safe input (zlen l) i m Hwf Hty Hm ltac:(lia) ltac:(lia) (Hall _ _ Hi)) as Hsafe.
  destruct (execute input i m) as [m'|v|]; [|by rewrite Hex..].
  destruct Hex as (s' & -> & Hagree'). destruct Hsafe as [Hm' Hs].
  eapply IH; [done| |done]. by eapply cfg_path_edge.
Qed.

End Evaluation.

(** ** Facts about the verifier's entry points *)

Lemma initial_machine_typed : machine_typed initial_machine.
Proof.
  repeat split; simpl; try (unfold u32_MAX; lia).
  repeat constructor; unfold in_u32, u32_MAX; lia.
Qed.

Section Verifier.
Context (try_reserve_exact : allocation_site -> Z -> bool).
Context (l : list Instruction).
Hypothesis Hok : structure_ok l.
Hypothesis Htyped : Forall instruction_typed l.

Lemma initial_table :
  exists t, put (replicate (length l) None) 0 (Some 0) = Some t /\ zlen t = zlen l /\
    table_lower l 0 t /\ table_upper l t.
Proof.
  pose proof Hok as (Hlen & _).
  assert (zlen (replicate (length l) (@None Z)) = zlen l) as Hz
    by (unfold zlen; by rewrite length_replicate).
  exists (<[Z.to_nat 0 := Some 0]> (replicate (length l) None)).
  rewrite put_in_range by lia. split; [done|]. rewrite zlen_insert. split; [done|].
  assert (forall p, get (<[Z.to_nat 0 := Some 0]> (replicate (length l) None)) p =
    if decide (p = 0) then Some (Some 0) else get (replicate (length l) None) p) as Hget
    by (intros; apply get_insert; lia).
  split.
  - split; [by rewrite Hget|]. intros p m i Hp. rewrite Hget. rewrite decide_False by lia.
    intros Hg. apply get_Some in Hg. lia.
  - intros p m. rewrite Hget. case_decide as Hp; [intros [= <-]; subst|].
    + split; [exists 0; constructor|]. intros. exists 0. split; [constructor|done].
    + intros [_ Hg]%get_Some. apply lookup_replicate in Hg as [? _]. done.
Qed.

(** What the scratch pass returns when the table could be allocated. *)
Lemma verify_scratch_cases :
  try_reserve_exact IncomingTable (zlen l) = true ->
  (verify_scratch_initialization try_reserve_exact l = Verdict (Ok tt) /\
   all_paths_initialized l) \/
  (exists p i mp o,
    verify_scratch_initialization try_reserve_exact l =
      Verdict (Err (ScratchUninitialized p (k i))) /\
    get l p = Some i /\ cfg_path l p mp /\ decode (code i) = Some o /\
    is_scratch_load o = true /\ Z.testbit mp (k i) = false).
Proof.
  intros Halloc. unfold verify_scratch_initialization. rewrite Halloc. simpl.
  destruct initial_table as (t & -> & Hlen & Hlow & Hup).
  pose proof (verify_scratch_loop_spec l Hok Htyped l 0 t) as Hspec.
  specialize (Hspec ltac:(lia) ltac:(done) Hlen Hlow Hup).
  destruct (verify_scratch_loop t 0 l) as [t'|e|]; [| |done].
  - left. split; [done|]. destruct Hspec as (Hlen' & Hlow' & _).
    intros p i o m Hpath Hi Hdec Hload.
    destruct (table_lower_path l t' p m Hlow' Hpath) as (mt & Hmt & Hsub).
    destruct Hlow' as [_ Hl]. apply get_Some in Hi as Hr.
    destruct (Hl p mt i) as [Hread _]; [lia|done..|].
    unfold reads_uninitialized in Hread. rewrite Hdec, Hload in Hread.
    apply negb_false_iff in Hread. destruct Hr as [_ Hr].
    apply (Forall_lookup_1 _ _ _ _ Htyped) in Hr as (_ & _ & _ & Hk).
    apply Hsub; [unfold in_u32 in Hk; lia|done].
  - right. destruct Hspec as (p & i & mp & -> & Hi & Hpath & (o & Hdec & Hload) & Hbit).
    by exists p, i, mp, o.
Qed.

End Verifier.

Lemma verify_program_Ok try_reserve_exact l :
  Forall instruction_typed l ->
  verify_program try_reserve_exact l = Verdict (Ok tt) ->
  structure_ok l /\ all_paths_initialized l.
Proof.
  intros Htyped. unfold verify_program. destruct (verify_structure l) as [[]|] eqn:E; [|done].
  apply verify_structure_Ok in E. intros Hv. split; [done|].
  destruct (try_reserve_exact IncomingTable (zlen l)) eqn:Halloc.
  - destruct (verify_scratch_cases try_reserve_exact l E Htyped Halloc)
      as [[_ ?]|(p & i & mp & o & Heq & _)]; [done|]. congruence.
  - unfold verify_scratch_initialization in Hv. by rewrite Halloc in Hv.
Qed.

Lemma verify_Ok_inv try_reserve_exact l p :
  verify try_reserve_exact l = Verdict (Ok p) ->
  verify_program try_reserve_exact l = Verdict (Ok tt) /\ p = mkProgram l.
Proof.
  unfold verify. destruct (verify_program try_reserve_exact l) as [[[]|]|]; try done.
  case_match; [done|]. by intros [= <-].
Qed.

Lemma evaluate_loop_packet b md l fuel steps m :
  uses_ancillary (mkProgram l) = false ->
  evaluate_loop (mkPacketInput b md) l fuel steps m = evaluate_loop b l fuel steps m.
Proof.
  intros Hno. revert steps m. induction fuel as [|fuel IH]; intros steps m; [done|]. simpl.
  destruct (get l (pc m)) as [i|] eqn:Hi; [|done].
  assert (execute (mkPacketInput b md) i m = execute b i m) as ->.
  { apply get_Some in Hi as [_ Hi%list_elem_of_lookup_2%list_elem_of_In].
    assert (match decode (code i) with
      | Some (LD_W_ABS | LD_H_ABS | LD_B_ABS) => ancillary_from_offset (k i) = None
      | _ => True end) as Habs.
    { destruct (decode (code i)) as [o|] eqn:Hdec; [|done].
      destruct (ancillary_from_offset (k i)) eqn:Ha; [|by destruct o].
      destruct o; try done; unfold uses_ancillary in Hno; simpl in Hno;
        rewrite <- not_true_iff_false, existsb_exists in Hno; destruct Hno; exists i;
        rewrite Hdec, Ha; done. }
    unfold execute, load_absolute. destruct (decode (code i)) as [o|]; [|done].
    destruct o; try done; by rewrite Habs. }
  destruct (execute b i m); [apply IH|done..].
Qed.

(** ** Properties *)

(** C6: a program accepted by [Program::verify] evaluates to a [u32] on every
    input without panicking (no slice index, division or [unreachable!] fails),
    and executes at least one and at most [len] instructions. *)
Theorem verified_program_evaluates {I : Type} `{Input I} {wf : I -> Prop} `{!InputTyped I wf}
    (try_reserve_exact : allocation_site -> Z -> bool) (raw : list Instruction)
    (p : Program) (input : I) :
  wf input -> Forall instruction_typed raw ->
  verify try_reserve_exact raw = Verdict (Ok p) ->
  exists v n, evaluate_counted p input = Evaluated v n /\ in_u32 v /\ 1 <= n <= program_len p.
Proof.
  intros Hwf Htyped [Hv ->]%verify_Ok_inv.
  destruct (verify_program_Ok _ _ Htyped Hv) as [Hok _]. pose proof Hok as ((? & _) & _).
  destruct (evaluate_loop_total input raw (length raw) 0 initial_machine)
    as (v & n & He & Hr & Hn); auto using initial_machine_typed; simpl; unfold zlen in *; try lia.
  exists v, n. unfold program_len, zlen. simpl in *. repeat split; (apply He || apply Hr || lia).
Qed.

(** C7: with memory available, [Program::verify] accepts exactly the programs
    of 1 to 4096 supported instructions whose immediates and jump targets pass
    the per-instruction checks, that end in a return, and in which every
    scratch load is initialized on every path of the control-flow graph. *)
Theorem verify_accepts_exactly (try_reserve_exact : allocation_site -> Z -> bool)
    (raw : list Instruction) :
  Forall instruction_typed raw ->
  (forall site, try_reserve_exact site (zlen raw) = true) ->
  verify try_reserve_exact raw = Verdict (Ok (mkProgram raw)) <->
  0 < zlen raw <= MAX_INSTRUCTIONS /\
  (forall pc i, get raw pc = Some i ->
     exists o, decode (code i) = Some o /\ instruction_checks (zlen raw) pc i o) /\
  ends_in_return raw = true /\
  all_paths_initialized raw.
Proof.
  intros Htyped Halloc.
  assert (0 < zlen raw <= MAX_INSTRUCTIONS ->
    (forall pc i, get raw pc = Some i -> verify_instruction (zlen raw) pc i = Ok tt) <->
    (forall pc i, get raw pc = Some i ->
       exists o, decode (code i) = Some o /\ instruction_checks (zlen raw) pc i o)) as Hchk.
  { intros Hlen. split; intros Hall pc i Hi; destruct (get_Some _ _ _ Hi) as [Hpc Hl];
      apply (Forall_lookup_1 _ _ _ _ Htyped) in Hl as (_ & _ & _ & Hk);
      apply verify_instruction_Ok; auto; lia. }
  unfold verify. rewrite Halloc. simpl. split.
  - destruct (verify_program try_reserve_exact raw) as [[[]|]|] eqn:Hv; try done.
    apply verify_program_Ok in Hv as [(? & ? & ?) ?]; [|done]. intros _.
    split; [done|]. split; [by apply Hchk|]. by split.
  - intros (Hlen & Hall & Hret & Hpaths).
    assert (structure_ok raw) as Hok by (split; [done|]; split; [by apply Hchk|done]).
    unfold verify_program. rewrite (proj2 (verify_structure_Ok raw) Hok).
    destruct (verify_scratch_cases try_reserve_exact raw Hok Htyped (Halloc IncomingTable))
      as [[-> _]|(p & i & mp & o & _ & Hi & Hpath & Hdec & Hload & Hbit)]; [done|].
    rewrite (Hpaths _ _ _ _ Hpath Hi Hdec Hload) in Hbit. done.
Qed.

(** The verifier itself never panics, whatever raw program it is given and
    whichever allocation fails. *)
Theorem verify_never_panics (try_reserve_exact : allocation_site -> Z -> bool)
    (raw : list Instruction) :
  Forall instruction_typed raw -> verify try_reserve_exact raw <> VerifierPanic.
Proof.
  intros Htyped. unfold verify, verify_program.
  destruct (verify_structure raw) as [[]|e] eqn:E; [|done]. apply verify_structure_Ok in E.
  destruct (try_reserve_exact IncomingTable (zlen raw)) eqn:Halloc.
  - destruct (verify_scratch_cases try_reserve_exact raw E Htyped Halloc)
      as [[-> _]|(p & i & mp & o & -> & _)]; [by case_match|done].
  - unfold verify_scratch_initialization. by rewrite Halloc.
Qed.

(** A rejection for an uninitialized scratch word names an instruction that
    loads the word and that some control-flow path reaches without storing it. *)
Theorem scratch_rejection_has_path (try_reserve_exact : allocation_site -> Z -> bool)
    (raw : list Instruction) (at_pc word : Z) :
  Forall instruction_typed raw ->
  verify_program try_reserve_exact raw = Verdict (Err (ScratchUninitialized at_pc word)) ->
  exists i o m, get raw at_pc = Some i /\ decode (code i) = Some o /\
    is_scratch_load o = true /\ k i = word /\
    cfg_path raw at_pc m /\ Z.testbit m word = false.
Proof.
  intros Htyped. unfold verify_program.
  destruct (verify_structure raw) as [[]|e] eqn:E.
  - apply verify_structure_Ok in E.
    destruct (try_reserve_exact IncomingTable (zlen raw)) eqn:Halloc.
    + destruct (verify_scratch_cases try_reserve_exact raw E Htyped Halloc)
        as [[-> _]|(p & i & mp & o & -> & ?)]; [done|]. intros [= <- <-]. exists i, o, mp. tauto.
    + unfold verify_scratch_initialization. by rewrite Halloc.
  - intros [= ->]. exfalso. revert E. unfold verify_structure.
    repeat (case_match; try done). intros [= ->].
    match goal with H : verify_instructions _ _ _ = Err _ |- _ => revert H end.
    generalize (zlen raw). generalize 0. clear. induction raw as [|i raw IH]; [done|].
    intros pc len. simpl. destruct (verify_instruction len pc i) eqn:Ei; [apply IH|].
    intros [= ->]. revert Ei. unfold verify_instruction. repeat (case_match; try done).
Qed.

(** The result of a verified program does not depend on what the sixteen
    scratch words held before the run: only words the program stored itself
    are read. *)
Theorem evaluate_ignores_initial_scratch {I : Type} `{Input I} {wf : I -> Prop}
    `{!InputTyped I wf} (try_reserve_exact : allocation_site -> Z -> bool)
    (raw : list Instruction) (p : Program) (input : I) (garbage : list Z) :
  wf input -> Forall instruction_typed raw ->
  verify try_reserve_exact raw = Verdict (Ok p) -> zlen garbage = SCRATCH_WORDS ->
  evaluate_loop input raw (length raw) 0 (mkMachine 0 0 garbage 0) = evaluate_counted p input.
Proof.
  intros Hwf Htyped [Hv ->]%verify_Ok_inv Hlen.
  destruct (verify_program_Ok _ _ Htyped Hv) as [Hok Hpaths].
  apply (evaluate_loop_agree input raw (length raw) 0 0 initial_machine garbage);
    auto using initial_machine_typed; [constructor|].
  split; [done|]. split; [done|]. intros b. by rewrite Z.bits_0.
Qed.

(** A program for which [uses_ancillary] is false computes the same value
    on a packet with any metadata as on the packet's bytes alone. *)
Theorem ancillary_free_program_ignores_metadata (p : Program) (b : list Z)
    (md : PacketMetadata) :
  uses_ancillary p = false ->
  evaluate_counted p (mkPacketInput b md) = evaluate_counted p b.
Proof. destruct p as [l]. apply evaluate_loop_packet. Qed.

(** A byte-slice load at a [u32] offset returns the big-endian value of
    exactly the addressed bytes when they all lie inside the slice, and [None]
    otherwise. *)
Theorem bytes_load_exact (b : list Z) (offset : Z) (w : LoadWidth) :
  in_u32 offset ->
  input_load b offset w =
    if offset + width_bytes w <=? zlen b
    then Some (big_endian_at b offset (width_nat w)) else None.
Proof. apply bytes_load_spec. Qed.

(** [ancillary_from_offset] recognises exactly the encodings produced by
    [Ancillary::encoded_offset]; every encoding lies in the ancillary window
    and has its sign bit set, so it is never an ordinary packet offset the
    verifier accepts. *)
Theorem ancillary_offset_roundtrip (offset : Z) (f : Ancillary) :
  (ancillary_from_offset offset = Some f <-> offset = Ancillary.encoded_offset f) /\
  is_ancillary_offset (Ancillary.encoded_offset f) = true /\
  Z.land (Ancillary.encoded_offset f) 0x80000000 <> 0.
Proof.
  split; [|split; [by destruct f|apply encoded_offset_negative]].
  split; [apply ancillary_from_offset_Some|]. intros ->. apply ancillary_from_offset_encoded.
Qed.

(** ** Witnesses: a packet filter with a scratch round trip. *)

Definition example_filter : list Instruction :=
  [ statement (code_of LD_B_ABS) 0;
    jump (code_of JMP_JEQ_K) 0x45 0 3;
    statement (code_of ST) 3;
    statement (code_of LD_MEM) 3;
    statement (code_of RET_A) 0;
    statement (code_of RET_K) 0 ].

Definition always_reserve (_ : allocation_site) (_ : Z) : bool := true.

Lemma example_filter_typed : Forall instruction_typed example_filter.
Proof. by_evaluation. Qed.

Lemma example_packet_wf : bytes_wf [0x45; 1; 2; 3].
Proof. unfold bytes_wf. by_evaluation. Qed.

Lemma verified_program_evaluates_witness :
  exists v n, evaluate_counted (mkProgram example_filter) [0x45; 1; 2; 3] = Evaluated v n /\
    in_u32 v /\ 1 <= n <= 6.
Proof.
  apply (verified_program_evaluates always_reserve example_filter
    (mkProgram example_filter) [0x45; 1; 2; 3] example_packet_wf example_filter_typed).
  vm_compute. reflexivity.
Defined.

Lemma verify_accepts_exactly_witness :
  verify always_reserve example_filter = Verdict (Ok (mkProgram example_filter)) /\
  all_paths_initialized example_filter.
Proof.
  assert (verify always_reserve example_filter = Verdict (Ok (mkProgram example_filter))) as Hv
    by (vm_compute; reflexivity).
  split; [exact Hv|].
  apply (verify_accepts_exactly always_reserve example_filter example_filter_typed
    (fun _ => eq_refl)). exact Hv.
Defined.

Lemma verify_never_panics_witness :
  verify (fun _ _ => false) example_filter = Verdict (Err NoMemory) /\
  verify (fun _ _ => false) example_filter <> VerifierPanic.
Proof.
  split; [vm_compute; reflexivity|].
  apply (verify_never_panics (fun _ _ => false) example_filter example_filter_typed).
Defined.

(** Word 3 is stored on one branch only. *)
Definition half_initialized_filter : list Instruction :=
  [ statement (code_of LD_IMM) 7;
    jump (code_of JMP_JEQ_K) 7 0 1;
    statement (code_of ST) 3;
    statement (code_of LD_MEM) 3;
    statement (code_of RET_A) 0 ].

Lemma half_initialized_typed : Forall instruction_typed half_initialized_filter.
Proof. by_evaluation. Qed.

Lemma scratch_rejection_has_path_witness :
  exists i o m, get half_initialized_filter 3 = Some i /\ decode (code i) = Some o /\
    is_scratch_load o = true /\ k i = 3 /\
    cfg_path half_initialized_filter 3 m /\ Z.testbit m 3 = false.
Proof.
  apply (scratch_rejection_has_path always_reserve half_initialized_filter 3 3
    half_initialized_typed).
  vm_compute. reflexivity.
Defined.

Lemma evaluate_ignores_initial_scratch_witness :
  evaluate_loop [0x45; 1; 2; 3] example_filter 6 0 (mkMachine 0 0 (replicate 16 99) 0) =
  Evaluated 0x45 5.
Proof.
  transitivity (evaluate_counted (mkProgram example_filter) [0x45; 1; 2; 3]);
    [|vm_compute; reflexivity].
  apply (evaluate_ignores_initial_scratch always_reserve example_filter
    (mkProgram example_filter) [0x45; 1; 2; 3] (replicate 16 99)
    example_packet_wf example_filter_typed); vm_compute; reflexivity.
Defined.

Lemma ancillary_free_program_ignores_metadata_witness :
  evaluate_counted (mkProgram example_filter)
    (mkPacketInput [0x45; 1; 2; 3] (PacketMetadata.new 2048 1 0 7 0 0 false 0)) =
  Evaluated 0x45 5.
Proof.
  transitivity (evaluate_counted (mkProgram example_filter) [0x45; 1; 2; 3]);
    [|vm_compute; reflexivity].
  apply (ancillary_free_program_ignores_metadata (mkProgram example_filter)).
  vm_compute. reflexivity.
Defined.

Lemma bytes_load_exact_witness :
  input_load [0x45; 1; 2; 3] 1 Half = Some 258 /\ input_load [0x45; 1; 2; 3] 2 Word = None.
Proof.
  split; etransitivity.
  - apply (bytes_load_exact [0x45; 1; 2; 3] 1 Half). unfold in_u32, u32_MAX. lia.
  - vm_compute. reflexivity.
  - apply (bytes_load_exact [0x45; 1; 2; 3] 2 Word). unfold in_u32, u32_MAX. lia.
  - vm_compute. reflexivity.
Defined.
