(* ===== verification/Effects.v ===== *)
(** State, errors and panics.

    [M S E A] is the type of a Rust method that mutates a state of type [S],
    returns [A] or fails with [E] (the state changed so far is kept, as with
    [?]), or panics. A loop that follows links has a bound on its iterations;
    exceeding it is the outcome [Diverged]. [wp] is the weakest precondition
    that excludes both panics and divergence. *)

From S2P Require Import Prelude.

Inductive outcome (S E A : Type) : Type :=
| Done (a : A) (s : S)
| Fail (e : E) (s : S)
| Panic
| Diverged.
Arguments Done {S E A} a s.
Arguments Fail {S E A} e s.
Arguments Panic {S E A}.
Arguments Diverged {S E A}.

Definition M (S E A : Type) : Type := S -> outcome S E A.

#[export] Instance M_ret {S E} : MRet (M S E) := fun A a s => Done a s.

#[export] Instance M_bind {S E} : MBind (M S E) := fun A B f m s =>
  match m s with
  | Done a s => f a s
  | Fail e s => Fail e s
  | Panic => Panic
  | Diverged => Diverged
  end.

Section Operations.
Context {S E : Type}.

Definition throw {A} (e : E) : M S E A := fun s => Fail e s.
Definition panic {A} : M S E A := fun _ => Panic.
Definition diverge {A} : M S E A := fun _ => Diverged.
Definition gets {A} (f : S -> A) : M S E A := fun s => Done (f s) s.
Definition modify (f : S -> S) : M S E () := fun s => Done tt (f s).

(** [assert!(b)] *)
Definition assert_ (b : bool) : M S E () := if b then mret tt else panic.

(** [.ok_or(e)?] and [?] on a result *)
Definition some_or {A} (o : option A) (e : E) : M S E A :=
  match o with Some a => mret a | None => throw e end.
Definition lift {A} (r : result A E) : M S E A :=
  match r with Ok a => mret a | Err e => throw e end.

(** [.expect(..)] and indexing *)
Definition expect {A} (o : option A) : M S E A :=
  match o with Some a => mret a | None => panic end.

(** [for x in l { body }] *)
Fixpoint for_each {X} (l : list X) (body : X -> M S E ()) : M S E () :=
  match l with
  | [] => mret tt
  | x :: l => body x ;; for_each l body
  end.

(** The weakest precondition: [Q] of a normal return, [R] of an error. *)
Definition wp {A} (m : M S E A) (s : S) (Q : A -> S -> Prop) (R : E -> S -> Prop) : Prop :=
  match m s with
  | Done a s => Q a s
  | Fail e s => R e s
  | Panic | Diverged => False
  end.

Lemma wp_bind {A B} (m : M S E A) (f : A -> M S E B) s Q R :
  wp m s (fun a s' => wp (f a) s' Q R) R -> wp (m ≫= f) s Q R.
Proof. unfold wp, mbind, M_bind. by destruct (m s). Qed.

Lemma wp_mono {A} (m : M S E A) s (Q Q' : A -> S -> Prop) (R R' : E -> S -> Prop) :
  (forall a s, Q a s -> Q' a s) -> (forall e s, R e s -> R' e s) -> wp m s Q R -> wp m s Q' R'.
Proof. unfold wp. destruct (m s); auto. Qed.

Lemma wp_done {A} (m : M S E A) s a s' (Q : A -> S -> Prop) R :
  m s = Done a s' -> Q a s' -> wp m s Q R.
Proof. unfold wp. by intros ->. Qed.

(** Equations that run a step whose outcome is known. *)
Lemma bind_done {A B} (m : M S E A) (f : A -> M S E B) s a s' :
  m s = Done a s' -> (m ≫= f) s = f a s'.
Proof. unfold mbind, M_bind. by intros ->. Qed.

Lemma bind_fail {A B} (m : M S E A) (f : A -> M S E B) s e s' :
  m s = Fail e s' -> (m ≫= f) s = Fail e s'.
Proof. unfold mbind, M_bind. by intros ->. Qed.

(** Invariant rule for [for_each]. *)
Lemma wp_for_each {X} (l : list X) (body : X -> M S E ()) (Inv : list X -> S -> Prop) R s :
  Inv l s ->
  (forall x rest s, Inv (x :: rest) s -> wp (body x) s (fun _ s' => Inv rest s') R) ->
  wp (for_each l body) s (fun _ s' => Inv [] s') R.
Proof.
  intros Hinv Hstep. revert s Hinv. induction l as [|x l IH]; intros s0 Hinv; [exact Hinv|].
  apply wp_bind. eapply wp_mono; [|by intros ?? H; exact H|by apply Hstep].
  intros [] s'. apply IH.
Qed.

End Operations.

(** [map_err] *)
Definition map_err {A E F} (f : E -> F) (r : result A E) : result A F :=
  match r with Ok a => Ok a | Err e => Err (f e) end.

(** Runs a method whose error type differs, mapping its error ([.map_err(..)?]). *)
Definition with_err {S A E F} (f : E -> F) (m : M S E A) : M S F A := fun s =>
  match m s with
  | Done a s => Done a s
  | Fail e s => Fail (f e) s
  | Panic => Panic
  | Diverged => Diverged
  end.

Arguments for_each : simpl never.

(** ** Methods that only read, that fail without effect, that cannot fail *)

Section Frames.
Context {S E : Type}.

Definition read_only {A} (m : M S E A) : Prop := forall s,
  match m s with Done _ s' | Fail _ s' => s' = s | Panic | Diverged => True end.
Definition fail_safe {A} (m : M S E A) : Prop := forall s e s', m s = Fail e s' -> s' = s.
Definition never_fails {A} (m : M S E A) : Prop := forall s e s', m s <> Fail e s'.

Lemma read_only_ret {A} (a : A) : read_only (mret a).
Proof. by intros s. Qed.
Lemma read_only_throw {A} (e : E) : read_only (throw (A := A) e).
Proof. by intros s. Qed.
Lemma read_only_gets {A} (f : S -> A) : read_only (gets f).
Proof. by intros s. Qed.
Lemma read_only_some_or {A} (o : option A) (e : E) : read_only (some_or o e).
Proof. intros s. by destruct o. Qed.
Lemma read_only_lift {A} (r : result A E) : read_only (lift r).
Proof. intros s. by destruct r. Qed.
Lemma read_only_expect {A} (o : option A) : read_only (expect o).
Proof. intros s. by destruct o. Qed.
Lemma read_only_bind {A B} (m : M S E A) (f : A -> M S E B) :
  read_only m -> (forall a, read_only (f a)) -> read_only (m ≫= f).
Proof.
  intros Hm Hf s. unfold mbind, M_bind. specialize (Hm s).
  destruct (m s) as [a s1|e s1| |]; simplify_eq; try done. specialize (Hf a s).
  by destruct (f a s).
Qed.

Lemma never_fails_ret {A} (a : A) : never_fails (mret a).
Proof. by intros s. Qed.
Lemma never_fails_gets {A} (f : S -> A) : never_fails (gets f).
Proof. by intros s. Qed.
Lemma never_fails_modify (f : S -> S) : never_fails (modify f).
Proof. by intros s. Qed.
Lemma never_fails_expect {A} (o : option A) : never_fails (expect o).
Proof. intros s. by destruct o. Qed.
Lemma never_fails_bind {A B} (m : M S E A) (f : A -> M S E B) :
  never_fails m -> (forall a, never_fails (f a)) -> never_fails (m ≫= f).
Proof.
  intros Hm Hf s e s'. unfold mbind, M_bind. destruct (m s) as [a s1|e1 s1| |] eqn:H; try done.
  - apply Hf.
  - by apply Hm in H.
Qed.

Lemma fail_safe_read_only {A} (m : M S E A) : read_only m -> fail_safe m.
Proof. intros Hm s e s' H. specialize (Hm s). by rewrite H in Hm. Qed.
Lemma fail_safe_never_fails {A} (m : M S E A) : never_fails m -> fail_safe m.
Proof. intros Hm s e s' H. by apply Hm in H. Qed.
Lemma fail_safe_read {A B} (m : M S E A) (f : A -> M S E B) :
  read_only m -> (forall a, fail_safe (f a)) -> fail_safe (m ≫= f).
Proof.
  intros Hm Hf s e s'. unfold mbind, M_bind. specialize (Hm s).
  destruct (m s) as [a s1|e1 s1| |]; simplify_eq; try done. intros. by eapply Hf. by intros [= <- <-].
Qed.
Lemma fail_safe_commit {A B} (m : M S E A) (f : A -> M S E B) :
  fail_safe m -> (forall a, never_fails (f a)) -> fail_safe (m ≫= f).
Proof.
  intros Hm Hf s e s'. unfold mbind, M_bind. destruct (m s) as [a s1|e1 s1| |] eqn:H; try done.
  - intros Hfail. by apply Hf in Hfail.
  - intros [= <- <-]. by eapply Hm.
Qed.

End Frames.

Create HintDb effects.
#[export] Hint Resolve read_only_ret read_only_throw read_only_gets read_only_some_or
  read_only_lift read_only_expect read_only_bind never_fails_ret never_fails_gets
  never_fails_modify never_fails_expect never_fails_bind : effects.
