(* ===== verification/Atomics.v ===== *)
(** Atomic read-modify-write loops.

    Every crate of the workspace carries the same helper ([try_update_usize],
    [try_update_u64], [try_update_isize]): load the word, compute the
    replacement, and retry a weak compare-exchange until it succeeds or the
    update declines. [try_update] is the atomic view the component models use;
    [try_update_loop] is the loop as written, run against an arbitrary
    environment that overwrites the word between attempts and makes weak
    exchanges fail spuriously. The lemmas relate the two. *)

From S2P Require Import Prelude.
Local Open Scope Z_scope.

(** The atomic view: the returned [Result] and the new contents of the word. *)
Definition try_update (update : Z -> option Z) (word : Z) : result Z Z * Z :=
  match update word with
  | Some next => (Ok word, next)
  | None => (Err word, word)
  end.

(** What the environment does before and at one exchange attempt: the contents
    of the word at that moment and whether a weak exchange fails spuriously. *)
Record attempt : Type := mkAttempt { contents : Z; spurious : bool }.

(** Result of the loop: the returned [Result] and, on success, the word before
    and after the successful exchange; [None] when the environment is exhausted
    before the loop ends. *)
Fixpoint try_update_loop (update : Z -> option Z) (current : Z) (env : list attempt)
    : option (result Z Z * option (Z * Z)) :=
  match update current with
  | None => Some (Err current, None)
  | Some next =>
      match env with
      | [] => None
      | a :: env =>
          if (contents a =? current) && negb (spurious a)
          then Some (Ok current, Some (contents a, next))
          else try_update_loop update (contents a) env
      end
  end.

(** A successful loop is one atomic step: at the exchange the word held the
    returned value, and the stored value is its update. *)
Lemma try_update_loop_ok update current env previous before after :
  try_update_loop update current env = Some (Ok previous, Some (before, after)) ->
  before = previous /\ try_update update before = (Ok previous, after) /\
  exists a, a ∈ env /\ contents a = before.
Proof.
  unfold try_update. revert current. induction env as [|a env IH]; intros current; simpl;
    destruct (update current) as [next|] eqn:Hu; try done.
  destruct (Z.eqb_spec (contents a) current) as [Heq|Hne]; simpl.
  - destruct (spurious a); simpl.
    + intros (-> & Hup & a' & ? & ?)%IH. split; [done|]. split; [done|]. exists a'. set_solver.
    + intros [= <- <- <-]. rewrite Heq, Hu. split; [done|]. split; [done|]. exists a. set_solver.
  - intros (-> & Hup & a' & ? & ?)%IH. split; [done|]. split; [done|]. exists a'. set_solver.
Qed.

(** A declined loop stored nothing and saw a value the update declines. *)
Lemma try_update_loop_err update current env seen w :
  try_update_loop update current env = Some (Err seen, w) ->
  w = None /\ try_update update seen = (Err seen, seen) /\
  (seen = current \/ exists a, a ∈ env /\ contents a = seen).
Proof.
  unfold try_update. revert current. induction env as [|a env IH]; intros current; simpl;
    destruct (update current) as [next|] eqn:Hu; try done.
  - intros [= <- <-]. rewrite Hu. auto.
  - destruct (_ && _); [done|]. intros (-> & Hup & Hseen)%IH. split; [done|]. split; [done|].
    right. destruct Hseen as [->|(a' & ? & ?)]; [exists a|exists a']; set_solver.
  - intros [= <- <-]. rewrite Hu. auto.
Qed.

(** Without interference one attempt is enough. *)
Lemma try_update_loop_alone update word env :
  exists w, try_update_loop update word (mkAttempt word false :: env) =
    Some ((try_update update word).1, w) /\
    (is_ok (try_update update word).1 = true -> w = Some (word, (try_update update word).2)).
Proof.
  unfold try_update. simpl. destruct (update word) as [next|]; simpl.
  - rewrite Z.eqb_refl. simpl. by eexists.
  - by exists None.
Qed.

(** A successful loop has stored. *)
Lemma try_update_loop_no_store update current env previous :
  try_update_loop update current env = Some (Ok previous, None) -> False.
Proof.
  revert current. induction env as [|a env IH]; intros current; simpl;
    destruct (update current) as [next|]; try done.
  destruct (_ && _); [done|]. apply IH.
Qed.

(** The value the loop compares with after the attempts [env]. *)
Definition last_contents (current : Z) (env : list attempt) : Z :=
  from_option contents current (last env).

(** One undisturbed attempt ends the loop. *)
Lemma try_update_loop_quiet update current env env' :
  try_update_loop update current env = None ->
  exists out, try_update_loop update current
    (env ++ [mkAttempt (last_contents current env) false] ++ env') = Some out.
Proof.
  revert current. induction env as [|a env IH]; intros current; simpl;
    destruct (update current) as [next|] eqn:Hu; try done.
  - intros _. unfold last_contents. simpl. rewrite Z.eqb_refl. simpl. eauto.
  - destruct (_ && _); [done|]. intros Hn. apply IH in Hn. unfold last_contents in *.
    rewrite last_cons. destruct (last env) eqn:Hl; simpl in *; exact Hn.
Qed.
