(* ===== verification/BpfNative.v ===== *)
(** Classic BPF, native code, part 1: the x86_64 operations of
    [crates/thekernel-axcbpf/src/translation_validate.rs] and the strict byte
    decoder [Checker] that recovers them from an image.

    A decoding method of the source mutates [position] and returns an
    [Option]; here it is a computation over the [Checker] state that fails with
    [tt] where the source returns [None]. The vector [targets], which the
    validating methods receive by [&mut], is a field of the same state. *)

From S2P Require Import Prelude Effects BpfInstruction BpfProgram.
Local Open Scope Z_scope.

(** The input ABI used by emitted loads ([translate.rs]). *)
Inductive InputProfile : Type :=
| PacketBytesBigEndian
| PacketContextBigEndian
| NativeAlignedWords.

#[export] Instance InputProfile_eq_dec : EqDecision InputProfile.
Proof. solve_decision. Defined.

(** ** Native operations *)

Inductive Register : Type :=
| Eax | Ecx | Edx | Esi | R13d | R14d | R15d
| Rbp | Rsp | R12 | R13 | R14 | R15 | Rdi.

#[export] Instance Register_eq_dec : EqDecision Register.
Proof. solve_decision. Defined.

Module Width.

Inductive t : Type := Byte | Half | Word | Qword.

#[global] Instance eq_dec : EqDecision t.
Proof. solve_decision. Defined.

End Width.

Module Operand.

Inductive t : Type :=
| Register (r : Register)
| Immediate (value : Z)
| Memory (base : BpfNative.Register) (displacement : Z).

#[global] Instance eq_dec : EqDecision t.
Proof. solve_decision. Defined.

End Operand.

Inductive BinaryKind : Type := Add | Sub | Mul | Or | And | Xor.
Inductive ShiftKind : Type := ShiftLeft | ShiftRight.
Inductive UnaryKind : Type := Neg | Bswap | RotateLeft.
Inductive Condition : Type := Below | Equal | NotEqual | Above | AboveOrEqual.

#[export] Instance BinaryKind_eq_dec : EqDecision BinaryKind.
Proof. solve_decision. Defined.
#[export] Instance ShiftKind_eq_dec : EqDecision ShiftKind.
Proof. solve_decision. Defined.
#[export] Instance UnaryKind_eq_dec : EqDecision UnaryKind.
Proof. solve_decision. Defined.
#[export] Instance Condition_eq_dec : EqDecision Condition.
Proof. solve_decision. Defined.

Module NativeOp.

Inductive t : Type :=
| Push (r : Register)
| Pop (r : Register)
| Mov (width : Width.t) (destination source : Operand.t)
| Load (width : Width.t) (destination base : Register) (displacement : Z)
| Binary (kind : BinaryKind) (width : Width.t) (destination source : Operand.t)
| ImmediateMultiply (destination source : Register) (immediate : Z)
| Compare (width : Width.t) (left right : Operand.t)
| Test (width : Width.t) (left right : Operand.t)
| ShiftImmediate (kind : ShiftKind) (width : Width.t) (destination : Register) (count : Z)
| ShiftRegister (kind : ShiftKind) (width : Width.t) (destination : Register)
| Unary (kind : UnaryKind) (width : Width.t) (destination : Register) (immediate : Z)
| Divide (width : Width.t) (divisor : Operand.t)
| SpeculationBarrier
| ConditionalJump (condition : Condition) (target : Z)
| Jump (target : Z)
| Return.

#[global] Instance eq_dec : EqDecision t.
Proof. solve_decision. Defined.

End NativeOp.

Record Decoded : Type := mkDecoded { offset : Z; operation : NativeOp.t }.

Module Target.

Inductive t : Type := Source (pc : Z) | Failure | Epilogue.

#[global] Instance eq_dec : EqDecision t.
Proof. solve_decision. Defined.

End Target.

Record TargetCheck : Type := mkTargetCheck {
  check_pc : Z;
  actual : Z;
  expected : Target.t
}.

(** Constructors of operands and operations. *)
Definition register (r : Register) : Operand.t := Operand.Register r.
Definition immediate (value : Z) : Operand.t := Operand.Immediate value.
Definition memory (base : Register) (displacement : Z) : Operand.t :=
  Operand.Memory base displacement.

(** [as i8] of a value in two's complement. *)
Definition as_i8 (z : Z) : Z := (z + 128) mod 256 - 128.

Definition scratch_displacement (index : Z) : Z := as_i8 (- (4 * (index + 1))).

Definition scratch_operand (index : Z) (base : Register) : Operand.t :=
  memory base (scratch_displacement index).

Definition mov (width : Width.t) (destination source : Operand.t) : NativeOp.t :=
  NativeOp.Mov width destination source.

Definition binary_xor (destination source : Register) : NativeOp.t :=
  NativeOp.Binary Xor Width.Word (register destination) (register source).

Definition binary_immediate (kind : BinaryKind) (value : Z) : NativeOp.t :=
  NativeOp.Binary kind Width.Word (register Eax) (immediate value).

(** ** The decoder *)

Record Checker : Type := mkChecker {
  code_bytes : list Z;
  position : Z;
  targets : list TargetCheck
}.

Definition set_position (p : Z) (c : Checker) : Checker :=
  mkChecker (code_bytes c) p (targets c).

Notation decoder := (M Checker ()).

(** [None] as the value of a decoding method. *)
Definition none {A} : decoder A := throw tt.

(** [u32::from_le_bytes] *)
Definition from_le_bytes (bs : list Z) : Z :=
  foldr (fun b acc => b + 256 * acc) 0 bs.

(** [i32::from_le_bytes(v.to_le_bytes())] *)
Definition as_i32 (z : Z) : Z := (z + 2147483648) mod 4294967296 - 2147483648.

Module Checker.

Definition new (bytes : list Z) : Checker := mkChecker bytes 0 [].

Definition byte : decoder Z := fun c =>
  match get (code_bytes c) (position c) with
  | None => Fail tt c
  | Some b => Done b (set_position (position c + 1) c)
  end.

Definition imm32 : decoder Z := fun c =>
  match checked_add_usize (position c) 4 ≫= get_range (code_bytes c) (position c) with
  | None => Fail tt c
  | Some bs => Done (from_le_bytes bs) (set_position (position c + 4) c)
  end.

Definition relative_target : decoder Z :=
  v ← imm32;
  p ← gets position;
  let displacement := as_i32 v in
  some_or (if 0 <=? displacement then checked_add_usize p displacement
           else checked_sub_usize p (- displacement)) tt.

End Checker.

(** [match byte { 0x.. => .., _ => None }] *)
Fixpoint match_byte {A} (b : Z) (arms : list (Z * decoder A)) : decoder A :=
  match arms with
  | [] => none
  | (pattern, arm) :: arms => if b =? pattern then arm else match_byte b arms
  end.

(** [if self.byte()? == expected { .. } else { None }] *)
Definition when_byte {A} (expected : Z) (body : decoder A) : decoder A :=
  b ← Checker.byte; if b =? expected then body else none.

(** [match self.byte()? { .. }] *)
Definition on_byte {A} (arms : list (Z * decoder A)) : decoder A :=
  b ← Checker.byte; match_byte b arms.

Import NativeOp.

(** The two bytes of [match (self.byte()?, self.byte()?)]. *)
Definition two_bytes : decoder (Z * Z) :=
  a ← Checker.byte; b ← Checker.byte; mret (a, b).

Definition decode_binary_register (kind : BinaryKind) : decoder t :=
  when_byte 0xc8 (mret (Binary kind Width.Word (register Eax) (register Ecx))).

Definition decode_move_register_or_scratch : decoder t :=
  on_byte
    [ (0xc1, mret (mov Width.Word (register Ecx) (register Eax)));
      (0xc8, mret (mov Width.Word (register Eax) (register Ecx)));
      (0xd0, mret (mov Width.Word (register Eax) (register Edx)));
      (0x45, b ← Checker.byte;
             mret (mov Width.Word (memory Rbp (as_i8 b)) (register Eax)));
      (0x4d, b ← Checker.byte;
             mret (mov Width.Word (memory Rbp (as_i8 b)) (register Ecx))) ].

Definition conditional_jump_to (condition : Condition) : decoder t :=
  target ← Checker.relative_target; mret (ConditionalJump condition target).

Definition decode_0f : decoder t :=
  on_byte
    [ (0xae, when_byte 0xe8 (mret SpeculationBarrier));
      (0x82, conditional_jump_to Below);
      (0x83, conditional_jump_to AboveOrEqual);
      (0x84, conditional_jump_to Equal);
      (0x85, conditional_jump_to NotEqual);
      (0x87, conditional_jump_to Above);
      (0xaf, when_byte 0xc1 (mret (Binary Mul Width.Word (register Eax) (register Ecx))));
      (0xc8, mret (Unary Bswap Width.Word Eax 0)) ].

Definition decode_rex_wrb : decoder t :=
  when_byte 0x01 (when_byte 0xe6
    (mret (Binary Add Width.Qword (register R14) (register R12)))).

Definition decode_rex_wb : decoder t :=
  when_byte 0x89 (when_byte 0xfc
    (mret (mov Width.Qword (register R12) (register Rdi)))).

Definition decode_rex_w : decoder t :=
  on_byte
    [ (0x83, on_byte
        [ (0xec, b ← Checker.byte;
                 mret (Binary Sub Width.Qword (register Rsp) (immediate b)));
          (0xc4, b ← Checker.byte;
                 mret (Binary Add Width.Qword (register Rsp) (immediate b))) ]);
      (0x89, when_byte 0xe5 (mret (mov Width.Qword (register Rbp) (register Rsp)))) ].

Definition decode_rex_rb : decoder t :=
  on_byte
    [ (0x89, when_byte 0xef (mret (mov Width.Word (register R15d) (register R13d))));
      (0x39, when_byte 0xf7
        (mret (Compare Width.Word (register R15d) (register R14d)))) ].

Definition decode_rex_wr : decoder t :=
  when_byte 0x8b (when_byte 0x27 (mret (Load Width.Qword R12 Rdi 0))).

Definition decode_rex_r : decoder t :=
  on_byte
    [ (0x8b, when_byte 0x6f
        (b ← Checker.byte; mret (Load Width.Word R13d Rdi (as_i8 b))));
      (0x89, on_byte
        [ (0xe8, mret (mov Width.Word (register Eax) (register R13d)));
          (0xe9, mret (mov Width.Word (register Ecx) (register R13d)));
          (0xf1, mret (mov Width.Word (register Ecx) (register R14d)));
          (0xf9, mret (mov Width.Word (register Ecx) (register R15d))) ]) ].

(** [self.bytes[self.position - 1]] *)
Definition last_byte : decoder Z :=
  c ← gets (fun c => c); expect (get (code_bytes c) (position c - 1)).

Definition push_extended : decoder t :=
  b ← last_byte;
  mret (Push (if b =? 0x54 then R12 else if b =? 0x55 then R13
              else if b =? 0x56 then R14 else R15)).

Definition pop_extended : decoder t :=
  b ← last_byte;
  mret (Pop (if b =? 0x5c then R12 else if b =? 0x5d then R13
             else if b =? 0x5e then R14 else R15)).

(** The range patterns [0x54..=0x57] and [0x5c..=0x5f] come first. *)
Definition decode_rex_b : decoder t :=
  b ← Checker.byte;
  if (0x54 <=? b) && (b <=? 0x57) then push_extended else
  if (0x5c <=? b) && (b <=? 0x5f) then pop_extended else
  match_byte b
    [ (0x81, when_byte 0xc6
        (v ← Checker.imm32; mret (Binary Add Width.Word (register R14d) (immediate v))));
      (0x83, on_byte
        [ (0xe6, v ← Checker.byte;
                 mret (Binary And Width.Word (register R14d) (immediate v)));
          (0xef, v ← Checker.byte;
                 mret (Binary Sub Width.Word (register R15d) (immediate v)));
          (0xfd, v ← Checker.byte;
                 mret (Compare Width.Word (register R13d) (immediate v))) ]);
      (0x89, on_byte
        [ (0xce, mret (mov Width.Word (register R14d) (register Ecx)));
          (0xcf, mret (mov Width.Word (register R15d) (register Ecx)));
          (0xf5, mret (mov Width.Word (register R13d) (register Esi))) ]);
      (0x8b, when_byte 0x06 (mret (Load Width.Word Eax R14 0)));
      (0x0f, on_byte
        [ (0xb6, on_byte
            [ (0x06, mret (Load Width.Byte Eax R14 0));
              (0x0e, mret (Load Width.Byte Ecx R14 0)) ]);
          (0xb7, when_byte 0x06 (mret (Load Width.Half Eax R14 0))) ]);
      (0xf6, when_byte 0xc6 (when_byte 3
        (mret (Test Width.Byte (register R14d) (immediate 3)))));
      (0xf7, when_byte 0xf6 (mret (Divide Width.Word (register R14d))));
      (0xbe, v ← Checker.imm32; mret (mov Width.Word (register R14d) (immediate v))) ].

Definition decode_immediate (f : Z -> t) : decoder t := v ← Checker.imm32; mret (f v).

(** [0x83 => match (self.byte()?, self.byte()?)] and [0xc1 => ..]. *)
Definition decode_and_immediate8 : decoder t :=
  '(modrm, v) ← two_bytes;
  if (modrm =? 0xe0) && (v =? 0x0f)
  then mret (Binary And Width.Word (register Eax) (immediate 0x0f)) else
  if (modrm =? 0xe1) && (v =? 0x0f)
  then mret (Binary And Width.Word (register Ecx) (immediate 0x0f)) else none.

Definition decode_shift_immediate : decoder t :=
  '(modrm, count) ← two_bytes;
  match_byte modrm
    [ (0xe0, mret (ShiftImmediate ShiftLeft Width.Word Eax count));
      (0xe1, mret (ShiftImmediate ShiftLeft Width.Word Ecx count));
      (0xe8, mret (ShiftImmediate ShiftRight Width.Word Eax count)) ].

Definition decode_load_or_scratch : decoder t :=
  on_byte
    [ (0x06, mret (Load Width.Word Eax R14 0));
      (0x47, b ← Checker.byte; mret (Load Width.Word Eax Rdi (as_i8 b)));
      (0x45, b ← Checker.byte;
             mret (mov Width.Word (register Eax) (memory Rbp (as_i8 b))));
      (0x4d, b ← Checker.byte;
             mret (mov Width.Word (register Ecx) (memory Rbp (as_i8 b)))) ].

Definition decode_operation : decoder t :=
  on_byte
    [ (0x55, mret (Push Rbp));
      (0x5d, mret (Pop Rbp));
      (0x41, decode_rex_b);
      (0x44, decode_rex_r);
      (0x45, decode_rex_rb);
      (0x48, decode_rex_w);
      (0x49, decode_rex_wb);
      (0x4c, decode_rex_wr);
      (0x4d, decode_rex_wrb);
      (0x0f, decode_0f);
      (0x31, on_byte
        [ (0xc0, mret (binary_xor Eax Eax));
          (0xc8, mret (binary_xor Eax Ecx));
          (0xc9, mret (binary_xor Ecx Ecx));
          (0xd2, mret (binary_xor Edx Edx)) ]);
      (0x01, decode_binary_register Add);
      (0x09, decode_binary_register Or);
      (0x21, decode_binary_register And);
      (0x29, decode_binary_register Sub);
      (0x39, when_byte 0xc8 (mret (Compare Width.Word (register Eax) (register Ecx))));
      (0x05, decode_immediate (binary_immediate Add));
      (0x0d, decode_immediate (binary_immediate Or));
      (0x25, decode_immediate (binary_immediate And));
      (0x2d, decode_immediate (binary_immediate Sub));
      (0x35, decode_immediate (binary_immediate Xor));
      (0x3d, decode_immediate (fun v => Compare Width.Word (register Eax) (immediate v)));
      (0x66, when_byte 0xc1 (when_byte 0xc0 (when_byte 8
        (mret (Unary RotateLeft Width.Half Eax 8)))));
      (0x69, when_byte 0xc0 (decode_immediate (ImmediateMultiply Eax Eax)));
      (0x83, decode_and_immediate8);
      (0x85, on_byte
        [ (0xc8, mret (Test Width.Word (register Eax) (register Ecx)));
          (0xc9, mret (Test Width.Word (register Ecx) (register Ecx))) ]);
      (0x89, decode_move_register_or_scratch);
      (0x8b, decode_load_or_scratch);
      (0xa9, decode_immediate (fun v => Test Width.Word (register Eax) (immediate v)));
      (0xb8, decode_immediate (fun v => mov Width.Word (register Eax) (immediate v)));
      (0xb9, decode_immediate (fun v => mov Width.Word (register Ecx) (immediate v)));
      (0xc1, decode_shift_immediate);
      (0xd3, on_byte
        [ (0xe0, mret (ShiftRegister ShiftLeft Width.Word Eax));
          (0xe8, mret (ShiftRegister ShiftRight Width.Word Eax)) ]);
      (0xe9, target ← Checker.relative_target; mret (Jump target));
      (0xf7, on_byte
        [ (0xd8, mret (Unary Neg Width.Word Eax 0));
          (0xf1, mret (Divide Width.Word (register Ecx))) ]);
      (0xc3, mret Return) ].
