(* ===== verification/BpfValidate.v ===== *)
(** Classic BPF, native code, part 2: the independent translation validator of
    [crates/thekernel-axcbpf/src/translation_validate.rs].

    [validate_translation_layout] checks the source against its own copy of the
    acceptance rules ([validate_source_contract]), then walks the image with the
    decoder of [BpfNative] and compares every operation with the one the source
    instruction calls for. Branch targets are collected on the way and compared
    with the offsets of the blocks at the end. Fallible allocations are the
    argument [reserve]; indexing and subtraction that can panic are explicit. *)

From S2P Require Import Prelude Effects BpfInstruction BpfProgram BpfNative.
Local Open Scope Z_scope.

Definition MAX_CODE_IMAGE_BYTES : Z := 256 * 1024.

(** [ImageValidationError] ([translate.rs]). *)
Module Image.

Inductive error : Type :=
| NoMemory
| Empty
| TooLong (length : Z)
| UnsupportedOpcode (pc code : Z)
| ImmediateDivisionByZero (pc : Z)
| ImmediateShiftOutOfRange (pc shift : Z)
| ScratchOutOfRange (pc index : Z)
| ScratchUninitialized (pc index : Z)
| JumpOutOfRange (pc : Z)
| UnsupportedAncillaryLoad (pc offset : Z)
| MissingFinalReturn
| InvalidEntry (entry : Z)
| InvalidBoundary (index : Z)
| BoundaryOutOfBounds (index : Z)
| InvalidRecordLength (index len : Z)
| SourceMapMismatch (index : Z)
| MissingBranchSite (pc : Z)
| BranchSiteMismatch (pc : Z)
| BranchOutOfBounds (pc : Z)
| IndirectControlFlow
| RelocationOutOfBounds (index : Z)
| UnexpectedRelocation (index : Z)
| ImageTooLarge (size : Z)
| ProfileUnsupported (pc code : Z)
| NativeDecode (offset : Z)
| NativeSemanticMismatch (pc offset : Z)
| NativeTargetMismatch (pc : Z)
| NativeTrailingBytes (offset : Z).

End Image.

(** [.iter().copied().enumerate()], counting from [pc]. *)
Fixpoint enumerate_from {A} (pc : Z) (l : list A) : list (Z * A) :=
  match l with
  | [] => []
  | x :: l => (pc, x) :: enumerate_from (pc + 1) l
  end.

(** A loop that owns a local vector: its state is dropped at the end. *)
Definition with_local {S T E A} (local : T) (m : M T E A) : M S E A := fun s =>
  match m local with
  | Done a _ => Done a s
  | Fail e _ => Fail e s
  | Panic => Panic
  | Diverged => Diverged
  end.

(** [if !try_reserve_exact(..) { return Err(e) }] *)
Definition reserve_or {S E} (ok : bool) (e : E) : M S E () :=
  if ok then mret tt else throw e.

Definition is_context (p : InputProfile) : bool :=
  match p with PacketContextBigEndian => true | _ => false end.
Definition is_native_words (p : InputProfile) : bool :=
  match p with NativeAlignedWords => true | _ => false end.
Definition is_some {A} (o : option A) : bool :=
  match o with Some _ => true | None => false end.

(** ** The source contract *)

Module Contract.

Definition source_opcode_supported (code : Z) : bool :=
  match decode code with
  | Some (LD_IMM | LD_W_ABS | LD_H_ABS | LD_B_ABS | LD_W_IND | LD_H_IND | LD_B_IND
         | LD_MEM | LD_LEN | LDX_IMM | LDX_MEM | LDX_LEN | LDX_B_MSH | ST | STX
         | ALU_ADD_K | ALU_ADD_X | ALU_SUB_K | ALU_SUB_X | ALU_MUL_K | ALU_MUL_X
         | ALU_DIV_K | ALU_DIV_X | ALU_OR_K | ALU_OR_X | ALU_AND_K | ALU_AND_X
         | ALU_LSH_K | ALU_LSH_X | ALU_RSH_K | ALU_RSH_X | ALU_NEG | ALU_MOD_K
         | ALU_MOD_X | ALU_XOR_K | ALU_XOR_X | JMP_JA | JMP_JEQ_K | JMP_JEQ_X
         | JMP_JGT_K | JMP_JGT_X | JMP_JGE_K | JMP_JGE_X | JMP_JSET_K | JMP_JSET_X
         | RET_K | RET_A | MISC_TAX | MISC_TXA) => true
  | None => false
  end.

Definition source_target (pc offset length : Z) : option Z :=
  match checked_add_usize pc 1 ≫= (fun next => checked_add_usize next offset) with
  | Some target => if target <? length then Some target else None
  | None => None
  end.

Definition validate_source_instruction_contract (pc : Z) (i : Instruction)
    : result unit Image.error :=
  if negb (source_opcode_supported (code i))
  then Err (Image.UnsupportedOpcode pc (code i)) else
  match decode (code i) with
  | Some (ALU_DIV_K | ALU_MOD_K) =>
      if k i =? 0 then Err (Image.ImmediateDivisionByZero pc) else Ok tt
  | Some (ALU_LSH_K | ALU_RSH_K) =>
      if 32 <=? k i then Err (Image.ImmediateShiftOutOfRange pc (k i)) else Ok tt
  | Some (LD_MEM | LDX_MEM | ST | STX) =>
      if SCRATCH_WORDS <=? k i then Err (Image.ScratchOutOfRange pc (k i)) else Ok tt
  | Some (LD_W_ABS | LD_H_ABS | LD_B_ABS) =>
      if negb (Z.land (k i) 0x80000000 =? 0) && negb (is_some (ancillary_from_offset (k i)))
      then Err (Image.UnsupportedAncillaryLoad pc (k i)) else Ok tt
  | Some LDX_B_MSH =>
      if negb (Z.land (k i) 0x80000000 =? 0)
      then Err (Image.UnsupportedAncillaryLoad pc (k i)) else Ok tt
  | _ => Ok tt
  end.

Definition validate_profile_contract (pc : Z) (i : Instruction) (profile : InputProfile)
    : result unit Image.error :=
  if match decode (code i) with
     | Some (LD_W_ABS | LD_H_ABS | LD_B_ABS) => true | _ => false end
     && is_ancillary_offset (k i) && is_some (ancillary_from_offset (k i))
     && negb (is_context profile)
  then Err (Image.ProfileUnsupported pc (code i)) else
  if negb (is_native_words profile) then Ok tt else
  match decode (code i) with
  | Some LD_W_ABS =>
      if negb (Z.land (k i) 3 =? 0)
      then Err (Image.ProfileUnsupported pc (code i)) else Ok tt
  | Some (LD_H_ABS | LD_B_ABS | LD_H_IND | LD_B_IND | LDX_B_MSH) =>
      Err (Image.ProfileUnsupported pc (code i))
  | _ => Ok tt
  end.

(** The jump checks of the first loop. *)
Definition validate_jump_contract (len pc : Z) (i : Instruction) : result unit Image.error :=
  match decode (code i) with
  | Some JMP_JA =>
      if is_some (source_target pc (k i) len) then Ok tt else Err (Image.JumpOutOfRange pc)
  | Some (JMP_JEQ_K | JMP_JEQ_X | JMP_JGT_K | JMP_JGT_X
         | JMP_JGE_K | JMP_JGE_X | JMP_JSET_K | JMP_JSET_X) =>
      if negb (is_some (source_target pc (jt i) len)) ||
         negb (is_some (source_target pc (jf i) len))
      then Err (Image.JumpOutOfRange pc) else Ok tt
  | _ => Ok tt
  end.

Definition merge_initialized (slot : option Z) (incoming : Z) : option Z :=
  Some (match slot with Some old => Z.land old incoming | None => incoming end).

Notation table := (list (option Z)).

(** [merge_initialized(&mut incoming[target], initialized)] *)
Definition merge_into (target initialized : Z) : M table Image.error () :=
  incoming ← gets (fun t => t);
  slot ← expect (get incoming target);
  incoming ← expect (put incoming target (merge_initialized slot initialized));
  modify (fun _ => incoming).

(** The two matches on a reached instruction. *)
Definition check_scratch (pc : Z) (i : Instruction) (initialized : Z)
    : result Z Image.error :=
  match decode (code i) with
  | Some (LD_MEM | LDX_MEM) =>
      if Z.land initialized (scratch_bit (k i)) =? 0
      then Err (Image.ScratchUninitialized pc (k i)) else Ok initialized
  | Some (ST | STX) => Ok (Z.lor initialized (scratch_bit (k i)))
  | _ => Ok initialized
  end.

Definition propagate (len pc : Z) (i : Instruction) (initialized : Z)
    : M table Image.error () :=
  match decode (code i) with
  | Some (RET_K | RET_A) => mret tt
  | Some JMP_JA =>
      target ← some_or (source_target pc (k i) len) (Image.JumpOutOfRange pc);
      merge_into target initialized
  | Some (JMP_JEQ_K | JMP_JEQ_X | JMP_JGT_K | JMP_JGT_X
         | JMP_JGE_K | JMP_JGE_X | JMP_JSET_K | JMP_JSET_X) =>
      true_target ← some_or (source_target pc (jt i) len) (Image.JumpOutOfRange pc);
      false_target ← some_or (source_target pc (jf i) len) (Image.JumpOutOfRange pc);
      merge_into true_target initialized ;;
      merge_into false_target initialized
  | _ =>
      next ← some_or (checked_add_usize pc 1) (Image.JumpOutOfRange pc);
      if next <? len then merge_into next initialized else mret tt
  end.

Definition scratch_body (len : Z) (entry : Z * Instruction) : M table Image.error () :=
  let '(pc, i) := entry in
  incoming ← gets (fun t => t);
  slot ← expect (get incoming pc);
  match slot with
  | None => mret tt
  | Some initialized =>
      initialized ← lift (check_scratch pc i initialized);
      propagate len pc i initialized
  end.

Definition validate_scratch_initialization {S} (reserve : Z -> bool)
    (instructions : list Instruction) : M S Image.error () :=
  reserve_or (reserve (zlen instructions)) Image.NoMemory ;;
  incoming ← expect (put (replicate (length instructions) None) 0 (Some 0));
  with_local incoming
    (for_each (enumerate_from 0 instructions) (scratch_body (zlen instructions))).

Definition validate_source_contract {S} (reserve : Z -> bool)
    (instructions : list Instruction) (profile : InputProfile) : M S Image.error () :=
  if zlen instructions =? 0 then throw Image.Empty else
  if MAX_INSTRUCTIONS <? zlen instructions
  then throw (Image.TooLong (zlen instructions)) else
  for_each (enumerate_from 0 instructions) (fun '(pc, i) =>
    lift (validate_source_instruction_contract pc i) ;;
    lift (validate_profile_contract pc i profile) ;;
    lift (validate_jump_contract (zlen instructions) pc i)) ;;
  if negb (match last instructions ≫= (fun i => decode (code i)) with
           | Some (RET_K | RET_A) => true | _ => false end)
  then throw Image.MissingFinalReturn else
  validate_scratch_initialization reserve instructions.

End Contract.

(** ** Walking the image *)

(** [PacketInputContext]: a pointer, two [u32] and the metadata, [repr(C)]. *)
Definition DATA_OFFSET : Z := 0.
Definition LEN_OFFSET : Z := 8.
Definition METADATA_OFFSET : Z := 16.

Definition binary_kind (code : Z) : BinaryKind :=
  match decode code with
  | Some (ALU_ADD_K | ALU_ADD_X) => Add
  | Some (ALU_SUB_K | ALU_SUB_X) => Sub
  | Some (ALU_OR_K | ALU_OR_X) => Or
  | Some (ALU_AND_K | ALU_AND_X) => And
  | Some (ALU_XOR_K | ALU_XOR_X) => Xor
  | _ => Xor
  end.

Definition native_condition (code : Z) : Condition :=
  match decode code with
  | Some (JMP_JEQ_K | JMP_JEQ_X) => Equal
  | Some (JMP_JGT_K | JMP_JGT_X) => Above
  | Some (JMP_JGE_K | JMP_JGE_X) => AboveOrEqual
  | Some (JMP_JSET_K | JMP_JSET_X) => NotEqual
  | _ => Equal
  end.

Definition native_load_width (w : LoadWidth) : Width.t :=
  match w with Byte => Width.Byte | Half => Width.Half | Word => Width.Word end.

Module Walk.
Import NativeOp.

Notation checking := (M Checker Image.error).

(** [Checker::decode] *)
Definition decode_next : checking Decoded := fun c =>
  match decode_operation c with
  | Done op c' => Done (mkDecoded (position c) op) c'
  | Fail _ c' => Fail (Image.NativeDecode (position c)) c'
  | Panic => Panic
  | Diverged => Diverged
  end.

Definition expect_op (pc : Z) (op : t) : checking () :=
  decoded ← decode_next;
  if decide (operation decoded = op) then mret tt
  else throw (Image.NativeSemanticMismatch pc (offset decoded)).

Definition expect_test (pc : Z) (w : Width.t) (l r : Operand.t) : checking () :=
  expect_op pc (Test w l r).

Definition expect_compare (pc : Z) (w : Width.t) (l r : Operand.t) : checking () :=
  expect_op pc (Compare w l r).

Definition expect_conditional_jump (pc : Z) (condition : Condition) : checking Z :=
  decoded ← decode_next;
  match operation decoded with
  | ConditionalJump actual target =>
      if decide (actual = condition) then mret target
      else throw (Image.NativeSemanticMismatch pc (offset decoded))
  | _ => throw (Image.NativeSemanticMismatch pc (offset decoded))
  end.

Definition expect_jump (pc : Z) : checking Z :=
  decoded ← decode_next;
  match operation decoded with
  | Jump target => mret target
  | _ => throw (Image.NativeSemanticMismatch pc (offset decoded))
  end.

Definition record_target (pc actual : Z) (expected : Target.t) : checking () :=
  modify (fun c => mkChecker (code_bytes c) (position c)
                     (targets c ++ [mkTargetCheck pc actual expected])).

Definition validate_prologue (profile : InputProfile) : checking () :=
  expect_op 0 (Push Rbp) ;;
  expect_op 0 (Push R12) ;;
  expect_op 0 (Push R13) ;;
  expect_op 0 (Push R14) ;;
  expect_op 0 (Push R15) ;;
  expect_op 0 (mov Width.Qword (register Rbp) (register Rsp)) ;;
  expect_op 0 (Binary Sub Width.Qword (register Rsp) (immediate 0x40)) ;;
  match profile with
  | PacketBytesBigEndian | NativeAlignedWords =>
      expect_op 0 (mov Width.Qword (register R12) (register Rdi)) ;;
      expect_op 0 (mov Width.Word (register R13d) (register Esi))
  | PacketContextBigEndian =>
      expect_op 0 (Load Width.Qword R12 Rdi 0) ;;
      expect_op 0 (Load Width.Word R13d Rdi (as_i8 LEN_OFFSET))
  end ;;
  expect_op 0 (Binary Xor Width.Word (register Eax) (register Eax)) ;;
  expect_op 0 (Binary Xor Width.Word (register Ecx) (register Ecx)).

Definition validate_epilogue : checking () :=
  expect_op 0 (Binary Add Width.Qword (register Rsp) (immediate 0x40)) ;;
  expect_op 0 (Pop R15) ;;
  expect_op 0 (Pop R14) ;;
  expect_op 0 (Pop R13) ;;
  expect_op 0 (Pop R12) ;;
  expect_op 0 (Pop Rbp) ;;
  expect_op 0 Return.

(** [indirect] only documents the caller: both values check the same. *)
Definition validate_bounds (pc : Z) (w : LoadWidth) (indirect : bool) : checking () :=
  let width := width_bytes w in
  expect_op pc (Compare Width.Word (register R13d) (immediate width)) ;;
  target ← expect_conditional_jump pc Below;
  record_target pc target Target.Failure ;;
  expect_op pc (mov Width.Word (register R15d) (register R13d)) ;;
  expect_op pc (Binary Sub Width.Word (register R15d) (immediate width)) ;;
  expect_op pc (Compare Width.Word (register R15d) (register R14d)) ;;
  target ← expect_conditional_jump pc Below;
  record_target pc target Target.Failure.

Definition validate_address_add (pc : Z) : checking () :=
  expect_op pc (Binary Add Width.Qword (register R14) (register R12)) ;;
  target ← expect_conditional_jump pc Below;
  record_target pc target Target.Failure.

Definition validate_endian_transform (pc : Z) (w : LoadWidth) (profile : InputProfile)
    : checking () :=
  match profile with
  | PacketBytesBigEndian | PacketContextBigEndian =>
      match w with
      | Byte => mret tt
      | Half => expect_op pc (Unary RotateLeft Width.Half Eax 8)
      | Word => expect_op pc (Unary Bswap Width.Word Eax 0)
      end
  | NativeAlignedWords => mret tt
  end.

Definition validate_absolute_load (pc k : Z) (w : LoadWidth) (profile : InputProfile)
    : checking () :=
  match ancillary_from_offset k with
  | Some field =>
      if negb (is_context profile) then
        throw (Image.ProfileUnsupported pc
          (match w with
           | Word => code_of LD_W_ABS | Half => code_of LD_H_ABS | Byte => code_of LD_B_ABS
           end))
      else
        p ← gets position;
        let displacement := METADATA_OFFSET + Ancillary.metadata_offset field in
        (if displacement <=? 127 then mret tt
         else throw (Image.NativeSemanticMismatch pc p)) ;;
        expect_op pc (Load Width.Word Eax Rdi displacement)
  | None =>
      expect_op pc (mov Width.Word (register R14d) (immediate k)) ;;
      validate_bounds pc w false ;;
      validate_address_add pc ;;
      expect_op pc SpeculationBarrier ;;
      expect_op pc (Load (native_load_width w) Eax R14 0) ;;
      validate_endian_transform pc w profile
  end.

Definition validate_absolute_load_to_x (pc k : Z) (profile : InputProfile) : checking () :=
  if is_some (ancillary_from_offset k)
  then throw (Image.UnsupportedAncillaryLoad pc k) else
  expect_op pc (mov Width.Word (register R14d) (immediate k)) ;;
  validate_bounds pc Byte false ;;
  validate_address_add pc ;;
  expect_op pc SpeculationBarrier ;;
  expect_op pc (Load Width.Byte Ecx R14 0).

Definition validate_indirect_load (pc k : Z) (w : LoadWidth) (profile : InputProfile)
    : checking () :=
  expect_op pc (mov Width.Word (register R14d) (register Ecx)) ;;
  expect_op pc (Binary Add Width.Word (register R14d) (immediate k)) ;;
  target ← expect_conditional_jump pc Below;
  record_target pc target Target.Failure ;;
  validate_bounds pc w true ;;
  (match profile, w with
   | NativeAlignedWords, Word =>
       expect_op pc (Test Width.Byte (register R14d) (immediate 3)) ;;
       target ← expect_conditional_jump pc NotEqual;
       record_target pc target Target.Failure
   | _, _ => mret tt
   end) ;;
  validate_address_add pc ;;
  expect_op pc SpeculationBarrier ;;
  expect_op pc (Load (native_load_width w) Eax R14 0) ;;
  validate_endian_transform pc w profile.

(** The arm [LDX_B_MSH]. *)
Definition validate_msh (pc k : Z) (profile : InputProfile) : checking () :=
  validate_absolute_load_to_x pc k profile ;;
  expect_op pc (Binary And Width.Word (register Ecx) (immediate 0x0f)) ;;
  expect_op pc (ShiftImmediate ShiftLeft Width.Word Ecx 2).

(** The arms [ALU_DIV_K | ALU_MOD_K]. *)
Definition validate_divide_immediate (pc k : Z) (is_mod : bool) : checking () :=
  expect_op pc (mov Width.Word (register R14d) (immediate k)) ;;
  expect_op pc (Binary Xor Width.Word (register Edx) (register Edx)) ;;
  expect_op pc (Divide Width.Word (register R14d)) ;;
  if is_mod then expect_op pc (mov Width.Word (register Eax) (register Edx)) else mret tt.

(** The arms [ALU_DIV_X | ALU_MOD_X]. *)
Definition validate_divide_register (pc : Z) (is_mod : bool) : checking () :=
  expect_test pc Width.Word (register Ecx) (register Ecx) ;;
  target ← expect_conditional_jump pc Equal;
  record_target pc target Target.Failure ;;
  expect_op pc (Binary Xor Width.Word (register Edx) (register Edx)) ;;
  expect_op pc (Divide Width.Word (register Ecx)) ;;
  if is_mod then expect_op pc (mov Width.Word (register Eax) (register Edx)) else mret tt.

(** The arms [ALU_LSH_X | ALU_RSH_X]. *)
Definition validate_shift_register (pc : Z) (kind : ShiftKind) : checking () :=
  expect_op pc (mov Width.Word (register R14d) (register Ecx)) ;;
  expect_op pc (Binary And Width.Word (register R14d) (immediate 0x1f)) ;;
  expect_op pc (mov Width.Word (register R15d) (register Ecx)) ;;
  expect_op pc (mov Width.Word (register Ecx) (register R14d)) ;;
  expect_op pc (ShiftRegister kind Width.Word Eax) ;;
  expect_op pc (mov Width.Word (register Ecx) (register R15d)).

(** The arms of the conditional jumps. *)
Definition validate_conditional (pc : Z) (i : Instruction) : checking () :=
  let condition := native_condition (code i) in
  let left := register Eax in
  let right := if Z.land (code i) 0x08 =? 0 then immediate (k i) else register Ecx in
  (match decode (code i) with
   | Some (JMP_JSET_K | JMP_JSET_X) => expect_test pc Width.Word left right
   | _ => expect_compare pc Width.Word left right
   end) ;;
  target ← expect_conditional_jump pc condition;
  record_target pc target (Target.Source (pc + 1 + jt i)) ;;
  target ← expect_jump pc;
  record_target pc target (Target.Source (pc + 1 + jf i)).

Definition validate_source_instruction (pc : Z) (i : Instruction) (profile : InputProfile)
    : checking () :=
  match decode (code i) with
  | Some LD_IMM => expect_op pc (mov Width.Word (register Eax) (immediate (k i)))
  | Some LD_W_ABS => validate_absolute_load pc (k i) Word profile
  | Some LD_H_ABS => validate_absolute_load pc (k i) Half profile
  | Some LD_B_ABS => validate_absolute_load pc (k i) Byte profile
  | Some LD_W_IND => validate_indirect_load pc (k i) Word profile
  | Some LD_H_IND => validate_indirect_load pc (k i) Half profile
  | Some LD_B_IND => validate_indirect_load pc (k i) Byte profile
  | Some LD_MEM => expect_op pc (mov Width.Word (register Eax) (scratch_operand (k i) Rbp))
  | Some LD_LEN => expect_op pc (mov Width.Word (register Eax) (register R13d))
  | Some LDX_IMM => expect_op pc (mov Width.Word (register Ecx) (immediate (k i)))
  | Some LDX_MEM => expect_op pc (mov Width.Word (register Ecx) (scratch_operand (k i) Rbp))
  | Some LDX_LEN => expect_op pc (mov Width.Word (register Ecx) (register R13d))
  | Some LDX_B_MSH => validate_msh pc (k i) profile
  | Some ST => expect_op pc (mov Width.Word (scratch_operand (k i) Rbp) (register Eax))
  | Some STX => expect_op pc (mov Width.Word (scratch_operand (k i) Rbp) (register Ecx))
  | Some (ALU_ADD_K | ALU_SUB_K | ALU_OR_K | ALU_AND_K | ALU_XOR_K) =>
      expect_op pc (Binary (binary_kind (code i)) Width.Word (register Eax) (immediate (k i)))
  | Some (ALU_ADD_X | ALU_SUB_X | ALU_OR_X | ALU_AND_X | ALU_XOR_X) =>
      expect_op pc (Binary (binary_kind (code i)) Width.Word (register Eax) (register Ecx))
  | Some ALU_MUL_K => expect_op pc (ImmediateMultiply Eax Eax (k i))
  | Some ALU_MUL_X => expect_op pc (Binary Mul Width.Word (register Eax) (register Ecx))
  | Some ((ALU_DIV_K | ALU_MOD_K) as o) =>
      validate_divide_immediate pc (k i) (bool_decide (o = ALU_MOD_K))
  | Some ((ALU_DIV_X | ALU_MOD_X) as o) =>
      validate_divide_register pc (bool_decide (o = ALU_MOD_X))
  | Some ((ALU_LSH_K | ALU_RSH_K) as o) =>
      expect_op pc (ShiftImmediate
        (if bool_decide (o = ALU_LSH_K) then ShiftLeft else ShiftRight)
        Width.Word Eax (k i mod 256))
  | Some ((ALU_LSH_X | ALU_RSH_X) as o) =>
      validate_shift_register pc (if bool_decide (o = ALU_LSH_X) then ShiftLeft else ShiftRight)
  | Some ALU_NEG => expect_op pc (Unary Neg Width.Word Eax 0)
  | Some JMP_JA =>
      target ← expect_jump pc;
      record_target pc target (Target.Source (pc + 1 + k i))
  | Some (JMP_JEQ_K | JMP_JEQ_X | JMP_JGT_K | JMP_JGT_X
         | JMP_JGE_K | JMP_JGE_X | JMP_JSET_K | JMP_JSET_X) => validate_conditional pc i
  | Some RET_K =>
      expect_op pc (mov Width.Word (register Eax) (immediate (k i))) ;;
      target ← expect_jump pc;
      record_target pc target Target.Epilogue
  | Some RET_A =>
      target ← expect_jump pc;
      record_target pc target Target.Epilogue
  | Some MISC_TAX => expect_op pc (mov Width.Word (register Ecx) (register Eax))
  | Some MISC_TXA => expect_op pc (mov Width.Word (register Eax) (register Ecx))
  | None =>
      p ← gets position; throw (Image.NativeSemanticMismatch pc p)
  end.

End Walk.

(** ** The validator *)

(** The allocations of [validate_translation_layout], by site. *)
Inductive layout_site : Type := ContractTable | SourceOffsets | TargetChecks.

Section Layout.
Import Walk.
Variable reserve : layout_site -> Z -> bool.

(** The loop over the source: [source_offsets[pc] = position], then the walk. *)
Definition layout_body (size : Z) (profile : InputProfile) (entry : Z * Instruction)
    (source_offsets : list Z) : checking (list Z) :=
  let '(pc, i) := entry in
  p ← gets position;
  (if p <=? u32_MAX then mret tt else throw (Image.ImageTooLarge size)) ;;
  source_offsets ← expect (put source_offsets pc p);
  validate_source_instruction pc i profile ;;
  mret source_offsets.

Fixpoint layout_loop (size : Z) (profile : InputProfile) (l : list (Z * Instruction))
    (source_offsets : list Z) : checking (list Z) :=
  match l with
  | [] => mret source_offsets
  | entry :: l =>
      source_offsets ← layout_body size profile entry source_offsets;
      layout_loop size profile l source_offsets
  end.

(** The final comparison of one collected target. *)
Definition check_target (source_offsets : list Z) (failure_offset epilogue_offset : Z)
    (t : TargetCheck) : checking () :=
  wanted ← match expected t with
    | Target.Source pc =>
        some_or (get source_offsets pc) (Image.NativeTargetMismatch (check_pc t))
    | Target.Failure => mret failure_offset
    | Target.Epilogue => mret epilogue_offset
    end;
  if negb (actual t =? wanted) then throw (Image.NativeTargetMismatch (check_pc t))
  else mret tt.

Definition layout_walk (source : list Instruction) (profile : InputProfile)
    : checking (list Z) :=
  Contract.validate_source_contract (reserve ContractTable) source profile ;;
  validate_prologue profile ;;
  reserve_or (reserve SourceOffsets (zlen source)) Image.NoMemory ;;
  reserve_or (reserve TargetChecks (Z.min usize_MAX (zlen source * 8))) Image.NoMemory ;;
  size ← gets (fun c => zlen (code_bytes c));
  source_offsets ← layout_loop size profile (enumerate_from 0 source)
    (replicate (length source) 0);
  failure_offset ← gets position;
  expect_op 0 (NativeOp.Binary Xor Width.Word (register Eax) (register Eax)) ;;
  failure_jump ← expect_jump 0;
  last_pc ← expect (checked_sub_usize (zlen source) 1);
  record_target last_pc failure_jump Target.Epilogue ;;
  epilogue_offset ← gets position;
  validate_epilogue ;;
  p ← gets position;
  (if p =? size then mret tt else throw (Image.NativeTrailingBytes p)) ;;
  checks ← gets targets;
  for_each checks (check_target source_offsets failure_offset epilogue_offset) ;;
  mret source_offsets.

(** [TranslationLayout] is its only field, the vector of source offsets. *)
Definition validate_translation_layout {S} (bytes : list Z) (source : list Instruction)
    (profile : InputProfile) : M S Image.error (list Z) :=
  if MAX_CODE_IMAGE_BYTES <? zlen bytes then throw (Image.ImageTooLarge (zlen bytes)) else
  with_local (Checker.new bytes) (layout_walk source profile).

Definition validate_translation_bytes {S} (bytes : list Z) (source : list Instruction)
    (profile : InputProfile) : M S Image.error () :=
  validate_translation_layout bytes source profile ;; mret tt.

End Layout.
