(* ===== verification/BpfTranslate.v ===== *)
(** Classic BPF, native code, part 3: the translator of
    [crates/thekernel-axcbpf/src/translate.rs].

    [translate_program] checks the source ([validate_profile],
    [validate_source]), emits the image with an [Assembler] whose branch
    displacements start as zeros, patches them in [resolve], and hands the
    result to the validator of [BpfValidate] and to [validate_image], which
    checks the emitter's own metadata. [evaluate_source] is the second
    reference interpreter of the image. Fallible allocations are the argument
    [reserve], by site. *)

From S2P Require Import Prelude Effects BpfInstruction BpfProgram BpfNative BpfValidate.
Local Open Scope Z_scope.

(** ** The native-word input *)

(** A slice is its base address and its bytes. *)
Record NativeWordInput : Type := mkNativeWordInput {
  native_base : Z;
  native_bytes : list Z
}.

Module NativeWordInput.

Definition base_is_aligned (n : NativeWordInput) : bool := Z.land (native_base n) 3 =? 0.

Definition new_aligned (base : Z) (bytes : list Z) : option NativeWordInput :=
  let input := mkNativeWordInput base bytes in
  if base_is_aligned input then Some input else None.

Definition len (n : NativeWordInput) : Z :=
  if zlen (native_bytes n) <=? u32_MAX then zlen (native_bytes n) else u32_MAX.

Definition load (n : NativeWordInput) (offset : Z) (w : LoadWidth) : option Z :=
  if match w with Word => negb (offset mod 4 =? 0) | _ => false end then None else
  match checked_add_usize offset (width_bytes w) with
  | None => None
  | Some finish =>
      match get_range (native_bytes n) offset finish with
      | None => None
      | Some bs => Some (from_le_bytes bs)
      end
  end.

End NativeWordInput.

#[export] Instance native_word_input : Input NativeWordInput := {
  input_len := NativeWordInput.len;
  input_load := NativeWordInput.load;
  input_ancillary _ _ := None
}.

(** ** Images *)

Inductive ExternalCall : Type := InputLoad (width : LoadWidth) | InputLength.
Inductive RelocationKind : Type := ExternalCallRelocation (call : ExternalCall).

Record Relocation : Type := mkRelocation { reloc_offset : Z; reloc_kind : RelocationKind }.

Record InstructionMap : Type := mkInstructionMap {
  map_source_pc : Z;
  map_offset : Z;
  map_len : Z
}.

Record BranchSite : Type := mkBranchSite {
  branch_source_pc : Z;
  true_pc : Z;
  false_pc : Z;
  true_disp : Z;
  false_disp : Z
}.

Record CodeImage : Type := mkCodeImage {
  image_bytes : list Z;
  relocations : list Relocation;
  entry : Z;
  boundaries : list Z;
  instruction_map : list InstructionMap;
  source : list Instruction;
  branches : list BranchSite;
  profile : InputProfile
}.

Module CodeImage.

Definition len (c : CodeImage) : Z := zlen (source c).
Definition is_empty (c : CodeImage) : bool := zlen (source c) =? 0.
Definition image_size (c : CodeImage) : Z := zlen (image_bytes c).

Definition page_aligned_size (c : CodeImage) (page_size : Z) : option Z :=
  if page_size =? 0 then None else
  match checked_add_usize (zlen (image_bytes c)) (page_size - 1) with
  | Some size => Some (size / page_size * page_size)
  | None => None
  end.

End CodeImage.

(** [TranslationError] *)
Module Translation.

Inductive error : Type :=
| UnsupportedOpcode (pc code : Z)
| InvalidSource (e : VerifyError)
| NoMemory
| ImageTooLarge
| InvalidImage (e : Image.error)
| ProfileUnsupported (pc code : Z).

End Translation.

(** ** The assembler *)

Module Fixup.

Inductive target : Type := Pc (pc : Z) | Failure | Epilogue.

End Fixup.

Record Patch : Type := mkPatch { disp : Z; patch_target : Fixup.target }.

Record Assembler : Type := mkAssembler {
  asm_bytes : list Z;
  asm_patches : list Patch;
  asm_branches : list BranchSite
}.

(** [u32::to_le_bytes]; on a negative [i32] the two's complement bytes. *)
Definition to_le_bytes (v : Z) : list Z :=
  [v mod 256; v / 256 mod 256; v / 65536 mod 256; v / 16777216 mod 256].

Module Assembler.

Notation emitting := (M Assembler Translation.error).

Definition new : Assembler := mkAssembler [] [] [].

(** [self.bytes.extend_from_slice(bs)] *)
Definition emit (bs : list Z) : emitting () :=
  modify (fun a => mkAssembler (asm_bytes a ++ bs) (asm_patches a) (asm_branches a)).

Definition u32 (value : Z) : emitting () := emit (to_le_bytes value).

Definition mov_eax_imm (value : Z) : emitting () := emit [0xb8] ;; u32 value.
Definition mov_ecx_imm (value : Z) : emitting () := emit [0xb9] ;; u32 value.
Definition mov_r14d_imm (value : Z) : emitting () := emit [0x41; 0xbe] ;; u32 value.
Definition cmp_r13_imm (value : Z) : emitting () := emit [0x41; 0x83; 0xfd; value].
Definition sub_r15_imm (value : Z) : emitting () := emit [0x41; 0x83; 0xef; value].

(** A zero displacement and its patch; the value is the position of the
    displacement. *)
Definition emit_displacement (target : Fixup.target) : emitting Z :=
  disp ← gets (fun a => zlen (asm_bytes a));
  u32 0 ;;
  modify (fun a => mkAssembler (asm_bytes a)
    (asm_patches a ++ [mkPatch disp target]) (asm_branches a)) ;;
  mret disp.

Definition emit_jump (target : Fixup.target) : emitting Z :=
  emit [0xe9] ;; emit_displacement target.

Definition jcc (condition : Z) (target : Fixup.target) : emitting Z :=
  emit [0x0f; condition] ;; emit_displacement target.

(** A jump whose returned position is dropped. *)
Definition jcc_ (condition : Z) (target : Fixup.target) : emitting () :=
  _ ← jcc condition target; mret tt.
Definition emit_jump_ (target : Fixup.target) : emitting () :=
  _ ← emit_jump target; mret tt.

Definition push_branch (b : BranchSite) : emitting () :=
  modify (fun a => mkAssembler (asm_bytes a) (asm_patches a) (asm_branches a ++ [b])).

Definition emit_prologue (profile : InputProfile) : emitting () :=
  emit [0x55;
        0x41; 0x54;
        0x41; 0x55;
        0x41; 0x56;
        0x41; 0x57;
        0x48; 0x89; 0xe5;
        0x48; 0x83; 0xec; 0x40] ;;
  match profile with
  | PacketBytesBigEndian | NativeAlignedWords =>
      emit [0x49; 0x89; 0xfc; 0x41; 0x89; 0xf5]
  | PacketContextBigEndian =>
      emit [0x4c; 0x8b; 0x27; 0x44; 0x8b; 0x6f; LEN_OFFSET mod 256]
  end ;;
  emit [0x31; 0xc0; 0x31; 0xc9].

Definition scratch_disp (index : Z) : Z := (- (4 * (index + 1))) mod 256.

Definition load_scratch (index : Z) (into_x : bool) : emitting () :=
  emit [0x8b] ;; emit [if into_x then 0x4d else 0x45] ;; emit [scratch_disp index].

Definition store_scratch (index : Z) (from_x : bool) : emitting () :=
  emit [0x89] ;; emit [if from_x then 0x4d else 0x45] ;; emit [scratch_disp index].

Definition bin_imm (opcode immediate : Z) : emitting () := emit [opcode] ;; u32 immediate.

Definition imul_imm (immediate : Z) : emitting () := emit [0x69; 0xc0] ;; u32 immediate.

Definition div_imm (immediate : Z) (remainder : bool) : emitting () :=
  mov_r14d_imm immediate ;;
  emit [0x31; 0xd2; 0x41; 0xf7; 0xf6] ;;
  if remainder then emit [0x89; 0xd0] else mret tt.

Definition div_x (remainder : bool) : emitting () :=
  emit [0x85; 0xc9] ;;
  jcc_ 0x84 Fixup.Failure ;;
  emit [0x31; 0xd2; 0xf7; 0xf1] ;;
  if remainder then emit [0x89; 0xd0] else mret tt.

Definition shift_imm (opcode modrm count : Z) : emitting () := emit [opcode; modrm; count].

Definition shift_x (opcode modrm : Z) : emitting () :=
  emit [0x41; 0x89; 0xce; 0x41; 0x83; 0xe6; 0x1f; 0x41; 0x89; 0xcf; 0x44; 0x89; 0xf1;
        opcode; modrm; 0x44; 0x89; 0xf9].

Definition emit_speculation_barrier : emitting () := emit [0x0f; 0xae; 0xe8].

Definition emit_bounds (w : LoadWidth) : emitting () :=
  cmp_r13_imm (width_bytes w mod 256) ;;
  jcc_ 0x82 Fixup.Failure ;;
  emit [0x45; 0x89; 0xef] ;;
  sub_r15_imm (width_bytes w mod 256) ;;
  emit [0x45; 0x39; 0xf7] ;;
  jcc_ 0x82 Fixup.Failure.

Definition emit_bounds_ind (w : LoadWidth) (profile : InputProfile) : emitting () :=
  cmp_r13_imm (width_bytes w mod 256) ;;
  jcc_ 0x82 Fixup.Failure ;;
  emit [0x45; 0x89; 0xef] ;;
  sub_r15_imm (width_bytes w mod 256) ;;
  emit [0x45; 0x39; 0xf7] ;;
  jcc_ 0x82 Fixup.Failure ;;
  match profile, w with
  | NativeAlignedWords, Word =>
      emit [0x41; 0xf6; 0xc6; 0x03] ;; jcc_ 0x85 Fixup.Failure
  | _, _ => mret tt
  end.

Definition add_r14_r12 : emitting () :=
  emit [0x4d; 0x01; 0xe6] ;; jcc_ 0x82 Fixup.Failure.

Definition emit_load_r14 (w : LoadWidth) (profile : InputProfile) : emitting () :=
  match w with
  | Byte => emit [0x41; 0x0f; 0xb6; 0x06]
  | Half =>
      emit [0x41; 0x0f; 0xb7; 0x06] ;;
      match profile with
      | PacketBytesBigEndian | PacketContextBigEndian => emit [0x66; 0xc1; 0xc0; 0x08]
      | NativeAlignedWords => mret tt
      end
  | Word =>
      emit [0x41; 0x8b; 0x06] ;;
      match profile with
      | PacketBytesBigEndian | PacketContextBigEndian => emit [0x0f; 0xc8]
      | NativeAlignedWords => mret tt
      end
  end.

Definition emit_load_r14_to_x (profile : InputProfile) : emitting () :=
  emit [0x41; 0x0f; 0xb6; 0x0e].

(** [u8::try_from(offset).unwrap_or(u8::MAX)]; the preceding [debug_assert!]
    is the panic. *)
Definition emit_ancillary_load (field : Ancillary) : emitting () :=
  let offset := METADATA_OFFSET + Ancillary.metadata_offset field in
  assert_ (offset <=? u8_MAX) ;;
  emit [0x8b; 0x47; if offset <=? u8_MAX then offset else u8_MAX].

Definition emit_abs_load (offset : Z) (w : LoadWidth) (profile : InputProfile)
    : emitting () :=
  match ancillary_from_offset offset with
  | Some field => assert_ (is_context profile) ;; emit_ancillary_load field
  | None =>
      mov_r14d_imm offset ;;
      emit_bounds w ;;
      add_r14_r12 ;;
      emit_speculation_barrier ;;
      emit_load_r14 w profile
  end.

Definition emit_abs_load_to_x (offset : Z) (profile : InputProfile) : emitting () :=
  assert_ (negb (is_some (ancillary_from_offset offset))) ;;
  mov_r14d_imm offset ;;
  emit_bounds Byte ;;
  add_r14_r12 ;;
  emit_speculation_barrier ;;
  emit_load_r14_to_x profile.

Definition emit_ind_load (offset : Z) (w : LoadWidth) (profile : InputProfile)
    : emitting () :=
  emit [0x41; 0x89; 0xce] ;;
  emit [0x41; 0x81; 0xc6] ;;
  u32 offset ;;
  jcc_ 0x82 Fixup.Failure ;;
  emit_bounds_ind w profile ;;
  add_r14_r12 ;;
  emit_speculation_barrier ;;
  emit_load_r14 w profile.

Definition emit_conditional (condition immediate : Z) (i : Instruction) (x_source : bool)
    (pc : Z) : emitting () :=
  (if x_source && (condition =? 0x85) then emit [0x85; 0xc8]
   else if x_source then emit [0x39; 0xc8]
   else if condition =? 0x85 then emit [0xa9] ;; u32 immediate
   else emit [0x3d] ;; u32 immediate) ;;
  true_disp ← jcc condition (Fixup.Pc (pc + 1 + jt i));
  false_disp ← emit_jump (Fixup.Pc (pc + 1 + jf i));
  push_branch (mkBranchSite (wrap_u32 pc) (wrap_u32 (pc + 1 + jt i))
    (wrap_u32 (pc + 1 + jf i)) (wrap_u32 true_disp) (wrap_u32 false_disp)).

(** The arm [JMP_JA]. *)
Definition emit_jump_always (pc k : Z) : emitting () :=
  let target := pc + 1 + k in
  disp ← emit_jump (Fixup.Pc target);
  push_branch (mkBranchSite (wrap_u32 pc) (wrap_u32 target) (wrap_u32 target)
    (wrap_u32 disp) (wrap_u32 disp)).

Definition emit_instruction (pc : Z) (i : Instruction) (profile : InputProfile)
    : emitting () :=
  match decode (code i) with
  | Some LD_IMM => mov_eax_imm (k i)
  | Some LD_W_ABS => emit_abs_load (k i) Word profile
  | Some LD_H_ABS => emit_abs_load (k i) Half profile
  | Some LD_B_ABS => emit_abs_load (k i) Byte profile
  | Some LD_W_IND => emit_ind_load (k i) Word profile
  | Some LD_H_IND => emit_ind_load (k i) Half profile
  | Some LD_B_IND => emit_ind_load (k i) Byte profile
  | Some LD_MEM => load_scratch (k i) false
  | Some LD_LEN => emit [0x44; 0x89; 0xe8]
  | Some LDX_IMM => mov_ecx_imm (k i)
  | Some LDX_MEM => load_scratch (k i) true
  | Some LDX_LEN => emit [0x44; 0x89; 0xe9]
  | Some LDX_B_MSH =>
      emit_abs_load_to_x (k i) profile ;;
      emit [0x83; 0xe1; 0x0f; 0xc1; 0xe1; 0x02]
  | Some ST => store_scratch (k i) false
  | Some STX => store_scratch (k i) true
  | Some ALU_ADD_K => bin_imm 0x05 (k i)
  | Some ALU_ADD_X => emit [0x01; 0xc8]
  | Some ALU_SUB_K => bin_imm 0x2d (k i)
  | Some ALU_SUB_X => emit [0x29; 0xc8]
  | Some ALU_MUL_K => imul_imm (k i)
  | Some ALU_MUL_X => emit [0x0f; 0xaf; 0xc1]
  | Some ALU_DIV_K => div_imm (k i) false
  | Some ALU_DIV_X => div_x false
  | Some ALU_OR_K => bin_imm 0x0d (k i)
  | Some ALU_OR_X => emit [0x09; 0xc8]
  | Some ALU_AND_K => bin_imm 0x25 (k i)
  | Some ALU_AND_X => emit [0x21; 0xc8]
  | Some ALU_LSH_K => shift_imm 0xc1 0xe0 (k i mod 256)
  | Some ALU_LSH_X => shift_x 0xd3 0xe0
  | Some ALU_RSH_K => shift_imm 0xc1 0xe8 (k i mod 256)
  | Some ALU_RSH_X => shift_x 0xd3 0xe8
  | Some ALU_NEG => emit [0xf7; 0xd8]
  | Some ALU_MOD_K => div_imm (k i) true
  | Some ALU_MOD_X => div_x true
  | Some ALU_XOR_K => bin_imm 0x35 (k i)
  | Some ALU_XOR_X => emit [0x31; 0xc8]
  | Some JMP_JA => emit_jump_always pc (k i)
  | Some JMP_JEQ_K => emit_conditional 0x84 (k i) i false pc
  | Some JMP_JEQ_X => emit_conditional 0x84 0 i true pc
  | Some JMP_JGT_K => emit_conditional 0x87 (k i) i false pc
  | Some JMP_JGT_X => emit_conditional 0x87 0 i true pc
  | Some JMP_JGE_K => emit_conditional 0x83 (k i) i false pc
  | Some JMP_JGE_X => emit_conditional 0x83 0 i true pc
  | Some JMP_JSET_K => emit_conditional 0x85 (k i) i false pc
  | Some JMP_JSET_X => emit_conditional 0x85 0 i true pc
  | Some RET_K => mov_eax_imm (k i) ;; emit_jump_ Fixup.Epilogue
  | Some RET_A => emit_jump_ Fixup.Epilogue
  | Some MISC_TAX => emit [0x89; 0xc1]
  | Some MISC_TXA => emit [0x89; 0xc8]
  | None => mret tt
  end.

Definition emit_zero_return : emitting () :=
  emit [0x31; 0xc0] ;; emit_jump_ Fixup.Epilogue.

Definition emit_epilogue : emitting () :=
  emit [0x48; 0x83; 0xc4; 0x40; 0x41; 0x5f; 0x41; 0x5e; 0x41; 0x5d; 0x41; 0x5c; 0x5d; 0xc3].

End Assembler.

(** ** Resolving the branches *)

Definition i64_MAX : Z := 9223372036854775807.
Definition i64_MIN : Z := -9223372036854775808.

(** [i64::try_from(n).unwrap_or(i64::MAX)] *)
Definition i64_or_max (n : Z) : Z := if n <=? i64_MAX then n else i64_MAX.

Definition in_i32b (z : Z) : bool := (-2147483648 <=? z) && (z <=? 2147483647).

(** [bytes[at..at + 4].copy_from_slice(bs)]; out of range it panics. *)
Definition splice (bytes : list Z) (at_ : Z) (bs : list Z) : option (list Z) :=
  if (0 <=? at_) && (at_ + zlen bs <=? zlen bytes)
  then Some (take (Z.to_nat at_) bytes ++ bs ++ drop (Z.to_nat (at_ + zlen bs)) bytes)
  else None.

Definition patch_matches (bytes : list Z) (disp target : Z) : bool :=
  match get_range bytes disp (disp + 4) with
  | None => false
  | Some raw =>
      let displacement := as_i32 (from_le_bytes raw) in
      let value := disp + 4 + displacement in
      if (disp + 4 <=? i64_MAX) && (i64_MIN <=? value) && (value <=? i64_MAX)
      then value =? target else false
  end.

Module Resolve.
Import Assembler.

Definition resolve_patch (map : list InstructionMap) (failure epilogue : Z) (p : Patch)
    : emitting () :=
  target ← match patch_target p with
    | Fixup.Pc pc => some_or (map_offset <$> get map pc) Translation.ImageTooLarge
    | Fixup.Failure => mret failure
    | Fixup.Epilogue => mret epilogue
    end;
  let base := disp p + 4 in
  let displacement := i64_or_max target - i64_or_max base in
  (if in_i32b displacement then mret tt else throw Translation.ImageTooLarge) ;;
  bytes ← gets asm_bytes;
  bytes ← expect (splice bytes (disp p) (to_le_bytes displacement));
  modify (fun a => mkAssembler bytes (asm_patches a) (asm_branches a)).

Definition resolve_branch (map : list InstructionMap) (b : BranchSite) : emitting () :=
  true_target ← some_or (map_offset <$> get map (true_pc b)) Translation.ImageTooLarge;
  false_target ← some_or (map_offset <$> get map (false_pc b)) Translation.ImageTooLarge;
  bytes ← gets asm_bytes;
  if negb (patch_matches bytes (true_disp b) true_target) ||
     negb (patch_matches bytes (false_disp b) false_target)
  then throw Translation.ImageTooLarge else mret tt.

Definition resolve (count : Z) (map : list InstructionMap) (failure epilogue : Z)
    : emitting () :=
  patches ← gets asm_patches;
  for_each patches (resolve_patch map failure epilogue) ;;
  branches ← gets asm_branches;
  for_each branches (resolve_branch map) ;;
  if negb (count =? zlen map) then throw Translation.ImageTooLarge else mret tt.

End Resolve.

(** ** The checks on the source *)

Module Source.

Definition is_supported (code : Z) : bool :=
  match decode code with
  | Some (LD_IMM | LD_W_ABS | LD_H_ABS | LD_B_ABS | LD_W_IND | LD_H_IND | LD_B_IND
         | LD_MEM | LD_LEN | LDX_IMM | LDX_MEM | LDX_LEN | LDX_B_MSH | ST | STX
         | ALU_ADD_K | ALU_ADD_X | ALU_SUB_K | ALU_SUB_X | ALU_MUL_K | ALU_MUL_X
         | ALU_DIV_K | ALU_DIV_X | ALU_OR_K | ALU_OR_X | ALU_AND_K | ALU_AND_X
         | ALU_LSH_K | ALU_LSH_X | ALU_RSH_K | ALU_RSH_X | ALU_NEG | ALU_MOD_K
         | ALU_MOD_X | ALU_XOR_K | ALU_XOR_X | JMP_JA | JMP_JEQ_K | JMP_JEQ_X
         | JMP_JGT_K | JMP_JGT_X | JMP_JGE_K | JMP_JGE_X | JMP_JSET_K | JMP_JSET_X
         | RET_K | RET_A | MISC_TAX | MISC_TXA) => true
  | None => false
  end.

Definition is_jump (code : Z) : bool :=
  match decode code with
  | Some (JMP_JA | JMP_JEQ_K | JMP_JEQ_X | JMP_JGT_K | JMP_JGT_X
         | JMP_JGE_K | JMP_JGE_X | JMP_JSET_K | JMP_JSET_X) => true
  | _ => false
  end.

(** Whether the profile cannot serve an instruction: the shared condition of
    [validate_profile] and [validate_profile_image]. *)
Definition profile_rejects (i : Instruction) (profile : InputProfile) : bool :=
  (match decode (code i) with
   | Some (LD_W_ABS | LD_H_ABS | LD_B_ABS) => true | _ => false end
   && is_ancillary_offset (k i) && is_some (ancillary_from_offset (k i))
   && negb (is_context profile)) ||
  (is_native_words profile &&
   match decode (code i) with
   | Some LD_W_ABS => negb (k i mod 4 =? 0)
   | Some LD_W_IND => false
   | Some (LD_H_ABS | LD_B_ABS | LD_H_IND | LD_B_IND | LDX_B_MSH) => true
   | _ => false
   end).

Definition validate_profile {S} (source : list Instruction) (profile : InputProfile)
    : M S Translation.error () :=
  for_each (enumerate_from 0 source) (fun '(pc, i) =>
    if profile_rejects i profile then throw (Translation.ProfileUnsupported pc (code i))
    else mret tt).

Definition validate_profile_image {S} (source : list Instruction) (profile : InputProfile)
    : M S Image.error () :=
  for_each (enumerate_from 0 source) (fun '(pc, i) =>
    if profile_rejects i profile then throw (Image.ProfileUnsupported pc (code i))
    else mret tt).

Definition validate_source_instruction (pc : Z) (i : Instruction)
    : result unit Image.error :=
  if negb (is_supported (code i)) then Err (Image.UnsupportedOpcode pc (code i)) else
  match decode (code i) with
  | Some (ALU_DIV_K | ALU_MOD_K) =>
      if k i =? 0 then Err (Image.ImmediateDivisionByZero pc) else Ok tt
  | Some (ALU_LSH_K | ALU_RSH_K) =>
      if 32 <=? k i then Err (Image.ImmediateShiftOutOfRange pc (k i)) else Ok tt
  | Some (LD_MEM | LDX_MEM | ST | STX) =>
      if SCRATCH_WORDS <=? k i then Err (Image.ScratchOutOfRange pc (k i)) else Ok tt
  | Some (LD_W_ABS | LD_H_ABS | LD_B_ABS) =>
      if negb (Z.land (k i) 0x80000000 =? 0) && negb (is_some (ancillary_from_offset (k i)))
      then Err (Image.UnsupportedAncillaryLoad pc (k i)) else Ok tt
  | Some LDX_B_MSH =>
      if negb (Z.land (k i) 0x80000000 =? 0)
      then Err (Image.UnsupportedAncillaryLoad pc (k i)) else Ok tt
  | _ => Ok tt
  end.

(** The body of the first loop of [validate_source]. *)
Definition check_instruction (len pc : Z) (i : Instruction) : result unit VerifyError :=
  if negb (is_supported (code i)) then Err (UnsupportedOpcode pc (code i)) else
  match decode (code i) with
  | Some (ALU_DIV_K | ALU_MOD_K) =>
      if k i =? 0 then Err (ImmediateDivisionByZero pc) else Ok tt
  | Some (ALU_LSH_K | ALU_RSH_K) =>
      if 32 <=? k i then Err (ImmediateShiftOutOfRange pc (k i)) else Ok tt
  | Some (LD_MEM | LDX_MEM | ST | STX) =>
      if SCRATCH_WORDS <=? k i then Err (ScratchOutOfRange pc (k i)) else Ok tt
  | Some JMP_JA =>
      match checked_add_usize pc 1 ≫= (fun next => checked_add_usize next (k i)) with
      | Some target => if target <? len then Ok tt else Err (JumpOutOfRange pc)
      | None => Err (JumpOutOfRange pc)
      end
  | Some (JMP_JEQ_K | JMP_JEQ_X | JMP_JGT_K | JMP_JGT_X
         | JMP_JGE_K | JMP_JGE_X | JMP_JSET_K | JMP_JSET_X) =>
      if (len <=? pc + 1 + jt i) || (len <=? pc + 1 + jf i)
      then Err (JumpOutOfRange pc) else Ok tt
  | Some (LD_W_ABS | LD_H_ABS | LD_B_ABS) =>
      if negb (Z.land (k i) 0x80000000 =? 0) && negb (is_some (ancillary_from_offset (k i)))
      then Err (UnsupportedAncillaryLoad pc (k i)) else Ok tt
  | Some LDX_B_MSH =>
      if negb (Z.land (k i) 0x80000000 =? 0)
      then Err (UnsupportedAncillaryLoad pc (k i)) else Ok tt
  | _ => Ok tt
  end.

Definition merge (slot : option Z) (incoming : Z) : option Z :=
  Some (match slot with Some old => Z.land old incoming | None => incoming end).

Notation table := (list (option Z)).

(** [merge(&mut incoming[target], initialized)] *)
Definition merge_into (target initialized : Z) : M table VerifyError () :=
  incoming ← gets (fun t => t);
  slot ← expect (get incoming target);
  incoming ← expect (put incoming target (merge slot initialized));
  modify (fun _ => incoming).

Definition scratch_body (entry : Z * Instruction) : M table VerifyError () :=
  let '(pc, i) := entry in
  incoming ← gets (fun t => t);
  slot ← expect (get incoming pc);
  match slot with
  | None => mret tt
  | Some initialized =>
      initialized ← match decode (code i) with
        | Some (LD_MEM | LDX_MEM) =>
            if Z.land initialized (scratch_bit (k i)) =? 0
            then throw (ScratchUninitialized pc (k i)) else mret initialized
        | Some (ST | STX) => mret (Z.lor initialized (scratch_bit (k i)))
        | _ => mret initialized
        end;
      match decode (code i) with
      | Some (RET_K | RET_A) => mret tt
      | Some JMP_JA => merge_into (pc + 1 + k i) initialized
      | Some (JMP_JEQ_K | JMP_JEQ_X | JMP_JGT_K | JMP_JGT_X
             | JMP_JGE_K | JMP_JGE_X | JMP_JSET_K | JMP_JSET_X) =>
          merge_into (pc + 1 + jt i) initialized ;;
          merge_into (pc + 1 + jf i) initialized
      | _ => merge_into (pc + 1) initialized
      end
  end.

Definition validate_source {S} (reserve : Z -> bool) (instructions : list Instruction)
    : M S VerifyError () :=
  if zlen instructions =? 0 then throw Empty else
  if MAX_INSTRUCTIONS <? zlen instructions then throw (TooLong (zlen instructions)) else
  for_each (enumerate_from 0 instructions) (fun '(pc, i) =>
    lift (check_instruction (zlen instructions) pc i)) ;;
  if negb (match last instructions ≫= (fun i => decode (code i)) with
           | Some (RET_K | RET_A) => true | _ => false end)
  then throw MissingFinalReturn else
  reserve_or (reserve (zlen instructions)) NoMemory ;;
  incoming ← expect (put (replicate (length instructions) None) 0 (Some 0));
  with_local incoming (for_each (enumerate_from 0 instructions) scratch_body).

End Source.

Definition map_verify_error (e : VerifyError) : Image.error :=
  match e with
  | Empty => Image.Empty
  | TooLong length => Image.TooLong length
  | NoMemory => Image.NoMemory
  | UnsupportedOpcode pc code => Image.UnsupportedOpcode pc code
  | UnsupportedAncillaryLoad pc offset => Image.UnsupportedAncillaryLoad pc offset
  | ImmediateDivisionByZero pc => Image.ImmediateDivisionByZero pc
  | ImmediateShiftOutOfRange pc shift => Image.ImmediateShiftOutOfRange pc shift
  | ScratchOutOfRange pc index => Image.ScratchOutOfRange pc index
  | ScratchUninitialized pc index => Image.ScratchUninitialized pc index
  | JumpOutOfRange pc => Image.JumpOutOfRange pc
  | MissingFinalReturn => Image.MissingFinalReturn
  end.

(** ** The checks on the emitter's metadata *)

(** [.windows(2)] *)
Fixpoint windows2 (l : list Z) : list (Z * Z) :=
  match l with
  | a :: ((b :: _) as l') => (a, b) :: windows2 l'
  | _ => []
  end.

Module ValidateImage.

Section Checks.
Context {S : Type}.
Notation checked := (M S Image.error).

Definition check_header (image : CodeImage) : checked () :=
  if zlen (source image) =? 0 then throw Image.Empty else
  if MAX_INSTRUCTIONS <? zlen (source image)
  then throw (Image.TooLong (zlen (source image))) else
  if negb (entry image =? 0) then throw (Image.InvalidEntry (entry image)) else
  if MAX_CODE_IMAGE_BYTES <? zlen (image_bytes image)
  then throw (Image.ImageTooLarge (zlen (image_bytes image))) else
  Source.validate_profile_image (source image) (profile image).

Definition check_relocations (image : CodeImage) : checked () :=
  match relocations image with
  | [] => mret tt
  | r :: _ =>
      if reloc_offset r + 4 <=? zlen (image_bytes image)
      then throw (Image.UnexpectedRelocation 0)
      else throw (Image.RelocationOutOfBounds 0)
  end.

Definition check_boundaries (image : CodeImage) : checked () :=
  if negb (zlen (instruction_map image) =? zlen (source image)) ||
     negb (zlen (boundaries image) =? zlen (source image) + 2)
  then throw (Image.SourceMapMismatch (zlen (instruction_map image))) else
  if match head (boundaries image) with
     | Some bound => negb ((entry image <? bound) && (bound <=? zlen (image_bytes image)))
     | None => true end ||
     match last (boundaries image) with
     | Some bound => negb (bound =? zlen (image_bytes image))
     | None => true end
  then throw (Image.BoundaryOutOfBounds 0) else
  if existsb (fun '(a, b) => b <=? a) (windows2 (boundaries image))
  then throw (Image.InvalidBoundary 0) else mret tt.

(** One iteration of the loop over the instruction map. *)
Definition check_record (image : CodeImage) (source_offsets : list Z)
    (item : Z * (InstructionMap * Instruction * (Z * Z))) : checked () :=
  let '(pc, (m, i, (start, finish))) := item in
  if negb (map_source_pc m =? wrap_u32 pc) || negb (map_offset m =? start)
  then throw (Image.SourceMapMismatch pc) else
  offset ← expect (get source_offsets pc);
  if negb (map_offset m =? offset) || negb (map_len m =? Z.max 0 (finish - start)) ||
     (map_len m =? 0)
  then throw (Image.SourceMapMismatch pc) else
  if zlen (image_bytes image) <? finish then throw (Image.BoundaryOutOfBounds pc) else
  lift (Source.validate_source_instruction pc i).

Definition check_records (image : CodeImage) (source_offsets : list Z) : checked () :=
  for_each
    (enumerate_from 0
      (zip (zip (instruction_map image) (source image))
           (take (length (source image)) (windows2 (boundaries image)))))
    (check_record image source_offsets).

(** [direct_branch_opcode] *)
Definition direct_branch_opcode (image : CodeImage) (i : Instruction) (b : BranchSite)
    : bool :=
  let byte at_ := get (image_bytes image) at_ in
  match decode (code i) with
  | Some JMP_JA =>
      (1 <=? true_disp b) && bool_decide (byte (true_disp b - 1) = Some 0xe9)
  | o =>
      let expected_condition :=
        match o with
        | Some (JMP_JEQ_K | JMP_JEQ_X) => 0x84
        | Some (JMP_JGT_K | JMP_JGT_X) => 0x87
        | Some (JMP_JGE_K | JMP_JGE_X) => 0x83
        | Some (JMP_JSET_K | JMP_JSET_X) => 0x85
        | _ => 0
        end in
      (2 <=? true_disp b) && bool_decide (byte (true_disp b - 2) = Some 0x0f) &&
      bool_decide (byte (true_disp b - 1) = Some expected_condition) &&
      (1 <=? false_disp b) && bool_decide (byte (false_disp b - 1) = Some 0xe9)
  end.

Definition check_branch (image : CodeImage) (b : BranchSite) : checked () :=
  i ← some_or (get (source image) (branch_source_pc b))
        (Image.MissingBranchSite (branch_source_pc b));
  m ← some_or (get (instruction_map image) (branch_source_pc b))
        (Image.MissingBranchSite (branch_source_pc b));
  true_offset ← some_or (map_offset <$> get (instruction_map image) (true_pc b))
                  (Image.BranchOutOfBounds (branch_source_pc b));
  false_offset ← some_or (map_offset <$> get (instruction_map image) (false_pc b))
                   (Image.BranchOutOfBounds (branch_source_pc b));
  if (code i <? code_of JMP_JA) || (true_disp b <? map_offset m) ||
     negb (direct_branch_opcode image i b) ||
     negb (patch_matches (image_bytes image) (true_disp b) true_offset) ||
     negb (patch_matches (image_bytes image) (false_disp b) false_offset)
  then throw (Image.BranchSiteMismatch (branch_source_pc b)) else mret tt.

(** The source positions of the jumps, in order. *)
Definition jump_positions (l : list Instruction) : list Z :=
  (filter (fun '(_, i) => Source.is_jump (code i) = true) (enumerate_from 0 l)).*1.

Definition check_branch_order (image : CodeImage) : checked () :=
  let jumps := jump_positions (source image) in
  if negb (zlen jumps =? zlen (branches image)) ||
     existsb (fun '(index, b) =>
       match get jumps index with
       | Some pc => negb (branch_source_pc b =? pc)
       | None => true
       end) (enumerate_from 0 (branches image))
  then throw (Image.MissingBranchSite 0) else mret tt.

Definition validate_image (reserve : Z -> bool) (image : CodeImage)
    (source_offsets : list Z) : checked () :=
  check_header image ;;
  check_relocations image ;;
  check_boundaries image ;;
  check_records image source_offsets ;;
  with_err map_verify_error (Source.validate_source reserve (source image)) ;;
  for_each (branches image) (check_branch image) ;;
  check_branch_order image.

End Checks.
End ValidateImage.

(** ** Translation *)

(** The fallible allocations of [translate_program], by site. *)
Inductive translate_site : Type :=
| SourceTable
| AssemblerBytes
| AssemblerPatches
| AssemblerBranches
| MapTable
| BoundaryTable
| OwnedSource
| LayoutSite (site : layout_site)
| ImageSourceTable.

Section Translate.
Variable reserve : translate_site -> Z -> bool.

(** [TranslationValidator::validate], [CodeImage::validate]. *)
Definition validate {S} (image : CodeImage) : M S Image.error () :=
  layout ← validate_translation_layout (fun site => reserve (LayoutSite site))
             (image_bytes image) (source image) (profile image);
  ValidateImage.validate_image (reserve ImageSourceTable) image layout.

Definition validate_translation {S} (image : CodeImage) : M S Image.error () :=
  validate image.

Import Assembler.

(** [Assembler::new] *)
Definition new_assembler {S} (source_len : Z) : M S Translation.error Assembler :=
  let byte_capacity := Z.min usize_MAX (source_len * 128 + 64) in
  reserve_or (reserve AssemblerBytes byte_capacity) Translation.NoMemory ;;
  reserve_or (reserve AssemblerPatches (Z.min usize_MAX (source_len * 8)))
    Translation.NoMemory ;;
  reserve_or (reserve AssemblerBranches source_len) Translation.NoMemory ;;
  mret Assembler.new.

(** [u32::try_from(n).map_err(|_| ImageTooLarge)?] *)
Definition try_u32 (n : Z) : emitting Z :=
  if n <=? u32_MAX then mret n else throw Translation.ImageTooLarge.

Fixpoint emit_loop (profile : InputProfile) (l : list (Z * Instruction))
    (boundaries : list Z) (map : list InstructionMap)
    : emitting (list Z * list InstructionMap) :=
  match l with
  | [] => mret (boundaries, map)
  | (pc, i) :: l =>
      start ← gets (fun a => zlen (asm_bytes a));
      emit_instruction pc i profile ;;
      finish ← gets (fun a => zlen (asm_bytes a));
      bound ← try_u32 finish;
      offset ← try_u32 start;
      len ← try_u32 (finish - start);
      emit_loop profile l (boundaries ++ [bound])
        (map ++ [mkInstructionMap (wrap_u32 pc) offset len])
  end.

(** The assembler's part of [translate_program]: prologue, body, failure block,
    epilogue, resolution; the value is the boundaries, the map and the image. *)
Definition assemble (source : list Instruction) (profile : InputProfile)
    : emitting (list Z * list InstructionMap) :=
  emit_prologue profile ;;
  reserve_or (reserve MapTable (zlen source)) Translation.NoMemory ;;
  reserve_or (reserve BoundaryTable (zlen source + 2)) Translation.NoMemory ;;
  first ← gets (fun a => zlen (asm_bytes a));
  first ← try_u32 first;
  '(boundaries, map) ← emit_loop profile (enumerate_from 0 source) [first] [];
  failure ← gets (fun a => zlen (asm_bytes a));
  emit_zero_return ;;
  epilogue ← gets (fun a => zlen (asm_bytes a));
  emit_epilogue ;;
  Resolve.resolve (zlen source) map failure epilogue ;;
  size ← gets (fun a => zlen (asm_bytes a));
  (if MAX_CODE_IMAGE_BYTES <? size then throw Translation.ImageTooLarge else mret tt) ;;
  size ← try_u32 size;
  mret (boundaries ++ [size], map).

Definition finish_image {S} (source : list Instruction) (profile : InputProfile)
    (boundaries : list Z) (map : list InstructionMap) (a : Assembler)
    : M S Translation.error CodeImage :=
  reserve_or (reserve OwnedSource (zlen source)) Translation.NoMemory ;;
  let image := mkCodeImage (asm_bytes a) [] 0 boundaries map source (asm_branches a) profile in
  with_err Translation.InvalidImage (validate image) ;;
  mret image.

Definition translate_program {S} (source : list Instruction) (profile : InputProfile)
    : M S Translation.error CodeImage :=
  Source.validate_profile source profile ;;
  with_err Translation.InvalidSource (Source.validate_source (reserve SourceTable) source) ;;
  for_each (enumerate_from 0 source) (fun '(pc, i) =>
    if Source.is_supported (code i) then mret tt
    else throw (Translation.UnsupportedOpcode pc (code i))) ;;
  assembler ← new_assembler (zlen source);
  with_local assembler
    ('(boundaries, map) ← assemble source profile;
     a ← gets (fun a => a);
     finish_image source profile boundaries map a).

(** [Program::translate_with_profile] and [Program::translate] ([program.rs]). *)
Definition translate_with_profile {S} (p : Program) (profile : InputProfile)
    : M S Translation.error CodeImage :=
  translate_program (instructions p) profile.

Definition translate {S} (p : Program) : M S Translation.error CodeImage :=
  translate_with_profile p PacketBytesBigEndian.

End Translate.

(** ** The second reference interpreter *)

Module Reference.
Section Evaluate.
Context {I : Type} `{Input I}.

(** One iteration; [Return] is a [return] of the source. *)
Definition step (input : I) (i : Instruction) (m : Machine) : step_outcome :=
  let a := accumulator m in
  let x := index m in
  match decode (code i) with
  | Some LD_IMM => set_a m (k i)
  | Some ((LD_W_ABS | LD_H_ABS | LD_B_ABS) as o) =>
      let w := if decide (o = LD_W_ABS) then Word
               else if decide (o = LD_H_ABS) then Half else Byte in
      match ancillary_from_offset (k i) with
      | Some field => set_a m (default 0 (input_ancillary input field))
      | None => match input_load input (k i) w with Some v => set_a m v | None => Return 0 end
      end
  | Some ((LD_W_IND | LD_H_IND | LD_B_IND) as o) =>
      match checked_add_u32 x (k i) with
      | None => Return 0
      | Some offset =>
          let w := if decide (o = LD_W_IND) then Word
                   else if decide (o = LD_H_IND) then Half else Byte in
          match input_load input offset w with Some v => set_a m v | None => Return 0 end
      end
  | Some LD_MEM => load_scratch m (k i) set_a
  | Some LD_LEN => set_a m (input_len input)
  | Some LDX_IMM => set_x m (k i)
  | Some LDX_MEM => load_scratch m (k i) set_x
  | Some LDX_LEN => set_x m (input_len input)
  | Some LDX_B_MSH =>
      match input_load input (k i) Byte with
      | None => Return 0
      | Some v => set_x m (wrap_u32 (Z.shiftl (Z.land v 0xf) 2))
      end
  | Some ST => store_scratch m (k i) a
  | Some STX => store_scratch m (k i) x
  | Some ALU_ADD_K => set_a m (wrapping_add_u32 a (k i))
  | Some ALU_ADD_X => set_a m (wrapping_add_u32 a x)
  | Some ALU_SUB_K => set_a m (wrapping_sub_u32 a (k i))
  | Some ALU_SUB_X => set_a m (wrapping_sub_u32 a x)
  | Some ALU_MUL_K => set_a m (wrapping_mul_u32 a (k i))
  | Some ALU_MUL_X => set_a m (wrapping_mul_u32 a x)
  | Some ALU_DIV_K => divide m Z.div (k i)
  | Some ALU_DIV_X => if x =? 0 then Return 0 else divide m Z.div x
  | Some ALU_OR_K => set_a m (Z.lor a (k i))
  | Some ALU_OR_X => set_a m (Z.lor a x)
  | Some ALU_AND_K => set_a m (Z.land a (k i))
  | Some ALU_AND_X => set_a m (Z.land a x)
  | Some ALU_LSH_K => set_a m (wrapping_shl_u32 a (k i))
  | Some ALU_LSH_X => set_a m (wrapping_shl_u32 a (Z.land x 31))
  | Some ALU_RSH_K => set_a m (wrapping_shr_u32 a (k i))
  | Some ALU_RSH_X => set_a m (wrapping_shr_u32 a (Z.land x 31))
  | Some ALU_NEG => set_a m (wrapping_neg_u32 a)
  | Some ALU_MOD_K => divide m Z.modulo (k i)
  | Some ALU_MOD_X => if x =? 0 then Return 0 else divide m Z.modulo x
  | Some ALU_XOR_K => set_a m (Z.lxor a (k i))
  | Some ALU_XOR_X => set_a m (Z.lxor a x)
  | Some JMP_JA => jump_to m (pc m + (1 + k i))
  | Some ((JMP_JEQ_K | JMP_JEQ_X | JMP_JGT_K | JMP_JGT_X
          | JMP_JGE_K | JMP_JGE_X | JMP_JSET_K | JMP_JSET_X) as o) =>
      let operand := match o with
        | JMP_JEQ_X | JMP_JGT_X | JMP_JGE_X | JMP_JSET_X => x | _ => k i end in
      let c := match o with
        | JMP_JEQ_K | JMP_JEQ_X => a =? operand
        | JMP_JGT_K | JMP_JGT_X => operand <? a
        | JMP_JGE_K | JMP_JGE_X => operand <=? a
        | _ => negb (Z.land a operand =? 0)
        end in
      jump_to m (pc m + (1 + (if c then jt i else jf i)))
  | Some RET_K => Return (k i)
  | Some RET_A => Return a
  | Some MISC_TAX => set_x m a
  | Some MISC_TXA => set_a m x
  | None => Return 0
  end.

(** [while steps < instructions.len()]; [fuel] is [len - steps]. [None] is a
    panic; running past the bound returns zero. *)
Fixpoint loop (input : I) (l : list Instruction) (fuel : nat) (m : Machine) : option Z :=
  match fuel with
  | O => Some 0
  | S fuel =>
      match get l (pc m) with
      | None => None
      | Some i =>
          match step input i m with
          | Continue m => loop input l fuel m
          | Return v => Some v
          | Crash => None
          end
      end
  end.

Definition evaluate_source (l : list Instruction) (input : I) : option Z :=
  loop input l (length l) initial_machine.

(** [CodeImage::evaluate] *)
Definition image_evaluate (image : CodeImage) (input : I) : option Z :=
  evaluate_source (source image) input.

End Evaluate.
End Reference.
