(* ===== verification/BpfX86.v ===== *)
(** Classic BPF, native code, part 4: the meaning of native code.

    A specification of the part of the x86_64 instruction set that translated
    images use, after the Intel manual and independent of the repository's
    decoder: prefixes, opcodes, ModRM bytes and displacements are decoded by
    the general encoding rules ([decode_insn]), and instructions act on sixteen
    64-bit registers, two flags and a byte-addressed memory ([exec]). Code is
    fetched from the image by offset; accesses to unmapped memory, division
    errors and jumps on flags that an instruction leaves undefined are faults.

    [meaning] maps the operations of [BpfNative] to instructions, and
    [decode_operation_sound] compares the repository's decoder with the
    encoding rules. *)

From stdpp Require Import gmap.
From S2P Require Import Prelude Effects BpfInstruction BpfProgram BpfNative.
Local Open Scope Z_scope.

Module X86.

(** ** Instructions *)

Inductive size : Type := S8 | S16 | S32 | S64.

Definition bits (s : size) : Z :=
  match s with S8 => 8 | S16 => 16 | S32 => 32 | S64 => 64 end.
Definition size_bytes (s : size) : nat :=
  match s with S8 => 1 | S16 => 2 | S32 => 4 | S64 => 8 end.
Definition wrap (s : size) (z : Z) : Z := z mod 2 ^ bits s.

(** Registers by their number: rax 0, rcx 1, rdx 2, rbx 3, rsp 4, rbp 5,
    rsi 6, rdi 7, r8 to r15. An immediate is the unsigned value of its size. *)
Inductive operand : Type :=
| Reg (n : nat)
| Imm (v : Z)
| Mem (base : nat) (disp : Z).

Inductive alu : Type := Add | Or | And | Sub | Xor | Cmp.
Inductive shift : Type := Rol | Shl | Shr.
Inductive cc : Type := B | AE | E | NE | A.

Inductive insn : Type :=
| Push (r : nat)
| Pop (r : nat)
| Mov (s : size) (dst src : operand)
| Movzx (from : size) (dst : nat) (src : operand)
| Alu (op : alu) (s : size) (dst src : operand)
| Test (s : size) (a b : operand)
| Imul (s : size) (dst : nat) (a b : operand)
| Shift (op : shift) (s : size) (dst count : operand)
| Neg (s : size) (dst : operand)
| Div (s : size) (src : operand)
| Bswap (s : size) (r : nat)
| Lfence
| Jcc (c : cc) (target : Z)
| Jmp (target : Z)
| Ret.

(** ** Encoding rules *)

(** The prefixes of an instruction: operand size and REX. *)
Record prefixes : Type := mkPrefixes { p66 : bool; rex : Z }.

Definition rex_w (p : prefixes) : bool := Z.testbit (rex p) 3.
Definition rex_r (p : prefixes) : bool := Z.testbit (rex p) 2.
Definition rex_b (p : prefixes) : bool := Z.testbit (rex p) 0.

Definition operand_size (p : prefixes) : size :=
  if rex_w p then S64 else if p66 p then S16 else S32.

Definition extend (e : bool) (n : Z) : nat := Z.to_nat (n + if e then 8 else 0).

Definition split_prefixes (l : list Z) : prefixes * Z * list Z :=
  let '(has66, n, l) :=
    match l with b :: l' => if b =? 0x66 then (true, 1, l') else (false, 0, l) | [] => (false, 0, []) end in
  match l with
  | b :: l' =>
      if (0x40 <=? b) && (b <=? 0x4f) then (mkPrefixes has66 b, n + 1, l')
      else (mkPrefixes has66 0, n, l)
  | [] => (mkPrefixes has66 0, n, [])
  end.

(** ModRM: the [reg] field, the operand of [r/m], the bytes it takes and the
    rest. Forms with a SIB byte or relative to rip are outside the subset. *)
Definition parse_modrm (p : prefixes) (l : list Z) : option (Z * operand * Z * list Z) :=
  match l with
  | [] => None
  | m :: l =>
      let mode := Z.shiftr m 6 in
      let field := Z.land (Z.shiftr m 3) 7 in
      let rm := Z.land m 7 in
      let base := extend (rex_b p) rm in
      if mode =? 3 then Some (field, Reg base, 1, l) else
      if rm =? 4 then None else
      if mode =? 0 then (if rm =? 5 then None else Some (field, Mem base 0, 1, l)) else
      match l with
      | d :: l => if mode =? 1 then Some (field, Mem base (as_i8 d), 2, l) else None
      | [] => None
      end
  end.

Definition imm8 (s : size) (l : list Z) : option (operand * Z * list Z) :=
  match l with b :: l => Some (Imm (wrap s (as_i8 b)), 1, l) | [] => None end.

Definition read32 (l : list Z) : option (Z * list Z) :=
  match l with
  | b0 :: b1 :: b2 :: b3 :: l => Some (as_i32 (from_le_bytes [b0; b1; b2; b3]), l)
  | _ => None
  end.

Definition imm32 (s : size) (l : list Z) : option (operand * Z * list Z) :=
  '(v, l) ← read32 l; Some (Imm (wrap s v), 4, l).

Definition alu_of (n : Z) : option alu :=
  if n =? 0 then Some Add else if n =? 1 then Some Or else if n =? 4 then Some And
  else if n =? 5 then Some Sub else if n =? 6 then Some Xor else if n =? 7 then Some Cmp
  else None.

Definition shift_of (n : Z) : option shift :=
  if n =? 0 then Some Rol else if n =? 4 then Some Shl else if n =? 5 then Some Shr else None.

Definition cc_of (n : Z) : option cc :=
  if n =? 2 then Some B else if n =? 3 then Some AE else if n =? 4 then Some E
  else if n =? 5 then Some NE else if n =? 7 then Some A else None.

(** Opcodes after [0x0f]; the count is of the bytes after the opcode. *)
Definition decode_two_byte (p : prefixes) (op : Z) (l : list Z) : option (insn * Z) :=
  let s := operand_size p in
  if (0x80 <=? op) && (op <=? 0x8f) then
    c ← cc_of (op - 0x80); '(v, _) ← read32 l; Some (Jcc c v, 4)
  else if op =? 0xae then
    match l with m :: _ => if m =? 0xe8 then Some (Lfence, 1) else None | [] => None end
  else if op =? 0xaf then
    '(r, rm, n, _) ← parse_modrm p l;
    Some (Imul s (extend (rex_r p) r) (Reg (extend (rex_r p) r)) rm, n)
  else if op =? 0xb6 then
    '(r, rm, n, _) ← parse_modrm p l; Some (Movzx S8 (extend (rex_r p) r) rm, n)
  else if op =? 0xb7 then
    '(r, rm, n, _) ← parse_modrm p l; Some (Movzx S16 (extend (rex_r p) r) rm, n)
  else if (0xc8 <=? op) && (op <=? 0xcf) then
    Some (Bswap s (extend (rex_b p) (op - 0xc8)), 0)
  else None.

Definition decode_one_byte (p : prefixes) (op : Z) (l : list Z) : option (insn * Z) :=
  let s := operand_size p in
  let rm_reg f :=
    '(r, rm, n, _) ← parse_modrm p l; Some (f rm (Reg (extend (rex_r p) r)), n) in
  if (op <? 0x40) && (Z.land op 7 =? 1) then
    a ← alu_of (Z.shiftr op 3); rm_reg (Alu a s)
  else if (op <? 0x40) && (Z.land op 7 =? 5) then
    a ← alu_of (Z.shiftr op 3); '(i, n, _) ← imm32 s l; Some (Alu a s (Reg 0) i, n)
  else if (0x50 <=? op) && (op <=? 0x57) then
    Some (Push (extend (rex_b p) (op - 0x50)), 0)
  else if (0x58 <=? op) && (op <=? 0x5f) then
    Some (Pop (extend (rex_b p) (op - 0x58)), 0)
  else if op =? 0x69 then
    '(r, rm, n, l) ← parse_modrm p l; '(i, m, _) ← imm32 s l;
    Some (Imul s (extend (rex_r p) r) rm i, n + m)
  else if op =? 0x81 then
    '(r, rm, n, l) ← parse_modrm p l; a ← alu_of r; '(i, m, _) ← imm32 s l;
    Some (Alu a s rm i, n + m)
  else if op =? 0x83 then
    '(r, rm, n, l) ← parse_modrm p l; a ← alu_of r; '(i, m, _) ← imm8 s l;
    Some (Alu a s rm i, n + m)
  else if op =? 0x85 then rm_reg (Test s)
  else if op =? 0x89 then rm_reg (Mov s)
  else if op =? 0x8b then
    '(r, rm, n, _) ← parse_modrm p l; Some (Mov s (Reg (extend (rex_r p) r)) rm, n)
  else if op =? 0xa9 then '(i, n, _) ← imm32 s l; Some (Test s (Reg 0) i, n)
  else if (0xb8 <=? op) && (op <=? 0xbf) then
    if rex_w p || p66 p then None else
    '(i, n, _) ← imm32 S32 l; Some (Mov S32 (Reg (extend (rex_b p) (op - 0xb8))) i, n)
  else if op =? 0xc1 then
    '(r, rm, n, l) ← parse_modrm p l; o ← shift_of r;
    match l with b :: _ => Some (Shift o s rm (Imm b), n + 1) | [] => None end
  else if op =? 0xc3 then Some (Ret, 0)
  else if op =? 0xd3 then
    '(r, rm, n, _) ← parse_modrm p l; o ← shift_of r; Some (Shift o s rm (Reg 1), n)
  else if op =? 0xe9 then '(v, _) ← read32 l; Some (Jmp v, 4)
  else if op =? 0xf6 then
    (* byte registers 4 to 7 are spl to dil only under a REX prefix *)
    '(r, rm, n, l) ← parse_modrm p l;
    match l with
    | b :: _ => if (r =? 0) && (0x40 <=? rex p) then Some (Test S8 rm (Imm b), n + 1) else None
    | [] => None
    end
  else if op =? 0xf7 then
    '(r, rm, n, _) ← parse_modrm p l;
    if r =? 3 then Some (Neg s rm, n) else if r =? 6 then Some (Div s rm, n) else None
  else None.

(** Jump targets relative to the next instruction. *)
Definition retarget (next : Z) (i : insn) : insn :=
  match i with
  | Jcc c d => Jcc c (next + d)
  | Jmp d => Jmp (next + d)
  | _ => i
  end.

Definition decode_insn (l : list Z) : option (insn * Z) :=
  let '(p, n, l) := split_prefixes l in
  match l with
  | [] => None
  | op :: l =>
      if op =? 0x0f then
        match l with
        | [] => None
        | op :: l => '(i, m) ← decode_two_byte p op l; Some (i, n + 2 + m)
        end
      else '(i, m) ← decode_one_byte p op l; Some (i, n + 1 + m)
  end.

(** The instruction at an offset of the image and the offset after it. *)
Definition fetch (image : list Z) (ip : Z) : option (insn * Z) :=
  if ip <? 0 then None else
  '(i, n) ← decode_insn (drop (Z.to_nat ip) image);
  Some (retarget (ip + n) i, ip + n).

(** ** Execution *)

(** [flags] are the carry and the zero flag, [None] when undefined. *)
Record state : Type := mkState {
  regs : list Z;
  flags : option (bool * bool);
  mem : gmap Z Z;
  ip : Z
}.

Definition get_reg (n : nat) (s : state) : Z := nth n (regs s) 0.
Definition set_reg (n : nat) (v : Z) (s : state) : state :=
  mkState (<[n := v]> (regs s)) (flags s) (mem s) (ip s).
Definition set_flags (f : option (bool * bool)) (s : state) : state :=
  mkState (regs s) f (mem s) (ip s).
Definition set_mem (m : gmap Z Z) (s : state) : state :=
  mkState (regs s) (flags s) m (ip s).
Definition set_ip (p : Z) (s : state) : state :=
  mkState (regs s) (flags s) (mem s) p.

(** Little-endian loads and stores of [n] bytes; every byte must be mapped. *)
Fixpoint load (n : nat) (a : Z) (m : gmap Z Z) : option Z :=
  match n with
  | O => Some 0
  | S n => b ← m !! a; r ← load n (a + 1) m; Some (b + 256 * r)
  end.

Fixpoint store (n : nat) (a v : Z) (m : gmap Z Z) : option (gmap Z Z) :=
  match n with
  | O => Some m
  | S n =>
      match m !! a with
      | None => None
      | Some _ => store n (a + 1) (v / 256) (<[a := v mod 256]> m)
      end
  end.

Definition address (base : nat) (disp : Z) (s : state) : Z :=
  wrap S64 (get_reg base s + disp).

Definition read (z : size) (o : operand) (s : state) : option Z :=
  match o with
  | Reg n => Some (wrap z (get_reg n s))
  | Imm v => Some v
  | Mem base disp => load (size_bytes z) (address base disp s) (mem s)
  end.

(** A 32-bit result clears the upper half of its register; shorter results
    keep the upper bits. *)
Definition merge_reg (z : size) (old v : Z) : Z :=
  match z with
  | S64 | S32 => v
  | S16 | S8 => old / 2 ^ bits z * 2 ^ bits z + v
  end.

Definition write (z : size) (o : operand) (v : Z) (s : state) : option state :=
  match o with
  | Reg n => Some (set_reg n (merge_reg z (get_reg n s) v) s)
  | Imm _ => None
  | Mem base disp =>
      m ← store (size_bytes z) (address base disp s) v (mem s); Some (set_mem m s)
  end.

Definition alu_result (op : alu) (z : size) (a b : Z) : Z * bool :=
  match op with
  | Add => (wrap z (a + b), 2 ^ bits z <=? a + b)
  | Sub | Cmp => (wrap z (a - b), a <? b)
  | And => (Z.land a b, false)
  | Or => (Z.lor a b, false)
  | Xor => (Z.lxor a b, false)
  end.

Definition shift_result (op : shift) (z : size) (a n : Z) : Z :=
  match op with
  | Shl => wrap z (Z.shiftl a n)
  | Shr => Z.shiftr a n
  | Rol =>
      let n := n mod bits z in
      Z.lor (wrap z (Z.shiftl a n)) (Z.shiftr a (bits z - n))
  end.

Definition swap32 (v : Z) : Z :=
  from_le_bytes [v / 16777216 mod 256; v / 65536 mod 256; v / 256 mod 256; v mod 256].

Definition taken (c : cc) (f : bool * bool) : bool :=
  let '(carry, zero) := f in
  match c with
  | B => carry
  | AE => negb carry
  | E => zero
  | NE => negb zero
  | A => negb carry && negb zero
  end.

Inductive outcome : Type :=
| Next (s : state)
| Returned (address : Z) (s : state)
| Fault.

Definition or_fault (o : option state) : outcome :=
  match o with Some s => Next s | None => Fault end.

Definition exec (i : insn) (s : state) : outcome :=
  match i with
  | Push r =>
      let sp := wrap S64 (get_reg 4 s - 8) in
      or_fault (m ← store 8 sp (get_reg r s) (mem s); Some (set_mem m (set_reg 4 sp s)))
  | Pop r =>
      or_fault (v ← load 8 (get_reg 4 s) (mem s);
                Some (set_reg r v (set_reg 4 (wrap S64 (get_reg 4 s + 8)) s)))
  | Mov z dst src => or_fault (v ← read z src s; write z dst v s)
  | Movzx from dst src => or_fault (v ← read from src s; write S32 (Reg dst) v s)
  | Alu op z dst src =>
      or_fault (
        a ← read z dst s; b ← read z src s;
        let '(r, carry) := alu_result op z a b in
        s ← match op with Cmp => Some s | _ => write z dst r s end;
        Some (set_flags (Some (carry, r =? 0)) s))
  | Test z a b =>
      or_fault (
        a ← read z a s; b ← read z b s;
        Some (set_flags (Some (false, Z.land a b =? 0)) s))
  | Imul z dst a b =>
      or_fault (
        a ← read z a s; b ← read z b s;
        s ← write z (Reg dst) (wrap z (a * b)) s; Some (set_flags None s))
  | Shift op z dst count =>
      or_fault (
        a ← read z dst s; n ← read S8 count s;
        s ← write z dst (shift_result op z a (Z.land n (match z with S64 => 63 | _ => 31 end))) s;
        Some (set_flags None s))
  | Neg z dst =>
      or_fault (a ← read z dst s; s ← write z dst (wrap z (- a)) s; Some (set_flags None s))
  | Div z src =>
      or_fault (
        d ← read z src s; lo ← read z (Reg 0) s; hi ← read z (Reg 2) s;
        let n := hi * 2 ^ bits z + lo in
        if (d =? 0) || (2 ^ bits z <=? n / d) then None else
        s ← write z (Reg 0) (n / d) s; s ← write z (Reg 2) (n mod d) s;
        Some (set_flags None s))
  | Bswap z r =>
      match z with
      | S32 => Next (set_reg r (swap32 (wrap S32 (get_reg r s))) s)
      | _ => Fault
      end
  | Lfence => Next s
  | Jcc c target =>
      match flags s with
      | Some f => Next (if taken c f then set_ip target s else s)
      | None => Fault
      end
  | Jmp target => Next (set_ip target s)
  | Ret =>
      match load 8 (get_reg 4 s) (mem s) with
      | Some a => Returned a (set_reg 4 (wrap S64 (get_reg 4 s + 8)) s)
      | None => Fault
      end
  end.

Definition step (image : list Z) (s : state) : outcome :=
  match fetch image (ip s) with
  | Some (i, next) => exec i (set_ip next s)
  | None => Fault
  end.

(** [None]: the fuel ran out before a return or a fault. *)
Fixpoint run (image : list Z) (fuel : nat) (s : state) : option outcome :=
  match fuel with
  | O => None
  | S fuel =>
      match step image s with
      | Next s => run image fuel s
      | stop => Some stop
      end
  end.

End X86.

(** ** The operations of the repository as instructions *)

Definition size_of (w : Width.t) : X86.size :=
  match w with
  | Width.Byte => X86.S8 | Width.Half => X86.S16 | Width.Word => X86.S32
  | Width.Qword => X86.S64
  end.

Definition number (r : Register) : nat :=
  match r with
  | Eax => 0 | Ecx => 1 | Edx => 2 | Rsp => 4 | Rbp => 5 | Esi => 6 | Rdi => 7
  | R12 => 12 | R13 | R13d => 13 | R14 | R14d => 14 | R15 | R15d => 15
  end.

Definition operand_of (o : Operand.t) : X86.operand :=
  match o with
  | Operand.Register r => X86.Reg (number r)
  | Operand.Immediate v => X86.Imm v
  | Operand.Memory base displacement => X86.Mem (number base) displacement
  end.

Definition alu_of_kind (k : BinaryKind) : option X86.alu :=
  match k with
  | Add => Some X86.Add | Sub => Some X86.Sub | Or => Some X86.Or
  | And => Some X86.And | Xor => Some X86.Xor | Mul => None
  end.

Definition shift_of_kind (k : ShiftKind) : X86.shift :=
  match k with ShiftLeft => X86.Shl | ShiftRight => X86.Shr end.

Definition cc_of_condition (c : Condition) : X86.cc :=
  match c with
  | Below => X86.B | Equal => X86.E | NotEqual => X86.NE | Above => X86.A
  | AboveOrEqual => X86.AE
  end.

Definition meaning (op : NativeOp.t) : option X86.insn :=
  match op with
  | NativeOp.Push r => Some (X86.Push (number r))
  | NativeOp.Pop r => Some (X86.Pop (number r))
  | NativeOp.Mov w d s => Some (X86.Mov (size_of w) (operand_of d) (operand_of s))
  | NativeOp.Load w d base disp =>
      let m := X86.Mem (number base) disp in
      Some (match w with
            | Width.Byte | Width.Half => X86.Movzx (size_of w) (number d) m
            | Width.Word | Width.Qword => X86.Mov (size_of w) (X86.Reg (number d)) m
            end)
  | NativeOp.Binary Mul w (Operand.Register d) s =>
      Some (X86.Imul (size_of w) (number d) (X86.Reg (number d)) (operand_of s))
  | NativeOp.Binary k w d s =>
      a ← alu_of_kind k; Some (X86.Alu a (size_of w) (operand_of d) (operand_of s))
  | NativeOp.ImmediateMultiply d s v =>
      Some (X86.Imul X86.S32 (number d) (X86.Reg (number s)) (X86.Imm v))
  | NativeOp.Compare w l r =>
      Some (X86.Alu X86.Cmp (size_of w) (operand_of l) (operand_of r))
  | NativeOp.Test w l r => Some (X86.Test (size_of w) (operand_of l) (operand_of r))
  | NativeOp.ShiftImmediate k w d n =>
      Some (X86.Shift (shift_of_kind k) (size_of w) (X86.Reg (number d)) (X86.Imm n))
  | NativeOp.ShiftRegister k w d =>
      Some (X86.Shift (shift_of_kind k) (size_of w) (X86.Reg (number d)) (X86.Reg 1))
  | NativeOp.Unary Neg w d _ => Some (X86.Neg (size_of w) (X86.Reg (number d)))
  | NativeOp.Unary Bswap w d _ => Some (X86.Bswap (size_of w) (number d))
  | NativeOp.Unary RotateLeft w d n =>
      Some (X86.Shift X86.Rol (size_of w) (X86.Reg (number d)) (X86.Imm n))
  | NativeOp.Divide w d => Some (X86.Div (size_of w) (operand_of d))
  | NativeOp.SpeculationBarrier => Some X86.Lfence
  | NativeOp.ConditionalJump c t => Some (X86.Jcc (cc_of_condition c) t)
  | NativeOp.Jump t => Some (X86.Jmp t)
  | NativeOp.Return => Some X86.Ret
  end.

(** Where the repository's decoder reads an encoding differently from the
    encoding rules: [8b 06] without a REX prefix addresses through rsi, not
    r14, and the immediate of [0x83] is sign-extended. *)
Definition misread (l : list Z) : bool :=
  match l with
  | [] => false
  | a :: l =>
      if a =? 0x8b then match l with m :: _ => m =? 0x06 | [] => false end else
      if (a =? 0x41) || (a =? 0x48) then
        match l with
        | o :: l => (o =? 0x83) && match l with _ :: b :: _ => 128 <=? b | _ => false end
        | [] => false
        end
      else false
  end.

(** ** Inverting the decoder *)

Definition rest (c : Checker) : list Z := drop (Z.to_nat (position c)) (code_bytes c).

Lemma bind_Done {S E A B} (m : M S E A) (f : A -> M S E B) s b s' :
  (m ≫= f) s = Done b s' -> exists a s1, m s = Done a s1 /\ f a s1 = Done b s'.
Proof. unfold mbind, M_bind. destruct (m s) as [a s1| | |]; [|done..]. by exists a, s1. Qed.

Lemma byte_Done c b c1 :
  0 <= position c -> Checker.byte c = Done b c1 ->
  rest c = b :: rest c1 /\ c1 = set_position (position c + 1) c.
Proof.
  intros Hp. unfold Checker.byte. destruct (get _ _) as [x|] eqn:E; [|done].
  intros [= <- <-]. split; [|done]. apply get_Some in E as [_ E]. unfold rest; simpl.
  rewrite Z2Nat.inj_add by lia. rewrite <- drop_drop.
  by rewrite (drop_S _ _ _ E).
Qed.

Lemma imm32_Done c v c1 :
  0 <= position c -> Checker.imm32 c = Done v c1 ->
  exists b0 b1 b2 b3, v = from_le_bytes [b0; b1; b2; b3] /\
    rest c = b0 :: b1 :: b2 :: b3 :: rest c1 /\ c1 = set_position (position c + 4) c.
Proof.
  intros Hp. unfold Checker.imm32, checked_add_usize, get_range.
  destruct (_ <=? usize_MAX); [|done]. simpl.
  destruct (_ && _) eqn:E; [|done]. intros [= <- <-].
  replace (position c + 4 - position c) with 4 by lia.
  rewrite !andb_true_iff, !Z.leb_le in E. destruct E as [_ E].
  assert (4 <= length (rest c))%nat as Hlen.
  { unfold rest. rewrite length_drop. unfold zlen in E. lia. }
  change (Z.to_nat 4) with 4%nat. fold (rest c).
  assert (rest (set_position (position c + 4) c) = drop 4 (rest c)) as ->.
  { unfold rest. simpl. rewrite Z2Nat.inj_add, drop_drop by lia. done. }
  destruct (rest c) as [|b0 [|b1 [|b2 [|b3 l]]]]; simpl in Hlen; try lia.
  by exists b0, b1, b2, b3.
Qed.

Lemma match_byte_Done {A} b (arms : list (Z * decoder A)) c a c' :
  match_byte b arms c = Done a c' -> exists arm, (b, arm) ∈ arms /\ arm c = Done a c'.
Proof.
  induction arms as [|[p arm] arms IH]; [done|]. simpl.
  destruct (Z.eqb_spec b p) as [->|].
  - intros. exists arm. split; [|done]. by left.
  - intros (arm' & Hin & Harm)%IH. exists arm'. split; [|done]. by right.
Qed.

Lemma relative_target_Done c t c1 :
  0 <= position c -> Checker.relative_target c = Done t c1 ->
  exists b0 b1 b2 b3, rest c = b0 :: b1 :: b2 :: b3 :: rest c1 /\
    c1 = set_position (position c + 4) c /\
    t = position c1 + as_i32 (from_le_bytes [b0; b1; b2; b3]).
Proof.
  intros Hp. unfold Checker.relative_target.
  intros (v & c2 & (b0 & b1 & b2 & b3 & -> & Hr & ->)%imm32_Done & H)%bind_Done; [|done].
  exists b0, b1, b2, b3. apply bind_Done in H as (p & c3 & [= <- <-] & H).
  unfold some_or in H. revert H. generalize (as_i32 (from_le_bytes [b0; b1; b2; b3])).
  intros d. unfold checked_add_usize, checked_sub_usize. cbn zeta. simpl position.
  destruct (Z.leb_spec 0 d); case_match; try done; intros [= <- <-]; simpl in *;
    (split; [done|]); (split; [done|]); case_match; simplify_eq; lia.
Qed.

(** Opens the next byte, immediate or target of a decoder run. *)
Ltac decoder_step :=
  match goal with
  | H : (_ ≫= _) _ = Done _ _ |- _ =>
      apply bind_Done in H as (? & ? & ? & ?)
  | H : Checker.byte _ = Done _ _ |- _ =>
      apply byte_Done in H as [? ->]; [|simpl; lia]
  | H : Checker.imm32 _ = Done _ _ |- _ =>
      apply imm32_Done in H as (? & ? & ? & ? & -> & ? & ->); [|simpl; lia]
  | H : Checker.relative_target _ = Done _ _ |- _ =>
      apply relative_target_Done in H as (? & ? & ? & ? & ? & -> & ->); [|simpl; lia]
  | H : match_byte _ _ _ = Done _ _ |- _ =>
      apply match_byte_Done in H as (? & ? & ?)
  | H : (_, _) ∈ _ :: _ |- _ => apply elem_of_cons in H as [[= -> ->]|H]
  | H : (_, _) ∈ [] |- _ => by apply elem_of_nil in H
  | H : (if ?b =? ?v then _ else _) _ = Done _ _ |- _ =>
      destruct (Z.eqb_spec b v) as [->|]
  | H : (if (?b =? ?v) && (?b' =? ?v') then _ else _) _ = Done _ _ |- _ =>
      destruct (Z.eqb_spec b v) as [->|]; [destruct (Z.eqb_spec b' v') as [->|]|]; simpl in H
  | H : none _ = Done _ _ |- _ => discriminate H
  | H : mret _ _ = Done _ _ |- _ => injection H as <- <-
  end.

Definition reads_as (c c' : Checker) (op : NativeOp.t) : Prop :=
  exists i, meaning op = Some i /\
    X86.fetch (code_bytes c) (position c) = Some (i, position c').

Lemma reads_as_intro c c' op i n :
  0 <= position c -> meaning op = Some (X86.retarget (position c + n) i) ->
  X86.decode_insn (rest c) = Some (i, n) -> position c' = position c + n ->
  reads_as c c' op.
Proof.
  intros Hp Hop Hdec Hn. exists (X86.retarget (position c + n) i). split; [done|].
  unfold X86.fetch. destruct (Z.ltb_spec (position c) 0); [lia|].
  fold (rest c). by rewrite Hdec, Hn.
Qed.

Lemma wrap_imm8 s b : in_u8 b -> b < 128 -> X86.wrap s (as_i8 b) = b.
Proof.
  unfold in_u8, u8_MAX, X86.wrap, as_i8. intros. destruct s; simpl X86.bits;
    rewrite (Z.mod_small (b + 128)), Z.add_simpl_r by lia; apply Z.mod_small; lia.
Qed.

Lemma from_le_bytes_u32 b0 b1 b2 b3 :
  in_u8 b0 -> in_u8 b1 -> in_u8 b2 -> in_u8 b3 -> in_u32 (from_le_bytes [b0; b1; b2; b3]).
Proof. unfold in_u8, in_u32, u8_MAX, u32_MAX. simpl. lia. Qed.

Lemma wrap_imm32 v : in_u32 v -> X86.wrap X86.S32 (as_i32 v) = v.
Proof.
  unfold in_u32, u32_MAX, X86.wrap, as_i32. simpl X86.bits. intros.
  change (2 ^ 32) with 4294967296. Z.div_mod_to_equations. lia.
Qed.

#[local] Arguments from_le_bytes : simpl never.
#[local] Arguments as_i32 : simpl never.
#[local] Arguments as_i8 : simpl never.
#[local] Arguments X86.wrap : simpl never.

(** Puts the bytes read so far in front of every use of [rest]. *)
Ltac open_bytes :=
  repeat match goal with
  | H : rest ?c = _ :: _ |- context [rest ?c] => rewrite H
  | H : rest ?c = _ :: _, H' : context [rest ?c] |- _ =>
      match type of H' with
      | Forall _ _ => rewrite H in H'
      | misread _ = _ => rewrite H in H'
      end
  end.

(** The side conditions of immediates: the bytes are [u8] and, for the
    sign-extended form, below 128. *)
Ltac immediate_range :=
  open_bytes; repeat match goal with H : Forall _ (_ :: _) |- _ => inversion_clear H end;
  match goal with
  | |- in_u32 _ => by apply from_le_bytes_u32
  | Hm : misread _ = false |- Some _ = Some _ =>
      simpl in Hm; do 3 f_equal; symmetry; apply wrap_imm8; [done|lia]
  end.

(** Compares one decoded form with the encoding rules. *)
Ltac read_leaf :=
  eapply reads_as_intro; [done| |open_bytes; reflexivity|simpl; lia];
  simpl; rewrite ?wrap_imm32; first [done | do 2 f_equal; lia | immediate_range].

Lemma last_byte_Done c b c1 bs :
  0 <= position c -> rest c = b :: bs -> c1 = set_position (position c + 1) c ->
  last_byte c1 = Done b c1.
Proof.
  intros Hp Hr ->. unfold last_byte, mbind, M_bind, gets, expect. simpl.
  replace (position c + 1 - 1) with (position c) by lia. unfold rest in Hr.
  assert (code_bytes c !! Z.to_nat (position c) = Some b) as Hb.
  { rewrite <- (Nat.add_0_r (Z.to_nat _)), <- lookup_drop, Hr. done. }
  assert (get (code_bytes c) (position c) = Some b) as ->; [|done].
  rewrite <- (Z2Nat.id (position c)) at 1 by done. by rewrite get_nat.
Qed.

Lemma rex_b_sound c c1 op c' :
  0 <= position c -> Forall in_u8 (rest c) -> misread (rest c) = false ->
  rest c = 0x41 :: rest c1 -> c1 = set_position (position c + 1) c ->
  decode_rex_b c1 = Done op c' -> reads_as c c' op.
Proof.
  intros Hp Hu8 Hmis Hc Hc1 H. subst c1. unfold decode_rex_b in H.
  apply bind_Done in H as (b & c2 & Hb & H).
  apply byte_Done in Hb as [Hb Hc2]; [|simpl; lia].
  assert (last_byte c2 = Done b c2) as Hlast by (eapply last_byte_Done; [|done..]; simpl; lia).
  destruct ((84 <=? b) && (b <=? 87)) eqn:Hpush.
  { unfold push_extended in H. rewrite (bind_done _ _ _ _ _ Hlast) in H. subst c2.
    assert (b = 84 \/ b = 85 \/ b = 86 \/ b = 87) as Hcases by lia.
    destruct_or! Hcases; subst b; injection H as <- <-; read_leaf. }
  destruct ((92 <=? b) && (b <=? 95)) eqn:Hpop.
  { unfold pop_extended in H. rewrite (bind_done _ _ _ _ _ Hlast) in H. subst c2.
    assert (b = 92 \/ b = 93 \/ b = 94 \/ b = 95) as Hcases by lia.
    destruct_or! Hcases; subst b; injection H as <- <-; read_leaf. }
  clear Hlast Hpush Hpop. subst c2.
  unfold on_byte, when_byte in H. repeat decoder_step; read_leaf.
Qed.

Lemma decode_operation_sound c op c' :
  0 <= position c -> Forall in_u8 (rest c) -> misread (rest c) = false ->
  decode_operation c = Done op c' -> reads_as c c' op.
Proof.
  intros Hp Hu8 Hmis H. unfold decode_operation, on_byte in H.
  repeat decoder_step.
  all: try (by eapply rex_b_sound).
  all: unfold decode_rex_r, decode_rex_rb, decode_rex_w, decode_rex_wb,
    decode_rex_wr, decode_rex_wrb, decode_0f, decode_binary_register, decode_immediate,
    decode_and_immediate8, decode_move_register_or_scratch, decode_load_or_scratch,
    decode_shift_immediate, conditional_jump_to, on_byte, when_byte, two_bytes in *;
    repeat decoder_step.
  all: try (open_bytes; discriminate Hmis).
  all: read_leaf.
Qed.

(** Where the decoder misreads an encoding, it is the unprefixed load, or an
    immediate that no lowering contains. *)
Definition small_immediate (op : NativeOp.t) : bool :=
  match op with
  | NativeOp.Binary (And | Sub) _ (Operand.Register (R14d | R15d)) (Operand.Immediate v)
  | NativeOp.Binary _ _ (Operand.Register Rsp) (Operand.Immediate v)
  | NativeOp.Compare _ (Operand.Register R13d) (Operand.Immediate v) => v <? 128
  | _ => true
  end.

Definition bare_load : NativeOp.t := NativeOp.Load Width.Word Eax R14 0.
Definition bare_load_insn : X86.insn := X86.Mov X86.S32 (X86.Reg 0) (X86.Mem 6 0).

Ltac misread_leaf :=
  open_bytes; first
    [ discriminate
    | match goal with Hm : misread _ = true, Hs : small_immediate _ = true |- _ =>
        simpl in Hm, Hs; lia end ].

Lemma rex_b_misread c c1 op c' :
  0 <= position c -> misread (rest c) = true -> small_immediate op = true ->
  rest c = 0x41 :: rest c1 -> c1 = set_position (position c + 1) c ->
  decode_rex_b c1 = Done op c' -> False.
Proof.
  intros Hp Hmis Hs Hc Hc1 H. subst c1. unfold decode_rex_b in H.
  apply bind_Done in H as (b & c2 & Hb & H).
  apply byte_Done in Hb as [Hb Hc2]; [|simpl; lia]. subst c2.
  assert (b = 0x83) as ->.
  { rewrite Hc, Hb in Hmis. simpl in Hmis. lia. }
  cbn [Z.leb Z.compare Pos.compare Pos.compare_cont andb match_byte Z.eqb Pos.eqb] in H.
  unfold on_byte in H. repeat decoder_step.
  all: misread_leaf.
Qed.

Lemma decode_operation_misread c op c' :
  0 <= position c -> misread (rest c) = true -> small_immediate op = true ->
  decode_operation c = Done op c' ->
  op = bare_load /\
  X86.fetch (code_bytes c) (position c) = Some (bare_load_insn, position c').
Proof.
  intros Hp Hmis Hs H. unfold decode_operation, on_byte in H.
  repeat decoder_step.
  all: try (exfalso; by eapply rex_b_misread).
  all: unfold decode_rex_r, decode_rex_rb, decode_rex_w, decode_rex_wb,
    decode_rex_wr, decode_rex_wrb, decode_0f, decode_binary_register, decode_immediate,
    decode_and_immediate8, decode_move_register_or_scratch, decode_load_or_scratch,
    decode_shift_immediate, conditional_jump_to, on_byte, when_byte, two_bytes in *;
    repeat decoder_step.
  all: try (exfalso; misread_leaf).
  split; [done|]. unfold X86.fetch. destruct (Z.ltb_spec (position c) 0); [lia|].
  fold (rest c). open_bytes. transitivity (Some (bare_load_insn, position c + 2)); [done|].
  do 2 f_equal. simpl. lia.
Qed.

(** ** The decoder only moves forward *)

Definition moves {A} (d : decoder A) : Prop := forall c,
  match d c with
  | Done _ c' | Fail _ c' => c' = set_position (position c') c /\ position c <= position c'
  | Panic | Diverged => True
  end.

Lemma moves_ret {A} (a : A) : moves (mret a).
Proof. intros c. simpl. split; [by destruct c|lia]. Qed.
Lemma moves_none {A} : moves (none (A := A)).
Proof. intros c. simpl. split; [by destruct c|lia]. Qed.
Lemma moves_bind {A B} (d : decoder A) (f : A -> decoder B) :
  moves d -> (forall a, moves (f a)) -> moves (d ≫= f).
Proof.
  intros Hd Hf c. unfold mbind, M_bind. specialize (Hd c).
  destruct (d c) as [a c1|e c1| |]; try done. specialize (Hf a c1).
  destruct c as [bs p ts], c1 as [bs1 p1 ts1], Hd as [[= -> ->] ?].
  destruct (f a _) as [b [bs2 p2 ts2]|e [bs2 p2 ts2]| |]; try done; simpl in *;
    destruct Hf as [[= -> ->] ?]; (split; [done|lia]).
Qed.
Lemma moves_byte : moves Checker.byte.
Proof.
  intros c. unfold Checker.byte. destruct (get _ _); simpl; (split; [by destruct c|lia]).
Qed.
Lemma moves_imm32 : moves Checker.imm32.
Proof.
  intros c. unfold Checker.imm32. destruct (_ ≫= _); simpl; (split; [by destruct c|lia]).
Qed.
Lemma moves_gets {A} (f : Checker -> A) : moves (gets f).
Proof. intros c. simpl. split; [by destruct c|lia]. Qed.
Lemma moves_expect {A} (o : option A) : moves (expect o).
Proof. destruct o; [apply moves_ret|done]. Qed.
Lemma moves_some_or {A} (o : option A) : moves (some_or o tt).
Proof. destruct o; [apply moves_ret|apply moves_none]. Qed.
Lemma moves_if {A} (b : bool) (d1 d2 : decoder A) :
  moves d1 -> moves d2 -> moves (if b then d1 else d2).
Proof. by destruct b. Qed.
Lemma moves_match_byte {A} b (arms : list (Z * decoder A)) :
  Forall (fun arm => moves arm.2) arms -> moves (match_byte b arms).
Proof.
  induction 1 as [|[p arm] arms Harm _ IH]; [apply moves_none|]. simpl. by apply moves_if.
Qed.

Ltac moves_tac :=
  repeat first
    [ apply moves_ret | apply moves_none | apply moves_byte | apply moves_imm32
    | apply moves_gets | apply moves_expect | apply moves_some_or
    | apply moves_bind; [|intros ?]
    | match goal with |- moves (let '(_, _) := ?p in _) => destruct p end
    | apply moves_if | apply moves_match_byte; repeat (constructor; simpl) ].

Lemma moves_decode_operation : moves decode_operation.
Proof.
  unfold decode_operation, decode_rex_b, decode_rex_r, decode_rex_rb, decode_rex_w,
    decode_rex_wb, decode_rex_wr, decode_rex_wrb, decode_0f, decode_binary_register,
    decode_immediate, decode_and_immediate8, decode_move_register_or_scratch,
    decode_load_or_scratch, decode_shift_immediate, conditional_jump_to, push_extended,
    pop_extended, last_byte, Checker.relative_target, on_byte, when_byte, two_bytes.
  moves_tac.
Qed.
