(* ===== verification/BpfLowering.v ===== *)
(** Classic BPF, native code, part 5: the lowering as data.

    [lower] gives, for one source instruction, the native operations that
    implement it, with symbolic branch targets. Both halves of the source are
    compared with it: the validator's walk over an instruction is a walk over
    its lowering ([validate_source_instruction_walk]), and the assembler emits
    the encoding of the lowering ([emit_instruction_lower]). *)

From S2P Require Import Prelude Effects BpfInstruction BpfProgram BpfNative BpfValidate BpfTranslate BpfX86.
Local Open Scope Z_scope.

(** ** Operations with symbolic targets *)

Inductive sop : Type :=
| Plain (op : NativeOp.t)
| Branch (c : Condition) (t : Target.t)
| Goto (t : Target.t).

Section Lower.
Import NativeOp.

Definition lower_prologue (profile : InputProfile) : list sop :=
  Plain <$>
  [Push Rbp; Push R12; Push R13; Push R14; Push R15;
   mov Width.Qword (register Rbp) (register Rsp);
   Binary Sub Width.Qword (register Rsp) (immediate 0x40)] ++
  match profile with
  | PacketContextBigEndian => [Load Width.Qword R12 Rdi 0; Load Width.Word R13d Rdi LEN_OFFSET]
  | _ => [mov Width.Qword (register R12) (register Rdi);
          mov Width.Word (register R13d) (register Esi)]
  end ++ [binary_xor Eax Eax; binary_xor Ecx Ecx].

Definition lower_failure : list sop := [Plain (binary_xor Eax Eax); Goto Target.Epilogue].

Definition lower_epilogue : list sop :=
  Plain <$>
  [Binary Add Width.Qword (register Rsp) (immediate 0x40);
   Pop R15; Pop R14; Pop R13; Pop R12; Pop Rbp; Return].

Definition lower_bounds (w : LoadWidth) : list sop :=
  [Plain (Compare Width.Word (register R13d) (immediate (width_bytes w)));
   Branch Below Target.Failure;
   Plain (mov Width.Word (register R15d) (register R13d));
   Plain (Binary Sub Width.Word (register R15d) (immediate (width_bytes w)));
   Plain (Compare Width.Word (register R15d) (register R14d));
   Branch Below Target.Failure].

Definition lower_address : list sop :=
  [Plain (Binary Add Width.Qword (register R14) (register R12));
   Branch Below Target.Failure;
   Plain SpeculationBarrier].

Definition lower_swap (w : LoadWidth) (profile : InputProfile) : list sop :=
  match profile, w with
  | (PacketBytesBigEndian | PacketContextBigEndian), Half =>
      [Plain (Unary RotateLeft Width.Half Eax 8)]
  | (PacketBytesBigEndian | PacketContextBigEndian), Word =>
      [Plain (Unary Bswap Width.Word Eax 0)]
  | _, _ => []
  end.

Definition lower_absolute (k : Z) (w : LoadWidth) (profile : InputProfile) : list sop :=
  match ancillary_from_offset k with
  | Some field =>
      [Plain (Load Width.Word Eax Rdi (METADATA_OFFSET + Ancillary.metadata_offset field))]
  | None =>
      [Plain (mov Width.Word (register R14d) (immediate k))] ++ lower_bounds w ++
      lower_address ++ [Plain (Load (native_load_width w) Eax R14 0)] ++
      lower_swap w profile
  end.

Definition lower_msh (k : Z) : list sop :=
  [Plain (mov Width.Word (register R14d) (immediate k))] ++ lower_bounds Byte ++
  lower_address ++
  [Plain (Load Width.Byte Ecx R14 0);
   Plain (Binary And Width.Word (register Ecx) (immediate 0x0f));
   Plain (ShiftImmediate ShiftLeft Width.Word Ecx 2)].

Definition lower_align (w : LoadWidth) (profile : InputProfile) : list sop :=
  match profile, w with
  | NativeAlignedWords, Word =>
      [Plain (Test Width.Byte (register R14d) (immediate 3)); Branch NotEqual Target.Failure]
  | _, _ => []
  end.

Definition lower_indirect (k : Z) (w : LoadWidth) (profile : InputProfile) : list sop :=
  [Plain (mov Width.Word (register R14d) (register Ecx));
   Plain (Binary Add Width.Word (register R14d) (immediate k));
   Branch Below Target.Failure] ++ lower_bounds w ++ lower_align w profile ++
  lower_address ++ [Plain (Load (native_load_width w) Eax R14 0)] ++ lower_swap w profile.

Definition lower_divide (divisor : Register) (is_mod : bool) : list sop :=
  [Plain (binary_xor Edx Edx); Plain (Divide Width.Word (register divisor))] ++
  (if is_mod then [Plain (mov Width.Word (register Eax) (register Edx))] else []).

Definition lower_shift (kind : ShiftKind) : list sop :=
  Plain <$>
  [mov Width.Word (register R14d) (register Ecx);
   Binary And Width.Word (register R14d) (immediate 0x1f);
   mov Width.Word (register R15d) (register Ecx);
   mov Width.Word (register Ecx) (register R14d);
   ShiftRegister kind Width.Word Eax;
   mov Width.Word (register Ecx) (register R15d)].

Definition word_op (kind : BinaryKind) (src : Operand.t) : list sop :=
  [Plain (Binary kind Width.Word (register Eax) src)].

Definition lower_jump (pc : Z) (i : Instruction) (compare : Operand.t -> t) (c : Condition)
    (src : Operand.t) : list sop :=
  [Plain (compare src); Branch c (Target.Source (pc + 1 + jt i));
   Goto (Target.Source (pc + 1 + jf i))].

Definition lower (profile : InputProfile) (pc : Z) (i : Instruction) (o : opcode) : list sop :=
  let a := register Eax in
  let x := register Ecx in
  let imm := immediate (k i) in
  let move d s := [Plain (mov Width.Word d s)] in
  let cmp := lower_jump pc i (Compare Width.Word a) in
  let tst := lower_jump pc i (Test Width.Word a) in
  match o with
  | LD_IMM => move a imm
  | LD_W_ABS => lower_absolute (k i) Word profile
  | LD_H_ABS => lower_absolute (k i) Half profile
  | LD_B_ABS => lower_absolute (k i) Byte profile
  | LD_W_IND => lower_indirect (k i) Word profile
  | LD_H_IND => lower_indirect (k i) Half profile
  | LD_B_IND => lower_indirect (k i) Byte profile
  | LD_MEM => move a (scratch_operand (k i) Rbp)
  | LD_LEN => move a (register R13d)
  | LDX_IMM => move x imm
  | LDX_MEM => move x (scratch_operand (k i) Rbp)
  | LDX_LEN => move x (register R13d)
  | LDX_B_MSH => lower_msh (k i)
  | ST => move (scratch_operand (k i) Rbp) a
  | STX => move (scratch_operand (k i) Rbp) x
  | ALU_ADD_K => word_op Add imm
  | ALU_ADD_X => word_op Add x
  | ALU_SUB_K => word_op Sub imm
  | ALU_SUB_X => word_op Sub x
  | ALU_MUL_K => [Plain (ImmediateMultiply Eax Eax (k i))]
  | ALU_MUL_X => word_op Mul x
  | ALU_DIV_K => move (register R14d) imm ++ lower_divide R14d false
  | ALU_MOD_K => move (register R14d) imm ++ lower_divide R14d true
  | ALU_DIV_X =>
      [Plain (Test Width.Word x x); Branch Equal Target.Failure] ++ lower_divide Ecx false
  | ALU_MOD_X =>
      [Plain (Test Width.Word x x); Branch Equal Target.Failure] ++ lower_divide Ecx true
  | ALU_OR_K => word_op Or imm
  | ALU_OR_X => word_op Or x
  | ALU_AND_K => word_op And imm
  | ALU_AND_X => word_op And x
  | ALU_LSH_K => [Plain (ShiftImmediate ShiftLeft Width.Word Eax (k i mod 256))]
  | ALU_LSH_X => lower_shift ShiftLeft
  | ALU_RSH_K => [Plain (ShiftImmediate ShiftRight Width.Word Eax (k i mod 256))]
  | ALU_RSH_X => lower_shift ShiftRight
  | ALU_NEG => [Plain (Unary Neg Width.Word Eax 0)]
  | ALU_XOR_K => word_op Xor imm
  | ALU_XOR_X => word_op Xor x
  | JMP_JA => [Goto (Target.Source (pc + 1 + k i))]
  | JMP_JEQ_K => cmp Equal imm
  | JMP_JEQ_X => cmp Equal x
  | JMP_JGT_K => cmp Above imm
  | JMP_JGT_X => cmp Above x
  | JMP_JGE_K => cmp AboveOrEqual imm
  | JMP_JGE_X => cmp AboveOrEqual x
  | JMP_JSET_K => tst NotEqual imm
  | JMP_JSET_X => tst NotEqual x
  | RET_K => move a imm ++ [Goto Target.Epilogue]
  | RET_A => [Goto Target.Epilogue]
  | MISC_TAX => move x a
  | MISC_TXA => move a x
  end.

End Lower.

(** ** The validator walks over lowerings *)

Section Walk.
Import Walk.

Definition walk_sop (pc : Z) (s : sop) : checking () :=
  match s with
  | Plain op => expect_op pc op
  | Branch c t => target ← expect_conditional_jump pc c; record_target pc target t
  | Goto t => target ← expect_jump pc; record_target pc target t
  end.

Definition walk (pc : Z) (l : list sop) : checking () := for_each l (walk_sop pc).

(** What the source contract leaves for the profile to decide. *)
Definition profile_serves (profile : InputProfile) (i : Instruction) (o : opcode) : bool :=
  match o with
  | LD_W_ABS | LD_H_ABS | LD_B_ABS =>
      is_context profile || negb (is_some (ancillary_from_offset (k i)))
  | LDX_B_MSH => negb (is_some (ancillary_from_offset (k i)))
  | _ => true
  end.

Lemma bind_ext {S E A B} (m : M S E A) (f g : A -> M S E B) s :
  (forall a s', f a s' = g a s') -> (m ≫= f) s = (m ≫= g) s.
Proof. intros H. unfold mbind, M_bind. by destruct (m s). Qed.

Lemma bind_assoc {S E A B C} (m : M S E A) (f : A -> M S E B) (g : B -> M S E C) s :
  ((m ≫= f) ≫= g) s = (m ≫= (fun a => f a ≫= g)) s.
Proof. unfold mbind, M_bind. by destruct (m s). Qed.

Lemma bind_ret_l {S E A B} (a : A) (f : A -> M S E B) s : (mret a ≫= f) s = f a s.
Proof. done. Qed.

Lemma for_each_cons {S E X} (x : X) l (body : X -> M S E ()) s :
  for_each (x :: l) body s = (body x ;; for_each l body) s.
Proof. done. Qed.

Lemma bind_ret_unit {S E} (m : M S E ()) s : m s = (m ;; mret tt) s.
Proof. unfold mbind, M_bind. by destruct (m s) as [[]| | |]. Qed.

(** Runs both sides of an equation one checking step at a time. *)
Ltac same_walk :=
  repeat first
    [ reflexivity
    | progress cbn [walk_sop]
    | rewrite bind_assoc
    | rewrite bind_ret_l
    | apply bind_ext; intros ? ?
    | apply bind_ret_unit ].

Lemma validate_prologue_walk profile c :
  validate_prologue profile c = walk 0 (lower_prologue profile) c.
Proof. destruct profile; unfold validate_prologue; same_walk. Qed.

Lemma validate_epilogue_walk c : validate_epilogue c = walk 0 lower_epilogue c.
Proof. unfold validate_epilogue; same_walk. Qed.

Lemma validate_absolute_load_walk profile pc kk w c :
  is_context profile || negb (is_some (ancillary_from_offset kk)) = true ->
  validate_absolute_load pc kk w profile c = walk pc (lower_absolute kk w profile) c.
Proof.
  unfold validate_absolute_load, lower_absolute, validate_bounds, validate_address_add.
  destruct (ancillary_from_offset kk) as [f|]; simpl.
  - rewrite orb_false_r. intros ->. simpl. rewrite bind_done with (a := position c) (s' := c) by done.
    destruct f; simpl; same_walk.
  - intros _. destruct profile, w; simpl; same_walk.
Qed.

Lemma validate_msh_walk profile pc kk c :
  negb (is_some (ancillary_from_offset kk)) = true ->
  validate_msh pc kk profile c = walk pc (lower_msh kk) c.
Proof.
  unfold validate_msh, validate_absolute_load_to_x, validate_bounds, validate_address_add.
  destruct (is_some _); [done|]. intros _. simpl. same_walk.
Qed.

Lemma validate_indirect_load_walk profile pc kk w c :
  validate_indirect_load pc kk w profile c = walk pc (lower_indirect kk w profile) c.
Proof.
  unfold validate_indirect_load, validate_bounds, validate_address_add.
  destruct profile, w; simpl; same_walk.
Qed.

Lemma validate_source_instruction_walk profile pc i o c :
  decode (code i) = Some o -> profile_serves profile i o = true ->
  validate_source_instruction pc i profile c = walk pc (lower profile pc i o) c.
Proof.
  intros Hdec Hserve. unfold validate_source_instruction. rewrite Hdec.
  assert (Z.land (code i) 0x08 = Z.land (code_of o) 0x08) as Hland
    by (by apply decode_Some in Hdec as ->).
  destruct o; simpl in Hserve |- *;
    auto using validate_absolute_load_walk, validate_msh_walk, validate_indirect_load_walk.
  all: unfold validate_conditional, expect_test, expect_compare, binary_kind,
    native_condition; rewrite ?Hdec, ?Hland; simpl.
  all: same_walk.
Qed.

End Walk.

(** ** Code in an image *)

Definition insn_of (off : Target.t -> Z) (s : sop) : option X86.insn :=
  match s with
  | Plain op => meaning op
  | Branch c t => Some (X86.Jcc (cc_of_condition c) (off t))
  | Goto t => Some (X86.Jmp (off t))
  end.

(** [code_at ok image p l p']: the instructions of the image from offset [p] to
    offset [p'] are, one by one, [ok] for the operations of [l]. *)
Inductive code_at (ok : sop -> X86.insn -> Prop) (image : list Z)
    : Z -> list sop -> Z -> Prop :=
| code_at_nil p : code_at ok image p [] p
| code_at_cons p s i p1 l p2 :
    ok s i -> X86.fetch image p = Some (i, p1) -> code_at ok image p1 l p2 ->
    code_at ok image p (s :: l) p2.

(** Exactly the instruction of an operation. *)
Definition exact (off : Target.t -> Z) (s : sop) (i : X86.insn) : Prop :=
  insn_of off s = Some i.

(** The instruction of an operation, or the unprefixed load the validator takes
    for a load through r14. *)
Definition exact_or_bare (off : Target.t -> Z) (s : sop) (i : X86.insn) : Prop :=
  exact off s i \/ (s = Plain bare_load /\ i = bare_load_insn).

Definition sop_small (s : sop) : bool :=
  match s with Plain op => small_immediate op | _ => true end.

Lemma code_at_app ok image p l1 p1 l2 p2 :
  code_at ok image p l1 p1 -> code_at ok image p1 l2 p2 -> code_at ok image p (l1 ++ l2) p2.
Proof. induction 1; [done|]. simpl. econstructor; eauto. Qed.

Lemma code_at_mono (ok ok' : sop -> X86.insn -> Prop) image p l p' :
  (forall s i, ok s i -> ok' s i) -> code_at ok image p l p' -> code_at ok' image p l p'.
Proof. intros Hok. induction 1; econstructor; eauto. Qed.

Section WalkSound.
Import Walk.
Variable off : Target.t -> Z.

Definition check_holds (t : TargetCheck) : Prop := actual t = off (expected t).

(** What one operation of a walk establishes. *)
Definition walked (c : Checker) (l : list sop) (c' : Checker) : Prop :=
  code_bytes c' = code_bytes c /\ 0 <= position c' /\
  (exists new, targets c' = targets c ++ new) /\
  (Forall check_holds (targets c') ->
   code_at (exact_or_bare off) (code_bytes c) (position c) l (position c')).

Lemma decode_next_Done c d c' :
  0 <= position c -> Forall in_u8 (code_bytes c) -> decode_next c = Done d c' ->
  c' = set_position (position c') c /\ 0 <= position c' /\
  (small_immediate (operation d) = true ->
   exists i, (meaning (operation d) = Some i \/
              operation d = bare_load /\ i = bare_load_insn) /\
     X86.fetch (code_bytes c) (position c) = Some (i, position c')).
Proof.
  intros Hp Hu8. unfold decode_next. pose proof (moves_decode_operation c) as Hm.
  destruct (decode_operation c) as [op c1|e c1| |] eqn:E; try done. intros [= <- <-].
  destruct Hm as [Hm ?]. split; [done|]. split; [lia|]. simpl. intros Hs.
  assert (Forall in_u8 (rest c)) as Hr by by apply Forall_drop.
  destruct (misread (rest c)) eqn:Hmis.
  - destruct (decode_operation_misread c op c1 Hp Hmis Hs E) as [-> Hf]. eauto.
  - destruct (decode_operation_sound c op c1 Hp Hr Hmis E) as (i & ? & ?). eauto.
Qed.

Lemma walk_sop_sound pc s c c' :
  0 <= position c -> Forall in_u8 (code_bytes c) -> sop_small s = true ->
  walk_sop pc s c = Done tt c' -> walked c [s] c'.
Proof.
  intros Hp Hu8 Hs Hw. destruct s as [op|cond t|t]; simpl in Hw.
  - unfold expect_op in Hw. apply bind_Done in Hw as (d & c1 & Hd & Hw).
    apply decode_next_Done in Hd as (Hc1 & Hp1 & Hf); [|done..].
    case_decide; [|done]. injection Hw as <-. subst op.
    destruct (Hf Hs) as (i & Hi & Hfetch). rewrite Hc1. split; [done|]. split; [done|].
    split; [exists []; by rewrite app_nil_r|]. intros _. econstructor; [|done|constructor].
    destruct Hi as [?|[-> ->]]; [by left|by right].
  - apply bind_Done in Hw as (t1 & c1 & Hd & Hw).
    unfold expect_conditional_jump in Hd. apply bind_Done in Hd as (d & c2 & Hd & Hj).
    apply decode_next_Done in Hd as (Hc2 & Hp2 & Hf); [|done..].
    destruct (operation d) as [| | | | | | | | | | | | |cond' tt'| |] eqn:Eop; try done.
    case_decide; [|done]. injection Hj as <- <-. injection Hw as <-. subst cond'.
    destruct (Hf eq_refl) as (i & [[= <-]|[? _]] & Hfetch); [|done].
    rewrite Hc2. split; [done|]. split; [done|]. split; [by eexists|]. simpl.
    intros [_ [? _]%Forall_cons]%Forall_app. econstructor; [|done|constructor].
    left. unfold exact. simpl. by rewrite <- H.
  - apply bind_Done in Hw as (t1 & c1 & Hd & Hw).
    unfold expect_jump in Hd. apply bind_Done in Hd as (d & c2 & Hd & Hj).
    apply decode_next_Done in Hd as (Hc2 & Hp2 & Hf); [|done..].
    destruct (operation d) as [| | | | | | | | | | | | | |tt'|] eqn:Eop; try done.
    injection Hj as <- <-. injection Hw as <-.
    destruct (Hf eq_refl) as (i & [[= <-]|[? _]] & Hfetch); [|done].
    rewrite Hc2. split; [done|]. split; [done|]. split; [by eexists|]. simpl.
    intros [_ [? _]%Forall_cons]%Forall_app. econstructor; [|done|constructor].
    left. unfold exact. simpl. by rewrite <- H.
Qed.

Lemma walked_app c l1 c1 l2 c2 :
  walked c l1 c1 -> walked c1 l2 c2 -> walked c (l1 ++ l2) c2.
Proof.
  intros (Hb1 & Hp1 & (n1 & Ht1) & Hc1) (Hb2 & Hp2 & (n2 & Ht2) & Hc2).
  split; [by rewrite Hb2|]. split; [done|].
  split; [exists (n1 ++ n2); by rewrite Ht2, Ht1, app_assoc|]. intros Hall.
  eapply code_at_app; [|rewrite <- Hb1; by apply Hc2].
  apply Hc1. rewrite Ht2 in Hall. by apply Forall_app in Hall as [? _].
Qed.

Lemma walk_sound pc l c c' :
  0 <= position c -> Forall in_u8 (code_bytes c) -> forallb sop_small l = true ->
  walk pc l c = Done tt c' -> walked c l c'.
Proof.
  revert c. induction l as [|s l IH]; intros c Hp Hu8 Hs Hw.
  - injection Hw as <-. split; [done|]. split; [done|].
    split; [exists []; by rewrite app_nil_r|]. intros _. constructor.
  - apply andb_true_iff in Hs as [Hs Hl]. unfold walk, for_each in Hw.
    apply bind_Done in Hw as ([] & c1 & H1 & H2).
    apply walk_sop_sound in H1; [|done..]. pose proof H1 as (Hb & Hp1 & _).
    apply (walked_app _ [s] c1); [done|]. apply IH; [done|by rewrite Hb|done|done].
Qed.

End WalkSound.

Lemma lower_small profile pc i o : forallb sop_small (lower profile pc i o) = true.
Proof.
  destruct o, profile; simpl; try done; unfold lower_absolute; by case_match.
Qed.
