(* ===== verification/BpfAssemble.v ===== *)
(** Classic BPF, native code, part 6: what the assembler writes.

    [encode_op] is the encoding the assembler uses for each operation of a
    lowering. The assembler emits a lowering with zero displacements
    ([emit_instruction_lower]), [resolve] replaces each displacement by the
    distance to its target ([resolve_patches]), and the resulting bytes decode
    to exactly the instructions of the lowering ([encoded_code_at]). *)

From S2P Require Import Prelude Effects BpfInstruction BpfProgram BpfNative BpfValidate BpfTranslate BpfX86 BpfLowering.
Local Open Scope Z_scope.

(** ** Encodings *)

Section Encode.
Import NativeOp.

Definition encode_move (d s : Operand.t) : list Z :=
  match d, s with
  | Operand.Register Eax, Operand.Register Ecx => [0x89; 0xc8]
  | Operand.Register Eax, Operand.Register Edx => [0x89; 0xd0]
  | Operand.Register Eax, Operand.Register R13d => [0x44; 0x89; 0xe8]
  | Operand.Register Ecx, Operand.Register Eax => [0x89; 0xc1]
  | Operand.Register Ecx, Operand.Register R13d => [0x44; 0x89; 0xe9]
  | Operand.Register Ecx, Operand.Register R14d => [0x44; 0x89; 0xf1]
  | Operand.Register Ecx, Operand.Register R15d => [0x44; 0x89; 0xf9]
  | Operand.Register R13d, Operand.Register Esi => [0x41; 0x89; 0xf5]
  | Operand.Register R14d, Operand.Register Ecx => [0x41; 0x89; 0xce]
  | Operand.Register R15d, Operand.Register Ecx => [0x41; 0x89; 0xcf]
  | Operand.Register R15d, Operand.Register R13d => [0x45; 0x89; 0xef]
  | Operand.Register Rbp, Operand.Register Rsp => [0x48; 0x89; 0xe5]
  | Operand.Register R12, Operand.Register Rdi => [0x49; 0x89; 0xfc]
  | Operand.Register Eax, Operand.Immediate v => 0xb8 :: to_le_bytes v
  | Operand.Register Ecx, Operand.Immediate v => 0xb9 :: to_le_bytes v
  | Operand.Register R14d, Operand.Immediate v => 0x41 :: 0xbe :: to_le_bytes v
  | Operand.Register Eax, Operand.Memory Rbp d => [0x8b; 0x45; d mod 256]
  | Operand.Register Ecx, Operand.Memory Rbp d => [0x8b; 0x4d; d mod 256]
  | Operand.Memory Rbp d, Operand.Register Eax => [0x89; 0x45; d mod 256]
  | Operand.Memory Rbp d, Operand.Register Ecx => [0x89; 0x4d; d mod 256]
  | _, _ => []
  end.

Definition encode_load (w : Width.t) (d base : Register) (disp : Z) : list Z :=
  match w, d, base with
  | Width.Byte, Eax, R14 => [0x41; 0x0f; 0xb6; 0x06]
  | Width.Byte, Ecx, R14 => [0x41; 0x0f; 0xb6; 0x0e]
  | Width.Half, Eax, R14 => [0x41; 0x0f; 0xb7; 0x06]
  | Width.Word, Eax, R14 => [0x41; 0x8b; 0x06]
  | Width.Word, Eax, Rdi => [0x8b; 0x47; disp mod 256]
  | Width.Word, R13d, Rdi => [0x44; 0x8b; 0x6f; disp mod 256]
  | Width.Qword, R12, Rdi => [0x4c; 0x8b; 0x27]
  | _, _, _ => []
  end.

Definition encode_binary (kind : BinaryKind) (d s : Operand.t) : list Z :=
  match d, s with
  | Operand.Register Eax, Operand.Register Ecx =>
      match kind with
      | Add => [0x01; 0xc8] | Or => [0x09; 0xc8] | And => [0x21; 0xc8]
      | Sub => [0x29; 0xc8] | Xor => [0x31; 0xc8] | Mul => [0x0f; 0xaf; 0xc1]
      end
  | Operand.Register Eax, Operand.Register Eax => [0x31; 0xc0]
  | Operand.Register Ecx, Operand.Register Ecx => [0x31; 0xc9]
  | Operand.Register Edx, Operand.Register Edx => [0x31; 0xd2]
  | Operand.Register R14, Operand.Register R12 => [0x4d; 0x01; 0xe6]
  | Operand.Register Eax, Operand.Immediate v =>
      match kind with
      | Add => 0x05 | Or => 0x0d | And => 0x25 | Sub => 0x2d | _ => 0x35
      end :: to_le_bytes v
  | Operand.Register R14d, Operand.Immediate v =>
      match kind with
      | Add => 0x41 :: 0x81 :: 0xc6 :: to_le_bytes v
      | _ => [0x41; 0x83; 0xe6; v]
      end
  | Operand.Register R15d, Operand.Immediate v => [0x41; 0x83; 0xef; v]
  | Operand.Register Ecx, Operand.Immediate v => [0x83; 0xe1; v]
  | Operand.Register Rsp, Operand.Immediate v =>
      [0x48; 0x83; match kind with Add => 0xc4 | _ => 0xec end; v]
  | _, _ => []
  end.

Definition encode_op (op : t) : list Z :=
  match op with
  | Push Rbp => [0x55]
  | Push R12 => [0x41; 0x54]
  | Push R13 => [0x41; 0x55]
  | Push R14 => [0x41; 0x56]
  | Push _ => [0x41; 0x57]
  | Pop Rbp => [0x5d]
  | Pop R12 => [0x41; 0x5c]
  | Pop R13 => [0x41; 0x5d]
  | Pop R14 => [0x41; 0x5e]
  | Pop _ => [0x41; 0x5f]
  | Mov _ d s => encode_move d s
  | Load w d base disp => encode_load w d base disp
  | Binary kind _ d s => encode_binary kind d s
  | ImmediateMultiply _ _ v => 0x69 :: 0xc0 :: to_le_bytes v
  | Compare _ (Operand.Register R13d) (Operand.Immediate v) => [0x41; 0x83; 0xfd; v]
  | Compare _ (Operand.Register R15d) _ => [0x45; 0x39; 0xf7]
  | Compare _ _ (Operand.Immediate v) => 0x3d :: to_le_bytes v
  | Compare _ _ _ => [0x39; 0xc8]
  | Test _ (Operand.Register R14d) _ => [0x41; 0xf6; 0xc6; 0x03]
  | Test _ (Operand.Register Ecx) _ => [0x85; 0xc9]
  | Test _ _ (Operand.Immediate v) => 0xa9 :: to_le_bytes v
  | Test _ _ _ => [0x85; 0xc8]
  | ShiftImmediate ShiftLeft _ Ecx n => [0xc1; 0xe1; n]
  | ShiftImmediate ShiftLeft _ _ n => [0xc1; 0xe0; n]
  | ShiftImmediate ShiftRight _ _ n => [0xc1; 0xe8; n]
  | ShiftRegister ShiftLeft _ _ => [0xd3; 0xe0]
  | ShiftRegister ShiftRight _ _ => [0xd3; 0xe8]
  | Unary Neg _ _ _ => [0xf7; 0xd8]
  | Unary Bswap _ _ _ => [0x0f; 0xc8]
  | Unary RotateLeft _ _ n => [0x66; 0xc1; 0xc0; n]
  | Divide _ (Operand.Register R14d) => [0x41; 0xf7; 0xf6]
  | Divide _ _ => [0xf7; 0xf1]
  | SpeculationBarrier => [0x0f; 0xae; 0xe8]
  | Return => [0xc3]
  | ConditionalJump _ _ | Jump _ => []
  end.

End Encode.

Definition condition_code (c : Condition) : Z :=
  match c with
  | Below => 0x82 | AboveOrEqual => 0x83 | Equal => 0x84 | NotEqual => 0x85 | Above => 0x87
  end.

(** A jump's opcode bytes; its displacement follows. *)
Definition jump_head (s : sop) : list Z :=
  match s with
  | Plain op => encode_op op
  | Branch c _ => [0x0f; condition_code c]
  | Goto _ => [0xe9]
  end.

Definition jump_target (s : sop) : option Target.t :=
  match s with Plain _ => None | Branch _ t | Goto t => Some t end.

Definition sop_size (s : sop) : Z :=
  zlen (jump_head s) + match jump_target s with Some _ => 4 | None => 0 end.

Definition code_size (l : list sop) : Z := foldr (fun s n => sop_size s + n) 0 l.

(** The encoding of [l] placed at offset [p]; [disp end_ t] is the displacement
    written for target [t] in a jump that ends at [end_]. *)
Fixpoint encode (disp : Z -> Target.t -> Z) (p : Z) (l : list sop) : list Z :=
  match l with
  | [] => []
  | s :: l =>
      jump_head s ++
      match jump_target s with Some t => to_le_bytes (disp (p + sop_size s) t) | None => [] end ++
      encode disp (p + sop_size s) l
  end.

Definition no_disp (_ : Z) (_ : Target.t) : Z := 0.
Definition to_target (off : Target.t -> Z) (end_ : Z) (t : Target.t) : Z := off t - end_.

(** The patches of an encoding placed at [p]. *)
Definition fixup_of (t : Target.t) : Fixup.target :=
  match t with
  | Target.Source pc => Fixup.Pc pc
  | Target.Failure => Fixup.Failure
  | Target.Epilogue => Fixup.Epilogue
  end.

Fixpoint patches_of (p : Z) (l : list sop) : list Patch :=
  match l with
  | [] => []
  | s :: l =>
      match jump_target s with
      | Some t => [mkPatch (p + zlen (jump_head s)) (fixup_of t)]
      | None => []
      end ++ patches_of (p + sop_size s) l
  end.

(** ** The assembler emits the lowering *)

Definition appended (a : Assembler) (l : list sop) (bs : list BranchSite) : Assembler :=
  mkAssembler (asm_bytes a ++ encode no_disp (zlen (asm_bytes a)) l)
    (asm_patches a ++ patches_of (zlen (asm_bytes a)) l) (asm_branches a ++ bs).

Lemma zlen_app {A} (l1 l2 : list A) : zlen (l1 ++ l2) = zlen l1 + zlen l2.
Proof. unfold zlen. rewrite length_app. lia. Qed.

(** The branch record of a jump placed at [p]. *)
Definition site_of (p pc : Z) (i : Instruction) (o : opcode) : list BranchSite :=
  let record t f at1 at2 :=
    [mkBranchSite (wrap_u32 pc) (wrap_u32 t) (wrap_u32 f) (wrap_u32 at1) (wrap_u32 at2)] in
  match o with
  | JMP_JA => record (pc + 1 + k i) (pc + 1 + k i) (p + 1) (p + 1)
  | JMP_JEQ_K | JMP_JGT_K | JMP_JGE_K | JMP_JSET_K =>
      record (pc + 1 + jt i) (pc + 1 + jf i) (p + 7) (p + 12)
  | JMP_JEQ_X | JMP_JGT_X | JMP_JGE_X | JMP_JSET_X =>
      record (pc + 1 + jt i) (pc + 1 + jf i) (p + 4) (p + 9)
  | _ => []
  end.

Lemma zlen_to_le_bytes v : zlen (to_le_bytes v) = 4.
Proof. done. Qed.

Lemma code_size_app l1 l2 : code_size (l1 ++ l2) = code_size l1 + code_size l2.
Proof. unfold code_size. induction l1 as [|s l1 IH]; simpl; lia. Qed.

Lemma zlen_encode disp p l : zlen (encode disp p l) = code_size l.
Proof.
  revert p. induction l as [|s l IH]; intros p; [done|]. simpl.
  rewrite !zlen_app, IH. unfold sop_size. destruct (jump_target s); simpl;
    rewrite ?zlen_to_le_bytes; unfold zlen; simpl; lia.
Qed.

Lemma encode_app disp p l1 l2 :
  encode disp p (l1 ++ l2) = encode disp p l1 ++ encode disp (p + code_size l1) l2.
Proof.
  revert p. induction l1 as [|s l1 IH]; intros p; simpl; [by rewrite Z.add_0_r|].
  rewrite IH, <- !app_assoc. do 4 f_equal. lia.
Qed.

Lemma patches_of_app p l1 l2 :
  patches_of p (l1 ++ l2) = patches_of p l1 ++ patches_of (p + code_size l1) l2.
Proof.
  revert p. induction l1 as [|s l1 IH]; intros p; simpl; [by rewrite Z.add_0_r|].
  rewrite IH, <- !app_assoc. do 3 f_equal. lia.
Qed.

(** [emits m l]: the method emits the lowering [l] and records no branch. *)
Definition emits (m : Assembler.emitting ()) (l : list sop) : Prop :=
  forall a, m a = Done tt (appended a l []).

Lemma appended_app a l1 l2 bs1 bs2 :
  appended (appended a l1 bs1) l2 bs2 = appended a (l1 ++ l2) (bs1 ++ bs2).
Proof.
  unfold appended. simpl. rewrite zlen_app, zlen_encode, encode_app, patches_of_app.
  by rewrite <- !app_assoc.
Qed.

Lemma zlen_appended a l bs :
  zlen (asm_bytes (appended a l bs)) = zlen (asm_bytes a) + code_size l.
Proof. unfold appended. simpl. by rewrite zlen_app, zlen_encode. Qed.

Lemma emits_ret : emits (mret tt) [].
Proof. intros [b ps brs]. unfold appended. simpl. by rewrite !app_nil_r. Qed.

Lemma emits_bind m1 m2 l1 l2 : emits m1 l1 -> emits m2 l2 -> emits (m1 ;; m2) (l1 ++ l2).
Proof.
  intros H1 H2 a. rewrite (bind_done _ _ _ _ _ (H1 a)), H2. by rewrite appended_app.
Qed.

Lemma encode_plain disp p ops : encode disp p (Plain <$> ops) = concat (encode_op <$> ops).
Proof. revert p. induction ops as [|op ops IH]; intros p; [done|]. simpl. by rewrite IH. Qed.

Lemma patches_of_plain p ops : patches_of p (Plain <$> ops) = [].
Proof. revert p. induction ops as [|op ops IH]; intros p; [done|]. simpl. by rewrite IH. Qed.

Lemma emits_emit bs ops : concat (encode_op <$> ops) = bs ->
  emits (Assembler.emit bs) (Plain <$> ops).
Proof.
  intros <- [b ps brs]. unfold Assembler.emit, modify, appended. simpl.
  by rewrite encode_plain, patches_of_plain, !app_nil_r.
Qed.

Lemma emits_emit_u32 bs v op : bs ++ to_le_bytes v = encode_op op ->
  emits (Assembler.emit bs ;; Assembler.u32 v) [Plain op].
Proof.
  intros Hop [b ps brs]. unfold appended. simpl. rewrite <- Hop.
  unfold Assembler.u32, Assembler.emit, modify, mbind, M_bind. simpl.
  by rewrite !app_nil_r, <- app_assoc.
Qed.

Lemma emit_jump_run s t a :
  jump_target s = Some t ->
  (Assembler.emit (jump_head s) ;; Assembler.emit_displacement (fixup_of t)) a =
  Done (zlen (asm_bytes a) + zlen (jump_head s)) (appended a [s] []).
Proof.
  intros Ht. destruct a as [b ps brs]. unfold appended. simpl. rewrite Ht.
  unfold Assembler.emit_displacement, Assembler.u32, Assembler.emit, modify, mbind, M_bind,
    gets. simpl.
  by rewrite !app_nil_r, <- !app_assoc, zlen_app.
Qed.

Lemma emits_jcc c t : emits (Assembler.jcc_ (condition_code c) (fixup_of t)) [Branch c t].
Proof.
  intros a. unfold Assembler.jcc_.
  by rewrite (bind_done _ _ _ _ _ (emit_jump_run (Branch c t) t a eq_refl)).
Qed.

Lemma emits_jump t : emits (Assembler.emit_jump_ (fixup_of t)) [Goto t].
Proof.
  intros a. unfold Assembler.emit_jump_.
  by rewrite (bind_done _ _ _ _ _ (emit_jump_run (Goto t) t a eq_refl)).
Qed.

Lemma emit_prologue_lower profile :
  emits (Assembler.emit_prologue profile) (lower_prologue profile).
Proof.
  unfold Assembler.emit_prologue, lower_prologue. rewrite !fmap_app.
  apply emits_bind; [by apply emits_emit|].
  apply emits_bind; [destruct profile; by apply emits_emit|by apply emits_emit].
Qed.

Lemma emit_epilogue_lower : emits Assembler.emit_epilogue lower_epilogue.
Proof. by apply emits_emit. Qed.

Lemma emit_zero_return_lower : emits Assembler.emit_zero_return lower_failure.
Proof.
  apply (emits_bind _ _ [Plain (binary_xor Eax Eax)]); [|apply (emits_jump Target.Epilogue)].
  by apply (emits_emit _ [binary_xor Eax Eax]).
Qed.

(** Emits the first operations of the lowering, one method at a time. *)
Ltac emits_step :=
  match goal with
  | |- emits _ [Plain ?op] => first [by apply (emits_emit _ [op]) | by apply emits_emit_u32]
  | |- emits (_ ;; _) (?s :: ?l) => apply (emits_bind _ _ [s] l)
  | |- emits _ [Branch ?c ?t] => apply (emits_jcc c t)
  | |- emits _ [Goto ?t] => apply (emits_jump t)
  | |- emits _ [] => apply emits_ret
  end.

Lemma emit_bounds_lower w : emits (Assembler.emit_bounds w) (lower_bounds w).
Proof. unfold Assembler.emit_bounds, lower_bounds. destruct w; repeat emits_step. Qed.

Lemma emit_bounds_ind_lower w profile :
  emits (Assembler.emit_bounds_ind w profile) (lower_bounds w ++ lower_align w profile).
Proof.
  unfold Assembler.emit_bounds_ind, lower_bounds.
  destruct w, profile; simpl; repeat emits_step.
Qed.

Lemma emit_address_lower m l :
  emits m l ->
  emits (Assembler.add_r14_r12 ;; Assembler.emit_speculation_barrier ;; m)
    (lower_address ++ l).
Proof.
  intros Hm. change (lower_address ++ l) with (take 2 lower_address ++ drop 2 lower_address ++ l).
  unfold Assembler.add_r14_r12.
  apply emits_bind; [simpl; repeat emits_step|]. apply emits_bind; [simpl; repeat emits_step|done].
Qed.

Lemma emit_load_lower w profile :
  emits (Assembler.emit_load_r14 w profile)
    ([Plain (NativeOp.Load (native_load_width w) Eax R14 0)] ++ lower_swap w profile).
Proof. unfold Assembler.emit_load_r14. destruct w, profile; simpl; repeat emits_step. Qed.

Lemma emit_abs_load_lower kk w profile :
  is_context profile || negb (is_some (ancillary_from_offset kk)) = true ->
  emits (Assembler.emit_abs_load kk w profile) (lower_absolute kk w profile).
Proof.
  unfold Assembler.emit_abs_load, lower_absolute.
  destruct (ancillary_from_offset kk) as [f|]; cbn [is_some negb].
  - rewrite orb_false_r. intros ->. apply (emits_bind _ _ []); [apply emits_ret|].
    apply (emits_bind _ _ []); [destruct f; apply emits_ret|]. destruct f; repeat emits_step.
  - intros _. apply (emits_bind _ _ [_]); [repeat emits_step|].
    apply emits_bind; [apply emit_bounds_lower|]. apply emit_address_lower, emit_load_lower.
Qed.

Lemma emit_msh_lower kk profile :
  negb (is_some (ancillary_from_offset kk)) = true ->
  emits (Assembler.emit_abs_load_to_x kk profile ;;
         Assembler.emit [0x83; 0xe1; 0x0f; 0xc1; 0xe1; 0x02]) (lower_msh kk).
Proof.
  intros Ha. unfold lower_msh.
  change [Plain (NativeOp.Load Width.Byte Ecx R14 0); ?a; ?b] with
    ([Plain (NativeOp.Load Width.Byte Ecx R14 0)] ++ [a; b]).
  rewrite !app_assoc. apply emits_bind; [|by apply (emits_emit _ [_; _])].
  rewrite <- !app_assoc. unfold Assembler.emit_abs_load_to_x. rewrite Ha.
  apply (emits_bind _ _ []); [apply emits_ret|].
  apply (emits_bind _ _ [_]); [repeat emits_step|].
  apply emits_bind; [apply emit_bounds_lower|].
  apply emit_address_lower. repeat emits_step.
Qed.

Lemma emit_ind_load_lower kk w profile :
  emits (Assembler.emit_ind_load kk w profile) (lower_indirect kk w profile).
Proof.
  unfold lower_indirect, Assembler.emit_ind_load.
  apply (emits_bind _ _ [_]); [repeat emits_step|].
  intros a. rewrite <- bind_assoc. revert a.
  apply (emits_bind _ _ [_]); [repeat emits_step|]. apply (emits_bind _ _ [_]); [repeat emits_step|].
  rewrite ?app_nil_l, (app_assoc (lower_bounds w)).
  apply emits_bind; [apply emit_bounds_ind_lower|].
  apply emit_address_lower, emit_load_lower.
Qed.

Lemma as_i8_mod z : as_i8 z mod 256 = z mod 256.
Proof. unfold as_i8. Z.div_mod_to_equations. lia. Qed.

Lemma scratch_disp_byte index :
  Assembler.scratch_disp index = scratch_displacement index mod 256.
Proof. unfold Assembler.scratch_disp, scratch_displacement. by rewrite as_i8_mod. Qed.

Lemma emits_three x y z op :
  [x; y; z] = encode_op op ->
  emits (Assembler.emit [x] ;; Assembler.emit [y] ;; Assembler.emit [z]) [Plain op].
Proof.
  intros Hop [b ps brs]. unfold appended. simpl. rewrite <- Hop.
  unfold Assembler.emit, modify, mbind, M_bind. simpl.
  by rewrite !app_nil_r, <- !app_assoc.
Qed.

Lemma emit_divide_lower divisor is_mod (m : list Z) :
  m = encode_op (binary_xor Edx Edx) ++ encode_op (NativeOp.Divide Width.Word (register divisor)) ->
  emits (Assembler.emit m ;;
         if is_mod : bool then Assembler.emit [0x89; 0xd0] else mret tt)
    (lower_divide divisor is_mod).
Proof.
  intros ->. apply emits_bind; [|destruct is_mod; repeat emits_step].
  apply (emits_emit _ [_; _]). simpl. by rewrite app_nil_r.
Qed.

Lemma emit_divide_imm_lower kk is_mod :
  emits (Assembler.div_imm kk is_mod)
    ([Plain (mov Width.Word (register R14d) (immediate kk))] ++ lower_divide R14d is_mod).
Proof.
  apply emits_bind; [repeat emits_step|]. by apply emit_divide_lower.
Qed.

Lemma emit_divide_x_lower is_mod :
  emits (Assembler.div_x is_mod)
    ([Plain (NativeOp.Test Width.Word (register Ecx) (register Ecx));
      Branch Equal Target.Failure] ++ lower_divide Ecx is_mod).
Proof.
  apply (emits_bind _ _ [_]); [repeat emits_step|].
  apply (emits_bind _ _ [_]); [repeat emits_step|]. by apply emit_divide_lower.
Qed.

(** The conditional jumps: the comparison, the two jumps, the branch record. *)
Lemma emit_conditional_run (cond : Condition) kk i x_source pc op a :
  emits (if x_source && (condition_code cond =? 0x85) then Assembler.emit [0x85; 0xc8]
         else if x_source then Assembler.emit [0x39; 0xc8]
         else if condition_code cond =? 0x85 then Assembler.emit [0xa9] ;; Assembler.u32 kk
         else Assembler.emit [0x3d] ;; Assembler.u32 kk) [Plain op] ->
  let p := zlen (asm_bytes a) + zlen (encode_op op) in
  Assembler.emit_conditional (condition_code cond) kk i x_source pc a =
  Done tt (appended a
    [Plain op; Branch cond (Target.Source (pc + 1 + jt i));
     Goto (Target.Source (pc + 1 + jf i))]
    [mkBranchSite (wrap_u32 pc) (wrap_u32 (pc + 1 + jt i)) (wrap_u32 (pc + 1 + jf i))
       (wrap_u32 (p + 2)) (wrap_u32 (p + 7))]).
Proof.
  intros Hop p. unfold Assembler.emit_conditional.
  rewrite (bind_done _ _ _ _ _ (Hop a)).
  rewrite (bind_done _ _ _ _ _
    (emit_jump_run (Branch cond (Target.Source (pc + 1 + jt i))) _ _ eq_refl)).
  rewrite (bind_done _ _ _ _ _
    (emit_jump_run (Goto (Target.Source (pc + 1 + jf i))) _ _ eq_refl)).
  rewrite !appended_app, !zlen_appended. unfold Assembler.push_branch, modify. f_equal.
  unfold appended. simpl asm_bytes. simpl asm_patches. simpl asm_branches.
  rewrite app_nil_r. do 5 f_equal; unfold p, code_size, sop_size; simpl;
    rewrite ?Z.add_0_r; unfold zlen; simpl; lia.
Qed.

Lemma emit_jump_always_run pc kk a :
  Assembler.emit_jump_always pc kk a =
  Done tt (appended a [Goto (Target.Source (pc + 1 + kk))]
    [mkBranchSite (wrap_u32 pc) (wrap_u32 (pc + 1 + kk)) (wrap_u32 (pc + 1 + kk))
       (wrap_u32 (zlen (asm_bytes a) + 1)) (wrap_u32 (zlen (asm_bytes a) + 1))]).
Proof.
  unfold Assembler.emit_jump_always. cbv zeta.
  rewrite (bind_done _ _ _ _ _
    (emit_jump_run (Goto (Target.Source (pc + 1 + kk))) _ _ eq_refl)).
  unfold Assembler.push_branch, modify, appended. simpl. by rewrite app_nil_r.
Qed.

Lemma with_site (m : Assembler.emitting ()) l a bs :
  emits m l -> bs = [] -> m a = Done tt (appended a l bs).
Proof. by intros Hm ->. Qed.

(** The lemma for each emitting method. *)
Ltac emits_method :=
  match goal with
  | |- emits (Assembler.emit_abs_load _ _ _) _ => by apply emit_abs_load_lower
  | |- emits (Assembler.emit_ind_load _ _ _) _ => apply emit_ind_load_lower
  | |- emits (Assembler.emit_abs_load_to_x _ _ ;; _) _ => by apply emit_msh_lower
  | |- emits (Assembler.div_imm _ _) _ => apply emit_divide_imm_lower
  | |- emits (Assembler.div_x _) _ => apply emit_divide_x_lower
  | |- emits (Assembler.emit _) _ => by apply (emits_emit _ [_])
  | |- emits (Assembler.shift_imm _ _ _) _ => by apply (emits_emit _ [_])
  | |- emits (Assembler.shift_x _ _) _ => by apply (emits_emit _ [_; _; _; _; _; _])
  | |- emits (Assembler.load_scratch _ _) _ =>
      unfold Assembler.load_scratch; rewrite scratch_disp_byte; by apply emits_three
  | |- emits (Assembler.store_scratch _ _) _ =>
      unfold Assembler.store_scratch; rewrite scratch_disp_byte; by apply emits_three
  | |- emits (Assembler.emit_jump_ _) _ => apply (emits_jump Target.Epilogue)
  | |- emits (Assembler.mov_eax_imm _ ;; _) _ =>
      apply (emits_bind _ _ [_]); [by apply emits_emit_u32|apply (emits_jump Target.Epilogue)]
  | |- emits _ _ => by apply emits_emit_u32
  end.

Lemma emit_instruction_lower profile pc i o a :
  decode (code i) = Some o -> profile_serves profile i o = true ->
  Assembler.emit_instruction pc i profile a =
  Done tt (appended a (lower profile pc i o) (site_of (zlen (asm_bytes a)) pc i o)).
Proof.
  intros Hdec Hserve. unfold Assembler.emit_instruction. rewrite Hdec.
  destruct o; cbn [profile_serves lower site_of] in *; cbv zeta.
  all: try (apply with_site; [emits_method|done]).
  1: apply (emit_jump_always_run pc (k i) a).
  all: match goal with
  | |- Assembler.emit_conditional _ ?kk ?j ?x ?n ?b =
         Done tt (appended _ (lower_jump _ _ ?cmp ?c ?src) _) =>
      etransitivity; [apply (emit_conditional_run c kk j x n (cmp src) b); repeat emits_step|]
  end.
  all: unfold lower_jump; do 5 f_equal; rewrite <- Z.add_assoc; done.
Qed.

(** ** The encodings decode to the operations *)

Lemma le_roundtrip v : from_le_bytes (to_le_bytes v) = v mod 4294967296.
Proof. unfold from_le_bytes, to_le_bytes. simpl. Z.div_mod_to_equations. lia. Qed.

Lemma as_i32_le v : -2147483648 <= v <= 2147483647 -> as_i32 (from_le_bytes (to_le_bytes v)) = v.
Proof. intros. rewrite le_roundtrip. unfold as_i32. Z.div_mod_to_equations. lia. Qed.

Lemma imm_roundtrip v :
  in_u32 v ->
  X86.wrap X86.S32 (as_i32 (from_le_bytes
    [v mod 256; v / 256 mod 256; v / 65536 mod 256; v / 16777216 mod 256])) = v.
Proof.
  intros Hv. fold (to_le_bytes v). rewrite le_roundtrip, wrap_imm32; fold (wrap_u32 v);
    [by apply wrap_u32_id|apply wrap_u32_range].
Qed.

Lemma disp8_roundtrip d : -128 <= d <= 127 -> as_i8 (d mod 256) = d.
Proof. intros. unfold as_i8. Z.div_mod_to_equations. lia. Qed.

(** A non-jump whose encoding decodes to its meaning, whatever follows it. *)
Definition encodes (s : sop) : Prop :=
  match s with
  | Plain op => forall tail, exists i,
      meaning op = Some i /\ (forall n, X86.retarget n i = i) /\
      X86.decode_insn (encode_op op ++ tail) = Some (i, zlen (encode_op op))
  | Branch _ _ | Goto _ => True
  end.

Ltac encodes_leaf :=
  intros tail; eexists; (split; [reflexivity|]); (split; [done|]);
  first
    [ reflexivity
    | lazy -[X86.wrap as_i32 from_le_bytes as_i8 Z.modulo Z.div scratch_displacement k];
      rewrite ?imm_roundtrip, ?disp8_roundtrip by done; reflexivity ].

Lemma lower_prologue_encodes profile : Forall encodes (lower_prologue profile).
Proof. destruct profile; repeat constructor; encodes_leaf. Qed.

Lemma lower_failure_encodes : Forall encodes lower_failure.
Proof. repeat constructor; encodes_leaf. Qed.

Lemma lower_epilogue_encodes : Forall encodes lower_epilogue.
Proof. repeat constructor; encodes_leaf. Qed.

Lemma scratch_displacement_range kk : -128 <= scratch_displacement kk <= 127.
Proof. unfold scratch_displacement, as_i8. Z.div_mod_to_equations. lia. Qed.

Lemma lower_absolute_encodes kk w profile :
  in_u32 kk -> Forall encodes (lower_absolute kk w profile).
Proof.
  intros Hk. unfold lower_absolute. destruct (ancillary_from_offset kk) as [f|].
  - destruct f; repeat constructor; encodes_leaf.
  - destruct w, profile; repeat constructor; encodes_leaf.
Qed.

Lemma lower_indirect_encodes kk w profile :
  in_u32 kk -> Forall encodes (lower_indirect kk w profile).
Proof. intros Hk. destruct w, profile; repeat constructor; encodes_leaf. Qed.

Lemma lower_encodes profile pc i o :
  instruction_typed i -> Forall encodes (lower profile pc i o).
Proof.
  intros (_ & _ & _ & Hk). pose proof (scratch_displacement_range (k i)) as Hs.
  destruct o; cbn [lower]; cbv zeta; auto using lower_absolute_encodes, lower_indirect_encodes.
  all: repeat constructor; encodes_leaf.
Qed.

Definition I32_MAX : Z := 2147483647.

Lemma fetch_app pre tail i n :
  X86.decode_insn tail = Some (i, n) ->
  X86.fetch (pre ++ tail) (zlen pre) = Some (X86.retarget (zlen pre + n) i, zlen pre + n).
Proof.
  intros Hd. unfold X86.fetch. pose proof (zlen_nonneg pre).
  destruct (Z.ltb_spec (zlen pre) 0); [lia|]. replace (Z.to_nat (zlen pre)) with (length pre) by (unfold zlen; lia).
  rewrite drop_app_length. by rewrite Hd.
Qed.

Lemma sop_size_nonneg s : 0 <= sop_size s.
Proof. unfold sop_size. pose proof (zlen_nonneg (jump_head s)). case_match; lia. Qed.

Lemma code_size_nonneg l : 0 <= code_size l.
Proof.
  unfold code_size. induction l as [|s l IH]; simpl; [lia|]. pose proof (sop_size_nonneg s). lia.
Qed.

Lemma code_size_cons s l : code_size (s :: l) = sop_size s + code_size l.
Proof. done. Qed.

Section Encoded.
Variable off : Target.t -> Z.
Hypothesis off_range : forall t, 0 <= off t <= I32_MAX.

Lemma encoded_head s pre tail :
  encodes s -> zlen pre + sop_size s <= I32_MAX ->
  exists i, exact off s i /\
    X86.fetch (pre ++ jump_head s ++
      match jump_target s with
      | Some t => to_le_bytes (to_target off (zlen pre + sop_size s) t)
      | None => []
      end ++ tail) (zlen pre) = Some (i, zlen pre + sop_size s).
Proof.
  intros Henc Hsize. pose proof (zlen_nonneg pre). pose proof (sop_size_nonneg s).
  unfold I32_MAX, exact, to_target in *. destruct s as [op|c t|t]; simpl.
  - destruct (Henc tail) as (i & Hi & Hre & Hd). exists i. split; [done|].
    rewrite (fetch_app _ _ _ _ Hd), Hre. unfold sop_size. simpl. by rewrite Z.add_0_r.
  - pose proof (off_range t). eexists. split; [done|].
    set (d := off t - _). assert (as_i32 (from_le_bytes (to_le_bytes d)) = d) as Hd
      by (apply as_i32_le; unfold d; lia).
    erewrite (fetch_app pre _ (X86.Jcc (cc_of_condition c) d) 6).
    + change (sop_size (Branch c t)) with 6 in *. simpl. unfold d. do 4 f_equal. lia.
    + transitivity (Some (X86.Jcc (cc_of_condition c)
        (as_i32 (from_le_bytes (to_le_bytes d))), 6)); [by destruct c|by rewrite Hd].
  - pose proof (off_range t). eexists. split; [done|].
    set (d := off t - _). assert (as_i32 (from_le_bytes (to_le_bytes d)) = d) as Hd
      by (apply as_i32_le; unfold d; lia).
    erewrite (fetch_app pre _ (X86.Jmp d) 5).
    + change (sop_size (Goto t)) with 5 in *. simpl. unfold d. do 4 f_equal. lia.
    + transitivity (Some (X86.Jmp (as_i32 (from_le_bytes (to_le_bytes d))), 5));
        [done|by rewrite Hd].
Qed.

Lemma encoded_code_at l pre post :
  Forall encodes l -> zlen pre + code_size l <= I32_MAX ->
  code_at (exact off) (pre ++ encode (to_target off) (zlen pre) l ++ post) (zlen pre) l
    (zlen pre + code_size l).
Proof.
  intros Henc. revert pre. induction Henc as [|s l Hs Hl IH]; intros pre Hsize.
  - rewrite Z.add_0_r. constructor.
  - rewrite code_size_cons in *. pose proof (code_size_nonneg l). simpl encode.
    set (bs := match jump_target s with Some _ => _ | None => _ end).
    destruct (encoded_head s pre (encode (to_target off) (zlen pre + sop_size s) l ++ post))
      as (i & Hi & Hf); [done|lia|]. fold bs in Hf.
    assert (zlen (pre ++ jump_head s ++ bs) = zlen pre + sop_size s) as Hz.
    { rewrite !zlen_app. unfold sop_size, bs. destruct (jump_target s); simpl; unfold zlen;
        simpl; lia. }
    specialize (IH (pre ++ jump_head s ++ bs)). rewrite Hz in IH.
    rewrite <- !app_assoc in *. econstructor; [done|done|].
    rewrite Z.add_assoc. apply IH. lia.
Qed.

End Encoded.

(** ** Resolving writes the displacements *)

Lemma splice_app pre mid post bs :
  zlen mid = zlen bs -> splice (pre ++ mid ++ post) (zlen pre) bs = Some (pre ++ bs ++ post).
Proof.
  intros Hlen. unfold splice. pose proof (zlen_nonneg pre). pose proof (zlen_nonneg post).
  rewrite !zlen_app, Hlen.
  destruct (Z.leb_spec 0 (zlen pre)); [|lia].
  destruct (Z.leb_spec (zlen pre + zlen bs) (zlen pre + (zlen bs + zlen post))); [|lia].
  simpl. f_equal. unfold zlen in *.
  rewrite Z2Nat.inj_add, !Nat2Z.id by lia. rewrite take_app_length. do 2 f_equal.
  replace (length bs) with (length mid) by lia.
  by rewrite app_assoc, <- length_app, drop_app_length.
Qed.

Section Resolve.
Variables (map : list InstructionMap) (failure epilogue : Z) (off : Target.t -> Z).
Hypothesis off_range : forall t, 0 <= off t <= I32_MAX.
Hypothesis off_failure : off Target.Failure = failure.
Hypothesis off_epilogue : off Target.Epilogue = epilogue.

Definition target_known (t : Target.t) : Prop :=
  match t with
  | Target.Source pc => exists m, get map pc = Some m /\ map_offset m = off t
  | _ => True
  end.

Definition targets_known (l : list sop) : Prop :=
  Forall (fun s => match jump_target s with Some t => target_known t | None => True end) l.

Lemma resolve_patch_run t pre mid post ps brs :
  target_known t -> zlen mid = 4 -> zlen pre + 4 <= I32_MAX ->
  Resolve.resolve_patch map failure epilogue (mkPatch (zlen pre) (fixup_of t))
    (mkAssembler (pre ++ mid ++ post) ps brs) =
  Done tt (mkAssembler (pre ++ to_le_bytes (to_target off (zlen pre + 4) t) ++ post) ps brs).
Proof.
  intros Ht Hmid Hsize. pose proof (off_range t). pose proof (zlen_nonneg pre).
  unfold Resolve.resolve_patch.
  erewrite bind_done with (a := off t); [|destruct t; simpl in *; [|by f_equal..];
    destruct Ht as (m & -> & Hm); simpl; by rewrite Hm].
  cbv zeta. unfold I32_MAX, i64_or_max, i64_MAX in *. simpl disp.
  destruct (Z.leb_spec (off t) 9223372036854775807); [|lia].
  destruct (Z.leb_spec (zlen pre + 4) 9223372036854775807); [|lia].
  assert (in_i32b (off t - (zlen pre + 4)) = true) as Hi by (unfold in_i32b; lia).
  rewrite Hi. rewrite (bind_done (mret tt) _ _ _ _ eq_refl).
  rewrite (bind_done (gets asm_bytes) _ _ _ _ eq_refl). simpl asm_bytes.
  rewrite splice_app by done. done.
Qed.

Lemma resolve_patches l pre post ps brs :
  targets_known l -> zlen pre + code_size l <= I32_MAX ->
  for_each (patches_of (zlen pre) l) (Resolve.resolve_patch map failure epilogue)
    (mkAssembler (pre ++ encode no_disp (zlen pre) l ++ post) ps brs) =
  Done tt (mkAssembler (pre ++ encode (to_target off) (zlen pre) l ++ post) ps brs).
Proof.
  intros Hl. revert pre. induction Hl as [|s l Hs Hl IH]; intros pre Hsize; [done|].
  rewrite code_size_cons in Hsize. pose proof (code_size_nonneg l).
  cbn [encode patches_of]. destruct (jump_target s) as [t|] eqn:Et.
  - assert (sop_size s = zlen (jump_head s) + 4) as Hz by (unfold sop_size; by rewrite Et).
    assert (forall x y z : list Z, pre ++ (jump_head s ++ x ++ y) ++ z =
      (pre ++ jump_head s) ++ x ++ (y ++ z)) as Happ by (intros; by rewrite <- !app_assoc).
    rewrite !Happ. simpl app at 1. rewrite for_each_cons, <- zlen_app.
    erewrite bind_done; [|apply resolve_patch_run; [done|done|rewrite zlen_app; lia]].
    rewrite zlen_app, <- Z.add_assoc, <- Hz. set (bs := to_le_bytes _).
    assert (zlen ((pre ++ jump_head s) ++ bs) = zlen pre + sop_size s) as Hp
      by (rewrite !zlen_app; unfold bs; rewrite zlen_to_le_bytes; lia).
    specialize (IH ((pre ++ jump_head s) ++ bs)). rewrite Hp, <- !(app_assoc _ bs) in IH.
    apply IH. lia.
  - assert (sop_size s = zlen (jump_head s)) as Hz by (unfold sop_size; rewrite Et; lia).
    rewrite !app_nil_l. specialize (IH (pre ++ jump_head s)). rewrite zlen_app, <- Hz in IH.
    rewrite <- !app_assoc in *. apply IH. lia.
Qed.

End Resolve.

(** ** A whole program *)

Section Program.
Variable profile : InputProfile.

Definition lower_at (pc : Z) (i : Instruction) : list sop :=
  match decode (code i) with Some o => lower profile pc i o | None => [] end.

Fixpoint lower_body (pc : Z) (l : list Instruction) : list sop :=
  match l with
  | [] => []
  | i :: l => lower_at pc i ++ lower_body (pc + 1) l
  end.

(** The offsets at which the instructions of [l] start, from [p] on. *)
Fixpoint offsets (p pc : Z) (l : list Instruction) : list Z :=
  match l with
  | [] => []
  | i :: l => p :: offsets (p + code_size (lower_at pc i)) (pc + 1) l
  end.

Definition sites_at (p pc : Z) (i : Instruction) : list BranchSite :=
  match decode (code i) with Some o => site_of p pc i o | None => [] end.

Fixpoint sites (p pc : Z) (l : list Instruction) : list BranchSite :=
  match l with
  | [] => []
  | i :: l => sites_at p pc i ++ sites (p + code_size (lower_at pc i)) (pc + 1) l
  end.

Fixpoint records (p pc : Z) (l : list Instruction) : list InstructionMap :=
  match l with
  | [] => []
  | i :: l =>
      let n := code_size (lower_at pc i) in
      mkInstructionMap (wrap_u32 pc) p n :: records (p + n) (pc + 1) l
  end.

(** The ends of the instructions of [l]. *)
Fixpoint ends (p pc : Z) (l : list Instruction) : list Z :=
  match l with
  | [] => []
  | i :: l =>
      let p' := p + code_size (lower_at pc i) in p' :: ends p' (pc + 1) l
  end.

Definition body_start : Z := code_size (lower_prologue profile).

Variable l : list Instruction.

Definition failure_at : Z := body_start + code_size (lower_body 0 l).
Definition epilogue_at : Z := failure_at + code_size lower_failure.
Definition program_size : Z := epilogue_at + code_size lower_epilogue.

Definition target_offset (t : Target.t) : Z :=
  match t with
  | Target.Source pc => default 0 (get (offsets body_start 0 l) pc)
  | Target.Failure => failure_at
  | Target.Epilogue => epilogue_at
  end.

Definition program_code : list sop :=
  lower_prologue profile ++ lower_body 0 l ++ lower_failure ++ lower_epilogue.

(** The image the assembler leaves. *)
Definition program_image : list Z := encode (to_target target_offset) 0 program_code.

End Program.

(** What the verifier and the profile check establish for one instruction. *)
Definition servable (profile : InputProfile) (i : Instruction) : Prop :=
  exists o, decode (code i) = Some o /\ profile_serves profile i o = true.

Lemma emit_loop_run profile l pc bs ms a :
  Forall (servable profile) l ->
  zlen (asm_bytes a) + code_size (lower_body profile pc l) <= u32_MAX ->
  emit_loop profile (enumerate_from pc l) bs ms a =
  Done (bs ++ ends profile (zlen (asm_bytes a)) pc l,
        ms ++ records profile (zlen (asm_bytes a)) pc l)
    (appended a (lower_body profile pc l) (sites profile (zlen (asm_bytes a)) pc l)).
Proof.
  intros Hl. revert pc bs ms a. induction Hl as [|i l (o & Hdec & Hserve) Hl IH];
    intros pc bs ms a Hsize.
  - simpl. rewrite !app_nil_r. unfold appended. simpl. rewrite !app_nil_r. by destruct a.
  - simpl in Hsize |- *. unfold lower_at, sites_at in *. rewrite Hdec in *.
    rewrite code_size_app in Hsize. pose proof (code_size_nonneg (lower profile pc i o)).
    pose proof (code_size_nonneg (lower_body profile (pc + 1) l)).
    pose proof (zlen_nonneg (asm_bytes a)).
    rewrite (bind_done (gets _) _ _ _ _ eq_refl).
    rewrite (bind_done _ _ _ _ _ (emit_instruction_lower profile pc i o a Hdec Hserve)).
    rewrite (bind_done (gets _) _ _ _ _ eq_refl). rewrite zlen_appended.
    assert (forall n b, n <= u32_MAX -> try_u32 n b = Done n b) as Htry
      by (intros n b ?; unfold try_u32; by rewrite (proj2 (Z.leb_le _ _))).
    do 3 (erewrite bind_done by (apply Htry; lia)).
    rewrite IH by (rewrite zlen_appended; lia).
    rewrite zlen_appended, appended_app, <- !app_assoc.
    by rewrite Z.add_simpl_l.
Qed.

(** ** Locating an instruction *)

Section Locate.
Variable profile : InputProfile.
Notation lower_at := (lower_at profile).
Notation lower_body := (lower_body profile).
Notation offsets := (offsets profile).

(** The offset of instruction [n], and the end of the whole for [n] past it. *)
Fixpoint offset_nat (p pc : Z) (l : list Instruction) (n : nat) : Z :=
  match n, l with
  | S n, i :: l => offset_nat (p + code_size (lower_at pc i)) (pc + 1) l n
  | _, _ => p
  end.

Lemma offsets_lookup p pc l n :
  offsets p pc l !! n = if decide (n < length l)%nat then Some (offset_nat p pc l n) else None.
Proof.
  revert p pc n. induction l as [|i l IH]; intros p pc n; [by destruct n|].
  destruct n as [|n]; simpl; [done|]. rewrite IH. repeat case_decide; lia || done.
Qed.

Lemma offset_nat_end p pc l : offset_nat p pc l (length l) = p + code_size (lower_body pc l).
Proof.
  revert p pc. induction l as [|i l IH]; intros p pc; simpl; [lia|].
  rewrite IH, code_size_app. lia.
Qed.

Lemma offset_nat_succ p pc l n i :
  l !! n = Some i ->
  offset_nat p pc l (S n) = offset_nat p pc l n + code_size (lower_at (pc + Z.of_nat n) i).
Proof.
  revert p pc n. induction l as [|j l IH]; intros p pc n; [done|].
  destruct n as [|n].
  - intros [= ->]. simpl. rewrite Z.add_0_r. by destruct l.
  - intros Hi. simpl in Hi.
    assert (forall m, offset_nat p pc (j :: l) (S m) =
      offset_nat (p + code_size (lower_at pc j)) (pc + 1) l m) as Hstep by done.
    rewrite !Hstep, (IH _ _ _ Hi). by replace (pc + 1 + Z.of_nat n) with (pc + Z.of_nat (S n)) by lia.
Qed.

Lemma encode_body_split disp p pc l n i :
  l !! n = Some i ->
  exists pre post,
    encode disp p (lower_body pc l) =
      pre ++ encode disp (offset_nat p pc l n) (lower_at (pc + Z.of_nat n) i) ++ post /\
    p + zlen pre = offset_nat p pc l n.
Proof.
  revert p pc n. induction l as [|j l IH]; intros p pc n; [done|].
  destruct n as [|n]; simpl; rewrite encode_app.
  - intros [= ->]. exists [], (encode disp (p + code_size (lower_at pc i)) (lower_body (pc + 1) l)).
    rewrite Z.add_0_r. split; [done|]. unfold zlen. simpl. lia.
  - intros Hi. destruct (IH (p + code_size (lower_at pc j)) (pc + 1) n Hi) as (pre & post & -> & Hp).
    exists (encode disp p (lower_at pc j) ++ pre), post. rewrite <- app_assoc.
    replace (pc + Z.of_nat (S n)) with (pc + 1 + Z.of_nat n) by lia.
    split; [done|]. rewrite zlen_app, zlen_encode. lia.
Qed.

Lemma offset_nat_mono p pc l n : p <= offset_nat p pc l n.
Proof.
  revert p pc n. induction l as [|i l IH]; intros p pc [|n]; simpl; try lia.
  specialize (IH (p + code_size (lower_at pc i)) (pc + 1) n).
  pose proof (code_size_nonneg (lower_at pc i)). lia.
Qed.

Lemma offset_nat_le_end p pc l n : offset_nat p pc l n <= p + code_size (lower_body pc l).
Proof.
  revert p pc n. induction l as [|i l IH]; intros p pc [|n]; simpl; try lia.
  - rewrite code_size_app. pose proof (code_size_nonneg (lower_at pc i)).
    pose proof (code_size_nonneg (lower_body (pc + 1) l)). lia.
  - specialize (IH (p + code_size (lower_at pc i)) (pc + 1) n). rewrite code_size_app. lia.
Qed.

Lemma records_lookup p pc l n i :
  l !! n = Some i ->
  records profile p pc l !! n =
  Some (mkInstructionMap (wrap_u32 (pc + Z.of_nat n)) (offset_nat p pc l n)
          (code_size (lower_at (pc + Z.of_nat n) i))).
Proof.
  revert p pc n. induction l as [|j l IH]; intros p pc n; [done|].
  destruct n as [|n]; simpl.
  - intros [= ->]. by rewrite Z.add_0_r.
  - intros Hi. rewrite (IH _ _ _ Hi). by replace (pc + 1 + Z.of_nat n) with (pc + Z.of_nat (S n)) by lia.
Qed.

Lemma length_records p pc l : length (records profile p pc l) = length l.
Proof. revert p pc. induction l as [|i l IH]; intros; simpl; [done|]. by rewrite IH. Qed.

Lemma length_ends p pc l : length (ends profile p pc l) = length l.
Proof. revert p pc. induction l as [|i l IH]; intros; simpl; [done|]. by rewrite IH. Qed.

Lemma length_offsets p pc l : length (offsets p pc l) = length l.
Proof. revert p pc. induction l as [|i l IH]; intros; simpl; [done|]. by rewrite IH. Qed.

End Locate.

(** ** The image of a program, instruction by instruction *)

Section Located.
Variables (profile : InputProfile) (l : list Instruction).
Notation off := (target_offset profile l).
Notation start := (body_start profile).

Definition offset_of (n : nat) : Z := offset_nat profile start 0 l n.

Lemma offset_of_start : offset_of 0 = start.
Proof. unfold offset_of. by destruct l. Qed.

Lemma offset_of_end : offset_of (length l) = failure_at profile l.
Proof. apply offset_nat_end. Qed.

Lemma target_offset_source n : (n < length l)%nat ->
  off (Target.Source (Z.of_nat n)) = offset_of n.
Proof.
  intros Hn. simpl. rewrite get_nat, offsets_lookup. by rewrite decide_True.
Qed.

Lemma program_image_size : zlen (program_image profile l) = program_size profile l.
Proof.
  unfold program_image. rewrite zlen_encode. unfold program_code, program_size, epilogue_at,
    failure_at, body_start. rewrite !code_size_app. lia.
Qed.

Lemma program_bounds :
  0 < start /\ start <= failure_at profile l /\
  failure_at profile l + code_size lower_failure = epilogue_at profile l /\
  epilogue_at profile l + code_size lower_epilogue = program_size profile l.
Proof.
  unfold program_size, epilogue_at, failure_at.
  pose proof (code_size_nonneg (lower_body profile 0 l)).
  assert (0 < start) by by destruct profile. lia.
Qed.

Lemma target_offset_range t :
  program_size profile l <= I32_MAX -> 0 <= off t <= I32_MAX.
Proof.
  intros Hsize. pose proof program_bounds as (? & ? & ? & ?).
  assert (0 <= code_size lower_failure /\ 0 <= code_size lower_epilogue)
    by (split; apply code_size_nonneg).
  destruct t as [pc| |]; simpl; [|lia..].
  destruct (get _ pc) as [q|] eqn:E; simpl; [|lia].
  apply get_Some in E as [_ E]. rewrite offsets_lookup in E. case_decide; [|done].
  injection E as <-.
  pose proof (offset_nat_mono profile start 0 l (Z.to_nat pc)).
  pose proof (offset_nat_le_end profile start 0 l (Z.to_nat pc)).
  unfold failure_at in *. lia.
Qed.

(** The image around instruction [n]. *)
Lemma program_image_split n i :
  l !! n = Some i ->
  exists pre post,
    program_image profile l =
      pre ++ encode (to_target off) (offset_of n) (lower_at profile (Z.of_nat n) i) ++ post /\
    zlen pre = offset_of n.
Proof.
  intros Hi. unfold program_image, program_code. rewrite !encode_app, Z.add_0_l.
  destruct (encode_body_split profile (to_target off) start 0 l n i Hi) as (pre & post & Heq & Hp).
  fold start. rewrite Heq. set (tl := encode _ _ lower_failure ++ _).
  exists (encode (to_target off) 0 (lower_prologue profile) ++ pre), (post ++ tl).
  split; [by rewrite <- !app_assoc|]. rewrite zlen_app, zlen_encode. exact Hp.
Qed.

(** The whole image decodes to the lowering, piece by piece. *)
Hypothesis typed : Forall instruction_typed l.
Hypothesis size : program_size profile l <= I32_MAX.
Notation image := (program_image profile l).

Lemma prologue_code_at : code_at (exact off) image 0 (lower_prologue profile) start.
Proof.
  unfold program_image, program_code. rewrite encode_app.
  pose proof program_bounds as (? & ? & ? & ?).
  assert (0 <= code_size lower_failure /\ 0 <= code_size lower_epilogue)
    by (split; apply code_size_nonneg).
  apply (encoded_code_at off (fun t => target_offset_range t size) _ [] _);
    [apply lower_prologue_encodes|]. unfold zlen. simpl length. fold start. lia.
Qed.

Lemma instruction_code_at n i :
  l !! n = Some i ->
  code_at (exact off) image (offset_of n) (lower_at profile (Z.of_nat n) i) (offset_of (S n)).
Proof.
  intros Hi. pose proof (Forall_lookup_1 _ _ _ _ typed Hi) as Ht.
  destruct (program_image_split n i Hi) as (pre & post & -> & Hp).
  unfold offset_of at 3. rewrite (offset_nat_succ profile start 0 l n i Hi).
  fold (offset_of n). rewrite <- Hp, Z.add_0_l.
  apply (encoded_code_at off (fun t => target_offset_range t size)).
  - unfold lower_at. destruct (decode (code i)); [by apply lower_encodes|constructor].
  - rewrite Hp. pose proof (offset_nat_le_end profile start 0 l (S n)) as Hle.
    rewrite (offset_nat_succ profile start 0 l n i Hi), Z.add_0_l in Hle. fold (offset_of n) in Hle.
    pose proof program_bounds as (? & ? & ? & ?). unfold failure_at in *.
    assert (0 <= code_size lower_failure /\ 0 <= code_size lower_epilogue)
      by (split; apply code_size_nonneg). lia.
Qed.

Lemma tail_code_at :
  code_at (exact off) image (failure_at profile l) lower_failure (epilogue_at profile l) /\
  code_at (exact off) image (epilogue_at profile l) lower_epilogue (program_size profile l).
Proof.
  pose proof program_bounds as (Hs & ? & Hf & He).
  assert (0 <= code_size lower_failure /\ 0 <= code_size lower_epilogue)
    by (split; apply code_size_nonneg).
  unfold program_image, program_code. rewrite !encode_app, Z.add_0_l, app_assoc.
  fold start. fold (failure_at profile l). rewrite Hf.
  set (pre := encode _ 0 _ ++ encode _ start _).
  assert (zlen pre = failure_at profile l) as Hpre
    by (unfold pre; rewrite zlen_app, !zlen_encode; done).
  rewrite <- He, <- Hf. split.
  - rewrite <- Hpre. apply (encoded_code_at off (fun t => target_offset_range t size));
      [apply lower_failure_encodes|lia].
  - rewrite app_assoc.
    assert (zlen (pre ++ encode (to_target off) (failure_at profile l) lower_failure) =
      failure_at profile l + code_size lower_failure) as Hpre2
      by (rewrite zlen_app, zlen_encode; lia).
    rewrite <- Hpre2, <- (app_nil_r (encode _ _ lower_epilogue)).
    apply (encoded_code_at off (fun t => target_offset_range t size));
      [apply lower_epilogue_encodes|lia].
Qed.

End Located.
