(* ===== verification/BpfSimulation.v ===== *)
(** Classic BPF, native code, part 7: native code simulates the interpreter.

    [native_at p a x scratch s]: the native state [s] is at offset [p] of the
    image and represents the interpreter registers [a], [x] and the scratch
    words, inside the frame the prologue has set up. One interpreter step is
    matched by running the lowering of its instruction ([simulate_step]); the
    failure block returns zero and the epilogue restores the caller's
    registers. *)

From stdpp Require Import gmap relations.
From S2P Require Import Prelude Effects BpfInstruction BpfProgram BpfControlFlow BpfNative BpfValidate BpfTranslate BpfX86 BpfLowering.
Local Open Scope Z_scope.

(** ** Memory *)

(** Two memories that agree outside an interval. *)
Definition same_outside (lo hi : Z) (m m' : gmap Z Z) : Prop :=
  forall a, ~ (lo <= a < hi) -> m' !! a = m !! a.

Lemma same_outside_refl lo hi m : same_outside lo hi m m.
Proof. by intros a. Qed.

Lemma same_outside_trans lo hi m1 m2 m3 :
  same_outside lo hi m1 m2 -> same_outside lo hi m2 m3 -> same_outside lo hi m1 m3.
Proof. intros H1 H2 a Ha. by rewrite H2, H1. Qed.

Lemma load_S n a m :
  X86.load (S n) a m = (b ← m !! a; r ← X86.load n (a + 1) m; Some (b + 256 * r)).
Proof. done. Qed.

Lemma load_same n a m m' :
  (forall i, 0 <= i < Z.of_nat n -> m' !! (a + i) = m !! (a + i)) ->
  X86.load n a m' = X86.load n a m.
Proof.
  revert a. induction n as [|n IH]; intros a Hm; [done|]. simpl.
  pose proof (Hm 0 ltac:(lia)) as H0. rewrite Z.add_0_r in H0. rewrite H0.
  destruct (m !! a); [|done]. simpl. rewrite IH; [done|]. intros i Hi.
  replace (a + 1 + i) with (a + (1 + i)) by lia. apply Hm. lia.
Qed.

Lemma load_outside n a lo hi m m' :
  same_outside lo hi m m' -> (a + Z.of_nat n <= lo \/ hi <= a) ->
  X86.load n a m' = X86.load n a m.
Proof. intros Hs Ha. apply load_same. intros i Hi. apply Hs. lia. Qed.

Lemma load_is_Some n a m v i :
  X86.load n a m = Some v -> 0 <= i < Z.of_nat n -> is_Some (m !! (a + i)).
Proof.
  revert a v i. induction n as [|n IH]; intros a v i; [lia|]. simpl.
  destruct (m !! a) as [b|] eqn:E; [|done]. simpl.
  destruct (X86.load n (a + 1) m) as [r|] eqn:Er; [|done]. intros _ Hi.
  destruct (decide (i = 0)) as [->|]; [rewrite Z.add_0_r; eauto|].
  replace (a + i) with (a + 1 + (i - 1)) by lia. eapply IH; [done|lia].
Qed.

Lemma store_Some n a v m :
  (forall i, 0 <= i < Z.of_nat n -> is_Some (m !! (a + i))) -> 0 <= v < 256 ^ Z.of_nat n ->
  exists m', X86.store n a v m = Some m' /\ X86.load n a m' = Some v /\
    same_outside a (a + Z.of_nat n) m m'.
Proof.
  revert a v m. induction n as [|n IH]; intros a v m Hm Hv.
  - exists m. simpl. assert (v = 0) as -> by (simpl in Hv; lia).
    split; [done|]. split; [done|]. apply same_outside_refl.
  - pose proof (Hm 0 ltac:(lia)) as [b0 H0]. rewrite Z.add_0_r in H0. simpl. rewrite H0.
    rewrite Nat2Z.inj_succ, Z.pow_succ_r in Hv by lia.
    destruct (IH (a + 1) (v / 256) (<[a := v mod 256]> m)) as (m' & Hst & Hld & Hsame).
    + intros i Hi. rewrite lookup_insert_ne by lia.
      replace (a + 1 + i) with (a + (1 + i)) by lia. apply Hm. lia.
    + split; [apply Z.div_pos; lia|]. apply Z.div_lt_upper_bound; lia.
    + exists m'. split; [done|]. split.
      * rewrite (Hsame a) by lia. rewrite lookup_insert_eq. simpl. rewrite Hld. simpl. f_equal.
        pose proof (Z.div_mod v 256). lia.
      * intros a' Ha'. rewrite (Hsame a') by lia. by rewrite lookup_insert_ne by lia.
Qed.

Lemma load_disjoint_store n a v k b m m' :
  X86.store n a v m = Some m' -> same_outside a (a + Z.of_nat n) m m' ->
  (b + Z.of_nat k <= a \/ a + Z.of_nat n <= b) -> X86.load k b m' = X86.load k b m.
Proof. intros _ Hs Hd. by eapply load_outside. Qed.

(** ** Running code *)

Definition reach (image : list Z) : relation X86.state :=
  rtc (fun s s' => X86.step image s = X86.Next s').

Lemma run_reach image s s' :
  reach image s s' -> forall fuel o, X86.run image fuel s' = Some o ->
  exists fuel', X86.run image fuel' s = Some o.
Proof.
  induction 1 as [s|s s1 s' Hstep _ IH]; intros fuel o Hrun; [by exists fuel|].
  destruct (IH fuel o Hrun) as [fuel' Hf]. exists (S fuel'). simpl. by rewrite Hstep.
Qed.

Lemma code_step off image s op l p2 :
  code_at (exact off) image (X86.ip s) (op :: l) p2 ->
  exists i p1, exact off op i /\ X86.step image s = X86.exec i (X86.set_ip p1 s) /\
    code_at (exact off) image p1 l p2.
Proof.
  inversion 1 as [|p op' i p1 l' p2' Hi Hf Hc]; subst. exists i, p1.
  split; [done|]. split; [|done]. unfold X86.step. by rewrite Hf.
Qed.

Lemma wrap32_id v : in_u32 v -> X86.wrap X86.S32 v = v.
Proof. unfold in_u32, u32_MAX, X86.wrap. simpl X86.bits. intros. apply Z.mod_small. lia. Qed.

Lemma wrap32_u32 v : X86.wrap X86.S32 v = wrap_u32 v.
Proof. done. Qed.

Lemma wrap64_id v : 0 <= v < 2 ^ 64 -> X86.wrap X86.S64 v = v.
Proof. apply Z.mod_small. Qed.

(** Execution from [s] leads to a state that satisfies [Q]. *)
Definition reaches (image : list Z) (s : X86.state) (Q : X86.state -> Prop) : Prop :=
  exists s', reach image s s' /\ Q s'.

Lemma leads_now image s (Q : X86.state -> Prop) : Q s -> reaches image s Q.
Proof. intros. exists s. split; [apply rtc_refl|done]. Qed.

Lemma leads_step image s s1 Q : X86.step image s = X86.Next s1 -> reaches image s1 Q -> reaches image s Q.
Proof. intros Hs (s' & ? & ?). exists s'. split; [by eapply rtc_l|done]. Qed.

Lemma leads_trans image s (Q R : X86.state -> Prop) :
  reaches image s Q -> (forall s1, Q s1 -> reaches image s1 R) -> reaches image s R.
Proof.
  intros (s1 & H1 & HQ) HR. destruct (HR s1 HQ) as (s2 & H2 & ?). exists s2.
  split; [by etrans|done].
Qed.

(** ** Symbolic execution *)

#[local] Arguments X86.wrap : simpl never.
#[local] Arguments X86.taken !c : simpl nomatch.
#[local] Arguments X86.load : simpl never.
#[local] Arguments X86.store : simpl never.
#[local] Arguments X86.swap32 : simpl never.
#[local] Arguments X86.shift_result : simpl never.
#[local] Arguments from_le_bytes : simpl never.
#[local] Arguments from_be_bytes : simpl never.

(** Computes one instruction on a state with explicit registers. *)
Ltac native_exec :=
  simpl; unfold X86.address, X86.set_flags, X86.set_ip, X86.get_reg, X86.set_reg, X86.set_mem;
  simpl;
  repeat (match goal with
  | H : in_u32 ?v |- context [X86.wrap X86.S32 ?v] => rewrite (wrap32_id v H)
  | H : X86.wrap X86.S64 ?v = _ |- context [X86.wrap X86.S64 ?v] => rewrite H
  | H : X86.load ?n ?p ?m = Some _ |- context [X86.load ?n ?p ?m] => rewrite H
  | H : X86.store ?n ?p ?v ?m = Some _ |- context [X86.store ?n ?p ?v ?m] => rewrite H
  | |- context [0 * ?v + ?w] => rewrite (Z.mul_0_l v), (Z.add_0_l w)
  | H : (?v =? ?w) = false |- context [?v =? ?w] => rewrite H
  | H : (?v <=? ?w) = false |- context [?v <=? ?w] => rewrite H
  end; simpl).

(** Runs the next operation of the code at the current offset. *)
Ltac native_step :=
  match goal with
  | Hc : code_at (exact ?off) ?image ?p (?s :: ?l) ?p2
    |- reaches ?image (X86.mkState ?rs ?f ?m ?p) _ =>
      let i := fresh "i" in let p1 := fresh "p" in let Hi := fresh "Hi" in
      let Hs := fresh "Hs" in let Hc' := fresh "Hc" in
      destruct (code_step off image (X86.mkState rs f m p) s l p2 Hc)
        as (i & p1 & Hi & Hs & Hc'); clear Hc; rename Hc' into Hc;
      unfold exact in Hi; simpl in Hi; injection Hi as <-;
      eapply leads_step; [rewrite Hs; clear Hs; native_exec; reflexivity|]; try clear Hs
  end.


Section Frame.
Variables (image : list Z) (off : Target.t -> Z) (profile : InputProfile).

(** Registers the code never writes, the frame, the packet and the memory as
    the prologue leaves it. *)
Variables (bx fp si di r8 r9 r10 r11 data : Z) (b : list Z) (m1 : gmap Z Z).

Definition file (a x d r14 r15 : Z) : list Z :=
  [a; x; d; bx; fp - 64; fp; si; di; r8; r9; r10; r11; data; zlen b; r14; r15].

Definition st (a x d r14 r15 : Z) f m p : X86.state := X86.mkState (file a x d r14 r15) f m p.

Hypothesis frame_range : 64 <= fp < 2 ^ 64.
Hypothesis data_range : 0 <= data /\ data + zlen b <= 2 ^ 64.
Hypothesis len_range : in_u32 (zlen b).
Hypothesis packet_u8 : Forall in_u8 b.
Hypothesis packet_mapped : forall n v, b !! n = Some v -> m1 !! (data + Z.of_nat n) = Some v.
Hypothesis packet_disjoint : data + zlen b <= fp - 64 \/ fp <= data.

(** ** Loads *)

Definition slice (o : Z) (n : nat) : list Z := take n (drop (Z.to_nat o) b).

Definition load_value (bs : list Z) : Z :=
  if is_native_words profile then from_le_bytes bs else from_be_bytes bs.

Lemma load_slice m o n :
  same_outside (fp - 64) fp m1 m -> 0 <= o -> o + Z.of_nat n <= zlen b ->
  X86.load n (data + o) m = Some (from_le_bytes (slice o n)).
Proof.
  intros Hm Ho Hn. rewrite (load_outside n _ (fp - 64) fp m1) by (done || lia).
  revert o Ho Hn. induction n as [|n IH]; intros o Ho Hn; [done|].
  destruct (lookup_lt_is_Some_2 b (Z.to_nat o)) as [v Hv]; [unfold zlen in Hn; lia|].
  rewrite load_S. pose proof (packet_mapped _ _ Hv) as Hmap. rewrite Z2Nat.id in Hmap by done.
  rewrite Hmap. simpl. rewrite <- Z.add_assoc, IH by lia. simpl. unfold slice.
  rewrite (drop_S _ _ _ Hv). unfold from_le_bytes. simpl. by rewrite Z2Nat.inj_add, Nat.add_1_r by lia.
Qed.

Lemma slice_2 o : 0 <= o -> o + 2 <= zlen b ->
  exists b0 b1, slice o 2 = [b0; b1] /\ in_u8 b0 /\ in_u8 b1.
Proof.
  intros Ho Hn. assert (length (slice o 2) = 2%nat) as Hl
    by (unfold slice; rewrite length_take, length_drop; unfold zlen in Hn; lia).
  assert (Forall in_u8 (slice o 2)) as Hu by by apply Forall_take, Forall_drop.
  destruct (slice o 2) as [|b0 [|b1 [|]]]; try done. rewrite !Forall_cons in Hu.
  exists b0, b1. tauto.
Qed.

Lemma slice_4 o : 0 <= o -> o + 4 <= zlen b ->
  exists b0 b1 b2 b3, slice o 4 = [b0; b1; b2; b3] /\
    in_u8 b0 /\ in_u8 b1 /\ in_u8 b2 /\ in_u8 b3.
Proof.
  intros Ho Hn. assert (length (slice o 4) = 4%nat) as Hl
    by (unfold slice; rewrite length_take, length_drop; unfold zlen in Hn; lia).
  assert (Forall in_u8 (slice o 4)) as Hu by by apply Forall_take, Forall_drop.
  destruct (slice o 4) as [|b0 [|b1 [|b2 [|b3 [|]]]]]; try done.
  rewrite !Forall_cons in Hu. exists b0, b1, b2, b3. tauto.
Qed.

Lemma slice_1 o : 0 <= o -> o + 1 <= zlen b -> exists b0, slice o 1 = [b0] /\ in_u8 b0.
Proof.
  intros Ho Hn. assert (length (slice o 1) = 1%nat) as Hl
    by (unfold slice; rewrite length_take, length_drop; unfold zlen in Hn; lia).
  assert (Forall in_u8 (slice o 1)) as Hu by by apply Forall_take, Forall_drop.
  destruct (slice o 1) as [|b0 [|]]; try done. rewrite Forall_cons in Hu. exists b0. tauto.
Qed.

(** Byte swapping. *)
Lemma rol16_be b0 b1 :
  in_u8 b0 -> in_u8 b1 ->
  X86.shift_result X86.Rol X86.S16 (from_le_bytes [b0; b1]) 8 = from_be_bytes [b0; b1].
Proof.
  unfold in_u8, u8_MAX. intros H0 H1.
  assert (forallb (fun x => forallb (fun y =>
    X86.shift_result X86.Rol X86.S16 (from_le_bytes [x; y]) 8 =? from_be_bytes [x; y])
    (seqZ 0 256)) (seqZ 0 256) = true) as Hall by (vm_compute; reflexivity).
  rewrite forallb_forall in Hall. specialize (Hall b0). rewrite forallb_forall in Hall.
  apply Z.eqb_eq, Hall; apply list_elem_of_In, elem_of_seqZ; lia.
Qed.

(** [rol ax, 8] on a zero-extended half-word. *)
Lemma rol_half b0 b1 :
  in_u8 b0 -> in_u8 b1 -> let v := from_le_bytes [b0; b1] in
  v / 2 ^ 16 * 2 ^ 16 + X86.shift_result X86.Rol X86.S16 (X86.wrap X86.S16 v) (Z.land 8 31) =
  from_be_bytes [b0; b1].
Proof.
  intros H0 H1 v. assert (0 <= v < 65536) as Hv
    by (unfold v, from_le_bytes, in_u8, u8_MAX in *; simpl; lia).
  change (2 ^ 16) with 65536. rewrite (Z.div_small v) by done.
  assert (X86.wrap X86.S16 v = v) as -> by (by apply Z.mod_small).
  by apply rol16_be.
Qed.

Lemma swap32_be b0 b1 b2 b3 :
  in_u8 b0 -> in_u8 b1 -> in_u8 b2 -> in_u8 b3 ->
  X86.swap32 (from_le_bytes [b0; b1; b2; b3]) = from_be_bytes [b0; b1; b2; b3].
Proof.
  unfold in_u8, u8_MAX, X86.swap32, from_le_bytes, from_be_bytes. simpl. intros.
  Z.div_mod_to_equations. lia.
Qed.

#[local] Arguments slice : simpl never.
Notation code := (code_at (exact off) image).
Notation leads := (reaches image).

(** Steps from a state of the frame. *)
Ltac frame_step := unfold st, file; native_step.

Definition load_bytes (w : LoadWidth) : nat := X86.size_bytes (size_of (native_load_width w)).

Lemma width_bytes_nat w : width_bytes w = Z.of_nat (load_bytes w).
Proof. by destruct w. Qed.

(** The bounds check of a load at offset [r14]. *)
Lemma bounds_run w a x d r14 r15 f m p p' rest Q :
  in_u32 r14 -> code p (lower_bounds w ++ rest) p' ->
  (zlen b < r14 + width_bytes w ->
   forall r15 f, leads (st a x d r14 r15 f m (off Target.Failure)) Q) ->
  (r14 + width_bytes w <= zlen b ->
   forall p1 r15 f, code p1 rest p' -> leads (st a x d r14 r15 f m p1) Q) ->
  leads (st a x d r14 r15 f m p) Q.
Proof.
  intros Hr Hc Hfail Hok. simpl in Hc.
  assert (in_u32 (zlen b - width_bytes w) \/ zlen b < width_bytes w) as Hw
    by (unfold in_u32 in *; destruct w; simpl; lia).
  assert (0 < width_bytes w) by by destruct w. pose proof Hr as Hr'. unfold in_u32 in Hr'.
  frame_step. frame_step. destruct (Z.ltb_spec (zlen b) (width_bytes w)); [apply Hfail; lia|].
  destruct Hw as [Hw|]; [|lia].
  frame_step. frame_step. frame_step.
  frame_step. destruct (Z.ltb_spec (zlen b - width_bytes w) r14); [apply Hfail; lia|].
  apply Hok; [lia|done].
Qed.

(** The address computation: no carry for an offset inside the packet. *)
Lemma address_run a x d r14 r15 f m p p' rest Q :
  in_u32 r14 -> r14 < zlen b -> code p (lower_address ++ rest) p' ->
  (forall p1 f, code p1 rest p' -> leads (st a x d (data + r14) r15 f m p1) Q) ->
  leads (st a x d r14 r15 f m p) Q.
Proof.
  intros Hr Hlt Hc Hok. simpl in Hc. unfold in_u32 in Hr.
  assert (X86.wrap X86.S64 r14 = r14) as E1 by (apply wrap64_id; unfold u32_MAX in *; lia).
  assert (X86.wrap X86.S64 data = data) as E2 by (apply wrap64_id; lia).
  assert (X86.wrap X86.S64 (r14 + data) = data + r14) as E3
    by (rewrite Z.add_comm; apply wrap64_id; lia).
  frame_step. frame_step.
  destruct (Z.leb_spec (2 ^ 64) (r14 + data)); [lia|].
  frame_step. by apply Hok.
Qed.

(** The load itself, with the profile's byte order. *)
Lemma load_run w o a x d r15 f m p p' rest Q :
  same_outside (fp - 64) fp m1 m -> 0 <= o -> o + width_bytes w <= zlen b ->
  code p ([Plain (NativeOp.Load (native_load_width w) Eax R14 0)] ++
          lower_swap w profile ++ rest) p' ->
  (forall p1 f, code p1 rest p' ->
   leads (st (load_value (slice o (load_bytes w))) x d (data + o) r15 f m p1) Q) ->
  leads (st a x d (data + o) r15 f m p) Q.
Proof.
  intros Hm Ho Hw Hc Hok.
  assert (X86.wrap X86.S64 (data + o + 0) = data + o) as Ha
    by (rewrite Z.add_0_r; apply wrap64_id; destruct w; simpl in Hw; lia).
  assert (X86.load (load_bytes w) (data + o) m = Some (from_le_bytes (slice o (load_bytes w))))
    as Hl by (apply load_slice; [done|done|by rewrite <- width_bytes_nat]).
  unfold load_value, load_bytes in *. destruct w; simpl in Hc, Hl, Hw, Hok.
  - destruct (slice_1 o) as (b0 & Hs & H0); [done|lia|]. rewrite Hs in Hl, Hok.
    assert (lower_swap Byte profile = []) as Es by by destruct profile. rewrite Es in Hc.
    assert (from_be_bytes [b0] = from_le_bytes [b0]) as Eb
      by (unfold from_be_bytes, from_le_bytes; simpl; lia).
    rewrite Eb in Hok. frame_step. destruct (is_native_words profile); by apply Hok.
  - destruct (slice_2 o) as (b0 & b1 & Hs & H0 & H1); [done|lia|]. rewrite Hs in Hl, Hok.
    pose proof (rol_half b0 b1 H0 H1) as Er. cbv zeta in Er.
    destruct profile; simpl in Hc, Hok; frame_step; [frame_step..|by apply Hok];
      rewrite Er; by apply Hok.
  - destruct (slice_4 o) as (b0 & b1 & b2 & b3 & Hs & H0 & H1 & H2 & H3); [done|lia|].
    rewrite Hs in Hl, Hok. pose proof (swap32_be b0 b1 b2 b3 H0 H1 H2 H3) as Er.
    pose proof (from_le_bytes_u32 b0 b1 b2 b3 H0 H1 H2 H3) as Hu.
    destruct profile; simpl in Hc, Hok; frame_step; [frame_step..|by apply Hok];
      rewrite Er; by apply Hok.
Qed.

(** ** What one instruction must do *)

(** The scratch words live below the frame pointer; nothing else changes. *)
Definition memory_ok (scr : list Z) (m : gmap Z Z) : Prop :=
  same_outside (fp - 64) fp m1 m /\ zlen scr = SCRATCH_WORDS /\
  forall n v, scr !! n = Some v -> X86.load 4 (fp - 4 * (Z.of_nat n + 1)) m = Some v.

(** The state in which the epilogue returns [v]. *)
Definition at_epilogue (v : Z) (s : X86.state) : Prop :=
  exists x d r14 r15 f m, s = st v x d r14 r15 f m (off Target.Epilogue) /\
    same_outside (fp - 64) fp m1 m.

(** The state that represents an interpreter machine. *)
Definition represents (mc : Machine) (s : X86.state) : Prop :=
  exists d r14 r15 f m,
    s = st (accumulator mc) (index mc) d r14 r15 f m (off (Target.Source (BpfProgram.pc mc))) /\
    memory_ok (scratch mc) m.

Definition simulates (o : step_outcome) (s : X86.state) : Prop :=
  match o with
  | Continue mc => represents mc s
  | Return v => at_epilogue v s
  | Crash => False
  end.

Hypothesis failure_code : exists p', code (off Target.Failure) lower_failure p'.

Lemma failure_run a x d r14 r15 f m :
  same_outside (fp - 64) fp m1 m ->
  leads (st a x d r14 r15 f m (off Target.Failure)) (at_epilogue 0).
Proof.
  intros Hm. destruct failure_code as [p' Hc]. unfold lower_failure in Hc. frame_step.
  rewrite Z.lxor_nilpotent. frame_step. apply leads_now. unfold at_epilogue, st, file.
  by do 6 eexists.
Qed.

(** The alignment check of an indirect native word load. *)
Definition aligned (w : LoadWidth) (o : Z) : bool :=
  match profile, w with NativeAlignedWords, Word => o mod 4 =? 0 | _, _ => true end.

Lemma align_run w a x d r14 r15 f m p p' rest Q :
  in_u32 r14 -> code p (lower_align w profile ++ rest) p' ->
  (aligned w r14 = false ->
   forall f, leads (st a x d r14 r15 f m (off Target.Failure)) Q) ->
  (aligned w r14 = true ->
   forall p1 f, code p1 rest p' -> leads (st a x d r14 r15 f m p1) Q) ->
  leads (st a x d r14 r15 f m p) Q.
Proof.
  intros Hr Hc Hfail Hok. unfold aligned, lower_align in *.
  destruct profile; [by apply Hok..|]. destruct w; [by apply Hok..|]. simpl in Hc.
  assert ((Z.land (X86.wrap X86.S8 r14) 3 =? 0) = (r14 mod 4 =? 0)) as E.
  { f_equal. change 3 with (Z.ones 2). rewrite Z.land_ones by lia. unfold X86.wrap.
    simpl X86.bits. change (2 ^ 8) with 256. change (2 ^ 2) with 4.
    Z.div_mod_to_equations. lia. }
  frame_step. rewrite E. frame_step. destruct (r14 mod 4 =? 0); simpl; [by apply Hok|].
  by apply Hfail.
Qed.

(** ** Packet loads *)

Context {I : Type} `{Input I}.
Variable input : I.
Hypothesis input_len_b : input_len input = zlen b.
Hypothesis input_load_b : forall o w, in_u32 o ->
  input_load input o w =
  if (o + width_bytes w <=? zlen b) && aligned w o
  then Some (load_value (slice o (load_bytes w))) else None.
Hypothesis input_ancillary_b : is_context profile = true -> forall field,
  exists v p, input_ancillary input field = Some v /\
    X86.wrap X86.S64 (di + (METADATA_OFFSET + Ancillary.metadata_offset field)) = p /\
    X86.load 4 p m1 = Some v /\ (p + 4 <= fp - 64 \/ fp <= p).

(** A load of the packet at the checked offset [o]. *)
Lemma inside_load_run w o a x d r15 f m p p' Q :
  same_outside (fp - 64) fp m1 m -> in_u32 o -> o + width_bytes w <= zlen b ->
  code p (lower_address ++ [Plain (NativeOp.Load (native_load_width w) Eax R14 0)] ++
          lower_swap w profile) p' ->
  (forall r14 r15 f, leads (st (load_value (slice o (load_bytes w))) x d r14 r15 f m p') Q) ->
  leads (st a x d o r15 f m p) Q.
Proof.
  intros Hm Ho Hle Hc Hok. pose proof Ho as Ho'. unfold in_u32 in Ho'.
  assert (0 < width_bytes w) by by destruct w.
  eapply address_run; [done|lia|exact Hc|]. intros p3 ? Hc3.
  rewrite <- (app_nil_r (lower_swap w profile)) in Hc3.
  eapply load_run; [done|lia|done|exact Hc3|]. intros p4 ? Hc4.
  inversion Hc4; subst. apply Hok.
Qed.

(** The value of [input_load] inside and outside the packet. *)
Lemma input_load_inside o w :
  in_u32 o -> o + width_bytes w <= zlen b -> aligned w o = true ->
  input_load input o w = Some (load_value (slice o (load_bytes w))).
Proof. intros Ho Hle Ha. by rewrite input_load_b, (proj2 (Z.leb_le _ _) Hle), Ha. Qed.

Lemma input_load_outside o w :
  in_u32 o -> zlen b < o + width_bytes w -> input_load input o w = None.
Proof. intros Ho Hgt. by rewrite input_load_b, (proj2 (Z.leb_gt _ _) Hgt). Qed.

Lemma input_load_unaligned o w : in_u32 o -> aligned w o = false -> input_load input o w = None.
Proof. intros Ho Ha. by rewrite input_load_b, Ha, andb_false_r. Qed.

(** A state that represents the machine after an assignment to [a] or [x]. *)
Lemma simulates_set_a mc v d r14 r15 f m :
  memory_ok (scratch mc) m ->
  simulates (set_a mc v)
    (st v (index mc) d r14 r15 f m (off (Target.Source (BpfProgram.pc mc + 1)))).
Proof. intros. by exists d, r14, r15, f, m. Qed.

Lemma simulates_set_x mc v d r14 r15 f m :
  memory_ok (scratch mc) m ->
  simulates (set_x mc v)
    (st (accumulator mc) v d r14 r15 f m (off (Target.Source (BpfProgram.pc mc + 1)))).
Proof. intros. by exists d, r14, r15, f, m. Qed.

Lemma failure_simulates a x d r14 r15 f m mc :
  memory_ok (scratch mc) m ->
  leads (st a x d r14 r15 f m (off Target.Failure)) (simulates (Return 0)).
Proof. intros [Hm _]. by apply failure_run. Qed.

Section Instruction.
Variables (mc : Machine) (d r14 r15 : Z) (f : option (bool * bool)) (m : gmap Z Z) (p p' : Z).
Hypothesis mem_ok : memory_ok (scratch mc) m.
Hypothesis a_u32 : in_u32 (accumulator mc).
Hypothesis x_u32 : in_u32 (index mc).
Notation here := (st (accumulator mc) (index mc) d r14 r15 f m p).
Notation next := (off (Target.Source (BpfProgram.pc mc + 1))).

Lemma simulate_absolute kk w :
  in_u32 kk -> (is_context profile || negb (is_some (ancillary_from_offset kk)) = true) ->
  (ancillary_from_offset kk = None -> aligned w kk = true) ->
  code p (lower_absolute kk w profile) next ->
  leads here (simulates (load_absolute input mc kk w)).
Proof.
  intros Hk Hanc Hal Hc. unfold lower_absolute, load_absolute in *.
  destruct (ancillary_from_offset kk) as [field|].
  - rewrite orb_false_r in Hanc.
    destruct (input_ancillary_b Hanc field) as (v & q & -> & Hq & Hl & Hd).
    assert (X86.load 4 q m = Some v) as Hl'
      by (rewrite <- Hl; destruct mem_ok; by eapply load_outside).
    frame_step. apply leads_now. inversion Hc; subst. by apply simulates_set_a.
  - specialize (Hal eq_refl). destruct mem_ok as [Hm _]. cbn [app] in Hc. frame_step.
    eapply bounds_run; [done|exact Hc| |]; simpl.
    + intros Hgt ??. rewrite input_load_outside by done. by eapply failure_simulates.
    + intros Hle ??? Hc1. eapply inside_load_run; [done|done|done|exact Hc1|]. intros.
      rewrite input_load_inside by done. apply leads_now. by apply simulates_set_a.
Qed.

Lemma simulate_indirect kk w :
  in_u32 kk -> code p (lower_indirect kk w profile) next ->
  leads here (simulates (load_indirect input mc kk w)).
Proof.
  intros Hk Hc. unfold lower_indirect, load_indirect, checked_add_u32 in *.
  cbn [app] in Hc. frame_step. frame_step. frame_step. simpl.
  unfold in_u32, u32_MAX in *. change (2 ^ 32) with 4294967296.
  destruct (Z.leb_spec (index mc + kk) 4294967295) as [Hle|Hgt].
  - rewrite (proj2 (Z.leb_gt _ _)) by lia. set (o := index mc + kk) in *.
    assert (in_u32 o) as Ho by (unfold in_u32, u32_MAX; lia). rewrite (wrap32_id o Ho).
    destruct mem_ok as [Hm _].
    eapply bounds_run; [done|exact Hc| |].
    { intros Hgt ??. rewrite input_load_outside by done. by eapply failure_simulates. }
    intros Hin ??? Hc1. eapply align_run; [done|exact Hc1| |].
    { intros Ha ?. rewrite input_load_unaligned by done. by eapply failure_simulates. }
    intros Ha ?? Hc2. eapply inside_load_run; [done|done|done|exact Hc2|]. intros.
    rewrite input_load_inside by done. apply leads_now. by apply simulates_set_a.
  - rewrite (proj2 (Z.leb_le _ _)) by lia. by eapply failure_simulates.
Qed.

Lemma simulate_msh kk :
  in_u32 kk -> code p (lower_msh kk) next ->
  leads here (simulates
    (match input_load input kk Byte with
     | Some v => set_x mc (wrap_u32 (Z.shiftl (Z.land v 15) 2))
     | None => Return 0
     end)).
Proof.
  intros Hk Hc. unfold lower_msh in Hc. cbn [app] in Hc. destruct mem_ok as [Hm _].
  assert (aligned Byte kk = true) as Ha by by unfold aligned; destruct profile.
  frame_step. eapply bounds_run; [done|exact Hc| |].
  { intros Hgt ??. rewrite input_load_outside by done. by eapply failure_simulates. }
  intros Hle ??? Hc1. pose proof Hk as Hk'. unfold in_u32 in Hk'. simpl in Hle.
  eapply address_run; [done|lia|exact Hc1|]. clear Hc. intros ?? Hc.
  rewrite input_load_inside by done. unfold load_bytes. simpl X86.size_bytes.
  destruct (slice_1 kk) as (b0 & Hs & H0); [lia|lia|]. rewrite Hs.
  assert (X86.wrap X86.S64 (data + kk + 0) = data + kk) as Hq
    by (rewrite Z.add_0_r; apply wrap64_id; lia).
  assert (X86.load 1 (data + kk) m = Some b0) as Hl.
  { rewrite load_slice by (done || lia). rewrite Hs. f_equal. unfold from_le_bytes. simpl. lia. }
  assert (load_value [b0] = b0) as -> by (unfold load_value, from_le_bytes, from_be_bytes;
    destruct (is_native_words profile); simpl; lia).
  assert (in_u32 b0) as Hb by (unfold in_u8, in_u32, u8_MAX, u32_MAX in *; lia).
  assert (in_u32 (Z.land b0 15)) as Hb15 by (apply land_u32; [done|]; unfold in_u32, u32_MAX; lia).
  frame_step. frame_step. frame_step. apply leads_now. inversion Hc; subst.
  by apply simulates_set_x.
Qed.

(** ** Scratch words *)

Lemma scratch_address kk :
  0 <= kk < SCRATCH_WORDS ->
  X86.wrap X86.S64 (fp + scratch_displacement kk) = fp - 4 * (kk + 1).
Proof.
  unfold SCRATCH_WORDS, scratch_displacement, as_i8. intros Hk.
  rewrite (Z.mod_small (- (4 * (kk + 1)) + 128)) by lia.
  replace (fp + (- (4 * (kk + 1)) + 128 - 128)) with (fp - 4 * (kk + 1)) by lia.
  apply wrap64_id. lia.
Qed.

Lemma scratch_word kk :
  0 <= kk < SCRATCH_WORDS ->
  exists v, get (scratch mc) kk = Some v /\
    X86.load 4 (X86.wrap X86.S64 (fp + scratch_displacement kk)) m = Some v.
Proof.
  intros Hk. destruct mem_ok as (_ & Hlen & Hw).
  destruct (get_in_range (scratch mc) kk) as [v Hv]; [by rewrite Hlen|].
  exists v. split; [done|]. apply get_Some in Hv as [_ Hv]. rewrite scratch_address by done.
  apply Hw in Hv. rewrite Z2Nat.id in Hv by lia. done.
Qed.

Lemma memory_ok_store kk v :
  0 <= kk < SCRATCH_WORDS -> in_u32 v ->
  exists s' m', put (scratch mc) kk v = Some s' /\
    X86.store 4 (X86.wrap X86.S64 (fp + scratch_displacement kk)) v m = Some m' /\
    memory_ok s' m'.
Proof.
  intros Hk Hv. destruct mem_ok as (Hm & Hlen & Hw).
  destruct (scratch_word kk Hk) as (v0 & _ & Hl). rewrite scratch_address in * by done.
  rewrite put_in_range by by rewrite Hlen.
  destruct (store_Some 4 (fp - 4 * (kk + 1)) v m) as (m' & Hst & Hld & Hsame).
  { intros i Hi. by eapply load_is_Some. }
  { unfold in_u32, u32_MAX in Hv. simpl. lia. }
  eexists _, m'. split; [done|]. split; [done|]. unfold SCRATCH_WORDS in *. split; [|split].
  - intros q Hq. rewrite Hsame by lia. by apply Hm.
  - by rewrite zlen_insert.
  - intros n u Hn. destruct (decide (n = Z.to_nat kk)) as [->|Hne].
    + rewrite list_lookup_insert_eq in Hn by (unfold zlen in Hlen; lia). injection Hn as <-.
      by rewrite Z2Nat.id by lia.
    + rewrite list_lookup_insert_ne in Hn by done.
      rewrite (load_outside 4 _ (fp - 4 * (kk + 1)) (fp - 4 * (kk + 1) + Z.of_nat 4) m m' Hsame)
        by lia. by apply Hw.
Qed.


(** Closes a step that falls through to the next instruction. *)
Ltac fall_through :=
  apply leads_now;
  match goal with Hc : code_at _ _ _ [] _ |- _ => inversion Hc; subst end;
  first [by apply simulates_set_a | by apply simulates_set_x].

Lemma simulate_load_a kk :
  0 <= kk < SCRATCH_WORDS ->
  code p [Plain (mov Width.Word (register Eax) (scratch_operand kk Rbp))] next ->
  leads here (simulates (load_scratch mc kk set_a)).
Proof.
  intros Hk Hc. destruct (scratch_word kk Hk) as (v & Hv & Hl). unfold load_scratch.
  rewrite Hv. frame_step. fall_through.
Qed.

Lemma simulate_load_x kk :
  0 <= kk < SCRATCH_WORDS ->
  code p [Plain (mov Width.Word (register Ecx) (scratch_operand kk Rbp))] next ->
  leads here (simulates (load_scratch mc kk set_x)).
Proof.
  intros Hk Hc. destruct (scratch_word kk Hk) as (v & Hv & Hl). unfold load_scratch.
  rewrite Hv. frame_step. fall_through.
Qed.

Lemma simulate_store r v kk :
  0 <= kk < SCRATCH_WORDS -> in_u32 v ->
  (r = Eax /\ v = accumulator mc \/ r = Ecx /\ v = index mc) ->
  code p [Plain (mov Width.Word (scratch_operand kk Rbp) (register r))] next ->
  leads here (simulates (store_scratch mc kk v)).
Proof.
  intros Hk Hv Hr Hc.
  destruct (memory_ok_store kk v Hk Hv) as (s' & m' & Hput & Hst & Hm').
  unfold store_scratch. rewrite Hput.
  destruct Hr as [[-> ->]|[-> ->]]; frame_step; apply leads_now; inversion Hc; subst;
    by exists d, r14, r15, f, m'.
Qed.

(** Division of [a] by a non-zero divisor. *)
Lemma divide_run is_mod (r : Register) (v q : Z) r14' f' :
  in_u32 v -> v <> 0 ->
  (r = R14d /\ v = r14' \/ r = Ecx /\ v = index mc) ->
  code q (lower_divide r is_mod) next ->
  leads (st (accumulator mc) (index mc) d r14' r15 f' m q)
    (simulates (divide mc (if is_mod : bool then Z.modulo else Z.div) v)).
Proof.
  intros Hv Hne Hr Hc. unfold divide. pose proof (proj2 (Z.eqb_neq v 0) Hne) as Ez. rewrite Ez.
  assert (in_u32 (accumulator mc / v) /\ in_u32 (accumulator mc mod v)) as [Hq Hrem]
    by (unfold in_u32 in *; split; [apply div_u32|apply mod_u32]; unfold in_u32; lia).
  unfold lower_divide in Hc. cbn [app] in Hc.
  frame_step. rewrite Z.lxor_nilpotent.
  assert (in_u32 0) as H0 by (unfold in_u32, u32_MAX; lia).
  assert (2 ^ 32 <=? accumulator mc / v = false) as Eover
    by (apply Z.leb_gt; unfold in_u32, u32_MAX in Hq; change (2 ^ 32) with 4294967296; lia).
  destruct Hr as [[-> ->]|[-> ->]]; frame_step;
    (destruct is_mod; simpl in Hc; [frame_step|]); fall_through.
Qed.

Lemma simulate_divide_k is_mod kk :
  in_u32 kk -> kk <> 0 ->
  code p ([Plain (mov Width.Word (register R14d) (immediate kk))] ++ lower_divide R14d is_mod) next ->
  leads here (simulates (divide mc (if is_mod : bool then Z.modulo else Z.div) kk)).
Proof.
  intros Hk Hne Hc. cbn [app] in Hc. frame_step.
  eapply (divide_run is_mod R14d kk); [done|done|by left|exact Hc].
Qed.

Lemma simulate_divide_x is_mod :
  code p ([Plain (NativeOp.Test Width.Word (register Ecx) (register Ecx));
           Branch Equal Target.Failure] ++ lower_divide Ecx is_mod) next ->
  leads here (simulates (if index mc =? 0 then Return 0
    else divide mc (if is_mod : bool then Z.modulo else Z.div) (index mc))).
Proof.
  intros Hc. cbn [app] in Hc. frame_step. rewrite Z.land_diag. frame_step.
  destruct (Z.eqb_spec (index mc) 0) as [|Hne]; [by eapply failure_simulates|].
  eapply (divide_run is_mod Ecx (index mc)); [done|done|by right|exact Hc].
Qed.

(** ** Shifts *)

Lemma land31_u32 v : in_u32 (Z.land v 31).
Proof.
  change 31 with (Z.ones 5). rewrite Z.land_ones by lia. unfold in_u32, u32_MAX.
  pose proof (Z.mod_pos_bound v (2 ^ 5) ltac:(lia)). lia.
Qed.

Lemma land31_twice v : Z.land (X86.wrap X86.S8 (Z.land v 31)) 31 = Z.land v 31.
Proof.
  unfold X86.wrap. simpl X86.bits. change 31 with (Z.ones 5). rewrite !Z.land_ones by lia.
  change (2 ^ 8) with 256. change (2 ^ 5) with 32. Z.div_mod_to_equations. lia.
Qed.

Definition shift_value (kind : ShiftKind) (a n : Z) : Z :=
  match kind with ShiftLeft => wrapping_shl_u32 a n | ShiftRight => wrapping_shr_u32 a n end.

Lemma shift_result_value kind a n :
  X86.shift_result (shift_of_kind kind) X86.S32 a (Z.land n 31) = shift_value kind a n.
Proof. by destruct kind. Qed.

Lemma simulate_shift_k kind kk :
  0 <= kk < 32 ->
  code p [Plain (NativeOp.ShiftImmediate kind Width.Word Eax (kk mod 256))] next ->
  leads here (simulates (set_a mc (shift_value kind (accumulator mc) kk))).
Proof.
  intros Hk Hc. rewrite Z.mod_small in Hc by lia. frame_step.
  rewrite shift_result_value. fall_through.
Qed.

Lemma simulate_shift_x kind :
  code p (lower_shift kind) next ->
  leads here (simulates (set_a mc (shift_value kind (accumulator mc) (Z.land (index mc) 31)))).
Proof.
  intros Hc. pose proof (land31_u32 (index mc)) as Hn. unfold lower_shift in Hc. simpl in Hc.
  do 6 frame_step. rewrite land31_twice.
  replace (Z.land (index mc) 31) with (Z.land (Z.land (index mc) 31) 31) at 1
    by (by rewrite <- Z.land_assoc).
  rewrite shift_result_value. fall_through.
Qed.

(** ** Arithmetic *)

(** The value of a word operation of the accumulator. *)
Definition binary_value (kind : BinaryKind) (a v : Z) : Z :=
  match kind with
  | Add => wrapping_add_u32 a v
  | Sub => wrapping_sub_u32 a v
  | Or => Z.lor a v
  | And => Z.land a v
  | Xor => Z.lxor a v
  | Mul => wrapping_mul_u32 a v
  end.

(** A source operand and the value it denotes. *)
Definition denotes (src : Operand.t) (v : Z) : Prop :=
  src = immediate v \/ src = register Ecx /\ v = index mc.

Lemma simulate_binary kind src v :
  denotes src v -> in_u32 v -> code p (word_op kind src) next ->
  leads here (simulates (set_a mc (binary_value kind (accumulator mc) v))).
Proof.
  intros Hs Hv Hc. unfold word_op in Hc.
  destruct Hs as [->|[-> ->]], kind; frame_step; fall_through.
Qed.

Lemma simulate_multiply_k kk :
  in_u32 kk -> code p [Plain (NativeOp.ImmediateMultiply Eax Eax kk)] next ->
  leads here (simulates (set_a mc (wrapping_mul_u32 (accumulator mc) kk))).
Proof. intros Hk Hc. frame_step. fall_through. Qed.

Lemma simulate_neg :
  code p [Plain (NativeOp.Unary Neg Width.Word Eax 0)] next ->
  leads here (simulates (set_a mc (wrapping_neg_u32 (accumulator mc)))).
Proof. intros Hc. frame_step. fall_through. Qed.

(** ** Jumps and returns *)

Lemma simulate_jump_to t e :
  code p [Goto (Target.Source t)] e -> leads here (simulates (jump_to mc t)).
Proof.
  intros Hc. frame_step. apply leads_now. by exists d, r14, r15, f, m.
Qed.

(** The outcome of a compare or a test, by the condition. *)
Definition holds (tst : bool) (c : Condition) (a v : Z) : bool :=
  X86.taken (cc_of_condition c)
    (if tst then (false, Z.land a v =? 0) else (a <? v, X86.wrap X86.S32 (a - v) =? 0)).

Lemma simulate_conditional (tst : bool) i c src v e :
  denotes src v -> in_u32 v ->
  code p (lower_jump (BpfProgram.pc mc) i
    ((if tst then NativeOp.Test else NativeOp.Compare) Width.Word (register Eax)) c src) e ->
  leads here (simulates (jump_to mc (BpfProgram.pc mc + 1 +
    (if holds tst c (accumulator mc) v then jt i else jf i)))).
Proof.
  intros Hs Hv Hc. unfold lower_jump in Hc. unfold holds.
  destruct Hs as [->|[-> ->]], tst; frame_step; frame_step;
    (destruct (X86.taken _ _); [|frame_step]); apply leads_now; by do 5 eexists.
Qed.

Lemma simulate_ret_a e :
  code p [Goto Target.Epilogue] e -> leads here (simulates (Return (accumulator mc))).
Proof.
  intros Hc. frame_step. apply leads_now. destruct mem_ok. by do 6 eexists.
Qed.

Lemma simulate_ret_k kk e :
  in_u32 kk ->
  code p ([Plain (mov Width.Word (register Eax) (immediate kk))] ++ [Goto Target.Epilogue]) e ->
  leads here (simulates (Return kk)).
Proof.
  intros Hk Hc. cbn [app] in Hc. frame_step. frame_step. apply leads_now. destruct mem_ok.
  by do 6 eexists.
Qed.

(** ** Moves *)

(** What a move reads: an immediate, a register or the length. *)
Definition reads (src : Operand.t) (v : Z) : Prop :=
  src = immediate v \/ src = register Ecx /\ v = index mc \/
  src = register Eax /\ v = accumulator mc \/ src = register R13d /\ v = zlen b.

Lemma simulate_move_a src v :
  reads src v -> code p [Plain (mov Width.Word (register Eax) src)] next ->
  leads here (simulates (set_a mc v)).
Proof. intros [->|[[-> ->]|[[-> ->]|[-> ->]]]] Hc; frame_step; fall_through. Qed.

Lemma simulate_move_x src v :
  reads src v -> code p [Plain (mov Width.Word (register Ecx) src)] next ->
  leads here (simulates (set_x mc v)).
Proof. intros [->|[[-> ->]|[[-> ->]|[-> ->]]]] Hc; frame_step; fall_through. Qed.

(** ** One step *)

(** An instruction that only falls through to the next one. *)
Definition falls_through (o : opcode) : bool :=
  negb (is_return o || is_conditional_jump o || bool_decide (o = JMP_JA)).

Lemma serves_absolute i o w :
  Source.profile_rejects i profile = false -> decode (BpfInstruction.code i) = Some o ->
  o = match w with Word => LD_W_ABS | Half => LD_H_ABS | Byte => LD_B_ABS end ->
  is_context profile || negb (is_some (ancillary_from_offset (k i))) = true /\
  (ancillary_from_offset (k i) = None -> aligned w (k i) = true).
Proof.
  unfold Source.profile_rejects. intros Hrej Hd Ho. rewrite Hd, Ho in Hrej. apply orb_false_iff in Hrej as [H1 H2].
  split.
  - destruct (ancillary_from_offset (k i)) as [field|] eqn:Ef; [|apply orb_true_r].
    apply ancillary_from_offset_Some in Ef. rewrite Ef in H1.
    assert (is_ancillary_offset (Ancillary.encoded_offset field) = true) as Ha by by destruct field.
    rewrite Ha in H1. by destruct w, (is_context profile).
  - intros _. unfold aligned. destruct profile; [done..|]. destruct w; [done..|].
    simpl in H2. by apply negb_false_iff in H2.
Qed.

Lemma sub_wrap_zero v : in_u32 v -> (X86.wrap X86.S32 (accumulator mc - v) =? 0) = (accumulator mc =? v).
Proof.
  unfold in_u32, u32_MAX, X86.wrap in *. simpl X86.bits. change (2 ^ 32) with 4294967296.
  intros Hv. destruct (Z.eqb_spec (accumulator mc) v) as [->|Hne].
  - by rewrite Z.sub_diag.
  - apply Z.eqb_neq. intros Hz. apply Z.mod_divide in Hz as [q Hq]; lia.
Qed.

Lemma holds_condition o v :
  in_u32 v -> is_conditional_jump o = true ->
  jump_condition o (accumulator mc) v = 
  Some (holds match o with JMP_JSET_K | JMP_JSET_X => true | _ => false end
   match o with
   | JMP_JEQ_K | JMP_JEQ_X => Equal
   | JMP_JGT_K | JMP_JGT_X => Above
   | JMP_JGE_K | JMP_JGE_X => AboveOrEqual
   | _ => NotEqual
   end (accumulator mc) v).
Proof.
  intros Hv Ho. pose proof (sub_wrap_zero v Hv) as E.
  destruct o; try done; unfold holds; simpl; try rewrite E; f_equal; lia.
Qed.

Lemma simulate_conditional_jump i o e :
  in_u32 (k i) -> is_conditional_jump o = true ->
  code p (lower profile (BpfProgram.pc mc) i o) e ->
  leads here (simulates (conditional_jump o mc i)).
Proof.
  intros Hk Ho Hc. unfold conditional_jump.
  assert (in_u32 (jump_operand o mc (k i))) as Hv by by destruct o.
  rewrite holds_condition by done.
  destruct o; try done; cbn [lower] in Hc;
    first [ eapply (simulate_conditional true); [|exact Hv|exact Hc]
          | eapply (simulate_conditional false); [|exact Hv|exact Hc] ];
    unfold denotes; simpl; tauto.
Qed.

(** Arithmetic on the accumulator. *)
Lemma simulate_alu i o len :
  in_u32 (k i) -> instruction_checks len (BpfProgram.pc mc) i o ->
  decode (BpfInstruction.code i) = Some o ->
  match o with
  | ALU_ADD_K | ALU_ADD_X | ALU_SUB_K | ALU_SUB_X | ALU_MUL_K | ALU_MUL_X
  | ALU_DIV_K | ALU_DIV_X | ALU_OR_K | ALU_OR_X | ALU_AND_K | ALU_AND_X
  | ALU_LSH_K | ALU_LSH_X | ALU_RSH_K | ALU_RSH_X | ALU_NEG | ALU_MOD_K
  | ALU_MOD_X | ALU_XOR_K | ALU_XOR_X => True
  | _ => False
  end ->
  code p (lower profile (BpfProgram.pc mc) i o) next ->
  leads here (simulates (execute input i mc)).
Proof.
  intros Hk Hchk Hdec Ho Hc. unfold execute. rewrite Hdec.
  assert (denotes (immediate (k i)) (k i)) as Dk by by left.
  assert (denotes (register Ecx) (index mc)) as Dx by by right.
  pose proof (fun kind => simulate_binary kind _ _ Dk Hk) as Bk.
  pose proof (fun kind => simulate_binary kind _ _ Dx x_u32) as Bx.
  assert (0 <= k i) by (unfold in_u32 in Hk; lia).
  destruct o; try done; simpl in Hchk; cbn [lower] in Hc.
  - by apply (Bk Add).
  - by apply (Bx Add).
  - by apply (Bk Sub).
  - by apply (Bx Sub).
  - by apply simulate_multiply_k.
  - by apply (Bx Mul).
  - by apply (simulate_divide_k false).
  - by apply (simulate_divide_x false).
  - by apply (Bk Or).
  - by apply (Bx Or).
  - by apply (Bk And).
  - by apply (Bx And).
  - by apply (simulate_shift_k ShiftLeft).
  - by apply (simulate_shift_x ShiftLeft).
  - by apply (simulate_shift_k ShiftRight).
  - by apply (simulate_shift_x ShiftRight).
  - by apply simulate_neg.
  - by apply (simulate_divide_k true).
  - by apply (simulate_divide_x true).
  - by apply (Bk Xor).
  - by apply (Bx Xor).
Qed.

Lemma simulate_step i o e len :
  instruction_typed i -> decode (BpfInstruction.code i) = Some o ->
  instruction_checks len (BpfProgram.pc mc) i o ->
  Source.profile_rejects i profile = false ->
  code p (lower profile (BpfProgram.pc mc) i o) e -> (falls_through o = true -> e = next) ->
  leads here (simulates (execute input i mc)).
Proof.
  intros (_ & _ & _ & Hk) Hdec Hchk Hrej Hc He.
  assert (0 <= k i) by (unfold in_u32 in Hk; lia).
  destruct o; try specialize (He eq_refl) as ->;
    try by (eapply simulate_alu; [..|exact Hc]).
  all: unfold execute; rewrite Hdec.
  all: try by (eapply simulate_conditional_jump; [..|exact Hc]).
  all: simpl in Hchk; cbn [lower] in Hc; rewrite ?input_len_b.
  all: try (eapply simulate_move_a || eapply simulate_move_x; [|exact Hc]; unfold reads; tauto).
  - destruct (serves_absolute i LD_W_ABS Word) as [??]; [done..|by apply simulate_absolute].
  - destruct (serves_absolute i LD_H_ABS Half) as [??]; [done..|by apply simulate_absolute].
  - destruct (serves_absolute i LD_B_ABS Byte) as [??]; [done..|by apply simulate_absolute].
  - by apply simulate_indirect.
  - by apply simulate_indirect.
  - by apply simulate_indirect.
  - by apply simulate_load_a.
  - by apply simulate_load_x.
  - by apply simulate_msh.
  - by apply (simulate_store Eax); [..|left|].
  - by apply (simulate_store Ecx); [..|right|].
  - by eapply simulate_jump_to.
  - by eapply simulate_ret_k.
  - by eapply simulate_ret_a.
Qed.

End Instruction.

(** ** Whole programs *)

Context {wf : I -> Prop} `{!InputTyped I wf}.
Hypothesis input_wf : wf input.
Variable l : list Instruction.
Hypothesis l_ok : structure_ok l.
Hypothesis l_typed : Forall instruction_typed l.
Hypothesis l_served : Forall (fun i => Source.profile_rejects i profile = false) l.
Hypothesis l_code : forall pc i o, get l pc = Some i ->
  decode (BpfInstruction.code i) = Some o ->
  exists e, code (off (Target.Source pc)) (lower profile pc i o) e /\
    (pc + 1 < zlen l -> e = off (Target.Source (pc + 1))).

Lemma simulate_run fuel steps mc s v n :
  machine_typed mc -> 0 <= BpfProgram.pc mc < zlen l -> represents mc s ->
  evaluate_loop input l fuel steps mc = Evaluated v n -> leads s (at_epilogue v).
Proof.
  revert steps mc s. induction fuel as [|fuel IH]; intros steps mc s Hmt Hpc Hs; [done|].
  simpl. destruct (get_in_range l (BpfProgram.pc mc) Hpc) as [i Hi]. rewrite Hi.
  pose proof l_ok as (Hlen & Hall & _). destruct (get_Some _ _ _ Hi) as [_ Hlook].
  pose proof (Forall_lookup_1 _ _ _ _ l_typed Hlook) as Hty.
  pose proof (Forall_lookup_1 _ _ _ _ l_served Hlook) as Hrej.
  specialize (Hall _ _ Hi).
  pose proof (execute_safe input (zlen l) i mc input_wf Hty Hmt ltac:(lia) ltac:(lia) Hall) as Hsafe.
  pose proof Hty as (_ & _ & _ & Hk).
  apply verify_instruction_Ok in Hall as (o & Hdec & Hchk); [|lia|done|lia].
  destruct (l_code _ _ _ Hi Hdec) as (e & Hc & He).
  destruct Hs as (d & r14 & r15 & f & m & -> & Hmem). pose proof Hmt as (Ha & Hx & _).
  assert (leads (st (accumulator mc) (index mc) d r14 r15 f m (off (Target.Source (BpfProgram.pc mc))))
    (simulates (execute input i mc))) as Hstep.
  { eapply simulate_step; [done..|exact Hc|]. intros Hf. apply He.
    eapply fallthrough_in_range; [done..|]. by destruct o. }
  intros Hrun. eapply leads_trans; [exact Hstep|]. intros s1 Hs1.
  destruct (execute input i mc) as [mc'|v'|]; simpl in Hs1, Hsafe; [| |done].
  - destruct Hsafe as [Hmt' Hsucc].
    pose proof (successors_in_range l _ i _ l_ok l_typed Hi Hsucc).
    eapply IH; [done|lia|done|exact Hrun].
  - injection Hrun as <- _. by apply leads_now.
Qed.

End Frame.

(** ** Calls *)

(** Addresses that are mapped. *)
Definition mapped (lo hi : Z) (m : gmap Z Z) : Prop :=
  forall a, lo <= a < hi -> is_Some (m !! a).

Lemma mapped_same lo hi lo' hi' m m' :
  same_outside lo' hi' m m' -> mapped lo' hi' m' -> mapped lo hi m -> mapped lo hi m'.
Proof.
  intros Hs Hm' Hm a Ha. destruct (decide (lo' <= a < hi')) as [?|Hn]; [by apply Hm'|].
  rewrite (Hs a Hn). by apply Hm.
Qed.

Lemma load_mapped n a m :
  mapped a (a + Z.of_nat n) m -> (forall q v, m !! q = Some v -> in_u8 v) ->
  exists v, X86.load n a m = Some v /\ 0 <= v < 256 ^ Z.of_nat n.
Proof.
  intros Hm Hu. revert a Hm. induction n as [|n IH]; intros a Hm; [exists 0; by simpl|].
  rewrite load_S. destruct (Hm a) as [v Hv]; [lia|]. rewrite Hv. simpl.
  destruct (IH (a + 1)) as (r & Hr & Hrange); [intros q Hq; apply Hm; lia|]. rewrite Hr. simpl.
  apply Hu in Hv. unfold in_u8, u8_MAX in Hv. eexists. split; [done|].
  rewrite Nat2Z.inj_succ, Z.pow_succ_r by lia. lia.
Qed.

Lemma same_outside_mono lo hi lo' hi' m m' :
  same_outside lo hi m m' -> lo' <= lo -> hi <= hi' -> same_outside lo' hi' m m'.
Proof. intros Hs Hlo Hhi a Ha. apply Hs. lia. Qed.

(** A push into mapped memory. *)
Lemma push_store sp v m :
  mapped (sp - 8) sp m -> in_u64 v ->
  exists m', X86.store 8 (sp - 8) v m = Some m' /\ X86.load 8 (sp - 8) m' = Some v /\
    same_outside (sp - 8) sp m m'.
Proof.
  intros Hm Hv. destruct (store_Some 8 (sp - 8) v m) as (m' & ? & ? & Hs).
  - intros i Hi. apply Hm. lia.
  - unfold in_u64, u64_MAX in Hv. change (256 ^ Z.of_nat 8) with 18446744073709551616. lia.
  - exists m'. split; [done|]. split; [done|]. eapply same_outside_mono; [exact Hs|lia|lia].
Qed.

(** Where the five pushes leave the caller's registers. *)
Definition saved (sp bp r12 r13 r14 r15 : Z) (m : gmap Z Z) : Prop :=
  X86.load 8 (sp - 8) m = Some bp /\ X86.load 8 (sp - 16) m = Some r12 /\
  X86.load 8 (sp - 24) m = Some r13 /\ X86.load 8 (sp - 32) m = Some r14 /\
  X86.load 8 (sp - 40) m = Some r15.

Lemma pushes_store sp bp r12 r13 r14 r15 m0 :
  mapped (sp - 40) sp m0 -> in_u64 bp -> in_u64 r12 -> in_u64 r13 -> in_u64 r14 -> in_u64 r15 ->
  exists m1 m2 m3 m4 m5,
    X86.store 8 (sp - 8) bp m0 = Some m1 /\ X86.store 8 (sp - 16) r12 m1 = Some m2 /\
    X86.store 8 (sp - 24) r13 m2 = Some m3 /\ X86.store 8 (sp - 32) r14 m3 = Some m4 /\
    X86.store 8 (sp - 40) r15 m4 = Some m5 /\
    saved sp bp r12 r13 r14 r15 m5 /\ same_outside (sp - 40) sp m0 m5.
Proof.
  intros Hm Hb H2 H3 H4 H5.
  assert (forall n v m, 0 <= n -> n + 8 <= 40 -> same_outside (sp - n) sp m0 m -> in_u64 v ->
    exists m', X86.store 8 (sp - (n + 8)) v m = Some m' /\
      X86.load 8 (sp - (n + 8)) m' = Some v /\ same_outside (sp - (n + 8)) (sp - n) m m' /\
      same_outside (sp - (n + 8)) sp m0 m') as Hpush.
  { intros n v m Hn Hle Hs Hv. replace (sp - (n + 8)) with (sp - n - 8) by lia.
    destruct (push_store (sp - n) v m) as (m' & ? & ? & Hs'); [|done|].
    - intros a Ha. rewrite Hs by lia. apply Hm. lia.
    - exists m'. repeat (split; [done|]). eapply same_outside_trans;
        (eapply same_outside_mono; [eassumption|lia|lia]). }
  destruct (Hpush 0 bp m0) as (m1 & S1 & L1 & D1 & A1); [lia|lia|apply same_outside_refl|done|].
  destruct (Hpush 8 r12 m1) as (m2 & S2 & L2 & D2 & A2); [lia|lia|exact A1|done|].
  destruct (Hpush 16 r13 m2) as (m3 & S3 & L3 & D3 & A3); [lia|lia|exact A2|done|].
  destruct (Hpush 24 r14 m3) as (m4 & S4 & L4 & D4 & A4); [lia|lia|exact A3|done|].
  destruct (Hpush 32 r15 m4) as (m5 & S5 & L5 & D5 & A5); [lia|lia|exact A4|done|].
  exists m1, m2, m3, m4, m5. repeat (split; [done|]). split; [|done].
  unfold saved. simpl in *.
  repeat split; [..|done]; repeat
    match goal with
    | D : same_outside _ _ ?m ?m' |- X86.load _ _ ?m' = Some _ =>
        first [assumption | rewrite (load_outside _ _ _ _ _ _ D) by lia]
    end; done.
Qed.

Section Call.
Variables (image : list Z) (off : Target.t -> Z) (profile : InputProfile).
Variables (a0 x0 d0 bx sp bp si di r8 r9 r10 r11 r12 r13 r14 r15 data : Z) (b : list Z).
Variables (f0 : option (bool * bool)) (m0 : gmap Z Z).
Notation code := (code_at (exact off) image).

(** The registers at the call. *)
Definition caller_file : list Z :=
  [a0; x0; d0; bx; sp; bp; si; di; r8; r9; r10; r11; r12; r13; r14; r15].

Hypothesis stack_range : 104 <= sp /\ sp + 8 < 2 ^ 64.
Hypothesis stack_mapped : mapped (sp - 104) sp m0.
Hypothesis saved_u64 : in_u64 bp /\ in_u64 r12 /\ in_u64 r13 /\ in_u64 r14 /\ in_u64 r15.
Hypothesis di_u64 : in_u64 di.
Hypothesis data_u64 : 0 <= data < 2 ^ 64.

(** The packet as the profile's arguments pass it. *)
Definition arguments : Prop :=
  match profile with
  | PacketContextBigEndian =>
      di + 48 <= 2 ^ 64 /\ (di + 48 <= sp - 104 \/ sp <= di) /\
      X86.load 8 di m0 = Some data /\ X86.load 4 (di + LEN_OFFSET) m0 = Some (zlen b)
  | _ => di = data /\ X86.wrap X86.S32 si = zlen b
  end.
Hypothesis passed : arguments.

Lemma wrap_below n : 0 <= n <= 104 -> X86.wrap X86.S64 (sp - n) = sp - n.
Proof. intros. apply wrap64_id. lia. Qed.

(** Ends a run of the prologue. *)
Ltac finish_prologue :=
  rewrite ?Z.lxor_nilpotent; apply leads_now;
  match goal with Hc : code_at _ _ _ [] _ |- _ => inversion Hc; subst end;
  eexists _, _; split; [unfold st, file; repeat f_equal; done|done].

Lemma prologue_run p' :
  code 0 (lower_prologue profile) p' ->
  reaches image (X86.mkState caller_file f0 m0 0) (fun s => exists m1 f,
    s = st bx (sp - 40) si di r8 r9 r10 r11 data b 0 0 d0 r14 r15 f m1 p' /\
    same_outside (sp - 40) sp m0 m1 /\ saved sp bp r12 r13 r14 r15 m1).
Proof.
  intros Hc. destruct saved_u64 as (U1 & U2 & U3 & U4 & U5).
  destruct (pushes_store sp bp r12 r13 r14 r15 m0) as
    (m1 & m2 & m3 & m4 & m5 & S1 & S2 & S3 & S4 & S5 & Hsaved & Hsame); [|done..|].
  { intros a Ha. apply stack_mapped. lia. }
  assert (forall n, 0 <= n <= 96 -> X86.wrap X86.S64 (sp - n - 8) = sp - (n + 8)) as Hw
    by (intros n Hn; replace (sp - n - 8) with (sp - (n + 8)) by lia; apply wrap_below; lia).
  pose proof (wrap_below 8 ltac:(lia)) as W1. pose proof (Hw 8 ltac:(lia)) as W2.
  pose proof (Hw 16 ltac:(lia)) as W3. pose proof (Hw 24 ltac:(lia)) as W4.
  pose proof (Hw 32 ltac:(lia)) as W5. pose proof (wrap_below 40 ltac:(lia)) as W6.
  assert (X86.wrap X86.S64 (sp - 40 - 64) = sp - 40 - 64) as W7 by (apply wrap64_id; lia).
  clear Hw. change (8 + 8) with 16 in W2. change (16 + 8) with 24 in W3.
  change (24 + 8) with 32 in W4. change (32 + 8) with 40 in W5.
  assert (X86.wrap X86.S64 di = di) as W8
    by (apply wrap64_id; unfold in_u64, u64_MAX in di_u64; lia).
  unfold arguments, lower_prologue, caller_file in *.
  destruct profile; simpl in Hc; do 7 native_step.
  - destruct passed as [Hdi Hsi]. do 4 native_step. finish_prologue.
  - destruct passed as (Hdi & Hd & Hl1 & Hl2). unfold LEN_OFFSET in *.
    assert (X86.wrap X86.S64 (di + 0) = di) as W9 by by rewrite Z.add_0_r.
    assert (X86.wrap X86.S64 (di + 8) = di + 8) as W10
      by (apply wrap64_id; unfold in_u64 in di_u64; lia).
    rewrite <- (load_outside _ _ _ _ _ _ Hsame) in Hl1 by lia.
    rewrite <- (load_outside _ _ _ _ _ _ Hsame) in Hl2 by lia.
    do 4 native_step. finish_prologue.
  - destruct passed as [Hdi Hsi]. do 4 native_step. finish_prologue.
Qed.

(** The epilogue and the return. *)
Lemma epilogue_run v x d r14' r15' f m p' ret :
  code (off Target.Epilogue) lower_epilogue p' -> saved sp bp r12 r13 r14 r15 m ->
  X86.load 8 sp m = Some ret ->
  reaches image
    (st bx (sp - 40) si di r8 r9 r10 r11 data b v x d r14' r15' f m (off Target.Epilogue))
    (fun s => exists f p, X86.step image s = X86.Returned ret (X86.mkState
      [v; x; d; bx; sp + 8; bp; si; di; r8; r9; r10; r11; r12; r13; r14; r15] f m p)).
Proof.
  intros Hc (L1 & L2 & L3 & L4 & L5) Hret. unfold lower_epilogue in Hc. simpl in Hc.
  assert (forall n, 8 <= n <= 40 -> X86.wrap X86.S64 (sp - n + 8) = sp - (n - 8)) as Hw
    by (intros n Hn; replace (sp - n + 8) with (sp - (n - 8)) by lia; apply wrap_below; lia).
  assert (X86.wrap X86.S64 (sp - 40 - 64) = sp - 40 - 64) as W0 by (apply wrap64_id; lia).
  assert (X86.wrap X86.S64 (sp - 40 - 64 + 64) = sp - 40) as W1
    by (replace (sp - 40 - 64 + 64) with (sp - 40) by lia; apply wrap_below; lia).
  pose proof (Hw 40 ltac:(lia)) as W2. pose proof (Hw 32 ltac:(lia)) as W3.
  pose proof (Hw 24 ltac:(lia)) as W4. pose proof (Hw 16 ltac:(lia)) as W5.
  pose proof (Hw 8 ltac:(lia)) as W6. clear Hw.
  change (40 - 8) with 32 in W2. change (32 - 8) with 24 in W3. change (24 - 8) with 16 in W4.
  change (16 - 8) with 8 in W5. change (8 - 8) with 0 in W6. rewrite Z.sub_0_r in W6.
  assert (X86.wrap X86.S64 (sp + 8) = sp + 8) as W7 by (apply wrap64_id; lia).
  unfold st, file. do 6 native_step. apply leads_now.
  match goal with |- context [X86.step image ?s] =>
    destruct (code_step off image s _ _ _ Hc) as (i & q & Hi & Hs & _) end.
  unfold exact in Hi. simpl in Hi. injection Hi as <-. rewrite Hs. native_exec. by do 2 eexists.
Qed.

End Call.
