(* ===== verification/BpfCall.v ===== *)
(** Classic BPF, native code, part 8: calls.

    [called]: the state in which an image is called with a packet. An image that
    holds the lowering of a program ([located]) returns the value the interpreter
    computes, with the stack pointer and the callee-saved registers restored and
    no memory changed outside its frame ([native_call]). *)

From stdpp Require Import gmap relations.
From S2P Require Import Prelude Effects BpfInstruction BpfProgram BpfControlFlow BpfVerified BpfNative BpfValidate BpfTranslate BpfX86 BpfLowering BpfAssemble BpfSimulation.
Local Open Scope Z_scope.

#[local] Arguments X86.load : simpl never.
#[local] Arguments X86.store : simpl never.
#[local] Arguments X86.wrap : simpl never.
#[local] Arguments X86.run : simpl never.
#[local] Arguments X86.step : simpl never.

(** ** Calls of translated code *)

Definition rsp (s : X86.state) : Z := X86.get_reg 4 s.
Definition rdi (s : X86.state) : Z := X86.get_reg 7 s.
Definition rsi (s : X86.state) : Z := X86.get_reg 6 s.

(** A call of an image with the packet [b] at address [data]: 104 bytes of
    stack below the return address, the packet outside of them and the
    arguments of the profile's calling convention. *)
Record called (profile : InputProfile) (s : X86.state) (ret data : Z) (b : list Z) : Prop := {
  call_regs : length (X86.regs s) = 16%nat;
  call_u64 : Forall in_u64 (X86.regs s);
  call_u8 : forall a v, X86.mem s !! a = Some v -> in_u8 v;
  call_ip : X86.ip s = 0;
  call_stack : 104 <= rsp s /\ rsp s + 8 < 2 ^ 64;
  call_mapped : mapped (rsp s - 104) (rsp s) (X86.mem s);
  call_return : X86.load 8 (rsp s) (X86.mem s) = Some ret;
  call_data : 0 <= data < 2 ^ 64 /\ data + zlen b <= 2 ^ 64;
  call_len : in_u32 (zlen b);
  call_packet : forall n v, b !! n = Some v -> X86.mem s !! (data + Z.of_nat n) = Some v;
  call_disjoint : data + zlen b <= rsp s - 104 \/ rsp s <= data;
  call_arguments : arguments profile (rsp s) (rsi s) (rdi s) data b (X86.mem s)
}.

(** The state after the return of [v]: the stack and the callee-saved
    registers are restored, and only the frame has changed. *)
Definition returns (s : X86.state) (v : Z) (s' : X86.state) : Prop :=
  X86.get_reg 0 s' = v /\ rsp s' = rsp s + 8 /\
  (forall n, n ∈ [3; 5; 12; 13; 14; 15]%nat -> X86.get_reg n s' = X86.get_reg n s) /\
  same_outside (rsp s - 104) (rsp s) (X86.mem s) (X86.mem s').

(** An image that holds the lowering of a program: the code of every piece is
    at the offset its branches use. *)
Record located (profile : InputProfile) (l : list Instruction) (image : list Z)
    (off : Target.t -> Z) : Prop := {
  located_prologue :
    code_at (exact off) image 0 (lower_prologue profile) (off (Target.Source 0));
  located_source pc i o :
    get l pc = Some i -> decode (code i) = Some o ->
    exists e, code_at (exact off) image (off (Target.Source pc)) (lower profile pc i o) e /\
      (pc + 1 < zlen l -> e = off (Target.Source (pc + 1)));
  located_failure : exists e, code_at (exact off) image (off Target.Failure) lower_failure e;
  located_epilogue : exists e, code_at (exact off) image (off Target.Epilogue) lower_epilogue e
}.

(** The assembled image does. *)
Lemma program_located profile l :
  Forall instruction_typed l -> 0 < zlen l -> program_size profile l <= I32_MAX ->
  located profile l (program_image profile l) (target_offset profile l).
Proof.
  intros Hty Hl Hsize. destruct (tail_code_at profile l Hsize) as [Hfail Hep].
  split; [| |by eexists..].
  - change 0 with (Z.of_nat 0) at 2. rewrite target_offset_source by (unfold zlen in Hl; lia).
    rewrite offset_of_start. by apply prologue_code_at.
  - intros pc i o Hi Hdec. apply get_Some in Hi as [Hpc Hi].
    pose proof (instruction_code_at profile l Hty Hsize _ _ Hi) as Hc.
    unfold lower_at in Hc. rewrite Hdec in Hc. rewrite Z2Nat.id in Hc by lia.
    exists (offset_of profile l (S (Z.to_nat pc))). unfold zlen in *. split.
    + rewrite <- (Z2Nat.id pc) at 1 by lia. rewrite target_offset_source by lia. done.
    + intros Hn. replace (pc + 1) with (Z.of_nat (S (Z.to_nat pc))) by lia.
      by rewrite target_offset_source by lia.
Qed.

Section Call.
Context {I : Type} `{Input I} {wf : I -> Prop} `{!InputTyped I wf}.
Variables (input : I) (profile : InputProfile) (l : list Instruction).
Variables (image : list Z) (off : Target.t -> Z).
Variables (s : X86.state) (ret data : Z) (b : list Z).
Hypothesis input_wf : wf input.
Hypothesis l_ok : structure_ok l.
Hypothesis l_paths : all_paths_initialized l.
Hypothesis l_typed : Forall instruction_typed l.
Hypothesis l_served : Forall (fun i => Source.profile_rejects i profile = false) l.
Hypothesis l_located : located profile l image off.
Hypothesis call : called profile s ret data b.
Hypothesis input_len_b : input_len input = zlen b.
Hypothesis input_load_b : forall o w, in_u32 o ->
  input_load input o w =
  if (o + width_bytes w <=? zlen b) && aligned profile w o
  then Some (load_value profile (slice b o (load_bytes w))) else None.
Hypothesis input_ancillary_b : is_context profile = true -> forall field,
  exists v, input_ancillary input field = Some v /\
    X86.load 4 (rdi s + (METADATA_OFFSET + Ancillary.metadata_offset field)) (X86.mem s) = Some v.


(** The words the frame holds before the first store. *)
Lemma initial_words sp m :
  mapped (sp - 104) sp m -> (forall a v, m !! a = Some v -> in_u8 v) ->
  exists scr, Forall in_u32 scr /\ zlen scr = SCRATCH_WORDS /\
    forall n v, scr !! n = Some v -> X86.load 4 (sp - 40 - 4 * (Z.of_nat n + 1)) m = Some v.
Proof.
  intros Hm Hu. set (word n := default 0 (X86.load 4 (sp - 40 - 4 * (Z.of_nat n + 1)) m)).
  exists (word <$> seq 0 16).
  assert (forall n, (n < 16)%nat -> X86.load 4 (sp - 40 - 4 * (Z.of_nat n + 1)) m = Some (word n)
    /\ in_u32 (word n)) as Hw.
  { intros n Hn. unfold word.
    destruct (load_mapped 4 (sp - 40 - 4 * (Z.of_nat n + 1)) m) as (v & Hv & Hr);
      [intros a Ha; apply Hm; lia|done|]. rewrite Hv. split; [done|].
    unfold in_u32, u32_MAX. simpl in *. lia. }
  split; [|split; [done|]].
  - apply Forall_fmap, Forall_seq. intros n Hn. simpl. apply Hw. lia.
  - intros n v Hn. apply list_lookup_fmap_Some in Hn as (k & -> & Hk).
    apply lookup_seq in Hk as [-> Hk]. by apply Hw.
Qed.

Lemma evaluates :
  exists v, evaluate (mkProgram l) input = Some v /\
    forall scr, zlen scr = SCRATCH_WORDS ->
    exists n, evaluate_loop input l (length l) 0 (mkMachine 0 0 scr 0) = Evaluated v n.
Proof.
  pose proof l_ok as (Hlen & _).
  destruct (evaluate_loop_total input l (length l) 0 initial_machine) as (v & n & Hv & _);
    [done..|apply initial_machine_typed|simpl; lia|unfold zlen; simpl; lia|].
  exists v. unfold evaluate, evaluate_counted. simpl. rewrite Hv. split; [done|]. intros scr Hscr.
  exists n. rewrite <- Hv.
  apply (evaluate_loop_agree input l (length l) 0 0 initial_machine scr); try done.
  - apply initial_machine_typed.
  - constructor.
  - split; [done|]. split; [done|]. intros w Hw. by rewrite Z.testbit_0_l in Hw.
Qed.

(** From the end of the prologue to the epilogue. *)
Lemma body_run v bx sp si di r8 r9 r10 r11 d r14 r15 f m0 m1 :
  rsp s = sp -> rdi s = di -> X86.mem s = m0 -> in_u64 di ->
  evaluate (mkProgram l) input = Some v -> same_outside (sp - 40) sp m0 m1 ->
  reaches image
    (st bx (sp - 40) si di r8 r9 r10 r11 data b 0 0 d r14 r15 f m1 (off (Target.Source 0)))
    (at_epilogue off bx (sp - 40) si di r8 r9 r10 r11 data b m1 v).
Proof.
  intros Esp Edi Em Hdi Hv Hsame. destruct evaluates as (v' & Hv' & Hrun).
  assert (v' = v) as -> by congruence. clear Hv'.
  destruct call as [_ _ Hu8 _ Hstack Hmapped _ Hdata Hlen Hpacket Hdis Hargs]. subst sp di m0.
  destruct (initial_words (rsp s) (X86.mem s) Hmapped Hu8) as (scr & Hscr & Hwords & Hload).
  destruct (Hrun scr Hwords) as [n Hn]. pose proof l_ok as (Hl & _).
  eapply simulate_run with (wf := wf) (mc := mkMachine 0 0 scr 0); [..|exact Hn]; try done; try lia.
  - apply Forall_lookup. intros i u Hi. eapply Hu8. by apply Hpacket.
  - intros i u Hi. pose proof (lookup_lt_Some _ _ _ Hi). rewrite Hsame; [by apply Hpacket|].
    unfold zlen in *. lia.
  - by apply located_failure in l_located.
  - intros Hc field. destruct (input_ancillary_b Hc field) as (u & Hu & Hm).
    destruct profile; try done. destruct Hargs as (Hr & Hd & _).
    assert (0 <= METADATA_OFFSET + Ancillary.metadata_offset field <= 44) as Hrange
      by (unfold METADATA_OFFSET; destruct field; simpl; lia).
    unfold in_u64, u64_MAX in Hdi. exists u. eexists. split; [done|].
    split; [apply wrap64_id; lia|]. split; [|lia].
    rewrite <- Hm. eapply load_outside; [exact Hsame|lia].
  - intros pc i o. by apply (located_source _ _ _ _ l_located).
  - repeat split; unfold u32_MAX; simpl; try lia; done.
  - exists d, r14, r15, f, m1. split.
    + done.
    + split; [apply same_outside_refl|]. split; [done|]. intros i u Hi.
      erewrite load_outside; [by apply Hload|exact Hsame|].
      apply lookup_lt_Some in Hi. unfold zlen, SCRATCH_WORDS in Hwords. lia.
Qed.

Lemma native_call :
  exists v fuel s', evaluate (mkProgram l) input = Some v /\
    X86.run image fuel s = Some (X86.Returned ret s') /\ returns s v s'.
Proof.
  destruct evaluates as (v & Hv & _). exists v.
  pose proof call as [Hlen16 Hu64 _ Hip Hstack Hmapped Hret Hdata _ _ Hdis Hargs].
  pose proof (body_run v) as Hbody.
  destruct s as [rs f0 m0 ip0] eqn:Es. unfold rsp, rdi, rsi, X86.get_reg in *. simpl in *. subst ip0.
  destruct rs as [|a0 [|x0 [|d0 [|bx [|sp [|bp [|si [|di [|r8 [|r9 [|r10 [|r11 [|r12 [|r13
    [|r14 [|r15 [|]]]]]]]]]]]]]]]]]; try done. simpl in *.
  rewrite !Forall_cons in Hu64.
  destruct (prologue_run image off profile
    a0 x0 d0 bx sp bp si di r8 r9 r10 r11 r12 r13 r14 r15 data b f0 m0 Hstack Hmapped)
    with (p' := off (Target.Source 0)) as (s1 & Hreach1 & m1 & f1 & -> & Hsame1 & Hsaved1);
    [tauto|tauto|done|by apply located_prologue in l_located|].
  destruct (Hbody bx sp si di r8 r9 r10 r11 d0 r14 r15 f1 m0 m1) as
    (s2 & Hreach2 & x & d & r14' & r15' & f & m & -> & Hsame2); [done..|tauto|done|done|].
  assert (saved sp bp r12 r13 r14 r15 m /\ X86.load 8 sp m = Some ret) as [Hsaved2 Hret2].
  { unfold saved in *. rewrite !(load_outside _ _ _ _ _ _ Hsame2) by lia.
    rewrite (load_outside 8 sp _ _ _ _ Hsame1) by lia. done. }
  destruct (located_epilogue _ _ _ _ l_located) as [e Hep].
  destruct (epilogue_run image off
    bx sp bp si di r8 r9 r10 r11 r12 r13 r14 r15 data b Hstack v x d r14' r15' f m _ ret Hep Hsaved2 Hret2)
    as (s3 & Hreach3 & f3 & p3 & Hstep).
  assert (X86.run image 1 s3 = Some (X86.Returned ret
    (X86.mkState [v; x; d; bx; sp + 8; bp; si; di; r8; r9; r10; r11; r12; r13; r14; r15]
       f3 m p3))) as Hlast by (unfold X86.run; by rewrite Hstep).
  apply (run_reach _ _ _ Hreach3) in Hlast as [? Hlast].
  apply (run_reach _ _ _ Hreach2) in Hlast as [? Hlast].
  apply (run_reach _ _ _ Hreach1) in Hlast as [fuel Hlast].
  exists fuel. eexists. split; [done|]. split; [exact Hlast|]. repeat split.
  - intros n Hn. rewrite !elem_of_cons, elem_of_nil in Hn.
    destruct Hn as [->|[->|[->|[->|[->|[->|[]]]]]]]; done.
  - simpl. eapply same_outside_trans; eapply same_outside_mono; [exact Hsame1| | |exact Hsame2| |];
      unfold rsp, X86.get_reg; simpl; lia.
Qed.

End Call.

(** ** The three kinds of input *)

Lemma get_range_slice (b : list Z) o w :
  in_u32 o ->
  match checked_add_usize o (width_bytes w) with
  | None => None
  | Some finish => get_range b o finish
  end = if o + width_bytes w <=? zlen b then Some (slice b o (load_bytes w)) else None.
Proof.
  intros Ho. unfold in_u32, u32_MAX in Ho. assert (1 <= width_bytes w <= 4) by (destruct w; simpl; lia).
  unfold checked_add_usize, usize_MAX, u64_MAX. rewrite (proj2 (Z.leb_le _ _)) by lia.
  unfold get_range. rewrite !(proj2 (Z.leb_le _ _)) by lia. simpl.
  destruct (o + width_bytes w <=? zlen b); [|done]. unfold slice.
  replace (Z.to_nat (o + width_bytes w - o)) with (load_bytes w); [done|].
  rewrite width_bytes_nat. lia.
Qed.

Lemma bytes_load_slice b o w :
  in_u32 o -> bytes_load b o w =
  if o + width_bytes w <=? zlen b then Some (from_be_bytes (slice b o (load_bytes w))) else None.
Proof.
  intros Ho. unfold bytes_load. pose proof (get_range_slice b o w Ho) as E.
  destruct (checked_add_usize o (width_bytes w)); [rewrite E|]; by case_match.
Qed.

Lemma native_load_slice base b o w :
  in_u32 o -> NativeWordInput.load (mkNativeWordInput base b) o w =
  if (o + width_bytes w <=? zlen b) && aligned NativeAlignedWords w o
  then Some (from_le_bytes (slice b o (load_bytes w))) else None.
Proof.
  intros Ho. unfold NativeWordInput.load. simpl native_bytes.
  pose proof (get_range_slice b o w Ho) as E.
  destruct (checked_add_usize o (width_bytes w)); [rewrite E|]; unfold aligned;
    destruct w; repeat case_match; naive_solver lia.
Qed.

Lemma bytes_len_u32_id b : in_u32 (zlen b) -> bytes_len b = zlen b.
Proof. intros [_ Hb]. unfold bytes_len. by rewrite (proj2 (Z.leb_le _ _) Hb). Qed.

(** ** The interface between inputs and native code *)

(** [NativeInput I profile bytes_of context]: native code of the profile sees
    an input as the bytes [bytes_of i] in memory and, for a packet context, as
    metadata in the calling state. *)
Class NativeInput (I : Type) `{Input I} (profile : InputProfile) (bytes_of : I -> list Z)
    (context : I -> X86.state -> Prop) : Prop := {
  native_len i : in_u32 (zlen (bytes_of i)) -> input_len i = zlen (bytes_of i);
  native_load i o w : in_u32 o ->
    input_load i o w =
    if (o + width_bytes w <=? zlen (bytes_of i)) && aligned profile w o
    then Some (load_value profile (slice (bytes_of i) o (load_bytes w))) else None;
  native_ancillary i s : is_context profile = true -> context i s -> forall field,
    exists v, input_ancillary i field = Some v /\
      X86.load 4 (rdi s + (METADATA_OFFSET + Ancillary.metadata_offset field)) (X86.mem s) = Some v
}.

Definition no_context {I : Type} (_ : I) (_ : X86.state) : Prop := True.

(** [PacketInputContext::metadata]: the snapshot lies behind the first argument. *)
Definition metadata_at (p : PacketInput) (s : X86.state) : Prop :=
  forall field,
  X86.load 4 (rdi s + (METADATA_OFFSET + Ancillary.metadata_offset field)) (X86.mem s) =
    Some (metadata_ancillary (metadata p) field).

#[export] Instance bytes_native :
  NativeInput (list Z) PacketBytesBigEndian (fun b => b) no_context.
Proof.
  split.
  - intros b. apply bytes_len_u32_id.
  - intros b o w Ho. simpl. rewrite bytes_load_slice by done. by rewrite andb_true_r.
  - done.
Qed.

#[export] Instance packet_native :
  NativeInput PacketInput PacketContextBigEndian bytes metadata_at.
Proof.
  split.
  - intros p. apply bytes_len_u32_id.
  - intros p o w Ho. simpl. rewrite bytes_load_slice by done. by rewrite andb_true_r.
  - intros p s _ Hm field. eexists. split; [done|apply Hm].
Qed.

#[export] Instance words_native :
  NativeInput NativeWordInput NativeAlignedWords native_bytes no_context.
Proof.
  split.
  - intros [base b] Hb. apply (bytes_len_u32_id b Hb).
  - intros [base b] o w Ho. apply (native_load_slice base b o w Ho).
  - done.
Qed.

Lemma from_le_bytes_range bs : bytes_wf bs -> 0 <= from_le_bytes bs < 256 ^ zlen bs.
Proof.
  unfold from_le_bytes. induction 1 as [|b bs Hb Hbs IH]; cbn [foldr]; [unfold zlen; simpl; lia|].
  unfold zlen in *. cbn [length]. rewrite Nat2Z.inj_succ, Z.pow_succ_r by lia.
  unfold in_u8, u8_MAX in Hb. lia.
Qed.

Definition words_wf (n : NativeWordInput) : Prop := bytes_wf (native_bytes n).

Lemma get_range_wf b o f bs :
  bytes_wf b -> get_range b o f = Some bs -> bytes_wf bs /\ zlen bs <= Z.max 0 (f - o).
Proof.
  unfold get_range. intros Hb. case_match; [|done]. intros [= <-].
  split; [by apply Forall_take, Forall_drop|]. unfold zlen. rewrite length_take. lia.
Qed.

#[export] Instance words_input_typed : InputTyped NativeWordInput words_wf.
Proof.
  split; [..|done].
  - intros [base b] _. apply (bytes_len_u32 b).
  - intros [base b] o w v Hwf. simpl. unfold NativeWordInput.load. simpl native_bytes.
    destruct (match w with Word => _ | _ => _ end); [done|].
    unfold checked_add_usize. destruct (o + width_bytes w <=? usize_MAX); [|done].
    destruct (get_range b o (o + width_bytes w)) as [bs|] eqn:E; [|done]. intros [= <-].
    apply get_range_wf in E as [Hbs Hlen]; [|done]. pose proof (from_le_bytes_range bs Hbs) as Hr.
    assert (width_bytes w <= 4) by (destruct w; simpl; lia).
    pose proof (Z.pow_le_mono_r 256 (zlen bs) 4). unfold in_u32, u32_MAX. lia.
Qed.
