(* ===== verification/BpfAccepted.v ===== *)
(** Classic BPF, native code, part 9: the checks of the source.

    The translator and the validator each check the source again, with code of
    their own. [validate_source_verify]: the translator's check is the
    verifier's, result by result. [contract_verify]: the validator's contract
    accepts exactly the verified programs the profile serves.

    Classic BPF, native code, part 10: what an accepted image contains.

    [layout_sound]: bytes accepted by [validate_translation_layout] hold, at the
    offsets the branches use, the lowering of the source, except that a word
    load may lack its prefix. *)

From S2P Require Import Prelude BpfInstruction BpfProgram BpfControlFlow BpfVerified Effects BpfNative BpfValidate BpfTranslate BpfX86 BpfLowering BpfAssemble BpfSimulation BpfCall.
Local Open Scope Z_scope.

(** ** The translator's check is the verifier's *)

Lemma check_instruction_verify len pc i :
  Source.check_instruction len pc i = verify_instruction len pc i.
Proof.
  unfold Source.check_instruction, verify_instruction, Source.is_supported, is_supported.
  destruct (decode (code i)) as [o|]; [|done].
  destruct o; simpl; try done.
  1-3: by destruct (ancillary_from_offset (k i)).
  destruct (checked_add_usize pc 1 ≫= _) as [t|]; [|done].
  destruct (Z.ltb_spec t len), (Z.leb_spec len t); lia || done.
Qed.

(** The loop over the instructions. *)
Lemma for_each_verify {S} len l pc (s : S) :
  for_each (enumerate_from pc l) (fun '(pc, i) => lift (Source.check_instruction len pc i)) s =
  match verify_instructions len pc l with Ok _ => Done tt s | Err e => Fail e s end.
Proof.
  revert pc. induction l as [|i l IH]; intros pc; [done|].
  cbn [enumerate_from verify_instructions]. rewrite for_each_cons, check_instruction_verify.
  unfold mbind, M_bind.
  destruct (verify_instruction len pc i) as [[]|e]; [apply IH|done].
Qed.

Definition scratch_outcome (r : scratch_step) : outcome (list (option Z)) VerifyError () :=
  match r with
  | ScratchNext t => Done tt t
  | ScratchError e => Fail e []
  | ScratchPanic => Panic
  end.

(** Outcomes up to the state that a failed run leaves. *)
Definition same_run {S E A} (x y : outcome S E A) : Prop :=
  match x, y with
  | Fail e _, Fail e' _ => e = e'
  | _, _ => x = y
  end.

Lemma merge_into_at t target m :
  Source.merge_into target m t =
  match merge_at t target m with Some t' => Done tt t' | None => Panic end.
Proof.
  unfold Source.merge_into, merge_at, mbind, M_bind, gets, expect. simpl.
  destruct (get t target); [|done]. simpl. change (Source.merge o m) with (merge_initialized o m).
  by destruct (put t target (merge_initialized o m)).
Qed.

Lemma scratch_body_at t pc i :
  same_run (Source.scratch_body (pc, i) t) (scratch_outcome (verify_scratch_at t pc i)).
Proof.
  unfold Source.scratch_body, verify_scratch_at, mbind, M_bind, mret, M_ret, throw, gets.
  destruct (get t pc) as [[m|]|]; simpl; try done.
  destruct (decode (code i)) as [o|]; simpl;
    [|rewrite merge_into_at; by destruct (merge_at _ _ _)].
  destruct o; simpl; try done;
    try (destruct (Z.land m (scratch_bit (k i)) =? 0); [done|]); simpl;
    rewrite merge_into_at; destruct (merge_at _ _ _) as [t1|]; try done;
    rewrite merge_into_at; by destruct (merge_at _ _ _).
Qed.

Lemma scratch_loop_at t pc l :
  same_run (for_each (enumerate_from pc l) Source.scratch_body t)
    (scratch_outcome (verify_scratch_loop t pc l)).
Proof.
  revert t pc. induction l as [|i l IH]; intros t pc; [done|].
  cbn [enumerate_from verify_scratch_loop]. rewrite for_each_cons. unfold mbind, M_bind.
  pose proof (scratch_body_at t pc i) as Hi.
  destruct (Source.scratch_body (pc, i) t), (verify_scratch_at t pc i); simpl in Hi |- *;
    try done; try congruence.
  injection Hi as -> ->. apply IH.
Qed.

(** The verdict of the verifier as the outcome of a check. *)
Definition verdict_outcome {S A} (v : verdict A) (s : S) : outcome S VerifyError A :=
  match v with
  | Verdict (Ok a) => Done a s
  | Verdict (Err e) => Fail e s
  | VerifierPanic => Panic
  end.

Lemma validate_source_outcome {S} (reserve : Z -> bool) l (s : S) :
  Source.validate_source reserve l s = verdict_outcome (verify_program (fun _ => reserve) l) s.
Proof.
  unfold Source.validate_source, verify_program, verify_structure.
  destruct (zlen l =? 0); [done|]. destruct (MAX_INSTRUCTIONS <? zlen l); [done|].
  unfold mbind at 1, M_bind at 1. rewrite for_each_verify.
  destruct (verify_instructions (zlen l) 0 l) as [[]|e]; [|done]. simpl.
  fold (ends_in_return l). destruct (ends_in_return l); [|done]. simpl.
  unfold verify_scratch_initialization, reserve_or.
  destruct (reserve (zlen l)); [|done]. simpl. rewrite bind_ret_l.
  destruct (put _ 0 (Some 0)) as [t|]; [|done]. unfold expect. rewrite bind_ret_l.
  unfold with_local. pose proof (scratch_loop_at t 0 l) as Hl.
  destruct (for_each _ _ t), (verify_scratch_loop t 0 l); simpl in Hl |- *; try done; try congruence.
Qed.

(** ** The validator's contract *)

(** The three checks of one instruction. *)
Definition contract_checks (len pc : Z) (i : Instruction) (profile : InputProfile)
    : result unit Image.error :=
  match Contract.validate_source_instruction_contract pc i with
  | Err e => Err e
  | Ok _ =>
      match Contract.validate_profile_contract pc i profile with
      | Err e => Err e
      | Ok _ => Contract.validate_jump_contract len pc i
      end
  end.

Lemma source_target_spec pc off len :
  0 <= pc <= MAX_INSTRUCTIONS -> in_u32 off ->
  Contract.source_target pc off len = if pc + 1 + off <? len then Some (pc + 1 + off) else None.
Proof.
  unfold Contract.source_target, checked_add_usize, usize_MAX, u64_MAX, in_u32, u32_MAX,
    MAX_INSTRUCTIONS. intros.
  rewrite (proj2 (Z.leb_le (pc + 1) _)) by lia. simpl. by rewrite (proj2 (Z.leb_le _ _)) by lia.
Qed.

Lemma land3_mod kk : 0 <= kk -> (Z.land kk 3 =? 0) = (kk mod 4 =? 0).
Proof. intros. change 3 with (Z.ones 2). by rewrite Z.land_ones by lia. Qed.

Lemma profile_contract_spec pc i profile :
  in_u32 (k i) ->
  Contract.validate_profile_contract pc i profile = Ok tt <->
  Source.profile_rejects i profile = false.
Proof.
  intros [Hk _]. unfold Contract.validate_profile_contract, Source.profile_rejects.
  rewrite land3_mod by done. set (anc := _ && negb (is_context profile)).
  destruct anc; [split; done|]. simpl. destruct (is_native_words profile); [|split; done]. simpl.
  destruct (decode (code i)) as [o|]; [|split; done].
  destruct o; try (split; done); by destruct (k i mod 4 =? 0).
Qed.

Lemma contract_instruction_verify len pc i :
  0 <= pc <= MAX_INSTRUCTIONS -> instruction_typed i ->
  match Contract.validate_source_instruction_contract pc i with
  | Err e => Err e
  | Ok _ => Contract.validate_jump_contract len pc i
  end = map_err map_verify_error (verify_instruction len pc i).
Proof.
  intros Hpc (_ & Hjt & Hjf & Hk).
  assert (in_u32 (jt i) /\ in_u32 (jf i)) as [??]
    by (unfold in_u8, in_u32, u8_MAX, u32_MAX in *; lia).
  unfold Contract.validate_source_instruction_contract, Contract.source_opcode_supported,
    Contract.validate_jump_contract, verify_instruction, is_supported.
  rewrite !(source_target_spec pc (jt i)), !(source_target_spec pc (jf i)) by done.
  destruct (decode (code i)) as [o|]; [|done]. destruct o; simpl; try done;
    try by match goal with |- context [if ?b then Err _ else Ok _] => destruct b end.
  1-3: by destruct (ancillary_from_offset (k i)), (Z.land (k i) 2147483648 =? 0).
  { rewrite source_target_spec by done.
    unfold checked_add_usize, usize_MAX, u64_MAX, in_u32, u32_MAX, MAX_INSTRUCTIONS in *.
    rewrite (proj2 (Z.leb_le (pc + 1) _)) by lia. simpl. rewrite (proj2 (Z.leb_le _ _)) by lia.
    destruct (Z.ltb_spec (pc + 1 + k i) len), (Z.leb_spec len (pc + 1 + k i)); lia || done. }
  all: destruct (Z.ltb_spec (pc + 1 + jt i) len), (Z.leb_spec len (pc + 1 + jt i)); try lia;
    destruct (Z.ltb_spec (pc + 1 + jf i) len), (Z.leb_spec len (pc + 1 + jf i)); try lia; done.
Qed.

Lemma contract_checks_spec len pc i profile :
  0 <= pc <= MAX_INSTRUCTIONS -> instruction_typed i ->
  contract_checks len pc i profile = Ok tt <->
  verify_instruction len pc i = Ok tt /\ Source.profile_rejects i profile = false.
Proof.
  intros Hpc Hty. pose proof Hty as (_ & _ & _ & Hk).
  rewrite <- (profile_contract_spec pc i profile Hk). unfold contract_checks.
  pose proof (contract_instruction_verify len pc i Hpc Hty) as E.
  destruct (Contract.validate_source_instruction_contract pc i) as [[]|e],
    (Contract.validate_profile_contract pc i profile) as [[]|e'],
    (verify_instruction len pc i) as [[]|e'']; simpl in E; rewrite ?E; naive_solver.
Qed.

(** Loops that stop at the first error. *)
Lemma for_each_contract {T} len profile l pc (s : T) :
  for_each (enumerate_from pc l) (fun '(pc, i) =>
    lift (Contract.validate_source_instruction_contract pc i) ;;
    lift (Contract.validate_profile_contract pc i profile) ;;
    lift (Contract.validate_jump_contract len pc i)) s = Done tt s <->
  forall n i, l !! n = Some i -> contract_checks len (pc + Z.of_nat n) i profile = Ok tt.
Proof.
  revert pc. induction l as [|i l IH]; intros pc; [by split|].
  cbn [enumerate_from]. rewrite for_each_cons.
  transitivity (contract_checks len pc i profile = Ok tt /\
    forall n i, l !! n = Some i -> contract_checks len (pc + 1 + Z.of_nat n) i profile = Ok tt).
  - rewrite <- IH. unfold contract_checks, mbind, M_bind, lift, mret, M_ret, throw.
    destruct (Contract.validate_source_instruction_contract pc i) as [[]|]; [|naive_solver].
    destruct (Contract.validate_profile_contract pc i profile) as [[]|]; [|naive_solver].
    destruct (Contract.validate_jump_contract len pc i) as [[]|]; naive_solver.
  - split.
    + intros [Hi Hl] [|n] j; simpl; [intros [= <-]; by rewrite Z.add_0_r|]. intros Hj.
      replace (pc + Z.of_nat (S n)) with (pc + 1 + Z.of_nat n) by lia. by apply Hl.
    + intros Hall. split; [specialize (Hall 0%nat i eq_refl); by rewrite Z.add_0_r in Hall|].
      intros n j Hj. replace (pc + 1 + Z.of_nat n) with (pc + Z.of_nat (S n)) by lia.
      by apply (Hall (S n)).
Qed.

Lemma contract_merge_into t target m :
  Contract.merge_into target m t =
  with_err map_verify_error (Source.merge_into target m) t.
Proof.
  unfold Contract.merge_into, Source.merge_into, with_err, mbind, M_bind, gets, expect. simpl.
  destruct (get t target) as [slot|]; [|done]. simpl.
  change (Contract.merge_initialized slot m) with (Source.merge slot m).
  by destruct (put t target (Source.merge slot m)).
Qed.

Lemma contract_scratch_body l t pc i :
  structure_ok l -> Forall instruction_typed l -> get l pc = Some i ->
  Contract.scratch_body (zlen l) (pc, i) t =
  with_err map_verify_error (Source.scratch_body (pc, i)) t.
Proof.
  intros Hok Hty Hi. pose proof Hok as (Hlen & Hall & _). specialize (Hall _ _ Hi).
  destruct (get_Some _ _ _ Hi) as [Hpc Hlook].
  pose proof (Forall_lookup_1 _ _ _ _ Hty Hlook) as (_ & Hjt & Hjf & Hk).
  apply verify_instruction_Ok in Hall as (o & Hdec & Hchk); [|lia|done|lia].
  pose proof (fallthrough_in_range l pc i o Hok Hi Hdec) as Hfall.
  assert (in_u32 (jt i) /\ in_u32 (jf i)) as [??]
    by (unfold in_u8, in_u32, u8_MAX, u32_MAX in *; lia).
  assert (checked_add_usize pc 1 = Some (pc + 1)) as Hadd
    by (unfold checked_add_usize, usize_MAX, u64_MAX, MAX_INSTRUCTIONS in *;
        by rewrite (proj2 (Z.leb_le _ _)) by lia).
  unfold Contract.scratch_body, Source.scratch_body, Contract.check_scratch, Contract.propagate.
  rewrite !source_target_spec by (done || lia). rewrite Hdec, Hadd. clear Hlook.
  unfold with_err, gets, expect, lift, some_or, throw, mbind, M_bind, mret, M_ret. simpl.
  destruct (get t pc) as [[m|]|]; try done.
  destruct o; simpl in Hchk |- *; try done;
    rewrite ?(proj2 (Z.ltb_lt _ _) (Hfall eq_refl));
    try (destruct (Z.land m (scratch_bit (k i)) =? 0); [done|]);
    rewrite ?(proj2 (Z.ltb_lt _ _) Hchk), ?(proj2 (Z.ltb_lt _ _) (proj1 Hchk)),
      ?(proj2 (Z.ltb_lt _ _) (proj2 Hchk)); rewrite ?contract_merge_into; try done.
  all: unfold with_err; destruct (Source.merge_into _ _ t); try done;
    by rewrite contract_merge_into.
Qed.

Lemma contract_scratch_loop l rest pc t :
  structure_ok l -> Forall instruction_typed l ->
  (forall n i, rest !! n = Some i -> get l (pc + Z.of_nat n) = Some i) ->
  for_each (enumerate_from pc rest) (Contract.scratch_body (zlen l)) t =
  with_err map_verify_error (for_each (enumerate_from pc rest) Source.scratch_body) t.
Proof.
  intros Hok Hty. revert pc t. induction rest as [|i rest IH]; intros pc t Hrest; [done|].
  cbn [enumerate_from]. rewrite for_each_cons. unfold mbind, M_bind.
  pose proof (Hrest 0%nat i eq_refl) as Hi. rewrite Z.add_0_r in Hi.
  rewrite (contract_scratch_body l t pc i Hok Hty Hi). unfold with_err.
  rewrite for_each_cons. unfold mbind, M_bind.
  destruct (Source.scratch_body (pc, i) t) as [[] t'| | |]; try done.
  apply IH. intros n j Hj. rewrite <- Z.add_assoc, Z.add_1_l, <- Nat2Z.inj_succ.
  by apply (Hrest (S n)).
Qed.

Lemma contract_scratch {T} reserve l (s : T) :
  structure_ok l -> Forall instruction_typed l ->
  Contract.validate_scratch_initialization reserve l s = Done tt s <->
  verify_scratch_initialization (fun _ => reserve) l = Verdict (Ok tt).
Proof.
  intros Hok Hty. unfold Contract.validate_scratch_initialization, verify_scratch_initialization,
    reserve_or. destruct (reserve (zlen l)); [|done]. rewrite bind_ret_l. simpl.
  destruct (put _ 0 (Some 0)) as [t|]; [|done]. unfold expect. rewrite bind_ret_l.
  unfold with_local. rewrite (contract_scratch_loop l l 0 t Hok Hty)
    by (intros n i Hn; by rewrite Z.add_0_l, get_nat).
  pose proof (scratch_loop_at t 0 l) as Hl. unfold with_err.
  destruct (for_each _ _ t), (verify_scratch_loop t 0 l); simpl in Hl |- *; try done.
  all: naive_solver.
Qed.

Lemma verify_program_structure r l :
  verify_program r l = Verdict (Ok tt) <->
  structure_ok l /\ verify_scratch_initialization r l = Verdict (Ok tt).
Proof.
  rewrite <- verify_structure_Ok. unfold verify_program.
  destruct (verify_structure l) as [[]|]; naive_solver.
Qed.

(** The first loop of the contract. *)
Lemma contract_loop {T} l profile (s : T) :
  Forall instruction_typed l -> zlen l <= MAX_INSTRUCTIONS ->
  for_each (enumerate_from 0 l) (fun '(pc, i) =>
    lift (Contract.validate_source_instruction_contract pc i) ;;
    lift (Contract.validate_profile_contract pc i profile) ;;
    lift (Contract.validate_jump_contract (zlen l) pc i)) s = Done tt s <->
  (forall pc i, get l pc = Some i -> verify_instruction (zlen l) pc i = Ok tt) /\
  Forall (fun i => Source.profile_rejects i profile = false) l.
Proof.
  intros Hty Hmax. rewrite for_each_contract, Forall_lookup.
  assert (forall n i, l !! n = Some i ->
    contract_checks (zlen l) (0 + Z.of_nat n) i profile = Ok tt <->
    verify_instruction (zlen l) (Z.of_nat n) i = Ok tt /\
    Source.profile_rejects i profile = false) as Hone.
  { intros n i Hn. rewrite Z.add_0_l. pose proof (lookup_lt_Some _ _ _ Hn).
    apply contract_checks_spec; [unfold zlen in *; lia|]. by eapply Forall_lookup_1. }
  split.
  - intros H. split.
    + intros pc i Hi. apply get_Some in Hi as [Hpc Hi]. pose proof (H _ _ Hi) as Hc.
      apply Hone in Hc as [Hc _]; [|done]. by rewrite Z2Nat.id in Hc by lia.
    + intros n i Hn. by apply (Hone n i Hn), H.
  - intros [H1 H2] n i Hn. apply Hone; [done|]. split; [|by eapply H2].
    apply H1. by rewrite get_nat.
Qed.

Lemma read_only_for_each {T E X} (l : list X) (body : X -> M T E ()) :
  (forall x, read_only (body x)) -> read_only (for_each l body).
Proof.
  intros Hb. induction l as [|x l IH]; [apply read_only_ret|]. by apply read_only_bind.
Qed.

Lemma contract_verify {T} reserve l profile (s : T) :
  Forall instruction_typed l ->
  Contract.validate_source_contract reserve l profile s = Done tt s <->
  verify_program (fun _ => reserve) l = Verdict (Ok tt) /\
  Forall (fun i => Source.profile_rejects i profile = false) l.
Proof.
  intros Hty. rewrite verify_program_structure. unfold Contract.validate_source_contract.
  pose proof (zlen_nonneg l) as Hnn. pose proof (contract_scratch reserve l s) as Hscr.
  unfold structure_ok in *.
  destruct (Z.eqb_spec (zlen l) 0) as [|H0]; [split; [done|intros ((((? & ?) & _) & _) & _); lia]|].
  destruct (Z.ltb_spec MAX_INSTRUCTIONS (zlen l)) as [|Hmax];
    [split; [done|intros ((((? & ?) & _) & _) & _); lia]|].
  pose proof (contract_loop l profile s Hty Hmax) as Hloop. unfold mbind at 1, M_bind at 1.
  match goal with |- context [for_each ?l ?f s] =>
    assert (read_only (for_each l f)) as Hro
      by (apply read_only_for_each; intros [pc i];
          repeat (apply read_only_bind; [apply read_only_lift|intros _]); apply read_only_lift);
    specialize (Hro s); destruct (for_each l f s) as [[] s'|e s'| |] end.
  2-4: split; [done|intros (((_ & Hall & _) & _) & Hrej)]; by destruct (proj2 Hloop (conj Hall Hrej)).
  subst s'. destruct (proj1 Hloop eq_refl) as [Hall Hrej]. fold (ends_in_return l).
  destruct (ends_in_return l); simpl; [|split; [done|by intros (((_ & _ & ?) & _) & _)]].
  rewrite Hscr by (done || (split; [lia|done])). split; [|tauto]. intros.
  repeat split; [lia|lia|done|done|done].
Qed.

(** ** The loop over the source *)

Section Loop.
Variable off : Target.t -> Z.

(** What the loop establishes for the instructions of [rest], which start at
    [pc]; [p'] is the position after the last of them. *)
Definition laid_out (image : list Z) (profile : InputProfile) (pc : Z) (rest : list Instruction)
    (so : list Z) (p' : Z) : Prop :=
  forall n i o, rest !! n = Some i -> decode (code i) = Some o ->
  exists p e, get so (pc + Z.of_nat n) = Some p /\
    code_at (exact_or_bare off) image p (lower profile (pc + Z.of_nat n) i o) e /\
    (if decide (S n < length rest)%nat then get so (pc + Z.of_nat (S n)) = Some e else e = p').

Lemma layout_body_sound size profile pc i o so c so' c' :
  decode (code i) = Some o -> profile_serves profile i o = true ->
  0 <= position c -> Forall in_u8 (code_bytes c) ->
  layout_body size profile (pc, i) so c = Done so' c' ->
  put so pc (position c) = Some so' /\ walked off c (lower profile pc i o) c'.
Proof.
  intros Hdec Hserve Hp Hu8 H. unfold layout_body in H.
  rewrite (bind_done (gets position) _ _ _ _ eq_refl) in H.
  destruct (position c <=? u32_MAX); [|done]. rewrite bind_ret_l in H.
  destruct (put so pc (position c)) as [so1|]; [|done]. unfold expect in H. rewrite bind_ret_l in H.
  apply bind_Done in H as ([] & c1 & Hw & H). injection H as -> ->. split; [done|].
  rewrite (validate_source_instruction_walk profile pc i o c Hdec Hserve) in Hw.
  eapply walk_sound; [done|done|apply lower_small|exact Hw].
Qed.

Lemma layout_loop_sound size profile rest pc so c so' c' :
  0 <= pc -> Forall (servable profile) rest -> 0 <= position c -> Forall in_u8 (code_bytes c) ->
  layout_loop size profile (enumerate_from pc rest) so c = Done so' c' ->
  code_bytes c' = code_bytes c /\ 0 <= position c' /\
  (exists new, targets c' = targets c ++ new) /\
  (forall q, q < pc -> get so' q = get so q) /\
  (rest <> [] -> get so' pc = Some (position c)) /\ (rest = [] -> position c' = position c) /\
  (Forall (check_holds off) (targets c') ->
   laid_out (code_bytes c) profile pc rest so' (position c')).
Proof.
  intros Hpc Hserve. revert pc Hpc so c. induction Hserve as [|i rest (o & Hdec & Hs) Hrest IH];
    intros pc Hpc so c Hp Hu8 H.
  - injection H as -> ->. repeat split; try done. exists []. by rewrite app_nil_r.
  - cbn [enumerate_from layout_loop] in H. apply bind_Done in H as (so1 & c1 & Hb & H).
    destruct (layout_body_sound _ _ _ _ _ _ _ _ _ Hdec Hs Hp Hu8 Hb)
      as (Hput & Hb1 & Hp1 & (n1 & Ht1) & Hc1).
    apply IH in H as (Hb2 & Hp2 & (n2 & Ht2) & Hq2 & Hh2 & He2 & Hl2); [|lia|done|by rewrite Hb1].
    rewrite Hb1 in Hb2, Hl2. apply put_Some in Hput as [Hin ->].
    assert (get so' pc = Some (position c)) as Hhere
      by (rewrite Hq2, get_insert by lia; by rewrite decide_True).
    split; [done|]. split; [done|].
    split; [exists (n1 ++ n2); by rewrite Ht2, Ht1, app_assoc|].
    split; [intros q Hq; rewrite Hq2, get_insert by lia; by rewrite decide_False by lia|].
    split; [done|]. split; [done|]. intros Hall.
    pose proof Hall as Hall1. rewrite Ht2 in Hall1. apply Forall_app in Hall1 as [Hall1 _].
    specialize (Hc1 Hall1). specialize (Hl2 Hall).
    intros [|n] j oj; simpl lookup.
    + intros [= <-] Hd. assert (oj = o) as -> by congruence. rewrite Z.add_0_r.
      exists (position c), (position c1). split; [done|]. split; [done|].
      destruct rest as [|j rest]; [by rewrite decide_False by (simpl; lia); symmetry; apply He2|].
      rewrite decide_True by (simpl; lia). change (Z.of_nat 1) with 1. by apply Hh2.
    + intros Hj Hd. destruct (Hl2 n j oj Hj Hd) as (p & e & Hg & Hcode & Hnext).
      replace (pc + Z.of_nat (S n)) with (pc + 1 + Z.of_nat n) by lia.
      exists p, e. split; [done|]. split; [done|].
      replace (pc + Z.of_nat (S (S n))) with (pc + 1 + Z.of_nat (S n)) by lia.
      simpl length. destruct (decide (S n < length rest)%nat).
      * by rewrite decide_True by lia.
      * by rewrite decide_False by lia.
Qed.

End Loop.

(** ** The whole layout *)

(** The offsets an accepted layout stands for. *)
Definition layout_offset (so : list Z) (failure epilogue : Z) (t : Target.t) : Z :=
  match t with
  | Target.Source pc => default 0 (get so pc)
  | Target.Failure => failure
  | Target.Epilogue => epilogue
  end.

Lemma check_target_holds so failure epilogue t c c' :
  check_target so failure epilogue t c = Done tt c' ->
  c' = c /\ check_holds (layout_offset so failure epilogue) t.
Proof.
  unfold check_target, check_holds. destruct (expected t) as [pc| |]; simpl.
  - destruct (get so pc); simpl; [|done]. rewrite bind_ret_l.
    destruct (Z.eqb_spec (actual t) z); [|done]. by intros [= <-].
  - rewrite bind_ret_l. destruct (Z.eqb_spec (actual t) failure); [|done]. by intros [= <-].
  - rewrite bind_ret_l. destruct (Z.eqb_spec (actual t) epilogue); [|done]. by intros [= <-].
Qed.

Lemma check_targets_hold so failure epilogue ts c c' :
  for_each ts (check_target so failure epilogue) c = Done tt c' ->
  Forall (check_holds (layout_offset so failure epilogue)) ts.
Proof.
  revert c. induction ts as [|t ts IH]; intros c H; [constructor|].
  rewrite for_each_cons in H. apply bind_Done in H as ([] & c1 & H1 & H2).
  apply check_target_holds in H1 as [-> ?]. constructor; [done|by eapply IH].
Qed.

(** The code of an image, with the word loads the validator does not tell
    apart. *)
Record accepted (profile : InputProfile) (l : list Instruction) (image : list Z)
    (off : Target.t -> Z) : Prop := {
  accepted_prologue :
    code_at (exact_or_bare off) image 0 (lower_prologue profile) (off (Target.Source 0));
  accepted_source pc i o :
    get l pc = Some i -> decode (code i) = Some o ->
    exists e, code_at (exact_or_bare off) image (off (Target.Source pc)) (lower profile pc i o) e /\
      (pc + 1 < zlen l -> e = off (Target.Source (pc + 1)));
  accepted_failure :
    exists e, code_at (exact_or_bare off) image (off Target.Failure) lower_failure e;
  accepted_epilogue :
    exists e, code_at (exact_or_bare off) image (off Target.Epilogue) lower_epilogue e
}.

Lemma laid_out_accepted profile l image so failure epilogue :
  laid_out (layout_offset so failure epilogue) image profile 0 l so failure ->
  let off := layout_offset so failure epilogue in
  forall pc i o, get l pc = Some i -> decode (code i) = Some o ->
  exists e, code_at (exact_or_bare off) image (off (Target.Source pc)) (lower profile pc i o) e /\
    (pc + 1 < zlen l -> e = off (Target.Source (pc + 1))).
Proof.
  intros Hl off pc i o Hi Hdec. apply get_Some in Hi as [Hpc Hi].
  destruct (Hl _ _ _ Hi Hdec) as (p & e & Hp & Hc & He).
  rewrite Z.add_0_l, Z2Nat.id in Hp, Hc by lia. exists e. split.
  - simpl. by rewrite Hp.
  - intros Hn. rewrite decide_True in He by (unfold zlen in Hn; lia). simpl.
    replace (pc + 1) with (0 + Z.of_nat (S (Z.to_nat pc))) by lia. by rewrite He.
Qed.

Lemma serves_of_rejects profile i o :
  decode (code i) = Some o -> Source.profile_rejects i profile = false ->
  (o = LDX_B_MSH -> Z.land (k i) 0x80000000 = 0) -> profile_serves profile i o = true.
Proof.
  intros Hdec Hrej Hmsh. unfold Source.profile_rejects in Hrej. rewrite Hdec in Hrej.
  destruct (ancillary_from_offset (k i)) as [f|] eqn:Hf;
    [|destruct o; try done; simpl; by rewrite ?Hf, ?orb_true_r].
  apply ancillary_from_offset_Some in Hf as Hk. rewrite Hk in Hrej.
  assert (is_ancillary_offset (Ancillary.encoded_offset f) = true) as Ha by by destruct f.
  rewrite Ha in Hrej. destruct o; try done; simpl in Hrej |- *; rewrite ?Hf; simpl.
  1-3: by destruct (is_context profile).
  specialize (Hmsh eq_refl). rewrite Hk in Hmsh. by destruct (encoded_offset_negative f).
Qed.

Lemma verified_servable profile l :
  structure_ok l -> Forall instruction_typed l ->
  Forall (fun i => Source.profile_rejects i profile = false) l -> Forall (servable profile) l.
Proof.
  intros (Hlen & Hall & _) Hty Hrej. rewrite Forall_lookup in *. intros n i Hn.
  pose proof (Hty _ _ Hn) as (_ & _ & _ & Hk).
  assert (get l (Z.of_nat n) = Some i) as Hg by by rewrite get_nat.
  apply Hall, verify_instruction_Ok in Hg as (o & Hdec & Hchk); [|lia|done|lia].
  exists o. split; [done|]. apply serves_of_rejects; [done|by eapply Hrej|]. by intros ->.
Qed.

Lemma read_only_contract {S} reserve l profile :
  read_only (S := S) (Contract.validate_source_contract reserve l profile).
Proof.
  unfold Contract.validate_source_contract, Contract.validate_scratch_initialization, reserve_or.
  destruct (zlen l =? 0); [apply read_only_throw|].
  destruct (MAX_INSTRUCTIONS <? zlen l); [apply read_only_throw|].
  apply read_only_bind; [apply read_only_for_each; intros [pc i];
    repeat (apply read_only_bind; [apply read_only_lift|intros _]); apply read_only_lift|intros _].
  destruct (negb _); [apply read_only_throw|].
  apply read_only_bind; [destruct (reserve _); [apply read_only_ret|apply read_only_throw]|intros _].
  apply read_only_bind; [apply read_only_expect|intros t s]. unfold with_local.
  by destruct (for_each _ _ t).
Qed.

Lemma expect_jump_pc p q c t c' :
  Walk.expect_jump p c = Done t c' -> Walk.expect_jump q c = Done t c'.
Proof.
  unfold Walk.expect_jump, mbind, M_bind. destruct (Walk.decode_next c) as [d c1| | |]; try done.
  by destruct (operation d).
Qed.

(** The checks of the failure block are a walk, up to the position they report. *)
Lemma failure_walk_sound off (l : list Instruction) c c' :
  0 <= position c -> Forall in_u8 (code_bytes c) ->
  (Walk.expect_op 0 (NativeOp.Binary Xor Width.Word (register Eax) (register Eax)) ;;
   failure_jump ← Walk.expect_jump 0;
   last_pc ← expect (checked_sub_usize (zlen l) 1);
   Walk.record_target last_pc failure_jump Target.Epilogue) c = Done tt c' ->
  walked off c lower_failure c'.
Proof.
  intros Hp Hu8 H. apply bind_Done in H as ([] & c1 & H1 & H).
  assert (walked off c [Plain (binary_xor Eax Eax)] c1) as W1.
  { apply (walk_sop_sound off 0 _ c c1); [done|done|done|exact H1]. }
  pose proof W1 as (Hb1 & Hp1 & _).
  apply (walked_app off c [Plain (binary_xor Eax Eax)] c1 [Goto Target.Epilogue]); [done|].
  apply bind_Done in H as (t & c2 & H2 & H). apply bind_Done in H as (pc & c3 & H3 & H).
  destruct (checked_sub_usize (zlen l) 1); [|done]. injection H3 as -> ->.
  apply (walk_sop_sound off pc _ c1 c'); [done|by rewrite Hb1|done|].
  simpl. erewrite bind_done; [exact H|by eapply expect_jump_pc].
Qed.

(** The rest of the walk after the loop. *)
Lemma layout_tail_sound (l : list Instruction) size so c so' c9 :
  0 <= position c -> Forall in_u8 (code_bytes c) ->
  (Walk.expect_op 0 (NativeOp.Binary Xor Width.Word (register Eax) (register Eax)) ;;
   failure_jump ← Walk.expect_jump 0;
   last_pc ← expect (checked_sub_usize (zlen l) 1);
   Walk.record_target last_pc failure_jump Target.Epilogue ;;
   epilogue_offset ← gets position;
   Walk.validate_epilogue ;;
   p ← gets position;
   (if p =? size then mret tt else throw (Image.NativeTrailingBytes p)) ;;
   checks ← gets targets;
   for_each checks (check_target so (position c) epilogue_offset) ;;
   mret so) c = Done so' c9 ->
  so' = so /\ exists c1 c2, let off := layout_offset so (position c) (position c1) in
    walked off c lower_failure c1 /\ walked off c1 lower_epilogue c2 /\
    Forall (check_holds off) (targets c2).
Proof.
  intros Hp Hu8 W. apply bind_Done in W as ([] & d1 & H1 & W).
  apply bind_Done in W as (t & d2 & H2 & W). apply bind_Done in W as (q & d3 & H3 & W).
  apply bind_Done in W as ([] & c1 & H4 & W). rewrite (bind_done (gets _) _ _ _ _ eq_refl) in W.
  apply bind_Done in W as ([] & c2 & H5 & W). rewrite (bind_done (gets _) _ _ _ _ eq_refl) in W.
  destruct (position c2 =? size); [|done]. rewrite bind_ret_l in W.
  rewrite (bind_done (gets _) _ _ _ _ eq_refl) in W.
  apply bind_Done in W as ([] & c3 & H6 & W). injection W as <- _. split; [done|].
  exists c1, c2. intros off.
  assert (walked off c lower_failure c1) as W1.
  { apply (failure_walk_sound off l); [done|done|].
    erewrite bind_done by exact H1. erewrite bind_done by exact H2. by erewrite bind_done. }
  split; [done|]. split; [|by eapply check_targets_hold].
  pose proof W1 as (Hb1 & Hp1 & _). rewrite validate_epilogue_walk in H5.
  eapply walk_sound; [done|by rewrite Hb1|done|exact H5].
Qed.

Lemma code_bytes_prefix_checks off c l c' ts :
  walked off c l c' -> (exists new, ts = targets c' ++ new) -> Forall (check_holds off) ts ->
  code_at (exact_or_bare off) (code_bytes c) (position c) l (position c').
Proof. intros (_ & _ & _ & Hc) [new ->] Hall. apply Forall_app in Hall as [? _]. by apply Hc. Qed.

Lemma layout_sound {S} reserve bytes l profile (s : S) so s' :
  Forall in_u8 bytes -> Forall instruction_typed l ->
  validate_translation_layout reserve bytes l profile s = Done so s' ->
  verify_program (fun _ => reserve ContractTable) l = Verdict (Ok tt) /\
  Forall (fun i => Source.profile_rejects i profile = false) l /\
  exists off, accepted profile l bytes off.
Proof.
  intros Hu8 Hty H. unfold validate_translation_layout in H.
  destruct (MAX_CODE_IMAGE_BYTES <? zlen bytes); [done|]. unfold with_local in H.
  destruct (layout_walk reserve l profile (Checker.new bytes)) as [so1 c9| | |] eqn:W; try done.
  injection H as -> _. unfold layout_walk in W.
  apply bind_Done in W as ([] & c0 & Hcon & W).
  assert (c0 = Checker.new bytes) as -> by
    (pose proof (read_only_contract (reserve ContractTable) l profile (Checker.new bytes)) as R;
     by rewrite Hcon in R).
  apply contract_verify in Hcon as [Hver Hrej]; [|done]. split; [done|]. split; [done|].
  destruct (verify_program_Ok _ _ Hty Hver) as [Hok _].
  pose proof (verified_servable profile l Hok Hty Hrej) as Hserve.
  apply bind_Done in W as ([] & c1 & Hpro & W). rewrite validate_prologue_walk in Hpro.
  unfold reserve_or in W. destruct (reserve SourceOffsets _); [|done]. rewrite bind_ret_l in W.
  destruct (reserve TargetChecks _); [|done]. rewrite bind_ret_l in W.
  rewrite (bind_done (gets _) _ _ _ _ eq_refl) in W.
  apply bind_Done in W as (so2 & c2 & Hloop & W). rewrite (bind_done (gets _) _ _ _ _ eq_refl) in W.
  assert (walked (fun _ => 0) (Checker.new bytes) (lower_prologue profile) c1) as
    (Hb1 & Hp1 & _ & _) by (eapply walk_sound; [done|done|by destruct profile|exact Hpro]).
  pose proof (layout_loop_sound (fun _ => 0) _ _ _ 0 _ _ _ _ ltac:(lia) Hserve Hp1
    ltac:(by rewrite Hb1) Hloop) as (Hb2 & Hp2 & _).
  apply (layout_tail_sound l _ so2) in W as (-> & c3 & c4 & Wf & We & Hchk);
    [|done|by rewrite Hb2, Hb1].
  set (off := layout_offset so2 (position c2) (position c3)) in *. exists off.
  pose proof Wf as (Hb3 & _ & (n3 & Ht3) & _). pose proof We as (_ & _ & (n4 & Ht4) & _).
  assert (walked off (Checker.new bytes) (lower_prologue profile) c1) as Wp
    by (eapply walk_sound; [done|done|by destruct profile|exact Hpro]).
  pose proof (layout_loop_sound off _ _ _ 0 _ _ _ _ ltac:(lia) Hserve Hp1
    ltac:(by rewrite Hb1) Hloop) as (_ & _ & (n2 & Ht2) & _ & Hhead & _ & Hlaid).
  pose proof Hok as (Hlen & _). rewrite Hb2, Hb1 in *.
  assert (get so2 0 = Some (position c1)) as H0 by (apply Hhead; by intros ->).
  split.
  - simpl. rewrite H0.
    apply (code_bytes_prefix_checks off (Checker.new bytes) _ c1 (targets c4)); [done| |done].
    exists (n2 ++ n3 ++ n4). by rewrite Ht4, Ht3, Ht2, <- !app_assoc.
  - eapply laid_out_accepted, Hlaid. rewrite Ht4, Ht3, <- app_assoc in Hchk.
    by apply Forall_app in Hchk as [? _].
  - exists (position c3). change bytes with (code_bytes (Checker.new bytes)). rewrite <- Hb2.
    eapply (code_bytes_prefix_checks off c2 _ c3); [exact Wf| |exact Hchk].
    exists n4. by rewrite Ht4.
  - exists (position c4). change bytes with (code_bytes (Checker.new bytes)). rewrite <- Hb3.
    eapply (code_bytes_prefix_checks off c3 _ c4); [exact We| |exact Hchk].
    exists []. by rewrite app_nil_r.
Qed.

(** ** Images without the unprefixed load *)

Definition is_bare_load (i : X86.insn) : bool :=
  match i with X86.Mov X86.S32 (X86.Reg 0) (X86.Mem 6 0) => true | _ => false end.

(** No offset of the image decodes to [mov eax, [rsi]]. *)
Definition bare_free (image : list Z) : bool :=
  forallb (fun p => match X86.fetch image p with Some (i, _) => negb (is_bare_load i) | None => true end)
    (seqZ 0 (zlen image)).

Lemma bare_free_fetch image p n :
  bare_free image = true -> X86.fetch image p <> Some (bare_load_insn, n).
Proof.
  unfold bare_free. rewrite forallb_forall. intros Hall Hf.
  assert (0 <= p < zlen image) as Hp.
  { unfold X86.fetch in Hf. destruct (Z.ltb_spec p 0); [done|].
    destruct (decide (p < zlen image)); [lia|]. rewrite drop_ge in Hf by (unfold zlen in *; lia).
    done. }
  assert (In p (seqZ 0 (zlen image))) as Hin by (apply list_elem_of_In, elem_of_seqZ; lia).
  apply Hall in Hin. by rewrite Hf in Hin.
Qed.

Lemma bare_free_exact off image p l e :
  bare_free image = true -> code_at (exact_or_bare off) image p l e ->
  code_at (exact off) image p l e.
Proof.
  intros Hb. induction 1 as [|p s i p1 l p2 Hi Hf _ IH]; [constructor|].
  destruct Hi as [Hi|[_ ->]]; [by econstructor|]. by destruct (bare_free_fetch image p p1 Hb).
Qed.

Lemma accepted_located profile l image off :
  bare_free image = true -> accepted profile l image off -> located profile l image off.
Proof.
  intros Hb [Hp Hs [e1 Hf] [e2 He]].
  split; [by apply bare_free_exact| |exists e1; by apply bare_free_exact|
    exists e2; by apply bare_free_exact].
  intros pc i o Hi Hd. destruct (Hs pc i o Hi Hd) as (e & Hc & Hn). exists e.
  split; [by apply bare_free_exact|done].
Qed.
