(* ===== verification/BpfTranslated.v ===== *)
(** Classic BPF, native code, part 11: what the translator returns.

    [assemble_run]: on a verified program the profile serves, the assembler
    leaves the image [program_image]; [translate_program_sound]: an image that
    [translate_program] returns is that image. *)

From S2P Require Import Prelude Effects BpfInstruction BpfProgram BpfControlFlow BpfVerified BpfNative BpfValidate BpfTranslate BpfX86 BpfLowering BpfAssemble BpfSimulation BpfCall BpfAccepted.
Local Open Scope Z_scope.

(** ** Sizes *)

(** The longest lowering is an indirect word load of aligned native words. *)
Lemma lower_size profile pc i o : 0 < code_size (lower profile pc i o) <= 67.
Proof.
  destruct o; cbn [lower]; unfold lower_absolute, lower_indirect, lower_msh, lower_shift,
    lower_divide, lower_jump, word_op, scratch_operand, code_size, sop_size, zlen.
  all: try (destruct (ancillary_from_offset (k i))).
  all: destruct profile; simpl; lia.
Qed.

Lemma lower_body_size profile pc l : code_size (lower_body profile pc l) <= 67 * zlen l.
Proof.
  revert pc. induction l as [|i l IH]; intros pc; [done|]. simpl lower_body.
  rewrite code_size_app. specialize (IH (pc + 1)). unfold lower_at, zlen in *. cbn [length].
  destruct (decode (code i)) as [o|]; [pose proof (lower_size profile pc i o); lia|].
  change (code_size []) with 0. lia.
Qed.

Lemma program_size_bound profile l :
  zlen l <= MAX_INSTRUCTIONS -> program_size profile l <= 300000.
Proof.
  intros Hl. unfold program_size, epilogue_at, failure_at, body_start, MAX_INSTRUCTIONS in *.
  pose proof (lower_body_size profile 0 l).
  assert (code_size (lower_prologue profile) <= 64 /\ code_size lower_failure <= 64 /\
    code_size lower_epilogue <= 64) by (destruct profile; vm_compute; repeat split; congruence).
  lia.
Qed.

(** ** Branch targets *)

(** The targets of a lowering are instructions of the program or the two
    common blocks. *)
Definition target_inside (len : Z) (s : sop) : Prop :=
  match jump_target s with Some (Target.Source pc) => 0 <= pc < len | _ => True end.

Lemma lower_targets profile len pc i o :
  0 <= pc -> len <= MAX_INSTRUCTIONS -> instruction_typed i -> instruction_checks len pc i o ->
  Forall (target_inside len) (lower profile pc i o).
Proof.
  intros Hpc Hlen (_ & Hjt & Hjf & Hk) Hchk. unfold in_u8, in_u32 in *.
  destruct o; simpl in Hchk; cbn [lower]; unfold lower_absolute, lower_indirect, lower_msh,
    lower_shift, lower_divide, lower_jump, word_op.
  all: try (destruct (ancillary_from_offset (k i))).
  all: destruct profile; repeat constructor; unfold target_inside; simpl; try lia; done.
Qed.

Lemma lower_body_targets profile l rest pc :
  structure_ok l -> Forall instruction_typed l -> 0 <= pc ->
  (forall n i, rest !! n = Some i -> get l (pc + Z.of_nat n) = Some i) ->
  Forall (target_inside (zlen l)) (lower_body profile pc rest).
Proof.
  intros Hok Hty. revert pc. induction rest as [|i rest IH]; intros pc Hpc Hrest; [constructor|].
  simpl. apply Forall_app. split.
  - pose proof (Hrest 0%nat i eq_refl) as Hi. rewrite Z.add_0_r in Hi.
    destruct Hok as (Hlen & Hall & _). pose proof (Hall _ _ Hi) as Hv.
    apply get_Some in Hi as [_ Hi]. pose proof (Forall_lookup_1 _ _ _ _ Hty Hi) as Hti.
    pose proof Hti as (_ & _ & _ & Hk).
    apply verify_instruction_Ok in Hv as (o & Hdec & Hchk); [|lia|done|lia].
    unfold lower_at. rewrite Hdec. apply lower_targets; [lia|lia|done|done].
  - apply IH; [lia|]. intros n j Hj. rewrite <- Z.add_assoc, Z.add_1_l, <- Nat2Z.inj_succ.
    by apply (Hrest (S n)).
Qed.

Lemma program_code_targets profile l :
  structure_ok l -> Forall instruction_typed l ->
  Forall (target_inside (zlen l)) (program_code profile l).
Proof.
  intros Hok Hty. unfold program_code. rewrite !Forall_app. repeat split.
  - destruct profile; repeat constructor.
  - apply lower_body_targets; [done|done|lia|]. intros n i Hn. by rewrite Z.add_0_l, get_nat.
  - repeat constructor.
  - repeat constructor.
Qed.

Lemma program_targets_known profile l :
  structure_ok l -> Forall instruction_typed l ->
  targets_known (records profile (body_start profile) 0 l) (target_offset profile l)
    (program_code profile l).
Proof.
  intros Hok Hty. eapply Forall_impl; [by apply program_code_targets|].
  intros s. unfold target_inside. destruct (jump_target s) as [[pc| |]|]; try done.
  intros Hpc. assert (exists n, pc = Z.of_nat n) as [n ->] by (exists (Z.to_nat pc); lia).
  destruct (get_in_range l _ Hpc) as [i Hi]. rewrite get_nat in Hi.
  pose proof (records_lookup profile (body_start profile) 0 l _ _ Hi) as Hr.
  eexists. split; [rewrite get_nat; exact Hr|]. simpl map_offset.
  rewrite target_offset_source; [done|]. by apply lookup_lt_Some in Hi.
Qed.

(** ** The assembler *)

(** The tables the assembler builds beside the bytes. *)
Definition program_sites (profile : InputProfile) (l : list Instruction) : list BranchSite :=
  sites profile (body_start profile) 0 l.
Definition program_records (profile : InputProfile) (l : list Instruction) : list InstructionMap :=
  records profile (body_start profile) 0 l.
Definition program_boundaries (profile : InputProfile) (l : list Instruction) : list Z :=
  (body_start profile :: ends profile (body_start profile) 0 l) ++ [program_size profile l].

Section Assemble.
Variables (reserve : translate_site -> Z -> bool) (profile : InputProfile).
Variable l : list Instruction.
Hypothesis l_ok : structure_ok l.
Hypothesis l_typed : Forall instruction_typed l.
Hypothesis l_serves : Forall (servable profile) l.

Lemma program_fits : program_size profile l <= I32_MAX.
Proof.
  destruct l_ok as (Hlen & _). pose proof (program_size_bound profile l ltac:(lia)).
  unfold I32_MAX. lia.
Qed.

(** The assembler after every piece has been emitted. *)
Definition emitted : Assembler :=
  appended Assembler.new (program_code profile l) (program_sites profile l).

(** The assembler after the displacements have been written. *)
Definition patched : Assembler :=
  mkAssembler (program_image profile l) (asm_patches emitted) (program_sites profile l).

Lemma resolve_patches_program :
  for_each (asm_patches emitted)
    (Resolve.resolve_patch (program_records profile l) (failure_at profile l)
      (epilogue_at profile l)) emitted = Done tt patched.
Proof.
  pose proof (resolve_patches (program_records profile l) (failure_at profile l)
    (epilogue_at profile l) (target_offset profile l)) as Hres.
  specialize (Hres (fun t => target_offset_range profile l t program_fits) eq_refl eq_refl
    (program_code profile l) [] [] (asm_patches emitted) (program_sites profile l)).
  simpl in Hres. rewrite !app_nil_r in Hres. apply Hres.
  - by apply program_targets_known.
  - pose proof (program_image_size profile l) as Hsz. unfold program_image in Hsz.
    rewrite zlen_encode in Hsz.
    change (0 + code_size (program_code profile l) <= I32_MAX). rewrite Hsz. apply program_fits.
Qed.

Lemma try_u32_Done n a : n <= u32_MAX -> try_u32 n a = Done n a.
Proof. intros. unfold try_u32. by rewrite (proj2 (Z.leb_le _ _)). Qed.

(** [assemble] up to the resolution of the jumps. *)
Lemma assemble_emitted :
  reserve MapTable (zlen l) = true -> reserve BoundaryTable (zlen l + 2) = true ->
  assemble reserve l profile Assembler.new =
  (Resolve.resolve (zlen l) (program_records profile l) (failure_at profile l)
     (epilogue_at profile l) ;;
   size ← gets (fun a => zlen (asm_bytes a));
   (if MAX_CODE_IMAGE_BYTES <? size then throw Translation.ImageTooLarge else mret tt) ;;
   size ← try_u32 size;
   mret ((body_start profile :: ends profile (body_start profile) 0 l) ++ [size],
         program_records profile l)) emitted.
Proof.
  intros R1 R2. pose proof program_fits as Hfit. unfold I32_MAX in Hfit.
  pose proof (program_bounds profile l) as (H0 & H1 & H2 & H3).
  assert (0 <= code_size lower_failure /\ 0 <= code_size lower_epilogue)
    by (split; apply code_size_nonneg).
  unfold assemble. rewrite (bind_done _ _ _ _ _ (emit_prologue_lower profile Assembler.new)).
  rewrite R1, R2. unfold reserve_or. rewrite !bind_ret_l.
  rewrite (bind_done (gets _) _ _ _ _ eq_refl). rewrite zlen_appended.
  change (zlen (asm_bytes Assembler.new) + code_size (lower_prologue profile)) with (body_start profile).
  erewrite bind_done by (apply try_u32_Done; unfold u32_MAX; lia).
  assert (zlen (asm_bytes (appended Assembler.new (lower_prologue profile) [])) = body_start profile)
    as Hz by (by rewrite zlen_appended).
  erewrite bind_done; [|apply emit_loop_run; [done|]; rewrite Hz; unfold failure_at, u32_MAX in *; lia].
  rewrite Hz. cbv iota beta.
  rewrite (bind_done (gets _) _ _ _ _ eq_refl), appended_app, !zlen_appended.
  rewrite (bind_done _ _ _ _ _ (emit_zero_return_lower _)).
  rewrite (bind_done (gets _) _ _ _ _ eq_refl), appended_app, !zlen_appended.
  rewrite (bind_done _ _ _ _ _ (emit_epilogue_lower _)), appended_app.
  rewrite !app_nil_r, !app_nil_l, !code_size_app, <- !app_assoc.
  change (zlen (asm_bytes Assembler.new)) with 0. rewrite !Z.add_0_l. done.
Qed.

Lemma read_only_resolve_branch map b : read_only (Resolve.resolve_branch map b).
Proof.
  unfold Resolve.resolve_branch.
  do 2 (apply read_only_bind; [apply read_only_some_or|intros ?]).
  apply read_only_bind; [apply read_only_gets|intros ?].
  destruct (_ || _); [apply read_only_throw|apply read_only_ret].
Qed.

(** A successful assembly leaves the encoding of the lowering. *)
Lemma assemble_Done bs ms a :
  assemble reserve l profile Assembler.new = Done (bs, ms) a ->
  a = patched /\ bs = program_boundaries profile l /\ ms = program_records profile l /\
  program_size profile l <= MAX_CODE_IMAGE_BYTES.
Proof.
  intros H.
  assert (reserve MapTable (zlen l) = true /\ reserve BoundaryTable (zlen l + 2) = true) as [R1 R2].
  { unfold assemble in H. rewrite (bind_done _ _ _ _ _ (emit_prologue_lower profile Assembler.new)) in H.
    destruct (reserve MapTable (zlen l)); [|done]. unfold reserve_or in H. rewrite bind_ret_l in H.
    by destruct (reserve BoundaryTable (zlen l + 2)). }
  rewrite (assemble_emitted R1 R2) in H. apply bind_Done in H as ([] & a1 & Hres & H).
  unfold Resolve.resolve in Hres. rewrite (bind_done (gets _) _ _ _ _ eq_refl) in Hres.
  rewrite (bind_done _ _ _ _ _ resolve_patches_program) in Hres.
  rewrite (bind_done (gets _) _ _ _ _ eq_refl) in Hres.
  apply bind_Done in Hres as ([] & a2 & Hbr & Hend).
  assert (a2 = patched) as ->.
  { pose proof (read_only_for_each (asm_branches patched)
      (Resolve.resolve_branch (program_records profile l))
      (read_only_resolve_branch _) patched) as Hro. by rewrite Hbr in Hro. }
  destruct (negb _); [done|]. injection Hend as <-.
  rewrite (bind_done (gets _) _ _ _ _ eq_refl) in H. simpl asm_bytes in H.
  rewrite program_image_size in H.
  destruct (Z.ltb_spec MAX_CODE_IMAGE_BYTES (program_size profile l)); [done|].
  rewrite bind_ret_l in H.
  erewrite bind_done in H by (apply try_u32_Done; unfold u32_MAX, MAX_CODE_IMAGE_BYTES in *; lia).
  by injection H as <- <- <-.
Qed.

End Assemble.

(** ** The translator *)

(** The image of a program with its tables. *)
Definition translated (profile : InputProfile) (l : list Instruction) : CodeImage :=
  mkCodeImage (program_image profile l) [] 0 (program_boundaries profile l)
    (program_records profile l) l (program_sites profile l) profile.

Lemma validate_profile_Done {S} l profile (s s' : S) :
  Source.validate_profile l profile s = Done tt s' ->
  s' = s /\ Forall (fun i => Source.profile_rejects i profile = false) l.
Proof.
  unfold Source.validate_profile. generalize 0. induction l as [|i l IH]; intros pc H.
  - by injection H as ->.
  - cbn [enumerate_from] in H. rewrite for_each_cons in H. unfold mbind, M_bind in H.
    destruct (Source.profile_rejects i profile) eqn:E; [done|].
    apply IH in H as [-> ?]. split; [done|]. by constructor.
Qed.

Lemma validate_source_Done {S} reserve l (s s' : S) :
  Source.validate_source reserve l s = Done tt s' ->
  s' = s /\ verify_program (fun _ => reserve) l = Verdict (Ok tt).
Proof.
  rewrite validate_source_outcome. unfold verdict_outcome.
  destruct (verify_program _ l) as [[[]|]|]; try done. by intros [= ->].
Qed.

(** What a successful translation has established and built. *)
Lemma translate_program_sound {S} reserve l profile (s s' : S) image :
  Forall instruction_typed l ->
  translate_program reserve l profile s = Done image s' ->
  image = translated profile l /\
  verify_program (fun _ => reserve SourceTable) l = Verdict (Ok tt) /\
  Forall (fun i => Source.profile_rejects i profile = false) l /\
  program_size profile l <= MAX_CODE_IMAGE_BYTES.
Proof.
  intros Hty H. unfold translate_program in H. apply bind_Done in H as ([] & s1 & Hp & H).
  apply validate_profile_Done in Hp as [-> Hrej].
  apply bind_Done in H as ([] & s2 & Hv & H). unfold with_err in Hv.
  destruct (Source.validate_source (reserve SourceTable) l s) as [[] s2'| | |] eqn:Hv'; try done.
  injection Hv as ->. apply validate_source_Done in Hv' as [-> Hver].
  destruct (verify_program_Ok _ _ Hty Hver) as [Hok _].
  pose proof (verified_servable profile l Hok Hty Hrej) as Hserve.
  apply bind_Done in H as ([] & s3 & _ & H). apply bind_Done in H as (a0 & s4 & Hnew & H).
  assert (a0 = Assembler.new) as ->.
  { unfold new_assembler, reserve_or in Hnew.
    repeat match type of Hnew with
      | ((if ?b then _ else _) ≫= _) _ = _ => destruct b; [rewrite bind_ret_l in Hnew|done] end.
    by injection Hnew as <-. }
  unfold with_local in H.
  match type of H with match ?m with _ => _ end = _ => destruct m as [im a9| | |] eqn:Hm; try done end.
  injection H as -> _. apply bind_Done in Hm as ([bs ms] & a & Hasm & Hm).
  apply assemble_Done in Hasm as (-> & -> & -> & Hsize); [|done..].
  rewrite (bind_done (gets _) _ _ _ _ eq_refl) in Hm. unfold finish_image in Hm.
  apply bind_Done in Hm as ([] & a1 & _ & Hm). apply bind_Done in Hm as ([] & a2 & _ & Hm).
  by injection Hm as <- _.
Qed.
