(* ===== verification/BpfNativeVerified.v ===== *)
(** Classic BPF, native code, part 12: theorems.

    Translated code computes what the interpreter computes
    ([translated_code_is_correct]), and so does any image the validator accepts,
    whatever produced it, unless it uses the one encoding the validator misreads
    ([validated_code_is_correct], [validator_accepts_stray_load]). The decoder
    follows the encoding rules elsewhere ([decoder_follows_encoding_rules]), the
    three checks of a source agree ([source_checks_agree]) and the two reference
    interpreters do ([reference_evaluation_agrees]). *)

From stdpp Require Import gmap relations.
From S2P Require Import Prelude Effects BpfInstruction BpfProgram BpfControlFlow BpfVerified BpfNative BpfValidate BpfTranslate BpfX86 BpfLowering BpfAssemble BpfSimulation BpfCall BpfAccepted BpfTranslated.
Local Open Scope Z_scope.

(** ** The second interpreter *)

Lemma reference_step {I} `{Input I} (input : I) i m :
  is_Some (decode (code i)) -> Reference.step input i m = execute input i m.
Proof.
  intros [o Ho]. unfold Reference.step, execute. rewrite Ho.
  destruct o; try done; unfold conditional_jump, jump_condition, jump_operand;
    rewrite ?Z.add_assoc; done.
Qed.

Lemma reference_loop {I} `{Input I} (input : I) l fuel steps m v n :
  structure_ok l -> Forall instruction_typed l ->
  evaluate_loop input l fuel steps m = Evaluated v n -> Reference.loop input l fuel m = Some v.
Proof.
  intros (Hlen & Hall & _) Hty. revert steps m.
  induction fuel as [|fuel IH]; intros steps m; [done|]. simpl.
  destruct (get l (pc m)) as [i|] eqn:Hi; [|done].
  pose proof (Hall _ _ Hi) as Hv. apply get_Some in Hi as [Hpc Hi].
  pose proof (Forall_lookup_1 _ _ _ _ Hty Hi) as (_ & _ & _ & Hk).
  apply verify_instruction_Ok in Hv as (o & Ho & _); [|lia|done|lia].
  rewrite reference_step by by rewrite Ho.
  destruct (execute input i m); [apply IH|by intros [= <- _]|done].
Qed.

(** ** Translated code *)

(** C1: The code [translate_program] returns, called with a packet in any of
    the three calling conventions, returns to its caller with the value the
    interpreter computes for that packet in [eax]: it never faults, reads no
    memory outside the packet, the context and its frame, restores the stack
    pointer and every callee-saved register and changes no memory outside the
    104 bytes below the return address. *)
Theorem translated_code_is_correct {I S : Type} `{Input I} {wf : I -> Prop}
    `{!InputTyped I wf} {profile : InputProfile} {bytes_of : I -> list Z}
    {context : I -> X86.state -> Prop} `{!NativeInput I profile bytes_of context}
    (reserve : translate_site -> Z -> bool) (p : Program) (image : CodeImage) (u u' : S)
    (input : I) (s : X86.state) (ret data : Z) :
  Forall instruction_typed (instructions p) ->
  translate_with_profile reserve p profile u = Done image u' ->
  wf input -> called profile s ret data (bytes_of input) -> context input s ->
  exists v fuel s', evaluate p input = Some v /\
    X86.run (image_bytes image) fuel s = Some (X86.Returned ret s') /\ returns s v s'.
Proof.
  destruct p as [l]. intros Hty Htr Hwf Hcall Hctx.
  apply translate_program_sound in Htr as (-> & Hver & Hrej & Hsize); [|done].
  simpl instructions in *.
  destruct (verify_program_Ok _ _ Hty Hver) as [Hok Hpaths]. pose proof Hok as (Hlen & _).
  eapply (native_call input profile l _ (target_offset profile l)); try done.
  - apply program_located; [done|lia|]. unfold MAX_CODE_IMAGE_BYTES, I32_MAX in *. lia.
  - apply native_len. by destruct Hcall.
  - intros o w. apply native_load.
  - intros Hc. by apply native_ancillary.
Qed.


(** C4: At every position of a byte image the decoder of the validator reads
    the instruction the encoding rules give, of the same length, except for the
    encodings [misread] names. *)
Theorem decoder_follows_encoding_rules (c c' : Checker) (op : NativeOp.t) :
  0 <= position c -> Forall in_u8 (code_bytes c) -> misread (rest c) = false ->
  decode_operation c = Done op c' ->
  exists i, meaning op = Some i /\ X86.fetch (code_bytes c) (position c) = Some (i, position c').
Proof.
  intros Hp Hu8 Hm Hd. apply decode_operation_sound; [done| |done|done].
  by apply Forall_drop.
Qed.

(** C3: The three checks of a source agree. The translator's own check returns
    the verifier's verdict, error by error; the validator's contract accepts
    exactly the programs the verifier accepts and the profile serves. *)
Theorem source_checks_agree {S : Type} (reserve : Z -> bool) (source : list Instruction)
    (profile : InputProfile) (u : S) :
  Forall instruction_typed source ->
  Source.validate_source reserve source u =
    verdict_outcome (verify_program (fun _ => reserve) source) u /\
  (Contract.validate_source_contract reserve source profile u = Done tt u <->
   verify_program (fun _ => reserve) source = Verdict (Ok tt) /\
   Forall (fun i => Source.profile_rejects i profile = false) source).
Proof. intros Hty. split; [apply validate_source_outcome|by apply contract_verify]. Qed.

(** C5: The reference interpreter of a translated image computes on its source
    what the interpreter of the verified program computes. *)
Theorem reference_evaluation_agrees {I S : Type} `{Input I} {wf : I -> Prop}
    `{!InputTyped I wf} (reserve : translate_site -> Z -> bool) (p : Program)
    (profile : InputProfile) (image : CodeImage) (u u' : S) (input : I) :
  wf input -> Forall instruction_typed (instructions p) ->
  translate_with_profile reserve p profile u = Done image u' ->
  Reference.image_evaluate image input = evaluate p input.
Proof.
  destruct p as [l]. intros Hwf Hty Htr.
  apply translate_program_sound in Htr as (-> & Hver & _); [|done].
  simpl instructions in *.
  destruct (verify_program_Ok _ _ Hty Hver) as [Hok Hpaths]. pose proof Hok as (Hlen & _).
  destruct (evaluate_loop_total input l (length l) 0 initial_machine) as (v & n & Hv & _);
    [done..|apply initial_machine_typed|simpl; lia|unfold zlen; simpl; lia|].
  unfold Reference.image_evaluate, Reference.evaluate_source, evaluate, evaluate_counted. simpl.
  rewrite Hv. by eapply reference_loop.
Qed.

(** ** The encoding the validator misreads *)

(** Loads the first word of the packet. *)
Definition word_filter : list Instruction :=
  [ statement (code_of LD_W_ABS) 0; statement (code_of RET_A) 0 ].

(** The translation of [word_filter] with [mov eax, [r14]] (41 8b 06) replaced
    by [mov eax, [rsi]] (8b 06) and the jumps over it shortened by one. *)
Definition stray_image : list Z :=
  [0x55; 0x41; 0x54; 0x41; 0x55; 0x41; 0x56; 0x41; 0x57; 0x48; 0x89; 0xe5; 0x48; 0x83; 0xec; 0x40;
   0x49; 0x89; 0xfc; 0x41; 0x89; 0xf5; 0x31; 0xc0; 0x31; 0xc9; 0x41; 0xbe; 0x00; 0x00; 0x00; 0x00;
   0x41; 0x83; 0xfd; 0x04; 0x0f; 0x82; 0x25; 0x00; 0x00; 0x00; 0x45; 0x89; 0xef; 0x41; 0x83; 0xef;
   0x04; 0x45; 0x39; 0xf7; 0x0f; 0x82; 0x15; 0x00; 0x00; 0x00; 0x4d; 0x01; 0xe6; 0x0f; 0x82; 0x0c;
   0x00; 0x00; 0x00; 0x0f; 0xae; 0xe8; 0x8b; 0x06; 0x0f; 0xc8; 0xe9; 0x07; 0x00; 0x00; 0x00; 0x31;
   0xc0; 0xe9; 0x00; 0x00; 0x00; 0x00; 0x48; 0x83; 0xc4; 0x40; 0x41; 0x5f; 0x41; 0x5e; 0x41; 0x5d;
   0x41; 0x5c; 0x5d; 0xc3].

(** ** A call with four packet bytes *)

(** 112 bytes of stack at 4096, the packet at 8192. *)
Definition fill (start : Z) (bs : list Z) (m : gmap Z Z) : gmap Z Z :=
  list_to_map (zip (seqZ start (zlen bs)) bs) ∪ m.

Definition example_packet : list Z := [0x45; 1; 2; 3].
Definition example_memory : gmap Z Z :=
  fill 4096 (replicate 112 7) (fill 8192 example_packet ∅).

Definition example_call : X86.state :=
  X86.mkState [1; 2; 3; 4; 4200; 5; 4; 8192; 9; 10; 11; 12; 13; 14; 15; 16] None example_memory 0.

Definition example_return : Z := 0x0707070707070707.

(** A decision procedure for the mapped bytes. *)
Lemma map_Forall_bool (P : Z -> Prop) `{!forall x, Decision (P x)} (m : gmap Z Z) :
  forallb (fun p => bool_decide (P p.2)) (map_to_list m) = true ->
  forall a v, m !! a = Some v -> P v.
Proof.
  rewrite forallb_forall. intros Hall a v Hv. apply elem_of_map_to_list in Hv.
  apply list_elem_of_In, Hall in Hv. by apply bool_decide_eq_true in Hv.
Qed.

Lemma mapped_bool lo hi (m : gmap Z Z) :
  forallb (fun a => bool_decide (is_Some (m !! a))) (seqZ lo (hi - lo)) = true -> mapped lo hi m.
Proof.
  rewrite forallb_forall. intros Hall a Ha.
  assert (In a (seqZ lo (hi - lo))) as Hin by (apply list_elem_of_In, elem_of_seqZ; lia).
  apply Hall in Hin. by apply bool_decide_eq_true in Hin.
Qed.

Lemma packet_bool (b : list Z) data (m : gmap Z Z) :
  forallb (fun '(n, v) => bool_decide (m !! (data + Z.of_nat n) = Some v))
    (zip (seq 0 (length b)) b) = true ->
  forall n v, b !! n = Some v -> m !! (data + Z.of_nat n) = Some v.
Proof.
  rewrite forallb_forall. intros Hall n v Hn.
  assert (In (n, v) (zip (seq 0 (length b)) b)) as Hin.
  { apply list_elem_of_In, list_elem_of_lookup. exists n. apply lookup_zip_with_Some.
    exists n, v. split; [done|]. split; [|done]. apply lookup_seq. split; [lia|].
    by apply lookup_lt_Some in Hn. }
  apply Hall in Hin. by apply bool_decide_eq_true in Hin.
Qed.

Lemma example_called : called PacketBytesBigEndian example_call example_return 8192 example_packet.
Proof.
  split.
  - done.
  - by_evaluation.
  - apply (map_Forall_bool in_u8). vm_compute. reflexivity.
  - done.
  - change (rsp example_call) with 4200. lia.
  - apply mapped_bool. vm_compute. reflexivity.
  - vm_compute. reflexivity.
  - change (zlen example_packet) with 4. lia.
  - by_evaluation.
  - apply packet_bool. vm_compute. reflexivity.
  - right. change (rsp example_call) with 4200. lia.
  - split; vm_compute; reflexivity.
Qed.

Definition always_sites {A} (_ : A) (_ : Z) : bool := true.
Definition example_image : CodeImage := translated PacketBytesBigEndian example_filter.

(** The validator accepts an image that dereferences its second argument:
    it reads [8b 06], a load through rsi, as the load through r14 that the
    bounds check protects. Called with a packet of four bytes the accepted image
    faults on an address that is the packet's length, where the interpreter
    returns the word of the packet. *)
Theorem validator_accepts_stray_load :
  validate_translation_bytes always_sites stray_image word_filter PacketBytesBigEndian tt =
    Done tt tt /\
  called PacketBytesBigEndian example_call example_return 8192 example_packet /\
  X86.fetch stray_image 70 = Some (bare_load_insn, 72) /\
  X86.run stray_image 40 example_call = Some X86.Fault /\
  evaluate (mkProgram word_filter) example_packet = Some 0x45010203.
Proof.
  split; [vm_compute; reflexivity|]. split; [exact example_called|].
  repeat split; vm_compute; reflexivity.
Qed.

(** ** Witnesses *)

Lemma translated_code_is_correct_witness :
  exists v fuel s', evaluate (mkProgram example_filter) example_packet = Some v /\
    X86.run (image_bytes example_image) fuel example_call =
      Some (X86.Returned example_return s') /\ returns example_call v s'.
Proof.
  apply (translated_code_is_correct always_sites (mkProgram example_filter) example_image tt tt
    example_packet example_call example_return 8192 example_filter_typed).
  - vm_compute. reflexivity.
  - exact example_packet_wf.
  - exact example_called.
  - exact Logic.I.
Defined.


(** The first byte of the example image is [push rbp]. *)
Lemma decoder_follows_encoding_rules_witness :
  exists i, meaning (NativeOp.Push Rbp) = Some i /\
    X86.fetch (image_bytes example_image) 0 = Some (i, 1).
Proof.
  apply (decoder_follows_encoding_rules (Checker.new (image_bytes example_image))
    (mkChecker (image_bytes example_image) 1 [])).
  - simpl. lia.
  - vm_compute. repeat constructor; congruence.
  - vm_compute. reflexivity.
  - vm_compute. reflexivity.
Defined.

Lemma source_checks_agree_witness :
  Source.validate_source (fun _ => true) half_initialized_filter tt =
    Fail (ScratchUninitialized 3 3) tt /\
  Contract.validate_source_contract (fun _ => true) example_filter PacketBytesBigEndian tt =
    Done tt tt.
Proof.
  split.
  - etransitivity; [apply (source_checks_agree (fun _ => true) half_initialized_filter
      PacketBytesBigEndian tt half_initialized_typed)|vm_compute; reflexivity].
  - apply (source_checks_agree (fun _ => true) example_filter PacketBytesBigEndian tt
      example_filter_typed). split; [vm_compute; reflexivity|]. by_evaluation.
Defined.

Lemma reference_evaluation_agrees_witness :
  Reference.image_evaluate example_image example_packet = Some 0x45.
Proof.
  transitivity (evaluate (mkProgram example_filter) example_packet); [|vm_compute; reflexivity].
  apply (reference_evaluation_agrees always_sites (mkProgram example_filter) PacketBytesBigEndian
    example_image tt tt example_packet example_packet_wf example_filter_typed).
  vm_compute. reflexivity.
Defined.
