(* ===== verification/FaultBroker.v ===== *)
(** Fault broker, part 1: data and operations of
    [crates/thekernel-axfault/src/lib.rs].

    A broker preallocates request and waiter slots. Live requests are linked
    into a FIFO delivery queue ([pending_head]/[pending_tail] and per-record
    [pending_prev]/[pending_next]); the waiters of a request form a second
    doubly linked list ([waiter_head]/[waiter_tail], [prev]/[next]). Operations
    are methods of [M Env _ _]: the environment holds the broker and the shared
    static credit pools. Slot indices are [nat] (the arrays are fixed), counts,
    generations and identities are integers of the source's width. *)

From S2P Require Import Prelude Effects Atomics.
Local Open Scope Z_scope.

(** ** Credit pools *)

Inductive CreditPoolConfigError : Type := PoolUnboundedCapacity.

Record RequestCreditPool : Type := mkPool { capacity : Z; live_requests : Z }.

Module RequestCreditPool.

(** [new] panics ([None]) on an unbounded capacity. *)
Definition new (capacity : Z) : option RequestCreditPool :=
  if capacity =? usize_MAX then None else Some (mkPool capacity 0).

Definition try_new (capacity : Z) : option (result RequestCreditPool CreditPoolConfigError) :=
  if capacity =? usize_MAX then Some (Err PoolUnboundedCapacity) else Ok <$> new capacity.

Definition available_requests (p : RequestCreditPool) : Z :=
  saturating_sub_usize (capacity p) (live_requests p).

Definition with_word (p : RequestCreditPool) (r : result Z Z * Z) : bool * RequestCreditPool :=
  (is_ok r.1, mkPool (capacity p) r.2).

Definition try_acquire (p : RequestCreditPool) : bool * RequestCreditPool :=
  with_word p (try_update
    (fun current => if capacity p <=? current then None else checked_add_usize current 1)
    (live_requests p)).

Definition try_release (p : RequestCreditPool) (count : Z) : bool * RequestCreditPool :=
  if count =? 0 then (true, p) else
  with_word p (try_update (fun current => checked_sub_usize current count) (live_requests p)).

End RequestCreditPool.

(** ** Tokens, phases and results *)

Inductive AdmissionError : Type :=
| RequestCapacity | RequestCreditCapacity | RequestTokenExhausted
| WaiterCapacity | WaiterTokenExhausted | AdmissionInconsistent.

Inductive RequestError : Type :=
| RequestStaleOrForeign | AlreadyTerminal | NotDelivered | NotTerminal.

Inductive WaiterError : Type := WaiterStaleOrForeign | NotReady | WaiterInconsistent.

Inductive BrokerConfigError : Type := UnboundedCapacity | BrokerNoMemory | BrokerIdentityExhausted.

Record RequestToken : Type := mkRequestToken {
  rt_broker : Z; rt_slot : nat; rt_generation : Z }.
Record WaiterToken : Type := mkWaiterToken {
  wt_broker : Z; wt_slot : nat; wt_generation : Z }.

#[export] Instance RequestToken_eq_dec : EqDecision RequestToken.
Proof. solve_decision. Defined.
#[export] Instance WaiterToken_eq_dec : EqDecision WaiterToken.
Proof. solve_decision. Defined.

Inductive RequestPhase : Type :=
| PhasePending | PhaseDelivered | PhaseDeferredPending | PhaseDeferredDelivered
| PhaseTerminalVisible.

Inductive CompletionVisibility : Type := Visible | Deferred.

Record FaultAdmission : Type := mkAdmission {
  adm_request : RequestToken; adm_waiter : WaiterToken; coalesced : bool }.

Record CompletionEffect : Type := mkEffect { waiters_released : Z }.

Record CompletionSummary : Type := mkSummary {
  requests_completed : Z; requests_released : Z; summary_waiters_released : Z }.

Definition default_summary : CompletionSummary := mkSummary 0 0 0.
Definition record_completion (s : CompletionSummary) (e : CompletionEffect) : CompletionSummary :=
  mkSummary (requests_completed s + 1) (requests_released s)
    (summary_waiters_released s + waiters_released e).
Definition record_release (s : CompletionSummary) (e : CompletionEffect) : CompletionSummary :=
  mkSummary (requests_completed s) (requests_released s + 1)
    (summary_waiters_released s + waiters_released e).
Definition merge (s o : CompletionSummary) : CompletionSummary :=
  mkSummary (requests_completed s + requests_completed o)
    (requests_released s + requests_released o)
    (summary_waiters_released s + summary_waiters_released o).

(** Half-open byte ranges. *)
Inductive FaultRangeError : Type := RangeEmpty | RangeOverflow.

Record FaultRange : Type := mkRange { range_start : Z; range_end : Z }.

Definition range_try_new (start length : Z) : result FaultRange FaultRangeError :=
  if length =? 0 then Err RangeEmpty else
  match checked_add_u64 start length with
  | None => Err RangeOverflow
  | Some finish => Ok (mkRange start finish)
  end.

Definition range_intersects (a b : FaultRange) : bool :=
  (range_start a <? range_end b) && (range_start b <? range_end a).

(** ** Slots *)

Inductive SlotChoiceError : Type := Capacity | GenerationExhausted.

Inductive RequestState (C : Type) : Type :=
| Pending | Delivered
| DeferredPending (c : C) | DeferredDelivered (c : C) | StateVisible (c : C).
Arguments Pending {C}.
Arguments Delivered {C}.
Arguments DeferredPending {C} c.
Arguments DeferredDelivered {C} c.
Arguments StateVisible {C} c.

Inductive WaiterState (C : Type) : Type := Active | Ready (c : C).
Arguments Active {C}.
Arguments Ready {C} c.

(** [WaiterObservation]: what one waiter sees. *)
Inductive WaiterObservation (C : Type) : Type := ObservedPending | ObservedReady (c : C).
Arguments ObservedPending {C}.
Arguments ObservedReady {C} c.

Record CancelledWaiter (C : Type) : Type := mkCancelled {
  cancelled_completion : option C; cancelled_reclaimed : bool }.
Arguments mkCancelled {C}.
Arguments cancelled_completion {C}.
Arguments cancelled_reclaimed {C}.
Record TakenCompletion (C : Type) : Type := mkTaken {
  taken_completion : C; taken_reclaimed : bool }.
Arguments mkTaken {C}.
Arguments taken_completion {C}.
Arguments taken_reclaimed {C}.

Section Records.
Context (K H C : Type).

Record RequestRecord : Type := mkRequestRecord {
  key : K; handler : H; state : RequestState C;
  waiter_head : option nat; waiter_tail : option nat; waiter_count : Z;
  pending_prev : option nat; pending_next : option nat }.

Record RequestSlot : Type := mkRequestSlot {
  generation : Z; record : option RequestRecord }.

Record WaiterRecord : Type := mkWaiterRecord {
  request : RequestToken; wstate : WaiterState C;
  prev : option nat; next : option nat }.

Record WaiterSlot : Type := mkWaiterSlot {
  wgeneration : Z; wrecord : option WaiterRecord }.

Record RequestSnapshot : Type := mkSnapshot {
  snap_token : RequestToken; snap_key : K; snap_handler : H;
  snap_phase : RequestPhase; snap_waiter_count : Z }.

(** [credit_pool] is the index of the shared static pool, if any. *)
Record FaultBroker : Type := mkBroker {
  id : Z; requests : list RequestSlot; waiters : list WaiterSlot;
  pending_head : option nat; pending_tail : option nat; credit_pool : option nat }.

Record Env : Type := mkEnv { pools : list RequestCreditPool; broker : FaultBroker }.

End Records.
Arguments mkRequestRecord {K H C}.
Arguments key {K H C}.
Arguments handler {K H C}.
Arguments state {K H C}.
Arguments waiter_head {K H C}.
Arguments waiter_tail {K H C}.
Arguments waiter_count {K H C}.
Arguments pending_prev {K H C}.
Arguments pending_next {K H C}.
Arguments mkRequestSlot {K H C}.
Arguments generation {K H C}.
Arguments record {K H C}.
Arguments mkWaiterRecord {C}.
Arguments request {C}.
Arguments wstate {C}.
Arguments prev {C}.
Arguments next {C}.
Arguments mkWaiterSlot {C}.
Arguments wgeneration {C}.
Arguments wrecord {C}.
Arguments mkSnapshot {K H}.
Arguments snap_token {K H}.
Arguments snap_key {K H}.
Arguments snap_handler {K H}.
Arguments snap_phase {K H}.
Arguments snap_waiter_count {K H}.
Arguments mkBroker {K H C}.
Arguments id {K H C}.
Arguments requests {K H C}.
Arguments waiters {K H C}.
Arguments pending_head {K H C}.
Arguments pending_tail {K H C}.
Arguments credit_pool {K H C}.
Arguments mkEnv {K H C}.
Arguments pools {K H C}.
Arguments broker {K H C}.

Definition phase {C} (s : RequestState C) : RequestPhase :=
  match s with
  | Pending => PhasePending
  | Delivered => PhaseDelivered
  | DeferredPending _ => PhaseDeferredPending
  | DeferredDelivered _ => PhaseDeferredDelivered
  | StateVisible _ => PhaseTerminalVisible
  end.

(** [matches!(state, Pending | DeferredPending(_))] *)
Definition is_pending {C} (s : RequestState C) : bool :=
  match s with Pending | DeferredPending _ => true | _ => false end.

(** [matches!(state, Visible(_))] *)
Definition is_visible {C} (s : RequestState C) : bool :=
  match s with StateVisible _ => true | _ => false end.

(** [iter().position(..)] *)
Fixpoint position {A} (p : A -> bool) (l : list A) : option nat :=
  match l with
  | [] => None
  | x :: l => if p x then Some 0%nat else S <$> position p l
  end.

(** The loop of [choose_request_slot] and [choose_waiter_slot]: the first free
    slot whose generation can still advance. *)
Fixpoint choose_slot_from {A} (gen : A -> Z) (vacant : A -> bool) (l : list A) (slot : nat)
    (exhausted_free : bool) : result (nat * Z) SlotChoiceError :=
  match l with
  | [] => if exhausted_free then Err GenerationExhausted else Err Capacity
  | entry :: l =>
      if vacant entry then
        match checked_add_u64 (gen entry) 1 with
        | Some g => Ok (slot, g)
        | None => choose_slot_from gen vacant l (S slot) true
        end
      else choose_slot_from gen vacant l (S slot) exhausted_free
  end.

Definition is_none {A} (o : option A) : bool := match o with None => true | _ => false end.

Section Operations.
Context {K H C : Type} `{EqDecision K} `{EqDecision H}.
Local Abbreviation Env := (Env K H C).
Local Abbreviation FaultBroker := (FaultBroker K H C).
Local Abbreviation RequestSlot := (RequestSlot K H C).
Local Abbreviation RequestRecord := (RequestRecord K H C).
Local Abbreviation RequestSnapshot := (RequestSnapshot K H).

(** ** Field updates *)

Definition set_requests (rs : list RequestSlot) (b : FaultBroker) : FaultBroker :=
  mkBroker (id b) rs (waiters b) (pending_head b) (pending_tail b) (credit_pool b).
Definition set_waiters (ws : list (WaiterSlot C)) (b : FaultBroker) : FaultBroker :=
  mkBroker (id b) (requests b) ws (pending_head b) (pending_tail b) (credit_pool b).
Definition set_pending_head (p : option nat) (b : FaultBroker) : FaultBroker :=
  mkBroker (id b) (requests b) (waiters b) p (pending_tail b) (credit_pool b).
Definition set_pending_tail (p : option nat) (b : FaultBroker) : FaultBroker :=
  mkBroker (id b) (requests b) (waiters b) (pending_head b) p (credit_pool b).

Definition rec_set_state (s : RequestState C) (r : RequestRecord) : RequestRecord :=
  mkRequestRecord (key r) (handler r) s (waiter_head r) (waiter_tail r) (waiter_count r)
    (pending_prev r) (pending_next r).
Definition rec_set_pending_prev (p : option nat) (r : RequestRecord) : RequestRecord :=
  mkRequestRecord (key r) (handler r) (state r) (waiter_head r) (waiter_tail r)
    (waiter_count r) p (pending_next r).
Definition rec_set_pending_next (p : option nat) (r : RequestRecord) : RequestRecord :=
  mkRequestRecord (key r) (handler r) (state r) (waiter_head r) (waiter_tail r)
    (waiter_count r) (pending_prev r) p.
Definition rec_set_waiters (h t : option nat) (n : Z) (r : RequestRecord) : RequestRecord :=
  mkRequestRecord (key r) (handler r) (state r) h t n (pending_prev r) (pending_next r).

Definition wrec_set_state (s : WaiterState C) (w : WaiterRecord C) : WaiterRecord C :=
  mkWaiterRecord (request w) s (prev w) (next w).
Definition wrec_set_prev (p : option nat) (w : WaiterRecord C) : WaiterRecord C :=
  mkWaiterRecord (request w) (wstate w) p (next w).
Definition wrec_set_next (p : option nat) (w : WaiterRecord C) : WaiterRecord C :=
  mkWaiterRecord (request w) (wstate w) (prev w) p.

(** ** Array accesses: an index out of range panics. *)

Section Accesses.
Context {E : Type}.

Definition self : M Env E FaultBroker := gets broker.

Definition update_broker (f : FaultBroker -> FaultBroker) : M Env E () :=
  modify (fun e => mkEnv (pools e) (f (broker e))).

(** [self.requests[i]] *)
Definition read_request (i : nat) : M Env E RequestSlot :=
  b ← self; expect (requests b !! i).
Definition read_waiter (i : nat) : M Env E (WaiterSlot C) :=
  b ← self; expect (waiters b !! i).

Definition write_request (i : nat) (s : RequestSlot) : M Env E () :=
  _ ← read_request i; update_broker (fun b => set_requests (<[i := s]> (requests b)) b).
Definition write_waiter (i : nat) (s : WaiterSlot C) : M Env E () :=
  _ ← read_waiter i; update_broker (fun b => set_waiters (<[i := s]> (waiters b)) b).

(** [if let Some(record) = self.requests[i].record.as_mut() { *record = f(record) }] *)
Definition modify_request (i : nat) (f : RequestRecord -> RequestRecord) : M Env E () :=
  s ← read_request i; write_request i (mkRequestSlot (generation s) (f <$> record s)).
Definition modify_waiter (i : nat) (f : WaiterRecord C -> WaiterRecord C) : M Env E () :=
  s ← read_waiter i; write_waiter i (mkWaiterSlot (wgeneration s) (f <$> wrecord s)).

(** [self.requests[i].record.as_mut().expect(..)] *)
Definition expect_request (i : nat) (f : RequestRecord -> RequestRecord) : M Env E () :=
  s ← read_request i; r ← expect (record s);
  write_request i (mkRequestSlot (generation s) (Some (f r))).
Definition expect_waiter (i : nat) (f : WaiterRecord C -> WaiterRecord C) : M Env E () :=
  s ← read_waiter i; r ← expect (wrecord s);
  write_waiter i (mkWaiterSlot (wgeneration s) (Some (f r))).

(** The shared pool: the pools are static, so a dangling index panics. *)
Definition pool_try_acquire (pool : nat) : M Env E bool :=
  ps ← gets pools; p ← expect (ps !! pool);
  let '(ok, p') := RequestCreditPool.try_acquire p in
  modify (fun e => mkEnv (<[pool := p']> (pools e)) (broker e)) ;; mret ok.

Definition pool_release_exact (pool : nat) (count : Z) : M Env E () :=
  ps ← gets pools; p ← expect (ps !! pool);
  let '(ok, p') := RequestCreditPool.try_release p count in
  assert_ ok ;; modify (fun e => mkEnv (<[pool := p']> (pools e)) (broker e)).

End Accesses.

(** ** Pure lookups *)

Definition snapshot_slot (b : FaultBroker) (slot : nat) : option RequestSnapshot :=
  entry ← requests b !! slot;
  r ← record entry;
  Some (mkSnapshot (mkRequestToken (id b) slot (generation entry)) (key r) (handler r)
          (phase (state r)) (waiter_count r)).

Definition matches_exact (h : H) (k : K) (slot : RequestSlot) : bool :=
  match record slot with
  | Some r => bool_decide (handler r = h) && bool_decide (key r = k) && negb (is_visible (state r))
  | None => false
  end.

Definition matching_request (b : FaultBroker) (h : H) (k : K) : option RequestSnapshot :=
  slot ← position (matches_exact h k) (requests b);
  snapshot_slot b slot.

Definition choose_request_slot (b : FaultBroker) : result (nat * Z) SlotChoiceError :=
  choose_slot_from generation (fun s => is_none (record s)) (requests b) 0 false.
Definition choose_waiter_slot (b : FaultBroker) : result (nat * Z) SlotChoiceError :=
  choose_slot_from wgeneration (fun s => is_none (wrecord s)) (waiters b) 0 false.

Definition request_index (b : FaultBroker) (token : RequestToken) : result nat RequestError :=
  if negb (rt_broker token =? id b) then Err RequestStaleOrForeign else
  match requests b !! rt_slot token with
  | None => Err RequestStaleOrForeign
  | Some slot =>
      if negb (generation slot =? rt_generation token) || is_none (record slot)
      then Err RequestStaleOrForeign else Ok (rt_slot token)
  end.

Definition waiter_index (b : FaultBroker) (token : WaiterToken) : result nat WaiterError :=
  if negb (wt_broker token =? id b) then Err WaiterStaleOrForeign else
  match waiters b !! wt_slot token with
  | None => Err WaiterStaleOrForeign
  | Some slot =>
      if negb (wgeneration slot =? wt_generation token) || is_none (wrecord slot)
      then Err WaiterStaleOrForeign else Ok (wt_slot token)
  end.

Definition is_pending_for (h : H) (slot : RequestSlot) : bool :=
  match record slot with
  | Some r => bool_decide (handler r = h) && is_pending (state r)
  | None => false
  end.

Definition pending_count (b : FaultBroker) (h : H) : Z :=
  count (fun s => is_pending_for h s = true) (requests b).

Definition has_pending (b : FaultBroker) (h : H) : bool :=
  existsb (is_pending_for h) (requests b).

Definition request_of (b : FaultBroker) (token : RequestToken)
    : result RequestSnapshot RequestError :=
  match request_index b token with
  | Err e => Err e
  | Ok slot => ok_or (snapshot_slot b slot) RequestStaleOrForeign
  end.

Definition request_snapshots (b : FaultBroker) : list RequestSnapshot :=
  omap (snapshot_slot b) (seq 0 (length (requests b))).

Definition waiter_observation (b : FaultBroker) (token : WaiterToken)
    : result (WaiterObservation C) WaiterError :=
  match waiter_index b token with
  | Err e => Err e
  | Ok slot =>
      match waiters b !! slot ≫= wrecord with
      | None => Err WaiterStaleOrForeign
      | Some r => Ok (match wstate r with Active => ObservedPending | Ready c => ObservedReady c end)
      end
  end.

(** ** Admission *)

Definition credit_reserve (pool : option nat) : M Env AdmissionError () :=
  match pool with
  | None => mret tt
  | Some pool =>
      ok ← pool_try_acquire pool;
      if (ok : bool) then mret tt else throw RequestCreditCapacity
  end.

(** The tail checks of a coalescing admission: the old tail of the waiter list. *)
Definition check_waiter_tail (slot : nat) (token : RequestToken)
    : M Env AdmissionError (option nat) :=
  entry ← read_request slot;
  r ← some_or (record entry) AdmissionInconsistent;
  if (waiter_count r =? 0) || is_none (waiter_head r) || is_none (waiter_tail r)
  then throw AdmissionInconsistent else
  match waiter_tail r with
  | None => mret None
  | Some previous =>
      b ← self;
      previous_record ← some_or (waiters b !! previous ≫= wrecord) AdmissionInconsistent;
      if negb (bool_decide (request previous_record = token)) ||
         negb (is_none (next previous_record))
      then throw AdmissionInconsistent else mret (Some previous)
  end.

(** The tail checks of a new request: the old tail of the delivery queue. *)
Definition check_pending_tail : M Env AdmissionError () :=
  b ← self;
  if negb (Bool.eqb (negb (is_none (pending_head b))) (negb (is_none (pending_tail b))))
  then throw AdmissionInconsistent else
  match pending_tail b with
  | None => mret tt
  | Some tail =>
      tail_record ← some_or (requests b !! tail ≫= record) AdmissionInconsistent;
      if negb (is_pending (state tail_record)) || negb (is_none (pending_next tail_record))
      then throw AdmissionInconsistent else mret tt
  end.

(** Publication of a new request at the tail of the delivery queue. *)
Definition publish_request (h : H) (k : K) (slot : nat) (gen : Z) : M Env AdmissionError () :=
  b ← self;
  write_request slot (mkRequestSlot gen
    (Some (mkRequestRecord k h Pending None None 0 (pending_tail b) None))) ;;
  match pending_tail b with
  | Some tail => expect_request tail (rec_set_pending_next (Some slot))
  | None => update_broker (set_pending_head (Some slot))
  end ;;
  update_broker (set_pending_tail (Some slot)).

(** Publication of the waiter at the tail of its request's list. *)
Definition publish_waiter (token : RequestToken) (slot : nat) (gen : Z)
    (previous : option nat) (count : Z) : M Env AdmissionError () :=
  write_waiter slot (mkWaiterSlot gen (Some (mkWaiterRecord token Active previous None))) ;;
  match previous with
  | Some previous => expect_waiter previous (wrec_set_next (Some slot))
  | None => mret tt
  end ;;
  expect_request (rt_slot token) (fun r =>
    rec_set_waiters (if is_none (waiter_head r) then Some slot else waiter_head r)
      (Some slot) count r).

Definition broker_admit (h : H) (k : K) : M Env AdmissionError FaultAdmission :=
  b ← self;
  let existing := position (matches_exact h k) (requests b) in
  '(request_slot, request_generation, is_coalesced) ←
    match existing with
    | Some slot => entry ← read_request slot; mret (slot, generation entry, true)
    | None =>
        '(slot, gen) ← lift (map_err (fun e => match e with
                               | Capacity => RequestCapacity
                               | GenerationExhausted => RequestTokenExhausted
                               end) (choose_request_slot b));
        mret (slot, gen, false)
    end;
  '(waiter_slot, waiter_generation) ←
    lift (map_err (fun e => match e with
            | Capacity => WaiterCapacity
            | GenerationExhausted => WaiterTokenExhausted
            end) (choose_waiter_slot b));
  next_waiter_count ←
    (if is_coalesced : bool then
      entry ← read_request request_slot;
      r ← some_or (record entry) AdmissionInconsistent;
      some_or (checked_add_usize (waiter_count r) 1) AdmissionInconsistent
    else mret 1);
  if zlen (waiters b) <? next_waiter_count then throw AdmissionInconsistent else
  let token := mkRequestToken (id b) request_slot request_generation in
  let waiter := mkWaiterToken (id b) waiter_slot waiter_generation in
  previous ←
    (if is_coalesced : bool then check_waiter_tail request_slot token
    else check_pending_tail ;; mret None);
  (if is_coalesced : bool then mret tt else credit_reserve (credit_pool b)) ;;
  (if is_coalesced : bool then mret tt else publish_request h k request_slot request_generation) ;;
  publish_waiter token waiter_slot waiter_generation previous next_waiter_count ;;
  mret (mkAdmission token waiter is_coalesced).

(** ** Delivery *)

Definition unlink_pending {E} (slot : nat) : M Env E () :=
  s ← read_request slot;
  match record s with
  | None => mret tt
  | Some r =>
      let previous := pending_prev r in
      let next := pending_next r in
      match previous with
      | Some previous => modify_request previous (rec_set_pending_next next)
      | None => update_broker (set_pending_head next)
      end ;;
      match next with
      | Some next => modify_request next (rec_set_pending_prev previous)
      | None => update_broker (set_pending_tail previous)
      end ;;
      modify_request slot (fun r => rec_set_pending_next None (rec_set_pending_prev None r))
  end.

(** The cursor loop of [claim_next]; [fuel] bounds the visited slots. *)
Fixpoint claim_from {E} (fuel : nat) (h : H) (cursor : option nat)
    : M Env E (option RequestSnapshot) :=
  match cursor with
  | None => mret None
  | Some slot =>
      match fuel with
      | O => diverge
      | S fuel =>
          b ← self;
          match requests b !! slot ≫= record with
          | None => mret None
          | Some r =>
              if negb (bool_decide (handler r = h)) then claim_from fuel h (pending_next r) else
              match state r with
              | Pending =>
                  unlink_pending slot ;;
                  modify_request slot (rec_set_state Delivered) ;;
                  b ← self; mret (snapshot_slot b slot)
              | DeferredPending c =>
                  unlink_pending slot ;;
                  modify_request slot (rec_set_state (DeferredDelivered c)) ;;
                  b ← self; mret (snapshot_slot b slot)
              | _ => claim_from fuel h (pending_next r)
              end
          end
      end
  end.

Definition claim_next {E} (h : H) : M Env E (option RequestSnapshot) :=
  b ← self; claim_from (length (requests b)) h (pending_head b).

(** ** Completion *)

(** The cursor loop of [publish_waiters]. *)
Fixpoint publish_from {E} (fuel : nat) (completion : C) (cursor : option nat) (released : Z)
    : M Env E Z :=
  match cursor with
  | None => mret released
  | Some slot =>
      match fuel with
      | O => diverge
      | S fuel =>
          s ← read_waiter slot;
          match wrecord s with
          | None => mret released
          | Some r =>
              match wstate r with
              | Active =>
                  modify_waiter slot (wrec_set_state (Ready completion)) ;;
                  publish_from fuel completion (next r) (released + 1)
              | Ready _ => publish_from fuel completion (next r) released
              end
          end
      end
  end.

Definition publish_waiters {E} (slot : nat) (completion : C) : M Env E Z :=
  s ← read_request slot;
  b ← self;
  publish_from (length (waiters b)) completion (record s ≫= waiter_head) 0.

Definition complete_slot {E} (slot : nat) (completion : C) (visibility : CompletionVisibility)
    : M Env E CompletionEffect :=
  s ← read_request slot;
  match state <$> record s, visibility with
  | Some Pending, Deferred =>
      modify_request slot (rec_set_state (DeferredPending completion)) ;; mret (mkEffect 0)
  | Some Pending, Visible =>
      unlink_pending slot ;;
      modify_request slot (rec_set_state (StateVisible completion)) ;;
      n ← publish_waiters slot completion; mret (mkEffect n)
  | Some Delivered, Deferred =>
      modify_request slot (rec_set_state (DeferredDelivered completion)) ;; mret (mkEffect 0)
  | Some Delivered, Visible =>
      modify_request slot (rec_set_state (StateVisible completion)) ;;
      n ← publish_waiters slot completion; mret (mkEffect n)
  | _, _ => mret (mkEffect 0)
  end.

Definition release_slot {E} (slot : nat) : M Env E CompletionEffect :=
  s ← read_request slot;
  match state <$> record s with
  | Some (DeferredPending completion) =>
      unlink_pending slot ;;
      modify_request slot (rec_set_state (StateVisible completion)) ;;
      n ← publish_waiters slot completion; mret (mkEffect n)
  | Some (DeferredDelivered completion) =>
      modify_request slot (rec_set_state (StateVisible completion)) ;;
      n ← publish_waiters slot completion; mret (mkEffect n)
  | _ => mret (mkEffect 0)
  end.

Definition complete (token : RequestToken) (completion : C) (visibility : CompletionVisibility)
    : M Env RequestError CompletionEffect :=
  b ← self;
  slot ← lift (request_index b token);
  s ← read_request slot;
  match state <$> record s with
  | Some (DeferredPending _ | DeferredDelivered _ | StateVisible _) => throw AlreadyTerminal
  | _ => complete_slot slot completion visibility
  end.

(** The loop body of [complete_where] over one slot. *)
Definition complete_if {E} (predicate : RequestSnapshot -> bool) (completion : C)
    (visibility : CompletionVisibility) (slot : nat) (summary : CompletionSummary)
    : M Env E CompletionSummary :=
  b ← self;
  match snapshot_slot b slot with
  | None => mret summary
  | Some snapshot =>
      if (match snap_phase snapshot with PhasePending | PhaseDelivered => true | _ => false end)
         && predicate snapshot
      then effect ← complete_slot slot completion visibility;
           mret (record_completion summary effect)
      else mret summary
  end.

Fixpoint fold_slots {E} (body : nat -> CompletionSummary -> M Env E CompletionSummary)
    (slots : list nat) (summary : CompletionSummary) : M Env E CompletionSummary :=
  match slots with
  | [] => mret summary
  | slot :: slots => summary ← body slot summary; fold_slots body slots summary
  end.

Definition complete_where {E} (predicate : RequestSnapshot -> bool) (completion : C)
    (visibility : CompletionVisibility) : M Env E CompletionSummary :=
  b ← self;
  fold_slots (complete_if predicate completion visibility) (seq 0 (length (requests b)))
    default_summary.

Definition release (token : RequestToken) : M Env RequestError CompletionEffect :=
  b ← self;
  slot ← lift (request_index b token);
  s ← read_request slot;
  match state <$> record s with
  | Some (DeferredPending _ | DeferredDelivered _) => release_slot slot
  | Some (StateVisible _) => mret (mkEffect 0)
  | _ => throw NotTerminal
  end.

Definition release_if {E} (predicate : RequestSnapshot -> bool) (slot : nat)
    (summary : CompletionSummary) : M Env E CompletionSummary :=
  b ← self;
  match snapshot_slot b slot with
  | None => mret summary
  | Some snapshot =>
      if (match snap_phase snapshot with
          | PhaseDeferredPending | PhaseDeferredDelivered => true | _ => false end)
         && predicate snapshot
      then effect ← release_slot slot; mret (record_release summary effect)
      else mret summary
  end.

Definition release_where {E} (predicate : RequestSnapshot -> bool) : M Env E CompletionSummary :=
  b ← self;
  fold_slots (release_if predicate) (seq 0 (length (requests b))) default_summary.

(** [FaultRangeKey]: the adapter's projection of a key to a range. *)
Definition complete_range {E} (intersects : K -> FaultRange -> bool) (range : FaultRange)
    (completion : C) (visibility : CompletionVisibility) : M Env E CompletionSummary :=
  complete_where (fun s => intersects (snap_key s) range) completion visibility.
Definition release_range {E} (intersects : K -> FaultRange -> bool) (range : FaultRange)
    : M Env E CompletionSummary :=
  release_where (fun s => intersects (snap_key s) range).

Definition detach_handler {E} (h : H) (completion : C) : M Env E CompletionSummary :=
  summary ← complete_where (fun s => bool_decide (snap_handler s = h)) completion Visible;
  released ← release_where (fun s => bool_decide (snap_handler s = h));
  mret (merge summary released).

(** ** Waiters *)

Definition reclaim_request {E} (slot : nat) : M Env E () :=
  s ← read_request slot;
  let had_request := negb (is_none (record s)) in
  match state <$> record s with
  | Some (Pending | DeferredPending _) => unlink_pending slot
  | _ => mret tt
  end ;;
  s ← read_request slot;
  write_request slot (mkRequestSlot (generation s) None) ;;
  b ← self;
  if had_request then
    match credit_pool b with
    | Some pool => pool_release_exact pool 1
    | None => mret tt
    end
  else mret tt.

Definition relink_waiter (slot : nat) (f : WaiterRecord C -> WaiterRecord C)
    : M Env WaiterError () :=
  s ← read_waiter slot;
  r ← some_or (wrecord s) WaiterInconsistent;
  write_waiter slot (mkWaiterSlot (wgeneration s) (Some (f r))).

Definition remove_waiter (slot : nat) : M Env WaiterError bool :=
  s ← read_waiter slot;
  waiter ← some_or (wrecord s) WaiterStaleOrForeign;
  b ← self;
  request_slot ← lift (map_err (fun _ => WaiterInconsistent) (request_index b (request waiter)));
  rs ← read_request request_slot;
  r ← some_or (record rs) WaiterInconsistent;
  if waiter_count r =? 0 then throw WaiterInconsistent else
  match prev waiter with
  | Some previous => relink_waiter previous (wrec_set_next (next waiter))
  | None => mret tt
  end ;;
  match next waiter with
  | Some next => relink_waiter next (wrec_set_prev (prev waiter))
  | None => mret tt
  end ;;
  rs ← read_request request_slot;
  r ← some_or (record rs) WaiterInconsistent;
  let r' := rec_set_waiters
    (if bool_decide (waiter_head r = Some slot) then next waiter else waiter_head r)
    (if bool_decide (waiter_tail r = Some slot) then prev waiter else waiter_tail r)
    (waiter_count r - 1) r in
  write_request request_slot (mkRequestSlot (generation rs) (Some r')) ;;
  let reclaim := waiter_count r' =? 0 in
  s ← read_waiter slot;
  write_waiter slot (mkWaiterSlot (wgeneration s) None) ;;
  (if reclaim then reclaim_request request_slot else mret tt) ;;
  mret reclaim.

Definition cancel_waiter (token : WaiterToken) : M Env WaiterError (CancelledWaiter C) :=
  b ← self;
  slot ← lift (waiter_index b token);
  s ← read_waiter slot;
  r ← some_or (wrecord s) WaiterStaleOrForeign;
  let completion := match wstate r with Active => None | Ready c => Some c end in
  reclaimed ← remove_waiter slot;
  mret (mkCancelled completion reclaimed).

Definition take_waiter_completion (token : WaiterToken)
    : M Env WaiterError (TakenCompletion C) :=
  b ← self;
  slot ← lift (waiter_index b token);
  s ← read_waiter slot;
  r ← some_or (wrecord s) WaiterStaleOrForeign;
  match wstate r with
  | Active => throw NotReady
  | Ready c => reclaimed ← remove_waiter slot; mret (mkTaken c reclaimed)
  end.

(** ** Occupancy *)

Record BrokerLoad : Type := mkLoad {
  load_request_capacity : Z;
  open_pending_requests : Z;
  open_delivered_requests : Z;
  deferred_pending_requests : Z;
  deferred_delivered_requests : Z;
  visible_requests : Z;
  load_waiter_capacity : Z;
  live_waiters : Z;
  ready_waiters : Z
}.

Definition load_live_requests (l : BrokerLoad) : Z :=
  open_pending_requests l + open_delivered_requests l + deferred_pending_requests l +
  deferred_delivered_requests l + visible_requests l.

Definition load_pending_requests (l : BrokerLoad) : Z :=
  open_pending_requests l + deferred_pending_requests l.
Definition load_delivered_requests (l : BrokerLoad) : Z :=
  open_delivered_requests l + deferred_delivered_requests l.
Definition load_deferred_requests (l : BrokerLoad) : Z :=
  deferred_pending_requests l + deferred_delivered_requests l.

(** The bodies of the two counting loops of [load]. *)
Definition load_request (l : BrokerLoad) (s : RequestSlot) : BrokerLoad :=
  let '(mkLoad rc op od dp dd v wc lw rw) := l in
  match record s with
  | None => l
  | Some r =>
      match phase (state r) with
      | PhasePending => mkLoad rc (op + 1) od dp dd v wc lw rw
      | PhaseDelivered => mkLoad rc op (od + 1) dp dd v wc lw rw
      | PhaseDeferredPending => mkLoad rc op od (dp + 1) dd v wc lw rw
      | PhaseDeferredDelivered => mkLoad rc op od dp (dd + 1) v wc lw rw
      | PhaseTerminalVisible => mkLoad rc op od dp dd (v + 1) wc lw rw
      end
  end.

Definition load_waiter (l : BrokerLoad) (s : WaiterSlot C) : BrokerLoad :=
  let '(mkLoad rc op od dp dd v wc lw rw) := l in
  match wrecord s with
  | None => l
  | Some r =>
      match wstate r with
      | Ready _ => mkLoad rc op od dp dd v wc (lw + 1) (rw + 1)
      | Active => mkLoad rc op od dp dd v wc (lw + 1) rw
      end
  end.

Definition load (b : FaultBroker) : BrokerLoad :=
  let empty := mkLoad (zlen (requests b)) 0 0 0 0 0 (zlen (waiters b)) 0 0 in
  fold_left load_waiter (waiters b) (fold_left load_request (requests b) empty).

(** ** Construction and destruction *)

(** [try_new_inner]: the allocator's answers for the two slot arrays and the
    process-wide identity counter are inputs; the new counter is an output. *)
Definition try_new_inner (requests_reserved waiters_reserved : bool) (next_broker_id : Z)
    (request_capacity waiter_capacity : Z) (pool : option nat)
    : result FaultBroker BrokerConfigError * Z :=
  if (request_capacity =? usize_MAX) || (waiter_capacity =? usize_MAX)
  then (Err UnboundedCapacity, next_broker_id) else
  if negb requests_reserved then (Err BrokerNoMemory, next_broker_id) else
  if negb waiters_reserved then (Err BrokerNoMemory, next_broker_id) else
  match try_update (fun current => checked_add_u64 current 1) next_broker_id with
  | (Err _, counter) => (Err BrokerIdentityExhausted, counter)
  | (Ok new_id, counter) =>
      (Ok (mkBroker new_id
             (replicate (Z.to_nat request_capacity) (mkRequestSlot 0 None))
             (replicate (Z.to_nat waiter_capacity) (mkWaiterSlot 0 None))
             None None pool), counter)
  end.

(** Number of live requests, the credits the broker owns. *)
Definition live_request_count (b : FaultBroker) : Z :=
  count (fun s => is_none (record s) = false) (requests b).

(** [Drop for FaultBroker] *)
Definition drop_broker {E} : M Env E () :=
  b ← self;
  match credit_pool b with
  | Some pool => pool_release_exact pool (live_request_count b)
  | None => mret tt
  end.

End Operations.
