(* ===== verification/FaultSpec.v ===== *)
(** Fault broker, part 2: the abstract specification.

    The abstract broker has no links and no redundant waiter states: the
    delivery queue is a list of request slots in FIFO order, every live request
    carries the list of its waiters in admission order, and a waiter is ready
    exactly when its request is visible. Each operation is a pure function.
    [well_formed] is the invariant every operation preserves. *)

From S2P Require Import Prelude Effects Atomics FaultBroker.
Local Open Scope Z_scope.

Section Spec.
Context {K H C : Type} `{EqDecision K} `{EqDecision H}.

Record abstract_request : Type := mkAreq {
  a_key : K; a_handler : H; a_state : RequestState C; a_waiters : list nat }.

(** A slot is its generation and its content. *)
Record abstract_broker : Type := mkAbroker {
  a_id : Z;
  a_requests : list (Z * option abstract_request);
  a_waiter_slots : list (Z * option nat);
  a_pending : list nat;
  a_credit_pool : option nat;
  a_pools : list RequestCreditPool }.

Definition a_live (a : abstract_broker) (r : nat) : option abstract_request :=
  a_requests a !! r ≫= snd.

(** ** Updates *)

Definition with_requests (rs : list (Z * option abstract_request)) (a : abstract_broker) :=
  mkAbroker (a_id a) rs (a_waiter_slots a) (a_pending a) (a_credit_pool a) (a_pools a).
Definition with_waiter_slots (ws : list (Z * option nat)) (a : abstract_broker) :=
  mkAbroker (a_id a) (a_requests a) ws (a_pending a) (a_credit_pool a) (a_pools a).
Definition with_pending (l : list nat) (a : abstract_broker) :=
  mkAbroker (a_id a) (a_requests a) (a_waiter_slots a) l (a_credit_pool a) (a_pools a).
Definition with_pools (ps : list RequestCreditPool) (a : abstract_broker) :=
  mkAbroker (a_id a) (a_requests a) (a_waiter_slots a) (a_pending a) (a_credit_pool a) ps.

Definition set_live (r : nat) (f : abstract_request -> abstract_request)
    (a : abstract_broker) : abstract_broker :=
  with_requests (alter (on_content f) r (a_requests a)) a.

Definition areq_state (s : RequestState C) (r : abstract_request) : abstract_request :=
  mkAreq (a_key r) (a_handler r) s (a_waiters r).
Definition areq_waiters (ws : list nat) (r : abstract_request) : abstract_request :=
  mkAreq (a_key r) (a_handler r) (a_state r) ws.

(** Removal of one slot from a queue, keeping the order of the others. *)
Definition without (x : nat) (l : list nat) : list nat := filter (fun y => y <> x) l.

(** ** Admission *)

Definition a_matches (h : H) (k : K) (s : Z * option abstract_request) : bool :=
  match s.2 with
  | Some r => bool_decide (a_handler r = h) && bool_decide (a_key r = k) &&
              negb (is_visible (a_state r))
  | None => false
  end.

Definition a_choose {A} (l : list (Z * option A)) : result (nat * Z) SlotChoiceError :=
  choose_slot_from fst (fun s => is_none s.2) l 0 false.

(** One credit of the bound pool, if any. *)
Definition a_acquire (a : abstract_broker) : bool * abstract_broker :=
  match a_credit_pool a with
  | None => (true, a)
  | Some i =>
      match a_pools a !! i with
      | None => (false, a)
      | Some p =>
          let '(ok, p') := RequestCreditPool.try_acquire p in
          (ok, with_pools (<[i := p']> (a_pools a)) a)
      end
  end.

Definition a_release_credit (a : abstract_broker) : abstract_broker :=
  match a_credit_pool a with
  | None => a
  | Some i =>
      match a_pools a !! i with
      | None => a
      | Some p => with_pools (<[i := (RequestCreditPool.try_release p 1).2]> (a_pools a)) a
      end
  end.

Definition a_insert_request (slot : nat) (gen : Z) (r : abstract_request)
    (a : abstract_broker) : abstract_broker :=
  with_pending (a_pending a ++ [slot]) (with_requests (<[slot := (gen, Some r)]> (a_requests a)) a).

(** The vacant waiter slot [w] joins the tail of its request's list. *)
Definition a_attach (w : nat) (gen : Z) (slot : nat) (a : abstract_broker) : abstract_broker :=
  with_waiter_slots (<[w := (gen, Some slot)]> (a_waiter_slots a))
    (set_live slot (fun r => areq_waiters (a_waiters r ++ [w]) r) a).

Definition spec_admit (h : H) (k : K) (a : abstract_broker)
    : result FaultAdmission AdmissionError * abstract_broker :=
  match position (a_matches h k) (a_requests a) with
  | Some slot =>
      match a_choose (a_waiter_slots a) with
      | Err Capacity => (Err WaiterCapacity, a)
      | Err GenerationExhausted => (Err WaiterTokenExhausted, a)
      | Ok (w, wgen) =>
          let gen := from_option fst 0 (a_requests a !! slot) in
          (Ok (mkAdmission (mkRequestToken (a_id a) slot gen) (mkWaiterToken (a_id a) w wgen) true),
           a_attach w wgen slot a)
      end
  | None =>
      match a_choose (a_requests a) with
      | Err Capacity => (Err RequestCapacity, a)
      | Err GenerationExhausted => (Err RequestTokenExhausted, a)
      | Ok (slot, gen) =>
          match a_choose (a_waiter_slots a) with
          | Err Capacity => (Err WaiterCapacity, a)
          | Err GenerationExhausted => (Err WaiterTokenExhausted, a)
          | Ok (w, wgen) =>
              let '(ok, a1) := a_acquire a in
              if (ok : bool) then
                (Ok (mkAdmission (mkRequestToken (a_id a) slot gen)
                       (mkWaiterToken (a_id a) w wgen) false),
                 a_attach w wgen slot (a_insert_request slot gen (mkAreq k h Pending []) a1))
              else (Err RequestCreditCapacity, a1)
          end
      end
  end.

(** ** Delivery and completion *)

(** A state change; a request that is no longer pending leaves the queue. *)
Definition spec_set_state (slot : nat) (s : RequestState C) (a : abstract_broker)
    : abstract_broker :=
  with_pending (if is_pending s then a_pending a else without slot (a_pending a))
    (set_live slot (areq_state s) a).

Definition a_snapshot (a : abstract_broker) (slot : nat) : option (RequestSnapshot K H) :=
  s ← a_requests a !! slot;
  r ← s.2;
  Some (mkSnapshot (mkRequestToken (a_id a) slot s.1) (a_key r) (a_handler r)
          (phase (a_state r)) (zlen (a_waiters r))).

(** Is the request at [slot] addressed to [h]? *)
Definition a_for (h : H) (a : abstract_broker) (slot : nat) : bool :=
  match a_live a slot with Some r => bool_decide (a_handler r = h) | None => false end.

Definition claimed_state (s : RequestState C) : RequestState C :=
  match s with
  | Pending => Delivered
  | DeferredPending c => DeferredDelivered c
  | s => s
  end.

(** The chosen request, if any, leaves the queue. *)
Definition spec_claim_slot (chosen : option nat) (a : abstract_broker)
    : option (RequestSnapshot K H) * abstract_broker :=
  match chosen with
  | None => (None, a)
  | Some slot =>
      match a_live a slot with
      | None => (None, a)
      | Some r =>
          let a' := spec_set_state slot (claimed_state (a_state r)) a in
          (a_snapshot a' slot, a')
      end
  end.

(** The oldest pending request of [h]. *)
Definition spec_claim_next (h : H) (a : abstract_broker)
    : option (RequestSnapshot K H) * abstract_broker :=
  spec_claim_slot (head (filter (fun slot => a_for h a slot = true) (a_pending a))) a.

(** Completion of an open request. *)
Definition completed_state (s : RequestState C) (c : C) (v : CompletionVisibility)
    : option (RequestState C) :=
  match s, v with
  | Pending, Deferred => Some (DeferredPending c)
  | Delivered, Deferred => Some (DeferredDelivered c)
  | (Pending | Delivered), Visible => Some (StateVisible c)
  | _, _ => None
  end.

Definition spec_complete_slot (slot : nat) (c : C) (v : CompletionVisibility)
    (a : abstract_broker) : Z * abstract_broker :=
  match a_live a slot with
  | None => (0, a)
  | Some r =>
      match completed_state (a_state r) c v with
      | None => (0, a)
      | Some s => (if is_visible s then zlen (a_waiters r) else 0, spec_set_state slot s a)
      end
  end.

(** Publication of a deferred completion. *)
Definition deferred_completion (s : RequestState C) : option C :=
  match s with DeferredPending c | DeferredDelivered c => Some c | _ => None end.

Definition spec_release_slot (slot : nat) (a : abstract_broker) : Z * abstract_broker :=
  match a_live a slot with
  | None => (0, a)
  | Some r =>
      match deferred_completion (a_state r) with
      | None => (0, a)
      | Some c => (zlen (a_waiters r), spec_set_state slot (StateVisible c) a)
      end
  end.

(** Token lookups. *)
Definition a_request_index (a : abstract_broker) (t : RequestToken) : option nat :=
  if negb (rt_broker t =? a_id a) then None else
  match a_requests a !! rt_slot t with
  | Some (g, Some _) => if g =? rt_generation t then Some (rt_slot t) else None
  | _ => None
  end.

Definition a_waiter_index (a : abstract_broker) (t : WaiterToken) : option nat :=
  if negb (wt_broker t =? a_id a) then None else
  match a_waiter_slots a !! wt_slot t with
  | Some (g, Some _) => if g =? wt_generation t then Some (wt_slot t) else None
  | _ => None
  end.

Definition spec_complete (t : RequestToken) (c : C) (v : CompletionVisibility)
    (a : abstract_broker) : result CompletionEffect RequestError * abstract_broker :=
  match a_request_index a t with
  | None => (Err RequestStaleOrForeign, a)
  | Some slot =>
      match a_state <$> a_live a slot with
      | Some (DeferredPending _ | DeferredDelivered _ | StateVisible _) =>
          (Err AlreadyTerminal, a)
      | _ => let '(n, a') := spec_complete_slot slot c v a in (Ok (mkEffect n), a')
      end
  end.

Definition spec_release (t : RequestToken) (a : abstract_broker)
    : result CompletionEffect RequestError * abstract_broker :=
  match a_request_index a t with
  | None => (Err RequestStaleOrForeign, a)
  | Some slot =>
      match a_state <$> a_live a slot with
      | Some (DeferredPending _ | DeferredDelivered _) =>
          let '(n, a') := spec_release_slot slot a in (Ok (mkEffect n), a')
      | Some (StateVisible _) => (Ok (mkEffect 0), a)
      | _ => (Err NotTerminal, a)
      end
  end.

(** Bulk completion and release, slot by slot. *)
Definition spec_complete_if (p : RequestSnapshot K H -> bool) (c : C)
    (v : CompletionVisibility) (slot : nat) (st : CompletionSummary * abstract_broker)
    : CompletionSummary * abstract_broker :=
  let '(summary, a) := st in
  match a_snapshot a slot with
  | None => st
  | Some s =>
      if (match snap_phase s with PhasePending | PhaseDelivered => true | _ => false end) && p s
      then let '(n, a') := spec_complete_slot slot c v a in
           (record_completion summary (mkEffect n), a')
      else st
  end.

Definition spec_release_if (p : RequestSnapshot K H -> bool) (slot : nat)
    (st : CompletionSummary * abstract_broker) : CompletionSummary * abstract_broker :=
  let '(summary, a) := st in
  match a_snapshot a slot with
  | None => st
  | Some s =>
      if (match snap_phase s with
          | PhaseDeferredPending | PhaseDeferredDelivered => true | _ => false end) && p s
      then let '(n, a') := spec_release_slot slot a in
           (record_release summary (mkEffect n), a')
      else st
  end.

Definition spec_fold (body : nat -> CompletionSummary * abstract_broker ->
      CompletionSummary * abstract_broker) (a : abstract_broker)
    : CompletionSummary * abstract_broker :=
  fold_left (fun st slot => body slot st) (seq 0 (length (a_requests a))) (default_summary, a).

Definition spec_complete_where p c v a := spec_fold (spec_complete_if p c v) a.
Definition spec_release_where p a := spec_fold (spec_release_if p) a.

Definition spec_detach_handler (h : H) (c : C) (a : abstract_broker)
    : CompletionSummary * abstract_broker :=
  let for_handler (s : RequestSnapshot K H) := bool_decide (snap_handler s = h) in
  let '(s1, a1) := spec_complete_where for_handler c Visible a in
  let '(s2, a2) := spec_release_where for_handler a1 in
  (merge s1 s2, a2).

(** ** Waiters *)

Definition a_waiter_state (s : RequestState C) : WaiterState C :=
  match s with StateVisible c => Ready c | _ => Active end.

(** The state the waiter in slot [w] observes. *)
Definition a_observe (a : abstract_broker) (w : nat) : option (WaiterState C) :=
  s ← a_waiter_slots a !! w;
  r ← s.2;
  a_waiter_state ∘ a_state <$> a_live a r.

(** The waiter slot [w] leaves its request's list. *)
Definition a_detach (w slot : nat) (a : abstract_broker) : abstract_broker :=
  with_waiter_slots (alter (fun s => (s.1, None)) w (a_waiter_slots a))
    (set_live slot (fun r => areq_waiters (without w (a_waiters r)) r) a).

(** The request slot becomes vacant and returns its credit. *)
Definition a_reclaim (slot : nat) (a : abstract_broker) : abstract_broker :=
  a_release_credit (with_pending (without slot (a_pending a))
    (with_requests (alter (fun s => (s.1, None)) slot (a_requests a)) a)).

(** Removing a waiter; the last waiter takes its request with it. *)
Definition spec_remove_waiter (w : nat) (a : abstract_broker) : bool * abstract_broker :=
  match a_waiter_slots a !! w with
  | Some (_, Some slot) =>
      let a1 := a_detach w slot a in
      match a_waiters <$> a_live a1 slot with
      | Some [] => (true, a_reclaim slot a1)
      | _ => (false, a1)
      end
  | _ => (false, a)
  end.

Definition spec_cancel_waiter (t : WaiterToken) (a : abstract_broker)
    : result (CancelledWaiter C) WaiterError * abstract_broker :=
  match a_waiter_index a t with
  | None => (Err WaiterStaleOrForeign, a)
  | Some w =>
      let seen := match a_observe a w with Some (Ready c) => Some c | _ => None end in
      let '(reclaimed, a') := spec_remove_waiter w a in
      (Ok (mkCancelled seen reclaimed), a')
  end.

Definition spec_take_waiter (t : WaiterToken) (a : abstract_broker)
    : result (TakenCompletion C) WaiterError * abstract_broker :=
  match a_waiter_index a t with
  | None => (Err WaiterStaleOrForeign, a)
  | Some w =>
      match a_observe a w with
      | Some (Ready c) =>
          let '(reclaimed, a') := spec_remove_waiter w a in (Ok (mkTaken c reclaimed), a')
      | _ => (Err NotReady, a)
      end
  end.

(** ** The invariant *)

(** Number of live requests: the credits the broker owns. *)
Definition a_live_count (a : abstract_broker) : Z :=
  count (fun s : Z * option abstract_request => is_none s.2 = false) (a_requests a).

(** A bound pool exists and covers the broker's live requests. *)
Definition credits_covered (a : abstract_broker) : Prop :=
  forall i, a_credit_pool a = Some i ->
    exists p, a_pools a !! i = Some p /\ a_live_count a <= live_requests p <= capacity p /\
      capacity p < usize_MAX.

(** The invariant, except that the request in slot [x] may have no waiter: the
    state in the middle of admitting a new request or of removing its last
    waiter. *)
Record well_formed_but (x : option nat) (a : abstract_broker) : Prop := {
  wf_waiter_list r ar : a_live a r = Some ar ->
    (x <> Some r -> a_waiters ar <> []) /\ NoDup (a_waiters ar);
  wf_waiter_slot r ar w : a_live a r = Some ar -> w ∈ a_waiters ar ->
    exists g, a_waiter_slots a !! w = Some (g, Some r);
  wf_waiter_live w g r : a_waiter_slots a !! w = Some (g, Some r) ->
    exists ar, a_live a r = Some ar /\ w ∈ a_waiters ar;
  wf_pending_nodup : NoDup (a_pending a);
  wf_pending r : r ∈ a_pending a <->
    exists ar, a_live a r = Some ar /\ is_pending (a_state ar) = true;
  wf_generation r g o : a_requests a !! r = Some (g, o) ->
    0 <= g <= u64_MAX /\ (o <> None -> 1 <= g);
  wf_waiter_generation w g o : a_waiter_slots a !! w = Some (g, o) ->
    0 <= g <= u64_MAX /\ (o <> None -> 1 <= g);
  wf_sizes : zlen (a_requests a) < usize_MAX /\ zlen (a_waiter_slots a) < usize_MAX;
  wf_credits : credits_covered a
}.

Definition well_formed : abstract_broker -> Prop := well_formed_but None.

End Spec.

Arguments abstract_request : clear implicits.
Arguments abstract_broker : clear implicits.
Arguments wf_waiter_list {K H C x} a.
Arguments wf_waiter_slot {K H C x} a.
Arguments wf_waiter_live {K H C x} a.
Arguments wf_pending_nodup {K H C x} a.
Arguments wf_pending {K H C x} a.
Arguments wf_generation {K H C x} a.
Arguments wf_waiter_generation {K H C x} a.
Arguments wf_sizes {K H C x} a.
Arguments wf_credits {K H C x} a.

Arguments RequestCreditPool.try_acquire : simpl never.
Arguments RequestCreditPool.try_release : simpl never.
