(* ===== verification/FaultLinks.v ===== *)
(** Doubly linked lists threaded through preallocated slots.

    Fixed-capacity registries keep their queues as [prev]/[next] slot indices
    inside the slot records. [dseg links pp p q qn l] says that following the
    links from slot [p] visits the slots [l] in order and leaves at [qn], that
    the first node points back to [pp] and that [q] is the last node. The
    registries of this development use it with [pp = qn = None] ([dll]).

    Fault broker, part 3: views of the concrete state and the effect of the
    primitive accesses on them.

    A request slot is seen through its [core] (generation and all fields but
    the delivery-queue links) and through [plinks] (the links); a waiter slot
    through [wcore] and [wlinks]. Every field update changes one view only.

    Fault broker, part 4: the link-following operations.

    Unlinking from the delivery queue, publishing a completion along a waiter
    list and unlinking a waiter, each shown to run without panic on a
    well-linked state and described by its effect on the views. *)

From S2P Require Import Prelude Effects Atomics FaultBroker.
Local Open Scope Z_scope.

(** [links x]: the ([prev], [next]) pair of the live node [x]. *)
Definition link_map : Type := nat -> option (option nat * option nat).

Fixpoint dseg (links : link_map) (pp p q qn : option nat) (l : list nat) : Prop :=
  match l with
  | [] => p = qn /\ pp = q
  | x :: l => p = Some x /\ exists r, links x = Some (pp, r) /\ dseg links (Some x) r q qn l
  end.

(** A complete list with head [h] and tail [t]. *)
Definition dll (links : link_map) (h t : option nat) (l : list nat) : Prop :=
  dseg links None h t None l.

Section Segments.
Context (links : link_map).

Lemma dseg_app pp p q qn l1 l2 :
  dseg links pp p q qn (l1 ++ l2) <->
  exists j jn, dseg links pp p j jn l1 /\ dseg links j jn q qn l2.
Proof.
  revert pp p. induction l1 as [|x l1 IH]; intros pp p; simpl.
  - split; [intros H; by exists pp, p|]. by intros (? & ? & [-> ->] & ?).
  - split.
    + intros (-> & r & Hx & (j & jn & H1 & H2)%IH). exists j, jn. eauto 10.
    + intros (j & jn & (-> & r & Hx & H1) & H2). split; [done|]. exists r.
      split; [done|]. apply IH. eauto.
Qed.

Lemma dseg_entry pp p q qn l : dseg links pp p q qn l -> p = from_option Some qn (head l).
Proof. destruct l; simpl; [by intros [-> _]|by intros [-> _]]. Qed.

Lemma dseg_exit pp p q qn l : dseg links pp p q qn l -> q = from_option Some pp (last l).
Proof.
  revert pp p. induction l as [|x l IH]; intros pp p; simpl; [by intros [_ ->]|].
  intros (_ & r & _ & Hl). rewrite (IH _ _ Hl), last_cons. by destruct (last l).
Qed.

Lemma dseg_node pp p q qn l x : dseg links pp p q qn l -> x ∈ l -> is_Some (links x).
Proof.
  revert pp p. induction l as [|y l IH]; intros pp p; [by intros _ ?%elem_of_nil|].
  intros (_ & r & Hy & Hl) [->|?]%elem_of_cons; eauto.
Qed.

End Segments.

Lemma dseg_frame links links' pp p q qn l :
  (forall x, x ∈ l -> links' x = links x) ->
  dseg links pp p q qn l -> dseg links' pp p q qn l.
Proof.
  revert pp p. induction l as [|x l IH]; intros pp p Hsame; [done|].
  intros (-> & r & Hx & Hl). split; [done|]. exists r. rewrite Hsame by set_solver.
  split; [done|]. apply IH; [|done]. intros y Hy. apply Hsame. set_solver.
Qed.

(** Redirecting the exit of a nonempty segment changes its last node only. *)
Lemma dseg_redirect_exit links links' pp p j qn qn' l :
  NoDup l -> dseg links pp p j qn l ->
  (forall x, x ∈ l -> links' x =
     (fun pn => (pn.1, if decide (j = Some x) then qn' else pn.2)) <$> links x) ->
  l <> [] -> dseg links' pp p j qn' l.
Proof.
  intros Hnd Hl Hlinks Hne. destruct (decide (l = [])) as [|_]; [done|].
  destruct (exists_last Hne) as (l0 & y & ->).
  apply dseg_app in Hl as (j0 & jn & H0 & (-> & r & Hy & [-> <-])).
  apply dseg_app. exists j0, (Some y). split.
  - eapply dseg_frame; [|exact H0]. intros x Hx. rewrite Hlinks by set_solver.
    destruct (links x) as [[]|]; [|done]. simpl.
    rewrite decide_False; [done|]. intros [= ->]. apply NoDup_app in Hnd as (_ & Hd & _).
    apply (Hd x); set_solver.
  - split; [done|]. exists qn'. rewrite Hlinks, Hy by set_solver. simpl.
    by rewrite decide_True.
Qed.

(** Redirecting the entry of a nonempty segment changes its first node only. *)
Lemma dseg_redirect_entry links links' j jn j' q qn l :
  NoDup l -> dseg links j jn q qn l ->
  (forall x, x ∈ l -> links' x =
     (fun pn => (if decide (jn = Some x) then j' else pn.1, pn.2)) <$> links x) ->
  l <> [] -> dseg links' j' jn q qn l.
Proof.
  intros Hnd Hl Hlinks Hne. destruct l as [|y l]; [done|].
  destruct Hl as (-> & r & Hy & Hl). split; [done|]. exists r.
  rewrite Hlinks, Hy by set_solver. simpl. rewrite decide_True by done. split; [done|].
  eapply dseg_frame; [|exact Hl]. intros x Hx. rewrite Hlinks by set_solver.
  destruct (links x) as [[]|]; [|done]. simpl.
  rewrite decide_False; [done|]. intros [= ->]. by apply NoDup_cons in Hnd as [? _].
Qed.

(** ** The two updates the registries perform *)

(** Appending slot [x]: the old tail's [next] becomes [x]. *)
Lemma dll_push_back links links' h t l x :
  NoDup l -> dll links h t l -> x ∉ l ->
  links' x = Some (t, None) ->
  (forall y, y ∈ l -> links' y =
     (fun pn => (pn.1, if decide (t = Some y) then Some x else pn.2)) <$> links y) ->
  dll links' (if t then h else Some x) (Some x) (l ++ [x]).
Proof.
  intros Hnd Hl Hx Hlx Hlinks. unfold dll in *. apply dseg_app. exists t, (Some x).
  split; [|by simpl; eauto].
  destruct (decide (l = [])) as [->|Hne].
  - destruct Hl as [-> <-]. done.
  - assert (is_Some t) as [y ->].
    { rewrite (dseg_exit _ _ _ _ _ _ Hl). destruct (last l) eqn:E; [by eauto|].
      by apply last_None in E. }
    simpl. by eapply dseg_redirect_exit.
Qed.

(** The new links of [y] when a node between [p] and [n] is unlinked. *)
Definition relink (p n : option nat) (y : nat) (pn : option nat * option nat)
    : option nat * option nat :=
  (if decide (n = Some y) then p else pn.1, if decide (p = Some y) then n else pn.2).

(** Unlinking slot [x] from the middle. *)
Lemma dll_unlink links links' h t l1 l2 x p n :
  NoDup (l1 ++ x :: l2) -> dll links h t (l1 ++ x :: l2) -> links x = Some (p, n) ->
  (forall y, y ∈ l1 ++ l2 -> links' y = relink p n y <$> links y) ->
  dll links' (if p then h else n) (if n then t else p) (l1 ++ l2).
Proof.
  intros Hnd Hl Hx Hlinks. unfold dll in *.
  apply dseg_app in Hl as (j & jn & H1 & (-> & r & Hx' & H2)).
  rewrite Hx in Hx'. injection Hx' as -> ->.
  apply NoDup_app in Hnd as (Hnd1 & Hdisj & [Hx2 Hnd2]%NoDup_cons).
  pose proof (dseg_exit _ _ _ _ _ _ H1) as Hj. pose proof (dseg_entry _ _ _ _ _ _ H2) as Hr.
  apply dseg_app. exists j, r. split.
  - destruct (decide (l1 = [])) as [->|Hne]; [destruct H1 as [_ <-]; done|].
    assert (is_Some j) as [jj ->] by (rewrite Hj; destruct (last l1) eqn:E;
      [by eauto|by apply last_None in E]).
    eapply dseg_redirect_exit; [done|exact H1| |done]. intros y Hy.
    rewrite Hlinks by set_solver. destruct (links y) as [[]|]; [|done]. unfold relink. simpl.
    rewrite (decide_False (P := r = Some y)); [done|]. intros ->.
    destruct l2 as [|z l2]; simplify_eq/=. apply (Hdisj z); set_solver.
  - destruct (decide (l2 = [])) as [->|Hne].
    { destruct H2 as [-> <-]. done. }
    assert (is_Some r) as [rr ->] by (rewrite Hr; destruct l2; [done|by eauto]).
    eapply dseg_redirect_entry; [done|exact H2| |done]. intros y Hy.
    rewrite Hlinks by set_solver. destruct (links y) as [[]|]; [|done]. unfold relink. simpl.
    rewrite (decide_False (P := j = Some y)); [done|]. intros ->.
    assert (last l1 = Some y) as Hlast by (destruct (last l1); simplify_eq/=; done).
    apply last_Some_elem_of in Hlast. apply (Hdisj y); set_solver.
Qed.

(** ** Reading off the ends *)

Lemma dll_head links h t l : dll links h t l -> h = head l.
Proof. intros Hl. rewrite (dseg_entry _ _ _ _ _ _ Hl). by destruct l. Qed.

Lemma dll_tail links h t l : dll links h t l -> t = last l.
Proof. intros Hl. rewrite (dseg_exit _ _ _ _ _ _ Hl). by destruct (last l). Qed.

Lemma dll_links links h t l1 x l2 :
  dll links h t (l1 ++ x :: l2) -> links x = Some (last l1, head l2).
Proof.
  intros (j & jn & H1 & (-> & r & Hx & H2))%dseg_app.
  rewrite Hx, (dseg_exit _ _ _ _ _ _ H1), (dseg_entry _ _ _ _ _ _ H2).
  by destruct (last l1), l2.
Qed.

Section Views.
Context {K H C : Type}.
Local Abbreviation Env := (Env K H C).
Local Abbreviation FaultBroker := (FaultBroker K H C).
Local Abbreviation RequestRecord := (RequestRecord K H C).

(** A request record without its queue links. *)
Record request_core : Type := mkCore {
  core_key : K; core_handler : H; core_state : RequestState C;
  core_head : option nat; core_tail : option nat; core_count : Z }.

Definition core_of (r : RequestRecord) : request_core :=
  mkCore (key r) (handler r) (state r) (waiter_head r) (waiter_tail r) (waiter_count r).
Definition links_of (r : RequestRecord) : option nat * option nat :=
  (pending_prev r, pending_next r).
Definition wcore_of (w : WaiterRecord C) : RequestToken * WaiterState C :=
  (request w, wstate w).
Definition wlinks_of (w : WaiterRecord C) : option nat * option nat := (prev w, next w).

Definition core_at (b : FaultBroker) (i : nat) : option (Z * option request_core) :=
  (fun s => (generation s, core_of <$> record s)) <$> requests b !! i.
Definition plinks (b : FaultBroker) : link_map := fun i =>
  s ← requests b !! i; links_of <$> record s.
Definition wcore_at (b : FaultBroker) (w : nat)
    : option (Z * option (RequestToken * WaiterState C)) :=
  (fun s => (wgeneration s, wcore_of <$> wrecord s)) <$> waiters b !! w.
Definition wlinks (b : FaultBroker) : link_map := fun w =>
  s ← waiters b !! w; wlinks_of <$> wrecord s.

(** ** Pure updates *)

Definition map_request (i : nat) (f : RequestRecord -> RequestRecord) (b : FaultBroker) :=
  set_requests (alter (fun s => mkRequestSlot (generation s) (f <$> record s)) i (requests b)) b.
Definition map_waiter (w : nat) (f : WaiterRecord C -> WaiterRecord C) (b : FaultBroker) :=
  set_waiters (alter (fun s => mkWaiterSlot (wgeneration s) (f <$> wrecord s)) w (waiters b)) b.
Definition put_request (i : nat) (s : RequestSlot K H C) (b : FaultBroker) :=
  set_requests (<[i := s]> (requests b)) b.
Definition put_waiter (w : nat) (s : WaiterSlot C) (b : FaultBroker) :=
  set_waiters (<[w := s]> (waiters b)) b.

Definition on_broker (f : FaultBroker -> FaultBroker) (e : Env) : Env :=
  mkEnv (pools e) (f (broker e)).

(** Effect of [map_request] on the views. *)
Lemma core_at_map_request i f g b j :
  (forall r, core_of (f r) = g (core_of r)) ->
  core_at (map_request i f b) j =
    if decide (i = j) then on_content g <$> core_at b j else core_at b j.
Proof.
  intros Hf. unfold core_at, map_request, set_requests. simpl. rewrite list_lookup_alter.
  case_decide; [subst|done]. destruct (requests b !! j) as [[gen [r|]]|]; simpl; unfold on_content; simpl; [|done..].
  by rewrite Hf.
Qed.

Lemma core_at_map_links i f b j :
  (forall r, core_of (f r) = core_of r) -> core_at (map_request i f b) j = core_at b j.
Proof.
  intros Hf. rewrite (core_at_map_request i f (fun c => c)) by done.
  case_decide; [|done]. destruct (core_at b j); simpl; [by rewrite on_content_id|done].
Qed.

Lemma plinks_map_request i f g b j :
  (forall r, links_of (f r) = g (links_of r)) ->
  plinks (map_request i f b) j = if decide (i = j) then g <$> plinks b j else plinks b j.
Proof.
  intros Hf. unfold plinks, map_request, set_requests. simpl. rewrite list_lookup_alter.
  case_decide; [subst|done]. destruct (requests b !! j) as [[gen [r|]]|]; simpl; unfold on_content; simpl; [|done..].
  by rewrite Hf.
Qed.

Lemma plinks_map_core i f b j :
  (forall r, links_of (f r) = links_of r) -> plinks (map_request i f b) j = plinks b j.
Proof.
  intros Hf. rewrite (plinks_map_request i f (fun c => c)) by done.
  case_decide; [|done]. by destruct (plinks b j).
Qed.

(** Effect of [map_waiter] on the views. *)
Lemma wcore_at_map_waiter i f g b j :
  (forall r, wcore_of (f r) = g (wcore_of r)) ->
  wcore_at (map_waiter i f b) j =
    if decide (i = j) then on_content g <$> wcore_at b j else wcore_at b j.
Proof.
  intros Hf. unfold wcore_at, map_waiter, set_waiters. simpl. rewrite list_lookup_alter.
  case_decide; [subst|done]. destruct (waiters b !! j) as [[gen [r|]]|]; simpl; unfold on_content; simpl; [|done..].
  by rewrite Hf.
Qed.

Lemma wcore_at_map_links i f b j :
  (forall r, wcore_of (f r) = wcore_of r) -> wcore_at (map_waiter i f b) j = wcore_at b j.
Proof.
  intros Hf. rewrite (wcore_at_map_waiter i f (fun c => c)) by done.
  case_decide; [|done]. destruct (wcore_at b j); simpl; [by rewrite on_content_id|done].
Qed.

Lemma wlinks_map_waiter i f g b j :
  (forall r, wlinks_of (f r) = g (wlinks_of r)) ->
  wlinks (map_waiter i f b) j = if decide (i = j) then g <$> wlinks b j else wlinks b j.
Proof.
  intros Hf. unfold wlinks, map_waiter, set_waiters. simpl. rewrite list_lookup_alter.
  case_decide; [subst|done]. destruct (waiters b !! j) as [[gen [r|]]|]; simpl; unfold on_content; simpl; [|done..].
  by rewrite Hf.
Qed.

Lemma wlinks_map_core i f b j :
  (forall r, wlinks_of (f r) = wlinks_of r) -> wlinks (map_waiter i f b) j = wlinks b j.
Proof.
  intros Hf. rewrite (wlinks_map_waiter i f (fun c => c)) by done.
  case_decide; [|done]. by destruct (wlinks b j).
Qed.

(** Effect of whole-slot stores on the views. *)
Lemma core_at_put_request i s b j :
  is_Some (requests b !! i) ->
  core_at (put_request i s b) j =
    if decide (i = j) then Some (generation s, core_of <$> record s) else core_at b j.
Proof.
  intros Hi%lookup_lt_is_Some. unfold core_at, put_request, set_requests. simpl.
  case_decide as Hd; [subst; by rewrite list_lookup_insert_eq|by rewrite list_lookup_insert_ne].
Qed.

Lemma plinks_put_request i s b j :
  is_Some (requests b !! i) ->
  plinks (put_request i s b) j =
    if decide (i = j) then links_of <$> record s else plinks b j.
Proof.
  intros Hi%lookup_lt_is_Some. unfold plinks, put_request, set_requests. simpl.
  case_decide as Hd; [subst; by rewrite list_lookup_insert_eq|by rewrite list_lookup_insert_ne].
Qed.

Lemma wcore_at_put_waiter i s b j :
  is_Some (waiters b !! i) ->
  wcore_at (put_waiter i s b) j =
    if decide (i = j) then Some (wgeneration s, wcore_of <$> wrecord s) else wcore_at b j.
Proof.
  intros Hi%lookup_lt_is_Some. unfold wcore_at, put_waiter, set_waiters. simpl.
  case_decide as Hd; [subst; by rewrite list_lookup_insert_eq|by rewrite list_lookup_insert_ne].
Qed.

Lemma wlinks_put_waiter i s b j :
  is_Some (waiters b !! i) ->
  wlinks (put_waiter i s b) j =
    if decide (i = j) then wlinks_of <$> wrecord s else wlinks b j.
Proof.
  intros Hi%lookup_lt_is_Some. unfold wlinks, put_waiter, set_waiters. simpl.
  case_decide as Hd; [subst; by rewrite list_lookup_insert_eq|by rewrite list_lookup_insert_ne].
Qed.

(** ** Running the primitive accesses *)

Section Run.
Context {E : Type}.
Implicit Types (e : Env).

Lemma read_request_run e i s :
  requests (broker e) !! i = Some s -> read_request (E := E) i e = Done s e.
Proof. intros Hs. unfold read_request, self, gets, mbind, M_bind, expect. by rewrite Hs. Qed.

Lemma read_waiter_run e i s :
  waiters (broker e) !! i = Some s -> read_waiter (E := E) i e = Done s e.
Proof. intros Hs. unfold read_waiter, self, gets, mbind, M_bind, expect. by rewrite Hs. Qed.

Lemma write_request_run e i s :
  is_Some (requests (broker e) !! i) ->
  write_request (E := E) i s e = Done tt (on_broker (put_request i s) e).
Proof.
  intros [s0 Hs]. unfold write_request. by rewrite (bind_done _ _ _ _ _ (read_request_run e i s0 Hs)).
Qed.

Lemma write_waiter_run e i s :
  is_Some (waiters (broker e) !! i) ->
  write_waiter (E := E) i s e = Done tt (on_broker (put_waiter i s) e).
Proof.
  intros [s0 Hs]. unfold write_waiter. by rewrite (bind_done _ _ _ _ _ (read_waiter_run e i s0 Hs)).
Qed.

Lemma update_broker_run f e : update_broker (E := E) f e = Done tt (on_broker f e).
Proof. done. Qed.

Lemma self_run e : self (E := E) e = Done (broker e) e.
Proof. done. Qed.

Lemma put_request_alter i s f b :
  requests b !! i = Some s ->
  put_request i (mkRequestSlot (generation s) (f <$> record s)) b = map_request i f b.
Proof.
  intros Hs. unfold put_request, map_request. f_equal. apply list_eq. intros j.
  rewrite list_lookup_alter. destruct (decide (i = j)) as [->|].
  - rewrite Hs. apply list_lookup_insert_eq. apply lookup_lt_is_Some. eauto.
  - by rewrite list_lookup_insert_ne.
Qed.

Lemma put_waiter_alter i s f b :
  waiters b !! i = Some s ->
  put_waiter i (mkWaiterSlot (wgeneration s) (f <$> wrecord s)) b = map_waiter i f b.
Proof.
  intros Hs. unfold put_waiter, map_waiter. f_equal. apply list_eq. intros j.
  rewrite list_lookup_alter. destruct (decide (i = j)) as [->|].
  - rewrite Hs. apply list_lookup_insert_eq. apply lookup_lt_is_Some. eauto.
  - by rewrite list_lookup_insert_ne.
Qed.

Lemma modify_request_run e i f :
  is_Some (requests (broker e) !! i) ->
  modify_request (E := E) i f e = Done tt (on_broker (map_request i f) e).
Proof.
  intros [s Hs]. unfold modify_request.
  rewrite (bind_done _ _ _ _ _ (read_request_run e i s Hs)), write_request_run by eauto.
  unfold on_broker. by rewrite (put_request_alter i s f).
Qed.

Lemma modify_waiter_run e i f :
  is_Some (waiters (broker e) !! i) ->
  modify_waiter (E := E) i f e = Done tt (on_broker (map_waiter i f) e).
Proof.
  intros [s Hs]. unfold modify_waiter.
  rewrite (bind_done _ _ _ _ _ (read_waiter_run e i s Hs)), write_waiter_run by eauto.
  unfold on_broker. by rewrite (put_waiter_alter i s f).
Qed.

Lemma expect_request_run e i f s r :
  requests (broker e) !! i = Some s -> record s = Some r ->
  expect_request (E := E) i f e = Done tt (on_broker (map_request i f) e).
Proof.
  intros Hs Hr. unfold expect_request.
  rewrite (bind_done _ _ _ _ _ (read_request_run e i s Hs)), Hr.
  rewrite (bind_done (expect (Some r)) _ e r e) by done. rewrite write_request_run by eauto.
  unfold on_broker. rewrite <- (put_request_alter i s f) by done. by rewrite Hr.
Qed.

Lemma expect_waiter_run e i f s r :
  waiters (broker e) !! i = Some s -> wrecord s = Some r ->
  expect_waiter (E := E) i f e = Done tt (on_broker (map_waiter i f) e).
Proof.
  intros Hs Hr. unfold expect_waiter.
  rewrite (bind_done _ _ _ _ _ (read_waiter_run e i s Hs)), Hr.
  rewrite (bind_done (expect (Some r)) _ e r e) by done. rewrite write_waiter_run by eauto.
  unfold on_broker. rewrite <- (put_waiter_alter i s f) by done. by rewrite Hr.
Qed.

End Run.

(** Updates keep the slot arrays' shape. *)
Lemma map_request_is_Some i f b j :
  is_Some (requests b !! j) -> is_Some (requests (map_request i f b) !! j).
Proof. simpl. rewrite list_lookup_alter. case_decide; subst; rewrite ?fmap_is_Some; auto. Qed.
Lemma map_waiter_is_Some i f b j :
  is_Some (waiters b !! j) -> is_Some (waiters (map_waiter i f b) !! j).
Proof. simpl. rewrite list_lookup_alter. case_decide; subst; rewrite ?fmap_is_Some; auto. Qed.
Lemma put_request_is_Some i s b j :
  is_Some (requests b !! j) -> is_Some (requests (put_request i s b) !! j).
Proof. simpl. rewrite !lookup_lt_is_Some, length_insert. done. Qed.
Lemma put_waiter_is_Some i s b j :
  is_Some (waiters b !! j) -> is_Some (waiters (put_waiter i s b) !! j).
Proof. simpl. rewrite !lookup_lt_is_Some, length_insert. done. Qed.

Lemma set_pending_head_is_Some p (b : FaultBroker) j :
  is_Some (requests b !! j) -> is_Some (requests (set_pending_head p b) !! j).
Proof. done. Qed.
Lemma set_pending_tail_is_Some p (b : FaultBroker) j :
  is_Some (requests b !! j) -> is_Some (requests (set_pending_tail p b) !! j).
Proof. done. Qed.

(** Occupied slots, seen through the views. *)
Lemma plinks_is_Some b i : is_Some (plinks b i) -> is_Some (requests b !! i).
Proof. unfold plinks. destruct (requests b !! i); [by eauto|by intros [? ?]]. Qed.
Lemma wlinks_is_Some b i : is_Some (wlinks b i) -> is_Some (waiters b !! i).
Proof. unfold wlinks. destruct (waiters b !! i); [by eauto|by intros [? ?]]. Qed.

Lemma plinks_Some b i pn :
  plinks b i = Some pn -> exists s r, requests b !! i = Some s /\ record s = Some r /\ links_of r = pn.
Proof.
  unfold plinks. destruct (requests b !! i) as [s|] eqn:Hs; [|done]. simpl.
  destruct (record s) as [r|] eqn:Hr; [|done]. intros [= <-]. eauto.
Qed.

Lemma wlinks_Some b i pn :
  wlinks b i = Some pn -> exists s r, waiters b !! i = Some s /\ wrecord s = Some r /\ wlinks_of r = pn.
Proof.
  unfold wlinks. destruct (waiters b !! i) as [s|] eqn:Hs; [|done]. simpl.
  destruct (wrecord s) as [r|] eqn:Hr; [|done]. intros [= <-]. eauto.
Qed.

Lemma core_at_Some b i g c :
  core_at b i = Some (g, Some c) ->
  exists s r, requests b !! i = Some s /\ record s = Some r /\ generation s = g /\ core_of r = c.
Proof.
  unfold core_at. destruct (requests b !! i) as [s|] eqn:Hs; [|done]. simpl. intros [= <- Hr].
  destruct (record s) as [r|] eqn:Hr'; [|done]. injection Hr as <-. eauto 10.
Qed.

Lemma core_at_vacant b i g :
  core_at b i = Some (g, None) ->
  exists s, requests b !! i = Some s /\ record s = None /\ generation s = g.
Proof.
  unfold core_at. destruct (requests b !! i) as [s|] eqn:Hs; [|done]. simpl. intros [= <- Hr].
  destruct (record s) eqn:Hr'; [done|]. eauto.
Qed.

Lemma wcore_at_Some b i g c :
  wcore_at b i = Some (g, Some c) ->
  exists s r, waiters b !! i = Some s /\ wrecord s = Some r /\ wgeneration s = g /\ wcore_of r = c.
Proof.
  unfold wcore_at. destruct (waiters b !! i) as [s|] eqn:Hs; [|done]. simpl. intros [= <- Hr].
  destruct (wrecord s) as [r|] eqn:Hr'; [|done]. injection Hr as <-. eauto 10.
Qed.

End Views.

Arguments request_core : clear implicits.

Arguments map_request : simpl never.
Arguments map_waiter : simpl never.
Arguments put_request : simpl never.
Arguments put_waiter : simpl never.

(** The database [fault]: shapes kept by the updates. *)
Create HintDb fault.
#[export] Hint Resolve map_request_is_Some map_waiter_is_Some put_request_is_Some
  put_waiter_is_Some set_pending_head_is_Some set_pending_tail_is_Some : fault.

(** Runs the first statement of a method with a known outcome. *)
Ltac run_with lem := erewrite bind_done by (eapply lem; cbn [broker on_broker]; eauto with fault).

(** Runs the last statement. *)
Ltac run_last lem :=
  etrans; [eapply lem; cbn [broker on_broker]; eauto with fault|reflexivity].

Section Links.
Context {K H C : Type}.
Local Abbreviation Env := (Env K H C).
Local Abbreviation FaultBroker := (FaultBroker K H C).

Implicit Types (b : FaultBroker) (e : Env).

(** The fields no operation on existing slots changes. *)
Definition same_identity (b b' : FaultBroker) : Prop :=
  id b' = id b /\ credit_pool b' = credit_pool b.

#[export] Instance same_identity_preorder : PreOrder same_identity.
Proof.
  split; [by split|]. intros b1 b2 b3 [? ?] [? ?]. split; etrans; eauto.
Qed.

(** ** Unlinking from the delivery queue *)

Definition unlink_queue (p n : option nat) (slot : nat) (b : FaultBroker) : FaultBroker :=
  let b1 := match p with
            | Some p => map_request p (rec_set_pending_next n) b
            | None => set_pending_head n b
            end in
  let b2 := match n with
            | Some n => map_request n (rec_set_pending_prev p) b1
            | None => set_pending_tail p b1
            end in
  map_request slot (fun r => rec_set_pending_next None (rec_set_pending_prev None r)) b2.

Lemma plinks_set_next i n b j :
  plinks (map_request i (rec_set_pending_next n) b) j =
    if decide (i = j) then (fun pn => (pn.1, n)) <$> plinks b j else plinks b j.
Proof. by apply plinks_map_request. Qed.

Lemma plinks_set_prev i p b j :
  plinks (map_request i (rec_set_pending_prev p) b) j =
    if decide (i = j) then (fun pn => (p, pn.2)) <$> plinks b j else plinks b j.
Proof. by apply plinks_map_request. Qed.

Lemma plinks_unlink_queue p n slot b y :
  y <> slot -> plinks (unlink_queue p n slot b) y = relink p n y <$> plinks b y.
Proof.
  intros Hne. unfold unlink_queue.
  rewrite (plinks_map_request slot _ (fun _ => (None, None))) by done.
  rewrite decide_False by done. unfold relink.
  destruct n as [n|], p as [p|];
    rewrite ?plinks_set_prev, ?plinks_set_next;
    change (plinks (set_pending_tail ?x ?b0)) with (plinks b0);
    rewrite ?plinks_set_next;
    change (plinks (set_pending_head ?x ?b0)) with (plinks b0);
    destruct (plinks b y) as [[]|]; repeat case_decide; simplify_eq/=; done.
Qed.

Lemma core_at_unlink_queue p n slot b i :
  core_at (unlink_queue p n slot b) i = core_at b i.
Proof.
  unfold unlink_queue. rewrite core_at_map_links by done.
  destruct n as [n|], p as [p|]; rewrite ?core_at_map_links by done; try done.
  transitivity (core_at (map_request p (rec_set_pending_next None) b) i); [done|].
  by apply core_at_map_links.
Qed.

Lemma unlink_queue_ends p n slot b :
  pending_head (unlink_queue p n slot b) = (if p then pending_head b else n) /\
  pending_tail (unlink_queue p n slot b) = (if n then pending_tail b else p) /\
  waiters (unlink_queue p n slot b) = waiters b /\
  same_identity b (unlink_queue p n slot b).
Proof. unfold same_identity. by destruct p, n. Qed.

Lemma unlink_pending_run {E} (e : Env) l1 slot l2 :
  NoDup (l1 ++ slot :: l2) ->
  dll (plinks (broker e)) (pending_head (broker e)) (pending_tail (broker e)) (l1 ++ slot :: l2) ->
  let b' := unlink_queue (last l1) (head l2) slot (broker e) in
  unlink_pending (E := E) slot e = Done tt (mkEnv (pools e) b') /\
  dll (plinks b') (pending_head b') (pending_tail b') (l1 ++ l2).
Proof.
  intros Hnd Hl b'. subst b'. pose proof (dll_links _ _ _ _ _ _ Hl) as Hlk.
  split; cycle 1.
  { destruct (unlink_queue_ends (last l1) (head l2) slot (broker e)) as (-> & -> & _).
    eapply dll_unlink; [done|exact Hl|done|]. intros y Hy. apply plinks_unlink_queue.
    intros ->. apply NoDup_app in Hnd as (_ & Hd & [Hx _]%NoDup_cons). set_solver. }
  destruct (plinks_Some _ _ _ Hlk) as (s & r & Hs & Hr & [= Hp Hn]).
  assert (forall x, last l1 = Some x -> is_Some (requests (broker e) !! x)) as Hlast.
  { intros x Hx%last_Some_elem_of. apply plinks_is_Some. eapply dseg_node; [exact Hl|set_solver]. }
  assert (forall x, head l2 = Some x -> is_Some (requests (broker e) !! x)) as Hhead.
  { intros x Hx. destruct l2; simplify_eq/=. apply plinks_is_Some.
    eapply dseg_node; [exact Hl|set_solver]. }
  unfold unlink_pending. rewrite (bind_done _ _ _ _ _ (read_request_run e slot s Hs)), Hr, Hp, Hn.
  unfold unlink_queue.
  assert (is_Some (requests (broker e) !! slot)) as Hslot by eauto.
  destruct (last l1) as [p|].
  - run_with @modify_request_run. destruct (head l2) as [n|].
    + run_with @modify_request_run. run_last @modify_request_run.
    + run_with @update_broker_run. run_last @modify_request_run.
  - run_with @update_broker_run. destruct (head l2) as [n|].
    + run_with @modify_request_run. run_last @modify_request_run.
    + run_with @update_broker_run. run_last @modify_request_run.
Qed.

(** ** Publishing a completion along a waiter list *)

Definition publish_all (c : C) (ws : list nat) (b : FaultBroker) : FaultBroker :=
  fold_left (fun b w => map_waiter w (wrec_set_state (Ready c)) b) ws b.

Lemma publish_all_frame c ws b :
  requests (publish_all c ws b) = requests b /\
  pending_head (publish_all c ws b) = pending_head b /\
  pending_tail (publish_all c ws b) = pending_tail b /\
  same_identity b (publish_all c ws b).
Proof.
  unfold publish_all. revert b. induction ws as [|w ws IH]; intros b; [done|]. simpl.
  destruct (IH (map_waiter w (wrec_set_state (Ready c)) b)) as (-> & -> & -> & [Hi Hc]).
  unfold same_identity. by rewrite Hi, Hc.
Qed.

Lemma wlinks_publish_all c ws b w : wlinks (publish_all c ws b) w = wlinks b w.
Proof.
  unfold publish_all. revert b. induction ws as [|x ws IH]; intros b; [done|]. simpl.
  rewrite IH. by apply wlinks_map_core.
Qed.

Lemma wcore_at_publish_all c ws b w :
  wcore_at (publish_all c ws b) w =
    if decide (w ∈ ws) then on_content (fun tw => (tw.1, Ready c)) <$> wcore_at b w
    else wcore_at b w.
Proof.
  unfold publish_all. revert b. induction ws as [|x ws IH]; intros b; cbn [fold_left].
  - by rewrite decide_False by apply not_elem_of_nil.
  - rewrite IH, (wcore_at_map_waiter x _ (fun tw => (tw.1, Ready c))) by done.
    destruct (decide (x = w)) as [->|Hne].
    + rewrite (decide_True (P := w ∈ w :: ws)) by set_solver. case_decide; [|done].
      by destruct (wcore_at b w) as [[g [[]|]]|].
    + destruct (decide (w ∈ ws)).
      * by rewrite decide_True by set_solver.
      * by rewrite decide_False by set_solver.
Qed.

Lemma publish_from_run {E} c ws fuel pp p q released e :
  dseg (wlinks (broker e)) pp p q None ws -> NoDup ws -> (length ws <= fuel)%nat ->
  (forall w, w ∈ ws -> exists g t, wcore_at (broker e) w = Some (g, Some (t, Active))) ->
  publish_from (E := E) fuel c p released e =
    Done (released + zlen ws) (on_broker (publish_all c ws) e).
Proof.
  revert fuel pp p released e. induction ws as [|w ws IH]; intros fuel pp p released e.
  - intros [-> _] _ _ _. destruct fuel; unfold zlen; simpl; rewrite Z.add_0_r; by destruct e.
  - intros (-> & r & Hlk & Hl) [Hw Hnd]%NoDup_cons Hfuel Hact.
    destruct fuel as [|fuel]; [simpl in Hfuel; lia|]. cbn [publish_from].
    destruct (wlinks_Some _ _ _ Hlk) as (s & wr & Hs & Hr & [= _ Hnext]).
    destruct (Hact w) as (g & t & Hcore); [set_solver|].
    unfold wcore_at in Hcore. rewrite Hs in Hcore. simpl in Hcore. rewrite Hr in Hcore.
    injection Hcore as _ _ Hst.
    run_with @read_waiter_run. rewrite Hr, Hst. run_with @modify_waiter_run.
    rewrite Hnext. erewrite IH; [| |done|simpl in Hfuel; lia|].
    + f_equal. unfold zlen. cbn [length]. lia.
    + eapply dseg_frame; [|exact Hl]. intros x _. by apply wlinks_map_core.
    + intros x Hx. cbn [broker on_broker].
      rewrite (wcore_at_map_waiter w _ (fun tw => (tw.1, Ready c))) by done.
      rewrite decide_False by (intros ->; done). apply Hact. set_solver.
Qed.

Lemma publish_waiters_run {E} slot c e s r ws t :
  requests (broker e) !! slot = Some s -> record s = Some r ->
  dll (wlinks (broker e)) (waiter_head r) t ws -> NoDup ws ->
  (forall w, w ∈ ws -> exists g tok, wcore_at (broker e) w = Some (g, Some (tok, Active))) ->
  publish_waiters (E := E) slot c e = Done (zlen ws) (on_broker (publish_all c ws) e).
Proof.
  intros Hs Hr Hl Hnd Hact. unfold publish_waiters. run_with @read_request_run.
  run_with @self_run. rewrite Hr. simpl.
  erewrite publish_from_run; [done|exact Hl|done| |done].
  apply NoDup_bounded_length; [done|]. intros w Hw. apply lookup_lt_is_Some, wlinks_is_Some.
  by eapply dseg_node.
Qed.

(** ** Unlinking a waiter from its request's list *)

Definition unlink_waiter (p n : option nat) (b : FaultBroker) : FaultBroker :=
  let b1 := match p with Some p => map_waiter p (wrec_set_next n) b | None => b end in
  match n with Some n => map_waiter n (wrec_set_prev p) b1 | None => b1 end.

Lemma wlinks_unlink_waiter p n b y :
  wlinks (unlink_waiter p n b) y = relink p n y <$> wlinks b y.
Proof.
  assert (forall i x b j, wlinks (map_waiter i (wrec_set_prev x) b) j =
    if decide (i = j) then (fun pn => (x, pn.2)) <$> wlinks b j else wlinks b j) as Hp
    by (intros; by apply wlinks_map_waiter).
  assert (forall i x b j, wlinks (map_waiter i (wrec_set_next x) b) j =
    if decide (i = j) then (fun pn => (pn.1, x)) <$> wlinks b j else wlinks b j) as Hn
    by (intros; by apply wlinks_map_waiter).
  unfold unlink_waiter, relink. destruct n as [n|], p as [p|]; rewrite ?Hp, ?Hn;
    destruct (wlinks b y) as [[]|]; repeat case_decide; simplify_eq/=; done.
Qed.

Lemma wcore_at_unlink_waiter p n b y : wcore_at (unlink_waiter p n b) y = wcore_at b y.
Proof.
  unfold unlink_waiter. destruct n as [n|], p as [p|]; rewrite ?wcore_at_map_links; done.
Qed.

Lemma unlink_waiter_frame p n b :
  requests (unlink_waiter p n b) = requests b /\
  pending_head (unlink_waiter p n b) = pending_head b /\
  pending_tail (unlink_waiter p n b) = pending_tail b /\
  same_identity b (unlink_waiter p n b).
Proof. unfold same_identity. by destruct p, n. Qed.

Lemma relink_waiter_run e i f s r :
  waiters (broker e) !! i = Some s -> wrecord s = Some r ->
  relink_waiter i f e = Done tt (on_broker (map_waiter i f) e).
Proof.
  intros Hs Hr. unfold relink_waiter. run_with @read_waiter_run. rewrite Hr.
  rewrite (bind_done (some_or (Some r) WaiterInconsistent) _ e r e) by done.
  rewrite write_waiter_run by eauto.
  unfold on_broker. rewrite <- (put_waiter_alter i s f) by done. by rewrite Hr.
Qed.

End Links.
