(* ===== verification/FaultTransitions.v ===== *)
(** Fault broker, part 5: the refinement relation between the linked
    implementation and the abstract broker, and the lookups it preserves.

    Fault broker, part 6: delivery, completion and release refine the abstract
    broker and preserve its invariant. *)

From S2P Require Import Prelude Effects Atomics FaultBroker FaultSpec FaultLinks.
Local Open Scope Z_scope.

Section Refinement.
Context {K H C : Type} `{EqDecision K} `{EqDecision H}.
Local Abbreviation Env := (Env K H C).
Local Abbreviation FaultBroker := (FaultBroker K H C).
Local Abbreviation abstract_broker := (abstract_broker K H C).
Local Abbreviation abstract_request := (abstract_request K H C).
Local Abbreviation request_core := (request_core K H C).
Implicit Types (b : FaultBroker) (e : Env) (a : abstract_broker).

(** A record represents an abstract request: its fields agree and its waiter
    links spell the waiter list. *)
Definition core_rel (wl : link_map) (c : request_core) (r : abstract_request) : Prop :=
  core_key c = a_key r /\ core_handler c = a_handler r /\ core_state c = a_state r /\
  core_count c = zlen (a_waiters r) /\ dll wl (core_head c) (core_tail c) (a_waiters r).

Definition slot_rel (wl : link_map) (c : option (Z * option request_core))
    (s : option (Z * option abstract_request)) : Prop :=
  match c, s with
  | None, None => True
  | Some (g, None), Some (g', None) => g = g'
  | Some (g, Some c), Some (g', Some r) => g = g' /\ core_rel wl c r
  | _, _ => False
  end.

(** A waiter names its request's current token and mirrors its visibility. *)
Definition waiter_rel (a : abstract_broker) (c : option (Z * option (RequestToken * WaiterState C)))
    (s : option (Z * option nat)) : Prop :=
  match c, s with
  | None, None => True
  | Some (g, None), Some (g', None) => g = g'
  | Some (g, Some (t, st)), Some (g', Some r) =>
      g = g' /\ exists gr ar, a_requests a !! r = Some (gr, Some ar) /\
        t = mkRequestToken (a_id a) r gr /\ st = a_waiter_state (a_state ar)
  | _, _ => False
  end.

Record refines (e : Env) (a : abstract_broker) : Prop := {
  ref_id : id (broker e) = a_id a;
  ref_pool : credit_pool (broker e) = a_credit_pool a;
  ref_pools : pools e = a_pools a;
  ref_request i : slot_rel (wlinks (broker e)) (core_at (broker e) i) (a_requests a !! i);
  ref_waiter w : waiter_rel a (wcore_at (broker e) w) (a_waiter_slots a !! w);
  ref_queue : dll (plinks (broker e)) (pending_head (broker e)) (pending_tail (broker e))
                (a_pending a)
}.

(** ** Lookups *)

Lemma refines_live e a i g ar :
  refines e a -> a_requests a !! i = Some (g, Some ar) ->
  exists s r, requests (broker e) !! i = Some s /\ record s = Some r /\ generation s = g /\
    core_rel (wlinks (broker e)) (core_of r) ar.
Proof.
  intros Href Hi. pose proof (ref_request _ _ Href i) as Hrel. rewrite Hi in Hrel.
  unfold core_at in Hrel. destruct (requests (broker e) !! i) as [s|]; [|done]. simpl in Hrel.
  destruct (record s) as [r|] eqn:Hr; [|done]. destruct Hrel as [? ?]. eauto 10.
Qed.

Lemma refines_vacant e a i g :
  refines e a -> a_requests a !! i = Some (g, None) ->
  exists s, requests (broker e) !! i = Some s /\ record s = None /\ generation s = g.
Proof.
  intros Href Hi. pose proof (ref_request _ _ Href i) as Hrel. rewrite Hi in Hrel.
  unfold core_at in Hrel. destruct (requests (broker e) !! i) as [s|]; [|done]. simpl in Hrel.
  destruct (record s) as [r|] eqn:Hr; [done|]. eauto.
Qed.

Lemma refines_waiter_live e a w g r :
  refines e a -> a_waiter_slots a !! w = Some (g, Some r) ->
  exists s wr gr ar, waiters (broker e) !! w = Some s /\ wrecord s = Some wr /\
    wgeneration s = g /\ a_requests a !! r = Some (gr, Some ar) /\
    request wr = mkRequestToken (a_id a) r gr /\ wstate wr = a_waiter_state (a_state ar).
Proof.
  intros Href Hw. pose proof (ref_waiter _ _ Href w) as Hrel. rewrite Hw in Hrel.
  unfold wcore_at in Hrel. destruct (waiters (broker e) !! w) as [s|]; [|done]. simpl in Hrel.
  destruct (wrecord s) as [wr|] eqn:Hr; [|done]. simpl in Hrel.
  destruct Hrel as (? & gr & ar & ? & ? & ?). exists s, wr, gr, ar. eauto 10.
Qed.

Lemma refines_request_slot e a i :
  refines e a -> is_Some (requests (broker e) !! i) <-> is_Some (a_requests a !! i).
Proof.
  intros Href. pose proof (ref_request _ _ Href i) as Hrel. unfold core_at in Hrel.
  destruct (requests (broker e) !! i) as [s|], (a_requests a !! i) as [[g [r|]]|]; simpl in Hrel;
    try done; destruct (record s); done.
Qed.

Lemma refines_waiter_slot e a w :
  refines e a -> is_Some (waiters (broker e) !! w) <-> is_Some (a_waiter_slots a !! w).
Proof.
  intros Href. pose proof (ref_waiter _ _ Href w) as Hrel. unfold wcore_at in Hrel.
  destruct (waiters (broker e) !! w) as [s|], (a_waiter_slots a !! w) as [[g [r|]]|];
    simpl in Hrel; try done; destruct (wrecord s); done.
Qed.

Lemma refines_request_length e a :
  refines e a -> length (requests (broker e)) = length (a_requests a).
Proof. intros Href. apply same_lookup_length. intros i. by apply refines_request_slot. Qed.

Lemma refines_waiter_length e a :
  refines e a -> length (waiters (broker e)) = length (a_waiter_slots a).
Proof. intros Href. apply same_lookup_length. intros i. by apply refines_waiter_slot. Qed.

Lemma position_ext {A B} (p : A -> bool) (q : B -> bool) l1 l2 :
  length l1 = length l2 ->
  (forall i x y, l1 !! i = Some x -> l2 !! i = Some y -> p x = q y) ->
  position p l1 = position q l2.
Proof.
  revert l2. induction l1 as [|x l1 IH]; intros [|y l2] Hlen Hpq; try done. simpl.
  rewrite (Hpq 0%nat x y) by done. rewrite (IH l2); [done|by injection Hlen|].
  intros i x' y'. apply (Hpq (S i)).
Qed.

Lemma choose_slot_ext {A B} (gen1 : A -> Z) (gen2 : B -> Z) vac1 vac2 l1 l2 n ex :
  length l1 = length l2 ->
  (forall i x y, l1 !! i = Some x -> l2 !! i = Some y -> gen1 x = gen2 y /\ vac1 x = vac2 y) ->
  choose_slot_from gen1 vac1 l1 n ex = choose_slot_from gen2 vac2 l2 n ex.
Proof.
  revert l2 n ex. induction l1 as [|x l1 IH]; intros [|y l2] n ex Hlen Hpq; try done. simpl.
  destruct (Hpq 0%nat x y) as [-> ->]; [done..|].
  assert (forall n ex, choose_slot_from gen1 vac1 l1 n ex = choose_slot_from gen2 vac2 l2 n ex)
    as IH'.
  { intros. apply IH; [by injection Hlen|]. intros i x' y'. apply (Hpq (S i)). }
  repeat case_match; auto.
Qed.

Lemma refines_pair e a i s as_ :
  refines e a -> requests (broker e) !! i = Some s -> a_requests a !! i = Some as_ ->
  generation s = as_.1 /\ is_none (record s) = is_none as_.2 /\
  (forall r, record s = Some r -> exists ar, as_.2 = Some ar /\
     core_rel (wlinks (broker e)) (core_of r) ar).
Proof.
  intros Href Hs Ha. pose proof (ref_request _ _ Href i) as Hrel. unfold core_at in Hrel.
  rewrite Hs, Ha in Hrel. simpl in Hrel. destruct as_ as [g [ar|]], (record s) as [r|]; simpl in *;
    try done; destruct_and?; (split; [done|]); (split; [done|]); intros; simplify_eq; eauto.
Qed.

Lemma refines_position e a h k :
  refines e a ->
  position (matches_exact h k) (requests (broker e)) = position (a_matches h k) (a_requests a).
Proof.
  intros Href. apply position_ext; [by apply refines_request_length|]. intros i s as_ Hs Ha.
  destruct (refines_pair _ _ _ _ _ Href Hs Ha) as (_ & Hn & Hr).
  unfold matches_exact, a_matches. destruct (record s) as [r|], as_ as [g [ar|]]; try done.
  destruct (Hr r eq_refl) as (ar' & [= <-] & (Hk & Hh & Hst & _)). simpl in *.
  by rewrite Hk, Hh, Hst.
Qed.

Lemma refines_choose_request e a :
  refines e a -> choose_request_slot (broker e) = a_choose (a_requests a).
Proof.
  intros Href. apply choose_slot_ext; [by apply refines_request_length|].
  intros i s as_ Hs Ha. by destruct (refines_pair _ _ _ _ _ Href Hs Ha) as (? & ? & _).
Qed.

Lemma refines_choose_waiter e a :
  refines e a -> choose_waiter_slot (broker e) = a_choose (a_waiter_slots a).
Proof.
  intros Href. apply choose_slot_ext; [by apply refines_waiter_length|].
  intros i s as_ Hs Ha. pose proof (ref_waiter _ _ Href i) as Hrel. unfold wcore_at in Hrel.
  rewrite Hs, Ha in Hrel. simpl in Hrel. destruct as_ as [g [ar|]], (wrecord s) as [r|]; simpl in *;
    destruct_and?; done.
Qed.

Lemma refines_snapshot e a i : refines e a -> snapshot_slot (broker e) i = a_snapshot a i.
Proof.
  intros Href. unfold snapshot_slot, a_snapshot.
  destruct (a_requests a !! i) as [[g [ar|]]|] eqn:Ha.
  - destruct (refines_live _ _ _ _ _ Href Ha) as (s & r & Hs & Hr & <- & (Hk & Hh & Hst & Hc & _)).
    rewrite Hs. simpl. rewrite Hr. simpl in *. by rewrite (ref_id _ _ Href), Hk, Hh, Hst, Hc.
  - destruct (refines_vacant _ _ _ _ Href Ha) as (s & Hs & Hr & <-). rewrite Hs. simpl. by rewrite Hr.
  - destruct (requests (broker e) !! i) eqn:Hs; [|done].
    assert (is_Some (a_requests a !! i)) as [? ?] by (eapply refines_request_slot; eauto).
    congruence.
Qed.

Lemma refines_request_index e a t :
  refines e a -> request_index (broker e) t = ok_or (a_request_index a t) RequestStaleOrForeign.
Proof.
  intros Href. unfold request_index, a_request_index. rewrite (ref_id _ _ Href).
  destruct (rt_broker t =? a_id a); [|done]. simpl.
  destruct (a_requests a !! rt_slot t) as [[g [ar|]]|] eqn:Ha.
  - destruct (refines_live _ _ _ _ _ Href Ha) as (s & r & Hs & Hr & <- & _).
    rewrite Hs, Hr. simpl. rewrite orb_false_r. by destruct (generation s =? rt_generation t).
  - destruct (refines_vacant _ _ _ _ Href Ha) as (s & Hs & Hr & <-). rewrite Hs, Hr. simpl.
    by rewrite orb_true_r.
  - destruct (requests (broker e) !! rt_slot t) eqn:Hs; [|done].
    assert (is_Some (a_requests a !! rt_slot t)) as [? ?] by (eapply refines_request_slot; eauto).
    congruence.
Qed.

Lemma refines_waiter_index e a t :
  refines e a -> waiter_index (broker e) t = ok_or (a_waiter_index a t) WaiterStaleOrForeign.
Proof.
  intros Href. unfold waiter_index, a_waiter_index. rewrite (ref_id _ _ Href).
  destruct (wt_broker t =? a_id a); [|done]. simpl.
  pose proof (ref_waiter _ _ Href (wt_slot t)) as Hrel. unfold wcore_at in Hrel.
  destruct (waiters (broker e) !! wt_slot t) as [s|], (a_waiter_slots a !! wt_slot t) as [[g [r|]]|];
    simpl in Hrel; try done; destruct (wrecord s); simpl in *; destruct_and?; try done; subst.
  - rewrite orb_false_r. by destruct (_ =? wt_generation t).
  - by rewrite orb_true_r.
Qed.

End Refinement.

Section Transitions.
Context {K H C : Type} `{EqDecision K} `{EqDecision H}.
Local Abbreviation Env := (Env K H C).
Local Abbreviation FaultBroker := (FaultBroker K H C).
Local Abbreviation abstract_broker := (abstract_broker K H C).
Local Abbreviation abstract_request := (abstract_request K H C).
Implicit Types (b : FaultBroker) (e : Env) (a : abstract_broker).

(** A method's outcome matches the specification's result and next state. *)
Definition simulates {E A} (o : outcome Env E A) (spec : result A E * abstract_broker) : Prop :=
  exists e', o = (match spec.1 with Ok r => Done r e' | Err x => Fail x e' end) /\
    refines e' spec.2 /\ well_formed spec.2.

Lemma a_live_Some a i ar :
  a_live a i = Some ar <-> exists g, a_requests a !! i = Some (g, Some ar).
Proof.
  unfold a_live. destruct (a_requests a !! i) as [[g [r|]]|]; simpl.
  - split; [intros [= ->]; eauto|by intros [? [= _ ->]]].
  - split; [done|by intros [? ?]].
  - split; [done|by intros [? ?]].
Qed.

(** ** Changing the state of one request *)

Lemma a_requests_set_live slot f a i :
  a_requests (set_live slot f a) !! i =
    if decide (slot = i) then on_content f <$> a_requests a !! i else a_requests a !! i.
Proof. simpl. rewrite list_lookup_alter. case_decide; by subst. Qed.

Lemma a_live_set_live slot f a i :
  a_live (set_live slot f a) i =
    if decide (slot = i) then f <$> a_live a i else a_live a i.
Proof.
  unfold a_live. rewrite a_requests_set_live. case_decide; [|done].
  by destruct (a_requests a !! i) as [[g []]|].
Qed.

Lemma a_live_count_set_live slot f a : a_live_count (set_live slot f a) = a_live_count a.
Proof.
  unfold a_live_count, set_live. simpl.
  destruct (a_requests a !! slot) as [s|] eqn:Hs.
  - rewrite (count_alter _ _ _ _ s Hs). unfold weight. destruct s as [g [r|]]; simpl; lia.
  - f_equal. apply list_eq. intros j. rewrite list_lookup_alter. case_decide; [|done].
    subst. by rewrite Hs.
Qed.

Lemma elem_of_without x y l : x ∈ without y l <-> x <> y /\ x ∈ l.
Proof. unfold without. by rewrite list_elem_of_filter. Qed.

Lemma set_state_well_formed a slot ar s :
  well_formed a -> a_live a slot = Some ar ->
  (is_pending s = true -> is_pending (a_state ar) = true) ->
  well_formed (spec_set_state slot s a).
Proof.
  intros Hwf Hslot Hpend.
  assert (forall r ar', a_live (spec_set_state slot s a) r = Some ar' ->
    exists ar0, a_live a r = Some ar0 /\ a_waiters ar' = a_waiters ar0) as Hold.
  { intros r ar'. change (a_live (spec_set_state slot s a) r)
      with (a_live (set_live slot (areq_state s) a) r). rewrite a_live_set_live.
    case_decide; [subst|by eauto]. rewrite Hslot. intros [= <-]. eauto. }
  assert (forall r ar0, a_live a r = Some ar0 -> exists ar',
    a_live (spec_set_state slot s a) r = Some ar' /\ a_waiters ar' = a_waiters ar0) as Hnew.
  { intros r ar0 Hr. change (a_live (spec_set_state slot s a) r)
      with (a_live (set_live slot (areq_state s) a) r). rewrite a_live_set_live.
    case_decide; [subst|by eauto]. rewrite Hr. simpl. eauto. }
  split.
  - intros r ar' (ar0 & Hr & ->)%Hold. by apply (wf_waiter_list _ Hwf r).
  - intros r ar' w (ar0 & Hr & ->)%Hold. by apply (wf_waiter_slot _ Hwf r).
  - intros w g r Hw. destruct (wf_waiter_live _ Hwf w g r Hw) as (ar0 & Hr & ?).
    destruct (Hnew _ _ Hr) as (ar' & ? & Heq). exists ar'. by rewrite Heq.
  - simpl. case_match; [|apply NoDup_filter]; by apply (wf_pending_nodup _ Hwf).
  - intros r. change (a_live (spec_set_state slot s a) r)
      with (a_live (set_live slot (areq_state s) a) r). rewrite a_live_set_live.
    pose proof (wf_pending _ Hwf r) as Hp. simpl. destruct (is_pending s) eqn:Hs.
    + rewrite Hp. case_decide; [subst|done]. rewrite Hslot. simpl. specialize (Hpend eq_refl).
      split; intros _; eauto.
    + rewrite elem_of_without. rewrite Hp. case_decide; [subst|naive_solver].
      rewrite Hslot. simpl. split; [naive_solver|]. intros (ar' & [= <-] & Hp'). simpl in Hp'. congruence.
  - intros r g o. change (a_requests (spec_set_state slot s a) !! r)
      with (a_requests (set_live slot (areq_state s) a) !! r). rewrite a_requests_set_live.
    case_decide; [subst|by apply (wf_generation _ Hwf)].
    destruct (a_requests a !! r) as [[g0 o0]|] eqn:Hr; [|done]. intros [= <- <-].
    destruct (wf_generation _ Hwf r g0 o0 Hr) as [? Hg]. split; [done|]. intros Ho. apply Hg.
    by destruct o0.
  - by apply (wf_waiter_generation _ Hwf).
  - destruct (wf_sizes _ Hwf). split; [|done]. simpl. unfold zlen in *. by rewrite length_alter.
  - intros i Hi. destruct (wf_credits _ Hwf i Hi) as (p & Hp & Hc). exists p. split; [done|].
    change (a_live_count (spec_set_state slot s a)) with (a_live_count (set_live slot (areq_state s) a)).
    by rewrite a_live_count_set_live.
Qed.

(** Every waiter of a live request mirrors its visibility. *)
Lemma refines_waiter_core e a slot g ar w :
  refines e a -> well_formed a -> a_requests a !! slot = Some (g, Some ar) ->
  w ∈ a_waiters ar -> exists wg,
    wcore_at (broker e) w =
      Some (wg, Some (mkRequestToken (a_id a) slot g, a_waiter_state (a_state ar))).
Proof.
  intros Href Hwf Hslot Hw.
  destruct (wf_waiter_slot _ Hwf slot ar w) as [wg Hwg]; [apply a_live_Some; eauto|done|].
  destruct (refines_waiter_live _ _ _ _ _ Href Hwg)
    as (s & wr & gr & ar' & Hs & Hr & <- & Hreq & Htok & Hst).
  exists (wgeneration s). unfold wcore_at. rewrite Hs. simpl. rewrite Hr. simpl. unfold wcore_of.
  rewrite Hreq in Hslot. simplify_eq. by rewrite Htok, Hst.
Qed.

(** The waiters of two different requests are disjoint. *)
Lemma waiters_disjoint a x r1 r2 ar1 ar2 w :
  well_formed_but x a -> a_live a r1 = Some ar1 -> a_live a r2 = Some ar2 ->
  w ∈ a_waiters ar1 -> w ∈ a_waiters ar2 -> r1 = r2.
Proof.
  intros Hwf H1 H2 Hw1 Hw2.
  destruct (wf_waiter_slot _ Hwf r1 ar1 w H1 Hw1) as [g1 Hg1].
  destruct (wf_waiter_slot _ Hwf r2 ar2 w H2 Hw2) as [g2 Hg2]. congruence.
Qed.

Definition core_set_state (s : RequestState C) (c : request_core K H C) : request_core K H C :=
  mkCore (core_key c) (core_handler c) s (core_head c) (core_tail c) (core_count c).

Lemma refines_set_state e a slot s b' g ar :
  refines e a -> well_formed a -> a_requests a !! slot = Some (g, Some ar) ->
  same_identity (broker e) b' ->
  (forall i, core_at b' i =
     if decide (slot = i) then on_content (core_set_state s) <$> core_at (broker e) i
     else core_at (broker e) i) ->
  (forall w, wlinks b' w = wlinks (broker e) w) ->
  (forall w, wcore_at b' w =
     if decide (w ∈ a_waiters ar)
     then on_content (fun tw => (tw.1, a_waiter_state s)) <$> wcore_at (broker e) w
     else wcore_at (broker e) w) ->
  dll (plinks b') (pending_head b') (pending_tail b')
    (if is_pending s then a_pending a else without slot (a_pending a)) ->
  refines (mkEnv (pools e) b') (spec_set_state slot s a).
Proof.
  intros Href Hwf Hslot [Hid Hcp] Hcore Hwl Hwc Hq.
  split; simpl; [by rewrite Hid, (ref_id _ _ Href)|by rewrite Hcp, (ref_pool _ _ Href)
    |by apply ref_pools|..|done].
  - intros i. rewrite Hcore. pose proof (ref_request _ _ Href i) as Hrel.
    rewrite list_lookup_alter. destruct (decide (slot = i)) as [->|Hne].
    + rewrite Hslot in *. destruct (core_at (broker e) i) as [[gc [c|]]|]; simpl in *; try done.
      destruct Hrel as (-> & Hk & Hh & Hs & Hc & Hd). split; [done|].
      repeat split; try done. eapply dseg_frame; [|exact Hd]. intros x _. apply Hwl.
    + destruct (core_at (broker e) i) as [[gc [c|]]|], (a_requests a !! i) as [[g' [ar'|]]|];
        simpl in *; try done.
      destruct Hrel as (-> & Hk & Hh & Hs & Hc & Hd). split; [done|].
      repeat split; try done. eapply dseg_frame; [|exact Hd]. intros x _. apply Hwl.
  - intros w. rewrite Hwc. pose proof (ref_waiter _ _ Href w) as Hrel.
    case_decide as Hw.
    + destruct (refines_waiter_core e a slot g ar w Href Hwf Hslot Hw) as [wg Hwg].
      rewrite Hwg in Hrel |- *. simpl.
      destruct (wf_waiter_slot _ Hwf slot ar w) as [wg' Hws]; [apply a_live_Some; eauto|done|].
      rewrite Hws in Hrel |- *. simpl in *. destruct Hrel as [-> _]. split; [done|].
      exists g, (areq_state s ar). rewrite list_lookup_alter, decide_True by done.
      rewrite Hslot. done.
    + unfold waiter_rel in *. destruct (wcore_at (broker e) w) as [[wg [[t st]|]]|],
        (a_waiter_slots a !! w) as [[wg' [r|]]|] eqn:Hws; try done.
      destruct Hrel as (-> & gr & ar' & Hr & -> & ->). split; [done|].
      destruct (decide (slot = r)) as [->|Hne].
      * exfalso. destruct (wf_waiter_live _ Hwf w wg' r Hws) as (ar0 & Har0 & Hin).
        apply a_live_Some in Har0 as [? ?]. simplify_eq. done.
      * exists gr, ar'. simpl. rewrite list_lookup_alter, decide_False by done. done.
Qed.

(** When the visibility of the request does not change, neither do its waiters. *)
Lemma waiter_cores_unchanged e a slot g ar s w :
  refines e a -> well_formed a -> a_requests a !! slot = Some (g, Some ar) ->
  a_waiter_state s = a_waiter_state (a_state ar) ->
  wcore_at (broker e) w =
    if decide (w ∈ a_waiters ar)
    then on_content (fun tw => (tw.1, a_waiter_state s)) <$> wcore_at (broker e) w
    else wcore_at (broker e) w.
Proof.
  intros Href Hwf Hslot Hst. case_decide as Hw; [|done].
  destruct (refines_waiter_core e a slot g ar w Href Hwf Hslot Hw) as [wg ->]. simpl. by rewrite Hst.
Qed.

(** [modify_request slot (rec_set_state s)] after an optional unlink. *)
Lemma core_at_set_state slot s b i :
  core_at (map_request slot (rec_set_state s) b) i =
    if decide (slot = i) then on_content (core_set_state s) <$> core_at b i else core_at b i.
Proof. by apply core_at_map_request. Qed.

Lemma plinks_set_state slot s b i :
  plinks (map_request slot (rec_set_state s) b) i = plinks b i.
Proof. by apply plinks_map_core. Qed.

(** A broker that differs from the one of [e] in the delivery queue only, which
    already has the shape it will have once the request at [slot] is in [s]. *)
Definition staged (e : Env) (a : abstract_broker) (slot : nat) (s : RequestState C)
    (b1 : FaultBroker) : Prop :=
  same_identity (broker e) b1 /\ waiters b1 = waiters (broker e) /\
  (forall i, core_at b1 i = core_at (broker e) i) /\
  dll (plinks b1) (pending_head b1) (pending_tail b1)
    (if is_pending s then a_pending a else without slot (a_pending a)).

Lemma staged_same e a x slot s ar :
  refines e a -> well_formed_but x a -> a_live a slot = Some ar ->
  is_pending s = is_pending (a_state ar) -> staged e a slot s (broker e).
Proof.
  intros Href Hwf Hslot Hs. split; [done|]. split; [done|]. split; [done|]. rewrite Hs.
  pose proof (ref_queue _ _ Href) as Hq. destruct (is_pending (a_state ar)) eqn:Hp; [done|].
  unfold without. rewrite filter_neq_not_elem; [done|].
  intros (ar' & ? & ?)%(wf_pending _ Hwf). congruence.
Qed.

Lemma staged_unlink {E} e a x slot s ar :
  refines e a -> well_formed_but x a -> a_live a slot = Some ar ->
  is_pending (a_state ar) = true -> is_pending s = false ->
  exists b1, unlink_pending (E := E) slot e = Done tt (mkEnv (pools e) b1) /\
    staged e a slot s b1.
Proof.
  intros Href Hwf Hslot Hp Hs.
  assert (slot ∈ a_pending a) as Hin by (apply (wf_pending _ Hwf); eauto).
  pose proof (wf_pending_nodup _ Hwf) as Hnd. pose proof (ref_queue _ _ Href) as Hq.
  destruct (elem_of_split_nat _ _ Hin) as (l1 & l2 & Heq). rewrite Heq in Hnd, Hq.
  destruct (unlink_pending_run (E := E) e l1 slot l2 Hnd Hq) as [Hrun Hd].
  eexists. split; [exact Hrun|].
  destruct (unlink_queue_ends (last l1) (head l2) slot (broker e)) as (_ & _ & Hw & Hsame).
  split; [done|]. split; [done|]. split; [intros; apply core_at_unlink_queue|].
  rewrite Hs. unfold without. rewrite Heq, filter_neq_middle; done.
Qed.

Lemma staged_slot e a slot s b1 g ar :
  refines e a -> a_requests a !! slot = Some (g, Some ar) -> staged e a slot s b1 ->
  is_Some (requests b1 !! slot).
Proof.
  intros Href Hslot (_ & _ & Hc & _). destruct (refines_live _ _ _ _ _ Href Hslot) as (s0 & r & Hs & _).
  specialize (Hc slot). unfold core_at in Hc. rewrite Hs in Hc.
  destruct (requests b1 !! slot); [by eauto|done].
Qed.

(** A state change that keeps the waiters active. *)
Lemma staged_active {E} e a slot s b1 g ar :
  refines e a -> well_formed a -> a_requests a !! slot = Some (g, Some ar) ->
  staged e a slot s b1 -> a_waiter_state s = a_waiter_state (a_state ar) ->
  exists e', modify_request (E := E) slot (rec_set_state s) (mkEnv (pools e) b1) = Done tt e' /\
    refines e' (spec_set_state slot s a).
Proof.
  intros Href Hwf Hslot Hst Hact. pose proof (staged_slot _ _ _ _ _ _ _ Href Hslot Hst) as Hsome.
  destruct Hst as (Hsame & Hw & Hc & Hd).
  eexists. split; [by apply modify_request_run|].
  apply (refines_set_state e a slot s _ g ar); [done..|exact Hsame| | | |]; cbn [broker].
  - intros i. rewrite core_at_set_state, Hc. done.
  - intros w. unfold wlinks. simpl. by rewrite Hw.
  - intros w. rewrite <- (waiter_cores_unchanged e a slot g ar s w) by done.
    unfold wcore_at. simpl. by rewrite Hw.
  - eapply dseg_frame; [|exact Hd]. intros x _. by apply plinks_set_state.
Qed.

(** A state change that makes the completion visible to every waiter. *)
Lemma staged_visible {E} e a slot c b1 g ar :
  refines e a -> well_formed a -> a_requests a !! slot = Some (g, Some ar) ->
  staged e a slot (StateVisible c) b1 -> is_visible (a_state ar) = false ->
  exists e', (modify_request (E := E) slot (rec_set_state (StateVisible c)) ;;
              n ← publish_waiters slot c; mret (mkEffect n)) (mkEnv (pools e) b1) =
      Done (mkEffect (zlen (a_waiters ar))) e' /\
    refines e' (spec_set_state slot (StateVisible c) a).
Proof.
  intros Href Hwf Hslot Hst Hact. pose proof (staged_slot _ _ _ _ _ _ _ Href Hslot Hst) as Hsome.
  destruct Hst as (Hsame & Hw & Hc & Hd).
  set (b2 := map_request slot (rec_set_state (StateVisible c)) b1).
  assert (forall w, wcore_at b2 w = wcore_at (broker e) w) as Hwc
    by (intros w; unfold wcore_at; simpl; by rewrite Hw).
  assert (forall w, wlinks b2 w = wlinks (broker e) w) as Hwl
    by (intros w; unfold wlinks; simpl; by rewrite Hw).
  destruct (wf_waiter_list _ Hwf slot ar) as [_ Hnd]; [apply a_live_Some; eauto|].
  pose proof (core_at_set_state slot (StateVisible c) b1 slot) as Hcs.
  rewrite decide_True, Hc in Hcs by done.
  pose proof (ref_request _ _ Href slot) as Hrel. rewrite Hslot in Hrel.
  destruct (core_at (broker e) slot) as [[gc [cc|]]|]; simpl in Hrel; try done.
  destruct Hrel as (-> & _ & _ & _ & _ & Hdl). simpl in Hcs.
  destruct (core_at_Some _ _ _ _ Hcs) as (s2 & r2 & Hs2 & Hr2 & _ & Hcore2).
  assert (waiter_head r2 = core_head cc) as Hhead by (by injection Hcore2).
  eexists. split.
  { run_with @modify_request_run. erewrite bind_done; [done|].
    eapply (publish_waiters_run slot c _ s2 r2 (a_waiters ar)); [exact Hs2|done|..|done|].
    - rewrite Hhead. eapply dseg_frame; [|exact Hdl]. intros x _. apply Hwl.
    - intros w Hin. destruct (refines_waiter_core e a slot g ar w Href Hwf Hslot Hin) as [wg Hwg].
      exists wg, (mkRequestToken (a_id a) slot g). cbn [broker on_broker]. fold b2. rewrite Hwc, Hwg.
      by destruct (a_state ar). }
  destruct (publish_all_frame c (a_waiters ar) b2) as (Hreq & Hph & Hpt & Hid).
  eapply (refines_set_state e a slot _ _ g ar); eauto; cbn [broker on_broker]; fold b2.
  - etrans; [exact Hsame|]. exact Hid.
  - intros i. unfold core_at at 1. rewrite Hreq. fold (core_at b2 i). unfold b2.
    rewrite core_at_set_state, Hc. done.
  - intros w. by rewrite wlinks_publish_all.
  - intros w. rewrite wcore_at_publish_all, Hwc. done.
  - rewrite Hph, Hpt. eapply dseg_frame; [|exact Hd]. intros x _.
    transitivity (plinks b2 x); [|by apply plinks_set_state].
    unfold plinks. by rewrite Hreq.
Qed.

(** ** The operations *)

Lemma complete_slot_simulates {E} e a slot g ar c v :
  refines e a -> well_formed a -> a_requests a !! slot = Some (g, Some ar) ->
  let spec := spec_complete_slot slot c v a in
  exists e', complete_slot (E := E) slot c v e = Done (mkEffect spec.1) e' /\
    refines e' spec.2 /\ well_formed spec.2.
Proof.
  intros Href Hwf Hslot. assert (a_live a slot = Some ar) as Hlive by (apply a_live_Some; eauto).
  destruct (refines_live _ _ _ _ _ Href Hslot) as (s & r & Hs & Hr & _ & (_ & _ & Hst & _)).
  simpl in Hst. unfold complete_slot, spec_complete_slot. rewrite Hlive. run_with @read_request_run.
  rewrite Hr. simpl. rewrite Hst. destruct e as [ps b].
  destruct (a_state ar) eqn:Ha, v; simpl; try (eexists; done).
  - destruct (staged_unlink (E := E) (mkEnv ps b) a None slot (StateVisible c) ar) as (b1 & Hu & Hsg);
      [done..|by rewrite Ha|done|].
    destruct (staged_visible (E := E) (mkEnv ps b) a slot c b1 g ar) as (e' & Hrun & Href');
      [done..|by rewrite Ha|].
    exists e'. split; [by erewrite bind_done|]. split; [done|].
    by eapply set_state_well_formed; eauto.
  - destruct (staged_active (E := E) (mkEnv ps b) a slot (DeferredPending c) b g ar)
      as (e' & Hrun & Href'); [done..|eapply staged_same; eauto; by rewrite Ha|by rewrite Ha|].
    exists e'. split; [by erewrite bind_done|]. split; [done|].
    by eapply set_state_well_formed; eauto; rewrite Ha.
  - destruct (staged_visible (E := E) (mkEnv ps b) a slot c b g ar) as (e' & Hrun & Href');
      [done..|eapply staged_same; eauto; by rewrite Ha|by rewrite Ha|].
    exists e'. split; [exact Hrun|]. split; [done|]. by eapply set_state_well_formed; eauto.
  - destruct (staged_active (E := E) (mkEnv ps b) a slot (DeferredDelivered c) b g ar)
      as (e' & Hrun & Href'); [done..|eapply staged_same; eauto; by rewrite Ha|by rewrite Ha|].
    exists e'. split; [by erewrite bind_done|]. split; [done|].
    by eapply set_state_well_formed; eauto.
Qed.

Lemma release_slot_simulates {E} e a slot g ar :
  refines e a -> well_formed a -> a_requests a !! slot = Some (g, Some ar) ->
  let spec := spec_release_slot slot a in
  exists e', release_slot (E := E) slot e = Done (mkEffect spec.1) e' /\
    refines e' spec.2 /\ well_formed spec.2.
Proof.
  intros Href Hwf Hslot. assert (a_live a slot = Some ar) as Hlive by (apply a_live_Some; eauto).
  destruct (refines_live _ _ _ _ _ Href Hslot) as (s & r & Hs & Hr & _ & (_ & _ & Hst & _)).
  simpl in Hst. unfold release_slot, spec_release_slot. rewrite Hlive. run_with @read_request_run.
  rewrite Hr. simpl. rewrite Hst. destruct e as [ps b].
  destruct (a_state ar) as [| |c|c|c] eqn:Ha; simpl; try (eexists; done).
  - destruct (staged_unlink (E := E) (mkEnv ps b) a None slot (StateVisible c) ar) as (b1 & Hu & Hsg);
      [done..|by rewrite Ha|done|].
    destruct (staged_visible (E := E) (mkEnv ps b) a slot c b1 g ar) as (e' & Hrun & Href');
      [done..|by rewrite Ha|].
    exists e'. split; [by erewrite bind_done|]. split; [done|].
    by eapply set_state_well_formed; eauto.
  - destruct (staged_visible (E := E) (mkEnv ps b) a slot c b g ar) as (e' & Hrun & Href');
      [done..|eapply staged_same; eauto; by rewrite Ha|by rewrite Ha|].
    exists e'. split; [exact Hrun|]. split; [done|]. by eapply set_state_well_formed; eauto.
Qed.

End Transitions.
