(* ===== verification/FaultAdmission.v ===== *)
(** Fault broker, part 7: claiming, completion and release by token, and the
    bulk operations, as simulations of the abstract broker.

    Fault broker, part 8: admission refines the abstract broker.

    A new request is published at the tail of the delivery queue with an empty
    waiter list, then the waiter is attached; a coalesced admission attaches
    the waiter only.

    Fault broker, part 9: the two publications of [broker_admit] and the simulation of
    admission. *)

From S2P Require Import Prelude Effects Atomics FaultBroker FaultSpec FaultLinks FaultTransitions.
Local Open Scope Z_scope.

Section Delivery.
Context {K H C : Type} `{EqDecision K} `{EqDecision H}.
Local Abbreviation Env := (Env K H C).
Local Abbreviation FaultBroker := (FaultBroker K H C).
Local Abbreviation abstract_broker := (abstract_broker K H C).
Local Abbreviation abstract_request := (abstract_request K H C).
Local Abbreviation RequestSnapshot := (RequestSnapshot K H).
Implicit Types (b : FaultBroker) (e : Env) (a : abstract_broker).

(** A method that cannot fail matches a pure transition of the specification. *)
Definition performs {E A} (o : outcome Env E A) (spec : A * abstract_broker) : Prop :=
  exists e', o = Done spec.1 e' /\ refines e' spec.2 /\ well_formed spec.2.

Lemma performs_bind {E A B} (m : M Env E A) (f : A -> M Env E B) e spec
    (spec' : B * abstract_broker) :
  performs (m e) spec ->
  (forall e', refines e' spec.2 -> well_formed spec.2 -> performs (f spec.1 e') spec') ->
  performs ((m ≫= f) e) spec'.
Proof. intros (e' & Hrun & Href & Hwf) Hf. rewrite (bind_done _ _ _ _ _ Hrun). by apply Hf. Qed.

Lemma performs_ret {E A} (x : A) e a :
  refines e a -> well_formed a -> performs (E := E) (Done x e) (x, a).
Proof. intros Href Hwf. by exists e. Qed.

(** ** Claiming *)

Lemma claim_here {E} e a slot ar :
  refines e a -> well_formed a -> a_live a slot = Some ar -> is_pending (a_state ar) = true ->
  performs
    ((unlink_pending (E := E) slot ;;
      modify_request slot (rec_set_state (claimed_state (a_state ar))) ;;
      b ← self; mret (snapshot_slot b slot)) e)
    (spec_claim_slot (Some slot) a).
Proof.
  intros Href Hwf Hlive Hp. unfold spec_claim_slot. rewrite Hlive.
  destruct (proj1 (a_live_Some _ _ _) Hlive) as [g Hslot].
  assert (is_pending (claimed_state (a_state ar)) = false) as Hq by (by destruct (a_state ar)).
  destruct (staged_unlink (E := E) e a None slot (claimed_state (a_state ar)) ar) as (b1 & Hu & Hsg);
    [done..|].
  rewrite (bind_done _ _ _ _ _ Hu).
  destruct (staged_active (E := E) e a slot (claimed_state (a_state ar)) b1 g ar)
    as (e' & Hrun & Href'); [done..|by destruct (a_state ar)|].
  rewrite (bind_done _ _ _ _ _ Hrun). run_with @self_run.
  rewrite (refines_snapshot _ _ slot Href'). apply performs_ret; [done|].
  by eapply set_state_well_formed; eauto; rewrite Hq.
Qed.

Lemma claim_from_performs {E} h l fuel pp p q e a :
  refines e a -> well_formed a -> dseg (plinks (broker e)) pp p q None l ->
  (forall x, x ∈ l -> x ∈ a_pending a) -> (length l <= fuel)%nat ->
  performs (claim_from (E := E) fuel h p e)
    (spec_claim_slot (head (filter (fun slot => a_for h a slot = true) l)) a).
Proof.
  intros Href Hwf. revert fuel pp p. induction l as [|x l IH]; intros fuel pp p.
  - intros [-> _] _ _. destruct fuel; by apply performs_ret.
  - intros (-> & r & Hlk & Hl) Hin Hfuel. destruct fuel as [|fuel]; [simpl in Hfuel; lia|].
    assert (x ∈ a_pending a) as (ar & Hlive & Hp)%(wf_pending _ Hwf) by (apply Hin; set_solver).
    destruct (proj1 (a_live_Some _ _ _) Hlive) as [g Hslot].
    destruct (refines_live _ _ _ _ _ Href Hslot) as (s & rr & Hs & Hr & _ & (_ & Hh & Hst & _)).
    destruct (plinks_Some _ _ _ Hlk) as (s' & rr' & Hs' & Hr' & [= _ Hnext]). simplify_eq.
    assert (performs (claim_from (E := E) fuel h (pending_next rr) e)
      (spec_claim_slot (head (filter (fun slot => a_for h a slot = true) l)) a)) as Hrest.
    { eapply IH; [exact Hl| |simpl in Hfuel; lia]. intros y Hy. apply Hin. set_solver. }
    cbn [claim_from]. run_with @self_run. rewrite Hs. cbn [mbind option_bind]. rewrite Hr.
    simpl in Hh, Hst. rewrite Hh, Hst, filter_cons.
    assert (a_for h a x = bool_decide (a_handler ar = h)) as Hfor
      by (unfold a_for; by rewrite Hlive).
    case_bool_decide as Hhand; simpl negb; cbn iota.
    + rewrite decide_True by done. cbn [head].
      pose proof (claim_here (E := E) e a x ar Href Hwf Hlive Hp) as Hhere.
      destruct (a_state ar); try done.
    + rewrite decide_False by congruence. done.
Qed.

Lemma claim_next_performs {E} h e a :
  refines e a -> well_formed a -> performs (claim_next (E := E) h e) (spec_claim_next h a).
Proof.
  intros Href Hwf. unfold claim_next. run_with @self_run. pose proof (ref_queue _ _ Href) as Hq.
  eapply claim_from_performs; [done|done|exact Hq|done|].
  apply NoDup_bounded_length; [exact (wf_pending_nodup _ Hwf)|].
  intros x Hx. by eapply lookup_lt_is_Some, plinks_is_Some, dseg_node.
Qed.

(** ** Completion and release of one request *)

Lemma complete_slot_performs {E} e a slot ar c v :
  refines e a -> well_formed a -> a_live a slot = Some ar ->
  performs (complete_slot (E := E) slot c v e)
    (mkEffect (spec_complete_slot slot c v a).1, (spec_complete_slot slot c v a).2).
Proof.
  intros Href Hwf [g Hslot]%a_live_Some. by eapply complete_slot_simulates.
Qed.

Lemma release_slot_performs {E} e a slot ar :
  refines e a -> well_formed a -> a_live a slot = Some ar ->
  performs (release_slot (E := E) slot e)
    (mkEffect (spec_release_slot slot a).1, (spec_release_slot slot a).2).
Proof.
  intros Href Hwf [g Hslot]%a_live_Some. by eapply release_slot_simulates.
Qed.

Lemma performs_simulates {E A} (o : outcome Env E A) x a :
  performs o (x, a) -> simulates o (Ok x, a).
Proof. done. Qed.

Lemma simulates_error {E A} (x : E) e a :
  refines e a -> well_formed a -> simulates (A := A) (Fail x e) (Err x, a).
Proof. intros. by exists e. Qed.

(** A token that is found names a live request. *)
Lemma request_index_live a t slot :
  a_request_index a t = Some slot -> slot = rt_slot t /\
  exists ar, a_requests a !! slot = Some (rt_generation t, Some ar) /\ a_live a slot = Some ar.
Proof.
  unfold a_request_index. destruct (negb _); [done|].
  destruct (a_requests a !! rt_slot t) as [[g [ar|]]|] eqn:Hs; try done.
  destruct (Z.eqb_spec g (rt_generation t)); [|done]. intros [= <-]. subst. split; [done|].
  exists ar. split; [done|]. apply a_live_Some. eauto.
Qed.

Lemma complete_simulates_spec e a t c v :
  refines e a -> well_formed a -> simulates (complete t c v e) (spec_complete t c v a).
Proof.
  intros Href Hwf. unfold complete, spec_complete. run_with @self_run.
  rewrite (refines_request_index _ _ _ Href).
  destruct (a_request_index a t) as [slot|] eqn:Hidx; [|by apply simulates_error].
  destruct (request_index_live _ _ _ Hidx) as (-> & ar & Hslot & Hlive). simpl ok_or.
  rewrite (bind_done _ _ e (rt_slot t) e) by done.
  destruct (refines_live _ _ _ _ _ Href Hslot) as (s & r & Hs & Hr & _ & (_ & _ & Hst & _)).
  run_with @read_request_run. rewrite Hr, Hlive. simpl in *. rewrite Hst.
  pose proof (complete_slot_performs (E := RequestError) e a (rt_slot t) ar c v Href Hwf Hlive) as Hc.
  destruct (spec_complete_slot (rt_slot t) c v a) as [n a'].
  destruct (a_state ar); try (by apply simulates_error); by apply performs_simulates.
Qed.

Lemma release_simulates_spec e a t :
  refines e a -> well_formed a -> simulates (release t e) (spec_release t a).
Proof.
  intros Href Hwf. unfold release, spec_release. run_with @self_run.
  rewrite (refines_request_index _ _ _ Href).
  destruct (a_request_index a t) as [slot|] eqn:Hidx; [|by apply simulates_error].
  destruct (request_index_live _ _ _ Hidx) as (-> & ar & Hslot & Hlive). simpl ok_or.
  rewrite (bind_done _ _ e (rt_slot t) e) by done.
  destruct (refines_live _ _ _ _ _ Href Hslot) as (s & r & Hs & Hr & _ & (_ & _ & Hst & _)).
  run_with @read_request_run. rewrite Hr, Hlive. simpl in *. rewrite Hst.
  pose proof (release_slot_performs (E := RequestError) e a (rt_slot t) ar Href Hwf Hlive) as Hc.
  destruct (spec_release_slot (rt_slot t) a) as [n a'].
  destruct (a_state ar); try (by apply simulates_error); apply performs_simulates; [done..|].
  by apply performs_ret.
Qed.

(** ** Bulk operations *)

Lemma a_snapshot_live a slot s :
  a_snapshot a slot = Some s -> exists ar, a_live a slot = Some ar /\
    snap_handler s = a_handler ar /\ snap_phase s = phase (a_state ar).
Proof.
  unfold a_snapshot, a_live. destruct (a_requests a !! slot) as [[g [ar|]]|]; simpl; try done.
  intros [= <-]. eauto.
Qed.

Lemma complete_if_performs {E} p c v slot summary e a :
  refines e a -> well_formed a ->
  performs (complete_if (E := E) p c v slot summary e) (spec_complete_if p c v slot (summary, a)).
Proof.
  intros Href Hwf. unfold complete_if, spec_complete_if. run_with @self_run.
  rewrite (refines_snapshot _ _ slot Href).
  destruct (a_snapshot a slot) as [s|] eqn:Hs; [|by apply performs_ret].
  destruct (a_snapshot_live _ _ _ Hs) as (ar & Hlive & _).
  destruct (_ && p s); [|by apply performs_ret].
  pose proof (complete_slot_performs (E := E) e a slot ar c v Href Hwf Hlive) as Hc.
  destruct (spec_complete_slot slot c v a) as [n a'].
  eapply performs_bind; [exact Hc|]. simpl. intros. by apply performs_ret.
Qed.

Lemma release_if_performs {E} p slot summary e a :
  refines e a -> well_formed a ->
  performs (release_if (E := E) p slot summary e) (spec_release_if p slot (summary, a)).
Proof.
  intros Href Hwf. unfold release_if, spec_release_if. run_with @self_run.
  rewrite (refines_snapshot _ _ slot Href).
  destruct (a_snapshot a slot) as [s|] eqn:Hs; [|by apply performs_ret].
  destruct (a_snapshot_live _ _ _ Hs) as (ar & Hlive & _).
  destruct (_ && p s); [|by apply performs_ret].
  pose proof (release_slot_performs (E := E) e a slot ar Href Hwf Hlive) as Hc.
  destruct (spec_release_slot slot a) as [n a'].
  eapply performs_bind; [exact Hc|]. simpl. intros. by apply performs_ret.
Qed.

Lemma fold_slots_performs {E} (body : nat -> CompletionSummary -> M Env E CompletionSummary)
    (sbody : nat -> CompletionSummary * abstract_broker -> CompletionSummary * abstract_broker) :
  (forall slot summary e a, refines e a -> well_formed a ->
     performs (body slot summary e) (sbody slot (summary, a))) ->
  forall slots summary e a, refines e a -> well_formed a ->
    performs (fold_slots body slots summary e)
      (fold_left (fun st slot => sbody slot st) slots (summary, a)).
Proof.
  intros Hbody slots. induction slots as [|slot slots IH]; intros summary e a Href Hwf.
  - by apply performs_ret.
  - cbn [fold_slots fold_left]. eapply performs_bind; [by apply Hbody|].
    intros e' Href' Hwf'. destruct (sbody slot (summary, a)) as [s' a']. by apply IH.
Qed.

Lemma complete_where_performs {E} p c v e a :
  refines e a -> well_formed a ->
  performs (complete_where (E := E) p c v e) (spec_complete_where p c v a).
Proof.
  intros Href Hwf. unfold complete_where, spec_complete_where, spec_fold. run_with @self_run.
  rewrite (refines_request_length _ _ Href).
  apply fold_slots_performs; [|done..]. intros. by apply complete_if_performs.
Qed.

Lemma release_where_performs {E} p e a :
  refines e a -> well_formed a ->
  performs (release_where (E := E) p e) (spec_release_where p a).
Proof.
  intros Href Hwf. unfold release_where, spec_release_where, spec_fold. run_with @self_run.
  rewrite (refines_request_length _ _ Href).
  apply fold_slots_performs; [|done..]. intros. by apply release_if_performs.
Qed.

Lemma detach_handler_performs {E} h c e a :
  refines e a -> well_formed a ->
  performs (detach_handler (E := E) h c e) (spec_detach_handler h c a).
Proof.
  intros Href Hwf. unfold detach_handler, spec_detach_handler.
  pose proof (complete_where_performs (E := E) (fun s => bool_decide (snap_handler s = h)) c Visible
    e a Href Hwf) as Hc.
  destruct (spec_complete_where _ c Visible a) as [s1 a1].
  eapply performs_bind; [exact Hc|]. simpl. intros e1 Href1 Hwf1.
  pose proof (release_where_performs (E := E) (fun s => bool_decide (snap_handler s = h))
    e1 a1 Href1 Hwf1) as Hr.
  destruct (spec_release_where _ a1) as [s2 a2].
  eapply performs_bind; [exact Hr|]. simpl. intros. by apply performs_ret.
Qed.

End Delivery.

(** ** Slot choice *)

Lemma choose_slot_from_Ok {A} (gen : A -> Z) vacant l n ex slot g :
  choose_slot_from gen vacant l n ex = Ok (slot, g) ->
  exists i entry, slot = (n + i)%nat /\ l !! i = Some entry /\ vacant entry = true /\
    checked_add_u64 (gen entry) 1 = Some g.
Proof.
  revert n ex. induction l as [|x l IH]; intros n ex; simpl; [by destruct ex|].
  destruct (vacant x) eqn:Hv.
  - destruct (checked_add_u64 (gen x) 1) as [g'|] eqn:Hg.
    + intros [= <- <-]. exists 0%nat, x. rewrite Nat.add_0_r. done.
    + intros (i & y & -> & ?)%IH. exists (S i), y. split; [lia|done].
  - intros (i & y & -> & ?)%IH. exists (S i), y. split; [lia|done].
Qed.

Lemma a_choose_Ok {A} (l : list (Z * option A)) slot g :
  a_choose l = Ok (slot, g) -> exists g0, l !! slot = Some (g0, None) /\ g = g0 + 1 /\ g <= u64_MAX.
Proof.
  intros (i & [g0 o] & -> & Hi & Ho & Hg)%choose_slot_from_Ok. simpl in *.
  destruct o; [done|]. exists g0. split; [done|]. unfold checked_add_u64 in Hg.
  case_match; [|done]. simplify_eq. lia.
Qed.

Lemma position_Some {A} (p : A -> bool) l i :
  position p l = Some i -> exists x, l !! i = Some x /\ p x = true.
Proof.
  revert i. induction l as [|x l IH]; intros i; simpl; [done|].
  destruct (p x) eqn:Hp; [intros [= <-]; eauto|].
  destruct (position p l) as [j|]; [|done]. intros [= <-]. by apply IH.
Qed.

Section Admission.
Context {K H C : Type} `{EqDecision K} `{EqDecision H}.
Local Abbreviation Env := (Env K H C).
Local Abbreviation FaultBroker := (FaultBroker K H C).
Local Abbreviation abstract_broker := (abstract_broker K H C).
Local Abbreviation abstract_request := (abstract_request K H C).
Implicit Types (b : FaultBroker) (e : Env) (a : abstract_broker).

(** ** The invariant *)

Lemma a_live_attach w g slot a i :
  a_live (a_attach w g slot a) i =
    if decide (slot = i) then (fun r => areq_waiters (a_waiters r ++ [w]) r) <$> a_live a i
    else a_live a i.
Proof. apply (a_live_set_live slot _ a i). Qed.

Lemma vacant_waiter_fresh a x w g0 r ar :
  well_formed_but x a -> a_waiter_slots a !! w = Some (g0, None) ->
  a_live a r = Some ar -> w ∉ a_waiters ar.
Proof. intros Hwf Hw Hr Hin. destruct (wf_waiter_slot _ Hwf r ar w Hr Hin). congruence. Qed.

Lemma attach_well_formed a slot ar w g0 g :
  well_formed_but (Some slot) a -> a_live a slot = Some ar ->
  a_waiter_slots a !! w = Some (g0, None) -> 1 <= g <= u64_MAX ->
  well_formed (a_attach w g slot a).
Proof.
  intros Hwf Hslot Hw Hg.
  assert (w < length (a_waiter_slots a))%nat as Hlt by (apply lookup_lt_is_Some; eauto).
  split.
  - intros r ar'. rewrite a_live_attach. case_decide; [subst|].
    + rewrite Hslot. intros [= <-]. simpl. split; [by destruct (a_waiters ar)|].
      apply NoDup_app. split; [by eapply (wf_waiter_list _ Hwf)|].
      split; [|apply NoDup_singleton]. intros y Hy ->%list_elem_of_singleton.
      by eapply vacant_waiter_fresh.
    + intros Hr. destruct (wf_waiter_list _ Hwf r ar' Hr) as [Hne ?].
      split; [intros _; apply Hne; congruence|done].
  - intros r ar' w'. rewrite a_live_attach. simpl. case_decide; [subst|].
    + rewrite Hslot. intros [= <-]. simpl. rewrite elem_of_app, list_elem_of_singleton.
      intros [Hin| ->]; [|rewrite list_lookup_insert_eq by done; eauto].
      assert (w <> w') by (intros ->; by eapply vacant_waiter_fresh).
      rewrite list_lookup_insert_ne by done. by eapply (wf_waiter_slot _ Hwf).
    + intros Hr Hin. assert (w <> w') by (intros ->; by eapply vacant_waiter_fresh).
      rewrite list_lookup_insert_ne by done. by eapply (wf_waiter_slot _ Hwf).
  - intros w' g' r. rewrite a_live_attach. simpl. destruct (decide (w = w')) as [->|Hne].
    + rewrite list_lookup_insert_eq by done. intros [= <- <-]. rewrite decide_True, Hslot by done.
      eexists. split; [done|]. simpl. set_solver.
    + rewrite list_lookup_insert_ne by done. intros Hw'.
      destruct (wf_waiter_live _ Hwf w' g' r Hw') as (ar' & Hr & Hin).
      case_decide; [subst|by eauto]. rewrite Hr. eexists. split; [done|]. simpl. set_solver.
  - apply (wf_pending_nodup _ Hwf).
  - intros r. rewrite a_live_attach. simpl. rewrite (wf_pending _ Hwf r).
    case_decide; [subst|done]. rewrite Hslot. simpl. split; intros (? & [= <-] & ?); eauto.
  - intros r g' o. simpl. rewrite list_lookup_alter. case_decide; [subst|by apply (wf_generation _ Hwf)].
    destruct (a_requests a !! r) as [[g1 o1]|] eqn:Hr; [|done]. intros [= <- <-].
    destruct (wf_generation _ Hwf r g1 o1 Hr) as [? Hg']. split; [done|]. intros Ho. apply Hg'.
    by destruct o1.
  - intros w' g' o. simpl. destruct (decide (w = w')) as [->|Hne].
    + rewrite list_lookup_insert_eq by done. intros [= <- <-]. split; [lia|]. intros _. lia.
    + rewrite list_lookup_insert_ne by done. apply (wf_waiter_generation _ Hwf).
  - destruct (wf_sizes _ Hwf). simpl. unfold zlen in *. rewrite length_alter, length_insert. done.
  - intros i Hi. destruct (wf_credits _ Hwf i Hi) as (p & Hp & Hc). exists p. split; [done|].
    change (a_live_count (a_attach w g slot a)) with
      (a_live_count (set_live slot (fun r => areq_waiters (a_waiters r ++ [w]) r) a)).
    by rewrite a_live_count_set_live.
Qed.

Lemma well_formed_weaken a x : well_formed a -> well_formed_but x a.
Proof.
  intros Hwf. split; try apply Hwf. intros r ar Hr.
  destruct (wf_waiter_list _ Hwf r ar Hr) as [Hne ?]. split; [intros _; by apply Hne|done].
Qed.

(** One more credit than live requests is held. *)
Definition credit_reserved (a : abstract_broker) : Prop :=
  forall i, a_credit_pool a = Some i ->
    exists p, a_pools a !! i = Some p /\ a_live_count a + 1 <= live_requests p <= capacity p /\
      capacity p < usize_MAX.

Lemma insert_request_well_formed a slot g0 g k h :
  well_formed a -> credit_reserved a -> a_requests a !! slot = Some (g0, None) ->
  1 <= g <= u64_MAX ->
  well_formed_but (Some slot) (a_insert_request slot g (mkAreq k h Pending []) a).
Proof.
  intros Hwf Hcr Hslot Hg.
  assert (slot < length (a_requests a))%nat as Hlt by (apply lookup_lt_is_Some; eauto).
  assert (a_live a slot = None) as Hdead by (unfold a_live; by rewrite Hslot).
  assert (forall r, a_live (a_insert_request slot g (mkAreq k h Pending []) a) r =
    if decide (slot = r) then Some (mkAreq k h Pending []) else a_live a r) as Hlive.
  { intros r. unfold a_live. simpl. case_decide; [subst; by rewrite list_lookup_insert_eq|].
    by rewrite list_lookup_insert_ne. }
  split.
  - intros r ar. rewrite Hlive. case_decide; [intros [= <-]; split; [congruence|apply NoDup_nil_2]|].
    intros Hr. destruct (wf_waiter_list _ Hwf r ar Hr) as [Hne ?].
    split; [intros _; by apply Hne|done].
  - intros r ar w. rewrite Hlive. case_decide; [by intros [= <-] ?%elem_of_nil|].
    apply (wf_waiter_slot _ Hwf).
  - intros w g' r Hw. destruct (wf_waiter_live _ Hwf w g' r Hw) as (ar & Hr & Hin).
    exists ar. rewrite Hlive. case_decide; [congruence|done].
  - simpl. apply NoDup_app. split; [apply (wf_pending_nodup _ Hwf)|]. split; [|apply NoDup_singleton].
    intros y Hy ->%list_elem_of_singleton. apply (wf_pending _ Hwf) in Hy as (? & ? & _). congruence.
  - intros r. rewrite Hlive. simpl. rewrite elem_of_app, list_elem_of_singleton, (wf_pending _ Hwf r).
    case_decide; [subst; naive_solver|naive_solver].
  - intros r g' o. simpl. destruct (decide (slot = r)) as [->|].
    + rewrite list_lookup_insert_eq by done. intros [= <- <-]. split; [lia|]. intros _. lia.
    + rewrite list_lookup_insert_ne by done. apply (wf_generation _ Hwf).
  - apply (wf_waiter_generation _ Hwf).
  - destruct (wf_sizes _ Hwf). simpl. unfold zlen in *. by rewrite length_insert.
  - intros i Hi. destruct (Hcr i Hi) as (p & Hp & Hc). exists p. split; [done|].
    unfold a_live_count in *. simpl. erewrite count_insert by done. unfold weight. simpl. lia.
Qed.

Lemma with_pools_well_formed a ps :
  well_formed a -> credits_covered (with_pools ps a) -> well_formed (with_pools ps a).
Proof. intros Hwf Hc. split; try apply Hwf. done. Qed.

Lemma acquire_credit_spec a :
  well_formed a ->
  match a_acquire a with
  | (true, a1) => exists ps, a1 = with_pools ps a /\ credit_reserved a1 /\ well_formed a1
  | (false, a1) => a1 = a
  end.
Proof.
  intros Hwf. unfold a_acquire. destruct (a_credit_pool a) as [i|] eqn:Hi.
  - destruct (wf_credits _ Hwf i Hi) as (p & Hp & Hc & Hcap). rewrite Hp.
    unfold RequestCreditPool.try_acquire, RequestCreditPool.with_word, try_update.
    destruct (Z.leb_spec (capacity p) (live_requests p)) as [Hfull|Hroom]; simpl.
    + destruct a as [id rs ws pe cp pls]. unfold with_pools. simpl in *. f_equal.
      destruct p. by apply list_insert_id.
    + unfold checked_add_usize. rewrite (proj2 (Z.leb_le _ _)) by lia. simpl.
      assert (credit_reserved (with_pools
        (<[i:=mkPool (capacity p) (live_requests p + 1)]> (a_pools a)) a)) as Hres.
      { intros j Hj. simpl in Hj. simplify_eq. eexists. simpl.
        rewrite list_lookup_insert_eq by (apply lookup_lt_is_Some; eauto). split; [done|]. simpl.
        unfold a_live_count in *. simpl. lia. }
      eexists. split; [done|]. split; [done|]. apply with_pools_well_formed; [done|].
      intros j Hj. destruct (Hres j Hj) as (q & Hq & Hrest). exists q. split; [done|]. lia.
  - exists (a_pools a). destruct a as [id rs ws pe cp pls]. unfold with_pools. simpl in *.
    split; [done|]. split; [|done]. intros i. simpl. congruence.
Qed.

End Admission.

Section Admit.
Context {K H C : Type} `{EqDecision K} `{EqDecision H}.
Local Abbreviation Env := (Env K H C).
Local Abbreviation FaultBroker := (FaultBroker K H C).
Local Abbreviation abstract_broker := (abstract_broker K H C).
Local Abbreviation abstract_request := (abstract_request K H C).
Implicit Types (b : FaultBroker) (e : Env) (a : abstract_broker).

(** ** A new request at the tail of the queue *)

Definition fresh_slot (h : H) (k : K) (gen : Z) (tail : option nat) : RequestSlot K H C :=
  mkRequestSlot gen (Some (mkRequestRecord k h Pending None None 0 tail None)).

Definition enqueue (slot : nat) (s : RequestSlot K H C) (b : FaultBroker) : FaultBroker :=
  set_pending_tail (Some slot)
    match pending_tail b with
    | Some t => map_request t (rec_set_pending_next (Some slot)) (put_request slot s b)
    | None => set_pending_head (Some slot) (put_request slot s b)
    end.

Lemma core_at_enqueue slot s b i :
  is_Some (requests b !! slot) ->
  core_at (enqueue slot s b) i =
    if decide (slot = i) then Some (generation s, core_of <$> record s) else core_at b i.
Proof.
  intros Hs. unfold enqueue. destruct (pending_tail b) as [t|].
  - etrans; [by apply (core_at_map_links t (rec_set_pending_next (Some slot)))|].
    by apply core_at_put_request.
  - by apply (core_at_put_request slot s b i).
Qed.

Lemma plinks_enqueue slot s b i :
  is_Some (requests b !! slot) ->
  plinks (enqueue slot s b) i =
    (fun pn => (pn.1, if decide (pending_tail b = Some i) then Some slot else pn.2)) <$>
      (if decide (slot = i) then links_of <$> record s else plinks b i).
Proof.
  intros Hs. rewrite <- (plinks_put_request slot s b i Hs). unfold enqueue.
  destruct (pending_tail b) as [t|].
  - etrans; [apply (plinks_set_next t (Some slot) (put_request slot s b) i)|].
    destruct (plinks _ i) as [[]|]; repeat case_decide; simplify_eq/=; done.
  - transitivity (plinks (put_request slot s b) i); [done|]. by destruct (plinks _ i) as [[]|].
Qed.

Lemma enqueue_frame slot s b :
  waiters (enqueue slot s b) = waiters b /\ same_identity b (enqueue slot s b) /\
  pending_head (enqueue slot s b) =
    (if pending_tail b then pending_head b else Some slot) /\
  pending_tail (enqueue slot s b) = Some slot.
Proof. unfold enqueue, same_identity. by destruct (pending_tail b). Qed.

Lemma refines_insert_request e a slot g0 g h k :
  refines e a -> well_formed a -> a_requests a !! slot = Some (g0, None) ->
  refines (on_broker (enqueue slot (fresh_slot h k g (pending_tail (broker e)))) e)
    (a_insert_request slot g (mkAreq k h Pending []) a).
Proof.
  intros Href Hwf Hslot.
  set (s := fresh_slot h k g (pending_tail (broker e))).
  destruct (refines_vacant _ _ _ _ Href Hslot) as (s0 & Hs0 & _).
  assert (is_Some (requests (broker e) !! slot)) as Hsome by eauto.
  destruct (enqueue_frame slot s (broker e)) as (Hw & [Hid Hcp] & Hph & Hpt).
  assert (slot < length (a_requests a))%nat as Hlt by (apply lookup_lt_is_Some; eauto).
  assert (slot ∉ a_pending a) as Hnew.
  { intros (ar & Hr & _)%(wf_pending _ Hwf). unfold a_live in Hr. by rewrite Hslot in Hr. }
  split; cbn [broker on_broker]; [by rewrite Hid, (ref_id _ _ Href)
    |by rewrite Hcp, (ref_pool _ _ Href)|by apply (ref_pools _ _ Href)|..].
  - intros i. rewrite core_at_enqueue by done.
    assert (forall x, wlinks (enqueue slot s (broker e)) x = wlinks (broker e) x) as Hwl
      by (intros x; unfold wlinks; by rewrite Hw).
    pose proof (ref_request _ _ Href i) as Hrel. simpl. case_decide; [subst|].
    + rewrite list_lookup_insert_eq by done. simpl. split; [done|]. repeat split.
    + rewrite list_lookup_insert_ne by done.
      destruct (core_at (broker e) i) as [[gc [c|]]|], (a_requests a !! i) as [[g' [ar'|]]|];
        simpl in *; try done.
      destruct Hrel as (-> & ? & ? & ? & ? & Hd). split; [done|]. repeat split; try done.
      eapply dseg_frame; [|exact Hd]. auto.
  - intros w. pose proof (ref_waiter _ _ Href w) as Hrel. unfold wcore_at in *. rewrite Hw.
    simpl. unfold waiter_rel in *.
    destruct (_ <$> waiters (broker e) !! w) as [[wg [[t st]|]]|],
      (a_waiter_slots a !! w) as [[wg' [r|]]|]; try done.
    destruct Hrel as (-> & gr & ar & Hr & -> & ->). split; [done|]. exists gr, ar. simpl.
    rewrite list_lookup_insert_ne by congruence. done.
  - rewrite Hph, Hpt. simpl. pose proof (ref_queue _ _ Href) as Hq.
    eapply dll_push_back; [apply (wf_pending_nodup _ Hwf)|exact Hq|done|..].
    + rewrite plinks_enqueue, decide_True by done. simpl. unfold links_of. simpl.
      rewrite decide_False; [done|]. intros Hpt'. apply Hnew, last_Some_elem_of.
      by rewrite <- (dll_tail _ _ _ _ Hq).
    + intros y Hy. rewrite plinks_enqueue, decide_False by (done || congruence). done.
Qed.

Lemma publish_request_run e a h k slot g0 g :
  refines e a -> well_formed a -> a_requests a !! slot = Some (g0, None) ->
  publish_request h k slot g e =
    Done tt (on_broker (enqueue slot (fresh_slot h k g (pending_tail (broker e)))) e).
Proof.
  intros Href Hwf Hslot. destruct (refines_vacant _ _ _ _ Href Hslot) as (s0 & Hs0 & _).
  unfold publish_request. run_with @self_run. run_with @write_request_run.
  fold (fresh_slot h k g (pending_tail (broker e))).
  set (s := fresh_slot h k g (pending_tail (broker e))).
  unfold enqueue, on_broker. destruct (pending_tail (broker e)) as [t|] eqn:Ht.
  - pose proof (ref_queue _ _ Href) as Hq. rewrite Ht in Hq.
    assert (is_Some (plinks (broker e) t)) as [pn Hpn].
    { eapply dseg_node; [exact Hq|]. apply last_Some_elem_of. by rewrite <- (dll_tail _ _ _ _ Hq). }
    pose proof (plinks_put_request slot s (broker e) t ltac:(eauto)) as Hpl.
    assert (exists s1 r1, requests (put_request slot s (broker e)) !! t = Some s1 /\
      record s1 = Some r1) as (s1 & r1 & Hs1 & Hr1).
    { destruct (decide (slot = t)); [|rewrite Hpn in Hpl];
        apply plinks_Some in Hpl as (s1 & r1 & ? & ? & _); eauto. }
    erewrite bind_done by (eapply expect_request_run; [exact Hs1|exact Hr1]). done.
  - run_with @update_broker_run. done.
Qed.

(** The tail checks of a new request pass. *)
Lemma check_pending_tail_run e a :
  refines e a -> well_formed a -> check_pending_tail e = Done tt e.
Proof.
  intros Href Hwf. unfold check_pending_tail. run_with @self_run.
  pose proof (ref_queue _ _ Href) as Hq.
  pose proof (dll_head _ _ _ _ Hq) as Hh. pose proof (dll_tail _ _ _ _ Hq) as Ht.
  destruct (decide (a_pending a = [])) as [Hnil|Hne].
  { rewrite Hnil in *. rewrite Hh, Ht. done. }
  destruct (exists_last Hne) as (l & t & Hl). rewrite Hl in Hq.
  assert (is_Some (pending_head (broker e))) as [x Hx] by (rewrite Hh; destruct (a_pending a); [done|simpl; eauto]).
  rewrite Ht, Hl, last_snoc, Hx. simpl.
  assert (t ∈ a_pending a) as (ar & Hlive & Hp)%(wf_pending _ Hwf) by (rewrite Hl; set_solver).
  destruct (proj1 (a_live_Some _ _ _) Hlive) as [g Hslot].
  destruct (refines_live _ _ _ _ _ Href Hslot) as (s & r & Hs & Hr & _ & (_ & _ & Hst & _)).
  pose proof (dll_links _ _ _ _ _ _ Hq) as Hlk.
  destruct (plinks_Some _ _ _ Hlk) as (s' & r' & Hs' & Hr' & [= _ Hn]). simplify_eq.
  rewrite Hs. simpl. rewrite Hr. simpl in *. rewrite (bind_done _ _ e r e) by done.
  rewrite Hst, Hp, Hn. done.
Qed.

(** ** The waiter at the tail of its request's list *)

Definition attach_waiter (slot w : nat) (s : WaiterSlot C) (previous : option nat) (n : Z)
    (b : FaultBroker) : FaultBroker :=
  map_request slot (fun r =>
      rec_set_waiters (if is_none (waiter_head r) then Some w else waiter_head r) (Some w) n r)
    match previous with
    | Some p => map_waiter p (wrec_set_next (Some w)) (put_waiter w s b)
    | None => put_waiter w s b
    end.

Definition core_attach (w : nat) (n : Z) (c : request_core K H C) : request_core K H C :=
  mkCore (core_key c) (core_handler c) (core_state c)
    (if is_none (core_head c) then Some w else core_head c) (Some w) n.

Lemma core_at_attach slot w s p n b i :
  core_at (attach_waiter slot w s p n b) i =
    if decide (slot = i) then on_content (core_attach w n) <$> core_at b i else core_at b i.
Proof.
  unfold attach_waiter. rewrite (core_at_map_request slot _ (core_attach w n)) by done.
  by destruct p.
Qed.

Lemma plinks_attach slot w s p n b i :
  plinks (attach_waiter slot w s p n b) i = plinks b i.
Proof. unfold attach_waiter. rewrite plinks_map_core by done. by destruct p. Qed.

Lemma wcore_at_attach slot w s p n b i :
  is_Some (waiters b !! w) ->
  wcore_at (attach_waiter slot w s p n b) i =
    if decide (w = i) then Some (wgeneration s, wcore_of <$> wrecord s) else wcore_at b i.
Proof.
  intros Hw. rewrite <- (wcore_at_put_waiter w s b i Hw).
  destruct p as [p|]; [|done]. by apply (wcore_at_map_links p (wrec_set_next (Some w))).
Qed.

Lemma wlinks_attach slot w s p n b i :
  is_Some (waiters b !! w) ->
  wlinks (attach_waiter slot w s p n b) i =
    (fun pn => (pn.1, if decide (p = Some i) then Some w else pn.2)) <$>
      (if decide (w = i) then wlinks_of <$> wrecord s else wlinks b i).
Proof.
  intros Hw. rewrite <- (wlinks_put_waiter w s b i Hw).
  destruct p as [p|].
  - etrans; [by apply (wlinks_map_waiter p (wrec_set_next (Some w)) (fun pn => (pn.1, Some w)))|].
    destruct (wlinks _ i) as [[]|]; repeat case_decide; simplify_eq/=; done.
  - transitivity (wlinks (put_waiter w s b) i); [done|]. by destruct (wlinks _ i) as [[]|].
Qed.

Lemma attach_frame slot w s p n b :
  same_identity b (attach_waiter slot w s p n b) /\
  pending_head (attach_waiter slot w s p n b) = pending_head b /\
  pending_tail (attach_waiter slot w s p n b) = pending_tail b.
Proof. unfold attach_waiter, same_identity. by destruct p. Qed.

(** The slot a new waiter of the request at [slot] is stored in. *)
Definition waiter_entry (a : abstract_broker) (slot : nat) (g wg : Z) (previous : option nat)
    : WaiterSlot C :=
  mkWaiterSlot wg (Some (mkWaiterRecord (mkRequestToken (a_id a) slot g) Active previous None)).

(** A request slot and a waiter slot after the attachment. *)
Lemma attach_request_rel e a x slot g ar w g0 wg i :
  refines e a -> well_formed_but x a -> a_requests a !! slot = Some (g, Some ar) ->
  a_waiter_slots a !! w = Some (g0, None) ->
  let p := last (a_waiters ar) in
  let b := attach_waiter slot w (waiter_entry a slot g wg p) p (zlen (a_waiters ar) + 1) (broker e) in
  slot_rel (wlinks b) (core_at b i) (a_requests (a_attach w wg slot a) !! i).
Proof.
  intros Href Hwf Hslot Hw p. cbv zeta.
  assert (is_Some (waiters (broker e) !! w)) as Hsome by (eapply refines_waiter_slot; eauto).
  assert (a_live a slot = Some ar) as Hlive by (apply a_live_Some; eauto).
  pose proof (fun r ar' => vacant_waiter_fresh a x w g0 r ar' Hwf Hw) as Hfresh.
  rewrite core_at_attach. pose proof (ref_request _ _ Href i) as Hrel. simpl.
  rewrite list_lookup_alter. destruct (decide (slot = i)) as [<-|Hne].
  - rewrite Hslot in *. destruct (core_at (broker e) slot) as [[gc [c|]]|]; simpl in *; try done.
    destruct Hrel as (-> & Hk & Hh & Hs & Hc & Hd). split; [done|].
    pose proof (dll_tail _ _ _ _ Hd) as Htail. pose proof (dll_head _ _ _ _ Hd) as Hhead.
    assert ((if is_none (core_head c) then Some w else core_head c) =
            (if core_tail c then core_head c else Some w)) as Hends.
    { rewrite Htail, Hhead. destruct (a_waiters ar) as [|y l] eqn:Hl; [done|].
      rewrite last_cons. simpl. by destruct (last l). }
    repeat split; simpl; try done.
    { unfold zlen. rewrite length_app. simpl. lia. }
    rewrite Hends. eapply dll_push_back; [by eapply (wf_waiter_list _ Hwf)|exact Hd|by eauto|..].
    * rewrite wlinks_attach, decide_True by done. simpl. unfold wlinks_of. simpl.
      rewrite decide_False; [by rewrite Htail|]. intros Hp%last_Some_elem_of. by eapply Hfresh.
    * intros y Hy. rewrite wlinks_attach, decide_False by (done || (intros ->; by eapply Hfresh)).
      by rewrite Htail.
  - destruct (core_at (broker e) i) as [[gc [c|]]|], (a_requests a !! i) as [[g' [ar'|]]|] eqn:Hi;
      simpl in *; try done.
    destruct Hrel as (-> & ? & ? & ? & ? & Hd). split; [done|]. repeat split; try done.
    assert (a_live a i = Some ar') as Hlive' by (apply a_live_Some; eauto).
    eapply dseg_frame; [|exact Hd]. intros y Hy.
    rewrite wlinks_attach, decide_False by (done || (intros ->; by eapply Hfresh)).
    destruct (wlinks (broker e) y) as [[]|]; [|done]. simpl. rewrite decide_False; [done|].
    intros Hp%last_Some_elem_of. apply Hne. by eapply waiters_disjoint.
Qed.

Lemma attach_waiter_rel e a slot g ar w g0 wg w' :
  refines e a -> a_requests a !! slot = Some (g, Some ar) -> is_visible (a_state ar) = false ->
  a_waiter_slots a !! w = Some (g0, None) ->
  let p := last (a_waiters ar) in
  let b := attach_waiter slot w (waiter_entry a slot g wg p) p (zlen (a_waiters ar) + 1) (broker e) in
  waiter_rel (a_attach w wg slot a) (wcore_at b w') (a_waiter_slots (a_attach w wg slot a) !! w').
Proof.
  intros Href Hslot Hvis Hw p. cbv zeta.
  assert (is_Some (waiters (broker e) !! w)) as Hsome by (eapply refines_waiter_slot; eauto).
  assert (w < length (a_waiter_slots a))%nat as Hlt by (apply lookup_lt_is_Some; eauto).
  rewrite wcore_at_attach by done. pose proof (ref_waiter _ _ Href w') as Hrel. simpl.
  assert (forall r gr ar0, a_requests a !! r = Some (gr, Some ar0) -> exists ar1,
    a_requests (a_attach w wg slot a) !! r = Some (gr, Some ar1) /\ a_state ar1 = a_state ar0)
    as Hkeep.
  { intros r gr ar0 Hr. simpl. rewrite list_lookup_alter. case_decide; [subst|by eauto].
    rewrite Hr. simpl. by eexists. }
  case_decide; [subst|].
  - rewrite list_lookup_insert_eq by done. simpl. split; [done|].
    destruct (Hkeep slot g ar Hslot) as (ar1 & Hr1 & Hst). exists g, ar1. split; [done|].
    split; [done|]. rewrite Hst. by destruct (a_state ar).
  - rewrite list_lookup_insert_ne by done. unfold waiter_rel in *.
    destruct (wcore_at (broker e) w') as [[wg1 [[t st]|]]|],
      (a_waiter_slots a !! w') as [[wg' [r|]]|]; try done.
    destruct Hrel as (-> & gr & ar0 & Hr & -> & ->). split; [done|].
    destruct (Hkeep r gr ar0 Hr) as (ar1 & Hr1 & Hst). exists gr, ar1. by rewrite Hst.
Qed.

Lemma refines_attach e a x slot g ar w g0 wg :
  refines e a -> well_formed_but x a -> a_requests a !! slot = Some (g, Some ar) ->
  is_visible (a_state ar) = false -> a_waiter_slots a !! w = Some (g0, None) ->
  let p := last (a_waiters ar) in
  refines (on_broker (attach_waiter slot w (waiter_entry a slot g wg p) p
      (zlen (a_waiters ar) + 1)) e) (a_attach w wg slot a).
Proof.
  intros Href Hwf Hslot Hvis Hw p.
  set (s := waiter_entry a slot g wg p). set (n := zlen (a_waiters ar) + 1).
  destruct (attach_frame slot w s p n (broker e)) as ([Hid Hcp] & Hph & Hpt).
  split; cbn [broker on_broker]; [by rewrite Hid, (ref_id _ _ Href)
    |by rewrite Hcp, (ref_pool _ _ Href)|by apply (ref_pools _ _ Href)|..].
  - intros i. by eapply attach_request_rel.
  - intros w'. by eapply attach_waiter_rel.
  - rewrite Hph, Hpt. eapply dseg_frame; [|exact (ref_queue _ _ Href)].
    intros y _. apply plinks_attach.
Qed.

Lemma publish_waiter_run e a x slot g ar w g0 wg :
  refines e a -> well_formed_but x a -> a_requests a !! slot = Some (g, Some ar) ->
  a_waiter_slots a !! w = Some (g0, None) ->
  let p := last (a_waiters ar) in
  publish_waiter (mkRequestToken (a_id a) slot g) w wg p (zlen (a_waiters ar) + 1) e =
    Done tt (on_broker (attach_waiter slot w (waiter_entry a slot g wg p) p
      (zlen (a_waiters ar) + 1)) e).
Proof.
  intros Href Hwf Hslot Hw. cbv zeta.
  assert (is_Some (waiters (broker e) !! w)) as Hsome by (eapply refines_waiter_slot; eauto).
  destruct (refines_live _ _ _ _ _ Href Hslot) as (s & r & Hs & Hr & _ & (_ & _ & _ & _ & Hd)).
  assert (a_live a slot = Some ar) as Hlive by (apply a_live_Some; eauto).
  unfold publish_waiter. run_with @write_waiter_run.
  change (mkWaiterSlot wg _) with (waiter_entry a slot g wg (last (a_waiters ar))).
  unfold attach_waiter, on_broker. destruct (last (a_waiters ar)) as [p|] eqn:Hp.
  - assert (w <> p) as Hne.
    { intros ->. apply last_Some_elem_of in Hp. by eapply (vacant_waiter_fresh a x p). }
    assert (is_Some (wlinks (broker e) p)) as [pn Hpn]
      by (eapply dseg_node; [exact Hd|by apply last_Some_elem_of]).
    pose proof (wlinks_put_waiter w (waiter_entry a slot g wg (Some p)) (broker e) p Hsome) as Hpl.
    rewrite decide_False, Hpn in Hpl by done.
    apply wlinks_Some in Hpl as (s1 & r1 & Hs1 & Hr1 & _).
    erewrite bind_done by (eapply expect_waiter_run; [exact Hs1|exact Hr1]).
    etrans; [by eapply expect_request_run|done].
  - rewrite (bind_done (mret tt) _ _ tt _ eq_refl). etrans; [by eapply expect_request_run|done].
Qed.

(** The tail checks of a coalescing admission pass. *)
Lemma check_waiter_tail_run e a slot g ar :
  refines e a -> well_formed a -> a_requests a !! slot = Some (g, Some ar) ->
  check_waiter_tail slot (mkRequestToken (a_id a) slot g) e = Done (last (a_waiters ar)) e.
Proof.
  intros Href Hwf Hslot.
  destruct (refines_live _ _ _ _ _ Href Hslot) as (s & r & Hs & Hr & _ & (_ & _ & _ & Hc & Hd)).
  assert (a_live a slot = Some ar) as Hlive by (apply a_live_Some; eauto).
  destruct (wf_waiter_list _ Hwf slot ar Hlive) as [Hne _]. specialize (Hne ltac:(discriminate)).
  simpl in Hc, Hd. pose proof (dll_head _ _ _ _ Hd) as Hh. pose proof (dll_tail _ _ _ _ Hd) as Ht.
  unfold check_waiter_tail. run_with @read_request_run. rewrite Hr.
  rewrite (bind_done (some_or (Some r) _) _ e r e) by done.
  destruct (exists_last Hne) as (l & t & Hl). rewrite Hl in Hd, Ht |- *.
  rewrite last_snoc in Ht |- *.
  assert (is_Some (waiter_head r)) as [x Hx] by (rewrite Hh; destruct (a_waiters ar); [done|simpl; eauto]).
  rewrite Hc, Hx, Ht. rewrite (proj2 (Z.eqb_neq _ _)); cycle 1.
  { unfold zlen. rewrite Hl, length_app. simpl. lia. }
  simpl. run_with @self_run.
  pose proof (dll_links _ _ _ _ _ _ Hd) as Hlk.
  destruct (wlinks_Some _ _ _ Hlk) as (ws & wr & Hws & Hwr & [= _ Hn]).
  destruct (refines_waiter_core e a slot g ar t Href Hwf Hslot) as [wg Hwc]; [rewrite Hl; set_solver|].
  unfold wcore_at in Hwc. rewrite Hws in Hwc |- *. simpl in Hwc |- *. rewrite Hwr in Hwc |- *.
  injection Hwc as _ Hreq _. rewrite (bind_done (some_or (Some wr) _) _ e wr e) by done.
  rewrite Hreq, Hn, bool_decide_true by done. done.
Qed.

(** Attaching to a request leaves room for one more waiter. *)
Lemma waiter_count_bound a x slot ar w g0 :
  well_formed_but x a -> a_live a slot = Some ar -> a_waiter_slots a !! w = Some (g0, None) ->
  zlen (a_waiters ar) + 1 <= zlen (a_waiter_slots a).
Proof.
  intros Hwf Hlive Hw. unfold zlen.
  assert (length (w :: a_waiters ar) <= length (a_waiter_slots a))%nat; [|simpl in *; lia].
  apply NoDup_bounded_length.
  - apply NoDup_cons. split; [by eapply vacant_waiter_fresh|by eapply (wf_waiter_list _ Hwf)].
  - intros y [->|Hy]%elem_of_cons; apply lookup_lt_is_Some; [eauto|].
    destruct (wf_waiter_slot _ Hwf slot ar y Hlive Hy). eauto.
Qed.

Lemma with_pools_refines e a ps : refines e a -> refines (mkEnv ps (broker e)) (with_pools ps a).
Proof. intros Href. split; try apply Href. done. Qed.

(** [PendingRequestCredit::reserve] takes the credit the specification takes. *)
Lemma credit_reserve_run e a :
  refines e a -> well_formed a ->
  exists e1, refines e1 (a_acquire a).2 /\ broker e1 = broker e /\
    credit_reserve (credit_pool (broker e)) e =
      (if (a_acquire a).1 then Done tt e1 else Fail RequestCreditCapacity e1).
Proof.
  intros Href Hwf. unfold credit_reserve, a_acquire. rewrite (ref_pool _ _ Href).
  destruct (a_credit_pool a) as [i|] eqn:Hi; [|by exists e].
  destruct (wf_credits _ Hwf i Hi) as (p & Hp & _). unfold pool_try_acquire, gets, expect.
  unfold mbind, M_bind. rewrite (ref_pools _ _ Href), Hp. cbv beta iota delta [mret M_ret].
  destruct (RequestCreditPool.try_acquire p) as [ok p'].
  exists (mkEnv (<[i:=p']> (a_pools a)) (broker e)).
  split; [by apply with_pools_refines|]. split; [done|].
  unfold modify. rewrite (ref_pools _ _ Href). by destruct ok.
Qed.

(** The last step of both admissions. *)
Lemma admit_attach e a x slot g ar w g0 wg co :
  refines e a -> well_formed_but x a -> (x = None \/ x = Some slot) ->
  a_requests a !! slot = Some (g, Some ar) -> is_visible (a_state ar) = false ->
  a_waiter_slots a !! w = Some (g0, None) -> 1 <= wg <= u64_MAX ->
  let token := mkRequestToken (a_id a) slot g in
  simulates
    ((publish_waiter token w wg (last (a_waiters ar)) (zlen (a_waiters ar) + 1) ;;
      mret (mkAdmission token (mkWaiterToken (a_id a) w wg) co)) e)
    (Ok (mkAdmission token (mkWaiterToken (a_id a) w wg) co), a_attach w wg slot a).
Proof.
  intros Href Hwf Hx Hslot Hvis Hw Hwg token.
  erewrite bind_done by (by eapply publish_waiter_run). eexists. split; [done|].
  split; [by eapply refines_attach|]. eapply attach_well_formed; [|apply a_live_Some|..]; eauto.
  destruct Hx as [->| ->]; [by apply well_formed_weaken|done].
Qed.

(** An admission that joins an open request. *)
Lemma admit_joins h k e a slot :
  refines e a -> well_formed a -> position (a_matches h k) (a_requests a) = Some slot ->
  simulates (broker_admit h k e) (spec_admit h k a).
Proof.
  intros Href Hwf Hpos. unfold broker_admit, spec_admit. run_with @self_run.
  rewrite (refines_position _ _ h k Href), (refines_choose_request _ _ Href),
    (refines_choose_waiter _ _ Href), Hpos.
  apply position_Some in Hpos as ([g [ar|]] & Hslot & Hm); [|done].
  assert (is_visible (a_state ar) = false) as Hvis.
  { unfold a_matches in Hm. simpl in Hm. apply andb_prop in Hm as [_ Hm]. by destruct (is_visible _). }
  assert (a_live a slot = Some ar) as Hlive by (apply a_live_Some; eauto).
  destruct (refines_live _ _ _ _ _ Href Hslot) as (s & r & Hs & Hr & Hg & (_ & _ & _ & Hc & _)).
  erewrite (bind_done _ _ e (slot, g, true) e)
    by (erewrite bind_done by (by apply read_request_run); by rewrite Hg).
  destruct (a_choose (a_waiter_slots a)) as [[w wg]|[]] eqn:Hch; [|by apply simulates_error..].
  simpl map_err. rewrite (bind_done _ _ e (w, wg) e) by done.
  apply a_choose_Ok in Hch as (g0 & Hw & -> & Hmax).
  destruct (wf_waiter_generation _ Hwf w g0 None Hw) as [Hg0 _].
  pose proof (waiter_count_bound a None slot ar w g0 Hwf Hlive Hw) as Hbound.
  destruct (wf_sizes _ Hwf) as [_ Hsize].
  rewrite (bind_done _ _ e (zlen (a_waiters ar) + 1) e); cycle 1.
  { run_with @read_request_run. rewrite Hr. rewrite (bind_done (some_or (Some r) _) _ e r e) by done.
    simpl in Hc. rewrite Hc. unfold checked_add_usize. rewrite (proj2 (Z.leb_le _ _)) by lia. done. }
  unfold zlen at 1. rewrite (refines_waiter_length _ _ Href). fold (zlen (a_waiter_slots a)).
  rewrite (proj2 (Z.ltb_ge _ _)) by lia. rewrite Hslot. simpl from_option.
  rewrite (ref_id _ _ Href).
  rewrite (bind_done _ _ e (last (a_waiters ar)) e) by (by apply check_waiter_tail_run).
  rewrite !(bind_done (mret tt) _ e tt e) by done.
  eapply admit_attach; eauto. lia.
Qed.

(** An admission that opens a request. *)
Lemma admit_opens h k e a :
  refines e a -> well_formed a -> position (a_matches h k) (a_requests a) = None ->
  simulates (broker_admit h k e) (spec_admit h k a).
Proof.
  intros Href Hwf Hpos. unfold broker_admit, spec_admit. run_with @self_run.
  rewrite (refines_position _ _ h k Href), (refines_choose_request _ _ Href),
    (refines_choose_waiter _ _ Href), Hpos.
  destruct (a_choose (a_requests a)) as [[slot g]|[]] eqn:Hchr; [|by apply simulates_error..].
  simpl map_err.
  rewrite (bind_done _ _ e (slot, g, false) e) by done.
  destruct (a_choose (a_waiter_slots a)) as [[w wg]|[]] eqn:Hch; [|by apply simulates_error..].
  simpl map_err. rewrite (bind_done _ _ e (w, wg) e) by done.
  apply a_choose_Ok in Hch as (g0 & Hw & -> & Hmax). apply a_choose_Ok in Hchr as (gr & Hslot & -> & Hrmax).
  destruct (wf_waiter_generation _ Hwf w g0 None Hw) as [Hg0 _].
  destruct (wf_generation _ Hwf slot gr None Hslot) as [Hgr _].
  rewrite (bind_done (mret 1) _ e 1 e) by done.
  unfold zlen at 1. rewrite (refines_waiter_length _ _ Href).
  assert (w < length (a_waiter_slots a))%nat as Hlt by (apply lookup_lt_is_Some; eauto).
  rewrite (proj2 (Z.ltb_ge _ _)) by lia.
  rewrite (bind_done _ _ e None e); cycle 1.
  { by rewrite (bind_done _ _ _ _ _ (check_pending_tail_run e a Href Hwf)). }
  destruct (credit_reserve_run e a Href Hwf) as (e1 & Href1 & Hb & Hrun).
  pose proof (acquire_credit_spec a Hwf) as Hacq.
  destruct (a_acquire a) as [[] a1]; simpl in Hrun, Href1.
  - destruct Hacq as (ps & -> & Hres & Hwf1). rewrite (bind_done _ _ _ _ _ Hrun).
    rewrite (bind_done _ _ e1 tt _) by (by eapply publish_request_run).
    rewrite (ref_id _ _ Href).
    eapply (admit_attach _
      (a_insert_request slot (gr + 1) (mkAreq k h Pending []) (with_pools ps a))
      (Some slot) slot (gr + 1) (mkAreq k h Pending [])); eauto.
    + by eapply refines_insert_request.
    + eapply insert_request_well_formed; eauto. lia.
    + simpl. apply list_lookup_insert_eq, lookup_lt_is_Some. eauto.
    + lia.
  - subst a1. rewrite (bind_fail _ _ _ _ _ Hrun). by apply simulates_error.
Qed.

Lemma admit_simulates_spec h k e a :
  refines e a -> well_formed a -> simulates (broker_admit h k e) (spec_admit h k a).
Proof.
  intros Href Hwf. destruct (position (a_matches h k) (a_requests a)) as [slot|] eqn:Hpos.
  - by eapply admit_joins.
  - by apply admit_opens.
Qed.

End Admit.
