(* ===== verification/FaultRemoval.v ===== *)
(** Fault broker, part 10: removing a waiter, and with the last one its request. *)

From S2P Require Import Prelude Effects Atomics FaultBroker FaultSpec FaultLinks.
From S2P Require Import FaultLinks FaultTransitions FaultAdmission.
From S2P Require Import FaultAdmission.
Local Open Scope Z_scope.

Section Removal.
Context {K H C : Type} `{EqDecision K} `{EqDecision H}.
Local Abbreviation Env := (Env K H C).
Local Abbreviation FaultBroker := (FaultBroker K H C).
Local Abbreviation abstract_broker := (abstract_broker K H C).
Local Abbreviation abstract_request := (abstract_request K H C).
Implicit Types (b : FaultBroker) (e : Env) (a : abstract_broker).

(** ** The invariant *)

Lemma a_live_detach w slot a i :
  a_live (a_detach w slot a) i =
    if decide (slot = i) then (fun r => areq_waiters (without w (a_waiters r)) r) <$> a_live a i
    else a_live a i.
Proof. apply (a_live_set_live slot _ a i). Qed.

Lemma detach_waiter_slots w slot a i :
  a_waiter_slots (a_detach w slot a) !! i =
    if decide (w = i) then (fun s => (s.1, None)) <$> a_waiter_slots a !! i
    else a_waiter_slots a !! i.
Proof. simpl. rewrite list_lookup_alter. case_decide; by subst. Qed.

Lemma detach_well_formed a w wg slot :
  well_formed a -> a_waiter_slots a !! w = Some (wg, Some slot) ->
  well_formed_but (Some slot) (a_detach w slot a).
Proof.
  intros Hwf Hw. destruct (wf_waiter_live _ Hwf w wg slot Hw) as (ar & Hlive & Hin).
  split.
  - intros r ar'. rewrite a_live_detach. case_decide; [subst|].
    + rewrite Hlive. intros [= <-]. split; [congruence|]. simpl. apply NoDup_filter.
      by eapply (wf_waiter_list _ Hwf).
    + intros Hr. destruct (wf_waiter_list _ Hwf r ar' Hr) as [Hne ?].
      split; [intros _; by apply Hne|done].
  - intros r ar' w' Hr Hin'. assert (w <> w' /\ exists ar0, a_live a r = Some ar0 /\ w' ∈ a_waiters ar0)
      as [Hne (ar0 & Hr0 & Hin0)].
    { rewrite a_live_detach in Hr. case_decide; [subst|].
      - rewrite Hlive in Hr. injection Hr as <-. simpl in Hin'. apply elem_of_without in Hin' as [? ?].
        eauto.
      - split; [|by eauto]. intros ->. destruct (wf_waiter_slot _ Hwf r ar' w' Hr Hin'). congruence. }
    rewrite detach_waiter_slots, decide_False by done. by eapply (wf_waiter_slot _ Hwf).
  - intros w' g' r. rewrite detach_waiter_slots, a_live_detach. case_decide; [subst; by rewrite Hw|].
    intros Hw'. destruct (wf_waiter_live _ Hwf w' g' r Hw') as (ar' & Hr & Hin').
    case_decide; [subst|by eauto]. rewrite Hr. eexists. split; [done|]. simpl.
    apply elem_of_without. auto.
  - apply (wf_pending_nodup _ Hwf).
  - intros r. rewrite a_live_detach. simpl. rewrite (wf_pending _ Hwf r).
    case_decide; [subst|done]. rewrite Hlive. simpl. split; intros (? & [= <-] & ?); eauto.
  - intros r g' o. simpl. rewrite list_lookup_alter. case_decide; [subst|by apply (wf_generation _ Hwf)].
    destruct (a_requests a !! r) as [[g1 o1]|] eqn:Hr; [|done]. intros [= <- <-].
    destruct (wf_generation _ Hwf r g1 o1 Hr) as [? Hg']. split; [done|]. intros Ho. apply Hg'.
    by destruct o1.
  - intros w' g' o. rewrite detach_waiter_slots. case_decide; [subst|by apply (wf_waiter_generation _ Hwf)].
    rewrite Hw. intros [= <- <-]. by destruct (wf_waiter_generation _ Hwf w' wg _ Hw).
  - destruct (wf_sizes _ Hwf). simpl. unfold zlen in *. by rewrite !length_alter.
  - intros i Hi. destruct (wf_credits _ Hwf i Hi) as (p & Hp & Hc). exists p. split; [done|].
    change (a_live_count (a_detach w slot a)) with
      (a_live_count (set_live slot (fun r => areq_waiters (without w (a_waiters r)) r) a)).
    by rewrite a_live_count_set_live.
Qed.

Lemma well_formed_complete a slot ar :
  well_formed_but (Some slot) a -> a_live a slot = Some ar -> a_waiters ar <> [] -> well_formed a.
Proof.
  intros Hwf Hlive Hne. split; try apply Hwf. intros r ar' Hr.
  destruct (wf_waiter_list _ Hwf r ar' Hr) as [Hne' ?]. split; [intros _|done].
  destruct (decide (slot = r)) as [->|]; [congruence|apply Hne'; congruence].
Qed.

(** The request slot becomes vacant. *)
Definition a_vacate (slot : nat) (a : abstract_broker) : abstract_broker :=
  with_pending (without slot (a_pending a))
    (with_requests (alter (fun s => (s.1, None)) slot (a_requests a)) a).

Lemma a_live_vacate slot a i :
  a_live (a_vacate slot a) i = if decide (slot = i) then None else a_live a i.
Proof.
  unfold a_live. simpl. rewrite list_lookup_alter. case_decide; [subst|done].
  by destruct (a_requests a !! i).
Qed.

Lemma a_live_count_vacate slot a ar :
  a_live a slot = Some ar -> a_live_count (a_vacate slot a) = a_live_count a - 1.
Proof.
  intros [g Hslot]%a_live_Some. unfold a_live_count. simpl. erewrite count_alter by done.
  unfold weight. simpl. lia.
Qed.

Lemma vacate_well_formed a slot ar :
  well_formed_but (Some slot) a -> a_live a slot = Some ar -> a_waiters ar = [] ->
  well_formed (a_vacate slot a).
Proof.
  intros Hwf Hlive Hnil. split.
  - intros r ar'. rewrite a_live_vacate. case_decide; [done|]. intros Hr.
    destruct (wf_waiter_list _ Hwf r ar' Hr) as [Hne ?]. split; [intros _; apply Hne; congruence|done].
  - intros r ar' w. rewrite a_live_vacate. case_decide; [done|]. apply (wf_waiter_slot _ Hwf).
  - intros w g r Hw. destruct (wf_waiter_live _ Hwf w g r Hw) as (ar' & Hr & Hin).
    exists ar'. rewrite a_live_vacate. case_decide; [|done]. subst. exfalso.
    rewrite Hlive in Hr. simplify_eq. rewrite Hnil in Hin. by apply elem_of_nil in Hin.
  - simpl. apply NoDup_filter, (wf_pending_nodup _ Hwf).
  - intros r. rewrite a_live_vacate. simpl. rewrite elem_of_without, (wf_pending _ Hwf r).
    case_decide; naive_solver.
  - intros r g o. simpl. rewrite list_lookup_alter. case_decide; [subst|by apply (wf_generation _ Hwf)].
    destruct (a_requests a !! r) as [[g1 o1]|] eqn:Hr; [|done]. intros [= <- <-].
    by destruct (wf_generation _ Hwf r g1 o1 Hr).
  - apply (wf_waiter_generation _ Hwf).
  - destruct (wf_sizes _ Hwf). simpl. unfold zlen in *. by rewrite length_alter.
  - intros i Hi. destruct (wf_credits _ Hwf i Hi) as (p & Hp & Hc). exists p. split; [done|].
    rewrite (a_live_count_vacate slot a ar Hlive). lia.
Qed.

(** Returning the credit of a request that has just been vacated. *)
Lemma release_credit_spec a slot ar :
  well_formed_but (Some slot) a -> a_live a slot = Some ar ->
  a_release_credit (a_vacate slot a) = a_reclaim slot a /\
  (forall i, a_credit_pool a = Some i -> exists p, a_pools a !! i = Some p /\
     RequestCreditPool.try_release p 1 = (true, mkPool (capacity p) (live_requests p - 1))) /\
  (well_formed (a_vacate slot a) -> well_formed (a_reclaim slot a)).
Proof.
  intros Hwf Hlive. split; [done|].
  assert (forall i, a_credit_pool a = Some i -> exists p, a_pools a !! i = Some p /\
     RequestCreditPool.try_release p 1 = (true, mkPool (capacity p) (live_requests p - 1))) as Hrel.
  { intros i Hi. destruct (wf_credits _ Hwf i Hi) as (p & Hp & Hc & _). exists p. split; [done|].
    pose proof (a_live_count_vacate slot a ar Hlive) as Hcnt.
    assert (0 <= a_live_count (a_vacate slot a)) by (unfold a_live_count, count, zlen; lia).
    unfold RequestCreditPool.try_release, RequestCreditPool.with_word, try_update, checked_sub_usize.
    simpl. rewrite (proj2 (Z.leb_le _ _)) by lia. done. }
  split; [done|]. intros Hwf'. change (a_reclaim slot a) with (a_release_credit (a_vacate slot a)).
  unfold a_release_credit.
  change (a_credit_pool (a_vacate slot a)) with (a_credit_pool a).
  change (a_pools (a_vacate slot a)) with (a_pools a).
  destruct (a_credit_pool a) as [i|] eqn:Hi; [|done].
  destruct (Hrel i eq_refl) as (p & Hp & Hr). rewrite Hp, Hr. cbn [snd].
  destruct (wf_credits _ Hwf i Hi) as (p' & Hp' & Hc & Hcap). simplify_eq.
  apply (with_pools_well_formed (a_vacate slot a)); [done|]. intros j Hj. simpl in Hj. simplify_eq.
  eexists. simpl. rewrite list_lookup_insert_eq by (apply lookup_lt_is_Some; eauto).
  split; [done|]. simpl. pose proof (a_live_count_vacate slot a ar Hlive) as Hcnt.
  unfold a_live_count in *. simpl in *. lia.
Qed.

(** ** Unlinking the waiter *)

Definition detach_waiter (slot w : nat) (wg : Z) (h t : option nat) (n : Z)
    (p nx : option nat) (b : FaultBroker) : FaultBroker :=
  put_waiter w (mkWaiterSlot wg None)
    (map_request slot (rec_set_waiters h t n) (unlink_waiter p nx b)).

Definition core_detach (h t : option nat) (n : Z) (c : request_core K H C) : request_core K H C :=
  mkCore (core_key c) (core_handler c) (core_state c) h t n.

Lemma core_at_detach slot w wg h t n p nx b i :
  core_at (detach_waiter slot w wg h t n p nx b) i =
    if decide (slot = i) then on_content (core_detach h t n) <$> core_at b i else core_at b i.
Proof.
  unfold detach_waiter. etrans; [by apply (core_at_map_request slot _ (core_detach h t n))|].
  destruct (unlink_waiter_frame p nx b) as (Hr & _). unfold core_at. by rewrite Hr.
Qed.

Lemma plinks_detach slot w wg h t n p nx b i :
  plinks (detach_waiter slot w wg h t n p nx b) i = plinks b i.
Proof.
  unfold detach_waiter. etrans; [by apply (plinks_map_core slot (rec_set_waiters h t n))|].
  destruct (unlink_waiter_frame p nx b) as (Hr & _). unfold plinks. by rewrite Hr.
Qed.

Lemma unlink_waiter_is_Some p nx b w :
  is_Some (waiters b !! w) -> is_Some (waiters (unlink_waiter p nx b) !! w).
Proof.
  intros Hw. unfold unlink_waiter. destruct nx, p; eauto with fault.
Qed.

Lemma wcore_at_detach slot w wg h t n p nx b i :
  is_Some (waiters b !! w) ->
  wcore_at (detach_waiter slot w wg h t n p nx b) i =
    if decide (w = i) then Some (wg, None) else wcore_at b i.
Proof.
  intros Hw. unfold detach_waiter.
  rewrite wcore_at_put_waiter by (by apply (unlink_waiter_is_Some p nx b w)).
  case_decide; [done|]. apply (wcore_at_unlink_waiter p nx b i).
Qed.

Lemma wlinks_detach slot w wg h t n p nx b i :
  is_Some (waiters b !! w) -> w <> i ->
  wlinks (detach_waiter slot w wg h t n p nx b) i = relink p nx i <$> wlinks b i.
Proof.
  intros Hw Hne. unfold detach_waiter.
  rewrite wlinks_put_waiter, decide_False by (done || by apply (unlink_waiter_is_Some p nx b w)).
  apply (wlinks_unlink_waiter p nx b i).
Qed.

Lemma detach_frame slot w wg h t n p nx b :
  same_identity b (detach_waiter slot w wg h t n p nx b) /\
  pending_head (detach_waiter slot w wg h t n p nx b) = pending_head b /\
  pending_tail (detach_waiter slot w wg h t n p nx b) = pending_tail b.
Proof.
  destruct (unlink_waiter_frame p nx b) as (_ & ? & ? & ?). done.
Qed.

(** A node's neighbours are never the node itself. *)
Lemma relink_other (l1 l2 : list nat) w y (pn : option nat * option nat) :
  NoDup (l1 ++ w :: l2) -> y ∉ l1 ++ w :: l2 -> relink (last l1) (head l2) y pn = pn.
Proof.
  intros Hnd Hy. unfold relink. rewrite !decide_False; [by destruct pn|..].
  - intros Hl%last_Some_elem_of. set_solver.
  - intros Hl. destruct l2; simplify_eq/=. set_solver.
Qed.

Lemma refines_detach e a slot g ar w wg l1 l2 :
  refines e a -> well_formed a -> a_requests a !! slot = Some (g, Some ar) ->
  a_waiters ar = l1 ++ w :: l2 -> a_waiter_slots a !! w = Some (wg, Some slot) ->
  let h := head (l1 ++ w :: l2) in
  let t := last (l1 ++ w :: l2) in
  let p := last l1 in
  let nx := head l2 in
  refines (on_broker (detach_waiter slot w wg (if p then h else nx) (if nx then t else p)
      (zlen (a_waiters ar) - 1) p nx) e) (a_detach w slot a).
Proof.
  intros Href Hwf Hslot Hl Hw h t p nx.
  assert (is_Some (waiters (broker e) !! w)) as Hsome by (eapply refines_waiter_slot; eauto).
  assert (a_live a slot = Some ar) as Hlive by (apply a_live_Some; eauto).
  destruct (wf_waiter_list _ Hwf slot ar Hlive) as [_ Hnd]. rewrite Hl in Hnd.
  set (h' := if p then h else nx). set (t' := if nx then t else p). set (n := zlen (a_waiters ar) - 1).
  destruct (detach_frame slot w wg h' t' n p nx (broker e)) as ([Hid Hcp] & Hph & Hpt).
  split; cbn [broker on_broker]; [by rewrite Hid, (ref_id _ _ Href)
    |by rewrite Hcp, (ref_pool _ _ Href)|by apply (ref_pools _ _ Href)|..].
  - intros i. rewrite core_at_detach. pose proof (ref_request _ _ Href i) as Hrel. simpl.
    rewrite list_lookup_alter. destruct (decide (slot = i)) as [<-|Hne].
    + rewrite Hslot in *. destruct (core_at (broker e) slot) as [[gc [c|]]|]; simpl in *; try done.
      destruct Hrel as (-> & Hk & Hh & Hs & Hc & Hd). split; [done|].
      assert (without w (a_waiters ar) = l1 ++ l2) as Hrest
        by (unfold without; rewrite Hl; by apply filter_neq_middle).
      repeat split; simpl; try done.
      { rewrite Hrest. unfold n. rewrite Hl. unfold zlen. rewrite !length_app. simpl. lia. }
      rewrite Hrest. rewrite Hl in Hd. pose proof (dll_links _ _ _ _ _ _ Hd) as Hlk.
      pose proof (dll_head _ _ _ _ Hd) as Hhead. pose proof (dll_tail _ _ _ _ Hd) as Htail.
      unfold h', t', h, t. rewrite <- Hhead, <- Htail.
      eapply dll_unlink; [exact Hnd|exact Hd|exact Hlk|]. intros y Hy. apply wlinks_detach; [done|].
      intros <-. apply NoDup_app in Hnd as (_ & Hdj & [Hx _]%NoDup_cons). set_solver.
    + destruct (core_at (broker e) i) as [[gc [c|]]|], (a_requests a !! i) as [[g' [ar'|]]|] eqn:Hi;
        simpl in *; try done.
      destruct Hrel as (-> & ? & ? & ? & ? & Hd). split; [done|]. repeat split; try done.
      assert (a_live a i = Some ar') as Hlive' by (apply a_live_Some; eauto).
      eapply dseg_frame; [|exact Hd]. intros y Hy.
      assert (y ∉ l1 ++ w :: l2) as Hy'.
      { intros Hin. rewrite <- Hl in Hin. apply Hne. by eapply waiters_disjoint. }
      rewrite wlinks_detach by (done || (intros ->; set_solver)).
      destruct (wlinks (broker e) y) as [pn|]; [|done]. simpl. f_equal. by apply (relink_other l1 l2 w).
  - intros w'. rewrite wcore_at_detach by done. pose proof (ref_waiter _ _ Href w') as Hrel.
    rewrite detach_waiter_slots. case_decide; [subst; by rewrite Hw|].
    unfold waiter_rel in *. destruct (wcore_at (broker e) w') as [[wg1 [[tk st]|]]|],
        (a_waiter_slots a !! w') as [[wg' [r|]]|]; try done.
    destruct Hrel as (-> & gr & ar0 & Hr & -> & ->). split; [done|].
    simpl. rewrite list_lookup_alter. case_decide; [subst|by exists gr, ar0].
    rewrite Hr. simpl. by eexists _, _.
  - rewrite Hph, Hpt. eapply dseg_frame; [|exact (ref_queue _ _ Href)].
    intros y _. apply plinks_detach.
Qed.

(** ** Reclaiming the request *)

Lemma refines_vacate e a slot g ar b1 :
  refines e a -> well_formed_but (Some slot) a -> a_requests a !! slot = Some (g, Some ar) ->
  a_waiters ar = [] -> staged e a slot Delivered b1 ->
  refines (mkEnv (pools e) (put_request slot (mkRequestSlot g None) b1)) (a_vacate slot a).
Proof.
  intros Href Hwf Hslot Hnil Hst. pose proof (staged_slot _ _ _ _ _ _ _ Href Hslot Hst) as Hsome.
  destruct Hst as ([Hid Hcp] & Hw & Hc & Hd).
  split; cbn [broker]; [by etrans; [exact Hid|exact (ref_id _ _ Href)]
    |by etrans; [exact Hcp|exact (ref_pool _ _ Href)]|by apply (ref_pools _ _ Href)|..].
  - intros i. rewrite core_at_put_request by done. pose proof (ref_request _ _ Href i) as Hrel.
    simpl. rewrite list_lookup_alter. case_decide; [subst; by rewrite Hslot|].
    rewrite Hc. destruct (core_at (broker e) i) as [[gc [c|]]|], (a_requests a !! i) as [[g' [ar'|]]|];
      simpl in *; try done.
    destruct Hrel as (-> & ? & ? & ? & ? & Hdl). split; [done|]. repeat split; try done.
    eapply dseg_frame; [|exact Hdl]. intros y _. unfold wlinks. simpl. by rewrite Hw.
  - intros w. pose proof (ref_waiter _ _ Href w) as Hrel. unfold wcore_at in *. simpl. rewrite Hw.
    unfold waiter_rel in *. destruct (_ <$> waiters (broker e) !! w) as [[wg [[t st]|]]|],
      (a_waiter_slots a !! w) as [[wg' [r|]]|] eqn:Hws; try done.
    destruct Hrel as (-> & gr & ar0 & Hr & -> & ->). split; [done|]. exists gr, ar0. simpl.
    rewrite list_lookup_alter, decide_False; [done|]. intros <-.
    destruct (wf_waiter_live _ Hwf w wg' slot Hws) as (ar1 & Har1 & Hin).
    apply a_live_Some in Har1 as [? ?]. simplify_eq. rewrite Hnil in Hin. by apply elem_of_nil in Hin.
  - simpl in Hd. eapply dseg_frame; [|exact Hd]. intros y Hy. rewrite plinks_put_request by done.
    rewrite decide_False; [done|]. intros <-. by apply elem_of_without in Hy as [? _].
Qed.

Lemma pool_release_run {E} e a slot ar :
  refines e (a_vacate slot a) -> well_formed_but (Some slot) a -> a_live a slot = Some ar ->
  exists e', refines e' (a_reclaim slot a) /\
    (match credit_pool (broker e) with
     | Some pool => pool_release_exact (E := E) pool 1
     | None => mret tt
     end) e = Done tt e'.
Proof.
  intros Href Hwf Hlive. destruct (release_credit_spec a slot ar Hwf Hlive) as (Heq & Hrel & _).
  rewrite <- Heq. rewrite (ref_pool _ _ Href). unfold a_release_credit.
  change (a_credit_pool (a_vacate slot a)) with (a_credit_pool a).
  change (a_pools (a_vacate slot a)) with (a_pools a).
  destruct (a_credit_pool a) as [i|]; [|by exists e].
  destruct (Hrel i eq_refl) as (p & Hp & Hr). rewrite Hp, Hr.
  exists (mkEnv (<[i:=mkPool (capacity p) (live_requests p - 1)]> (a_pools a)) (broker e)).
  split; [by apply with_pools_refines|]. pose proof (ref_pools _ _ Href) as Hps. simpl in Hps.
  unfold pool_release_exact, gets, expect, mbind, M_bind. rewrite Hps, Hp.
  cbv beta iota delta [mret M_ret]. rewrite Hr. unfold assert_, modify. simpl. by rewrite Hps.
Qed.

Lemma reclaim_request_run {E} e a slot ar :
  refines e a -> well_formed_but (Some slot) a -> a_live a slot = Some ar -> a_waiters ar = [] ->
  exists e', reclaim_request (E := E) slot e = Done tt e' /\
    refines e' (a_reclaim slot a) /\ well_formed (a_reclaim slot a).
Proof.
  intros Href Hwf Hlive Hnil. destruct (proj1 (a_live_Some _ _ _) Hlive) as [g Hslot].
  destruct (refines_live _ _ _ _ _ Href Hslot) as (s & r & Hs & Hr & _ & (_ & _ & Hst & _)).
  unfold reclaim_request. run_with @read_request_run. rewrite Hr. simpl in Hst |- *.
  assert (exists b1, staged e a slot Delivered b1 /\
    (match state r with
     | Pending | DeferredPending _ => unlink_pending (E := E) slot
     | _ => mret tt
     end) e = Done tt (mkEnv (pools e) b1)) as (b1 & Hsg & Hrun).
  { rewrite Hst. destruct (is_pending (a_state ar)) eqn:Hp.
    - destruct (staged_unlink (E := E) e a (Some slot) slot Delivered ar) as (b1 & Hu & Hsg); [done..|].
      exists b1. split; [done|]. by destruct (a_state ar).
    - exists (broker e). split; [by eapply staged_same|]. by destruct e, (a_state ar). }
  rewrite (bind_done _ _ _ _ _ Hrun).
  destruct (staged_slot _ _ _ _ _ _ _ Href Hslot Hsg) as [s1 Hs1].
  assert (generation s1 = g) as Hg.
  { destruct Hsg as (_ & _ & Hc & _). specialize (Hc slot). unfold core_at in Hc.
    rewrite Hs1, Hs in Hc. injection Hc as -> _.
    destruct (refines_live _ _ _ _ _ Href Hslot) as (? & ? & ? & _ & <- & _). by simplify_eq. }
  run_with @read_request_run. rewrite Hg. run_with @write_request_run. run_with @self_run.
  pose proof (refines_vacate e a slot g ar b1 Href Hwf Hslot Hnil Hsg) as Href2.
  destruct (pool_release_run (E := E) _ a slot ar Href2 Hwf Hlive) as (e' & Href' & Hrun').
  exists e'. split; [exact Hrun'|]. split; [done|].
  destruct (release_credit_spec a slot ar Hwf Hlive) as (_ & _ & Hw). apply Hw.
  by eapply vacate_well_formed.
Qed.

(** ** Removal *)

Lemma relink_neighbours {B} e l1 w l2 h t (k : M Env WaiterError B) :
  dll (wlinks (broker e)) h t (l1 ++ w :: l2) -> NoDup (l1 ++ w :: l2) ->
  (match last l1 with
   | Some previous => relink_waiter previous (wrec_set_next (head l2))
   | None => mret tt
   end ;;
   match head l2 with
   | Some next => relink_waiter next (wrec_set_prev (last l1))
   | None => mret tt
   end ;; k) e = k (on_broker (unlink_waiter (last l1) (head l2)) e).
Proof.
  intros Hd Hnd.
  assert (forall y, y ∈ l1 ++ w :: l2 -> exists s r, waiters (broker e) !! y = Some s /\
    wrecord s = Some r) as Hlive.
  { intros y Hy. destruct (dseg_node _ _ _ _ _ _ _ Hd Hy) as [pn Hpn].
    apply wlinks_Some in Hpn as (s & r & ? & ? & _). eauto. }
  assert (forall y, last l1 = Some y -> y ∈ l1) as Hl1 by (intros; by apply last_Some_elem_of).
  assert (forall y, head l2 = Some y -> y ∈ l2) as Hl2 by (intros; destruct l2; simplify_eq/=; set_solver).
  unfold unlink_waiter. destruct (last l1) as [p|].
  - destruct (Hlive p) as (s & r & Hs & Hr); [specialize (Hl1 p eq_refl); set_solver|].
    rewrite (bind_done _ _ _ _ _ (relink_waiter_run e p _ s r Hs Hr)).
    destruct (head l2) as [n|]; [|done].
    destruct (Hlive n) as (s2 & r2 & Hs2 & Hr2); [specialize (Hl2 n eq_refl); set_solver|].
    assert (waiters (map_waiter p (wrec_set_next (Some n)) (broker e)) !! n = Some s2) as Hs2'.
    { simpl. rewrite list_lookup_alter, decide_False; [exact Hs2|]. intros ->.
      apply NoDup_app in Hnd as (_ & Hdj & _). specialize (Hl1 n eq_refl). specialize (Hl2 n eq_refl).
      apply (Hdj n); set_solver. }
    by erewrite bind_done by (eapply relink_waiter_run; [exact Hs2'|exact Hr2]).
  - rewrite (bind_done (mret tt) _ e tt e) by done.
    destruct (head l2) as [n|]; [|by destruct e].
    destruct (Hlive n) as (s2 & r2 & Hs2 & Hr2); [specialize (Hl2 n eq_refl); set_solver|].
    by rewrite (bind_done _ _ _ _ _ (relink_waiter_run e n _ s2 r2 Hs2 Hr2)).
Qed.

(** The new ends, as the code computes them. *)
Lemma unlinked_ends (l1 l2 : list nat) w :
  NoDup (l1 ++ w :: l2) ->
  (if bool_decide (head (l1 ++ w :: l2) = Some w) then head l2 else head (l1 ++ w :: l2)) =
    (if last l1 then head (l1 ++ w :: l2) else head l2) /\
  (if bool_decide (last (l1 ++ w :: l2) = Some w) then last l1 else last (l1 ++ w :: l2)) =
    (if head l2 then last (l1 ++ w :: l2) else last l1).
Proof.
  intros Hnd. apply NoDup_app in Hnd as (_ & Hdj & [Hw _]%NoDup_cons). split.
  - destruct l1 as [|y l1]; simpl; [by rewrite bool_decide_true|].
    assert (is_Some (last (y :: l1))) as [z Hz] by (rewrite last_cons; destruct (last l1); eauto).
    rewrite last_cons in Hz. rewrite last_cons, Hz.
    rewrite bool_decide_false; [done|]. intros [= ->]. apply (Hdj w); set_solver.
  - rewrite last_app_cons, last_cons. destruct l2 as [|y l2]; simpl; [by rewrite bool_decide_true|].
    destruct (last (y :: l2)) as [z|] eqn:Hz; [|by apply last_None in Hz].
    rewrite bool_decide_false; [done|]. intros [= ->]. apply last_Some_elem_of in Hz. done.
Qed.

Lemma unlink_waiter_keeps p n b w s :
  waiters b !! w = Some s ->
  exists s', waiters (unlink_waiter p n b) !! w = Some s' /\ wgeneration s' = wgeneration s.
Proof.
  intros Hs. pose proof (wcore_at_unlink_waiter p n b w) as Hwc. unfold wcore_at in Hwc. rewrite Hs in Hwc.
  destruct (waiters (unlink_waiter p n b) !! w) as [s'|]; [|done]. exists s'. split; [done|].
  simpl in Hwc. by injection Hwc as -> _.
Qed.

(** The part of [remove_waiter] before the reclamation. *)
Lemma remove_waiter_detaches e a w wg slot g ar :
  refines e a -> well_formed a -> a_waiter_slots a !! w = Some (wg, Some slot) ->
  a_requests a !! slot = Some (g, Some ar) -> w ∈ a_waiters ar ->
  exists e1, refines e1 (a_detach w slot a) /\
    remove_waiter w e =
      (let reclaim := zlen (a_waiters ar) - 1 =? 0 in
       (if reclaim then reclaim_request slot else mret tt) ;; mret reclaim) e1.
Proof.
  intros Href Hwf Hw Hslot Hin.
  assert (a_live a slot = Some ar) as Hlive by (apply a_live_Some; eauto).
  destruct (wf_waiter_list _ Hwf slot ar Hlive) as [Hne Hnd].
  destruct (elem_of_split_nat _ _ Hin) as (l1 & l2 & Hl).
  pose proof (refines_detach e a slot g ar w wg l1 l2 Href Hwf Hslot Hl Hw) as Href1.
  cbv zeta in Href1. eexists. split; [exact Href1|].
  destruct (refines_waiter_live _ _ _ _ _ Href Hw)
    as (s & wr & gr & ar' & Hs & Hr & Hwg & Hreq & Htok & Hst).
  rewrite Hslot in Hreq. injection Hreq as <- <-.
  destruct (refines_live _ _ _ _ _ Href Hslot) as (rs & r & Hrs & Hrr & Hg & (_ & _ & _ & Hc & Hd)).
  simpl in Hc, Hd. rewrite Hl in Hd, Hnd.
  pose proof (dll_links _ _ _ _ _ _ Hd) as Hlk.
  unfold wlinks in Hlk. rewrite Hs in Hlk. simpl in Hlk. rewrite Hr in Hlk. injection Hlk as Hp Hn.
  unfold remove_waiter. run_with @read_waiter_run. rewrite Hr.
  rewrite (bind_done (some_or (Some wr) _) _ e wr e) by done. run_with @self_run.
  rewrite (refines_request_index _ _ _ Href), Htok. unfold a_request_index. simpl.
  rewrite Z.eqb_refl. simpl. rewrite Hslot, Z.eqb_refl. simpl.
  rewrite (bind_done _ _ e slot e) by done. run_with @read_request_run. rewrite Hrr.
  rewrite (bind_done (some_or (Some r) _) _ e r e) by done.
  rewrite Hc, (proj2 (Z.eqb_neq _ _)); cycle 1.
  { unfold zlen. rewrite Hl, length_app. simpl. lia. }
  rewrite Hp, Hn. erewrite relink_neighbours by done.
  set (e1 := on_broker (unlink_waiter (last l1) (head l2)) e).
  destruct (unlink_waiter_frame (last l1) (head l2) (broker e)) as (Hrq & _).
  assert (requests (broker e1) !! slot = Some rs) as Hrs1 by (unfold e1; simpl; by rewrite Hrq).
  rewrite (bind_done _ _ _ _ _ (read_request_run e1 slot rs Hrs1)), Hrr.
  rewrite (bind_done (some_or (Some r) _) _ e1 r e1) by done. cbv zeta. cbn [waiter_count rec_set_waiters].
  rewrite (dll_head _ _ _ _ Hd), (dll_tail _ _ _ _ Hd), Hc.
  destruct (unlinked_ends l1 l2 w Hnd) as [-> ->].
  rewrite (bind_done _ _ _ _ _ (write_request_run e1 slot _ ltac:(eauto))).
  destruct (unlink_waiter_keeps (last l1) (head l2) (broker e) w s Hs) as (ws & Hws & Hwsg).
  rewrite Hwg in Hwsg.
  erewrite bind_done by (eapply read_waiter_run; exact Hws).
  rewrite Hwsg. erewrite bind_done by (eapply write_waiter_run; exact (mk_is_Some _ _ Hws)).
  f_equal. unfold on_broker, detach_waiter. simpl. do 2 f_equal.
  pose proof (put_request_alter slot rs (rec_set_waiters
    (if last l1 then head (l1 ++ w :: l2) else head l2)
    (if head l2 then last (l1 ++ w :: l2) else last l1) (zlen (a_waiters ar) - 1))
    (broker e1) Hrs1) as Hput.
  rewrite Hrr in Hput. exact Hput.
Qed.

Lemma remove_waiter_performs e a w wg slot :
  refines e a -> well_formed a -> a_waiter_slots a !! w = Some (wg, Some slot) ->
  performs (remove_waiter w e) (spec_remove_waiter w a).
Proof.
  intros Href Hwf Hw. destruct (wf_waiter_live _ Hwf w wg slot Hw) as (ar & Hlive & Hin).
  destruct (proj1 (a_live_Some _ _ _) Hlive) as [g Hslot].
  destruct (remove_waiter_detaches e a w wg slot g ar Href Hwf Hw Hslot Hin) as (e1 & Href1 & ->).
  pose proof (detach_well_formed a w wg slot Hwf Hw) as Hwf1.
  assert (a_live (a_detach w slot a) slot = Some (areq_waiters (without w (a_waiters ar)) ar)) as Hl1
    by (rewrite a_live_detach, decide_True, Hlive; done).
  unfold spec_remove_waiter. rewrite Hw, Hl1. simpl.
  destruct (wf_waiter_list _ Hwf slot ar Hlive) as [_ Hnd].
  destruct (elem_of_split_nat _ _ Hin) as (l1 & l2 & Hl). rewrite Hl in Hnd.
  assert (without w (a_waiters ar) = l1 ++ l2) as Hrest
    by (unfold without; rewrite Hl; by apply filter_neq_middle).
  rewrite Hrest in *. rewrite Hl. unfold zlen. rewrite length_app. simpl.
  destruct (l1 ++ l2) as [|y rest] eqn:Happ.
  - apply app_eq_nil in Happ as [-> ->]. simpl.
    destruct (reclaim_request_run (E := WaiterError) e1 _ slot _ Href1 Hwf1 Hl1 eq_refl)
      as (e2 & Hrun & Href2 & Hwf2).
    rewrite (bind_done _ _ _ _ _ Hrun). by apply performs_ret.
  - rewrite (proj2 (Z.eqb_neq _ _)); cycle 1.
    { assert (length (l1 ++ l2) <> 0)%nat by (by rewrite Happ). rewrite length_app in *. lia. }
    rewrite (bind_done (mret tt) _ e1 tt e1) by done. apply performs_ret; [done|].
    by eapply well_formed_complete.
Qed.

Lemma waiter_index_live a t w :
  a_waiter_index a t = Some w ->
  w = wt_slot t /\ exists slot, a_waiter_slots a !! w = Some (wt_generation t, Some slot).
Proof.
  unfold a_waiter_index. destruct (negb _); [done|].
  destruct (a_waiter_slots a !! wt_slot t) as [[g [r|]]|] eqn:Hs; try done.
  destruct (Z.eqb_spec g (wt_generation t)); [|done]. intros [= <-]. subst. eauto.
Qed.

(** What the waiter's record shows is what the specification lets it observe. *)
Lemma refines_observe e a w wg slot :
  refines e a -> a_waiter_slots a !! w = Some (wg, Some slot) ->
  exists s wr, waiters (broker e) !! w = Some s /\ wrecord s = Some wr /\
    a_observe a w = Some (wstate wr).
Proof.
  intros Href Hw. destruct (refines_waiter_live _ _ _ _ _ Href Hw)
    as (s & wr & gr & ar & Hs & Hr & _ & Hreq & _ & Hst).
  exists s, wr. split; [done|]. split; [done|]. unfold a_observe, a_live. rewrite Hw. simpl.
  rewrite Hreq. simpl. by rewrite Hst.
Qed.

Lemma cancel_waiter_simulates_spec e a t :
  refines e a -> well_formed a -> simulates (cancel_waiter t e) (spec_cancel_waiter t a).
Proof.
  intros Href Hwf. unfold cancel_waiter, spec_cancel_waiter. run_with @self_run.
  rewrite (refines_waiter_index _ _ _ Href).
  destruct (a_waiter_index a t) as [w|] eqn:Hidx; [|by apply simulates_error].
  destruct (waiter_index_live _ _ _ Hidx) as (-> & slot & Hw). simpl ok_or.
  rewrite (bind_done _ _ e (wt_slot t) e) by done.
  destruct (refines_observe _ _ _ _ _ Href Hw) as (s & wr & Hs & Hr & Hobs).
  run_with @read_waiter_run. rewrite Hr, Hobs. rewrite (bind_done (some_or (Some wr) _) _ e wr e) by done.
  pose proof (remove_waiter_performs e a _ _ _ Href Hwf Hw) as (e' & Hrun & Href' & Hwf').
  destruct (spec_remove_waiter (wt_slot t) a) as [rec a']. rewrite (bind_done _ _ _ _ _ Hrun).
  by exists e'.
Qed.

Lemma take_waiter_simulates_spec e a t :
  refines e a -> well_formed a ->
  simulates (take_waiter_completion t e) (spec_take_waiter t a).
Proof.
  intros Href Hwf. unfold take_waiter_completion, spec_take_waiter. run_with @self_run.
  rewrite (refines_waiter_index _ _ _ Href).
  destruct (a_waiter_index a t) as [w|] eqn:Hidx; [|by apply simulates_error].
  destruct (waiter_index_live _ _ _ Hidx) as (-> & slot & Hw). simpl ok_or.
  rewrite (bind_done _ _ e (wt_slot t) e) by done.
  destruct (refines_observe _ _ _ _ _ Href Hw) as (s & wr & Hs & Hr & Hobs).
  run_with @read_waiter_run. rewrite Hr, Hobs. rewrite (bind_done (some_or (Some wr) _) _ e wr e) by done.
  destruct (wstate wr) as [|c]; [by apply simulates_error|].
  pose proof (remove_waiter_performs e a _ _ _ Href Hwf Hw) as (e' & Hrun & Href' & Hwf').
  destruct (spec_remove_waiter (wt_slot t) a) as [rec a']. rewrite (bind_done _ _ _ _ _ Hrun).
  by exists e'.
Qed.

End Removal.
