(* ===== verification/FaultSteps.v ===== *)
(** Fault broker, part 11: the abstract broker as a state machine.

    Every operation of the specification is a sequence of elementary steps: a
    request advances in its life cycle, a waiter joins a request, a request is
    admitted with its first waiter, a waiter is removed. What all steps share
    is [evolves]; [exact_keys] and [balance] are the invariants of coalescing
    and of the shared credits. *)

From stdpp Require Import relations.
From S2P Require Import Prelude Effects Atomics FaultBroker FaultSpec FaultLinks.
From S2P Require Import FaultLinks FaultTransitions FaultAdmission.
From S2P Require Import FaultAdmission FaultRemoval.
Local Open Scope Z_scope.

(** ** The life cycle of a request *)

Inductive advances {C} : RequestState C -> RequestState C -> Prop :=
| adv_claim : advances Pending Delivered
| adv_claim_deferred c : advances (DeferredPending c) (DeferredDelivered c)
| adv_defer_pending c : advances Pending (DeferredPending c)
| adv_defer_delivered c : advances Delivered (DeferredDelivered c)
| adv_complete_pending c : advances Pending (StateVisible c)
| adv_complete_delivered c : advances Delivered (StateVisible c)
| adv_publish_pending c : advances (DeferredPending c) (StateVisible c)
| adv_publish_delivered c : advances (DeferredDelivered c) (StateVisible c).

(** The completion a request carries, visible or deferred. *)
Definition completion_of {C} (s : RequestState C) : option C :=
  match s with
  | DeferredPending c | DeferredDelivered c | StateVisible c => Some c
  | Pending | Delivered => None
  end.

Lemma advances_completion {C} (s s' : RequestState C) c :
  rtc advances s s' -> completion_of s = Some c -> completion_of s' = Some c.
Proof. induction 1 as [|s s1 s' Hs _ IH]; [done|]. intros Hc. apply IH. by destruct Hs. Qed.

Lemma advances_visible {C} (c : C) s : rtc advances (StateVisible c) s -> s = StateVisible c.
Proof. inversion 1 as [|? ? ? Hs]; [done|]. inversion Hs. Qed.

Section Steps.
Context {K H C : Type} `{EqDecision K} `{EqDecision H}.
Local Abbreviation abstract_broker := (abstract_broker K H C).
Local Abbreviation abstract_request := (abstract_request K H C).
Implicit Types (a : abstract_broker).

Inductive astep : abstract_broker -> abstract_broker -> Prop :=
| step_advance a slot ar s :
    a_live a slot = Some ar -> advances (a_state ar) s -> astep a (spec_set_state slot s a)
| step_join a slot ar w g0 :
    a_live a slot = Some ar -> is_visible (a_state ar) = false ->
    a_waiter_slots a !! w = Some (g0, None) -> g0 + 1 <= u64_MAX ->
    astep a (a_attach w (g0 + 1) slot a)
| step_admit a h k slot w gr g0 a1 :
    position (a_matches h k) (a_requests a) = None ->
    a_requests a !! slot = Some (gr, None) -> gr + 1 <= u64_MAX ->
    a_waiter_slots a !! w = Some (g0, None) -> g0 + 1 <= u64_MAX ->
    a_acquire a = (true, a1) ->
    astep a (a_attach w (g0 + 1) slot (a_insert_request slot (gr + 1) (mkAreq k h Pending []) a1))
| step_remove a w g slot :
    a_waiter_slots a !! w = Some (g, Some slot) -> astep a (spec_remove_waiter w a).2.

(** ** Every operation is a sequence of steps *)

Lemma admit_steps h k a : well_formed a -> rtc astep a (spec_admit h k a).2.
Proof.
  intros Hwf. unfold spec_admit. destruct (position _ _) as [slot|] eqn:Hpos.
  - apply position_Some in Hpos as ([g [ar|]] & Hslot & Hm); [|done].
    destruct (a_choose (a_waiter_slots a)) as [[w wg]|[]] eqn:Hch; [|done..].
    apply a_choose_Ok in Hch as (g0 & Hw & -> & Hmax). apply rtc_once.
    eapply step_join; [apply a_live_Some; by eauto| |done|done].
    unfold a_matches in Hm. simpl in Hm. apply andb_prop in Hm as [_ Hm]. by destruct (is_visible _).
  - destruct (a_choose (a_requests a)) as [[slot g]|[]] eqn:Hchr; [|done..].
    destruct (a_choose (a_waiter_slots a)) as [[w wg]|[]] eqn:Hch; [|done..].
    apply a_choose_Ok in Hch as (g0 & Hw & -> & Hmax).
    apply a_choose_Ok in Hchr as (gr & Hslot & -> & Hrmax).
    pose proof (acquire_credit_spec a Hwf) as Hacq.
    destruct (a_acquire a) as [[] a1] eqn:Ha; [|by subst]. apply rtc_once. by eapply step_admit.
Qed.

Lemma claim_slot_steps slot a ar :
  a_live a slot = Some ar -> is_pending (a_state ar) = true ->
  rtc astep a (spec_claim_slot (Some slot) a).2.
Proof.
  intros Hlive Hp. unfold spec_claim_slot. rewrite Hlive. apply rtc_once.
  eapply step_advance; [done|]. destruct (a_state ar); try done; constructor.
Qed.

(** The slot [claim_next] chooses is the first of its handler in the queue. *)
Lemma claim_choice h a slot :
  well_formed a -> head (filter (fun slot => a_for h a slot = true) (a_pending a)) = Some slot ->
  exists ar l1 l2, a_pending a = l1 ++ slot :: l2 /\ (forall x, x ∈ l1 -> a_for h a x = false) /\
    a_live a slot = Some ar /\ a_handler ar = h /\ is_pending (a_state ar) = true.
Proof.
  intros Hwf. assert (forall l, (forall x, x ∈ l -> x ∈ a_pending a) ->
    head (filter (fun slot => a_for h a slot = true) l) = Some slot ->
    exists ar l1 l2, l = l1 ++ slot :: l2 /\ (forall x, x ∈ l1 -> a_for h a x = false) /\
    a_live a slot = Some ar /\ a_handler ar = h /\ is_pending (a_state ar) = true) as Hgen;
    [|by apply Hgen].
  intros l. induction l as [|x l IH]; intros Hin; [done|]. rewrite filter_cons. case_decide as Hx.
  - intros [= <-]. assert (x ∈ a_pending a) as (ar & Hlive & Hp)%(wf_pending _ Hwf) by set_solver.
    exists ar, [], l. split; [done|]. split; [by intros ? ?%elem_of_nil|]. split; [done|].
    split; [|done]. unfold a_for in Hx. rewrite Hlive in Hx. by apply bool_decide_eq_true in Hx.
  - intros Hh. destruct IH as (ar & l1 & l2 & -> & Hl1 & ?); [set_solver|done|].
    exists ar, (x :: l1), l2. split; [done|]. split; [|done].
    intros y [->|Hy]%elem_of_cons; [|by apply Hl1]. by destruct (a_for h a x).
Qed.

Lemma claim_next_steps h a : well_formed a -> rtc astep a (spec_claim_next h a).2.
Proof.
  intros Hwf. unfold spec_claim_next. destruct (head _) as [slot|] eqn:Hh; [|done].
  destruct (claim_choice h a slot Hwf Hh) as (ar & _ & _ & _ & _ & Hlive & _ & Hp).
  by eapply claim_slot_steps.
Qed.

Lemma complete_slot_steps slot c v a : rtc astep a (spec_complete_slot slot c v a).2.
Proof.
  unfold spec_complete_slot. destruct (a_live a slot) as [ar|] eqn:Hlive; [|done].
  destruct (completed_state (a_state ar) c v) as [s|] eqn:Hs; [|done]. apply rtc_once.
  eapply step_advance; [done|]. destruct (a_state ar), v; simplify_eq/=; constructor.
Qed.

Lemma release_slot_steps slot a : rtc astep a (spec_release_slot slot a).2.
Proof.
  unfold spec_release_slot. destruct (a_live a slot) as [ar|] eqn:Hlive; [|done].
  destruct (deferred_completion (a_state ar)) as [c|] eqn:Hs; [|done]. apply rtc_once.
  eapply step_advance; [done|]. destruct (a_state ar); simplify_eq/=; constructor.
Qed.

Lemma complete_steps t c v a : rtc astep a (spec_complete t c v a).2.
Proof.
  unfold spec_complete. destruct (a_request_index a t) as [slot|]; [|done].
  pose proof (complete_slot_steps slot c v a) as Hc.
  destruct (spec_complete_slot slot c v a) as [n a'].
  by destruct (a_state <$> a_live a slot) as [[]|].
Qed.

Lemma release_steps t a : rtc astep a (spec_release t a).2.
Proof.
  unfold spec_release. destruct (a_request_index a t) as [slot|]; [|done].
  pose proof (release_slot_steps slot a) as Hc. destruct (spec_release_slot slot a) as [n a'].
  by destruct (a_state <$> a_live a slot) as [[]|].
Qed.

Lemma complete_if_steps p c v slot st :
  rtc astep st.2 (spec_complete_if p c v slot st).2.
Proof.
  destruct st as [summary a]. unfold spec_complete_if. destruct (a_snapshot a slot); [|done].
  pose proof (complete_slot_steps slot c v a) as Hc.
  destruct (spec_complete_slot slot c v a) as [n a']. by destruct (_ && _).
Qed.

Lemma release_if_steps p slot st : rtc astep st.2 (spec_release_if p slot st).2.
Proof.
  destruct st as [summary a]. unfold spec_release_if. destruct (a_snapshot a slot); [|done].
  pose proof (release_slot_steps slot a) as Hc. destruct (spec_release_slot slot a) as [n a'].
  by destruct (_ && _).
Qed.

Lemma fold_steps (body : nat -> CompletionSummary * abstract_broker ->
    CompletionSummary * abstract_broker) slots st :
  (forall slot st, rtc astep st.2 (body slot st).2) ->
  rtc astep st.2 (fold_left (fun st slot => body slot st) slots st).2.
Proof.
  intros Hbody. revert st. induction slots as [|slot slots IH]; intros st; [done|].
  cbn [fold_left]. etrans; [apply Hbody|apply IH].
Qed.

Lemma complete_where_steps p c v a : rtc astep a (spec_complete_where p c v a).2.
Proof. apply (fold_steps _ _ (default_summary, a)). intros. apply complete_if_steps. Qed.

Lemma release_where_steps p a : rtc astep a (spec_release_where p a).2.
Proof. apply (fold_steps _ _ (default_summary, a)). intros. apply release_if_steps. Qed.

Lemma detach_handler_steps h c a : rtc astep a (spec_detach_handler h c a).2.
Proof.
  unfold spec_detach_handler.
  pose proof (complete_where_steps (fun s => bool_decide (snap_handler s = h)) c Visible a) as H1.
  destruct (spec_complete_where _ c Visible a) as [s1 a1].
  pose proof (release_where_steps (fun s => bool_decide (snap_handler s = h)) a1) as H2.
  destruct (spec_release_where _ a1) as [s2 a2]. by etrans.
Qed.

Lemma remove_waiter_steps w a : rtc astep a (spec_remove_waiter w a).2.
Proof.
  destruct (a_waiter_slots a !! w) as [[g [slot|]]|] eqn:Hw.
  - apply rtc_once. by eapply step_remove.
  - unfold spec_remove_waiter. by rewrite Hw.
  - unfold spec_remove_waiter. by rewrite Hw.
Qed.

Lemma cancel_waiter_steps t a : rtc astep a (spec_cancel_waiter t a).2.
Proof.
  unfold spec_cancel_waiter. destruct (a_waiter_index a t) as [w|]; [|done].
  pose proof (remove_waiter_steps w a) as Hr. by destruct (spec_remove_waiter w a).
Qed.

Lemma take_waiter_steps t a : rtc astep a (spec_take_waiter t a).2.
Proof.
  unfold spec_take_waiter. destruct (a_waiter_index a t) as [w|]; [|done].
  pose proof (remove_waiter_steps w a) as Hr. destruct (spec_remove_waiter w a).
  by destruct (a_observe a w) as [[]|].
Qed.

(** ** Steps preserve the invariant *)

(** The two shapes of a removal. *)
Lemma remove_cases a w g slot :
  well_formed a -> a_waiter_slots a !! w = Some (g, Some slot) ->
  exists ar', well_formed_but (Some slot) (a_detach w slot a) /\
    a_live (a_detach w slot a) slot = Some ar' /\
    ((a_waiters ar' = [] /\ spec_remove_waiter w a = (true, a_reclaim slot (a_detach w slot a))) \/
     (a_waiters ar' <> [] /\ spec_remove_waiter w a = (false, a_detach w slot a))).
Proof.
  intros Hwf Hw. destruct (wf_waiter_live _ Hwf w g slot Hw) as (ar & Hlive & _).
  exists (areq_waiters (without w (a_waiters ar)) ar).
  split; [by eapply detach_well_formed|].
  assert (a_live (a_detach w slot a) slot = Some (areq_waiters (without w (a_waiters ar)) ar)) as Hl
    by (rewrite a_live_detach, decide_True, Hlive; done).
  split; [done|]. unfold spec_remove_waiter. rewrite Hw, Hl. simpl.
  destruct (without w (a_waiters ar)); [by left|by right].
Qed.

Lemma astep_well_formed a a' : astep a a' -> well_formed a -> well_formed a'.
Proof.
  intros Hs Hwf. destruct Hs as [a slot ar s Hlive Hadv|a slot ar w g0 Hlive Hvis Hw Hmax
    |a h k slot w gr g0 a1 Hpos Hslot Hr Hw Hmax Hacq|a w g slot Hw].
  - eapply set_state_well_formed; [done|done|]. by destruct Hadv.
  - destruct (wf_waiter_generation _ Hwf w g0 None Hw) as [? _].
    eapply attach_well_formed; [by apply well_formed_weaken|done|done|lia].
  - destruct (wf_waiter_generation _ Hwf w g0 None Hw) as [? _].
    destruct (wf_generation _ Hwf slot gr None Hslot) as [? _].
    pose proof (acquire_credit_spec a Hwf) as Ha. rewrite Hacq in Ha.
    destruct Ha as (ps & -> & Hres & Hwf1).
    eapply attach_well_formed; [by eapply insert_request_well_formed; eauto; lia| |done|lia].
    unfold a_live. simpl. rewrite list_lookup_insert_eq by (apply lookup_lt_is_Some; eauto). done.
  - destruct (remove_cases a w g slot Hwf Hw) as (ar' & Hwf1 & Hl & [[Hnil ->]|[Hne ->]]).
    + destruct (release_credit_spec _ slot ar' Hwf1 Hl) as (_ & _ & Hc). apply Hc.
      by eapply vacate_well_formed.
    + by eapply well_formed_complete.
Qed.

(** An invariant of steps from well-formed states is an invariant of operations. *)
Lemma steps_induction (R : abstract_broker -> abstract_broker -> Prop) `{!PreOrder R} :
  (forall a a', well_formed a -> astep a a' -> R a a') ->
  forall a a', well_formed a -> rtc astep a a' -> R a a'.
Proof.
  intros Hstep a a' Hwf Hs. induction Hs as [a|a a1 a' Hs _ IH]; [done|].
  etrans; [by apply Hstep|]. apply IH. by eapply astep_well_formed.
Qed.

(** ** Evolution of the slots *)

Definition request_evolves (s s' : Z * option abstract_request) : Prop :=
  s.1 < s'.1 \/
  s.1 = s'.1 /\
  match s.2, s'.2 with
  | Some ar, Some ar' =>
      a_key ar' = a_key ar /\ a_handler ar' = a_handler ar /\ rtc advances (a_state ar) (a_state ar')
  | None, Some _ => False
  | _, None => True
  end.

(** The generation of the request a waiter belongs to. *)
Definition request_generation (a : abstract_broker) (r : nat) : option Z :=
  fst <$> a_requests a !! r.

Definition waiter_evolves a a' (s s' : Z * option nat) : Prop :=
  s.1 < s'.1 \/
  s.1 = s'.1 /\
  match s.2, s'.2 with
  | Some r, Some r' => r' = r /\ request_generation a' r = request_generation a r
  | None, Some _ => False
  | _, None => True
  end.

Record evolves (a a' : abstract_broker) : Prop := {
  ev_id : a_id a' = a_id a;
  ev_pool : a_credit_pool a' = a_credit_pool a;
  ev_request r s : a_requests a !! r = Some s ->
    exists s', a_requests a' !! r = Some s' /\ request_evolves s s';
  ev_waiter w s : a_waiter_slots a !! w = Some s ->
    exists s', a_waiter_slots a' !! w = Some s' /\ waiter_evolves a a' s s' }.

#[export] Instance evolves_preorder : PreOrder evolves.
Proof.
  split.
  - intros a. split; [done|done|..].
    + intros r [g [ar|]] Hr; eexists; (split; [done|]); right; done.
    + intros w [g [r|]] Hw; eexists; (split; [done|]); right; done.
  - intros a1 a2 a3 H12 H23. split.
    + etrans; [apply (ev_id _ _ H23)|apply (ev_id _ _ H12)].
    + etrans; [apply (ev_pool _ _ H23)|apply (ev_pool _ _ H12)].
    + intros r s (s2 & Hs2 & He2)%(ev_request _ _ H12).
      destruct (ev_request _ _ H23 r s2 Hs2) as (s3 & Hs3 & He3). exists s3. split; [done|].
      destruct He2 as [|[? He2]], He3 as [|[? He3]]; [left; lia..|]. right. split; [lia|].
      destruct s as [? [ar1|]], s2 as [? [ar2|]], s3 as [? [ar3|]]; simpl in *; try done.
      destruct He2 as (? & ? & ?), He3 as (? & ? & ?). split; [congruence|]. split; [congruence|].
      by etrans.
    + intros w s (s2 & Hs2 & He2)%(ev_waiter _ _ H12).
      destruct (ev_waiter _ _ H23 w s2 Hs2) as (s3 & Hs3 & He3). exists s3. split; [done|].
      destruct He2 as [|[? He2]], He3 as [|[? He3]]; [left; lia..|]. right. split; [lia|].
      destruct s as [? [r1|]], s2 as [? [r2|]], s3 as [? [r3|]]; simpl in *; try done.
      destruct He2 as (-> & ?), He3 as (-> & ?). split; [done|]. congruence.
Qed.

Lemma request_evolves_refl s : request_evolves s s.
Proof. right. split; [done|]. by destruct s.2. Qed.

Lemma waiter_evolves_same a a' s :
  (forall r, request_generation a' r = request_generation a r) -> waiter_evolves a a' s s.
Proof. intros Hg. right. split; [done|]. by destruct s.2. Qed.

(** Updating one live request keeps every generation. *)
Lemma set_live_generation slot f a r :
  request_generation (set_live slot f a) r = request_generation a r.
Proof.
  unfold request_generation. rewrite a_requests_set_live. case_decide; [|done].
  by destruct (a_requests a !! r).
Qed.

Lemma set_live_evolves slot f a r s :
  (forall ar, a_key (f ar) = a_key ar /\ a_handler (f ar) = a_handler ar /\
     (a_live a slot = Some ar -> rtc advances (a_state ar) (a_state (f ar)))) ->
  a_requests a !! r = Some s ->
  exists s', a_requests (set_live slot f a) !! r = Some s' /\ request_evolves s s'.
Proof.
  intros Hf Hr. rewrite a_requests_set_live, Hr. case_decide; [subst|].
  - eexists. split; [done|]. right. split; [done|]. destruct s as [g [ar|]]; [|done]. simpl.
    destruct (Hf ar) as (? & ? & Hadv). split; [done|]. split; [done|]. apply Hadv.
    apply a_live_Some. eauto.
  - eexists. split; [done|]. apply request_evolves_refl.
Qed.

Lemma detach_evolves a w slot : evolves a (a_detach w slot a).
Proof.
  split; [done|done|..].
  - intros r s Hr. apply (set_live_evolves slot (fun r => areq_waiters _ r) a r s); [|done].
    intros ar. done.
  - intros w' s Hw. rewrite detach_waiter_slots, Hw. case_decide.
    + eexists. split; [done|]. right. split; [done|]. by destruct s as [? []].
    + eexists. split; [done|]. apply waiter_evolves_same. intros. apply (set_live_generation slot).
Qed.

Lemma reclaim_evolves a slot : evolves a (a_reclaim slot a).
Proof.
  assert (forall a0, a_id (a_release_credit a0) = a_id a0 /\
    a_credit_pool (a_release_credit a0) = a_credit_pool a0 /\
    a_requests (a_release_credit a0) = a_requests a0 /\
    a_waiter_slots (a_release_credit a0) = a_waiter_slots a0) as Hrel
    by (intros a0; unfold a_release_credit; repeat case_match; done).
  destruct (Hrel (a_vacate slot a)) as (Hi & Hp & Hr & Hw).
  assert (forall r, a_requests (a_reclaim slot a) !! r =
    if decide (slot = r) then (fun s => (s.1, None)) <$> a_requests a !! r else a_requests a !! r)
    as Hlk.
  { intros r. unfold a_reclaim. fold (a_vacate slot a). rewrite Hr. simpl. rewrite list_lookup_alter.
    case_decide; by subst. }
  split; [done|done|..].
  - intros r s Hs. rewrite Hlk, Hs. case_decide; eexists; (split; [done|]);
      [right; split; [done|]; by destruct s as [? []]|apply request_evolves_refl].
  - intros w s Hs. exists s. split; [unfold a_reclaim; fold (a_vacate slot a); by rewrite Hw|].
    apply waiter_evolves_same. intros r. unfold request_generation. rewrite Hlk.
    case_decide; [|done]. by destruct (a_requests a !! r).
Qed.

Lemma astep_evolves a a' : well_formed a -> astep a a' -> evolves a a'.
Proof.
  intros Hwf Hs. destruct Hs as [a slot ar s Hlive Hadv|a slot ar w g0 Hlive Hvis Hw Hmax
    |a h k slot w gr g0 a1 Hpos Hslot Hr Hw Hmax Hacq|a w g slot Hw].
  - split; [done|done|..].
    + intros r s0 Hr. apply (set_live_evolves slot (areq_state s) a r s0); [|done].
      intros ar0. split; [done|]. split; [done|]. intros Heq. rewrite Hlive in Heq. injection Heq as <-.
      by apply rtc_once.
    + intros w s0 Hw. exists s0. split; [done|]. apply waiter_evolves_same. intros.
      apply (set_live_generation slot (areq_state s)).
  - split; [done|done|..].
    + intros r s0 Hr. apply (set_live_evolves slot (fun r => areq_waiters _ r) a r s0); [|done]. done.
    + intros w' s0 Hw'. simpl. destruct (decide (w = w')) as [<-|].
      * rewrite list_lookup_insert_eq by (apply lookup_lt_is_Some; eauto). simplify_eq.
        eexists. split; [done|]. left. simpl. lia.
      * rewrite list_lookup_insert_ne by done. exists s0. split; [done|]. apply waiter_evolves_same.
        intros. apply (set_live_generation slot).
  - pose proof (acquire_credit_spec a Hwf) as Ha. rewrite Hacq in Ha.
    destruct Ha as (ps & -> & Hres & Hwf1).
    assert (slot < length (a_requests a))%nat as Hlt by (apply lookup_lt_is_Some; eauto).
    split; [done|done|..].
    + intros r s0 Hr0. simpl. rewrite list_lookup_alter. destruct (decide (slot = r)) as [<-|Hne].
      * rewrite list_lookup_insert_eq by done. simplify_eq. eexists. split; [done|]. left. simpl. lia.
      * rewrite list_lookup_insert_ne by done. exists s0. split; [done|]. apply request_evolves_refl.
    + intros w' s0 Hw'. simpl. destruct (decide (w = w')) as [<-|].
      * rewrite list_lookup_insert_eq by (apply lookup_lt_is_Some; eauto). simplify_eq.
        eexists. split; [done|]. left. simpl. lia.
      * rewrite list_lookup_insert_ne by done. exists s0. split; [done|]. right. split; [done|].
        destruct s0 as [wg [r|]]; [|done]. simpl. split; [done|]. unfold request_generation. simpl.
        rewrite list_lookup_alter, decide_False, list_lookup_insert_ne; [done|..];
          intros <-; destruct (wf_waiter_live _ Hwf w' wg slot Hw') as (ar & Hl & _);
          unfold a_live in Hl; by rewrite Hslot in Hl.
  - destruct (remove_cases a w g slot Hwf Hw) as (ar' & Hwf1 & Hl & [[Hnil ->]|[Hne ->]]); simpl.
    + etrans; [apply detach_evolves|apply reclaim_evolves].
    + apply detach_evolves.
Qed.

(** ** Coalescing: at most one open request per handler and key *)

Definition exact_keys (a : abstract_broker) : Prop :=
  forall r1 r2 ar1 ar2, a_live a r1 = Some ar1 -> a_live a r2 = Some ar2 ->
    is_visible (a_state ar1) = false -> is_visible (a_state ar2) = false ->
    a_handler ar1 = a_handler ar2 -> a_key ar1 = a_key ar2 -> r1 = r2.

(** Every live request of [a'] was live in [a], at the same stage or an earlier one. *)
Definition inherits (a a' : abstract_broker) : Prop :=
  forall r ar', a_live a' r = Some ar' -> exists ar, a_live a r = Some ar /\
    a_key ar = a_key ar' /\ a_handler ar = a_handler ar' /\
    (is_visible (a_state ar') = false -> is_visible (a_state ar) = false).

Lemma inherits_exact a a' : inherits a a' -> exact_keys a -> exact_keys a'.
Proof.
  intros Hin Hk r1 r2 ar1 ar2 H1 H2 Hv1 Hv2 Hh Hkey.
  destruct (Hin r1 ar1 H1) as (br1 & Hb1 & Hk1 & Hh1 & Hvis1).
  destruct (Hin r2 ar2 H2) as (br2 & Hb2 & Hk2 & Hh2 & Hvis2).
  apply (Hk r1 r2 br1 br2); auto; congruence.
Qed.

Lemma set_live_inherits slot f a :
  (forall ar, a_key (f ar) = a_key ar /\ a_handler (f ar) = a_handler ar /\
     (a_live a slot = Some ar -> is_visible (a_state (f ar)) = false ->
      is_visible (a_state ar) = false)) ->
  inherits a (set_live slot f a).
Proof.
  intros Hf r ar'. rewrite a_live_set_live. case_decide; [subst|by eauto].
  destruct (a_live a r) as [ar|] eqn:Hr; [|done]. intros [= <-]. exists ar.
  destruct (Hf ar) as (? & ? & Hv). eauto.
Qed.

Lemma reclaim_inherits slot a : inherits a (a_reclaim slot a).
Proof.
  assert (forall r, a_live (a_reclaim slot a) r = a_live (a_vacate slot a) r) as Heq.
  { intros r. unfold a_reclaim, a_release_credit. repeat case_match; done. }
  intros r ar'. rewrite Heq, a_live_vacate. case_decide; [done|]. eauto.
Qed.

Lemma position_None {A} (p : A -> bool) l i x : position p l = None -> l !! i = Some x -> p x = false.
Proof.
  revert i. induction l as [|y l IH]; intros i; simpl; [done|].
  destruct (p y) eqn:Hy; [done|]. destruct (position p l); [done|]. intros _.
  destruct i; simpl; [by intros [= <-]|by apply IH].
Qed.

Lemma no_match_distinct h k a r ar :
  position (a_matches h k) (a_requests a) = None -> a_live a r = Some ar ->
  is_visible (a_state ar) = false -> a_handler ar = h -> a_key ar = k -> False.
Proof.
  intros Hpos [g Hr]%a_live_Some Hv Hh Hk. apply (position_None _ _ r _ Hpos) in Hr.
  unfold a_matches in Hr. simpl in Hr. rewrite Hv, !bool_decide_true in Hr by done. done.
Qed.

Lemma astep_exact_keys a a' : well_formed a -> astep a a' -> exact_keys a -> exact_keys a'.
Proof.
  intros Hwf Hs. destruct Hs as [a slot ar s Hlive Hadv|a slot ar w g0 Hlive Hvis Hw Hmax
    |a h k slot w gr g0 a1 Hpos Hslot Hr Hw Hmax Hacq|a w g slot Hw].
  - apply inherits_exact, (set_live_inherits slot (areq_state s) a). intros ar0. split; [done|].
    split; [done|]. rewrite Hlive. intros [= <-]. by destruct Hadv.
  - apply inherits_exact, (set_live_inherits slot (fun r => areq_waiters _ r) a). done.
  - intros Hk. pose proof (acquire_credit_spec a Hwf) as Ha. rewrite Hacq in Ha.
    destruct Ha as (ps & -> & _ & _).
    assert (slot < length (a_requests a))%nat as Hlt by (apply lookup_lt_is_Some; eauto).
    assert (forall r ar, a_live (a_attach w (g0 + 1) slot
      (a_insert_request slot (gr + 1) (mkAreq k h Pending []) (with_pools ps a))) r = Some ar ->
      (r = slot /\ a_handler ar = h /\ a_key ar = k) \/ (r <> slot /\ a_live a r = Some ar)) as Hcase.
    { intros r ar. rewrite a_live_attach. unfold a_live. simpl. case_decide; [subst|].
      - rewrite list_lookup_insert_eq by done. intros [= <-]. by left.
      - rewrite list_lookup_insert_ne by done. auto. }
    intros r1 r2 ar1 ar2 [(-> & Hh1 & Hk1)|[? H1]]%Hcase [(-> & Hh2 & Hk2)|[? H2]]%Hcase
      Hv1 Hv2 Hh Hkey; [done|..].
    + exfalso. eapply (no_match_distinct h k a r2 ar2); eauto; congruence.
    + exfalso. eapply (no_match_distinct h k a r1 ar1); eauto; congruence.
    + by eapply Hk.
  - destruct (remove_cases a w g slot Hwf Hw) as (ar' & Hwf1 & Hl & [[Hnil ->]|[Hne ->]]); simpl;
      intros Hk; [eapply inherits_exact; [apply reclaim_inherits|]|];
      (eapply inherits_exact; [|exact Hk]);
      by apply (set_live_inherits slot (fun r => areq_waiters _ r) a).
Qed.

(** ** Shared credits *)

(** Credits of pool [i] that this broker does not account for. *)
Definition balance (a : abstract_broker) (i : nat) : option Z :=
  (fun p => live_requests p - (if decide (a_credit_pool a = Some i) then a_live_count a else 0))
    <$> a_pools a !! i.

Lemma balance_same a a' i :
  a_pools a' = a_pools a -> a_credit_pool a' = a_credit_pool a ->
  a_live_count a' = a_live_count a -> balance a' i = balance a i.
Proof. unfold balance. by intros -> -> ->. Qed.

Lemma attach_live_count w g slot a : a_live_count (a_attach w g slot a) = a_live_count a.
Proof. apply (a_live_count_set_live slot (fun r => areq_waiters _ r) a). Qed.

Lemma balance_insert a a1 w wg slot gr g k h i :
  well_formed a -> a_requests a !! slot = Some (gr, None) -> a_acquire a = (true, a1) ->
  balance (a_attach w wg slot (a_insert_request slot g (mkAreq k h Pending []) a1)) i = balance a i.
Proof.
  intros Hwf Hslot Hacq.
  assert (a_live_count (a_insert_request slot g (mkAreq k h Pending []) a1) = a_live_count a1 + 1 /\
    a_credit_pool a1 = a_credit_pool a /\ a_requests a1 = a_requests a) as (Hcnt & Hcp & Hreq).
  { pose proof (acquire_credit_spec a Hwf) as Ha. rewrite Hacq in Ha.
    destruct Ha as (ps & -> & _ & _). split; [|done]. unfold a_live_count. simpl.
    erewrite count_insert by done. unfold weight. simpl. lia. }
  unfold balance. rewrite attach_live_count, Hcnt. simpl. rewrite Hcp.
  replace (a_live_count a1) with (a_live_count a) by (unfold a_live_count; by rewrite Hreq).
  unfold a_acquire in Hacq. destruct (a_credit_pool a) as [j|] eqn:Hj.
  - destruct (a_pools a !! j) as [p|] eqn:Hp; [|done].
    unfold RequestCreditPool.try_acquire, RequestCreditPool.with_word, try_update in Hacq.
    destruct (capacity p <=? live_requests p); [by simplify_eq/=|].
    unfold checked_add_usize in Hacq. destruct (_ <=? usize_MAX); [|by simplify_eq/=].
    simplify_eq/=. case_decide as Hij; simplify_eq/=.
    + rewrite list_lookup_insert_eq by (apply lookup_lt_is_Some; eauto). rewrite Hp. simpl.
      f_equal. lia.
    + rewrite list_lookup_insert_ne by congruence. by destruct (a_pools a !! i).
  - by simplify_eq/=.
Qed.

Lemma balance_reclaim a slot ar i :
  well_formed_but (Some slot) a -> a_live a slot = Some ar ->
  balance (a_reclaim slot a) i = balance a i.
Proof.
  intros Hwf Hlive. destruct (release_credit_spec a slot ar Hwf Hlive) as (<- & Hrel & _).
  pose proof (a_live_count_vacate slot a ar Hlive) as Hcnt.
  unfold a_release_credit. change (a_credit_pool (a_vacate slot a)) with (a_credit_pool a).
  change (a_pools (a_vacate slot a)) with (a_pools a).
  destruct (a_credit_pool a) as [j|] eqn:Hj.
  - destruct (Hrel j eq_refl) as (p & Hp & Hr). rewrite Hp, Hr. unfold balance.
    change (a_live_count (with_pools ?ps (a_vacate slot a))) with (a_live_count (a_vacate slot a)).
    rewrite Hcnt. simpl. rewrite Hj. case_decide; simplify_eq.
    + rewrite list_lookup_insert_eq by (apply lookup_lt_is_Some; eauto). rewrite Hp. simpl.
      f_equal. lia.
    + rewrite list_lookup_insert_ne by congruence. done.
  - unfold balance. simpl. by rewrite !Hj, !decide_False.
Qed.

Lemma astep_balance a a' i : well_formed a -> astep a a' -> balance a' i = balance a i.
Proof.
  intros Hwf Hs. destruct Hs as [a slot ar s Hlive Hadv|a slot ar w g0 Hlive Hvis Hw Hmax
    |a h k slot w gr g0 a1 Hpos Hslot Hr Hw Hmax Hacq|a w g slot Hw].
  - apply balance_same; [done..|]. apply (a_live_count_set_live slot (areq_state s) a).
  - apply balance_same; [done..|]. apply attach_live_count.
  - by eapply balance_insert.
  - assert (balance (a_detach w slot a) i = balance a i) as Hd.
    { apply balance_same; [done..|]. apply (a_live_count_set_live slot (fun r => areq_waiters _ r) a). }
    destruct (remove_cases a w g slot Hwf Hw) as (ar' & Hwf1 & Hl & [[Hnil ->]|[Hne ->]]); simpl;
      [|done]. rewrite <- Hd. by eapply balance_reclaim.
Qed.

Lemma steps_well_formed a a' : well_formed a -> rtc astep a a' -> well_formed a'.
Proof. induction 2; [done|]. eauto using astep_well_formed. Qed.

Lemma steps_evolves a a' : well_formed a -> rtc astep a a' -> evolves a a'.
Proof. apply steps_induction; [apply _|]. apply astep_evolves. Qed.

Lemma steps_exact_keys a a' : well_formed a -> rtc astep a a' -> exact_keys a -> exact_keys a'.
Proof. induction 2; [done|]. eauto using astep_well_formed, astep_exact_keys. Qed.

Lemma steps_balance a a' i : well_formed a -> rtc astep a a' -> balance a' i = balance a i.
Proof.
  intros Hwf. induction 1 as [|a a1 a' Hs _ IH]; [done|].
  rewrite IH by (by eapply astep_well_formed). by apply astep_balance.
Qed.

End Steps.
