(* ===== verification/FaultGuarantees.v ===== *)
(** Fault broker, part 12: operations, runs and reachable states.

    [execute] runs one public method of the broker, [run] a sequence of them.
    [reachable] states start from a successful construction and are closed
    under operations and under the use other brokers make of the shared credit
    pools.

    Fault broker, part 13: lemmas behind the guarantees of the broker: tokens,
    observations, admissions, bulk completion and occupancy. *)

From stdpp Require Import relations.
From S2P Require Import Prelude Effects Atomics FaultBroker FaultSpec FaultLinks FaultTransitions FaultAdmission FaultRemoval FaultSteps.
Local Open Scope Z_scope.

Section Trace.
Context {K H C : Type} `{EqDecision K} `{EqDecision H}.
Local Abbreviation Env := (Env K H C).
Local Abbreviation FaultBroker := (FaultBroker K H C).
Local Abbreviation abstract_broker := (abstract_broker K H C).
Local Abbreviation RequestSnapshot := (RequestSnapshot K H).
Implicit Types (b : FaultBroker) (e : Env) (a : abstract_broker).

(** ** Operations *)

Inductive operation : Type :=
| OpAdmit (h : H) (k : K)
| OpClaimNext (h : H)
| OpComplete (t : RequestToken) (c : C) (v : CompletionVisibility)
| OpRelease (t : RequestToken)
| OpCompleteWhere (p : RequestSnapshot -> bool) (c : C) (v : CompletionVisibility)
| OpReleaseWhere (p : RequestSnapshot -> bool)
| OpDetachHandler (h : H) (c : C)
| OpCancelWaiter (t : WaiterToken)
| OpTakeWaiter (t : WaiterToken).

Inductive response : Type :=
| RAdmit (r : result FaultAdmission AdmissionError)
| RClaim (r : option RequestSnapshot)
| REffect (r : result CompletionEffect RequestError)
| RSummary (r : CompletionSummary)
| RCancel (r : result (CancelledWaiter C) WaiterError)
| RTake (r : result (TakenCompletion C) WaiterError).

(** The response of a method that ends; [None] for a panic or a divergence. *)
Definition answer {A E} (f : result A E -> response) (o : outcome Env E A)
    : option (response * Env) :=
  match o with
  | Done x e => Some (f (Ok x), e)
  | Fail x e => Some (f (Err x), e)
  | Panic | Diverged => None
  end.

(** Methods without an error type. *)
Definition infallible {A} (f : A -> response) (r : result A Empty_set) : response :=
  match r with Ok x => f x | Err x => match x : Empty_set with end end.

Definition execute (op : operation) (e : Env) : option (response * Env) :=
  match op with
  | OpAdmit h k => answer RAdmit (broker_admit h k e)
  | OpClaimNext h => answer (infallible RClaim) (claim_next h e)
  | OpComplete t c v => answer REffect (complete t c v e)
  | OpRelease t => answer REffect (release t e)
  | OpCompleteWhere p c v => answer (infallible RSummary) (complete_where p c v e)
  | OpReleaseWhere p => answer (infallible RSummary) (release_where p e)
  | OpDetachHandler h c => answer (infallible RSummary) (detach_handler h c e)
  | OpCancelWaiter t => answer RCancel (cancel_waiter t e)
  | OpTakeWaiter t => answer RTake (take_waiter_completion t e)
  end.

Definition spec_execute (op : operation) (a : abstract_broker) : response * abstract_broker :=
  match op with
  | OpAdmit h k => let '(r, a) := spec_admit h k a in (RAdmit r, a)
  | OpClaimNext h => let '(r, a) := spec_claim_next h a in (RClaim r, a)
  | OpComplete t c v => let '(r, a) := spec_complete t c v a in (REffect r, a)
  | OpRelease t => let '(r, a) := spec_release t a in (REffect r, a)
  | OpCompleteWhere p c v => let '(r, a) := spec_complete_where p c v a in (RSummary r, a)
  | OpReleaseWhere p => let '(r, a) := spec_release_where p a in (RSummary r, a)
  | OpDetachHandler h c => let '(r, a) := spec_detach_handler h c a in (RSummary r, a)
  | OpCancelWaiter t => let '(r, a) := spec_cancel_waiter t a in (RCancel r, a)
  | OpTakeWaiter t => let '(r, a) := spec_take_waiter t a in (RTake r, a)
  end.

Lemma answer_simulates {A E} (f : result A E -> response) o spec :
  simulates o spec -> exists e', answer f o = Some (f spec.1, e') /\
    refines e' spec.2 /\ well_formed spec.2.
Proof. intros (e' & -> & ?). exists e'. by destruct spec.1. Qed.

Lemma answer_performs {A} (f : A -> response) (o : outcome Env Empty_set A) spec :
  performs o spec -> exists e', answer (infallible f) o = Some (f spec.1, e') /\
    refines e' spec.2 /\ well_formed spec.2.
Proof. intros (e' & -> & ?). by exists e'. Qed.

Lemma execute_refines op e a :
  refines e a -> well_formed a ->
  exists e', execute op e = Some ((spec_execute op a).1, e') /\
    refines e' (spec_execute op a).2 /\ well_formed (spec_execute op a).2.
Proof.
  intros Href Hwf. destruct op as [h k|h|t c v|t|p c v|p|h c|t|t]; simpl execute; simpl spec_execute.
  - destruct (answer_simulates RAdmit _ _ (admit_simulates_spec h k e a Href Hwf)) as (e' & -> & Hr).
    exists e'. by destruct (spec_admit h k a).
  - destruct (answer_performs RClaim _ _ (claim_next_performs h e a Href Hwf)) as (e' & -> & Hr).
    exists e'. by destruct (spec_claim_next h a).
  - destruct (answer_simulates REffect _ _ (complete_simulates_spec e a t c v Href Hwf)) as (e' & -> & Hr).
    exists e'. by destruct (spec_complete t c v a).
  - destruct (answer_simulates REffect _ _ (release_simulates_spec e a t Href Hwf)) as (e' & -> & Hr).
    exists e'. by destruct (spec_release t a).
  - destruct (answer_performs RSummary _ _ (complete_where_performs p c v e a Href Hwf)) as (e' & -> & Hr).
    exists e'. by destruct (spec_complete_where p c v a).
  - destruct (answer_performs RSummary _ _ (release_where_performs p e a Href Hwf)) as (e' & -> & Hr).
    exists e'. by destruct (spec_release_where p a).
  - destruct (answer_performs RSummary _ _ (detach_handler_performs h c e a Href Hwf)) as (e' & -> & Hr).
    exists e'. by destruct (spec_detach_handler h c a).
  - destruct (answer_simulates RCancel _ _ (cancel_waiter_simulates_spec e a t Href Hwf)) as (e' & -> & Hr).
    exists e'. by destruct (spec_cancel_waiter t a).
  - destruct (answer_simulates RTake _ _ (take_waiter_simulates_spec e a t Href Hwf)) as (e' & -> & Hr).
    exists e'. by destruct (spec_take_waiter t a).
Qed.

Lemma spec_execute_steps op a : well_formed a -> rtc astep a (spec_execute op a).2.
Proof.
  intros Hwf. destruct op as [h k|h|t c v|t|p c v|p|h c|t|t]; simpl.
  - pose proof (admit_steps h k a Hwf). by destruct (spec_admit h k a).
  - pose proof (claim_next_steps h a Hwf). by destruct (spec_claim_next h a).
  - pose proof (complete_steps t c v a). by destruct (spec_complete t c v a).
  - pose proof (release_steps t a). by destruct (spec_release t a).
  - pose proof (complete_where_steps p c v a). by destruct (spec_complete_where p c v a).
  - pose proof (release_where_steps p a). by destruct (spec_release_where p a).
  - pose proof (detach_handler_steps h c a). by destruct (spec_detach_handler h c a).
  - pose proof (cancel_waiter_steps t a). by destruct (spec_cancel_waiter t a).
  - pose proof (take_waiter_steps t a). by destruct (spec_take_waiter t a).
Qed.

(** ** Runs *)

Fixpoint run (ops : list operation) (e : Env) : option (list response * Env) :=
  match ops with
  | [] => Some ([], e)
  | op :: ops =>
      '(r, e1) ← execute op e; '(rs, e2) ← run ops e1; Some (r :: rs, e2)
  end.

Fixpoint spec_run (ops : list operation) (a : abstract_broker)
    : list response * abstract_broker :=
  match ops with
  | [] => ([], a)
  | op :: ops =>
      let '(r, a1) := spec_execute op a in
      let '(rs, a2) := spec_run ops a1 in (r :: rs, a2)
  end.

Lemma run_refines ops e a :
  refines e a -> well_formed a ->
  exists e', run ops e = Some ((spec_run ops a).1, e') /\
    refines e' (spec_run ops a).2 /\ well_formed (spec_run ops a).2 /\
    rtc astep a (spec_run ops a).2.
Proof.
  revert e a. induction ops as [|op ops IH]; intros e a Href Hwf; [by exists e|].
  cbn [run spec_run]. destruct (execute_refines op e a Href Hwf) as (e1 & -> & Href1 & Hwf1).
  pose proof (spec_execute_steps op a Hwf) as Hs. destruct (spec_execute op a) as [r a1]. simpl in *.
  destruct (IH e1 a1 Href1 Hwf1) as (e2 & -> & Href2 & Hwf2 & Hs2).
  destruct (spec_run ops a1) as [rs a2]. simpl in *. exists e2. split; [done|]. split; [done|].
  split; [done|]. by etrans.
Qed.

(** A run that ends is matched by the abstract broker. *)
Lemma run_abstract ops e a rs e' :
  refines e a -> well_formed a -> run ops e = Some (rs, e') ->
  exists a', refines e' a' /\ well_formed a' /\ rtc astep a a'.
Proof.
  intros Href Hwf Hrun. destruct (run_refines ops e a Href Hwf) as (e1 & Hrun1 & ? & ? & ?).
  simplify_eq. eauto.
Qed.

(** ** Reachable states *)

(** The state of the pools a broker may be bound to. *)
Definition pool_ready (ps : list RequestCreditPool) (pool : option nat) (owned : Z) : Prop :=
  match pool with
  | None => True
  | Some i =>
      match ps !! i with
      | Some p => owned <= live_requests p <= capacity p /\ capacity p < usize_MAX
      | None => False
      end
  end.

#[export] Instance pool_ready_dec ps pool owned : Decision (pool_ready ps pool owned).
Proof. unfold pool_ready. repeat case_match; apply _. Defined.

Inductive reachable : Env -> Prop :=
| reach_new ps request_ok waiter_ok counter counter' request_capacity waiter_capacity pool b :
    try_new_inner request_ok waiter_ok counter request_capacity waiter_capacity pool =
      (Ok b, counter') ->
    in_usize request_capacity -> in_usize waiter_capacity -> pool_ready ps pool 0 ->
    reachable (mkEnv ps b)
| reach_operation e op r e' :
    reachable e -> execute op e = Some (r, e') -> reachable e'
| reach_interference e ps :
    reachable e -> pool_ready ps (credit_pool (broker e)) (live_request_count (broker e)) ->
    reachable (mkEnv ps (broker e)).

Lemma refines_live_count e a : refines e a -> live_request_count (broker e) = a_live_count a.
Proof.
  intros Href. unfold live_request_count, a_live_count. apply count_ext.
  - by apply refines_request_length.
  - intros i s as_ Hs Ha. by destruct (refines_pair _ _ _ _ _ Href Hs Ha) as (_ & -> & _).
Qed.

(** The abstract broker after construction. *)
Definition spec_new (new_id : Z) (request_capacity waiter_capacity : Z) (pool : option nat)
    (ps : list RequestCreditPool) : abstract_broker :=
  mkAbroker new_id (replicate (Z.to_nat request_capacity) (0, None))
    (replicate (Z.to_nat waiter_capacity) (0, None)) [] pool ps.

Lemma lookup_replicate_eq {A} n (x y : A) i : replicate n x !! i = Some y -> y = x.
Proof. by intros [-> _]%lookup_replicate. Qed.

Lemma new_well_formed new_id rc wc pool ps :
  in_usize rc -> in_usize wc -> rc <> usize_MAX -> wc <> usize_MAX -> pool_ready ps pool 0 ->
  well_formed (spec_new new_id rc wc pool ps) /\ exact_keys (spec_new new_id rc wc pool ps).
Proof.
  intros Hrc Hwc Hrc' Hwc' Hp.
  assert (forall r, a_live (spec_new new_id rc wc pool ps) r = None) as Hdead.
  { intros r. unfold a_live. simpl. destruct (replicate _ _ !! r) as [s|] eqn:Hs; [|done].
    by apply lookup_replicate_eq in Hs as ->. }
  split; [|intros r1 ? ?; by rewrite Hdead].
  split.
  - intros r ar. by rewrite Hdead.
  - intros r ar w. by rewrite Hdead.
  - intros w g r Hw. by apply lookup_replicate_eq in Hw.
  - apply NoDup_nil_2.
  - intros r. rewrite Hdead. split; [by intros ?%elem_of_nil|naive_solver].
  - intros r g o Hr. apply lookup_replicate_eq in Hr. simplify_eq. unfold u64_MAX. split; [lia|done].
  - intros w g o Hw. apply lookup_replicate_eq in Hw. simplify_eq. unfold u64_MAX. split; [lia|done].
  - simpl. unfold zlen. rewrite !length_replicate. unfold in_usize in *. lia.
  - intros i Hi. simpl in Hi. subst pool. simpl in Hp. destruct (ps !! i) as [p|] eqn:Hpi; [|done].
    exists p. split; [done|]. unfold a_live_count. simpl. rewrite count_all_false; [done|].
    by intros [g o] [[= -> ->] _]%elem_of_replicate.
Qed.

Lemma new_refines ps request_ok waiter_ok counter counter' rc wc pool b :
  try_new_inner request_ok waiter_ok counter rc wc pool = (Ok b, counter') ->
  rc <> usize_MAX /\ wc <> usize_MAX /\ refines (mkEnv ps b) (spec_new counter rc wc pool ps).
Proof.
  unfold try_new_inner. destruct (Z.eqb_spec rc usize_MAX), (Z.eqb_spec wc usize_MAX); try done.
  simpl. destruct request_ok, waiter_ok; try done. simpl. unfold try_update.
  destruct (checked_add_u64 counter 1); [|done]. intros [= <- _]. split; [done|]. split; [done|].
  split; simpl; try done.
  - intros i. unfold core_at. simpl. destruct (decide (i < Z.to_nat rc)%nat).
    + by rewrite !lookup_replicate_2.
    + by rewrite !lookup_ge_None_2 by (rewrite length_replicate; lia).
  - intros i. unfold wcore_at. simpl. destruct (decide (i < Z.to_nat wc)%nat).
    + by rewrite !lookup_replicate_2.
    + by rewrite !lookup_ge_None_2 by (rewrite length_replicate; lia).
Qed.

Lemma reachable_abstract e :
  reachable e -> exists a, refines e a /\ well_formed a /\ exact_keys a.
Proof.
  induction 1 as [ps ro wo counter counter' rc wc pool b Hnew Hrc Hwc Hp
    |e op r e' _ (a & Href & Hwf & Hk) Hrun|e ps _ (a & Href & Hwf & Hk) Hp].
  - destruct (new_refines ps _ _ _ _ _ _ _ _ Hnew) as (? & ? & Href).
    exists (spec_new counter rc wc pool ps). split; [done|]. by apply new_well_formed.
  - destruct (execute_refines op e a Href Hwf) as (e1 & Hrun1 & ? & ?). simplify_eq.
    exists (spec_execute op a).2. split; [done|]. split; [done|].
    eapply steps_exact_keys; [exact Hwf| |done]. by apply spec_execute_steps.
  - exists (with_pools ps a). split; [by apply with_pools_refines|]. split; [|done].
    apply with_pools_well_formed; [done|]. intros i Hi. simpl in Hi.
    rewrite (ref_pool _ _ Href), Hi, (refines_live_count _ _ Href) in Hp. simpl in Hp |- *.
    destruct (ps !! i) as [p|]; [|done]. by exists p.
Qed.

End Trace.

Arguments operation : clear implicits.
Arguments response : clear implicits.

Section Lemmas.
Context {K H C : Type} `{EqDecision K} `{EqDecision H}.
Local Abbreviation Env := (Env K H C).
Local Abbreviation FaultBroker := (FaultBroker K H C).
Local Abbreviation abstract_broker := (abstract_broker K H C).
Local Abbreviation abstract_request := (abstract_request K H C).
Local Abbreviation RequestSnapshot := (RequestSnapshot K H).
Implicit Types (b : FaultBroker) (e : Env) (a : abstract_broker).

(** The handler of the live request in slot [i]. *)
Definition handler_at (b : FaultBroker) (i : nat) : option H :=
  handler <$> (requests b !! i ≫= record).

Lemma refines_handler_at e a i :
  refines e a -> handler_at (broker e) i = a_handler <$> a_live a i.
Proof.
  intros Href. unfold handler_at. destruct (a_live a i) as [ar|] eqn:Hl.
  - apply a_live_Some in Hl as [g Hg].
    destruct (refines_live _ _ _ _ _ Href Hg) as (s & r & -> & Hr & _ & (_ & Hh & _)).
    simpl in *. rewrite Hr. simpl. by rewrite Hh.
  - destruct (requests (broker e) !! i) as [s|] eqn:Hs; [|done]. simpl.
    destruct (record s) as [r|] eqn:Hr; [|done]. exfalso.
    assert (is_Some (a_requests a !! i)) as [as_ Ha] by (eapply refines_request_slot; eauto).
    destruct (refines_pair _ _ _ _ _ Href Hs Ha) as (_ & _ & Hp).
    destruct (Hp r Hr) as (ar & Har & _). unfold a_live in Hl. rewrite Ha in Hl. simpl in Hl. congruence.
Qed.

Lemma a_for_handler h a i : a_for h a i = bool_decide (a_handler <$> a_live a i = Some h).
Proof.
  unfold a_for. destruct (a_live a i) as [ar|]; simpl.
  - apply bool_decide_ext. split; [by intros ->|by intros [= ->]].
  - done.
Qed.

(** ** Tokens *)

(** [t] names this broker and a generation its slot has already used. *)
Definition issued (b : FaultBroker) (t : RequestToken) : Prop :=
  rt_broker t = id b /\
  exists s, requests b !! rt_slot t = Some s /\ rt_generation t <= generation s.

Definition issued_waiter (b : FaultBroker) (t : WaiterToken) : Prop :=
  wt_broker t = id b /\
  exists s, waiters b !! wt_slot t = Some s /\ wt_generation t <= wgeneration s.

Lemma refines_issued e a t :
  refines e a -> issued (broker e) t <->
  rt_broker t = a_id a /\ exists s, a_requests a !! rt_slot t = Some s /\ rt_generation t <= s.1.
Proof.
  intros Href. unfold issued. rewrite (ref_id _ _ Href). split; intros (Hid & s & Hs & Hg);
    (split; [done|]).
  - assert (is_Some (a_requests a !! rt_slot t)) as [as_ Ha] by (eapply refines_request_slot; eauto).
    destruct (refines_pair _ _ _ _ _ Href Hs Ha) as [Heq _]. exists as_. by rewrite <- Heq.
  - assert (is_Some (requests (broker e) !! rt_slot t)) as [s' Hs'] by (eapply refines_request_slot; eauto).
    destruct (refines_pair _ _ _ _ _ Href Hs' Hs) as [Heq _]. exists s'. by rewrite Heq.
Qed.

Lemma refines_waiter_generation e a w s as_ :
  refines e a -> waiters (broker e) !! w = Some s -> a_waiter_slots a !! w = Some as_ ->
  wgeneration s = as_.1.
Proof.
  intros Href Hs Ha. pose proof (ref_waiter _ _ Href w) as Hrel. unfold wcore_at in Hrel.
  rewrite Hs, Ha in Hrel. simpl in Hrel. destruct as_ as [g [r|]], (wrecord s); simpl in *;
    destruct_and?; done.
Qed.

Lemma refines_issued_waiter e a t :
  refines e a -> issued_waiter (broker e) t <->
  wt_broker t = a_id a /\ exists s, a_waiter_slots a !! wt_slot t = Some s /\ wt_generation t <= s.1.
Proof.
  intros Href. unfold issued_waiter. rewrite (ref_id _ _ Href). split; intros (Hid & s & Hs & Hg);
    (split; [done|]).
  - assert (is_Some (a_waiter_slots a !! wt_slot t)) as [as_ Ha] by (eapply refines_waiter_slot; eauto).
    exists as_. by rewrite <- (refines_waiter_generation _ _ _ _ _ Href Hs Ha).
  - assert (is_Some (waiters (broker e) !! wt_slot t)) as [s' Hs'] by (eapply refines_waiter_slot; eauto).
    exists s'. by rewrite (refines_waiter_generation _ _ _ _ _ Href Hs' Hs).
Qed.

(** A stale issued token stays stale while the broker evolves. *)
Lemma stale_request_evolves a a' t :
  evolves a a' -> rt_broker t = a_id a ->
  (exists s, a_requests a !! rt_slot t = Some s /\ rt_generation t <= s.1) ->
  a_request_index a t = None -> a_request_index a' t = None.
Proof.
  intros Hev Hid (s & Hs & Hg) Hidx. destruct (ev_request _ _ Hev _ _ Hs) as (s' & Hs' & He).
  unfold a_request_index in *. rewrite (ev_id _ _ Hev). rewrite <- Hid, Z.eqb_refl in *. simpl in *.
  rewrite Hs in Hidx. rewrite Hs'. destruct s as [g o], s' as [g' o']. simpl in *.
  destruct o' as [ar'|]; [|done]. destruct (Z.eqb_spec g' (rt_generation t)) as [Heq|]; [|done].
  exfalso. destruct He as [|[Hgg He]]; simpl in *; [lia|]. destruct o as [ar|]; [|done].
  rewrite (proj2 (Z.eqb_eq _ _)) in Hidx by lia. done.
Qed.

Lemma stale_waiter_evolves a a' t :
  evolves a a' -> wt_broker t = a_id a ->
  (exists s, a_waiter_slots a !! wt_slot t = Some s /\ wt_generation t <= s.1) ->
  a_waiter_index a t = None -> a_waiter_index a' t = None.
Proof.
  intros Hev Hid (s & Hs & Hg) Hidx. destruct (ev_waiter _ _ Hev _ _ Hs) as (s' & Hs' & He).
  unfold a_waiter_index in *. rewrite (ev_id _ _ Hev). rewrite <- Hid, Z.eqb_refl in *. simpl in *.
  rewrite Hs in Hidx. rewrite Hs'. destruct s as [g o], s' as [g' o']. simpl in *.
  destruct o' as [r'|]; [|done]. destruct (Z.eqb_spec g' (wt_generation t)) as [Heq|]; [|done].
  exfalso. destruct He as [|[Hgg He]]; simpl in *; [lia|]. destruct o as [r|]; [|done].
  rewrite (proj2 (Z.eqb_eq _ _)) in Hidx by lia. done.
Qed.

Lemma request_index_None e a t :
  refines e a -> request_index (broker e) t = Err RequestStaleOrForeign <-> a_request_index a t = None.
Proof. intros Href. rewrite (refines_request_index _ _ _ Href). by destruct (a_request_index a t). Qed.

Lemma waiter_index_None e a t :
  refines e a -> waiter_index (broker e) t = Err WaiterStaleOrForeign <-> a_waiter_index a t = None.
Proof. intros Href. rewrite (refines_waiter_index _ _ _ Href). by destruct (a_waiter_index a t). Qed.

(** ** Observations *)

Lemma waiter_observation_spec e a t :
  refines e a -> well_formed a ->
  waiter_observation (broker e) t =
    match a_waiter_index a t with
    | None => Err WaiterStaleOrForeign
    | Some w => match a_observe a w with
                | Some (Ready c) => Ok (ObservedReady c)
                | _ => Ok ObservedPending
                end
    end.
Proof.
  intros Href Hwf. unfold waiter_observation. rewrite (refines_waiter_index _ _ _ Href).
  destruct (a_waiter_index a t) as [w|] eqn:Hidx; [|done]. simpl.
  destruct (waiter_index_live _ _ _ Hidx) as (-> & slot & Hw).
  destruct (refines_observe _ _ _ _ _ Href Hw) as (s & wr & Hs & Hr & Hobs).
  rewrite Hs. simpl. rewrite Hr, Hobs. by destruct (wstate wr).
Qed.

(** While a waiter is registered, its request only advances. *)
Lemma observed_request_evolves a a' w g slot :
  well_formed a -> well_formed a' -> evolves a a' ->
  a_waiter_slots a !! w = Some (g, Some slot) -> a_waiter_slots a' !! w = Some (g, Some slot) ->
  exists ar ar', a_live a slot = Some ar /\ a_live a' slot = Some ar' /\
    rtc advances (a_state ar) (a_state ar').
Proof.
  intros Hwf Hwf' Hev Hw Hw'.
  destruct (wf_waiter_live _ Hwf w g slot Hw) as (ar & Hl & _).
  destruct (wf_waiter_live _ Hwf' w g slot Hw') as (ar' & Hl' & _).
  exists ar, ar'. split; [done|]. split; [done|].
  destruct (ev_waiter _ _ Hev w _ Hw) as (s' & Hs' & He). rewrite Hw' in Hs'. injection Hs' as <-.
  destruct He as [He|[_ [_ Hgen]]]; [simpl in He; lia|].
  apply a_live_Some in Hl as [gr Hgr]. apply a_live_Some in Hl' as [gr' Hgr'].
  destruct (ev_request _ _ Hev slot _ Hgr) as (s2 & Hs2 & He2). rewrite Hgr' in Hs2.
  injection Hs2 as <-. unfold request_generation in Hgen. rewrite Hgr, Hgr' in Hgen.
  injection Hgen as ->. destruct He2 as [He2|[_ (_ & _ & Hadv)]]; [simpl in He2; lia|done].
Qed.

Lemma a_observe_live a w g slot ar :
  a_waiter_slots a !! w = Some (g, Some slot) -> a_live a slot = Some ar ->
  a_observe a w = Some (a_waiter_state (a_state ar)).
Proof. intros Hw Hl. unfold a_observe. rewrite Hw. simpl. by rewrite Hl. Qed.

Lemma observation_evolves a a' t w c :
  well_formed a -> well_formed a' -> evolves a a' ->
  a_waiter_index a t = Some w -> a_observe a w = Some (Ready c) ->
  a_waiter_index a' t = None \/ (a_waiter_index a' t = Some w /\ a_observe a' w = Some (Ready c)).
Proof.
  intros Hwf Hwf' Hev Hidx Hobs. destruct (waiter_index_live _ _ _ Hidx) as (Heq & slot & Hw).
  destruct (a_waiter_index a' t) as [w'|] eqn:Hidx'; [right|by left].
  destruct (waiter_index_live _ _ _ Hidx') as (Heq' & slot' & Hw').
  assert (w' = w) as -> by congruence. split; [done|].
  destruct (ev_waiter _ _ Hev w _ Hw) as (s' & Hs' & He). rewrite Hw' in Hs'. injection Hs' as <-.
  destruct He as [He|[_ [Hr _]]]; [simpl in He; lia|]. simpl in Hr. subst slot'.
  destruct (observed_request_evolves a a' w _ slot Hwf Hwf' Hev Hw Hw') as (ar & ar' & Hl & Hl' & Hadv).
  rewrite (a_observe_live a w _ slot ar Hw Hl) in Hobs.
  rewrite (a_observe_live a' w _ slot ar' Hw' Hl').
  destruct (a_state ar) as [| | | |d]; simplify_eq/=. by rewrite (advances_visible _ _ Hadv).
Qed.

(** ** Admissions *)

Lemma check_waiter_tail_reads slot t : read_only (check_waiter_tail (K := K) (H := H) (C := C) slot t).
Proof.
  unfold check_waiter_tail, read_request, self.
  apply read_only_bind; [eauto with effects|]. intros s. apply read_only_bind; [auto with effects|].
  intros r. repeat case_match; eauto with effects.
  apply read_only_bind; [auto with effects|]. intros b. apply read_only_bind; [auto with effects|].
  intros wr. case_match; auto with effects.
Qed.

Lemma check_pending_tail_reads : read_only (check_pending_tail (K := K) (H := H) (C := C)).
Proof.
  unfold check_pending_tail, self. apply read_only_bind; [auto with effects|]. intros b.
  repeat case_match; auto with effects.
  apply read_only_bind; [auto with effects|]. intros r. case_match; auto with effects.
Qed.

Lemma credit_reserve_fail_safe pool : fail_safe (credit_reserve (K := K) (H := H) (C := C) pool).
Proof.
  intros e x e'. unfold credit_reserve. destruct pool as [i|]; [|done].
  unfold pool_try_acquire, gets, expect, mbind, M_bind. destruct (pools e !! i) as [p|] eqn:Hp; [|done].
  cbv beta iota delta [mret M_ret].
  destruct (RequestCreditPool.try_acquire p) as [ok p'] eqn:Hacq. simpl. destruct ok; [done|].
  intros [= _ <-]. unfold RequestCreditPool.try_acquire, RequestCreditPool.with_word, try_update in Hacq.
  destruct (capacity p <=? live_requests p); [|destruct (checked_add_usize _ _)]; simplify_eq/=;
    destruct e as [ps b]; simpl in *; f_equal; destruct p; by apply list_insert_id.
Qed.

Lemma publish_request_never_fails h k slot g :
  never_fails (publish_request (K := K) (H := H) (C := C) h k slot g).
Proof.
  unfold publish_request, write_request, expect_request, write_request, read_request, self, update_broker.
  apply never_fails_bind; [auto with effects|]. intros b.
  apply never_fails_bind; [eauto 10 with effects|]. intros _.
  apply never_fails_bind; [destruct (pending_tail b); eauto 12 with effects|]. auto with effects.
Qed.

Lemma publish_waiter_never_fails t w g p n :
  never_fails (publish_waiter (K := K) (H := H) (C := C) t w g p n).
Proof.
  unfold publish_waiter, write_waiter, expect_request, expect_waiter, write_request, write_waiter,
    read_request, read_waiter, self, update_broker.
  apply never_fails_bind; [eauto 10 with effects|]. intros _.
  apply never_fails_bind; [destruct p; eauto 12 with effects|]. eauto 12 with effects.
Qed.

Lemma spec_admit_ok h k a adm a' :
  well_formed a -> spec_admit h k a = (Ok adm, a') ->
  exists slot g w wg ar,
    adm_request adm = mkRequestToken (a_id a) slot g /\
    adm_waiter adm = mkWaiterToken (a_id a) w (wg + 1) /\
    a_id a' = a_id a /\
    a_requests a' !! slot = Some (g, Some ar) /\ a_handler ar = h /\ a_key ar = k /\
    is_visible (a_state ar) = false /\
    a_waiter_slots a !! w = Some (wg, None) /\
    a_waiter_slots a' !! w = Some (wg + 1, Some slot) /\
    (if coalesced adm then exists ar0, a_requests a !! slot = Some (g, Some ar0)
     else a_requests a !! slot = Some (g - 1, None)).
Proof.
  intros Hwf. unfold spec_admit. destruct (position _ _) as [slot|] eqn:Hpos.
  - apply position_Some in Hpos as ([g [ar|]] & Hslot & Hm); [|done].
    destruct (a_choose (a_waiter_slots a)) as [[w wg]|[]] eqn:Hch; [|done..].
    apply a_choose_Ok in Hch as (g0 & Hw & -> & Hmax). intros [= <- <-].
    unfold a_matches in Hm. simpl in Hm. apply andb_prop in Hm as [[Hh Hk]%andb_prop Hm].
    apply bool_decide_eq_true in Hh, Hk.
    exists slot, g, w, g0, (areq_waiters (a_waiters ar ++ [w]) ar). simpl.
    rewrite Hslot. simpl. rewrite list_lookup_alter, decide_True, Hslot by done.
    rewrite list_lookup_insert_eq by (apply lookup_lt_is_Some; eauto).
    repeat split; try done; [|by eauto]. by destruct (is_visible _).
  - destruct (a_choose (a_requests a)) as [[slot g]|[]] eqn:Hchr; [|done..].
    destruct (a_choose (a_waiter_slots a)) as [[w wg]|[]] eqn:Hch; [|done..].
    apply a_choose_Ok in Hch as (g0 & Hw & -> & Hmax).
    apply a_choose_Ok in Hchr as (gr & Hslot & -> & Hrmax).
    pose proof (acquire_credit_spec a Hwf) as Ha. destruct (a_acquire a) as [[] a1]; [|done].
    destruct Ha as (ps & -> & _ & _). intros [= <- <-].
    exists slot, (gr + 1), w, g0, (mkAreq k h Pending [w]). simpl.
    rewrite list_lookup_alter, decide_True by done.
    rewrite !list_lookup_insert_eq by (apply lookup_lt_is_Some; eauto).
    repeat split; try done. by replace (gr + 1 - 1) with gr by lia.
Qed.

(** ** Completions *)

(** A completed request answers later completions with an error. *)
Lemma completed_evolves a a' t ar c c' v' :
  evolves a a' -> rt_broker t = a_id a ->
  a_requests a !! rt_slot t = Some (rt_generation t, Some ar) ->
  completion_of (a_state ar) = Some c ->
  (a_request_index a' t = None \/
   exists ar', a_requests a' !! rt_slot t = Some (rt_generation t, Some ar') /\
     completion_of (a_state ar') = Some c) /\
  exists x, (spec_complete t c' v' a').1 = Err x.
Proof.
  intros Hev Hid Hs Hc. destruct (ev_request _ _ Hev _ _ Hs) as ([g' o'] & Hs' & He).
  assert (a_request_index a' t = None \/ exists ar',
    a_requests a' !! rt_slot t = Some (rt_generation t, Some ar') /\
    completion_of (a_state ar') = Some c) as Hcase.
  { unfold a_request_index. rewrite (ev_id _ _ Hev), <- Hid, Z.eqb_refl, Hs'. simpl.
    destruct o' as [ar'|]; [|by left]. destruct (Z.eqb_spec g' (rt_generation t)); [|by left].
    right. exists ar'. split; [congruence|]. destruct He as [He|[_ (_ & _ & Hadv)]]; [simpl in He; lia|].
    by eapply advances_completion. }
  split; [done|]. unfold spec_complete. destruct Hcase as [->|(ar' & Hr & Hc')]; [by eexists|].
  destruct (a_request_index a' t) as [slot|] eqn:Hidx; [|by eexists].
  destruct (request_index_live _ _ _ Hidx) as (-> & ar1 & Hr1 & Hl). rewrite Hr in Hr1.
  injection Hr1 as <-. rewrite Hl. simpl. destruct (a_state ar'); simplify_eq/=; by eexists.
Qed.

(** After a successful completion the request carries it. *)
Lemma spec_complete_ok a t c v eff a' :
  spec_complete t c v a = (Ok eff, a') ->
  rt_broker t = a_id a /\ a_id a' = a_id a /\ exists ar',
    a_requests a' !! rt_slot t = Some (rt_generation t, Some ar') /\
    completion_of (a_state ar') = Some c.
Proof.
  unfold spec_complete. destruct (a_request_index a t) as [slot|] eqn:Hidx; [|done].
  destruct (request_index_live _ _ _ Hidx) as (-> & ar & Hr & Hl). rewrite Hl. simpl.
  assert (rt_broker t = a_id a) as Hid.
  { unfold a_request_index in Hidx. by destruct (Z.eqb_spec (rt_broker t) (a_id a)). }
  unfold spec_complete_slot. rewrite Hl.
  assert (forall s, exists ar', a_requests (spec_set_state (rt_slot t) s a) !! rt_slot t =
    Some (rt_generation t, Some ar') /\ a_state ar' = s) as Hset.
  { intros s. exists (areq_state s ar). simpl. rewrite list_lookup_alter, decide_True, Hr by done. done. }
  destruct (a_state ar), v; simpl; intros [= <- <-]; (split; [done|]); (split; [done|]);
    [destruct (Hset (StateVisible c)) as (ar' & ? & Hst)
    |destruct (Hset (DeferredPending c)) as (ar' & ? & Hst)
    |destruct (Hset (StateVisible c)) as (ar' & ? & Hst)
    |destruct (Hset (DeferredDelivered c)) as (ar' & ? & Hst)];
    exists ar'; by rewrite Hst.
Qed.

(** ** Bulk completion, slot by slot *)

Lemma set_state_other slot s a r :
  r <> slot -> a_requests (spec_set_state slot s a) !! r = a_requests a !! r.
Proof. intros Hne. simpl. by rewrite list_lookup_alter, decide_False. Qed.

Definition local_body (body : nat -> CompletionSummary * abstract_broker ->
    CompletionSummary * abstract_broker) : Prop :=
  forall slot st, a_id (body slot st).2 = a_id st.2 /\
    forall r, r <> slot -> a_requests (body slot st).2 !! r = a_requests st.2 !! r.

Lemma complete_if_local p c v : local_body (spec_complete_if p c v).
Proof.
  intros slot [summary a]. unfold spec_complete_if. destruct (a_snapshot a slot); [|done].
  destruct (_ && _); [|done]. unfold spec_complete_slot.
  destruct (a_live a slot); [|done]. destruct (completed_state _ _ _); [|done].
  split; [done|]. intros ? ?. by apply set_state_other.
Qed.

Lemma release_if_local p : local_body (spec_release_if p).
Proof.
  intros slot [summary a]. unfold spec_release_if. destruct (a_snapshot a slot); [|done].
  destruct (_ && _); [|done]. unfold spec_release_slot.
  destruct (a_live a slot); [|done]. destruct (deferred_completion _); [|done].
  split; [done|]. intros ? ?. by apply set_state_other.
Qed.

(** A fold of a local body acts on each slot once. *)
Lemma local_fold body slots st r :
  local_body body -> NoDup slots ->
  let result := fold_left (fun st slot => body slot st) slots st in
  a_id result.2 = a_id st.2 /\
  (r ∉ slots -> a_requests result.2 !! r = a_requests st.2 !! r) /\
  (r ∈ slots -> exists st1, a_id st1.2 = a_id st.2 /\
     a_requests st1.2 !! r = a_requests st.2 !! r /\
     a_requests result.2 !! r = a_requests (body r st1).2 !! r).
Proof.
  intros Hb Hnd. revert st. induction slots as [|slot slots IH]; intros st; cbn [fold_left].
  { split; [done|]. split; [done|]. by intros ?%elem_of_nil. }
  apply NoDup_cons in Hnd as [Hx Hnd]. destruct (Hb slot st) as [Hid Hoth].
  destruct (IH Hnd (body slot st)) as (Hid' & Hout & Hin). split; [congruence|].
  split; [|intros [->|Hr]%elem_of_cons].
  - intros [Hne Hr]%not_elem_of_cons. rewrite Hout by done. by apply Hoth.
  - exists st. split; [done|]. split; [done|]. by apply Hout.
  - destruct (Hin Hr) as (st1 & Hi1 & H1 & H2). exists st1. split; [congruence|]. split; [|done].
    rewrite H1. apply Hoth. intros ->. done.
Qed.

Lemma spec_fold_at body a r s :
  local_body body -> a_requests a !! r = Some s ->
  exists st, a_requests st.2 !! r = Some s /\
    a_requests (spec_fold body a).2 !! r = a_requests (body r st).2 !! r.
Proof.
  intros Hb Hr. unfold spec_fold.
  destruct (local_fold body (seq 0 (length (a_requests a))) (default_summary, a) r Hb)
    as (_ & _ & Hin); [apply NoDup_seq|].
  destruct Hin as (st & _ & Hst & Hres); [apply lookup_lt_Some in Hr; apply elem_of_seq; lia|].
  exists st. by rewrite Hst.
Qed.

(** Updates the state of a live request of handler [h]. *)
Definition on_handler (h : H) (f : RequestState C -> RequestState C)
    (s : Z * option abstract_request) : Z * option abstract_request :=
  on_content (fun ar => if bool_decide (a_handler ar = h) then areq_state (f (a_state ar)) ar else ar) s.

Definition force_complete (c : C) (s : RequestState C) : RequestState C :=
  match s with Pending | Delivered => StateVisible c | s => s end.
Definition force_release (s : RequestState C) : RequestState C :=
  match s with DeferredPending c | DeferredDelivered c => StateVisible c | s => s end.

Lemma areq_state_same (ar : abstract_request) : areq_state (a_state ar) ar = ar.
Proof. by destruct ar. Qed.

Lemma set_state_at slot s a g ar :
  a_requests a !! slot = Some (g, Some ar) ->
  a_requests (spec_set_state slot s a) !! slot = Some (g, Some (areq_state s ar)).
Proof. intros Hs. simpl. by rewrite list_lookup_alter, decide_True, Hs. Qed.

Lemma complete_if_at h c r st s :
  a_requests st.2 !! r = Some s ->
  a_requests (spec_complete_if (fun s => bool_decide (snap_handler s = h)) c Visible r st).2 !! r =
    Some (on_handler h (force_complete c) s).
Proof.
  destruct st as [summary a], s as [g [ar|]]; simpl; intros Hr;
    unfold a_snapshot; rewrite Hr; simpl; [|done].
  unfold spec_complete_slot. assert (a_live a r = Some ar) as -> by (apply a_live_Some; eauto).
  unfold on_handler, on_content. simpl. case_bool_decide.
  - destruct (a_state ar) eqn:Hst; simpl; try (by apply set_state_at);
      by rewrite Hr, <- Hst, areq_state_same.
  - rewrite andb_false_r. done.
Qed.

Lemma release_if_at h r st s :
  a_requests st.2 !! r = Some s ->
  a_requests (spec_release_if (fun s => bool_decide (snap_handler s = h)) r st).2 !! r =
    Some (on_handler h force_release s).
Proof.
  destruct st as [summary a], s as [g [ar|]]; simpl; intros Hr;
    unfold a_snapshot; rewrite Hr; simpl; [|done].
  unfold spec_release_slot. assert (a_live a r = Some ar) as -> by (apply a_live_Some; eauto).
  unfold on_handler, on_content. simpl. case_bool_decide.
  - destruct (a_state ar) eqn:Hst; simpl; try (by apply set_state_at);
      by rewrite Hr, <- Hst, areq_state_same.
  - rewrite andb_false_r. done.
Qed.

Lemma spec_detach_at h c a r s :
  a_requests a !! r = Some s ->
  a_requests (spec_detach_handler h c a).2 !! r =
    Some (on_handler h (fun st => force_release (force_complete c st)) s).
Proof.
  intros Hr. unfold spec_detach_handler.
  destruct (spec_complete_where _ c Visible a) as [s1 a1] eqn:H1.
  destruct (spec_release_where _ a1) as [s2 a2] eqn:H2. simpl.
  destruct (spec_fold_at _ a r s (complete_if_local (fun s => bool_decide (snap_handler s = h)) c Visible) Hr)
    as (st & Hst & Hres).
  rewrite (complete_if_at h c r st s Hst) in Hres.
  fold (spec_complete_where (fun s => bool_decide (snap_handler s = h)) c Visible a) in Hres.
  rewrite H1 in Hres. simpl in Hres.
  destruct (spec_fold_at _ a1 r _ (release_if_local (fun s => bool_decide (snap_handler s = h))) Hres)
    as (st2 & Hst2 & Hres2).
  rewrite (release_if_at h r st2 _ Hst2) in Hres2.
  fold (spec_release_where (fun s => bool_decide (snap_handler s = h)) a1) in Hres2.
  rewrite H2 in Hres2. simpl in Hres2. rewrite Hres2. f_equal.
  unfold on_handler, on_content. destruct s as [g [ar|]]; simpl; [|done].
  repeat (case_bool_decide; simpl in *); done.
Qed.

Lemma spec_detach_none h c a r :
  a_requests a !! r = None -> a_requests (spec_detach_handler h c a).2 !! r = None.
Proof.
  assert (forall body a0, local_body body -> a_requests a0 !! r = None ->
    a_requests (spec_fold body a0).2 !! r = None) as Hfold.
  { intros body a0 Hb Hr. unfold spec_fold.
    destruct (local_fold body (seq 0 (length (a_requests a0))) (default_summary, a0) r Hb)
      as (_ & Hout & _); [apply NoDup_seq|].
    rewrite Hout; [done|]. intros Hin%elem_of_seq. apply lookup_ge_None in Hr. lia. }
  intros Hr. unfold spec_detach_handler.
  pose proof (Hfold _ a (complete_if_local (fun s => bool_decide (snap_handler s = h)) c Visible) Hr) as H1.
  fold (spec_complete_where (fun s => bool_decide (snap_handler s = h)) c Visible a) in H1.
  destruct (spec_complete_where _ c Visible a) as [s1 a1].
  pose proof (Hfold _ a1 (release_if_local (fun s => bool_decide (snap_handler s = h))) H1) as H2.
  fold (spec_release_where (fun s => bool_decide (snap_handler s = h)) a1) in H2.
  by destruct (spec_release_where _ a1) as [s2 a2].
Qed.

(** The snapshots of a detached handler. *)
Definition detached_snapshot (h : H) (s : RequestSnapshot) : RequestSnapshot :=
  if bool_decide (snap_handler s = h)
  then mkSnapshot (snap_token s) (snap_key s) (snap_handler s) PhaseTerminalVisible (snap_waiter_count s)
  else s.

Lemma spec_detach_snapshot h c a r s :
  well_formed a -> a_snapshot a r = Some s ->
  a_snapshot (spec_detach_handler h c a).2 r = Some (detached_snapshot h s).
Proof.
  intros Hwf. unfold a_snapshot.
  rewrite (ev_id _ _ (steps_evolves _ _ Hwf (detach_handler_steps h c a))).
  destruct (a_requests a !! r) as [[g [ar|]]|] eqn:Hr; simpl; try done. intros [= <-].
  rewrite (spec_detach_at h c a r _ Hr). simpl. unfold detached_snapshot. simpl.
  case_bool_decide; [|done]. simpl. by destruct (a_state ar).
Qed.

(** ** Occupancy *)

Lemma load_request_step l s :
  let l' := load_request (C := C) (K := K) (H := H) l s in
  load_live_requests l' = load_live_requests l + (if is_none (record s) then 0 else 1) /\
  (live_waiters l', ready_waiters l', load_request_capacity l', load_waiter_capacity l') =
  (live_waiters l, ready_waiters l, load_request_capacity l, load_waiter_capacity l).
Proof.
  destruct l as [rc op od dp dd v wc lw rw], s as [g [r|]]; unfold load_request, load_live_requests;
    simpl; [destruct (state r)|]; simpl; split; (done || lia).
Qed.

Lemma load_requests_fold ss l :
  let l' := fold_left (load_request (C := C) (K := K) (H := H)) ss l in
  load_live_requests l' =
    load_live_requests l + count (fun s => is_none (record s) = false) ss /\
  (live_waiters l', ready_waiters l', load_request_capacity l', load_waiter_capacity l') =
  (live_waiters l, ready_waiters l, load_request_capacity l, load_waiter_capacity l).
Proof.
  revert l. induction ss as [|s ss IH]; intros l; cbn [fold_left].
  { rewrite count_nil. split; [lia|done]. }
  destruct (IH (load_request l s)) as [H1 H2]. destruct (load_request_step l s) as [H3 H4].
  cbv zeta. rewrite H1, H3, H2, H4, count_cons. split; [|done]. unfold weight.
  destruct (is_none (record s)); simpl; lia.
Qed.

Lemma load_waiters_fold (ws : list (WaiterSlot C)) l :
  let l' := fold_left load_waiter ws l in
  load_live_requests l' = load_live_requests l /\
  live_waiters l' = live_waiters l + count (fun s => is_none (wrecord s) = false) ws /\
  ready_waiters l' <= ready_waiters l + (live_waiters l' - live_waiters l) /\
  load_request_capacity l' = load_request_capacity l /\
  load_waiter_capacity l' = load_waiter_capacity l.
Proof.
  revert l. induction ws as [|s ws IH]; intros l; cbn [fold_left].
  { rewrite count_nil. repeat split; lia. }
  destruct (IH (load_waiter l s)) as (H1 & H2 & H3 & H4 & H5). cbv zeta in *.
  rewrite H1, H2, H4, H5, count_cons. unfold weight.
  destruct l as [rc op od dp dd v wc lw rw], s as [g [r|]]; unfold load_waiter, load_live_requests in *;
    simpl in *; [destruct (wstate r); simpl in *|]; repeat split; try done; lia.
Qed.

End Lemmas.
