(* ===== verification/FaultVerified.v ===== *)
(** Fault broker, part 14: the guarantees of the broker in every reachable
    state, and concrete runs that witness them. *)

From stdpp Require Import relations.
From S2P Require Import Prelude Effects Atomics FaultBroker FaultSpec FaultLinks.
From S2P Require Import FaultLinks FaultTransitions FaultAdmission.
From S2P Require Import FaultAdmission FaultRemoval FaultSteps FaultGuarantees.
Local Open Scope Z_scope.

Section Theorems.
Context {K H C : Type} `{EqDecision K} `{EqDecision H}.
Local Abbreviation Env := (Env K H C).
Local Abbreviation FaultBroker := (FaultBroker K H C).
Implicit Types (b : FaultBroker) (e : Env).

Lemma run_reachable ops e rs e' : reachable e -> run ops e = Some (rs, e') -> reachable e'.
Proof.
  revert e rs. induction ops as [|op ops IH]; intros e rs He; simpl; [by intros [= <- <-]|].
  destruct (execute op e) as [[r e1]|] eqn:Hop; [|done]. simpl.
  destruct (run ops e1) as [[rs1 e2]|] eqn:Hrun; [|done]. intros [= <- <-].
  eapply IH; [|exact Hrun]. by eapply reach_operation.
Qed.

(** C14: from any reachable state, every sequence of broker operations runs to
    the end without panicking or diverging, and returns exactly the responses
    of the abstract broker (which has no links, and never answers
    [InconsistentState]); the links, counts and waiter states of the resulting
    slot arrays represent the abstract result. *)
Theorem broker_runs_refine_spec e :
  reachable e -> exists a, refines e a /\ well_formed a /\
    forall ops, exists e', run ops e = Some ((spec_run ops a).1, e') /\
      refines e' (spec_run ops a).2 /\ well_formed (spec_run ops a).2.
Proof.
  intros (a & Href & Hwf & _)%reachable_abstract. exists a. split; [done|]. split; [done|].
  intros ops. destruct (run_refines ops e a Href Hwf) as (e' & ? & ? & ? & _). eauto.
Qed.

(** Delivery is first in, first out per handler: [claim_next] returns the
    first request of the handler in the delivery queue, in a delivered phase,
    and unlinks exactly that slot; it returns nothing only when the queue holds
    no request of the handler. *)
Theorem claim_next_is_fifo e h :
  reachable e ->
  exists queue, dll (plinks (broker e)) (pending_head (broker e)) (pending_tail (broker e)) queue /\
    exists r e', claim_next (E := Empty_set) h e = Done r e' /\
    match r with
    | None => forall x, x ∈ queue -> handler_at (broker e) x <> Some h
    | Some s => exists l1 l2, queue = l1 ++ rt_slot (snap_token s) :: l2 /\
        (forall x, x ∈ l1 -> handler_at (broker e) x <> Some h) /\
        snap_handler s = h /\
        (snap_phase s = PhaseDelivered \/ snap_phase s = PhaseDeferredDelivered) /\
        dll (plinks (broker e')) (pending_head (broker e')) (pending_tail (broker e')) (l1 ++ l2)
    end.
Proof.
  intros (a & Href & Hwf & _)%reachable_abstract. exists (a_pending a).
  split; [apply (ref_queue _ _ Href)|].
  destruct (claim_next_performs (E := Empty_set) h e a Href Hwf) as (e' & Hrun & Href' & _).
  exists (spec_claim_next h a).1, e'. split; [done|]. unfold spec_claim_next in *.
  destruct (head _) as [slot|] eqn:Hh.
  - destruct (claim_choice h a slot Hwf Hh) as (ar & l1 & l2 & Hq & Hl1 & Hlive & Hhand & Hp).
    unfold spec_claim_slot in *. rewrite Hlive in *. simpl in *.
    destruct (proj1 (a_live_Some _ _ _) Hlive) as [g Hslot].
    unfold a_snapshot. rewrite (set_state_at slot _ a g ar Hslot). simpl.
    exists l1, l2. split; [done|]. split; [|split; [done|split]].
    + intros x Hx. rewrite (refines_handler_at _ _ _ Href). specialize (Hl1 x Hx).
      rewrite a_for_handler in Hl1. by apply bool_decide_eq_false in Hl1.
    + destruct (a_state ar); try done; [by left|by right].
    + pose proof (ref_queue _ _ Href') as Hq'. simpl in Hq'.
      assert (is_pending (claimed_state (a_state ar)) = false) as Hc by (by destruct (a_state ar)).
      rewrite Hc in Hq'. unfold without in Hq'. pose proof (wf_pending_nodup _ Hwf) as Hnd.
      rewrite Hq in Hq', Hnd. by rewrite filter_neq_middle in Hq'.
  - simpl. intros x Hx Hhand. rewrite (refines_handler_at _ _ _ Href) in Hhand.
    assert (x ∈ filter (fun slot => a_for h a slot = true) (a_pending a)) as Hin.
    { apply list_elem_of_filter. split; [|done]. rewrite a_for_handler. by apply bool_decide_eq_true. }
    destruct (filter _ (a_pending a)); [by apply elem_of_nil in Hin|done].
Qed.

(** [has_pending] is true exactly when a claim for the handler succeeds. *)
Theorem has_pending_iff_claimable e h :
  reachable e ->
  has_pending (broker e) h = true <->
  exists s e', claim_next (E := Empty_set) h e = Done (Some s) e'.
Proof.
  intros Hr. assert (has_pending (broker e) h = true <->
    exists i, handler_at (broker e) i = Some h /\
      exists s r, requests (broker e) !! i = Some s /\ record s = Some r /\ is_pending (state r) = true)
    as Hhas.
  { unfold has_pending. rewrite existsb_exists. split.
    - intros (s & Hin & Hp). apply list_elem_of_In, list_elem_of_lookup in Hin as [i Hi].
      unfold is_pending_for in Hp. destruct (record s) as [r|] eqn:Hrec; [|done].
      apply andb_prop in Hp as [Hh Hp]. apply bool_decide_eq_true in Hh.
      exists i. unfold handler_at. rewrite Hi. simpl. rewrite Hrec. simpl. split; [by rewrite Hh|eauto].
    - intros (i & Hh & s & r & Hi & Hrec & Hp). exists s. split.
      + apply list_elem_of_In, list_elem_of_lookup. eauto.
      + unfold is_pending_for. rewrite Hrec, Hp. unfold handler_at in Hh. rewrite Hi in Hh.
        simpl in Hh. rewrite Hrec in Hh. injection Hh as ->. by rewrite bool_decide_true. }
  rewrite Hhas. destruct (reachable_abstract e Hr) as (a & Href & Hwf & _).
  destruct (claim_next_performs (E := Empty_set) h e a Href Hwf) as (e' & Hrun & _).
  rewrite Hrun. unfold spec_claim_next in *. destruct (head _) as [slot|] eqn:Hh.
  - destruct (claim_choice h a slot Hwf Hh) as (ar & l1 & l2 & Hq & Hl1 & Hlive & Hhand & Hp).
    destruct (proj1 (a_live_Some _ _ _) Hlive) as [g Hslot].
    split; intros _.
    + unfold spec_claim_slot, a_snapshot. rewrite Hlive. simpl.
      rewrite list_lookup_alter, decide_True, Hslot by done. simpl. by eexists _, _.
    + exists slot. rewrite (refines_handler_at _ _ _ Href), Hlive. simpl. split; [by rewrite Hhand|].
      destruct (refines_live _ _ _ _ _ Href Hslot) as (s & r & Hs & Hrec & _ & (_ & _ & Hst & _)).
      exists s, r. simpl in Hst. by rewrite Hst.
  - split; [|by intros (? & ? & ?)]. intros (i & Hhand & s & r & Hi & Hrec & Hp). exfalso.
    rewrite (refines_handler_at _ _ _ Href) in Hhand.
    assert (i ∈ filter (fun slot => a_for h a slot = true) (a_pending a)) as Hin.
    { apply list_elem_of_filter. split; [rewrite a_for_handler; by apply bool_decide_eq_true|].
      apply (wf_pending _ Hwf). destruct (a_live a i) as [ar|] eqn:Hlive; [|done].
      exists ar. split; [done|]. apply a_live_Some in Hlive as [g Hg].
      destruct (refines_live _ _ _ _ _ Href Hg) as (s' & r' & ? & ? & _ & (_ & _ & Hst & _)).
      simplify_eq. simpl in Hst. by rewrite <- Hst. }
    destruct (filter _ (a_pending a)); [by apply elem_of_nil in Hin|done].
Qed.

(** Coalescing is exact: two live requests of one handler with equal keys
    that are not yet visible are the same slot. *)
Theorem open_requests_are_unique e i j s1 s2 :
  reachable e -> snapshot_slot (broker e) i = Some s1 -> snapshot_slot (broker e) j = Some s2 ->
  snap_phase s1 <> PhaseTerminalVisible -> snap_phase s2 <> PhaseTerminalVisible ->
  snap_handler s1 = snap_handler s2 -> snap_key s1 = snap_key s2 -> i = j.
Proof.
  intros (a & Href & Hwf & Hk)%reachable_abstract. rewrite !(refines_snapshot _ _ _ Href).
  unfold a_snapshot. destruct (a_requests a !! i) as [[g1 [ar1|]]|] eqn:H1; simpl; try done.
  destruct (a_requests a !! j) as [[g2 [ar2|]]|] eqn:H2; simpl; try done.
  intros [= <-] [= <-]. simpl. intros Hp1 Hp2 Hh Hkey.
  apply (Hk i j ar1 ar2); [apply a_live_Some; by eauto..| | |done|done].
  - by destruct (a_state ar1).
  - by destruct (a_state ar2).
Qed.

(** A successful admission returns tokens no earlier state has issued (the
    request token is the old one exactly when coalesced), and they are live:
    the request is found under its handler and key, the waiter is pending. *)
Theorem admitted_tokens_are_fresh e h k adm e' :
  reachable e -> broker_admit h k e = Done adm e' ->
  ~ issued_waiter (broker e) (adm_waiter adm) /\
  (if coalesced adm then is_ok (request_index (broker e) (adm_request adm)) = true
   else ~ issued (broker e) (adm_request adm)) /\
  (exists s, request_of (broker e') (adm_request adm) = Ok s /\
     snap_token s = adm_request adm /\ snap_handler s = h /\ snap_key s = k) /\
  waiter_observation (broker e') (adm_waiter adm) = Ok ObservedPending.
Proof.
  intros (a & Href & Hwf & _)%reachable_abstract Hrun.
  destruct (admit_simulates_spec h k e a Href Hwf) as (e1 & Hrun1 & Href' & Hwf').
  rewrite Hrun in Hrun1. destruct (spec_admit h k a) as [[adm'|] a'] eqn:Hspec; [|done].
  simpl in *. injection Hrun1 as <- <-.
  destruct (spec_admit_ok h k a adm a' Hwf Hspec)
    as (slot & g & w & wg & ar & Ht & Hwt & Hid & Hreq & Hh & Hk & Hvis & Hw & Hw' & Hco).
  assert (a_request_index a' (adm_request adm) = Some slot) as Hidx'.
  { unfold a_request_index. rewrite Ht, Hid. simpl. by rewrite Z.eqb_refl, Hreq, Z.eqb_refl. }
  assert (a_waiter_index a' (adm_waiter adm) = Some w) as Hwidx'.
  { unfold a_waiter_index. rewrite Hwt, Hid. simpl. by rewrite Z.eqb_refl, Hw', Z.eqb_refl. }
  split; [|split; [|split]].
  - rewrite (refines_issued_waiter _ _ _ Href), Hwt. simpl. intros (_ & s & Hs & Hle).
    rewrite Hw in Hs. injection Hs as <-. simpl in Hle. lia.
  - destruct (coalesced adm).
    + destruct Hco as [ar0 Hco]. rewrite (refines_request_index _ _ _ Href), Ht.
      unfold a_request_index. simpl. by rewrite Z.eqb_refl, Hco, Z.eqb_refl.
    + rewrite (refines_issued _ _ _ Href), Ht. simpl. intros (_ & s & Hs & Hle).
      rewrite Hco in Hs. injection Hs as <-. simpl in Hle. lia.
  - unfold request_of. rewrite (refines_request_index _ _ _ Href'), Hidx'. simpl.
    rewrite (refines_snapshot _ _ _ Href'). unfold a_snapshot. rewrite Hreq. simpl.
    eexists. split; [done|]. simpl. by rewrite Ht, Hid.
  - rewrite (waiter_observation_spec _ _ _ Href' Hwf'), Hwidx'.
    rewrite (a_observe_live a' w (wg + 1) slot ar Hw'); [|apply a_live_Some; by eauto].
    by destruct (a_state ar).
Qed.

(** A request token that has gone stale is never valid again, whatever
    operations follow, although its slot is reused. *)
Theorem stale_request_token_stays_stale e t ops rs e' :
  reachable e -> issued (broker e) t ->
  request_index (broker e) t = Err RequestStaleOrForeign ->
  run ops e = Some (rs, e') ->
  request_index (broker e') t = Err RequestStaleOrForeign.
Proof.
  intros (a & Href & Hwf & _)%reachable_abstract Hiss Hidx Hrun.
  destruct (run_abstract ops e a rs e' Href Hwf Hrun) as (a' & Href' & Hwf' & Hs).
  apply (refines_issued _ _ _ Href) in Hiss as [Hid Hiss].
  apply (request_index_None _ _ _ Href'). apply (request_index_None _ _ _ Href) in Hidx.
  eapply stale_request_evolves; [|done..]. by apply steps_evolves.
Qed.

(** The same for waiter tokens: a waiter that was cancelled or took its
    completion never observes, takes or cancels anything again. *)
Theorem stale_waiter_token_stays_stale e t ops rs e' :
  reachable e -> issued_waiter (broker e) t ->
  waiter_index (broker e) t = Err WaiterStaleOrForeign ->
  run ops e = Some (rs, e') ->
  waiter_index (broker e') t = Err WaiterStaleOrForeign /\
  (exists e1, take_waiter_completion t e' = Fail WaiterStaleOrForeign e1) /\
  (exists e1, cancel_waiter t e' = Fail WaiterStaleOrForeign e1).
Proof.
  intros (a & Href & Hwf & _)%reachable_abstract Hiss Hidx Hrun.
  destruct (run_abstract ops e a rs e' Href Hwf Hrun) as (a' & Href' & Hwf' & Hs).
  apply (refines_issued_waiter _ _ _ Href) in Hiss as [Hid Hiss].
  apply (waiter_index_None _ _ _ Href) in Hidx.
  assert (a_waiter_index a' t = None) as Hidx'.
  { eapply stale_waiter_evolves; [|done..]. by apply steps_evolves. }
  split; [by apply (waiter_index_None _ _ _ Href')|]. split.
  - destruct (take_waiter_simulates_spec e' a' t Href' Hwf') as (e1 & Ht & _).
    unfold spec_take_waiter in Ht. rewrite Hidx' in Ht. by exists e1.
  - destruct (cancel_waiter_simulates_spec e' a' t Href' Hwf') as (e1 & Ht & _).
    unfold spec_cancel_waiter in Ht. rewrite Hidx' in Ht. by exists e1.
Qed.

(** A completion once observed is final: after any further operations the
    waiter still observes it, or its token is stale. *)
Theorem observed_completion_is_final e t c ops rs e' :
  reachable e -> waiter_observation (broker e) t = Ok (ObservedReady c) ->
  run ops e = Some (rs, e') ->
  waiter_observation (broker e') t = Ok (ObservedReady c) \/
  waiter_observation (broker e') t = Err WaiterStaleOrForeign.
Proof.
  intros (a & Href & Hwf & _)%reachable_abstract Hobs Hrun.
  destruct (run_abstract ops e a rs e' Href Hwf Hrun) as (a' & Href' & Hwf' & Hs).
  rewrite (waiter_observation_spec _ _ _ Href Hwf) in Hobs.
  rewrite (waiter_observation_spec _ _ _ Href' Hwf').
  destruct (a_waiter_index a t) as [w|] eqn:Hidx; [|done].
  destruct (a_observe a w) as [[|d]|] eqn:Ho; simplify_eq.
  destruct (observation_evolves a a' t w c Hwf Hwf') as [->|[-> ->]]; [by apply steps_evolves|done..|by right|by left].
Qed.

(** C15: a request is completed at most once: after a successful completion
    every later completion of the same token fails, and every waiter of the
    request that becomes ready becomes ready with that first completion. *)
Theorem first_completion_wins e t c v eff e1 ops rs e2 c' v' :
  reachable e -> complete t c v e = Done eff e1 -> run ops e1 = Some (rs, e2) ->
  (exists x e3, complete t c' v' e2 = Fail x e3) /\
  (forall w s wr d, waiters (broker e2) !! w = Some s -> wrecord s = Some wr ->
     request wr = t -> wstate wr = Ready d -> d = c).
Proof.
  intros (a & Href & Hwf & _)%reachable_abstract Hrun Hops.
  destruct (complete_simulates_spec e a t c v Href Hwf) as (e' & Hrun1 & Href1 & Hwf1).
  rewrite Hrun in Hrun1. destruct (spec_complete t c v a) as [[eff'|] a1] eqn:Hspec; [|done].
  simpl in *. injection Hrun1 as <- <-.
  destruct (spec_complete_ok a t c v eff a1 Hspec) as (Hid & Hid1 & ar & Har & Hc).
  destruct (run_abstract ops e1 a1 rs e2 Href1 Hwf1 Hops) as (a2 & Href2 & Hwf2 & Hs).
  pose proof (steps_evolves _ _ Hwf1 Hs) as Hev.
  destruct (completed_evolves a1 a2 t ar c c' v' Hev ltac:(congruence) Har Hc) as [Hcase [x Hx]].
  split.
  - destruct (complete_simulates_spec e2 a2 t c' v' Href2 Hwf2) as (e3 & Hrun3 & _).
    rewrite Hx in Hrun3. eauto.
  - intros w s wr d Hw Hr Hreq Hst. pose proof (ref_waiter _ _ Href2 w) as Hrel.
    unfold wcore_at in Hrel. rewrite Hw in Hrel. simpl in Hrel. rewrite Hr in Hrel. simpl in Hrel.
    destruct (a_waiter_slots a2 !! w) as [[wg [r|]]|]; try done.
    destruct Hrel as (_ & gr & ar2 & Har2 & Htok & Hws). rewrite Htok in Hreq. subst t. simpl in *.
    destruct Hcase as [Hnone|(ar' & Har' & Hc')].
    + unfold a_request_index in Hnone. simpl in Hnone. rewrite Z.eqb_refl in Hnone.
      simpl in Hnone. rewrite Har2 in Hnone. simpl in Hnone. by rewrite Z.eqb_refl in Hnone.
    + rewrite Har2 in Har'. injection Har' as <-. rewrite Hst in Hws.
      destruct (a_state ar2); simplify_eq/=. done.
Qed.

(** C16: a failed admission leaves the broker and every credit pool exactly as
    they were, also in states that violate the broker's invariants. *)
Theorem failed_admission_changes_nothing h k e x e' : broker_admit h k e = Fail x e' -> e' = e.
Proof.
  revert e x e'. change (fail_safe (broker_admit (C := C) h k)). unfold broker_admit.
  apply fail_safe_read; [apply read_only_gets|]. intros b.
  apply fail_safe_read; [destruct (position _ _); unfold read_request, self; eauto 10 with effects|].
  { apply read_only_bind; [auto with effects|]. intros []. auto with effects. }
  intros [[slot g] co]. apply fail_safe_read; [auto with effects|]. intros [w wg].
  apply fail_safe_read; [destruct co; unfold read_request, self; eauto 10 with effects|]. intros n.
  destruct (_ <? n); [by apply fail_safe_read_only, read_only_throw|].
  apply fail_safe_read; [destruct co; eauto using check_waiter_tail_reads, check_pending_tail_reads with effects|].
  intros previous.
  apply fail_safe_commit; [destruct co; [by apply fail_safe_read_only, read_only_ret|apply credit_reserve_fail_safe]|].
  intros _. apply never_fails_bind; [destruct co; eauto using publish_request_never_fails with effects|].
  intros _. apply never_fails_bind; [apply publish_waiter_never_fails|]. intros _. apply never_fails_ret.
Qed.

(** C17: shared credits are conserved: over any run, the use of every pool
    changes by exactly the change in this broker's live requests, and by
    nothing when the broker is not bound to the pool. *)
Theorem credits_are_conserved e ops rs e' i p :
  reachable e -> run ops e = Some (rs, e') -> pools e !! i = Some p ->
  exists p', pools e' !! i = Some p' /\
    live_requests p' - live_requests p =
      (if decide (credit_pool (broker e) = Some i)
       then live_request_count (broker e') - live_request_count (broker e) else 0).
Proof.
  intros (a & Href & Hwf & _)%reachable_abstract Hrun Hp.
  destruct (run_abstract ops e a rs e' Href Hwf Hrun) as (a' & Href' & Hwf' & Hs).
  pose proof (steps_balance a a' i Hwf Hs) as Hbal. unfold balance in Hbal.
  rewrite (ev_pool _ _ (steps_evolves _ _ Hwf Hs)) in Hbal.
  rewrite (ref_pools _ _ Href) in Hp. rewrite Hp in Hbal. rewrite (ref_pools _ _ Href').
  destruct (a_pools a' !! i) as [p'|]; [|done]. exists p'. split; [done|]. simpl in Hbal.
  injection Hbal as Hbal. rewrite (refines_live_count _ _ Href), (refines_live_count _ _ Href').
  rewrite (ref_pool _ _ Href). destruct (decide _); lia.
Qed.

(** Dropping a broker never panics; it returns to the bound pool one credit
    per live request. *)
Theorem drop_returns_live_credits e :
  reachable e -> exists e', drop_broker (E := Empty_set) e = Done tt e' /\ broker e' = broker e /\
    forall i p, pools e !! i = Some p -> exists p', pools e' !! i = Some p' /\
      capacity p' = capacity p /\
      live_requests p' = live_requests p -
        (if decide (credit_pool (broker e) = Some i) then live_request_count (broker e) else 0).
Proof.
  intros (a & Href & Hwf & _)%reachable_abstract. unfold drop_broker. run_with @self_run.
  destruct (credit_pool (broker e)) as [j|] eqn:Hj.
  - rewrite (ref_pool _ _ Href) in Hj. destruct (wf_credits _ Hwf j Hj) as (q & Hq & Hc & _).
    rewrite <- (refines_live_count _ _ Href) in Hc. rewrite <- (ref_pools _ _ Href) in Hq.
    set (n := live_request_count (broker e)) in *. assert (0 <= n) by apply count_nonneg.
    assert (RequestCreditPool.try_release q n = (true, mkPool (capacity q) (live_requests q - n))) as Hr.
    { unfold RequestCreditPool.try_release, RequestCreditPool.with_word, try_update, checked_sub_usize.
      destruct (Z.eqb_spec n 0) as [->|]; [destruct q; simpl; by rewrite Z.sub_0_r|].
      by rewrite (proj2 (Z.leb_le _ _)) by lia. }
    exists (mkEnv (<[j:=mkPool (capacity q) (live_requests q - n)]> (pools e)) (broker e)).
    split; [|split; [done|]].
    { unfold pool_release_exact, gets, expect, mbind, M_bind. rewrite Hq.
      cbv beta iota delta [mret M_ret]. by rewrite Hr. }
    intros i p Hp. simpl. case_decide; simplify_eq.
    + rewrite list_lookup_insert_eq by (apply lookup_lt_is_Some; eauto). eexists. split; [done|]. done.
    + rewrite list_lookup_insert_ne by congruence. exists p. split; [done|]. split; [done|lia].
  - exists e. split; [done|]. split; [done|]. intros i p Hp. exists p. split; [done|]. split; [done|].
    rewrite decide_False by done. lia.
Qed.

(** The occupancy report partitions the slots: the five request phases add
    up to the live requests, live waiters are counted once, ready waiters are
    among them, and neither exceeds its capacity. *)
Theorem load_partitions_slots b :
  let l := load b in
  load_live_requests l = live_request_count b /\
  live_waiters l = count (fun s => is_none (wrecord s) = false) (waiters b) /\
  ready_waiters l <= live_waiters l <= load_waiter_capacity l /\
  load_live_requests l <= load_request_capacity l /\
  load_request_capacity l = zlen (requests b) /\ load_waiter_capacity l = zlen (waiters b).
Proof.
  cbv zeta. unfold load.
  set (l0 := mkLoad (zlen (requests b)) 0 0 0 0 0 (zlen (waiters b)) 0 0).
  destruct (load_requests_fold (requests b) l0) as [H1 H2]. cbv zeta in H1, H2.
  destruct (load_waiters_fold (waiters b) (fold_left load_request (requests b) l0))
    as (H3 & H4 & H5 & H6 & H7). cbv zeta in *.
  injection H2 as Hlw Hrw Hrc Hwc. rewrite H3, H4, H6, H7, Hrc, Hwc in *. rewrite H1, Hlw in *.
  rewrite Hrw in H5. unfold live_request_count. simpl in *.
  pose proof (count_le_length (fun s : RequestSlot K H C => is_none (record s) = false) (requests b)).
  pose proof (count_le_length (fun s : WaiterSlot C => is_none (wrecord s) = false) (waiters b)).
  unfold load_live_requests in *. simpl in *. repeat split; lia.
Qed.

(** Detaching a handler makes every one of its live requests terminal and
    visible, keeps their tokens, keys and waiters, and does not touch the
    requests of other handlers; afterwards the handler has nothing to claim. *)
Theorem detach_handler_drains e h c :
  reachable e -> exists summary e', detach_handler (E := Empty_set) h c e = Done summary e' /\
    (forall r s, snapshot_slot (broker e) r = Some s ->
       snapshot_slot (broker e') r = Some (detached_snapshot h s)) /\
    (exists e'', claim_next (E := Empty_set) h e' = Done None e'').
Proof.
  intros (a & Href & Hwf & _)%reachable_abstract.
  destruct (detach_handler_performs (E := Empty_set) h c e a Href Hwf) as (e' & Hrun & Href' & Hwf').
  eexists _, e'. split; [exact Hrun|]. split.
  - intros r s. rewrite (refines_snapshot _ _ _ Href), (refines_snapshot _ _ _ Href').
    by apply spec_detach_snapshot.
  - destruct (claim_next_performs (E := Empty_set) h e' _ Href' Hwf') as (e'' & Hrun' & _).
    exists e''. rewrite Hrun'. f_equal. unfold spec_claim_next.
    destruct (head _) as [slot|] eqn:Hh; [exfalso|done].
    destruct (claim_choice h _ slot Hwf' Hh) as (ar & _ & _ & _ & _ & Hlive & Hhand & Hp).
    destruct (proj1 (a_live_Some _ _ _) Hlive) as [g Hslot].
    destruct (a_requests a !! slot) as [s|] eqn:Hs; cycle 1.
    { pose proof (spec_detach_none h c a slot Hs). congruence. }
    rewrite (spec_detach_at h c a slot s Hs) in Hslot. destruct s as [g0 [ar0|]]; [|done].
    unfold on_handler, on_content in Hslot. simpl in Hslot. injection Hslot as _ <-.
    case_bool_decide as Hb; simpl in *; [|done]. by destruct (a_state ar0).
Qed.

End Theorems.

(** Two byte ranges intersect exactly when they share a byte; a constructed
    range is nonempty, exclusive at its end and within [u64]. *)
Theorem range_intersects_iff_shared_byte s1 n1 s2 n2 r1 r2 :
  in_u64 s1 -> in_u64 n1 -> in_u64 s2 -> in_u64 n2 ->
  range_try_new s1 n1 = Ok r1 -> range_try_new s2 n2 = Ok r2 ->
  in_u64 (range_end r1) /\ range_start r1 < range_end r1 /\
  (range_intersects r1 r2 = true <->
   exists x, range_start r1 <= x < range_end r1 /\ range_start r2 <= x < range_end r2).
Proof.
  unfold range_try_new, checked_add_u64, in_u64. intros Hs1 Hn1 Hs2 Hn2 H1 H2.
  destruct (Z.eqb_spec n1 0), (Z.eqb_spec n2 0); try done.
  destruct (Z.leb_spec (s1 + n1) u64_MAX); [|done]. destruct (Z.leb_spec (s2 + n2) u64_MAX); [|done].
  simplify_eq. simpl. unfold u64_MAX in *. split; [lia|]. split; [lia|]. unfold range_intersects. simpl.
  rewrite andb_true_iff, !Z.ltb_lt. split.
  - intros [? ?]. exists (Z.max s1 s2). lia.
  - intros (x & ? & ?). lia.
Qed.

(** An atomic update loop that returns, under arbitrary interference and
    spurious failures, behaves as one atomic update at some moment of its
    execution; when nothing interferes a single attempt returns. *)
Theorem try_update_loop_linearizes update current env :
  match try_update_loop update current env with
  | Some (Ok previous, Some (before, after)) =>
      before = previous /\ try_update update before = (Ok previous, after) /\
      exists a, a ∈ env /\ contents a = before
  | Some (Err seen, w) =>
      w = None /\ try_update update seen = (Err seen, seen) /\
      (seen = current \/ exists a, a ∈ env /\ contents a = seen)
  | Some (Ok _, None) => False
  | None => forall env', exists out,
      try_update_loop update current (env ++ [mkAttempt (last_contents current env) false] ++ env') =
        Some out
  end.
Proof.
  destruct (try_update_loop update current env) as [[[previous|seen] [[before after]|]]|] eqn:Hl.
  - by eapply try_update_loop_ok.
  - by apply try_update_loop_no_store in Hl.
  - by eapply try_update_loop_err.
  - by eapply try_update_loop_err.
  - intros env'. by apply try_update_loop_quiet.
Qed.

(** ** Witnesses: a broker with two request slots, three waiter slots and a
    bound pool of three credits; keys, handlers and completions are integers. *)

Definition demo_new : Env Z Z Z :=
  mkEnv [mkPool 3 0]
    (mkBroker 1 (replicate 2 (mkRequestSlot 0 None)) (replicate 3 (mkWaiterSlot 0 None))
       None None (Some 0%nat)).

Definition after (ops : list (operation Z Z Z)) : Env Z Z Z :=
  match run ops demo_new with Some (_, e) => e | None => demo_new end.

Lemma demo_new_reachable : reachable demo_new.
Proof.
  apply (reach_new [mkPool 3 0] true true 1 2 2 3 (Some 0%nat)); [reflexivity|by_evaluation..].
Qed.

Lemma after_reachable ops : reachable (after ops).
Proof.
  unfold after. destruct (run ops demo_new) as [[rs e]|] eqn:Hrun; [|apply demo_new_reachable].
  eapply run_reachable; [apply demo_new_reachable|exact Hrun].
Qed.

(** Two handlers, the second request coalesced once. *)
Definition demo_ops : list (operation Z Z Z) := [OpAdmit 7 100; OpAdmit 8 200; OpAdmit 8 200].
Definition demo_request : RequestToken := mkRequestToken 1 1 1.
Definition demo_waiter : WaiterToken := mkWaiterToken 1 2 1.
Definition demo_completed : list (operation Z Z Z) := demo_ops ++ [OpComplete demo_request 55 Visible].
Definition demo_taken : list (operation Z Z Z) :=
  demo_completed ++ [OpTakeWaiter demo_waiter; OpTakeWaiter (mkWaiterToken 1 1 1)].

Lemma broker_runs_refine_spec_witness :
  exists a, refines (after demo_ops) a /\ well_formed a /\
    forall ops, exists e', run ops (after demo_ops) = Some ((spec_run ops a).1, e') /\
      refines e' (spec_run ops a).2 /\ well_formed (spec_run ops a).2.
Proof. apply (broker_runs_refine_spec (after demo_ops)), after_reachable. Defined.

Lemma claim_next_is_fifo_witness :
  exists queue, dll (plinks (broker (after demo_ops))) (Some 0%nat) (Some 1%nat) queue /\
    exists r e', claim_next (E := Empty_set) 8 (after demo_ops) = Done r e' /\
    match r with
    | None => False
    | Some s => exists l1 l2, queue = l1 ++ rt_slot (snap_token s) :: l2 /\ snap_handler s = 8
    end.
Proof.
  destruct (claim_next_is_fifo (after demo_ops) 8 (after_reachable _)) as (q & Hq & r & e' & Hr & Hm).
  exists q. split; [exact Hq|]. exists r, e'. split; [exact Hr|]. destruct r as [s|].
  - destruct Hm as (l1 & l2 & Hl & _ & Hh & _). exists l1, l2. split; [exact Hl|exact Hh].
  - vm_compute in Hr. discriminate Hr.
Defined.

Lemma has_pending_iff_claimable_witness :
  has_pending (broker (after demo_ops)) 8 = true /\
  exists s e', claim_next (E := Empty_set) 8 (after demo_ops) = Done (Some s) e'.
Proof.
  split; [vm_compute; reflexivity|].
  apply (proj1 (has_pending_iff_claimable (after demo_ops) 8 (after_reachable _))).
  vm_compute. reflexivity.
Defined.

Lemma open_requests_are_unique_witness :
  snapshot_slot (broker (after demo_ops)) 1 = Some (mkSnapshot demo_request 200 8 PhasePending 2) /\
  1%nat = 1%nat.
Proof.
  split; [vm_compute; reflexivity|].
  refine (open_requests_are_unique (after demo_ops) 1%nat 1%nat
    (mkSnapshot demo_request 200 8 PhasePending 2) (mkSnapshot demo_request 200 8 PhasePending 2)
    (after_reachable _) _ _ _ _ eq_refl eq_refl).
  - vm_compute. reflexivity.
  - vm_compute. reflexivity.
  - discriminate.
  - discriminate.
Defined.

Lemma admitted_tokens_are_fresh_witness :
  waiter_observation (broker (after (demo_ops))) demo_waiter = Ok ObservedPending.
Proof.
  refine (proj2 (proj2 (proj2 (admitted_tokens_are_fresh (after [OpAdmit 7 100; OpAdmit 8 200]) 8 200
    (mkAdmission demo_request demo_waiter true) (after demo_ops) (after_reachable _) _)))).
  vm_compute. reflexivity.
Defined.

Lemma stale_request_token_stays_stale_witness :
  request_index (broker (after (demo_taken ++ [OpAdmit 9 300]))) demo_request =
    Err RequestStaleOrForeign.
Proof.
  eapply (stale_request_token_stays_stale (after demo_taken) demo_request [OpAdmit 9 300]).
  - apply after_reachable.
  - split; [vm_compute; reflexivity|]. eexists. split; [vm_compute; reflexivity|]. vm_compute. discriminate.
  - vm_compute. reflexivity.
  - vm_compute. reflexivity.
Defined.

Lemma stale_waiter_token_stays_stale_witness :
  exists e1, take_waiter_completion demo_waiter (after (demo_taken ++ [OpAdmit 9 300])) =
    Fail WaiterStaleOrForeign e1.
Proof.
  refine (proj1 (proj2 (stale_waiter_token_stays_stale (after demo_taken) demo_waiter [OpAdmit 9 300]
    _ _ (after_reachable _) _ _ _))).
  - split; [vm_compute; reflexivity|]. eexists. split; [vm_compute; reflexivity|]. vm_compute. discriminate.
  - vm_compute. reflexivity.
  - vm_compute. reflexivity.
Defined.

Lemma observed_completion_is_final_witness :
  let e' := after (demo_completed ++ [OpDetachHandler 8 66]) in
  waiter_observation (broker e') demo_waiter = Ok (ObservedReady 55) \/
  waiter_observation (broker e') demo_waiter = Err WaiterStaleOrForeign.
Proof.
  eapply (observed_completion_is_final (after demo_completed) demo_waiter 55 [OpDetachHandler 8 66]).
  - apply after_reachable.
  - vm_compute. reflexivity.
  - vm_compute. reflexivity.
Defined.

Lemma first_completion_wins_witness :
  exists x e3, complete demo_request 66 Visible (after (demo_completed ++ [OpClaimNext 7])) = Fail x e3.
Proof.
  refine (proj1 (first_completion_wins (after demo_ops) demo_request 55 Visible (mkEffect 2)
    (after demo_completed) [OpClaimNext 7] _ _ 66 Visible (after_reachable _) _ _)).
  - vm_compute. reflexivity.
  - vm_compute. reflexivity.
Defined.

(** The third waiter slot is taken, so a fourth admission fails. *)
Lemma failed_admission_changes_nothing_witness :
  exists e', broker_admit 8 200 (after demo_ops) = Fail WaiterCapacity e' /\ e' = after demo_ops.
Proof.
  eexists. split; [vm_compute; reflexivity|].
  apply (failed_admission_changes_nothing 8 200 (after demo_ops) WaiterCapacity).
  vm_compute. reflexivity.
Defined.

Lemma credits_are_conserved_witness :
  exists p', pools (after demo_taken) !! 0%nat = Some p' /\ live_requests p' - 2 = -1.
Proof.
  refine (match credits_are_conserved (after demo_ops)
    [OpComplete demo_request 55 Visible; OpTakeWaiter demo_waiter; OpTakeWaiter (mkWaiterToken 1 1 1)]
    _ (after demo_taken) 0 (mkPool 3 2) (after_reachable _) _ _ with
    | ex_intro _ p' Hp => ex_intro _ p' _ end).
  - vm_compute. reflexivity.
  - vm_compute. reflexivity.
  - exact Hp.
Defined.

Lemma drop_returns_live_credits_witness :
  exists e', drop_broker (E := Empty_set) (after demo_ops) = Done tt e' /\
    exists p', pools e' !! 0%nat = Some p' /\ live_requests p' = 0.
Proof.
  destruct (drop_returns_live_credits (after demo_ops) (after_reachable _)) as (e' & Hd & _ & Hp).
  exists e'. split; [exact Hd|]. destruct (Hp 0%nat (mkPool 3 2)) as (p' & Hp' & _ & Hl);
    [vm_compute; reflexivity|]. exists p'. split; [exact Hp'|exact Hl].
Defined.

Lemma detach_handler_drains_witness :
  exists summary e', detach_handler (E := Empty_set) 8 66 (after demo_ops) = Done summary e' /\
    exists e'', claim_next (E := Empty_set) 8 e' = Done None e''.
Proof.
  destruct (detach_handler_drains (after demo_ops) 8 66 (after_reachable _)) as (s & e' & Hd & _ & Hc).
  exists s, e'. split; [exact Hd|exact Hc].
Defined.

Lemma range_intersects_iff_shared_byte_witness :
  in_u64 12288 /\ 4096 < 12288 /\
  (range_intersects (mkRange 4096 12288) (mkRange 8192 16384) = true <->
   exists x, 4096 <= x < 12288 /\ 8192 <= x < 16384).
Proof.
  apply (range_intersects_iff_shared_byte 4096 8192 8192 8192 (mkRange 4096 12288) (mkRange 8192 16384));
    [by_evaluation|by_evaluation|by_evaluation|by_evaluation|reflexivity|reflexivity].
Defined.
