(* ===== verification/PollSet.v ===== *)
(** Poll sets, part 1: data and operations of [crates/thekernel-axpoll/src/lib.rs].

    [Inner] is the state behind the lock of one [PollSet]; its methods are the
    critical sections. The public methods run one critical section each and
    then, with the lock released, the callbacks of the wakers they took out;
    the callbacks are the [event]s a method returns, in order. Wakers are an
    abstract type with the standard library's [will_wake]. *)

From S2P Require Import Prelude Effects Atomics.
Local Open Scope Z_scope.

(** ** Events *)

(** [IoEvents]: the crate's own flag values. *)
Module IoEvents.
Definition READABLE : Z := Z.shiftl 1 0.
Definition PRIORITY : Z := Z.shiftl 1 1.
Definition WRITABLE : Z := Z.shiftl 1 2.
Definition ERROR : Z := Z.shiftl 1 3.
Definition HANGUP : Z := Z.shiftl 1 4.
Definition INVALID : Z := Z.shiftl 1 5.
Definition READ_NORMAL : Z := Z.shiftl 1 6.
Definition READ_BAND : Z := Z.shiftl 1 7.
Definition WRITE_NORMAL : Z := Z.shiftl 1 8.
Definition WRITE_BAND : Z := Z.shiftl 1 9.
Definition MESSAGE : Z := Z.shiftl 1 10.
Definition REMOVED : Z := Z.shiftl 1 11.
Definition READ_HANGUP : Z := Z.shiftl 1 12.
Definition ALWAYS : Z := Z.lor ERROR HANGUP.
End IoEvents.

(** ** Data *)

Record RegistrationToken : Type := mkToken {
  token_registry : Z; token_slot : nat; token_generation : Z }.

#[export] Instance RegistrationToken_eq_dec : EqDecision RegistrationToken.
Proof. solve_decision. Defined.

Inductive RegisterError : Type := RegisterFull | RegisterClosed | TokenSpaceExhausted.
Inductive UpdateError : Type := UpdateClosed | InvalidToken.

Section Data.
Context (W : Type).

Record Slot : Type := mkSlot { slot_generation : Z; slot_waker : option W }.

Record Inner : Type := mkInner {
  entries : list Slot; registry_id : Z; next_slot : nat; live_len : Z; closed : bool }.

(** One poll set and the process-wide registry counter. *)
Record PollState : Type := mkPollState { next_registry_id : Z; inner : Inner }.

(** [PreparedRegistration]: an owned waker that is not armed yet. *)
Record PreparedRegistration : Type := mkPrepared { prepared_waker : W }.

Record ArmRegistrationError : Type := mkArmError {
  error_kind : RegisterError; error_prepared : PreparedRegistration }.

(** Waker callbacks run outside the lock. *)
Inductive event : Type := EvWake (w : W) | EvDrop (w : W).

End Data.
Arguments mkSlot {W}.
Arguments slot_generation {W}.
Arguments slot_waker {W}.
Arguments mkInner {W}.
Arguments entries {W}.
Arguments registry_id {W}.
Arguments next_slot {W}.
Arguments live_len {W}.
Arguments closed {W}.
Arguments mkPollState {W}.
Arguments next_registry_id {W}.
Arguments inner {W}.
Arguments mkPrepared {W}.
Arguments prepared_waker {W}.
Arguments mkArmError {W}.
Arguments error_kind {W}.
Arguments error_prepared {W}.
Arguments EvWake {W}.
Arguments EvDrop {W}.

Section Operations.
Context {W : Type} (will_wake : W -> W -> bool) (CAPACITY : nat).
Local Abbreviation PollState := (PollState W).
Local Abbreviation Inner := (Inner W).
Local Abbreviation Slot := (Slot W).
Local Abbreviation event := (event W).

Definition slot_new : Slot := mkSlot 0 None.
Definition inner_new : Inner := mkInner (replicate CAPACITY slot_new) 0 0 0 false.

Definition vacant (o : option W) : bool := match o with None => true | Some _ => false end.

(** ** Critical sections *)

Section Sections.
Context {E : Type}.

Definition self_inner : M PollState E Inner := gets inner.
Definition set_inner (i : Inner) : M PollState E () :=
  modify (fun s => mkPollState (next_registry_id s) i).

(** [allocate_registry_id] *)
Definition allocate_registry_id : M PollState E (option Z) :=
  n ← gets next_registry_id;
  let '(r, n') := try_update (fun current => checked_add_usize current 1) n in
  modify (fun s => mkPollState n' (inner s)) ;;
  mret (match r with Ok id => Some id | Err _ => None end).

(** [find] over candidate slots; an index out of range panics. *)
Fixpoint find_free (es : list Slot) (slots : list nat) : M PollState E (option nat) :=
  match slots with
  | [] => mret None
  | slot :: slots =>
      e ← expect (es !! slot);
      if vacant (slot_waker e) && (slot_generation e <? usize_MAX)
      then mret (Some slot) else find_free es slots
  end.

(** [(self.next..CAPACITY).chain(0..self.next)] *)
Definition candidates (next : nat) : list nat := seq next (CAPACITY - next) ++ seq 0 next.

End Sections.

(** [Inner::arm] *)
Definition inner_arm (owned : W) : M PollState (RegisterError * W) RegistrationToken :=
  s ← self_inner;
  if closed s then throw (RegisterClosed, owned) else
  if live_len s =? Z.of_nat CAPACITY then throw (RegisterFull, owned) else
  found ← find_free (entries s) (candidates (next_slot s));
  match found with
  | None => throw (TokenSpaceExhausted, owned)
  | Some slot =>
      id ← (if registry_id s =? 0 then
              allocated ← allocate_registry_id;
              match allocated with
              | None => throw (TokenSpaceExhausted, owned)
              | Some id => mret id
              end
            else mret (registry_id s));
      entry ← expect (entries s !! slot);
      let generation := slot_generation entry + 1 in
      set_inner (mkInner (<[slot := mkSlot generation (Some owned)]> (entries s)) id
        (if bool_decide (S slot = CAPACITY) then 0%nat else S slot) (live_len s + 1) (closed s)) ;;
      mret (mkToken id slot generation)
  end.

(** [Inner::update]: the result and the waker to destroy after the lock. *)
Definition inner_update {E} (token : RegistrationToken) (candidate owned : W)
    : M PollState E (result unit UpdateError * option W) :=
  s ← self_inner;
  if closed s then mret (Err UpdateClosed, Some owned) else
  if (token_registry token =? 0) || negb (token_registry token =? registry_id s)
  then mret (Err InvalidToken, Some owned) else
  match entries s !! token_slot token with
  | None => mret (Err InvalidToken, Some owned)
  | Some e =>
      if negb (slot_generation e =? token_generation token) || vacant (slot_waker e)
      then mret (Err InvalidToken, Some owned) else
      if match slot_waker e with Some registered => will_wake registered candidate | None => false end
      then mret (Ok tt, Some owned) else
      set_inner (mkInner (<[token_slot token := mkSlot (slot_generation e) (Some owned)]> (entries s))
        (registry_id s) (next_slot s) (live_len s) (closed s)) ;;
      mret (Ok tt, slot_waker e)
  end.

(** [Inner::cancel]; an underflow of [len] would panic. *)
Definition inner_cancel {E} (token : RegistrationToken) : M PollState E (option W) :=
  s ← self_inner;
  if (token_registry token =? 0) || negb (token_registry token =? registry_id s)
  then mret None else
  match entries s !! token_slot token with
  | None => mret None
  | Some e =>
      if negb (slot_generation e =? token_generation token) then mret None else
      match slot_waker e with
      | None => mret None
      | Some w =>
          len ← expect (checked_sub_usize (live_len s) 1);
          set_inner (mkInner (<[token_slot token := mkSlot (slot_generation e) None]> (entries s))
            (registry_id s) (token_slot token) len (closed s)) ;;
          mret (Some w)
      end
  end.

(** [Inner::drain]: the count and the drained wakers in slot order. *)
Definition inner_drain {E} : M PollState E (Z * list (option W)) :=
  s ← self_inner;
  let pending := map slot_waker (entries s) in
  set_inner (mkInner (map (fun e => mkSlot (slot_generation e) None) (entries s))
    (registry_id s) 0 0 (closed s)) ;;
  mret (live_len s, pending).

(** ** Public methods: one critical section, then the callbacks *)

Definition len {E} : M PollState E Z := s ← self_inner; mret (live_len s).
Definition is_closed {E} : M PollState E bool := s ← self_inner; mret (closed s).

(** [PreparedRegistration::new]: clones the waker. *)
Definition prepare (waker : W) : PreparedRegistration W := mkPrepared waker.

Definition arm (prepared : PreparedRegistration W)
    : M PollState (ArmRegistrationError W) RegistrationToken :=
  with_err (fun '(kind, waker) => mkArmError kind (mkPrepared waker))
    (inner_arm (prepared_waker prepared)).

(** [register]: on failure the rejected clone is destroyed. *)
Definition register {E} (waker : W)
    : M PollState E (result RegistrationToken RegisterError * list event) := fun s =>
  match arm (prepare waker) s with
  | Done token s => Done (Ok token, []) s
  | Fail error s => Done (Err (error_kind error), [EvDrop (prepared_waker (error_prepared error))]) s
  | Panic => Panic
  | Diverged => Diverged
  end.

Definition drop_opt (o : option W) : list event :=
  match o with Some w => [EvDrop w] | None => [] end.

Definition update {E} (token : RegistrationToken) (waker : W)
    : M PollState E (result unit UpdateError * list event) :=
  '(result, deferred) ← inner_update token waker waker;
  mret (result, drop_opt deferred).

Definition cancel {E} (token : RegistrationToken) : M PollState E (bool * list event) :=
  removed ← inner_cancel token;
  mret (negb (vacant removed), drop_opt removed).

(** [pending.into_iter().flatten()] *)
Definition wake_all (pending : list (option W)) : list event := EvWake <$> omap (fun o => o) pending.

Definition wake {E} : M PollState E (Z * list event) :=
  '(n, pending) ← inner_drain;
  mret (n, wake_all pending).

Definition close {E} : M PollState E (Z * list event) :=
  s ← self_inner;
  if closed s then mret (0, []) else
  set_inner (mkInner (entries s) (registry_id s) (next_slot s) (live_len s) true) ;;
  '(n, pending) ← inner_drain;
  mret (n, wake_all pending).

(** [Drop for PollSet] *)
Definition drop_set {E} : M PollState E (list event) :=
  '(_, events) ← close; mret events.

End Operations.

Arguments PollState : clear implicits.
