(* ===== verification/PollSections.v ===== *)
(** Poll sets, part 2: the abstract registry and the refinement of every
    critical section.

    Abstractly a poll set is a finite map from live tokens to wakers and a
    closed flag. [poll_wf] is the invariant of the slot array; [live] is the
    abstraction function.

    Poll sets, part 3: every critical section on a well-formed set runs without
    panic, preserves [poll_wf] and acts on the abstract map as specified.

    Poll sets, part 4: histories of operations on several poll sets.

    Each public method has one critical section, and callbacks run outside of
    it, so every interleaving of threads and of re-entrant callbacks is a
    sequence of critical sections: a [history]. *)

From stdpp Require Import gmap.
From S2P Require Import Prelude Effects Atomics PollSet.
Local Open Scope Z_scope.

#[export] Instance RegistrationToken_countable : Countable RegistrationToken.
Proof.
  apply (inj_countable'
    (fun t => (token_registry t, token_slot t, token_generation t))
    (fun '(r, s, g) => mkToken r s g)). by intros [].
Defined.

Section Spec.
Context {W : Type} (CAPACITY : nat).
Local Abbreviation PollState := (PollState W).
Local Abbreviation Inner := (Inner W).
Local Abbreviation Slot := (Slot W).
Implicit Types (s : PollState) (i : Inner) (t : RegistrationToken) (w : W).

(** ** Abstraction *)

Definition live_entry (id : Z) (slot : nat) (e : Slot) : option (RegistrationToken * W) :=
  (fun w => (mkToken id slot (slot_generation e), w)) <$> slot_waker e.

Definition live_list (i : Inner) : list (RegistrationToken * W) :=
  omap (fun o => o) (imap (live_entry (registry_id i)) (entries i)).

Definition live (i : Inner) : gmap RegistrationToken W := list_to_map (live_list i).

Record poll_wf (s : PollState) : Prop := {
  pwf_length : length (entries (inner s)) = CAPACITY;
  pwf_capacity : Z.of_nat CAPACITY <= usize_MAX;
  pwf_next : (next_slot (inner s) <= CAPACITY)%nat;
  pwf_len : live_len (inner s) = count (fun e => vacant (slot_waker e) = false) (entries (inner s));
  pwf_counter : next_registry_id s <= usize_MAX;
  pwf_id : 0 <= registry_id (inner s) < next_registry_id s;
  pwf_unnamed : registry_id (inner s) = 0 ->
    forall k e, entries (inner s) !! k = Some e -> slot_waker e = None;
  pwf_generation k e : entries (inner s) !! k = Some e -> 0 <= slot_generation e <= usize_MAX;
  pwf_closed : closed (inner s) = true ->
    forall k e, entries (inner s) !! k = Some e -> slot_waker e = None }.

(** ** Lookup in the abstract map *)

Lemma live_list_In i t w :
  (t, w) ∈ live_list i <->
  token_registry t = registry_id i /\
  entries i !! token_slot t = Some (mkSlot (token_generation t) (Some w)).
Proof.
  unfold live_list. rewrite list_elem_of_omap. split.
  - intros (o & Ho & Hx). apply elem_of_lookup_imap in Ho as (k & e & -> & He). unfold live_entry in Hx.
    destruct e as [g [w'|]]; [|done]. simpl in Hx. injection Hx as <- <-. done.
  - intros [Hr He]. exists (Some (t, w)). split; [|done]. apply elem_of_lookup_imap.
    exists (token_slot t), (mkSlot (token_generation t) (Some w)). split; [|done].
    unfold live_entry. simpl. rewrite <- Hr. by destruct t.
Qed.

Lemma live_list_nodup i : NoDup (live_list i).*1.
Proof.
  unfold live_list. assert (forall id es (n : nat),
    NoDup ((omap (fun o => o) (imap (fun k e => live_entry id (n + k) e) es)).*1) /\
    forall t w, (t, w) ∈ omap (fun o => o) (imap (fun k e => live_entry id (n + k) e) es) ->
      (n <= token_slot t)%nat) as Hgen.
  { intros id es. induction es as [|e es IH]; intros n; simpl; [split; [constructor|set_solver]|].
    destruct (IH (S n)) as [Hnd Hlow].
    assert (imap ((fun k e0 => live_entry id (n + k) e0) ∘ S) es =
      imap (fun k e0 => live_entry id (S n + k) e0) es) as Heq.
    { apply imap_ext. intros k x _. simpl. f_equal. lia. }
    rewrite Heq. destruct (live_entry id (n + 0) e) as [[t0 w0]|] eqn:Hle; simpl.
    - assert (token_slot t0 = n) as Ht0.
      { unfold live_entry in Hle. destruct (slot_waker e); [|done]. injection Hle as <- _. simpl. lia. }
      split.
      + apply NoDup_cons. split; [|done]. intros ((t, w') & Ht & Hin)%list_elem_of_fmap.
        apply Hlow in Hin. simpl in Ht. subst t. lia.
      + intros t w' [Heq'|Hin]%elem_of_cons; [injection Heq' as -> _; lia|].
        apply Hlow in Hin. lia.
    - split; [done|]. intros t w' Hin. apply Hlow in Hin. lia. }
  apply (Hgen (registry_id i) (entries i) 0%nat).
Qed.

Lemma live_lookup i t w :
  live i !! t = Some w <->
  token_registry t = registry_id i /\
  entries i !! token_slot t = Some (mkSlot (token_generation t) (Some w)).
Proof.
  unfold live. rewrite <- elem_of_list_to_map by apply live_list_nodup. apply live_list_In.
Qed.

Lemma live_lookup_None i t :
  live i !! t = None <->
  forall w, token_registry t = registry_id i ->
    entries i !! token_slot t <> Some (mkSlot (token_generation t) (Some w)).
Proof.
  split.
  - intros Hn w Hr He. assert (live i !! t = Some w) by (by apply live_lookup). congruence.
  - intros Hn. destruct (live i !! t) as [w|] eqn:Hl; [|done].
    apply live_lookup in Hl as [Hr He]. by apply Hn in He.
Qed.

(** Two maps with the same live entries are equal. *)
Lemma live_eq i (m : gmap RegistrationToken W) :
  (forall t w, (token_registry t = registry_id i /\
     entries i !! token_slot t = Some (mkSlot (token_generation t) (Some w))) <-> m !! t = Some w) ->
  live i = m.
Proof.
  intros Heq. apply map_eq. intros t. apply option_eq. intros w. by rewrite live_lookup, Heq.
Qed.

Lemma live_size i :
  Z.of_nat (size (live i)) = count (fun e => vacant (slot_waker e) = false) (entries i).
Proof.
  unfold live. rewrite <- (length_map_to_list (list_to_map (live_list i))).
  rewrite (Permutation_length (map_to_list_to_map _ (live_list_nodup i))).
  unfold live_list. assert (forall id es (f : nat -> nat), Z.of_nat (length
    (omap (fun o => o) (imap (fun k e => live_entry id (f k) e) es))) =
    count (fun e : Slot => vacant (slot_waker e) = false) es) as Hgen.
  { intros id es. induction es as [|e es IH]; intros f; simpl; [done|].
    rewrite count_cons, <- (IH (fun k => f (S k))). unfold live_entry at 1, weight.
    destruct (slot_waker e); simpl; [|done].
    rewrite Nat2Z.inj_succ, Z.add_1_l. done. }
  apply (Hgen (registry_id i) (entries i) (fun k => k)).
Qed.

Lemma live_values i : (live_list i).*2 = omap slot_waker (entries i).
Proof.
  unfold live_list. assert (forall id es (f : nat -> nat),
    (omap (fun o => o) (imap (fun k e => live_entry id (f k) e) es)).*2 =
    omap (slot_waker (W := W)) es) as Hgen.
  { intros id es. induction es as [|e es IH]; intros f; simpl; [done|].
    unfold live_entry at 1. destruct (slot_waker e) as [w|]; simpl;
      [f_equal|]; apply (IH (fun k => f (S k))). }
  apply (Hgen (registry_id i) (entries i) (fun k => k)).
Qed.

(** The wakers the registry owns, in slot order. *)
Definition owned_wakers (i : Inner) : list W := omap slot_waker (entries i).

Lemma owned_wakers_live i : owned_wakers i ≡ₚ (map_to_list (live i)).*2.
Proof.
  unfold owned_wakers. rewrite <- live_values. unfold live.
  by rewrite (map_to_list_to_map _ (live_list_nodup i)).
Qed.

End Spec.

Section Sections.
Context {W : Type} (CAPACITY : nat).
Local Abbreviation PollState := (PollState W).
Local Abbreviation Inner := (Inner W).
Local Abbreviation Slot := (Slot W).
Local Abbreviation poll_wf := (poll_wf CAPACITY).
Implicit Types (s : PollState) (i : Inner) (t : RegistrationToken) (w : W).

(** ** Evolution *)

(** Generations grow; within one generation a waker never comes back. *)
Definition slot_evolves (e e' : Slot) : Prop :=
  slot_generation e < slot_generation e' \/
  (slot_generation e = slot_generation e' /\ (slot_waker e = None -> slot_waker e' = None)).

Record poll_evolves (s s' : PollState) : Prop := {
  pev_counter : next_registry_id s <= next_registry_id s';
  pev_id : registry_id (inner s') = registry_id (inner s) \/
    registry_id (inner s) = 0 /\ next_registry_id s <= registry_id (inner s') < next_registry_id s';
  pev_slot k e : entries (inner s) !! k = Some e ->
    exists e', entries (inner s') !! k = Some e' /\ slot_evolves e e';
  pev_closed : closed (inner s) = true -> closed (inner s') = true }.

Lemma slot_evolves_refl e : slot_evolves e e.
Proof. by right. Qed.

#[export] Instance poll_evolves_refl : Reflexive poll_evolves.
Proof. intros s. split; [lia|by left| |done]. intros k e He. exists e. by split; [|right]. Qed.

Lemma poll_evolves_slot s n' i' k e e' :
  entries (inner s) !! k = Some e -> slot_evolves e e' ->
  next_registry_id s <= n' ->
  (registry_id i' = registry_id (inner s) \/
   registry_id (inner s) = 0 /\ next_registry_id s <= registry_id i' < n') ->
  entries i' = <[k := e']> (entries (inner s)) -> (closed (inner s) = true -> closed i' = true) ->
  poll_evolves s (mkPollState n' i').
Proof.
  intros Hk He Hn Hid Hes Hc. split; simpl; [done|done| |done]. intros k' e0 He0. rewrite Hes.
  destruct (decide (k = k')) as [<-|Hne].
  - rewrite list_lookup_insert_eq by (apply lookup_lt_is_Some; eauto). simplify_eq. eauto.
  - rewrite list_lookup_insert_ne by done. exists e0. split; [done|]. apply slot_evolves_refl.
Qed.

(** ** The search for a slot *)

Definition usable (e : Slot) : bool := vacant (slot_waker e) && (slot_generation e <? usize_MAX).

Lemma find_free_spec {E} s es slots :
  (forall k, k ∈ slots -> is_Some (es !! k)) ->
  exists r, find_free (E := E) es slots s = Done r s /\
    match r with
    | Some k => k ∈ slots /\ exists e, es !! k = Some e /\ usable e = true
    | None => forall k e, k ∈ slots -> es !! k = Some e -> usable e = false
    end.
Proof.
  induction slots as [|k slots IH]; intros Hin; simpl.
  - exists None. split; [done|]. by intros ? ? ?%elem_of_nil.
  - destruct (Hin k) as [e He]; [set_solver|]. rewrite He. rewrite (bind_done _ _ s e s) by done.
    fold (usable e). destruct (usable e) eqn:Hu.
    + exists (Some k). split; [done|]. split; [set_solver|]. eauto.
    + destruct IH as (r & Hr & Hcase); [set_solver|]. exists r. split; [done|].
      destruct r as [k'|]; [split; [set_solver|apply Hcase]|].
      intros k' e' [->|Hk']%elem_of_cons He'; [congruence|by eapply Hcase].
Qed.

Lemma candidates_all next k :
  (next <= CAPACITY)%nat -> k ∈ candidates CAPACITY next <-> (k < CAPACITY)%nat.
Proof. intros Hn. unfold candidates. rewrite elem_of_app, !elem_of_seq. lia. Qed.

(** Changing one slot changes the count by the difference. *)
Lemma live_count_insert (es : list Slot) k e e' :
  es !! k = Some e ->
  count (fun e => vacant (slot_waker e) = false) (<[k := e']> es) =
  count (fun e => vacant (slot_waker e) = false) es -
    (if vacant (slot_waker e) then 0 else 1) + (if vacant (slot_waker e') then 0 else 1).
Proof.
  intros Hk. rewrite (count_insert _ _ _ _ e' Hk). unfold weight.
  destruct (vacant (slot_waker e)), (vacant (slot_waker e')); simpl; lia.
Qed.

(** ** Arming *)

(** The state after arming slot [k]. *)
Definition armed (s : PollState) (n' id : Z) (k : nat) (e : Slot) (w : W) : PollState :=
  mkPollState n' (mkInner (<[k := mkSlot (slot_generation e + 1) (Some w)]> (entries (inner s))) id
    (if bool_decide (S k = CAPACITY) then 0%nat else S k) (live_len (inner s) + 1) (closed (inner s))).

Definition id_choice (s : PollState) (n' id : Z) : Prop :=
  (registry_id (inner s) <> 0 /\ id = registry_id (inner s) /\ n' = next_registry_id s) \/
  (registry_id (inner s) = 0 /\ id = next_registry_id s /\ n' = next_registry_id s + 1).

Lemma armed_wf s n' id k e w :
  poll_wf s -> closed (inner s) = false -> entries (inner s) !! k = Some e -> usable e = true ->
  id_choice s n' id -> n' <= usize_MAX -> poll_wf (armed s n' id k e w).
Proof.
  intros Hwf Hcl Hk [Hv Hg]%andb_prop Hid Hmax. apply Z.ltb_lt in Hg.
  destruct (pwf_id _ _ Hwf) as [Hid0 Hidn].
  assert (k < CAPACITY)%nat as Hlt by (rewrite <- (pwf_length _ _ Hwf); apply lookup_lt_is_Some; eauto).
  split; simpl.
  - rewrite length_insert. apply (pwf_length _ _ Hwf).
  - apply (pwf_capacity _ _ Hwf).
  - case_bool_decide; lia.
  - rewrite (live_count_insert _ _ e) by done. rewrite Hv. simpl. rewrite (pwf_len _ _ Hwf). lia.
  - done.
  - destruct Hid as [(? & -> & ->)|(? & -> & ->)]; lia.
  - destruct Hid as [(? & -> & ->)|(? & -> & ->)]; lia.
  - intros k' e'. destruct (decide (k = k')) as [<-|].
    + rewrite list_lookup_insert_eq by (apply lookup_lt_is_Some; eauto). intros [= <-]. simpl.
      pose proof (pwf_generation _ _ Hwf k e Hk). lia.
    + rewrite list_lookup_insert_ne by done. apply (pwf_generation _ _ Hwf).
  - congruence.
Qed.

Lemma armed_evolves s n' id k e w :
  poll_wf s -> entries (inner s) !! k = Some e -> id_choice s n' id ->
  poll_evolves s (armed s n' id k e w).
Proof.
  intros Hwf Hk Hid. destruct (pwf_id _ _ Hwf) as [Hid0 Hidn].
  eapply poll_evolves_slot; [exact Hk| | | |done|done]; simpl.
  - left. simpl. lia.
  - destruct Hid as [(? & _ & ->)|(? & _ & ->)]; lia.
  - destruct Hid as [(? & -> & ->)|(? & -> & ->)]; [by left|right; lia].
Qed.

Lemma armed_live s n' id k e w :
  poll_wf s -> entries (inner s) !! k = Some e -> usable e = true -> id_choice s n' id ->
  let t := mkToken id k (slot_generation e + 1) in
  live (inner s) !! t = None /\ live (inner (armed s n' id k e w)) = <[t := w]> (live (inner s)).
Proof.
  intros Hwf Hk [Hv Hg]%andb_prop Hid t.
  assert (slot_waker e = None) as He by (by destruct (slot_waker e)).
  assert (live (inner s) !! t = None) as Hnone.
  { apply live_lookup_None. intros w' _. simpl. rewrite Hk. intros [= Heq]. by rewrite Heq in He. }
  split; [done|]. apply live_eq. intros t' w'. simpl. rewrite lookup_insert_Some, live_lookup.
  destruct (decide (t = t')) as [<-|Hne].
  - simpl. rewrite list_lookup_insert_eq by (apply lookup_lt_is_Some; eauto). naive_solver.
  - destruct (decide (token_slot t' = k)) as [Hs|Hs].
    + rewrite Hs, list_lookup_insert_eq by (apply lookup_lt_is_Some; eauto). rewrite Hk. split.
      * intros (Hr & [= Hgen _]). exfalso. apply Hne. unfold t. destruct t'. simpl in *. congruence.
      * intros [[? _]|(_ & _ & [= Heq])]; [done|]. destruct e; simpl in *. congruence.
    + rewrite list_lookup_insert_ne by done. split; [|intros [[? _]|(_ & Hr & Hx)]; [done|]].
      * intros [Hr Hx]. right. split; [done|]. split; [|done].
        destruct Hid as [(_ & <- & _)|(Hz & _)]; [done|]. exfalso.
        pose proof (pwf_unnamed _ _ Hwf Hz _ _ Hx). done.
      * split; [|done]. destruct Hid as [(_ & -> & _)|(Hz & _)]; [done|]. exfalso.
        pose proof (pwf_unnamed _ _ Hwf Hz _ _ Hx). done.
Qed.

(** Arming: either a fresh token maps to the waker and nothing else changes, or
    the waker comes back and the set is unchanged. *)
(** What a successful [arm] promises of its token. *)
Definition arm_done s w (t : RegistrationToken) s' : Prop :=
  poll_wf s' /\ poll_evolves s s' /\
  Z.of_nat (size (live (inner s))) < Z.of_nat CAPACITY /\
  live (inner s) !! t = None /\ live (inner s') = <[t := w]> (live (inner s)) /\
  token_registry t = registry_id (inner s') /\ token_registry t <> 0 /\
  (forall e, entries (inner s) !! token_slot t = Some e -> slot_generation e < token_generation t) /\
  owned_wakers (inner s') ≡ₚ w :: owned_wakers (inner s).

Lemma armed_done s n' id k e w :
  poll_wf s -> closed (inner s) = false -> entries (inner s) !! k = Some e -> usable e = true ->
  id_choice s n' id -> n' <= usize_MAX -> live_len (inner s) <> Z.of_nat CAPACITY ->
  arm_done s w (mkToken id k (slot_generation e + 1)) (armed s n' id k e w).
Proof.
  intros Hwf Hcl Hk Hu Hid Hn Hroom. destruct (armed_live s n' id k e w Hwf Hk Hu Hid) as [Hnone Hlive].
  pose proof (live_size (inner s)) as Hsize. rewrite <- (pwf_len _ _ Hwf) in Hsize.
  pose proof (count_le_length (fun e => vacant (slot_waker e) = false) (entries (inner s))) as Hle.
  unfold zlen in Hle. rewrite (pwf_length _ _ Hwf), <- (pwf_len _ _ Hwf) in Hle.
  split; [by apply armed_wf|]. split; [by apply armed_evolves|].
  split; [lia|]. split; [done|]. split; [done|]. split; [done|]. split; [|split].
  - destruct (pwf_id _ _ Hwf). destruct Hid as [(? & -> & _)|(? & -> & _)]; simpl; lia.
  - intros e' He'. simpl in *. simplify_eq. lia.
  - rewrite !owned_wakers_live, Hlive. by rewrite map_to_list_insert by done.
Qed.

Lemma inner_arm_spec s w :
  poll_wf s ->
  match inner_arm CAPACITY w s with
  | Done t s' => closed (inner s) = false /\ arm_done s w t s'
  | Fail (k, w') s' =>
      w' = w /\ s' = s /\
      match k with
      | RegisterClosed => closed (inner s) = true
      | RegisterFull => closed (inner s) = false /\ Z.of_nat (size (live (inner s))) = Z.of_nat CAPACITY
      | TokenSpaceExhausted => closed (inner s) = false /\
          ((forall k e, entries (inner s) !! k = Some e -> slot_waker e = None ->
              slot_generation e = usize_MAX) \/ next_registry_id s = usize_MAX)
      end
  | Panic | Diverged => False
  end.
Proof.
  intros Hwf. unfold inner_arm. rewrite (bind_done _ _ s (inner s) s) by done.
  destruct (closed (inner s)) eqn:Hcl; [done|].
  pose proof (live_size (inner s)) as Hsize. rewrite <- (pwf_len _ _ Hwf) in Hsize.
  destruct (Z.eqb_spec (live_len (inner s)) (Z.of_nat CAPACITY)) as [Hfull|Hroom];
    [simpl; rewrite Hsize; auto|].
  destruct (find_free_spec (E := RegisterError * W) s (entries (inner s))
    (candidates CAPACITY (next_slot (inner s)))) as (r & Hr & Hcase).
  { intros k Hk. apply (candidates_all _ _ (pwf_next _ _ Hwf)) in Hk.
    apply lookup_lt_is_Some. by rewrite (pwf_length _ _ Hwf). }
  rewrite (bind_done _ _ _ _ _ Hr). destruct r as [k|]; simpl.
  - destruct Hcase as (_ & e & Hk & Hu).
    assert (forall n' id, id_choice s n' id -> n' <= usize_MAX -> false = false /\
      arm_done s w (mkToken id k (slot_generation e + 1)) (armed s n' id k e w)) as Hdone
      by (intros; split; [done|by apply armed_done]).
    unfold armed in Hdone. rewrite Hcl in Hdone.
    destruct (Z.eqb_spec (registry_id (inner s)) 0) as [Hz|Hz].
    + unfold allocate_registry_id, try_update, gets, modify, mbind, M_bind, mret, M_ret. simpl.
      unfold checked_add_usize. destruct (Z.leb_spec (next_registry_id s + 1) usize_MAX) as [Hle|Hgt]; simpl.
      * rewrite Hk. simpl. apply (Hdone (next_registry_id s + 1) (next_registry_id s)); [right|]; lia.
      * split; [done|]. split; [by destruct s|]. split; [done|]. right.
        pose proof (pwf_counter _ _ Hwf). lia.
    + rewrite (bind_done _ _ s (registry_id (inner s)) s) by done. rewrite Hk.
      rewrite (bind_done _ _ s e s) by done.
      apply (Hdone (next_registry_id s) (registry_id (inner s))); [by left|].
      apply (pwf_counter _ _ Hwf).
  - split; [done|]. split; [done|]. split; [done|]. left. intros k e Hk Hw.
    assert (usable e = false) as Hu.
    { apply (Hcase k e); [|done]. apply (candidates_all _ _ (pwf_next _ _ Hwf)).
      rewrite <- (pwf_length _ _ Hwf). apply lookup_lt_is_Some. eauto. }
    unfold usable in Hu. rewrite Hw in Hu. simpl in Hu. apply Z.ltb_ge in Hu.
    pose proof (pwf_generation _ _ Hwf k e Hk). lia.
Qed.

(** ** Tokens *)

(** The checks of [update] and [cancel], against the abstract map. *)
Lemma token_foreign s t :
  poll_wf s ->
  (token_registry t =? 0) || negb (token_registry t =? registry_id (inner s)) = true ->
  live (inner s) !! t = None.
Proof.
  intros Hwf Hc. apply live_lookup_None. intros w Hr He. rewrite Hr, Z.eqb_refl, orb_false_r in Hc.
  apply Z.eqb_eq in Hc. by pose proof (pwf_unnamed _ _ Hwf Hc _ _ He).
Qed.

Lemma token_entry s t e :
  (token_registry t =? 0) || negb (token_registry t =? registry_id (inner s)) = false ->
  entries (inner s) !! token_slot t = Some e ->
  live (inner s) !! t =
    if slot_generation e =? token_generation t then slot_waker e else None.
Proof.
  intros Hc He. apply orb_false_iff in Hc as [_ Hr]. apply negb_false_iff, Z.eqb_eq in Hr.
  destruct (Z.eqb_spec (slot_generation e) (token_generation t)) as [Hg|Hg].
  - destruct (slot_waker e) as [w|] eqn:Hw.
    + apply live_lookup. split; [done|]. rewrite He. f_equal. destruct e. simpl in *. by subst.
    + apply live_lookup_None. intros w _. rewrite He. intros [= ->]. done.
  - apply live_lookup_None. intros w _. rewrite He. intros [= ->]. done.
Qed.

Lemma token_no_entry s t : entries (inner s) !! token_slot t = None -> live (inner s) !! t = None.
Proof. intros He. apply live_lookup_None. intros w _. by rewrite He. Qed.

(** The state after storing [o] in slot [k]. *)
Definition stored (s : PollState) (k : nat) (e : Slot) (o : option W) (next : nat) (n : Z) : PollState :=
  mkPollState (next_registry_id s)
    (mkInner (<[k := mkSlot (slot_generation e) o]> (entries (inner s))) (registry_id (inner s))
       next n (closed (inner s))).

Lemma stored_wf s k e o next n w :
  poll_wf s -> entries (inner s) !! k = Some e -> slot_waker e = Some w -> (next <= CAPACITY)%nat ->
  n = live_len (inner s) - 1 + (if vacant o then 0 else 1) -> poll_wf (stored s k e o next n).
Proof.
  intros Hwf Hk Hw Hnext ->.
  assert (closed (inner s) = false) as Hcl.
  { destruct (closed (inner s)) eqn:Hc; [|done]. pose proof (pwf_closed _ _ Hwf Hc k e Hk). congruence. }
  assert (registry_id (inner s) <> 0) as Hid.
  { intros Hz. pose proof (pwf_unnamed _ _ Hwf Hz k e Hk). congruence. }
  split; simpl.
  - rewrite length_insert. apply (pwf_length _ _ Hwf).
  - apply (pwf_capacity _ _ Hwf).
  - done.
  - rewrite (live_count_insert _ _ e) by done. rewrite Hw, (pwf_len _ _ Hwf). simpl. done.
  - apply (pwf_counter _ _ Hwf).
  - apply (pwf_id _ _ Hwf).
  - done.
  - intros k' e'. destruct (decide (k = k')) as [<-|].
    + rewrite list_lookup_insert_eq by (apply lookup_lt_is_Some; eauto). intros [= <-]. simpl.
      apply (pwf_generation _ _ Hwf k e Hk).
    + rewrite list_lookup_insert_ne by done. apply (pwf_generation _ _ Hwf).
  - congruence.
Qed.

Lemma stored_evolves s k e o next n w :
  entries (inner s) !! k = Some e -> slot_waker e = Some w -> poll_evolves s (stored s k e o next n).
Proof.
  intros Hk Hw. eapply poll_evolves_slot; [exact Hk| |lia|by left|done|done].
  right. split; [done|]. congruence.
Qed.

Lemma stored_live s t e o next n w :
  entries (inner s) !! token_slot t = Some e -> live (inner s) !! t = Some w ->
  live (inner (stored s (token_slot t) e o next n)) =
    match o with Some w' => <[t := w']> (live (inner s)) | None => delete t (live (inner s)) end.
Proof.
  intros Hk Hl. apply live_lookup in Hl as [Hr Hx]. rewrite Hk in Hx. injection Hx as ->.
  apply live_eq. intros t' w'. simpl. destruct (decide (t = t')) as [<-|Hne].
  - rewrite list_lookup_insert_eq by (apply lookup_lt_is_Some; eauto).
    destruct o as [w0|]; [rewrite lookup_insert_eq|rewrite lookup_delete_eq]; naive_solver.
  - assert (match o with Some w' => <[t:=w']> (live (inner s)) | None => delete t (live (inner s)) end !! t' =
      live (inner s) !! t') as ->.
    { destruct o; [by rewrite lookup_insert_ne|by rewrite lookup_delete_ne]. }
    rewrite live_lookup. destruct (decide (token_slot t = token_slot t')) as [Hs|Hs].
    + rewrite <- Hs, list_lookup_insert_eq by (apply lookup_lt_is_Some; eauto). rewrite Hk.
      split; intros [Hr' [= Hg _]]; exfalso; apply Hne; destruct t, t'; simpl in *; congruence.
    + by rewrite list_lookup_insert_ne.
Qed.

(** ** Update and cancellation *)

Lemma inner_update_spec {E} (will_wake : W -> W -> bool) s t c o :
  poll_wf s ->
  exists r d s', inner_update (E := E) will_wake t c o s = Done (r, d) s' /\
    poll_wf s' /\ poll_evolves s s' /\
    (if closed (inner s) then r = Err UpdateClosed /\ d = Some o /\ s' = s
     else match live (inner s) !! t with
          | None => r = Err InvalidToken /\ d = Some o /\ s' = s
          | Some w => r = Ok tt /\
              if will_wake w c then d = Some o /\ s' = s
              else d = Some w /\ live (inner s') = <[t := o]> (live (inner s))
          end).
Proof.
  intros Hwf. unfold inner_update. rewrite (bind_done _ _ s (inner s) s) by done.
  destruct (closed (inner s)) eqn:Hcl; [by eexists _, _, s|].
  destruct (_ || _) eqn:Hc.
  { rewrite (token_foreign s t Hwf Hc). by eexists _, _, s. }
  destruct (entries (inner s) !! token_slot t) as [e|] eqn:He; cycle 1.
  { rewrite (token_no_entry s t He). by eexists _, _, s. }
  pose proof (token_entry s t e Hc He) as Hl. rewrite Hl.
  destruct (Z.eqb_spec (slot_generation e) (token_generation t)) as [Hg|Hg]; simpl; [|by eexists _, _, s].
  destruct (slot_waker e) as [w|] eqn:Hw; simpl; [|by eexists _, _, s].
  destruct (will_wake w c); [by eexists _, _, s|].
  eexists _, _, (stored s (token_slot t) e (Some o) (next_slot (inner s)) (live_len (inner s))).
  split; [unfold stored; by rewrite Hcl|]. split; [|split; [|split; [done|split; [done|]]]].
  - eapply stored_wf; [done|done|done|apply (pwf_next _ _ Hwf)|simpl; lia].
  - by eapply stored_evolves.
  - by rewrite (stored_live s t e (Some o) _ _ w).
Qed.

Lemma live_len_positive s t w :
  poll_wf s -> live (inner s) !! t = Some w -> 1 <= live_len (inner s).
Proof.
  intros Hwf [_ He]%live_lookup. rewrite (pwf_len _ _ Hwf). by eapply count_pos.
Qed.

Lemma inner_cancel_spec {E} s t :
  poll_wf s ->
  exists s', inner_cancel (E := E) t s = Done (live (inner s) !! t) s' /\
    poll_wf s' /\ poll_evolves s s' /\
    live (inner s') = delete t (live (inner s)) /\ closed (inner s') = closed (inner s).
Proof.
  intros Hwf. unfold inner_cancel. rewrite (bind_done _ _ s (inner s) s) by done.
  assert (live (inner s) !! t = None -> poll_wf s /\ poll_evolves s s /\
    live (inner s) = delete t (live (inner s)) /\ closed (inner s) = closed (inner s)) as Hsame.
  { intros Hn. by rewrite delete_id. }
  destruct (_ || _) eqn:Hc.
  { rewrite (token_foreign s t Hwf Hc). exists s. split; [done|]. by apply Hsame, token_foreign. }
  destruct (entries (inner s) !! token_slot t) as [e|] eqn:He; cycle 1.
  { rewrite (token_no_entry s t He). exists s. split; [done|]. by apply Hsame, token_no_entry. }
  pose proof (token_entry s t e Hc He) as Hl. rewrite Hl.
  destruct (Z.eqb_spec (slot_generation e) (token_generation t)) as [Hg|Hg]; simpl;
    [|exists s; split; [done|by apply Hsame]].
  destruct (slot_waker e) as [w|] eqn:Hw; simpl; [|exists s; split; [done|by apply Hsame]].
  pose proof (live_len_positive s t w Hwf Hl) as Hpos.
  unfold checked_sub_usize. rewrite (proj2 (Z.leb_le _ _)) by done.
  exists (stored s (token_slot t) e None (token_slot t) (live_len (inner s) - 1)).
  split; [done|]. split; [|split; [|split; [|done]]].
  - eapply stored_wf; [done|done|done| |simpl; lia].
    rewrite <- (pwf_length _ _ Hwf). apply Nat.lt_le_incl, lookup_lt_is_Some. eauto.
  - by eapply stored_evolves.
  - by rewrite (stored_live s t e None _ _ w).
Qed.

(** ** Draining *)

Definition drained (s : PollState) (c : bool) : PollState :=
  mkPollState (next_registry_id s)
    (mkInner (map (fun e => mkSlot (slot_generation e) None) (entries (inner s)))
       (registry_id (inner s)) 0 0 c).

Lemma drained_lookup s c k e :
  entries (inner (drained s c)) !! k = Some e ->
  slot_waker e = None /\ exists e0, entries (inner s) !! k = Some e0 /\
    slot_generation e = slot_generation e0.
Proof.
  simpl. rewrite list_lookup_fmap. destruct (entries (inner s) !! k) as [e0|]; [|done].
  intros [= <-]. split; [done|]. by exists e0.
Qed.

Lemma drained_wf s c : poll_wf s -> poll_wf (drained s c).
Proof.
  intros Hwf. split.
  - simpl. rewrite length_map. apply (pwf_length _ _ Hwf).
  - apply (pwf_capacity _ _ Hwf).
  - simpl. lia.
  - simpl. rewrite count_all_false; [done|]. intros x (e & -> & _)%list_elem_of_fmap. done.
  - apply (pwf_counter _ _ Hwf).
  - apply (pwf_id _ _ Hwf).
  - intros _ k e He. by apply drained_lookup in He as [? _].
  - intros k e (_ & e0 & He0 & ->)%drained_lookup. by apply (pwf_generation _ _ Hwf k).
  - intros _ k e He. by apply drained_lookup in He as [? _].
Qed.

Lemma drained_evolves s c : (closed (inner s) = true -> c = true) -> poll_evolves s (drained s c).
Proof.
  intros Hc. split; [simpl; lia|by left| |done]. intros k e He. simpl.
  exists (mkSlot (slot_generation e) None). rewrite list_lookup_fmap, He. split; [done|]. by right.
Qed.

Lemma drained_live s c : live (inner (drained s c)) = ∅.
Proof.
  apply live_eq. intros t w. rewrite lookup_empty. split; [|done].
  intros [_ He]. by apply drained_lookup in He as [? _].
Qed.

Lemma drained_owned s c : owned_wakers (inner (drained s c)) = [].
Proof.
  unfold owned_wakers. simpl. induction (entries (inner s)); [done|]. simpl. done.
Qed.

Lemma wake_all_owned i : wake_all (map slot_waker (entries i)) = EvWake <$> owned_wakers i.
Proof.
  unfold wake_all, owned_wakers. f_equal. induction (entries i) as [|e es IH]; [done|]. simpl.
  destruct (slot_waker e); simpl; [f_equal|]; apply IH.
Qed.

End Sections.

Section History.
Context {W : Type} (will_wake : W -> W -> bool) (CAPACITY : nat).
Local Abbreviation PollState := (PollState W).
Local Abbreviation Inner := (Inner W).
Local Abbreviation event := (event W).
Local Abbreviation poll_wf := (poll_wf CAPACITY).
Implicit Types (s : PollState) (t : RegistrationToken) (w : W) (m : gmap RegistrationToken W).

(** ** Operations *)

Inductive poll_op : Type :=
| PArm (w : W) | PRegister (w : W) | PUpdate (t : RegistrationToken) (w : W)
| PCancel (t : RegistrationToken) | PWake | PClose.

Inductive poll_response : Type :=
| RArm (r : result RegistrationToken (RegisterError * W))
| RRegister (r : result RegistrationToken RegisterError)
| RUpdate (r : result unit UpdateError)
| RCancel (b : bool)
| RCount (n : Z).

(** A method that cannot fail; [None] for a panic. *)
Definition completes {A} (f : A -> poll_response) (o : outcome PollState Empty_set (A * list event))
    : option (poll_response * list event * PollState) :=
  match o with Done (x, ev) s => Some (f x, ev, s) | _ => None end.

Definition poll_execute (op : poll_op) (s : PollState)
    : option (poll_response * list event * PollState) :=
  match op with
  | PArm w =>
      match arm CAPACITY (mkPrepared w) s with
      | Done t s => Some (RArm (Ok t), [], s)
      | Fail error s =>
          Some (RArm (Err (error_kind error, prepared_waker (error_prepared error))), [], s)
      | _ => None
      end
  | PRegister w => completes RRegister (register CAPACITY w s)
  | PUpdate t w => completes RUpdate (update will_wake t w s)
  | PCancel t => completes RCancel (cancel t s)
  | PWake => completes RCount (wake s)
  | PClose => completes RCount (close s)
  end.

(** ** The abstract registry *)

(** What an operation may do to the map of live registrations. *)
Definition abstract_arm m (c : bool) (w : W) (r : result RegistrationToken RegisterError)
    m' (c' : bool) : Prop :=
  c' = c /\
  match r with
  | Ok t => c = false /\ Z.of_nat (size m) < Z.of_nat CAPACITY /\ m !! t = None /\ m' = <[t := w]> m
  | Err RegisterClosed => c = true /\ m' = m
  | Err RegisterFull => c = false /\ Z.of_nat (size m) = Z.of_nat CAPACITY /\ m' = m
  | Err TokenSpaceExhausted => c = false /\ m' = m
  end.

Definition abstract_step (op : poll_op) m (c : bool) (r : poll_response) (ev : list event)
    m' (c' : bool) : Prop :=
  match op, r with
  | PArm w, RArm r =>
      ev = [] /\ (forall k w', r = Err (k, w') -> w' = w) /\ abstract_arm m c w (map_err fst r) m' c'
  | PRegister w, RRegister r =>
      ev = (match r with Ok _ => [] | Err _ => [EvDrop w] end) /\ abstract_arm m c w r m' c'
  | PUpdate t w, RUpdate r =>
      c' = c /\
      if c then r = Err UpdateClosed /\ m' = m /\ ev = [EvDrop w]
      else match m !! t with
           | None => r = Err InvalidToken /\ m' = m /\ ev = [EvDrop w]
           | Some w0 => r = Ok tt /\
               if will_wake w0 w then m' = m /\ ev = [EvDrop w]
               else m' = <[t := w]> m /\ ev = [EvDrop w0]
           end
  | PCancel t, RCancel b =>
      c' = c /\ b = negb (vacant (m !! t)) /\ m' = delete t m /\ ev = drop_opt (m !! t)
  | PWake, RCount n =>
      c' = c /\ n = Z.of_nat (size m) /\ m' = ∅ /\ ev ≡ₚ EvWake <$> (map_to_list m).*2
  | PClose, RCount n =>
      c' = true /\ m' = ∅ /\
      if c then n = 0 /\ ev = [] else n = Z.of_nat (size m) /\ ev ≡ₚ EvWake <$> (map_to_list m).*2
  | _, _ => False
  end.

Lemma arm_closed_same s w t s' :
  poll_wf s -> inner_arm CAPACITY w s = Done t s' -> closed (inner s') = closed (inner s).
Proof.
  intros Hwf. unfold inner_arm. rewrite (bind_done _ _ s (inner s) s) by done.
  destruct (closed (inner s)) eqn:Hcl; [done|]. destruct (_ =? _); [done|].
  unfold mbind, M_bind. destruct (find_free _ _ s) as [[k|] s1| | |]; try done.
  destruct (registry_id (inner s) =? 0).
  - unfold allocate_registry_id, gets, modify, mbind, M_bind, try_update, mret, M_ret.
    destruct (checked_add_usize _ _); [|done]. unfold expect.
    destruct (entries (inner s) !! k); [|done]. by intros [= <- <-].
  - unfold mret, M_ret, expect. destruct (entries (inner s) !! k); [|done]. by intros [= <- <-].
Qed.

Lemma closed_live_empty s : poll_wf s -> closed (inner s) = true -> live (inner s) = ∅.
Proof.
  intros Hwf Hc. apply live_eq. intros t w. rewrite lookup_empty. split; [|done].
  intros [_ He]. by pose proof (pwf_closed _ _ Hwf Hc _ _ He).
Qed.

(** Arming, whatever it is called from. *)
Lemma arm_refines w s :
  poll_wf s ->
  match inner_arm CAPACITY w s with
  | Done t s' => poll_wf s' /\ poll_evolves s s' /\
      abstract_arm (live (inner s)) (closed (inner s)) w (Ok t) (live (inner s')) (closed (inner s'))
  | Fail (k, w') s' => w' = w /\ s' = s /\
      abstract_arm (live (inner s)) (closed (inner s)) w (Err k) (live (inner s)) (closed (inner s))
  | _ => False
  end.
Proof.
  intros Hwf. pose proof (inner_arm_spec CAPACITY s w Hwf) as Ha.
  destruct (inner_arm CAPACITY w s) as [t s'|[k w'] s'| |] eqn:Hrun; try done.
  - pose proof (arm_closed_same s w t s' Hwf Hrun). unfold abstract_arm, arm_done in *. naive_solver.
  - destruct Ha as (-> & -> & Hk). split; [done|]. split; [done|]. split; [done|].
    destruct k; naive_solver.
Qed.

Lemma update_refines t w s :
  poll_wf s ->
  exists r ev s', poll_execute (PUpdate t w) s = Some (r, ev, s') /\ poll_wf s' /\ poll_evolves s s' /\
    abstract_step (PUpdate t w) (live (inner s)) (closed (inner s)) r ev (live (inner s')) (closed (inner s')).
Proof.
  intros Hwf. destruct (inner_update_spec (E := Empty_set) CAPACITY will_wake s t w w Hwf)
    as (r & d & s' & Hrun & Hwf' & Hev & Hcase).
  exists (RUpdate r), (drop_opt d), s'. simpl. unfold update. rewrite (bind_done _ _ _ _ _ Hrun).
  split; [done|]. split; [done|]. split; [done|].
  assert (closed (inner s') = closed (inner s)) as Hc.
  { destruct (closed (inner s)) eqn:Hc; [by apply (pev_closed _ _ Hev)|].
    destruct (live (inner s) !! t) as [w0|] eqn:Hl; [|by destruct Hcase as (_ & _ & ->)].
    destruct Hcase as [_ Hcase]. destruct (will_wake w0 w); [by destruct Hcase as [_ ->]|].
    destruct Hcase as [_ Hl']. destruct (closed (inner s')) eqn:Hc'; [|done].
    rewrite (closed_live_empty s' Hwf' Hc') in Hl'.
    assert (<[t:=w]> (live (inner s)) !! t = Some w) as Hx by apply lookup_insert_eq.
    by rewrite <- Hl', lookup_empty in Hx. }
  split; [done|]. destruct (closed (inner s)); [by destruct Hcase as (-> & -> & ->)|].
  destruct (live (inner s) !! t) as [w0|]; [|by destruct Hcase as (-> & -> & ->)].
  destruct Hcase as [-> Hcase]. split; [done|].
  destruct (will_wake w0 w); destruct Hcase as [-> Hl]; [by rewrite Hl|done].
Qed.

(** Every operation of a well-formed set refines the abstract step. *)
Lemma poll_execute_refines op s :
  poll_wf s ->
  exists r ev s', poll_execute op s = Some (r, ev, s') /\ poll_wf s' /\ poll_evolves s s' /\
    abstract_step op (live (inner s)) (closed (inner s)) r ev (live (inner s')) (closed (inner s')).
Proof.
  intros Hwf. destruct op as [w|w|t w|t| |]; cbn [poll_execute].
  - pose proof (arm_refines w s Hwf) as Harm. unfold arm, with_err. simpl.
    destruct (inner_arm CAPACITY w s) as [t s'|[k w'] s'| |]; try done.
    + destruct Harm as (? & ? & ?). eexists _, _, s'. split; [done|]. split; [done|]. split; [done|].
      split; [done|]. split; [done|]. done.
    + destruct Harm as (-> & -> & ?). eexists _, _, s. split; [done|]. split; [done|].
      split; [done|]. split; [done|]. split; [|done]. by intros k' w'' [= _ <-].
  - pose proof (arm_refines w s Hwf) as Harm. unfold register, arm, with_err. simpl.
    destruct (inner_arm CAPACITY w s) as [t s'|[k w'] s'| |]; try done.
    + destruct Harm as (? & ? & ?). by eexists _, _, s'.
    + destruct Harm as (-> & -> & ?). by eexists _, _, s.
  - by apply update_refines.
  - destruct (inner_cancel_spec (E := Empty_set) CAPACITY s t Hwf) as (s' & Hrun & Hwf' & Hev & Hl & Hc).
    unfold cancel. rewrite (bind_done _ _ _ _ _ Hrun). by eexists _, _, s'.
  - eexists _, _, (drained s (closed (inner s))). split; [done|]. split; [by apply drained_wf|].
    split; [by apply drained_evolves|]. split; [done|].
    split; [by rewrite (live_size (inner s)), (pwf_len _ _ Hwf)|]. split; [apply drained_live|].
    rewrite wake_all_owned. by rewrite (owned_wakers_live (inner s)).
  - unfold close. rewrite (bind_done _ _ s (inner s) s) by done.
    destruct (closed (inner s)) eqn:Hc.
    + eexists _, _, s. split; [done|]. split; [done|]. split; [done|]. split; [done|].
      split; [by apply closed_live_empty|done].
    + eexists _, _, (drained s true). split; [done|]. split; [by apply drained_wf|].
      split; [by apply drained_evolves|]. split; [done|]. split; [apply drained_live|]. split.
      * simpl. by rewrite (live_size (inner s)), (pwf_len _ _ Hwf).
      * rewrite wake_all_owned. by rewrite (owned_wakers_live (inner s)).
Qed.

End History.

Arguments poll_op : clear implicits.
Arguments poll_response : clear implicits.
