(* ===== verification/PollVerified.v ===== *)
(** Poll sets, part 5: the guarantees of poll sets over every history of
    operations, and concrete histories that witness them. *)

From stdpp Require Import gmap.
From S2P Require Import Prelude Effects Atomics PollSet PollSections.
Local Open Scope Z_scope.

Section World.
Context {W : Type} (will_wake : W -> W -> bool) (CAPACITY : nat).
Local Abbreviation PollState := (PollState W).
Local Abbreviation Inner := (Inner W).
Local Abbreviation event := (event W).
Local Abbreviation poll_wf := (poll_wf CAPACITY).
Local Abbreviation poll_op := (poll_op W).
Local Abbreviation poll_response := (poll_response W).
Implicit Types (s : PollState) (t : RegistrationToken) (w : W).

(** Several poll sets and the process-wide registry counter. *)
Record PollWorld : Type := mkPollWorld { counter : Z; sets : list Inner }.

Definition state_of (x : PollWorld) (i : Inner) : PollState := mkPollState (counter x) i.

(** [n] new sets; the counter starts at one. *)
Definition world_new (n : nat) : PollWorld := mkPollWorld 1 (replicate n (inner_new CAPACITY)).

Definition world_step (k : nat) (op : poll_op) (x : PollWorld)
    : option (poll_response * list event * PollWorld) :=
  i ← sets x !! k;
  '(r, ev, s') ← poll_execute will_wake CAPACITY op (state_of x i);
  Some (r, ev, mkPollWorld (next_registry_id s') (<[k := inner s']> (sets x))).

(** A history: the set, the operation, its response and its callbacks. *)
Record entry : Type := mkEntry {
  at_set : nat; operation : poll_op; response : poll_response; callbacks : list event }.

Inductive history : PollWorld -> list entry -> PollWorld -> Prop :=
| history_nil x : history x [] x
| history_cons x k op r ev x1 h x2 :
    world_step k op x = Some (r, ev, x1) -> history x1 h x2 ->
    history x (mkEntry k op r ev :: h) x2.

Record world_wf (x : PollWorld) : Prop := {
  ww_set k i : sets x !! k = Some i -> poll_wf (state_of x i);
  ww_ids k1 k2 i1 i2 : sets x !! k1 = Some i1 -> sets x !! k2 = Some i2 ->
    registry_id i1 <> 0 -> registry_id i1 = registry_id i2 -> k1 = k2 }.

Definition reachable_world (x : PollWorld) : Prop := exists n h, history (world_new n) h x.

(** The live registrations of set [k]. *)
Definition world_live (x : PollWorld) (k : nat) : gmap RegistrationToken W :=
  from_option live ∅ (sets x !! k).

Definition world_closed (x : PollWorld) (k : nat) : bool := from_option closed false (sets x !! k).

(** ** Steps *)

Lemma poll_wf_counter s n' :
  poll_wf s -> next_registry_id s <= n' <= usize_MAX -> poll_wf (mkPollState n' (inner s)).
Proof. intros [] ?. split; simpl in *; try done; lia. Qed.

Lemma world_step_spec x k op r ev x' :
  world_wf x -> world_step k op x = Some (r, ev, x') ->
  exists i i', sets x !! k = Some i /\ sets x' !! k = Some i' /\
    poll_evolves (state_of x i) (state_of x' i') /\ world_wf x' /\
    (forall k', k' <> k -> sets x' !! k' = sets x !! k') /\
    abstract_step will_wake CAPACITY op (live i) (closed i) r ev (live i') (closed i').
Proof.
  intros Hwf. unfold world_step. destruct (sets x !! k) as [i|] eqn:Hk; [|done]. simpl.
  pose proof (ww_set _ Hwf k i Hk) as Hi.
  destruct (poll_execute_refines will_wake CAPACITY op (state_of x i) Hi)
    as (r' & ev' & s' & -> & Hwf' & Hev & Habs). intros [= <- <- <-].
  assert (k < length (sets x))%nat as Hlt by (apply lookup_lt_is_Some; eauto).
  exists i, (inner s'). split; [done|]. simpl. rewrite list_lookup_insert_eq by done.
  split; [done|]. split; [by destruct s'|]. split; [|split; [|done]].
  - split; simpl.
    + intros k' i'. destruct (decide (k = k')) as [<-|Hne].
      * rewrite list_lookup_insert_eq by done. intros [= <-]. by destruct s'.
      * rewrite list_lookup_insert_ne by done. intros Hk'.
        apply (poll_wf_counter (state_of x i')); [by apply (ww_set _ Hwf k')|].
        split; [apply (pev_counter _ _ Hev)|apply (pwf_counter _ _ Hwf')].
    + assert (forall k' i', k' <> k -> sets x !! k' = Some i' -> registry_id i' <> 0 ->
        registry_id i' <> registry_id (inner s')) as Hdist.
      { intros k' i' Hne Hk' Hnz Heq. destruct (pev_id _ _ Hev) as [Hid|[_ Hid]]; simpl in Hid.
        - apply Hne. apply (ww_ids _ Hwf k' k i' i); [done|done|done|congruence].
        - pose proof (pwf_id _ _ (ww_set _ Hwf k' i' Hk')) as Hlow. simpl in Hlow. lia. }
      intros k1 k2 i1 i2. destruct (decide (k = k1)) as [<-|H1], (decide (k = k2)) as [<-|H2];
        rewrite ?list_lookup_insert_eq, ?list_lookup_insert_ne by done; [done|..].
      * intros [= <-] Hk2 Hnz Heq. exfalso. apply (Hdist k2 i2); [done|done|congruence|done].
      * intros Hk1 [= <-] Hnz Heq. exfalso. by apply (Hdist k1 i1).
      * intros Hk1 Hk2 Hnz Heq. by apply (ww_ids _ Hwf k1 k2 i1 i2).
  - intros k' Hne. by rewrite list_lookup_insert_ne.
Qed.

Lemma world_new_wf n : Z.of_nat CAPACITY <= usize_MAX -> world_wf (world_new n).
Proof.
  intros Hcap.
  assert (forall k i, sets (world_new n) !! k = Some i -> i = inner_new CAPACITY) as Hnew
    by (intros k i Hi; by apply lookup_replicate in Hi as [-> _]).
  assert (forall k e, entries (inner_new CAPACITY) !! k = Some e -> e = slot_new (W := W)) as Hslot
    by (intros k e He; by apply lookup_replicate in He as [-> _]).
  split; [|by intros k1 k2 i1 i2 ->%Hnew].
  intros k i ->%Hnew. split.
  - apply length_replicate.
  - done.
  - simpl. lia.
  - change (0 = count (fun e => vacant (slot_waker e) = false) (replicate CAPACITY (slot_new (W := W)))).
    rewrite count_all_false; [done|]. by intros x [-> _]%elem_of_replicate.
  - simpl. unfold usize_MAX, u64_MAX. lia.
  - simpl. lia.
  - by intros _ k' e ->%Hslot.
  - intros k' e ->%Hslot. simpl. unfold usize_MAX, u64_MAX. lia.
  - done.
Qed.

Lemma history_wf x h x' : world_wf x -> history x h x' -> world_wf x'.
Proof.
  intros Hwf Hh. induction Hh as [|x k op r ev x1 h x2 Hs _ IH]; [done|].
  apply IH. by destruct (world_step_spec _ _ _ _ _ _ Hwf Hs) as (? & ? & _ & _ & _ & ? & _).
Qed.

Lemma reachable_wf x : Z.of_nat CAPACITY <= usize_MAX -> reachable_world x -> world_wf x.
Proof. intros Hcap (n & h & Hh). eapply history_wf; [|exact Hh]. by apply world_new_wf. Qed.


(** A live registration ends in exactly one way. After one operation
    anywhere, it is still live with its waker, or the operation replaced its
    waker, or it was its own cancellation (which returns [true] and drops the
    waker), or a wake or close of its set, which calls the waker. *)
Theorem live_registration_ends_once x k t w j op r ev x' :
  Z.of_nat CAPACITY <= usize_MAX -> reachable_world x -> world_live x k !! t = Some w ->
  world_step j op x = Some (r, ev, x') ->
  world_live x' k !! t = Some w \/
  (j = k /\ exists w', op = PUpdate t w' /\ world_live x' k !! t = Some w' /\ ev = [EvDrop w]) \/
  (j = k /\ world_live x' k !! t = None /\
   ((op = PCancel t /\ r = RCancel true /\ ev = [EvDrop w]) \/
    ((op = PWake \/ op = PClose) /\ EvWake w ∈ ev))).
Proof.
  intros Hcap Hreach Hl Hs. pose proof (reachable_wf x Hcap Hreach) as Hwf.
  destruct (world_step_spec _ _ _ _ _ _ Hwf Hs) as (i & i' & Hj & Hj' & _ & _ & Hoth & Habs).
  destruct (decide (k = j)) as [->|Hne]; [|left; unfold world_live; by rewrite Hoth].
  unfold world_live in *. rewrite Hj in Hl. rewrite Hj'. simpl in *.
  assert (EvWake w ∈ EvWake <$> (map_to_list (live i)).*2) as Hwake.
  { apply list_elem_of_fmap. exists w. split; [done|]. apply list_elem_of_fmap. exists (t, w).
    split; [done|]. by apply elem_of_map_to_list. }
  destruct op as [w'|w'|t' w'|t'| |], r as [r|r|r|b|n]; simpl in Habs; try done.
  - destruct Habs as (_ & _ & _ & Ha). left.
    destruct r as [t0|[[] w0]]; simpl in Ha; destruct_and!; simplify_eq;
      try congruence.
    match goal with Hm : live i' = _ |- _ => rewrite Hm end. by rewrite lookup_insert_ne by congruence.
  - destruct Habs as (_ & _ & Ha). left.
    destruct r as [t0|[]]; simpl in Ha; destruct_and!; simplify_eq;
      try congruence.
    match goal with Hm : live i' = _ |- _ => rewrite Hm end. by rewrite lookup_insert_ne by congruence.
  - destruct Habs as (_ & Ha). destruct (closed i); [destruct Ha as (_ & -> & _); by left|].
    destruct (decide (t' = t)) as [->|Ht].
    + rewrite Hl in Ha. destruct Ha as [_ Ha].
      destruct (will_wake w w'); destruct Ha as [-> ->]; [by left|]. right. left.
      split; [done|]. exists w'. by rewrite lookup_insert_eq.
    + left. destruct (live i !! t') as [w0|]; [|by destruct Ha as (_ & -> & _)].
      destruct Ha as [_ Ha]. destruct (will_wake w0 w'); destruct Ha as [-> _]; [done|].
      by rewrite lookup_insert_ne.
  - destruct Habs as (_ & -> & -> & ->). destruct (decide (t' = t)) as [->|Ht].
    + right. right. rewrite Hl, lookup_delete_eq. simpl. split; [done|]. split; [done|]. by left.
    + left. by rewrite lookup_delete_ne.
  - destruct Habs as (_ & _ & -> & Hev). right. right. rewrite lookup_empty. split; [done|].
    split; [done|]. right. split; [by left|]. by rewrite Hev.
  - destruct Habs as (_ & -> & Hc). right. right. rewrite lookup_empty. split; [done|].
    split; [done|]. right. split; [by right|].
    destruct (closed i) eqn:Hcl; [|by destruct Hc as [_ ->]].
    pose proof (closed_live_empty CAPACITY (state_of x i) (ww_set _ Hwf j i Hj) Hcl) as Hempty.
    simpl in Hempty. by rewrite Hempty, lookup_empty in Hl.
Qed.

(** [t] names set [k] and a generation its slot has already used. *)
Definition token_issued (x : PollWorld) (k : nat) (t : RegistrationToken) : Prop :=
  exists i e, sets x !! k = Some i /\ token_registry t = registry_id i /\ registry_id i <> 0 /\
    entries i !! token_slot t = Some e /\ token_generation t <= slot_generation e.

Lemma dead_token_step x k t j op r ev x' :
  world_wf x -> token_issued x k t -> world_live x k !! t = None ->
  world_step j op x = Some (r, ev, x') ->
  token_issued x' k t /\ world_live x' k !! t = None.
Proof.
  intros Hwf (i & e & Hk & Hr & Hnz & He & Hg) Hl Hs.
  destruct (world_step_spec _ _ _ _ _ _ Hwf Hs) as (i0 & i' & Hj & Hj' & Hev & _ & Hoth & _).
  destruct (decide (k = j)) as [->|Hne].
  - rewrite Hk in Hj. injection Hj as <-. destruct (pev_slot _ _ Hev _ _ He) as (e' & He' & Hse).
    assert (registry_id i' = registry_id i) as Hid.
    { destruct (pev_id _ _ Hev) as [|[Hz _]]; [done|]. simpl in Hz. congruence. }
    simpl in He'. split.
    + exists i', e'. split; [done|]. split; [congruence|]. split; [congruence|]. split; [done|].
      destruct Hse as [|[? _]]; lia.
    + unfold world_live in *. rewrite Hj'. rewrite Hk in Hl. simpl in *.
      apply live_lookup_None. intros w Hr' Hx. rewrite He' in Hx. injection Hx as ->.
      destruct Hse as [Hlt|[Heq Hn]]; simpl in *; [lia|].
      destruct (slot_waker e) as [w0|] eqn:Hw0; [|by specialize (Hn eq_refl)].
      assert (live i !! t = Some w0) as Hl0; [|congruence].
      apply live_lookup. split; [done|]. rewrite He. destruct e; simpl in *. by subst.
  - unfold world_live, token_issued. rewrite Hoth by done. split; [|done]. by exists i, e.
Qed.

(** A token that no longer names a live registration never will again,
    whatever happens in any set: its cancellation returns [false] and its update
    is refused. *)
Theorem dead_token_stays_dead x k t h x' :
  Z.of_nat CAPACITY <= usize_MAX -> reachable_world x ->
  token_issued x k t -> world_live x k !! t = None -> history x h x' ->
  world_live x' k !! t = None /\
  (forall r ev x'', world_step k (PCancel t) x' = Some (r, ev, x'') -> r = RCancel false /\ ev = []) /\
  (forall w r ev x'', world_step k (PUpdate t w) x' = Some (r, ev, x'') ->
     (r = RUpdate (Err InvalidToken) \/ r = RUpdate (Err UpdateClosed)) /\ ev = [EvDrop w]).
Proof.
  intros Hcap Hreach Hiss Hl Hh. pose proof (reachable_wf x Hcap Hreach) as Hwf.
  assert (world_wf x' /\ token_issued x' k t /\ world_live x' k !! t = None) as (Hwf' & _ & Hl').
  { clear Hreach. induction Hh as [|x j op r ev x1 h x2 Hs _ IH]; [done|].
    destruct (dead_token_step x k t j op r ev x1 Hwf Hiss Hl Hs) as [Hiss1 Hl1].
    destruct (world_step_spec _ _ _ _ _ _ Hwf Hs) as (_ & _ & _ & _ & _ & Hwf1 & _). by apply IH. }
  split; [done|]. split.
  - intros r ev x'' Hs.
    destruct (world_step_spec _ _ _ _ _ _ Hwf' Hs) as (i & i' & Hk & _ & _ & _ & _ & Habs).
    unfold world_live in Hl'. rewrite Hk in Hl'. simpl in *. destruct r; try done.
    rewrite Hl' in Habs. destruct Habs as (_ & -> & _ & ->). done.
  - intros w r ev x'' Hs.
    destruct (world_step_spec _ _ _ _ _ _ Hwf' Hs) as (i & i' & Hk & _ & _ & _ & _ & Habs).
    unfold world_live in Hl'. rewrite Hk in Hl'. simpl in *. destruct r as [| |r| |]; try done.
    rewrite Hl' in Habs. destruct Habs as (_ & Hc). destruct (closed i); destruct Hc as (-> & _ & ->); auto.
Qed.

(** A token is bound to its set: a token live in one set is foreign to
    every other, which refuses it and is left unchanged. *)
Theorem foreign_token_is_refused x k j t w r ev x' :
  Z.of_nat CAPACITY <= usize_MAX -> reachable_world x -> j <> k ->
  world_live x k !! t = Some w -> world_step j (PCancel t) x = Some (r, ev, x') ->
  r = RCancel false /\ ev = [] /\ forall k', world_live x' k' = world_live x k'.
Proof.
  intros Hcap Hreach Hne Hl Hs. pose proof (reachable_wf x Hcap Hreach) as Hwf.
  destruct (world_step_spec _ _ _ _ _ _ Hwf Hs) as (i & i' & Hj & Hj' & _ & _ & Hoth & Habs).
  unfold world_live in Hl. destruct (sets x !! k) as [ik|] eqn:Hk; [|done]. simpl in Hl.
  assert (live i !! t = None) as Hnone.
  { destruct (live i !! t) as [w'|] eqn:Hl'; [|done]. exfalso. apply Hne.
    apply live_lookup in Hl as [Hr He]. apply live_lookup in Hl' as [Hr' He'].
    apply (ww_ids _ Hwf j k i ik); [done|done| |congruence].
    intros Hz. pose proof (pwf_unnamed _ _ (ww_set _ Hwf j i Hj) Hz _ _ He'). done. }
  destruct r; simpl in Habs; try done. rewrite Hnone in Habs. destruct Habs as (_ & -> & Hlive & ->).
  split; [done|]. split; [done|]. intros k'. unfold world_live.
  destruct (decide (k' = j)) as [->|Hk']; [|by rewrite Hoth].
  rewrite Hj, Hj'. simpl. rewrite Hlive. by apply delete_id.
Qed.

(** ** Ownership of wakers *)

(** Wakers an operation hands to the registry. *)
Definition wakers_in (op : poll_op) : list W :=
  match op with PArm w | PRegister w | PUpdate _ w => [w] | _ => [] end.

(** Wakers that leave: called, destroyed, or returned to the caller. *)
Definition event_waker (ev : event) : W := match ev with EvWake w | EvDrop w => w end.
Definition wakers_out (r : poll_response) (ev : list event) : list W :=
  (match r with RArm (Err (_, w)) => [w] | _ => [] end) ++ (event_waker <$> ev).

Definition world_owned (x : PollWorld) : list W := concat (owned_wakers <$> sets x).

Lemma abstract_step_owned op (m m' : gmap RegistrationToken W) c c' r ev :
  abstract_step will_wake CAPACITY op m c r ev m' c' ->
  (op = PClose -> c = true -> m = ∅) ->
  (map_to_list m).*2 ++ wakers_in op ≡ₚ (map_to_list m').*2 ++ wakers_out r ev.
Proof.
  intros Habs Hclosed.
  assert (forall (m : gmap RegistrationToken W) t w, m !! t = None ->
    (map_to_list m).*2 ++ [w] ≡ₚ (map_to_list (<[t := w]> m)).*2) as Hins.
  { intros m0 t w Hn. rewrite map_to_list_insert by done. simpl. by rewrite Permutation_app_comm. }
  assert (forall (m : gmap RegistrationToken W) t w, m !! t = Some w ->
    (map_to_list m).*2 ≡ₚ (map_to_list (delete t m)).*2 ++ [w]) as Hdel.
  { intros m0 t w Hs. rewrite <- (map_to_list_delete m0 t w Hs). simpl. by rewrite Permutation_app_comm. }
  assert (forall ws : list W, event_waker <$> (EvWake <$> ws) = ws) as Hev.
  { intros ws. rewrite <- list_fmap_compose. apply list_fmap_id. }
  destruct op as [w|w|t w|t| |], r as [r|r|r|b|n]; simpl in Habs; try done; unfold wakers_out; simpl.
  - destruct Habs as (-> & Hw & _ & Ha).
    destruct r as [t|[k w']]; simpl in *; [destruct Ha as (_ & _ & Hn & ->); by rewrite app_nil_r, Hins|].
    rewrite (Hw k w' eq_refl). destruct k; destruct_and!; simplify_eq; done.
  - destruct Habs as (-> & _ & Ha).
    destruct r as [t|k]; simpl in *; [destruct Ha as (_ & _ & Hn & ->); by rewrite app_nil_r, Hins|].
    destruct k; destruct_and!; simplify_eq; done.
  - destruct Habs as (_ & Ha). destruct c; [by destruct Ha as (_ & -> & ->)|].
    destruct (m !! t) as [w0|] eqn:Ht; [|by destruct Ha as (_ & -> & ->)].
    destruct Ha as [_ Ha]. destruct (will_wake w0 w); destruct Ha as [-> ->]; [done|]. simpl.
    rewrite (Hdel m t w0 Ht), <- insert_delete_eq, <- Hins by apply lookup_delete_eq.
    rewrite <- !app_assoc. simpl. by rewrite (Permutation_app_comm [w0] [w]).
  - destruct Habs as (_ & _ & -> & ->). rewrite app_nil_r. destruct (m !! t) as [w|] eqn:Ht; simpl.
    + by apply Hdel.
    + by rewrite delete_id, app_nil_r.
  - destruct Habs as (_ & _ & -> & ->). rewrite map_to_list_empty, Hev, app_nil_r. done.
  - destruct Habs as (_ & -> & Hc). rewrite map_to_list_empty, app_nil_r. simpl. destruct c.
    + destruct Hc as [_ ->]. by rewrite (Hclosed eq_refl eq_refl), map_to_list_empty.
    + destruct Hc as [_ ->]. by rewrite Hev.
Qed.

Lemma concat_insert (ls : list (list W)) k l l' a b :
  ls !! k = Some l -> l ++ a ≡ₚ l' ++ b -> concat ls ++ a ≡ₚ concat (<[k := l']> ls) ++ b.
Proof.
  revert k. induction ls as [|x ls IH]; intros [|k] Hk Hp; simplify_eq/=.
  - rewrite <- !app_assoc, !(Permutation_app_comm (concat ls)), !app_assoc. by rewrite Hp.
  - rewrite <- !app_assoc. by rewrite (IH k Hk Hp).
Qed.

Lemma world_step_owned x k op r ev x' :
  world_wf x -> world_step k op x = Some (r, ev, x') ->
  world_owned x ++ wakers_in op ≡ₚ world_owned x' ++ wakers_out r ev.
Proof.
  intros Hwf Hs. destruct (world_step_spec _ _ _ _ _ _ Hwf Hs) as (i & i' & Hk & Hk' & _ & _ & Hoth & Habs).
  assert (sets x' = <[k := i']> (sets x)) as Hsets.
  { apply list_eq. intros j. destruct (decide (j = k)) as [->|Hne].
    - rewrite list_lookup_insert_eq by (apply lookup_lt_is_Some; eauto). done.
    - rewrite list_lookup_insert_ne by done. by apply Hoth. }
  unfold world_owned. rewrite Hsets, list_fmap_insert. eapply concat_insert.
  - rewrite list_lookup_fmap, Hk. done.
  - rewrite !owned_wakers_live. eapply abstract_step_owned; [exact Habs|]. intros _ Hc.
    by apply (closed_live_empty CAPACITY (state_of x i) (ww_set _ Hwf k i Hk)).
Qed.

(** C35: wakers are conserved: over any history, the wakers handed to the
    registries are exactly those still registered plus those called, destroyed
    or returned; none is lost, duplicated or called twice. *)
Theorem wakers_are_conserved x h x' :
  Z.of_nat CAPACITY <= usize_MAX -> reachable_world x -> history x h x' ->
  world_owned x ++ concat ((fun e => wakers_in (operation e)) <$> h) ≡ₚ
  world_owned x' ++ concat ((fun e => wakers_out (response e) (callbacks e)) <$> h).
Proof.
  intros Hcap Hreach Hh. pose proof (reachable_wf x Hcap Hreach) as Hwf. clear Hreach.
  induction Hh as [|x k op r ev x1 h x2 Hs _ IH]; [done|]. simpl.
  destruct (world_step_spec _ _ _ _ _ _ Hwf Hs) as (_ & _ & _ & _ & _ & Hwf1 & _).
  rewrite app_assoc, (world_step_owned _ _ _ _ _ _ Hwf Hs).
  rewrite <- app_assoc, (Permutation_app_comm (wakers_out r ev)), app_assoc, (IH Hwf1).
  rewrite <- app_assoc. by rewrite (Permutation_app_comm (concat _) (wakers_out r ev)).
Qed.

(** Closing is final: after a close, whatever happens, the set stays closed
    and empty, and every later registration hands its waker back. *)
Theorem close_is_final x k r ev x1 h x2 w r' ev' x3 :
  Z.of_nat CAPACITY <= usize_MAX -> reachable_world x ->
  world_step k PClose x = Some (r, ev, x1) -> history x1 h x2 ->
  world_closed x2 k = true /\ world_live x2 k = ∅ /\
  (world_step k (PArm w) x2 = Some (r', ev', x3) -> r' = RArm (Err (RegisterClosed, w))).
Proof.
  intros Hcap Hreach Hs Hh. pose proof (reachable_wf x Hcap Hreach) as Hwf.
  destruct (world_step_spec _ _ _ _ _ _ Hwf Hs) as (i & i1 & Hk & Hk1 & _ & Hwf1 & _ & Habs).
  assert (closed i1 = true) as Hc1 by (destruct r; simpl in Habs; try done; by destruct Habs).
  assert (world_wf x2 /\ exists i2, sets x2 !! k = Some i2 /\ closed i2 = true) as (Hwf2 & i2 & Hk2 & Hc2).
  { clear Hs Hreach Habs Hwf Hk. revert i1 Hk1 Hc1.
    induction Hh as [|x1 j op r0 ev0 x1' h x2 Hs _ IH]; intros i1 Hk1 Hc1; [eauto|].
    destruct (world_step_spec _ _ _ _ _ _ Hwf1 Hs) as (i0 & i' & Hj & Hj' & Hev & Hwf1' & Hoth & _).
    destruct (decide (k = j)) as [->|Hne].
    - rewrite Hk1 in Hj. injection Hj as <-. apply (IH Hwf1' i' Hj'). by apply (pev_closed _ _ Hev).
    - apply (IH Hwf1' i1); [by rewrite Hoth|done]. }
  unfold world_closed, world_live. rewrite Hk2. simpl. split; [done|].
  split; [by apply (closed_live_empty CAPACITY (state_of x2 i2) (ww_set _ Hwf2 k i2 Hk2))|].
  intros Ha. destruct (world_step_spec _ _ _ _ _ _ Hwf2 Ha) as (i3 & i4 & Hk3 & _ & _ & _ & _ & Habs').
  rewrite Hk2 in Hk3. injection Hk3 as <-. destruct r' as [r'| | | |]; simpl in Habs'; try done.
  destruct Habs' as (_ & Hw & _ & Habs'). rewrite Hc2 in Habs'.
  destruct r' as [t|[kd w']]; simpl in Habs'; [naive_solver|]. rewrite (Hw kd w' eq_refl).
  destruct kd; naive_solver.
Qed.

End World.

(** ** Witnesses: two sets of two slots; wakers are numbers, and two wakers are
    equivalent when they are equal. *)

Fixpoint play (ops : list (nat * poll_op nat)) (x : PollWorld (W := nat))
    : option (list (entry (W := nat)) * PollWorld (W := nat)) :=
  match ops with
  | [] => Some ([], x)
  | (k, op) :: ops =>
      '(r, ev, x1) ← world_step Nat.eqb 2 k op x;
      '(h, x2) ← play ops x1; Some (mkEntry k op r ev :: h, x2)
  end.

Lemma play_history ops x h x' : play ops x = Some (h, x') -> history Nat.eqb 2 x h x'.
Proof.
  revert x h. induction ops as [|[k op] ops IH]; intros x h; simpl; [intros [= <- <-]; constructor|].
  destruct (world_step Nat.eqb 2 k op x) as [[[r ev] x1]|] eqn:Hs; [|done]. simpl.
  destruct (play ops x1) as [[h1 x2]|] eqn:Hp; [|done]. intros [= <- <-].
  econstructor; [exact Hs|]. by apply IH.
Qed.

Definition poll_demo_ops : list (nat * poll_op nat) :=
  [(0%nat, PArm 10%nat); (1%nat, PRegister 20%nat); (0%nat, PArm 11%nat)].

Definition play_after (ops : list (nat * poll_op nat)) : PollWorld (W := nat) :=
  from_option snd (world_new 2 2) (play ops (world_new 2 2)).
Definition play_trace (ops : list (nat * poll_op nat)) (x : PollWorld (W := nat)) : list (entry (W := nat)) :=
  from_option fst [] (play ops x).

Definition poll_demo : PollWorld (W := nat) := play_after poll_demo_ops.
Definition first_token : RegistrationToken := mkToken 1 0 1.

Lemma poll_demo_reachable : reachable_world Nat.eqb 2 poll_demo.
Proof.
  exists 2%nat, (play_trace poll_demo_ops (world_new 2 2)).
  apply (play_history poll_demo_ops). vm_compute. reflexivity.
Qed.

Lemma demo_capacity : Z.of_nat 2 <= usize_MAX.
Proof. vm_compute. discriminate. Qed.


Lemma live_registration_ends_once_witness :
  let x' := play_after (poll_demo_ops ++ [(0%nat, PWake)]) in
  world_live x' 0 !! first_token = Some 10%nat \/
  (0%nat = 0%nat /\ exists w', PWake (W := nat) = PUpdate first_token w' /\
     world_live x' 0 !! first_token = Some w' /\ [EvWake 10%nat; EvWake 11%nat] = [EvDrop 10%nat]) \/
  (0%nat = 0%nat /\ world_live x' 0 !! first_token = None /\
   ((PWake (W := nat) = PCancel first_token /\ RCount 2 = RCancel (W := nat) true /\
     [EvWake 10%nat; EvWake 11%nat] = [EvDrop 10%nat]) \/
    ((PWake (W := nat) = PWake \/ PWake (W := nat) = PClose) /\
     EvWake 10%nat ∈ [EvWake 10%nat; EvWake 11%nat]))).
Proof.
  apply (live_registration_ends_once Nat.eqb 2 poll_demo 0%nat first_token 10%nat 0%nat PWake (RCount 2)
    [EvWake 10%nat; EvWake 11%nat]).
  - exact demo_capacity.
  - exact poll_demo_reachable.
  - vm_compute. reflexivity.
  - vm_compute. reflexivity.
Defined.

(** The first registration is cancelled and its slot is reused. *)
Definition poll_cancelled : PollWorld (W := nat) := play_after (poll_demo_ops ++ [(0%nat, PCancel first_token)]).

Lemma poll_cancelled_reachable : reachable_world Nat.eqb 2 poll_cancelled.
Proof.
  exists 2%nat, (play_trace (poll_demo_ops ++ [(0%nat, PCancel first_token)]) (world_new 2 2)).
  apply (play_history (poll_demo_ops ++ [(0%nat, PCancel first_token)])). vm_compute. reflexivity.
Qed.

Lemma dead_token_stays_dead_witness :
  exists h x', history Nat.eqb 2 poll_cancelled h x' /\ world_live x' 0 !! first_token = None.
Proof.
  exists (play_trace [(0%nat, PArm 12%nat)] poll_cancelled),
    (from_option snd poll_cancelled (play [(0%nat, PArm 12%nat)] poll_cancelled)).
  assert (history Nat.eqb 2 poll_cancelled (play_trace [(0%nat, PArm 12%nat)] poll_cancelled)
    (from_option snd poll_cancelled (play [(0%nat, PArm 12%nat)] poll_cancelled))) as Hh
    by (apply (play_history [(0%nat, PArm 12%nat)]); vm_compute; reflexivity).
  split; [exact Hh|].
  refine (proj1 (dead_token_stays_dead Nat.eqb 2 poll_cancelled 0%nat first_token _ _
    demo_capacity poll_cancelled_reachable _ _ Hh)).
  - eexists _, _. split; [vm_compute; reflexivity|]. split; [reflexivity|]. split; [discriminate|].
    split; [vm_compute; reflexivity|]. vm_compute. discriminate.
  - vm_compute. reflexivity.
Defined.

Lemma foreign_token_is_refused_witness :
  exists x', world_step Nat.eqb 2 1 (PCancel first_token) poll_demo = Some (RCancel false, [], x') /\
    forall k', world_live x' k' = world_live poll_demo k'.
Proof.
  eexists. split; [vm_compute; reflexivity|].
  refine (proj2 (proj2 (foreign_token_is_refused Nat.eqb 2 poll_demo 0%nat 1%nat first_token 10%nat
    (RCancel false) [] _ demo_capacity poll_demo_reachable _ _ _))).
  - discriminate.
  - vm_compute. reflexivity.
  - vm_compute. reflexivity.
Defined.

Lemma wakers_are_conserved_witness :
  exists h x', history Nat.eqb 2 poll_demo h x' /\
    world_owned poll_demo ++ concat ((fun e => wakers_in (operation e)) <$> h) ≡ₚ
    world_owned x' ++ concat ((fun e => wakers_out (response e) (callbacks e)) <$> h).
Proof.
  set (ops := [(0%nat, PUpdate first_token 12%nat); (0%nat, PArm 13%nat); (0%nat, PClose)]).
  exists (play_trace ops poll_demo), (from_option snd poll_demo (play ops poll_demo)).
  assert (history Nat.eqb 2 poll_demo (play_trace ops poll_demo)
    (from_option snd poll_demo (play ops poll_demo))) as Hh
    by (apply (play_history ops); vm_compute; reflexivity).
  split; [exact Hh|].
  exact (wakers_are_conserved Nat.eqb 2 poll_demo _ _ demo_capacity poll_demo_reachable Hh).
Defined.

Lemma close_is_final_witness :
  exists x1 x2, world_step Nat.eqb 2 0 PClose poll_demo =
      Some (RCount 2, [EvWake 10%nat; EvWake 11%nat], x1) /\
    world_step Nat.eqb 2 0 PWake x1 = Some (RCount 0, [], x2) /\ world_closed x2 0 = true.
Proof.
  eexists _, _. split; [vm_compute; reflexivity|]. split; [vm_compute; reflexivity|].
  refine (proj1 (close_is_final Nat.eqb 2 poll_demo 0%nat (RCount 2) [EvWake 10%nat; EvWake 11%nat] _
    [mkEntry 0%nat PWake (RCount 0) []] _ 14%nat (RArm (Err (RegisterClosed, 14%nat))) [] poll_demo
    demo_capacity poll_demo_reachable _ _)).
  - vm_compute. reflexivity.
  - econstructor; [vm_compute; reflexivity|]. constructor.
Defined.
