(* ===== verification/Sched.v ===== *)
(** The intrusive list the schedulers link their tasks into.

    [linked_list_r4l] is a third-party crate, so its operations are an
    interface: [LinkedLists] has the operations the schedulers call and
    [LinkedListLaws] what its documentation promises about them. A task has one
    pair of links, so insertion is specified for a task that is in no list.
    [plain_lists] is an instance on ordinary lists.

    Schedulers, part 1: [crates/thekernel-axsched/src/lib.rs], [fifo.rs] and
    [round_robin.rs].

    Tasks are shared objects ([Arc]): a store of task records named by index,
    whose [queue_owner] and [time_slice] words every scheduler can reach. A
    scheduler is its identity and a run queue of the intrusive lists of
    [LinkedLists]. The trait is a record of operations; its default methods
    are functions of the others. Payloads of tasks are not read by schedulers
    and are left out. *)

From S2P Require Import Prelude Effects Atomics.
Local Open Scope Z_scope.

(** [L] is the state of all lists; lists and tasks are named by numbers.
    [no_tasks] is the state in which every list is [List::new()]. *)
Class LinkedLists (L : Type) : Type := {
  cursor : Type;
  no_tasks : L;
  push_back : nat -> nat -> L -> L;
  push_front : nat -> nat -> L -> L;
  pop_front : nat -> L -> option nat * L;
  cursor_front_mut : nat -> L -> cursor;
  current : cursor -> L -> option nat;
  move_next : cursor -> L -> cursor;
  remove_current : cursor -> L -> option nat * L }.

(** Replaces the contents of one list. *)
Definition on_list (q : nat) (l : list nat) (c : nat -> list nat) : nat -> list nat :=
  fun j => if decide (j = q) then l else c j.

Class LinkedListLaws (L : Type) `{!LinkedLists L} : Type := {
  contents : L -> nat -> list nat;
  cursor_at : cursor -> L -> nat -> nat -> Prop;
  no_tasks_contents j : contents no_tasks j = [];
  push_back_contents q x l j :
    (forall j, x ∉ contents l j) ->
    contents (push_back q x l) j = on_list q (contents l q ++ [x]) (contents l) j;
  push_front_contents q x l j :
    (forall j, x ∉ contents l j) ->
    contents (push_front q x l) j = on_list q (x :: contents l q) (contents l) j;
  pop_front_result q l : (pop_front q l).1 = head (contents l q);
  pop_front_contents q l j :
    contents (pop_front q l).2 j = on_list q (tail (contents l q)) (contents l) j;
  cursor_front_at q l : cursor_at (cursor_front_mut q l) l q 0;
  current_at c l q n : cursor_at c l q n -> current c l = contents l q !! n;
  move_next_at c l q n :
    cursor_at c l q n -> (n < length (contents l q))%nat -> cursor_at (move_next c l) l q (S n);
  remove_current_result c l q n :
    cursor_at c l q n -> (remove_current c l).1 = contents l q !! n;
  remove_current_contents c l q n j :
    cursor_at c l q n -> (n < length (contents l q))%nat ->
    contents (remove_current c l).2 j =
      on_list q (take n (contents l q) ++ drop (S n) (contents l q)) (contents l) j }.

(** ** Ordinary lists *)

#[export] Instance plain_lists : LinkedLists (nat -> list nat) := {
  cursor := nat * nat;
  no_tasks := fun _ => [];
  push_back q x c := on_list q (c q ++ [x]) c;
  push_front q x c := on_list q (x :: c q) c;
  pop_front q c := (head (c q), on_list q (tail (c q)) c);
  cursor_front_mut q _ := (q, 0%nat);
  current p c := c p.1 !! p.2;
  move_next p _ := (p.1, S p.2);
  remove_current p c := (c p.1 !! p.2, on_list p.1 (take p.2 (c p.1) ++ drop (S p.2) (c p.1)) c) }.

#[export] Instance plain_lists_laws : LinkedListLaws (nat -> list nat).
Proof.
  refine {| contents := fun c => c; cursor_at := fun p (_ : nat -> list nat) q n => p = (q, n) |};
    intros; subst; done.
Defined.

Lemma on_list_eq q l c : on_list q l c q = l.
Proof. unfold on_list. by rewrite decide_True. Qed.
Lemma on_list_ne q l c j : j <> q -> on_list q l c j = c j.
Proof. intros. unfold on_list. by rewrite decide_False. Qed.

(** ** Runtime samples *)

Record RuntimeDelta : Type := mkDelta { elapsed_ns : Z; period_ns : Z }.

Module RuntimeDelta.
Definition new (elapsed_ns period_ns : Z) : RuntimeDelta :=
  if period_ns =? 0 then mkDelta 0 1 else mkDelta elapsed_ns period_ns.
Definition whole_periods (d : RuntimeDelta) : Z := elapsed_ns d / period_ns d.
Definition is_zero (d : RuntimeDelta) : bool := elapsed_ns d =? 0.
End RuntimeDelta.

Definition UNOWNED : Z := 0.
Definition CONFIGURING : Z := usize_MAX.

Inductive SchedulerError : Type :=
| UnsupportedOperation | AlreadyQueued | ForeignQueue | IdentifierExhausted | SequenceExhausted
| ArithmeticExhausted | TaskBusy | InvalidParameters | IncompatibleClass | InvalidTimeSlice
| InconsistentState.

Inductive EnqueueReason : Type := New | Wakeup | Yield | Preempt | Migrate.
Inductive DeactivateReason : Type := Sleep | Exit | MigrateAway.

(** ** State *)

Record Task : Type := mkTask { queue_owner : Z; time_slice : Z }.

Section State.
Context {L : Type} `{LinkedLists L}.

(** [sched_ids]: the identity of each scheduler, [UNOWNED] until its first use. *)
Record Sched : Type := mkSched {
  lists : L; tasks : list Task; sched_ids : list Z; next_scheduler_id : Z }.

Definition set_lists (l : L) (s : Sched) : Sched :=
  mkSched l (tasks s) (sched_ids s) (next_scheduler_id s).
Definition set_task (x : nat) (t : Task) (s : Sched) : Sched :=
  mkSched (lists s) (<[x := t]> (tasks s)) (sched_ids s) (next_scheduler_id s).
Definition set_id (q : nat) (i : Z) (s : Sched) : Sched :=
  mkSched (lists s) (tasks s) (<[q := i]> (sched_ids s)) (next_scheduler_id s).
Definition set_next_id (n : Z) (s : Sched) : Sched :=
  mkSched (lists s) (tasks s) (sched_ids s) n.

Local Abbreviation Op A := (M Sched SchedulerError A).

(** [NEXT_SCHEDULER_ID] starts at one; there are no tasks and no schedulers. *)
Definition sched_boot : Sched := mkSched no_tasks [] [] 1.

(** [FifoTask::new] and [RRTask::new]: an unqueued task, a new entry of the store. *)
Definition FifoTask_new (s : Sched) : Sched :=
  mkSched (lists s) (tasks s ++ [mkTask UNOWNED 0]) (sched_ids s) (next_scheduler_id s).
Definition RRTask_new (max_time_slice : Z) (s : Sched) : Sched :=
  mkSched (lists s) (tasks s ++ [mkTask UNOWNED max_time_slice]) (sched_ids s) (next_scheduler_id s).

(** [FifoScheduler::new] and [RRScheduler::new]: the empty list of that index. *)
Definition scheduler_new (s : Sched) : Sched :=
  mkSched (lists s) (tasks s) (sched_ids s ++ [UNOWNED]) (next_scheduler_id s).

(** References are always valid: a missing task or scheduler would panic. *)
Definition task_at (x : nat) : Op Task := s ← gets (fun s => s); expect (tasks s !! x).
Definition id_of (q : nat) : Op Z := s ← gets (fun s => s); expect (sched_ids s !! q).

(** [allocate_scheduler_id] *)
Definition allocate_scheduler_id : Op Z :=
  n ← gets next_scheduler_id;
  let '(r, n') := try_update (fun current => checked_add_usize current 1) n in
  modify (set_next_id n') ;;
  lift (map_err (fun _ => IdentifierExhausted) r).

(** [ensure_id] *)
Definition ensure_id (q : nat) : Op Z :=
  i ← id_of q;
  (if i =? UNOWNED then
     fresh ← allocate_scheduler_id; modify (set_id q fresh)
   else mret tt) ;;
  id_of q.

(** ** Task wrappers *)

(** [FifoTask::claim]: a strong compare-exchange from [UNOWNED]. *)
Definition task_claim (x : nat) (scheduler_id : Z) : Op () :=
  t ← task_at x;
  if queue_owner t =? UNOWNED then modify (set_task x (mkTask scheduler_id (time_slice t)))
  else if queue_owner t =? scheduler_id then throw AlreadyQueued
  else throw ForeignQueue.

(** [FifoTask::release]: panics unless the scheduler owns the task. *)
Definition task_release (x : nat) (scheduler_id : Z) : Op () :=
  t ← task_at x;
  if queue_owner t =? scheduler_id then modify (set_task x (mkTask UNOWNED (time_slice t)))
  else panic.

Definition modify_lists (f : L -> L) : Op () := modify (fun s => set_lists (f (lists s)) s).

(** The cursor loop of [remove_task]; [fuel] bounds the visited nodes. *)
Fixpoint remove_from (fuel : nat) (q x : nat) (c : cursor) : Op (option nat) :=
  match fuel with
  | O => diverge
  | S fuel =>
      s ← gets (fun s => s);
      if bool_decide (current c (lists s) = Some x) then
        let '(removed, l) := remove_current c (lists s) in
        modify (set_lists l) ;;
        removed ← expect removed;
        i ← id_of q;
        task_release removed i ;;
        mret (Some removed)
      else
        assert_ (match current c (lists s) with Some _ => true | None => false end) ;;
        remove_from fuel q x (move_next c (lists s))
  end.

Definition remove_task (q x : nat) : Op (option nat) :=
  t ← task_at x;
  i ← id_of q;
  if queue_owner t =? UNOWNED then mret None else
  if negb (queue_owner t =? i) || (i =? UNOWNED) then throw ForeignQueue else
  s ← gets (fun s => s);
  remove_from (S (length (tasks s))) q x (cursor_front_mut q (lists s)).

Definition pick_next_task (q : nat) : Op (option nat) :=
  s ← gets (fun s => s);
  let '(popped, l) := pop_front q (lists s) in
  modify (set_lists l) ;;
  match popped with
  | None => mret None
  | Some x => i ← id_of q; task_release x i ;; mret (Some x)
  end.

(** The loop of [Drop]; [fuel] bounds the drained tasks. *)
Fixpoint drain (fuel : nat) (q : nat) : Op () :=
  match fuel with
  | O => diverge
  | S fuel =>
      popped ← pick_next_task q;
      match popped with None => mret tt | Some _ => drain fuel q end
  end.

Definition drop_scheduler (q : nat) : Op () :=
  s ← gets (fun s => s); drain (S (length (tasks s))) q.

(** ** The trait *)

Record BaseScheduler : Type := {
  base_add_task : nat -> nat -> Op ();
  base_remove_task : nat -> nat -> Op (option nat);
  base_pick_next_task : nat -> Op (option nat);
  base_put_prev_task : nat -> nat -> bool -> Op ();
  base_enqueue_task : nat -> nat -> EnqueueReason -> Op ();
  base_task_tick : nat -> Op bool;
  base_set_priority : nat -> Z -> Op () }.

(** Default methods. *)
Definition default_enqueue_task (add_task : nat -> nat -> Op ())
    (put_prev_task : nat -> nat -> bool -> Op ()) (q x : nat) (reason : EnqueueReason) : Op () :=
  match reason with
  | New | Wakeup | Migrate => add_task q x
  | Yield => put_prev_task q x false
  | Preempt => put_prev_task q x true
  end.

Definition remove_task_for_migration (b : BaseScheduler) (q x : nat) : Op (option nat) :=
  base_remove_task b q x.

Definition deactivate_task (q x : nat) (reason : DeactivateReason) : Op () := mret tt.

(** The loop of [account_runtime], one tick per whole period. *)
Fixpoint account_periods (b : BaseScheduler) (periods : nat) (x : nat) (reschedule : bool) : Op bool :=
  match periods with
  | O => mret reschedule
  | S periods =>
      r ← base_task_tick b x;
      account_periods b periods x (reschedule || r)
  end.

Definition account_runtime (b : BaseScheduler) (x : nat) (delta : RuntimeDelta) : Op bool :=
  account_periods b (Z.to_nat (RuntimeDelta.whole_periods delta)) x false.

(** ** FIFO *)

Definition fifo_add_task (q x : nat) : Op () :=
  i ← ensure_id q;
  task_claim x i ;;
  modify_lists (push_back q x).

Definition fifo_put_prev_task (q x : nat) (_preempt : bool) : Op () := fifo_add_task q x.
Definition fifo_task_tick (_ : nat) : Op bool := mret false.
Definition fifo_set_priority (_ : nat) (_ : Z) : Op () := throw UnsupportedOperation.

Definition FifoScheduler : BaseScheduler := {|
  base_add_task := fifo_add_task;
  base_remove_task := remove_task;
  base_pick_next_task := pick_next_task;
  base_put_prev_task := fifo_put_prev_task;
  base_enqueue_task := default_enqueue_task fifo_add_task fifo_put_prev_task;
  base_task_tick := fifo_task_tick;
  base_set_priority := fifo_set_priority |}.

(** ** Round robin with time slice [S] *)

Section RoundRobin.
Context (MAX_TIME_SLICE : Z).

Definition rr_reset_time_slice (x : nat) : Op () :=
  t ← task_at x; modify (set_task x (mkTask (queue_owner t) MAX_TIME_SLICE)).

(** [RRScheduler::claim] *)
Definition rr_claim (q x : nat) : Op () :=
  if MAX_TIME_SLICE =? 0 then throw InvalidTimeSlice else
  i ← ensure_id q; task_claim x i.

Definition rr_add_task (q x : nat) : Op () :=
  rr_claim q x ;; modify_lists (push_back q x).

Definition rr_put_prev_task (q x : nat) (preempt : bool) : Op () :=
  rr_claim q x ;;
  t ← task_at x;
  if (0 <? time_slice t) && preempt then modify_lists (push_front q x)
  else rr_reset_time_slice x ;; modify_lists (push_back q x).

Definition rr_enqueue_task (q x : nat) (reason : EnqueueReason) : Op () :=
  match reason with
  | New | Wakeup => rr_add_task q x
  | Yield => rr_put_prev_task q x false
  | Preempt => rr_put_prev_task q x true
  | Migrate =>
      rr_claim q x ;;
      t ← task_at x;
      (if time_slice t =? 0 then rr_reset_time_slice x else mret tt) ;;
      modify_lists (push_back q x)
  end.

Definition rr_task_tick (x : nat) : Op bool :=
  t ← task_at x;
  let '(r, slice) := try_update (fun slice => Some (saturating_sub_usize slice 1)) (time_slice t) in
  modify (set_task x (mkTask (queue_owner t) slice)) ;;
  mret ((match r with Ok old_slice => old_slice | Err _ => 0 end) <=? 1).

Definition rr_set_priority (_ : nat) (_ : Z) : Op () := throw UnsupportedOperation.

Definition RRScheduler : BaseScheduler := {|
  base_add_task := rr_add_task;
  base_remove_task := remove_task;
  base_pick_next_task := pick_next_task;
  base_put_prev_task := rr_put_prev_task;
  base_enqueue_task := rr_enqueue_task;
  base_task_tick := rr_task_tick;
  base_set_priority := rr_set_priority |}.

End RoundRobin.

End State.

Arguments Sched : clear implicits.
Arguments BaseScheduler : clear implicits.
