(* ===== verification/SchedSpec.v ===== *)
(** Schedulers, part 2: the queues a scheduler promises, and the invariant that
    ties the owner words of the tasks to the linked lists.

    The view of a state forgets identifiers and links: one list of task numbers
    per scheduler, the remaining slice of each task, which schedulers are named
    and how many names are left. [abstract_op] is the whole behaviour of the
    FIFO and round-robin schedulers on views.

    Schedulers, part 3: what each operation does to a well-formed state, as an
    equation on its outcome, and the preservation of the invariant.

    Every insertion ends in a state [linked_in] and every removal in a state
    [unlinked]; the two preservation lemmas are shared by both schedulers. *)

From S2P Require Import Prelude Effects Atomics Sched.
Local Open Scope Z_scope.

(** ** Operations *)

Inductive Policy : Type := Fifo | RoundRobin (max_time_slice : Z).

Inductive sched_op : Type :=
| ONewTask | ONewScheduler
| OAdd (q x : nat) | OPut (q x : nat) (preempt : bool) | OEnqueue (q x : nat) (reason : EnqueueReason)
| ORemove (q x : nat) | OMigrateOut (q x : nat) | OPick (q : nat) | ODrop (q : nat)
| OTick (x : nat) | OAccount (x : nat) (delta : RuntimeDelta)
| ODeactivate (q x : nat) (reason : DeactivateReason) | OSetPriority (x : nat) (prio : Z).

(** What an operation returns: [RUnit] for [Result<(), _>], [RItem] for an
    optional task, [RFlag] for a reschedule request, [RNothing] for no value. *)
Inductive sched_response : Type :=
| RUnit (r : result unit SchedulerError)
| RItem (r : result (option nat) SchedulerError)
| RFlag (b : bool)
| RNothing.

(** ** Views *)

Record Queues : Type := mkQueues {
  queues : list (list nat); slices : list Z; named : list bool; names_left : Z }.

Definition queue (v : Queues) (q : nat) : list nat := default [] (queues v !! q).
Definition slice (v : Queues) (x : nat) : Z := default 0 (slices v !! x).

Definition set_queue (q : nat) (l : list nat) (v : Queues) : Queues :=
  mkQueues (<[q := l]> (queues v)) (slices v) (named v) (names_left v).
Definition set_slice (x : nat) (n : Z) (v : Queues) : Queues :=
  mkQueues (queues v) (<[x := n]> (slices v)) (named v) (names_left v).

(** The scheduler whose queue holds [x]. *)
Definition owner_of (v : Queues) (x : nat) : option nat :=
  fst <$> list_find (fun l => x ∈ l) (queues v).

(** The first insertion into a queue takes one of the remaining names. *)
Definition take_name (q : nat) (v : Queues) : option Queues :=
  if default false (named v !! q) then Some v
  else if 0 <? names_left v
  then Some (mkQueues (queues v) (slices v) (<[q := true]> (named v)) (names_left v - 1))
  else None.

(** Where an insertion puts the task, and the slice it has from then on. *)
Definition placement (p : Policy) (reason : EnqueueReason) (n : Z) (x : nat) (l : list nat)
    : list nat * Z :=
  match p, reason with
  | Fifo, _ => (l ++ [x], n)
  | RoundRobin _, (New | Wakeup) => (l ++ [x], n)
  | RoundRobin m, Yield => (l ++ [x], m)
  | RoundRobin m, Preempt => if 0 <? n then (x :: l, n) else (l ++ [x], m)
  | RoundRobin m, Migrate => (l ++ [x], if n =? 0 then m else n)
  end.

Definition accepts (p : Policy) : bool :=
  match p with Fifo => true | RoundRobin m => negb (m =? 0) end.

(** The slice of a round-robin scheduler is a [usize]. *)
Definition policy_valid (p : Policy) : Prop :=
  match p with Fifo => True | RoundRobin m => in_usize m end.

Definition abstract_enqueue (p : Policy) (reason : EnqueueReason) (q x : nat) (v : Queues)
    : result unit SchedulerError * Queues :=
  if negb (accepts p) then (Err InvalidTimeSlice, v) else
  match take_name q v with
  | None => (Err IdentifierExhausted, v)
  | Some v' =>
      match owner_of v x with
      | None =>
          let '(l, n) := placement p reason (slice v x) x (queue v q) in
          (Ok tt, set_queue q l (set_slice x n v'))
      | Some q' => (Err (if decide (q' = q) then AlreadyQueued else ForeignQueue), v')
      end
  end.

Definition abstract_remove (q x : nat) (v : Queues)
    : result (option nat) SchedulerError * Queues :=
  match owner_of v x with
  | None => (Ok None, v)
  | Some q' =>
      if decide (q' = q) then (Ok (Some x), set_queue q (filter (fun y => y <> x) (queue v q)) v)
      else (Err ForeignQueue, v)
  end.

(** [n] expired periods; a request to reschedule when the slice is used up. *)
Definition abstract_account (p : Policy) (x : nat) (n : Z) (v : Queues) : bool * Queues :=
  match p with
  | Fifo => (false, v)
  | RoundRobin _ => ((0 <? n) && (slice v x <=? n), set_slice x (Z.max 0 (slice v x - n)) v)
  end.

Definition abstract_op (p : Policy) (op : sched_op) (v : Queues) : sched_response * Queues :=
  match op with
  | ONewTask =>
      (RNothing, mkQueues (queues v)
         (slices v ++ [match p with Fifo => 0 | RoundRobin m => m end]) (named v) (names_left v))
  | ONewScheduler =>
      (RNothing, mkQueues (queues v ++ [[]]) (slices v) (named v ++ [false]) (names_left v))
  | OAdd q x => let '(r, v) := abstract_enqueue p New q x v in (RUnit r, v)
  | OPut q x preempt =>
      let '(r, v) := abstract_enqueue p (if preempt then Preempt else Yield) q x v in (RUnit r, v)
  | OEnqueue q x reason => let '(r, v) := abstract_enqueue p reason q x v in (RUnit r, v)
  | ORemove q x | OMigrateOut q x => let '(r, v) := abstract_remove q x v in (RItem r, v)
  | OPick q => (RItem (Ok (head (queue v q))), set_queue q (tail (queue v q)) v)
  | ODrop q => (RNothing, set_queue q [] v)
  | OTick x => let '(b, v) := abstract_account p x 1 v in (RFlag b, v)
  | OAccount x delta =>
      let '(b, v) := abstract_account p x (RuntimeDelta.whole_periods delta) v in (RFlag b, v)
  | ODeactivate _ _ _ => (RNothing, v)
  | OSetPriority _ _ => (RUnit (Err UnsupportedOperation), v)
  end.

(** ** Concrete states *)

Section Concrete.
Context {L : Type} `{LinkedListLaws L}.
Local Abbreviation Sched := (Sched L).
Implicit Types (s : Sched) (q x : nat) (i : Z) (t : Task).

Definition scheduler (p : Policy) : BaseScheduler L :=
  match p with Fifo => FifoScheduler | RoundRobin m => RRScheduler m end.

Definition respond {A} (f : result A SchedulerError -> sched_response)
    (o : outcome Sched SchedulerError A) : option (sched_response * Sched) :=
  match o with
  | Done a s => Some (f (Ok a), s)
  | Fail e s => Some (f (Err e), s)
  | Panic | Diverged => None
  end.

Definition flag (r : result bool SchedulerError) : sched_response :=
  match r with Ok b => RFlag b | Err e => RUnit (Err e) end.
Definition nothing (r : result unit SchedulerError) : sched_response :=
  match r with Ok _ => RNothing | Err e => RUnit (Err e) end.

(** [None] for a panic or an endless loop. *)
Definition sched_execute (p : Policy) (op : sched_op) (s : Sched) : option (sched_response * Sched) :=
  let b := scheduler p in
  match op with
  | ONewTask =>
      Some (RNothing, match p with Fifo => FifoTask_new s | RoundRobin m => RRTask_new m s end)
  | ONewScheduler => Some (RNothing, scheduler_new s)
  | OAdd q x => respond RUnit (base_add_task b q x s)
  | OPut q x preempt => respond RUnit (base_put_prev_task b q x preempt s)
  | OEnqueue q x reason => respond RUnit (base_enqueue_task b q x reason s)
  | ORemove q x => respond RItem (base_remove_task b q x s)
  | OMigrateOut q x => respond RItem (remove_task_for_migration b q x s)
  | OPick q => respond RItem (base_pick_next_task b q s)
  | ODrop q => respond nothing (drop_scheduler q s)
  | OTick x => respond flag (base_task_tick b x s)
  | OAccount x delta => respond flag (account_runtime b x delta s)
  | ODeactivate q x reason => respond nothing (deactivate_task q x reason s)
  | OSetPriority x prio => respond RUnit (base_set_priority b x prio s)
  end.

(** References name existing tasks and schedulers; samples are made by
    [RuntimeDelta::new], and a slice is a [usize]. *)
Definition op_valid (p : Policy) (op : sched_op) (s : Sched) : Prop :=
  let task x := (x < length (tasks s))%nat in
  let scheduler q := (q < length (sched_ids s))%nat in
  match op with
  | ONewTask | ONewScheduler => True
  | OAdd q x | OPut q x _ | OEnqueue q x _ | ORemove q x | OMigrateOut q x | ODeactivate q x _ =>
      scheduler q /\ task x
  | OPick q | ODrop q => scheduler q
  | OTick x | OSetPriority x _ => task x
  | OAccount x delta => task x /\ 0 <= elapsed_ns delta /\ 0 < period_ns delta
  end.

(** The contents of the list of scheduler [q]. *)
Definition linked s q : list nat := Sched.contents (lists s) q.

Definition view s : Queues := mkQueues
  (linked s <$> seq 0 (length (sched_ids s))) (time_slice <$> tasks s)
  ((fun i => negb (i =? UNOWNED)) <$> sched_ids s) (usize_MAX - next_scheduler_id s).

(** The owner word of a task is the identity of the one list that links it. *)
Record sched_wf s : Prop := {
  wf_next : 1 <= next_scheduler_id s <= usize_MAX;
  wf_id q i : sched_ids s !! q = Some i -> 0 <= i < next_scheduler_id s;
  wf_ids q1 q2 i : sched_ids s !! q1 = Some i -> sched_ids s !! q2 = Some i -> i <> UNOWNED -> q1 = q2;
  wf_linked q x : x ∈ linked s q ->
    exists i t, sched_ids s !! q = Some i /\ i <> UNOWNED /\ tasks s !! x = Some t /\ queue_owner t = i;
  wf_owned x t : tasks s !! x = Some t -> queue_owner t <> UNOWNED -> exists q, x ∈ linked s q;
  wf_nodup q : NoDup (linked s q);
  wf_slice x t : tasks s !! x = Some t -> 0 <= time_slice t }.

(** ** The view of a well-formed state *)

Lemma queue_view s q : (q < length (sched_ids s))%nat -> queue (view s) q = linked s q.
Proof. intros Hq. unfold queue. simpl. by rewrite list_lookup_fmap, lookup_seq_lt. Qed.

Lemma linked_unnamed s q : sched_wf s -> (length (sched_ids s) <= q)%nat -> linked s q = [].
Proof.
  intros Hwf Hq. destruct (linked s q) as [|x l] eqn:Hl; [done|].
  destruct (wf_linked s Hwf q x) as (i & t & Hi & _); [rewrite Hl; set_solver|].
  apply lookup_lt_Some in Hi. lia.
Qed.

Lemma linked_once s q1 q2 x : sched_wf s -> x ∈ linked s q1 -> x ∈ linked s q2 -> q1 = q2.
Proof.
  intros Hwf (i1 & t1 & H1 & Hn & Ht1 & Ho1)%(wf_linked s Hwf)
    (i2 & t2 & H2 & _ & Ht2 & Ho2)%(wf_linked s Hwf).
  apply (wf_ids s Hwf q1 q2 i1); congruence.
Qed.

Lemma owner_of_linked s q x : sched_wf s -> x ∈ linked s q -> owner_of (view s) x = Some q.
Proof.
  intros Hwf Hx. pose proof (wf_linked s Hwf q x Hx) as (i & t & Hi & _).
  apply lookup_lt_Some in Hi. unfold owner_of. simpl.
  assert (list_find (fun l => x ∈ l) (linked s <$> seq 0 (length (sched_ids s)))
    = Some (q, linked s q)) as ->; [|done].
  apply list_find_Some. split; [by rewrite list_lookup_fmap, lookup_seq_lt|]. split; [done|].
  intros j y Hj Hlt Hy. rewrite list_lookup_fmap, lookup_seq_lt in Hj by lia. simplify_eq/=.
  apply (linked_once s q j x Hwf Hx) in Hy. lia.
Qed.

Lemma owner_of_free s x t :
  sched_wf s -> tasks s !! x = Some t -> queue_owner t = UNOWNED ->
  owner_of (view s) x = None /\ forall q, x ∉ linked s q.
Proof.
  intros Hwf Ht Ho. assert (forall q, x ∉ linked s q) as Hfree.
  { intros q (i & t' & _ & Hn & Ht' & Ho')%(wf_linked s Hwf). congruence. }
  split; [|done]. unfold owner_of. simpl.
  assert (list_find (fun l => x ∈ l) (linked s <$> seq 0 (length (sched_ids s))) = None) as ->; [|done].
  apply list_find_None, Forall_fmap, Forall_forall. intros q _. apply Hfree.
Qed.

(** The owner word decides [owner_of]. *)
Lemma owner_word_cases s q x i t :
  sched_wf s -> sched_ids s !! q = Some i -> i <> UNOWNED -> tasks s !! x = Some t ->
  (queue_owner t = UNOWNED /\ owner_of (view s) x = None) \/
  (queue_owner t = i /\ owner_of (view s) x = Some q /\ x ∈ linked s q) \/
  (queue_owner t <> UNOWNED /\ queue_owner t <> i /\ exists q', q' <> q /\ owner_of (view s) x = Some q').
Proof.
  intros Hwf Hi Hn Ht. destruct (decide (queue_owner t = UNOWNED)) as [Ho|Ho].
  { left. split; [done|]. by apply (owner_of_free s x t). }
  destruct (wf_owned s Hwf x t Ht Ho) as [q' Hx].
  pose proof (owner_of_linked s q' x Hwf Hx) as Hown.
  destruct (wf_linked s Hwf q' x Hx) as (i' & t' & Hi' & Hn' & Ht' & Ho').
  assert (queue_owner t = i') as Hi2 by congruence. right. destruct (decide (q' = q)) as [->|Hne]; [left; split_and!; congruence|].
  right. split; [done|]. split; [|by exists q']. intros Heq. apply Hne.
  apply (wf_ids s Hwf q' q i'); congruence.
Qed.

End Concrete.

Section Sections_.
Context {L : Type} `{LinkedListLaws L}.
Local Abbreviation Sched := (Sched L).
Implicit Types (s : Sched) (q x : nat) (i : Z) (t : Task) (l : L).

(** Task [x], now owned by [i], in a state whose lists are [l]. *)
Definition linked_in (l : L) x i (n : Z) s : Sched := set_lists l (set_task x (mkTask i n) s).

Lemma seq_fmap_on_list c q (new : list nat) n :
  (q < n)%nat -> (on_list q new c <$> seq 0 n) = <[q := new]> (c <$> seq 0 n).
Proof.
  intros Hq. apply list_eq. intros j. rewrite list_lookup_fmap.
  destruct (decide (j = q)) as [->|Hne].
  - rewrite lookup_seq_lt by done. simpl. rewrite on_list_eq, list_lookup_insert_eq; [done|].
    by rewrite length_fmap, length_seq.
  - rewrite list_lookup_insert_ne, list_lookup_fmap by done.
    destruct (seq 0 n !! j) as [k|] eqn:Hk; [|done]. simpl.
    apply lookup_seq in Hk as [-> _]. simpl. by rewrite on_list_ne.
Qed.

Lemma view_linked_in l x i n s q new :
  (q < length (sched_ids s))%nat ->
  (forall j, Sched.contents l j = on_list q new (linked s) j) ->
  view (linked_in l x i n s) = set_queue q new (set_slice x n (view s)).
Proof.
  intros Hq Hl. unfold view, set_queue, set_slice, linked_in. simpl. f_equal.
  - rewrite <- seq_fmap_on_list by done. apply list_fmap_ext. intros _ j _. apply Hl.
  - by rewrite list_fmap_insert.
Qed.

(** Linking a free task under a named scheduler keeps the invariant. *)
Lemma link_wf l x i n s q new t :
  sched_wf s -> sched_ids s !! q = Some i -> i <> UNOWNED -> tasks s !! x = Some t ->
  queue_owner t = UNOWNED -> 0 <= n -> new ≡ₚ x :: linked s q ->
  (forall j, Sched.contents l j = on_list q new (linked s) j) ->
  sched_wf (linked_in l x i n s).
Proof.
  intros Hwf Hi Hn Ht Ho Hpos Hnew Hl.
  destruct (owner_of_free s x t Hwf Ht Ho) as [_ Hfree].
  assert (x < length (tasks s))%nat as Hx by (apply lookup_lt_is_Some; eauto).
  assert (forall j, linked (linked_in l x i n s) j = on_list q new (linked s) j) as Hlk by done.
  split; try apply Hwf.
  - intros j y. rewrite Hlk. simpl. destruct (decide (j = q)) as [->|Hj].
    + rewrite on_list_eq, Hnew, elem_of_cons. intros [->|Hy].
      * exists i, (mkTask i n). by rewrite list_lookup_insert_eq.
      * assert (x <> y) by (intros ->; by apply (Hfree q)).
        destruct (wf_linked s Hwf q y Hy) as (i' & t' & ?). exists i', t'.
        by rewrite list_lookup_insert_ne.
    + rewrite on_list_ne by done. intros Hy. assert (x <> y) by (intros ->; by apply (Hfree j)).
      destruct (wf_linked s Hwf j y Hy) as (i' & t' & ?). exists i', t'.
      by rewrite list_lookup_insert_ne.
  - intros y u. simpl. setoid_rewrite Hlk. destruct (decide (x = y)) as [<-|Hy].
    + intros _ _. exists q. rewrite on_list_eq, Hnew. set_solver.
    + rewrite list_lookup_insert_ne by done. intros Hu Hou.
      destruct (wf_owned s Hwf y u Hu Hou) as [j Hyj]. exists j. destruct (decide (j = q)) as [->|Hj].
      * rewrite on_list_eq, Hnew. set_solver.
      * by rewrite on_list_ne.
  - intros j. rewrite Hlk. destruct (decide (j = q)) as [->|Hj].
    + rewrite on_list_eq, Hnew. constructor; [apply Hfree|apply (wf_nodup s Hwf)].
    + rewrite on_list_ne by done. apply (wf_nodup s Hwf).
  - intros y u. simpl. destruct (decide (x = y)) as [<-|Hy].
    + rewrite list_lookup_insert_eq by done. by intros [= <-].
    + rewrite list_lookup_insert_ne by done. apply (wf_slice s Hwf).
Qed.

(** Unlinking a task keeps the invariant. *)
Lemma unlink_wf l x s q new t :
  sched_wf s -> tasks s !! x = Some t -> linked s q ≡ₚ x :: new ->
  (forall j, Sched.contents l j = on_list q new (linked s) j) ->
  sched_wf (linked_in l x UNOWNED (time_slice t) s).
Proof.
  intros Hwf Ht Hnew Hl.
  assert (x < length (tasks s))%nat as Hx by (apply lookup_lt_is_Some; eauto).
  assert (x ∈ linked s q) as Hxq by (rewrite Hnew; set_solver).
  assert (NoDup (x :: new)) as [Hxnew Hnd]%NoDup_cons
    by (rewrite <- Hnew; apply (wf_nodup s Hwf)).
  assert (forall j, linked (linked_in l x UNOWNED (time_slice t) s) j = on_list q new (linked s) j)
    as Hlk by done.
  assert (forall j y, y ∈ on_list q new (linked s) j -> x <> y /\ y ∈ linked s j) as Hsub.
  { intros j y. destruct (decide (j = q)) as [->|Hj].
    - rewrite on_list_eq. intros Hy. split; [by intros ->|]. rewrite Hnew. set_solver.
    - rewrite on_list_ne by done. intros Hy. split; [|done]. intros ->. apply Hj.
      by apply (linked_once s j q y). }
  split; try apply Hwf.
  - intros j y. rewrite Hlk. simpl. intros [Hne Hy]%Hsub.
    destruct (wf_linked s Hwf j y Hy) as (i' & t' & ?). exists i', t'.
    by rewrite list_lookup_insert_ne.
  - intros y u. simpl. setoid_rewrite Hlk. destruct (decide (x = y)) as [<-|Hy].
    + rewrite list_lookup_insert_eq by done. intros [= <-]. done.
    + rewrite list_lookup_insert_ne by done. intros Hu Hou.
      destruct (wf_owned s Hwf y u Hu Hou) as [j Hyj]. exists j. destruct (decide (j = q)) as [->|Hj].
      * rewrite on_list_eq. rewrite Hnew in Hyj. set_solver.
      * by rewrite on_list_ne.
  - intros j. rewrite Hlk. destruct (decide (j = q)) as [->|Hj]; [by rewrite on_list_eq|].
    rewrite on_list_ne by done. apply (wf_nodup s Hwf).
  - intros y u. simpl. destruct (decide (x = y)) as [<-|Hy].
    + rewrite list_lookup_insert_eq by done. intros [= <-]. exact (wf_slice s Hwf x t Ht).
    + rewrite list_lookup_insert_ne by done. apply (wf_slice s Hwf).
Qed.

(** Changing a slice, and naming a scheduler. *)
Lemma set_slice_wf s x t n :
  sched_wf s -> tasks s !! x = Some t -> 0 <= n -> sched_wf (set_task x (mkTask (queue_owner t) n) s).
Proof.
  intros Hwf Ht Hpos. assert (x < length (tasks s))%nat as Hx by (apply lookup_lt_is_Some; eauto).
  split; try apply Hwf; simpl.
  - intros j y (i & u & ? & ? & Hu & ?)%(wf_linked s Hwf). destruct (decide (x = y)) as [<-|Hy].
    + exists i, (mkTask (queue_owner t) n). rewrite list_lookup_insert_eq by done.
      split_and!; simpl; congruence.
    + exists i, u. by rewrite list_lookup_insert_ne.
  - intros y u. destruct (decide (x = y)) as [<-|Hy].
    + rewrite list_lookup_insert_eq by done. intros [= <-]. exact (wf_owned s Hwf x t Ht).
    + rewrite list_lookup_insert_ne by done. apply (wf_owned s Hwf).
  - intros y u. destruct (decide (x = y)) as [<-|Hy].
    + rewrite list_lookup_insert_eq by done. by intros [= <-].
    + rewrite list_lookup_insert_ne by done. apply (wf_slice s Hwf).
Qed.

Definition name_state q s : Sched :=
  set_id q (next_scheduler_id s) (set_next_id (next_scheduler_id s + 1) s).

Lemma name_state_wf s q :
  sched_wf s -> sched_ids s !! q = Some UNOWNED -> next_scheduler_id s < usize_MAX ->
  sched_wf (name_state q s).
Proof.
  intros Hwf Hq Hlt. pose proof (wf_next s Hwf) as Hn.
  assert (q < length (sched_ids s))%nat as Hlen by (apply lookup_lt_is_Some; eauto).
  split; simpl; try apply Hwf.
  - lia.
  - intros j i. destruct (decide (q = j)) as [<-|Hj].
    + rewrite list_lookup_insert_eq by done. intros [= <-]. lia.
    + rewrite list_lookup_insert_ne by done. intros Hi%(wf_id s Hwf). lia.
  - assert (forall j, j <> q -> sched_ids s !! j = Some (next_scheduler_id s) -> False) as Hfresh
      by (intros j _ Hj%(wf_id s Hwf); lia).
    intros j1 j2 i. destruct (decide (q = j1)) as [<-|H1], (decide (q = j2)) as [<-|H2];
      rewrite ?list_lookup_insert_eq, ?list_lookup_insert_ne by done; [done| | |apply Hwf].
    + intros [= <-] Hj2. exfalso. by apply (Hfresh j2).
    + intros Hj1 [= <-]. exfalso. by apply (Hfresh j1).
  - intros j y (i & u & Hi & Hn0 & ?)%(wf_linked s Hwf). exists i, u.
    rewrite list_lookup_insert_ne by congruence. done.
Qed.

Lemma view_name_state s q :
  view (name_state q s) = mkQueues (queues (view s)) (slices (view s))
    (<[q := negb (next_scheduler_id s =? UNOWNED)]> (named (view s))) (names_left (view s) - 1).
Proof.
  unfold view, name_state. simpl. rewrite length_insert, list_fmap_insert. f_equal. lia.
Qed.

(** ** Operations *)

Local Abbreviation Op A := (M Sched SchedulerError A).

Lemma task_at_run s x t : tasks s !! x = Some t -> task_at x s = Done t s.
Proof. intros Ht. unfold task_at. rewrite (bind_done _ _ s s s) by done. by rewrite Ht. Qed.
Lemma id_of_run s q i : sched_ids s !! q = Some i -> id_of q s = Done i s.
Proof. intros Hi. unfold id_of. rewrite (bind_done _ _ s s s) by done. by rewrite Hi. Qed.

(** [ensure_id] names the scheduler, or fails when no name is left. *)
Lemma ensure_id_run s q i :
  sched_wf s -> sched_ids s !! q = Some i ->
  match take_name q (view s) with
  | None => ensure_id q s = Fail IdentifierExhausted s
  | Some v' => exists i' s', ensure_id q s = Done i' s' /\ sched_wf s' /\ view s' = v' /\
      sched_ids s' !! q = Some i' /\ i' <> UNOWNED /\ tasks s' = tasks s /\ lists s' = lists s /\
      length (sched_ids s') = length (sched_ids s)
  end.
Proof.
  intros Hwf Hi. unfold take_name, ensure_id. rewrite (bind_done _ _ _ _ _ (id_of_run s q i Hi)).
  simpl. rewrite list_lookup_fmap, Hi. simpl. pose proof (wf_next s Hwf) as Hn.
  destruct (Z.eqb_spec i UNOWNED) as [->|Hne]; simpl.
  2:{ exists i, s. rewrite (bind_done _ _ s tt s) by done. by rewrite (id_of_run s q i Hi). }
  unfold allocate_scheduler_id, try_update, checked_add_usize, gets, modify.
  destruct (Z.ltb_spec 0 (usize_MAX - next_scheduler_id s)) as [Hlt|Hge].
  - exists (next_scheduler_id s), (name_state q s).
    assert (sched_ids (name_state q s) !! q = Some (next_scheduler_id s)) as Hid.
    { simpl. apply list_lookup_insert_eq. apply lookup_lt_is_Some. eauto. }
    split.
    { unfold mbind, M_bind. destruct (Z.leb_spec (next_scheduler_id s + 1) usize_MAX); [|lia].
      simpl. exact (id_of_run (name_state q s) q _ Hid). }
    split; [apply name_state_wf; [done|done|lia]|]. split.
    { rewrite view_name_state. destruct (Z.eqb_spec (next_scheduler_id s) UNOWNED) as [Hz|_];
        [unfold UNOWNED in Hz; lia|done]. }
    split; [done|]. split; [unfold UNOWNED; lia|]. split; [done|]. split; [done|].
    simpl. apply length_insert.
  - unfold mbind, M_bind. destruct (Z.leb_spec (next_scheduler_id s + 1) usize_MAX); [lia|].
    simpl. by destruct s.
Qed.

Lemma take_name_queues q (v v' : Queues) :
  take_name q v = Some v' -> queues v' = queues v /\ slices v' = slices v.
Proof. unfold take_name. repeat case_match; by intros [= <-]. Qed.

(** The guard of every insertion: name the scheduler, then claim the task. *)
Definition claim_guard q x : Op () := i ← ensure_id q; task_claim x i.

Lemma claim_guard_run s q x i t :
  sched_wf s -> sched_ids s !! q = Some i -> tasks s !! x = Some t ->
  match take_name q (view s), owner_of (view s) x with
  | None, _ => claim_guard q x s = Fail IdentifierExhausted s
  | Some v', Some q' => exists s',
      claim_guard q x s = Fail (if decide (q' = q) then AlreadyQueued else ForeignQueue) s' /\
      sched_wf s' /\ view s' = v'
  | Some v', None => exists i' s',
      claim_guard q x s = Done tt (set_task x (mkTask i' (time_slice t)) s') /\
      sched_wf s' /\ view s' = v' /\ sched_ids s' !! q = Some i' /\ i' <> UNOWNED /\
      tasks s' !! x = Some t /\ queue_owner t = UNOWNED
  end.
Proof.
  intros Hwf Hi Ht. pose proof (ensure_id_run s q i Hwf Hi) as He. unfold claim_guard.
  destruct (take_name q (view s)) as [v'|] eqn:Hv; [|exact (bind_fail _ _ _ _ _ He)].
  destruct He as (i' & s' & He & Hwf' & Hv' & Hi' & Hn & Hts & _ & _).
  rewrite (bind_done _ _ _ _ _ He). rewrite <- Hts in Ht.
  unfold task_claim. rewrite (bind_done _ _ _ _ _ (task_at_run s' x t Ht)).
  assert (owner_of (view s) x = owner_of (view s') x) as ->.
  { unfold owner_of. rewrite Hv'. by rewrite (proj1 (take_name_queues _ _ _ Hv)). }
  destruct (owner_word_cases s' q x i' t Hwf' Hi' Hn Ht)
    as [[Ho ->]|[(Ho & -> & _)|(Ho & Ho' & q' & Hq' & ->)]].
  - rewrite Ho. by exists i', s'.
  - rewrite Ho, decide_True, Z.eqb_refl by done.
    destruct (Z.eqb_spec i' UNOWNED); [done|]. by exists s'.
  - rewrite decide_False by done. exists s'.
    destruct (Z.eqb_spec (queue_owner t) UNOWNED), (Z.eqb_spec (queue_owner t) i'); done.
Qed.

Lemma placement_perm p reason n x (l : list nat) : (placement p reason n x l).1 ≡ₚ x :: l.
Proof.
  assert (l ++ [x] ≡ₚ x :: l) as Hback by (rewrite Permutation_app_comm; done).
  destruct p, reason; try exact Hback. simpl. by destruct (0 <? n).
Qed.

Lemma placement_slice p reason n x (l : list nat) :
  policy_valid p -> 0 <= n -> 0 <= (placement p reason n x l).2.
Proof.
  unfold policy_valid, in_usize. destruct p, reason; simpl; try lia.
  - destruct (0 <? n); simpl; lia.
  - destruct (n =? 0); lia.
Qed.

(** What the body of an insertion does to a task the guard has claimed. *)
Definition inserts p reason q x (k : Op ()) : Prop := forall s i n,
  (forall j, x ∉ linked s j) -> (x < length (tasks s))%nat ->
  exists l, k (set_task x (mkTask i n) s) = Done tt (linked_in l x i (placement p reason n x (linked s q)).2 s) /\
    forall j, Sched.contents l j = on_list q (placement p reason n x (linked s q)).1 (linked s) j.

Lemma insertion_refines p reason q x (k : Op ()) s :
  policy_valid p -> accepts p = true -> inserts p reason q x k -> sched_wf s ->
  (q < length (sched_ids s))%nat -> (x < length (tasks s))%nat ->
  exists r s', respond RUnit ((claim_guard q x ;; k) s) = Some (RUnit r, s') /\ sched_wf s' /\
    (r, view s') = abstract_enqueue p reason q x (view s).
Proof.
  intros Hp Hacc Hk Hwf Hq Hx. apply lookup_lt_is_Some in Hq as [i Hi].
  apply lookup_lt_is_Some in Hx as [t Ht]. pose proof (claim_guard_run s q x i t Hwf Hi Ht) as Hc.
  unfold abstract_enqueue. rewrite Hacc. simpl.
  destruct (take_name q (view s)) as [v'|] eqn:Hv.
  2:{ rewrite (bind_fail _ _ _ _ _ Hc). simpl. eauto. }
  destruct (owner_of (view s) x) as [q'|] eqn:Hown.
  { destruct Hc as (s' & Hrun & Hwf' & Hv'). rewrite (bind_fail _ _ _ _ _ Hrun). simpl.
    eexists _, s'. split; [done|]. split; [done|]. by rewrite Hv'. }
  destruct Hc as (i' & s' & Hrun & Hwf' & Hv' & Hi' & Hn & Ht' & Ho).
  rewrite (bind_done _ _ _ _ _ Hrun). destruct (owner_of_free s' x t Hwf' Ht' Ho) as [_ Hfree].
  destruct (Hk s' i' (time_slice t) Hfree) as (l & -> & Hl); [apply lookup_lt_is_Some; eauto|].
  simpl. eexists _, _. split; [done|].
  assert (q < length (sched_ids s'))%nat as Hq' by (apply lookup_lt_is_Some; eauto).
  destruct (take_name_queues _ _ _ Hv) as [Hqs Hss].
  assert (queue (view s) q = linked s' q) as ->.
  { rewrite <- (queue_view s' q Hq'). unfold queue. by rewrite Hv', Hqs. }
  assert (slice (view s) x = time_slice t) as ->.
  { unfold slice. rewrite <- Hss, <- Hv'. simpl. by rewrite list_lookup_fmap, Ht'. }
  split.
  - eapply (link_wf l x i' _ s' q); [done..| |apply placement_perm|exact Hl].
    apply placement_slice; [done|]. exact (wf_slice s' Hwf' x t Ht').
  - rewrite (view_linked_in _ _ _ _ _ _ _ Hq' Hl), Hv'.
    by destruct (placement p reason (time_slice t) x (linked s' q)).
Qed.

End Sections_.
