(* ===== verification/SchedRefinement.v ===== *)
(** Schedulers, part 4: every operation of both schedulers, run on a
    well-formed state with valid references, returns without panic or endless
    loop and acts on the view as [abstract_op] does. *)

From S2P Require Import Prelude Effects Atomics Sched SchedSpec.
Local Open Scope Z_scope.

(** ** Lists *)

Lemma filter_ne_nodup (l : list nat) k x :
  NoDup l -> l !! k = Some x -> filter (fun y => y <> x) l = take k l ++ drop (S k) l.
Proof.
  intros Hnd Hk. pose proof (take_drop_middle l k x Hk) as Hl. rewrite <- Hl in Hnd.
  apply NoDup_app in Hnd as (_ & Htake & [Hdrop _]%NoDup_cons).
  assert (forall l' : list nat, x ∉ l' -> filter (fun y => y <> x) l' = l') as Hid.
  { intros l'. induction l' as [|y l' IH]; intros Hx; [done|].
    rewrite filter_cons_True by set_solver. f_equal. apply IH. set_solver. }
  rewrite <- Hl at 1. rewrite filter_app, filter_cons_False by (intros Hx; by apply Hx).
  rewrite !Hid; [done|done|]. intros Hx. apply (Htake x Hx). set_solver.
Qed.

Lemma nodup_bounded (l : list nat) n : NoDup l -> (forall x, x ∈ l -> (x < n)%nat) -> (length l <= n)%nat.
Proof.
  intros Hnd Hb. rewrite <- (length_seq n 0). apply submseteq_length, NoDup_submseteq; [done|].
  intros x Hx%Hb. apply elem_of_seq. lia.
Qed.

Section Refinement.
Context {L : Type} `{LinkedListLaws L}.
Local Abbreviation Sched := (Sched L).
Local Abbreviation Op A := (M Sched SchedulerError A).
Implicit Types (s : Sched) (q x : nat) (i : Z) (t : Task).

Lemma linked_length s q : sched_wf s -> (length (linked s q) <= length (tasks s))%nat.
Proof.
  intros Hwf. apply nodup_bounded; [apply (wf_nodup s Hwf)|].
  intros x (i & t & _ & _ & Ht & _)%(wf_linked s Hwf). by apply lookup_lt_Some in Ht.
Qed.

(** ** Insertions *)

Lemma set_task_twice x t1 t2 s : set_task x t1 (set_task x t2 s) = set_task x t1 s.
Proof. unfold set_task. simpl. by rewrite list_insert_insert_eq. Qed.

Lemma push_back_inserts p reason q x (k : Op ()) :
  (forall s i n, (x < length (tasks s))%nat ->
     k (set_task x (mkTask i n) s) =
     modify_lists (push_back q x) (set_task x (mkTask i (placement p reason n x (linked s q)).2) s)) ->
  (forall n l, (placement p reason n x l).1 = l ++ [x]) ->
  inserts p reason q x k.
Proof.
  intros Hk Hback s i n Hfree Hx. exists (push_back q x (lists s)). rewrite Hk, Hback by done.
  split; [done|]. intros j. by rewrite push_back_contents.
Qed.

Lemma fifo_add_inserts reason q x : inserts Fifo reason q x (modify_lists (push_back q x)).
Proof. by apply push_back_inserts. Qed.

Section RoundRobin.
Context (m : Z).

Lemma task_at_set x i n s :
  (x < length (tasks s))%nat -> task_at x (set_task x (mkTask i n) s) = Done (mkTask i n) (set_task x (mkTask i n) s).
Proof. intros Hx. apply task_at_run. simpl. by rewrite list_lookup_insert_eq. Qed.

Lemma rr_reset_run x i n s :
  (x < length (tasks s))%nat ->
  rr_reset_time_slice m x (set_task x (mkTask i n) s) = Done tt (set_task x (mkTask i m) s).
Proof.
  intros Hx. unfold rr_reset_time_slice. rewrite (bind_done _ _ _ _ _ (task_at_set x i n s Hx)).
  unfold modify. by rewrite set_task_twice.
Qed.

Lemma rr_add_inserts reason q x :
  reason = New \/ reason = Wakeup -> inserts (RoundRobin m) reason q x (modify_lists (push_back q x)).
Proof. intros Hr. apply push_back_inserts; by destruct Hr as [-> | ->]. Qed.

(** The bodies of [put_prev_task] and of a migration, after the claim. *)
Definition put_prev_body q x (preempt : bool) : Op () :=
  t ← task_at x;
  if (0 <? time_slice t) && preempt then modify_lists (push_front q x)
  else rr_reset_time_slice m x ;; modify_lists (push_back q x).
Definition migrate_body q x : Op () :=
  t ← task_at x;
  (if time_slice t =? 0 then rr_reset_time_slice m x else mret tt) ;;
  modify_lists (push_back q x).

Lemma rr_yield_inserts q x : inserts (RoundRobin m) Yield q x (put_prev_body q x false).
Proof.
  apply push_back_inserts; [|done]. intros s i n Hx. unfold put_prev_body.
  rewrite (bind_done _ _ _ _ _ (task_at_set x i n s Hx)), andb_false_r.
  by rewrite (bind_done _ _ _ _ _ (rr_reset_run x i n s Hx)).
Qed.

Lemma rr_preempt_inserts q x : inserts (RoundRobin m) Preempt q x (put_prev_body q x true).
Proof.
  intros s i n Hfree Hx. unfold put_prev_body.
  rewrite (bind_done _ _ _ _ _ (task_at_set x i n s Hx)), andb_true_r. simpl. destruct (0 <? n).
  - exists (push_front q x (lists s)). split; [done|]. intros j. by rewrite push_front_contents.
  - exists (push_back q x (lists s)). rewrite (bind_done _ _ _ _ _ (rr_reset_run x i n s Hx)).
    split; [done|]. intros j. by rewrite push_back_contents.
Qed.

Lemma rr_migrate_inserts q x : inserts (RoundRobin m) Migrate q x (migrate_body q x).
Proof.
  apply push_back_inserts; [|done]. intros s i n Hx. unfold migrate_body.
  rewrite (bind_done _ _ _ _ _ (task_at_set x i n s Hx)). simpl. destruct (n =? 0); [|done].
  by rewrite (bind_done _ _ _ _ _ (rr_reset_run x i n s Hx)).
Qed.

(** A zero slice refuses every insertion before anything else. *)
Lemma rr_claim_run q x s :
  rr_claim m q x s = if m =? 0 then Fail InvalidTimeSlice s else claim_guard q x s.
Proof. unfold rr_claim. by destruct (m =? 0). Qed.

Lemma rr_insertion_refines reason q x (k : Op ()) s :
  in_usize m -> inserts (RoundRobin m) reason q x k -> sched_wf s ->
  (q < length (sched_ids s))%nat -> (x < length (tasks s))%nat ->
  exists r s', respond RUnit ((rr_claim m q x ;; k) s) = Some (RUnit r, s') /\ sched_wf s' /\
    (r, view s') = abstract_enqueue (RoundRobin m) reason q x (view s).
Proof.
  intros Hm Hk Hwf Hq Hx. pose proof (rr_claim_run q x s) as Hc.
  destruct (m =? 0) eqn:Hz.
  - rewrite (bind_fail _ _ _ _ _ Hc). unfold abstract_enqueue. simpl. rewrite Hz. simpl. eauto.
  - assert ((rr_claim m q x ;; k) s = (claim_guard q x ;; k) s) as ->
      by (unfold mbind, M_bind; by rewrite Hc).
    apply insertion_refines; simpl; try done. by rewrite Hz.
Qed.

End RoundRobin.

Lemma fifo_add_run q x s :
  fifo_add_task q x s = (claim_guard q x ;; modify_lists (push_back q x)) s.
Proof. unfold fifo_add_task, claim_guard, mbind, M_bind. by destruct (ensure_id q s). Qed.

(** Every way of inserting a task. *)
Lemma enqueue_refines p reason q x s :
  policy_valid p -> sched_wf s -> (q < length (sched_ids s))%nat -> (x < length (tasks s))%nat ->
  exists r s', respond RUnit (base_enqueue_task (scheduler p) q x reason s) = Some (RUnit r, s') /\
    sched_wf s' /\ (r, view s') = abstract_enqueue p reason q x (view s).
Proof.
  intros Hp Hwf Hq Hx. destruct p as [|m]; simpl.
  - assert (default_enqueue_task fifo_add_task fifo_put_prev_task q x reason s =
      (claim_guard q x ;; modify_lists (push_back q x)) s) as ->.
    { rewrite <- fifo_add_run. by destruct reason. }
    apply insertion_refines; try done. apply fifo_add_inserts.
  - destruct reason; apply rr_insertion_refines; try done.
    + apply rr_add_inserts. by left.
    + apply rr_add_inserts. by right.
    + apply rr_yield_inserts.
    + apply rr_preempt_inserts.
    + apply rr_migrate_inserts.
Qed.

(** Adding is enqueueing a new task, putting back is yielding or being preempted. *)
Lemma add_is_enqueue p q x s :
  base_add_task (scheduler (L := L) p) q x s = base_enqueue_task (scheduler p) q x New s.
Proof. by destruct p. Qed.
Lemma put_is_enqueue p q x preempt s :
  base_put_prev_task (scheduler (L := L) p) q x preempt s =
  base_enqueue_task (scheduler p) q x (if preempt then Preempt else Yield) s.
Proof. by destruct p, preempt. Qed.

(** ** Removals *)

Lemma task_release_run s x i t :
  tasks s !! x = Some t -> queue_owner t = i ->
  task_release x i s = Done tt (set_task x (mkTask UNOWNED (time_slice t)) s).
Proof.
  intros Ht Ho. unfold task_release. rewrite (bind_done _ _ _ _ _ (task_at_run s x t Ht)).
  by rewrite Ho, Z.eqb_refl.
Qed.

(** The word and the identity agree for a linked task. *)
Lemma release_linked s l q x :
  sched_wf s -> x ∈ linked s q ->
  exists i t, sched_ids s !! q = Some i /\ i <> UNOWNED /\ tasks s !! x = Some t /\ queue_owner t = i /\
    (i ← id_of q; task_release x i) (set_lists l s) = Done tt (linked_in l x UNOWNED (time_slice t) s).
Proof.
  intros Hwf Hx. destruct (wf_linked s Hwf q x Hx) as (i & t & Hi & Hn & Ht & Ho).
  exists i, t. split_and!; try done.
  rewrite (bind_done _ _ _ _ _ (id_of_run (set_lists l s) q i Hi)).
  by rewrite (task_release_run (set_lists l s) x i t Ht Ho).
Qed.

Lemma view_unlinked l x n s q new t :
  (q < length (sched_ids s))%nat -> tasks s !! x = Some t -> time_slice t = n ->
  (forall j, Sched.contents l j = on_list q new (linked s) j) ->
  view (linked_in l x UNOWNED n s) = set_queue q new (view s).
Proof.
  intros Hq Ht <- Hl. rewrite (view_linked_in _ _ _ _ _ _ _ Hq Hl). unfold set_slice, set_queue. simpl.
  f_equal. apply list_insert_id. by rewrite list_lookup_fmap, Ht.
Qed.

(** The cursor loop finds the task within the length of the list. *)
Lemma remove_from_run fuel s q x k n c :
  sched_wf s -> linked s q !! k = Some x -> (n <= k)%nat -> (k - n < fuel)%nat ->
  cursor_at c (lists s) q n ->
  exists l t, tasks s !! x = Some t /\
    remove_from fuel q x c s = Done (Some x) (linked_in l x UNOWNED (time_slice t) s) /\
    forall j, Sched.contents l j = on_list q (take k (linked s q) ++ drop (S k) (linked s q)) (linked s) j.
Proof.
  intros Hwf Hk. assert (k < length (linked s q))%nat as Hlen by (apply lookup_lt_is_Some; eauto).
  revert n c. induction fuel as [|fuel IH]; intros n c Hn Hf Hc; [lia|]. simpl.
  rewrite (bind_done _ _ s s s) by done. rewrite (current_at c (lists s) q n Hc).
  destruct (decide (n = k)) as [->|Hne].
  - rewrite (bool_decide_eq_true_2 _ Hk).
    destruct (remove_current c (lists s)) as [removed l] eqn:Hrem.
    pose proof (remove_current_result c (lists s) q k Hc) as Hres.
    pose proof (fun j => remove_current_contents c (lists s) q k j Hc Hlen) as Hcont.
    rewrite Hrem in Hres, Hcont. simpl in Hres, Hcont. fold (linked s q) in Hres. rewrite Hk in Hres. subst.
    destruct (release_linked s l q x Hwf) as (i & t & _ & _ & Ht & _ & Hrun);
      [eapply list_elem_of_lookup_2; eauto|].
    exists l, t. split; [done|]. split; [|done].
    rewrite (bind_done _ _ s tt (set_lists l s)) by done.
    rewrite (bind_done _ _ (set_lists l s) x (set_lists l s)) by done.
    unfold mbind, M_bind in Hrun |- *. destruct (id_of q (set_lists l s)); try done.
    by rewrite Hrun.
  - assert (n < length (linked s q))%nat as [y Hy]%lookup_lt_is_Some by lia. unfold linked in Hy.
    rewrite Hy. rewrite bool_decide_eq_false_2.
    2:{ intros [= ->]. apply Hne. by apply (NoDup_lookup (linked s q) n k x (wf_nodup s Hwf q)). }
    rewrite (bind_done _ _ s tt s) by done. apply (IH (S n)); [lia|lia|].
    apply move_next_at; [done|]. fold (linked s q). lia.
Qed.

Lemma remove_refines q x s :
  sched_wf s -> (q < length (sched_ids s))%nat -> (x < length (tasks s))%nat ->
  exists r s', respond RItem (remove_task q x s) = Some (RItem r, s') /\ sched_wf s' /\
    (r, view s') = abstract_remove q x (view s).
Proof.
  intros Hwf Hq Hx. pose proof Hq as [i Hi]%lookup_lt_is_Some. apply lookup_lt_is_Some in Hx as [t Ht].
  unfold remove_task, abstract_remove. rewrite (bind_done _ _ _ _ _ (task_at_run s x t Ht)).
  rewrite (bind_done _ _ _ _ _ (id_of_run s q i Hi)).
  destruct (Z.eqb_spec (queue_owner t) UNOWNED) as [Ho|Ho].
  { rewrite (proj1 (owner_of_free s x t Hwf Ht Ho)). simpl. eauto. }
  destruct (wf_owned s Hwf x t Ht Ho) as [q' Hq'].
  rewrite (owner_of_linked s q' x Hwf Hq').
  destruct (wf_linked s Hwf q' x Hq') as (i' & t' & Hi' & Hn' & Ht' & Ho').
  assert (queue_owner t = i') as Hoi by congruence.
  case_decide as Hdec; [subst q'|].
  - assert (i' = i) as -> by congruence. rewrite Hoi, Z.eqb_refl. cbn [negb orb].
    destruct (Z.eqb_spec i UNOWNED) as [|_]; [done|].
    rewrite (bind_done _ _ s s s) by done. apply list_elem_of_lookup_1 in Hq' as [k Hk].
    destruct (remove_from_run (S (length (tasks s))) s q x k 0 (cursor_front_mut q (lists s)))
      as (l & u & Hu & -> & Hl); [done|done|lia| |apply cursor_front_at|].
    { pose proof (linked_length s q Hwf). pose proof (lookup_lt_Some _ _ _ Hk). lia. }
    assert (linked s q ≡ₚ x :: (take k (linked s q) ++ drop (S k) (linked s q))) as Hperm.
    { rewrite <- (take_drop_middle _ _ _ Hk) at 1. symmetry. apply Permutation_middle. }
    simpl. eexists _, _. split; [done|]. split; [by eapply unlink_wf|].
    rewrite (view_unlinked _ _ _ _ _ _ _ Hq Hu eq_refl Hl), (queue_view s q Hq).
    by rewrite (filter_ne_nodup _ k x (wf_nodup s Hwf q) Hk).
  - assert (queue_owner t <> i) as Hne.
    { intros Heq. apply Hdec. apply (wf_ids s Hwf q' q i'); congruence. }
    destruct (Z.eqb_spec (queue_owner t) i) as [|_]; [done|]. simpl. eauto.
Qed.

(** One pop: the head is unlinked and released. *)
Lemma pick_run s q :
  sched_wf s ->
  exists s', pick_next_task q s = Done (head (linked s q)) s' /\ sched_wf s' /\
    sched_ids s' = sched_ids s /\ length (tasks s') = length (tasks s) /\
    (forall j, linked s' j = on_list q (tail (linked s q)) (linked s) j) /\
    ((q < length (sched_ids s))%nat -> view s' = set_queue q (tail (linked s q)) (view s)).
Proof.
  intros Hwf. unfold pick_next_task. rewrite (bind_done _ _ s s s) by done.
  destruct (pop_front q (lists s)) as [popped l] eqn:Hpop.
  pose proof (pop_front_result q (lists s)) as Hres.
  pose proof (pop_front_contents q (lists s)) as Hcont. rewrite Hpop in Hres, Hcont. simpl in Hres, Hcont.
  fold (linked s q) in Hres, Hcont. rewrite (bind_done _ _ s tt (set_lists l s)) by done. subst.
  destruct (linked s q) as [|x rest] eqn:Hlk; simpl in *.
  - assert (forall j, linked (set_lists l s) j = linked s j) as Heq.
    { intros j. unfold linked at 1. simpl. rewrite Hcont. destruct (decide (j = q)) as [->|Hj].
      - by rewrite on_list_eq, Hlk.
      - by rewrite on_list_ne. }
    exists (set_lists l s). split; [done|]. split.
    { split; try apply Hwf; intros j; setoid_rewrite Heq; apply Hwf. }
    split; [done|]. split; [done|]. split; [done|]. intros Hq.
    unfold view, set_queue. simpl. f_equal. rewrite <- (seq_fmap_on_list (linked s) q [] _ Hq).
    apply list_fmap_ext. intros _ j _. apply Hcont.
  - destruct (release_linked s l q x Hwf) as (i & t & Hi & Hn & Ht & Ho & Hrun); [rewrite Hlk; set_solver|].
    exists (linked_in l x UNOWNED (time_slice t) s).
    split; [unfold mbind, M_bind in Hrun |- *; destruct (id_of q (set_lists l s)); try done; by rewrite Hrun|].
    split; [eapply unlink_wf; [done|done|by rewrite Hlk|exact Hcont]|].
    split; [done|]. split; [apply length_insert|]. split; [done|].
    intros Hq. by apply (view_unlinked _ _ _ _ _ _ t).
Qed.

(** The drop loop empties the queue within its bound. *)
Lemma drain_run fuel s q :
  sched_wf s -> (q < length (sched_ids s))%nat -> (length (linked s q) < fuel)%nat ->
  exists s', drain fuel q s = Done tt s' /\ sched_wf s' /\ view s' = set_queue q [] (view s).
Proof.
  revert s. induction fuel as [|fuel IH]; intros s Hwf Hq Hlen; [lia|]. simpl.
  destruct (pick_run s q Hwf) as (s1 & Hrun & Hwf1 & Hids & Hts & Hl1 & Hv1).
  rewrite (bind_done _ _ _ _ _ Hrun). specialize (Hv1 Hq).
  destruct (linked s q) as [|x rest] eqn:Hlk; simpl in *; [by exists s1|].
  destruct (IH s1) as (s2 & -> & Hwf2 & Hv2); [done|by rewrite Hids|rewrite Hl1, on_list_eq; lia|].
  exists s2. split; [done|]. split; [done|]. rewrite Hv2, Hv1. unfold set_queue. simpl.
  by rewrite list_insert_insert_eq.
Qed.

(** ** Ticks *)

Lemma slice_view s x t : tasks s !! x = Some t -> slice (view s) x = time_slice t.
Proof. intros Ht. unfold slice. simpl. by rewrite list_lookup_fmap, Ht. Qed.

Lemma rr_tick_run m s x t :
  tasks s !! x = Some t ->
  rr_task_tick x s = Done (time_slice t <=? 1)
    (set_task x (mkTask (queue_owner t) (Z.max 0 (time_slice t - 1))) s) /\
  view (set_task x (mkTask (queue_owner t) (Z.max 0 (time_slice t - 1))) s) =
    (abstract_account (RoundRobin m) x 1 (view s)).2.
Proof.
  intros Ht. split.
  - unfold rr_task_tick. by rewrite (bind_done _ _ _ _ _ (task_at_run s x t Ht)).
  - simpl. rewrite (slice_view s x t Ht). unfold view, set_slice. simpl. by rewrite list_fmap_insert.
Qed.

Lemma tick_refines p x s :
  sched_wf s -> (x < length (tasks s))%nat ->
  exists b s', base_task_tick (scheduler p) x s = Done b s' /\ sched_wf s' /\
    length (tasks s') = length (tasks s) /\ (b, view s') = abstract_account p x 1 (view s).
Proof.
  intros Hwf [t Ht]%lookup_lt_is_Some. destruct p as [|m]; simpl; [by exists false, s|].
  destruct (rr_tick_run m s x t Ht) as [Hrun Hv]. eexists _, _. split; [exact Hrun|].
  split; [apply set_slice_wf; [done|done|lia]|]. split; [apply length_insert|].
  rewrite Hv. simpl. by rewrite (slice_view s x t Ht).
Qed.

Lemma slice_set_slice x n (v : Queues) : (x < length (slices v))%nat -> slice (set_slice x n v) x = n.
Proof. intros Hx. unfold slice. simpl. by rewrite list_lookup_insert_eq. Qed.

(** [n] ticks in a row are one accounting of [n] periods. *)
Lemma account_step p x n (v : Queues) b1 v1 b2 v2 :
  0 <= n -> 0 <= slice v x -> (x < length (slices v))%nat ->
  abstract_account p x 1 v = (b1, v1) -> abstract_account p x n v1 = (b2, v2) ->
  abstract_account p x (1 + n) v = (b1 || b2, v2).
Proof.
  destruct p as [|m]; simpl; [by intros _ _ _ [= <- <-] [= <- <-]|].
  intros Hn Hs Hx [= <- <-]. rewrite (slice_set_slice x _ v Hx). intros [= <- <-].
  unfold set_slice. simpl. rewrite list_insert_insert_eq.
  replace (Z.max 0 (Z.max 0 (slice v x - 1) - n)) with (Z.max 0 (slice v x - (1 + n))) by lia. f_equal.
  destruct (Z.leb_spec (slice v x) 1), (Z.ltb_spec 0 n), (Z.ltb_spec 0 (1 + n)),
    (Z.leb_spec (slice v x) (1 + n)), (Z.leb_spec (Z.max 0 (slice v x - 1)) n); simpl; first [done | exfalso; lia].
Qed.

Lemma account_refines p x n reschedule s :
  sched_wf s -> (x < length (tasks s))%nat ->
  exists b s', account_periods (scheduler p) n x reschedule s = Done (reschedule || b) s' /\ sched_wf s' /\
    (b, view s') = abstract_account p x (Z.of_nat n) (view s).
Proof.
  revert s reschedule. induction n as [|n IH]; intros s reschedule Hwf Hx; cbn [account_periods].
  - exists false, s. rewrite orb_false_r. split; [done|]. split; [done|].
    destruct p as [|m]; [done|]. simpl. f_equal. apply lookup_lt_is_Some in Hx as [t Ht].
    rewrite (slice_view s x t Ht). pose proof (wf_slice s Hwf x t Ht). unfold set_slice.
    rewrite Z.max_r, Z.sub_0_r by lia. rewrite list_insert_id; [done|].
    simpl. by rewrite list_lookup_fmap, Ht.
  - destruct (tick_refines p x s Hwf Hx) as (b1 & s1 & Hrun & Hwf1 & Hlen & Ha1).
    rewrite (bind_done _ _ _ _ _ Hrun).
    destruct (IH s1 (reschedule || b1) Hwf1) as (b2 & s2 & -> & Hwf2 & Ha2); [by rewrite Hlen|].
    exists (b1 || b2), s2. rewrite orb_assoc. split; [done|]. split; [done|].
    rewrite Nat2Z.inj_succ, <- Z.add_1_l. symmetry. eapply account_step; [lia| | |by symmetry..].
    + apply lookup_lt_is_Some in Hx as [t Ht]. rewrite (slice_view s x t Ht). by apply (wf_slice s Hwf x).
    + simpl. by rewrite length_fmap.
Qed.

(** ** All operations *)

Lemma new_task_refines s n :
  sched_wf s -> 0 <= n ->
  let s' := mkSched (lists s) (tasks s ++ [mkTask UNOWNED n]) (sched_ids s) (next_scheduler_id s) in
  sched_wf s' /\ slices (view s') = slices (view s) ++ [n].
Proof.
  intros Hwf Hn. split; [|simpl; by rewrite fmap_app].
  assert (forall x t, (tasks s ++ [mkTask UNOWNED n]) !! x = Some t ->
    tasks s !! x = Some t \/ t = mkTask UNOWNED n) as Hcase.
  { intros x t [Ht|[_ Ht]]%lookup_app_Some; [by left|]. right. by apply list_lookup_singleton_Some in Ht as [_ <-]. }
  split; try apply Hwf; simpl.
  - intros q x (i & t & ? & ? & Ht & ?)%(wf_linked s Hwf). exists i, t. split_and!; try done.
    by apply lookup_app_l_Some.
  - intros x t [Ht| ->]%Hcase Ho; [by eapply (wf_owned s Hwf)|done].
  - intros x t [Ht| ->]%Hcase; [by apply (wf_slice s Hwf x)|done].
Qed.

Lemma new_scheduler_refines s :
  sched_wf s -> sched_wf (scheduler_new s) /\ queues (view (scheduler_new s)) = queues (view s) ++ [[]].
Proof.
  intros Hwf. split.
  - assert (forall q i, (sched_ids s ++ [UNOWNED]) !! q = Some i ->
      sched_ids s !! q = Some i \/ i = UNOWNED) as Hcase.
    { intros q i [Hi|[_ Hi]]%lookup_app_Some; [by left|]. right. by apply list_lookup_singleton_Some in Hi as [_ <-]. }
    split; try apply Hwf; simpl.
    + intros q i [Hi| ->]%Hcase; [by apply (wf_id s Hwf q)|]. pose proof (wf_next s Hwf). unfold UNOWNED. lia.
    + intros q1 q2 i [H1| ->]%Hcase [H2|H2]%Hcase Hn; try done. by apply (wf_ids s Hwf q1 q2 i).
    + intros q x (i & t & ? & ?)%(wf_linked s Hwf). exists i, t. split; [|done]. by apply lookup_app_l_Some.
  - simpl. rewrite length_app, seq_app, fmap_app. simpl. f_equal. f_equal. by apply (linked_unnamed s).
Qed.

(** The refinement, one operation at a time. *)
Lemma sched_execute_refines p op s :
  policy_valid p -> sched_wf s -> op_valid p op s ->
  exists r s', sched_execute p op s = Some (r, s') /\ sched_wf s' /\
    (r, view s') = abstract_op p op (view s).
Proof.
  intros Hp Hwf Hop. destruct op as [| |q x|q x b|q x reason|q x|q x|q|q|x|x d|q x reason|x prio]; simpl in Hop.
  - destruct p as [|m]; simpl.
    + destruct (new_task_refines s 0 Hwf) as [? Hs]; [lia|]. eexists _, _. split; [done|]. split; [done|].
      simpl in Hs. unfold view. simpl. by rewrite Hs.
    + destruct (new_task_refines s m Hwf) as [? Hs]; [by destruct Hp|]. eexists _, _. split; [done|]. split; [done|].
      simpl in Hs. unfold view. simpl. by rewrite Hs.
  - destruct (new_scheduler_refines s Hwf) as [? Hs]. eexists _, _. split; [done|]. split; [done|].
    simpl. simpl in Hs. unfold view. simpl. by rewrite Hs, fmap_app.
  - destruct (enqueue_refines p New q x s Hp Hwf) as (r & s' & Hrun & ? & Ha); [naive_solver..|].
    unfold sched_execute. rewrite add_is_enqueue, Hrun. eexists _, _. split; [done|]. split; [done|].
    simpl. by rewrite <- Ha.
  - destruct (enqueue_refines p (if b then Preempt else Yield) q x s Hp Hwf)
      as (r & s' & Hrun & ? & Ha); [naive_solver..|].
    unfold sched_execute. rewrite put_is_enqueue, Hrun. eexists _, _. split; [done|]. split; [done|].
    cbn [abstract_op]. by rewrite <- Ha.
  - destruct (enqueue_refines p reason q x s Hp Hwf) as (r & s' & Hrun & ? & Ha); [naive_solver..|].
    unfold sched_execute. rewrite Hrun. eexists _, _. split; [done|]. split; [done|].
    simpl. by rewrite <- Ha.
  - destruct (remove_refines q x s Hwf) as (r & s' & Hrun & ? & Ha); [naive_solver..|].
    exists (RItem r), s'. split; [destruct p; exact Hrun|]. split; [done|]. simpl. by rewrite <- Ha.
  - destruct (remove_refines q x s Hwf) as (r & s' & Hrun & ? & Ha); [naive_solver..|].
    exists (RItem r), s'. split; [destruct p; exact Hrun|]. split; [done|]. simpl. by rewrite <- Ha.
  - destruct (pick_run s q Hwf) as (s' & Hrun & ? & _ & _ & _ & Hv). exists (RItem (Ok (head (linked s q)))), s'.
    split; [destruct p; simpl; by rewrite Hrun|]. split; [done|]. simpl. by rewrite (queue_view s q Hop), Hv.
  - destruct (drain_run (S (length (tasks s))) s q Hwf Hop) as (s' & Hrun & ? & Hv).
    { pose proof (linked_length s q Hwf). lia. }
    exists RNothing, s'. split; [|split; [done|simpl; by rewrite Hv]].
    simpl. unfold drop_scheduler. rewrite (bind_done _ _ s s s) by done. by rewrite Hrun.
  - destruct (tick_refines p x s Hwf Hop) as (b & s' & Hrun & ? & _ & Ha). exists (RFlag b), s'.
    split; [simpl; by rewrite Hrun|]. split; [done|]. cbn [abstract_op]. by rewrite <- Ha.
  - destruct Hop as (Hx & He & Hpd).
    destruct (account_refines p x (Z.to_nat (RuntimeDelta.whole_periods d)) false s Hwf Hx)
      as (b & s' & Hrun & ? & Ha). exists (RFlag b), s'.
    rewrite Z2Nat.id in Ha by (apply Z.div_pos; lia).
    split; [simpl; unfold account_runtime; by rewrite Hrun|]. split; [done|].
    cbn [abstract_op]. by rewrite <- Ha.
  - by exists RNothing, s.
  - exists (RUnit (Err UnsupportedOperation)), s. by destruct p.
Qed.

End Refinement.
