(* ===== verification/SchedVerified.v ===== *)
(** Schedulers, part 5: the guarantees of the FIFO and round-robin schedulers
    over every history of operations, and concrete histories that witness them.

    The theorems hold for every implementation of the linked lists that has the
    laws of [LinkedLists]; the witnesses run on ordinary lists. *)

From S2P Require Import Prelude Effects Atomics Sched SchedSpec SchedRefinement.
Local Open Scope Z_scope.

Section Histories.
Context {L : Type} `{LinkedListLaws L}.
Local Abbreviation Sched := (Sched L).
Local Abbreviation Op A := (M Sched SchedulerError A).
Implicit Types (s : Sched) (q x : nat) (p : Policy).

Inductive sched_history p : Sched -> list (sched_op * sched_response) -> Sched -> Prop :=
| sched_history_nil s : sched_history p s [] s
| sched_history_cons s op r s1 h s2 :
    op_valid p op s -> sched_execute p op s = Some (r, s1) -> sched_history p s1 h s2 ->
    sched_history p s ((op, r) :: h) s2.

Definition sched_reachable p s : Prop := exists h, sched_history p sched_boot h s.

Lemma sched_boot_wf : sched_wf sched_boot.
Proof.
  assert (forall q, linked sched_boot q = []) as Hl by (intros q; apply no_tasks_contents).
  split; simpl; try done.
  - intros q x. rewrite Hl. set_solver.
  - intros q. rewrite Hl. constructor.
Qed.

Lemma history_step p s op r s1 :
  policy_valid p -> sched_wf s -> op_valid p op s -> sched_execute p op s = Some (r, s1) ->
  sched_wf s1 /\ (r, view s1) = abstract_op p op (view s).
Proof.
  intros Hp Hwf Hop Hrun. destruct (sched_execute_refines p op s Hp Hwf Hop) as (r' & s' & Hrun' & ? & ?).
  rewrite Hrun in Hrun'. by simplify_eq.
Qed.

Lemma sched_history_wf p s h s' :
  policy_valid p -> sched_wf s -> sched_history p s h s' -> sched_wf s'.
Proof.
  intros Hp Hwf Hh. induction Hh as [|s op r s1 h s2 Hop Hrun _ IH]; [done|].
  apply IH. by apply (history_step p s op r s1).
Qed.

Lemma sched_reachable_wf p s : policy_valid p -> sched_reachable p s -> sched_wf s.
Proof. intros Hp [h Hh]. eapply sched_history_wf; [done|apply sched_boot_wf|exact Hh]. Qed.

Lemma queue_set_eq q l (v : Queues) : (q < length (queues v))%nat -> queue (set_queue q l v) q = l.
Proof. intros Hq. unfold queue. simpl. by rewrite list_lookup_insert_eq. Qed.
Lemma queue_set_ne q q' l (v : Queues) : q' <> q -> queue (set_queue q l v) q' = queue v q'.
Proof. intros Hq. unfold queue. simpl. by rewrite list_lookup_insert_ne. Qed.
Lemma length_queues s : length (queues (view s)) = length (sched_ids s).
Proof. simpl. by rewrite length_fmap, length_seq. Qed.
Lemma queue_set_slice q x n (v : Queues) : queue (set_slice x n v) q = queue v q.
Proof. done. Qed.
Lemma queue_take_name q q' (v v' : Queues) :
  take_name q v = Some v' -> queue v' q' = queue v q' /\ length (queues v') = length (queues v).
Proof. intros [Hq _]%take_name_queues. unfold queue. by rewrite Hq. Qed.

(** What an insertion does to any queue. *)
Lemma enqueue_queue p reason q x (v v' : Queues) r j :
  (q < length (queues v))%nat -> abstract_enqueue p reason q x v = (r, v') ->
  queue v' j = match r with
    | Ok _ => if decide (j = q) then (placement p reason (slice v x) x (queue v q)).1 else queue v j
    | Err _ => queue v j
    end.
Proof.
  intros Hq. unfold abstract_enqueue. destruct (negb (accepts p)); [by intros [= <- <-]|].
  destruct (take_name q v) as [v1|] eqn:Hv; [|by intros [= <- <-]].
  destruct (queue_take_name q j v v1 Hv) as [Hj Hlen].
  destruct (owner_of v x) as [q'|]; [by intros [= <- <-]|].
  destruct (placement p reason (slice v x) x (queue v q)) as [l n]. intros [= <- <-]. simpl.
  case_decide as Hd; [subst; apply queue_set_eq; simpl; lia|].
  by rewrite queue_set_ne, queue_set_slice.
Qed.

(** C36: on every reachable state, every operation of the FIFO and of the
    round-robin scheduler with valid references returns, without panic or
    endless loop, and acts exactly as the abstract queues do: the response, the
    queues, the slices and the naming of schedulers are those of
    [abstract_op]. *)
Theorem scheduler_operations_refine_queues p s op :
  policy_valid p -> sched_reachable p s -> op_valid p op s ->
  exists r s', sched_execute p op s = Some (r, s') /\ (r, view s') = abstract_op p op (view s).
Proof.
  intros Hp Hreach Hop.
  destruct (sched_execute_refines p op s Hp (sched_reachable_wf p s Hp Hreach) Hop)
    as (r & s' & Hrun & _ & Ha). by exists r, s'.
Qed.

(** An operation that takes [x] out of queue [q], with its response. *)
Definition takes_out (op : sched_op) (r : sched_response) q x : Prop :=
  ((op = ORemove q x \/ op = OMigrateOut q x \/ op = OPick q) /\ r = RItem (Ok (Some x))) \/
  op = ODrop q.

Lemma remove_queue q x (v v' : Queues) r j :
  (q < length (queues v))%nat -> abstract_remove q x v = (r, v') ->
  queue v' j = match r with
    | Ok (Some _) => if decide (j = q) then filter (fun y => y <> x) (queue v q) else queue v j
    | _ => queue v j
    end /\ (forall y, r = Ok (Some y) -> y = x).
Proof.
  intros Hq. unfold abstract_remove. destruct (owner_of v x) as [q'|]; [|by intros [= <- <-]].
  destruct (decide (q' = q)) as [->|]; intros [= <- <-]; [|done]. split; [|by intros y [= ->]].
  case_decide; [subst; by apply queue_set_eq|by apply queue_set_ne].
Qed.

Lemma placement_keeps p reason n x y (l : list nat) : y ∈ l -> y ∈ (placement p reason n x l).1.
Proof. intros Hy. rewrite placement_perm. set_solver. Qed.

(** A queued task stays unless an operation takes it out. *)
Lemma queued_stays p op r (v v' : Queues) q x :
  (r, v') = abstract_op p op v -> x ∈ queue v q -> NoDup (queue v q) ->
  (forall j, j ∈ (match op with OAdd j _ | OPut j _ _ | OEnqueue j _ _ | ORemove j _ | OMigrateOut j _
     | OPick j | ODrop j => [j] | _ => [] end : list nat) -> (j < length (queues v))%nat) ->
  x ∈ queue v' q \/ takes_out op r q x.
Proof.
  intros Ha Hx Hnd Hval.
  assert (forall reason j y (r : result unit SchedulerError), (j < length (queues v))%nat ->
    (r, v') = abstract_enqueue p reason j y v -> x ∈ queue v' q) as Henq.
  { intros reason j y r' Hj Hr. rewrite (enqueue_queue p reason j y v v' r' q Hj) by done.
    destruct r'; [|done]. case_decide; [subst|done]. by apply placement_keeps. }
  assert (forall j y r', (j < length (queues v))%nat -> (r', v') = abstract_remove j y v ->
    x ∈ queue v' q \/ (j = q /\ y = x /\ r' = Ok (Some x))) as Hrem.
  { intros j y r' Hj Hr. destruct (remove_queue j y v v' r' q Hj) as [-> Hsame]; [done|].
    destruct r' as [[z|]|]; [|by left..]. rewrite (Hsame z eq_refl). case_decide; [subst|by left].
    destruct (decide (x = y)) as [->|]; [by right|]. left. apply list_elem_of_filter. done. }
  destruct op as [| |j y|j y b|j y reason|j y|j y|j|j|y|y d|j y reason|y prio]; cbn [abstract_op] in Ha.
  - left. by apply pair_equal_spec in Ha as [-> ->].
  - left. apply pair_equal_spec in Ha as [-> ->]. unfold queue in *. simpl.
    destruct (queues v !! q) as [l|] eqn:Hl; [|simpl in Hx; set_solver]. by rewrite (lookup_app_l_Some _ _ _ _ Hl).
  - left. destruct (abstract_enqueue p New j y v) as [r1 v1] eqn:He. apply pair_equal_spec in Ha as [-> ->].
    eapply Henq; [|by symmetry]. apply Hval. set_solver.
  - left. destruct (abstract_enqueue p _ j y v) as [r1 v1] eqn:He. apply pair_equal_spec in Ha as [-> ->].
    eapply Henq; [|by symmetry]. apply Hval. set_solver.
  - left. destruct (abstract_enqueue p reason j y v) as [r1 v1] eqn:He. apply pair_equal_spec in Ha as [-> ->].
    eapply Henq; [|by symmetry]. apply Hval. set_solver.
  - destruct (abstract_remove j y v) as [r1 v1] eqn:He. apply pair_equal_spec in Ha as [-> ->].
    destruct (Hrem j y r1) as [|(-> & -> & ->)]; [apply Hval; set_solver|done|by left|].
    right. left. auto.
  - destruct (abstract_remove j y v) as [r1 v1] eqn:He. apply pair_equal_spec in Ha as [-> ->].
    destruct (Hrem j y r1) as [|(-> & -> & ->)]; [apply Hval; set_solver|done|by left|].
    right. left. auto.
  - apply pair_equal_spec in Ha as [-> ->]. destruct (decide (q = j)) as [->|Hne]; [|left; by rewrite queue_set_ne].
    rewrite queue_set_eq by (apply Hval; set_solver).
    destruct (queue v j) as [|z l]; [set_solver|]. simpl. apply elem_of_cons in Hx as [->|Hx]; [|by left].
    right. left. auto.
  - apply pair_equal_spec in Ha as [-> ->]. destruct (decide (q = j)) as [->|Hne]; [|left; by rewrite queue_set_ne].
    right. by right.
  - left. destruct p; simpl in Ha; apply pair_equal_spec in Ha as [-> ->]; done.
  - left. destruct p; simpl in Ha; apply pair_equal_spec in Ha as [-> ->]; done.
  - left. by apply pair_equal_spec in Ha as [-> ->].
  - left. by apply pair_equal_spec in Ha as [-> ->].
Qed.

(** A queued task has exactly one owner. It is linked once, in one queue,
    whose identity is its owner word; inserting it anywhere is refused as
    [AlreadyQueued] or [ForeignQueue] (or for want of a name or a valid slice),
    removing it from another queue as [ForeignQueue]; and only the operations
    of its own queue that return it, or the drop of that queue, unlink it. *)
Theorem queued_task_has_one_owner p s q x op r s' :
  policy_valid p -> sched_reachable p s -> x ∈ queue (view s) q ->
  op_valid p op s -> sched_execute p op s = Some (r, s') ->
  (exists i t, sched_ids s !! q = Some i /\ tasks s !! x = Some t /\ queue_owner t = i /\ i <> UNOWNED) /\
  NoDup (queue (view s) q) /\ (forall q', x ∈ queue (view s) q' -> q' = q) /\
  (forall q' reason, op = OEnqueue q' x reason -> exists e, r = RUnit (Err e) /\
     (e = InvalidTimeSlice \/ e = IdentifierExhausted \/ e = if decide (q' = q) then AlreadyQueued else ForeignQueue)) /\
  (forall q', op = ORemove q' x -> q' <> q -> r = RItem (Err ForeignQueue)) /\
  (x ∈ queue (view s') q \/ takes_out op r q x).
Proof.
  intros Hp Hreach Hx Hop Hrun. pose proof (sched_reachable_wf p s Hp Hreach) as Hwf.
  destruct (history_step p s op r s' Hp Hwf Hop Hrun) as [_ Ha].
  assert (forall q', x ∈ queue (view s) q' -> x ∈ linked s q' /\ (q' < length (sched_ids s))%nat) as Hin.
  { intros q' Hx'. destruct (decide (q' < length (sched_ids s))%nat) as [Hlt|Hge].
    - by rewrite queue_view in Hx'.
    - unfold queue in Hx'. rewrite lookup_ge_None_2 in Hx'; [simpl in Hx'; set_solver|].
      rewrite length_queues. lia. }
  destruct (Hin q Hx) as [Hxq Hq].
  assert (owner_of (view s) x = Some q) as Hown by (by apply owner_of_linked).
  split. { destruct (wf_linked s Hwf q x Hxq) as (i & t & ? & ? & ? & ?). by exists i, t. }
  split. { rewrite queue_view by done. apply (wf_nodup s Hwf). }
  split. { intros q' Hx'. by apply (linked_once s q' q x Hwf); [apply Hin|]. }
  split.
  { intros q' reason ->. cbn [abstract_op] in Ha. unfold abstract_enqueue in Ha. rewrite Hown in Ha.
    destruct (negb (accepts p)); [apply pair_equal_spec in Ha as [-> _]; eauto|].
    destruct (take_name q' (view s)); apply pair_equal_spec in Ha as [-> _]; [|eauto].
    eexists. split; [done|]. right. right. by destruct (decide (q = q')), (decide (q' = q)); subst. }
  split.
  { intros q' -> Hne. cbn [abstract_op] in Ha. unfold abstract_remove in Ha. rewrite Hown in Ha.
    rewrite decide_False in Ha by congruence. by apply pair_equal_spec in Ha as [-> _]. }
  eapply queued_stays; [exact Ha|done| |].
  - rewrite queue_view by done. apply (wf_nodup s Hwf).
  - intros j Hj. rewrite length_queues.
    destruct op; simpl in Hop, Hj; apply list_elem_of_singleton in Hj || (by apply elem_of_nil in Hj);
      subst; naive_solver.
Qed.

(** ** FIFO order *)

(** Tasks a history puts into queue [q], and tasks it picks from it. *)
Definition enqueued_by q (e : sched_op * sched_response) : list nat :=
  match e with
  | ((OAdd j x | OPut j x _ | OEnqueue j x _), RUnit (Ok _)) => if decide (j = q) then [x] else []
  | _ => []
  end.
Definition picked_by q (e : sched_op * sched_response) : list nat :=
  match e with
  | (OPick j, RItem (Ok (Some x))) => if decide (j = q) then [x] else []
  | _ => []
  end.

(** No removal by name and no drop of queue [q]. *)
Definition only_picks q (e : sched_op * sched_response) : Prop :=
  match e.1 with ORemove j _ | OMigrateOut j _ | ODrop j => j <> q | _ => True end.

Lemma fifo_step_order q op r s s1 :
  sched_wf s -> op_valid Fifo op s -> (q < length (sched_ids s))%nat -> only_picks q (op, r) ->
  (r, view s1) = abstract_op Fifo op (view s) ->
  picked_by q (op, r) ++ queue (view s1) q = queue (view s) q ++ enqueued_by q (op, r).
Proof.
  intros Hwf Hop Hq Hpick Ha. rewrite <- length_queues in Hq.
  assert (forall reason j x r', (j < length (sched_ids s))%nat ->
    (r', view s1) = abstract_enqueue Fifo reason j x (view s) ->
    queue (view s1) q = queue (view s) q ++
      match r' with Ok _ => if decide (j = q) then [x] else [] | Err _ => [] end) as Henq.
  { intros reason j x r' Hj Hr. rewrite <- length_queues in Hj.
    rewrite (enqueue_queue Fifo reason j x _ _ r' q Hj) by done.
    destruct r'; [|by rewrite app_nil_r]. simpl.
    destruct (decide (q = j)), (decide (j = q)); subst; try done. by rewrite app_nil_r. }
  assert (forall j x r', (j < length (sched_ids s))%nat -> j <> q ->
    (r', view s1) = abstract_remove j x (view s) -> queue (view s1) q = queue (view s) q) as Hrem.
  { intros j x r' Hj Hne Hr. rewrite <- length_queues in Hj.
    destruct (remove_queue j x _ _ r' q Hj (eq_sym Hr)) as [-> _].
    destruct r' as [[z|]|]; try done. by rewrite decide_False. }
  destruct op as [| |j y|j y b|j y reason|j y|j y|j|j|y|y d|j y reason|y prio];
    cbn [abstract_op] in Ha; simpl in Hop, Hpick.
  - apply pair_equal_spec in Ha as [-> ->]. by rewrite app_nil_r.
  - apply pair_equal_spec in Ha as [-> ->]. simpl. rewrite app_nil_r. unfold queue. cbn [queues].
    by rewrite lookup_app_l by exact Hq.
  - destruct (abstract_enqueue Fifo New j y (view s)) as [r1 v1] eqn:He. apply pair_equal_spec in Ha as [-> Hv].
    rewrite <- Hv in He. rewrite (Henq New j y r1) by (try apply Hop; done). simpl. by destruct r1.
  - destruct (abstract_enqueue Fifo _ j y (view s)) as [r1 v1] eqn:He. apply pair_equal_spec in Ha as [-> Hv].
    rewrite <- Hv in He. rewrite (Henq _ j y r1 (proj1 Hop) (eq_sym He)). simpl. by destruct r1.
  - destruct (abstract_enqueue Fifo reason j y (view s)) as [r1 v1] eqn:He. apply pair_equal_spec in Ha as [-> Hv].
    rewrite <- Hv in He. rewrite (Henq reason j y r1 (proj1 Hop) (eq_sym He)). simpl. by destruct r1.
  - destruct (abstract_remove j y (view s)) as [r1 v1] eqn:He. apply pair_equal_spec in Ha as [-> Hv].
    rewrite <- Hv in He. rewrite (Hrem j y r1 (proj1 Hop) Hpick (eq_sym He)). by rewrite app_nil_r.
  - destruct (abstract_remove j y (view s)) as [r1 v1] eqn:He. apply pair_equal_spec in Ha as [-> Hv].
    rewrite <- Hv in He. rewrite (Hrem j y r1 (proj1 Hop) Hpick (eq_sym He)). by rewrite app_nil_r.
  - apply pair_equal_spec in Ha as [-> ->]. cbn [enqueued_by]. rewrite app_nil_r. destruct (decide (j = q)) as [->|Hne].
    + rewrite queue_set_eq by done. destruct (queue (view s) q) as [|z l]; [done|]. simpl.
      by rewrite decide_True.
    + rewrite queue_set_ne by done. simpl. destruct (head (queue (view s) j)); [|done].
      by rewrite decide_False.
  - apply pair_equal_spec in Ha as [-> ->]. rewrite queue_set_ne by done. by rewrite app_nil_r.
  - apply pair_equal_spec in Ha as [-> ->]. by rewrite app_nil_r.
  - apply pair_equal_spec in Ha as [-> ->]. by rewrite app_nil_r.
  - apply pair_equal_spec in Ha as [-> ->]. by rewrite app_nil_r.
  - apply pair_equal_spec in Ha as [-> ->]. by rewrite app_nil_r.
Qed.

Lemma execute_keeps_schedulers p op r s s1 :
  policy_valid p -> sched_wf s -> op_valid p op s -> sched_execute p op s = Some (r, s1) ->
  (length (sched_ids s) <= length (sched_ids s1))%nat.
Proof.
  intros Hp Hwf Hop Hrun. destruct (history_step p s op r s1 Hp Hwf Hop Hrun) as [_ Ha].
  rewrite <- !length_queues.
  assert (forall reason j x r', (r', view s1) = abstract_enqueue p reason j x (view s) ->
    length (queues (view s1)) = length (queues (view s))) as Henq.
  { intros reason j x r'. unfold abstract_enqueue. destruct (negb (accepts p)); [by intros [_ ->]%pair_equal_spec|].
    destruct (take_name j (view s)) as [v1|] eqn:Hv; [|by intros [_ ->]%pair_equal_spec].
    destruct (queue_take_name j 0 _ _ Hv) as [_ Hlen].
    destruct (owner_of (view s) x); [by intros [_ ->]%pair_equal_spec|].
    destruct (placement p reason _ x _) as [l n]. intros [_ ->]%pair_equal_spec.
    cbn [set_queue set_slice queues]. by rewrite length_insert. }
  assert (forall j x r', (r', view s1) = abstract_remove j x (view s) ->
    length (queues (view s1)) = length (queues (view s))) as Hrem.
  { intros j x r'. unfold abstract_remove. repeat case_match; intros [_ ->]%pair_equal_spec; try done.
    cbn [set_queue queues]. by rewrite length_insert. }
  destruct op as [| |j y|j y b|j y reason|j y|j y|j|j|y|y d|j y reason|y prio]; cbn [abstract_op] in Ha.
  - by apply pair_equal_spec in Ha as [_ ->].
  - apply pair_equal_spec in Ha as [_ ->]. cbn [queues]. rewrite length_app. lia.
  - destruct (abstract_enqueue p New j y (view s)) as [r1 v1] eqn:He. apply pair_equal_spec in Ha as [_ Hv].
    rewrite <- Hv in He. by rewrite (Henq _ _ _ _ (eq_sym He)).
  - destruct (abstract_enqueue p _ j y (view s)) as [r1 v1] eqn:He. apply pair_equal_spec in Ha as [_ Hv].
    rewrite <- Hv in He. by rewrite (Henq _ _ _ _ (eq_sym He)).
  - destruct (abstract_enqueue p reason j y (view s)) as [r1 v1] eqn:He. apply pair_equal_spec in Ha as [_ Hv].
    rewrite <- Hv in He. by rewrite (Henq _ _ _ _ (eq_sym He)).
  - destruct (abstract_remove j y (view s)) as [r1 v1] eqn:He. apply pair_equal_spec in Ha as [_ Hv].
    rewrite <- Hv in He. by rewrite (Hrem _ _ _ (eq_sym He)).
  - destruct (abstract_remove j y (view s)) as [r1 v1] eqn:He. apply pair_equal_spec in Ha as [_ Hv].
    rewrite <- Hv in He. by rewrite (Hrem _ _ _ (eq_sym He)).
  - apply pair_equal_spec in Ha as [_ ->]. cbn [set_queue queues]. by rewrite length_insert.
  - apply pair_equal_spec in Ha as [_ ->]. cbn [set_queue queues]. by rewrite length_insert.
  - by destruct p; apply pair_equal_spec in Ha as [_ ->].
  - by destruct p; apply pair_equal_spec in Ha as [_ ->].
  - by apply pair_equal_spec in Ha as [_ ->].
  - by apply pair_equal_spec in Ha as [_ ->].
Qed.

(** The FIFO scheduler is first in, first out: over every history that
    takes tasks from queue [q] only by picking, the tasks picked, followed by
    the tasks still queued, are the tasks queued before, followed by the tasks
    enqueued, in that order, whatever the reasons they were enqueued for and
    whatever happens to other queues. *)
Theorem fifo_picks_in_arrival_order s h s' q :
  sched_reachable Fifo s -> (q < length (sched_ids s))%nat -> sched_history Fifo s h s' ->
  Forall (only_picks q) h ->
  concat (picked_by q <$> h) ++ queue (view s') q = queue (view s) q ++ concat (enqueued_by q <$> h).
Proof.
  intros Hreach Hq Hh Hpicks. pose proof (sched_reachable_wf Fifo s I Hreach) as Hwf. clear Hreach.
  induction Hh as [s|s op r s1 h s2 Hop Hrun Hh IH]; [by rewrite app_nil_r|].
  inversion_clear Hpicks as [|e h' Hp1 Hp2].
  destruct (history_step Fifo s op r s1 I Hwf Hop Hrun) as [Hwf1 Ha].
  pose proof (execute_keeps_schedulers Fifo op r s s1 I Hwf Hop Hrun).
  rewrite !fmap_cons, !concat_cons, <- app_assoc, IH by (done || lia).
  rewrite !app_assoc. f_equal. by apply fifo_step_order.
Qed.

(** ** Round robin *)

(** One round of a client: the running task uses [delta] of the processor and,
    when the scheduler asks for it, is put back and replaced by the next. *)
Definition rr_round (m : Z) (delta : RuntimeDelta) (q x : nat) : Op nat :=
  expired ← account_runtime (RRScheduler m) x delta;
  if (expired : bool) then
    rr_put_prev_task m q x true ;;
    next ← pick_next_task q;
    mret (default x next)
  else mret x.

Fixpoint rr_rounds (m : Z) (delta : RuntimeDelta) (k : nat) (q x : nat) : Op nat :=
  match k with
  | O => mret x
  | S k => y ← rr_rounds m delta k q x; rr_round m delta q y
  end.

(** The running task [x] is not queued, and every slice fits in the sample. *)
Record rr_running (n : Z) q x (v : Queues) : Prop := {
  run_queue : (q < length (queues v))%nat;
  run_task : (x < length (slices v))%nat;
  run_free : owner_of v x = None;
  run_name : is_Some (take_name q v);
  run_slices y : slice v y <= n }.

Lemma linked_view s j : sched_wf s -> linked s j = queue (view s) j.
Proof.
  intros Hwf. destruct (decide (j < length (sched_ids s))%nat) as [Hlt|Hge]; [by rewrite queue_view|].
  rewrite (linked_unnamed s j Hwf) by lia. unfold queue. rewrite lookup_ge_None_2; [done|].
  rewrite length_queues. lia.
Qed.

Lemma free_owner_of s x : (forall j, x ∉ linked s j) -> owner_of (view s) x = None.
Proof.
  intros Hf. unfold owner_of. cbn [view queues].
  assert (list_find (fun l => x ∈ l) (linked s <$> seq 0 (length (sched_ids s))) = None) as ->; [|done].
  apply list_find_None, Forall_fmap, Forall_forall. intros q _. apply Hf.
Qed.

Lemma slice_set_le x n k y (v : Queues) :
  n <= k -> (forall y, slice v y <= k) -> slice (set_slice x n v) y <= k.
Proof.
  intros Hn Hs. unfold slice. cbn [set_slice slices]. rewrite list_lookup_insert.
  case_decide as Hd; [by simpl|]. apply (Hs y).
Qed.

(** The picked task is in no queue any more. *)
Lemma picked_free s s' q y l :
  sched_wf s -> sched_wf s' -> (q < length (queues (view s)))%nat -> queue (view s) q = y :: l ->
  view s' = set_queue q l (view s) -> owner_of (view s') y = None.
Proof.
  intros Hwf Hwf' Hq Hl Hv. apply free_owner_of. intros j. rewrite (linked_view s' j Hwf'), Hv.
  assert (linked s q = y :: l) as Hlk by (by rewrite (linked_view s q Hwf)).
  destruct (decide (j = q)) as [->|Hne].
  - rewrite queue_set_eq by done. pose proof (wf_nodup s Hwf q) as Hnd. rewrite Hlk in Hnd.
    by apply NoDup_cons in Hnd as [? _].
  - rewrite queue_set_ne by done. rewrite <- (linked_view s j Hwf). intros Hy. apply Hne.
    apply (linked_once s j q y Hwf Hy). rewrite Hlk. set_solver.
Qed.

Lemma respond_ok {A} (f : result A SchedulerError -> sched_response) o a s :
  (forall r r', f r = f r' -> r = r') -> respond f o = Some (f (Ok a), s) -> o = Done a s.
Proof. intros Hf. destruct o; simpl; try done; intros [= Hr%Hf ->]; by simplify_eq. Qed.

(** Putting the running task back, with or without a rest of its slice. *)
Lemma rr_put_prev_run m n q x s :
  in_usize m -> m <> 0 -> sched_wf s -> rr_running n q x (view s) ->
  let '(l, k) := placement (RoundRobin m) Preempt (slice (view s) x) x (queue (view s) q) in
  exists v s', take_name q (view s) = Some v /\ rr_put_prev_task m q x true s = Done tt s' /\
    sched_wf s' /\ view s' = set_queue q l (set_slice x k v).
Proof.
  intros Hm Hz Hwf [Hq Hx Hfree [v Hname] _].
  destruct (enqueue_refines (RoundRobin m) Preempt q x s) as (r & s' & Hrun & Hwf' & Ha); [done|done| | |].
  { by rewrite <- length_queues. }
  { by rewrite <- (length_fmap time_slice). }
  unfold abstract_enqueue in Ha. rewrite Hfree, Hname in Ha.
  assert (negb (accepts (RoundRobin m)) = false) as Hacc
    by (simpl; destruct (Z.eqb_spec m 0); [done|done]).
  rewrite Hacc in Ha. destruct (placement _ _ _ _ _) as [l k].
  apply pair_equal_spec in Ha as [-> Hv]. exists v, s'. split; [done|]. split; [|done].
  apply (respond_ok RUnit); [by intros ?? [=]|exact Hrun].
Qed.

Lemma take_name_again q l x k (v v' : Queues) :
  (q < length (named v))%nat -> take_name q v = Some v' ->
  is_Some (take_name q (set_queue q l (set_slice x k v'))).
Proof.
  unfold take_name. intros Hq. destruct (default false (named v !! q)) eqn:Hd.
  - intros [= <-]. cbn [named set_queue set_slice]. by rewrite Hd.
  - destruct (0 <? names_left v); [|done]. intros [= <-]. cbn [named set_queue set_slice].
    by rewrite list_lookup_insert_eq by done.
Qed.

Lemma take_name_slice q x n (v : Queues) :
  is_Some (take_name q v) -> is_Some (take_name q (set_slice x n v)).
Proof.
  unfold take_name. cbn [set_slice named names_left].
  destruct (default false _); [done|]. by destruct (0 <? names_left v).
Qed.

Lemma length_named s : length (named (view s)) = length (queues (view s)).
Proof. simpl. by rewrite !length_fmap, length_seq. Qed.

(** Pick after a put: the head of the queue runs. *)
Lemma rr_pick_run n q s y l :
  sched_wf s -> (q < length (queues (view s)))%nat -> queue (view s) q = y :: l ->
  is_Some (take_name q (set_queue q l (view s))) -> (forall z, slice (view s) z <= n) ->
  exists s', pick_next_task q s = Done (Some y) s' /\ sched_wf s' /\
    view s' = set_queue q l (view s) /\ rr_running n q y (view s').
Proof.
  intros Hwf Hq Hl Hname Hs. pose proof (linked_view s q Hwf) as Hlk. rewrite Hl in Hlk.
  destruct (pick_run s q Hwf) as (s' & Hrun & Hwf' & _ & _ & _ & Hv).
  rewrite Hlk in Hrun, Hv. simpl in Hrun, Hv. rewrite <- length_queues in Hv. specialize (Hv Hq).
  exists s'. split; [done|]. split; [done|]. split; [done|].
  destruct (wf_linked s Hwf q y) as (i & t & _ & _ & Ht & _); [rewrite Hlk; set_solver|].
  split.
  - rewrite Hv. cbn [set_queue queues]. by rewrite length_insert.
  - rewrite Hv. cbn [set_queue slices view]. rewrite length_fmap. by apply lookup_lt_Some in Ht.
  - by apply (picked_free s s' q y l).
  - by rewrite Hv.
  - intros z. rewrite Hv. apply Hs.
Qed.

Lemma rr_round_run m delta q x s :
  let n := RuntimeDelta.whole_periods delta in
  in_usize m -> m <> 0 -> m <= n -> sched_wf s -> rr_running n q x (view s) ->
  exists y s', rr_round m delta q x s = Done y s' /\ sched_wf s' /\ rr_running n q y (view s') /\
    y :: queue (view s') q = queue (view s) q ++ [x].
Proof.
  intros n Hm Hz Hmn Hwf Hrun. unfold in_usize in Hm.
  destruct (account_refines (RoundRobin m) x (Z.to_nat n) false s Hwf) as (b & s1 & Hacc & Hwf1 & Ha).
  { rewrite <- (length_fmap time_slice). apply Hrun. }
  rewrite Z2Nat.id in Ha by lia. cbn [abstract_account] in Ha. apply pair_equal_spec in Ha as [Hb Hv1].
  pose proof (run_slices _ _ _ _ Hrun x) as Hsx.
  assert (b = true) as -> by (rewrite Hb; apply andb_true_intro; split; [apply Z.ltb_lt|apply Z.leb_le]; lia).
  rewrite Z.max_l in Hv1 by lia. destruct Hrun as [Hq Hx Hfree Hname Hsl].
  assert (rr_running n q x (view s1)) as Hrun1.
  { rewrite Hv1. split; try done.
    - cbn [set_slice slices]. by rewrite length_insert.
    - by apply take_name_slice.
    - intros y. apply slice_set_le; [lia|done]. }
  pose proof (rr_put_prev_run m n q x s1 ltac:(done) Hz Hwf1 Hrun1) as Hput.
  assert (slice (view s1) x = 0) as Hs0 by (rewrite Hv1; by apply slice_set_slice).
  assert (queue (view s1) q = queue (view s) q) as Hq1 by (by rewrite Hv1).
  rewrite Hs0, Hq1 in Hput. cbn in Hput. destruct Hput as (v & s2 & Hname2 & Hput & Hwf2 & Hv2).
  destruct (queue_take_name q q _ _ Hname2) as [_ Hlen].
  assert (length (queues (view s1)) = length (queues (view s))) as Hl1 by (by rewrite Hv1).
  assert (q < length (queues (view s2)))%nat as Hq2.
  { rewrite Hv2. cbn [set_queue set_slice queues]. rewrite length_insert. lia. }
  assert (queue (view s2) q = queue (view s) q ++ [x]) as Hqueue2.
  { rewrite Hv2. apply queue_set_eq. cbn [set_slice queues]. lia. }
  assert (exists y l, queue (view s) q ++ [x] = y :: l) as (y & l & Hyl)
    by (destruct (queue (view s) q); simpl; eauto).
  destruct (rr_pick_run n q s2 y l Hwf2 Hq2) as (s3 & Hpick & Hwf3 & Hv3 & Hrun3).
  - congruence.
  - rewrite Hv2. unfold set_queue. cbn [queues slices named names_left]. rewrite list_insert_insert_eq.
    apply (take_name_again q l x m (view s1) v); [rewrite length_named; lia|done].
  - intros z. rewrite Hv2. destruct (take_name_queues _ _ _ Hname2) as [_ Hss].
    change (slice (set_slice x m v) z <= n). apply slice_set_le; [lia|].
    intros w. unfold slice. rewrite Hss. apply (run_slices _ _ _ _ Hrun1).
  - exists y, s3. split; [|split; [done|split; [done|]]].
    + unfold rr_round, account_runtime. fold n. change (RRScheduler m) with (scheduler (L := L) (RoundRobin m)).
      rewrite (bind_done _ _ _ _ _ Hacc). cbn [orb].
      rewrite (bind_done _ _ _ _ _ Hput). by rewrite (bind_done _ _ _ _ _ Hpick).
    + rewrite Hv3, queue_set_eq by done. done.
Qed.

(** C37: round robin starves nobody. When each running task uses up its slice,
    is put back as preempted and replaced by the next pick, the running task
    followed by the queue rotates by one per round: after [k] rounds the task
    that was at distance [k] runs, and after as many rounds as there are tasks
    the order is the initial one again. No round fails, panics or diverges. *)
Theorem rr_rounds_rotate m delta q x s k :
  in_usize m -> m <> 0 -> m <= RuntimeDelta.whole_periods delta ->
  sched_reachable (RoundRobin m) s -> rr_running (RuntimeDelta.whole_periods delta) q x (view s) ->
  (k <= S (length (queue (view s) q)))%nat ->
  exists y s', rr_rounds m delta k q x s = Done y s' /\
    y :: queue (view s') q = drop k (x :: queue (view s) q) ++ take k (x :: queue (view s) q).
Proof.
  intros Hm Hz Hmn Hreach Hrun Hk. pose proof (sched_reachable_wf (RoundRobin m) s Hm Hreach) as Hwf.
  assert (exists y s', rr_rounds m delta k q x s = Done y s' /\ sched_wf s' /\
    rr_running (RuntimeDelta.whole_periods delta) q y (view s') /\
    y :: queue (view s') q = drop k (x :: queue (view s) q) ++ take k (x :: queue (view s) q))
    as (y & s' & ? & _ & _ & ?); [|by exists y, s'].
  clear Hreach. set (all := x :: queue (view s) q) in *.
  change (S (length (queue (view s) q))) with (length all) in Hk.
  induction k as [|k IH].
  - exists x, s. split; [done|]. split; [done|]. split; [done|]. by rewrite app_nil_r.
  - destruct IH as (y & s1 & Hrs & Hwf1 & Hrun1 & Hrot); [lia|].
    destruct (rr_round_run m delta q y s1 Hm Hz Hmn Hwf1 Hrun1) as (z & s2 & Hround & Hwf2 & Hrun2 & Hrot2).
    exists z, s2. split; [cbn [rr_rounds]; by rewrite (bind_done _ _ _ _ _ Hrs)|].
    split; [done|]. split; [done|]. rewrite Hrot2.
    assert (is_Some (all !! k)) as [w Hw] by (apply lookup_lt_is_Some; lia).
    rewrite (drop_S _ _ _ Hw) in Hrot. injection Hrot as -> ->.
    by rewrite (take_S_r _ _ _ Hw), app_assoc.
Qed.

(** Preemption does not extend a slice nor lose the place: a running task
    with slice left, put back as preempted, is the next task picked, with the
    rest of its slice and all queues as they were. *)
Theorem rr_preempted_task_resumes m n q x s :
  in_usize m -> m <> 0 -> sched_reachable (RoundRobin m) s -> rr_running n q x (view s) ->
  0 < slice (view s) x ->
  exists s1 s2, rr_put_prev_task m q x true s = Done tt s1 /\ pick_next_task q s1 = Done (Some x) s2 /\
    slices (view s2) = slices (view s) /\ queues (view s2) = queues (view s).
Proof.
  intros Hm Hz Hreach Hrun Hpos. pose proof (sched_reachable_wf (RoundRobin m) s Hm Hreach) as Hwf.
  pose proof (rr_put_prev_run m n q x s Hm Hz Hwf Hrun) as Hput. cbn [placement] in Hput.
  rewrite (proj2 (Z.ltb_lt _ _) Hpos) in Hput. destruct Hput as (v & s1 & Hname & Hput & Hwf1 & Hv1).
  destruct (take_name_queues _ _ _ Hname) as [Hqs Hss]. destruct Hrun as [Hq Hx Hfree _ Hsl].
  assert (q < length (queues (set_slice x (slice (view s) x) v)))%nat as Hqv
    by (cbn [set_slice queues]; by rewrite Hqs).
  assert (slices (set_slice x (slice (view s) x) v) = slices (view s)) as Hid.
  { cbn [set_slice slices]. rewrite Hss. apply list_insert_id. unfold slice.
    apply lookup_lt_is_Some in Hx as [z ->]. done. }
  destruct (rr_pick_run n q s1 x (queue (view s) q) Hwf1) as (s2 & Hpick & _ & Hv2 & _).
  - rewrite Hv1. cbn [set_queue queues]. by rewrite length_insert.
  - rewrite Hv1. by apply queue_set_eq.
  - rewrite Hv1. unfold set_queue. cbn [queues slices named names_left]. rewrite list_insert_insert_eq.
    apply (take_name_again q _ x (slice (view s) x) (view s) v); [by rewrite length_named|done].
  - intros z. rewrite Hv1.
    change (default 0 (slices (set_slice x (slice (view s) x) v) !! z) <= n). rewrite Hid. apply Hsl.
  - exists s1, s2. split; [done|]. split; [done|]. rewrite Hv2, Hv1. split; [exact Hid|].
    cbn [set_queue set_slice queues]. rewrite list_insert_insert_eq, Hqs. apply list_insert_id.
    unfold queue. apply lookup_lt_is_Some in Hq as [z ->]. done.
Qed.

End Histories.

(** ** Witnesses on ordinary lists *)

Local Abbreviation PlainSched := (Sched (nat -> list nat)).

#[local] Instance op_valid_dec p op (s : PlainSched) : Decision (op_valid p op s).
Proof. destruct op; simpl; apply _. Defined.

Fixpoint sched_play (p : Policy) (ops : list sched_op) (s : PlainSched)
    : option (list (sched_op * sched_response) * PlainSched) :=
  match ops with
  | [] => Some ([], s)
  | op :: ops =>
      if decide (op_valid p op s) then
        '(r, s1) ← sched_execute p op s;
        '(h, s2) ← sched_play p ops s1; Some ((op, r) :: h, s2)
      else None
  end.

Lemma sched_play_history p ops s h s' : sched_play p ops s = Some (h, s') -> sched_history p s h s'.
Proof.
  revert s h. induction ops as [|op ops IH]; intros s h; simpl; [intros [= <- <-]; constructor|].
  case_decide as Hop; [|done].
  destruct (sched_execute p op s) as [[r s1]|] eqn:Hrun; [|done]. simpl.
  destruct (sched_play p ops s1) as [[h1 s2]|] eqn:Hp; [|done]. intros [= <- <-].
  econstructor; [exact Hop|exact Hrun|]. by apply IH.
Qed.

Definition play_state (p : Policy) (ops : list sched_op) (s : PlainSched) : PlainSched :=
  from_option snd s (sched_play p ops s).
Definition play_log (p : Policy) (ops : list sched_op) (s : PlainSched) : list (sched_op * sched_response) :=
  from_option fst [] (sched_play p ops s).
Definition playable (p : Policy) (ops : list sched_op) (s : PlainSched) : bool :=
  match sched_play p ops s with Some _ => true | None => false end.

Lemma playable_history p ops s :
  playable p ops s = true -> sched_history p s (play_log p ops s) (play_state p ops s).
Proof.
  unfold playable, play_log, play_state. destruct (sched_play p ops s) as [[h s']|] eqn:Hp; [|done].
  intros _. by apply (sched_play_history p ops).
Qed.

(** Three tasks and two schedulers; two tasks in the first queue. *)
Definition sched_demo_ops : list sched_op :=
  [ONewTask; ONewTask; ONewTask; ONewScheduler; ONewScheduler; OAdd 0 0; OEnqueue 0 1 Wakeup].
Definition sched_demo (p : Policy) : PlainSched := play_state p sched_demo_ops sched_boot.

Lemma sched_demo_reachable p : playable p sched_demo_ops sched_boot = true -> sched_reachable p (sched_demo p).
Proof. intros Hp. eexists. by apply playable_history. Qed.

Lemma scheduler_operations_refine_queues_witness :
  exists r s', sched_execute (RoundRobin 2) (OEnqueue 0 2 Preempt) (sched_demo (RoundRobin 2)) = Some (r, s') /\
    (r, view s') = abstract_op (RoundRobin 2) (OEnqueue 0 2 Preempt) (view (sched_demo (RoundRobin 2))) /\
    queue (view s') 0 = [2; 0; 1]%nat.
Proof.
  destruct (scheduler_operations_refine_queues (RoundRobin 2) (sched_demo (RoundRobin 2)) (OEnqueue 0 2 Preempt))
    as (r & s' & Hrun & Ha).
  - by_evaluation.
  - apply sched_demo_reachable. vm_compute. reflexivity.
  - by_evaluation.
  - exists r, s'. split; [exact Hrun|]. split; [exact Ha|].
    apply pair_equal_spec in Ha as [_ ->]. vm_compute. reflexivity.
Defined.

Lemma queued_task_has_one_owner_witness :
  exists s', sched_execute Fifo (OEnqueue 1 0 Migrate) (sched_demo Fifo) = Some (RUnit (Err ForeignQueue), s') /\
    (0%nat ∈ queue (view s') 0 \/ takes_out (OEnqueue 1 0 Migrate) (RUnit (Err ForeignQueue)) 0 0).
Proof.
  eexists. split; [vm_compute; reflexivity|].
  refine (proj2 (proj2 (proj2 (proj2 (proj2 (queued_task_has_one_owner Fifo (sched_demo Fifo) 0 0
    (OEnqueue 1 0 Migrate) (RUnit (Err ForeignQueue)) _ I _ _ _ _)))))).
  - apply sched_demo_reachable. vm_compute. reflexivity.
  - by_evaluation.
  - by_evaluation.
  - vm_compute. reflexivity.
Defined.

Lemma fifo_picks_in_arrival_order_witness :
  let ops := [OEnqueue 0 2 Preempt; OPick 0; OPick 0; OPut 0 1 true; OPick 0] in
  concat (picked_by 0 <$> play_log Fifo ops (sched_demo Fifo)) ++
    queue (view (play_state Fifo ops (sched_demo Fifo))) 0 =
  queue (view (sched_demo Fifo)) 0 ++ concat (enqueued_by 0 <$> play_log Fifo ops (sched_demo Fifo)) /\
  concat (picked_by 0 <$> play_log Fifo ops (sched_demo Fifo)) = [0; 1; 2]%nat.
Proof.
  intros ops. split; [|vm_compute; reflexivity].
  apply (fifo_picks_in_arrival_order (sched_demo Fifo)
    (play_log Fifo ops (sched_demo Fifo)) (play_state Fifo ops (sched_demo Fifo)) 0).
  - apply sched_demo_reachable. vm_compute. reflexivity.
  - vm_compute. lia.
  - apply playable_history. vm_compute. reflexivity.
  - vm_compute. repeat constructor; discriminate.
Defined.

Lemma demo_running n : n = 1 \/ n = 3 -> forall y, slice (view (sched_demo (RoundRobin 1))) y <= n.
Proof.
  intros Hn y. assert (slices (view (sched_demo (RoundRobin 1))) = [1; 1; 1]) as Hs by (vm_compute; reflexivity).
  unfold slice. rewrite Hs. destruct y as [|[|[|y]]]; simpl; destruct Hn; lia.
Qed.

Lemma rr_rounds_rotate_witness :
  exists y s', rr_rounds 1 (RuntimeDelta.new 350 100) 2 0 2 (sched_demo (RoundRobin 1)) = Done y s' /\
    y :: queue (view s') 0 = [1; 2; 0]%nat.
Proof.
  refine (rr_rounds_rotate 1 (RuntimeDelta.new 350 100) 0 2 (sched_demo (RoundRobin 1)) 2 _ _ _ _ _ _).
  - by_evaluation.
  - discriminate.
  - by_evaluation.
  - apply sched_demo_reachable. vm_compute. reflexivity.
  - split.
    + vm_compute. lia.
    + vm_compute. lia.
    + vm_compute. reflexivity.
    + eexists. vm_compute. reflexivity.
    + apply (demo_running 3). by right.
  - vm_compute. lia.
Defined.

Lemma rr_preempted_task_resumes_witness :
  exists s1 s2, rr_put_prev_task 1 0 2 true (sched_demo (RoundRobin 1)) = Done tt s1 /\
    pick_next_task 0 s1 = Done (Some 2%nat) s2 /\
    slices (view s2) = slices (view (sched_demo (RoundRobin 1))) /\
    queues (view s2) = queues (view (sched_demo (RoundRobin 1))).
Proof.
  apply (rr_preempted_task_resumes 1 1 0 2 (sched_demo (RoundRobin 1))).
  - by_evaluation.
  - discriminate.
  - apply sched_demo_reachable. vm_compute. reflexivity.
  - split.
    + vm_compute. lia.
    + vm_compute. lia.
    + vm_compute. reflexivity.
    + eexists. vm_compute. reflexivity.
    + apply (demo_running 1). by left.
  - by_evaluation.
Defined.
