(* ===== verification/Concurrent.v ===== *)
(** Concurrent programs of atomic steps, and rely-guarantee reasoning.

    A method that works on shared atomics without a lock is a [prog]: a sequence
    of atomic steps on the shared state, each of which returns a value the rest
    depends on; [Crash] is a panic. [run] executes a program alone. [pool]
    executes any number of programs with their steps interleaved in every
    order. A program whose steps keep an invariant [Inv] and stay within the
    guarantee [G], whatever the others do within [G], satisfies [rg]; a pool of
    such programs keeps [Inv], and its results have their postconditions. *)

From S2P Require Import Prelude.

Section Programs.
Context {D : Type}.

Inductive prog (A : Type) : Type :=
| Ret (a : A)
| Crash
| Atomic {B : Type} (f : D -> B * D) (k : B -> prog A).
Arguments Ret {A} a.
Arguments Crash {A}.
Arguments Atomic {A B} f k.

#[export] Instance prog_ret : MRet prog := fun A a => Ret a.

Fixpoint prog_bind_ {A B} (p : prog A) (g : A -> prog B) : prog B :=
  match p with
  | Ret a => g a
  | Crash => Crash
  | Atomic f k => Atomic f (fun b => prog_bind_ (k b) g)
  end.
#[export] Instance prog_bind : MBind prog := fun A B g p => prog_bind_ p g.

(** One atomic action. *)
Definition atomic {B} (f : D -> B * D) : prog B := Atomic f Ret.

(** A program alone; [None] for a panic. *)
Fixpoint run {A} (p : prog A) (d : D) : option (A * D) :=
  match p with
  | Ret a => Some (a, d)
  | Crash => None
  | Atomic f k => let '(b, d) := f d in run (k b) d
  end.

Lemma run_bind {A B} (p : prog A) (g : A -> prog B) d :
  run (p ≫= g) d = match run p d with Some (a, d) => run (g a) d | None => None end.
Proof.
  change (p ≫= g) with (prog_bind_ p g). revert d. induction p as [a| |C f k IH]; intros d; simpl; try done.
  destruct (f d) as [c d']. apply IH.
Qed.

Lemma run_atomic {B} (f : D -> B * D) d : run (atomic f) d = Some (f d).
Proof. simpl. by destruct (f d). Qed.

(** ** Rely and guarantee *)

Section RelyGuarantee.
Context (Inv : D -> Prop) (G : D -> D -> Prop) `{!PreOrder G}.

(** From [d], with interference in [G] before every step. *)
Fixpoint rg {A} (p : prog A) (Q : A -> D -> Prop) (d : D) : Prop :=
  match p with
  | Ret a => Q a d
  | Crash => False
  | Atomic f k => forall d1, G d d1 -> Inv d1 ->
      Inv (f d1).2 /\ G d1 (f d1).2 /\ rg (k (f d1).1) Q (f d1).2
  end.

Lemma rg_bind {A B} (p : prog A) (g : A -> prog B) Q R d :
  rg p R d -> (forall a d, R a d -> rg (g a) Q d) -> rg (p ≫= g) Q d.
Proof.
  change (p ≫= g) with (prog_bind_ p g). intros Hp Hg. revert d Hp.
  induction p as [a| |C f k IH]; intros d Hp; simpl in *; [by apply Hg|done|].
  intros d1 Hd1 Hi. destruct (Hp d1 Hd1 Hi) as (? & ? & ?). split; [done|]. split; [done|]. by apply IH.
Qed.

Lemma rg_mono {A} (p : prog A) (Q R : A -> D -> Prop) d :
  (forall a d, R a d -> Q a d) -> rg p R d -> rg p Q d.
Proof.
  intros HRQ. revert d. induction p as [a| |C f k IH]; intros d; simpl; [apply HRQ|done|].
  intros Hp d1 Hd1 Hi. destruct (Hp d1 Hd1 Hi) as (? & ? & ?). auto.
Qed.

(** The rule for one action: [Q] of the value and the state after it. *)
Lemma rg_atomic {B} (f : D -> B * D) Q d :
  (forall d1, G d d1 -> Inv d1 -> Inv (f d1).2 /\ G d1 (f d1).2 /\ Q (f d1).1 (f d1).2) ->
  rg (atomic f) Q d.
Proof. done. Qed.

(** A read changes nothing. *)
Lemma rg_read {B} (f : D -> B) Q d :
  (forall d1, G d d1 -> Inv d1 -> Q (f d1) d1) -> rg (atomic (fun d => (f d, d))) Q d.
Proof. intros HQ. apply rg_atomic. intros d1 Hd1 Hi. split; [done|]. split; [reflexivity|]. by apply HQ. Qed.

(** [stable Q]: interference keeps [Q]. *)
Definition stable {A} (Q : A -> D -> Prop) : Prop := forall a d d', Q a d -> G d d' -> Q a d'.

Lemma rg_later {A} (p : prog A) Q d d' : stable Q -> rg p Q d -> G d d' -> rg p Q d'.
Proof.
  intros HQ Hp Hd. destruct p as [a| |C f k]; simpl in *; [by eapply HQ|done|].
  intros d1 Hd1. apply Hp. by transitivity d'.
Qed.

(** ** Interleavings *)

(** The shared state, the programs that run, and the results of the finished. *)
Record pool (A : Type) : Type := mkPool { shared : D; running : list (prog A); finished : list A }.
Arguments mkPool {A}.
Arguments shared {A}.
Arguments running {A}.
Arguments finished {A}.

(** [starts]: the programs that may be started, given the results so far. *)
Inductive pool_step {A} (starts : list A -> prog A -> Prop) : pool A -> pool A -> Prop :=
| pool_start d ps rs p :
    starts rs p -> pool_step starts (mkPool d ps rs) (mkPool d (ps ++ [p]) rs)
| pool_action d ps rs i B (f : D -> B * D) k :
    ps !! i = Some (Atomic f k) ->
    pool_step starts (mkPool d ps rs) (mkPool (f d).2 (<[i := k (f d).1]> ps) rs)
| pool_finish d ps rs i a :
    ps !! i = Some (Ret a) ->
    pool_step starts (mkPool d ps rs) (mkPool d (delete i ps) (rs ++ [a])).

Inductive pool_reaches {A} (starts : list A -> prog A -> Prop) (d0 : D) : pool A -> Prop :=
| pool_init : pool_reaches starts d0 (mkPool d0 [] [])
| pool_next c c' : pool_reaches starts d0 c -> pool_step starts c c' -> pool_reaches starts d0 c'.

(** Scheduling one program from start to finish is one of the interleavings. *)
Lemma pool_run_alone {A} (starts : list A -> prog A -> Prop) d0 d ps rs p a d' :
  pool_reaches starts d0 (mkPool d ps rs) -> starts rs p -> run p d = Some (a, d') ->
  pool_reaches starts d0 (mkPool d' ps (rs ++ [a])).
Proof.
  intros Hc Hp. pose proof (pool_next _ _ _ _ Hc (pool_start _ d ps rs p Hp)) as Hs. clear Hc Hp.
  assert (forall q : prog A, (ps ++ [q]) !! length ps = Some q) as Hat
    by (intros q; by apply list_lookup_middle).
  revert d Hs. induction p as [b| |B f k IH]; intros d Hs; simpl; [|done|].
  - intros [= <- <-]. pose proof (pool_finish starts d _ rs _ b (Hat (Ret b))) as Hf.
    rewrite delete_middle, app_nil_r in Hf. exact (pool_next _ _ _ _ Hs Hf).
  - intros Hrun. destruct (f d) as [b d1] eqn:Hfd. apply (IH b d1); [|done].
    pose proof (pool_action starts d _ rs _ B f k (Hat (Atomic f k))) as Ha.
    rewrite insert_app_r_alt, Nat.sub_diag, Hfd in Ha by lia. exact (pool_next _ _ _ _ Hs Ha).
Qed.

(** Nothing in the pool has crashed. *)
Definition pool_safe {A} (c : pool A) : Prop := forall i, running c !! i <> Some Crash.

Lemma pool_sound {A} (starts : list A -> prog A -> Prop) (Q : A -> D -> Prop) d0 c :
  stable Q -> Inv d0 ->
  (forall rs p d, starts rs p -> Inv d -> (forall a, a ∈ rs -> Q a d) -> rg p Q d) ->
  pool_reaches starts d0 c ->
  Inv (shared c) /\ pool_safe c /\ (forall a, a ∈ finished c -> Q a (shared c)) /\
  forall p, p ∈ running c -> rg p Q (shared c).
Proof.
  intros HQ H0 Hstart Hc.
  assert (Inv (shared c) /\ (forall a, a ∈ finished c -> Q a (shared c)) /\
    forall p, p ∈ running c -> rg p Q (shared c)) as (? & ? & Hall).
  { induction Hc as [|c c' _ (Hi & Hf & Hr) Hs]; [split; [done|]; set_solver|].
    destruct Hs as [d ps rs p Hp|d ps rs i B f k Hk|d ps rs i a Ha]; simpl in *.
    - split; [done|]. split; [done|]. intros q [Hq|Hq]%elem_of_app; [by apply Hr|].
      apply list_elem_of_singleton in Hq as ->. by apply (Hstart rs).
    - destruct (Hr _ (list_elem_of_lookup_2 _ _ _ Hk) d) as (Hi' & HG & Hnext); [reflexivity|done|].
      split; [done|]. split; [intros a Ha; by eapply HQ; [apply Hf|]|].
      intros q Hq. apply list_elem_of_lookup in Hq as [j Hj]. destruct (decide (i = j)) as [->|Hne].
      + rewrite list_lookup_insert_eq in Hj by (apply lookup_lt_is_Some; eauto). by simplify_eq.
      + rewrite list_lookup_insert_ne in Hj by done. apply (rg_later q Q d); [done| |done].
        apply Hr. by eapply list_elem_of_lookup_2.
    - split; [done|]. pose proof (Hr _ (list_elem_of_lookup_2 _ _ _ Ha)) as Hqa. simpl in Hqa. split.
      + intros b [Hb|Hb]%elem_of_app; [by apply Hf|]. by apply list_elem_of_singleton in Hb as ->.
      + intros q Hq. apply Hr. rewrite list_elem_of_lookup in Hq |- *. destruct Hq as [j Hj].
        destruct (decide (j < i)%nat) as [Hlt|Hge].
        * exists j. by rewrite list_lookup_delete_lt in Hj.
        * exists (S j). by rewrite list_lookup_delete_ge in Hj by lia. }
  split_and!; try done. intros i Hi. apply list_elem_of_lookup_2 in Hi. by apply Hall in Hi.
Qed.

End RelyGuarantee.
End Programs.

Arguments prog : clear implicits.
Arguments Ret {D A} a.
Arguments Crash {D A}.
Arguments Atomic {D A B} f k.
Arguments pool : clear implicits.
Arguments mkPool {D A}.
Arguments shared {D A}.
Arguments running {D A}.
Arguments finished {D A}.
