(* ===== verification/Tlb.v ===== *)
(** TLB shootdown, part 1: [crates/thekernel-axtlb/src/lib.rs].

    A domain is an epoch counter and one mailbox of atomics per CPU. No lock
    protects them, so each method is a program of atomic steps ([Concurrent]):
    a load, a read-modify-write, or a retry loop around a weak compare-exchange
    seen as the one exchange that succeeds. Admission guards are released where
    the code drops them. The state also records, newest first, when an epoch was
    allocated and when the callback [maintain_local] ran on a CPU. *)

From S2P Require Import Prelude Effects Atomics Concurrent.
Local Open Scope Z_scope.

Definition CPU_OFFLINE : Z := 0.
Definition CPU_ONLINE : Z := 1.
Definition CPU_DRAINING : Z := 2.
Definition CPU_STATE_MASK : Z := 3.
Definition ADMISSION_ONE : Z := CPU_STATE_MASK + 1.

(** ** Maintenance classes *)

Record CpuMaintenance : Type := mkMaintenance { bits : Z }.

Module CpuMaintenance.
Definition TLB : CpuMaintenance := mkMaintenance (Z.shiftl 1 0).
Definition ICACHE : CpuMaintenance := mkMaintenance (Z.shiftl 1 1).
Definition TLB_AND_ICACHE : CpuMaintenance := mkMaintenance (Z.lor (bits TLB) (bits ICACHE)).
Definition needs_tlb (m : CpuMaintenance) : bool := negb (Z.land (bits m) (bits TLB) =? 0).
Definition needs_icache (m : CpuMaintenance) : bool := negb (Z.land (bits m) (bits ICACHE) =? 0).
Definition from_pending (tlb icache : bool) : option CpuMaintenance :=
  match tlb, icache with
  | false, false => None
  | true, false => Some TLB
  | false, true => Some ICACHE
  | true, true => Some TLB_AND_ICACHE
  end.
End CpuMaintenance.
Import CpuMaintenance.

(** ** CPU sets *)

Inductive CpuSetError : Type := SetInvalidCpu.

(** [members: [bool; MAX_CPUS]] *)
Abbreviation CpuSet := (list bool).

Module CpuSet.
Definition new (MAX_CPUS : nat) : CpuSet := replicate MAX_CPUS false.
Definition from_cpu (MAX_CPUS cpu : nat) : option CpuSet :=
  if decide (MAX_CPUS <= cpu)%nat then None else Some (<[cpu := true]> (new MAX_CPUS)).
Definition try_insert (cpu : nat) (set : CpuSet) : result CpuSet CpuSetError :=
  match set !! cpu with Some _ => Ok (<[cpu := true]> set) | None => Err SetInvalidCpu end.
Definition contains (set : CpuSet) (cpu : nat) : bool := default false (set !! cpu).
Definition is_empty (set : CpuSet) : bool := forallb negb set.
Definition len (set : CpuSet) : Z := count (fun b => b = true) set.
End CpuSet.

(** ** Mailbox reasons *)

Record IpiReason : Type := mkReason { index : Z }.

Module IpiReason.
Definition try_new (index : Z) : option IpiReason := if index <? 64 then Some (mkReason index) else None.
Definition bit (r : IpiReason) : Z := Z.shiftl 1 (index r).
End IpiReason.

Definition CPU_MAINTENANCE_REASON : IpiReason := mkReason 0.

Inductive CpuLifecycleError : Type :=
| LifecycleInvalidCpu | InvalidState | MailboxNotDrained | AdmissionInProgress | ShootdownPending
| ReasonPending.
Inductive ShootdownIssueError : Type :=
| IssueInvalidCpu | IssuerOffline | EmptyTargetSet | IssuerIsTarget | TargetOffline
| IssueAdmissionExhausted | EpochExhausted.
Inductive MailboxError : Type := MailboxInvalidCpu.
Inductive ReasonPostError : Type :=
| PostInvalidCpu | CpuUnavailable | PostAdmissionExhausted | ReservedMaintenanceReason.
Inductive AdmissionError : Type := Unavailable | Exhausted.

Record ReasonPost : Type := mkPost { needs_kick : bool }.

Record ShootdownGrace : Type := mkGrace { grace_epoch : Z; grace_maintenance : CpuMaintenance }.

Record ShootdownService : Type := mkService {
  service_tlb_epoch : Z; service_icache_epoch : Z; tlb_flush_count : Z; icache_flush_count : Z }.

Record CpuSnapshot : Type := mkSnapshot {
  snap_online : bool; snap_draining : bool; snap_admissions : Z; snap_pending_reasons : Z;
  snap_requested_tlb : Z; snap_completed_tlb : Z; snap_requested_icache : Z; snap_completed_icache : Z }.

(** ** Shared state *)

Record CpuMailbox : Type := mkMailbox {
  lifecycle : Z; pending_reasons : Z;
  requested_tlb_epoch : Z; completed_tlb_epoch : Z;
  requested_icache_epoch : Z; completed_icache_epoch : Z }.

Definition mailbox_new : CpuMailbox := mkMailbox CPU_OFFLINE 0 0 0 0 0.

Definition set_lifecycle (l : Z) (m : CpuMailbox) : CpuMailbox :=
  mkMailbox l (pending_reasons m) (requested_tlb_epoch m) (completed_tlb_epoch m)
    (requested_icache_epoch m) (completed_icache_epoch m).
Definition set_pending_reasons (p : Z) (m : CpuMailbox) : CpuMailbox :=
  mkMailbox (lifecycle m) p (requested_tlb_epoch m) (completed_tlb_epoch m)
    (requested_icache_epoch m) (completed_icache_epoch m).
Definition set_requested_tlb (e : Z) (m : CpuMailbox) : CpuMailbox :=
  mkMailbox (lifecycle m) (pending_reasons m) e (completed_tlb_epoch m)
    (requested_icache_epoch m) (completed_icache_epoch m).
Definition set_completed_tlb (e : Z) (m : CpuMailbox) : CpuMailbox :=
  mkMailbox (lifecycle m) (pending_reasons m) (requested_tlb_epoch m) e
    (requested_icache_epoch m) (completed_icache_epoch m).
Definition set_requested_icache (e : Z) (m : CpuMailbox) : CpuMailbox :=
  mkMailbox (lifecycle m) (pending_reasons m) (requested_tlb_epoch m) (completed_tlb_epoch m)
    e (completed_icache_epoch m).
Definition set_completed_icache (e : Z) (m : CpuMailbox) : CpuMailbox :=
  mkMailbox (lifecycle m) (pending_reasons m) (requested_tlb_epoch m) (completed_tlb_epoch m)
    (requested_icache_epoch m) e.

(** [EvEpoch e]: the epoch counter became [e]. [EvMaintain cpu m]: the callback
    ran with [m] on [cpu]. *)
Inductive tlb_event : Type := EvEpoch (e : Z) | EvMaintain (cpu : nat) (m : CpuMaintenance).

Record TlbShootdown : Type := mkDomain {
  next_epoch : Z; cpus : list CpuMailbox; trace : list tlb_event }.

Local Abbreviation Prog := (prog TlbShootdown).

Section Domain.
Context (MAX_CPUS : nat).

Definition shootdown_new : TlbShootdown := mkDomain 0 (replicate MAX_CPUS mailbox_new) [].

(** One atomic access to the mailbox of [cpu]; an index out of range panics. *)
Definition on_mailbox {B} (cpu : nat) (f : CpuMailbox -> B * CpuMailbox) : Prog B :=
  o ← atomic (fun d => match cpus d !! cpu with
        | Some m => (Some (f m).1, mkDomain (next_epoch d) (<[cpu := (f m).2]> (cpus d)) (trace d))
        | None => (None, d)
        end);
  match o with Some b => mret b | None => Crash end.

Definition load {B} (cpu : nat) (f : CpuMailbox -> B) : Prog B := on_mailbox cpu (fun m => (f m, m)).

(** [self.cpus.get(cpu)] succeeds. *)
Definition cpu_valid (cpu : nat) : bool := bool_decide (cpu < MAX_CPUS)%nat.

(** ** Mailbox methods *)

Definition try_admit (cpu : nat) : Prog (result unit AdmissionError) :=
  on_mailbox cpu (fun m =>
    if negb (Z.land (lifecycle m) CPU_STATE_MASK =? CPU_ONLINE) then (Err Unavailable, m) else
    match checked_add_usize (lifecycle m) ADMISSION_ONE with
    | None => (Err Exhausted, m)
    | Some next => (Ok tt, set_lifecycle next m)
    end).

(** [fetch_sub] wraps around. *)
Definition release_admission (cpu : nat) : Prog () :=
  on_mailbox cpu (fun m => (tt, set_lifecycle ((lifecycle m - ADMISSION_ONE) mod (usize_MAX + 1)) m)).

Definition post_reason (cpu : nat) (reason : IpiReason) : Prog ReasonPost :=
  on_mailbox cpu (fun m =>
    (mkPost (Z.land (pending_reasons m) (IpiReason.bit reason) =? 0),
     set_pending_reasons (Z.lor (pending_reasons m) (IpiReason.bit reason)) m)).

Definition fetch_max_requested_tlb (cpu : nat) (epoch : Z) : Prog Z :=
  on_mailbox cpu (fun m => (requested_tlb_epoch m, set_requested_tlb (Z.max (requested_tlb_epoch m) epoch) m)).
Definition fetch_max_requested_icache (cpu : nat) (epoch : Z) : Prog Z :=
  on_mailbox cpu (fun m =>
    (requested_icache_epoch m, set_requested_icache (Z.max (requested_icache_epoch m) epoch) m)).
Definition fetch_max_completed_tlb (cpu : nat) (epoch : Z) : Prog Z :=
  on_mailbox cpu (fun m => (completed_tlb_epoch m, set_completed_tlb (Z.max (completed_tlb_epoch m) epoch) m)).
Definition fetch_max_completed_icache (cpu : nat) (epoch : Z) : Prog Z :=
  on_mailbox cpu (fun m =>
    (completed_icache_epoch m, set_completed_icache (Z.max (completed_icache_epoch m) epoch) m)).

Definition mailbox_snapshot (cpu : nat) : Prog CpuSnapshot :=
  l ← load cpu lifecycle;
  p ← load cpu pending_reasons;
  rt ← load cpu requested_tlb_epoch;
  ct ← load cpu completed_tlb_epoch;
  ri ← load cpu requested_icache_epoch;
  ci ← load cpu completed_icache_epoch;
  let state := Z.land l CPU_STATE_MASK in
  mret (mkSnapshot (state =? CPU_ONLINE) (state =? CPU_DRAINING) (Z.shiftr l 2) p rt ct ri ci).

(** ** CPU lifecycle *)

(** The disjunction of the code loads no further word once it is true. *)
Definition publish_online (cpu : nat) : Prog (result unit CpuLifecycleError) :=
  if negb (cpu_valid cpu) then mret (Err LifecycleInvalidCpu) else
  p ← load cpu pending_reasons;
  tlb ← (if p =? 0 then
           r ← load cpu requested_tlb_epoch; c ← load cpu completed_tlb_epoch; mret (r =? c)
         else mret false);
  icache ← (if (tlb : bool) then
              r ← load cpu requested_icache_epoch; c ← load cpu completed_icache_epoch; mret (r =? c)
            else mret false);
  if negb (icache : bool) then mret (Err MailboxNotDrained) else
  on_mailbox cpu (fun m =>
    if lifecycle m =? CPU_OFFLINE then (Ok tt, set_lifecycle CPU_ONLINE m) else (Err InvalidState, m)).

Definition begin_offline (cpu : nat) : Prog (result unit CpuLifecycleError) :=
  if negb (cpu_valid cpu) then mret (Err LifecycleInvalidCpu) else
  on_mailbox cpu (fun m =>
    if negb (Z.land (lifecycle m) CPU_STATE_MASK =? CPU_ONLINE) then (Err InvalidState, m) else
    (Ok tt, set_lifecycle (Z.lor (Z.ldiff (lifecycle m) CPU_STATE_MASK) CPU_DRAINING) m)).

Definition complete_offline (cpu : nat) : Prog (result unit CpuLifecycleError) :=
  if negb (cpu_valid cpu) then mret (Err LifecycleInvalidCpu) else
  l ← load cpu lifecycle;
  if negb (Z.land l CPU_STATE_MASK =? CPU_DRAINING) then mret (Err InvalidState) else
  if negb (Z.shiftr l 2 =? 0) then mret (Err AdmissionInProgress) else
  rt ← load cpu requested_tlb_epoch;
  ct ← load cpu completed_tlb_epoch;
  icache ← (if ct <? rt then mret true else
              ri ← load cpu requested_icache_epoch; ci ← load cpu completed_icache_epoch; mret (ci <? ri));
  if (icache : bool) then mret (Err ShootdownPending) else
  p ← load cpu pending_reasons;
  if negb (p =? 0) then mret (Err ReasonPending) else
  on_mailbox cpu (fun m =>
    if lifecycle m =? l then (Ok tt, set_lifecycle CPU_OFFLINE m) else (Err InvalidState, m)).

Definition post_non_maintenance_reason (cpu : nat) (reason : IpiReason)
    : Prog (result ReasonPost ReasonPostError) :=
  if index reason =? index CPU_MAINTENANCE_REASON then mret (Err ReservedMaintenanceReason) else
  if negb (cpu_valid cpu) then mret (Err PostInvalidCpu) else
  a ← try_admit cpu;
  match a with
  | Err Unavailable => mret (Err CpuUnavailable)
  | Err Exhausted => mret (Err PostAdmissionExhausted)
  | Ok _ =>
      post ← post_reason cpu reason;
      release_admission cpu ;;
      mret (Ok post)
  end.

(** ** Issuing *)

Record ShootdownRequest : Type := mkRequest {
  issuer_admission : nat; epoch : Z; maintenance : CpuMaintenance; targets : CpuSet; kicks : list bool }.

Definition issuer_error (e : AdmissionError) : ShootdownIssueError :=
  match e with Unavailable => IssuerOffline | Exhausted => IssueAdmissionExhausted end.
Definition target_error (e : AdmissionError) : ShootdownIssueError :=
  match e with Unavailable => TargetOffline | Exhausted => IssueAdmissionExhausted end.

(** The read-modify-write of [next_epoch]; the new epoch, unless exhausted. *)
Definition allocate_epoch : Prog (option Z) :=
  atomic (fun d =>
    let '(r, next) := try_update (fun epoch => checked_add_u64 epoch 1) (next_epoch d) in
    match r with
    | Ok previous => (Some (previous + 1), mkDomain next (cpus d) (EvEpoch next :: trace d))
    | Err _ => (None, d)
    end).

(** The stores that publish an epoch to one admitted target. *)
Definition publish_target (cpu : nat) (m : CpuMaintenance) (epoch : Z) : Prog ReasonPost :=
  (if needs_tlb m then _ ← fetch_max_requested_tlb cpu epoch; mret tt else mret tt) ;;
  (if needs_icache m then _ ← fetch_max_requested_icache cpu epoch; mret tt else mret tt) ;;
  post_reason cpu CPU_MAINTENANCE_REASON.

(** The loop over all CPUs of [issue_after_local_maintenance_with]. *)
Fixpoint publish_online_targets (issuer_cpu : nat) (m : CpuMaintenance) (epoch : Z) (rest : list nat)
    (targets : CpuSet) (kicks : list bool) : Prog (result (CpuSet * list bool) ShootdownIssueError) :=
  match rest with
  | [] => mret (Ok (targets, kicks))
  | cpu :: rest =>
      if decide (cpu = issuer_cpu) then publish_online_targets issuer_cpu m epoch rest targets kicks else
      a ← try_admit cpu;
      match a with
      | Err Unavailable => publish_online_targets issuer_cpu m epoch rest targets kicks
      | Err Exhausted => mret (Err IssueAdmissionExhausted)
      | Ok _ =>
          post ← publish_target cpu m epoch;
          match CpuSet.try_insert cpu targets with
          | Err _ => Crash
          | Ok targets =>
              if decide (cpu < length kicks)%nat then
                release_admission cpu ;;
                publish_online_targets issuer_cpu m epoch rest targets (<[cpu := needs_kick post]> kicks)
              else Crash
          end
      end
  end.

Definition issue_after_local_maintenance (issuer_cpu : nat) (m : CpuMaintenance)
    : Prog (result ShootdownRequest ShootdownIssueError) :=
  if negb (cpu_valid issuer_cpu) then mret (Err IssueInvalidCpu) else
  a ← try_admit issuer_cpu;
  match a with
  | Err e => mret (Err (issuer_error e))
  | Ok _ =>
      allocated ← allocate_epoch;
      match allocated with
      | None => release_admission issuer_cpu ;; mret (Err EpochExhausted)
      | Some epoch =>
          published ← publish_online_targets issuer_cpu m epoch (seq 0 MAX_CPUS)
                        (CpuSet.new MAX_CPUS) (replicate MAX_CPUS false);
          match published with
          | Err e => release_admission issuer_cpu ;; mret (Err e)
          | Ok (targets, kicks) => mret (Ok (mkRequest issuer_cpu epoch m targets kicks))
          end
      end
  end.

Definition issue_after_local_flush (issuer_cpu : nat) : Prog (result ShootdownRequest ShootdownIssueError) :=
  issue_after_local_maintenance issuer_cpu TLB.

(** Dropping a list of admissions in index order. *)
Fixpoint release_all (admitted : list nat) : Prog () :=
  match admitted with
  | [] => mret tt
  | cpu :: admitted => release_admission cpu ;; release_all admitted
  end.

(** The loop that acquires every target; it returns the admissions held and
    the error that stopped it. *)
Fixpoint admit_targets (targets : CpuSet) (rest admitted : list nat)
    : Prog (list nat * option ShootdownIssueError) :=
  match rest with
  | [] => mret (admitted, None)
  | cpu :: rest =>
      if negb (CpuSet.contains targets cpu) then admit_targets targets rest admitted else
      a ← try_admit cpu;
      match a with
      | Err e => mret (admitted, Some (target_error e))
      | Ok _ => admit_targets targets rest (admitted ++ [cpu])
      end
  end.

(** The publication loop over the admitted targets. *)
Fixpoint publish_targets (targets : CpuSet) (m : CpuMaintenance) (epoch : Z) (rest : list nat)
    (kicks : list bool) : Prog (list bool) :=
  match rest with
  | [] => mret kicks
  | cpu :: rest =>
      if negb (CpuSet.contains targets cpu) then publish_targets targets m epoch rest kicks else
      post ← publish_target cpu m epoch;
      publish_targets targets m epoch rest (<[cpu := needs_kick post]> kicks)
  end.

Definition issue_after_local_maintenance_for_targets (issuer_cpu : nat) (targets : CpuSet)
    (m : CpuMaintenance) : Prog (result ShootdownRequest ShootdownIssueError) :=
  if negb (cpu_valid issuer_cpu) then mret (Err IssueInvalidCpu) else
  if CpuSet.is_empty targets then mret (Err EmptyTargetSet) else
  if CpuSet.contains targets issuer_cpu then mret (Err IssuerIsTarget) else
  a ← try_admit issuer_cpu;
  match a with
  | Err e => mret (Err (issuer_error e))
  | Ok _ =>
      '(admitted, failed) ← admit_targets targets (seq 0 MAX_CPUS) [];
      match failed with
      | Some e => release_all admitted ;; release_admission issuer_cpu ;; mret (Err e)
      | None =>
          allocated ← allocate_epoch;
          match allocated with
          | None => release_all admitted ;; release_admission issuer_cpu ;; mret (Err EpochExhausted)
          | Some epoch =>
              kicks ← publish_targets targets m epoch (seq 0 MAX_CPUS) (replicate MAX_CPUS false);
              release_all admitted ;;
              mret (Ok (mkRequest issuer_cpu epoch m targets kicks))
          end
      end
  end.

Definition issue_after_local_flush_for_targets (issuer_cpu : nat) (targets : CpuSet)
    : Prog (result ShootdownRequest ShootdownIssueError) :=
  issue_after_local_maintenance_for_targets issuer_cpu targets TLB.

(** Dropping a request releases its issuer. *)
Definition drop_request (r : ShootdownRequest) : Prog () := release_admission (issuer_admission r).

(** ** Servicing *)

Definition take_pending_reasons (cpu : nat) : Prog (result Z MailboxError) :=
  if negb (cpu_valid cpu) then mret (Err MailboxInvalidCpu) else
  p ← on_mailbox cpu (fun m => (pending_reasons m, set_pending_reasons 0 m)); mret (Ok p).

(** The callback, an event. *)
Definition maintain_local (cpu : nat) (m : CpuMaintenance) : Prog () :=
  atomic (fun d => (tt, mkDomain (next_epoch d) (cpus d) (EvMaintain cpu m :: trace d))).

Definition service_maintenance (cpu : nat) : Prog (result ShootdownService MailboxError) :=
  if negb (cpu_valid cpu) then mret (Err MailboxInvalidCpu) else
  requested_tlb ← load cpu requested_tlb_epoch;
  completed_tlb ← load cpu completed_tlb_epoch;
  requested_icache ← load cpu requested_icache_epoch;
  completed_icache ← load cpu completed_icache_epoch;
  match from_pending (completed_tlb <? requested_tlb) (completed_icache <? requested_icache) with
  | None => mret (Ok (mkService completed_tlb completed_icache 0 0))
  | Some m =>
      maintain_local cpu m ;;
      tlb ← (if needs_tlb m then
               previous ← fetch_max_completed_tlb cpu requested_tlb; mret (Z.max previous requested_tlb)
             else mret completed_tlb);
      icache ← (if needs_icache m then
                  previous ← fetch_max_completed_icache cpu requested_icache;
                  mret (Z.max previous requested_icache)
                else mret completed_icache);
      mret (Ok (mkService tlb icache (if needs_tlb m then 1 else 0) (if needs_icache m then 1 else 0)))
  end.

Definition cpu_snapshot (cpu : nat) : Prog (result CpuSnapshot MailboxError) :=
  if negb (cpu_valid cpu) then mret (Err MailboxInvalidCpu) else
  s ← mailbox_snapshot cpu; mret (Ok s).

(** ** Requests *)

Definition request_needs_kick (r : ShootdownRequest) (cpu : nat) : bool := default false (kicks r !! cpu).
Definition target_count (r : ShootdownRequest) : Z := CpuSet.len (targets r).

Definition target_pending (r : ShootdownRequest) (cpu : nat) : Prog bool :=
  if negb (CpuSet.contains (targets r) cpu) then mret false else
  tlb ← (if needs_tlb (maintenance r)
         then c ← load cpu completed_tlb_epoch; mret (c <? epoch r) else mret false);
  if (tlb : bool) then mret true else
  if needs_icache (maintenance r)
  then c ← load cpu completed_icache_epoch; mret (c <? epoch r) else mret false.

Definition target_complete (r : ShootdownRequest) (cpu : nat) : Prog bool :=
  if CpuSet.contains (targets r) cpu then b ← target_pending r cpu; mret (negb b) else mret false.

Fixpoint try_complete_loop (r : ShootdownRequest) (rest : list nat) : Prog (option ShootdownGrace) :=
  match rest with
  | [] => mret (Some (mkGrace (epoch r) (maintenance r)))
  | cpu :: rest =>
      if CpuSet.contains (targets r) cpu then
        pending ← target_pending r cpu;
        if (pending : bool) then mret None else try_complete_loop r rest
      else try_complete_loop r rest
  end.

Definition try_complete (r : ShootdownRequest) : Prog (option ShootdownGrace) :=
  try_complete_loop r (seq 0 MAX_CPUS).

End Domain.
