(* ===== verification/TlbProtocol.v ===== *)
(** TLB shootdown, part 2: the invariant of a domain and the rely-guarantee
    proof of every method.

    The guarantee of each atomic step is that epochs and the trace only grow.
    The invariant is that an acknowledged epoch has been flushed: the callback
    ran on that CPU after the epoch was allocated.

    TLB shootdown, part 3: every method satisfies its rely-guarantee
    specification, and the operations a pool of CPUs may run. *)

From S2P Require Import Prelude Effects Atomics Concurrent Tlb.
Local Open Scope Z_scope.

Import CpuMaintenance.

Local Abbreviation Prog := (prog TlbShootdown).

(** The callback ran on [cpu], with a class that [needs], after epoch [e] was
    allocated. *)
Definition flushed (needs : CpuMaintenance -> bool) (t : list tlb_event) (cpu : nat) (e : Z) : Prop :=
  exists newer m older, t = newer ++ EvMaintain cpu m :: older /\ needs m = true /\ EvEpoch e ∈ older.

Lemma flushed_later needs t t' cpu e : flushed needs t cpu e -> flushed needs (t' ++ t) cpu e.
Proof. intros (newer & m & older & -> & ?). exists (t' ++ newer), m, older. by rewrite app_assoc. Qed.

Definition flushed_upto (needs : CpuMaintenance -> bool) (t : list tlb_event) (cpu : nat) (c : Z) : Prop :=
  forall e, 1 <= e <= c -> flushed needs t cpu e.

Section Invariant.
Context (MAX_CPUS : nat).

Record mailbox_ok (next : Z) (t : list tlb_event) (cpu : nat) (m : CpuMailbox) : Prop := {
  ok_requested_tlb : requested_tlb_epoch m <= next;
  ok_requested_icache : requested_icache_epoch m <= next;
  ok_completed_tlb : flushed_upto needs_tlb t cpu (completed_tlb_epoch m);
  ok_completed_icache : flushed_upto needs_icache t cpu (completed_icache_epoch m) }.

Record tlb_inv (d : TlbShootdown) : Prop := {
  inv_length : length (cpus d) = MAX_CPUS;
  inv_next : 0 <= next_epoch d;
  inv_epochs e : 1 <= e <= next_epoch d -> EvEpoch e ∈ trace d;
  inv_mailbox cpu m : cpus d !! cpu = Some m -> mailbox_ok (next_epoch d) (trace d) cpu m }.

Record mailbox_grows (m m' : CpuMailbox) : Prop := {
  grow_requested_tlb : requested_tlb_epoch m <= requested_tlb_epoch m';
  grow_requested_icache : requested_icache_epoch m <= requested_icache_epoch m';
  grow_completed_tlb : completed_tlb_epoch m <= completed_tlb_epoch m';
  grow_completed_icache : completed_icache_epoch m <= completed_icache_epoch m' }.

#[export] Instance mailbox_grows_preorder : PreOrder mailbox_grows.
Proof. split; [split; lia|]. intros x y z [] []. split; lia. Qed.

Record tlb_grows (d d' : TlbShootdown) : Prop := {
  grow_next : next_epoch d <= next_epoch d';
  grow_trace : exists t, trace d' = t ++ trace d;
  grow_mailbox cpu m : cpus d !! cpu = Some m ->
    exists m', cpus d' !! cpu = Some m' /\ mailbox_grows m m' }.

#[export] Instance tlb_grows_preorder : PreOrder tlb_grows.
Proof.
  split.
  - intros d. split; [lia|by exists []|]. intros cpu m Hm. exists m. by split.
  - intros d1 d2 d3 [Hn1 [t1 Ht1] Hm1] [Hn2 [t2 Ht2] Hm2]. split; [lia| |].
    + exists (t2 ++ t1). by rewrite Ht2, Ht1, app_assoc.
    + intros cpu m (m2 & H2 & Hg2)%Hm1. destruct (Hm2 _ _ H2) as (m3 & H3 & Hg3).
      exists m3. split; [done|]. by transitivity m2.
Qed.

Local Abbreviation rg := (rg tlb_inv tlb_grows).

(** ** Stable knowledge *)

(** [K]: once true, interference keeps it. *)
Definition persistent (K : TlbShootdown -> Prop) : Prop := forall d d', K d -> tlb_grows d d' -> K d'.

Lemma rg_keep {A} (p : Prog A) Q (K : TlbShootdown -> Prop) d :
  persistent K -> K d -> rg p Q d -> rg p (fun a d' => Q a d' /\ K d') d.
Proof.
  intros HK. revert d. induction p as [a| |C f k IH]; intros d Hk; simpl; [done|done|].
  intros Hp d1 Hd1 Hi. destruct (Hp d1 Hd1 Hi) as (? & Hg & ?). split; [done|]. split; [done|].
  apply IH; [|done]. eapply HK; [exact Hk|]. by transitivity d1.
Qed.

(** Sequencing with something to remember. *)
Lemma rg_bind_keep {A B} (p : Prog A) (g : A -> Prog B) R Q (K : TlbShootdown -> Prop) d :
  persistent K -> K d -> rg p R d -> (forall a d', R a d' -> K d' -> rg (g a) Q d') -> rg (p ≫= g) Q d.
Proof.
  intros HK Hk Hp Hg. eapply rg_bind; [by apply rg_keep; [exact HK|exact Hk|exact Hp]|].
  intros a d' [? ?]. by apply Hg.
Qed.

Definition epoch_known (e : Z) (d : TlbShootdown) : Prop := e <= next_epoch d.
Definition flush_known (needs : CpuMaintenance -> bool) (cpu : nat) (c : Z) (d : TlbShootdown) : Prop :=
  flushed_upto needs (trace d) cpu c.
(** The maintenance words of [cpu] request epoch [e] for the classes of [m]. *)
Definition requests (word : CpuMailbox -> Z) (e : Z) (cpu : nat) (d : TlbShootdown) : Prop :=
  exists b, cpus d !! cpu = Some b /\ e <= word b.
Definition published (m : CpuMaintenance) (e : Z) (cpu : nat) (d : TlbShootdown) : Prop :=
  (needs_tlb m = true -> requests requested_tlb_epoch e cpu d) /\
  (needs_icache m = true -> requests requested_icache_epoch e cpu d).

Lemma epoch_known_persistent e : persistent (epoch_known e).
Proof. intros d d' ? [? _ _]. unfold epoch_known in *. lia. Qed.
Lemma flush_known_persistent needs cpu c : persistent (flush_known needs cpu c).
Proof. intros d d' H [_ [t Ht] _] e He. rewrite Ht. apply flushed_later. by apply H. Qed.
Lemma requests_persistent word e cpu :
  (forall b b', mailbox_grows b b' -> word b <= word b') -> persistent (requests word e cpu).
Proof.
  intros Hw d d' (b & Hb & He) Hg. destruct (grow_mailbox _ _ Hg _ _ Hb) as (b' & Hb' & Hgb).
  exists b'. split; [done|]. specialize (Hw _ _ Hgb). lia.
Qed.
Lemma requests_tlb_persistent e cpu : persistent (requests requested_tlb_epoch e cpu).
Proof. apply requests_persistent. by intros b b' []. Qed.
Lemma requests_icache_persistent e cpu : persistent (requests requested_icache_epoch e cpu).
Proof. apply requests_persistent. by intros b b' []. Qed.
Lemma published_persistent m e cpu : persistent (published m e cpu).
Proof.
  intros d d' [Ht Hi] Hg. split; intros Hn.
  - eapply requests_tlb_persistent; [by apply Ht|done].
  - eapply requests_icache_persistent; [by apply Hi|done].
Qed.
Lemma persistent_and (K1 K2 : TlbShootdown -> Prop) :
  persistent K1 -> persistent K2 -> persistent (fun d => K1 d /\ K2 d).
Proof. intros H1 H2 d d' [? ?] Hg. split; [by eapply H1|by eapply H2]. Qed.
Lemma persistent_all {A} (P : A -> Prop) (K : A -> TlbShootdown -> Prop) :
  (forall a, persistent (K a)) -> persistent (fun d => forall a, P a -> K a d).
Proof. intros HK d d' Hall Hg a Ha. eapply HK; [by apply Hall|done]. Qed.

(** ** Atomic accesses *)

Lemma rg_on_mailbox {B} cpu (f : CpuMailbox -> B * CpuMailbox) Q d :
  (cpu < MAX_CPUS)%nat ->
  (forall d1 b, tlb_grows d d1 -> tlb_inv d1 -> cpus d1 !! cpu = Some b ->
     mailbox_ok (next_epoch d1) (trace d1) cpu (f b).2 /\ mailbox_grows b (f b).2 /\
     Q (f b).1 (mkDomain (next_epoch d1) (<[cpu := (f b).2]> (cpus d1)) (trace d1))) ->
  rg (on_mailbox cpu f) Q d.
Proof.
  intros Hcpu Hf. unfold on_mailbox. eapply rg_bind with
    (R := fun o d' => exists b, o = Some b /\ Q b d').
  2:{ intros o d' (b & -> & HQ). exact HQ. }
  apply rg_atomic. intros d1 Hd1 Hi.
  assert (is_Some (cpus d1 !! cpu)) as [b Hb].
  { apply lookup_lt_is_Some. by rewrite (inv_length _ Hi). }
  destruct (Hf d1 b Hd1 Hi Hb) as (Hok & Hg & HQ). rewrite Hb. simpl.
  assert (cpu < length (cpus d1))%nat as Hlt by (by rewrite (inv_length _ Hi)).
  split; [|split; [|by exists (f b).1]].
  - split; simpl; [by rewrite length_insert; apply Hi|apply Hi|apply Hi|].
    intros j m. destruct (decide (cpu = j)) as [<-|Hne].
    + rewrite list_lookup_insert_eq by done. by intros [= <-].
    + rewrite list_lookup_insert_ne by done. apply Hi.
  - split; simpl; [lia|by exists []|]. intros j m Hm. destruct (decide (cpu = j)) as [<-|Hne].
    + exists (f b).2. rewrite list_lookup_insert_eq by done. by simplify_eq.
    + exists m. by rewrite list_lookup_insert_ne.
Qed.

(** An access that leaves the epochs alone. *)
Lemma rg_neutral {B} cpu (f : CpuMailbox -> B * CpuMailbox) d :
  (cpu < MAX_CPUS)%nat ->
  (forall b, exists l p, (f b).2 = set_lifecycle l (set_pending_reasons p b)) ->
  rg (on_mailbox cpu f) (fun _ _ => True) d.
Proof.
  intros Hcpu Hf. apply rg_on_mailbox; [done|]. intros d1 b _ Hi Hb.
  destruct (Hf b) as (l & p & ->). pose proof (inv_mailbox _ Hi _ _ Hb) as [].
  split; [by split|]. split; [|done]. split; simpl; lia.
Qed.

Lemma rg_load {B} cpu (f : CpuMailbox -> B) Q d :
  (cpu < MAX_CPUS)%nat ->
  (forall d1 b, tlb_grows d d1 -> tlb_inv d1 -> cpus d1 !! cpu = Some b -> Q (f b) d1) ->
  rg (load cpu f) Q d.
Proof.
  intros Hcpu Hf. apply rg_on_mailbox; [done|]. intros d1 b Hd1 Hi Hb. simpl.
  split; [by apply (inv_mailbox _ Hi)|]. split; [done|].
  rewrite list_insert_id by done. destruct d1; by apply Hf.
Qed.

Lemma rg_load_any {B} cpu (f : CpuMailbox -> B) d :
  (cpu < MAX_CPUS)%nat -> rg (load cpu f) (fun _ _ => True) d.
Proof. intros Hcpu. by apply rg_load. Qed.

Lemma mailbox_id b : b = set_lifecycle (lifecycle b) (set_pending_reasons (pending_reasons b) b).
Proof. by destruct b. Qed.

Lemma rg_try_admit cpu d : (cpu < MAX_CPUS)%nat -> rg (try_admit cpu) (fun _ _ => True) d.
Proof.
  intros Hcpu. apply rg_neutral; [done|]. intros b. destruct (negb _); [eexists _, _; apply mailbox_id|].
  destruct (checked_add_usize _ _) as [next|]; [|eexists _, _; apply mailbox_id].
  exists next, (pending_reasons b). by destruct b.
Qed.
Lemma rg_release cpu d : (cpu < MAX_CPUS)%nat -> rg (release_admission cpu) (fun _ _ => True) d.
Proof. intros Hcpu. apply rg_neutral; [done|]. intros b. eexists _, (pending_reasons b). by destruct b. Qed.
Lemma rg_post_reason cpu reason d : (cpu < MAX_CPUS)%nat -> rg (post_reason cpu reason) (fun _ _ => True) d.
Proof. intros Hcpu. apply rg_neutral; [done|]. intros b. exists (lifecycle b), (Z.lor (pending_reasons b) (IpiReason.bit reason)). by destruct b. Qed.

(** Requests may name an allocated epoch. *)
Lemma rg_request_tlb cpu e d :
  (cpu < MAX_CPUS)%nat -> epoch_known e d ->
  rg (fetch_max_requested_tlb cpu e)
    (fun _ d' => requests requested_tlb_epoch e cpu d') d.
Proof.
  intros Hcpu He. apply rg_on_mailbox; [done|]. intros d1 b Hd1 Hi Hb. simpl.
  pose proof (epoch_known_persistent e d d1 He Hd1) as He1. unfold epoch_known in He1.
  pose proof (inv_mailbox _ Hi _ _ Hb) as []. split; [split; simpl; (done || lia)|].
  split; [split; simpl; lia|]. unfold requests. simpl. eexists. rewrite list_lookup_insert_eq; [split; [done|simpl; lia]|].
  by rewrite (inv_length _ Hi).
Qed.
Lemma rg_request_icache cpu e d :
  (cpu < MAX_CPUS)%nat -> epoch_known e d ->
  rg (fetch_max_requested_icache cpu e)
    (fun _ d' => requests requested_icache_epoch e cpu d') d.
Proof.
  intros Hcpu He. apply rg_on_mailbox; [done|]. intros d1 b Hd1 Hi Hb. simpl.
  pose proof (epoch_known_persistent e d d1 He Hd1) as He1. unfold epoch_known in He1.
  pose proof (inv_mailbox _ Hi _ _ Hb) as []. split; [split; simpl; (done || lia)|].
  split; [split; simpl; lia|]. unfold requests. simpl. eexists. rewrite list_lookup_insert_eq; [split; [done|simpl; lia]|].
  by rewrite (inv_length _ Hi).
Qed.

Lemma flushed_upto_max needs t cpu c1 c2 :
  flushed_upto needs t cpu c1 -> flushed_upto needs t cpu c2 -> flushed_upto needs t cpu (Z.max c1 c2).
Proof.
  intros H1 H2 e He. destruct (Z.le_gt_cases e c1); [apply H1|apply H2]; lia.
Qed.

(** Acknowledgements need a flush. *)
Lemma rg_complete_tlb cpu c d :
  (cpu < MAX_CPUS)%nat -> flush_known needs_tlb cpu c d ->
  rg (fetch_max_completed_tlb cpu c) (fun _ _ => True) d.
Proof.
  intros Hcpu Hc. apply rg_on_mailbox; [done|]. intros d1 b Hd1 Hi Hb. simpl.
  pose proof (flush_known_persistent _ _ _ _ _ Hc Hd1) as Hc1.
  pose proof (inv_mailbox _ Hi _ _ Hb) as []. split; [|split; [split; simpl; lia|done]].
  split; simpl; try done. by apply flushed_upto_max.
Qed.
Lemma rg_complete_icache cpu c d :
  (cpu < MAX_CPUS)%nat -> flush_known needs_icache cpu c d ->
  rg (fetch_max_completed_icache cpu c) (fun _ _ => True) d.
Proof.
  intros Hcpu Hc. apply rg_on_mailbox; [done|]. intros d1 b Hd1 Hi Hb. simpl.
  pose proof (flush_known_persistent _ _ _ _ _ Hc Hd1) as Hc1.
  pose proof (inv_mailbox _ Hi _ _ Hb) as []. split; [|split; [split; simpl; lia|done]].
  split; simpl; try done. by apply flushed_upto_max.
Qed.

Lemma mailbox_ok_later next next' t t' cpu b :
  next <= next' -> mailbox_ok next t cpu b -> mailbox_ok next' (t' ++ t) cpu b.
Proof.
  intros Hn []. split; [lia|lia| |]; intros e He; apply flushed_later; auto.
Qed.

Lemma rg_allocate_epoch d :
  rg allocate_epoch (fun o d' => forall e, o = Some e -> 1 <= e /\ epoch_known e d') d.
Proof.
  apply rg_atomic. intros d1 Hd1 Hi. unfold try_update, checked_add_u64.
  destruct (next_epoch d1 + 1 <=? u64_MAX); simpl; [|by split].
  pose proof (inv_next _ Hi) as Hn. split; [|split].
  - split; simpl; [apply Hi|lia| |].
    + intros e He. destruct (decide (e = next_epoch d1 + 1)) as [->|Hne]; [set_solver|].
      apply elem_of_cons. right. apply (inv_epochs _ Hi). lia.
    + intros cpu b Hb. apply (mailbox_ok_later (next_epoch d1) _ (trace d1) [_]); [lia|].
      by apply (inv_mailbox _ Hi).
  - split; simpl; [lia|by exists [EvEpoch (next_epoch d1 + 1)]|]. intros cpu b Hb. by exists b.
  - intros e [= <-]. unfold epoch_known. simpl. lia.
Qed.

(** The callback flushes what was allocated before it. *)
Lemma rg_maintain_local cpu m r1 r2 d :
  epoch_known r1 d -> epoch_known r2 d ->
  rg (maintain_local cpu m) (fun _ d' =>
    (needs_tlb m = true -> flush_known needs_tlb cpu r1 d') /\
    (needs_icache m = true -> flush_known needs_icache cpu r2 d')) d.
Proof.
  intros H1 H2. apply rg_atomic. intros d1 Hd1 Hi.
  pose proof (epoch_known_persistent _ _ _ H1 Hd1) as H1'.
  pose proof (epoch_known_persistent _ _ _ H2 Hd1) as H2'. simpl. split; [|split].
  - split; simpl; [apply Hi|apply Hi| |].
    + intros e He. apply elem_of_cons. right. by apply (inv_epochs _ Hi).
    + intros j b Hb. apply (mailbox_ok_later (next_epoch d1) _ (trace d1) [_]); [lia|].
      by apply (inv_mailbox _ Hi).
  - split; simpl; [lia|by exists [EvMaintain cpu m]|]. intros j b Hb. by exists b.
  - unfold epoch_known, flush_known in *. split; intros Hn e He; exists [], m, (trace d1);
      (split; [done|]); (split; [done|]); apply (inv_epochs _ Hi); lia.
Qed.

End Invariant.

Import CpuMaintenance.

Section Protocol.
Context (MAX_CPUS : nat).
Local Abbreviation rg := (rg (tlb_inv MAX_CPUS) tlb_grows).

Definition anything {A} : A -> TlbShootdown -> Prop := fun _ _ => True.

(** Sequencing when nothing needs to be remembered. *)
Lemma rg_seq {A B} (p : Prog A) (g : A -> Prog B) (R : A -> TlbShootdown -> Prop) Q d :
  rg p R d -> (forall a d, rg (g a) Q d) -> rg (p ≫= g) Q d.
Proof. intros Hp Hg. eapply rg_bind; [exact Hp|]. intros a d' _. apply Hg. Qed.

Lemma rg_ret {A} (a : A) (Q : A -> TlbShootdown -> Prop) d : Q a d -> rg (mret a) Q d.
Proof. done. Qed.

Lemma rg_if {A} (b : bool) (p q : Prog A) Q d :
  (b = true -> rg p Q d) -> (b = false -> rg q Q d) -> rg (if b then p else q) Q d.
Proof. destruct b; auto. Qed.

Lemma rg_exchange {A} cpu (c : CpuMailbox -> bool) (a1 a2 : A) (l : CpuMailbox -> Z) d :
  (cpu < MAX_CPUS)%nat ->
  rg (on_mailbox cpu (fun m => if c m then (a1, set_lifecycle (l m) m) else (a2, m))) anything d.
Proof.
  intros Hcpu. apply rg_neutral; [done|]. intros b.
  destruct (c b); [exists (l b), (pending_reasons b)|exists (lifecycle b), (pending_reasons b)]; by destruct b.
Qed.

Lemma cpu_valid_lt cpu : negb (cpu_valid MAX_CPUS cpu) = false -> (cpu < MAX_CPUS)%nat.
Proof. unfold cpu_valid. rewrite negb_false_iff. apply bool_decide_eq_true. Qed.

Lemma rg_publish_online cpu d : rg (publish_online MAX_CPUS cpu) anything d.
Proof.
  apply rg_if; intros Hv; [done|]. apply negb_false_iff, bool_decide_eq_true in Hv.
  eapply rg_seq; [by apply rg_load_any|]. intros p d1.
  eapply (rg_seq _ _ anything); [|intros tlb d2].
  { apply rg_if; intros _; [|done]. eapply rg_seq; [by apply rg_load_any|]. intros r d2.
    eapply rg_seq; [by apply rg_load_any|]. done. }
  eapply (rg_seq _ _ anything); [|intros icache d3].
  { apply rg_if; intros _; [|done]. eapply rg_seq; [by apply rg_load_any|]. intros r d3.
    eapply rg_seq; [by apply rg_load_any|]. done. }
  apply rg_if; intros _; [done|]. by apply rg_exchange.
Qed.

Lemma rg_begin_offline cpu d : rg (begin_offline MAX_CPUS cpu) anything d.
Proof.
  apply rg_if; intros Hv; [done|]. apply negb_false_iff, bool_decide_eq_true in Hv.
  apply rg_neutral; [done|]. intros b. destruct (negb _); [eexists _, _; apply mailbox_id|].
  exists (Z.lor (Z.ldiff (lifecycle b) CPU_STATE_MASK) CPU_DRAINING), (pending_reasons b). by destruct b.
Qed.

Lemma rg_complete_offline cpu d : rg (complete_offline MAX_CPUS cpu) anything d.
Proof.
  apply rg_if; intros Hv; [done|]. apply negb_false_iff, bool_decide_eq_true in Hv.
  eapply rg_seq; [by apply rg_load_any|]. intros l d1. apply rg_if; intros _; [done|].
  apply rg_if; intros _; [done|]. eapply rg_seq; [by apply rg_load_any|]. intros rt d2.
  eapply rg_seq; [by apply rg_load_any|]. intros ct d3.
  eapply (rg_seq _ _ anything); [|intros icache d4].
  { apply rg_if; intros _; [done|]. eapply rg_seq; [by apply rg_load_any|]. intros r d4.
    eapply rg_seq; [by apply rg_load_any|]. done. }
  apply rg_if; intros _; [done|]. eapply rg_seq; [by apply rg_load_any|]. intros p d5.
  apply rg_if; intros _; [done|]. by apply (rg_exchange cpu _ _ _ (fun _ => CPU_OFFLINE)).
Qed.

Lemma rg_post cpu reason d : rg (post_non_maintenance_reason MAX_CPUS cpu reason) anything d.
Proof.
  apply rg_if; intros _; [done|]. apply rg_if; intros Hv; [done|].
  apply negb_false_iff, bool_decide_eq_true in Hv.
  eapply rg_seq; [by apply rg_try_admit|]. intros [[]|[]] d1; [|done|done].
  eapply rg_seq; [by apply rg_post_reason|]. intros post d2.
  eapply rg_seq; [by apply rg_release|]. done.
Qed.

Lemma rg_take_pending cpu d : rg (take_pending_reasons MAX_CPUS cpu) anything d.
Proof.
  apply rg_if; intros Hv; [done|]. apply negb_false_iff, bool_decide_eq_true in Hv.
  eapply rg_seq; [|by intros]. apply rg_neutral; [done|]. intros b. exists (lifecycle b), 0. by destruct b.
Qed.

Lemma rg_snapshot cpu d : rg (cpu_snapshot MAX_CPUS cpu) anything d.
Proof.
  apply rg_if; intros Hv; [done|]. apply negb_false_iff, bool_decide_eq_true in Hv.
  eapply rg_seq; [|by intros]. instantiate (1 := anything). unfold mailbox_snapshot.
  do 6 (eapply rg_seq; [by apply rg_load_any|]; intros ? ?). done.
Qed.

(** ** Publication *)

(** Publishing an allocated epoch to a target. *)
Lemma rg_publish_target cpu m e d :
  (cpu < MAX_CPUS)%nat -> epoch_known e d -> rg (publish_target cpu m e) (fun _ d' => published m e cpu d') d.
Proof.
  intros Hcpu He. unfold publish_target.
  apply rg_bind with (R := fun _ d' => epoch_known e d' /\
    (needs_tlb m = true -> requests requested_tlb_epoch e cpu d')).
  { apply rg_if; intros Hn; [|by apply rg_ret; rewrite Hn].
    eapply rg_bind_keep; [apply (epoch_known_persistent e)|done|by apply rg_request_tlb|].
    intros a d1 ? ?. by apply rg_ret. }
  intros [] d1 [He1 Ht]. eapply (rg_bind_keep _ _ _
    (fun _ d' => needs_icache m = true -> requests requested_icache_epoch e cpu d')
    _ (fun d' => needs_tlb m = true -> requests requested_tlb_epoch e cpu d')); [|exact Ht| |].
  { intros x y Hx Hg Hn. eapply requests_tlb_persistent; [by apply Hx|done]. }
  { apply rg_if; intros Hn; [|by apply rg_ret; rewrite Hn].
    eapply rg_bind; [by apply rg_request_icache|]. intros a d2 ?. by apply rg_ret. }
  intros [] d2 Hi2 Ht2. eapply rg_mono; [|apply (rg_keep _ _ anything (published m e cpu))].
  - intros a d3 [_ Hp]. exact Hp.
  - apply published_persistent.
  - by split.
  - by apply rg_post_reason.
Qed.

(** The targets of a set, all published. *)
Definition all_published (m : CpuMaintenance) (e : Z) (targets : CpuSet) (d : TlbShootdown) : Prop :=
  forall cpu, CpuSet.contains targets cpu = true -> published m e cpu d.

Lemma all_published_persistent m e targets : persistent (all_published m e targets).
Proof. apply persistent_all. intros cpu. apply published_persistent. Qed.

Lemma contains_insert targets cpu j :
  (cpu < length targets)%nat ->
  CpuSet.contains (<[cpu := true]> targets) j = true -> j = cpu \/ CpuSet.contains targets j = true.
Proof.
  intros Hlt. unfold CpuSet.contains. destruct (decide (cpu = j)) as [->|Hne]; [by left|].
  rewrite list_lookup_insert_ne by done. by right.
Qed.

Lemma rg_publish_online_targets issuer m e rest targets kicks d :
  (forall cpu, cpu ∈ rest -> (cpu < MAX_CPUS)%nat) -> length targets = MAX_CPUS -> length kicks = MAX_CPUS ->
  epoch_known e d -> all_published m e targets d ->
  rg (publish_online_targets issuer m e rest targets kicks) (fun r d' =>
    forall targets' kicks', r = Ok (targets', kicks') -> length targets' = MAX_CPUS /\ all_published m e targets' d') d.
Proof.
  revert targets kicks d. induction rest as [|cpu rest IH]; intros targets kicks d Hrest Ht Hk He Hp; cbn [publish_online_targets].
  { apply rg_ret. by intros targets' kicks' [= <- <-]. }
  assert (forall cpu, cpu ∈ rest -> (cpu < MAX_CPUS)%nat) as Hrest' by set_solver.
  assert (cpu < MAX_CPUS)%nat as Hcpu by (apply Hrest; set_solver).
  case_decide; [by apply IH|].
  set (K := fun d => epoch_known e d /\ all_published m e targets d).
  assert (persistent K) as HK
    by (apply persistent_and; [apply epoch_known_persistent|apply all_published_persistent]).
  eapply (rg_bind_keep _ _ _ _ _ K); [done|done|by apply rg_try_admit|].
  intros [[]|[]] d1 _ [He1 Hp1]; [|by apply IH|by apply rg_ret].
  eapply (rg_bind_keep _ _ _ _ _ K); [done|done|by apply rg_publish_target|].
  intros post d2 Hpub [He2 Hp2]. unfold CpuSet.try_insert.
  assert (is_Some (targets !! cpu)) as [b ->] by (apply lookup_lt_is_Some; lia).
  rewrite decide_True by lia.
  set (K' := fun d => epoch_known e d /\ all_published m e (<[cpu := true]> targets) d).
  assert (persistent K') as HK'
    by (apply persistent_and; [apply epoch_known_persistent|apply all_published_persistent]).
  assert (K' d2) as Hk2.
  { split; [done|]. intros j [->|Hj]%contains_insert; [done|by apply Hp2|lia]. }
  eapply (rg_bind_keep _ _ _ _ _ K'); [done|done|by apply rg_release|].
  intros [] d3 _ [He3 Hp3]. apply IH; [done|by rewrite length_insert|by rewrite length_insert|done|done].
Qed.

(** What an issued request promises. *)
Definition issued_ok (r : ShootdownRequest) (d : TlbShootdown) : Prop :=
  (issuer_admission r < MAX_CPUS)%nat /\ 1 <= epoch r /\ length (targets r) = MAX_CPUS /\
  all_published (maintenance r) (epoch r) (targets r) d.

Lemma issued_ok_persistent r : persistent (issued_ok r).
Proof.
  intros d d' (? & ? & ? & Hp) Hg. split_and!; try done. by eapply all_published_persistent.
Qed.

Definition issue_post (m : CpuMaintenance) (x : result ShootdownRequest ShootdownIssueError)
    (d : TlbShootdown) : Prop :=
  forall r, x = Ok r -> issued_ok r d /\ maintenance r = m.

Lemma rg_release_then {A} cpu (a : A) Q d :
  (cpu < MAX_CPUS)%nat -> (forall d', Q a d') -> rg (release_admission cpu ;; mret a) Q d.
Proof. intros Hcpu HQ. eapply rg_seq; [by apply rg_release|]. intros [] d'. by apply rg_ret. Qed.

Lemma rg_issue issuer m d : rg (issue_after_local_maintenance MAX_CPUS issuer m) (issue_post m) d.
Proof.
  apply rg_if; intros Hv; [by apply rg_ret|]. apply negb_false_iff, bool_decide_eq_true in Hv.
  eapply rg_seq; [by apply rg_try_admit|]. intros [[]|err] d1; [|by apply rg_ret].
  eapply rg_bind; [apply rg_allocate_epoch|]. intros [e|] d2 He; [|by apply rg_release_then].
  destruct (He e eq_refl) as [Hpos Hknown].
  eapply rg_bind; [eapply (rg_publish_online_targets issuer m e)|].
  - intros cpu Hc%elem_of_seq. lia.
  - apply length_replicate.
  - apply length_replicate.
  - done.
  - intros cpu. unfold CpuSet.contains, CpuSet.new.
    destruct (replicate MAX_CPUS false !! cpu) as [b|] eqn:Hb; [|done].
    by apply lookup_replicate in Hb as [-> _].
  - intros [[targets kicks]|err] d3 Hr; [|by apply rg_release_then].
    destruct (Hr targets kicks eq_refl) as [Hlen Hpub]. apply rg_ret. intros r [= <-].
    split; [|done]. by split_and!.
Qed.

(** ** Targeted requests *)

Lemma rg_release_all admitted d :
  (forall cpu, cpu ∈ admitted -> (cpu < MAX_CPUS)%nat) -> rg (release_all admitted) anything d.
Proof.
  revert d. induction admitted as [|cpu l IH]; intros d Hl; cbn [release_all]; [done|].
  eapply rg_seq; [apply rg_release; set_solver|]. intros [] d'. apply IH. set_solver.
Qed.

Lemma rg_admit_targets targets rest admitted d :
  (forall cpu, cpu ∈ rest -> (cpu < MAX_CPUS)%nat) -> (forall cpu, cpu ∈ admitted -> (cpu < MAX_CPUS)%nat) ->
  rg (admit_targets targets rest admitted)
    (fun x _ => forall cpu, cpu ∈ x.1 -> (cpu < MAX_CPUS)%nat) d.
Proof.
  revert admitted d. induction rest as [|cpu rest IH]; intros admitted d Hr Ha; cbn [admit_targets]; [done|].
  apply rg_if; intros _; [apply IH; set_solver|].
  eapply rg_seq; [apply rg_try_admit; set_solver|]. intros [[]|err] d1; [|by apply rg_ret].
  apply IH; set_solver.
Qed.

Lemma rg_publish_targets targets m e rest kicks d (done_ : list nat) :
  (forall cpu, cpu ∈ rest -> (cpu < MAX_CPUS)%nat) -> epoch_known e d ->
  (forall cpu, cpu ∈ done_ -> CpuSet.contains targets cpu = true -> published m e cpu d) ->
  rg (publish_targets targets m e rest kicks) (fun _ d' =>
    forall cpu, cpu ∈ done_ ++ rest -> CpuSet.contains targets cpu = true -> published m e cpu d') d.
Proof.
  revert kicks d done_. induction rest as [|cpu rest IH]; intros kicks d done_ Hr He Hd; cbn [publish_targets].
  { apply rg_ret. by rewrite app_nil_r. }
  rewrite (assoc_L app done_ [cpu] rest : done_ ++ cpu :: rest = _).
  apply rg_if; intros Hc.
  { apply IH; [set_solver|done|]. intros j [Hj|Hj]%elem_of_app Ht; [by apply Hd|].
    apply list_elem_of_singleton in Hj as ->. by rewrite Ht in Hc. }
  set (K := fun d => epoch_known e d /\
    forall x, (x ∈ done_ /\ CpuSet.contains targets x = true) -> published m e x d).
  assert (persistent K) as HK.
  { apply persistent_and; [apply epoch_known_persistent|].
    apply (persistent_all _ (fun x => published m e x)). intros x. apply published_persistent. }
  eapply (rg_bind_keep _ _ _ _ _ K); [done|split; naive_solver|apply rg_publish_target; [set_solver|done]|].
  intros post d1 Hp [He1 Hd1]. apply IH; [set_solver|done|].
  intros j [Hj|Hj]%elem_of_app Ht; [by apply Hd1|]. by apply list_elem_of_singleton in Hj as ->.
Qed.

Lemma rg_issue_targets issuer targets m d :
  length targets = MAX_CPUS ->
  rg (issue_after_local_maintenance_for_targets MAX_CPUS issuer targets m) (issue_post m) d.
Proof.
  intros Hlen. apply rg_if; intros Hv; [by apply rg_ret|]. apply negb_false_iff, bool_decide_eq_true in Hv.
  apply rg_if; intros _; [by apply rg_ret|]. apply rg_if; intros _; [by apply rg_ret|].
  eapply rg_seq; [by apply rg_try_admit|]. intros [[]|err] d1; [|by apply rg_ret].
  assert (forall cpu, cpu ∈ seq 0 MAX_CPUS -> (cpu < MAX_CPUS)%nat) as Hseq by (intros cpu Hc%elem_of_seq; lia).
  eapply rg_bind; [apply rg_admit_targets; [done|set_solver]|].
  intros [admitted [err|]] d2 Hadm; simpl in Hadm.
  { eapply rg_seq; [by apply rg_release_all|]. intros [] d3. by apply rg_release_then. }
  eapply rg_bind; [apply rg_allocate_epoch|]. intros [e|] d3 He.
  2:{ eapply rg_seq; [by apply rg_release_all|]. intros [] d4. by apply rg_release_then. }
  destruct (He e eq_refl) as [Hpos Hknown].
  eapply rg_bind; [apply (rg_publish_targets targets m e _ _ _ []); [done|done|set_solver]|].
  intros kicks d4 Hpub. cbn [app] in Hpub.
  assert (all_published m e targets d4) as Hall.
  { intros cpu Hc. apply Hpub; [|done]. apply elem_of_seq. unfold CpuSet.contains in Hc.
    destruct (targets !! cpu) as [b|] eqn:Hb; [|done]. apply lookup_lt_Some in Hb. lia. }
  eapply (rg_bind_keep _ _ _ _ _ (all_published m e targets));
    [apply all_published_persistent|done|by apply rg_release_all|].
  intros [] d5 _ Hall5. apply rg_ret. intros r [= <-]. split; [|done]. by split_and!.
Qed.

(** ** Service and grace *)

Lemma rg_service cpu d : rg (service_maintenance MAX_CPUS cpu) anything d.
Proof.
  apply rg_if; intros Hv; [done|]. apply negb_false_iff, bool_decide_eq_true in Hv.
  eapply (rg_bind _ _ _ _ _ (fun r d' => epoch_known r d')).
  { apply rg_load; [done|]. intros d1 b _ Hi Hb. apply (inv_mailbox _ _ Hi _ _ Hb). }
  intros rt d1 Hrt. eapply rg_bind_keep; [apply (epoch_known_persistent rt)|done|by apply rg_load_any|].
  intros ct d2 _ Hrt2. eapply (rg_bind_keep _ _ _ (fun r d' => epoch_known r d'));
    [apply (epoch_known_persistent rt)|done| |].
  { apply rg_load; [done|]. intros d3 b _ Hi Hb. apply (inv_mailbox _ _ Hi _ _ Hb). }
  intros ri d3 Hri Hrt3. set (K := fun d => epoch_known rt d /\ epoch_known ri d).
  assert (persistent K) as HK by (apply persistent_and; apply epoch_known_persistent).
  eapply (rg_bind_keep _ _ _ _ _ K); [done|done|by apply rg_load_any|]. intros ci d4 _ [Hrt4 Hri4].
  destruct (from_pending _ _) as [m|]; [|done].
  eapply rg_bind; [by apply (rg_maintain_local MAX_CPUS cpu m rt ri)|].
  intros [] d5 [Ht Hi].
  eapply (rg_bind_keep _ _ _ anything _ (fun d => needs_icache m = true -> flush_known needs_icache cpu ri d)).
  { intros x y Hx Hg Hn. eapply flush_known_persistent; [by apply Hx|done]. }
  { done. }
  { apply rg_if; intros Hn; [|done]. eapply rg_seq; [apply rg_complete_tlb; [done|by apply Ht]|]. done. }
  intros tlb d6 _ Hi6. eapply (rg_seq _ _ anything); [|done].
  apply rg_if; intros Hn; [|done]. eapply rg_seq; [apply rg_complete_icache; [done|by apply Hi6]|]. done.
Qed.

(** A target that is not pending has been flushed since the epoch. *)
Definition target_flushed (r : ShootdownRequest) (cpu : nat) (d : TlbShootdown) : Prop :=
  (needs_tlb (maintenance r) = true -> flushed needs_tlb (trace d) cpu (epoch r)) /\
  (needs_icache (maintenance r) = true -> flushed needs_icache (trace d) cpu (epoch r)).

Lemma flushed_persistent needs cpu e : persistent (fun d => flushed needs (trace d) cpu e).
Proof. intros d d' Hf [_ [t Ht] _]. rewrite Ht. by apply flushed_later. Qed.

Lemma target_flushed_persistent r cpu : persistent (target_flushed r cpu).
Proof.
  intros d d' [Ht Hi] Hg. split; intros Hn; (eapply flushed_persistent; [|done]); auto.
Qed.

Lemma rg_acknowledged cpu (word : CpuMailbox -> Z) needs e d :
  (cpu < MAX_CPUS)%nat -> 1 <= e ->
  (forall next t b, mailbox_ok next t cpu b -> flushed_upto needs t cpu (word b)) ->
  rg (c ← load cpu word; mret (c <? e)) (fun b d' => b = false -> flushed needs (trace d') cpu e) d.
Proof.
  intros Hcpu He Hw. apply rg_bind with (R := fun c d' => flushed_upto needs (trace d') cpu c).
  - apply rg_load; [done|]. intros d1 b _ Hi Hb. exact (Hw _ _ _ (inv_mailbox _ _ Hi _ _ Hb)).
  - intros c d1 Hc. apply rg_ret. intros Hlt%Z.ltb_ge. apply Hc. lia.
Qed.

Lemma rg_target_pending r cpu d :
  1 <= epoch r -> (CpuSet.contains (targets r) cpu = true -> (cpu < MAX_CPUS)%nat) ->
  rg (target_pending r cpu) (fun b d' =>
    b = false -> CpuSet.contains (targets r) cpu = true -> target_flushed r cpu d') d.
Proof.
  intros He Hlt. unfold target_pending. destruct (CpuSet.contains (targets r) cpu) eqn:Hc; cbn [negb].
  2:{ by apply rg_ret. }
  specialize (Hlt eq_refl).
  eapply (rg_bind _ _ _ _ _ (fun b d' => b = false -> needs_tlb (maintenance r) = true ->
    flushed needs_tlb (trace d') cpu (epoch r))).
  { apply rg_if; intros Hn; [|by apply rg_ret; rewrite Hn].
    eapply rg_mono; [|apply (rg_acknowledged cpu completed_tlb_epoch needs_tlb); [done|done|]].
    - intros b d1 Hb ? _. by apply Hb.
    - by intros next t b []. }
  intros b d1 Hb. apply rg_if; intros ->; [by apply rg_ret|]. specialize (Hb eq_refl).
  apply rg_if; intros Hn.
  - set (K := fun d => needs_tlb (maintenance r) = true -> flushed needs_tlb (trace d) cpu (epoch r)).
    eapply rg_mono; [|eapply (rg_keep _ _ _ K)].
    2:{ intros x y Hx Hg Ht. eapply flushed_persistent; [by apply Hx|done]. }
    2: exact Hb.
    2:{ apply (rg_acknowledged cpu completed_icache_epoch needs_icache); [done|done|]. by intros next t b []. }
    intros b d2 [Hi Ht] Hf _. split; [done|]. intros _. by apply Hi.
  - apply rg_ret. intros _ _. split; [done|]. by rewrite Hn.
Qed.

Definition grace_post (r : ShootdownRequest) (g : option ShootdownGrace) (d : TlbShootdown) : Prop :=
  forall grace, g = Some grace -> grace = mkGrace (epoch r) (maintenance r) /\
    forall cpu, CpuSet.contains (targets r) cpu = true -> target_flushed r cpu d.

Lemma rg_try_complete_loop r rest d (seen : list nat) :
  1 <= epoch r -> length (targets r) = MAX_CPUS ->
  (forall cpu, cpu ∈ seen -> CpuSet.contains (targets r) cpu = true -> target_flushed r cpu d) ->
  (forall cpu, CpuSet.contains (targets r) cpu = true -> cpu ∈ seen ++ rest) ->
  rg (try_complete_loop r rest) (grace_post r) d.
Proof.
  intros He Hlen. revert d seen. induction rest as [|cpu rest IH]; intros d seen Hseen Hall; cbn [try_complete_loop].
  { apply rg_ret. intros grace [= <-]. split; [done|]. intros cpu Hc. apply Hseen; [|done].
    apply Hall in Hc. by rewrite app_nil_r in Hc. }
  assert (forall x, CpuSet.contains (targets r) x = true -> x ∈ (seen ++ [cpu]) ++ rest) as Hall'.
  { intros x Hx. rewrite <- app_assoc. by apply Hall. }
  apply rg_if; intros Hc.
  2:{ apply (IH d (seen ++ [cpu])); [|done]. intros x [Hx|Hx]%elem_of_app Ht; [by apply Hseen|].
      apply list_elem_of_singleton in Hx as ->. by rewrite Hc in Ht. }
  set (K := fun d => forall x, (x ∈ seen /\ CpuSet.contains (targets r) x = true) -> target_flushed r x d).
  eapply (rg_bind_keep _ _ _ _ _ K).
  - apply (persistent_all _ (fun x => target_flushed r x)). intros x. apply target_flushed_persistent.
  - intros x [? ?]. by apply Hseen.
  - apply rg_target_pending; [done|]. intros Hx. unfold CpuSet.contains in Hx.
    destruct (targets r !! cpu) as [b|] eqn:Hb; [|done]. apply lookup_lt_Some in Hb. lia.
  - intros b d1 Hb Hk. apply rg_if; intros ->; [by apply rg_ret|].
    apply (IH d1 (seen ++ [cpu])); [|done]. intros x [Hx|Hx]%elem_of_app Ht; [by apply Hk|].
    apply list_elem_of_singleton in Hx as ->. by apply Hb.
Qed.

Lemma rg_try_complete r d : issued_ok r d -> rg (try_complete MAX_CPUS r) (grace_post r) d.
Proof.
  intros (_ & He & Hlen & _). apply (rg_try_complete_loop r _ d []); [done|done|set_solver|].
  intros cpu Hc. apply elem_of_seq. unfold CpuSet.contains in Hc.
  destruct (targets r !! cpu) as [b|] eqn:Hb; [|done]. apply lookup_lt_Some in Hb. lia.
Qed.

(** ** Pools of CPUs *)

(** Responses that later operations or the theorems refer to. *)
Inductive tlb_response : Type :=
| RIssued (x : result ShootdownRequest ShootdownIssueError)
| RGrace (r : ShootdownRequest) (g : option ShootdownGrace)
| RPending (r : ShootdownRequest) (cpu : nat) (b : bool)
| RDone.

Definition answer {A} (f : A -> tlb_response) (p : Prog A) : Prog tlb_response := a ← p; mret (f a).
Definition ignore {A} (p : Prog A) : Prog tlb_response := answer (fun _ => RDone) p.

(** Any method may be called at any time with any arguments; the methods of a
    request only on a request that was issued. *)
Inductive tlb_starts (rs : list tlb_response) : Prog tlb_response -> Prop :=
| start_online cpu : tlb_starts rs (ignore (publish_online MAX_CPUS cpu))
| start_offline cpu : tlb_starts rs (ignore (begin_offline MAX_CPUS cpu))
| start_commit cpu : tlb_starts rs (ignore (complete_offline MAX_CPUS cpu))
| start_post cpu reason : tlb_starts rs (ignore (post_non_maintenance_reason MAX_CPUS cpu reason))
| start_issue cpu m : tlb_starts rs (answer RIssued (issue_after_local_maintenance MAX_CPUS cpu m))
| start_issue_targets cpu set m : length set = MAX_CPUS ->
    tlb_starts rs (answer RIssued (issue_after_local_maintenance_for_targets MAX_CPUS cpu set m))
| start_take cpu : tlb_starts rs (ignore (take_pending_reasons MAX_CPUS cpu))
| start_service cpu : tlb_starts rs (ignore (service_maintenance MAX_CPUS cpu))
| start_snapshot cpu : tlb_starts rs (ignore (cpu_snapshot MAX_CPUS cpu))
| start_pending r cpu : RIssued (Ok r) ∈ rs -> tlb_starts rs (answer (RPending r cpu) (target_pending r cpu))
| start_complete r : RIssued (Ok r) ∈ rs -> tlb_starts rs (answer (RGrace r) (try_complete MAX_CPUS r))
| start_drop r : RIssued (Ok r) ∈ rs -> tlb_starts rs (ignore (drop_request r)).

Definition response_ok (a : tlb_response) (d : TlbShootdown) : Prop :=
  match a with
  | RIssued (Ok r) => issued_ok r d
  | RGrace r g => grace_post r g d
  | RPending r cpu b => b = false -> CpuSet.contains (targets r) cpu = true -> target_flushed r cpu d
  | _ => True
  end.

Lemma response_ok_stable : stable tlb_grows response_ok.
Proof.
  intros [[r|]|r g|r cpu b|] d d' Ha Hg; simpl in *; try done.
  - by eapply issued_ok_persistent.
  - intros grace Hgr. destruct (Ha grace Hgr) as [? Hall]. split; [done|].
    intros cpu Hc. eapply target_flushed_persistent; [by apply Hall|done].
  - intros Hb Hc. eapply target_flushed_persistent; [by apply Ha|done].
Qed.

Lemma rg_answer {A} (f : A -> tlb_response) (p : Prog A) R d :
  rg p R d -> (forall a d', R a d' -> response_ok (f a) d') -> rg (answer f p) response_ok d.
Proof. intros Hp Hf. eapply rg_bind; [exact Hp|]. intros a d' Ha. apply rg_ret. by apply Hf. Qed.

Lemma starts_ok rs p d :
  tlb_starts rs p -> (forall a, a ∈ rs -> response_ok a d) -> rg p response_ok d.
Proof.
  intros Hp Hrs. destruct Hp as [cpu|cpu|cpu|cpu reason|cpu m|cpu set m Hset|cpu|cpu|cpu|r cpu Hr|r Hr|r Hr].
  - eapply rg_answer; [apply rg_publish_online|done].
  - eapply rg_answer; [apply rg_begin_offline|done].
  - eapply rg_answer; [apply rg_complete_offline|done].
  - eapply rg_answer; [apply rg_post|done].
  - eapply rg_answer; [apply rg_issue|]. intros [r|] d' Ha; [|done]. by apply (Ha r).
  - eapply rg_answer; [by apply rg_issue_targets|]. intros [r|] d' Ha; [|done]. by apply (Ha r).
  - eapply rg_answer; [apply rg_take_pending|done].
  - eapply rg_answer; [apply rg_service|done].
  - eapply rg_answer; [apply rg_snapshot|done].
  - destruct (Hrs _ Hr) as (_ & He & Hlen & _). eapply rg_answer; [apply rg_target_pending; [done|]|done].
    intros Hx. unfold CpuSet.contains in Hx.
    destruct (targets r !! cpu) as [b|] eqn:Hb; [|done]. apply lookup_lt_Some in Hb. lia.
  - eapply rg_answer; [apply rg_try_complete; exact (Hrs _ Hr)|done].
  - destruct (Hrs _ Hr) as (Hi & _). eapply rg_answer; [by apply rg_release|done].
Qed.

Lemma shootdown_new_inv : tlb_inv MAX_CPUS (shootdown_new MAX_CPUS).
Proof.
  split; simpl; [apply length_replicate|lia|lia|].
  intros cpu m [-> _]%lookup_replicate. split; simpl; try lia; intros e He; lia.
Qed.

Lemma tlb_pool_ok c :
  pool_reaches tlb_starts (shootdown_new MAX_CPUS) c ->
  tlb_inv MAX_CPUS (shared c) /\ pool_safe c /\ (forall a, a ∈ finished c -> response_ok a (shared c)).
Proof.
  intros Hc. destruct (pool_sound (tlb_inv MAX_CPUS) tlb_grows tlb_starts response_ok
    (shootdown_new MAX_CPUS) c) as (? & ? & ? & _); [apply response_ok_stable|apply shootdown_new_inv| |done|done].
  intros rs p d Hp _ Hrs. by apply (starts_ok rs).
Qed.

End Protocol.
