(* ===== verification/TlbVerified.v ===== *)
(** TLB shootdown, part 4: the guarantees of a domain. The first holds for
    every interleaving of the atomic steps of any number of callers; the others
    say what one call does when nothing interferes. *)

From S2P Require Import Prelude Effects Atomics Concurrent Tlb TlbProtocol.
Import CpuMaintenance.
Local Open Scope Z_scope.

(** C38: grace means flushed. In every interleaving of any methods of a domain,
    a request for which [try_complete] has returned grace has been served by
    each of its targets: for each class the request asked for, the maintenance
    callback ran on that CPU with this class after the epoch of the request was
    allocated. The grace names the epoch and the classes of the request, and no
    method panics. *)
Theorem grace_implies_flush (MAX_CPUS : nat) c :
  pool_reaches (tlb_starts MAX_CPUS) (shootdown_new MAX_CPUS) c ->
  pool_safe c /\
  forall r g, RGrace r (Some g) ∈ finished c -> g = mkGrace (epoch r) (maintenance r) /\
  forall cpu, CpuSet.contains (targets r) cpu = true ->
    (needs_tlb (maintenance r) = true -> flushed needs_tlb (trace (shared c)) cpu (epoch r)) /\
    (needs_icache (maintenance r) = true -> flushed needs_icache (trace (shared c)) cpu (epoch r)).
Proof.
  intros Hc. destruct (tlb_pool_ok MAX_CPUS c Hc) as (_ & Hsafe & Hok). split; [done|].
  intros r g Hg. destruct (Hok _ Hg g eq_refl) as [-> Hall]. split; [done|]. exact Hall.
Qed.

(** ** One call without interference *)

Definition set_mailbox (cpu : nat) (b : CpuMailbox) (d : TlbShootdown) : TlbShootdown :=
  mkDomain (next_epoch d) (<[cpu := b]> (cpus d)) (trace d).

Lemma run_on_mailbox {B} cpu (f : CpuMailbox -> B * CpuMailbox) d b :
  cpus d !! cpu = Some b -> run (on_mailbox cpu f) d = Some ((f b).1, set_mailbox cpu (f b).2 d).
Proof. intros Hb. unfold on_mailbox. rewrite run_bind, run_atomic, Hb. by destruct (f b). Qed.

Definition online (b : CpuMailbox) : bool := Z.land (lifecycle b) CPU_STATE_MASK =? CPU_ONLINE.

(** Room for one more admission in a lifecycle word. *)
Definition admits (b : CpuMailbox) : Prop := 0 <= lifecycle b /\ lifecycle b + ADMISSION_ONE <= usize_MAX.

Definition admitted_box (b : CpuMailbox) : CpuMailbox := set_lifecycle (lifecycle b + ADMISSION_ONE) b.

Lemma run_try_admit cpu d b :
  cpus d !! cpu = Some b ->
  run (try_admit cpu) d =
    if online b then
      match checked_add_usize (lifecycle b) ADMISSION_ONE with
      | Some _ => Some (Ok tt, set_mailbox cpu (admitted_box b) d)
      | None => Some (Err Exhausted, d)
      end
    else Some (Err Unavailable, d).
Proof.
  intros Hb. unfold try_admit. rewrite (run_on_mailbox _ _ _ _ Hb). fold (online b).
  assert (set_mailbox cpu b d = d) as Hid.
  { unfold set_mailbox. rewrite list_insert_id by done. by destruct d. }
  destruct (online b); simpl; [|by rewrite Hid]. unfold checked_add_usize, admitted_box.
  destruct (_ <=? usize_MAX); simpl; [done|by rewrite Hid].
Qed.

Lemma release_admitted b :
  admits b -> set_lifecycle ((lifecycle (admitted_box b) - ADMISSION_ONE) mod (usize_MAX + 1)) (admitted_box b) = b.
Proof.
  intros [Hlo Hhi]. unfold admitted_box, set_lifecycle, ADMISSION_ONE, CPU_STATE_MASK in *. simpl in *.
  replace (lifecycle b + (3 + 1) - (3 + 1)) with (lifecycle b) by lia.
  rewrite Z.mod_small by lia. by destruct b.
Qed.

(** [d'] is [d] with one more admission for the CPUs of [held]. *)
Record holds (d d' : TlbShootdown) (held : list nat) : Prop := {
  holds_next : next_epoch d' = next_epoch d;
  holds_trace : trace d' = trace d;
  holds_nodup : NoDup held;
  holds_length : length (cpus d') = length (cpus d);
  holds_box cpu b : cpus d !! cpu = Some b ->
    cpus d' !! cpu = Some (if decide (cpu ∈ held) then admitted_box b else b);
  holds_admits cpu : cpu ∈ held -> exists b, cpus d !! cpu = Some b /\ admits b }.

Lemma holds_refl d : holds d d [].
Proof.
  split; [done|done|apply NoDup_nil_2|done| |set_solver].
  intros cpu b ->. by rewrite decide_False by set_solver.
Qed.

Lemma holds_nil d d' : holds d d' [] -> d' = d.
Proof.
  intros [Hn Ht _ Hl Hb _]. destruct d as [n cs t], d' as [n' cs' t']. cbn [next_epoch trace cpus] in *. subst. f_equal.
  apply list_eq. intros cpu. destruct (cs !! cpu) as [b|] eqn:Hc.
  - rewrite (Hb _ _ Hc). by rewrite decide_False by set_solver.
  - apply lookup_ge_None. apply lookup_ge_None in Hc. lia.
Qed.

(** Admission: one more CPU is held, or nothing changes. *)
Lemma run_admit_held d d' held cpu b :
  (forall cpu b, cpus d !! cpu = Some b -> 0 <= lifecycle b) ->
  holds d d' held -> cpu ∉ held -> cpus d !! cpu = Some b ->
  exists r d1, run (try_admit cpu) d' = Some (r, d1) /\
    match r with Ok _ => online b = true /\ holds d d1 (cpu :: held) | Err _ => d1 = d' end.
Proof.
  intros Hlow Hh Hcpu Hb. pose proof (holds_box _ _ _ Hh cpu b Hb) as Hb'.
  rewrite decide_False in Hb' by done. rewrite (run_try_admit _ _ _ Hb').
  destruct (online b) eqn:Hon; [|by eexists _, _]. unfold checked_add_usize.
  destruct (Z.leb_spec (lifecycle b + ADMISSION_ONE) usize_MAX) as [Hle|]; [|by eexists _, _].
  eexists _, _. split; [done|]. split; [done|]. destruct Hh as [Hn Ht Hnd Hl Hbox Had].
  assert (cpu < length (cpus d'))%nat as Hlt by (apply lookup_lt_is_Some; eauto). split; simpl; try done.
  - by constructor.
  - by rewrite length_insert.
  - intros j bj Hj. destruct (decide (cpu = j)) as [<-|Hne].
    + rewrite list_lookup_insert_eq by done. rewrite decide_True by set_solver. congruence.
    + rewrite list_lookup_insert_ne by done. rewrite (Hbox _ _ Hj).
      repeat case_decide; set_solver.
  - intros j [->|Hj]%elem_of_cons; [|by apply Had]. exists b. split; [done|].
    split; [by apply (Hlow cpu)|done].
Qed.

(** Releasing a held CPU. *)
Lemma run_release_held d d' held cpu :
  holds d d' (cpu :: held) -> exists d1, run (release_admission cpu) d' = Some (tt, d1) /\ holds d d1 held.
Proof.
  intros [Hn Ht [Hnot Hnd]%NoDup_cons Hl Hbox Had]. destruct (Had cpu) as (b & Hb & Hadm); [set_solver|].
  pose proof (Hbox cpu b Hb) as Hb'. rewrite decide_True in Hb' by set_solver.
  exists (set_mailbox cpu b d'). split.
  { unfold release_admission. rewrite (run_on_mailbox _ _ _ _ Hb'). cbn [fst snd].
    by rewrite (release_admitted b Hadm). }
  assert (cpu < length (cpus d'))%nat as Hlt by (apply lookup_lt_is_Some; eauto). split; simpl; try done.
  - by rewrite length_insert.
  - intros j bj Hj. destruct (decide (cpu = j)) as [<-|Hne].
    + rewrite list_lookup_insert_eq, decide_False by done. congruence.
    + rewrite list_lookup_insert_ne by done. rewrite (Hbox _ _ Hj). repeat case_decide; set_solver.
  - intros j Hj. apply Had. set_solver.
Qed.

Lemma holds_perm d d' held held' : held ≡ₚ held' -> holds d d' held -> holds d d' held'.
Proof.
  intros Hp [Hn Ht Hnd Hl Hbox Had]. split; try done.
  - by rewrite <- Hp.
  - intros cpu b Hb. rewrite (Hbox _ _ Hb). repeat case_decide; try done; by rewrite Hp in *.
  - intros cpu Hc. apply Had. by rewrite Hp.
Qed.

Lemma run_release_all d d' admitted held :
  holds d d' (admitted ++ held) -> exists d1, run (release_all admitted) d' = Some (tt, d1) /\ holds d d1 held.
Proof.
  revert d'. induction admitted as [|cpu l IH]; intros d' Hh; cbn [release_all]; [by exists d'|].
  destruct (run_release_held _ _ _ _ Hh) as (d1 & Hrun & Hh1). destruct (IH d1 Hh1) as (d2 & Hrun2 & Hh2).
  exists d2. split; [|done]. by rewrite run_bind, Hrun.
Qed.

Section Sequential.
Context (MAX_CPUS : nat).

(** A state a domain can be in between calls. *)
Definition domain_ok (d : TlbShootdown) : Prop :=
  length (cpus d) = MAX_CPUS /\ forall cpu b, cpus d !! cpu = Some b -> 0 <= lifecycle b.

Lemma run_admit_targets d d' targets rest admitted held :
  domain_ok d -> (forall cpu, cpu ∈ rest -> (cpu < MAX_CPUS)%nat) -> NoDup rest ->
  (forall cpu, cpu ∈ rest -> CpuSet.contains targets cpu = true -> cpu ∉ admitted ++ held) ->
  holds d d' (admitted ++ held) ->
  exists admitted' failed d1, run (admit_targets targets rest admitted) d' = Some ((admitted', failed), d1) /\
    holds d d1 (admitted' ++ held).
Proof.
  intros [Hlen Hlow]. revert d' admitted.
  induction rest as [|cpu rest IH]; intros d' admitted Hr Hnd Hfresh Hh; cbn [admit_targets]; [eauto 10|].
  apply NoDup_cons in Hnd as [Hnot Hnd].
  destruct (CpuSet.contains targets cpu) eqn:Hc; cbn [negb].
  2:{ apply IH; [set_solver|done|set_solver|done]. }
  assert (is_Some (cpus d !! cpu)) as [b Hb] by (apply lookup_lt_is_Some; rewrite Hlen; apply Hr; set_solver).
  destruct (run_admit_held d d' (admitted ++ held) cpu b Hlow Hh) as (r & d1 & Hrun & Hcase);
    [apply Hfresh; set_solver|done|].
  rewrite run_bind, Hrun. destruct r as [[]|e].
  - destruct Hcase as [_ Hh1].
    assert (holds d d1 ((admitted ++ [cpu]) ++ held)) as Hh2.
    { eapply holds_perm; [|exact Hh1]. rewrite <- app_assoc. simpl. apply Permutation_middle. }
    destruct (IH d1 (admitted ++ [cpu])) as (a & f & d2 & ? & ?); [set_solver|done| |done|eauto 10].
    intros j Hj Hjc Hin. rewrite !elem_of_app, list_elem_of_singleton in Hin.
    destruct Hin as [[Hin| ->]|Hin]; [|done|]; apply (Hfresh j); set_solver.
  - subst d1. eauto 10.
Qed.

(** A failed request for exact targets publishes nothing. Without
    interference, when [issue_after_local_maintenance_for_targets] fails, for
    whatever reason, the domain is exactly as before: every admission taken is
    given back, no epoch is used and no mailbox is written. *)
Theorem failed_targeted_issue_changes_nothing d issuer targets m e d' :
  domain_ok d -> length targets = MAX_CPUS ->
  run (issue_after_local_maintenance_for_targets MAX_CPUS issuer targets m) d = Some (Err e, d') ->
  d' = d.
Proof.
  intros Hok Hlen. pose proof Hok as [Hcpus Hlow]. unfold issue_after_local_maintenance_for_targets.
  destruct (negb (cpu_valid MAX_CPUS issuer)) eqn:Hv; [by intros [= _ <-]|].
  apply negb_false_iff, bool_decide_eq_true in Hv.
  destruct (CpuSet.is_empty targets); [by intros [= _ <-]|].
  destruct (CpuSet.contains targets issuer) eqn:Hiss; [by intros [= _ <-]|].
  assert (is_Some (cpus d !! issuer)) as [b Hb] by (apply lookup_lt_is_Some; by rewrite Hcpus).
  destruct (run_admit_held d d [] issuer b Hlow (holds_refl d)) as (r & d1 & Hrun & Hcase); [set_solver|done|].
  rewrite run_bind, Hrun. destruct r as [[]|err]; [|subst d1; by intros [= _ <-]].
  destruct Hcase as [_ Hh1]. rewrite run_bind.
  destruct (run_admit_targets d d1 targets (seq 0 MAX_CPUS) [] [issuer] Hok) as (adm & failed & d2 & Hrun2 & Hh2).
  { intros cpu Hc%elem_of_seq. lia. }
  { apply NoDup_seq. }
  { intros cpu _ Hc. simpl. intros ->%list_elem_of_singleton. congruence. }
  { done. }
  rewrite Hrun2. destruct (run_release_all d d2 adm [issuer] Hh2) as (d3 & Hrun3 & Hh3).
  destruct (run_release_held d d3 [] issuer Hh3) as (d4 & Hrun4 & Hh4%holds_nil).
  destruct failed as [err|].
  - rewrite run_bind, Hrun3, run_bind, Hrun4. intros [= _ <-]. done.
  - rewrite run_bind. unfold allocate_epoch at 1. rewrite run_atomic. unfold try_update.
    destruct (checked_add_u64 (next_epoch d2) 1); cbn [fst snd].
    + rewrite run_bind. destruct (run (publish_targets _ _ _ _ _) _) as [[ks d5]|]; [|done].
      rewrite run_bind. destruct (run (release_all adm) d5) as [[[] d6]|]; [|done]. by intros [= _ ?].
    + rewrite run_bind, Hrun3, run_bind, Hrun4. intros [= _ <-]. done.
Qed.

(** ** The effect of a request on all online CPUs *)

Definition request_tlb (m : CpuMaintenance) (e : Z) (b : CpuMailbox) : CpuMailbox :=
  if needs_tlb m then set_requested_tlb (Z.max (requested_tlb_epoch b) e) b else b.
Definition request_icache (m : CpuMaintenance) (e : Z) (b : CpuMailbox) : CpuMailbox :=
  if needs_icache m then set_requested_icache (Z.max (requested_icache_epoch b) e) b else b.

(** A mailbox after publication: the epochs requested, the reason posted. *)
Definition published_box (m : CpuMaintenance) (e : Z) (b : CpuMailbox) : CpuMailbox :=
  set_pending_reasons (Z.lor (pending_reasons b) (IpiReason.bit CPU_MAINTENANCE_REASON))
    (request_icache m e (request_tlb m e b)).

(** The reason bit was clear: hardware must be kicked. *)
Definition kick_needed (b : CpuMailbox) : bool :=
  Z.land (pending_reasons b) (IpiReason.bit CPU_MAINTENANCE_REASON) =? 0.

Lemma set_mailbox_twice cpu b b' d : set_mailbox cpu b (set_mailbox cpu b' d) = set_mailbox cpu b d.
Proof. unfold set_mailbox. simpl. by rewrite list_insert_insert_eq. Qed.

Lemma set_mailbox_same cpu b d : cpus d !! cpu = Some b -> set_mailbox cpu b d = d.
Proof. intros Hb. unfold set_mailbox. rewrite list_insert_id by done. by destruct d. Qed.

Lemma lookup_set_mailbox cpu b b' d :
  cpus d !! cpu = Some b -> cpus (set_mailbox cpu b' d) !! cpu = Some b'.
Proof. intros Hb. simpl. rewrite list_lookup_insert_eq; [done|]. apply lookup_lt_is_Some. eauto. Qed.

Lemma run_publish_target cpu m e d b :
  cpus d !! cpu = Some b ->
  run (publish_target cpu m e) d = Some (mkPost (kick_needed b), set_mailbox cpu (published_box m e b) d).
Proof.
  intros Hb. unfold publish_target.
  assert (run (if needs_tlb m then _ ← fetch_max_requested_tlb cpu e; mret tt else mret tt) d =
    Some (tt, set_mailbox cpu (request_tlb m e b) d)) as H1.
  { unfold request_tlb. destruct (needs_tlb m); [|simpl; by rewrite (set_mailbox_same _ _ _ Hb)].
    unfold fetch_max_requested_tlb. by rewrite run_bind, (run_on_mailbox _ _ _ _ Hb). }
  rewrite run_bind, H1. set (b1 := request_tlb m e b). set (d1 := set_mailbox cpu b1 d).
  assert (cpus d1 !! cpu = Some b1) as Hb1 by (by eapply lookup_set_mailbox).
  assert (run (if needs_icache m then _ ← fetch_max_requested_icache cpu e; mret tt else mret tt) d1 =
    Some (tt, set_mailbox cpu (request_icache m e b1) d1)) as H2.
  { unfold request_icache. destruct (needs_icache m); [|simpl; by rewrite (set_mailbox_same _ _ _ Hb1)].
    unfold fetch_max_requested_icache. by rewrite run_bind, (run_on_mailbox _ _ _ _ Hb1). }
  rewrite run_bind, H2. unfold d1. rewrite set_mailbox_twice. unfold post_reason.
  rewrite (run_on_mailbox _ _ _ (request_icache m e b1)) by (by eapply lookup_set_mailbox).
  rewrite set_mailbox_twice. cbn [fst snd].
  assert (pending_reasons (request_icache m e b1) = pending_reasons b) as Hp
    by (unfold request_icache, b1, request_tlb; by destruct (needs_tlb m), (needs_icache m)).
  rewrite Hp. done.
Qed.

Lemma published_lifecycle m e l b :
  published_box m e (set_lifecycle l b) = set_lifecycle l (published_box m e b).
Proof. unfold published_box, request_icache, request_tlb. by destruct (needs_tlb m), (needs_icache m). Qed.
Lemma published_keeps_lifecycle m e b : lifecycle (published_box m e b) = lifecycle b.
Proof. unfold published_box, request_icache, request_tlb. by destruct (needs_tlb m), (needs_icache m). Qed.

(** One online target, admitted, published and released. *)
Lemma run_publish_admitted cpu m e d b :
  cpus d !! cpu = Some b -> admits b ->
  run (post ← publish_target cpu m e; release_admission cpu ;; mret post) (set_mailbox cpu (admitted_box b) d) =
  Some (mkPost (kick_needed b), set_mailbox cpu (published_box m e b) d).
Proof.
  intros Hb Had. rewrite run_bind, (run_publish_target _ _ _ _ (admitted_box b))
    by (by eapply lookup_set_mailbox).
  rewrite set_mailbox_twice, run_bind. unfold release_admission.
  rewrite (run_on_mailbox _ _ _ (published_box m e (admitted_box b))) by (by eapply lookup_set_mailbox).
  rewrite set_mailbox_twice. cbn [fst snd].
  assert (set_lifecycle ((lifecycle (published_box m e (admitted_box b)) - ADMISSION_ONE) mod (usize_MAX + 1))
    (published_box m e (admitted_box b)) = published_box m e b) as ->; [|done].
  by rewrite <- published_lifecycle, published_keeps_lifecycle, (release_admitted b Had).
Qed.

(** [cpu] is a target when its mailbox is [b]. *)
Definition is_target (issuer : nat) (rest : list nat) (cpu : nat) (b : CpuMailbox) : bool :=
  bool_decide (cpu ∈ rest) && negb (bool_decide (cpu = issuer)) && online b.

Lemma is_target_skip issuer cpu rest j b :
  (j = cpu -> is_target issuer [cpu] cpu b = false) ->
  is_target issuer (cpu :: rest) j b = is_target issuer rest j b \/ j = cpu /\ cpu ∈ rest.
Proof.
  intros Hj. unfold is_target in *. destruct (decide (j = cpu)) as [->|Hne].
  - destruct (decide (cpu ∈ rest)); [by right|]. left. specialize (Hj eq_refl).
    rewrite (bool_decide_eq_true_2 (cpu ∈ [cpu])) in Hj by set_solver.
    rewrite (bool_decide_eq_true_2 (cpu ∈ cpu :: rest)), (bool_decide_eq_false_2 (cpu ∈ rest)) by set_solver.
    by rewrite Hj.
  - left. do 2 f_equal. apply bool_decide_ext. set_solver.
Qed.

(** What the loop over [rest] does, from [d] with the arrays so far. *)
Record loop_effect issuer m e rest (targets : CpuSet) (kicks : list bool) d (targets' : CpuSet) (kicks' : list bool) d' : Prop := {
  loop_next : next_epoch d' = next_epoch d;
  loop_trace : trace d' = trace d;
  loop_box cpu b : cpus d !! cpu = Some b ->
    if is_target issuer rest cpu b
    then CpuSet.contains targets' cpu = true /\ default false (kicks' !! cpu) = kick_needed b /\
         cpus d' !! cpu = Some (published_box m e b)
    else CpuSet.contains targets' cpu = CpuSet.contains targets cpu /\
         kicks' !! cpu = kicks !! cpu /\ cpus d' !! cpu = Some b }.

(** A CPU that is no target is passed over. *)
Lemma loop_skip issuer m e cpu rest targets kicks d targets' kicks' d' :
  cpu ∉ rest -> (forall b, cpus d !! cpu = Some b -> is_target issuer [cpu] cpu b = false) ->
  loop_effect issuer m e rest targets kicks d targets' kicks' d' ->
  loop_effect issuer m e (cpu :: rest) targets kicks d targets' kicks' d'.
Proof.
  intros Hnot Hno [Hn Ht Hall]. split; [done|done|]. intros j b Hj.
  destruct (is_target_skip issuer cpu rest j b) as [->|[_ ?]]; [|by apply Hall|done].
  intros ->. by apply Hno.
Qed.

(** A target is published before the rest. *)
Lemma loop_publish issuer m e cpu rest targets kicks d b targets' kicks' d' :
  cpu ∉ rest -> cpu <> issuer -> cpus d !! cpu = Some b -> online b = true ->
  length targets = length (cpus d) -> length kicks = length (cpus d) ->
  loop_effect issuer m e rest (<[cpu := true]> targets) (<[cpu := kick_needed b]> kicks)
    (set_mailbox cpu (published_box m e b) d) targets' kicks' d' ->
  loop_effect issuer m e (cpu :: rest) targets kicks d targets' kicks' d'.
Proof.
  intros Hnot Hiss Hb Hon Htl Hkl [Hn Ht Hall]. pose proof (lookup_lt_Some _ _ _ Hb) as Hlt.
  split; [done|done|]. intros j b' Hj. destruct (decide (j = cpu)) as [->|Hne].
  - replace b' with b by congruence. specialize (Hall cpu _ (lookup_set_mailbox _ _ _ _ Hb)).
    unfold is_target in *. rewrite (bool_decide_eq_false_2 (cpu ∈ rest)) in Hall by done.
    rewrite (bool_decide_eq_true_2 (cpu ∈ cpu :: rest)), (bool_decide_eq_false_2 (cpu = issuer)), Hon by set_solver.
    simpl in Hall |- *. destruct Hall as (Hc & Hkk & Hbox). rewrite Hc, Hkk. unfold CpuSet.contains.
    rewrite !list_lookup_insert_eq by lia. done.
  - destruct (is_target_skip issuer cpu rest j b') as [->|[? _]]; [done| |done].
    specialize (Hall j b'). simpl in Hall. rewrite list_lookup_insert_ne in Hall by done. specialize (Hall Hj).
    unfold CpuSet.contains in *. by rewrite !list_lookup_insert_ne in Hall by done.
Qed.

(** The body of the loop for an online CPU. *)
Lemma run_loop_body cpu m e d b {A} (k : ReasonPost -> prog TlbShootdown A) :
  cpus d !! cpu = Some b -> admits b ->
  run (post ← publish_target cpu m e; release_admission cpu ;; k post) (set_mailbox cpu (admitted_box b) d) =
  run (k (mkPost (kick_needed b))) (set_mailbox cpu (published_box m e b) d).
Proof.
  intros Hb Hadm. pose proof (run_publish_admitted cpu m e d b Hb Hadm) as Hpub. rewrite run_bind in Hpub. rewrite run_bind.
  destruct (run (publish_target cpu m e) _) as [[post d1]|]; [|done]. rewrite run_bind in Hpub. rewrite run_bind.
  destruct (run (release_admission cpu) d1) as [[[] d2]|]; [|done]. by injection Hpub as -> ->.
Qed.

Lemma run_publish_online_targets issuer m e rest targets kicks d :
  (forall cpu, cpu ∈ rest -> (cpu < length (cpus d))%nat) -> NoDup rest ->
  length targets = length (cpus d) -> length kicks = length (cpus d) ->
  (forall cpu b, cpu ∈ rest -> cpu <> issuer -> cpus d !! cpu = Some b -> admits b) ->
  exists targets' kicks' d',
    run (publish_online_targets issuer m e rest targets kicks) d = Some (Ok (targets', kicks'), d') /\
    loop_effect issuer m e rest targets kicks d targets' kicks' d'.
Proof.
  revert targets kicks d. induction rest as [|cpu rest IH]; intros targets kicks d Hr Hnd Ht Hk Had;
    cbn [publish_online_targets].
  { by exists targets, kicks, d. }
  apply NoDup_cons in Hnd as [Hnot Hnd].
  assert (is_Some (cpus d !! cpu)) as [b Hb] by (apply lookup_lt_is_Some, Hr; set_solver).
  assert ((forall b', cpus d !! cpu = Some b' -> is_target issuer [cpu] cpu b' = false) ->
    exists targets' kicks' d',
      run (publish_online_targets issuer m e rest targets kicks) d = Some (Ok (targets', kicks'), d') /\
      loop_effect issuer m e (cpu :: rest) targets kicks d targets' kicks' d') as Hnext.
  { intros Hno. destruct (IH targets kicks d) as (t' & k' & d' & Hrun & He); [set_solver|done..|set_solver|].
    exists t', k', d'. split; [done|]. by apply loop_skip. }
  case_decide as Hiss.
  { apply Hnext. intros b' _. unfold is_target. rewrite (bool_decide_eq_true_2 (cpu = issuer)) by done.
    by rewrite andb_false_r. }
  rewrite run_bind, (run_try_admit _ _ _ Hb). destruct (online b) eqn:Hon.
  2:{ apply Hnext. intros b' Hb'. unfold is_target. replace b' with b by congruence.
      by rewrite Hon, andb_false_r. }
  assert (admits b) as Hadm by (apply (Had cpu); [set_solver|done|done]).
  unfold checked_add_usize. rewrite (proj2 (Z.leb_le _ _) (proj2 Hadm)).
  pose proof (lookup_lt_Some _ _ _ Hb) as Hlt.
  assert (is_Some (targets !! cpu)) as [tb Htb] by (apply lookup_lt_is_Some; lia).
  unfold CpuSet.try_insert. rewrite Htb. destruct (decide (cpu < length kicks)%nat) as [_|]; [|lia].
  rewrite (run_loop_body cpu m e d b _ Hb Hadm). cbn [needs_kick].
  destruct (IH (<[cpu := true]> targets) (<[cpu := kick_needed b]> kicks)
    (set_mailbox cpu (published_box m e b) d)) as (t' & k' & d' & Hrun & He).
  - intros j Hj. simpl. rewrite length_insert. apply Hr. set_solver.
  - done.
  - simpl. by rewrite !length_insert.
  - simpl. by rewrite !length_insert.
  - intros j b' Hj Hji. simpl. rewrite list_lookup_insert_ne by (by intros ->).
    apply Had; [set_solver|done].
  - exists t', k', d'. split; [done|]. by apply (loop_publish _ _ _ _ _ _ _ _ b).
Qed.

(** A request without explicit targets reaches exactly the other online
    CPUs. Without interference, from a domain whose admission counts and epochs
    have room, an online issuer gets a request with the next epoch; its targets
    are the online CPUs other than the issuer; each target's mailbox requests
    the epoch for the classes asked for and has the maintenance reason pending,
    a kick is asked for exactly where the reason was not yet pending; and
    nothing else changes but the issuer's admission. *)
Theorem issue_reaches_online_cpus d issuer m bi :
  domain_ok d -> (forall cpu b, cpus d !! cpu = Some b -> admits b) ->
  0 <= next_epoch d < u64_MAX -> cpus d !! issuer = Some bi -> online bi = true ->
  exists r d', run (issue_after_local_maintenance MAX_CPUS issuer m) d = Some (Ok r, d') /\
    issuer_admission r = issuer /\ maintenance r = m /\
    epoch r = next_epoch d + 1 /\ next_epoch d' = epoch r /\
    forall cpu b, cpus d !! cpu = Some b ->
      let target := negb (bool_decide (cpu = issuer)) && online b in
      CpuSet.contains (targets r) cpu = target /\
      request_needs_kick r cpu = target && kick_needed b /\
      cpus d' !! cpu = Some (if decide (cpu = issuer) then admitted_box b
                             else if online b then published_box m (epoch r) b else b).
Proof.
  intros [Hlen _] Hadm [Hn0 Hn1] Hbi Hon. pose proof (lookup_lt_Some _ _ _ Hbi) as Hlt. rewrite Hlen in Hlt.
  unfold issue_after_local_maintenance, cpu_valid. rewrite bool_decide_eq_true_2 by done. cbn [negb].
  rewrite run_bind, (run_try_admit _ _ _ Hbi), Hon. unfold checked_add_usize.
  destruct (Hadm _ _ Hbi) as [Hlo Hhi]. rewrite (proj2 (Z.leb_le _ _) Hhi).
  rewrite run_bind. unfold allocate_epoch. rewrite run_atomic. unfold try_update, checked_add_u64.
  assert (next_epoch (set_mailbox issuer (admitted_box bi) d) + 1 <= u64_MAX) as Hle by (simpl; lia).
  rewrite (proj2 (Z.leb_le _ _) Hle). cbn [fst snd set_mailbox next_epoch]. rewrite run_bind.
  set (e := next_epoch d + 1). set (d1 := mkDomain _ _ _).
  assert (forall cpu b, cpus d !! cpu = Some b ->
    cpus d1 !! cpu = Some (if decide (cpu = issuer) then admitted_box b else b)) as Hd1.
  { intros cpu b Hb. unfold d1. cbn [cpus set_mailbox]. destruct (decide (cpu = issuer)) as [->|Hne].
    - rewrite list_lookup_insert_eq by (by rewrite Hlen). congruence.
    - by rewrite list_lookup_insert_ne. }
  assert (length (cpus d1) = MAX_CPUS) as Hl1 by (unfold d1; cbn [cpus set_mailbox]; by rewrite length_insert).
  destruct (run_publish_online_targets issuer m e (seq 0 MAX_CPUS) (CpuSet.new MAX_CPUS)
    (replicate MAX_CPUS false) d1) as (t' & k' & d' & Hrun & [Hn' _ Hall]).
  { intros cpu Hc%elem_of_seq. lia. }
  { apply NoDup_seq. }
  { rewrite Hl1. apply length_replicate. }
  { rewrite Hl1. apply length_replicate. }
  { intros cpu b Hc%elem_of_seq Hne Hb. assert (is_Some (cpus d !! cpu)) as [b0 Hb0]
      by (apply lookup_lt_is_Some; lia).
    rewrite (Hd1 _ _ Hb0), decide_False in Hb by done. apply (Hadm cpu). congruence. }
  rewrite Hrun. exists (mkRequest issuer e m t' k'), d'. split; [done|]. split; [done|]. split; [done|].
  split; [done|]. split; [done|]. cbn [targets epoch]. intros cpu b Hb.
  specialize (Hall cpu _ (Hd1 cpu b Hb)).
  assert (cpu < MAX_CPUS)%nat as Hcpu by (rewrite <- Hlen; apply lookup_lt_is_Some; eauto).
  unfold request_needs_kick, is_target in *. cbn [kicks].
  rewrite (bool_decide_eq_true_2 (cpu ∈ seq 0 MAX_CPUS)) in Hall by (apply elem_of_seq; lia).
  assert (replicate MAX_CPUS false !! cpu = Some false) as Hrep by (by apply lookup_replicate_2).
  unfold CpuSet.contains, CpuSet.new in Hall |- *. rewrite Hrep in Hall.
  destruct (decide (cpu = issuer)) as [->|Hne].
  - rewrite bool_decide_eq_true_2 in Hall |- * by done. cbn [negb andb] in Hall |- *.
    destruct Hall as (-> & -> & ->). done.
  - rewrite bool_decide_eq_false_2 in Hall |- * by done. cbn [negb andb] in Hall |- *.
    destruct (online b); destruct Hall as (-> & -> & ->); done.
Qed.

End Sequential.

(** ** Witnesses: two CPUs *)

(** Both CPUs go online, CPU 0 asks CPU 1 for both classes, CPU 1 serves, and
    CPU 0 gets grace. *)
Definition tlb_online : TlbShootdown :=
  mkDomain 0 [mkMailbox 1 0 0 0 0 0; mkMailbox 1 0 0 0 0 0] [].
Definition tlb_request : ShootdownRequest := mkRequest 0 1 TLB_AND_ICACHE [false; true] [false; true].
Definition tlb_issued : TlbShootdown :=
  mkDomain 1 [mkMailbox 5 0 0 0 0 0; mkMailbox 1 1 1 0 1 0] [EvEpoch 1].
Definition tlb_served : TlbShootdown :=
  mkDomain 1 [mkMailbox 5 0 0 0 0 0; mkMailbox 1 1 1 1 1 1] [EvMaintain 1 TLB_AND_ICACHE; EvEpoch 1].
Definition tlb_grace : ShootdownGrace := mkGrace 1 TLB_AND_ICACHE.

Lemma tlb_demo_reaches :
  pool_reaches (tlb_starts 2) (shootdown_new 2)
    (mkPool tlb_served [] [RDone; RDone; RIssued (Ok tlb_request); RDone; RGrace tlb_request (Some tlb_grace)]).
Proof.
  apply (pool_run_alone _ _ tlb_served [] [RDone; RDone; RIssued (Ok tlb_request); RDone]
    (answer (RGrace tlb_request) (try_complete 2 tlb_request)));
    [|apply start_complete; set_solver|vm_compute; reflexivity].
  apply (pool_run_alone _ _ tlb_issued [] [RDone; RDone; RIssued (Ok tlb_request)]
    (ignore (service_maintenance 2 1))); [|constructor|vm_compute; reflexivity].
  apply (pool_run_alone _ _ tlb_online [] [RDone; RDone]
    (answer RIssued (issue_after_local_maintenance 2 0 TLB_AND_ICACHE))); [|constructor|vm_compute; reflexivity].
  apply (pool_run_alone _ _ (mkDomain 0 [mkMailbox 1 0 0 0 0 0; mkMailbox 0 0 0 0 0 0] []) [] [RDone]
    (ignore (publish_online 2 1))); [|constructor|vm_compute; reflexivity].
  apply (pool_run_alone _ _ (shootdown_new 2) [] [] (ignore (publish_online 2 0)));
    [constructor|constructor|vm_compute; reflexivity].
Qed.

Lemma grace_implies_flush_witness :
  flushed needs_tlb (trace tlb_served) 1 1 /\ flushed needs_icache (trace tlb_served) 1 1.
Proof.
  destruct (grace_implies_flush 2 _ tlb_demo_reaches) as [_ Hgrace]. destruct (Hgrace tlb_request tlb_grace) as [_ Hall]; [set_solver|].
  destruct (Hall 1%nat) as [Ht Hi]; [reflexivity|]. split; [apply Ht|apply Hi]; reflexivity.
Defined.

(** CPU 1 is offline: the targeted request fails after the issuer was admitted. *)
Definition tlb_half : TlbShootdown :=
  mkDomain 7 [mkMailbox 1 0 0 0 0 0; mkMailbox 0 0 0 0 0 0] [].

Lemma tlb_half_ok : domain_ok 2 tlb_half.
Proof. split; [reflexivity|]. intros [|[|cpu]] b; intros [= <-]; simpl; lia. Qed.

Lemma failed_targeted_issue_changes_nothing_witness :
  exists d', run (issue_after_local_maintenance_for_targets 2 0 [false; true] TLB) tlb_half =
    Some (Err TargetOffline, d') /\ d' = tlb_half.
Proof.
  eexists. split; [vm_compute; reflexivity|].
  apply (failed_targeted_issue_changes_nothing 2 tlb_half 0 [false; true] TLB TargetOffline).
  - exact tlb_half_ok.
  - reflexivity.
  - vm_compute. reflexivity.
Defined.

Lemma issue_reaches_online_cpus_witness :
  exists r d', run (issue_after_local_maintenance 2 0 TLB) tlb_online = Some (Ok r, d') /\
    epoch r = 1 /\ CpuSet.contains (targets r) 1 = true /\ CpuSet.contains (targets r) 0 = false.
Proof.
  destruct (issue_reaches_online_cpus 2 tlb_online 0 TLB (mkMailbox 1 0 0 0 0 0))
    as (r & d' & Hrun & _ & _ & He & _ & Hall).
  - split; [reflexivity|]. intros [|[|cpu]] b; intros [= <-]; simpl; lia.
  - intros [|[|cpu]] b; intros [= <-]; by_evaluation || (split; vm_compute; discriminate).
  - vm_compute. split; [discriminate|reflexivity].
  - reflexivity.
  - reflexivity.
  - exists r, d'. split; [exact Hrun|]. split; [exact He|].
    destruct (Hall 1%nat _ eq_refl) as [H1 _]. destruct (Hall 0%nat _ eq_refl) as [H0 _].
    split; [exact H1|exact H0].
Defined.
