(* ===== verification/Pmu.v ===== *)
(** Performance counters, part 1: [crates/thekernel-axpmu/src/lib.rs].

    A session borrows a backend, an implementation of the [Backend] trait that
    the repository does not contain: it is the class [Backend], and nothing is
    assumed of its answers. The session's arrays have the capacity [N].

    Performance counters, part 2: the calls a session makes, recorded by a
    wrapper around any backend, and what the loops over the slots call. *)

From S2P Require Import Prelude Effects Atomics.
Local Open Scope Z_scope.

Inductive Event : Type :=
| CpuCycles | Instructions | DataTlbReadMisses | DataTlbWriteMisses | InstructionTlbReadMisses.

#[export] Instance Event_eq_dec : EqDecision Event.
Proof. solve_decision. Defined.

Definition event_bit (e : Event) : Z :=
  match e with
  | CpuCycles => Z.shiftl 1 0
  | Instructions => Z.shiftl 1 1
  | DataTlbReadMisses => Z.shiftl 1 2
  | DataTlbWriteMisses => Z.shiftl 1 3
  | InstructionTlbReadMisses => Z.shiftl 1 4
  end.

Record EventMask : Type := mkMask { mask_bits : Z }.

Module EventMask.
Definition NONE : EventMask := mkMask 0.
Definition ALL : EventMask := mkMask (Z.shiftl 1 5 - 1).
Definition from_event (e : Event) : EventMask := mkMask (event_bit e).
Definition contains (m : EventMask) (e : Event) : bool := negb (Z.land (mask_bits m) (event_bit e) =? 0).
Definition union (a b : EventMask) : EventMask := mkMask (Z.lor (mask_bits a) (mask_bits b)).
End EventMask.

Inductive CounterSource : Type := Platform.

Record Capabilities : Type := mkCapabilities {
  source : CounterSource; counter_count : Z; requestable_events : EventMask; consistent_snapshot : bool }.

Definition capabilities_unsupported (s : CounterSource) : Capabilities :=
  mkCapabilities s 0 EventMask.NONE false.
Definition is_available (c : Capabilities) : bool := negb (counter_count c =? 0).

Inductive Error : Type :=
| Unsupported | NoCounter | EmptySession | CapacityExceeded | DuplicateEvent | AlreadyRunning
| NotRunning | InvalidRequest | ValueUnavailable | BackendFailure (code : Z).

(** The trait; [B] is the state of a backend. *)
Class Backend (B : Type) : Type := {
  Counter : Type;
  capabilities : B -> Capabilities;
  configure : Event -> B -> result Counter Error * B;
  start_counter : Counter -> B -> result unit Error * B;
  read_counter : Counter -> B -> result Z Error * B;
  stop_counter : Counter -> B -> result unit Error * B;
  release_counter : Counter -> B -> result unit Error * B }.

Record Snapshot : Type := mkSnapshot {
  snapshot_events : list Event; snapshot_values : list Z; snapshot_len : nat; snapshot_consistent : bool }.

Section Session.
Context {B : Type} `{Backend B} (N : nat).

Record Session : Type := mkSession {
  counters : list (option Counter); events : list Event; len : nat; running : bool; closed : bool }.

(** A session together with the backend it borrows. *)
Record PmuState : Type := mkPmu { backend : B; session : Session }.

Definition set_running (r : bool) (s : Session) : Session :=
  mkSession (counters s) (events s) (len s) r (closed s).
Definition set_counters (cs : list (option Counter)) (s : Session) : Session :=
  mkSession cs (events s) (len s) (running s) (closed s).
Definition set_closed (s : Session) : Session :=
  mkSession (counters s) (events s) (len s) (running s) true.

(** [first_error.get_or_insert(e)] *)
Definition get_or_insert (first_error : option Error) (e : Error) : option Error :=
  match first_error with Some f => Some f | None => Some e end.

(** ** Releasing *)

(** The loop shared by [cleanup] and [release_prefix], over the given slots. *)
Fixpoint release_slots {E} (slots : list nat) (first_error : option Error)
    : M (B * list (option Counter)) E (option Error) :=
  match slots with
  | [] => mret first_error
  | slot :: slots =>
      p ← gets (fun p => p);
      c ← expect (p.2 !! slot);
      match c with
      | None => release_slots slots first_error
      | Some counter =>
          let '(r, b) := release_counter counter p.1 in
          match r with
          | Ok _ => modify (fun _ => (b, <[slot := None]> p.2)) ;; release_slots slots first_error
          | Err error =>
              modify (fun _ => (b, p.2)) ;; release_slots slots (get_or_insert first_error error)
          end
      end
  end.

(** [release_prefix] on the local array of [open]. *)
Definition release_prefix {E} (cs : list (option Counter)) (configured : nat) : M B E (option Error) :=
  fun b => match release_slots (rev (seq 0 configured)) None (b, cs) with
    | Done e (b, _) => Done e b
    | Fail e (b, _) => Fail e b
    | Panic => Panic
    | Diverged => Diverged
    end.

(** ** Opening *)

(** Give back what was configured, then fail. *)
Definition abandon {A} (cs : list (option Counter)) (configured : nat) (error : Error) : M B Error A :=
  cleanup ← release_prefix cs configured; throw (default error cleanup).

Fixpoint open_loop (caps : Capabilities) (slot : nat) (rest : list Event)
    (cs : list (option Counter)) (stored : list Event) (configured : nat)
    : M B Error (list (option Counter) * list Event) :=
  match rest with
  | [] => mret (cs, stored)
  | event :: rest =>
      if bool_decide (event ∈ take slot stored) then abandon cs configured DuplicateEvent else
      if negb (EventMask.contains (requestable_events caps) event)
      then abandon cs configured Unsupported else
      b ← gets (fun b => b);
      let '(r, b) := configure event b in
      modify (fun _ => b) ;;
      match r with
      | Ok counter =>
          assert_ (bool_decide (slot < length cs)%nat && bool_decide (slot < length stored)%nat) ;;
          open_loop caps (S slot) rest (<[slot := Some counter]> cs) (<[slot := event]> stored) (S configured)
      | Err error => abandon cs configured error
      end
  end.

Definition open (requested : list Event) : M B Error Session :=
  match requested with
  | [] => throw EmptySession
  | _ =>
      if bool_decide (N < length requested)%nat then throw CapacityExceeded else
      b ← gets (fun b => b);
      let caps := capabilities b in
      if negb (is_available caps) then throw Unsupported else
      '(cs, stored) ← open_loop caps 0 requested (replicate N None) (replicate N CpuCycles) 0;
      mret (mkSession cs stored (length requested) false false)
  end.

(** ** Methods of a session *)

Local Abbreviation Op A := (M PmuState Error A).

Definition session_events (s : Session) : list Event := take (len s) (events s).

(** A call of the backend. *)
Definition call {A} (f : B -> result A Error * B) : Op (result A Error) := fun s =>
  let '(r, b) := f (backend s) in Done r (mkPmu b (session s)).

Definition update_session (f : Session -> Session) : Op () :=
  modify (fun s => mkPmu (backend s) (f (session s))).

(** [self.counters[slot].expect("configured session slot")] *)
Definition counter_at (slot : nat) : Op Counter :=
  s ← gets session; c ← expect (counters s !! slot); expect c.

(** Stops the given slots and returns the first error. *)
Fixpoint stop_slots (slots : list nat) (first_error : option Error) : Op (option Error) :=
  match slots with
  | [] => mret first_error
  | slot :: slots =>
      counter ← counter_at slot;
      r ← call (stop_counter counter);
      match r with
      | Ok _ => stop_slots slots first_error
      | Err error => stop_slots slots (get_or_insert first_error error)
      end
  end.

Definition is_some {A} (o : option A) : bool := match o with Some _ => true | None => false end.

(** [first_error.map_or(Ok(()), Err)] *)
Definition report (first_error : option Error) : Op () :=
  match first_error with Some error => throw error | None => mret tt end.

(** The loop of [start]; [rollback] are the slots started so far, last first. *)
Fixpoint start_slots (slots rollback : list nat) : Op () :=
  match slots with
  | [] => update_session (set_running true)
  | slot :: slots =>
      counter ← counter_at slot;
      r ← call (start_counter counter);
      match r with
      | Ok _ => start_slots slots (slot :: rollback)
      | Err error =>
          cleanup ← stop_slots rollback None;
          update_session (set_running (is_some cleanup)) ;;
          throw (default error cleanup)
      end
  end.

Definition start : Op () :=
  s ← gets session;
  if running s then throw AlreadyRunning else start_slots (seq 0 (len s)) [].

Fixpoint read_slots (slots : list nat) : Op (list Z) :=
  match slots with
  | [] => mret []
  | slot :: slots =>
      counter ← counter_at slot;
      r ← call (read_counter counter);
      value ← lift r;
      values ← read_slots slots; mret (value :: values)
  end.

Definition snapshot : Op Snapshot :=
  s ← gets session;
  if negb (running s) then throw NotRunning else
  values ← read_slots (seq 0 (len s));
  s ← gets (fun s => s);
  mret (mkSnapshot (events (session s)) (values ++ replicate (N - length values) 0) (len (session s))
    (consistent_snapshot (capabilities (backend s)))).

Definition stop : Op () :=
  s ← gets session;
  if negb (running s) then throw NotRunning else
  first_error ← stop_slots (rev (seq 0 (len s))) None;
  update_session (set_running (is_some first_error)) ;;
  report first_error.

Definition cleanup : Op () := fun s =>
  match release_slots (rev (seq 0 (len (session s)))) None (backend s, counters (session s)) with
  | Done first_error (b, cs) =>
      let s' := set_counters cs (session s) in
      let s' := if is_some first_error then s' else set_running false s' in
      report first_error (mkPmu b s')
  | Fail e _ => Fail e s
  | Panic => Panic
  | Diverged => Diverged
  end.

(** [Drop for Session]: best effort. *)
Definition drop_session : Op () := fun s =>
  if closed (session s) then Done tt s else
  match cleanup s with
  | Done _ s | Fail _ s => Done tt s
  | Panic => Panic
  | Diverged => Diverged
  end.

(** [close] consumes the session: it is dropped after the result is known. *)
Definition close : Op () := fun s =>
  match cleanup s with
  | Done _ s => drop_session (mkPmu (backend s) (set_closed (session s)))
  | Fail error s =>
      match drop_session s with
      | Done _ s => Fail error s
      | Fail e s => Fail e s
      | Panic => Panic
      | Diverged => Diverged
      end
  | Panic => Panic
  | Diverged => Diverged
  end.

End Session.

Arguments Session B {_}.
Arguments PmuState B {_}.

(** ** Software diagnostics *)

Record SoftwareSnapshot : Type := mkSoftware { flushes_avoided : Z; saturated : bool }.

Record SoftwareDiagnostics : Type := mkDiagnostics {
  enabled : bool; asid_tlb_flushes_avoided : Z; diag_saturated : bool }.

Module SoftwareDiagnostics.
Definition new : SoftwareDiagnostics := mkDiagnostics false 0 false.
Definition set_enabled (b : bool) (d : SoftwareDiagnostics) : bool * SoftwareDiagnostics :=
  (enabled d, mkDiagnostics b (asid_tlb_flushes_avoided d) (diag_saturated d)).
Definition record_asid_tlb_flush_avoided (d : SoftwareDiagnostics) : SoftwareDiagnostics :=
  if negb (enabled d) then d else
  let '(r, n) := try_update (fun value => checked_add_usize value 1) (asid_tlb_flushes_avoided d) in
  match r with
  | Ok _ => mkDiagnostics (enabled d) n (diag_saturated d)
  | Err _ => mkDiagnostics (enabled d) n true
  end.
Definition snapshot (d : SoftwareDiagnostics) : SoftwareSnapshot :=
  mkSoftware (asid_tlb_flushes_avoided d) (diag_saturated d).
Definition snapshot_and_reset (d : SoftwareDiagnostics) : SoftwareSnapshot * SoftwareDiagnostics :=
  (snapshot d, mkDiagnostics (enabled d) 0 false).
End SoftwareDiagnostics.

(** ** The calls a session makes *)

(** A call of the backend, with the answer it got *)
Inductive backend_call (C : Type) : Type :=
| Configured (e : Event) (r : result C Error)
| Started (c : C) (r : result unit Error)
| Sampled (c : C) (r : result Z Error)
| Stopped (c : C) (r : result unit Error)
| Released (c : C) (r : result unit Error).
Arguments Configured {C} e r.
Arguments Started {C} c r.
Arguments Sampled {C} c r.
Arguments Stopped {C} c r.
Arguments Released {C} c r.

Section Calls.
Context {C : Type}.
Implicit Types (l old : list (backend_call C)) (c : C).

(** Calls are listed newest first. The counters [configure] handed out, in order *)
Fixpoint handed_out l : list (Event * C) :=
  match l with
  | [] => []
  | Configured e (Ok c) :: l => handed_out l ++ [(e, c)]
  | _ :: l => handed_out l
  end.
(** The successful and the failed releases *)
Fixpoint returned l : list C :=
  match l with [] => [] | Released c (Ok _) :: l => c :: returned l | _ :: l => returned l end.
Fixpoint refused l : list (C * Error) :=
  match l with [] => [] | Released c (Err e) :: l => (c, e) :: refused l | _ :: l => refused l end.
(** A successful start that no successful stop or release has followed *)
Fixpoint unstopped c l : Prop :=
  match l with
  | [] => False
  | Started c' (Ok _) :: l => c = c' \/ unstopped c l
  | Stopped c' (Ok _) :: l | Released c' (Ok _) :: l => c <> c' /\ unstopped c l
  | _ :: l => unstopped c l
  end.

Definition configure_call (k : backend_call C) : Prop := match k with Configured _ _ => True | _ => False end.
Definition release_call (k : backend_call C) : Prop := match k with Released _ _ => True | _ => False end.
(** A call on one of the given counters that neither reserves nor releases *)
Definition counter_call (cs : list C) (k : backend_call C) : Prop :=
  match k with Started c _ | Sampled c _ | Stopped c _ => c ∈ cs | _ => False end.

Lemma handed_out_app l old : handed_out (l ++ old) = handed_out old ++ handed_out l.
Proof. induction l as [|[e [c|]| | | |] l IH]; simpl; rewrite ?app_nil_r, ?IH, ?app_assoc; done. Qed.
Lemma returned_app l old : returned (l ++ old) = returned l ++ returned old.
Proof. induction l as [|[| | | |c []] l IH]; simpl; congruence. Qed.
Lemma refused_app l old : refused (l ++ old) = refused l ++ refused old.
Proof. induction l as [|[| | | |c []] l IH]; simpl; congruence. Qed.

Lemma configure_calls l : Forall configure_call l -> returned l = [] /\ refused l = [] /\ forall c, ~ unstopped c l.
Proof. induction 1 as [|[] l Hk _ IH]; simpl; [naive_solver|done..]. Qed.
Lemma counter_calls cs l : Forall (counter_call cs) l -> handed_out l = [] /\ returned l = [] /\ refused l = [].
Proof. induction 1 as [|[] l Hk _ IH]; simpl; done. Qed.
(** Only counters that were called can be left started. *)
Lemma unstopped_called cs l c : Forall (fun k => configure_call k \/ counter_call cs k) l -> unstopped c l -> c ∈ cs.
Proof.
  induction 1 as [|[e r|c' [[]|]|c' r|c' [[]|]|c' r] l Hk _ IH]; cbn; intros Hu; try naive_solver.
Qed.
Lemma release_calls l : Forall release_call l -> handed_out l = [].
Proof. induction 1 as [|[] l Hk _ IH]; simpl; done. Qed.
End Calls.

(** A backend together with the calls it has answered *)
Section Logged.
Context {B : Type} `{Backend B}.
Record Logged : Type := mkLogged { inner : B; calls : list (backend_call Counter) }.
Definition recorded {A} (entry : result A Error -> backend_call Counter) (f : B -> result A Error * B) (b : Logged) : result A Error * Logged :=
  let '(r, b') := f (inner b) in (r, mkLogged b' (entry r :: calls b)).
#[export] Instance logged_backend : Backend Logged := {
  Counter := Counter;
  capabilities b := capabilities (inner b);
  configure e := recorded (Configured e) (configure e);
  start_counter c := recorded (Started c) (start_counter c);
  read_counter c := recorded (Sampled c) (read_counter c);
  stop_counter c := recorded (Stopped c) (stop_counter c);
  release_counter c := recorded (Released c) (release_counter c) }.

(** The recorded calls, as calls about counters of this backend *)
Definition log (b : Logged) : list (backend_call (@Counter Logged logged_backend)) := calls b.

(** Whatever it answers, a call is recorded with its answer. *)
Lemma recorded_run {A} (entry : result A Error -> backend_call Counter) f b :
  exists r b', recorded entry f b = (r, b') /\ calls b' = entry r :: calls b.
Proof. unfold recorded. destruct (f (inner b)) as [r b']. by eexists _, _. Qed.
Definition records {A} (f : Logged -> result A Error * Logged) (entry : result A Error -> backend_call (@Counter Logged logged_backend)) : Prop :=
  forall b, exists r b', f b = (r, b') /\ log b' = entry r :: log b.
Lemma configure_recorded e : records (configure e) (Configured e).
Proof. intros b. apply recorded_run. Qed.
Lemma start_recorded c : records (start_counter c) (Started c).
Proof. intros b. apply recorded_run. Qed.
Lemma read_recorded c : records (read_counter c) (Sampled c).
Proof. intros b. apply recorded_run. Qed.
Lemma stop_recorded c : records (stop_counter c) (Stopped c).
Proof. intros b. apply recorded_run. Qed.
Lemma release_recorded c : records (release_counter c) (Released c).
Proof. intros b. apply recorded_run. Qed.
End Logged.
Arguments Logged B {_}.

(** ** Slots *)

(** The counters present in an array of slots, and in the given slots *)
Definition present {A} (cs : list (option A)) : list A := omap (fun o => o) cs.
Definition held {A} (cs : list (option A)) (slots : list nat) : list A := omap (fun slot => mjoin (cs !! slot)) slots.
(** The array of capacity [n] whose first slots hold the given counters *)
Definition slots_of {A} (n : nat) (hs : list A) : list (option A) := (Some <$> hs) ++ replicate (n - length hs) None.

Section Slots.
Context {A : Type}.
Implicit Types (cs : list (option A)) (hs : list A).

Lemma present_app (l1 l2 : list (option A)) : present (l1 ++ l2) = present l1 ++ present l2.
Proof. apply omap_app. Qed.
Lemma present_take_out cs slot c : cs !! slot = Some (Some c) -> present cs ≡ₚ c :: present (<[slot := None]> cs).
Proof.
  intros Hs. pose proof (lookup_lt_Some _ _ _ Hs) as Hlt. rewrite <- (take_drop_middle cs slot _ Hs) at 1.
  rewrite (insert_take_drop cs slot None Hlt), !present_app. simpl. symmetry. apply Permutation_middle.
Qed.
Lemma present_slots n hs : present (slots_of n hs) = hs.
Proof.
  unfold slots_of. rewrite present_app. replace (present (replicate (n - length hs) None)) with (@nil A) by (by induction (n - length hs)%nat).
  rewrite app_nil_r. induction hs as [|c hs IH]; [done|]. simpl. by f_equal.
Qed.
Lemma slots_length n hs : (length hs <= n)%nat -> length (slots_of n hs) = n.
Proof. intros Hl. unfold slots_of. rewrite length_app, length_fmap, length_replicate. lia. Qed.
Lemma slots_lookup n hs slot : (slot < length hs)%nat -> exists c, slots_of n hs !! slot = Some (Some c) /\ hs !! slot = Some c.
Proof.
  intros Hlt. destruct (lookup_lt_is_Some_2 hs slot Hlt) as [c Hc]. exists c. split; [|done].
  unfold slots_of. rewrite lookup_app_l by (by rewrite length_fmap). by rewrite list_lookup_fmap, Hc.
Qed.
Lemma slots_snoc n hs c : (length hs < n)%nat -> <[length hs := Some c]> (slots_of n hs) = slots_of n (hs ++ [c]).
Proof.
  intros Hlt. unfold slots_of. rewrite length_app. replace (n - length hs)%nat with (S (n - (length hs + 1))) by lia.
  rewrite fmap_app, <- app_assoc, insert_app_r_alt, length_fmap, Nat.sub_diag by (by rewrite length_fmap). done.
Qed.

Lemma held_app cs l1 l2 : held cs (l1 ++ l2) = held cs l1 ++ held cs l2.
Proof. apply omap_app. Qed.
Lemma held_cons cs slot slots o : cs !! slot = Some o -> held cs (slot :: slots) = option_list o ++ held cs slots.
Proof. intros Hs. unfold held. cbn. rewrite Hs. by destruct o. Qed.
Lemma held_insert cs slot o slots : slot ∉ slots -> held (<[slot := o]> cs) slots = held cs slots.
Proof.
  intros Hn. induction slots as [|i slots IH]; [done|]. apply not_elem_of_cons in Hn as [Hne Hn].
  simpl. by rewrite list_lookup_insert_ne, IH.
Qed.
Lemma held_succ o cs slots : held (o :: cs) (S <$> slots) = held cs slots.
Proof. unfold held. induction slots as [|i slots IH]; [done|]. cbn. by rewrite IH. Qed.
Lemma held_seq cs : held cs (seq 0 (length cs)) = present cs.
Proof.
  induction cs as [|o cs IH]; [done|]. change (seq 0 (length (o :: cs))) with ([0%nat] ++ seq 1 (length cs)). rewrite <- fmap_S_seq.
  rewrite held_app.
  rewrite held_succ, IH. by destruct o.
Qed.
(** Every counter of the array is in one of the first [n] slots. *)
Definition within (n : nat) cs : Prop := (n <= length cs)%nat /\ forall i c, (n <= i)%nat -> cs !! i <> Some (Some c).
Lemma held_all n cs : within n cs -> held cs (rev (seq 0 n)) ≡ₚ present cs.
Proof.
  intros [Hn Hrest]. assert (held cs (rev (seq 0 n)) ≡ₚ held cs (seq 0 n)) as ->
    by (unfold held; f_equiv; symmetry; apply Permutation_rev).
  rewrite <- (held_seq cs). replace (length cs) with (n + (length cs - n))%nat by lia. rewrite List.seq_app, held_app.
  replace (held cs (seq (0 + n) _)) with (@nil A); [by rewrite app_nil_r|].
  assert (Forall (fun i => mjoin (cs !! i) = None) (seq (0 + n) (length cs - n))) as Hnone.
  { apply Forall_forall. intros i Hi%elem_of_seq. specialize (Hrest i). destruct (cs !! i) as [[c|]|]; try done. by destruct (Hrest c); [lia|]. }
  induction Hnone as [|i l Hi _ IH]; [done|]. simpl. rewrite Hi. exact IH.
Qed.
Lemma within_slots n hs : (length hs <= n)%nat -> within (length hs) (slots_of n hs).
Proof.
  intros Hl. split; [by rewrite slots_length|]. intros i c Hi. unfold slots_of. rewrite lookup_app_r by (by rewrite length_fmap).
  by intros [? _]%lookup_replicate.
Qed.
End Slots.

(** ** The loops over the slots *)

Section Loops.
Context {B : Type} `{Backend B} (N : nat).
Local Abbreviation counter := (@Counter (Logged B) logged_backend).
Implicit Types (b : Logged B) (cs : list (option counter)) (hs : list counter).

(** The release loop: no panic; each counter it meets is released once, what
    was refused stays in the array, and the first refusal is the error. *)
Lemma release_slots_run {E} slots first b cs :
  NoDup slots -> (forall slot, slot ∈ slots -> (slot < length cs)%nat) ->
  exists l b' cs', log b' = l ++ log b /\ Forall release_call l /\ length cs' = length cs /\
    release_slots (E := E) slots first (b, cs) =
      Done (match first with Some _ => first | None => snd <$> last (refused l) end) (b', cs') /\
    held cs slots ≡ₚ returned l ++ (refused l).*1 /\ present cs ≡ₚ returned l ++ present cs' /\
    (forall slot c, cs' !! slot = Some (Some c) -> cs !! slot = Some (Some c)).
Proof.
  intros Hnd. revert first b cs. induction Hnd as [|slot slots Hnot _ IH]; intros first b cs Hlt.
  { exists [], b, cs. split_and!; try done. by destruct first. }
  cbn [release_slots]. rewrite (bind_done _ _ (b, cs) (b, cs) (b, cs)) by done. cbn [fst snd].
  assert (is_Some (cs !! slot)) as [o Ho] by (apply lookup_lt_is_Some, Hlt; set_solver).
  rewrite Ho. rewrite (bind_done _ _ (b, cs) o (b, cs)) by done.
  destruct o as [c|].
  2:{ destruct (IH first b cs) as (l & b' & cs' & Hc & Hl & Hlen & Hrun & Hheld & Hpres & Hsub); [set_solver|].
      exists l, b', cs'. split_and!; try done. by rewrite (held_cons _ _ _ _ Ho). }
  destruct (release_recorded c b) as (r & b1 & Hrel & Hb1). rewrite Hrel. destruct r as [[]|error].
  - destruct (IH first b1 (<[slot := None]> cs)) as (l & b' & cs' & Hc & Hl & Hlen & Hrun & Hheld & Hpres & Hsub).
    { intros j Hj. rewrite length_insert. apply Hlt. set_solver. }
    rewrite length_insert in Hlen. rewrite held_insert in Hheld by done.
    exists (l ++ [Released c (Ok tt)]), b', cs'. rewrite (bind_done _ _ (b, cs) tt (b1, <[slot := None]> cs)) by done.
    rewrite refused_app, returned_app. cbn [refused returned]. rewrite app_nil_r. split_and!; try done.
    + by rewrite Hc, Hb1, <- app_assoc.
    + apply Forall_app. split; [done|]. by repeat constructor.
    + rewrite (held_cons _ _ _ _ Ho), Hheld, <- app_assoc. exact (Permutation_middle _ _ c).
    + rewrite (present_take_out _ _ _ Ho), Hpres, <- app_assoc. exact (Permutation_middle _ _ c).
    + intros j c' Hj%Hsub. destruct (decide (slot = j)) as [<-|Hne]; [|by rewrite list_lookup_insert_ne in Hj].
      by rewrite list_lookup_insert_eq in Hj by (apply Hlt; set_solver).
  - destruct (IH (get_or_insert first error) b1 cs) as (l & b' & cs' & Hc & Hl & Hlen & Hrun & Hheld & Hpres & Hsub); [set_solver|].
    exists (l ++ [Released c (Err error)]), b', cs'. rewrite (bind_done _ _ (b, cs) tt (b1, cs)) by done.
    rewrite refused_app, returned_app. cbn [refused returned]. rewrite app_nil_r, last_snoc. split_and!; try done.
    + by rewrite Hc, Hb1, <- app_assoc.
    + apply Forall_app. split; [done|]. by repeat constructor.
    + rewrite Hrun. by destruct first.
    + rewrite (held_cons _ _ _ _ Ho), Hheld, fmap_app, (app_assoc (returned l)). exact (Permutation_cons_append _ c).
Qed.

(** Over all the slots in use, every counter is met. *)
Lemma release_all_run {E} n b cs : within n cs ->
  exists l b' cs', log b' = l ++ log b /\ Forall release_call l /\ within n cs' /\
    release_slots (E := E) (rev (seq 0 n)) None (b, cs) = Done (snd <$> last (refused l)) (b', cs') /\
    present cs ≡ₚ returned l ++ present cs' /\ present cs' ≡ₚ (refused l).*1.
Proof.
  intros Hw. destruct (release_slots_run (E := E) (rev (seq 0 n)) None b cs) as (l & b' & cs' & Hc & Hl & Hlen & Hrun & Hheld & Hpres & Hsub).
  - rewrite <- Permutation_rev. apply NoDup_seq.
  - intros slot Hs. rewrite list_elem_of_In, <- in_rev, <- list_elem_of_In, elem_of_seq in Hs. destruct Hw. lia.
  - exists l, b', cs'. split_and!; try done.
    + destruct Hw as [Hn Hrest]. split; [lia|]. intros i c Hi Hc'%Hsub. by apply (Hrest i c).
    + apply (Permutation_app_inv_l (returned l)). by rewrite <- Hpres, <- Hheld, held_all.
Qed.

(** The session holds the counters [hs], one per event. *)
Record session_core hs (s : Session (Logged B)) : Prop := {
  core_counters : counters s = slots_of N hs;
  core_len : len s = length hs;
  core_capacity : (length hs <= N)%nat;
  core_open : closed s = false }.

(** What a method may do: call the backend about counters of the session, and
    change the running flag. *)
Record session_step hs (s s' : PmuState (Logged B)) : Prop := {
  step_calls : exists l, log (backend s') = l ++ log (backend s) /\ Forall (counter_call hs) l;
  step_counters : counters (session s') = counters (session s);
  step_events : events (session s') = events (session s);
  step_len : len (session s') = len (session s);
  step_closed : closed (session s') = closed (session s) }.
#[export] Instance session_step_preorder hs : PreOrder (session_step hs).
Proof.
  split.
  - intros s. split; try done. by exists [].
  - intros s1 s2 s3 [(l1 & E1 & H1) ? ? ? ?] [(l2 & E2 & H2) ? ? ? ?]. split; try congruence.
    exists (l2 ++ l1). rewrite E2, E1, app_assoc. split; [done|]. by apply Forall_app.
Qed.
Lemma core_step hs s s' : session_core hs (session s) -> session_step hs s s' -> session_core hs (session s').
Proof. intros [? ? ? ?] [? ? ? ? ?]. split; congruence. Qed.

Lemma counter_at_run hs s slot : session_core hs (session s) -> (slot < length hs)%nat ->
  exists c, hs !! slot = Some c /\ counter_at slot s = Done c s.
Proof.
  intros Hs Hlt. destruct (slots_lookup N hs slot Hlt) as (c & Hc & Hh). exists c. split; [done|].
  unfold counter_at. rewrite (bind_done _ _ s (session s) s) by done. by rewrite (core_counters _ _ Hs), Hc.
Qed.
(** A call about the counter of a slot *)
Lemma call_run {A} hs s slot c f (entry : result A Error -> backend_call counter) :
  records f entry -> hs !! slot = Some c -> (forall r, counter_call hs (entry r) <-> c ∈ hs) ->
  exists r s', call f s = Done r s' /\ log (backend s') = entry r :: log (backend s) /\ session s' = session s /\ session_step hs s s'.
Proof.
  intros Hf Hh He. destruct (Hf (backend s)) as (r & b' & Hr & Hb). exists r, (mkPmu b' (session s)).
  unfold call. rewrite Hr. split_and!; try done. split; try done. exists [entry r]. split; [done|].
  constructor; [|done]. apply He. by eapply list_elem_of_lookup_2.
Qed.

(** Stopping: what was stopped stays stopped; without an error all are. *)
Lemma stop_slots_run hs slots first s :
  session_core hs (session s) -> (forall slot, slot ∈ slots -> (slot < length hs)%nat) ->
  exists e s', stop_slots slots first s = Done e s' /\ session s' = session s /\ session_step hs s s' /\
    (forall c, unstopped c (log (backend s')) -> unstopped c (log (backend s))) /\
    (e = None -> first = None /\ forall slot c, slot ∈ slots -> hs !! slot = Some c -> ~ unstopped c (log (backend s'))).
Proof.
  revert first s. induction slots as [|slot slots IH]; intros first s Hs Hlt.
  { exists first, s. split_and!; try done. intros ->. split; [done|]. set_solver. }
  cbn [stop_slots]. destruct (counter_at_run hs s slot Hs) as (c & Hc & Hat); [apply Hlt; set_solver|].
  rewrite (bind_done _ _ _ _ _ Hat).
  destruct (call_run hs s slot c _ _ (stop_recorded c) Hc ltac:(done)) as (r & s1 & Hcall & Hl & Hsess & Hstep).
  rewrite (bind_done _ _ _ _ _ Hcall). destruct r as [[]|error].
  - destruct (IH first s1) as (e & s' & Hrun & Hs' & Hstep' & Hkeep & Hall); [by rewrite Hsess|set_solver|].
    rewrite Hl in Hkeep. exists e, s'. split_and!; try (done || congruence || by etrans).
    + intros c' Hc'%Hkeep. by destruct Hc'.
    + intros He. destruct (Hall He) as [Hf Hstopped]. split; [done|]. intros j c' [->|Hj]%elem_of_cons Hj'; [|by apply (Hstopped j)].
      intros Hu%Hkeep. destruct Hu as [Hne _]. congruence.
  - destruct (IH (get_or_insert first error) s1) as (e & s' & Hrun & Hs' & Hstep' & Hkeep & Hall); [by rewrite Hsess|set_solver|].
    rewrite Hl in Hkeep. exists e, s'. split_and!; try (done || congruence || by etrans).
    intros He. destruct (Hall He) as [Hf _]. by destruct first.
Qed.

(** A session that does not run has nothing unstopped. *)
Definition session_quiet (s : PmuState (Logged B)) : Prop :=
  running (session s) = false -> forall c, ~ unstopped c (log (backend s)).

(** Starting: the rollback stops what was started. *)
Lemma start_slots_run hs slots rollback s :
  session_core hs (session s) -> (forall slot, slot ∈ slots ++ rollback -> (slot < length hs)%nat) ->
  (forall c, unstopped c (log (backend s)) -> exists slot, slot ∈ rollback /\ hs !! slot = Some c) ->
  exists s', (start_slots slots rollback s = Done tt s' /\ running (session s') = true \/ exists e, start_slots slots rollback s = Fail e s') /\
    session_step hs s s' /\ session_quiet s'.
Proof.
  revert rollback s. induction slots as [|slot slots IH]; intros rollback s Hs Hlt Hroll.
  { eexists. split; [by left|]. split; [by split; [exists []|..]|done]. }
  cbn [start_slots]. destruct (counter_at_run hs s slot Hs) as (c & Hc & Hat); [apply Hlt; set_solver|].
  rewrite (bind_done _ _ _ _ _ Hat).
  destruct (call_run hs s slot c _ _ (start_recorded c) Hc ltac:(done)) as (r & s1 & Hcall & Hl & Hsess & Hstep).
  rewrite (bind_done _ _ _ _ _ Hcall). destruct r as [[]|error].
  - destruct (IH (slot :: rollback) s1) as (s' & Hrun & Hstep' & Hq); [by rewrite Hsess|set_solver| |].
    + rewrite Hl. intros c' [->|Hu]; [exists slot; split; [left|done]|]. destruct (Hroll c' Hu) as (j & ? & ?). exists j. split; [by right|done].
    + exists s'. split; [done|]. split; [by etrans|done].
  - destruct (stop_slots_run hs rollback None s1) as (e & s2 & Hrun & Hs2 & Hstep2 & Hkeep & Hnone); [by rewrite Hsess|set_solver|].
    rewrite (bind_done _ _ _ _ _ Hrun). eexists. split; [right; by eexists|]. split.
    + trans s1; [done|]. destruct Hstep2. by split.
    + unfold session_quiet. cbn. destruct e; [done|]. intros _ c' Hu. destruct (Hnone eq_refl) as [_ Hstopped].
      pose proof (Hkeep c' Hu) as Hu'. rewrite Hl in Hu'. destruct (Hroll c' Hu') as (j & Hj & Hj'). by apply (Hstopped j c').
Qed.

(** Reading starts and stops nothing. *)
Lemma read_slots_run hs slots s :
  session_core hs (session s) -> (forall slot, slot ∈ slots -> (slot < length hs)%nat) ->
  exists s', ((exists values, read_slots slots s = Done values s' /\ length values = length slots) \/ exists e, read_slots slots s = Fail e s') /\
    session s' = session s /\ session_step hs s s' /\ (forall c, unstopped c (log (backend s')) -> unstopped c (log (backend s))).
Proof.
  revert s. induction slots as [|slot slots IH]; intros s Hs Hlt.
  { exists s. split; [left; by exists []|]. by split_and!. }
  cbn [read_slots]. destruct (counter_at_run hs s slot Hs) as (c & Hc & Hat); [apply Hlt; set_solver|].
  rewrite (bind_done _ _ _ _ _ Hat).
  destruct (call_run hs s slot c _ _ (read_recorded c) Hc ltac:(done)) as (r & s1 & Hcall & Hl & Hsess & Hstep).
  rewrite (bind_done _ _ _ _ _ Hcall). destruct r as [v|e].
  - destruct (IH s1) as (s' & Hcase & Hs' & Hstep' & Hkeep); [by rewrite Hsess|set_solver|].
    rewrite (bind_done _ _ _ v s1) by done. exists s'. split.
    + destruct Hcase as [(values & Hrun & Hlen)|(e & Hrun)]; [left|right].
      * exists (v :: values). rewrite (bind_done _ _ _ _ _ Hrun). split; [done|]. simpl. by rewrite Hlen.
      * exists e. by rewrite (bind_fail _ _ _ _ _ Hrun).
    + rewrite Hl in Hkeep. split_and!; [congruence|by etrans|done].
  - exists s1. split; [right; exists e; by rewrite (bind_fail _ _ _ e s1) by done|]. rewrite Hl. by split_and!.
Qed.
End Loops.
