(* ===== verification/PmuVerified.v ===== *)
(** Performance counters, part 3: the guarantees of a session over every
    backend, whatever it answers, as theorems about the calls it receives. *)

From S2P Require Import Prelude Effects Atomics Pmu.
Local Open Scope Z_scope.

Section Guarantees.
Context {B : Type} `{Backend B} (N : nat).
Local Abbreviation counter := (@Counter (Logged B) logged_backend).
Implicit Types (b : Logged B) (cs : list (option counter)) (hs : list counter) (evs : list Event).

(** ** Opening *)

(** The first slots hold what [configure] returned for the first events. *)
Record opening b cs (stored evs : list Event) hs : Prop := {
  op_counters : cs = slots_of N hs;
  op_stored : stored = evs ++ replicate (N - length evs) CpuCycles;
  op_length : length hs = length evs;
  op_capacity : (length evs <= N)%nat;
  op_handed : handed_out (log b) = zip evs hs;
  op_calls : Forall configure_call (log b);
  op_distinct : NoDup evs }.

(** Each counter handed out was released once; the error is that of the first
    release the backend refused, if it refused one. *)
Definition gave_back (e : Error) (l : list (backend_call counter)) : Prop :=
  (handed_out l).*2 ≡ₚ returned l ++ (refused l).*1 /\ (refused l = [] \/ snd <$> last (refused l) = Some e).

Lemma nothing_called b e : log b = [] -> gave_back e (log b).
Proof. intros ->. split; [done|by left]. Qed.

Lemma abandon_run {A} b cs stored evs hs error : opening b cs stored evs hs ->
  exists e b', abandon (A := A) cs (length evs) error b = Fail e b' /\ gave_back e (log b') /\ (refused (log b') = [] -> e = error).
Proof.
  intros [-> _ Hl Hcap Hh Hc _]. rewrite <- Hl in Hcap |- *.
  destruct (release_all_run (E := Error) (length hs) b (slots_of N hs)) as (l & b' & cs' & Hcalls & Hrel & _ & Hrun & Hp & Hp');
    [by apply within_slots|].
  destruct (configure_calls _ Hc) as (Hret & Href & _).
  exists (default error (snd <$> last (refused l))), b'. unfold abandon. rewrite (bind_done _ _ b (snd <$> last (refused l)) b').
  2:{ unfold release_prefix. by rewrite Hrun. }
  assert ((handed_out (log b)).*2 = hs) as Eh by (rewrite Hh; exact (snd_zip _ _ (Nat.eq_le_incl _ _ Hl))).
  split; [done|]. unfold gave_back. rewrite Hcalls, handed_out_app, returned_app, refused_app, Hret, Href, (release_calls _ Hrel), !app_nil_r, Eh.
  rewrite present_slots, Hp' in Hp. split; [split; [done|]|by intros ->].
  destruct (last (refused l)) eqn:E; [by right|]. left. by apply last_None.
Qed.

Lemma opening_configure b cs stored evs hs event c b1 : opening b cs stored evs hs -> (length evs < N)%nat -> event ∉ evs ->
  configure event b = (Ok c, b1) -> log b1 = Configured event (Ok c) :: log b ->
  opening b1 (<[length evs := Some c]> cs) (<[length evs := event]> stored) (evs ++ [event]) (hs ++ [c]).
Proof.
  intros [-> -> Hl Hcap Hh Hc Hd] Hlt Hev _ Hb. split.
  - rewrite <- Hl. apply slots_snoc. lia.
  - rewrite insert_app_r_alt, length_app, Nat.sub_diag by lia. rewrite <- app_assoc. f_equal.
    replace (N - length evs)%nat with (S (N - (length evs + 1))) by lia. done.
  - rewrite !length_app. cbn [length]. lia.
  - rewrite length_app. cbn [length]. lia.
  - rewrite Hb. cbn [handed_out]. rewrite Hh. symmetry. exact (zip_with_app _ _ [event] _ [c] (eq_sym Hl)).
  - rewrite Hb. by constructor.
  - apply NoDup_app. split; [done|]. split; [|apply NoDup_singleton]. by intros x Hx ->%list_elem_of_singleton.
Qed.

Lemma open_loop_run caps rest b cs stored evs hs : opening b cs stored evs hs -> (length evs + length rest <= N)%nat ->
  (exists cs' stored' hs' b', open_loop caps (length evs) rest cs stored (length evs) b = Done (cs', stored') b' /\
     opening b' cs' stored' (evs ++ rest) hs') \/
  (exists e b', open_loop caps (length evs) rest cs stored (length evs) b = Fail e b' /\ gave_back e (log b')).
Proof.
  revert b cs stored evs hs. induction rest as [|event rest IH]; intros b cs stored evs hs Ho Hlen.
  { left. exists cs, stored, hs, b. by rewrite app_nil_r. }
  assert (forall error, exists e b', abandon (A := list (option counter) * list Event) cs (length evs) error b = Fail e b' /\ gave_back e (log b')) as Habandon.
  { intros error. destruct (abandon_run (A := list (option counter) * list Event) b cs stored evs hs error Ho) as (e & b' & ? & ? & _). eauto. }
  assert (take (length evs) stored = evs) as Htake by (by rewrite (op_stored _ _ _ _ _ Ho), take_app_length).
  cbn [open_loop length] in *. rewrite Htake. case_bool_decide as Hdup; [right; apply Habandon|].
  destruct (negb _); [right; apply Habandon|]. rewrite (bind_done _ _ b b b) by done.
  destruct (configure_recorded event b) as (r & b1 & Hconf & Hb1). rewrite Hconf, (bind_done _ _ b tt b1) by done. destruct r as [c|error].
  - pose proof (opening_configure b cs stored evs hs event c b1 Ho ltac:(lia) Hdup Hconf Hb1) as Ho1.
    destruct Ho as [-> -> Hl Hcap _ _ _]. rewrite !bool_decide_eq_true_2 by (rewrite ?slots_length, ?length_app, ?length_replicate by lia; lia).
    rewrite (bind_done _ _ b1 tt b1) by done. specialize (IH b1 _ _ _ _ Ho1). rewrite length_app, Nat.add_1_r, <- (app_assoc evs) in IH.
    apply IH. lia.
  - right. assert (opening b1 cs stored evs hs) as Ho1.
    { destruct Ho as [? ? ? ? ? ? ?]. split; try done; rewrite Hb1; [done|by constructor]. }
    destruct (abandon_run (A := list (option counter) * list Event) b1 cs stored evs hs error Ho1) as (e & b' & ? & ? & _). eauto.
Qed.

(** A session opened on a backend that has not been called *)
Lemma open_run (b0 : B) requested :
  (exists s b hs, open N requested (mkLogged b0 []) = Done s b /\ session_core N hs s /\ running s = false /\
     session_events s = requested /\ NoDup requested /\ length hs = length requested /\
     handed_out (log b) = zip requested hs /\ Forall configure_call (log b)) \/
  (exists e b, open N requested (mkLogged b0 []) = Fail e b /\ gave_back e (log b)).
Proof.
  set (b00 := mkLogged b0 []). unfold open. destruct requested as [|event rest]; [right; eexists _, _; split; [done|by apply nothing_called]|].
  set (requested := event :: rest). case_bool_decide as Hcap; [right; eexists _, _; split; [done|by apply nothing_called]|].
  rewrite (bind_done _ _ b00 b00 b00) by done. destruct (negb _); [right; eexists _, _; split; [done|by apply nothing_called]|].
  assert (opening b00 (replicate N None) (replicate N CpuCycles) [] []) as Ho.
  { split; unfold slots_of; cbn [length fmap list_fmap app]; rewrite ?Nat.sub_0_r; try done; try lia; by constructor. }
  destruct (open_loop_run (capabilities b00) requested b00 _ _ _ _ Ho) as [(cs' & st' & hs & b' & Hrun & Ho')|(e & b' & Hrun & Hback)]; [cbn [length]; unfold requested in *; cbn [length] in *; lia| |].
  - left. rewrite (bind_done _ _ _ _ _ Hrun). destruct Ho' as [-> -> Hl Hc Hh Hcalls Hd]. eexists _, b', hs. split; [done|].
    split; [split; [done|exact (eq_sym Hl)|by rewrite Hl|done]|]. split; [done|]. split; [exact (take_app_length requested _)|]. by rewrite Hl.
  - right. exists e, b'. by rewrite (bind_fail _ _ _ _ _ Hrun).
Qed.

(** ** Histories of a session *)

Inductive pmu_op : Type := PStart | PSnapshot | PStop.

(** An operation, whatever it returns; [None] for a panic. *)
Definition pmu_execute (op : pmu_op) (s : PmuState (Logged B)) : option (PmuState (Logged B)) :=
  let state {A} (o : outcome (PmuState (Logged B)) Error A) :=
    match o with Done _ s | Fail _ s => Some s | Panic | Diverged => None end in
  match op with
  | PStart => state (start s)
  | PSnapshot => state (snapshot N s)
  | PStop => state (stop s)
  end.

Fixpoint pmu_run (ops : list pmu_op) (s : PmuState (Logged B)) : option (PmuState (Logged B)) :=
  match ops with
  | [] => Some s
  | op :: ops => s ← pmu_execute op s; pmu_run ops s
  end.

(** The invariant: the calls so far configured counters or concern counters of
    the session, and nothing is left started when the session does not run. *)
Record session_ok hs (s : PmuState (Logged B)) : Prop := {
  ok_core : session_core N hs (session s);
  ok_calls : Forall (fun k => configure_call k \/ counter_call hs k) (log (backend s));
  ok_quiet : session_quiet s }.
Lemma ok_step hs s s' : session_ok hs s -> session_step hs s s' -> session_quiet s' -> session_ok hs s'.
Proof.
  intros [Hs Hc _] Hstep Hq. split; [by eapply core_step| |done]. destruct (step_calls _ _ _ Hstep) as (l & -> & Hl).
  apply Forall_app. split; [|done]. eapply Forall_impl; [done|]. by right.
Qed.

Lemma start_run hs s : session_ok hs s ->
  exists s', (start s = Done tt s' \/ exists e, start s = Fail e s') /\ session_step hs s s' /\ session_quiet s'.
Proof.
  intros [Hs _ Hq]. unfold start. rewrite (bind_done _ _ s (session s) s) by done.
  destruct (running (session s)) eqn:Hrun; [exists s; split; [right; by eexists|done]|].
  destruct (start_slots_run N hs (seq 0 (len (session s))) [] s Hs) as (s' & Hcase & Hstep & Hq').
  - intros slot. rewrite app_nil_r, elem_of_seq, (core_len _ _ _ Hs). lia.
  - intros c Hu. by apply Hq in Hu.
  - exists s'. split; [|done]. destruct Hcase as [[-> _]|Hf]; [by left|by right].
Qed.

Lemma stop_run hs s : session_ok hs s ->
  exists s', (stop s = Done tt s' \/ exists e, stop s = Fail e s') /\ session_step hs s s' /\ session_quiet s'.
Proof.
  intros [Hs Hc Hq]. unfold stop. rewrite (bind_done _ _ s (session s) s) by done.
  destruct (running (session s)) eqn:Hrun; cbn [negb]; [|exists s; split; [right; by eexists|done]].
  assert (forall slot, slot ∈ rev (seq 0 (len (session s))) <-> (slot < length hs)%nat) as Hin.
  { intros slot. rewrite list_elem_of_In, <- in_rev, <- list_elem_of_In, elem_of_seq, (core_len _ _ _ Hs). lia. }
  destruct (stop_slots_run N hs (rev (seq 0 (len (session s)))) None s Hs) as (e & s1 & Hstop & Hsess & Hstep & Hkeep & Hnone);
    [intros slot; by apply Hin|].
  rewrite (bind_done _ _ _ _ _ Hstop). exists (mkPmu (backend s1) (set_running (is_some e) (session s1))).
  split; [destruct e; [right; by eexists|by left]|]. split; [destruct Hstep; by split|].
  unfold session_quiet. cbn. destruct e; [done|]. intros _ c Hu. destruct (Hnone eq_refl) as [_ Hstopped].
  destruct (list_elem_of_lookup_1 _ _ (unstopped_called _ _ _ Hc (Hkeep c Hu))) as [slot Hslot].
  apply (Hstopped slot c); [by apply Hin, (lookup_lt_Some _ _ _ Hslot)|done|done].
Qed.

Lemma snapshot_run hs s : session_ok hs s ->
  exists s', ((exists v, snapshot N s = Done v s') \/ exists e, snapshot N s = Fail e s') /\ session_step hs s s' /\ session_quiet s'.
Proof.
  intros [Hs _ Hq]. unfold snapshot. rewrite (bind_done _ _ s (session s) s) by done.
  destruct (negb _); [exists s; split; [right; by eexists|done]|].
  destruct (read_slots_run N hs (seq 0 (len (session s))) s Hs) as (s' & Hcase & Hsess & Hstep & Hkeep).
  { intros slot. rewrite elem_of_seq, (core_len _ _ _ Hs). lia. }
  exists s'. split; [|split; [done|intros Hr c Hu%Hkeep; rewrite Hsess in Hr; by apply (Hq Hr c)]].
  destruct Hcase as [(values & Hrun & _)|(e & Hrun)]; [left; rewrite (bind_done _ _ _ _ _ Hrun)|right; rewrite (bind_fail _ _ _ _ _ Hrun)]; by eexists.
Qed.

Lemma pmu_run_ok hs ops s : session_ok hs s -> exists s', pmu_run ops s = Some s' /\ session_ok hs s' /\ session_step hs s s'.
Proof.
  revert s. induction ops as [|op ops IH]; intros s Hs; [by exists s|]. cbn [pmu_run].
  assert (exists s1, pmu_execute op s = Some s1 /\ session_step hs s s1 /\ session_quiet s1) as (s1 & -> & Hstep & Hq).
  { destruct op; cbn [pmu_execute].
    - destruct (start_run hs s Hs) as (s' & [->|[e ->]] & ?); by eexists.
    - destruct (snapshot_run hs s Hs) as (s' & [[v ->]|[e ->]] & ?); by eexists.
    - destruct (stop_run hs s Hs) as (s' & [->|[e ->]] & ?); by eexists. }
  destruct (IH s1 (ok_step _ _ _ Hs Hstep Hq)) as (s2 & Hrun & Hs2 & Hstep2). exists s2. split; [done|]. split; [done|by etrans].
Qed.

Lemma opened_ok hs s b : session_core N hs s -> running s = false -> Forall configure_call (log b) -> session_ok hs (mkPmu b s).
Proof.
  intros Hs Hr Hc. split; [done| |].
  - eapply Forall_impl; [done|]. by left.
  - intros _. apply (configure_calls _ Hc).
Qed.

(** C39: a session stays sound whatever the backend answers. From a successful
    [open], over any sequence of starts, snapshots and stops, no operation
    panics; the session keeps the requested events, which are distinct, and for
    each the counter that [configure] returned for it, in request order; it
    calls the backend about these counters only and releases none; and while it
    reports that it does not run, every counter whose start succeeded has been
    stopped since. *)
Theorem pmu_session_stays_sound (b0 : B) requested s0 b ops :
  open N requested (mkLogged b0 []) = Done s0 b ->
  exists s, pmu_run ops (mkPmu b s0) = Some s /\
    session_events (session s) = requested /\ NoDup requested /\
    handed_out (log (backend s)) = zip requested (present (counters (session s))) /\
    length (present (counters (session s))) = length requested /\
    Forall (fun k => configure_call k \/ counter_call (present (counters (session s))) k) (log (backend s)) /\
    (running (session s) = false -> forall c, ~ unstopped c (log (backend s))).
Proof.
  intros Hopen. destruct (open_run b0 requested) as [(s1 & b1 & hs & Hrun & Hcore & Hr & Hev & Hdist & Hlen & Hh & Hc)|(e & b1 & Hrun & _)];
    rewrite Hopen in Hrun; [|done]. injection Hrun as <- <-.
  destruct (pmu_run_ok hs ops (mkPmu b s0) (opened_ok hs s0 b Hcore Hr Hc)) as (s & Hs & Hok & [(l & El & Hl) Hcs Hevs Hle _]).
  exists s. assert (present (counters (session s)) = hs) as Ep by (by rewrite (core_counters _ _ _ (ok_core _ _ Hok)), present_slots).
  rewrite Ep. split_and!; try done.
  - unfold session_events. cbn in Hle, Hevs. by rewrite Hle, Hevs.
  - rewrite El, handed_out_app. destruct (counter_calls _ _ Hl) as [-> _]. by rewrite app_nil_r.
  - apply (ok_calls _ _ Hok).
  - apply (ok_quiet _ _ Hok).
Qed.

(** ** Closing *)

(** One pass of [cleanup] *)
Lemma cleanup_run s : within (len (session s)) (counters (session s)) ->
  exists l s', log (backend s') = l ++ log (backend s) /\ Forall release_call l /\
    within (len (session s')) (counters (session s')) /\ closed (session s') = closed (session s) /\
    present (counters (session s)) ≡ₚ returned l ++ present (counters (session s')) /\ present (counters (session s')) ≡ₚ (refused l).*1 /\
    (cleanup s = Done tt s' /\ refused l = [] \/ exists e, cleanup s = Fail e s' /\ snd <$> last (refused l) = Some e).
Proof.
  intros Hw. destruct (release_all_run (E := Error) (len (session s)) (backend s) (counters (session s)) Hw)
    as (l & b' & cs' & Hlog & Hrel & Hw' & Hrun & Hp & Hp').
  unfold cleanup. rewrite Hrun. destruct (snd <$> last (refused l)) as [e|] eqn:He.
  - exists l, (mkPmu b' (set_counters cs' (session s))). split_and!; try done. right. by exists e.
  - exists l, (mkPmu b' (set_running false (set_counters cs' (session s)))). split_and!; try done. left.
    split; [done|]. apply fmap_None in He. by apply last_None.
Qed.

(** C40: counters are given back, whatever the backend answers. A failed [open]
    has released each counter it was handed exactly once, and its error is that
    of the first release the backend refused, if there was one. After any use of
    an open session, [close] returns [Ok] only when every counter handed out has
    been released successfully, exactly once; otherwise its error is that of the
    first refused release, and the counters not given back are exactly those
    still in the session, whose release the backend refused. Nothing panics. *)
Theorem pmu_counters_are_returned (b0 : B) requested :
  match open N requested (mkLogged b0 []) with
  | Done s0 b => forall ops, exists s, pmu_run ops (mkPmu b s0) = Some s /\
      match close s with
      | Done _ s' => (handed_out (log (backend s'))).*2 ≡ₚ returned (log (backend s')) /\ refused (log (backend s')) = []
      | Fail e s' =>
          (handed_out (log (backend s'))).*2 ≡ₚ returned (log (backend s')) ++ present (counters (session s')) /\
          present (counters (session s')) ⊆ (refused (log (backend s'))).*1 /\
          snd <$> last (refused (log (backend s'))) = Some e
      | Panic | Diverged => False
      end
  | Fail e b =>
      (handed_out (log b)).*2 ≡ₚ returned (log b) ++ (refused (log b)).*1 /\
      (refused (log b) = [] \/ snd <$> last (refused (log b)) = Some e)
  | Panic | Diverged => False
  end.
Proof.
  destruct (open_run b0 requested) as [(s0 & b & hs & -> & Hcore & Hr & _ & _ & Hlen & Hh & Hc)|(e & b & -> & Hback)]; [|done].
  intros ops. destruct (pmu_run_ok hs ops (mkPmu b s0) (opened_ok hs s0 b Hcore Hr Hc)) as (s & -> & Hok & [(l & El & Hl) _ _ _ _]).
  exists s. split; [done|]. destruct (ok_core _ _ Hok) as [Ecs Elen Hcap Hop].
  assert ((handed_out (log (backend s))).*2 = hs /\ returned (log (backend s)) = [] /\ refused (log (backend s)) = []) as (Eh & Er & Ef).
  { rewrite El, handed_out_app, returned_app, refused_app. destruct (counter_calls _ _ Hl) as (-> & -> & ->).
    destruct (configure_calls _ Hc) as (Er & Ef & _). cbn [backend]. rewrite Er, Ef, app_nil_r, Hh. split; [apply snd_zip; lia|done]. }
  destruct (cleanup_run s) as (l1 & s1 & El1 & Hl1 & Hw1 & Ec1 & Hp & Hp1 & Hcase); [rewrite Ecs, Elen; by apply within_slots|].
  rewrite Ecs, present_slots in Hp. unfold close. destruct Hcase as [[-> Hnone]|(e & -> & He)].
  - unfold drop_session. cbn [closed session set_closed backend]. rewrite El1, handed_out_app, returned_app, refused_app, (release_calls _ Hl1), Er, Ef, Hnone, !app_nil_r, Eh.
    split; [|done]. by rewrite Hp, Hp1, Hnone, app_nil_r.
  - unfold drop_session. rewrite Ec1, Hop. destruct (cleanup_run s1 Hw1) as (l2 & s2 & El2 & Hl2 & _ & _ & Hp2 & Hp2' & Hcase).
    assert (forall e', e' = e -> (handed_out (log (backend s2))).*2 ≡ₚ returned (log (backend s2)) ++ present (counters (session s2)) /\
      present (counters (session s2)) ⊆ (refused (log (backend s2))).*1 /\ snd <$> last (refused (log (backend s2))) = Some e') as Hgoal.
    { intros e' ->. rewrite El2, El1, !handed_out_app, !returned_app, !refused_app, (release_calls _ Hl1), (release_calls _ Hl2), Er, Ef, !app_nil_r, Eh.
      split_and!; [rewrite Hp, Hp2; solve_Permutation|rewrite fmap_app, <- Hp2'; set_solver|]. rewrite last_app. by destruct (last (refused l1)). }
    destruct Hcase as [[-> _]|(e2 & -> & _)]; by apply Hgoal.
Qed.

End Guarantees.

(** ** Diagnostics

    Enabled diagnostics count every record and saturate instead of wrapping. *)
Lemma record_saturates n :
  Nat.iter n SoftwareDiagnostics.record_asid_tlb_flush_avoided (SoftwareDiagnostics.set_enabled true SoftwareDiagnostics.new).2 =
  mkDiagnostics true (Z.min (Z.of_nat n) usize_MAX) (usize_MAX <? Z.of_nat n).
Proof.
  induction n as [|n IH]; [done|]. rewrite Nat.iter_succ, IH.
  unfold SoftwareDiagnostics.record_asid_tlb_flush_avoided, try_update, checked_add_usize.
  cbn [enabled negb asid_tlb_flushes_avoided diag_saturated]. rewrite Nat2Z.inj_succ.
  destruct (Z.leb_spec (Z.min (Z.of_nat n) usize_MAX + 1) usize_MAX), (Z.ltb_spec usize_MAX (Z.of_nat n)),
    (Z.ltb_spec usize_MAX (Z.succ (Z.of_nat n))); try lia; f_equal; lia.
Qed.

(** ** Witness: a backend that fails

    Counters are numbered as they are configured; counter 1 refuses to start. *)

#[local] Instance numbered : Backend nat := {
  Counter := nat;
  capabilities b := mkCapabilities Platform 4 EventMask.ALL true;
  configure _ b := (Ok b, S b);
  start_counter c b := (if decide (c = 1%nat) then Err ValueUnavailable else Ok tt, b);
  read_counter c b := (Ok 42, b);
  stop_counter c b := (Ok tt, b);
  release_counter c b := (Ok tt, b) }.

Definition two_events : list Event := [CpuCycles; Instructions].

(** The start fails at the second counter, and the first is stopped again. *)
Lemma pmu_session_stays_sound_witness :
  exists s0 b s, open 3 two_events (mkLogged 0%nat []) = Done s0 b /\ pmu_run 3 [PStart; PSnapshot; PStop] (mkPmu b s0) = Some s /\
    log (backend s) = [Stopped 0%nat (Ok tt); Started 1%nat (Err ValueUnavailable); Started 0%nat (Ok tt);
                       Configured Instructions (Ok 1%nat); Configured CpuCycles (Ok 0%nat)] /\
    handed_out (log (backend s)) = zip two_events (present (counters (session s))) /\
    (running (session s) = false -> forall c, ~ unstopped c (log (backend s))).
Proof.
  destruct (open 3 two_events (mkLogged 0%nat [])) as [s0 b| | |] eqn:E; [|vm_compute in E; discriminate E..].
  destruct (pmu_session_stays_sound 3 0%nat two_events s0 b [PStart; PSnapshot; PStop] E) as (s & Hrun & _ & _ & Hh & _ & _ & Hq).
  exists s0, b, s. split; [reflexivity|]. split; [exact Hrun|]. split; [|split; [exact Hh|exact Hq]].
  clear Hh Hq. vm_compute in E. injection E as <- <-. vm_compute in Hrun. injection Hrun as <-. reflexivity.
Defined.
