(* ===== verification/EevdfTree.v ===== *)
(** The allocation-free intrusive red-black tree of the EEVDF scheduler
    (crates/thekernel-axsched/src/eevdf_tree.rs).

    Nodes live in a memory of [Arc] allocations: a raw pointer is [None]
    (null) or the address of a cell, and a cell holds the node's payload slot,
    its structural state and the strong count of its [Arc]. Every dereference
    of a raw pointer is checked: following null or a released address is the
    outcome [Panic], so a proof that an operation returns [Done] also proves
    that its unsafe code touches live nodes only. The operations are
    translated statement by statement; [while] loops take a bound on their
    iterations, two more than the number of cells in memory unless stated
    otherwise, and end in [Diverged] when they exceed it. *)

From S2P Require Import Prelude.
From S2P Require Import Effects.
From stdpp Require Import gmap.
Local Open Scope Z_scope.

(** [Ord] of the key type. *)
Class Ord (K : Type) : Type := cmp : K -> K -> comparison.

Class OrdLaws (K : Type) `{Ord K} : Prop := {
  cmp_eq : forall a b : K, cmp a b = Eq <-> a = b;
  cmp_opp : forall a b : K, cmp b a = CompOpp (cmp a b);
  cmp_trans : forall a b c : K, cmp a b = Lt -> cmp b c = Lt -> cmp a c = Lt
}.

Definition u128_MAX : Z := 340282366920938463463374607431768211455.
Definition in_u128 (z : Z) : Prop := 0 <= z <= u128_MAX.
#[export] Instance in_u128_dec z : Decision (in_u128 z).
Proof. unfold in_u128. apply _. Defined.

Definition EMPTY_MIN : Z := u128_MAX.

Inductive Color := Red | Black.
#[export] Instance Color_eq_dec : EqDecision Color.
Proof. solve_decision. Defined.

(** A raw pointer to a node. *)
Abbreviation ptr := (option nat).

Record NodeState {K : Type} : Type := mkNodeState {
  key : K;
  eligible_at : Z;
  parent : ptr;
  left : ptr;
  right : ptr;
  color : Color;
  subtree_min : Z;
  linked : bool;
  value_initialized : bool
}.
Arguments NodeState K : clear implicits.
Arguments mkNodeState {K}.

(** An [Arc<EevdfNode<K, T>>] allocation; [value] is [None] once moved out. *)
Record EevdfNode {K T : Type} : Type := mkEevdfNode {
  value : option T;
  state : NodeState K;
  strong : Z
}.
Arguments EevdfNode K T : clear implicits.
Arguments mkEevdfNode {K T}.

Inductive EevdfTreeError := AlreadyLinked | DuplicateKey | ForeignNode.
#[export] Instance EevdfTreeError_eq_dec : EqDecision EevdfTreeError.
Proof. solve_decision. Defined.

Record EevdfInsertError := mkEevdfInsertError { kind : EevdfTreeError; node : nat }.

Record EevdfTree := mkEevdfTree { root : ptr; len : Z }.

(** The memory and one tree whose nodes live in it. *)
Record World {K T : Type} : Type := mkWorld {
  mem : gmap nat (EevdfNode K T);
  tree : EevdfTree
}.
Arguments World K T : clear implicits.
Arguments mkWorld {K T}.

(** ** Field updates *)

Section Fields.
Context {K : Type}.
Implicit Types s : NodeState K.

Definition with_parent (p : ptr) s : NodeState K :=
  mkNodeState (key s) (eligible_at s) p (left s) (right s) (color s) (subtree_min s) (linked s)
    (value_initialized s).
Definition with_left (p : ptr) s : NodeState K :=
  mkNodeState (key s) (eligible_at s) (parent s) p (right s) (color s) (subtree_min s) (linked s)
    (value_initialized s).
Definition with_right (p : ptr) s : NodeState K :=
  mkNodeState (key s) (eligible_at s) (parent s) (left s) p (color s) (subtree_min s) (linked s)
    (value_initialized s).
Definition with_color (c : Color) s : NodeState K :=
  mkNodeState (key s) (eligible_at s) (parent s) (left s) (right s) c (subtree_min s) (linked s)
    (value_initialized s).
Definition with_subtree_min (m : Z) s : NodeState K :=
  mkNodeState (key s) (eligible_at s) (parent s) (left s) (right s) (color s) m (linked s)
    (value_initialized s).
Definition with_linked (b : bool) s : NodeState K :=
  mkNodeState (key s) (eligible_at s) (parent s) (left s) (right s) (color s) (subtree_min s) b
    (value_initialized s).
Definition with_value_initialized (b : bool) s : NodeState K :=
  mkNodeState (key s) (eligible_at s) (parent s) (left s) (right s) (color s) (subtree_min s)
    (linked s) b.
Definition with_schedule (k : K) (e m : Z) s : NodeState K :=
  mkNodeState k e (parent s) (left s) (right s) (color s) m (linked s) (value_initialized s).
End Fields.

(** ** Nodes *)

Section Node.
Context {K T : Type}.

(** [EevdfNode::new_unlinked], as the content of a fresh [Arc] *)
Definition new_unlinked (k : K) (e : Z) (v : T) : EevdfNode K T :=
  mkEevdfNode (Some v) (mkNodeState k e None None None Black e false true) 1.

Definition is_linked (n : EevdfNode K T) : bool := linked (state n).

(** [into_value]: a linked node, or one whose payload was moved out, panics *)
Definition into_value (n : EevdfNode K T) : option T :=
  if is_linked n then None
  else if value_initialized (state n) then value n else None.

Abbreviation Memory := (gmap nat (EevdfNode K T)).
Context {E : Type}.

(** A checked dereference, and a store through a pointer. *)
Definition deref (p : ptr) : M Memory E (EevdfNode K T) :=
  a ← expect p; m ← gets id; expect (m !! a).
Definition assign (p : ptr) (f : NodeState K -> NodeState K) : M Memory E () :=
  a ← expect p; n ← deref p;
  modify <[a := mkEevdfNode (value n) (f (state n)) (strong n)]>.

(** [take_value] and [put_value] *)
Definition take_value (p : ptr) : M Memory E T :=
  a ← expect p; n ← deref p;
  assert_ (value_initialized (state n));;
  v ← expect (value n);
  modify <[a := mkEevdfNode None (with_value_initialized false (state n)) (strong n)]>;;
  mret v.
Definition put_value (p : ptr) (v : T) : M Memory E () :=
  a ← expect p; n ← deref p;
  assert_ (negb (value_initialized (state n)));;
  modify <[a := mkEevdfNode (Some v) (with_value_initialized true (state n)) (strong n)]>.

(** [stage_unlinked] *)
Definition stage_unlinked (p : ptr) (k : K) (e : Z) : M Memory E () :=
  n ← deref p;
  assert_ (negb (linked (state n)));;
  assign p (with_schedule k e e).

(** [Arc::increment_strong_count] and the drop of an [Arc]: the last owner
    releases the allocation. *)
Definition increment_strong_count (p : ptr) : M Memory E () :=
  a ← expect p; n ← deref p;
  modify <[a := mkEevdfNode (value n) (state n) (strong n + 1)]>.
Definition drop_arc (p : ptr) : M Memory E () :=
  a ← expect p; n ← deref p;
  if strong n =? 1 then modify (delete a)
  else modify <[a := mkEevdfNode (value n) (state n) (strong n - 1)]>.

End Node.

(** ** The tree *)

(** [EevdfTree::new], [len] and [is_empty] *)
Definition new : EevdfTree := mkEevdfTree None 0.
Definition is_empty (t : EevdfTree) : bool := len t =? 0.

Section Tree.
Context {K T : Type} `{Ord K}.
Context {E : Type}.
Abbreviation Op A := (M (World K T) E A).

(** A memory operation inside a tree operation. *)
Definition on_mem {A} (op : M (gmap nat (EevdfNode K T)) E A) : Op A := fun w =>
  match op (mem w) with
  | Done a m => Done a (mkWorld m (tree w))
  | Fail e m => Fail e (mkWorld m (tree w))
  | Panic => Panic
  | Diverged => Diverged
  end.

Definition read (p : ptr) : Op (NodeState K) := n ← on_mem (deref p); mret (state n).
Definition set (p : ptr) (f : NodeState K -> NodeState K) : Op () := on_mem (assign p f).
Definition get_root : Op ptr := gets (fun w => root (tree w)).
Definition set_root (p : ptr) : Op () :=
  modify (fun w => mkWorld (mem w) (mkEevdfTree p (len (tree w)))).
Definition add_len : Op () :=
  l ← gets (fun w => len (tree w));
  l ← expect (checked_add_usize l 1);
  modify (fun w => mkWorld (mem w) (mkEevdfTree (root (tree w)) l)).
Definition sub_len : Op () :=
  l ← gets (fun w => len (tree w));
  l ← expect (checked_sub_usize l 1);
  modify (fun w => mkWorld (mem w) (mkEevdfTree (root (tree w)) l)).

(** The bound of a walk along links. *)
Definition walk_bound : Op nat := gets (fun w => S (S (size (mem w)))).

(** [minimum] *)
Fixpoint minimum_loop (fuel : nat) (node : ptr) : Op ptr :=
  match fuel with
  | O => diverge
  | S fuel =>
      s ← read node;
      if bool_decide (left s = None) then mret node else minimum_loop fuel (left s)
  end.
Definition minimum (node : ptr) : Op ptr := fuel ← walk_bound; minimum_loop fuel node.

(** [color] and [set_color]; null is black *)
Definition get_color (node : ptr) : Op Color :=
  match node with
  | None => mret Black
  | Some _ => s ← read node; mret (color s)
  end.
Definition set_color (node : ptr) (c : Color) : Op () :=
  match node with
  | None => mret tt
  | Some _ => set node (with_color c)
  end.

(** [recompute] and [recompute_upwards] *)
Definition min_of (node : ptr) : Op Z :=
  match node with
  | None => mret EMPTY_MIN
  | Some _ => s ← read node; mret (subtree_min s)
  end.
Definition recompute (node : ptr) : Op () :=
  match node with
  | None => mret tt
  | Some _ =>
      link ← read node;
      left_min ← min_of (left link);
      right_min ← min_of (right link);
      set node (with_subtree_min (Z.min (Z.min (eligible_at link) left_min) right_min))
  end.
Fixpoint recompute_upwards_loop (fuel : nat) (node : ptr) : Op () :=
  match node with
  | None => mret tt
  | Some _ =>
      match fuel with
      | O => diverge
      | S fuel => recompute node;; s ← read node; recompute_upwards_loop fuel (parent s)
      end
  end.
Definition recompute_upwards (node : ptr) : Op () :=
  fuel ← walk_bound; recompute_upwards_loop fuel node.

(** [rotate_left] *)
Definition rotate_left (x : ptr) : Op () :=
  sx ← read x;
  let y := right sx in
  assert_ (bool_decide (y <> None));;
  sy ← read y;
  let y_left := left sy in
  set x (with_right y_left);;
  (if bool_decide (y_left = None) then mret tt else set y_left (with_parent x));;
  sx ← read x;
  let x_parent := parent sx in
  set y (with_parent x_parent);;
  (if bool_decide (x_parent = None) then set_root y
   else
     sp ← read x_parent;
     if bool_decide (x = left sp) then set x_parent (with_left y)
     else set x_parent (with_right y));;
  set y (with_left x);;
  set x (with_parent y);;
  recompute x;;
  recompute y.

(** [rotate_right] *)
Definition rotate_right (x : ptr) : Op () :=
  sx ← read x;
  let y := left sx in
  assert_ (bool_decide (y <> None));;
  sy ← read y;
  let y_right := right sy in
  set x (with_left y_right);;
  (if bool_decide (y_right = None) then mret tt else set y_right (with_parent x));;
  sx ← read x;
  let x_parent := parent sx in
  set y (with_parent x_parent);;
  (if bool_decide (x_parent = None) then set_root y
   else
     sp ← read x_parent;
     if bool_decide (x = right sp) then set x_parent (with_right y)
     else set x_parent (with_left y));;
  set y (with_right x);;
  set x (with_parent y);;
  recompute x;;
  recompute y.

(** [insert_fixup] *)
Fixpoint insert_fixup_loop (fuel : nat) (z : ptr) : Op () :=
  match fuel with
  | O => diverge
  | S fuel =>
      sz ← read z;
      let parent_ := parent sz in
      parent_color ← get_color parent_;
      if bool_decide (parent_ <> None) && bool_decide (parent_color = Red) then
        sp ← read parent_;
        let grand := parent sp in
        sg ← read grand;
        if bool_decide (parent_ = left sg) then
          let uncle := right sg in
          uncle_color ← get_color uncle;
          if bool_decide (uncle_color = Red) then
            set_color parent_ Black;;
            set_color uncle Black;;
            set_color grand Red;;
            insert_fixup_loop fuel grand
          else
            z ← (if bool_decide (z = right sp)
                 then rotate_left parent_;; mret parent_
                 else mret z);
            sz ← read z;
            let parent_ := parent sz in
            sp ← read parent_;
            let grand := parent sp in
            set_color parent_ Black;;
            set_color grand Red;;
            rotate_right grand;;
            insert_fixup_loop fuel z
        else
          let uncle := left sg in
          uncle_color ← get_color uncle;
          if bool_decide (uncle_color = Red) then
            set_color parent_ Black;;
            set_color uncle Black;;
            set_color grand Red;;
            insert_fixup_loop fuel grand
          else
            z ← (if bool_decide (z = left sp)
                 then rotate_right parent_;; mret parent_
                 else mret z);
            sz ← read z;
            let parent_ := parent sz in
            sp ← read parent_;
            let grand := parent sp in
            set_color parent_ Black;;
            set_color grand Red;;
            rotate_left grand;;
            insert_fixup_loop fuel z
      else
        r ← get_root;
        set_color r Black
  end.
Definition insert_fixup (z : ptr) : Op () := fuel ← walk_bound; insert_fixup_loop fuel z.

(** [transplant] *)
Definition transplant (old new : ptr) : Op () :=
  so ← read old;
  let parent_ := parent so in
  (if bool_decide (parent_ = None) then set_root new
   else
     sp ← read parent_;
     if bool_decide (old = left sp) then set parent_ (with_left new)
     else set parent_ (with_right new));;
  if bool_decide (new = None) then mret tt else set new (with_parent parent_).

(** A child of a possibly null sibling *)
Definition left_or_null (p : ptr) : Op ptr :=
  match p with None => mret None | Some _ => s ← read p; mret (left s) end.
Definition right_or_null (p : ptr) : Op ptr :=
  match p with None => mret None | Some _ => s ← read p; mret (right s) end.

(** The part of a [delete_fixup] round that follows the sibling's recolouring,
    for a left and a right child [x]; [loop] runs the remaining rounds. *)
Definition delete_round_left (loop : ptr -> ptr -> Op ()) (x x_parent sibling : ptr) : Op () :=
  sibling_left ← left_or_null sibling;
  sibling_right ← right_or_null sibling;
  left_color ← get_color sibling_left;
  right_color ← get_color sibling_right;
  if bool_decide (left_color = Black) && bool_decide (right_color = Black) then
    set_color sibling Red;;
    sp ← read x_parent;
    loop x_parent (parent sp)
  else
    sibling ← (if bool_decide (right_color = Black) then
                 set_color sibling_left Black;;
                 set_color sibling Red;;
                 (if bool_decide (sibling = None) then mret tt else rotate_right sibling);;
                 sp ← read x_parent; mret (right sp)
               else mret sibling);
    parent_color ← get_color x_parent;
    set_color sibling parent_color;;
    set_color x_parent Black;;
    sibling_right ← right_or_null sibling;
    set_color sibling_right Black;;
    rotate_left x_parent;;
    r ← get_root;
    loop r None.

Definition delete_round_right (loop : ptr -> ptr -> Op ()) (x x_parent sibling : ptr) : Op () :=
  sibling_right ← right_or_null sibling;
  sibling_left ← left_or_null sibling;
  right_color ← get_color sibling_right;
  left_color ← get_color sibling_left;
  if bool_decide (right_color = Black) && bool_decide (left_color = Black) then
    set_color sibling Red;;
    sp ← read x_parent;
    loop x_parent (parent sp)
  else
    sibling ← (if bool_decide (left_color = Black) then
                 set_color sibling_right Black;;
                 set_color sibling Red;;
                 (if bool_decide (sibling = None) then mret tt else rotate_left sibling);;
                 sp ← read x_parent; mret (left sp)
               else mret sibling);
    parent_color ← get_color x_parent;
    set_color sibling parent_color;;
    set_color x_parent Black;;
    sibling_left ← left_or_null sibling;
    set_color sibling_left Black;;
    rotate_right x_parent;;
    r ← get_root;
    loop r None.

(** [delete_fixup] *)
Fixpoint delete_fixup_loop (fuel : nat) (x x_parent : ptr) : Op () :=
  match fuel with
  | O => diverge
  | S fuel =>
      r ← get_root;
      x_color ← get_color x;
      if bool_decide (x <> r) && bool_decide (x_color = Black) && bool_decide (x_parent <> None) then
        sp ← read x_parent;
        if bool_decide (x = left sp) then
          let sibling := right sp in
          sibling_color ← get_color sibling;
          sibling ← (if bool_decide (sibling_color = Red) then
                       set_color sibling Black;;
                       set_color x_parent Red;;
                       rotate_left x_parent;;
                       sp ← read x_parent; mret (right sp)
                     else mret sibling);
          delete_round_left (delete_fixup_loop fuel) x x_parent sibling
        else
          let sibling := left sp in
          sibling_color ← get_color sibling;
          sibling ← (if bool_decide (sibling_color = Red) then
                       set_color sibling Black;;
                       set_color x_parent Red;;
                       rotate_right x_parent;;
                       sp ← read x_parent; mret (left sp)
                     else mret sibling);
          delete_round_right (delete_fixup_loop fuel) x x_parent sibling
      else set_color x Black
  end.
Definition delete_fixup (x x_parent : ptr) : Op () :=
  fuel ← walk_bound; delete_fixup_loop fuel x x_parent.

(** [remove_raw] *)
Definition remove_raw (z : ptr) : Op ptr :=
  sz ← read z;
  let z_left := left sz in
  let z_right := right sz in
  '(y, y_color, x, x_parent) ←
    (if bool_decide (z_left = None) then
       transplant z z_right;;
       mret (z, color sz, z_right, parent sz)
     else if bool_decide (z_right = None) then
       transplant z z_left;;
       mret (z, color sz, z_left, parent sz)
     else
       y ← minimum z_right;
       sy ← read y;
       let x := right sy in
       x_parent ←
         (if bool_decide (parent sy = z) then
            (if bool_decide (x = None) then mret tt else set x (with_parent y));;
            mret y
          else
            transplant y x;;
            set y (with_right z_right);;
            set z_right (with_parent y);;
            mret (parent sy));
       transplant z y;;
       set y (with_left z_left);;
       set z_left (with_parent y);;
       sz ← read z;
       set y (with_color (color sz));;
       mret (y, color sy, x, x_parent));
  sub_len;;
  (if bool_decide (y_color = Black) then delete_fixup x x_parent else mret tt);;
  recompute_upwards x;;
  recompute_upwards x_parent;;
  (if bool_decide (y = None) then mret tt else recompute_upwards y);;
  r ← get_root;
  (if bool_decide (r = None) then mret tt
   else set r (with_parent None);; set r (with_color Black));;
  set z (with_parent None);;
  set z (with_left None);;
  set z (with_right None);;
  set z (with_color Black);;
  sz ← read z;
  set z (with_subtree_min (eligible_at sz));;
  set z (with_linked false);;
  mret z.

(** [contains_exact] *)
Fixpoint contains_exact_loop (fuel : nat) (k : K) (target cursor : ptr) : Op bool :=
  match cursor with
  | None => mret false
  | Some _ =>
      match fuel with
      | O => diverge
      | S fuel =>
          s ← read cursor;
          match cmp k (key s) with
          | Lt => contains_exact_loop fuel k target (left s)
          | Gt => contains_exact_loop fuel k target (right s)
          | Eq => mret (bool_decide (cursor = target))
          end
      end
  end.
Definition contains_exact (target : ptr) : Op bool :=
  match target with
  | None => mret false
  | Some _ =>
      s ← read target;
      if linked s then
        r ← get_root; fuel ← walk_bound; contains_exact_loop fuel (key s) target r
      else mret false
  end.

(** [successor] *)
Fixpoint successor_loop (fuel : nat) (child parent_ : ptr) : Op ptr :=
  match fuel with
  | O => diverge
  | S fuel =>
      match parent_ with
      | None => mret None
      | Some _ =>
          sp ← read parent_;
          if bool_decide (right sp = child) then successor_loop fuel parent_ (parent sp)
          else mret parent_
      end
  end.
Definition successor (node : ptr) : Op ptr :=
  s ← read node;
  if bool_decide (right s = None) then
    fuel ← walk_bound; successor_loop fuel node (parent s)
  else minimum (right s).

(** [front], the address of the minimum-key node *)
Definition front : Op ptr :=
  r ← get_root;
  if bool_decide (r = None) then mret None else minimum r.

(** [min_eligible_at] *)
Definition min_eligible_at : Op (option Z) :=
  r ← get_root;
  if bool_decide (r = None) then mret None else s ← read r; mret (Some (subtree_min s)).

(** The guard [!child.is_null() && child.subtree_min <= now] *)
Definition min_within (child : ptr) (now : Z) : Op bool :=
  match child with
  | None => mret false
  | Some _ => s ← read child; mret (subtree_min s <=? now)
  end.

(** The descent of [peek_earliest_eligible] and [pop_earliest_eligible] *)
Fixpoint earliest_eligible_loop (fuel : nat) (now : Z) (cursor : ptr) : Op ptr :=
  match cursor with
  | None => mret None
  | Some _ =>
      match fuel with
      | O => diverge
      | S fuel =>
          link ← read cursor;
          if now <? subtree_min link then mret None
          else
            go_left ← min_within (left link) now;
            if go_left : bool then earliest_eligible_loop fuel now (left link)
            else if eligible_at link <=? now then mret cursor
            else
              go_right ← min_within (right link) now;
              if go_right : bool then earliest_eligible_loop fuel now (right link)
              else mret None
      end
  end.
Definition peek_earliest_eligible (now : Z) : Op ptr :=
  r ← get_root; fuel ← walk_bound; earliest_eligible_loop fuel now r.

(** [pop_earliest_eligible] *)
Definition pop_earliest_eligible (now : Z) : Op ptr :=
  r ← get_root; fuel ← walk_bound;
  candidate ← earliest_eligible_loop fuel now r;
  if bool_decide (candidate = None) then mret None else remove_raw candidate.

(** The bounded scan of [find_bounded] and [find_bounded_after]: the accepted
    node, with the number of nodes visited, and the key visited last. *)
Fixpoint scan_loop (fuel : nat) (limit visited : Z) (last_key : option K)
    (predicate : EevdfNode K T -> bool) (cursor : ptr) : Op (option (ptr * Z) * option K) :=
  match cursor with
  | None => mret (None, last_key)
  | Some _ =>
      if visited <? limit then
        match fuel with
        | O => diverge
        | S fuel =>
            let visited := visited + 1 in
            n ← on_mem (deref cursor);
            let last_key := Some (key (state n)) in
            if predicate n then
              on_mem (increment_strong_count cursor);;
              mret (Some (cursor, visited), last_key)
            else
              next ← successor cursor;
              scan_loop fuel limit visited last_key predicate next
        end
      else mret (None, last_key)
  end.

(** [find_bounded] *)
Definition find_bounded (limit : Z) (predicate : EevdfNode K T -> bool) : Op (option (ptr * Z)) :=
  r ← get_root;
  if (limit =? 0) || bool_decide (r = None) then mret None
  else
    cursor ← minimum r; fuel ← walk_bound;
    found ← scan_loop fuel limit 0 None predicate cursor;
    mret found.1.

(** [find_bounded_after] *)
Fixpoint lower_bound_loop (fuel : nat) (after : K) (current successor_ : ptr) : Op ptr :=
  match current with
  | None => mret successor_
  | Some _ =>
      match fuel with
      | O => diverge
      | S fuel =>
          s ← read current;
          match cmp (key s) after with
          | Gt => lower_bound_loop fuel after (left s) current
          | _ => lower_bound_loop fuel after (right s) successor_
          end
      end
  end.
Definition find_bounded_after (after : option K) (limit : Z) (predicate : EevdfNode K T -> bool)
    : Op (option (ptr * Z) * option K) :=
  r ← get_root;
  if (limit =? 0) || bool_decide (r = None) then mret (None, None)
  else
    fuel ← walk_bound;
    cursor ← match after with
             | Some after => lower_bound_loop fuel after r None
             | None => minimum r
             end;
    scan_loop fuel limit 0 None predicate cursor.

(** [Drop for EevdfTree]: a post-order walk along the parent links *)
Fixpoint drop_loop (fuel : nat) (current previous : ptr) : Op () :=
  match current with
  | None => mret tt
  | Some _ =>
      match fuel with
      | O => diverge
      | S fuel =>
          link ← read current;
          let next :=
            if bool_decide (previous = parent link) then
              if bool_decide (left link <> None) then left link
              else if bool_decide (right link <> None) then right link else None
            else if bool_decide (previous = left link) then
              if bool_decide (right link <> None) then right link else None
            else None in
          if bool_decide (next <> None) then drop_loop fuel next current
          else
            let next_parent := parent link in
            (if bool_decide (parent link = None) then set_root None else mret tt);;
            set current (with_parent None);;
            set current (with_left None);;
            set current (with_right None);;
            set current (with_linked false);;
            s ← read current;
            set current (with_subtree_min (eligible_at s));;
            sub_len;;
            on_mem (drop_arc current);;
            drop_loop fuel next_parent current
      end
  end.
Definition drop : Op () :=
  r ← get_root; m ← gets mem; drop_loop (2 * size m) r None.

End Tree.

(** [insert]: consumes an [Arc], or hands it back in the error *)
Section Insert.
Context {K T : Type} `{Ord K}.
Abbreviation Op A := (M (World K T) EevdfInsertError A).

Fixpoint insert_loop (fuel : nat) (raw : nat) (k : K) (parent_ cursor : ptr) : Op ptr :=
  match cursor with
  | None => mret parent_
  | Some _ =>
      match fuel with
      | O => diverge
      | S fuel =>
          s ← read cursor;
          match cmp k (key s) with
          | Lt => insert_loop fuel raw k cursor (left s)
          | Gt => insert_loop fuel raw k cursor (right s)
          | Eq => throw (mkEevdfInsertError DuplicateKey raw)
          end
      end
  end.

Definition insert (raw : nat) : Op () :=
  s ← read (Some raw);
  if linked s then throw (mkEevdfInsertError AlreadyLinked raw)
  else
    let k := key s in
    r ← get_root; fuel ← walk_bound;
    parent_ ← insert_loop fuel raw k None r;
    set (Some raw) (with_parent parent_);;
    set (Some raw) (with_left None);;
    set (Some raw) (with_right None);;
    set (Some raw) (with_color Red);;
    s ← read (Some raw);
    set (Some raw) (with_subtree_min (eligible_at s));;
    set (Some raw) (with_linked true);;
    (if bool_decide (parent_ = None) then set_root (Some raw)
     else
       sp ← read parent_;
       match cmp k (key sp) with
       | Lt => set parent_ (with_left (Some raw))
       | _ => set parent_ (with_right (Some raw))
       end);;
    add_len;;
    recompute_upwards parent_;;
    insert_fixup (Some raw);;
    recompute_upwards (Some raw).

End Insert.

(** [remove], which refuses a node of another tree *)
Definition remove {K T : Type} `{Ord K} (node : nat) : M (World K T) EevdfTreeError ptr :=
  found ← contains_exact (Some node);
  if found : bool then remove_raw (Some node) else throw ForeignNode.
