(* ===== verification/RbShape.v ===== *)
(** Shapes of the EEVDF tree: the ghost trees that a memory of linked nodes
    represents, with a zipper for the position an operation works at.

    A ghost node carries the address of its cell and everything the cell holds
    apart from its links; the links are determined by the shape. [at_focus] says
    that the memory and the root pointer represent a tree seen from a position
    in it, and pins every other cell of the memory down.

    The tree's pointer primitives on shapes: what a rotation, a recolouring, a
    recomputation of the cached minimum, a transplant or a link does to the
    tree a memory represents. *)

From stdpp Require Import gmap.
From S2P Require Import Prelude Effects EevdfTree.
Local Open Scope Z_scope.

Inductive side := InLeft | InRight.
Definition other (s : side) : side := match s with InLeft => InRight | InRight => InLeft end.

Section Shape.
Context {K T : Type}.

(** What a linked cell holds apart from its three links. *)
Record info : Type := mkInfo {
  i_key : K;
  i_eligible : Z;
  i_color : Color;
  i_min : Z;
  i_initialized : bool;
  i_value : option T;
  i_strong : Z
}.

Inductive shape : Type :=
| Leaf
| Node (l : shape) (a : nat) (i : info) (r : shape).

(** One step of the path from the focus to the root: the focus is the [s]
    child of the node [a], whose other child is [sib]. *)
Record frame : Type := mkFrame { f_side : side; f_addr : nat; f_info : info; f_sib : shape }.

Definition node_at (s : side) (t : shape) (a : nat) (i : info) (sib : shape) : shape :=
  match s with InLeft => Node t a i sib | InRight => Node sib a i t end.
Definition fill (f : frame) (t : shape) : shape :=
  node_at (f_side f) t (f_addr f) (f_info f) (f_sib f).
Fixpoint plug (k : list frame) (t : shape) : shape :=
  match k with [] => t | f :: k => plug k (fill f t) end.

Definition addr_of (t : shape) : ptr := match t with Leaf => None | Node _ a _ _ => Some a end.
Definition up (k : list frame) : ptr := match k with [] => None | f :: _ => Some (f_addr f) end.

Fixpoint addrs (t : shape) : list nat :=
  match t with Leaf => [] | Node l a _ r => a :: addrs l ++ addrs r end.
Fixpoint ctx_addrs (k : list frame) : list nat :=
  match k with [] => [] | f :: k => f_addr f :: addrs (f_sib f) ++ ctx_addrs k end.

(** The cell of a linked node. *)
Definition cell (i : info) (p l r : ptr) : EevdfNode K T :=
  mkEevdfNode (i_value i)
    (mkNodeState (i_key i) (i_eligible i) p l r (i_color i) (i_min i) true (i_initialized i))
    (i_strong i).

Abbreviation Memory := (gmap nat (EevdfNode K T)).

Fixpoint rep (m : Memory) (p : ptr) (t : shape) : Prop :=
  match t with
  | Leaf => True
  | Node l a i r =>
      m !! a = Some (cell i p (addr_of l) (addr_of r)) /\ rep m (Some a) l /\ rep m (Some a) r
  end.

Fixpoint ctx_rep (m : Memory) (rt : ptr) (k : list frame) (hole : ptr) : Prop :=
  match k with
  | [] => rt = hole
  | f :: k =>
      m !! f_addr f =
        Some (match f_side f with
              | InLeft => cell (f_info f) (up k) hole (addr_of (f_sib f))
              | InRight => cell (f_info f) (up k) (addr_of (f_sib f)) hole
              end) /\
      rep m (Some (f_addr f)) (f_sib f) /\ ctx_rep m rt k (Some (f_addr f))
  end.

(** The memory [m] with root [rt] holds the tree [plug k t] and, elsewhere,
    the cells of [F]. *)
Record at_focus (F : Memory) (k : list frame) (t : shape) (m : Memory) (rt : ptr) : Prop := {
  focus_rep : rep m (up k) t;
  focus_ctx : ctx_rep m rt k (addr_of t);
  focus_nodup : forall v, (occ v (addrs t ++ ctx_addrs k) <= 1)%nat;
  focus_frame : forall b, occ b (addrs t ++ ctx_addrs k) = 0%nat -> m !! b = F !! b
}.

(** ** Framing *)

Lemma rep_insert m p t a n : occ a (addrs t) = 0%nat -> rep m p t -> rep (<[a := n]> m) p t.
Proof.
  revert p. induction t as [|l IHl b i r IHr]; intros p; cbn; [done|].
  rewrite occ_app. intros Hocc (Hb & ? & ?).
  rewrite lookup_insert_ne by (apply hit_zero; lia). split_and!; auto with lia.
Qed.

Lemma ctx_rep_insert m rt k h a n :
  occ a (ctx_addrs k) = 0%nat -> ctx_rep m rt k h -> ctx_rep (<[a := n]> m) rt k h.
Proof.
  revert h. induction k as [|f k IH]; intros h; cbn; [done|].
  rewrite occ_app. intros Hocc (Hb & ? & ?).
  rewrite lookup_insert_ne by (apply hit_zero; lia). split_and!; auto using rep_insert with lia.
Qed.

Lemma rep_ext m m' p t :
  (forall b, (1 <= occ b (addrs t))%nat -> m' !! b = m !! b) -> rep m p t -> rep m' p t.
Proof.
  revert p. induction t as [|l IHl b i r IHr]; intros p; cbn; [done|].
  intros Hm (Hb & ? & ?). rewrite Hm by (rewrite hit_refl; lia). split_and!; [done|apply IHl|apply IHr];
    try done; intros c Hc; apply Hm; rewrite occ_app; lia.
Qed.

Lemma ctx_rep_ext m m' rt k h :
  (forall b, (1 <= occ b (ctx_addrs k))%nat -> m' !! b = m !! b) ->
  ctx_rep m rt k h -> ctx_rep m' rt k h.
Proof.
  revert h. induction k as [|f k IH]; intros h; cbn; [done|].
  intros Hm (Hb & ? & ?). rewrite Hm by (rewrite hit_refl; lia).
  split_and!; [done|eapply rep_ext; [|done]|apply IH; [|done]];
    intros c Hc; apply Hm; rewrite occ_app; lia.
Qed.

(** ** Moving the focus *)

Lemma addrs_fill f t : addrs (fill f t) ≡ₚ f_addr f :: addrs t ++ addrs (f_sib f).
Proof. destruct f as [[] a i sib]; cbn; [done|]. by rewrite (Permutation_app_comm (addrs sib)). Qed.

Lemma zipper_addrs f k t : addrs t ++ ctx_addrs (f :: k) ≡ₚ addrs (fill f t) ++ ctx_addrs k.
Proof. rewrite addrs_fill. cbn. solve_Permutation. Qed.

Lemma addr_of_fill f t : addr_of (fill f t) = Some (f_addr f).
Proof. by destruct f as [[] ???]. Qed.

Lemma at_focus_up F f k t m rt : at_focus F (f :: k) t m rt <-> at_focus F k (fill f t) m rt.
Proof.
  assert (forall v, occ v (addrs t ++ ctx_addrs (f :: k)) = occ v (addrs (fill f t) ++ ctx_addrs k))
    as Hperm by (intros v; apply occ_Permutation, zipper_addrs). split; intros [Hrep Hctx Hnd Hfr]; split.
  - destruct f as [[] a i sib]; cbn in *; naive_solver.
  - rewrite addr_of_fill. cbn in Hctx. naive_solver.
  - intros v. by rewrite <- Hperm.
  - intros b Hb. apply Hfr. by rewrite Hperm.
  - destruct f as [[] a i sib]; cbn in *; naive_solver.
  - rewrite addr_of_fill in Hctx. destruct f as [[] a i sib]; cbn in *; naive_solver.
  - intros v. by rewrite Hperm.
  - intros b Hb. apply Hfr. by rewrite <- Hperm.
Qed.

Lemma at_focus_plug F k t m rt : at_focus F k t m rt <-> at_focus F [] (plug k t) m rt.
Proof.
  revert t. induction k as [|f k IH]; intros t; cbn; [done|]. by rewrite at_focus_up, IH.
Qed.

Lemma plug_app k1 k2 t : plug (k1 ++ k2) t = plug k2 (plug k1 t).
Proof. revert t. induction k1 as [|f k1 IH]; intros t; cbn; auto. Qed.

Lemma at_focus_app F k1 k2 t m rt : at_focus F (k1 ++ k2) t m rt <-> at_focus F k2 (plug k1 t) m rt.
Proof.
  rewrite at_focus_plug, plug_app. by rewrite <- at_focus_plug.
Qed.

Lemma occ_plug v k t : occ v (addrs (plug k t)) = (occ v (addrs t) + occ v (ctx_addrs k))%nat.
Proof.
  revert t. induction k as [|f k IH]; intros t; cbn [plug]; [cbn; lia|].
  rewrite IH, <- !occ_app. apply occ_Permutation. by rewrite zipper_addrs.
Qed.

Lemma ctx_addrs_app k1 k2 : ctx_addrs (k1 ++ k2) = ctx_addrs k1 ++ ctx_addrs k2.
Proof. induction k1 as [|f k1 IH]; cbn; [done|]. by rewrite IH, app_assoc. Qed.

Lemma addr_of_plug f k t t' : addr_of (plug (f :: k) t) = addr_of (plug (f :: k) t').
Proof.
  revert f t t'. induction k as [|g k IH]; intros f t t'; cbn; [by rewrite !addr_of_fill|]. apply IH.
Qed.

(** Linked addresses are cells of the memory. *)
Lemma rep_is_Some m p t a : rep m p t -> a ∈ addrs t -> is_Some (m !! a).
Proof.
  revert p. induction t as [|l IHl b i r IHr]; intros p; cbn; [by intros _ ?%not_elem_of_nil|].
  intros (Hb & Hl & Hr). rewrite elem_of_cons, elem_of_app. intros [->|[?|?]]; eauto.
Qed.

Lemma at_focus_size F k t m rt :
  at_focus F k t m rt -> (length (addrs t ++ ctx_addrs k) <= size m)%nat.
Proof.
  rewrite at_focus_plug. intros [Hrep _ Hnd _]. cbn in *. rewrite app_nil_r in Hnd. apply NoDup_occ in Hnd.
  assert (addrs t ++ ctx_addrs k ≡ₚ addrs (plug k t)) as ->.
  { clear. revert t. induction k as [|f k IH]; intros t; cbn [plug]; [by rewrite app_nil_r|].
    by rewrite <- IH, zipper_addrs. }
  rewrite <- (size_dom m), <- (size_list_to_set (C := gset nat)) by done.
  apply subseteq_size. intros a. rewrite elem_of_list_to_set, elem_of_dom. by eapply rep_is_Some.
Qed.

Lemma length_ctx_addrs k : (length k <= length (ctx_addrs k))%nat.
Proof. induction k as [|f k IH]; cbn; [done|]. rewrite length_app. lia. Qed.

Lemma at_focus_depth F k t m rt : at_focus F k t m rt -> (length k + length (addrs t) <= size m)%nat.
Proof.
  intros H%at_focus_size. rewrite length_app in H. pose proof (length_ctx_addrs k). lia.
Qed.

End Shape.
Arguments info K T : clear implicits.
Arguments shape K T : clear implicits.
Arguments frame K T : clear implicits.

Section Heap.
Context {K T : Type} `{Ord K}.
Context {E : Type}.
Abbreviation Op A := (M (World K T) E A).
Implicit Types (w : World K T) (t l r : shape K T) (k : list (frame K T)) (i : info K T).

(** The world represents [plug k t] with [n] nodes counted. *)
Definition holds (F : gmap nat (EevdfNode K T)) k t (n : Z) w : Prop :=
  at_focus F k t (mem w) (root (tree w)) /\ len (tree w) = n.

(** ** Single accesses *)

Lemma read_eq w a n : mem w !! a = Some n -> read (E := E) (Some a) w = Done (state n) w.
Proof.
  intros Ha. unfold read, on_mem, deref, expect, gets, mbind, M_bind, mret, M_ret. cbn.
  rewrite Ha. by destruct w.
Qed.

Definition put_state (n : EevdfNode K T) (s : NodeState K) : EevdfNode K T :=
  mkEevdfNode (value n) s (strong n).

Lemma set_eq w a n f : mem w !! a = Some n ->
  set (E := E) (Some a) f w =
    Done tt (mkWorld (<[a := put_state n (f (state n))]> (mem w)) (tree w)).
Proof.
  intros Ha. unfold set, on_mem, assign, deref, expect, gets, modify, mbind, M_bind, mret, M_ret.
  cbn. by rewrite Ha.
Qed.

Lemma wp_read {B} w a n (f : NodeState K -> Op B) Q R :
  mem w !! a = Some n -> wp (f (state n)) w Q R -> wp (read (Some a) ≫= f) w Q R.
Proof. intros Ha Hf. apply wp_bind. by eapply wp_done; [apply read_eq|]. Qed.

Lemma wp_set {B} w a n g (f : () -> Op B) Q R :
  mem w !! a = Some n ->
  wp (f tt) (mkWorld (<[a := put_state n (g (state n))]> (mem w)) (tree w)) Q R ->
  wp (set (Some a) g ≫= f) w Q R.
Proof. intros Ha Hf. apply wp_bind. by eapply wp_done; [apply set_eq|]. Qed.

Lemma wp_set_last w a n g (Q : () -> World K T -> Prop) (R : E -> World K T -> Prop) :
  mem w !! a = Some n ->
  Q tt (mkWorld (<[a := put_state n (g (state n))]> (mem w)) (tree w)) ->
  wp (set (Some a) g) w Q R.
Proof. intros Ha Hf. by eapply wp_done; [apply set_eq|]. Qed.

Lemma wp_ret {A} (a : A) w (Q : A -> World K T -> Prop) (R : E -> World K T -> Prop) :
  Q a w -> wp (mret a) w Q R.
Proof. done. Qed.

Lemma wp_root {B} w (f : ptr -> Op B) Q R :
  wp (f (root (tree w))) w Q R -> wp (get_root ≫= f) w Q R.
Proof. done. Qed.

Lemma wp_set_root {B} w p (f : () -> Op B) Q R :
  wp (f tt) (mkWorld (mem w) (mkEevdfTree p (len (tree w)))) Q R -> wp (set_root p ≫= f) w Q R.
Proof. done. Qed.

Lemma wp_assoc {A B C} w (m : Op A) (f : A -> Op B) (g : B -> Op C) Q R :
  wp (x ← m; f x ≫= g) w Q R -> wp ((m ≫= f) ≫= g) w Q R.
Proof. unfold wp, mbind, M_bind. by destruct (m w). Qed.

(** Recolouring and caching a minimum. *)
Definition paint (c : Color) i : info K T :=
  mkInfo (i_key i) (i_eligible i) c (i_min i) (i_initialized i) (i_value i) (i_strong i).
Definition cache (m : Z) i : info K T :=
  mkInfo (i_key i) (i_eligible i) (i_color i) m (i_initialized i) (i_value i) (i_strong i).
Definition painted (c : Color) t : shape K T :=
  match t with Leaf => Leaf | Node l a i r => Node l a (paint c i) r end.
Definition color_of t : Color := match t with Leaf => Black | Node _ _ i _ => i_color i end.
Definition cached t : Z := match t with Leaf => EMPTY_MIN | Node _ _ i _ => i_min i end.
Definition refreshed l i r : info K T :=
  cache (Z.min (Z.min (i_eligible i) (cached l)) (cached r)) i.

(** Updates of the node in focus that keep its links *)
Lemma at_focus_update F k l a i i' r m rt :
  at_focus F k (Node l a i r) m rt ->
  at_focus F k (Node l a i' r) (<[a := cell i' (up k) (addr_of l) (addr_of r)]> m) rt.
Proof.
  intros [(Ha & Hl & Hr) Hctx Hnd Hfr]. cbn in Hnd. pose proof (Hnd a) as Hna. occ_norm. split; cbn.
  - rewrite lookup_insert_eq. auto using rep_insert with lia.
  - auto using ctx_rep_insert with lia.
  - done.
  - intros b Hb. rewrite lookup_insert_ne; [by apply Hfr|]. apply not_eq_sym, hit_zero. lia.
Qed.

Lemma focus_lookup F k l a i r m rt :
  at_focus F k (Node l a i r) m rt -> m !! a = Some (cell i (up k) (addr_of l) (addr_of r)).
Proof. by intros [(? & _) _ _ _]. Qed.

Lemma holds_up F f k t n w : holds F (f :: k) t n w <-> holds F k (fill f t) n w.
Proof. unfold holds. by rewrite at_focus_up. Qed.

Lemma holds_out F s a i sib k t n w :
  holds F (mkFrame s a i sib :: k) t n w -> holds F k (node_at s t a i sib) n w.
Proof. by rewrite holds_up. Qed.
Lemma holds_into F s a i sib k t n w :
  holds F k (node_at s t a i sib) n w -> holds F (mkFrame s a i sib :: k) t n w.
Proof. by rewrite holds_up. Qed.

Lemma holds_plug F k t n w : holds F k t n w <-> holds F [] (plug k t) n w.
Proof. unfold holds. by rewrite at_focus_plug. Qed.

Lemma holds_swap F s a i t sib k n w :
  holds F (mkFrame s a i sib :: k) t n w <-> holds F (mkFrame (other s) a i t :: k) sib n w.
Proof. rewrite !holds_up. by destruct s. Qed.

End Heap.

(** ** Tactics for stores through several pointers

    [Hocc] bounds the occurrences of every address in the represented tree. *)

(** Two addresses, or an address and the rest of the tree, are distinct. *)
Ltac count_in H :=
  do 3 (cbn [addrs ctx_addrs occ f_addr f_sib f_side f_info app fill node_at] in H;
        rewrite ?occ_app in H).
Ltac count_goal :=
  do 3 (cbn [addrs ctx_addrs occ f_addr f_sib f_side f_info app fill node_at]; rewrite ?occ_app).
Ltac count_at Hocc a := specialize (Hocc a); count_in Hocc.
Ltac distinct Hocc :=
  lazymatch goal with
  | |- ?a <> ?b =>
      let He := fresh in
      intros He; rewrite He in *; count_at Hocc b; rewrite ?hit_refl in *; lia
  | |- occ ?a _ = _ => count_at Hocc a; rewrite ?hit_refl in *; rewrite ?occ_app; lia
  | |- (occ ?a _ <= _)%nat => count_at Hocc a; rewrite ?occ_app; lia
  end.
Ltac lookup_chain Hocc :=
  cbn [mem tree root len];
  repeat (first [ rewrite lookup_insert_eq | rewrite lookup_insert_ne by distinct Hocc
                | match goal with
                  | Hm : forall b, occ b _ = _ -> mem ?w' !! b = _ |- context [mem ?w' !! ?a] =>
                      rewrite (Hm a) by distinct Hocc
                  end ]; cbn [mem tree root len]).
Ltac lookup_heap Hocc := lookup_chain Hocc; first [ eassumption | reflexivity ].
(** A subtree, or the path to the root, that no store touches. *)
Ltac rep_heap Hocc :=
  let b := fresh "b" in let Hb := fresh "Hb" in
  cbn [mem tree root len];
  first [ exact I | eassumption
        | eapply rep_ext; [|eassumption]; intros b Hb; lookup_heap Hocc
        | eapply ctx_rep_ext; [|eassumption]; intros b Hb; lookup_heap Hocc ].
Ltac step_heap Hocc :=
  lazymatch goal with
  | |- wp (read _ ≫= _) _ _ _ => eapply wp_read; [lookup_heap Hocc|]
  | |- wp (set _ _ ≫= _) _ _ _ => eapply wp_set; [lookup_heap Hocc|]
  | |- wp (set _ _) _ _ _ => eapply wp_set_last; [lookup_heap Hocc|]
  | |- wp (mret _ ≫= _) _ _ _ => apply wp_bind, wp_ret
  | |- wp ((_ ≫= _) ≫= _) _ _ _ => apply wp_assoc
  end; cbn [state cell put_state key eligible_at parent left right color subtree_min linked
    with_parent with_left with_right with_color with_subtree_min with_linked value strong mem tree
    root len addr_of up f_addr f_side f_info f_sib].

Section Primitives.
Context {K T : Type} `{Ord K}.
Context {E : Type}.
Abbreviation Op A := (M (World K T) E A).
Implicit Types (w : World K T) (t l r : shape K T) (k : list (frame K T)) (i : info K T).

Lemma wp_recompute F k l a i r n w (R : E -> World K T -> Prop) :
  holds F k (Node l a i r) n w ->
  wp (recompute (Some a)) w (fun _ w' => holds F k (Node l a (refreshed l i r) r) n w') R.
Proof.
  intros [Hf Hn]. pose proof Hf as [(Ha & Hl & Hr) Hctx Hocc Hfr].
  assert (forall t p, rep (mem w) p t ->
    min_of (E := E) (addr_of t) w = Done (cached t) w) as Hmin.
  { intros [|tl b bi tr] p Ht; [done|]. destruct Ht as [Hb _]. cbn.
    erewrite bind_done by (by apply read_eq). done. }
  unfold recompute. eapply wp_read; [done|]. cbn.
  apply wp_bind. eapply wp_done; [by eapply Hmin|]. cbn.
  apply wp_bind. eapply wp_done; [by eapply Hmin|]. cbn.
  eapply wp_set_last; [done|]. split; [|done]. by apply at_focus_update with (i := i).
Qed.

(** ** Rotations *)

Definition fresh_node l a i r : shape K T := Node l a (refreshed l i r) r.

(** Recomputes a node and then its parent, as both rotations do. *)
Lemma wp_recompute_pair F k s l a i r b j sib n w (R : E -> World K T -> Prop) :
  holds F (mkFrame s b j sib :: k) (Node l a i r) n w ->
  wp (recompute (Some a);; recompute (Some b)) w (fun _ w' =>
    holds F k (match s with InLeft => fresh_node (fresh_node l a i r) b j sib
                          | InRight => fresh_node sib b j (fresh_node l a i r) end) n w') R.
Proof.
  intros Hw. apply wp_bind. eapply wp_mono; [|by intros ?? HR; exact HR|by eapply wp_recompute].
  intros [] w1 Hw1. rewrite holds_up in Hw1. destruct s; cbn in Hw1; by eapply wp_recompute.
Qed.

(** The parent's child link (or the root) is redirected from [a] to [new]; the
    two rotations test the links in opposite orders. *)
Definition redirected k (a : nat) (new : ptr) w w' : Prop :=
  ctx_rep (mem w') (root (tree w')) k new /\
  (forall b, occ b (ctx_addrs k) = 0%nat -> mem w' !! b = mem w !! b) /\
  len (tree w') = len (tree w).

Lemma redirected_store s p i sib k a new w :
  ctx_rep (mem w) (root (tree w)) (mkFrame s p i sib :: k) (Some a) ->
  (forall v, (hit v a + occ v (ctx_addrs (mkFrame s p i sib :: k)) <= 1)%nat) ->
  redirected (mkFrame s p i sib :: k) a new w
    (mkWorld (<[p := match s with InLeft => cell i (up k) new (addr_of sib)
                                | InRight => cell i (up k) (addr_of sib) new end]> (mem w)) (tree w)).
Proof.
  intros (_ & Hsib & Hctx) Hocc. pose proof (Hocc p) as Hpo. cbn in *. occ_norm.
  unfold redirected. cbn. split_and!; [apply lookup_insert_eq|apply rep_insert|apply ctx_rep_insert| |]; try done; try lia.
  intros b Hb. apply lookup_insert_ne, not_eq_sym, hit_zero. lia.
Qed.

Lemma wp_redirect {B} k a new w (first : bool) (f : () -> Op B) Q R :
  ctx_rep (mem w) (root (tree w)) k (Some a) ->
  (forall v, (hit v a + occ v (ctx_addrs k) <= 1)%nat) ->
  (forall w', redirected k a new w w' -> wp (f tt) w' Q R) ->
  wp ((if bool_decide (up k = None) then set_root new
       else
         sp ← read (up k);
         if first then
           if bool_decide (Some a = left sp) then set (up k) (with_left new)
           else set (up k) (with_right new)
         else
           if bool_decide (Some a = right sp) then set (up k) (with_right new)
           else set (up k) (with_left new)) ≫= f) w Q R.
Proof.
  destruct k as [|[s p i sib] k]; cbn [up ctx_rep ctx_addrs f_side f_addr f_info f_sib].
  { intros Hrt Hocc Hf. apply wp_set_root, Hf. by split_and!. }
  intros Hctx Hocc Hf. rewrite bool_decide_false by done.
  assert (Some a <> addr_of sib) as Hne.
  { destruct sib as [|sl b si sr]; [done|]. intros [= ->]. specialize (Hocc b). cbn in Hocc.
    rewrite !hit_refl in Hocc. lia. }
  specialize (Hf _ (redirected_store s p i sib k a new w Hctx Hocc)).
  destruct Hctx as (Hp & _). apply wp_assoc. eapply wp_read; [done|].
  destruct first, s; cbn [state cell left right];
    rewrite ?(bool_decide_true _ (eq_refl (Some a))), ?(bool_decide_false _ Hne);
    (eapply wp_set; [done|]); exact Hf.
Qed.

(** The root of the subtree [t] is given the parent [p]. *)
Definition adopted t (p : ptr) w w' : Prop :=
  rep (mem w') p t /\
  (forall b, occ b (addrs t) = 0%nat -> mem w' !! b = mem w !! b) /\
  tree w' = tree w.

Lemma adopted_store l a i r (p q : ptr) w :
  rep (mem w) q (Node l a i r) -> (forall v, (occ v (addrs (Node l a i r)) <= 1)%nat) ->
  adopted (Node l a i r) p w
    (mkWorld (<[a := cell i p (addr_of l) (addr_of r)]> (mem w)) (tree w)).
Proof.
  intros (Ha & Hl & Hr) Hocc. specialize (Hocc a). cbn in Hocc. occ_norm.
  split_and!; cbn; try done.
  - rewrite lookup_insert_eq. auto using rep_insert with lia.
  - intros b Hb. apply lookup_insert_ne, not_eq_sym, hit_zero. lia.
Qed.

Lemma wp_adopt {B} t (p q : ptr) w (f : () -> Op B) Q R :
  rep (mem w) q t -> (forall v, (occ v (addrs t) <= 1)%nat) ->
  (forall w', adopted t p w w' -> wp (f tt) w' Q R) ->
  wp ((if bool_decide (addr_of t = None) then mret tt else set (addr_of t) (with_parent p)) ≫= f)
    w Q R.
Proof.
  destruct t as [|l a i r]; cbn [addr_of]; intros Ht Hocc Hf; [by apply Hf|].
  eapply wp_set; [apply Ht|]. apply Hf. by apply (adopted_store l a i r p q w).
Qed.

Lemma wp_rotate_left F k α x ix β y iy γ n w (R : E -> World K T -> Prop) :
  holds F k (Node α x ix (Node β y iy γ)) n w ->
  wp (rotate_left (Some x)) w (fun _ w' =>
    holds F k (fresh_node (fresh_node α x ix β) y iy γ) n w') R.
Proof.
  intros [[(Hx & Hα & Hy & Hβ & Hγ) Hctx Hocc Hfr] Hn]. cbn [addr_of] in Hx, Hy, Hctx.
  unfold rotate_left. step_heap Hocc. apply wp_bind, wp_ret. step_heap Hocc. step_heap Hocc.
  eapply wp_adopt; [rep_heap Hocc|intros v; distinct Hocc|].
  intros w2 (Hβ2 & Hm2 & Ht2). cbn [mem tree] in Hm2, Ht2.
  step_heap Hocc. step_heap Hocc.
  eapply (wp_redirect k x (Some y) _ true).
  - cbn [mem tree]. rewrite Ht2. rep_heap Hocc.
  - intros v. count_at Hocc v. lia.
  - intros w3 (Hctx3 & Hm3 & Ht3). cbn [mem tree] in Hm3, Ht3.
    step_heap Hocc. step_heap Hocc.
    apply (wp_recompute_pair F k InLeft α x ix β y iy γ n). split; [|cbn; congruence]. split.
    + cbn [rep up f_addr addr_of]. split_and!; [lookup_heap Hocc|rep_heap Hocc|rep_heap Hocc].
    + cbn [ctx_rep f_side f_addr f_info f_sib addr_of]. split_and!; [lookup_heap Hocc|rep_heap Hocc|rep_heap Hocc].
    + intros v. count_at Hocc v. count_goal. lia.
    + intros b Hb. count_in Hb. lookup_chain Hocc. apply Hfr. count_goal. lia.
Qed.

Lemma wp_rotate_right F k α y iy β x ix γ n w (R : E -> World K T -> Prop) :
  holds F k (Node (Node α y iy β) x ix γ) n w ->
  wp (rotate_right (Some x)) w (fun _ w' =>
    holds F k (fresh_node α y iy (fresh_node β x ix γ)) n w') R.
Proof.
  intros [[(Hx & (Hy & Hα & Hβ) & Hγ) Hctx Hocc Hfr] Hn]. cbn [addr_of] in Hx, Hy, Hctx.
  unfold rotate_right. step_heap Hocc. apply wp_bind, wp_ret. step_heap Hocc. step_heap Hocc.
  eapply wp_adopt; [rep_heap Hocc|intros v; distinct Hocc|].
  intros w2 (Hβ2 & Hm2 & Ht2). cbn [mem tree] in Hm2, Ht2.
  step_heap Hocc. step_heap Hocc.
  eapply (wp_redirect k x (Some y) _ false).
  - cbn [mem tree]. rewrite Ht2. rep_heap Hocc.
  - intros v. count_at Hocc v. lia.
  - intros w3 (Hctx3 & Hm3 & Ht3). cbn [mem tree] in Hm3, Ht3.
    step_heap Hocc. step_heap Hocc.
    apply (wp_recompute_pair F k InRight β x ix γ y iy α n). split; [|cbn; congruence]. split.
    + cbn [rep up f_addr addr_of]. split_and!; [lookup_heap Hocc|rep_heap Hocc|rep_heap Hocc].
    + cbn [ctx_rep f_side f_addr f_info f_sib addr_of].
      split_and!; [lookup_heap Hocc|rep_heap Hocc|rep_heap Hocc].
    + intros v. count_at Hocc v. count_goal. lia.
    + intros b Hb. count_in Hb. lookup_chain Hocc. apply Hfr. count_goal. lia.
Qed.

(** ** Transplants *)

(** The subtree [t] takes the place of the node below [k]. *)
Definition transplanted k t w w' : Prop :=
  ctx_rep (mem w') (root (tree w')) k (addr_of t) /\ rep (mem w') (up k) t /\
  (forall b, occ b (addrs t ++ ctx_addrs k) = 0%nat -> mem w' !! b = mem w !! b) /\
  len (tree w') = len (tree w).

Lemma wp_transplant {B} k z nz t q w (f : () -> Op B) Q R :
  mem w !! z = Some nz -> parent (state nz) = up k ->
  ctx_rep (mem w) (root (tree w)) k (Some z) -> rep (mem w) q t ->
  (forall v, (hit v z + (occ v (addrs t) + occ v (ctx_addrs k)) <= 1)%nat) ->
  (forall w', transplanted k t w w' -> wp (f tt) w' Q R) ->
  wp (transplant (Some z) (addr_of t) ≫= f) w Q R.
Proof.
  intros Hz Hp Hctx Ht Hocc Hf. unfold transplant. apply wp_assoc.
  eapply wp_read; [done|]. rewrite Hp. apply wp_assoc.
  eapply (wp_redirect k z (addr_of t) _ true); [done|intros v; specialize (Hocc v); lia|].
  intros w1 (Hctx1 & Hm1 & Ht1).
  assert (rep (mem w1) q t) as Ht'.
  { eapply rep_ext; [|done]. intros b Hb. apply Hm1. specialize (Hocc b). lia. }
  eapply wp_adopt; [done|intros v; specialize (Hocc v); lia|].
  intros w2 (Ht2 & Hm2 & Htr2). apply Hf. unfold transplanted. rewrite Htr2. split_and!; try done.
  - eapply ctx_rep_ext; [|done]. intros b Hb. apply Hm2. specialize (Hocc b). lia.
  - intros b Hb. rewrite occ_app in Hb. rewrite Hm2, Hm1 by lia. done.
Qed.

(** ** Colours *)

Lemma get_color_of F k t n w : holds F k t n w -> get_color (E := E) (addr_of t) w = Done (color_of t) w.
Proof.
  intros [[Ht _ _ _] _]. destruct t as [|l a i r]; [done|]. cbn.
  erewrite bind_done by (by apply read_eq, Ht). done.
Qed.

Lemma wp_get_color {B} F k t n w (f : Color -> Op B) Q R :
  holds F k t n w -> wp (f (color_of t)) w Q R -> wp (get_color (addr_of t) ≫= f) w Q R.
Proof. intros Hw Hf. apply wp_bind. eapply wp_done; [by eapply get_color_of|done]. Qed.

Lemma wp_set_color_last F k t n w c (R : E -> World K T -> Prop) :
  holds F k t n w ->
  wp (set_color (addr_of t) c) w (fun _ w' => holds F k (painted c t) n w') R.
Proof.
  intros Hw. destruct t as [|l a i r]; [done|].
  pose proof Hw as [[(Ha & _) _ _ _] _]. cbn [set_color addr_of]. eapply wp_set_last; [done|].
  destruct Hw as [Hw Hn]. split; [|done]. by apply at_focus_update with (i := i).
Qed.

Lemma wp_set_color {B} F k t n w c (f : () -> Op B) Q R :
  holds F k t n w ->
  (forall w', holds F k (painted c t) n w' -> wp (f tt) w' Q R) ->
  wp (set_color (addr_of t) c ≫= f) w Q R.
Proof.
  intros Hw Hf. apply wp_bind.
  eapply wp_mono; [|by intros ?? HR; exact HR|by eapply wp_set_color_last]. intros []. apply Hf.
Qed.

(** Reading the node in focus and its parent. *)
Lemma wp_read_focus {B} F k l a i r n w (f : NodeState K -> Op B) Q R :
  holds F k (Node l a i r) n w ->
  wp (f (state (cell i (up k) (addr_of l) (addr_of r)))) w Q R -> wp (read (Some a) ≫= f) w Q R.
Proof. intros [[(Ha & _) _ _ _] _] Hf. by eapply wp_read. Qed.

End Primitives.
