(* ===== verification/RbFixup.v ===== *)
(** Rebalancing on shapes: what [insert_fixup] and [delete_fixup] compute, and
    that the pointer code computes it.

    [ins_fix] and [del_fix] are structural recursions along the path to the
    root, written once for both sides. [None] stands for a null dereference or
    for a missing sibling, which the red-black invariant excludes. *)

From S2P Require Import Prelude.
From S2P Require Import Effects.
From S2P Require Import EevdfTree.
From S2P Require Import RbShape.
From S2P Require Import RbShape.
From stdpp Require Import gmap.
Local Open Scope Z_scope.

#[export] Instance side_eq_dec : EqDecision side.
Proof. solve_decision. Defined.

Section Pure.
Context {K T : Type}.
Implicit Types (t l r : shape K T) (k : list (frame K T)) (i : info K T).

(** The children of a node, the one on side [s] first. *)
Definition split (s : side) l r : shape K T * shape K T :=
  match s with InLeft => (l, r) | InRight => (r, l) end.

(** A node built by a rotation, its cached minimum recomputed. *)
Definition fresh_at (s : side) t (a : nat) i sib : shape K T :=
  match s with InLeft => fresh_node t a i sib | InRight => fresh_node sib a i t end.
Definition fresh_info (s : side) t i sib : info K T :=
  match s with InLeft => refreshed t i sib | InRight => refreshed sib i t end.

Fixpoint ins_fix k t {struct k} : option (shape K T) :=
  match k with
  | [] => Some (painted Black t)
  | mkFrame s1 p ip c :: k1 =>
      if decide (i_color ip = Red) then
        match k1 with
        | [] => None
        | mkFrame s2 g ig u :: k2 =>
            if decide (color_of u = Red) then
              ins_fix k2
                (node_at s2 (node_at s1 t p (paint Black ip) c) g (paint Red ig) (painted Black u))
            else if decide (s1 = s2) then
              Some (painted Black (plug k2
                (fresh_at s2 t p (paint Black ip) (fresh_at s2 c g (paint Red ig) u))))
            else
              match t with
              | Leaf => None
              | Node l z iz r =>
                  let '(a1, a2) := split s2 l r in
                  Some (painted Black (plug k2
                    (fresh_at s2 (fresh_at s1 a1 p ip c) z (paint Black iz)
                      (fresh_at s2 a2 g (paint Red ig) u))))
              end
        end
      else Some (painted Black (plug k t))
  end.

(** One round of [delete_fixup] with a black sibling: the whole tree when the
    loop ends, or the subtree the deficit moves to. *)
Definition del_step k s x p ip sib : option (shape K T + shape K T) :=
  match sib with
  | Leaf => None
  | Node sl sa si sr =>
      let '(c, d) := split s sl sr in
      if decide (color_of c = Black /\ color_of d = Black) then
        Some (inr (node_at s x p ip (node_at s c sa (paint Red si) d)))
      else if decide (color_of d = Black) then
        match c with
        | Leaf => None
        | Node cl ca ci cr =>
            let '(e, f) := split s cl cr in
            Some (inl (painted Black (plug k
              (fresh_at s (fresh_at s x p (paint Black ip) e) ca (paint (i_color ip) ci)
                (painted Black (fresh_at s f sa (paint Red si) d))))))
        end
      else
        Some (inl (painted Black (plug k
          (fresh_at s (fresh_at s x p (paint Black ip) c) sa (paint (i_color ip) si)
            (painted Black d)))))
  end.

Fixpoint del_fix k x {struct k} : option (shape K T) :=
  match k with
  | [] => Some (painted Black x)
  | mkFrame s p ip sib :: k1 =>
      if decide (color_of x = Black) then
        match sib with
        | Leaf => None
        | Node sl sa si sr =>
            if decide (i_color si = Red) then
              let '(c, d) := split s sl sr in
              let ip' := fresh_info s x (paint Red ip) c in
              let k2 := mkFrame s sa
                (fresh_info s (fresh_at s x p (paint Red ip) c) (paint Black si) d) d :: k1 in
              match del_step k2 s x p ip' c with
              | Some (inl whole) => Some whole
              | Some (inr t) => Some (plug k2 (painted Black t))
              | None => None
              end
            else
              match del_step k1 s x p ip sib with
              | Some (inl whole) => Some whole
              | Some (inr t) => del_fix k1 t
              | None => None
              end
        end
      else Some (plug k (painted Black x))
  end.

End Pure.

Section Simulation.
Context {K T : Type} `{Ord K}.
Context {E : Type}.
Abbreviation Op A := (M (World K T) E A).
Implicit Types (w : World K T) (t l r : shape K T) (k : list (frame K T)) (i : info K T).

Lemma addr_of_node_at s t a i sib : addr_of (node_at s t a i sib) = Some a.
Proof. by destruct s. Qed.

Lemma addr_of_painted c t : addr_of (painted c t) = addr_of t.
Proof. by destruct t. Qed.

Lemma holds_root F t n w : holds F [] t n w -> root (tree w) = addr_of t.
Proof. by intros [[_ Hctx _ _] _]. Qed.

(** Painting the root black. *)
Lemma wp_paint_root F k t n w (R : E -> World K T -> Prop) :
  holds F k t n w ->
  wp (r ← get_root; set_color r Black) w
    (fun _ w' => holds F [] (painted Black (plug k t)) n w') R.
Proof.
  rewrite holds_plug. intros Hw. apply wp_root. rewrite (holds_root _ _ _ _ Hw).
  by apply wp_set_color_last.
Qed.

(** Neither child of a node is its sibling. *)
Lemma child_ne F k s a i sib b l j r n w :
  holds F (mkFrame s a i sib :: k) (Node l b j r) n w -> Some b <> addr_of sib.
Proof.
  intros [[_ _ Hocc _] _]. destruct sib as [|sl c ci sr]; [done|]. intros [= ->]. specialize (Hocc c).
  count_in Hocc. rewrite !hit_refl in Hocc. lia.
Qed.

(** The loop stops below a black parent. *)
Lemma wp_insert_fixup_stop F s p ip c k l a i r n w fuel (R : E -> World K T -> Prop) :
  holds F (mkFrame s p ip c :: k) (Node l a i r) n w -> i_color ip = Black ->
  wp (insert_fixup_loop (S fuel) (Some a)) w (fun _ w' =>
    holds F [] (painted Black (plug (mkFrame s p ip c :: k) (Node l a i r))) n w') R.
Proof.
  intros Hw Hc. cbn [insert_fixup_loop]. eapply wp_read_focus; [done|]. cbn [state cell parent up].
  pose proof Hw as Hw'. apply holds_out in Hw'.
  rewrite <- (addr_of_fill (mkFrame s p ip c) (Node l a i r)).
  eapply wp_get_color; [done|]. replace (color_of _) with Black by (by destruct s).
  rewrite (bool_decide_false (Black = Red)), andb_false_r by done. by apply wp_paint_root.
Qed.

(** Colouring the parent, and the sibling, of the focus. *)
Lemma wp_color_parent {B} F s p ip c k t n w x (f : () -> Op B) Q R :
  holds F (mkFrame s p ip c :: k) t n w ->
  (forall w', holds F (mkFrame s p (paint x ip) c :: k) t n w' -> wp (f tt) w' Q R) ->
  wp (set_color (Some p) x ≫= f) w Q R.
Proof.
  intros Hw%holds_out Hf. rewrite <- (addr_of_node_at s t p ip c).
  eapply wp_set_color; [done|]. intros w' Hw'. apply Hf, holds_into. by destruct s.
Qed.

Lemma wp_color_sibling {B} F s p ip c k t n w x (f : () -> Op B) Q R :
  holds F (mkFrame s p ip c :: k) t n w ->
  (forall w', holds F (mkFrame s p ip (painted x c) :: k) t n w' -> wp (f tt) w' Q R) ->
  wp (set_color (addr_of c) x ≫= f) w Q R.
Proof.
  rewrite holds_swap. intros Hw Hf. eapply wp_set_color; [done|]. intros w' Hw'. apply Hf.
  rewrite holds_swap. exact Hw'.
Qed.

Lemma wp_get_color_sibling {B} F s p ip c k t n w (f : Color -> Op B) Q R :
  holds F (mkFrame s p ip c :: k) t n w ->
  wp (f (color_of c)) w Q R -> wp (get_color (addr_of c) ≫= f) w Q R.
Proof. rewrite holds_swap. intros Hw Hf. by eapply wp_get_color. Qed.

Lemma wp_get_color_parent {B} F s p ip c k t n w (f : Color -> Op B) Q R :
  holds F (mkFrame s p ip c :: k) t n w ->
  wp (f (i_color ip)) w Q R -> wp (get_color (Some p) ≫= f) w Q R.
Proof.
  intros Hw%holds_out Hf. rewrite <- (addr_of_node_at s t p ip c).
  eapply wp_get_color; [done|]. by destruct s.
Qed.

Lemma wp_read_parent {B} F s p ip c k t n w (f : NodeState K -> Op B) Q R :
  holds F (mkFrame s p ip c :: k) t n w ->
  wp (f (state (match s with InLeft => cell ip (up k) (addr_of t) (addr_of c)
                           | InRight => cell ip (up k) (addr_of c) (addr_of t) end))) w Q R ->
  wp (read (Some p) ≫= f) w Q R.
Proof.
  intros Hw%holds_out Hf. destruct s; cbn in Hw; eapply wp_read_focus; try done; exact Hf.
Qed.

Lemma wp_rotate_right_then {B} F k α y iy β x ix γ n w (f : () -> Op B) Q R :
  holds F k (Node (Node α y iy β) x ix γ) n w ->
  (forall w', holds F k (fresh_node α y iy (fresh_node β x ix γ)) n w' -> wp (f tt) w' Q R) ->
  wp (rotate_right (Some x) ≫= f) w Q R.
Proof.
  intros Hw Hf. apply wp_bind.
  eapply wp_mono; [|by intros ?? HR; exact HR|by apply wp_rotate_right]. intros []. apply Hf.
Qed.

Lemma wp_rotate_left_then {B} F k α x ix β y iy γ n w (f : () -> Op B) Q R :
  holds F k (Node α x ix (Node β y iy γ)) n w ->
  (forall w', holds F k (fresh_node (fresh_node α x ix β) y iy γ) n w' -> wp (f tt) w' Q R) ->
  wp (rotate_left (Some x) ≫= f) w Q R.
Proof.
  intros Hw Hf. apply wp_bind.
  eapply wp_mono; [|by intros ?? HR; exact HR|by apply wp_rotate_left]. intros []. apply Hf.
Qed.

(** ** [insert_fixup] *)

Lemma wp_insert_recolor {B} F s1 p ip c s2 g ig u k t n w (f : () -> Op B) Q R :
  holds F (mkFrame s1 p ip c :: mkFrame s2 g ig u :: k) t n w ->
  (forall w', holds F k
    (node_at s2 (node_at s1 t p (paint Black ip) c) g (paint Red ig) (painted Black u)) n w' ->
    wp (f tt) w' Q R) ->
  wp (set_color (Some p) Black;; set_color (addr_of u) Black;; set_color (Some g) Red ≫= f) w Q R.
Proof.
  intros Hw Hf. eapply wp_color_parent; [done|]. intros w1 Hw1. apply holds_out in Hw1.
  eapply wp_color_sibling; [done|]. intros w2 Hw2.
  eapply wp_color_parent; [done|]. intros w3 Hw3. apply holds_out in Hw3. by apply Hf.
Qed.

(** The rotation that lifts the child on side [s]. *)
Definition rotate (s : side) (x : ptr) : Op () :=
  match s with InLeft => rotate_right x | InRight => rotate_left x end.

Lemma wp_rotate {B} F k s t p ip c g ig u n w (f : () -> Op B) Q R :
  holds F k (node_at s (node_at s t p ip c) g ig u) n w ->
  (forall w', holds F k (fresh_at s t p ip (fresh_at s c g ig u)) n w' -> wp (f tt) w' Q R) ->
  wp (rotate s (Some g) ≫= f) w Q R.
Proof. destruct s; [apply wp_rotate_right_then|apply wp_rotate_left_then]. Qed.

Lemma fresh_at_node s t a i sib : fresh_at s t a i sib = node_at s t a (fresh_info s t i sib) sib.
Proof. by destruct s. Qed.

Lemma wp_insert_rotate F s p ip c g ig u k l a i r n w fuel (R : E -> World K T -> Prop) :
  holds F (mkFrame s p ip c :: mkFrame s g ig u :: k) (Node l a i r) n w ->
  wp (set_color (Some p) Black;; set_color (Some g) Red;;
      rotate s (Some g);; insert_fixup_loop (S fuel) (Some a)) w
    (fun _ w' => holds F [] (painted Black (plug k (fresh_at s (Node l a i r) p (paint Black ip)
      (fresh_at s c g (paint Red ig) u)))) n w') R.
Proof.
  intros Hw. eapply wp_color_parent; [done|]. intros w1 Hw1. apply holds_out in Hw1.
  eapply wp_color_parent; [done|]. intros w2 Hw2. apply holds_out in Hw2.
  eapply wp_rotate; [exact Hw2|]. intros w3 Hw3. rewrite fresh_at_node in Hw3.
  apply holds_into in Hw3.
  eapply wp_mono; [| |apply (wp_insert_fixup_stop _ _ _ _ _ _ _ _ _ _ _ _ _ R Hw3)]; [|done|by destruct s].
  intros [] w4. cbn [plug]. by rewrite (fresh_at_node s (Node l a i r)).
Qed.

(** The rounds that end in a rotation, from the node below a red parent. *)
Lemma wp_insert_outer F s p ip c g ig u k l a i r n w fuel (R : E -> World K T -> Prop) :
  holds F (mkFrame s p ip c :: mkFrame s g ig u :: k) (Node l a i r) n w ->
  wp (sz ← read (Some a); sp ← read (parent sz);
      set_color (parent sz) Black;; set_color (parent sp) Red;;
      rotate s (parent sp);; insert_fixup_loop (S fuel) (Some a)) w
    (fun _ w' => holds F [] (painted Black (plug k (fresh_at s (Node l a i r) p (paint Black ip)
      (fresh_at s c g (paint Red ig) u)))) n w') R.
Proof.
  intros Hw. eapply wp_read_focus; [done|]. cbn [state cell parent up f_addr].
  eapply wp_read_parent; [done|]. replace (parent _) with (Some g) by (by destruct s).
  by apply wp_insert_rotate.
Qed.

Lemma wp_insert_inner F s p ip c g ig u k l a i r n w fuel (R : E -> World K T -> Prop) :
  holds F (mkFrame (other s) p ip c :: mkFrame s g ig u :: k) (Node l a i r) n w ->
  wp (rotate (other s) (Some p);;
      sz ← read (Some p); sp ← read (parent sz);
      set_color (parent sz) Black;; set_color (parent sp) Red;;
      rotate s (parent sp);; insert_fixup_loop (S fuel) (Some p)) w
    (fun _ w' => holds F [] (painted Black (plug k
      (fresh_at s (fresh_at (other s) (split s l r).1 p ip c) a (paint Black i)
        (fresh_at s (split s l r).2 g (paint Red ig) u)))) n w') R.
Proof.
  intros Hw. apply holds_out in Hw.
  destruct s; cbn [other rotate node_at split fst snd fresh_at] in *.
  - eapply wp_rotate_left_then; [done|]. intros w1 Hw1.
    apply (holds_into _ InLeft) in Hw1. by eapply wp_insert_outer in Hw1.
  - eapply wp_rotate_right_then; [done|]. intros w1 Hw1.
    apply (holds_into _ InRight) in Hw1. by eapply wp_insert_outer in Hw1.
Qed.

Lemma wp_insert_fixup_loop F k : forall l a i r n w fuel t' (R : E -> World K T -> Prop),
  holds F k (Node l a i r) n w -> ins_fix k (Node l a i r) = Some t' -> (length k < fuel)%nat ->
  wp (insert_fixup_loop fuel (Some a)) w (fun _ w' => holds F [] t' n w') R.
Proof.
  remember (length k) as d eqn:Hd. revert k Hd.
  induction (lt_wf d) as [d _ IH]. intros k -> l a i r n w fuel t' R Hw Hfix Hfuel.
  destruct fuel as [|fuel]; [lia|].
  destruct k as [|[s1 p ip c] k].
  { injection Hfix as <-. cbn [insert_fixup_loop]. eapply wp_read_focus; [done|].
    cbn [state cell parent up get_color]. apply wp_bind, wp_ret.
    rewrite (bool_decide_false (_ <> None)) by naive_solver. by apply (wp_paint_root F [] (Node l a i r)). }
  destruct (decide (i_color ip = Red)) as [Hred|Hblack].
  2:{ cbn in Hfix. rewrite decide_False in Hfix by done. injection Hfix as <-.
      apply wp_insert_fixup_stop; [done|]. by destruct (i_color ip). }
  cbn in Hfix. rewrite decide_True in Hfix by done. destruct k as [|[s2 g ig u] k]; [done|].
  assert (exists fuel', fuel = S fuel') as [fuel' Hfuel'] by (exists (pred fuel); cbn in Hfuel; lia).
  pose proof (child_ne _ _ _ _ _ _ _ _ _ _ _ _ Hw) as Hne.
  cbn [insert_fixup_loop]. eapply wp_read_focus; [done|]. cbn [state cell parent up f_addr].
  eapply wp_get_color_parent; [done|]. rewrite Hred.
  rewrite (bool_decide_true (Red = Red)), bool_decide_true by done. cbn [andb].
  eapply wp_read_parent; [done|].
  replace (parent _) with (Some g) by (by destruct s1).
  pose proof Hw as Hg. apply holds_out in Hg. eapply wp_read_parent; [done|].
  assert (Some p <> addr_of u) as Hpu by (destruct s1; apply (child_ne _ _ _ _ _ _ _ _ _ _ _ _ Hg)).
  destruct s2; cbn [state cell left right].
  - rewrite bool_decide_true by (by destruct s1).
    eapply wp_get_color_sibling; [done|].
    destruct (decide (color_of u = Red)) as [Hu|Hu].
    + rewrite bool_decide_true by done. eapply wp_insert_recolor; [done|]. intros w' Hw'.
      destruct s1; (eapply (IH (length k)); [cbn; lia|done|done|done|cbn in Hfuel; lia]).
    + rewrite bool_decide_false by done. destruct s1; cbn [state cell left right]; cbn in Hfix;
        injection Hfix as <-.
      * rewrite bool_decide_false by done. subst fuel. apply wp_bind, wp_ret. by apply (wp_insert_outer F InLeft).
      * rewrite bool_decide_true by done. apply wp_assoc. subst fuel. by apply (wp_insert_inner F InLeft).
  - rewrite bool_decide_false by (by destruct s1).
    eapply wp_get_color_sibling; [done|].
    destruct (decide (color_of u = Red)) as [Hu|Hu].
    + rewrite bool_decide_true by done. eapply wp_insert_recolor; [done|]. intros w' Hw'.
      destruct s1; (eapply (IH (length k)); [cbn; lia|done|done|done|cbn in Hfuel; lia]).
    + rewrite bool_decide_false by done. destruct s1; cbn [state cell left right]; cbn in Hfix;
        injection Hfix as <-.
      * rewrite bool_decide_true by done. apply wp_assoc. subst fuel. by apply (wp_insert_inner F InRight).
      * rewrite bool_decide_false by done. subst fuel. apply wp_bind, wp_ret. by apply (wp_insert_outer F InRight).
Qed.

(** ** [delete_fixup] *)

Lemma wp_rotate_down {B} F k s x p ip c a i d n w (f : () -> Op B) Q R :
  holds F k (node_at s x p ip (node_at s c a i d)) n w ->
  (forall w', holds F k (fresh_at s (fresh_at s x p ip c) a i d) n w' -> wp (f tt) w' Q R) ->
  wp (rotate (other s) (Some p) ≫= f) w Q R.
Proof. destruct s; [apply wp_rotate_left_then|apply wp_rotate_right_then]. Qed.

Definition delete_round (s : side) (loop : ptr -> ptr -> Op ()) : ptr -> ptr -> ptr -> Op () :=
  match s with InLeft => delete_round_left loop | InRight => delete_round_right loop end.

(** The end of a round that restores the deficit: the sibling's far child is
    red, or has been made so. *)
Definition delete_finish (s : side) (loop : ptr -> ptr -> Op ()) (x_parent sibling : ptr) : Op () :=
  parent_color ← get_color x_parent;
  set_color sibling parent_color;;
  set_color x_parent Black;;
  far ← match s with InLeft => right_or_null sibling | InRight => left_or_null sibling end;
  set_color far Black;;
  rotate (other s) x_parent;;
  r ← get_root;
  loop r None.

(** Both branches of a round, in terms of the near and the far child. *)
Definition near_child (s : side) (p : ptr) : Op ptr :=
  match s with InLeft => left_or_null p | InRight => right_or_null p end.
Definition far_child (s : side) (p : ptr) : Op ptr :=
  match s with InLeft => right_or_null p | InRight => left_or_null p end.
Definition far_link (s : side) (st : NodeState K) : ptr :=
  match s with InLeft => right st | InRight => left st end.

Lemma delete_round_sides s loop x x_parent sibling :
  delete_round s loop x x_parent sibling =
  (near ← near_child s sibling;
   far ← far_child s sibling;
   near_color ← get_color near;
   far_color ← get_color far;
   if bool_decide (near_color = Black) && bool_decide (far_color = Black) then
     set_color sibling Red;;
     sp ← read x_parent;
     loop x_parent (parent sp)
   else
     sibling ← (if bool_decide (far_color = Black) then
                  set_color near Black;;
                  set_color sibling Red;;
                  (if bool_decide (sibling = None) then mret tt else rotate s sibling);;
                  sp ← read x_parent; mret (far_link s sp)
                else mret sibling);
     delete_finish s loop x_parent sibling).
Proof. by destruct s. Qed.

Lemma painted_node_at x s c a i d : painted (K := K) (T := T) x (node_at s c a i d) = node_at s c a (paint x i) d.
Proof. by destruct s. Qed.
Lemma node_at_other s c a (i : info K T) d : node_at (other s) d a i c = node_at s c a i d.
Proof. by destruct s. Qed.

(** The children of the sibling, near to and far from the focus. *)
Lemma wp_near {B} F s p ip c a i d k x n w (f : ptr -> Op B) Q R :
  holds F (mkFrame s p ip (node_at s c a i d) :: k) x n w -> wp (f (addr_of c)) w Q R ->
  wp (near_child s (Some a) ≫= f) w Q R.
Proof.
  rewrite holds_swap. intros Hw Hf. destruct s; apply wp_assoc; (eapply wp_read_focus; [done|]); exact Hf.
Qed.
Lemma wp_far {B} F s p ip c a i d k x n w (f : ptr -> Op B) Q R :
  holds F (mkFrame s p ip (node_at s c a i d) :: k) x n w -> wp (f (addr_of d)) w Q R ->
  wp (far_child s (Some a) ≫= f) w Q R.
Proof.
  rewrite holds_swap. intros Hw Hf. destruct s; apply wp_assoc; (eapply wp_read_focus; [done|]); exact Hf.
Qed.

(** Focusing on them. *)
Lemma holds_near F s p ip c a i d k x n w :
  holds F (mkFrame s p ip (node_at s c a i d) :: k) x n w <->
  holds F (mkFrame s a i d :: mkFrame (other s) p ip x :: k) c n w.
Proof. rewrite holds_swap. split; [apply holds_into|apply holds_out]. Qed.
Lemma holds_far F s p ip c a i d k x n w :
  holds F (mkFrame s p ip (node_at s c a i d) :: k) x n w <->
  holds F (mkFrame (other s) a i c :: mkFrame (other s) p ip x :: k) d n w.
Proof.
  rewrite holds_swap, <- node_at_other. split; [apply holds_into|apply holds_out].
Qed.

Section Rounds.
Context (F : gmap nat (EevdfNode K T)) (n : Z) (R : E -> World K T -> Prop).
Context (loop : ptr -> ptr -> Op ()).
Hypothesis loop_stops : forall t w, holds F [] t n w ->
  wp (loop (addr_of t) None) w (fun _ w' => holds F [] (painted Black t) n w') R.

Lemma wp_delete_finish k s x p ip c a i d w :
  holds F (mkFrame s p ip (node_at s c a i d) :: k) x n w ->
  wp (delete_finish s loop (Some p) (Some a)) w (fun _ w' => holds F [] (painted Black (plug k
    (fresh_at s (fresh_at s x p (paint Black ip) c) a (paint (i_color ip) i) (painted Black d)))) n w') R.
Proof.
  intros Hw. unfold delete_finish. eapply wp_get_color_parent; [done|].
  rewrite <- (addr_of_node_at s c a i d).
  eapply wp_color_sibling; [done|]. intros w1 Hw1. rewrite painted_node_at in Hw1.
  eapply wp_color_parent; [done|]. intros w2 Hw2. rewrite addr_of_node_at.
  eapply wp_far; [done|]. rewrite holds_far in Hw2.
  eapply wp_set_color; [done|]. intros w3 Hw3. rewrite <- holds_far in Hw3. apply holds_out in Hw3.
  eapply wp_rotate_down; [done|]. intros w4 Hw4. apply wp_root.
  rewrite holds_plug in Hw4. rewrite (holds_root _ _ _ _ Hw4). by apply loop_stops.
Qed.

(** The sibling's near child is red: a rotation makes its far child red. *)
Lemma wp_delete_turn {B} k s x p ip e ca ci f0 a i d w (f : ptr -> Op B) Q :
  holds F (mkFrame s p ip (node_at s (node_at s e ca ci f0) a i d) :: k) x n w ->
  (forall w', holds F (mkFrame s p ip
      (fresh_at s e ca (paint Black ci) (fresh_at s f0 a (paint Red i) d)) :: k) x n w' ->
    wp (f (Some ca)) w' Q R) ->
  wp ((set_color (Some ca) Black;; set_color (Some a) Red;;
       (if bool_decide (Some a = None) then mret tt else rotate s (Some a));;
       sp ← read (Some p); mret (far_link s sp)) ≫= f) w Q R.
Proof.
  intros Hw Hf. apply wp_assoc. rewrite holds_near in Hw. rewrite <- (addr_of_node_at s e ca ci f0).
  eapply wp_set_color; [done|]. intros w1 Hw1. rewrite painted_node_at in Hw1.
  apply wp_assoc. eapply wp_color_parent; [done|]. intros w2 Hw2. apply holds_out in Hw2.
  rewrite bool_decide_false by done. apply wp_assoc. eapply wp_rotate; [done|]. intros w3 Hw3.
  rewrite <- holds_swap in Hw3. apply wp_assoc.
  eapply wp_read_parent; [done|]. apply wp_bind, wp_ret.
  replace (far_link s _) with (Some ca) by (by destruct s). by apply Hf.
Qed.

Lemma wp_delete_round k s x p ip sib w t' :
  holds F (mkFrame s p ip sib :: k) x n w ->
  match del_step k s x p ip sib with
  | None => False
  | Some (inl whole) => t' = whole
  | Some (inr t) => forall w', holds F k t n w' ->
      wp (loop (Some p) (up k)) w' (fun _ w' => holds F [] t' n w') R
  end ->
  wp (delete_round s loop (addr_of x) (Some p) (addr_of sib)) w (fun _ w' => holds F [] t' n w') R.
Proof.
  intros Hw Hstep. destruct sib as [|sl a i sr]; [done|]. cbn [del_step] in Hstep.
  assert (exists c d, Node sl a i sr = node_at s c a i d /\ split s sl sr = (c, d)) as (c & d & Hsib & Hsp).
  { destruct s; eauto. }
  rewrite Hsp in Hstep. rewrite Hsib in *. rewrite addr_of_node_at, delete_round_sides.
  eapply wp_near; [done|]. eapply wp_far; [done|].
  pose proof Hw as Hc. rewrite holds_near in Hc. eapply wp_get_color; [exact Hc|].
  pose proof Hw as Hd. rewrite holds_far in Hd. eapply wp_get_color; [exact Hd|]. clear Hc Hd.
  destruct (decide (color_of c = Black /\ color_of d = Black)) as [[Hc Hd]|Hcd].
  - rewrite !bool_decide_true by done. cbn [andb]. rewrite <- (addr_of_node_at s c a i d).
    eapply wp_color_sibling; [done|]. intros w1 Hw1. eapply wp_read_parent; [done|].
    replace (parent _) with (up k) by (by destruct s). apply Hstep.
    rewrite <- painted_node_at. by apply holds_out.
  - replace (bool_decide (color_of c = Black) && bool_decide (color_of d = Black)) with false
      by (symmetry; rewrite andb_false_iff, !bool_decide_eq_false; destruct (decide (color_of c = Black)); tauto).
    destruct (decide (color_of d = Black)) as [Hd|Hd].
    + rewrite bool_decide_true by done. destruct c as [|cl ca ci cr]; [by exfalso|].
      assert (exists e f0, Node cl ca ci cr = node_at s e ca ci f0 /\ split s cl cr = (e, f0))
        as (e & f0 & He & Hsp') by (destruct s; eauto).
      rewrite Hsp' in Hstep. rewrite He, addr_of_node_at in *. subst t'.
      eapply wp_delete_turn; [done|]. intros w1 Hw1.
      rewrite (fresh_at_node s e) in Hw1. eapply wp_mono; [| |apply (wp_delete_finish _ _ _ _ _ _ _ _ _ _ Hw1)].
      * intros [] w2. by destruct s.
      * done.
    + rewrite bool_decide_false by done. apply wp_bind, wp_ret. subst t'. by apply wp_delete_finish.
Qed.
End Rounds.

Lemma wp_delete_stop F k x n w fuel (R : E -> World K T -> Prop) :
  holds F k x n w -> k = [] \/ color_of x = Red ->
  wp (delete_fixup_loop (S fuel) (addr_of x) (up k)) w
    (fun _ w' => holds F [] (plug k (painted Black x)) n w') R.
Proof.
  intros Hw Hstop. cbn [delete_fixup_loop]. apply wp_root. eapply wp_get_color; [done|].
  replace (_ && _) with false.
  - eapply wp_mono; [| |by eapply wp_set_color_last]; [|done].
    intros [] w'. cbn. by rewrite holds_plug.
  - destruct Hstop as [->| ->]; [|by rewrite (bool_decide_false (Red = Black)), andb_false_r].
    by rewrite (bool_decide_false (up [] <> None)), andb_false_r by naive_solver.
Qed.

(** The branch for a red sibling. *)
Lemma wp_delete_red {B} F k s x p ip c a i d n w (f : ptr -> Op B) Q R :
  holds F (mkFrame s p ip (node_at s c a i d) :: k) x n w ->
  (forall w', holds F (mkFrame s p (fresh_info s x (paint Red ip) c) c ::
      mkFrame s a (fresh_info s (fresh_at s x p (paint Red ip) c) (paint Black i) d) d :: k) x n w' ->
    wp (f (addr_of c)) w' Q R) ->
  wp ((set_color (Some a) Black;; set_color (Some p) Red;; rotate (other s) (Some p);;
       sp ← read (Some p); mret (far_link s sp)) ≫= f) w Q R.
Proof.
  intros Hw Hf. apply wp_assoc. rewrite <- (addr_of_node_at s c a i d).
  eapply wp_color_sibling; [done|]. intros w1 Hw1. rewrite painted_node_at in Hw1.
  apply wp_assoc. eapply wp_color_parent; [done|]. intros w2 Hw2. apply holds_out in Hw2.
  apply wp_assoc. eapply wp_rotate_down; [done|]. intros w3 Hw3.
  rewrite (fresh_at_node s (fresh_at _ _ _ _ _)) in Hw3. apply holds_into in Hw3.
  rewrite (fresh_at_node s x) in Hw3. apply holds_into in Hw3.
  apply wp_assoc. eapply wp_read_parent; [done|]. apply wp_bind, wp_ret.
  replace (far_link s _) with (addr_of c) by (by destruct s). apply Hf.
  by rewrite (fresh_at_node s x).
Qed.

Lemma del_step_inr k s x p ip sib (t : shape K T) :
  del_step k s x p ip sib = Some (inr t) -> addr_of t = Some p /\ color_of t = i_color ip.
Proof.
  destruct sib as [|sl a i sr]; [done|]. cbn. destruct (split s sl sr) as [c d].
  destruct (decide _); [intros [= <-]; by destruct s|].
  destruct (decide _); [|done]. destruct c as [|cl ca ci cr]; [done|]. by destruct (split s cl cr).
Qed.

(** A round from the sibling's colour on, for either side. *)
Lemma wp_delete_branch F k s x p ip c a i d n w fuel t' (R : E -> World K T -> Prop) :
  holds F (mkFrame s p ip (node_at s c a i d) :: k) x n w -> color_of x = Black ->
  del_fix (mkFrame s p ip (node_at s c a i d) :: k) x = Some t' ->
  (forall t w, holds F k t n w -> del_fix k t = Some t' ->
    wp (delete_fixup_loop (S fuel) (addr_of t) (up k)) w (fun _ w' => holds F [] t' n w') R) ->
  wp (sibling_color ← get_color (Some a);
      sibling ← (if bool_decide (sibling_color = Red) then
                   set_color (Some a) Black;; set_color (Some p) Red;;
                   rotate (other s) (Some p);; sp ← read (Some p); mret (far_link s sp)
                 else mret (Some a));
      delete_round s (delete_fixup_loop (S fuel)) (addr_of x) (Some p) sibling) w
    (fun _ w' => holds F [] t' n w') R.
Proof.
  intros Hw Hx Hfix IH. cbn [del_fix] in Hfix. rewrite decide_True in Hfix by done.
  assert (exists sl sr, node_at s c a i d = Node sl a i sr /\ split s sl sr = (c, d))
    as (sl & sr & Hsib & Hsp) by (destruct s; eauto).
  assert (forall t w, holds F [] t n w -> wp (delete_fixup_loop (S fuel) (addr_of t) None) w
    (fun _ w' => holds F [] (painted Black t) n w') R) as Hstop.
  { intros t w' Hw'. apply (wp_delete_stop F []); auto. }
  rewrite Hsib, Hsp in Hfix. rewrite <- (addr_of_node_at s c a i d).
  eapply wp_get_color_sibling; [done|]. replace (color_of _) with (i_color i) by (by destruct s).
  destruct (decide (i_color i = Red)) as [Hred|Hblack].
  - rewrite bool_decide_true by done. rewrite addr_of_node_at.
    eapply wp_delete_red; [done|]. intros w1 Hw1. apply wp_delete_round with (F := F) (n := n) (1 := Hstop) (2 := Hw1).
    destruct (del_step _ _ _ _ _ c) as [[whole|t]|] eqn:Hstep; [by injection Hfix|injection Hfix as <-|done].
    intros w2 Hw2. apply del_step_inr in Hstep as [Ha Hc]. rewrite <- Ha.
    apply (wp_delete_stop F (_ :: k)); [done|]. right. rewrite Hc. by destruct s.
  - rewrite bool_decide_false by done. apply wp_bind, wp_ret.
    apply wp_delete_round with (F := F) (n := n) (1 := Hstop) (2 := Hw).
    rewrite Hsib. destruct (del_step _ _ _ _ _ _) as [[whole|t]|] eqn:Hstep; [by injection Hfix| |done].
    intros w2 Hw2. apply del_step_inr in Hstep as [Ha Hc]. rewrite <- Ha. by apply IH.
Qed.

Lemma plug_root k t : k <> [] ->
  exists b, addr_of (plug (K := K) (T := T) k t) = Some b /\ (1 <= occ b (ctx_addrs k))%nat.
Proof.
  revert t. induction k as [|f k IH]; intros t Hk; [done|]. destruct k as [|g k].
  - exists (f_addr f). split; [apply addr_of_fill|]. cbn. rewrite hit_refl. lia.
  - destruct (IH (fill f t)) as (b & Hb & Ho); [done|]. exists b. split; [done|].
    count_goal. count_in Ho. lia.
Qed.

Lemma focus_ne_root F f k t n w : holds F (f :: k) t n w -> addr_of t <> root (tree w).
Proof.
  intros Hw. pose proof Hw as [[_ _ Hocc _] _]. rewrite holds_plug in Hw.
  rewrite (holds_root _ _ _ _ Hw). destruct (plug_root (f :: k) t) as (b & -> & Hb); [done|].
  destruct t as [|l a i r]; [done|]. cbn. intros [= ->]. specialize (Hocc b).
  cbn [addrs app occ] in Hocc. rewrite occ_app, hit_refl in Hocc. lia.
Qed.

Lemma wp_delete_fixup_loop F k : forall x n w fuel t' (R : E -> World K T -> Prop),
  holds F k x n w -> del_fix k x = Some t' -> (S (length k) < fuel)%nat ->
  wp (delete_fixup_loop fuel (addr_of x) (up k)) w (fun _ w' => holds F [] t' n w') R.
Proof.
  induction k as [|[s p ip sib] k IH]; intros x n w fuel t' R Hw Hfix Hfuel;
    (destruct fuel as [|fuel]; [lia|]).
  { injection Hfix as <-. apply (wp_delete_stop F []); auto. }
  destruct (decide (color_of x = Black)) as [Hx|Hx].
  2:{ cbn [del_fix] in Hfix. rewrite decide_False in Hfix by done. injection Hfix as <-.
      apply (wp_delete_stop F (_ :: k)); [done|]. right. by destruct (color_of x). }
  destruct sib as [|sl a i sr]; [cbn in Hfix; by rewrite decide_True in Hfix|].
  pose proof (focus_ne_root _ _ _ _ _ _ Hw) as Hroot.
  assert (addr_of x <> Some a) as Hxa.
  { destruct x as [|xl b bi xr]; [done|]. by apply (child_ne _ _ _ _ _ _ _ _ _ _ _ _ Hw). }
  destruct fuel as [|fuel]; [lia|]. remember (S fuel) as fuel' eqn:Hfuel'.
  cbn [delete_fixup_loop up f_addr]. apply wp_root. eapply wp_get_color; [done|].
  rewrite Hx, !bool_decide_true by done. cbn [andb]. eapply wp_read_parent; [done|]. subst fuel'.
  destruct s; cbn [state cell left right addr_of].
  - rewrite bool_decide_true by done. eapply (wp_delete_branch F k InLeft); [done..|].
    intros t w' Ht Hfix'. apply IH; [done..|]. cbn in Hfuel. lia.
  - rewrite bool_decide_false by done. eapply (wp_delete_branch F k InRight); [done..|].
    intros t w' Ht Hfix'. apply IH; [done..|]. cbn in Hfuel. lia.
Qed.

End Simulation.
