(* ===== verification/RbBalance.v ===== *)
(** Rebalancing keeps the key order, restores the red-black conditions and
    keeps the cached minima consistent, on shapes.

    The cached subtree minima: consistency, what rebalancing keeps of it, how
    a walk of [recompute_upwards] restores it; and the height of a red-black
    tree. *)

From S2P Require Import Prelude EevdfTree RbShape RbFixup.
Local Open Scope Z_scope.

Section Balance.
Context {K T : Type}.
Implicit Types (t l r x : shape K T) (k : list (frame K T)) (i : info K T).

(** ** The nodes in key order

    An entry is a node without its colour and its cached minimum. *)
Record entry : Type := mkEntry {
  e_addr : nat;
  e_key : K;
  e_eligible : Z;
  e_initialized : bool;
  e_value : option T;
  e_strong : Z
}.
Definition entry_of (a : nat) i : entry :=
  mkEntry a (i_key i) (i_eligible i) (i_initialized i) (i_value i) (i_strong i).

Fixpoint inorder t : list entry :=
  match t with Leaf => [] | Node l a i r => inorder l ++ entry_of a i :: inorder r end.

Lemma inorder_plug k t t' : inorder t = inorder t' -> inorder (plug k t) = inorder (plug k t').
Proof.
  revert t t'. induction k as [|[[] a i sib] k IH]; intros t t' Ht; cbn; [done|apply IH..];
    cbn; by rewrite Ht.
Qed.

Lemma inorder_painted c t : inorder (painted c t) = inorder t.
Proof. by destruct t. Qed.

(** Rewrites with the equations of [inorder] on concrete nodes. *)
Ltac inorder_eq :=
  do 3 (rewrite ?inorder_painted;
        cbn [node_at fresh_at fresh_node inorder fill f_side f_addr f_info f_sib]);
  do 3 (rewrite <- ?app_assoc; cbn [app]); reflexivity.

Lemma ins_fix_inorder k t t' : ins_fix k t = Some t' -> inorder t' = inorder (plug k t).
Proof.
  remember (length k) as d eqn:Hd. revert k Hd t.
  induction (lt_wf d) as [d _ IH]. intros k -> t Hfix.
  destruct k as [|[s1 p ip c] k]; [injection Hfix as <-; apply inorder_painted|].
  cbn [ins_fix] in Hfix. destruct (decide _); [|injection Hfix as <-; apply inorder_painted].
  destruct k as [|[s2 g ig u] k]; [done|]. destruct (decide _).
  { rewrite (IH (length k)) with (k := k) (2 := eq_refl) (3 := Hfix) by (cbn; lia).
    cbn [plug]. apply inorder_plug. destruct s1, s2; inorder_eq. }
  destruct (decide _) as [->|].
  { injection Hfix as <-. rewrite inorder_painted. cbn [plug]. apply inorder_plug.
    destruct s2; inorder_eq. }
  destruct t as [|l z iz r]; [done|]. destruct s1, s2; try done; cbn [split] in Hfix;
    injection Hfix as <-; rewrite inorder_painted; cbn [plug]; apply inorder_plug; inorder_eq.
Qed.

Lemma del_step_inorder k s x p ip sib res :
  del_step k s x p ip sib = Some res ->
  match res with
  | inl whole => inorder whole = inorder (plug k (node_at s x p ip sib))
  | inr t => inorder t = inorder (node_at s x p ip sib)
  end.
Proof.
  destruct sib as [|sl a i sr]; [done|]. cbn [del_step].
  destruct (split s sl sr) as [c d] eqn:Hsp.
  destruct (decide _); [intros [= <-]; destruct s; injection Hsp as -> ->; inorder_eq|].
  destruct (decide _).
  - destruct c as [|cl ca ci cr]; [done|]. destruct (split s cl cr) as [e0 f0] eqn:Hsp'.
    intros [= <-]. rewrite inorder_painted. apply inorder_plug.
    destruct s; injection Hsp as -> ->; injection Hsp' as -> ->; inorder_eq.
  - intros [= <-]. rewrite inorder_painted. apply inorder_plug.
    destruct s; injection Hsp as -> ->; inorder_eq.
Qed.

Lemma del_fix_inorder k : forall x t', del_fix k x = Some t' -> inorder t' = inorder (plug k x).
Proof.
  induction k as [|[s p ip sib] k IH]; intros x t' Hfix.
  { injection Hfix as <-. apply inorder_painted. }
  cbn [del_fix] in Hfix. destruct (decide _).
  2:{ injection Hfix as <-. apply (inorder_plug (_ :: k)), inorder_painted. }
  destruct sib as [|sl a i sr]; [done|]. destruct (decide _).
  - destruct (split s sl sr) as [c d] eqn:Hsp. cbn [plug].
    destruct (del_step _ _ _ _ _ c) as [[whole|t]|] eqn:Hstep; [| |done];
      apply del_step_inorder in Hstep; injection Hfix as <-.
    + rewrite Hstep. cbn [plug]. apply inorder_plug.
      destruct s; injection Hsp as -> ->; inorder_eq.
    + cbn [plug]. apply inorder_plug. destruct s; injection Hsp as -> ->;
        cbn [fill f_side f_addr f_info f_sib node_at inorder] in *; rewrite inorder_painted, Hstep; inorder_eq.
  - destruct (del_step k s x p ip _) as [[whole|t]|] eqn:Hstep; [| |done];
      apply del_step_inorder in Hstep.
    + injection Hfix as <-. by rewrite Hstep.
    + rewrite (IH _ _ Hfix). cbn [plug]. by apply inorder_plug.
Qed.

(** ** Red-black conditions *)

(** Every path to a leaf of [t] has [n] black nodes, and no red node has a red
    child. *)
Fixpoint rb (n : nat) t : Prop :=
  match t with
  | Leaf => n = 0%nat
  | Node l _ i r =>
      match i_color i with
      | Red => color_of l = Black /\ color_of r = Black /\ rb n l /\ rb n r
      | Black => match n with O => False | S n => rb n l /\ rb n r end
      end
  end.

(** A red-black tree: the root is black. *)
Definition red_black t : Prop := color_of t = Black /\ exists n, rb n t.

Definition up_color k : option Color := match k with [] => None | f :: _ => Some (i_color (f_info f)) end.

(** A context whose hole takes a tree of black height [n]. *)
Fixpoint ctx_rb (n : nat) k : Prop :=
  match k with
  | [] => True
  | f :: k =>
      rb n (f_sib f) /\
      match i_color (f_info f) with
      | Red => color_of (f_sib f) = Black /\ up_color k = Some Black /\ ctx_rb n k
      | Black => ctx_rb (S n) k
      end
  end.

Lemma rb_black n l a i r : i_color i = Black -> rb n l -> rb n r -> rb (S n) (Node l a i r).
Proof. cbn. by intros ->. Qed.
Lemma rb_red n l a i r :
  i_color i = Red -> color_of l = Black -> color_of r = Black -> rb n l -> rb n r ->
  rb n (Node l a i r).
Proof. cbn. by intros ->. Qed.

Lemma rb_painted_black n t : rb n t -> exists m, rb m (painted Black t).
Proof.
  destruct t as [|l a i r]; cbn; [eauto|]. destruct (i_color i).
  - intros (_ & _ & ? & ?). by exists (S n).
  - destruct n as [|n]; [done|]. by exists (S n).
Qed.

Lemma color_of_painted c t : t <> Leaf -> color_of (painted c t) = c.
Proof. by destruct t. Qed.
Lemma color_of_blackened t : color_of (painted Black t) = Black.
Proof. by destruct t. Qed.

(** Filling a context: the tree is red-black again, unless a red node would
    hang below a red node or at the root. *)
Lemma plug_rb n k t :
  ctx_rb n k -> rb n t -> (color_of t = Red -> up_color k = Some Black) ->
  exists m, rb m (plug k t) /\ color_of (plug k t) = Black.
Proof.
  revert n t. induction k as [|[s a i sib] k IH]; intros n t Hk Ht Hred.
  { exists n. split; [done|]. cbn in *. destruct (color_of t); [by specialize (Hred eq_refl)|done]. }
  cbn in Hk. destruct Hk as [Hsib Hk]. cbn [plug].
  destruct (i_color i) eqn:Hi.
  - destruct Hk as (Hs & Hup & Hk). cbn in Hred. rewrite Hi in Hred.
    assert (color_of t = Black) by (destruct (color_of t); [by specialize (Hred eq_refl)|done]).
    apply (IH n); [done| |done]. destruct s; by apply rb_red.
  - apply (IH (S n)); [done| |]; [destruct s; by apply rb_black|].
    destruct s; cbn; by rewrite Hi.
Qed.

Lemma plug_red_black n k t :
  ctx_rb n k -> rb n t -> (color_of t = Red -> up_color k = Some Black) -> red_black (plug k t).
Proof. intros Hk Ht Hr. destruct (plug_rb n k t) as (m & ? & ?); try done. split; eauto. Qed.

Lemma red_black_painted t : red_black t -> painted Black t = t.
Proof. destruct t as [|l a [] r]; [done|]. intros [[= ->] _]. done. Qed.

(** Conversely, a position in a red-black tree. *)
Lemma plug_rb_inv m k t :
  rb m (plug k t) -> color_of (plug k t) = Black ->
  exists n, rb n t /\ ctx_rb n k /\ (color_of t = Red -> up_color k = Some Black).
Proof.
  revert t. induction k as [|[s a i sib] k IH]; intros t Hrb Hc; cbn [plug] in *.
  { exists m. split_and!; [done..|]. by rewrite Hc. }
  destruct (IH _ Hrb Hc) as (n & Hf & Hk & Hup). cbn [fill f_side f_addr f_info f_sib] in *.
  cbn [ctx_rb f_sib f_info up_color]. destruct (i_color i) eqn:Hi.
  - assert (color_of (node_at s t a i sib) = Red) as Hred by (by destruct s).
    specialize (Hup Hred). exists n. destruct s; cbn in Hf; rewrite Hi in Hf;
      destruct Hf as (? & ? & ? & ?); split_and!; try done; congruence.
  - destruct n as [|n]; destruct s; cbn in Hf; rewrite Hi in Hf; try done;
      destruct Hf as (? & ?); exists n; by split_and!.
Qed.

Lemma rb_at_black n s t a i sib :
  i_color i = Black -> rb n t -> rb n sib -> rb (S n) (node_at s t a i sib).
Proof. intros. destruct s; by apply rb_black. Qed.
Lemma rb_at_red n s t a i sib :
  i_color i = Red -> color_of t = Black -> color_of sib = Black -> rb n t -> rb n sib ->
  rb n (node_at s t a i sib).
Proof. intros. destruct s; by apply rb_red. Qed.
Lemma fresh_at_black n s t a i sib :
  i_color i = Black -> rb n t -> rb n sib -> rb (S n) (fresh_at s t a i sib).
Proof. intros. rewrite fresh_at_node. apply rb_at_black; by destruct s. Qed.
Lemma fresh_at_red n s t a i sib :
  i_color i = Red -> color_of t = Black -> color_of sib = Black -> rb n t -> rb n sib ->
  rb n (fresh_at s t a i sib).
Proof. intros. rewrite fresh_at_node. apply rb_at_red; by destruct s. Qed.
Lemma color_of_fresh_at s t a i sib : color_of (fresh_at s t a i sib) = i_color i.
Proof. by destruct s. Qed.
Lemma color_of_node_at s t a i sib : color_of (node_at s t a i sib) = i_color i.
Proof. by destruct s. Qed.
Lemma rb_blackened n t : rb n t -> color_of t = Red -> rb (S n) (painted Black t).
Proof. destruct t as [|l a i r]; [done|]. cbn. intros Ht Hi. rewrite Hi in Ht. naive_solver. Qed.
Lemma rb_red_inv n l a i r : rb n (Node l a i r) -> i_color i = Red ->
  color_of l = Black /\ color_of r = Black /\ rb n l /\ rb n r.
Proof. cbn. intros Ht Hi. by rewrite Hi in Ht. Qed.

(** A context closed with a black subtree. *)
Lemma plug_blackened n k t :
  ctx_rb n k -> rb n t -> color_of t = Black -> red_black (painted Black (plug k t)).
Proof.
  intros Hk Ht Hc. assert (red_black (plug k t)) as Hrb by (apply (plug_red_black n); congruence).
  by rewrite red_black_painted.
Qed.
Lemma not_red c : c <> Red -> c = Black.
Proof. by destruct c. Qed.

(** *** Insertion *)

Lemma ins_fix_red_black k n t :
  ctx_rb n k -> rb n t -> color_of t = Red ->
  exists t', ins_fix k t = Some t' /\ red_black t'.
Proof.
  remember (length k) as d eqn:Hd. revert k Hd n t.
  induction (lt_wf d) as [d _ IH]. intros k -> n t Hk Ht Hred.
  destruct k as [|[s1 p ip c] k].
  { eexists. split; [done|]. split; [apply color_of_blackened|by eapply rb_painted_black]. }
  cbn [ins_fix]. cbn in Hk. destruct Hk as [Hc Hk]. destruct (i_color ip) eqn:Hip.
  2:{ rewrite decide_False by done. eexists. split; [done|].
      assert (red_black (plug (mkFrame s1 p ip c :: k) t)) as Hrb.
      { apply (plug_red_black n); [|done|by cbn; rewrite Hip]. cbn. by rewrite Hip. }
      by rewrite red_black_painted. }
  rewrite decide_True by done. destruct Hk as (Hcb & Hup & Hk).
  destruct k as [|[s2 g ig u] k]; [done|]. cbn in Hup, Hk. injection Hup as Hig. rewrite Hig in Hk.
  destruct Hk as [Hu Hk]. destruct (decide (color_of u = Red)) as [Hur|Hub].
  { apply (IH (length k)) with (n := S n); [cbn; lia|done|done| |by rewrite color_of_node_at].
    apply rb_at_red; rewrite ?color_of_node_at, ?color_of_blackened; try done.
    - by apply rb_at_black.
    - by apply rb_blackened. }
  apply not_red in Hub. destruct (decide (s1 = s2)) as [->|Hs].
  { eexists. split; [done|]. apply (plug_blackened (S n)); [done| |by rewrite color_of_fresh_at].
    apply fresh_at_black; [done..|]. by apply fresh_at_red. }
  destruct t as [|l z iz r]; [done|]. apply rb_red_inv in Ht as (Hl & Hr & Htl & Htr); [|done].
  destruct (split s2 l r) as [a1 a2] eqn:Hsp. eexists. split; [done|].
  apply (plug_blackened (S n)); [done| |by rewrite color_of_fresh_at].
  apply fresh_at_black; [done|..]; destruct s2; injection Hsp as -> ->; by apply fresh_at_red.
Qed.

(** *** Deletion *)

(** The subtree of a node of colour [c] whose children have black height
    [S n] fits below [k]. *)
Definition fits (c : Color) (n : nat) k : Prop :=
  match c with
  | Red => up_color k = Some Black /\ ctx_rb (S n) k
  | Black => ctx_rb (S (S n)) k
  end.

Lemma fits_fresh_at c n k s t a i sib :
  fits c n k -> rb (S n) t -> rb (S n) sib -> color_of t = Black -> color_of sib = Black ->
  red_black (painted Black (plug k (fresh_at s t a (paint c i) sib))).
Proof.
  intros Hk Ht Hs Htb Hsb.
  assert (red_black (plug k (fresh_at s t a (paint c i) sib))) as Hrb.
  { destruct c; cbn in Hk.
    - apply (plug_red_black (S n)); [apply Hk|by apply fresh_at_red|]. intros _. apply Hk.
    - apply (plug_red_black (S (S n))); [done|by apply fresh_at_black|]. by rewrite color_of_fresh_at. }
  by rewrite red_black_painted.
Qed.

Lemma del_step_red_black k s x p ip sib n :
  rb n x -> color_of x = Black -> rb (S n) sib -> color_of sib = Black -> fits (i_color ip) n k ->
  match del_step k s x p ip sib with
  | None => False
  | Some (inl whole) => red_black whole
  | Some (inr t) => rb (S n) (painted Black t)
  end.
Proof.
  intros Hx Hxb Hs Hsb Hk. destruct sib as [|sl a i sr]; [done|]. cbn in Hsb. cbn [del_step].
  cbn in Hs. rewrite Hsb in Hs. destruct Hs as [Hsl Hsr].
  destruct (split s sl sr) as [c d] eqn:Hsp.
  assert (rb n c /\ rb n d) as [Hc Hd] by (destruct s; by injection Hsp as <- <-).
  destruct (decide _) as [[Hcb Hdb]|Hcd].
  { rewrite painted_node_at. apply rb_at_black; [done..|]. by apply rb_at_red. }
  assert (rb (S n) (fresh_at s x p (paint Black ip) c)) as Hxc by (by apply fresh_at_black).
  destruct (decide (color_of d = Black)) as [Hdb|Hdr].
  - destruct c as [|cl ca ci cr]; [by apply Hcd|].
    apply rb_red_inv in Hc as (Hclb & Hcrb & Hcl & Hcr); [|destruct (i_color ci) eqn:Hci; [done|]; exfalso; auto].
    destruct (split s cl cr) as [e0 f0] eqn:Hsp'.
    apply (fits_fresh_at _ n); rewrite ?color_of_blackened, ?color_of_fresh_at; try done;
      destruct s; injection Hsp' as <- <-; try (by apply fresh_at_black);
      (apply rb_blackened; [by apply fresh_at_red|by rewrite color_of_fresh_at]).
  - apply (fits_fresh_at _ n); rewrite ?color_of_blackened, ?color_of_fresh_at; try done.
    apply rb_blackened; [done|]. by destruct (color_of d).
Qed.

(** The black height of [x], or of [x] painted black when it is red, makes up
    for the missing black node. *)
Definition deficient (n : nat) x : Prop :=
  match color_of x with Black => rb n x | Red => rb (S n) (painted Black x) end.

Lemma del_fix_red_black k : forall n x,
  ctx_rb (S n) k -> deficient n x -> exists t', del_fix k x = Some t' /\ red_black t'.
Proof.
  induction k as [|[s p ip sib] k IH]; intros n x Hk Hx; unfold deficient in Hx.
  { eexists. split; [done|]. split; [apply color_of_blackened|].
    destruct (color_of x); [by exists (S n)|by eapply rb_painted_black]. }
  cbn [del_fix]. destruct (decide (color_of x = Black)) as [Hxb|Hxr].
  2:{ eexists. split; [done|]. destruct (color_of x); [|done].
      apply (plug_red_black (S n)); [done..|]. by rewrite color_of_blackened. }
  rewrite Hxb in Hx. cbn in Hk. destruct Hk as [Hsib Hk].
  destruct sib as [|sl a i sr]; [done|]. destruct (decide (i_color i = Red)) as [Hi|Hi].
  - apply rb_red_inv in Hsib as (Hslb & Hsrb & Hsl & Hsr); [|done].
    destruct (split s sl sr) as [c d] eqn:Hsp.
    assert (rb (S n) c /\ rb (S n) d /\ color_of c = Black /\ color_of d = Black) as (Hc & Hd & Hcb & Hdb)
      by (destruct s; by injection Hsp as <- <-).
    assert (i_color ip = Black) as Hip by (destruct (i_color ip); [cbn in Hk; rewrite Hi in Hk; naive_solver|done]).
    rewrite Hip in Hk. set (k2 := _ :: k).
    assert (ctx_rb (S n) k2) as Hk2 by (cbn; by destruct s).
    assert (up_color k2 = Some Black) as Hup by (cbn; by destruct s).
    pose proof (del_step_red_black k2 s x p (fresh_info s x (paint Red ip) c) c n Hx Hxb Hc Hcb) as Hstep.
    destruct (del_step k2 _ _ _ _ _) as [[whole|t]|]; [| |destruct Hstep; by destruct s].
    + eexists. split; [done|]. apply Hstep. by destruct s.
    + eexists. split; [done|]. apply (plug_red_black (S n)); [done| |by rewrite color_of_blackened].
      apply Hstep. by destruct s.
  - apply not_red in Hi.
    assert (fits (i_color ip) n k) as Hfits by (destruct (i_color ip); naive_solver).
    pose proof (del_step_red_black k s x p ip (Node sl a i sr) n Hx Hxb Hsib Hi Hfits) as Hstep.
    destruct (del_step k _ _ _ _ _) as [[whole|t]|] eqn:Heq; [eauto| |done].
    apply del_step_inr in Heq as [_ Hcol]. destruct (i_color ip).
    + apply (IH n); [apply Hfits|]. unfold deficient. by rewrite Hcol.
    + apply (IH (S n)); [done|]. unfold deficient. rewrite Hcol.
      destruct t as [|tl b [] tr]; [done|]. cbn in Hcol. by subst.
Qed.

End Balance.

Section Minimum.
Context {K T : Type}.
Implicit Types (t l r x : shape K T) (k : list (frame K T)) (i : info K T) (es : list (entry (K := K) (T := T))).

(** Every cached minimum is the minimum of its node and its children's. *)
Fixpoint mins t : Prop :=
  match t with
  | Leaf => True
  | Node l _ i r =>
      i_min i = Z.min (Z.min (i_eligible i) (cached l)) (cached r) /\ mins l /\ mins r
  end.

(** The least eligibility among entries. *)
Fixpoint least es : Z :=
  match es with [] => EMPTY_MIN | e :: es => Z.min (e_eligible e) (least es) end.

Lemma least_bound es : least es <= EMPTY_MIN.
Proof. induction es; cbn; lia. Qed.
Lemma least_app es1 es2 : least (es1 ++ es2) = Z.min (least es1) (least es2).
Proof. pose proof (least_bound es2). induction es1; cbn; lia. Qed.

Lemma cached_least t : mins t -> cached t = least (inorder t).
Proof.
  induction t as [|l IHl a i r IHr]; [done|]. intros (Hi & Hl & Hr). cbn.
  rewrite Hi, IHl, IHr, least_app by done. cbn. lia.
Qed.

Lemma cached_eq t t' : mins t -> mins t' -> inorder t = inorder t' -> cached t = cached t'.
Proof. intros. rewrite !cached_least by done. by f_equal. Qed.

Lemma cached_painted c t : cached (painted c t) = cached t.
Proof. by destruct t. Qed.
Lemma mins_painted c t : mins (painted c t) <-> mins t.
Proof. by destruct t. Qed.

(** The side trees of a context. *)
Definition sides_min k : Prop := Forall (fun f => mins (f_sib f)) k.

Lemma mins_node_at s t a i sib :
  mins (node_at s t a i sib) <->
  i_min i = Z.min (Z.min (i_eligible i) (cached t)) (cached sib) /\ mins t /\ mins sib.
Proof. destruct s; cbn; [done|]. split; intros (Hi & ? & ?); (split; [|done]); rewrite Hi; lia. Qed.

Lemma mins_fresh_at s t a i sib : mins t -> mins sib -> mins (fresh_at s t a i sib).
Proof. rewrite fresh_at_node, mins_node_at. intros. split; [|done]. destruct s; cbn; lia. Qed.

(** Replacing a subtree by a consistent one with the same nodes. *)
Lemma mins_plug k t t' :
  mins (plug k t) -> mins t' -> inorder t' = inorder t -> mins (plug k t').
Proof.
  assert (forall k t, mins (plug k t) -> mins t) as Hin.
  { clear. induction k as [|[s a i sib] k IH]; intros t; cbn [plug]; [done|].
    intros Hp%IH. by apply mins_node_at in Hp as (_ & ? & _). }
  revert t t'. induction k as [|[s a i sib] k IH]; intros t t' Hp Ht' Heq; cbn [plug] in *; [done|].
  pose proof (Hin _ _ Hp) as Hf. apply mins_node_at in Hf as (Hi & Ht & Hs).
  apply (IH (fill (mkFrame s a i sib) t)); [done| |].
  - apply mins_node_at. by rewrite (cached_eq t' t).
  - destruct s; cbn; by rewrite Heq.
Qed.

Lemma mins_focus k t : mins (plug k t) -> mins t.
Proof.
  revert t. induction k as [|[s a i sib] k IH]; intros t; cbn [plug]; [done|].
  intros Hp%IH. by apply mins_node_at in Hp as (_ & ? & _).
Qed.

Lemma ins_fix_mins k t t' : ins_fix k t = Some t' -> mins (plug k t) -> mins t'.
Proof.
  remember (length k) as d eqn:Hd. revert k Hd t.
  induction (lt_wf d) as [d _ IH]. intros k -> t Hfix Hm.
  destruct k as [|[s1 p ip c] k]; [injection Hfix as <-; by apply mins_painted|].
  cbn [ins_fix] in Hfix. destruct (decide _); [|injection Hfix as <-; by apply mins_painted].
  destruct k as [|[s2 g ig u] k]; [done|]. cbn [plug] in Hm.
  pose proof (mins_focus _ _ Hm) as Hf. apply mins_node_at in Hf as (Hig & Hf & Hu).
  apply mins_node_at in Hf as (Hip & Ht & Hc). cbn [fill f_side f_addr f_info f_sib] in Hig, Hip.
  destruct (decide _).
  { apply (IH (length k)) with (k := k) (2 := eq_refl) (3 := Hfix); [cbn; lia|].
    apply (mins_plug k _ _ Hm).
    - rewrite !mins_node_at, mins_painted. cbn. rewrite cached_painted. split_and!; try done.
      rewrite Hig. by destruct s1.
    - destruct s1, s2; cbn; by rewrite inorder_painted. }
  destruct (decide _) as [->|].
  { injection Hfix as <-. apply mins_painted, (mins_plug k _ _ Hm); [by repeat apply mins_fresh_at|].
    destruct s2; cbn; by rewrite <- !app_assoc. }
  destruct t as [|l z iz r]; [done|]. destruct Ht as (_ & Hl & Hr).
  destruct s1, s2; try done; cbn [split] in Hfix; injection Hfix as <-;
    apply mins_painted, (mins_plug k _ _ Hm);
    try (by repeat apply mins_fresh_at); cbn; rewrite <- !app_assoc; cbn; by rewrite <- ?app_assoc.
Qed.

(** ** Stale minima on the path to a node

    After an unlinking, only the nodes from [a] up to the root may cache a
    stale minimum. *)
Fixpoint stale_from (a : nat) t : Prop :=
  match t with
  | Leaf => False
  | Node l b _ r =>
      b = a /\ mins l /\ mins r \/ stale_from a l /\ mins r \/ mins l /\ stale_from a r
  end.

Lemma stale_node_at a s t b i sib :
  stale_from a (node_at s t b i sib) <->
  b = a /\ mins t /\ mins sib \/ stale_from a t /\ mins sib \/ mins t /\ stale_from a sib.
Proof. destruct s; cbn; naive_solver. Qed.

Lemma stale_painted a c t : stale_from a (painted c t) <-> stale_from a t.
Proof. by destruct t. Qed.

Lemma stale_plug a k t : sides_min k -> stale_from a t -> stale_from a (plug k t).
Proof.
  revert t. induction k as [|[s b i sib] k IH]; intros t Hk Ht; cbn [plug]; [done|].
  apply Forall_cons in Hk as [Hs Hk]. apply IH; [done|]. apply stale_node_at. auto.
Qed.

(** The focus is consistent and [a] is its parent, or it holds the path. *)
Definition stale_focus (a : nat) k x : Prop :=
  sides_min k /\ (mins x /\ up k = Some a \/ stale_from a x).

(** The node above a focus and its sibling. *)
Lemma stale_above a s p ip sib k x i sib' :
  stale_focus a (mkFrame s p ip sib :: k) x -> mins sib' ->
  stale_from a (node_at s x p i sib').
Proof. intros [_ [[Hx [= ->]]|Hx]] Hs; apply stale_node_at; auto. Qed.

Lemma del_step_stale a k s x p ip sib res :
  stale_focus a (mkFrame s p ip sib :: k) x -> del_step k s x p ip sib = Some res ->
  match res with inl whole => stale_from a whole | inr t => stale_from a t end.
Proof.
  intros Hst. pose proof Hst as [Hk _]. apply Forall_cons in Hk as [Hsib Hk]. cbn in Hsib.
  destruct sib as [|sl b i sr]; [done|]. destruct Hsib as (Hi & Hsl & Hsr). cbn [del_step].
  destruct (split s sl sr) as [c d] eqn:Hsp.
  assert (mins c /\ mins d /\ i_min i = Z.min (Z.min (i_eligible i) (cached c)) (cached d)) as (Hc & Hd & Hmin)
    by (destruct s; injection Hsp as <- <-; split_and!; try done; rewrite Hi; lia).
  destruct (decide _).
  { intros [= <-]. eapply stale_above; [done|]. by apply mins_node_at. }
  destruct (decide _).
  - destruct c as [|cl ca ci cr]; [done|]. destruct Hc as (_ & Hcl & Hcr).
    destruct (split s cl cr) as [e0 f0] eqn:Hsp'.
    assert (mins e0 /\ mins f0) as [He Hf] by (destruct s; by injection Hsp' as <- <-).
    intros [= <-]. apply stale_painted, stale_plug; [done|]. rewrite fresh_at_node, stale_node_at.
    right. left. split; [|by apply mins_painted, mins_fresh_at].
    rewrite fresh_at_node. by eapply stale_above.
  - intros [= <-]. apply stale_painted, stale_plug; [done|]. rewrite fresh_at_node, stale_node_at.
    right. left. split; [|by apply mins_painted].
    rewrite fresh_at_node. by eapply stale_above.
Qed.

Lemma stale_focus_stop a k x : stale_focus a k x -> stale_from a (plug k x).
Proof.
  intros [Hk [[Hx Hup]|Hx]]; [|by apply stale_plug].
  destruct k as [|[s p ip sib] k]; [done|]. apply Forall_cons in Hk as [Hs Hk]. injection Hup as ->.
  cbn [plug]. apply stale_plug; [done|]. apply stale_node_at. auto.
Qed.

Lemma stale_focus_painted a k x c : stale_focus a k (painted c x) <-> stale_focus a k x.
Proof. unfold stale_focus. by rewrite mins_painted, stale_painted. Qed.

Lemma del_fix_stale a k : forall x t',
  stale_focus a k x -> del_fix k x = Some t' -> stale_from a t'.
Proof.
  induction k as [|[s p ip sib] k IH]; intros x t' Hst Hfix.
  { injection Hfix as <-. apply (stale_focus_stop a []). by apply stale_focus_painted. }
  cbn [del_fix] in Hfix. destruct (decide _).
  2:{ injection Hfix as <-. apply (stale_focus_stop a (_ :: k)). by apply stale_focus_painted. }
  destruct sib as [|sl b i sr]; [done|]. destruct (decide _).
  - destruct (split s sl sr) as [c d] eqn:Hsp. pose proof Hst as [Hk _].
    apply Forall_cons in Hk as [(_ & Hsl & Hsr) Hk].
    assert (mins c /\ mins d) as [Hc Hd] by (destruct s; by injection Hsp as <- <-).
    set (k2 := mkFrame s b _ d :: k) in Hfix.
    assert (sides_min k2) as Hk2 by (by apply Forall_cons).
    destruct (del_step k2 s x p _ c) as [[whole|t]|] eqn:Hstep; [| |done];
      apply (del_step_stale a) in Hstep; try (split; [by apply Forall_cons|apply Hst]);
      injection Hfix as <-; [done|].
    apply (stale_plug a k2); [done|]. by apply stale_painted.
  - destruct (del_step k s x p ip _) as [[whole|t]|] eqn:Hstep; [| |done];
      apply (del_step_stale a) in Hstep; try done.
    + by injection Hfix as <-.
    + apply (IH t); [|done]. split; [|by right]. by destruct Hst as [[_ ?]%Forall_cons _].
Qed.

(** ** Recomputation along the path from a node to the root *)

Fixpoint refresh_up k t : shape K T :=
  match k with
  | [] => t
  | mkFrame s a i sib :: k => refresh_up k (fresh_at s t a i sib)
  end.

(** The same from the root down to the node [a]. *)
Fixpoint refresh (a : nat) t : shape K T :=
  match t with
  | Leaf => Leaf
  | Node l b i r =>
      if decide (b = a) then fresh_node l b i r
      else if decide (a ∈ addrs l) then fresh_node (refresh a l) b i r
      else if decide (a ∈ addrs r) then fresh_node l b i (refresh a r)
      else t
  end.

Lemma refresh_plug a k t :
  a ∈ addrs t -> a ∉ ctx_addrs k -> refresh a (plug k t) = refresh_up k (refresh a t).
Proof.
  revert t. induction k as [|[s b i sib] k IH]; intros t Ht Hk; [done|]. cbn [plug refresh_up].
  cbn in Hk. rewrite not_elem_of_cons, not_elem_of_app in Hk. destruct Hk as (Hne & Hs & Hk).
  rewrite IH; [|by rewrite addrs_fill; set_solver|done]. f_equal.
  destruct s; cbn; rewrite (decide_False (P := b = a)) by done; [by rewrite decide_True|].
  by rewrite decide_False, decide_True.
Qed.

Lemma fresh_node_id l a i r :
  i_min i = Z.min (Z.min (i_eligible i) (cached l)) (cached r) -> fresh_node l a i r = Node l a i r.
Proof. intros Hi. unfold fresh_node, refreshed, cache. rewrite <- Hi. by destruct i. Qed.

Lemma refresh_id a t : mins t -> refresh a t = t.
Proof.
  induction t as [|l IHl b i r IHr]; [done|]. intros (Hi & Hl & Hr). cbn.
  rewrite IHl, IHr by done. rewrite fresh_node_id by done. repeat case_decide; done.
Qed.

Lemma refresh_stale a b t : stale_from a t -> stale_from a (refresh b t).
Proof.
  induction t as [|l IHl c i r IHr]; [done|]. intros Hst. cbn.
  repeat case_decide; [exact Hst| | |exact Hst]; cbn.
  - destruct Hst as [(-> & Hl & Hr)|[(Hl & Hr)|(Hl & Hr)]]; [rewrite refresh_id by done|..]; auto.
    rewrite refresh_id by done. auto.
  - destruct Hst as [(-> & Hl & Hr)|[(Hl & Hr)|(Hl & Hr)]]; [rewrite refresh_id by done|..]; auto.
    rewrite refresh_id by done. auto.
Qed.

Lemma stale_elem a t : stale_from a t -> a ∈ addrs t.
Proof.
  induction t as [|l IHl b i r IHr]; cbn; [done|]. rewrite elem_of_cons, elem_of_app. naive_solver.
Qed.

Lemma refresh_mins a t : NoDup (addrs t) -> stale_from a t -> mins (refresh a t).
Proof.
  induction t as [|l IHl b i r IHr]; [done|]. cbn. intros [Hb Hnd]%NoDup_cons.
  apply NoDup_app in Hnd as (Hndl & Hdis & Hndr). rewrite not_elem_of_app in Hb. intros Hst.
  destruct (decide (b = a)) as [->|Hne].
  { destruct Hst as [(_ & Hl & Hr)|[(Hl%stale_elem & _)|(_ & Hr%stale_elem)]]; [|naive_solver..].
    cbn. naive_solver. }
  destruct Hst as [(-> & _)|[(Hl & Hr)|(Hl & Hr)]]; [done|..].
  - rewrite decide_True by (by apply stale_elem). cbn. auto.
  - pose proof (stale_elem _ _ Hr) as Hin.
    rewrite decide_False, decide_True by (try done; intros Hin'; by apply (Hdis _ Hin')). cbn. auto.
Qed.

Lemma refresh_up_mins k t : sides_min k -> mins t -> mins (refresh_up k t).
Proof.
  revert t. induction k as [|[s a i sib] k IH]; intros t Hk Ht; [done|].
  apply Forall_cons in Hk as [Hs Hk]. cbn [refresh_up]. apply IH; [done|]. by apply mins_fresh_at.
Qed.

Lemma mins_sides k t : mins (plug k t) -> sides_min k.
Proof.
  revert t. induction k as [|[s a i sib] k IH]; intros t Hm; [constructor|]. cbn [plug] in Hm.
  apply Forall_cons. split; [|by eapply IH]. apply mins_focus in Hm. by apply mins_node_at in Hm as (_ & _ & ?).
Qed.

Lemma inorder_fresh_node l a i r : inorder (fresh_node l a i r) = inorder (Node l a i r).
Proof. done. Qed.

Lemma inorder_refresh a t : inorder (refresh a t) = inorder t.
Proof.
  induction t as [|l IHl b i r IHr]; [done|]. cbn. repeat case_decide; cbn; by rewrite ?IHl, ?IHr.
Qed.

Lemma color_of_refresh a t : color_of (refresh a t) = color_of t.
Proof. destruct t; [done|]. cbn. by repeat case_decide. Qed.

Lemma rb_refresh n a t : rb n t -> rb n (refresh a t).
Proof.
  revert n. induction t as [|l IHl b i r IHr]; intros n Ht; [done|]. cbn.
  repeat case_decide; try done; cbn in *; destruct (i_color i), n; rewrite ?color_of_refresh;
    naive_solver.
Qed.

Lemma red_black_refresh a t : red_black t -> red_black (refresh a t).
Proof. intros [Hc [n Hn]]. split; [by rewrite color_of_refresh|]. eauto using rb_refresh. Qed.

(** ** The height of a red-black tree *)

Fixpoint height t : nat :=
  match t with Leaf => 0 | Node l _ _ r => S (Nat.max (height l) (height r)) end.
Definition nodes t : nat := length (addrs t).

Lemma length_inorder t : length (inorder t) = nodes t.
Proof.
  unfold nodes. induction t as [|l IHl a i r IHr]; [done|]. cbn. rewrite !length_app. cbn. lia.
Qed.

Lemma addrs_inorder t : addrs t ≡ₚ e_addr <$> inorder t.
Proof.
  induction t as [|l IHl a i r IHr]; [done|]. cbn. rewrite fmap_app. cbn.
  rewrite <- IHl, <- IHr. by rewrite Permutation_middle.
Qed.

Lemma rb_nodes n t : rb n t -> (2 ^ n <= S (nodes t))%nat.
Proof.
  unfold nodes. revert n. induction t as [|l IHl a i r IHr]; intros n Ht; cbn in *; [by subst|].
  rewrite length_app. destruct (i_color i).
  - destruct Ht as (_ & _ & Hl & _). specialize (IHl _ Hl). lia.
  - destruct n as [|n]; [done|]. destruct Ht as [Hl Hr]. specialize (IHl _ Hl). specialize (IHr _ Hr).
    cbn. lia.
Qed.

Lemma rb_height n t : rb n t -> (height t <= 2 * n + match color_of t with Red => 1 | Black => 0 end)%nat.
Proof.
  revert n. induction t as [|l IHl a i r IHr]; intros n Ht; cbn in *; [lia|]. destruct (i_color i).
  - destruct Ht as (Hlb & Hrb & Hl & Hr). specialize (IHl _ Hl). specialize (IHr _ Hr).
    rewrite Hlb in IHl. rewrite Hrb in IHr. lia.
  - destruct n as [|n]; [done|]. destruct Ht as [Hl Hr]. specialize (IHl _ Hl). specialize (IHr _ Hr).
    destruct (color_of l), (color_of r); lia.
Qed.

(** Twice the binary logarithm of the number of nodes bounds the height. *)
Lemma red_black_height t : red_black t -> (height t <= 2 * Nat.log2 (S (nodes t)))%nat.
Proof.
  intros [Hc [n Hn]]. pose proof (rb_height _ _ Hn) as Hh. rewrite Hc in Hh.
  pose proof (rb_nodes _ _ Hn) as Hs. apply Nat.log2_le_mono in Hs.
  rewrite Nat.log2_pow2 in Hs by lia. lia.
Qed.

End Minimum.
