(* ===== verification/RbSearch.v ===== *)
(** The walks of the tree on shapes: recomputation towards the root, descents
    by key and by eligibility, successors.

    Searching a key-ordered tree: the sorted list of its entries as the
    specification of the key walks. *)

From stdpp Require Import gmap.
From stdpp Require Import gmap sorting.
From S2P Require Import Prelude Effects EevdfTree RbShape RbFixup RbBalance.
Local Open Scope Z_scope.

Section Walk.
Context {K T : Type} `{Ord K}.
Context {E : Type}.
Abbreviation Op A := (M (World K T) E A).
Implicit Types (w : World K T) (t l r : shape K T) (k : list (frame K T)) (i : info K T).

(** ** Recomputation *)

Lemma wp_recompute_loop F k : forall l a i r n w fuel (R : E -> World K T -> Prop),
  holds F k (Node l a i r) n w -> (length k < fuel)%nat ->
  wp (recompute_upwards_loop fuel (Some a)) w
    (fun _ w' => holds F [] (refresh_up k (fresh_node l a i r)) n w') R.
Proof.
  induction k as [|[s p ip sib] k IH]; intros l a i r n w fuel R Hw Hfuel;
    (destruct fuel as [|fuel]; [lia|]); cbn [recompute_upwards_loop]; apply wp_bind;
    (eapply wp_mono; [|by intros ?? HR; exact HR|by eapply wp_recompute]); intros [] w1 Hw1;
    (eapply wp_read_focus; [done|]); cbn [state cell parent up f_addr].
  - by destruct fuel.
  - apply holds_out in Hw1. cbn [refresh_up]. destruct s; (eapply IH; [done|cbn in Hfuel; lia]).
Qed.

Lemma walk_enough F k t n w : holds F k t n w -> (S (length k) < S (S (size (mem w))))%nat.
Proof. intros [Hw _]. pose proof (at_focus_depth _ _ _ _ _ Hw). lia. Qed.

(** From the parent of the focus: the focus stays where it is. *)
Fixpoint refresh_ctx t k : list (frame K T) :=
  match k with
  | [] => []
  | mkFrame s a i sib :: k =>
      mkFrame s a (fresh_info s t i sib) sib :: refresh_ctx (fresh_at s t a i sib) k
  end.

Lemma refresh_up_ctx k t : refresh_up k t = plug (refresh_ctx t k) t.
Proof.
  revert t. induction k as [|[s a i sib] k IH]; intros t; [done|]. cbn [refresh_up refresh_ctx plug].
  rewrite IH. unfold fill. cbn [f_side f_addr f_info f_sib]. by rewrite <- fresh_at_node.
Qed.

Lemma refresh_ctx_rb n k t : ctx_rb n k -> ctx_rb n (refresh_ctx t k).
Proof.
  revert n t. induction k as [|[s a i sib] k IH]; intros n t; [done|]. cbn.
  replace (i_color (fresh_info s t i sib)) with (i_color i) by (by destruct s).
  intros [Hs Hk]. split; [done|]. destruct (i_color i); [|by apply IH].
  destruct Hk as (Hc & Hup & Hk). split_and!; [done| |by apply IH].
  destruct k as [|[s' a' i' sib'] k]; [done|]. cbn in *. by destruct s'.
Qed.

Lemma length_refresh_ctx k t : length (refresh_ctx t k) = length k.
Proof. revert t. induction k as [|[s a i sib] k IH]; intros t; cbn; by rewrite ?IH. Qed.

Lemma refresh_ctx_inorder k t t' :
  inorder (plug (refresh_ctx t k) t') = inorder (plug k t').
Proof.
  revert t t'. induction k as [|[s a i sib] k IH]; intros t t'; [done|]. cbn [refresh_ctx plug].
  rewrite IH. apply inorder_plug. by destruct s.
Qed.

Lemma wp_recompute_above F k t n w (R : E -> World K T -> Prop) :
  holds F k t n w ->
  wp (recompute_upwards (up k)) w (fun _ w' => holds F (refresh_ctx t k) t n w') R.
Proof.
  intros Hw. unfold recompute_upwards. apply wp_bind, wp_ret. pose proof (walk_enough _ _ _ _ _ Hw) as Hb.
  assert (wp (recompute_upwards_loop (S (S (size (mem w)))) (up k)) w
    (fun _ w' => holds F [] (refresh_up k t) n w') R) as Hloop.
  { destruct k as [|[s a i sib] k]; [done|]. apply holds_out in Hw. cbn [refresh_up up f_addr].
    destruct s; (eapply wp_recompute_loop; [done|cbn in Hb; lia]). }
  eapply wp_mono; [| |exact Hloop]; [|by intros]. intros [] w'.
  by rewrite refresh_up_ctx, <- holds_plug.
Qed.

Lemma focus_on a t : a ∈ addrs t -> exists k l i r, t = plug k (Node (K := K) (T := T) l a i r).
Proof.
  induction t as [|l IHl b i r IHr]; cbn; [by intros ?%not_elem_of_nil|].
  rewrite elem_of_cons, elem_of_app. intros [->|[Hl|Hr]].
  - by exists [], l, i, r.
  - destruct (IHl Hl) as (k & l' & i' & r' & ->). exists (k ++ [mkFrame InLeft b i r]), l', i', r'.
    by rewrite plug_app.
  - destruct (IHr Hr) as (k & l' & i' & r' & ->). exists (k ++ [mkFrame InRight b i l]), l', i', r'.
    by rewrite plug_app.
Qed.

Lemma wp_recompute_upwards F t a n w (R : E -> World K T -> Prop) :
  holds F [] t n w -> a ∈ addrs t ->
  wp (recompute_upwards (Some a)) w (fun _ w' => holds F [] (refresh a t) n w') R.
Proof.
  intros Hw (k & l & i & r & ->)%focus_on. rewrite <- holds_plug in Hw.
  rewrite refresh_plug; cycle 1.
  { cbn. set_solver. }
  { apply occ_zero. destruct Hw as [[_ _ Hocc _] _]. specialize (Hocc a). cbn in Hocc.
    rewrite hit_refl, occ_app in Hocc. lia. }
  cbn [refresh]. rewrite decide_True by done. unfold recompute_upwards. apply wp_bind, wp_ret.
  eapply wp_recompute_loop; [done|]. pose proof (walk_enough _ _ _ _ _ Hw). lia.
Qed.

(** ** Descents by key *)

Lemma height_nodes t : (height t <= nodes t)%nat.
Proof.
  unfold nodes. induction t as [|l IHl a i r IHr]; cbn; [done|]. rewrite length_app. lia.
Qed.

Lemma holds_height F k t n w : holds F k t n w -> (length k + height t <= size (mem w))%nat.
Proof.
  intros [Hw _]. pose proof (at_focus_depth _ _ _ _ _ Hw). pose proof (height_nodes t).
  unfold nodes in *. lia.
Qed.

Lemma read_focus F k l a i r n w : holds F k (Node l a i r) n w ->
  read (E := E) (Some a) w = Done (state (cell i (up k) (addr_of l) (addr_of r))) w.
Proof. intros [[(Ha & _) _ _ _] _]. by apply read_eq. Qed.

(** The position of a key that is not in the tree. *)
Fixpoint locate (x : K) k t : option (list (frame K T)) :=
  match t with
  | Leaf => Some k
  | Node l a i r =>
      match cmp x (i_key i) with
      | Lt => locate x (mkFrame InLeft a i r :: k) l
      | Gt => locate x (mkFrame InRight a i l :: k) r
      | Eq => None
      end
  end.

(** The node that holds a key. *)
Fixpoint lookup_key (x : K) t : ptr :=
  match t with
  | Leaf => None
  | Node l a i r =>
      match cmp x (i_key i) with
      | Lt => lookup_key x l
      | Gt => lookup_key x r
      | Eq => Some a
      end
  end.

Lemma contains_exact_loop_eq F x target n w t : forall k fuel,
  holds F k t n w -> (height t <= fuel)%nat ->
  contains_exact_loop (E := E) fuel x (Some target) (addr_of t) w =
    Done (bool_decide (lookup_key x t = Some target)) w.
Proof.
  induction t as [|l IHl a i r IHr]; intros k fuel Hw Hfuel.
  { by destruct fuel. }
  cbn in Hfuel. destruct fuel as [|fuel]; [lia|]. cbn [addr_of contains_exact_loop]. erewrite bind_done by (by eapply read_focus).
  cbn [state cell key left right lookup_key]. destruct (cmp x (i_key i)).
  - done.
  - apply (IHl (mkFrame InLeft a i r :: k)); [by apply holds_into|lia].
  - apply (IHr (mkFrame InRight a i l :: k)); [by apply holds_into|lia].
Qed.

(** ** The leftmost node *)

Fixpoint leftmost k t : option (list (frame K T) * (nat * info K T) * shape K T) :=
  match t with
  | Leaf => None
  | Node l a i r =>
      match l with
      | Leaf => Some (k, (a, i), r)
      | Node _ _ _ _ => leftmost (mkFrame InLeft a i r :: k) l
      end
  end.

Lemma minimum_loop_eq F n w t : forall k fuel,
  t <> Leaf -> holds F k t n w -> (height t <= fuel)%nat ->
  exists k' a i r, leftmost k t = Some (k', (a, i), r) /\
    plug k' (Node Leaf a i r) = plug k t /\
    minimum_loop (E := E) fuel (addr_of t) w = Done (Some a) w.
Proof.
  induction t as [|l IHl a i r IHr]; intros k fuel Ht Hw Hfuel; [done|].
  cbn in Hfuel. destruct fuel as [|fuel]; [lia|]. cbn [addr_of minimum_loop].
  erewrite bind_done by (by eapply read_focus). cbn [state cell left].
  destruct l as [|ll b j lr]; cbn [leftmost addr_of].
  - rewrite bool_decide_true by done. eauto 10.
  - rewrite bool_decide_false by done.
    apply (IHl (mkFrame InLeft a i r :: k) fuel); [done|by apply holds_into|lia].
Qed.

Lemma minimum_eq F n w t k :
  t <> Leaf -> holds F k t n w ->
  exists k' a i r, leftmost k t = Some (k', (a, i), r) /\
    plug k' (Node Leaf a i r) = plug k t /\
    minimum (E := E) (addr_of t) w = Done (Some a) w.
Proof.
  intros Ht Hw. destruct (minimum_loop_eq F n w t k (S (S (size (mem w))))) as (k' & a & i & r & ?); [done..| |].
  - pose proof (holds_height _ _ _ _ _ Hw). lia.
  - eauto 10.
Qed.

(** ** Selection by eligibility *)

Lemma min_within_eq F k t now n w : holds F k t n w ->
  min_within (E := E) (addr_of t) now w = Done (match t with Leaf => false | _ => cached t <=? now end) w.
Proof.
  intros Hw. destruct t as [|l a i r]; [done|]. cbn [addr_of min_within].
  by erewrite bind_done by (by eapply read_focus).
Qed.

(** The first entry, in key order, that is eligible. *)
Definition first_eligible (now : Z) (es : list (entry (K := K) (T := T))) : option (entry (K := K) (T := T)) :=
  head (filter (fun e => e_eligible e <= now) es).

Definition eligible_range t : Prop := Forall (fun e => in_u128 (e_eligible e)) (inorder t).

Lemma cached_within t now :
  mins t -> eligible_range t -> t <> Leaf ->
  cached t <= now <-> Exists (fun e => e_eligible e <= now) (inorder t).
Proof.
  intros Hm Hr Ht. rewrite cached_least by done.
  assert (forall es : list (entry (K := K) (T := T)), es <> [] -> Forall (fun e => in_u128 (e_eligible e)) es ->
    least es <= now <-> Exists (fun e => e_eligible e <= now) es) as Hles.
  { clear. induction es as [|e es IH]; [done|]. intros _ [He Hes]%Forall_cons. cbn.
    rewrite Exists_cons. destruct es as [|e' es].
    - cbn. rewrite Exists_nil. unfold in_u128, EMPTY_MIN in *. lia.
    - rewrite <- IH by done. lia. }
  apply Hles; [|done]. destruct t; [done|]. cbn. by intros [_ ?]%app_nil.
Qed.

Definition within t (now : Z) : bool := match t with Leaf => false | _ => cached t <=? now end.

Lemma within_spec t now : mins t -> eligible_range t ->
  within t now = true <-> Exists (fun e => e_eligible e <= now) (inorder t).
Proof.
  intros Hm Hr. destruct t as [|l a i r]; [by rewrite Exists_nil|].
  unfold within. by rewrite Z.leb_le, cached_within.
Qed.

Lemma first_eligible_none now es :
  ~ Exists (fun e => e_eligible e <= now) es -> first_eligible now es = None.
Proof.
  intros Hes. unfold first_eligible. destruct (filter _ es) as [|e es'] eqn:Hf; [done|].
  exfalso. apply Hes, Exists_exists. exists e.
  assert (e ∈ filter (fun e => e_eligible e <= now) es) as [? ?]%list_elem_of_filter by (rewrite Hf; left).
  done.
Qed.

Lemma first_eligible_app now es1 es2 :
  first_eligible now (es1 ++ es2) =
    match first_eligible now es1 with Some e => Some e | None => first_eligible now es2 end.
Proof. unfold first_eligible. rewrite filter_app. by destruct (filter _ es1). Qed.

Lemma first_eligible_some now es :
  Exists (fun e => e_eligible e <= now) es -> exists e, first_eligible now es = Some e.
Proof.
  intros (e & He & Hle)%Exists_exists. unfold first_eligible.
  destruct (filter _ es) as [|e' es'] eqn:Hf; [|by exists e'].
  assert (e ∈ filter (fun e => e_eligible e <= now) es) as Hin by (by apply list_elem_of_filter).
  rewrite Hf in Hin. by apply not_elem_of_nil in Hin.
Qed.

Lemma eligible_range_node l a i r :
  eligible_range (Node l a i r) <-> eligible_range l /\ in_u128 (i_eligible i) /\ eligible_range r.
Proof. unfold eligible_range. cbn. rewrite Forall_app, Forall_cons. naive_solver. Qed.

Lemma earliest_eligible_eq F now n w t : forall k fuel,
  holds F k t n w -> mins t -> eligible_range t -> (height t <= fuel)%nat ->
  earliest_eligible_loop (E := E) fuel now (addr_of t) w =
    Done (e_addr <$> first_eligible now (inorder t)) w.
Proof.
  induction t as [|l IHl a i r IHr]; intros k fuel Hw Hm Hrange Hfuel; [by destruct fuel|].
  cbn in Hfuel. destruct fuel as [|fuel]; [lia|]. cbn [addr_of earliest_eligible_loop].
  pose proof (within_spec _ now Hm Hrange) as Hwithin. pose proof Hrange as (Hrl & Hri & Hrr)%eligible_range_node.
  pose proof Hm as (_ & Hml & Hmr).
  erewrite bind_done by (by eapply read_focus). cbn [state cell subtree_min left right eligible_at].
  destruct (now <? i_min i) eqn:Hlt.
  { rewrite first_eligible_none; [done|]. intros Hex%Hwithin. cbn in Hex. lia. }
  assert (holds F (mkFrame InLeft a i r :: k) l n w) as Hwl by (by apply holds_into).
  assert (holds F (mkFrame InRight a i l :: k) r n w) as Hwr by (by apply holds_into).
  erewrite bind_done by (by eapply min_within_eq). fold (within l now).
  cbn [inorder]. rewrite first_eligible_app. destruct (within l now) eqn:Hl.
  { apply (within_spec _ now Hml Hrl) in Hl. apply first_eligible_some in Hl as [e He].
    rewrite He, (IHl _ _ Hwl), He by (done || lia). done. }
  rewrite (first_eligible_none now (inorder l)) by (rewrite <- within_spec by done; congruence).
  rewrite (first_eligible_app now [entry_of a i] (inorder r) : first_eligible now (_ :: _) = _).
  unfold first_eligible at 1. rewrite filter_cons. cbn [e_eligible entry_of].
  destruct (i_eligible i <=? now) eqn:He.
  { by rewrite decide_True by lia. }
  rewrite decide_False by lia. cbn [head]. erewrite bind_done by (by eapply min_within_eq).
  fold (within r now). destruct (within r now) eqn:Hr.
  - by rewrite (IHr _ _ Hwr) by (done || lia).
  - rewrite first_eligible_none; [done|]. rewrite <- within_spec by done. congruence.
Qed.

(** ** Successors *)

(** The entries before and after a position. *)
Fixpoint before k : list (entry (K := K) (T := T)) :=
  match k with
  | [] => []
  | mkFrame InLeft _ _ _ :: k => before k
  | mkFrame InRight a i sib :: k => before k ++ inorder sib ++ [entry_of a i]
  end.
Fixpoint after k : list (entry (K := K) (T := T)) :=
  match k with
  | [] => []
  | mkFrame InLeft a i sib :: k => entry_of a i :: inorder sib ++ after k
  | mkFrame InRight _ _ _ :: k => after k
  end.

Lemma inorder_split k t : inorder (plug k t) = before k ++ inorder t ++ after k.
Proof.
  revert t. induction k as [|[[] a i sib] k IH]; intros t; cbn [plug before after].
  - cbn. by rewrite app_nil_r.
  - rewrite IH. cbn. by rewrite <- !app_assoc.
  - rewrite IH. cbn. by rewrite <- !app_assoc.
Qed.

Lemma leftmost_head k t k' a i r :
  leftmost k t = Some (k', (a, i), r) -> head (inorder t) = Some (entry_of a i).
Proof.
  revert k. induction t as [|l IHl b j r' IHr]; intros k; cbn; [done|].
  destruct l as [|ll c lj lr]; [by intros [= <- <- <- <-]|].
  intros Hl%IHl. revert Hl. cbn [inorder]. destruct (inorder ll ++ _ :: inorder lr); done.
Qed.

Lemma successor_loop_eq F n w k : forall l a i r fuel,
  holds F k (Node l a i r) n w -> (length k < fuel)%nat ->
  successor_loop (E := E) fuel (Some a) (up k) w = Done (e_addr <$> head (after k)) w.
Proof.
  induction k as [|[s p ip sib] k IH]; intros l a i r fuel Hw Hfuel;
    (destruct fuel as [|fuel]; [lia|]); [done|].
  pose proof (child_ne _ _ _ _ _ _ _ _ _ _ _ _ Hw) as Hne.
  cbn [up f_addr successor_loop]. apply holds_out in Hw.
  destruct s; cbn [node_at] in Hw; (erewrite bind_done by (by eapply read_focus));
    cbn [state cell right parent].
  - by rewrite bool_decide_false.
  - rewrite bool_decide_true by done. cbn [after]. eapply IH; [done|]. cbn in Hfuel. lia.
Qed.

Lemma successor_eq F n w k l a i r :
  holds F k (Node l a i r) n w ->
  successor (E := E) (Some a) w = Done (e_addr <$> head (inorder r ++ after k)) w.
Proof.
  intros Hw. unfold successor. erewrite bind_done by (by eapply read_focus). cbn [state cell right parent].
  destruct r as [|rl b j rr].
  - rewrite bool_decide_true by done.
    change ((fuel ← walk_bound; successor_loop fuel (Some a) (up k)) w)
      with (successor_loop (E := E) (S (S (size (mem w)))) (Some a) (up k) w).
    erewrite successor_loop_eq; [done|done|]. pose proof (walk_enough _ _ _ _ _ Hw). lia.
  - rewrite bool_decide_false by done.
    assert (holds F (mkFrame InRight a i l :: k) (Node rl b j rr) n w) as Hwr by (by apply holds_into).
    destruct (minimum_eq F n w (Node rl b j rr) _ ltac:(done) Hwr) as (k' & c & ci & cr & Hlm & _ & ->).
    apply leftmost_head in Hlm. f_equal.
    destruct (inorder (Node rl b j rr)) as [|e es]; [done|]. cbn in Hlm |- *. by injection Hlm as ->.
Qed.

Lemma front_eq F n w t : holds F [] t n w ->
  front (E := E) w = Done (e_addr <$> head (inorder t)) w.
Proof.
  intros Hw. unfold front. erewrite bind_done by reflexivity. rewrite (holds_root _ _ _ _ Hw).
  destruct t as [|l a i r]; [done|]. rewrite bool_decide_false by done.
  destruct (minimum_eq F n w (Node l a i r) [] ltac:(done) Hw) as (k' & c & ci & cr & Hlm & _ & ->).
  by apply leftmost_head in Hlm as ->.
Qed.

(** ** Bounded scans *)

(** A scan over entries. *)
Fixpoint scan (limit visited : Z) (last_key : option K) (p : entry (K := K) (T := T) -> bool)
    (es : list (entry (K := K) (T := T))) : option (entry (K := K) (T := T) * Z) * option K :=
  match es with
  | [] => (None, last_key)
  | e :: es =>
      if visited <? limit then
        if p e then (Some (e, visited + 1), Some (e_key e))
        else scan limit (visited + 1) (Some (e_key e)) p es
      else (None, last_key)
  end.

(** The predicate sees what the node's accessors return. *)
Definition observes (predicate : EevdfNode K T -> bool) (p : entry (K := K) (T := T) -> bool) : Prop :=
  forall i a (q l r : ptr), predicate (cell i q l r) = p (entry_of a i).

(** The world after a strong count of the cell [a] was taken. *)
Definition retained (a : nat) w : World K T :=
  mkWorld (alter (fun nd => mkEevdfNode (value nd) (state nd) (strong nd + 1)) a (mem w)) (tree w).

Lemma after_app k1 k2 : after (k1 ++ k2) = after k1 ++ after k2.
Proof. induction k1 as [|[[] a i sib] k1 IH]; cbn; [done| |done]. by rewrite IH, app_assoc. Qed.

Lemma focus_entry t es1 e es2 :
  inorder t = es1 ++ e :: es2 ->
  exists k l i r, t = plug k (Node l (e_addr e) i r) /\ e = entry_of (e_addr e) i /\
    inorder r ++ after k = es2.
Proof.
  revert es1 es2. induction t as [|l IHl a i r IHr]; intros es1 es2 Hes; cbn in Hes.
  { by destruct es1. }
  apply app_eq_inv in Hes as [(es & Hl & Hr)|(es & -> & Hr)].
  - destruct es as [|e' es]; cbn in Hr; injection Hr as -> ->.
    + exists [], l, i, r. cbn. by rewrite app_nil_r.
    + destruct (IHl _ _ Hl) as (k & l' & i' & r' & Heq & He & Hes).
      exists (k ++ [mkFrame InLeft a i r]), l', i', r'.
      rewrite plug_app, after_app, Heq. split_and!; [done|done|]. rewrite app_assoc, <- Hes. cbn.
      by rewrite app_nil_r.
  - destruct es as [|e' es]; cbn in Hr; injection Hr as <- Hr.
    + exists [], l, i, r. cbn. by rewrite app_nil_r, Hr.
    + destruct (IHr _ _ Hr) as (k & l' & i' & r' & Heq & He & Hes).
      exists (k ++ [mkFrame InRight a i l]), l', i', r'.
      rewrite plug_app, after_app, app_nil_r, Heq. done.
Qed.

Lemma scan_loop_eq F n limit predicate p t : observes predicate p -> forall es2 es1 w fuel visited last_key,
  holds F [] t n w -> inorder t = es1 ++ es2 -> (length es2 <= fuel)%nat ->
  scan_loop (E := E) fuel limit visited last_key predicate (e_addr <$> head es2) w =
    let '(found, last_key) := scan limit visited last_key p es2 in
    match found with
    | Some (e, visited) => Done (Some (Some (e_addr e), visited), last_key) (retained (e_addr e) w)
    | None => Done (None, last_key) w
    end.
Proof.
  intros Hobs. induction es2 as [|e es2 IH]; intros es1 w fuel visited last_key Hw Hes Hfuel.
  { by destruct fuel. }
  destruct fuel as [|fuel]; [cbn in Hfuel; lia|]. cbn [head fmap option_fmap option_map scan_loop scan].
  destruct (visited <? limit) eqn:Hv; [|done].
  destruct (focus_entry t es1 e es2 Hes) as (k & l & i & r & -> & He & Hnext).
  assert (holds F k (Node l (e_addr e) i r) n w) as Hw' by (by apply holds_plug).
  pose proof Hw' as [[(Ha & _) _ _ _] _].
  assert (on_mem (E := E) (deref (Some (e_addr e))) w =
    Done (cell i (up k) (addr_of l) (addr_of r)) w) as Hderef.
  { unfold on_mem, deref, mbind, M_bind. cbn. rewrite Ha. by destruct w. }
  rewrite (bind_done _ _ _ _ _ Hderef), (Hobs i (e_addr e)), <- He.
  destruct (p e) eqn:Hp.
  - assert (on_mem (E := E) (increment_strong_count (Some (e_addr e))) w =
      Done tt (retained (e_addr e) w)) as Hinc.
    { unfold on_mem, increment_strong_count, deref, mbind, M_bind. cbn. rewrite Ha. cbn.
      unfold retained. do 2 f_equal. apply map_eq. intros b. rewrite lookup_alter.
      case_decide as Hb; [subst b; by rewrite lookup_insert_eq, Ha|by rewrite lookup_insert_ne]. }
    rewrite (bind_done _ _ _ _ _ Hinc). by rewrite He.
  - erewrite bind_done by (by eapply successor_eq). rewrite Hnext.
    replace (key (state (cell i (up k) (addr_of l) (addr_of r)))) with (e_key e) by (by rewrite He).
    eapply (IH (es1 ++ [e])); [done|by rewrite <- app_assoc|cbn in Hfuel; lia].
Qed.

End Walk.

Section Order.
Context {K : Type} `{OrdLaws K}.

Lemma cmp_refl (a : K) : cmp a a = Eq.
Proof. by apply cmp_eq. Qed.
Lemma cmp_gt_lt (a b : K) : cmp a b = Gt <-> cmp b a = Lt.
Proof. rewrite (cmp_opp a b). destruct (cmp a b); naive_solver. Qed.
Lemma cmp_le_trans (a b c : K) : cmp a b = Lt -> cmp b c <> Gt -> cmp a c = Lt.
Proof.
  intros Hab Hbc. destruct (cmp b c) eqn:E; [|by eapply cmp_trans|done].
  apply cmp_eq in E. by subst.
Qed.
End Order.

Section Search.
Context {K T : Type} `{OrdLaws K}.
Context {E : Type}.
Implicit Types (w : World K T) (t l r : shape K T) (k : list (frame K T)) (i : info K T).
Abbreviation entries := (list (entry (K := K) (T := T))).

Definition key_lt (e1 e2 : entry (K := K) (T := T)) : Prop := cmp (e_key e1) (e_key e2) = Lt.
Definition key_sorted (es : entries) : Prop := StronglySorted key_lt es.

Lemma key_sorted_app es1 es2 :
  key_sorted (es1 ++ es2) <->
  key_sorted es1 /\ key_sorted es2 /\ forall e1 e2, e1 ∈ es1 -> e2 ∈ es2 -> key_lt e1 e2.
Proof.
  unfold key_sorted. rewrite StronglySorted_app. naive_solver.
Qed.

Lemma key_sorted_cons e es :
  key_sorted (e :: es) <-> (forall e', e' ∈ es -> key_lt e e') /\ key_sorted es.
Proof.
  unfold key_sorted. rewrite StronglySorted_cons, Forall_forall. naive_solver.
Qed.

Lemma key_sorted_node l a i r :
  key_sorted (inorder (Node l a i r)) <->
  key_sorted (inorder l) /\ key_sorted (inorder r) /\
  (forall e, e ∈ inorder l -> key_lt e (entry_of a i)) /\
  (forall e, e ∈ inorder r -> key_lt (entry_of a i) e) /\
  (forall e1 e2, e1 ∈ inorder l -> e2 ∈ inorder r -> key_lt e1 e2).
Proof.
  cbn. rewrite key_sorted_app, key_sorted_cons. setoid_rewrite elem_of_cons.
  split; [naive_solver|]. intros (Hl & Hr & H1 & H2 & H3). split_and!; try done.
  intros e1 e2 He1 [->|He2]; auto.
Qed.

(** ** Insertion by key *)

Fixpoint insert_entry (e : entry (K := K) (T := T)) (es : entries) : entries :=
  match es with
  | [] => [e]
  | e' :: es' =>
      match cmp (e_key e) (e_key e') with
      | Lt => e :: es
      | _ => e' :: insert_entry e es'
      end
  end.

Lemma insert_entry_split e es1 es2 :
  (forall e', e' ∈ es1 -> key_lt e' e) -> (forall e', e' ∈ es2 -> key_lt e e') ->
  insert_entry e (es1 ++ es2) = es1 ++ e :: es2.
Proof.
  intros H1 H2. induction es1 as [|e' es1 IH]; cbn.
  - destruct es2 as [|e2 es2]; [done|]. cbn.
    assert (key_lt e e2) as He by (apply H2; left). unfold key_lt in He. by rewrite He.
  - assert (cmp (e_key e) (e_key e') = Gt) as -> by (apply cmp_gt_lt, H1; left).
    f_equal. apply IH. intros e'' ?. apply H1. by right.
Qed.

Lemma insert_entry_sorted e es :
  key_sorted es -> e_key e ∉ e_key <$> es -> key_sorted (insert_entry e es).
Proof.
  induction es as [|e' es IH]; cbn; [by repeat constructor|]. rewrite key_sorted_cons, not_elem_of_cons.
  intros [He' Hes] [Hne Hnin]. destruct (cmp (e_key e) (e_key e')) eqn:Hc.
  - by apply cmp_eq in Hc.
  - apply key_sorted_cons. split; [|by apply key_sorted_cons].
    intros e2. rewrite elem_of_cons. intros [->|Hin]; [done|]. eapply cmp_trans; [done|]. by apply He'.
  - apply key_sorted_cons. split; [|by apply IH]. intros e2 Hin.
    assert (e2 = e \/ e2 ∈ es) as [->|Hin'].
    { clear -Hin. induction es as [|e3 es IH]; cbn in Hin; [set_solver|].
      destruct (cmp _ _); set_solver. }
    + by apply cmp_gt_lt.
    + by apply He'.
Qed.

Lemma insert_entry_perm e es : insert_entry e es ≡ₚ e :: es.
Proof.
  induction es as [|e' es IH]; cbn; [done|]. destruct (cmp _ _); [|done|]; rewrite IH; apply Permutation_swap.
Qed.

(** [locate] finds the gap between the smaller and the greater keys. *)
Lemma locate_spec x t : forall k,
  key_sorted (inorder t) ->
  match locate x k t with
  | None => x ∈ e_key <$> inorder t
  | Some k' => exists es1 es2, inorder t = es1 ++ es2 /\
      before k' = before k ++ es1 /\ after k' = es2 ++ after k /\
      (forall e, e ∈ es1 -> cmp (e_key e) x = Lt) /\ (forall e, e ∈ es2 -> cmp x (e_key e) = Lt)
  end.
Proof.
  induction t as [|l IHl a i r IHr]; intros k Hs; cbn [locate].
  { exists [], []. rewrite !app_nil_r. split_and!; try done; by intros ? ?%not_elem_of_nil. }
  apply key_sorted_node in Hs as (Hl & Hr & Hla & Har & Hlr).
  destruct (cmp x (i_key i)) eqn:Hx.
  - apply cmp_eq in Hx as ->. cbn. rewrite fmap_app. cbn. set_solver.
  - specialize (IHl (mkFrame InLeft a i r :: k) Hl). destruct (locate x _ l) as [k'|].
    + destruct IHl as (es1 & es2 & Hes & Hb & Ha & H1 & H2). cbn [before after] in Hb, Ha.
      exists es1, (es2 ++ entry_of a i :: inorder r). cbn [inorder]. rewrite Hes, Hb, Ha, <- !app_assoc.
      split_and!; try done. intros e. rewrite elem_of_app, elem_of_cons.
      intros [?|[->|Hin]]; [by apply H2|done|]. eapply cmp_trans; [done|]. by apply Har.
    + cbn. rewrite fmap_app. set_solver.
  - apply cmp_gt_lt in Hx.
    specialize (IHr (mkFrame InRight a i l :: k) Hr). destruct (locate x _ r) as [k'|].
    + destruct IHr as (es1 & es2 & Hes & Hb & Ha & H1 & H2). cbn [before after] in Hb, Ha.
      exists (inorder l ++ entry_of a i :: es1), es2. cbn [inorder]. rewrite Hes, Hb, Ha, <- !app_assoc.
      split_and!; try done. intros e. rewrite elem_of_app, elem_of_cons.
      intros [Hin|[->|?]]; [|done|by apply H1]. eapply cmp_trans; [by apply Hla|done].
    + cbn. rewrite fmap_app. cbn. set_solver.
Qed.

(** The direction of the last step. *)
Definition step_dir (x : K) k : Prop :=
  match k with
  | [] => True
  | mkFrame s _ i _ :: _ => cmp x (i_key i) = match s with InLeft => Lt | InRight => Gt end
  end.

Lemma locate_dir x t : forall k k', step_dir x k -> locate x k t = Some k' -> step_dir x k'.
Proof.
  induction t as [|l IHl a i r IHr]; intros k k' Hk; cbn [locate]; [by intros [= <-]|].
  destruct (cmp x (i_key i)) eqn:Hx; [done|apply IHl|apply IHr]; done.
Qed.

Lemma locate_plug x t : forall k k', locate x k t = Some k' -> plug k' Leaf = plug k t.
Proof.
  induction t as [|l IHl a i r IHr]; intros k k'; cbn [locate]; [by intros [= <-]|].
  destruct (cmp x (i_key i)); [done|intros Hl%IHl; by rewrite Hl|intros Hr%IHr; by rewrite Hr].
Qed.

(** ** Lookup by key *)

Lemma lookup_key_spec x t a :
  key_sorted (inorder t) ->
  lookup_key x t = Some a <-> exists e, e ∈ inorder t /\ e_key e = x /\ e_addr e = a.
Proof.
  induction t as [|l IHl b i r IHr]; intros Hs; cbn [lookup_key].
  { split; [done|]. intros (e & He & _). by apply not_elem_of_nil in He. }
  apply key_sorted_node in Hs as (Hl & Hr & Hla & Har & Hlr). cbn [inorder].
  setoid_rewrite elem_of_app. setoid_rewrite elem_of_cons.
  destruct (cmp x (i_key i)) eqn:Hx.
  - apply cmp_eq in Hx as ->. split; [intros [= <-]; naive_solver|].
    intros (e & [He|[->|He]] & Hk & <-); [|done|]; exfalso.
    + apply Hla in He. unfold key_lt in He. cbn in He. by rewrite Hk, cmp_refl in He.
    + apply Har in He. unfold key_lt in He. cbn in He. by rewrite Hk, cmp_refl in He.
  - rewrite IHl by done. split; [naive_solver|].
    intros (e & [He|[->|He]] & Hk & <-); [by exists e|..]; exfalso; subst x.
    + cbn in Hx. by rewrite cmp_refl in Hx.
    + apply Har in He. unfold key_lt in He. cbn in He. rewrite (cmp_opp _ _), Hx in He. done.
  - rewrite IHr by done. split; [naive_solver|].
    intros (e & [He|[->|He]] & Hk & <-); [| |by exists e]; exfalso; subst x.
    + apply Hla in He. unfold key_lt in He. cbn in He. by rewrite Hx in He.
    + cbn in Hx. by rewrite cmp_refl in Hx.
Qed.

(** ** The first key after a given one *)

Lemma filter_all (P : entry (K := K) (T := T) -> Prop) `{!forall e, Decision (P e)} (es : entries) :
  (forall e, e ∈ es -> P e) -> filter P es = es.
Proof.
  induction es as [|e es IH]; [done|]. intros Hall. rewrite filter_cons, decide_True by (apply Hall; left).
  f_equal. apply IH. intros e' He'. apply Hall. by right.
Qed.

Definition key_after (x : K) (es : entries) : entries := filter (fun e => cmp (e_key e) x = Gt) es.

Lemma lower_bound_eq F n w x t : forall k fuel succ,
  holds F k t n w -> key_sorted (inorder t) -> (height t <= fuel)%nat ->
  lower_bound_loop (E := E) fuel x (addr_of t) succ w =
    Done (match head (key_after x (inorder t)) with Some e => Some (e_addr e) | None => succ end) w.
Proof.
  induction t as [|l IHl a i r IHr]; intros k fuel succ Hw Hs Hfuel; [by destruct fuel|].
  cbn in Hfuel. destruct fuel as [|fuel]; [lia|]. cbn [addr_of lower_bound_loop].
  apply key_sorted_node in Hs as (Hl & Hr & Hla & Har & Hlr).
  assert (holds F (mkFrame InLeft a i r :: k) l n w) as Hwl by (by apply holds_into).
  assert (holds F (mkFrame InRight a i l :: k) r n w) as Hwr by (by apply holds_into).
  erewrite bind_done by (by eapply read_focus). cbn [state cell key left right inorder].
  unfold key_after. rewrite filter_app, filter_cons. fold (key_after x (inorder l)) (key_after x (inorder r)).
  cbn [e_key entry_of].
  assert (cmp (i_key i) x <> Gt -> key_after x (inorder l) = []) as Hnil.
  { intros Hne. unfold key_after. destruct (filter _ (inorder l)) as [|e es] eqn:Hf; [done|].
    assert (e ∈ filter (fun e => cmp (e_key e) x = Gt) (inorder l)) as [Hgt Hin]%list_elem_of_filter
      by (rewrite Hf; left).
    apply Hla in Hin. apply (cmp_le_trans _ _ x) in Hin; [|done]. by rewrite Hin in Hgt. }
  destruct (cmp (i_key i) x) eqn:Hx.
  - rewrite decide_False, Hnil by done. by rewrite (IHr _ _ _ Hwr) by (done || lia).
  - rewrite decide_False, Hnil by done. by rewrite (IHr _ _ _ Hwr) by (done || lia).
  - rewrite decide_True by done. rewrite (IHl _ _ _ Hwl) by (done || lia).
    by destruct (key_after x (inorder l)).
Qed.

Lemma key_after_suffix x es :
  key_sorted es -> exists es1, es = es1 ++ key_after x es.
Proof.
  induction es as [|e es IH]; [by exists []|]. rewrite key_sorted_cons. intros [He Hs].
  unfold key_after. rewrite filter_cons. destruct (decide (cmp (e_key e) x = Gt)) as [Hgt|Hle].
  - exists []. cbn. f_equal. fold (key_after x es). symmetry. apply filter_all.
    intros e' Hin. apply He in Hin. unfold key_lt in Hin. apply cmp_gt_lt in Hgt.
    apply cmp_gt_lt. by eapply cmp_trans.
  - destruct (IH Hs) as [es1 Hes]. exists (e :: es1). cbn. by f_equal.
Qed.

End Search.
