(* ===== verification/RbInsert.v ===== *)
(** [insert] on shapes: the node is linked at the gap of its key, the cached
    minima above it are recomputed and the tree is rebalanced.

    [remove_raw] on shapes: the node is spliced out, the deficit is repaired,
    the cached minima are recomputed and the removed cell is reset. *)

From stdpp Require Import gmap sorting.
From S2P Require Import Prelude Effects EevdfTree RbShape RbFixup RbBalance RbSearch.
Local Open Scope Z_scope.

Section Wellformed.
Context {K T : Type} `{OrdLaws K}.
Implicit Types (w : World K T) (t : shape K T).

(** The invariant of a tree: balance, cached minima, key order, and an
    ownership unit for every node. *)
Record wf t : Prop := {
  wf_balanced : red_black t;
  wf_minima : mins t;
  wf_sorted : key_sorted (inorder t);
  wf_range : eligible_range t;
  wf_owned : Forall (fun e => 1 <= e_strong e) (inorder t)
}.

(** The world holds the well-formed tree [t], counted by [len], and the cells
    of [F] elsewhere. *)
Definition tree_at (F : gmap nat (EevdfNode K T)) t w : Prop :=
  holds F [] t (Z.of_nat (nodes t)) w /\ wf t.

End Wellformed.

Section Insertion.
Context {K T : Type} `{OrdLaws K}.
Abbreviation Op A := (M (World K T) EevdfInsertError A).
Implicit Types (w : World K T) (t l r : shape K T) (k : list (frame K T)) (i : info K T).

Lemma insert_loop_eq F n w raw x t : forall k fuel,
  holds F k t n w -> (height t <= fuel)%nat ->
  insert_loop fuel raw x (up k) (addr_of t) w =
    match locate x k t with
    | Some k' => Done (up k') w
    | None => Fail (mkEevdfInsertError DuplicateKey raw) w
    end.
Proof.
  induction t as [|l IHl a i r IHr]; intros k fuel Hw Hfuel; [by destruct fuel|].
  cbn in Hfuel. destruct fuel as [|fuel]; [lia|]. cbn [addr_of insert_loop].
  erewrite bind_done by (by eapply read_focus). cbn [state cell key left right locate].
  destruct (cmp x (i_key i)); [done|..].
  - apply (IHl (mkFrame InLeft a i r :: k)); [by apply holds_into|lia].
  - apply (IHr (mkFrame InRight a i l :: k)); [by apply holds_into|lia].
Qed.

(** The new node of an unlinked cell. *)
Definition new_info (nd : EevdfNode K T) : info K T :=
  mkInfo (key (state nd)) (eligible_at (state nd)) Red (eligible_at (state nd))
    (value_initialized (state nd)) (value nd) (strong nd).

(** A cell that is not linked is not in the tree. *)
Lemma unlinked_absent F k t n w raw nd :
  holds F k t n w -> mem w !! raw = Some nd -> linked (state nd) = false ->
  occ raw (addrs t ++ ctx_addrs k) = 0%nat.
Proof.
  intros Hw Hraw Hl. assert (forall p t, rep (mem w) p t -> occ raw (addrs t) = 0%nat) as Hrep.
  { clear -Hraw Hl. intros p t. revert p. induction t as [|l IHl a i r IHr]; intros p; [done|].
    intros (Ha & Hlr & Hrr). cbn. rewrite occ_app, (IHl _ Hlr), (IHr _ Hrr), hit_ne; [done|].
    intros ->. rewrite Ha in Hraw. by injection Hraw as <-. }
  destruct Hw as [[Ht Hctx _ _] _]. rewrite occ_app, (Hrep _ _ Ht). revert Hctx. clear -Hraw Hl Hrep.
  generalize (addr_of t). induction k as [|[s p ip sib] k IH]; intros h; [done|].
  cbn [ctx_rep f_side f_addr f_info f_sib]. intros (Hp & Hsib & Hk). cbn.
  rewrite occ_app, (Hrep _ _ Hsib).
  specialize (IH _ Hk). rewrite hit_ne; [lia|]. intros ->. rewrite Hp in Hraw.
  injection Hraw as <-. by destruct s.
Qed.

(** The stores that link the new node below its parent. *)
Lemma wp_link {B} F k n w raw nd (f : () -> Op B) Q R :
  holds F k Leaf n w -> mem w !! raw = Some nd -> linked (state nd) = false ->
  step_dir (key (state nd)) k ->
  (forall w', holds F k (Node Leaf raw (new_info nd) Leaf) n w' -> wp (f tt) w' Q R) ->
  wp (set (Some raw) (with_parent (up k));; set (Some raw) (with_left None);;
      set (Some raw) (with_right None);; set (Some raw) (with_color Red);;
      s ← read (Some raw);
      set (Some raw) (with_subtree_min (eligible_at s));;
      set (Some raw) (with_linked true);;
      (if bool_decide (up k = None) then set_root (Some raw)
       else
         sp ← read (up k);
         match cmp (key (state nd)) (key sp) with
         | Lt => set (up k) (with_left (Some raw))
         | _ => set (up k) (with_right (Some raw))
         end) ≫= f) w Q R.
Proof.
  intros Hw Hraw Hl Hdir Hf. pose proof (unlinked_absent _ _ _ _ _ _ _ Hw Hraw Hl) as Habs.
  destruct Hw as [[_ Hctx Hocc Hfr] Hn]. cbn [addrs app] in *.
  do 4 (eapply wp_set; [cbn [mem]; rewrite ?lookup_insert_eq; done|]).
  eapply wp_read; [cbn [mem]; rewrite lookup_insert_eq; done|].
  do 2 (eapply wp_set; [cbn [mem]; rewrite lookup_insert_eq; done|]).
  cbn [mem tree]. rewrite !insert_insert_eq.
  match goal with
  | |- wp _ (mkWorld (<[raw := ?v]> _) _) _ _ => change v with (cell (new_info nd) (up k) None None)
  end.
  destruct k as [|[s p ip sib] k]; cbn [up f_addr ctx_rep f_side f_info f_sib addr_of] in *.
  { apply wp_set_root, Hf. split; [|done]. split; cbn [rep ctx_rep up addr_of mem tree root]; try done.
    - by rewrite lookup_insert_eq.
    - intros v. count_goal. unfold hit. case_decide; lia.
    - intros b Hb. count_in Hb. rewrite lookup_insert_ne by (apply not_eq_sym, hit_zero; lia). by apply Hfr. }
  destruct Hctx as (Hp & Hsib & Hctx). rewrite bool_decide_false by done. count_in Habs.
  pose proof (Hocc p) as Hpo. count_in Hpo. rewrite hit_refl in Hpo.
  apply wp_assoc. eapply wp_read; [cbn [mem]; rewrite lookup_insert_ne by (apply hit_zero; lia); done|].
  assert (holds F (mkFrame s p ip sib :: k) (Node Leaf raw (new_info nd) Leaf) n
    (mkWorld (<[p := match s with InLeft => cell ip (up k) (Some raw) (addr_of sib)
                                | InRight => cell ip (up k) (addr_of sib) (Some raw) end]>
       (<[raw := cell (new_info nd) (Some p) None None]> (mem w))) (tree w))) as Hheld.
  { split; [|done]. split; cbn [rep ctx_rep up addr_of mem tree root f_side f_addr f_info f_sib].
    - rewrite lookup_insert_ne by (apply not_eq_sym, hit_zero; lia). by rewrite lookup_insert_eq.
    - rewrite lookup_insert_eq. split_and!; [done|by repeat (apply rep_insert; [lia|])|].
      by repeat (apply ctx_rep_insert; [lia|]).
    - intros v. specialize (Hocc v). count_in Hocc. count_goal.
      destruct (decide (v = raw)) as [->|Hne]; [rewrite hit_refl; lia|rewrite (hit_ne v raw); [lia|done]].
    - intros b Hb. count_in Hb. rewrite !lookup_insert_ne by (apply not_eq_sym, hit_zero; lia).
      apply Hfr. count_goal. lia. }
  cbn in Hdir. destruct s; cbn [cell state key] in *; rewrite Hdir;
    (eapply wp_set; [cbn [mem]; rewrite lookup_insert_ne by (apply hit_zero; lia); done|]); by apply Hf.
Qed.

Lemma insert_shape t k raw nd :
  wf t -> locate (key (state nd)) [] t = Some k -> in_u128 (eligible_at (state nd)) ->
  exists t', ins_fix (refresh_ctx (Node Leaf raw (new_info nd) Leaf) k) (Node Leaf raw (new_info nd) Leaf)
      = Some t' /\ red_black t' /\ mins t' /\
    inorder t' = insert_entry (entry_of raw (new_info nd)) (inorder t).
Proof.
  intros [[Hc [m Hm]] Hmin Hs _ _] Hloc Hr. set (x := Node Leaf raw (new_info nd) Leaf).
  pose proof (locate_plug _ _ _ _ Hloc) as Hplug. cbn in Hplug.
  rewrite <- Hplug in Hm, Hc. destruct (plug_rb_inv _ _ _ Hm Hc) as (n & Hn & Hk & _).
  assert (rb n x) as Hx by done.
  destruct (ins_fix_red_black (refresh_ctx x k) n x) as (t' & Hfix & Hrb); [by apply refresh_ctx_rb|done..|].
  exists t'. split_and!; [done|done| |].
  - apply (ins_fix_mins _ _ _ Hfix). rewrite <- refresh_up_ctx. apply refresh_up_mins.
    + apply (mins_sides k Leaf). by rewrite Hplug.
    + cbn. unfold in_u128, EMPTY_MIN in *. lia.
  - rewrite (ins_fix_inorder _ _ _ Hfix), refresh_ctx_inorder, inorder_split.
    pose proof (locate_spec (key (state nd)) t [] Hs) as Hspec. rewrite Hloc in Hspec.
    destruct Hspec as (es1 & es2 & Hes & Hb & Ha & H1 & H2). cbn in Hb, Ha. rewrite app_nil_r in Ha.
    rewrite Hb, Ha, Hes. symmetry. by apply insert_entry_split.
Qed.

Lemma wp_add_len {B E} F k t n w (f : () -> M (World K T) E B) Q R :
  holds F k t n w -> n < usize_MAX ->
  (forall w', holds F k t (n + 1) w' -> wp (f tt) w' Q R) ->
  wp (add_len ≫= f) w Q R.
Proof.
  intros [Hw Hn] Hlt Hf. unfold add_len. apply wp_assoc, wp_bind, wp_ret, wp_assoc. rewrite Hn.
  unfold checked_add_usize. rewrite (proj2 (Z.leb_le _ _)) by lia.
  apply wp_bind, wp_ret, wp_bind, wp_ret. apply Hf. by split.
Qed.

Lemma wp_insert F t w raw nd (R : EevdfInsertError -> World K T -> Prop) :
  tree_at F t w -> mem w !! raw = Some nd -> linked (state nd) = false ->
  in_u128 (eligible_at (state nd)) -> 1 <= strong nd -> Z.of_nat (nodes t) < usize_MAX ->
  key (state nd) ∉ e_key <$> inorder t ->
  wp (EevdfTree.insert raw) w (fun _ w' => exists t', tree_at F t' w' /\
    inorder t' = insert_entry (entry_of raw (new_info nd)) (inorder t)) R.
Proof.
  intros [Hw Hwf] Hraw Hl Hr Hst Hlen Hkey. set (x := Node Leaf raw (new_info nd) Leaf).
  pose proof (locate_spec (key (state nd)) t [] (wf_sorted _ Hwf)) as Hloc.
  destruct (locate (key (state nd)) [] t) as [k|] eqn:Hk; [clear Hloc|done].
  destruct (insert_shape t k raw nd Hwf Hk Hr) as (t' & Hfix & Hrb & Hmin & Hino).
  unfold EevdfTree.insert. eapply wp_read; [done|]. rewrite Hl. apply wp_root. apply wp_bind, wp_ret.
  apply wp_bind. rewrite (holds_root _ _ _ _ Hw).
  eapply wp_done; [rewrite (insert_loop_eq F _ w raw _ t []) by (try done; pose proof (holds_height _ _ _ _ _ Hw); lia);
    by rewrite Hk|].
  assert (holds F k Leaf (Z.of_nat (nodes t)) w) as Hwk.
  { rewrite holds_plug, (locate_plug _ _ _ _ Hk). done. }
  apply wp_link with (F := F) (n := Z.of_nat (nodes t)); try done.
  { by apply (locate_dir _ t [] k). }
  intros w1 Hw1. eapply wp_add_len; [done..|]. intros w2 Hw2.
  apply wp_bind. eapply wp_mono; [|by intros ?? HR; exact HR|by eapply wp_recompute_above].
  intros [] w3 Hw3. apply wp_bind. unfold insert_fixup. apply wp_bind, wp_ret.
  eapply wp_mono; [|by intros ?? HR; exact HR|eapply wp_insert_fixup_loop; [done|exact Hfix|]].
  2:{ pose proof (walk_enough _ _ _ _ _ Hw3). lia. }
  intros [] w4 Hw4. assert (raw ∈ addrs t') as Hin.
  { rewrite addrs_inorder, Hino, insert_entry_perm. left. }
  eapply wp_mono; [|by intros ?? HR; exact HR|by eapply wp_recompute_upwards].
  intros [] w5 Hw5. cbn in Hw5. rewrite refresh_id in Hw5 by done. exists t'. split; [|done].
  split.
  - rewrite <- (length_inorder t'), Hino, insert_entry_perm. cbn [length]. rewrite length_inorder.
    by replace (Z.of_nat (S (nodes t))) with (Z.of_nat (nodes t) + 1) by lia.
  - split; [done|done|..]; unfold eligible_range; rewrite Hino.
    + by apply insert_entry_sorted; [apply wf_sorted|].
    + rewrite insert_entry_perm. apply Forall_cons. split; [done|apply wf_range, Hwf].
    + rewrite insert_entry_perm. apply Forall_cons. split; [done|apply wf_owned, Hwf].
Qed.

(** A key that is already present, or a node that is already linked, is handed
    back and nothing changes. *)
Lemma insert_duplicate F t w raw nd :
  tree_at F t w -> mem w !! raw = Some nd -> linked (state nd) = false ->
  key (state nd) ∈ e_key <$> inorder t ->
  EevdfTree.insert raw w = Fail (mkEevdfInsertError DuplicateKey raw) w.
Proof.
  intros [Hw Hwf] Hraw Hl Hkey.
  pose proof (locate_spec (key (state nd)) t [] (wf_sorted _ Hwf)) as Hloc.
  destruct (locate (key (state nd)) [] t) as [k|] eqn:Hk.
  { destruct Hloc as (es1 & es2 & Hes & _ & _ & H1 & H2). exfalso.
    apply list_elem_of_fmap in Hkey as (e & He & Hin). rewrite Hes, elem_of_app in Hin.
    destruct Hin as [Hin|Hin]; [apply H1 in Hin|apply H2 in Hin]; by rewrite <- He, cmp_refl in Hin. }
  unfold EevdfTree.insert. erewrite bind_done by (by apply read_eq). rewrite Hl.
  erewrite bind_done by reflexivity. erewrite bind_done by reflexivity.
  apply bind_fail. rewrite (holds_root _ _ _ _ Hw), (insert_loop_eq F (Z.of_nat (nodes t)) w raw _ t []), Hk; try done.
  pose proof (holds_height _ _ _ _ _ Hw). lia.
Qed.

Lemma insert_linked w raw nd :
  mem w !! raw = Some nd -> linked (state nd) = true ->
  EevdfTree.insert raw w = Fail (mkEevdfInsertError AlreadyLinked raw) w.
Proof.
  intros Hraw Hl. unfold EevdfTree.insert. erewrite bind_done by (by apply read_eq). by rewrite Hl.
Qed.

End Insertion.

Section Splice.
Context {K T : Type} `{Ord K}.
Context {E : Type}.
Abbreviation Op A := (M (World K T) E A).
Implicit Types (F : gmap nat (EevdfNode K T)) (w : World K T) (t l r zl zr : shape K T) (k : list (frame K T)) (i : info K T).

(** The path to the leftmost node of a subtree. *)
Lemma leftmost_app t : forall k,
  leftmost k t = (fun '(ky, x, r) => (ky ++ k, x, r)) <$> leftmost [] t.
Proof.
  induction t as [|l IHl b j r IHr]; intros k; cbn [leftmost]; [done|].
  destruct l as [|ll c lj lr]; [done|].
  rewrite (IHl (_ :: k)), (IHl [_]). destruct (leftmost [] (Node ll c lj lr)) as [[[ky x] r']|]; [|done].
  cbn. by rewrite <- app_assoc.
Qed.

Lemma leftmost_plug t : forall k' a i r,
  leftmost [] t = Some (k', (a, i), r) -> t = plug k' (Node Leaf a i r).
Proof.
  induction t as [|l IHl b j r' IHr]; intros k' a i r; cbn [leftmost]; [done|].
  destruct l as [|ll c lj lr]; [by intros [= <- <- <- <-]|].
  rewrite leftmost_app. destruct (leftmost [] (Node ll c lj lr)) as [[[ky [y iy]] ry]|] eqn:Hl; [|done].
  intros [= <- <- <- <-]. rewrite plug_app, <- (IHl _ _ _ _ eq_refl). done.
Qed.

(** The outcome of the splice: the node that moved or disappeared, its colour,
    and the position where a black node may be missing. *)
Definition splice k zl (z : nat) (iz : info K T) zr : nat * Color * list (frame K T) * shape K T :=
  match zl, leftmost [] zr with
  | Leaf, _ => (z, i_color iz, k, zr)
  | _, None => (z, i_color iz, k, zl)
  | _, Some (ky, (y, iy), ry) =>
      (y, i_color iy, ky ++ mkFrame InRight y (paint (i_color iz) iy) zl :: k, ry)
  end.

Lemma holds_transplanted F k t w w' n :
  transplanted k t w w' -> len (tree w) = n ->
  (forall v, (occ v (addrs t ++ ctx_addrs k) <= 1)%nat) ->
  (forall b, occ b (addrs t ++ ctx_addrs k) = 0%nat -> mem w !! b = F !! b) ->
  holds F k t n w'.
Proof.
  intros (Hctx & Ht & Hm & Hl) Hn Hocc Hfr. split; [|congruence]. split; try done.
  intros b Hb. rewrite Hm by done. auto.
Qed.

(** The node [z], detached, keeps its cell. *)
Definition detached F k zl (z : nat) (iz : info K T) zr : gmap nat (EevdfNode K T) :=
  <[z := cell iz (up k) (addr_of zl) (addr_of zr)]> F.

(** A node with one child at most is replaced by that child. *)
Lemma wp_splice_child {B} F k zl z iz zr t n w (f : () -> Op B) Q R :
  holds F k (Node zl z iz zr) n w -> (zl = Leaf /\ t = zr \/ zr = Leaf /\ t = zl) ->
  (forall w', holds (detached F k zl z iz zr) k t n w' -> wp (f tt) w' Q R) ->
  wp (transplant (Some z) (addr_of t) ≫= f) w Q R.
Proof.
  intros [[(Hz & Hl & Hr) Hctx Hocc Hfr] Hn] Ht Hf. cbn [addr_of] in *.
  assert (forall v, (hit v z + (occ v (addrs t) + occ v (ctx_addrs k)) <= 1)%nat) as Hocc'.
  { intros v. count_at Hocc v. destruct Ht as [[-> ->]|[-> ->]]; cbn in *; lia. }
  eapply (wp_transplant k z _ t (Some z)); [done|done|done|by destruct Ht as [[_ ->]|[_ ->]]|done|].
  intros w' Hw'. apply Hf. eapply holds_transplanted; [done|done|..].
  - intros v. specialize (Hocc' v). rewrite occ_app. lia.
  - intros b Hb. rewrite occ_app in Hb. unfold detached. destruct (decide (b = z)) as [->|Hne].
    + by rewrite lookup_insert_eq.
    + rewrite lookup_insert_ne by done. apply Hfr. count_goal. rewrite (hit_ne b z) by done.
      destruct Ht as [[-> ->]|[-> ->]]; cbn in *; lia.
Qed.

(** The state before a node [y], already off the tree and adopting the right
    subtree [zr'], replaces [z]. *)
Record replacing (F : gmap nat (EevdfNode K T)) k zl (z : nat) (iz : info K T) zr y iy zr' (n : Z) w : Prop := {
  repl_z : mem w !! z = Some (cell iz (up k) (addr_of zl) (addr_of zr));
  repl_y : exists q, mem w !! y = Some (cell iy q None (addr_of zr'));
  repl_l : rep (mem w) (Some z) zl;
  repl_r : rep (mem w) (Some y) zr';
  repl_ctx : ctx_rep (mem w) (root (tree w)) k (Some z);
  repl_occ : forall v, (hit v z + (hit v y + (occ v (addrs zl) + (occ v (addrs zr') + occ v (ctx_addrs k)))) <= 1)%nat;
  repl_frame : forall b,
    (hit b z + (hit b y + (occ b (addrs zl) + (occ b (addrs zr') + occ b (ctx_addrs k)))))%nat = 0%nat ->
    mem w !! b = F !! b;
  repl_len : len (tree w) = n
}.

Lemma wp_replace {B} F k zl z iz zr y iy zr' n w (f : () -> Op B) Q R :
  replacing F k zl z iz zr y iy zr' n w -> zl <> Leaf ->
  (forall w', holds (detached F k zl z iz zr) k (Node zl y (paint (i_color iz) iy) zr') n w' ->
    wp (f tt) w' Q R) ->
  wp (transplant (Some z) (Some y);; set (Some y) (with_left (addr_of zl));;
      set (addr_of zl) (with_parent (Some y));; sz ← read (Some z);
      set (Some y) (with_color (color sz)) ≫= f) w Q R.
Proof.
  intros [Hz [q Hy] Hl Hr Hctx Hocc Hfr Hn] Hzl Hf.
  eapply (wp_transplant k z _ (Node Leaf y iy zr') q); [done|done|done|done| |].
  { intros v. specialize (Hocc v). count_goal. lia. }
  intros w1 (Hctx1 & (Hy1 & _ & Hr1) & Hm1 & Ht1). cbn [addr_of] in *.
  assert (mem w1 !! z = Some (cell iz (up k) (addr_of zl) (addr_of zr))) as Hz1.
  { rewrite Hm1; [done|]. specialize (Hocc z). rewrite hit_refl in Hocc. count_goal. lia. }
  assert (rep (mem w1) (Some z) zl) as Hl1.
  { eapply rep_ext; [|done]. intros b Hb. apply Hm1. specialize (Hocc b). count_goal. lia. }
  eapply wp_set; [done|].
  destruct zl as [|ll a j lr]; [done|]. destruct Hl1 as (Ha & Hll & Hlr).
  step_heap Hocc. step_heap Hocc. step_heap Hocc. apply Hf. split; [|cbn; congruence]. split.
  - cbn [rep addr_of]. split_and!; [lookup_heap Hocc|..]; try rep_heap Hocc. lookup_heap Hocc.
  - cbn [addr_of mem tree root]. rep_heap Hocc.
  - intros v. count_at Hocc v. count_goal. lia.
  - intros b Hb. count_in Hb. unfold detached. destruct (decide (b = z)) as [->|Hne].
    + rewrite lookup_insert_eq. lookup_heap Hocc.
    + rewrite (lookup_insert_ne F) by done. cbn [mem].
      rewrite !lookup_insert_ne by (apply not_eq_sym, hit_zero; lia).
      rewrite Hm1 by (count_goal; lia). apply Hfr. rewrite (hit_ne b z) by done. count_goal. lia.
Qed.

(** The successor [y] of [z] leaves its place to its child: when [y] is [z]'s
    own child, and when it is further down, below [f0 :: ky]. *)
Lemma wp_detach_near {B} F k zl z iz y iy ry n w (g : () -> Op B) Q R :
  holds F (mkFrame InRight z iz zl :: k) (Node Leaf y iy ry) n w ->
  (forall w', replacing F k zl z iz (Node Leaf y iy ry) y iy ry n w' -> wp (g tt) w' Q R) ->
  wp ((if bool_decide (addr_of ry = None) then mret tt else set (addr_of ry) (with_parent (Some y)))
      ≫= g) w Q R.
Proof.
  intros [[(Hy & _ & Hr) (Hz & Hl & Hctx) Hocc Hfr] Hn] Hg. cbn [f_side f_addr f_info f_sib] in *.
  eapply wp_adopt; [exact Hr|intros v; distinct Hocc|].
  intros w1 (Hr1 & Hm1 & Ht1). apply Hg. cbn [addr_of]. split; try rewrite Ht1.
  all: try rep_heap Hocc; try lookup_heap Hocc; try done.
  - exists (Some z). lookup_heap Hocc.
  - intros v. count_at Hocc v. lia.
  - intros b Hb. rewrite Hm1 by lia. apply Hfr. count_goal. lia.
Qed.

Lemma wp_take_right {B} F k zl z iz zr y iy q rr zr' n w (g : () -> Op B) Q R :
  mem w !! y = Some (cell iy q None rr) ->
  holds (<[y := cell iy q None rr]> F) k (Node zl z iz zr') n w ->
  (forall v, (hit v z + (hit v y + (occ v (addrs zl) + (occ v (addrs zr') + occ v (ctx_addrs k)))) <= 1)%nat) ->
  addr_of zr = addr_of zr' -> zr' <> Leaf ->
  (forall w', replacing F k zl z iz zr y iy zr' n w' -> wp (g tt) w' Q R) ->
  wp (set (Some y) (with_right (addr_of zr));; set (addr_of zr) (with_parent (Some y)) ≫= g) w Q R.
Proof.
  intros Hy [[(Hz & Hl & Hr) Hctx _ Hfr] Hn] Hocc Haddr Hne Hg. rewrite Haddr.
  destruct zr' as [|rl a j rr']; [done|]. pose proof Hr as (Ha & Hrl & Hrr).
  step_heap Hocc. step_heap Hocc. apply Hg. cbn [addr_of] in *.
  split; cbn [mem tree root len addr_of rep]; rewrite ?Haddr; cbn [addr_of]; try done.
  all: try rep_heap Hocc; try lookup_heap Hocc.
  - exists q. lookup_heap Hocc.
  - split_and!; [lookup_heap Hocc|rep_heap Hocc|rep_heap Hocc].
  - intros b Hb. count_in Hb. rewrite !lookup_insert_ne by (apply not_eq_sym, hit_zero; lia).
    rewrite Hfr by (count_goal; lia). apply lookup_insert_ne, not_eq_sym, hit_zero. lia.
Qed.

Lemma wp_detach_far {B} F k zl z iz zr f0 ky y iy ry n w (g : () -> Op B) Q R :
  holds F ((f0 :: ky) ++ mkFrame InRight z iz zl :: k) (Node Leaf y iy ry) n w ->
  zr = plug (f0 :: ky) (Node Leaf y iy ry) ->
  (forall w', replacing F k zl z iz zr y iy (plug (f0 :: ky) ry) n w' -> wp (g tt) w' Q R) ->
  wp (transplant (Some y) (addr_of ry);;
      set (Some y) (with_right (addr_of zr));;
      set (addr_of zr) (with_parent (Some y)) ≫= g) w Q R.
Proof.
  intros [[(Hy & _ & Hr) Hctx Hocc Hfr] Hn] Hzr Hg. cbn [addr_of] in *.
  set (kk := (f0 :: ky) ++ _) in *.
  assert (forall v, occ v (ctx_addrs kk) = (occ v (ctx_addrs (f0 :: ky)) + (hit v z + (occ v (addrs zl) + occ v (ctx_addrs k))))%nat) as Hkk.
  { intros v. unfold kk. rewrite ctx_addrs_app, occ_app. count_goal. lia. }
  eapply (wp_transplant kk y _ ry (Some y)); [exact Hy|done|done|exact Hr| |].
  { intros v. count_at Hocc v. lia. }
  intros w1 Htr.
  assert (holds (<[y := cell iy (up kk) None (addr_of ry)]> F) kk ry n w1) as Hw1.
  { eapply holds_transplanted; [done|done|..].
    - intros v. count_at Hocc v. count_goal. lia.
    - intros b Hb. rewrite occ_app in Hb. destruct (decide (b = y)) as [->|Hne].
      + by rewrite lookup_insert_eq.
      + rewrite lookup_insert_ne by done. apply Hfr. count_goal. rewrite (hit_ne b y) by done. lia. }
  assert (mem w1 !! y = Some (cell iy (up kk) None (addr_of ry))) as Hy1.
  { destruct Hw1 as [[_ _ _ Hfr1] _]. rewrite Hfr1; [by rewrite lookup_insert_eq|].
    count_at Hocc y. rewrite hit_refl in Hocc. count_goal. lia. }
  unfold holds, kk in Hw1. rewrite at_focus_app, at_focus_up in Hw1.
  eapply wp_take_right; [exact Hy1|exact Hw1| |subst zr; apply addr_of_plug| |exact Hg].
  - intros v. cbn [f_addr f_sib]. rewrite occ_plug. count_at Hocc v. rewrite Hkk in Hocc. lia.
  - destruct (plug_root (f0 :: ky) ry) as (b & Hb & _); [done|].
    intros Hleaf. by rewrite Hleaf in Hb.
Qed.

(** The successor of [z], moved to [z]'s place. *)
Lemma wp_splice_successor {B} F k zl z iz zr ky y iy ry n w (f : ptr * Color * ptr * ptr -> Op B) Q R :
  holds F k (Node zl z iz zr) n w -> zl <> Leaf -> leftmost [] zr = Some (ky, (y, iy), ry) ->
  (forall w', holds (detached F k zl z iz zr)
      (ky ++ mkFrame InRight y (paint (i_color iz) iy) zl :: k) ry n w' ->
    wp (f (Some y, i_color iy, addr_of ry, up (ky ++ mkFrame InRight y (paint (i_color iz) iy) zl :: k)))
      w' Q R) ->
  wp ((y ← minimum (addr_of zr);
       sy ← read y;
       let x := right sy in
       x_parent ←
         (if bool_decide (parent sy = Some z) then
            (if bool_decide (x = None) then mret tt else set x (with_parent y));;
            mret y
          else
            transplant y x;;
            set y (with_right (addr_of zr));;
            set (addr_of zr) (with_parent y);;
            mret (parent sy));
       transplant (Some z) y;;
       set y (with_left (addr_of zl));;
       set (addr_of zl) (with_parent y);;
       sz ← read (Some z);
       set y (with_color (color sz));;
       mret (y, color sy, x, x_parent)) ≫= f) w Q R.
Proof.
  intros Hw Hzl Hlm Hf. pose proof (leftmost_plug _ _ _ _ _ Hlm) as Hzr.
  assert (holds F (mkFrame InRight z iz zl :: k) zr n w) as Hwr by (by apply holds_into).
  assert (zr <> Leaf) as Hne by (intros ->; done).
  destruct (minimum_eq (E := E) F n w zr _ Hne Hwr) as (k' & a & i & r & Hlm' & _ & Hmin).
  rewrite leftmost_app, Hlm in Hlm'. injection Hlm' as <- <- <- <-.
  apply wp_bind, wp_bind. eapply wp_done; [exact Hmin|].
  assert (holds F (ky ++ mkFrame InRight z iz zl :: k) (Node Leaf y iy ry) n w) as Hwy.
  { unfold holds. rewrite at_focus_app, <- Hzr. exact Hwr. }
  eapply wp_read_focus; [exact Hwy|]. cbn [state cell right parent color].
  assert (forall x_parent w', replacing F k zl z iz zr y iy (plug ky ry) n w' ->
    x_parent = up (ky ++ mkFrame InRight y (paint (i_color iz) iy) zl :: k) ->
    wp (transplant (Some z) (Some y);; set (Some y) (with_left (addr_of zl));;
        set (addr_of zl) (with_parent (Some y));; sz ← read (Some z);
        set (Some y) (with_color (color sz));; mret (Some y, i_color iy, addr_of ry, x_parent))
      w' (fun res w'' => wp (f res) w'' Q R) R) as Hend.
  { intros x_parent w' Hrepl ->. eapply wp_replace; [done|done|]. intros w'' Hw''. apply wp_ret, Hf.
    unfold holds. rewrite at_focus_app, at_focus_up. exact Hw''. }
  destruct ky as [|f0 ky]; cbn [app up f_addr] in *.
  - rewrite bool_decide_true by done. apply wp_assoc. subst zr.
    eapply wp_detach_near; [exact Hwy|]. intros w' Hrepl. apply wp_bind, wp_ret. by apply Hend.
  - rewrite bool_decide_false; cycle 1.
    { intros [= Heq]. destruct Hwy as [[_ _ Hocc _] _]. specialize (Hocc z). count_in Hocc.
      rewrite ctx_addrs_app, Heq, occ_app in Hocc. count_in Hocc. rewrite !hit_refl in Hocc. lia. }
    apply wp_bind. eapply wp_detach_far; [exact Hwy|exact Hzr|]. intros w' Hrepl.
    apply wp_ret. by apply Hend.
Qed.

(** The first phase of [remove_raw]. *)
Lemma wp_splice {B} F k zl z iz zr n w (f : ptr * Color * ptr * ptr -> Op B) Q R :
  holds F k (Node zl z iz zr) n w ->
  (forall y c kx x w', splice k zl z iz zr = (y, c, kx, x) ->
    holds (detached F k zl z iz zr) kx x n w' -> wp (f (Some y, c, addr_of x, up kx)) w' Q R) ->
  wp ((if bool_decide (addr_of zl = None) then
         transplant (Some z) (addr_of zr);; mret (Some z, i_color iz, addr_of zr, up k)
       else if bool_decide (addr_of zr = None) then
         transplant (Some z) (addr_of zl);; mret (Some z, i_color iz, addr_of zl, up k)
       else
         y ← minimum (addr_of zr);
         sy ← read y;
         let x := right sy in
         x_parent ←
           (if bool_decide (parent sy = Some z) then
              (if bool_decide (x = None) then mret tt else set x (with_parent y));;
              mret y
            else
              transplant y x;;
              set y (with_right (addr_of zr));;
              set (addr_of zr) (with_parent y);;
              mret (parent sy));
         transplant (Some z) y;;
         set y (with_left (addr_of zl));;
         set (addr_of zl) (with_parent y);;
         sz ← read (Some z);
         set y (with_color (color sz));;
         mret (y, color sy, x, x_parent)) ≫= f) w Q R.
Proof.
  intros Hw Hf. destruct zl as [|ll b j lr].
  { rewrite bool_decide_true by done. apply wp_assoc. eapply wp_splice_child; [done|by left|].
    intros w' Hw'. apply wp_bind, wp_ret. by apply Hf. }
  rewrite bool_decide_false by done. destruct zr as [|rl c jr rr] eqn:Hzr.
  { rewrite bool_decide_true by done. apply wp_assoc. eapply wp_splice_child; [done|by right|].
    intros w' Hw'. apply wp_bind, wp_ret. by apply Hf. }
  rewrite bool_decide_false by done. rewrite <- Hzr in *.
  destruct (leftmost [] zr) as [[[ky [y iy]] ry]|] eqn:Hlm.
  - eapply wp_splice_successor; [exact Hw|done|exact Hlm|]. intros w' Hw'. apply Hf; [|done].
    unfold splice. by rewrite Hlm.
  - assert (holds F (mkFrame InRight z iz (Node ll b j lr) :: k) zr n w) as Hwr by (by apply holds_into).
    destruct (minimum_eq (E := E) F n w zr _ ltac:(by subst) Hwr) as (k' & a & i & r & Hlm' & _).
    by rewrite leftmost_app, Hlm in Hlm'.
Qed.

End Splice.
