(* ===== verification/RbRemoval.v ===== *)
(** Removal of a node: what the splice leaves behind is repaired, and
    [remove_raw] removes exactly its node from the entries of the tree.

    [Drop] of the tree: the walk along the parent links visits every node once
    on the way down and once after each of its subtrees, resets its links and
    gives its ownership unit back, children before parents. *)

From stdpp Require Import gmap sorting.
From stdpp Require Import gmap.
From S2P Require Import Prelude Effects EevdfTree RbShape RbFixup RbBalance RbSearch RbInsert.
Local Open Scope Z_scope.

Section Spliced.
Context {K T : Type} `{Ord K}.
Implicit Types (t l r x zl zr : shape K T) (k : list (frame K T)) (i : info K T).

(** The position of a splice, by cases. *)
Lemma splice_cases k zl z iz zr y c kx x :
  splice k zl z iz zr = (y, c, kx, x) ->
  (y = z /\ c = i_color iz /\ kx = k /\ (zl = Leaf /\ x = zr \/ zr = Leaf /\ x = zl)) \/
  exists ky iy, zl <> Leaf /\ leftmost [] zr = Some (ky, (y, iy), x) /\ c = i_color iy /\
    kx = ky ++ mkFrame InRight y (paint (i_color iz) iy) zl :: k.
Proof.
  unfold splice. destruct zl as [|ll b j lr]; [intros [= <- <- <- <-]; left; split_and!; auto|].
  destruct (leftmost [] zr) as [[[ky [y' iy]] ry]|] eqn:Hl.
  - intros [= <- <- <- <-]. right. eauto 10.
  - intros [= <- <- <- <-]. left. split_and!; try done. right. split; [|done].
    destruct zr as [|rl b' j' rr]; [done|]. exfalso. revert Hl. clear. generalize (@nil (frame K T)).
    revert b' j' rr. induction rl as [|rll IH c cj rlr _]; intros b' j' rr k; [done|]. apply IH.
Qed.

Lemma leftmost_before t : forall ky y iy ry,
  leftmost [] t = Some (ky, (y, iy), ry) -> before ky = [].
Proof.
  induction t as [|l IHl b j r IHr]; intros ky y iy ry; cbn [leftmost]; [done|].
  destruct l as [|ll c lj lr]; [by intros [= <- <- <- <-]|]. rewrite leftmost_app.
  destruct (leftmost [] (Node ll c lj lr)) as [[[ky' [y' iy']] ry']|] eqn:Hl; [|done].
  intros [= <- <- <- <-]. specialize (IHl _ _ _ _ eq_refl). clear -IHl.
  induction ky' as [|[[] a i sib] ky IH]; cbn in *; [done|by apply IH|].
  destruct (before ky); [|done]. by destruct (inorder sib).
Qed.

(** The removed entry is the only one that disappears. *)
Lemma splice_inorder k zl z iz zr y c kx x :
  splice k zl z iz zr = (y, c, kx, x) ->
  inorder (plug kx x) = before k ++ (inorder zl ++ inorder zr) ++ after k.
Proof.
  intros [(-> & -> & -> & Hx)|(ky & iy & Hzl & Hlm & -> & ->)]%splice_cases.
  - rewrite inorder_split. destruct Hx as [[-> ->]|[-> ->]]; cbn; [done|]. by rewrite app_nil_r.
  - rewrite plug_app, inorder_split. cbn [plug fill node_at f_side f_addr f_info f_sib before after inorder].
    pose proof (leftmost_plug _ _ _ _ _ Hlm) as Hzr. pose proof (leftmost_before _ _ _ _ _ Hlm) as Hb.
    rewrite inorder_split, Hb, Hzr, inorder_split, Hb. cbn. do 3 (rewrite <- ?app_assoc; cbn [app]). done.
Qed.

Lemma rb_deficient n x : rb n x -> deficient n x.
Proof. intros Hx. unfold deficient. destruct (color_of x) eqn:Hc; [by apply rb_blackened|done]. Qed.

Lemma ctx_rb_recolor n k1 s a i a' i' sib k2 :
  i_color i = i_color i' ->
  ctx_rb n (k1 ++ mkFrame s a i sib :: k2) -> ctx_rb n (k1 ++ mkFrame s a' i' sib :: k2).
Proof.
  intros Hi. revert n. induction k1 as [|f k1 IH]; intros n; cbn; [by rewrite Hi|].
  intros [Hf Hk]. split; [done|]. destruct (i_color (f_info f)); [|by apply IH].
  destruct Hk as (Hs & Hup & Hk). split_and!; [done| |by apply IH].
  destruct k1; cbn in *; [by rewrite <- Hi|done].
Qed.

(** A node with one child at most leaves a deficit exactly when it is black. *)
Lemma unlink_rb n k y iy l r x :
  rb n (Node l y iy r) -> ctx_rb n k -> (l = Leaf /\ x = r \/ r = Leaf /\ x = l) ->
  match i_color iy with
  | Black => exists m, ctx_rb (S m) k /\ deficient m x
  | Red => red_black (plug k x)
  end.
Proof.
  intros Hn Hk Hx. cbn in Hn. destruct (i_color iy).
  - destruct Hn as (Hl & Hr & Hnl & Hnr).
    destruct Hx as [[-> ->]|[-> ->]]; (apply (plug_red_black n); [done..|]); congruence.
  - destruct n as [|m]; [done|]. exists m. split; [done|].
    apply rb_deficient. destruct Hx as [[_ ->]|[_ ->]]; apply Hn.
Qed.

Lemma splice_rb k zl z iz zr y c kx x :
  red_black (plug k (Node zl z iz zr)) -> splice k zl z iz zr = (y, c, kx, x) ->
  match c with
  | Black => exists n, ctx_rb (S n) kx /\ deficient n x
  | Red => red_black (plug kx x)
  end.
Proof.
  intros [Hc [m Hm]] [(-> & -> & -> & Hx)|(ky & iy & Hzl & Hlm & -> & ->)]%splice_cases.
  - destruct (plug_rb_inv _ _ _ Hm Hc) as (n & Hn & Hk & _). by eapply unlink_rb.
  - pose proof (leftmost_plug _ _ _ _ _ Hlm) as Hzr.
    assert (plug k (Node zl z iz zr) = plug (ky ++ mkFrame InRight z iz zl :: k) (Node Leaf y iy x)) as Heq.
    { rewrite plug_app, <- Hzr. done. }
    rewrite Heq in Hm, Hc. destruct (plug_rb_inv _ _ _ Hm Hc) as (n & Hn & Hk & _).
    eapply unlink_rb; [done| |by left]. by eapply ctx_rb_recolor, Hk.
Qed.

Lemma splice_mins k zl z iz zr y c kx x :
  mins (plug k (Node zl z iz zr)) -> splice k zl z iz zr = (y, c, kx, x) ->
  sides_min kx /\ mins x.
Proof.
  intros Hm. pose proof (mins_sides _ _ Hm) as Hk. pose proof (mins_focus _ _ Hm) as (_ & Hl & Hr).
  intros [(-> & -> & -> & Hx)|(ky & iy & Hzl & Hlm & -> & ->)]%splice_cases.
  - split; [done|]. by destruct Hx as [[_ ->]|[_ ->]].
  - rewrite (leftmost_plug _ _ _ _ _ Hlm) in Hr. split.
    + apply Forall_app. split; [by eapply mins_sides|]. by apply Forall_cons.
    + by apply mins_focus in Hr as (_ & _ & ?).
Qed.

(** The tree after the deficit is repaired, before the minima are. *)
Lemma splice_repaired k zl z iz zr y c kx x :
  red_black (plug k (Node zl z iz zr)) -> mins (plug k (Node zl z iz zr)) ->
  splice k zl z iz zr = (y, c, kx, x) ->
  exists t, (if decide (c = Black) then del_fix kx x = Some t else t = plug kx x) /\
    red_black t /\ inorder t = inorder (plug kx x) /\
    match up kx with Some a => stale_from a t | None => mins t end.
Proof.
  intros Hrb Hm Hs. pose proof (splice_rb _ _ _ _ _ _ _ _ _ Hrb Hs) as Hc.
  destruct (splice_mins _ _ _ _ _ _ _ _ _ Hm Hs) as [Hsides Hx].
  assert (forall a, up kx = Some a -> stale_focus a kx x) as Hst by (intros a Ha; split; auto).
  destruct c.
  - exists (plug kx x). rewrite decide_False by done. split_and!; try done.
    destruct (up kx) as [a|] eqn:Hup; [by apply stale_focus_stop, Hst|]. by destruct kx.
  - destruct Hc as (n & Hk & Hd). destruct (del_fix_red_black kx n x Hk Hd) as (t & Hfix & Ht).
    exists t. rewrite decide_True by done. split_and!; [done|done|by apply del_fix_inorder|].
    destruct (up kx) as [a|] eqn:Hup; [by eapply del_fix_stale; [apply Hst|]|].
    destruct kx; [|done]. injection Hfix as <-. by apply mins_painted.
Qed.

End Spliced.

Section Removal.
Context {K T : Type} `{OrdLaws K}.
Context {E : Type}.
Abbreviation Op A := (M (World K T) E A).
Implicit Types (F : gmap nat (EevdfNode K T)) (w : World K T) (t l r x zl zr : shape K T).
Implicit Types (k : list (frame K T)) (i : info K T).

(** ** Cells outside the tree *)

Lemma holds_frame_set F k t n w b nd s :
  holds F k t n w -> b ∉ addrs t ++ ctx_addrs k -> F !! b = Some nd ->
  holds (<[b := put_state nd s]> F) k t n (mkWorld (<[b := put_state nd s]> (mem w)) (tree w)).
Proof.
  intros [[Ht Hctx Hocc Hfr] Hn] Hb HF. apply occ_zero in Hb. pose proof Hb as Hb'. rewrite occ_app in Hb'.
  split; [|done]. split; cbn [mem tree]; [apply rep_insert; [lia|done]|apply ctx_rep_insert; [lia|done]|done|].
  intros c Hc. destruct (decide (c = b)) as [->|Hne]; [by rewrite !lookup_insert_eq|].
  rewrite !lookup_insert_ne by done. by apply Hfr.
Qed.

Lemma wp_frame_set {B} F k t n w b nd g (f : () -> Op B) Q R :
  holds F k t n w -> b ∉ addrs t ++ ctx_addrs k -> F !! b = Some nd ->
  (forall w', holds (<[b := put_state nd (g (state nd))]> F) k t n w' -> wp (f tt) w' Q R) ->
  wp (set (Some b) g ≫= f) w Q R.
Proof.
  intros Hw Hb HF Hf. eapply wp_set.
  - destruct Hw as [[_ _ _ Hfr] _]. rewrite Hfr by (by apply occ_zero). done.
  - apply Hf. by apply holds_frame_set.
Qed.

Lemma wp_frame_read {B} F k t n w b nd (f : NodeState K -> Op B) Q R :
  holds F k t n w -> b ∉ addrs t ++ ctx_addrs k -> F !! b = Some nd ->
  wp (f (state nd)) w Q R -> wp (read (Some b) ≫= f) w Q R.
Proof.
  intros [[_ _ _ Hfr] _] Hb HF Hf. eapply wp_read; [|done]. by rewrite Hfr by (by apply occ_zero).
Qed.

(** ** Recomputations after the repair *)

(** A possibly null pointer into the tree. *)
Definition points_into (p : ptr) t : Prop := match p with None => True | Some a => a ∈ addrs t end.
Definition refresh_from (p : ptr) t : shape K T := match p with None => t | Some a => refresh a t end.

Lemma wp_recompute_from {B} F t p n w (f : () -> Op B) Q R :
  holds F [] t n w -> points_into p t ->
  (forall w', holds F [] (refresh_from p t) n w' -> wp (f tt) w' Q R) ->
  wp (recompute_upwards p ≫= f) w Q R.
Proof.
  intros Hw Hp Hf. destruct p as [a|]; [|by apply Hf]. apply wp_bind.
  eapply wp_mono; [|by intros ?? HR; exact HR|by eapply wp_recompute_upwards]. intros []. apply Hf.
Qed.

Lemma refresh_from_id p t : mins t -> refresh_from p t = t.
Proof. intros. destruct p; cbn; [by rewrite refresh_id|done]. Qed.
Lemma addrs_refresh a t : addrs (refresh a t) ≡ₚ addrs t.
Proof. by rewrite !addrs_inorder, inorder_refresh. Qed.
Lemma addrs_refresh_from p t : addrs (refresh_from p t) ≡ₚ addrs t.
Proof. destruct p; [apply addrs_refresh|done]. Qed.
Lemma points_into_perm p t t' : addrs t ≡ₚ addrs t' -> points_into p t -> points_into p t'.
Proof. intros Hp. destruct p; cbn; [by rewrite Hp|done]. Qed.

(** The minimum cached at a node of the tree is readable. *)
Lemma min_of_into F t n w p : holds F [] t n w -> points_into p t ->
  exists m, min_of (E := E) p w = Done m w.
Proof.
  intros Hw Hp. destruct p as [a|]; [|by eexists]. destruct (focus_on a t Hp) as (k & l & i & r & ->).
  rewrite <- holds_plug in Hw. exists (i_min i). cbn [min_of].
  by erewrite bind_done by (by eapply read_focus).
Qed.

(** [recompute_upwards] from the detached node: its own cell, then its former
    parent's path. *)
Lemma wp_recompute_detached {B} F t n w z (iz : info K T) (p l r : ptr) (f : () -> Op B) Q R :
  holds (<[z := cell iz p l r]> F) [] t n w -> z ∉ addrs t ->
  points_into p t -> points_into l t -> points_into r t ->
  (forall m w', holds (<[z := cell (cache m iz) p l r]> F) [] (refresh_from p t) n w' -> wp (f tt) w' Q R) ->
  wp (recompute_upwards (Some z) ≫= f) w Q R.
Proof.
  intros Hw Hz Hp Hl Hr Hf. unfold recompute_upwards. apply wp_assoc, wp_bind, wp_ret.
  remember (S (size (mem w))) as fuel eqn:Hfuel. cbn [recompute_upwards_loop]. apply wp_assoc.
  assert (z ∉ addrs t ++ ctx_addrs ([] : list (frame K T))) as Hz' by (by rewrite app_nil_r).
  apply wp_bind. cbn [recompute]. eapply wp_frame_read; [exact Hw|done|apply lookup_insert_eq|].
  cbn [state cell left right eligible_at].
  destruct (min_of_into _ _ _ _ _ Hw Hl) as [ml Hml]. destruct (min_of_into _ _ _ _ _ Hw Hr) as [mr Hmr].
  apply wp_bind. eapply wp_done; [exact Hml|]. apply wp_bind. eapply wp_done; [exact Hmr|].
  pose proof (holds_frame_set _ _ _ _ _ z _ (with_subtree_min (Z.min (Z.min (i_eligible iz) ml) mr)
    (state (cell iz p l r))) Hw Hz' (lookup_insert_eq _ _ _)) as Hw1.
  eapply wp_set_last.
  { destruct Hw as [[_ _ _ Hfr] _]. rewrite Hfr by (by apply occ_zero). apply lookup_insert_eq. }
  rewrite insert_insert_eq in Hw1. apply wp_bind.
  eapply wp_frame_read; [exact Hw1|done|apply lookup_insert_eq|]. cbn [state cell put_state with_subtree_min parent].
  destruct p as [a|]; [|by destruct fuel; apply wp_ret, (Hf _ _ Hw1)].
  destruct (focus_on a t Hp) as (k & tl & i & tr & ->). rewrite <- holds_plug in Hw, Hw1.
  eapply wp_mono; [| |eapply wp_recompute_loop; [exact Hw1|]]; [|by intros|].
  - intros [] w2 Hw2. eapply Hf. cbn [refresh_from]. rewrite refresh_plug.
    + cbn [refresh]. rewrite decide_True by done. exact Hw2.
    + cbn. set_solver.
    + apply occ_zero. destruct Hw as [[_ _ Hocc _] _]. specialize (Hocc a). cbn in Hocc.
      rewrite hit_refl, occ_app in Hocc. lia.
  - subst fuel. pose proof (walk_enough _ _ _ _ _ Hw). lia.
Qed.

(** The final stores at the root, and those that reset the removed cell. *)
Lemma wp_settle_root {B} F t n w (f : () -> Op B) Q R :
  holds F [] t n w -> red_black t ->
  (forall w', holds F [] t n w' -> wp (f tt) w' Q R) ->
  wp (r ← get_root;
      (if bool_decide (r = None) then mret tt
       else set r (with_parent None);; set r (with_color Black)) ≫= f) w Q R.
Proof.
  intros Hw Hrb Hf. apply wp_root. rewrite (holds_root _ _ _ _ Hw).
  destruct t as [|l a i r]; [by apply Hf|]. cbn [addr_of]. rewrite bool_decide_false by done.
  apply wp_assoc. destruct Hw as [Hw Hn]. pose proof (focus_lookup _ _ _ _ _ _ _ _ Hw) as Ha.
  eapply wp_set; [exact Ha|]. eapply wp_set; [apply lookup_insert_eq|]. apply Hf. split; [|done].
  cbn [mem tree]. rewrite insert_insert_eq. cbn [up] in *.
  replace (Node l a i r) with (Node l a (paint Black i) r) by (apply red_black_painted in Hrb; exact Hrb).
  by apply at_focus_update with (i := i).
Qed.

(** A removed cell. *)
Definition unlinked i : EevdfNode K T :=
  mkEevdfNode (i_value i)
    (mkNodeState (i_key i) (i_eligible i) None None None Black (i_eligible i) false (i_initialized i))
    (i_strong i).

Lemma wp_reset F t n w z iz (p l r : ptr) (R : E -> World K T -> Prop) :
  holds (<[z := cell iz p l r]> F) [] t n w -> z ∉ addrs t ->
  wp (set (Some z) (with_parent None);; set (Some z) (with_left None);;
      set (Some z) (with_right None);; set (Some z) (with_color Black);;
      sz ← read (Some z);
      set (Some z) (with_subtree_min (eligible_at sz));;
      set (Some z) (with_linked false);; mret (Some z)) w
    (fun p w' => p = Some z /\ holds (<[z := unlinked iz]> F) [] t n w') R.
Proof.
  intros Hw Hz. assert (z ∉ addrs t ++ ctx_addrs ([] : list (frame K T))) as Hz' by (by rewrite app_nil_r).
  do 4 (eapply wp_frame_set; [eassumption|done|apply lookup_insert_eq|];
        intros ? ?Hw'; rewrite insert_insert_eq in Hw'; clear Hw; rename Hw' into Hw).
  eapply wp_frame_read; [eassumption|done|apply lookup_insert_eq|].
  do 2 (eapply wp_frame_set; [eassumption|done|apply lookup_insert_eq|];
        intros ? ?Hw'; rewrite insert_insert_eq in Hw'; clear Hw; rename Hw' into Hw).
  apply wp_ret. split; [done|]. exact Hw.
Qed.

Lemma wp_sub_len {B} F k t n w (f : () -> Op B) Q R :
  holds F k t n w -> 1 <= n ->
  (forall w', holds F k t (n - 1) w' -> wp (f tt) w' Q R) ->
  wp (sub_len ≫= f) w Q R.
Proof.
  intros [Hw Hn] Hlt Hf. unfold sub_len. apply wp_assoc, wp_bind, wp_ret, wp_assoc. rewrite Hn.
  unfold checked_sub_usize. rewrite (proj2 (Z.leb_le _ _)) by lia.
  apply wp_bind, wp_ret, wp_bind, wp_ret. apply Hf. by split.
Qed.

Lemma points_into_focus k x : points_into (addr_of x) (plug k x).
Proof.
  destruct x as [|l a i r]; [done|]. cbn. destruct (decide (a ∈ addrs (plug k (Node l a i r)))) as [|Hn]; [done|].
  apply occ_zero in Hn. rewrite occ_plug in Hn. cbn in Hn. rewrite hit_refl in Hn. lia.
Qed.
Lemma points_into_up k x : points_into (up k) (plug k x).
Proof.
  destruct k as [|f k]; [done|]. cbn [up points_into].
  destruct (decide (f_addr f ∈ addrs (plug (f :: k) x))) as [|Hn]; [done|].
  apply occ_zero in Hn. rewrite occ_plug in Hn. cbn in Hn. rewrite hit_refl in Hn. lia.
Qed.

(** The repaired tree, once both walks of [recompute_upwards] are done. *)
Lemma repaired_minima (kx : list (frame K T)) x t :
  NoDup (addrs t) -> match up kx with Some a => stale_from a t | None => mins t end ->
  mins (refresh_from (up kx) (refresh_from (addr_of x) t)).
Proof.
  intros Hnd Hst.
  assert (NoDup (addrs (refresh_from (addr_of x) t))) as Hnd' by (by rewrite addrs_refresh_from).
  destruct (up kx) as [a|]; cbn [refresh_from].
  - apply refresh_mins; [done|]. destruct (addr_of x); [by apply refresh_stale|done].
  - destruct (addr_of x); [cbn; by rewrite refresh_id|done].
Qed.

Lemma holds_nodup F t n w : holds F [] t n w -> NoDup (addrs t).
Proof. intros [[_ _ Hocc _] _]. cbn in Hocc. rewrite app_nil_r in Hocc. by apply NoDup_occ. Qed.

(** What follows the last walk. *)
Definition finish_remove (z : ptr) : Op ptr :=
  r ← get_root;
  (if bool_decide (r = None) then mret tt
   else set r (with_parent None);; set r (with_color Black));;
  set z (with_parent None);; set z (with_left None);;
  set z (with_right None);; set z (with_color Black);;
  sz ← read z;
  set z (with_subtree_min (eligible_at sz));;
  set z (with_linked false);; mret z.

(** The outcome of a removal: the cell of [z] is reset, and the tree has lost
    nothing else. *)
Definition removed F t (z : nat) (iz : info K T) (n : Z) (p : ptr) w : Prop :=
  p = Some z /\ exists t', holds (<[z := unlinked iz]> F) [] t' n w /\
    red_black t' /\ mins t' /\ inorder t' = inorder t.

Lemma wp_finish_remove F t n w z iz iz' (p l r : ptr) (R : E -> World K T -> Prop) :
  holds (<[z := cell iz' p l r]> F) [] t n w -> z ∉ addrs t -> red_black t -> mins t ->
  unlinked iz' = unlinked iz ->
  wp (finish_remove (Some z)) w (removed F t z iz n) R.
Proof.
  intros Hw Hz Hrb Hm Hun. eapply wp_settle_root; [exact Hw|done|]. intros w1 Hw1.
  eapply wp_mono; [| |by eapply wp_reset]; [|by intros]. intros p' w2 [-> Hw2]. split; [done|].
  exists t. rewrite <- Hun. by split_and!.
Qed.

(** The walks after the repair, from the child, the parent and the node that
    moved. *)
Lemma wp_remove_tail F k zl z iz zr y c (kx : list (frame K T)) x t n w (R : E -> World K T -> Prop) :
  splice k zl z iz zr = (y, c, kx, x) ->
  holds (detached F k zl z iz zr) [] t n w -> z ∉ addrs t ->
  red_black t -> addrs t ≡ₚ addrs (plug kx x) ->
  match up kx with Some a => stale_from a t | None => mins t end ->
  wp (recompute_upwards (addr_of x);; recompute_upwards (up kx);;
      (if bool_decide (Some y = None) then mret tt else recompute_upwards (Some y));;
      finish_remove (Some z)) w (removed F t z iz n) R.
Proof.
  intros Hs Hw Hz Hrb Haddrs Hst. pose proof (holds_nodup _ _ _ _ Hw) as Hnd.
  eapply wp_recompute_from; [exact Hw| |]; clear Hw.
  { eapply points_into_perm, points_into_focus. by rewrite Haddrs. }
  intros w1 Hw1. eapply wp_recompute_from; [exact Hw1| |]; clear Hw1.
  { eapply points_into_perm, points_into_up. rewrite addrs_refresh_from. by rewrite <- Haddrs. }
  intros w2 Hw2. rewrite bool_decide_false by done.
  pose proof (repaired_minima kx x t Hnd Hst) as Hmin.
  set (t2 := refresh_from (up kx) _) in *.
  assert (addrs t2 ≡ₚ addrs t) as Ht2 by (unfold t2; by rewrite !addrs_refresh_from).
  assert (red_black t2) as Hrb2.
  { unfold t2. destruct (up kx), (addr_of x); cbn; auto using red_black_refresh. }
  assert (removed F t2 z iz n = removed F t z iz n) as <-.
  { unfold removed, t2. destruct (up kx), (addr_of x); cbn; by rewrite ?inorder_refresh. }
  assert (z ∉ addrs t2) as Hz2 by (by rewrite Ht2).
  pose proof Hs as [(-> & -> & -> & Hx)|(ky & iy & Hzl & Hlm & -> & ->)]%splice_cases.
  - eapply wp_recompute_detached; [exact Hw2|done|..].
    1: eapply points_into_perm, points_into_up; by rewrite Ht2, Haddrs.
    1-2: destruct Hx as [[-> ->]|[-> ->]]; try done;
      (eapply points_into_perm, points_into_focus; by rewrite Ht2, Haddrs).
    intros m w3 Hw3. rewrite refresh_from_id in Hw3 by done.
    by eapply wp_finish_remove.
  - eapply wp_recompute_from; [exact Hw2| |].
    { cbn. rewrite Ht2, Haddrs, plug_app. apply (points_into_up (mkFrame InRight y _ zl :: k)). }
    intros w3 Hw3. rewrite refresh_from_id in Hw3 by done. by eapply wp_finish_remove.
Qed.

Lemma remove_raw_unfold z :
  remove_raw (E := E) (T := T) z =
  (sz ← read z;
   '(y, y_color, x, x_parent) ←
     (if bool_decide (left sz = None) then
        transplant z (right sz);; mret (z, color sz, right sz, parent sz)
      else if bool_decide (right sz = None) then
        transplant z (left sz);; mret (z, color sz, left sz, parent sz)
      else
        y ← minimum (right sz);
        sy ← read y;
        let x := right sy in
        x_parent ←
          (if bool_decide (parent sy = z) then
             (if bool_decide (x = None) then mret tt else set x (with_parent y));;
             mret y
           else
             transplant y x;;
             set y (with_right (right sz));;
             set (right sz) (with_parent y);;
             mret (parent sy));
        transplant z y;;
        set y (with_left (left sz));;
        set (left sz) (with_parent y);;
        sz ← read z;
        set y (with_color (color sz));;
        mret (y, color sy, x, x_parent));
   sub_len;;
   (if bool_decide (y_color = Black) then delete_fixup x x_parent else mret tt);;
   recompute_upwards x;; recompute_upwards x_parent;;
   (if bool_decide (y = None) then mret tt else recompute_upwards y);;
   finish_remove z).
Proof. done. Qed.

(** A well-formed tree without one of its entries. *)
Lemma wf_without t t' es1 e es2 :
  wf t -> inorder t = es1 ++ e :: es2 -> inorder t' = es1 ++ es2 -> red_black t' -> mins t' ->
  wf t' /\ nodes t = S (nodes t').
Proof.
  intros [_ _ Hs Hr Ho] Ht Ht' Hrb Hm.
  assert (inorder t ≡ₚ e :: inorder t') as Hperm by (by rewrite Ht, Ht', Permutation_middle).
  split; [|by rewrite <- !length_inorder, Hperm]. split; try done; unfold eligible_range in *.
  - rewrite Ht in Hs. rewrite Ht'. clear -Hs H0. rewrite !key_sorted_app, key_sorted_cons in Hs.
    rewrite key_sorted_app. setoid_rewrite elem_of_cons in Hs. naive_solver.
  - rewrite Hperm in Hr. by apply Forall_cons in Hr as [_ ?].
  - rewrite Hperm in Ho. by apply Forall_cons in Ho as [_ ?].
Qed.

Lemma removed_absent k zl z (iz : info K T) zr :
  NoDup (addrs (plug k (Node zl z iz zr))) ->
  z ∉ e_addr <$> (before k ++ inorder zl) ++ inorder zr ++ after k.
Proof.
  rewrite addrs_inorder, inorder_split. cbn [inorder]. rewrite <- app_assoc, app_assoc, fmap_app. cbn.
  rewrite <- Permutation_middle, NoDup_cons. intros [Hz _]. by rewrite fmap_app.
Qed.

Lemma wp_remove_raw F k zl z iz zr w (R : E -> World K T -> Prop) :
  tree_at F (plug k (Node zl z iz zr)) w ->
  wp (remove_raw (Some z)) w (fun p w' => p = Some z /\
    exists t', tree_at (<[z := unlinked iz]> F) t' w' /\
      inorder t' = (before k ++ inorder zl) ++ inorder zr ++ after k) R.
Proof.
  intros [Hw Hwf]. pose proof Hwf as [Hrb Hm _ _ _]. pose proof (holds_nodup _ _ _ _ Hw) as Hnd.
  set (n := Z.of_nat _) in Hw. rewrite <- holds_plug in Hw.
  rewrite remove_raw_unfold. eapply wp_read_focus; [exact Hw|]. cbn [state cell left right color parent].
  eapply wp_splice; [exact Hw|]. intros y c kx x w1 Hsp Hw1.
  destruct (splice_repaired k zl z iz zr y c kx x Hrb Hm Hsp) as (t & Hfix & Htrb & Hino & Hst).
  assert (addrs t ≡ₚ addrs (plug kx x)) as Haddrs by (by rewrite !addrs_inorder, Hino).
  rewrite (splice_inorder _ _ _ _ _ _ _ _ _ Hsp), <- app_assoc, app_assoc in Hino.
  assert (inorder (plug k (Node zl z iz zr)) = (before k ++ inorder zl) ++ entry_of z iz :: inorder zr ++ after k)
    as Hwhole by (rewrite inorder_split; cbn [inorder]; by rewrite <- !app_assoc).
  eapply wp_sub_len; [exact Hw1| |].
  { subst n. rewrite <- length_inorder, Hwhole, length_app. cbn [length]. lia. }
  intros w2 Hw2. apply wp_bind.
  eapply (wp_mono _ _ (fun _ w' => holds (detached F k zl z iz zr) [] t (n - 1) w')); [|by intros|].
  2:{ destruct (decide (c = Black)) as [->|Hc].
      - rewrite bool_decide_true by done. unfold delete_fixup. apply wp_bind, wp_ret.
        eapply wp_delete_fixup_loop; [exact Hw2|exact Hfix|by eapply walk_enough].
      - rewrite bool_decide_false by done. apply wp_ret. subst t. by rewrite <- holds_plug. }
  intros [] w3 Hw3. eapply wp_mono; [| |eapply wp_remove_tail; [done|done| |done..]]; [|by intros|].
  2:{ rewrite addrs_inorder, Hino. by apply (removed_absent k zl z iz zr). }
  intros p w4 (-> & t' & Hw4 & Hrb' & Hm' & Hino'). split; [done|]. exists t'.
  rewrite Hino in Hino'. split; [|done].
  destruct (wf_without _ _ _ _ _ Hwf Hwhole Hino' Hrb' Hm') as [Hwf' Hn]. split; [|done].
  replace (Z.of_nat (nodes t')) with (n - 1) by (subst n; lia). done.
Qed.

End Removal.

Section Drop.
Context {K T E : Type} `{OrdLaws K}.
Abbreviation Op A := (M (World K T) E A).
Abbreviation Memory := (gmap nat (EevdfNode K T)).
Implicit Types (w : World K T) (t l r : shape K T) (i : info K T) (m : Memory).

(** What is left of a node's cell: nothing when the tree was its last owner. *)
Definition released i : option (EevdfNode K T) :=
  if i_strong i =? 1 then None
  else Some (mkEevdfNode (i_value i)
    (mkNodeState (i_key i) (i_eligible i) None None None (i_color i) (i_eligible i) false (i_initialized i))
    (i_strong i - 1)).

Fixpoint release_all t m : Memory :=
  match t with
  | Leaf => m
  | Node l a i r => partial_alter (fun _ => released i) a (release_all r (release_all l m))
  end.

Lemma release_all_ne t m b : b ∉ addrs t -> release_all t m !! b = m !! b.
Proof.
  revert m. induction t as [|l IHl a i r IHr]; intros m; [done|]. cbn [addrs release_all].
  rewrite not_elem_of_cons, not_elem_of_app. intros (Hba & Hbl & Hbr).
  rewrite lookup_partial_alter_ne by done. by rewrite IHr, IHl.
Qed.

Lemma rep_release_all m p t t' : addrs t ## addrs t' -> rep m p t -> rep (release_all t' m) p t.
Proof.
  intros Hd. apply rep_ext. intros b Hb. apply release_all_ne. intros Hb'.
  apply (Hd b); [|done]. destruct (decide (b ∈ addrs t)) as [|Hn]; [done|]. apply occ_zero in Hn. lia.
Qed.

Lemma release_all_at t m a i : NoDup (addrs t) -> entry_of a i ∈ inorder t ->
  exists i', entry_of a i' = entry_of a i /\ release_all t m !! a = released i'.
Proof.
  revert m. induction t as [|l IHl b j r IHr]; intros m; cbn [addrs inorder release_all].
  { by intros _ ?%not_elem_of_nil. }
  rewrite NoDup_cons, NoDup_app, not_elem_of_app. intros ((Hbl & Hbr) & Hndl & Hlr & Hndr).
  assert (forall t', entry_of a i ∈ inorder t' -> a ∈ addrs t') as Hin.
  { intros t' Ht'. rewrite addrs_inorder, list_elem_of_fmap. by exists (entry_of a i). }
  rewrite elem_of_app, elem_of_cons. intros [Hl|[Heq|Hr]].
  - pose proof (Hin _ Hl). rewrite lookup_partial_alter_ne by congruence.
    rewrite release_all_ne by auto. by apply IHl.
  - assert (a = b) as -> by (by injection Heq). exists j. by rewrite lookup_partial_alter_eq.
  - pose proof (Hin _ Hr). rewrite lookup_partial_alter_ne by congruence. by apply IHr.
Qed.

(** The child that a visit goes on to. *)
Definition next_of (previous : ptr) (link : NodeState K) : ptr :=
  if bool_decide (previous = parent link) then
    if bool_decide (left link <> None) then left link
    else if bool_decide (right link <> None) then right link else None
  else if bool_decide (previous = left link) then
    if bool_decide (right link <> None) then right link else None
  else None.

(** The world after the walk leaves a subtree below [p]. *)
Definition without (p : ptr) t w : World K T :=
  mkWorld (release_all t (mem w))
    (mkEevdfTree (if bool_decide (p = None) then None else root (tree w))
       (len (tree w) - Z.of_nat (nodes t))).

Lemma drop_loop_descend fuel a previous w n b :
  mem w !! a = Some n -> next_of previous (state n) = Some b ->
  drop_loop (E := E) (S fuel) (Some a) previous w = drop_loop fuel (Some b) (Some a) w.
Proof.
  intros Ha Hb. cbn [drop_loop]. erewrite bind_done by (by apply read_eq).
  fold (next_of previous (state n)). rewrite Hb. by rewrite bool_decide_true by done.
Qed.

Lemma drop_loop_release fuel a previous w i (p pl pr : ptr) :
  mem w !! a = Some (cell i p pl pr) -> next_of previous (state (cell i p pl pr)) = None ->
  1 <= len (tree w) ->
  drop_loop (E := E) (S fuel) (Some a) previous w =
    drop_loop fuel p (Some a)
      (mkWorld (partial_alter (fun _ => released i) a (mem w))
         (mkEevdfTree (if bool_decide (p = None) then None else root (tree w)) (len (tree w) - 1))).
Proof.
  intros Ha Hb Hlen. cbn [drop_loop]. erewrite bind_done by (by apply read_eq).
  fold (next_of previous (state (cell i p pl pr))). rewrite Hb. rewrite bool_decide_false by (by intros []).
  cbn [cell state parent].
  erewrite bind_done with (s' := mkWorld (mem w) (mkEevdfTree (if bool_decide (p = None) then None else root (tree w)) (len (tree w))));
    [|by case_bool_decide; destruct w as [? []]].
  erewrite bind_done by (by apply RbShape.set_eq).
  do 3 (erewrite bind_done by (apply RbShape.set_eq; cbn [mem]; apply lookup_insert_eq)).
  erewrite bind_done by (apply read_eq; cbn [mem]; apply lookup_insert_eq).
  erewrite bind_done by (apply RbShape.set_eq; cbn [mem]; apply lookup_insert_eq).
  cbn [mem tree]. rewrite !insert_insert_eq.
  erewrite bind_done.
  2:{ unfold sub_len, gets, mbind, M_bind. cbn [len tree]. unfold checked_sub_usize.
      rewrite (proj2 (Z.leb_le _ _)) by done. reflexivity. }
  erewrite bind_done; [reflexivity|].
  unfold on_mem, drop_arc, deref, gets, expect, mbind, M_bind, id. cbn. rewrite lookup_insert_eq. cbn.
  unfold released. destruct (i_strong i =? 1); cbn; f_equal; f_equal.
  - by rewrite delete_insert_eq.
  - rewrite insert_insert_eq. done.
Qed.

(** The number of visits. *)
Fixpoint visits t : nat :=
  match t with
  | Leaf => 0
  | Node l _ _ r => (1 + (match l with Leaf => 0 | _ => S (visits l) end)
                       + (match r with Leaf => 0 | _ => S (visits r) end))%nat
  end.

Lemma visits_nodes t : t <> Leaf -> (S (visits t) = 2 * nodes t)%nat.
Proof.
  unfold nodes. induction t as [|l IHl a i r IHr]; [done|]. intros _. cbn [visits addrs length].
  rewrite length_app. destruct l, r; cbn [addrs length] in *;
    repeat match goal with IH : ?t <> Leaf -> _ |- _ => specialize (IH ltac:(done)) end; cbn [length] in *; lia.
Qed.

Lemma addr_of_in t b : addr_of t = Some b -> b ∈ addrs t.
Proof. destruct t as [|l a i r]; [done|]. intros [= <-]. left. Qed.

Lemma without_leaf a w : without (Some a) Leaf w = w.
Proof. destruct w as [m [rt n]]. unfold without. cbn. by rewrite Z.sub_0_r. Qed.

(** The walk entered the subtree [t] from [p] and came back. *)
Definition walked t : Prop := forall p w fuel,
  rep (mem w) p t -> NoDup (addrs t) -> (forall b, p = Some b -> b ∉ addrs t) ->
  t <> Leaf -> Z.of_nat (nodes t) <= len (tree w) ->
  drop_loop (E := E) (visits t + fuel) (addr_of t) p w = drop_loop fuel p (addr_of t) (without p t w).

(** The visit of a child, when there is one: [previous] is where the walk was
    last, and the node's link sends it to the child. *)
Definition child_visits t : nat := match t with Leaf => 0 | _ => S (visits t) end.
Definition last_of (previous : ptr) t : ptr := match t with Leaf => previous | _ => addr_of t end.

Lemma drop_child t a n previous w fuel :
  walked t -> mem w !! a = Some n -> (t <> Leaf -> next_of previous (state n) = addr_of t) ->
  rep (mem w) (Some a) t -> NoDup (addrs t) -> a ∉ addrs t -> Z.of_nat (nodes t) <= len (tree w) ->
  drop_loop (E := E) (child_visits t + fuel) (Some a) previous w =
    drop_loop fuel (Some a) (last_of previous t) (without (Some a) t w).
Proof.
  intros Ht Ha Hnext Hrep Hnd Hat Hlen. destruct t as [|l b i r]; [by rewrite without_leaf|].
  cbn [child_visits Nat.add]. erewrite drop_loop_descend; [|done|by apply Hnext].
  change (Some b) with (addr_of (Node l b i r)). rewrite Ht; try done. by intros c [= <-].
Qed.

Lemma drop_subtree t : walked t.
Proof.
  induction t as [|l IHl a i r IHr]; intros p w fuel Hrep Hnd Hp Hne Hlen; [done|].
  destruct Hrep as (Ha & Hl & Hr). cbn [addrs] in Hnd, Hp.
  apply NoDup_cons in Hnd as [Hna Hnd]. rewrite not_elem_of_app in Hna. destruct Hna as [Hal Har].
  apply NoDup_app in Hnd as (Hndl & Hlr & Hndr).
  assert (forall t b, addrs t ⊆ addrs l ++ addrs r -> addr_of t = Some b -> Some b <> p) as Hpt.
  { intros t b Hsub Hb <-. apply (Hp b); [done|]. right. by apply Hsub, addr_of_in. }
  unfold nodes in Hlen. cbn [addrs length] in Hlen. rewrite length_app in Hlen.
  replace (visits (Node l a i r) + fuel)%nat with (child_visits l + (child_visits r + S fuel))%nat
    by (cbn; unfold child_visits; destruct l, r; lia).
  set (w1 := without (Some a) l w). set (w2 := without (Some a) r w1).
  assert (mem w1 !! a = mem w !! a) as Hw1 by (by apply release_all_ne).
  assert (mem w2 !! a = mem w !! a) as Hw2 by (rewrite <- Hw1; by apply release_all_ne).
  cbn [addr_of]. erewrite drop_child; [|done|exact Ha| |done..|unfold nodes; lia].
  2:{ intros Hl'. unfold next_of. cbn [cell state parent left]. rewrite bool_decide_true by done.
      destruct l; [done|]. by rewrite bool_decide_true. }
  fold w1. erewrite drop_child; [|done|by rewrite Hw1| | |done..|cbn; unfold nodes; lia].
  2:{ intros Hr'. unfold next_of. cbn [cell state parent left right].
      destruct l as [|ll b j lr]; [cbn; by rewrite (bool_decide_true (p = p)), bool_decide_true by (by destruct r)|].
      cbn [last_of addr_of]. rewrite (bool_decide_false (Some b = p)) by (by eapply (Hpt (Node ll b j lr)); [set_solver|]).
      rewrite bool_decide_true by done. by rewrite bool_decide_true by (by destruct r). }
  2:{ apply rep_release_all; [|done]. intros b ??. by apply (Hlr b). }
  fold w2. erewrite drop_loop_release; [|by rewrite Hw2| |cbn; unfold nodes; lia].
  2:{ unfold next_of. cbn [cell state parent left right]. destruct r as [|rl c j rr]; cbn [last_of addr_of].
      - destruct l as [|ll b j lr]; cbn [last_of addr_of]; [by rewrite (bool_decide_true (p = p))|].
        by rewrite (bool_decide_false (Some b = p)) by (by eapply (Hpt (Node ll b j lr)); [set_solver|]); case_bool_decide.
      - rewrite (bool_decide_false (Some c = p)) by (by eapply (Hpt (Node rl c j rr)); [set_solver|]).
        rewrite bool_decide_false; [done|]. intros Hc%eq_sym%addr_of_in. apply (Hlr c); [done|left]. }
  f_equal. unfold w2, w1, without. cbn [mem tree root len addr_of release_all]. f_equal. f_equal.
  unfold nodes. cbn [addrs length]. rewrite length_app. lia.
Qed.

(** [Drop] walks the whole tree within its bound. *)
Lemma drop_eq F t w : tree_at F t w ->
  EevdfTree.drop (E := E) w = Done tt (mkWorld (release_all t (mem w)) new).
Proof.
  intros [Hw _]. pose proof (holds_nodup _ _ _ _ Hw) as Hnd. pose proof (holds_root _ _ _ _ Hw) as Hroot.
  destruct Hw as [Hw Hlen]. pose proof (at_focus_size _ _ _ _ _ Hw) as Hsize. cbn in Hsize. rewrite app_nil_r in Hsize.
  unfold EevdfTree.drop. erewrite bind_done by reflexivity. erewrite bind_done by reflexivity.
  rewrite Hroot. destruct t as [|l a i r].
  { cbn in Hroot, Hlen. destruct w as [m [rt n]]. cbn in *. subst. by destruct (_ + _)%nat. }
  assert (exists fuel, (2 * size (mem w) = visits (Node l a i r) + fuel)%nat) as [fuel ->].
  { exists (2 * size (mem w) - visits (Node l a i r))%nat.
    pose proof (visits_nodes (Node l a i r) ltac:(done)). unfold nodes in *. lia. }
  rewrite drop_subtree; [|apply Hw|done..|by rewrite Hlen].
  unfold without. rewrite bool_decide_true, Hlen, Z.sub_diag by done. by destruct fuel.
Qed.

End Drop.
