(* ===== verification/EevdfTreeRefinement.v ===== *)
(** What the EEVDF tree promises: a list of entries in strict key order, and
    the nodes outside it.

    [TreeSpec] is the abstract state and [spec_step] one call on it; [None] is
    a call that breaks its caller's obligation (a released address, a payload
    moved out twice). [exec] is the same call on the intrusive tree.

    The intrusive tree implements the sorted list: every call that keeps its
    caller's obligations returns, replies as the abstract state does, and
    leaves a memory that the new abstract state describes.

    The simulation of each call by the abstract tree, and of whole
    sequences of calls. *)

From stdpp Require Import gmap.
From stdpp Require Import gmap sorting.
From S2P Require Import Prelude Effects EevdfTree RbShape RbFixup RbBalance RbSearch RbInsert RbRemoval.
Local Open Scope Z_scope.

Section Spec.
Context {K T : Type} `{OrdLaws K}.
Abbreviation Entry := (entry (K := K) (T := T)).
Abbreviation Cell := (EevdfNode K T).

(** A predicate of a bounded search sees the key, the eligible time and the
    payload of a node. *)
Definition Predicate : Type := K -> Z -> option T -> bool.
Definition see (pr : Predicate) (n : Cell) : bool :=
  pr (key (state n)) (eligible_at (state n)) (value n).
Definition see_entry (pr : Predicate) (e : Entry) : bool := pr (e_key e) (e_eligible e) (e_value e).

(** A call of the tree or of a node. *)
Inductive Call :=
| NewUnlinked (a : nat) (k : K) (e : Z) (v : T)
| StageUnlinked (a : nat) (k : K) (e : Z)
| TakeValue (a : nat)
| PutValue (a : nat) (v : T)
| DropArc (a : nat)
| Insert (a : nat)
| Remove (a : nat)
| PopEarliestEligible (now : Z)
| PeekEarliestEligible (now : Z)
| Front
| MinEligibleAt
| Len
| FindBounded (limit : Z) (pr : Predicate)
| FindBoundedAfter (after : option K) (limit : Z) (pr : Predicate).

Inductive Reply :=
| RUnit
| RValue (v : T)
| RNode (p : ptr)
| RRejected (e : EevdfTreeError) (a : option nat)
| RTime (t : option Z)
| RLen (n : Z)
| RFound (f : option (ptr * Z))
| RWindow (f : option (ptr * Z)) (last_key : option K).

(** ** The calls on the intrusive tree *)

Abbreviation Run A := (M (World K T) Empty_set A).

(** The error of a call is part of the reply. *)
Definition catch {E A} (m : M (World K T) E A) (ok : A -> Reply) (err : E -> Reply) : Run Reply := fun w =>
  match m w with
  | Done a w => Done (ok a) w
  | Fail e w => Done (err e) w
  | Panic => Panic
  | Diverged => Diverged
  end.

Definition exec (c : Call) : Run Reply :=
  match c with
  | NewUnlinked a k e v =>
      modify (fun w => mkWorld (<[a := new_unlinked k e v]> (mem w)) (tree w));; mret RUnit
  | StageUnlinked a k e => on_mem (stage_unlinked (Some a) k e);; mret RUnit
  | TakeValue a => v ← on_mem (take_value (Some a)); mret (RValue v)
  | PutValue a v => on_mem (put_value (Some a) v);; mret RUnit
  | DropArc a => on_mem (drop_arc (Some a));; mret RUnit
  | Insert a => catch (EevdfTree.insert a) (fun _ => RUnit) (fun e => RRejected (kind e) (Some (node e)))
  | Remove a => catch (EevdfTree.remove a) RNode (fun e => RRejected e None)
  | PopEarliestEligible now => p ← pop_earliest_eligible now; mret (RNode p)
  | PeekEarliestEligible now => p ← peek_earliest_eligible now; mret (RNode p)
  | Front => p ← front; mret (RNode p)
  | MinEligibleAt => t ← min_eligible_at; mret (RTime t)
  | Len => gets (fun w => RLen (len (tree w)))
  | FindBounded limit pr => f ← find_bounded limit (see pr); mret (RFound f)
  | FindBoundedAfter after limit pr =>
      '(f, last_key) ← find_bounded_after after limit (see pr); mret (RWindow f last_key)
  end.

Fixpoint exec_all (cs : list Call) : Run (list Reply) :=
  match cs with
  | [] => mret []
  | c :: cs => r ← exec c; rs ← exec_all cs; mret (r :: rs)
  end.

(** ** The calls on the abstract state *)

Record TreeSpec := mkTreeSpec { members : list Entry; outside : gmap nat Cell }.

(** The node of an entry, once it has left the tree. *)
Definition unlinked_entry (e : Entry) : Cell :=
  mkEevdfNode (e_value e)
    (mkNodeState (e_key e) (e_eligible e) None None None Black (e_eligible e) false (e_initialized e))
    (e_strong e).

Definition member (a : nat) (s : TreeSpec) : option Entry :=
  head (filter (fun e => e_addr e = a) (members s)).
Definition leave (e : Entry) (s : TreeSpec) : TreeSpec :=
  mkTreeSpec (filter (fun e' => e_addr e' <> e_addr e) (members s))
    (<[e_addr e := unlinked_entry e]> (outside s)).

(** A change of the payload or of the strong count of a member. *)
Definition retouch (a : nat) (g : Entry -> Entry) (s : TreeSpec) : TreeSpec :=
  mkTreeSpec (map (fun e => if decide (e_addr e = a) then g e else e) (members s)) (outside s).
Definition set_payload (v : option T) (e : Entry) : Entry :=
  mkEntry (e_addr e) (e_key e) (e_eligible e) (bool_decide (is_Some v)) v (e_strong e).
Definition add_strong (d : Z) (e : Entry) : Entry :=
  mkEntry (e_addr e) (e_key e) (e_eligible e) (e_initialized e) (e_value e) (e_strong e + d).
Definition outside_payload (v : option T) (n : Cell) : Cell :=
  mkEevdfNode v (with_value_initialized (bool_decide (is_Some v)) (state n)) (strong n).

Definition put_outside (a : nat) (n : Cell) (s : TreeSpec) : TreeSpec :=
  mkTreeSpec (members s) (<[a := n]> (outside s)).

Definition found_in (s : TreeSpec) (f : option (Entry * Z)) : TreeSpec :=
  match f with Some (e, _) => retouch (e_addr e) (add_strong 1) s | None => s end.
Definition found_ptr (f : option (Entry * Z)) : option (ptr * Z) :=
  match f with Some (e, visited) => Some (Some (e_addr e), visited) | None => None end.

Definition spec_step (c : Call) (s : TreeSpec) : option (Reply * TreeSpec) :=
  match c with
  | NewUnlinked a k e v =>
      if decide (outside s !! a = None /\ member a s = None /\ in_u128 e)
      then Some (RUnit, put_outside a (new_unlinked k e v) s) else None
  | StageUnlinked a k e =>
      n ← outside s !! a;
      if decide (linked (state n) = false /\ in_u128 e)
      then Some (RUnit, put_outside a (mkEevdfNode (value n) (with_schedule k e e (state n)) (strong n)) s)
      else None
  | TakeValue a =>
      match member a s, outside s !! a with
      | Some e, _ =>
          if e_initialized e then v ← e_value e; Some (RValue v, retouch a (set_payload None) s) else None
      | None, Some n =>
          if value_initialized (state n)
          then v ← value n; Some (RValue v, put_outside a (outside_payload None n) s) else None
      | None, None => None
      end
  | PutValue a v =>
      match member a s, outside s !! a with
      | Some e, _ => if e_initialized e then None else Some (RUnit, retouch a (set_payload (Some v)) s)
      | None, Some n =>
          if value_initialized (state n) then None
          else Some (RUnit, put_outside a (outside_payload (Some v) n) s)
      | None, None => None
      end
  | DropArc a =>
      match member a s, outside s !! a with
      | Some e, _ => if decide (2 <= e_strong e) then Some (RUnit, retouch a (add_strong (-1)) s) else None
      | None, Some n =>
          Some (RUnit, if strong n =? 1 then mkTreeSpec (members s) (delete a (outside s))
                       else put_outside a (mkEevdfNode (value n) (state n) (strong n - 1)) s)
      | None, None => None
      end
  | Insert a =>
      match member a s, outside s !! a with
      | Some _, _ => Some (RRejected AlreadyLinked (Some a), s)
      | None, Some n =>
          if linked (state n) then Some (RRejected AlreadyLinked (Some a), s)
          else if existsb (fun e => match cmp (e_key e) (key (state n)) with Eq => true | _ => false end) (members s)
          then Some (RRejected DuplicateKey (Some a), s)
          else if decide (Z.of_nat (length (members s)) < usize_MAX)
          then Some (RUnit, mkTreeSpec (insert_entry (entry_of a (new_info n)) (members s)) (delete a (outside s)))
          else None
      | None, None => None
      end
  | Remove a =>
      match member a s, outside s !! a with
      | Some e, _ => Some (RNode (Some a), leave e s)
      | None, Some _ => Some (RRejected ForeignNode None, s)
      | None, None => None
      end
  | PopEarliestEligible now =>
      match first_eligible now (members s) with
      | Some e => Some (RNode (Some (e_addr e)), leave e s)
      | None => Some (RNode None, s)
      end
  | PeekEarliestEligible now => Some (RNode (e_addr <$> first_eligible now (members s)), s)
  | Front => Some (RNode (e_addr <$> head (members s)), s)
  | MinEligibleAt =>
      Some (RTime (match members s with [] => None | _ => Some (least (members s)) end), s)
  | Len => Some (RLen (Z.of_nat (length (members s))), s)
  | FindBounded limit pr =>
      let f := fst (scan limit 0 None (see_entry pr) (members s)) in
      Some (RFound (found_ptr f), found_in s f)
  | FindBoundedAfter after limit pr =>
      let from := match after with Some x => key_after x (members s) | None => members s end in
      let '(f, last_key) := scan limit 0 None (see_entry pr) from in
      Some (RWindow (found_ptr f) last_key, found_in s f)
  end.

Fixpoint spec_run (cs : list Call) (s : TreeSpec) : option (list Reply * TreeSpec) :=
  match cs with
  | [] => Some ([], s)
  | c :: cs =>
      '(r, s) ← spec_step c s; '(rs, s) ← spec_run cs s; Some (r :: rs, s)
  end.

(** The abstraction relation. *)
Record abstracts (s : TreeSpec) (w : World K T) : Prop := {
  abs_tree : exists t, tree_at (mem w) t w /\ inorder t = members s;
  abs_outside : forall a, a ∉ e_addr <$> members s -> mem w !! a = outside s !! a;
  abs_disjoint : forall a, a ∈ e_addr <$> members s -> outside s !! a = None;
  abs_cells : map_Forall (fun _ n => in_u128 (eligible_at (state n)) /\ 1 <= strong n) (outside s)
}.

End Spec.
Arguments TreeSpec K T : clear implicits.
Arguments Call K T : clear implicits.
Arguments Reply K T : clear implicits.

Section Refinement.
Context {K T : Type} `{OrdLaws K}.
Implicit Types (w : World K T) (t l r : shape K T) (i : info K T) (s : TreeSpec K T).
Abbreviation Entry := (entry (K := K) (T := T)).

(** ** Members *)

Lemma member_some a s e : member a s = Some e -> e ∈ members s /\ e_addr e = a.
Proof.
  unfold member. intros Hh. destruct (filter _ (members s)) as [|e' es] eqn:Hf; [done|].
  injection Hh as ->. assert (e ∈ filter (fun e => e_addr e = a) (members s)) as He by (rewrite Hf; left).
  by apply list_elem_of_filter in He as [? ?].
Qed.

Lemma member_none a s : member a s = None -> a ∉ e_addr <$> members s.
Proof.
  unfold member. intros Hh (e & -> & He)%list_elem_of_fmap.
  destruct (filter _ (members s)) as [|e' es] eqn:Hf; [|done].
  assert (e ∈ filter (fun e' => e_addr e' = e_addr e) (members s)) as Hin by (by apply list_elem_of_filter).
  rewrite Hf in Hin. by apply not_elem_of_nil in Hin.
Qed.

Lemma member_split s es1 e es2 :
  members s = es1 ++ e :: es2 -> NoDup (e_addr <$> members s) ->
  member (e_addr e) s = Some e /\ members (leave e s) = es1 ++ es2.
Proof.
  intros Hs Hnd. assert (forall P `{!forall e : Entry, Decision (P e)} (es : list Entry),
    (forall e', e' ∈ es -> ~ P e') -> filter P es = []) as Hnone.
  { intros P ? es Hes. induction es as [|e' es IH]; [done|]. rewrite filter_cons, decide_False by (apply Hes; left).
    apply IH. intros e'' ?. apply Hes. by right. }
  rewrite Hs, fmap_app, fmap_cons in Hnd.
  apply NoDup_app in Hnd as (_ & H1 & [H2 _]%NoDup_cons).
  assert (forall e', e' ∈ es1 -> e_addr e' <> e_addr e) as Hne1.
  { intros e' He' Heq. apply (H1 (e_addr e')); [by apply list_elem_of_fmap; eauto|rewrite Heq; left]. }
  assert (forall e', e' ∈ es2 -> e_addr e' <> e_addr e) as Hne2.
  { intros e' He' Heq. apply H2, list_elem_of_fmap. by exists e'. }
  unfold member, leave. cbn [members]. rewrite Hs, !filter_app, !filter_cons, decide_True, decide_False by (auto; naive_solver).
  rewrite (Hnone (fun e' => e_addr e' = e_addr e) _ es1) by done. split; [done|]. by rewrite !filter_all.
Qed.

(** ** The abstraction relation *)

Lemma tree_at_self F t w : tree_at F t w -> tree_at (mem w) t w.
Proof. by intros [[[Ht Hctx Hocc _] Hn] Hwf]. Qed.

Lemma tree_nodup F t w : tree_at F t w -> NoDup (e_addr <$> inorder t).
Proof. intros [Hw _]. rewrite <- addrs_inorder. by eapply holds_nodup. Qed.

(** A store to a node outside the tree. *)
Lemma abstracts_outside s w a n :
  abstracts s w -> member a s = None -> in_u128 (eligible_at (state n)) -> 1 <= strong n ->
  abstracts (put_outside a n s) (mkWorld (<[a := n]> (mem w)) (tree w)).
Proof.
  intros [(t & Ht & Hino) Hout Hdis Hcells] Ha%member_none Hr Hst.
  assert (occ a (addrs t) = 0%nat) as Hoa by (by rewrite occ_zero, addrs_inorder, Hino). split; cbn.
  - exists t. split; [|done]. destruct Ht as [[[Ht Hctx Hocc _] Hn] Hwf].
    split; [|done]. split; [|done]. split; cbn [mem tree] in *; auto using rep_insert.
  - intros b Hb. destruct (decide (a = b)) as [->|]; [by rewrite !lookup_insert_eq|].
    rewrite !lookup_insert_ne by done. auto.
  - intros b Hb. destruct (decide (a = b)) as [->|]; [done|]. rewrite lookup_insert_ne by done. auto.
  - by apply map_Forall_insert_2.
Qed.

Lemma abstracts_release s w a :
  abstracts s w -> member a s = None ->
  abstracts (mkTreeSpec (members s) (delete a (outside s))) (mkWorld (delete a (mem w)) (tree w)).
Proof.
  intros [(t & Ht & Hino) Hout Hdis Hcells] Ha%member_none. split; cbn.
  - exists t. split; [|done]. destruct Ht as [[[Ht Hctx Hocc _] Hn] Hwf].
    split; [|done]. split; [|done]. split; cbn [mem tree] in *; auto.
    eapply rep_ext; [|done]. intros b Hb. rewrite lookup_delete_ne; [done|]. intros ->.
    rewrite <- Hino, <- addrs_inorder, <- occ_zero in Ha. lia.
  - intros b Hb. destruct (decide (a = b)) as [->|]; [by rewrite !lookup_delete_eq|].
    rewrite !lookup_delete_ne by done. auto.
  - intros b Hb. apply lookup_delete_None. right. auto.
  - by apply map_Forall_delete.
Qed.

(** ** Changes of a payload or of a strong count *)

Fixpoint touch (a : nat) (f : info K T -> info K T) t : shape K T :=
  match t with
  | Leaf => Leaf
  | Node l b i r => Node (touch a f l) b (if decide (b = a) then f i else i) (touch a f r)
  end.

(** What a change leaves alone. *)
Definition keeps (f : info K T -> info K T) : Prop := forall i,
  i_key (f i) = i_key i /\ i_eligible (f i) = i_eligible i /\ i_color (f i) = i_color i /\ i_min (f i) = i_min i.

Section Touch.
Variables (a : nat) (f : info K T -> info K T).
Hypothesis Hf : keeps f.

Lemma addr_of_touch t : addr_of (touch a f t) = addr_of t.
Proof. by destruct t. Qed.
Lemma addrs_touch t : addrs (touch a f t) = addrs t.
Proof. induction t as [|l IHl b i r IHr]; cbn; [done|]. by rewrite IHl, IHr. Qed.
Lemma color_of_touch t : color_of (touch a f t) = color_of t.
Proof. destruct t as [|l b i r]; cbn; [done|]. case_decide; [apply Hf|done]. Qed.
Lemma cached_touch t : cached (touch a f t) = cached t.
Proof. destruct t as [|l b i r]; cbn; [done|]. case_decide; [apply Hf|done]. Qed.

Lemma rb_touch n t : rb n t -> rb n (touch a f t).
Proof.
  revert n. induction t as [|l IHl b i r IHr]; intros n; cbn; [done|].
  rewrite !color_of_touch. assert (i_color (if decide (b = a) then f i else i) = i_color i) as ->
    by (destruct (decide (b = a)); [apply Hf|done]). destruct (i_color i); [naive_solver|]. destruct n; naive_solver.
Qed.
Lemma mins_touch t : mins t -> mins (touch a f t).
Proof.
  induction t as [|l IHl b i r IHr]; cbn; [done|]. rewrite !cached_touch. case_decide; [|naive_solver].
  destruct (Hf i) as (_ & -> & _ & ->). naive_solver.
Qed.
Lemma rep_touch (g : EevdfNode K T -> EevdfNode K T) m (p : ptr) t :
  (forall i (p l r : ptr), g (cell i p l r) = cell (f i) p l r) ->
  rep m p t -> rep (alter g a m) p (touch a f t).
Proof.
  intros Hg. revert p. induction t as [|l IHl b i r IHr]; intros p; cbn; [done|].
  intros (Hb & Hl & Hr). rewrite !addr_of_touch. split_and!; [|auto..].
  destruct (decide (b = a)) as [->|]; [by rewrite lookup_alter_eq, Hb; cbn; rewrite Hg|].
  by rewrite lookup_alter_ne.
Qed.

Definition touch_entry (h : Entry -> Entry) (e : Entry) : Entry := if decide (e_addr e = a) then h e else e.
Lemma inorder_touch h t : (forall i, h (entry_of a i) = entry_of a (f i)) ->
  inorder (touch a f t) = map (touch_entry h) (inorder t).
Proof.
  intros Hh. induction t as [|l IHl b i r IHr]; cbn; [done|]. rewrite map_app, IHl, IHr. cbn. do 2 f_equal.
  unfold touch_entry. cbn [e_addr entry_of]. case_decide; [by subst|done].
Qed.

End Touch.

Lemma member_unique s w e e' :
  abstracts s w -> e ∈ members s -> e' ∈ members s -> e_addr e = e_addr e' -> e = e'.
Proof.
  intros [(t & Ht & Hino) _ _ _] He He' Heq. apply tree_nodup in Ht. rewrite Hino in Ht.
  apply list_elem_of_split in He as (es1 & es2 & Hes).
  destruct (member_split s es1 e es2 Hes Ht) as [Hm _]. rewrite Heq in Hm.
  apply list_elem_of_split in He' as (es1' & es2' & Hes').
  destruct (member_split s es1' e' es2' Hes' Ht) as [Hm' _]. congruence.
Qed.

Lemma key_sorted_map (h : Entry -> Entry) (es : list Entry) :
  (forall e, e_key (h e) = e_key e) -> key_sorted es -> key_sorted (map h es).
Proof.
  intros Hh. induction es as [|e es IH]; [done|]. cbn [map]. rewrite !key_sorted_cons. intros [He Hes].
  split; [|auto]. intros e' (e'' & -> & Hin)%list_elem_of_fmap. unfold key_lt. rewrite !Hh. by apply He.
Qed.

Lemma alter_at (m : gmap nat (EevdfNode K T)) a g nd : m !! a = Some nd -> alter g a m = <[a := g nd]> m.
Proof.
  intros Hnd. apply map_eq. intros b. destruct (decide (a = b)) as [<-|Hne].
  - by rewrite lookup_alter_eq, lookup_insert_eq, Hnd.
  - by rewrite lookup_alter_ne, lookup_insert_ne.
Qed.

(** A change [g] of a member's cell, seen on the ghost node as [f] and on the
    entry as [h]. *)
Lemma abstracts_touch s w a f g h e nd :
  abstracts s w -> member a s = Some e -> mem w !! a = Some nd -> keeps f ->
  (forall i (p l r : ptr), g (cell i p l r) = cell (f i) p l r) ->
  (forall b i, h (entry_of b i) = entry_of b (f i)) -> 1 <= e_strong (h e) ->
  abstracts (retouch a h s) (mkWorld (<[a := g nd]> (mem w)) (tree w)).
Proof.
  intros Habs [He <-]%member_some Hnd Hf Hg Hh Hst. pose proof Habs as [(t & Ht & Hino) Hout Hdis Hcells].
  assert (forall e, e_addr (h e) = e_addr e /\ e_key (h e) = e_key e /\ e_eligible (h e) = e_eligible e) as Hhe.
  { intros [b k el b0 v st]. change (mkEntry b k el b0 v st) with (entry_of b (mkInfo k el Red el b0 v st)).
    rewrite Hh. destruct (Hf (mkInfo k el Red el b0 v st)) as (? & ? & _). done. }
  assert (e_addr <$> members (retouch (e_addr e) h s) = e_addr <$> members s) as Haddr.
  { cbn. rewrite <- list_fmap_compose. apply list_fmap_ext. intros ? e' _. cbn. case_decide; [apply Hhe|done]. }
  pose proof (alter_at (mem w) (e_addr e) g nd Hnd) as Halter.
  assert (inorder (touch (e_addr e) f t) = members (retouch (e_addr e) h s)) as Hino'.
  { rewrite (inorder_touch _ _ h) by auto. by rewrite Hino. }
  split.
  - exists (touch (e_addr e) f t). split; [|done]. destruct Ht as [[[Ht Hctx Hocc _] Hn] [Hrb Hm Hs Hr Ho]].
    rewrite <- Halter. split; [split; [split|]|split]; cbn [mem tree root len] in *; try done.
    + by apply rep_touch.
    + by rewrite addr_of_touch.
    + by rewrite addrs_touch.
    + unfold nodes. by rewrite addrs_touch.
    + destruct Hrb as [Hc [m Hrb]]. split; [by rewrite color_of_touch|]. exists m. by apply rb_touch.
    + by apply mins_touch.
    + rewrite Hino'. apply key_sorted_map; [intros e'; case_decide; [apply Hhe|done]|by rewrite <- Hino].
    + unfold eligible_range in *. rewrite Hino', Hino in *. apply Forall_fmap. eapply Forall_impl; [exact Hr|].
      intros e' He'. cbn. case_decide; [|done]. destruct (Hhe e') as (_ & _ & ->). done.
    + rewrite Hino'. rewrite Hino in Ho. apply Forall_fmap, Forall_forall. intros e' He'. cbn. case_decide as Heq.
      * by rewrite (member_unique s w e' e Habs He' He Heq).
      * by eapply Forall_forall in Ho.
  - intros b. rewrite Haddr. intros Hb. cbn. rewrite lookup_insert_ne; [auto|]. intros Heq.
    apply Hb, list_elem_of_fmap. by exists e.
  - intros b. rewrite Haddr. apply Hdis.
  - done.
Qed.

(** The cell of a member. *)
Lemma member_cell s w a e :
  abstracts s w -> member a s = Some e ->
  exists i (p l r : ptr), mem w !! a = Some (cell i p l r) /\ e = entry_of a i.
Proof.
  intros [(t & [Hw _] & Hino) _ _ _] [He <-]%member_some. rewrite <- Hino in He.
  apply list_elem_of_split in He as (es1 & es2 & Hes).
  destruct (focus_entry t es1 e es2 Hes) as (k & l & i & r & -> & Hei & _). rewrite <- holds_plug in Hw.
  destruct Hw as [[(Ha & _) _ _ _] _]. eauto 10.
Qed.

Lemma outside_cell s w a : abstracts s w -> member a s = None -> mem w !! a = outside s !! a.
Proof. intros Habs Ha%member_none. by apply Habs. Qed.

End Refinement.

Section Calls.
Context {K T : Type} `{OrdLaws K}.
Implicit Types (w : World K T) (t l r : shape K T) (i : info K T) (s : TreeSpec K T).
Abbreviation Entry := (entry (K := K) (T := T)).

Definition simulates (c : Call K T) : Prop := forall s w (r : Reply K T) s',
  abstracts s w -> spec_step c s = Some (r, s') ->
  exists w', exec c w = Done r w' /\ abstracts s' w'.

(** Runs an operation on one cell of the memory. *)
Ltac run_cell Hnd :=
  unfold on_mem, stage_unlinked, assign, take_value, put_value, drop_arc, assert_, deref, expect, gets, modify,
    mbind, M_bind, mret, M_ret; cbn; rewrite Hnd; cbn.

Lemma new_unlinked_simulates a k e v : simulates (NewUnlinked a k e v).
Proof.
  intros s w r s' Habs Hs. cbn in Hs. case_decide as Hg; [|done]. destruct Hg as (Ha & Hm & He).
  injection Hs as <- <-. eexists. split; [done|]. by apply abstracts_outside.
Qed.

Lemma outside_good s w a n : abstracts s w -> outside s !! a = Some n ->
  member a s = None /\ mem w !! a = Some n /\ in_u128 (eligible_at (state n)) /\ 1 <= strong n.
Proof.
  intros Habs Ha. assert (a ∉ e_addr <$> members s) as Hna.
  { intros Hin. by rewrite (abs_disjoint _ _ Habs a Hin) in Ha. }
  assert (member a s = None) as Hm.
  { destruct (member a s) as [e|] eqn:He; [|done]. apply member_some in He as [He <-]. destruct Hna.
    apply list_elem_of_fmap. by exists e. }
  split; [done|]. rewrite (outside_cell s w) by done. split; [done|].
  by apply (abs_cells _ _ Habs a).
Qed.

Lemma stage_unlinked_simulates a k e : simulates (StageUnlinked a k e).
Proof.
  intros s w r s' Habs Hs. cbn in Hs. destruct (outside s !! a) as [n|] eqn:Ha; [|done]. cbn in Hs.
  case_decide as Hg; [|done]. destruct Hg as [Hl He]. injection Hs as <- <-.
  destruct (outside_good s w a n Habs Ha) as (Hm & Hn & _ & Hst).
  eexists. split; [cbn; run_cell Hn; rewrite Hl; cbn; rewrite Hn; reflexivity|]. by apply abstracts_outside.
Qed.

Definition info_payload (v : option T) i : info K T :=
  mkInfo (i_key i) (i_eligible i) (i_color i) (i_min i) (bool_decide (is_Some v)) v (i_strong i).
Definition info_strong (d : Z) i : info K T :=
  mkInfo (i_key i) (i_eligible i) (i_color i) (i_min i) (i_initialized i) (i_value i) (i_strong i + d).

Lemma payload_touch s w a e nd v :
  abstracts s w -> member a s = Some e -> mem w !! a = Some nd ->
  abstracts (retouch a (set_payload v) s) (mkWorld (<[a := outside_payload v nd]> (mem w)) (tree w)).
Proof.
  intros Habs Hm Hnd. eapply (abstracts_touch s w a (info_payload v)); try done.
  cbn. apply member_some in Hm as [He _]. destruct Habs as [(t & [_ [_ _ _ _ Ho]] & Hino) _ _ _].
  rewrite Hino in Ho. by eapply Forall_forall in Ho.
Qed.

Lemma take_value_simulates a : simulates (TakeValue a).
Proof.
  intros s w r s' Habs Hs. cbn in Hs. destruct (member a s) as [e|] eqn:Hm.
  - destruct (member_cell s w a e Habs Hm) as (i & p & cl & cr & Hnd & ->). cbn in Hs.
    destruct (i_initialized i) eqn:Hi, (i_value i) as [v|] eqn:Hv; try done. injection Hs as <- <-.
    eexists. split; [cbn; run_cell Hnd; rewrite Hi; cbn; rewrite Hv; reflexivity|].
    by eapply payload_touch in Hnd; [exact Hnd|..].
  - destruct (outside s !! a) as [n|] eqn:Ha; [|done]. destruct (outside_good s w a n Habs Ha) as (_ & Hn & He & Hst).
    destruct (value_initialized (state n)) eqn:Hi, (value n) as [v|] eqn:Hv; try done. injection Hs as <- <-.
    eexists. split; [cbn; run_cell Hn; rewrite Hi; cbn; rewrite Hv; reflexivity|]. by apply abstracts_outside.
Qed.

Lemma put_value_simulates a v : simulates (PutValue a v).
Proof.
  intros s w r s' Habs Hs. cbn in Hs. destruct (member a s) as [e|] eqn:Hm.
  - destruct (member_cell s w a e Habs Hm) as (i & p & cl & cr & Hnd & ->). cbn in Hs.
    destruct (i_initialized i) eqn:Hi; try done. injection Hs as <- <-.
    eexists. split; [cbn; run_cell Hnd; rewrite Hi; reflexivity|].
    by eapply (payload_touch _ _ _ _ _ (Some v)) in Hnd; [exact Hnd|..].
  - destruct (outside s !! a) as [n|] eqn:Ha; [|done]. destruct (outside_good s w a n Habs Ha) as (_ & Hn & He & Hst).
    destruct (value_initialized (state n)) eqn:Hi; try done. injection Hs as <- <-.
    eexists. split; [cbn; run_cell Hn; rewrite Hi; reflexivity|].
    by apply (abstracts_outside s w a (outside_payload (Some v) n)).
Qed.

Lemma strong_touch s w a e nd d :
  abstracts s w -> member a s = Some e -> mem w !! a = Some nd -> 1 <= e_strong e + d ->
  abstracts (retouch a (add_strong d) s)
    (mkWorld (<[a := mkEevdfNode (value nd) (state nd) (strong nd + d)]> (mem w)) (tree w)).
Proof.
  intros Habs Hm Hnd Hd.
  by eapply (abstracts_touch s w a (info_strong d) (fun nd => mkEevdfNode (value nd) (state nd) (strong nd + d))).
Qed.

Lemma drop_arc_simulates a : simulates (DropArc a).
Proof.
  intros s w r s' Habs Hs. cbn in Hs. destruct (member a s) as [e|] eqn:Hm.
  - destruct (member_cell s w a e Habs Hm) as (i & p & cl & cr & Hnd & ->). cbn in Hs.
    case_decide as Hst; [|done]. injection Hs as <- <-.
    eexists. split; [cbn; run_cell Hnd; rewrite (proj2 (Z.eqb_neq _ _)) by lia; reflexivity|].
    eapply (strong_touch _ _ _ _ _ (-1)) in Hnd; [exact Hnd|done..|cbn; lia].
  - destruct (outside s !! a) as [n|] eqn:Ha; [|done]. destruct (outside_good s w a n Habs Ha) as (_ & Hn & He & Hst).
    injection Hs as <- <-. destruct (strong n =? 1) eqn:H1.
    + eexists. split; [cbn; run_cell Hn; rewrite H1; reflexivity|]. by apply abstracts_release.
    + eexists. split; [cbn; run_cell Hn; rewrite H1; reflexivity|]. apply abstracts_outside; try done. cbn. lia.
Qed.

(** ** Removal *)

Lemma leave_abstracts s w w' e t' es1 es2 :
  abstracts s w -> members s = es1 ++ e :: es2 ->
  tree_at (<[e_addr e := unlinked_entry e]> (mem w)) t' w' -> inorder t' = es1 ++ es2 ->
  abstracts (leave e s) w'.
Proof.
  intros Habs Hes Ht' Hino'. pose proof Habs as [(t & Ht & Hino) Hout Hdis Hcells].
  pose proof (tree_nodup _ _ _ Ht) as Hnd. rewrite Hino in Hnd.
  destruct (member_split s es1 e es2 Hes Hnd) as [_ Hmem].
  assert (members s ≡ₚ e :: members (leave e s)) as Hperm by (by rewrite Hmem, Hes, Permutation_middle).
  assert (forall a, a ∈ e_addr <$> members s <-> a = e_addr e \/ a ∈ e_addr <$> members (leave e s)) as Hadd.
  { intros a. by rewrite Hperm, fmap_cons, elem_of_cons. }
  rewrite Hperm, fmap_cons, NoDup_cons in Hnd. destruct Hnd as [Hne _].
  split.
  - exists t'. split; [by eapply tree_at_self|]. by rewrite Hmem.
  - intros a Ha. destruct Ht' as [[[_ _ _ Hfr] _] _]. rewrite Hfr.
    + cbn. destruct (decide (e_addr e = a)) as [->|Hn]; [by rewrite !lookup_insert_eq|].
      rewrite !lookup_insert_ne by done. apply Hout. rewrite Hadd. naive_solver.
    + apply occ_zero. cbn. by rewrite app_nil_r, addrs_inorder, Hino', <- Hmem.
  - intros a Ha. cbn. rewrite lookup_insert_ne by (intros <-; contradiction). apply Hdis, Hadd. by right.
  - apply map_Forall_insert_2; [|done]. destruct Ht as [_ [_ _ _ Hr Ho]]. unfold eligible_range in Hr.
    rewrite Hino in Hr, Ho. assert (e ∈ members s) as He by (rewrite Hperm; left).
    cbn. split; [by eapply Forall_forall in Hr|by eapply Forall_forall in Ho].
Qed.

Lemma remove_member {E} s w e :
  abstracts s w -> e ∈ members s ->
  exists w', remove_raw (E := E) (Some (e_addr e)) w = Done (Some (e_addr e)) w' /\ abstracts (leave e s) w'.
Proof.
  intros Habs He. pose proof Habs as [(t & Ht & Hino) _ _ _].
  apply list_elem_of_split in He as (es1 & es2 & Hes). pose proof Hes as Hes'. rewrite <- Hino in Hes'.
  destruct (focus_entry t es1 e es2 Hes') as (k & l & i & r & -> & Hei & Hafter).
  pose proof (wp_remove_raw (E := E) _ k l (e_addr e) i r w (fun _ _ => False) Ht) as Hwp.
  unfold wp in Hwp. destruct (remove_raw _ w) as [p w'|?| |]; [|done..].
  destruct Hwp as (-> & t' & Ht' & Hino'). exists w'. split; [done|].
  eapply (leave_abstracts s w w' e t' es1 es2); try done; [by rewrite Hei|].
  rewrite Hino', Hafter. f_equal. apply (app_inj_2 (before k ++ inorder l) es1 (e :: es2) (e :: es2)); [done|].
  rewrite <- Hes', inorder_split. cbn [inorder]. rewrite <- Hei, <- Hafter, <- !app_assoc. done.
Qed.

Lemma contains_exact_eq {E} F t w a nd :
  tree_at F t w -> mem w !! a = Some nd -> linked (state nd) = true ->
  contains_exact (E := E) (Some a) w = Done (bool_decide (lookup_key (key (state nd)) t = Some a)) w.
Proof.
  intros [Hw _] Ha Hl. unfold contains_exact. erewrite bind_done by (by apply read_eq). rewrite Hl.
  erewrite bind_done by reflexivity. erewrite bind_done by reflexivity. rewrite (holds_root _ _ _ _ Hw).
  rewrite (contains_exact_loop_eq F _ _ (Z.of_nat (nodes t)) w t []); [done|done|].
  pose proof (holds_height _ _ _ _ _ Hw). lia.
Qed.

Lemma remove_simulates a : simulates (Remove a).
Proof.
  intros s w r s' Habs Hs. cbn in Hs. pose proof Habs as [(t & Ht & Hino) _ _ _].
  pose proof (wf_sorted _ (proj2 Ht)) as Hsort. cbn [exec]. unfold catch, EevdfTree.remove.
  destruct (member a s) as [e|] eqn:Hm.
  - injection Hs as <- <-. destruct (member_cell s w a e Habs Hm) as (i & p & cl & cr & Hnd & Hei).
    apply member_some in Hm as [He <-].
    erewrite bind_done by (by eapply contains_exact_eq).
    rewrite bool_decide_true.
    + destruct (remove_member (E := EevdfTreeError) s w e Habs He) as (w' & -> & Hw'). by exists w'.
    + apply lookup_key_spec; [done|]. exists e. rewrite Hino. split_and!; [done| |done]. by rewrite Hei.
  - destruct (outside s !! a) as [n|] eqn:Ha; [|done]. injection Hs as <- <-.
    destruct (outside_good s w a n Habs Ha) as (_ & Hn & _). exists w. split; [|done].
    destruct (linked (state n)) eqn:Hl.
    + erewrite bind_done by (by eapply contains_exact_eq). rewrite bool_decide_false; [done|].
      rewrite lookup_key_spec by done. intros (e & He & _ & <-). apply member_none in Hm. apply Hm.
      rewrite <- Hino. apply list_elem_of_fmap. by exists e.
    + rewrite (bind_done _ _ w false w); [done|]. unfold contains_exact.
      erewrite bind_done by (by apply read_eq). by rewrite Hl.
Qed.

(** ** Selection and queries *)

Lemma first_eligible_member now (es : list Entry) e : first_eligible now es = Some e -> e ∈ es /\ e_eligible e <= now.
Proof.
  unfold first_eligible. intros Hh. destruct (filter _ es) as [|e' es'] eqn:Hf; [done|]. injection Hh as ->.
  assert (e ∈ filter (fun e => e_eligible e <= now) es) as Hin by (rewrite Hf; left).
  by apply list_elem_of_filter in Hin as [? ?].
Qed.

Lemma peek_eq {E} F t w now : tree_at F t w ->
  peek_earliest_eligible (E := E) now w = Done (e_addr <$> first_eligible now (inorder t)) w.
Proof.
  intros [Hw Hwf]. unfold peek_earliest_eligible. erewrite bind_done by reflexivity.
  erewrite bind_done by reflexivity. rewrite (holds_root _ _ _ _ Hw).
  eapply (earliest_eligible_eq F now); [exact Hw|apply Hwf|apply Hwf|].
  pose proof (holds_height _ _ _ _ _ Hw). lia.
Qed.

Lemma peek_simulates now : simulates (PeekEarliestEligible now).
Proof.
  intros s w r s' Habs [= <- <-]. exists w. split; [|done]. pose proof Habs as [(t & Ht & <-) _ _ _].
  cbn. by erewrite bind_done by (by eapply peek_eq).
Qed.

Lemma pop_simulates now : simulates (PopEarliestEligible now).
Proof.
  intros s w r s' Habs Hs. pose proof Habs as [(t & Ht & Hino) _ _ _]. cbn [exec].
  assert (forall f : ptr -> M (World K T) Empty_set ptr,
    (r ← get_root; fuel ← walk_bound; c ← earliest_eligible_loop fuel now r; f c) w =
    f (e_addr <$> first_eligible now (inorder t)) w) as Hpeek.
  { intros f. pose proof (peek_eq (E := Empty_set) _ _ _ now Ht) as Hp. unfold peek_earliest_eligible in Hp.
    erewrite bind_done in Hp by reflexivity. erewrite bind_done in Hp by reflexivity.
    erewrite bind_done by reflexivity. erewrite bind_done by reflexivity. by rewrite (bind_done _ _ _ _ _ Hp). }
  unfold pop_earliest_eligible, mbind at 1, M_bind at 1. rewrite Hpeek, Hino. cbn in Hs.
  destruct (first_eligible now (members s)) as [e|] eqn:He; injection Hs as <- <-; cbn.
  - apply first_eligible_member in He as [He _].
    destruct (remove_member (E := Empty_set) s w e Habs He) as (w' & -> & Hw'). by exists w'.
  - by exists w.
Qed.

Lemma front_simulates : simulates Front.
Proof.
  intros s w r s' Habs [= <- <-]. exists w. split; [|done]. pose proof Habs as [(t & [Ht _] & <-) _ _ _].
  cbn. by erewrite bind_done by (by eapply front_eq).
Qed.

Lemma root_then {E B} F t n w (f : ptr -> M (World K T) E B) :
  holds F [] t n w -> (get_root ≫= f) w = f (addr_of t) w.
Proof. intros Hw. by rewrite <- (holds_root _ _ _ _ Hw). Qed.

Lemma min_eligible_at_eq {E} F t w : tree_at F t w ->
  min_eligible_at (E := E) w = Done (match inorder t with [] => None | es => Some (least es) end) w.
Proof.
  intros [Ht Hwf]. unfold min_eligible_at. erewrite root_then by done.
  pose proof (cached_least t (wf_minima _ Hwf)) as Hleast.
  destruct t as [|l a i r]; [done|]. cbn [addr_of]. rewrite bool_decide_false by done.
  rewrite (bind_done _ _ _ _ _ (read_focus _ _ _ _ _ _ _ _ Ht)). cbn [state cell subtree_min].
  cbn [cached] in Hleast. rewrite Hleast. destruct (inorder (Node l a i r)) eqn:Hi; [by apply app_nil in Hi as [_ ?]|done].
Qed.

Lemma min_eligible_at_simulates : simulates MinEligibleAt.
Proof.
  intros s w r s' Habs [= <- <-]. exists w. split; [|done]. pose proof Habs as [(t & Ht & <-) _ _ _].
  cbn [exec]. erewrite bind_done by (by eapply min_eligible_at_eq). by destruct (inorder t).
Qed.

Lemma len_simulates : simulates Len.
Proof.
  intros s w r s' Habs [= <- <-]. exists w. split; [|done]. pose proof Habs as [(t & [[_ Hlen] _] & <-) _ _ _].
  cbn [exec]. unfold gets. by rewrite Hlen, length_inorder.
Qed.

(** ** Bounded searches *)

Lemma scan_found limit p (es : list Entry) : forall visited last_key e n,
  fst (scan limit visited last_key p es) = Some (e, n) -> e ∈ es.
Proof.
  induction es as [|e' es IH]; intros visited last_key e n; cbn; [done|].
  destruct (visited <? limit); [|done]. destruct (p e').
  - intros [= -> _]. left.
  - intros Hs. right. by eapply IH.
Qed.

Lemma scan_zero p (es : list Entry) : scan 0 0 None p es = (None, None).
Proof. by destruct es. Qed.

(** A scan over the tail of the tree takes a strong count of what it finds. *)
Lemma scan_simulates s w limit pr es1 es2 :
  abstracts s w -> members s = es1 ++ es2 ->
  let '(f, last_key) := scan limit 0 None (see_entry pr) es2 in
  exists w', scan_loop (E := Empty_set) (S (S (size (mem w)))) limit 0 None (see pr) (e_addr <$> head es2) w =
    Done (found_ptr f, last_key) w' /\ abstracts (found_in s f) w'.
Proof.
  intros Habs Hes. pose proof Habs as [(t & [Ht Hwf] & Hino) _ _ _].
  assert (length es2 <= S (S (size (mem w))))%nat as Hlen.
  { destruct Ht as [Ht _]. pose proof (at_focus_size _ _ _ _ _ Ht) as Hsize. rewrite length_app in Hsize.
    assert (length (inorder t) = length (addrs t)) as Hn by apply length_inorder.
    rewrite Hino, Hes, length_app in Hn. lia. }
  assert (observes (see pr) (see_entry pr)) as Hobs by done.
  rewrite (scan_loop_eq (E := Empty_set) _ _ limit _ _ t Hobs es2 es1 w _ 0 None Ht) by (by rewrite Hino || done).
  pose proof (scan_found limit (see_entry pr) es2 0 None) as Hfound.
  destruct (scan limit 0 None (see_entry pr) es2) as [[[e n]|] last_key]; [|by exists w].
  assert (e ∈ members s) as He by (rewrite Hes; apply elem_of_app; right; by eapply Hfound).
  eexists. split; [done|]. apply list_elem_of_split in He as (xs & ys & He).
  assert (member (e_addr e) s = Some e) as Hm.
  { apply (member_split s xs e ys He). rewrite <- Hino. by eapply tree_nodup. }
  destruct (member_cell s w _ e Habs Hm) as (i & p & cl & cr & Hnd & Hei).
  unfold retained. rewrite (alter_at _ _ _ _ Hnd). eapply strong_touch; try done.
  pose proof (wf_owned _ Hwf) as Ho. rewrite Hino, He in Ho.
  apply Forall_app in Ho as [_ [Ho _]%Forall_cons]. lia.
Qed.

(** Where a search starts. *)
Lemma minimum_start {E} F t n w : t <> Leaf -> holds F [] t n w ->
  minimum (E := E) (addr_of t) w = Done (e_addr <$> head (inorder t)) w.
Proof.
  intros Hne Hw. destruct (minimum_eq (E := E) F n w t [] Hne Hw) as (k & b & j & br & Hlm & _ & ->).
  apply leftmost_head in Hlm. by rewrite Hlm.
Qed.

Lemma find_bounded_simulates limit pr : simulates (FindBounded limit pr).
Proof.
  intros s w r s' Habs [= <- <-]. pose proof Habs as [(t & [Ht Hwf] & Hino) _ _ _].
  pose proof (scan_simulates s w limit pr [] (members s) Habs eq_refl) as Hscan.
  assert (exists w', find_bounded (E := Empty_set) limit (see pr) w =
    Done (found_ptr (fst (scan limit 0 None (see_entry pr) (members s)))) w' /\
    abstracts (found_in s (fst (scan limit 0 None (see_entry pr) (members s)))) w') as (w' & Hw' & Habs').
  { unfold find_bounded. erewrite root_then by done. destruct (limit =? 0) eqn:Hlim.
    { apply Z.eqb_eq in Hlim as ->. rewrite scan_zero. by exists w. }
    cbn [orb]. destruct (decide (inorder t = [])) as [Hnil|Hne].
    { rewrite <- Hino, Hnil. destruct t; [|by apply app_nil in Hnil as [_ ?]]. by exists w. }
    assert (t <> Leaf) as Hleaf by (by intros ->). rewrite bool_decide_false by (by destruct t).
    erewrite bind_done by (by eapply minimum_start). erewrite bind_done by reflexivity. rewrite Hino.
    destruct (scan limit 0 None (see_entry pr) (members s)) as [f last_key].
    destruct Hscan as (w' & Hscan & Habs'). rewrite (bind_done _ _ _ _ _ Hscan). by exists w'. }
  exists w'. split; [|done]. cbn [exec]. by rewrite (bind_done _ _ _ _ _ Hw').
Qed.

Lemma find_bounded_after_simulates x limit pr : simulates (FindBoundedAfter x limit pr).
Proof.
  intros s w r s' Habs Hs. cbn in Hs. set (from := match x with Some x => _ | None => _ end) in Hs.
  pose proof Habs as [(t & [Ht Hwf] & Hino) _ _ _].
  assert (exists es1, members s = es1 ++ from) as [es1 Hes].
  { destruct x as [x|]; [|by exists []]. apply key_after_suffix. rewrite <- Hino. apply Hwf. }
  pose proof (scan_simulates s w limit pr es1 from Habs Hes) as Hscan.
  destruct (scan limit 0 None (see_entry pr) from) as [f last_key] eqn:Hf. injection Hs as <- <-.
  assert (exists w', find_bounded_after (E := Empty_set) x limit (see pr) w =
    Done (found_ptr f, last_key) w' /\ abstracts (found_in s f) w') as (w' & Hw' & Habs').
  { unfold find_bounded_after. erewrite root_then by done. destruct (limit =? 0) eqn:Hlim.
    { apply Z.eqb_eq in Hlim as ->. rewrite scan_zero in Hf. injection Hf as <- <-. by exists w. }
    cbn [orb]. destruct (decide (inorder t = [])) as [Hnil|Hne].
    { assert (from = []) as Hfrom by (rewrite <- Hino, Hnil in Hes; by apply eq_sym, app_nil in Hes as [_ ?]).
      rewrite Hfrom in Hf. injection Hf as <- <-. destruct t; [|by apply app_nil in Hnil as [_ ?]]. by exists w. }
    assert (t <> Leaf) as Hleaf by (by intros ->). rewrite bool_decide_false by (by destruct t).
    erewrite bind_done by reflexivity. rewrite (bind_done _ _ w (e_addr <$> head from) w); [done|].
    destruct x as [x|].
    - rewrite (lower_bound_eq _ _ w x t [] _ None Ht); [|apply Hwf|pose proof (holds_height _ _ _ _ _ Ht); lia].
      rewrite Hino. fold from. by destruct from.
    - unfold from. rewrite <- Hino. by eapply minimum_start. }
  exists w'. split; [|done]. cbn [exec]. by rewrite (bind_done _ _ _ _ _ Hw').
Qed.

(** ** Insertion *)

Lemma key_present x (es : list Entry) :
  existsb (fun e => match cmp (e_key e) x with Eq => true | _ => false end) es = true <-> x ∈ e_key <$> es.
Proof.
  rewrite list_elem_of_fmap, existsb_exists. setoid_rewrite <- list_elem_of_In. split.
  - intros (e & He & Hx). exists e. split; [|done]. destruct (cmp (e_key e) x) eqn:Hc; try done.
    by apply cmp_eq in Hc.
  - intros (e & -> & He). exists e. by rewrite cmp_refl.
Qed.

Lemma enter_abstracts s w w' a n t' :
  abstracts s w -> outside s !! a = Some n -> tree_at (mem w) t' w' ->
  inorder t' = insert_entry (entry_of a (new_info n)) (members s) ->
  abstracts (mkTreeSpec (insert_entry (entry_of a (new_info n)) (members s)) (delete a (outside s))) w'.
Proof.
  intros Habs Ha Ht' Hino'. pose proof Habs as [_ Hout Hdis Hcells].
  assert (forall b, b ∈ e_addr <$> insert_entry (entry_of a (new_info n)) (members s) <->
    b = a \/ b ∈ e_addr <$> members s) as Hadd.
  { intros b. by rewrite insert_entry_perm, fmap_cons, elem_of_cons. }
  split; cbn [members outside].
  - exists t'. split; [by eapply tree_at_self|done].
  - intros b Hb. destruct Ht' as [[[_ _ _ Hfr] _] _]. rewrite Hfr.
    + rewrite Hadd in Hb. rewrite lookup_delete_ne by naive_solver. apply Hout. naive_solver.
    + apply occ_zero. cbn. by rewrite app_nil_r, addrs_inorder, Hino'.
  - intros b [->|Hb]%Hadd; [apply lookup_delete_eq|]. apply lookup_delete_None. right. by apply Hdis.
  - by apply map_Forall_delete.
Qed.

Lemma insert_simulates a : simulates (EevdfTreeRefinement.Insert a).
Proof.
  intros s w r s' Habs Hs. cbn in Hs. pose proof Habs as [(t & Ht & Hino) _ _ _]. cbn [exec]. unfold catch.
  destruct (member a s) as [e|] eqn:Hm.
  { injection Hs as <- <-. destruct (member_cell s w a e Habs Hm) as (i & p & cl & cr & Hnd & _).
    exists w. by erewrite insert_linked by done. }
  destruct (outside s !! a) as [n|] eqn:Ha; [|done]. destruct (outside_good s w a n Habs Ha) as (_ & Hn & He & Hst).
  destruct (linked (state n)) eqn:Hl.
  { injection Hs as <- <-. exists w. by erewrite insert_linked by done. }
  destruct (existsb _ (members s)) eqn:Hdup.
  { injection Hs as <- <-. apply key_present in Hdup. exists w. rewrite <- Hino in Hdup.
    by erewrite insert_duplicate by done. }
  case_decide as Hlen; [|done]. injection Hs as <- <-.
  assert (key (state n) ∉ e_key <$> inorder t) as Hkey.
  { rewrite Hino, <- key_present. by rewrite Hdup. }
  rewrite <- Hino, length_inorder in Hlen.
  pose proof (wp_insert (mem w) t w a n (fun _ _ => False) Ht Hn Hl He Hst Hlen Hkey) as Hwp. unfold wp in Hwp.
  destruct (EevdfTree.insert a w) as [[] w'|?| |]; [|done..]. destruct Hwp as (t' & Ht' & Hino').
  exists w'. split; [done|]. rewrite Hino in Hino'. by eapply enter_abstracts.
Qed.

(** ** Sequences of calls *)

Lemma call_simulates c : simulates c.
Proof.
  destruct c; eauto using new_unlinked_simulates, stage_unlinked_simulates, take_value_simulates,
    put_value_simulates, drop_arc_simulates, insert_simulates, remove_simulates, pop_simulates,
    peek_simulates, front_simulates, min_eligible_at_simulates, len_simulates, find_bounded_simulates,
    find_bounded_after_simulates.
Qed.

Lemma calls_simulate cs : forall s w rs s',
  abstracts s w -> spec_run cs s = Some (rs, s') ->
  exists w', exec_all cs w = Done rs w' /\ abstracts s' w'.
Proof.
  induction cs as [|c cs IH]; intros s w rs s' Habs Hs; cbn in Hs; [injection Hs as <- <-; by exists w|].
  destruct (spec_step c s) as [[r s1]|] eqn:Hc; [|done]. cbn in Hs.
  destruct (spec_run cs s1) as [[rs' s2]|] eqn:Hrun; [|done]. injection Hs as <- <-.
  destruct (call_simulates c s w r s1 Habs Hc) as (w1 & Hw1 & Habs1).
  destruct (IH s1 w1 rs' s2 Habs1 Hrun) as (w2 & Hw2 & Habs2). exists w2. split; [|done].
  cbn [exec_all]. rewrite (bind_done _ _ _ _ _ Hw1). by rewrite (bind_done _ _ _ _ _ Hw2).
Qed.

Lemma new_abstracts : abstracts (mkTreeSpec [] ∅) (mkWorld ∅ new : World K T).
Proof.
  split; cbn; try done. exists Leaf. split; [|done]. split; [split; [split|]|split]; cbn; try done.
  - intros v. lia.
  - split; [done|]. by exists 0%nat.
  - constructor.
  - by apply Forall_nil_2.
Qed.

End Calls.
