(* ===== verification/EevdfTreeVerified.v ===== *)
(** The guarantees of the EEVDF tree: refinement of a sorted list, balance,
    logarithmic selection, lossless rejection, round trip and destruction,
    with concrete runs that witness them. *)

From S2P Require Import Prelude.
From S2P Require Import Effects.
From S2P Require Import EevdfTree.
From S2P Require Import RbShape.
From S2P Require Import RbShape.
From S2P Require Import RbFixup.
From S2P Require Import RbBalance.
From S2P Require Import RbBalance.
From S2P Require Import RbSearch.
From S2P Require Import RbSearch.
From S2P Require Import RbInsert.
From S2P Require Import RbRemoval.
From S2P Require Import RbRemoval.
From S2P Require Import EevdfTreeRefinement.
From S2P Require Import EevdfTreeRefinement.
From S2P Require Import EevdfTreeRefinement.
From stdpp Require Import gmap sorting.
Local Open Scope Z_scope.

(** Integer keys. *)
#[export] Instance Z_Ord : Ord Z := Z.compare.
#[export] Instance Z_OrdLaws : OrdLaws Z.
Proof.
  split; unfold cmp, Z_Ord.
  - intros. apply Z.compare_eq_iff.
  - intros. apply Z.compare_antisym.
  - intros a b c. rewrite !Z.compare_lt_iff. lia.
Qed.

Section Guarantees.
Context {K T : Type} `{OrdLaws K}.
Implicit Types (w : World K T) (s : TreeSpec K T).

(** Two entries at one address, or with one key, are the same. *)
Lemma key_sorted_unique (es : list (entry (K := K) (T := T))) e e' :
  key_sorted es -> e ∈ es -> e' ∈ es -> e' = e \/ key_lt e e' \/ key_lt e' e.
Proof.
  induction es as [|e0 es IH]; [by intros _ ?%not_elem_of_nil|]. rewrite key_sorted_cons, !elem_of_cons.
  intros [H0' Hs] [->|He] [->|He']; auto.
Qed.

(** Nothing eligible comes before the first eligible entry. *)
Lemma first_eligible_least now (es : list (entry (K := K) (T := T))) e e' :
  key_sorted es -> first_eligible now es = Some e -> e' ∈ es -> e_eligible e' <= now ->
  e' = e \/ key_lt e e'.
Proof.
  intros Hs Hf. assert (exists es1 es2, es = es1 ++ e :: es2 /\ Forall (fun e => ~ e_eligible e <= now) es1)
    as (es1 & es2 & -> & Hes1).
  { clear Hs. unfold first_eligible in Hf. induction es as [|e0 es IH]; [done|]. rewrite filter_cons in Hf.
    case_decide as H0'; [injection Hf as ->; by exists [], es|].
    destruct (IH Hf) as (es1 & es2 & -> & ?). exists (e0 :: es1), es2. by split; [|constructor]. }
  rewrite elem_of_app, elem_of_cons. intros [Hin|[->|Hin]] Hle; [by eapply Forall_forall in Hes1|by left|right].
  apply key_sorted_app in Hs as (_ & [Hlt _]%key_sorted_cons & _). by apply Hlt.
Qed.

(** C18: the tree calls refine a sorted list of entries, from an empty tree on:
    every sequence of calls that keeps its callers' obligations runs to its
    end, without following a null or released pointer, and answers every call
    as the sorted list does. *)
Theorem tree_calls_refine_sorted_list (cs : list (Call K T)) rs s' :
  spec_run cs (mkTreeSpec [] ∅) = Some (rs, s') ->
  exists w', exec_all cs (mkWorld ∅ new) = Done rs w' /\ abstracts s' w'.
Proof. apply calls_simulate, new_abstracts. Qed.

(** C19: every world such a sequence reaches holds a red-black tree, with cached
    minima that are the minima of its subtrees, in strict key order, counted by
    [len], and of a height logarithmic in [len]. *)
Theorem reached_tree_is_balanced (cs : list (Call K T)) rs s' w' :
  spec_run cs (mkTreeSpec [] ∅) = Some (rs, s') -> exec_all cs (mkWorld ∅ new) = Done rs w' ->
  exists t, at_focus (mem w') [] t (mem w') (root (tree w')) /\ wf t /\
    len (tree w') = Z.of_nat (nodes t) /\ inorder t = members s' /\
    (height t <= 2 * Nat.log2 (S (nodes t)))%nat.
Proof.
  intros Hs Hw. destruct (calls_simulate cs _ _ _ _ new_abstracts Hs) as (w & Hw1 & [(t & [[Hf Hl] Hwf] & Hino) _ _ _]).
  rewrite Hw in Hw1. injection Hw1 as <-. exists t. split_and!; try done. apply red_black_height, Hwf.
Qed.

(** C20: selection descends at most twice the binary logarithm of the tree's size:
    with that bound on its iterations it already returns the first eligible
    entry in key order. *)
Theorem selection_is_logarithmic {E} s w now :
  abstracts s w ->
  earliest_eligible_loop (E := E) (2 * Nat.log2 (S (length (members s)))) now (root (tree w)) w =
    Done (e_addr <$> first_eligible now (members s)) w.
Proof.
  intros [(t & [Hw Hwf] & <-) _ _ _]. rewrite (holds_root _ _ _ _ Hw), length_inorder.
  eapply (earliest_eligible_eq (mem w) now); [exact Hw|apply Hwf|apply Hwf|apply red_black_height, Hwf].
Qed.

(** [pop_earliest_eligible] returns an eligible node, before every other
    eligible node in key order, and takes exactly it out of the tree; it
    returns none only when no node is eligible. *)
Theorem pop_takes_earliest_eligible {E} s w now :
  abstracts s w ->
  exists p w', pop_earliest_eligible (E := E) now w = Done p w' /\
    match p with
    | Some a => exists e, e ∈ members s /\ e_addr e = a /\ e_eligible e <= now /\
        (forall e', e' ∈ members s -> e_eligible e' <= now -> e' = e \/ key_lt e e') /\
        abstracts (leave e s) w'
    | None => (forall e, e ∈ members s -> now < e_eligible e) /\ w' = w
    end.
Proof.
  intros Habs. pose proof Habs as [(t & Ht & Hino) _ _ _].
  pose proof (wf_sorted _ (proj2 Ht)) as Hs. rewrite Hino in Hs.
  pose proof (peek_eq (E := E) _ _ _ now Ht) as Hp. rewrite Hino in Hp.
  unfold peek_earliest_eligible in Hp. unfold pop_earliest_eligible.
  erewrite bind_done in Hp by reflexivity. erewrite bind_done in Hp by reflexivity.
  erewrite bind_done by reflexivity. erewrite bind_done by reflexivity. rewrite (bind_done _ _ _ _ _ Hp).
  destruct (first_eligible now (members s)) as [e|] eqn:He; cbn.
  - pose proof (first_eligible_member _ _ _ He) as [Hin Hle].
    destruct (remove_member (E := E) s w e Habs Hin) as (w' & -> & Hw'). exists (Some (e_addr e)), w'.
    split; [done|]. exists e. split_and!; try done. intros e' He' Hle'. by eapply first_eligible_least.
  - exists None, w. split_and!; try done. intros e Hin. apply Z.nle_gt. intros Hle.
    assert (Exists (fun e => e_eligible e <= now) (members s)) as Hex by (apply Exists_exists; eauto).
    apply first_eligible_some in Hex as [e' He']. congruence.
Qed.

(** A rejected insertion hands the node back and changes nothing; it is
    rejected exactly when the node is linked or its key is present. *)
Theorem insert_rejects_losslessly s w a n :
  abstracts s w -> mem w !! a = Some n -> Z.of_nat (length (members s)) < usize_MAX ->
  match EevdfTree.insert a w with
  | Fail e w' => w' = w /\ node e = a /\
      kind e = (if linked (state n) then AlreadyLinked else DuplicateKey) /\
      (linked (state n) = true \/ key (state n) ∈ e_key <$> members s)
  | Done _ w' => linked (state n) = false /\ key (state n) ∉ e_key <$> members s /\
      exists s', abstracts s' w' /\ members s' ≡ₚ entry_of a (new_info n) :: members s
  | Panic | Diverged => False
  end.
Proof.
  intros Habs Hn Hlen. pose proof Habs as [(t & Ht & Hino) _ _ _].
  destruct (linked (state n)) eqn:Hl; [erewrite insert_linked by done; cbn; auto|].
  destruct (member a s) as [e|] eqn:Hm.
  { destruct (member_cell s w a e Habs Hm) as (i & p & cl & cr & Hnd & _). rewrite Hn in Hnd. by injection Hnd as ->. }
  pose proof (outside_cell s w a Habs Hm) as Ho. rewrite Hn in Ho.
  destruct (outside_good s w a n Habs (eq_sym Ho)) as (_ & _ & He & Hst).
  destruct (existsb (fun e => match cmp (e_key e) (key (state n)) with Eq => true | _ => false end) (members s)) eqn:Hd.
  - apply key_present in Hd. rewrite <- Hino in Hd. erewrite insert_duplicate by done. rewrite Hino in Hd. cbn. auto.
  - assert (key (state n) ∉ e_key <$> inorder t) as Hk by (rewrite Hino, <- key_present; by rewrite Hd).
    rewrite <- Hino, length_inorder in Hlen.
    pose proof (wp_insert (mem w) t w a n (fun _ _ => False) Ht Hn Hl He Hst Hlen Hk) as Hwp. unfold wp in Hwp.
    rewrite Hino in Hk. destruct (EevdfTree.insert a w) as [[] w'|?| |]; [|done..].
    destruct Hwp as (t' & Ht' & Hino'). rewrite Hino in Hino'. split_and!; try done.
    eexists. split; [by eapply enter_abstracts|]. apply insert_entry_perm.
Qed.

Lemma filter_insert_entry (e : entry (K := K) (T := T)) es :
  e_addr e ∉ e_addr <$> es -> filter (fun e' => e_addr e' <> e_addr e) (insert_entry e es) = es.
Proof.
  intros Hne. assert (filter (fun e' : entry => e_addr e' <> e_addr e) es = es) as Hall.
  { apply filter_all. intros e' He' Heq. apply Hne, list_elem_of_fmap. by exists e'. }
  revert Hne Hall. induction es as [|e0 es IH]; intros Hne Hall; cbn [insert_entry].
  - rewrite filter_cons, decide_False by naive_solver. done.
  - destruct (cmp (e_key e) (e_key e0)).
    2:{ by rewrite filter_cons, decide_False by naive_solver. }
    all: cbn in Hne; apply not_elem_of_cons in Hne as [Hne0 Hne];
      rewrite filter_cons, decide_True in Hall |- * by done; injection Hall as Hall; by rewrite IH.
Qed.

(** Inserting a node and removing it again restores the tree and leaves the
    node unlinked, with its key, its eligible time, its payload and its
    owners. *)
Theorem insert_remove_roundtrip s w a n :
  abstracts s w -> outside s !! a = Some n -> linked (state n) = false ->
  key (state n) ∉ e_key <$> members s -> Z.of_nat (length (members s)) < usize_MAX ->
  exists w1 w2, EevdfTree.insert a w = Done tt w1 /\ EevdfTree.remove a w1 = Done (Some a) w2 /\
    abstracts (put_outside a (unlinked_entry (entry_of a (new_info n))) s) w2.
Proof.
  intros Habs Ha Hl Hk Hlen. destruct (outside_good s w a n Habs Ha) as (Hm & Hn & _ & _).
  set (e := entry_of a (new_info n)).
  set (s1 := mkTreeSpec (insert_entry e (members s)) (delete a (outside s))).
  assert (spec_step (EevdfTreeRefinement.Insert a) s = Some (RUnit, s1)) as Hins.
  { cbn. rewrite Hm, Ha, Hl. rewrite <- key_present in Hk. apply not_true_is_false in Hk.
    by rewrite Hk, decide_True. }
  destruct (insert_simulates a s w _ _ Habs Hins) as (w1 & Hw1 & Habs1).
  assert (e ∈ members s1) as He by (cbn; rewrite insert_entry_perm; left).
  assert (member a s1 = Some e) as Hm1.
  { destruct (member a s1) as [e'|] eqn:Hm1.
    - apply member_some in Hm1 as [He' Heq]. f_equal. by apply (member_unique s1 w1 e' e Habs1).
    - apply member_none in Hm1. destruct Hm1. apply list_elem_of_fmap. by exists e. }
  assert (spec_step (Remove a) s1 = Some (RNode (Some a), leave e s1)) as Hrem by (cbn; by rewrite Hm1).
  destruct (remove_simulates a s1 w1 _ _ Habs1 Hrem) as (w2 & Hw2 & Habs2).
  cbn [exec] in Hw1, Hw2. unfold catch in Hw1, Hw2. exists w1, w2.
  destruct (EevdfTree.insert a w) as [[] w1'|?| |]; try done. injection Hw1 as <-.
  destruct (EevdfTree.remove a w1') as [p w2'|?| |]; try done. injection Hw2 as -> <-.
  split_and!; [done..|]. unfold leave, s1 in Habs2. cbn [members outside] in Habs2.
  rewrite filter_insert_entry in Habs2 by (by apply member_none). cbn [e e_addr entry_of] in Habs2.
  by rewrite insert_delete_eq in Habs2.
Qed.

(** C21: dropping a tree ends within two visits per node: it empties the tree, frees
    each node it was the last owner of, gives its unit of every other node
    back with the links cleared, and touches nothing outside the tree. *)
Theorem drop_releases_every_node {E} s w :
  abstracts s w ->
  exists m', EevdfTree.drop (E := E) w = Done tt (mkWorld m' new) /\
    (forall e, e ∈ members s ->
      if e_strong e =? 1 then m' !! e_addr e = None
      else exists c, m' !! e_addr e = Some (mkEevdfNode (e_value e)
        (mkNodeState (e_key e) (e_eligible e) None None None c (e_eligible e) false (e_initialized e))
        (e_strong e - 1))) /\
    (forall a, a ∉ e_addr <$> members s -> m' !! a = mem w !! a).
Proof.
  intros [(t & Ht & Hino) _ _ _]. pose proof (tree_nodup _ _ _ Ht) as Hnd. rewrite <- addrs_inorder in Hnd.
  exists (release_all t (mem w)). split; [by eapply drop_eq|]. split.
  - intros e He. rewrite <- Hino in He. apply list_elem_of_split in He as (es1 & es2 & Hes).
    destruct (focus_entry t es1 e es2 Hes) as (k & l & i & r & _ & Hei & _).
    destruct (release_all_at t (mem w) (e_addr e) i Hnd) as (i' & Hi' & ->).
    { rewrite Hes, <- Hei. apply elem_of_app. right. left. }
    rewrite <- Hei in Hi'. rewrite <- Hi'. unfold released. cbn. destruct (i_strong i' =? 1); [done|]. by eexists.
  - intros a Ha. apply release_all_ne. by rewrite addrs_inorder, Hino.
Qed.

End Guarantees.

(** ** Concrete runs *)

Definition demo_calls : list (Call Z Z) :=
  [NewUnlinked 1 30 5 100; NewUnlinked 2 10 50 200; NewUnlinked 3 20 7 300; NewUnlinked 4 40 3 400;
   NewUnlinked 5 20 1 500; EevdfTreeRefinement.Insert 1; EevdfTreeRefinement.Insert 2; EevdfTreeRefinement.Insert 3;
   EevdfTreeRefinement.Insert 4; EevdfTreeRefinement.Insert 5; PeekEarliestEligible 10; MinEligibleAt; Len;
   FindBoundedAfter (Some 10) 2 (fun k e _ => e <? 6); DropArc 1; Remove 4; Remove 5;
   PopEarliestEligible 10; EevdfTreeRefinement.Insert 4; TakeValue 1; PutValue 1 7].
Definition demo_result : list (Reply Z Z) * TreeSpec Z Z :=
  default ([], mkTreeSpec [] ∅) (spec_run demo_calls (mkTreeSpec [] ∅)).
Definition demo_world : World Z Z :=
  match exec_all demo_calls (mkWorld ∅ new) with Done _ w => w | _ => mkWorld ∅ new end.

Lemma demo_run : spec_run demo_calls (mkTreeSpec [] ∅) = Some (fst demo_result, snd demo_result).
Proof. vm_compute. reflexivity. Qed.
Lemma demo_abstracts : abstracts (snd demo_result) demo_world.
Proof.
  destruct (calls_simulate demo_calls _ _ _ _ new_abstracts demo_run) as (w & Hw & Habs).
  unfold demo_world. by rewrite Hw.
Qed.

Definition demo_again : list (Reply Z Z) :=
  [RUnit; RUnit; RUnit; RUnit; RUnit; RUnit; RUnit; RUnit; RUnit; RRejected DuplicateKey (Some 5%nat);
   RNode (Some 3%nat); RTime (Some 3); RLen 4; RWindow (Some (Some 1%nat, 2)) (Some 30); RUnit; RNode (Some 4%nat);
   RRejected ForeignNode None; RNode (Some 3%nat); RUnit; RValue 100; RUnit].
Example demo_replies : fst demo_result = demo_again.
Proof. vm_compute. reflexivity. Qed.

Lemma tree_calls_refine_sorted_list_witness :
  exists w', exec_all demo_calls (mkWorld ∅ new) = Done (fst demo_result) w' /\ abstracts (snd demo_result) w'.
Proof. apply (tree_calls_refine_sorted_list demo_calls). vm_compute. reflexivity. Defined.

Lemma reached_tree_is_balanced_witness :
  exists t, at_focus (mem demo_world) [] t (mem demo_world) (root (tree demo_world)) /\ wf t /\
    len (tree demo_world) = Z.of_nat (nodes t) /\ inorder t = members (snd demo_result) /\
    (height t <= 2 * Nat.log2 (S (nodes t)))%nat.
Proof.
  apply (reached_tree_is_balanced demo_calls (fst demo_result)); vm_compute; reflexivity.
Defined.

Lemma selection_is_logarithmic_witness :
  earliest_eligible_loop (E := Empty_set) (2 * Nat.log2 (S (length (members (snd demo_result))))) 10
    (root (tree demo_world)) demo_world =
    Done (e_addr <$> first_eligible 10 (members (snd demo_result))) demo_world.
Proof. apply (selection_is_logarithmic (snd demo_result)), demo_abstracts. Defined.

Lemma pop_takes_earliest_eligible_witness :
  exists p w', pop_earliest_eligible (E := Empty_set) 4 demo_world = Done p w' /\ p = Some 4%nat.
Proof.
  destruct (pop_takes_earliest_eligible (E := Empty_set) (snd demo_result) demo_world 4 demo_abstracts)
    as (p & w' & Hpop & _). exists p, w'. split; [exact Hpop|].
  assert (match pop_earliest_eligible (E := Empty_set) 4 demo_world with Done p _ => p | _ => None end = Some 4%nat)
    as Hp by (vm_compute; reflexivity). rewrite Hpop in Hp. exact Hp.
Defined.

Lemma insert_rejects_losslessly_witness : exists n,
  mem demo_world !! 5%nat = Some n /\
  EevdfTree.insert 5 demo_world = Done tt
    (match EevdfTree.insert 5 demo_world with Done _ w => w | _ => demo_world end) /\ linked (state n) = false.
Proof.
  destruct (mem demo_world !! 5%nat) as [n|] eqn:Hn; [|vm_compute in Hn; discriminate Hn].
  exists n. split; [reflexivity|].
  pose proof (insert_rejects_losslessly (snd demo_result) demo_world 5 n demo_abstracts Hn
    ltac:(vm_compute; reflexivity)) as Hins.
  destruct (EevdfTree.insert 5 demo_world) as [[] w|e w| |] eqn:Hi.
  - split; [reflexivity|apply Hins].
  - vm_compute in Hi. discriminate Hi.
  - destruct Hins.
  - destruct Hins.
Defined.

Lemma insert_remove_roundtrip_witness : exists n w1 w2,
  outside (snd demo_result) !! 5%nat = Some n /\
  EevdfTree.insert 5 demo_world = Done tt w1 /\ EevdfTree.remove 5 w1 = Done (Some 5%nat) w2.
Proof.
  destruct (outside (snd demo_result) !! 5%nat) as [n|] eqn:Hn; [|vm_compute in Hn; discriminate Hn].
  destruct (insert_remove_roundtrip (snd demo_result) demo_world 5 n demo_abstracts Hn) as (w1 & w2 & H1 & H2 & _).
  - vm_compute in Hn. injection Hn as <-. reflexivity.
  - vm_compute in Hn. injection Hn as <-. apply (bool_decide_unpack _). vm_compute. exact I.
  - vm_compute. reflexivity.
  - exists n, w1, w2. split; [reflexivity|]. split; [exact H1|exact H2].
Defined.

Lemma drop_releases_every_node_witness :
  exists m', EevdfTree.drop (E := Empty_set) demo_world = Done tt (mkWorld m' new).
Proof.
  destruct (drop_releases_every_node (E := Empty_set) (snd demo_result) demo_world demo_abstracts) as (m' & Hd & _).
  exists m'. exact Hd.
Defined.
