(* ===== verification/Threads.v ===== *)
(** Threads: programs of atomic actions with an identity, that may have to
    wait and that run only when they are allowed to.

    An action may be blocked (a lock is held), and a thread runs only when
    [may_run] says so (a context that an interrupt has suspended does not). The
    threads of a configuration are numbered; [threads_step] starts a new one or
    performs one action of one of them. [rg] is rely-guarantee reasoning with a
    rely [R i] per thread: every action must keep the invariant and the rely of
    every other thread. *)

From S2P Require Import Prelude.

Section Threads.
Context {D : Type}.

Inductive prog (A : Type) : Type :=
| Ret (a : A)
| Crash
| Act {B : Type} (f : D -> option (B * D)) (k : B -> prog A).
Arguments Ret {A} a.
Arguments Crash {A}.
Arguments Act {A B} f k.

#[export] Instance thread_ret : MRet prog := fun A a => Ret a.

Fixpoint thread_bind_ {A B} (p : prog A) (g : A -> prog B) : prog B :=
  match p with
  | Ret a => g a
  | Crash => Crash
  | Act f k => Act f (fun b => thread_bind_ (k b) g)
  end.
#[export] Instance thread_bind : MBind prog := fun A B g p => thread_bind_ p g.

(** An action, an action that always succeeds, a read, and a write. *)
Definition act {B} (f : D -> option (B * D)) : prog B := Act f Ret.
Definition step {B} (f : D -> B * D) : prog B := act (fun d => Some (f d)).
Definition get {B} (f : D -> B) : prog B := step (fun d => (f d, d)).
Definition put (f : D -> D) : prog () := step (fun d => (tt, f d)).

(** A step that panics in the states where it has no result. *)
Definition expect_step {B} (f : D -> option (B * D)) : prog B :=
  o ← step (fun d => match f d with Some (b, d) => (Some b, d) | None => (None, d) end);
  match o with Some b => mret b | None => Crash end.

Context (may_run : D -> nat -> Prop).

(** ** Executions *)

Record threads (A : Type) : Type := mkThreads { shared : D; running : list (prog A) }.
Arguments mkThreads {A}.
Arguments shared {A}.
Arguments running {A}.

Inductive threads_step {A} (starts : nat -> prog A -> D -> D -> Prop) : threads A -> threads A -> Prop :=
| thread_start d d' ps p :
    starts (length ps) p d d' -> threads_step starts (mkThreads d ps) (mkThreads d' (ps ++ [p]))
| thread_action d ps i B (f : D -> option (B * D)) k b d' :
    ps !! i = Some (Act f k) -> may_run d i -> f d = Some (b, d') ->
    threads_step starts (mkThreads d ps) (mkThreads d' (<[i := k b]> ps)).

Inductive threads_reach {A} (starts : nat -> prog A -> D -> D -> Prop) (d0 : D) : threads A -> Prop :=
| threads_init : threads_reach starts d0 (mkThreads d0 [])
| threads_next c c' :
    threads_reach starts d0 c -> threads_step starts c c' -> threads_reach starts d0 c'.

(** A thread alone, from a state in which it may run throughout; [None] when it
    panics or waits. *)
Fixpoint run_alone {A} (p : prog A) (d : D) : option (A * D) :=
  match p with
  | Ret a => Some (a, d)
  | Crash => None
  | Act f k => match f d with Some (b, d) => run_alone (k b) d | None => None end
  end.

Lemma run_alone_bind {A B} (p : prog A) (g : A -> prog B) d :
  run_alone (p ≫= g) d = match run_alone p d with Some (a, d) => run_alone (g a) d | None => None end.
Proof.
  change (p ≫= g) with (thread_bind_ p g). revert d.
  induction p as [a| |C f k IH]; intros d; simpl; try done. destruct (f d) as [[c d']|]; [apply IH|done].
Qed.

(** ** Rely and guarantee *)

Section RelyGuarantee.
Context (Inv : D -> Prop) (R : nat -> D -> D -> Prop) `{!forall i, PreOrder (R i)}.

Fixpoint rg (i : nat) {A} (p : prog A) (Q : A -> D -> Prop) (d : D) : Prop :=
  match p with
  | Ret a => Q a d
  | Crash => False
  | Act f k => forall d1, R i d d1 -> Inv d1 -> may_run d1 i -> forall b d2, f d1 = Some (b, d2) ->
      Inv d2 /\ (forall j, j <> i -> R j d1 d2) /\ rg i (k b) Q d2
  end.

Lemma rg_then i {A B} (p : prog A) (g : A -> prog B) Q Q' d :
  rg i p Q' d -> (forall a d, Q' a d -> rg i (g a) Q d) -> rg i (p ≫= g) Q d.
Proof.
  change (p ≫= g) with (thread_bind_ p g). intros Hp Hg. revert d Hp.
  induction p as [a| |C f k IH]; intros d Hp; simpl in *; [by apply Hg|done|].
  intros d1 Hd1 Hi Hm b d2 Hf. destruct (Hp d1 Hd1 Hi Hm b d2 Hf) as (? & ? & ?). auto.
Qed.

Lemma rg_weaken i {A} (p : prog A) (Q Q' : A -> D -> Prop) d :
  (forall a d, Q' a d -> Q a d) -> rg i p Q' d -> rg i p Q d.
Proof.
  intros HQ. revert d. induction p as [a| |C f k IH]; intros d; simpl; [apply HQ|done|].
  intros Hp d1 Hd1 Hi Hm b d2 Hf. destruct (Hp d1 Hd1 Hi Hm b d2 Hf) as (? & ? & ?). auto.
Qed.

(** A program at the end of another one. *)
Lemma rg_last i {A} (p : prog A) Q d : rg i (p ≫= Ret) Q d -> rg i p Q d.
Proof.
  change (p ≫= Ret) with (thread_bind_ p Ret). revert d.
  induction p as [a| |C f k IH]; intros d; simpl; [done..|].
  intros Hp d1 Hd1 Hi Hm b d2 Hf. destruct (Hp d1 Hd1 Hi Hm b d2 Hf) as (? & ? & ?). auto.
Qed.

(** A postcondition that interference keeps. *)
Definition stable i {A} (Q : A -> D -> Prop) : Prop := forall a d d', Q a d -> R i d d' -> Q a d'.

Lemma rg_wait i {A} (p : prog A) Q d d' : stable i Q -> rg i p Q d -> R i d d' -> rg i p Q d'.
Proof.
  intros HQ Hp Hd. destruct p as [a| |C f k]; simpl in *; [by eapply HQ|done|].
  intros d1 Hd1. apply Hp. by transitivity d'.
Qed.

(** One action, one that always succeeds, and a read. *)
Lemma rg_act i {A B} (f : D -> option (B * D)) (k : B -> prog A) Q d :
  (forall d1, R i d d1 -> Inv d1 -> may_run d1 i -> forall b d2, f d1 = Some (b, d2) ->
    Inv d2 /\ (forall j, j <> i -> R j d1 d2) /\ rg i (k b) Q d2) ->
  rg i (act f ≫= k) Q d.
Proof. done. Qed.

Lemma rg_step i {A B} (f : D -> B * D) (k : B -> prog A) Q d :
  (forall d1, R i d d1 -> Inv d1 -> may_run d1 i ->
    Inv (f d1).2 /\ (forall j, j <> i -> R j d1 (f d1).2) /\ rg i (k (f d1).1) Q (f d1).2) ->
  rg i (step f ≫= k) Q d.
Proof. intros Hf d1 Hd1 Hi Hm b d2 [= Heq]. specialize (Hf d1 Hd1 Hi Hm). by rewrite Heq in Hf. Qed.

Lemma rg_get i {A B} (f : D -> B) (k : B -> prog A) Q d :
  (forall d1, R i d d1 -> Inv d1 -> may_run d1 i -> rg i (k (f d1)) Q d1) -> rg i (get f ≫= k) Q d.
Proof. intros Hf. apply rg_step. intros d1 Hd1 Hi Hm. split_and!; [done|reflexivity|by apply Hf]. Qed.

Lemma rg_put i {A} (f : D -> D) (k : () -> prog A) Q d :
  (forall d1, R i d d1 -> Inv d1 -> may_run d1 i ->
    Inv (f d1) /\ (forall j, j <> i -> R j d1 (f d1)) /\ rg i (k tt) Q (f d1)) ->
  rg i (put f ≫= k) Q d.
Proof. intros Hf. by apply rg_step. Qed.

Lemma rg_expect_step i {A B} (f : D -> option (B * D)) (k : B -> prog A) Q d :
  (forall d1, R i d d1 -> Inv d1 -> may_run d1 i -> exists b d2, f d1 = Some (b, d2) /\
    Inv d2 /\ (forall j, j <> i -> R j d1 d2) /\ rg i (k b) Q d2) ->
  rg i (expect_step f ≫= k) Q d.
Proof.
  intros Hf d1 Hd1 Hi Hm b d2. destruct (Hf d1 Hd1 Hi Hm) as (b' & d' & -> & ? & ? & ?).
  by intros [= <- <-].
Qed.

Definition threads_safe {A} (c : threads A) : Prop := forall i, running c !! i <> Some Crash.

(** [P n] is what holds with [n] threads started, whatever they do. *)
Lemma threads_sound {A} (starts : nat -> prog A -> D -> D -> Prop) (P : nat -> D -> Prop)
    (Q : nat -> A -> D -> Prop) d0 c :
  (forall i, stable i (Q i)) -> Inv d0 -> P 0%nat d0 ->
  (forall n d d', P n d -> R n d d' -> P n d') ->
  (forall i p d d', starts i p d d' -> Inv d -> P i d ->
    Inv d' /\ P (S i) d' /\ (forall j, j <> i -> R j d d') /\ rg i p (Q i) d') ->
  threads_reach starts d0 c ->
  Inv (shared c) /\ P (length (running c)) (shared c) /\ threads_safe c /\
  forall i p, running c !! i = Some p -> rg i p (Q i) (shared c).
Proof.
  intros HQ H0 HP0 HP Hstart Hc.
  assert (Inv (shared c) /\ P (length (running c)) (shared c) /\
    forall i p, running c !! i = Some p -> rg i p (Q i) (shared c)) as (? & ? & Hall).
  { induction Hc as [|c c' _ (Hi & Hp & Hr) Hs]; [by split_and!|].
    destruct Hs as [d d' ps p Hstep|d ps i B f k b d' Hk Hm Hf]; simpl in *.
    - destruct (Hstart _ _ _ _ Hstep Hi Hp) as (Hi' & Hp' & HR & Hrg). split; [done|]. split.
      { by rewrite length_app, Nat.add_1_r. }
      intros j q Hq. apply lookup_app_Some in Hq as [Hq|[Hge Hq]].
      + apply (rg_wait j q (Q j) d); [done|by apply Hr|]. apply HR.
        apply lookup_lt_Some in Hq. lia.
      + apply list_lookup_singleton_Some in Hq as [Hj <-]. by replace j with (length ps) by lia.
    - pose proof (Hr _ _ Hk d ltac:(reflexivity) Hi Hm b d' Hf) as (Hi' & HR & Hrg).
      split; [done|]. split.
      { rewrite length_insert. apply (HP _ d); [done|]. apply HR. apply lookup_lt_Some in Hk. lia. }
      intros j q Hq. destruct (decide (i = j)) as [->|Hne].
      + rewrite list_lookup_insert_eq in Hq by (apply lookup_lt_is_Some; eauto). by simplify_eq.
      + rewrite list_lookup_insert_ne in Hq by done.
        apply (rg_wait j q (Q j) d); [done|by apply Hr|by apply HR]. }
  split_and!; try done. intros i Hi. by apply Hall in Hi.
Qed.

End RelyGuarantee.
End Threads.

Arguments prog : clear implicits.
Arguments Ret {D A} a.
Arguments Crash {D A}.
Arguments Act {D A B} f k.
Arguments threads : clear implicits.
Arguments mkThreads {D A}.
Arguments shared {D A}.
Arguments running {D A}.
