(* ===== verification/Rcu.v ===== *)
(** Read-copy-update, part 1: [crates/thekernel-axrcu/src/lib.rs].

    A domain is an epoch counter, a registration word and an active epoch per
    CPU, a bounded FIFO of retired owners, and two locks; slots publish [Arc]
    pointers through it. The read side takes no lock, so the methods are
    programs of atomic actions ([Threads]); the compare-exchange loop of the
    admission is the one exchange that succeeds. A lock is taken by an action
    that waits while another thread holds it. The platform is the stack of
    contexts of each CPU: a pinned reader, and above it the readers of the
    interrupts that arrived since; a context whose interrupts are off is not
    interrupted, and only the innermost context runs.

    The state also records what no code reads: the progress of each context
    through its critical section ([stage]) and what each thread owns
    ([owners]). An [Arc] allocation is an address with its strong count; to
    touch a released one is a panic ([Crash]). *)

From stdpp Require Import gmap.
From S2P Require Import Prelude Threads.
Local Open Scope Z_scope.

Definition REGISTERED_BIT : Z := Z.shiftl 1 31.
Definition DEPTH_MASK : Z := REGISTERED_BIT - 1.
Definition MAX_READER_DEPTH : Z := DEPTH_MASK.

Inductive RcuError : Type :=
| RetireCapacity | UnregisteredCpu | NotTaskContext | CpuAlreadyRegistered | CpuBusy
| CpuNotRegistered | ReaderNestingOverflow | EpochExhausted | EmptySlot.

Abbreviation ptr := (option nat).

(** The rejected replacement is handed back. *)
Inductive PublishError : Type := PublishStale (a : nat) | PublishEpochExhausted (a : nat).
Inductive ClearError : Type := ClearStale | ClearEpochExhausted | ClearNotTaskContext | BadContext.

Record DrainStatus : Type := mkDrainStatus { dropped : Z; pending : bool; blocked : bool }.

Record ReaderState : Type := mkReader { registration : Z; active_epoch : Z }.
Definition reader_new : ReaderState := mkReader 0 0.

(** ** The retire FIFO

    [CAPACITY] is the length of [entries]; [None] is an uninitialised entry, and
    an operation that reads one, or underflows a counter, has no result. *)

Record Retired : Type := mkRetired { pointer : nat; retire_epoch : Z }.

Record RetireQueue : Type := mkQueue {
  entries : list (option Retired); head : nat; len : nat; reserved : nat }.

Module RetireQueue.
Definition new (CAPACITY : nat) : RetireQueue := mkQueue (replicate CAPACITY None) 0 0 0.
Definition reserve (q : RetireQueue) : result RetireQueue RcuError :=
  if (length (entries q) <=? len q + reserved q)%nat then Err RetireCapacity
  else Ok (mkQueue (entries q) (head q) (len q) (reserved q + 1)).
Definition cancel_reservation (q : RetireQueue) : option RetireQueue :=
  match reserved q with
  | O => None
  | S n => Some (mkQueue (entries q) (head q) (len q) n)
  end.
Definition commit (r : Retired) (q : RetireQueue) : option RetireQueue :=
  let tail := ((head q + len q) mod length (entries q))%nat in
  match entries q !! tail, reserved q with
  | Some _, S n => Some (mkQueue (<[tail := Some r]> (entries q)) (head q) (len q + 1) n)
  | _, _ => None
  end.
Definition front (q : RetireQueue) : option (option Retired) :=
  if (len q =? 0)%nat then Some None
  else match entries q !! head q with Some (Some r) => Some (Some r) | _ => None end.
Definition pop (q : RetireQueue) : option (option Retired * RetireQueue) :=
  if (len q =? 0)%nat then Some (None, q)
  else match entries q !! head q with
       | Some (Some r) =>
           Some (Some r, mkQueue (<[head q := None]> (entries q)) ((head q + 1) mod length (entries q))%nat
             (len q - 1) (reserved q))
       | _ => None
       end.
Definition is_empty (q : RetireQueue) : bool := (len q =? 0)%nat.
End RetireQueue.

(** ** The platform and the shared state *)

(** Where a context is in its read-side section: not admitted; admitted with
    the epoch not yet loaded; [Sampled e], [Marked e]: the epoch is loaded, the
    marker stored; [Inside e p]: validated, outermost with epoch [e] or nested,
    holding the raw pointer [p]; [Leaving]: the marker is cleared. *)
Inductive Stage : Type :=
| Outside | Admitting | Sampled (e : Z) | Marked (e : Z) | Inside (outer : option Z) (raw : ptr) | Leaving.

Record Context : Type := mkContext { ctx_thread : nat; irqs_off : bool; stage : Stage }.

(** The [Arc] units, the retired owners not yet queued and the reservations of
    a thread. *)
Record Owner : Type := mkOwner { o_units : list nat; o_hand : list Retired; o_reserved : nat }.

Record Hints : Type := mkHints {
  retire_pending : bool; front_retire_epoch : Z; reclaim_wake_queued : bool; quiescent_edges : Z }.

Record Rcu : Type := mkRcu {
  epoch : Z; readers : list ReaderState; writer : option nat; retire_lock : option nat;
  retire : RetireQueue; hints : Hints;
  slots : list ptr; heap : gmap nat Z; contexts : list (list Context); owners : list Owner }.

Definition with_epoch (e : Z) (d : Rcu) : Rcu :=
  mkRcu e (readers d) (writer d) (retire_lock d) (retire d) (hints d) (slots d) (heap d) (contexts d) (owners d).
Definition with_reader (cpu : nat) (r : ReaderState) (d : Rcu) : Rcu :=
  mkRcu (epoch d) (<[cpu := r]> (readers d)) (writer d) (retire_lock d) (retire d) (hints d) (slots d) (heap d)
    (contexts d) (owners d).
Definition with_writer (w : option nat) (d : Rcu) : Rcu :=
  mkRcu (epoch d) (readers d) w (retire_lock d) (retire d) (hints d) (slots d) (heap d) (contexts d) (owners d).
Definition with_retire_lock (l : option nat) (d : Rcu) : Rcu :=
  mkRcu (epoch d) (readers d) (writer d) l (retire d) (hints d) (slots d) (heap d) (contexts d) (owners d).
Definition with_retire (q : RetireQueue) (d : Rcu) : Rcu :=
  mkRcu (epoch d) (readers d) (writer d) (retire_lock d) q (hints d) (slots d) (heap d) (contexts d) (owners d).
Definition with_hints (h : Hints) (d : Rcu) : Rcu :=
  mkRcu (epoch d) (readers d) (writer d) (retire_lock d) (retire d) h (slots d) (heap d) (contexts d) (owners d).
Definition with_slot (s : nat) (p : ptr) (d : Rcu) : Rcu :=
  mkRcu (epoch d) (readers d) (writer d) (retire_lock d) (retire d) (hints d) (<[s := p]> (slots d)) (heap d)
    (contexts d) (owners d).
Definition with_heap (h : gmap nat Z) (d : Rcu) : Rcu :=
  mkRcu (epoch d) (readers d) (writer d) (retire_lock d) (retire d) (hints d) (slots d) h (contexts d) (owners d).
Definition with_contexts (cpu : nat) (l : list Context) (d : Rcu) : Rcu :=
  mkRcu (epoch d) (readers d) (writer d) (retire_lock d) (retire d) (hints d) (slots d) (heap d)
    (<[cpu := l]> (contexts d)) (owners d).
Definition with_owner (i : nat) (o : Owner) (d : Rcu) : Rcu :=
  mkRcu (epoch d) (readers d) (writer d) (retire_lock d) (retire d) (hints d) (slots d) (heap d) (contexts d)
    (<[i := o]> (owners d)).

(** [EpochDomain::new], with [n] empty slots *)
Definition rcu_new (MAX_CPUS CAPACITY n : nat) : Rcu :=
  mkRcu 0 (replicate MAX_CPUS reader_new) None None (RetireQueue.new CAPACITY) (mkHints false 0 false 0)
    (replicate n None) ∅ (replicate MAX_CPUS []) [].

Local Abbreviation Prog := (prog Rcu).

(** A thread with a context runs when it is the innermost of its CPU. *)
Definition may_run (d : Rcu) (i : nat) : Prop :=
  forall (cpu : nat) (l : list Context),
    contexts d !! cpu = Some l -> i ∈ ctx_thread <$> l -> ctx_thread <$> l !! 0%nat = Some i.

Section Methods.
Context (MAX_CPUS : nat) (i : nat).

(** Accesses to the fields of one CPU. *)
Definition load_registration (cpu : nat) : Prog Z :=
  expect_step (fun d => r ← readers d !! cpu; Some (registration r, d)).
Definition load_active (cpu : nat) : Prog Z :=
  expect_step (fun d => r ← readers d !! cpu; Some (active_epoch r, d)).

(** The innermost context of [cpu], which is the running one. *)
Definition set_stage (cpu : nat) (s : Stage) (d : Rcu) : Rcu :=
  match contexts d !! cpu with
  | Some (x :: l) => with_contexts cpu (mkContext (ctx_thread x) (irqs_off x) s :: l) d
  | _ => d
  end.

(** [pin_current_cpu] and the drop of its guard *)
Definition pin (cpu : nat) : Prog () :=
  act (fun d => match contexts d !! cpu with
                | Some l =>
                    if existsb irqs_off (take 1 l) then None
                    else Some (tt, with_contexts cpu (mkContext i false Outside :: l) d)
                | None => Some (tt, d)
                end).
Definition unpin (cpu : nat) : Prog () :=
  put (fun d => match contexts d !! cpu with Some (_ :: l) => with_contexts cpu l d | _ => d end).

(** [with_local_irqs_disabled] *)
Definition set_irqs_off (cpu : nat) (b : bool) : Prog bool :=
  step (fun d => match contexts d !! cpu with
                 | Some (x :: l) => (irqs_off x, with_contexts cpu (mkContext (ctx_thread x) b (stage x) :: l) d)
                 | _ => (false, d)
                 end).
Definition with_local_irqs_disabled {A} (cpu : nat) (op : Prog A) : Prog A :=
  saved ← set_irqs_off cpu true; r ← op; set_irqs_off cpu saved;; mret r.

Definition store_active (cpu : nat) (e : Z) (s : Stage) : Prog () :=
  expect_step (fun d => r ← readers d !! cpu;
    Some (tt, set_stage cpu s (with_reader cpu (mkReader (registration r) e) d))).
(** [registration.fetch_sub(1)] *)
Definition leave (cpu : nat) : Prog () :=
  expect_step (fun d => r ← readers d !! cpu;
    Some (tt, set_stage cpu Outside
      (with_reader cpu (mkReader (wrapping_sub_u32 (registration r) 1) (active_epoch r)) d))).

(** The admission loop of [read_enter]; the depth before it *)
Definition admit_reader (cpu : nat) : Prog (result Z RcuError) :=
  expect_step (fun d => r ← readers d !! cpu;
    let state := registration r in
    if Z.land state REGISTERED_BIT =? 0 then Some (Err UnregisteredCpu, d)
    else
      let depth := Z.land state DEPTH_MASK in
      if depth =? MAX_READER_DEPTH then Some (Err ReaderNestingOverflow, d)
      else Some (Ok depth, set_stage cpu (if depth =? 0 then Admitting else Inside None None)
        (with_reader cpu (mkReader (state + 1) (active_epoch r)) d))).

(** [epoch.load], with what the reader has learnt *)
Definition sample_epoch (cpu : nat) : Prog Z :=
  step (fun d => (epoch d, if Z.odd (epoch d) then d else set_stage cpu (Sampled (epoch d)) d)).
Definition validate_epoch (cpu : nat) (e : Z) : Prog bool :=
  step (fun d => (epoch d =? e, if epoch d =? e then set_stage cpu (Inside (Some e) None) d else d)).

(** One round of [read_enter]: the closure under [with_local_irqs_disabled] *)
Definition read_enter_once (cpu : nat) : Prog (result (option (bool * Z)) RcuError) :=
  with_local_irqs_disabled cpu
    (admission ← admit_reader cpu;
     match admission with
     | Err error => mret (Err error)
     | Ok depth =>
         if negb (depth =? 0) then
           active ← load_active cpu; mret (Ok (Some (true, Z.max 0 (active - 1))))
         else
           e ← sample_epoch cpu;
           if Z.odd e then leave cpu;; mret (Ok None)
           else
             match checked_add_u64 e 1 with
             | None => leave cpu;; mret (Err EpochExhausted)
             | Some a =>
                 store_active cpu a (Marked e);;
                 same ← validate_epoch cpu e;
                 if same : bool then mret (Ok (Some (false, e)))
                 else store_active cpu 0 Leaving;; leave cpu;; mret (Ok None)
             end
     end).

Record Guard : Type := mkGuard { g_cpu : nat; g_epoch : Z; g_nested : bool }.

(** The loop of [read_enter]; [None] when it still spins after [fuel] rounds *)
Fixpoint read_enter_loop (fuel : nat) (cpu : nat) : Prog (option (result Guard RcuError)) :=
  match fuel with
  | O => mret None
  | S fuel =>
      admission ← read_enter_once cpu;
      match admission with
      | Ok (Some (nested, e)) => mret (Some (Ok (mkGuard cpu e nested)))
      | Ok None => read_enter_loop fuel cpu
      | Err error => unpin cpu;; mret (Some (Err error))
      end
  end.
Definition read_enter (fuel : nat) (cpu : nat) : Prog (option (result Guard RcuError)) :=
  pin cpu;;
  if (MAX_CPUS <=? cpu)%nat then unpin cpu;; mret (Some (Err UnregisteredCpu))
  else read_enter_loop fuel cpu.

(** [grace_complete]: two loads per CPU, in order *)
Definition reader_passed (state observed e : Z) : bool :=
  if negb (Z.land state DEPTH_MASK =? 0) then negb (observed =? 0) && (e <? observed)
  else if Z.land state REGISTERED_BIT =? 0 then observed =? 0
  else (observed =? 0) || (e <? observed).
Fixpoint grace_scan (cpus : list nat) (e : Z) : Prog bool :=
  match cpus with
  | [] => mret true
  | cpu :: cpus =>
      state ← load_registration cpu;
      observed ← load_active cpu;
      if reader_passed state observed e then grace_scan cpus e else mret false
  end.
Definition grace_complete (e : Z) : Prog bool := grace_scan (seq 0 MAX_CPUS) e.

(** Accesses to the hints *)
Definition put_hints (f : Hints -> Hints) : Prog () := put (fun d => with_hints (f (hints d)) d).
Definition set_pending (b : bool) (h : Hints) : Hints :=
  mkHints b (front_retire_epoch h) (reclaim_wake_queued h) (quiescent_edges h).
Definition set_front (e : Z) (h : Hints) : Hints :=
  mkHints (retire_pending h) e (reclaim_wake_queued h) (quiescent_edges h).
Definition set_wake (b : bool) (h : Hints) : Hints :=
  mkHints (retire_pending h) (front_retire_epoch h) b (quiescent_edges h).

(** The exchange of [reclaim_wake_queued] from false to true, and the callback
    [reader_quiescent] when it succeeds *)
Definition claim_wake : Prog bool :=
  step (fun d => (negb (reclaim_wake_queued (hints d)), with_hints (set_wake true (hints d)) d)).
Definition reader_quiescent : Prog () :=
  put_hints (fun h => mkHints (retire_pending h) (front_retire_epoch h) (reclaim_wake_queued h)
                        (quiescent_edges h + 1)).
Definition publish_wake_edge : Prog () :=
  front_epoch ← get (fun d => front_retire_epoch (hints d));
  if front_epoch =? 0 then mret tt
  else
    complete ← grace_complete front_epoch;
    if complete : bool then
      claimed ← claim_wake;
      if claimed : bool then reader_quiescent else mret tt
    else mret tt.

(** [note_reader_quiescent] *)
Definition note_reader_quiescent : Prog () :=
  pending ← get (fun d => retire_pending (hints d));
  if pending : bool then publish_wake_edge else mret tt.

(** [reader_exit], and the drop of a guard *)
Definition reader_exit (cpu : nat) (nested : bool) : Prog () :=
  with_local_irqs_disabled cpu
    ((if nested then mret tt else store_active cpu 0 Leaving);;
     load_registration cpu;;
     leave cpu);;
  if nested then mret tt else note_reader_quiescent.
Definition drop_guard (g : Guard) : Prog () :=
  reader_exit (g_cpu g) (g_nested g);; unpin (g_cpu g).

(** ** Ownership *)

Definition own (f : Owner -> Owner) (d : Rcu) : Rcu :=
  match owners d !! i with Some o => with_owner i (f o) d | None => d end.
Definition add_unit (a : nat) (o : Owner) : Owner := mkOwner (a :: o_units o) (o_hand o) (o_reserved o).
Fixpoint remove_one (a : nat) (l : list nat) : list nat :=
  match l with
  | [] => []
  | b :: l => if decide (a = b) then l else b :: remove_one a l
  end.
Definition drop_unit (a : nat) (o : Owner) : Owner := mkOwner (remove_one a (o_units o)) (o_hand o) (o_reserved o).
Definition take_hand (r : Retired) (o : Owner) : Owner := mkOwner (o_units o) (r :: o_hand o) (o_reserved o).
Definition empty_hand (o : Owner) : Owner := mkOwner (o_units o) [] (o_reserved o).
Definition set_reserved (n : nat) (o : Owner) : Owner := mkOwner (o_units o) (o_hand o) n.

(** [Arc::new] at a fresh address, [Arc::increment_strong_count], and the drop
    of an [Arc], which releases the last unit's allocation *)
Definition new_arc (a : nat) : Prog () :=
  act (fun d => match heap d !! a with
                | None => Some (tt, own (add_unit a) (with_heap (<[a := 1]> (heap d)) d))
                | Some _ => None
                end).
Definition increment_strong_count (a : nat) (after : Rcu -> Rcu) : Prog () :=
  expect_step (fun d => n ← heap d !! a;
    Some (tt, after (own (add_unit a) (with_heap (<[a := n + 1]> (heap d)) d)))).
Definition drop_arc (a : nat) : Prog () :=
  expect_step (fun d => n ← heap d !! a;
    Some (tt, own (drop_unit a) (with_heap (if n =? 1 then delete a (heap d) else <[a := n - 1]> (heap d)) d))).

(** ** Readers *)

Inductive LoadResult : Type := Loaded (p : ptr) | LoadError (e : RcuError) | Spinning.

Definition load_slot (s : nat) : Prog ptr := expect_step (fun d => p ← slots d !! s; Some (p, d)).

(** [pointer.load] of a reader, which then holds the raw pointer *)
Definition load_raw (s cpu : nat) (g : Guard) : Prog ptr :=
  expect_step (fun d => p ← slots d !! s;
    Some (p, set_stage cpu (Inside (if g_nested g then None else Some (g_epoch g)) p) d)).
Definition guard_stable (g : Guard) : Prog bool :=
  if g_nested g then mret true else get (fun d => epoch d =? g_epoch g).

(** [try_load_if_present]: [cpus] are the CPUs its rounds run on *)
Fixpoint try_load_if_present (fuel : nat) (cpus : list nat) (s : nat) : Prog LoadResult :=
  match cpus with
  | [] => mret Spinning
  | cpu :: cpus =>
      entered ← read_enter fuel cpu;
      match entered with
      | None => mret Spinning
      | Some (Err error) => mret (LoadError error)
      | Some (Ok g) =>
          p ← load_raw s cpu g;
          match p with
          | None => drop_guard g;; mret (Loaded None)
          | Some a =>
              increment_strong_count a
                (set_stage cpu (Inside (if g_nested g then None else Some (g_epoch g)) None));;
              same ← guard_stable g;
              if same : bool then drop_guard g;; mret (Loaded (Some a))
              else drop_arc a;; drop_guard g;; try_load_if_present fuel cpus s
          end
      end
  end.

(** [try_load] *)
Definition try_load (fuel : nat) (cpus : list nat) (s : nat) : Prog LoadResult :=
  r ← try_load_if_present fuel cpus s;
  mret (match r with Loaded None => LoadError EmptySlot | r => r end).

(** [RcuSlot::is_empty]; [None] when it still spins after [fuel] rounds *)
Fixpoint slot_is_empty (fuel : nat) (s : nat) : Prog (option bool) :=
  match fuel with
  | O => mret None
  | S fuel =>
      before ← get epoch;
      if Z.odd before then slot_is_empty fuel s
      else
        p ← load_slot s;
        after ← get epoch;
        if after =? before then mret (Some (bool_decide (p = None))) else slot_is_empty fuel s
  end.

(** ** Writers *)

Definition lock_writer : Prog () :=
  act (fun d => match writer d with None => Some (tt, with_writer (Some i) d) | Some _ => None end).
Definition unlock_writer : Prog () := put (with_writer None).
Definition lock_retire : Prog () :=
  act (fun d => match retire_lock d with None => Some (tt, with_retire_lock (Some i) d) | Some _ => None end).
Definition unlock_retire : Prog () := put (with_retire_lock None).

(** A critical section of the retire lock that touches the FIFO only *)
Definition with_retire_locked {A} (f : Rcu -> option (A * Rcu)) : Prog A :=
  lock_retire;; a ← expect_step f; unlock_retire;; mret a.

(** [reserve_retire], and the drop of a reservation *)
Definition reserve_retire : Prog (result () RcuError) :=
  e ← get epoch;
  match checked_add_u64 e 2 with
  | None => mret (Err EpochExhausted)
  | Some _ =>
      with_retire_locked (fun d =>
        match RetireQueue.reserve (retire d) with
        | Ok q => Some (Ok tt, own (fun o => set_reserved (S (o_reserved o)) o) (with_retire q d))
        | Err e => Some (Err e, d)
        end)
  end.
Definition cancel_reservation : Prog () :=
  with_retire_locked (fun d =>
    q ← RetireQueue.cancel_reservation (retire d);
    Some (tt, own (fun o => set_reserved (Nat.pred (o_reserved o)) o) (with_retire q d))).

Definition store_epoch (e : Z) : Prog () := put (with_epoch e).

(** [slot.swap] of a replacement (none for a clear) *)
Definition swap_slot (s : nat) (replacement : ptr) (e : Z) : Prog ptr :=
  expect_step (fun d => old ← slots d !! s;
    Some (old, own (fun o =>
      let o := match replacement with Some a => drop_unit a o | None => o end in
      match old with Some a => take_hand (mkRetired a e) o | None => o end) (with_slot s replacement d))).

(** The retirement of an owner: the end of [publish] and of [clear] *)
Definition commit_retired (r : Retired) : Prog () :=
  lock_retire;;
  was_empty ← get (fun d => RetireQueue.is_empty (retire d));
  expect_step (fun d => q ← RetireQueue.commit r (retire d);
    Some (tt, own (fun o => set_reserved (Nat.pred (o_reserved o)) (empty_hand o)) (with_retire q d)));;
  (if was_empty : bool then put_hints (set_front (retire_epoch r)) else mret tt);;
  put_hints (set_pending true);;
  unlock_retire.

(** [publish] *)
Definition publish (s replacement expected : nat) : Prog (result nat PublishError) :=
  lock_writer;;
  current ← load_slot s;
  if bool_decide (current <> Some expected) then
    cancel_reservation;; unlock_writer;; mret (Err (PublishStale replacement))
  else
    old_epoch ← get epoch;
    match checked_add_u64 old_epoch 1 with
    | None => cancel_reservation;; unlock_writer;; mret (Err (PublishEpochExhausted replacement))
    | Some closing_epoch =>
        match checked_add_u64 old_epoch 2 with
        | None => cancel_reservation;; unlock_writer;; mret (Err (PublishEpochExhausted replacement))
        | Some new_epoch =>
            store_epoch closing_epoch;;
            old ← swap_slot s (Some replacement) new_epoch;
            store_epoch new_epoch;;
            match old with
            | None => Crash
            | Some old =>
                increment_strong_count old id;;
                commit_retired (mkRetired old new_epoch);;
                unlock_writer;;
                mret (Ok old)
            end
        end
    end.

(** [publish_if_empty] *)
Definition publish_if_empty (s replacement : nat) : Prog (result () PublishError) :=
  lock_writer;;
  current ← load_slot s;
  if bool_decide (current <> None) then unlock_writer;; mret (Err (PublishStale replacement))
  else
    old_epoch ← get epoch;
    match checked_add_u64 old_epoch 1 with
    | None => unlock_writer;; mret (Err (PublishEpochExhausted replacement))
    | Some closing_epoch =>
        match checked_add_u64 old_epoch 2 with
        | None => unlock_writer;; mret (Err (PublishEpochExhausted replacement))
        | Some next_epoch =>
            store_epoch closing_epoch;;
            put (fun d => own (drop_unit replacement) (with_slot s (Some replacement) d));;
            store_epoch next_epoch;;
            unlock_writer;;
            mret (Ok tt)
        end
    end.

(** [clear] *)
Definition clear (s expected : nat) : Prog (result nat ClearError) :=
  lock_writer;;
  current ← load_slot s;
  if bool_decide (current <> Some expected) then
    cancel_reservation;; unlock_writer;; mret (Err ClearStale)
  else
    old_epoch ← get epoch;
    match checked_add_u64 old_epoch 1 with
    | None => cancel_reservation;; unlock_writer;; mret (Err ClearEpochExhausted)
    | Some closing_epoch =>
        match checked_add_u64 old_epoch 2 with
        | None => cancel_reservation;; unlock_writer;; mret (Err ClearEpochExhausted)
        | Some new_epoch =>
            store_epoch closing_epoch;;
            old ← swap_slot s None new_epoch;
            store_epoch new_epoch;;
            match old with
            | None => cancel_reservation;; unlock_writer;; mret (Err ClearStale)
            | Some old =>
                increment_strong_count old id;;
                commit_retired (mkRetired old new_epoch);;
                unlock_writer;;
                mret (Ok old)
            end
        end
    end.

(** ** Reclamation *)

Definition queue_front : Prog (option Retired) :=
  expect_step (fun d => r ← RetireQueue.front (retire d); Some (r, d)).
(** [pop]: the popped owner belongs to the drain from here on *)
Definition queue_pop : Prog (option Retired) :=
  expect_step (fun d => '(r, q) ← RetireQueue.pop (retire d);
    Some (r, own (fun o => match r with Some r => add_unit (pointer r) o | None => o end) (with_retire q d))).

(** The loop of [drain]; the result is the number of owners dropped *)
Fixpoint drain_loop (limit : nat) : Prog Z :=
  match limit with
  | O => mret 0
  | S limit =>
      lock_retire;;
      front ← queue_front;
      match front with
      | None => unlock_retire;; mret 0
      | Some front =>
          complete ← grace_complete (retire_epoch front);
          if complete : bool then
            entry ← queue_pop;
            next ← queue_front;
            put_hints (set_front (match next with Some r => retire_epoch r | None => 0 end));;
            unlock_retire;;
            match entry with
            | None => mret 0
            | Some entry =>
                drop_arc (pointer entry);;
                n ← drain_loop limit;
                mret (n + 1)
            end
          else unlock_retire;; mret 0
      end
  end.

(** [drain]; the two booleans are [in_task_context] and
    [in_preemptible_task_context] *)
Definition drain (in_task preemptible : bool) (limit : nat) : Prog (result DrainStatus RcuError) :=
  if negb in_task || negb preemptible then mret (Err NotTaskContext)
  else
    (if (limit =? 0)%nat then mret tt else put_hints (set_wake false));;
    dropped ← drain_loop limit;
    lock_retire;;
    front ← queue_front;
    '(pending, blocked) ←
      match front with
      | None =>
          put_hints (set_pending false);;
          put_hints (set_front 0);;
          put_hints (set_wake false);;
          mret (false, false)
      | Some front => complete ← grace_complete (retire_epoch front); mret (true, negb complete)
      end;
    unlock_retire;;
    (if blocked : bool then put_hints (set_wake false);; publish_wake_edge else mret tt);;
    mret (Ok (mkDrainStatus dropped pending blocked)).

(** [has_pending] and [has_reclaimable_pending] *)
Definition has_pending : Prog bool :=
  with_retire_locked (fun d => Some (negb (RetireQueue.is_empty (retire d)), d)).
Definition has_reclaimable_pending : Prog bool :=
  lock_retire;;
  front ← queue_front;
  b ← match front with Some r => grace_complete (retire_epoch r) | None => mret false end;
  unlock_retire;;
  mret b.

(** ** Registration *)

Definition exchange_registration (cpu : nat) (old new : Z) : Prog (option Z) :=
  expect_step (fun d => r ← readers d !! cpu;
    if registration r =? old then Some (None, with_reader cpu (mkReader new (active_epoch r)) d)
    else Some (Some (registration r), d)).

(** [register_cpu] *)
Definition register_cpu (cpu : nat) : Prog (result () RcuError) :=
  if (MAX_CPUS <=? cpu)%nat then mret (Err UnregisteredCpu)
  else
    failed ← exchange_registration cpu 0 REGISTERED_BIT;
    mret (match failed with
          | None => Ok tt
          | Some state => if negb (Z.land state REGISTERED_BIT =? 0) then Err CpuAlreadyRegistered else Err CpuBusy
          end).

(** [unregister_cpu] *)
Definition unregister_cpu (cpu : nat) : Prog (result () RcuError) :=
  if (MAX_CPUS <=? cpu)%nat then mret (Err UnregisteredCpu)
  else
    failed ← exchange_registration cpu REGISTERED_BIT 0;
    match failed with
    | None =>
        active ← load_active cpu;
        if active =? 0 then mret (Ok tt)
        else exchange_registration cpu 0 REGISTERED_BIT;; mret (Err CpuBusy)
    | Some state => mret (Err (if state =? 0 then CpuNotRegistered else CpuBusy))
    end.

(** ** Destruction *)

(** [Drop for RcuSlot]: the slot's unit passes to the thread, which drops it *)
Definition drop_slot (s : nat) : Prog () :=
  p ← expect_step (fun d => p ← slots d !! s;
    Some (p, own (fun o => match p with Some a => add_unit a o | None => o end) (with_slot s None d)));
  match p with Some a => drop_arc a | None => mret tt end.

(** [Drop for RetireQueue], with a bound on the number of pops *)
Fixpoint drop_queue (fuel : nat) : Prog () :=
  match fuel with
  | O => Crash
  | S fuel =>
      entry ← queue_pop;
      match entry with
      | None => mret tt
      | Some entry => drop_arc (pointer entry);; drop_queue fuel
      end
  end.

End Methods.
