(* ===== verification/RcuSafety.v ===== *)
(** Read-copy-update, part 2: the ring buffer of retired owners is a bounded
    FIFO with reservations.

    Read-copy-update, part 3: the invariant of the shared state, and what every
    thread may rely on.

    Read-copy-update, part 4: the actions of a reader on its own CPU. *)

From stdpp Require Import gmap.
From S2P Require Import Prelude Threads Rcu.
Local Open Scope nat_scope.

(** [ring q l]: the queue holds [l], oldest first, and its reservations fit. *)
Record ring (q : RetireQueue) (l : list Retired) : Prop := {
  ring_len : len q = length l;
  ring_room : len q + reserved q <= length (entries q);
  ring_head : length (entries q) <> 0 -> head q < length (entries q);
  ring_at : forall k r, l !! k = Some r -> entries q !! ((head q + k) mod length (entries q)) = Some (Some r)
}.

(** The contents, read from the ring. *)
Definition contents (q : RetireQueue) : list Retired :=
  omap (fun k => mjoin (entries q !! ((head q + k) mod length (entries q)))) (seq 0 (len q)).

Lemma ring_contents q l : ring q l -> contents q = l.
Proof.
  intros [Hlen _ _ Hat]. unfold contents. rewrite Hlen.
  assert (forall n, n <= length l ->
    omap (fun k => mjoin (entries q !! ((head q + k) mod length (entries q)))) (seq n (length l - n)) = drop n l) as Hall.
  { intros n Hn. remember (length l - n) as m eqn:Hm. revert n Hn Hm. induction m as [|m IH]; intros n Hn Hm.
    - cbn. by rewrite drop_ge by lia.
    - destruct (lookup_lt_is_Some_2 l n) as [r Hr]; [lia|]. cbn [seq omap list_omap].
      rewrite (Hat n r Hr), (drop_S l r n Hr). cbn. f_equal. apply IH; lia. }
  specialize (Hall 0 ltac:(lia)). by rewrite Nat.sub_0_r, drop_0 in Hall.
Qed.

Lemma ring_new n : ring (RetireQueue.new n) [].
Proof. split; cbn; [done|lia|rewrite length_replicate; lia|done]. Qed.

Lemma ring_reserve q l : ring q l ->
  match RetireQueue.reserve q with
  | Ok q' => ring q' l /\ reserved q' = S (reserved q)
  | Err e => e = RetireCapacity /\ length l + reserved q = length (entries q)
  end.
Proof.
  intros [Hlen Hroom Hhead Hat]. unfold RetireQueue.reserve.
  destruct (length (entries q) <=? len q + reserved q) eqn:He.
  - apply Nat.leb_le in He. split; [done|]. lia.
  - apply Nat.leb_gt in He. split; [|cbn; lia]. split; cbn; [done|lia|done|done].
Qed.

Lemma ring_cancel q l : ring q l -> reserved q <> 0 ->
  exists q', RetireQueue.cancel_reservation q = Some q' /\ ring q' l /\ reserved q = S (reserved q').
Proof.
  intros [Hlen Hroom Hhead Hat] Hr. unfold RetireQueue.cancel_reservation. destruct (reserved q) as [|n] eqn:Hn; [done|].
  eexists. split; [done|]. split; [|done]. split; cbn; [done|lia|done|done].
Qed.

Lemma ring_distinct c h j k : j < c -> k < c -> j <> k -> (h + j) mod c <> (h + k) mod c.
Proof.
  intros Hj Hk Hne Heq. apply Hne.
  assert (forall a b, a < c -> b < c -> a <= b -> (h + a) mod c = (h + b) mod c -> a = b) as Hwlog.
  { intros a b Ha Hb Hle Hmod. pose proof (Nat.div_mod_eq (h + a) c) as Ea. pose proof (Nat.div_mod_eq (h + b) c) as Eb.
    rewrite Hmod in Ea. set (qa := (h + a) / c) in *. set (qb := (h + b) / c) in *.
    destruct (Nat.eq_dec qa qb) as [Hq|Hq]; [rewrite Hq in Ea; lia|].
    destruct (Nat.lt_ge_cases qa qb); [|nia]. assert (c * qa + c <= c * qb) by nia. lia. }
  destruct (Nat.le_ge_cases j k); [by apply Hwlog|symmetry; by apply Hwlog].
Qed.

Lemma ring_commit q l r : ring q l -> reserved q <> 0 ->
  exists q', RetireQueue.commit r q = Some q' /\ ring q' (l ++ [r]) /\ reserved q = S (reserved q').
Proof.
  intros [Hlen Hroom Hhead Hat] Hres. unfold RetireQueue.commit.
  set (c := length (entries q)) in *. set (tail := (head q + len q) mod c).
  assert (tail < c) as Htail by (apply Nat.mod_upper_bound; lia).
  destruct (lookup_lt_is_Some_2 (entries q) tail Htail) as [o ->].
  destruct (reserved q) as [|n] eqn:Hn; [done|]. eexists. split; [done|]. split; [|done].
  split; cbn; rewrite ?length_insert, ?length_app; cbn.
  - lia.
  - fold c. lia.
  - done.
  - fold c. intros k r' Hk. apply lookup_app_Some in Hk as [Hk|[Hge Hk]].
    + rewrite list_lookup_insert_ne; [by apply Hat|]. apply lookup_lt_Some in Hk.
      apply (ring_distinct c (head q) (len q) k); lia.
    + apply list_lookup_singleton_Some in Hk as [Hk <-]. replace k with (len q) by lia. fold tail.
      by rewrite list_lookup_insert_eq.
Qed.

Lemma ring_front q l : ring q l -> RetireQueue.front q = Some (hd_error l).
Proof.
  intros [Hlen Hroom Hhead Hat]. unfold RetireQueue.front. destruct l as [|r l].
  - by rewrite (proj2 (Nat.eqb_eq _ _)).
  - rewrite (proj2 (Nat.eqb_neq _ _)) by (cbn in Hlen; lia). specialize (Hat 0 r eq_refl).
    rewrite Nat.add_0_r, Nat.mod_small in Hat by (apply Hhead; cbn in Hlen; lia). by rewrite Hat.
Qed.

Lemma ring_pop q l : ring q l ->
  exists q', RetireQueue.pop q = Some (hd_error l, q') /\ ring q' (tail l) /\ reserved q' = reserved q.
Proof.
  intros Hring. pose proof Hring as [Hlen Hroom Hhead Hat]. unfold RetireQueue.pop. destruct l as [|r l].
  - rewrite (proj2 (Nat.eqb_eq _ _)) by done. by exists q.
  - rewrite (proj2 (Nat.eqb_neq _ _)) by (cbn in Hlen; lia). pose proof (Hat 0 r eq_refl) as Hr.
    set (c := length (entries q)) in *. cbn in Hlen. assert (head q < c) as Hh by (apply Hhead; lia).
    rewrite Nat.add_0_r, Nat.mod_small in Hr by done. rewrite Hr. eexists. split; [done|]. split; [|done].
    split; cbn; rewrite ?length_insert; fold c.
    + lia.
    + lia.
    + intros _. apply Nat.mod_upper_bound. lia.
    + intros k r' Hk. rewrite Nat.Div0.add_mod_idemp_l.
      replace (head q + 1 + k) with (head q + S k) by lia. specialize (Hat (S k) r' Hk).
      rewrite list_lookup_insert_ne; [done|]. apply lookup_lt_Some in Hk.
      rewrite <- (Nat.mod_small (head q) c Hh) at 1. rewrite <- (Nat.add_0_r (head q)) at 1.
      apply ring_distinct; lia.
Qed.

Local Open Scope Z_scope.

(** ** Registration words *)

Definition word (online : bool) (depth : nat) : Z := (if online then REGISTERED_BIT else 0) + Z.of_nat depth.

Lemma registered_bit : REGISTERED_BIT = 1 * 2 ^ 31.
Proof. reflexivity. Qed.
Lemma depth_mask : DEPTH_MASK = Z.ones 31.
Proof. reflexivity. Qed.

Lemma word_bits b n : Z.of_nat n <= DEPTH_MASK ->
  Z.land (word b n) DEPTH_MASK = Z.of_nat n /\ Z.land (word b n) REGISTERED_BIT = (if b then REGISTERED_BIT else 0).
Proof.
  intros Hn. assert (0 <= Z.of_nat n < 2 ^ 31) as Hr by (change DEPTH_MASK with (2 ^ 31 - 1) in Hn; lia).
  clear Hn. unfold word. rewrite depth_mask, registered_bit, Z.land_ones by lia. split.
  - destruct b; [|by apply Z.mod_small]. rewrite Z.add_comm, Z.mod_add by lia. by apply Z.mod_small.
  - apply Z.bits_inj'. intros k Hk. rewrite Z.land_spec, Z.mul_1_l.
    destruct (decide (k = 31)) as [->|Hk'].
    + rewrite Z.pow2_bits_true, andb_true_r by lia. destruct b.
      * rewrite Z.pow2_bits_true by lia. replace (2 ^ 31 + Z.of_nat n) with (Z.of_nat n + 1 * 2 ^ 31) by lia.
        rewrite Z.testbit_odd, Z.shiftr_div_pow2, Z.div_add, Z.div_small by lia. done.
      * rewrite Z.testbit_0_l. by apply (small_high_bits 31).
    + rewrite Z.pow2_bits_false, andb_false_r by lia. destruct b; [by rewrite Z.pow2_bits_false by lia|].
      by rewrite Z.testbit_0_l.
Qed.

(** ** Stacks of contexts *)

Definition is_counted (x : Context) : bool := match stage x with Outside => false | _ => true end.
Definition counted (l : list Context) : nat := length (List.filter is_counted l).

(** The marker that the contexts of a CPU leave in its active epoch. *)
Fixpoint active_of (l : list Context) : Z :=
  match l with
  | [] => 0
  | x :: l =>
      match stage x with
      | Marked e | Inside (Some e) _ => e + 1
      | _ => active_of l
      end
  end.

Definition stage_epoch (s : Stage) : option Z :=
  match s with Sampled e | Marked e | Inside (Some e) _ => Some e | _ => None end.
Definition raw_of (s : Stage) : ptr := match s with Inside _ p => p | _ => None end.

(** An interrupted context is between its masked transitions. *)
Definition settled (x : Context) : Prop :=
  irqs_off x = false /\ match stage x with Outside | Inside _ _ => True | _ => False end.

Fixpoint stack_ok (l : list Context) : Prop :=
  match l with
  | [] => True
  | x :: l =>
      match stage x with
      | Outside => True
      | Inside None _ => (0 < counted l)%nat
      | _ => counted l = 0%nat
      end /\ Forall settled l /\ stack_ok l
  end.

Definition epoch_ok (now : Z) (x : Context) : Prop :=
  match stage_epoch (stage x) with Some e => 0 <= e <= now /\ Z.even e = true | None => True end.

Record cpu_ok (now : Z) (l : list Context) (r : ReaderState) : Prop := {
  cpu_word : exists online, registration r = word online (counted l) /\ ((0 < counted l)%nat -> online = true);
  cpu_depth : Z.of_nat (counted l) <= DEPTH_MASK;
  cpu_active : active_epoch r = active_of l;
  cpu_stack : stack_ok l;
  cpu_masked : match l with x :: _ => irqs_off x = true \/ settled x | [] => True end;
  cpu_epochs : Forall (epoch_ok now) l
}.

Lemma counted_cons x l : counted (x :: l) = ((if is_counted x then 1 else 0) + counted l)%nat.
Proof. unfold counted. cbn. by destruct (is_counted x). Qed.

(** A settled stack is active exactly when a context is admitted. *)
Lemma active_settled now l : Forall settled l -> stack_ok l -> Forall (epoch_ok now) l ->
  if decide (counted l = 0%nat) then active_of l = 0 else 0 < active_of l.
Proof.
  induction l as [|x l IH]; [done|]. intros [[_ Hx] Hs]%Forall_cons (Hst & _ & Hok) [He Hes]%Forall_cons.
  specialize (IH Hs Hok Hes). rewrite counted_cons. unfold is_counted, epoch_ok in *. cbn [active_of].
  destruct (stage x) as [| | | |[e|] p|]; try done; cbn in *.
  - rewrite decide_False by lia. lia.
  - rewrite decide_False in IH by lia. by rewrite decide_False by lia.
Qed.

(** ** Grace *)

(** No reader of the stack can depend on an owner retired at epoch [e]. *)
Definition quiet (e : Z) (l : list Context) : Prop :=
  (active_of l = 0 \/ e < active_of l) /\ forall x e', x ∈ l -> stage x = Sampled e' -> e <= e'.

(** ** The invariant *)

Definition hands (d : Rcu) : list Retired := owners d ≫= o_hand.

(** A raw pointer of a reader whose CPU shows the marker [a] is held by a slot,
    or by an owner retired too late for it. *)
Definition supported (d : Rcu) (p : nat) (a : Z) : Prop :=
  Some p ∈ slots d \/
  exists r, r ∈ contents (retire d) ++ hands d /\ pointer r = p /\ a < retire_epoch r.

Definition owner_units (o : Owner) : list nat := o_units o ++ (pointer <$> o_hand o).
Definition units (d : Rcu) : list nat :=
  omap id (slots d) ++ (pointer <$> contents (retire d)) ++ (owners d ≫= owner_units).

(** Strong counts are exact. *)
Definition heap_ok (h : gmap nat Z) (us : list nat) : Prop := forall p,
  match h !! p with
  | Some n => n = Z.of_nat (occ p us) /\ 1 <= n
  | None => occ p us = 0%nat
  end.

Definition total_reserved (d : Rcu) : nat := sum_list_with o_reserved (owners d).

Section Invariant.
Context (MAX_CPUS SLOTS : nat).

Record Inv (d : Rcu) : Prop := {
  inv_readers : length (readers d) = MAX_CPUS;
  inv_contexts : length (contexts d) = MAX_CPUS;
  inv_slots : length (slots d) = SLOTS;
  inv_epoch : 0 <= epoch d <= u64_MAX;
  inv_even : writer d = None -> Z.even (epoch d) = true;
  inv_cpu : forall c l r, contexts d !! c = Some l -> readers d !! c = Some r -> cpu_ok (epoch d) l r;
  inv_raw : forall c l x p, contexts d !! c = Some l -> x ∈ l -> raw_of (stage x) = Some p ->
    supported d p (active_of l);
  inv_heap : heap_ok (heap d) (units d);
  inv_ring : ring (retire d) (contents (retire d));
  inv_retired : Forall (fun r => retire_epoch r <= epoch d) (contents (retire d));
  inv_reserved : reserved (retire d) = total_reserved d
}.

(** What the other contexts of a CPU leave alone: a thread's own context and
    everything below it. *)
Fixpoint view (i : nat) (l : list Context) : list Context :=
  match l with
  | [] => []
  | x :: l' => if decide (ctx_thread x = i) then l else view i l'
  end.

(** What thread [i] may rely on. *)
Record rely (i : nat) (d d' : Rcu) : Prop := {
  rely_owner : owners d' !! i = owners d !! i;
  rely_writer : writer d = Some i -> writer d' = Some i /\ epoch d' = epoch d /\ slots d' = slots d;
  rely_lock : retire_lock d = Some i -> retire_lock d' = Some i /\ retire d' = retire d;
  rely_epoch : epoch d <= epoch d';
  rely_quiet : forall c l l' e, contexts d !! c = Some l -> contexts d' !! c = Some l' ->
    e <= epoch d -> quiet e l -> quiet e l';
  rely_view : forall c l l', contexts d !! c = Some l -> contexts d' !! c = Some l' -> view i l' = view i l;
  rely_cpus : length (contexts d') = length (contexts d);
  rely_threads : (length (owners d) <= length (owners d'))%nat
}.

#[export] Instance rely_preorder i : PreOrder (rely i).
Proof.
  split.
  - intros d. split; try done; intros; simplify_eq; done.
  - intros d1 d2 d3 [O1 W1 L1 E1 Q1 V1 C1 T1] [O2 W2 L2 E2 Q2 V2 C2 T2].
    assert (forall c l l', contexts d1 !! c = Some l -> contexts d3 !! c = Some l' ->
      exists m, contexts d2 !! c = Some m) as Hmid.
    { intros c l l' Hl Hl'. apply lookup_lt_is_Some. apply lookup_lt_Some in Hl. lia. }
    split.
    + by rewrite O2.
    + intros (H1 & He & Hs)%W1. by apply W2 in H1 as (? & -> & ->).
    + intros (H1 & Hr)%L1. by apply L2 in H1 as (? & ->).
    + lia.
    + intros c l l' e Hl Hl' He Hq. destruct (Hmid c l l' Hl Hl') as [m Hm].
      apply (Q2 c m l' e Hm Hl'); [lia|]. by apply (Q1 c l m e).
    + intros c l l' Hl Hl'. destruct (Hmid c l l' Hl Hl') as [m Hm].
      by rewrite (V2 c m l' Hm Hl'), (V1 c l m Hl Hm).
    + by rewrite C2.
    + lia.
Qed.

End Invariant.

Section Actions.
Context (MAX_CPUS SLOTS : nat).
Local Abbreviation Inv := (Inv MAX_CPUS SLOTS).
Local Abbreviation rg := (rg may_run Inv rely).
Implicit Types (d : Rcu) (x : Context) (rest l : list Context) (r : ReaderState).

(** ** Updates of one CPU *)

Definition with_cpu (c : nat) (l : list Context) (r : ReaderState) d : Rcu :=
  with_contexts c l (with_reader c r d).

Lemma with_cpu_reader c l r d : readers d !! c = Some r -> with_contexts c l d = with_cpu c l r d.
Proof.
  intros Hr. unfold with_cpu, with_contexts, with_reader. cbn. by rewrite (list_insert_id (readers d)).
Qed.

Lemma with_cpu_id c l r d : contexts d !! c = Some l -> readers d !! c = Some r -> with_cpu c l r d = d.
Proof.
  intros Hl Hr. unfold with_cpu, with_contexts, with_reader. cbn.
  rewrite !list_insert_id by done. by destruct d.
Qed.

Lemma cpu_update i c l l' r r' d :
  Inv d -> contexts d !! c = Some l -> readers d !! c = Some r -> cpu_ok (epoch d) l' r' ->
  (forall e, e <= epoch d -> quiet e l -> quiet e l') ->
  (forall x p, x ∈ l' -> raw_of (stage x) = Some p -> supported d p (active_of l')) ->
  (forall j, j <> i -> view j l' = view j l) ->
  Inv (with_cpu c l' r' d) /\ forall j, j <> i -> rely j d (with_cpu c l' r' d).
Proof.
  intros Hi Hl Hr Hok Hq Hraw Hv. pose proof (lookup_lt_Some _ _ _ Hl) as Hcl.
  pose proof (lookup_lt_Some _ _ _ Hr) as Hcr. split.
  - destruct Hi as [Ir Ic Is Ie Iv Icpu Iraw Ih Iring Iret Ires]. split; cbn; try done.
    + by rewrite length_insert.
    + by rewrite length_insert.
    + intros c' l1 r1 H1 H2. destruct (decide (c = c')) as [<-|Hne].
      * rewrite list_lookup_insert_eq in H1 by done. rewrite list_lookup_insert_eq in H2 by done. by simplify_eq.
      * rewrite list_lookup_insert_ne in H1 by done. rewrite list_lookup_insert_ne in H2 by done. by eapply Icpu.
    + intros c' l1 x p H1 Hx Hp. destruct (decide (c = c')) as [<-|Hne].
      * rewrite list_lookup_insert_eq in H1 by done. simplify_eq. by eapply Hraw.
      * rewrite list_lookup_insert_ne in H1 by done. by eapply Iraw.
  - intros j Hj. split; cbn; try done.
    + intros c' l1 l2 e H1 H2 He Hqe. destruct (decide (c = c')) as [<-|Hne].
      * rewrite list_lookup_insert_eq in H2 by done. simplify_eq. auto.
      * rewrite list_lookup_insert_ne in H2 by done. by simplify_eq.
    + intros c' l1 l2 H1 H2. destruct (decide (c = c')) as [<-|Hne].
      * rewrite list_lookup_insert_eq in H2 by done. simplify_eq. auto.
      * rewrite list_lookup_insert_ne in H2 by done. by simplify_eq.
    + by rewrite length_insert.
Qed.

(** ** What a thread knows

    Its owner record; its context and those below it; and, while it holds a
    lock, what the lock protects. *)

Record Local : Type := mkLocal {
  l_owner : Owner;
  l_pin : option (nat * Context * list Context);
  l_writer : option (Z * list ptr);
  l_lock : option RetireQueue }.
Implicit Types L : Local.

Definition pinned (i c : nat) x rest d : Prop :=
  exists l, contexts d !! c = Some l /\ view i l = x :: rest.

Record local (i : nat) L d : Prop := {
  local_owner : owners d !! i = Some (l_owner L);
  local_pin : match l_pin L with Some (c, x, rest) => pinned i c x rest d | None => True end;
  local_writer : match l_writer L with
    | Some (e, sl) => writer d = Some i /\ epoch d = e /\ slots d = sl
    | None => True end;
  local_lock : match l_lock L with Some q => retire_lock d = Some i /\ retire d = q | None => True end
}.

Lemma view_top i x rest : ctx_thread x = i -> view i (x :: rest) = x :: rest.
Proof. intros Hx. cbn. by rewrite decide_True. Qed.
Lemma view_other j x rest : ctx_thread x <> j -> view j (x :: rest) = view j rest.
Proof. intros Hx. cbn. by rewrite decide_False. Qed.
Lemma view_in i l x rest : view i l = x :: rest -> i ∈ ctx_thread <$> l /\ ctx_thread x = i.
Proof.
  induction l as [|y l IH]; cbn; [done|]. destruct (decide (ctx_thread y = i)) as [<-|Hne].
  - intros [= <- <-]. split; [left|done].
  - intros [? ?]%IH. split; [by right|done].
Qed.

Lemma local_stable i L d d1 : local i L d -> rely i d d1 -> local i L d1.
Proof.
  intros [Ho Hp Hw Hl] [Ro Rw Rl Re Rq Rv Rc _]. split.
  - by rewrite Ro.
  - destruct (l_pin L) as [[[c x] rest]|]; [|done]. destruct Hp as (l & Hc & Hv).
    destruct (lookup_lt_is_Some_2 (contexts d1) c) as [l1 Hl1].
    { rewrite Rc. by eapply lookup_lt_Some. }
    exists l1. split; [done|]. by rewrite (Rv c l l1).
  - destruct (l_writer L) as [[e sl]|]; [|done]. destruct Hw as (Hw & <- & <-). by apply Rw in Hw.
  - destruct (l_lock L) as [q|]; [|done]. destruct Hl as (Hl & <-). by apply Rl in Hl.
Qed.

(** A thread that runs is the innermost context of its CPU. *)
Lemma pinned_top i c x rest d : pinned i c x rest d -> may_run d i ->
  contexts d !! c = Some (x :: rest) /\ ctx_thread x = i.
Proof.
  intros (l & Hc & Hv) Hm. destruct (view_in _ _ _ _ Hv) as [Hin Hx].
  specialize (Hm c l Hc Hin). destruct l as [|y l]; [done|]. cbn in Hm. injection Hm as Hy.
  rewrite view_top in Hv by done. injection Hv as -> ->. done.
Qed.

Lemma rg_local_act {A B} i L (f : Rcu -> option (B * Rcu)) (k : B -> prog Rcu A) Q d :
  local i L d ->
  (forall d1, rely i d d1 -> Inv d1 -> may_run d1 i -> local i L d1 -> forall b d2, f d1 = Some (b, d2) ->
    Inv d2 /\ (forall j, j <> i -> rely j d1 d2) /\ rg i (k b) Q d2) ->
  rg i (act f ≫= k) Q d.
Proof. intros HL Hf. apply rg_act. intros d1 Hd1 Hi Hm. apply Hf; try done. by eapply local_stable. Qed.

Lemma rg_local {A B} i L (f : Rcu -> option (B * Rcu)) (k : B -> prog Rcu A) Q d :
  local i L d ->
  (forall d1, rely i d d1 -> Inv d1 -> may_run d1 i -> local i L d1 -> exists b d2, f d1 = Some (b, d2) /\
    Inv d2 /\ (forall j, j <> i -> rely j d1 d2) /\ rg i (k b) Q d2) ->
  rg i (expect_step f ≫= k) Q d.
Proof. intros HL Hf. apply rg_expect_step. intros d1 Hd1 Hi Hm. apply Hf; try done. by eapply local_stable. Qed.

Lemma rg_local_step {A B} i L (f : Rcu -> B * Rcu) (k : B -> prog Rcu A) Q d :
  local i L d ->
  (forall d1, rely i d d1 -> Inv d1 -> may_run d1 i -> local i L d1 ->
    Inv (f d1).2 /\ (forall j, j <> i -> rely j d1 (f d1).2) /\ rg i (k (f d1).1) Q (f d1).2) ->
  rg i (step f ≫= k) Q d.
Proof. intros HL Hf. apply rg_step. intros d1 Hd1 Hi Hm. apply Hf; try done. by eapply local_stable. Qed.

Lemma rg_local_get {A B} i L (f : Rcu -> B) (k : B -> prog Rcu A) Q d :
  local i L d ->
  (forall d1, rely i d d1 -> Inv d1 -> local i L d1 -> rg i (k (f d1)) Q d1) -> rg i (get f ≫= k) Q d.
Proof. intros HL Hf. apply (rg_get may_run Inv rely). intros d1 Hd1 Hi Hm. apply Hf; try done. by eapply local_stable. Qed.

(** ** The running context *)

Lemma reader_at d c l : Inv d -> contexts d !! c = Some l -> exists r, readers d !! c = Some r /\ cpu_ok (epoch d) l r.
Proof.
  intros Hi Hc. destruct (lookup_lt_is_Some_2 (readers d) c) as [r Hr].
  { rewrite (inv_readers _ _ _ Hi), <- (inv_contexts _ _ _ Hi). by eapply lookup_lt_Some. }
  exists r. split; [done|]. by eapply inv_cpu.
Qed.

(** The raw pointers of a stack with a new top. *)
Lemma raw_top d c x x' rest :
  Inv d -> contexts d !! c = Some (x :: rest) ->
  (active_of (x' :: rest) = active_of (x :: rest) \/ counted rest = 0%nat) ->
  (forall p, raw_of (stage x') = Some p -> supported d p (active_of (x' :: rest))) ->
  forall y p, y ∈ x' :: rest -> raw_of (stage y) = Some p -> supported d p (active_of (x' :: rest)).
Proof.
  intros Hi Hc Hact Hx' y p [->|Hy]%elem_of_cons Hp; [by apply Hx'|]. destruct Hact as [->|Hz].
  - eapply inv_raw; [done|done|by right|done].
  - exfalso. clear -Hz Hy Hp. induction rest as [|z rest IH]; [by apply not_elem_of_nil in Hy|].
    rewrite counted_cons in Hz. apply elem_of_cons in Hy as [->|Hy]; [|apply IH; [lia|done]].
    unfold is_counted in Hz. destruct (stage z); try done; cbn in Hz; lia.
Qed.

(** A change of the running context and of its CPU's words that is allowed. *)
Record allowed (now : Z) x rest x' r' : Prop := {
  allowed_thread : ctx_thread x' = ctx_thread x;
  allowed_cpu : cpu_ok now (x' :: rest) r';
  allowed_quiet : forall e, e <= now -> quiet e (x :: rest) -> quiet e (x' :: rest);
  allowed_active : active_of (x' :: rest) = active_of (x :: rest) \/ counted rest = 0%nat
}.

Definition repin (c : nat) x rest L : Local := mkLocal (l_owner L) (Some (c, x, rest)) (l_writer L) (l_lock L).

Lemma top_action i L c x rest x' r' d :
  Inv d -> may_run d i -> local i L d -> l_pin L = Some (c, x, rest) -> allowed (epoch d) x rest x' r' ->
  (forall p, raw_of (stage x') = Some p -> supported d p (active_of (x' :: rest))) ->
  Inv (with_cpu c (x' :: rest) r' d) /\ (forall j, j <> i -> rely j d (with_cpu c (x' :: rest) r' d)) /\
  local i (repin c x' rest L) (with_cpu c (x' :: rest) r' d).
Proof.
  intros Hi Hm [Ho Hp Hw Hl] HL [Ht Hok Hq Hact] Hraw. rewrite HL in Hp.
  destruct (pinned_top _ _ _ _ _ Hp Hm) as [Hc Hx]. destruct (reader_at _ _ _ Hi Hc) as (r & Hr & _).
  destruct (cpu_update i c (x :: rest) (x' :: rest) r r' d) as [Hi' Hrel]; try done.
  - by eapply raw_top.
  - intros j Hj. by rewrite !view_other by congruence.
  - split_and!; [done..|]. split; cbn; try done. exists (x' :: rest). cbn [contexts with_cpu with_contexts with_reader].
    rewrite list_lookup_insert_eq by (by eapply lookup_lt_Some). split; [done|]. apply view_top. congruence.
Qed.

End Actions.
