(* ===== verification/RcuOwners.v ===== *)
(** Read-copy-update, part 5: the read side keeps the invariant, and a reader
    never touches a released object.

    Read-copy-update, part 6: actions on strong counts, slots and the retire
    FIFO keep the counts exact and the readers' raw pointers supported. *)

From stdpp Require Import gmap.
From S2P Require Import Prelude Threads Rcu RcuSafety.
Local Open Scope Z_scope.

Section Transitions.
Context (now : Z) (x : Context) (rest : list Context) (r : ReaderState).
Hypothesis Hcpu : cpu_ok now (x :: rest) r.

Definition moved (s : Stage) : Context := mkContext (ctx_thread x) (irqs_off x) s.

Lemma quiet_moved e x' :
  quiet e (x :: rest) -> (active_of (x' :: rest) = 0 \/ e < active_of (x' :: rest)) ->
  (forall e', stage x' = Sampled e' -> e <= e') -> quiet e (x' :: rest).
Proof.
  intros [_ Hs] Ha Hx'. split; [done|]. intros y e' [->|Hy]%elem_of_cons; [apply Hx'|]. apply Hs. by right.
Qed.

Lemma rest_idle : counted rest = 0%nat -> active_of rest = 0.
Proof.
  destruct Hcpu as [_ _ _ (_ & Hs & Hok) _ [_ He]%Forall_cons]. intros Hz.
  pose proof (active_settled now rest Hs Hok He) as Ha. by rewrite decide_True in Ha.
Qed.

(** The words of a CPU whose running context moves to stage [s]. *)
Lemma moved_cpu s reg a :
  stack_ok (moved s :: rest) -> active_of (moved s :: rest) = a -> epoch_ok now (moved s) ->
  (exists online, reg = word online (counted (moved s :: rest)) /\ ((0 < counted (moved s :: rest))%nat -> online = true)) ->
  Z.of_nat (counted (moved s :: rest)) <= DEPTH_MASK -> (irqs_off x = true \/ settled (moved s)) ->
  cpu_ok now (moved s :: rest) (mkReader reg a).
Proof.
  destruct Hcpu as [_ _ _ _ _ [_ He]%Forall_cons]. intros Hst Ha Hep Hw Hd Hmask.
  split; cbn [registration active_epoch]; try done. by constructor.
Qed.

Lemma moved_stack s :
  match s with
  | Outside => True
  | Inside None _ => (0 < counted rest)%nat
  | _ => counted rest = 0%nat
  end -> stack_ok (moved s :: rest).
Proof. destruct Hcpu as [_ _ _ (_ & Hs & Hok) _ _]. intros Hm. cbn [stack_ok stage moved]. by split_and!. Qed.

Lemma allowed_irqs b :
  (b = true \/ settled (mkContext (ctx_thread x) b (stage x))) ->
  allowed now x rest (mkContext (ctx_thread x) b (stage x)) r.
Proof.
  intros Hmask. destruct Hcpu as [Hw Hd Ha (Hm & Hs & Hok) _ He]. split; [done| | |by left].
  - apply Forall_cons in He as [? ?]. rewrite counted_cons in Hw, Hd.
    split; rewrite ?counted_cons; [exact Hw|exact Hd|done|done|done|by constructor].
  - intros e _ Hq. eapply quiet_moved; [done|apply Hq|]. intros e' He'. by apply (proj2 Hq x e'); [left|].
Qed.

(** Moves that keep the admission depth. *)
Lemma allowed_keep s a :
  is_counted (moved s) = is_counted x -> stack_ok (moved s :: rest) -> epoch_ok now (moved s) ->
  (irqs_off x = true \/ settled (moved s)) -> active_of (moved s :: rest) = a -> (a = active_of (x :: rest) \/ counted rest = 0%nat) ->
  (forall e, e <= now -> quiet e (x :: rest) -> quiet e (moved s :: rest)) ->
  allowed now x rest (moved s) (mkReader (registration r) a).
Proof.
  intros Hc Hst Hep Hmask Ha Hact Hq. split; [done| |done|by rewrite Ha].
  pose proof Hcpu as [(b & Hw & Hb) Hd _ _ _ _]. rewrite counted_cons, <- Hc, <- counted_cons in Hw, Hb, Hd.
  apply moved_cpu; eauto.
Qed.

Lemma allowed_admit online :
  stage x = Outside -> irqs_off x = true ->
  registration r = word online (counted (x :: rest)) -> online = true ->
  Z.of_nat (counted rest) < DEPTH_MASK ->
  allowed now x rest (moved (if Z.of_nat (counted rest) =? 0 then Admitting else Inside None None))
    (mkReader (registration r + 1) (active_epoch r)).
Proof.
  intros Hx Hmask Hw -> Hd. destruct Hcpu as [_ _ Ha _ _ _]. set (s := if _ =? 0 then _ else _).
  assert (counted (x :: rest) = counted rest) as Hc by (rewrite counted_cons; unfold is_counted; by rewrite Hx).
  assert (counted (moved s :: rest) = S (counted rest)) as Hc'.
  { rewrite counted_cons. unfold is_counted, s. cbn. by destruct (Z.of_nat (counted rest) =? 0). }
  assert (active_of (moved s :: rest) = active_of (x :: rest)) as Hact.
  { cbn. rewrite Hx. unfold s. by destruct (Z.of_nat (counted rest) =? 0). }
  split; [done| | |by left].
  - apply moved_cpu.
    + apply moved_stack. unfold s. destruct (Z.of_nat (counted rest) =? 0) eqn:Hz; lia.
    + by rewrite Hact.
    + unfold epoch_ok, s. cbn. by destruct (Z.of_nat (counted rest) =? 0).
    + exists true. split; [|done]. rewrite Hw, Hc, Hc'. unfold word. lia.
    + rewrite Hc'. lia.
    + by left.
  - intros e _ Hq. eapply quiet_moved; [done| |].
    + rewrite Hact. apply Hq.
    + intros e'. unfold s. cbn. by destruct (Z.of_nat (counted rest) =? 0).
Qed.

Lemma word_sub b n : (0 < n)%nat -> Z.of_nat n <= DEPTH_MASK -> wrapping_sub_u32 (word b n) 1 = word b (n - 1).
Proof.
  intros Hn Hd. unfold wrapping_sub_u32. rewrite wrap_u32_id; [unfold word; lia|].
  unfold word, in_u32, u32_MAX. change DEPTH_MASK with 2147483647 in Hd. change REGISTERED_BIT with 2147483648.
  destruct b; lia.
Qed.

Lemma allowed_leave :
  is_counted x = true -> active_of (x :: rest) = active_of rest ->
  allowed now x rest (moved Outside) (mkReader (wrapping_sub_u32 (registration r) 1) (active_epoch r)).
Proof.
  intros Hc Hact. destruct Hcpu as [(b & Hw & Hb) Hd Ha _ _ _]. rewrite counted_cons, Hc in Hw, Hb, Hd.
  assert (counted (moved Outside :: rest) = counted rest) as Hc' by done.
  split; [done| | |by left].
  - apply moved_cpu.
    + by apply moved_stack.
    + by rewrite Ha.
    + done.
    + exists b. rewrite Hc'. split; [|intros; apply Hb; lia]. rewrite Hw, word_sub by lia. f_equal. lia.
    + rewrite Hc'. lia.
    + unfold settled. cbn. destruct (irqs_off x); auto.
  - intros e _ Hq. eapply quiet_moved; [done| |done]. change (active_of (moved Outside :: rest)) with (active_of rest).
    rewrite <- Hact. apply Hq.
Qed.

End Transitions.

Section Reader.
Context (MAX_CPUS SLOTS i : nat).
Local Abbreviation Inv := (Inv MAX_CPUS SLOTS).
Local Abbreviation rg := (rg may_run Inv rely i).
Implicit Types (d : Rcu) (x : Context) (rest l : list Context) (r : ReaderState) (L : Local).

(** The thread runs in context [x] of CPU [c]. *)
Definition in_context (L : Local) (c : nat) x rest d : Prop := local i (repin c x rest L) d.

Lemma in_context_top L c x rest d : Inv d -> may_run d i -> in_context L c x rest d ->
  contexts d !! c = Some (x :: rest) /\ ctx_thread x = i /\
  exists r, readers d !! c = Some r /\ cpu_ok (epoch d) (x :: rest) r.
Proof.
  intros Hi Hm [_ Hp _ _]. cbn in Hp. destruct (pinned_top _ _ _ _ _ Hp Hm) as [Hc Hx].
  split_and!; [done..|]. by eapply reader_at.
Qed.

Lemma move_context L c x rest x' r' d :
  Inv d -> may_run d i -> in_context L c x rest d -> allowed (epoch d) x rest x' r' ->
  (forall p, raw_of (stage x') = Some p -> supported d p (active_of (x' :: rest))) ->
  Inv (with_cpu c (x' :: rest) r' d) /\ (forall j, j <> i -> rely j d (with_cpu c (x' :: rest) r' d)) /\
  in_context L c x' rest (with_cpu c (x' :: rest) r' d).
Proof. intros Hi Hm HL Ha Hraw. by apply (top_action MAX_CPUS SLOTS i (repin c x rest L) c x rest x' r' d). Qed.

Lemma set_stage_top c x rest r s d :
  contexts d !! c = Some (x :: rest) ->
  set_stage c s (with_reader c r d) = with_cpu c (moved x s :: rest) r d.
Proof. intros Hc. unfold set_stage. cbn. by rewrite Hc. Qed.

Lemma set_stage_keep c x rest r s d :
  contexts d !! c = Some (x :: rest) -> readers d !! c = Some r ->
  set_stage c s d = with_cpu c (moved x s :: rest) r d.
Proof. intros Hc Hr. unfold set_stage. rewrite Hc. by apply with_cpu_reader. Qed.

Lemma rg_set_irqs_off {A} L c x rest b (k : bool -> prog Rcu A) Q d :
  in_context L c x rest d -> (b = true \/ settled (mkContext (ctx_thread x) b (stage x))) ->
  (forall d', in_context L c (mkContext (ctx_thread x) b (stage x)) rest d' -> rg (k (irqs_off x)) Q d') ->
  rg (set_irqs_off c b ≫= k) Q d.
Proof.
  intros HL Hmask Hk. eapply rg_local_step; [exact HL|]. intros d1 Hd1 Hi Hm HL1.
  destruct (in_context_top _ _ _ _ _ Hi Hm HL1) as (Hc & Hx & r & Hr & Hok). rewrite Hc. cbn [fst snd].
  rewrite (with_cpu_reader _ _ r) by done.
  destruct (move_context _ _ _ _ _ _ _ Hi Hm HL1 (allowed_irqs _ _ _ _ Hok b Hmask)) as (? & ? & ?); [|by auto].
  intros p Hp. apply (inv_raw _ _ _ Hi c (x :: rest) x p Hc); [left|exact Hp].
Qed.

(** Reads of the CPU's own words. *)
Lemma rg_load_registration {A} L c (k : Z -> prog Rcu A) Q d :
  (c < MAX_CPUS)%nat -> local i L d -> (forall z d', rely i d d' -> local i L d' -> rg (k z) Q d') ->
  rg (load_registration c ≫= k) Q d.
Proof.
  intros Hc HL Hk. eapply rg_local; [exact HL|]. intros d1 Hd1 Hi Hm HL1.
  destruct (lookup_lt_is_Some_2 (readers d1) c) as [r Hr]; [by rewrite (inv_readers _ _ _ Hi)|].
  rewrite Hr. eexists _, d1. split; [done|]. split_and!; [done|reflexivity|by apply Hk].
Qed.

Lemma rg_load_active {A} L c (k : Z -> prog Rcu A) Q d :
  (c < MAX_CPUS)%nat -> local i L d -> (forall z d', rely i d d' -> local i L d' -> rg (k z) Q d') ->
  rg (load_active c ≫= k) Q d.
Proof.
  intros Hc HL Hk. eapply rg_local; [exact HL|]. intros d1 Hd1 Hi Hm HL1.
  destruct (lookup_lt_is_Some_2 (readers d1) c) as [r Hr]; [by rewrite (inv_readers _ _ _ Hi)|].
  rewrite Hr. eexists _, d1. split; [done|]. split_and!; [done|reflexivity|by apply Hk].
Qed.

Lemma rg_leave {A} L c x rest (k : () -> prog Rcu A) Q d :
  in_context L c x rest d -> is_counted x = true -> active_of (x :: rest) = active_of rest ->
  (forall d', in_context L c (moved x Outside) rest d' -> rg (k tt) Q d') -> rg (leave c ≫= k) Q d.
Proof.
  intros HL Hx Ha Hk. eapply rg_local; [exact HL|]. intros d1 Hd1 Hi Hm HL1.
  destruct (in_context_top _ _ _ _ _ Hi Hm HL1) as (Hc & Ht & r & Hr & Hok). rewrite Hr. cbn.
  eexists _, _. split; [done|]. rewrite (set_stage_top _ _ _ _ _ _ Hc).
  destruct (move_context _ _ _ _ _ _ _ Hi Hm HL1 (allowed_leave _ _ _ _ Hok Hx Ha)) as (? & ? & ?); [done|].
  by auto.
Qed.

Lemma rg_store_active {A} L c x rest a s (k : () -> prog Rcu A) Q d :
  in_context L c x rest d ->
  (forall now r, cpu_ok now (x :: rest) r -> allowed now x rest (moved x s) (mkReader (registration r) a)) ->
  raw_of s = None ->
  (forall d', in_context L c (moved x s) rest d' -> rg (k tt) Q d') -> rg (store_active c a s ≫= k) Q d.
Proof.
  intros HL Hal Hraw Hk. eapply rg_local; [exact HL|]. intros d1 Hd1 Hi Hm HL1.
  destruct (in_context_top _ _ _ _ _ Hi Hm HL1) as (Hc & Ht & r & Hr & Hok). rewrite Hr. cbn.
  eexists _, _. split; [done|]. rewrite (set_stage_top _ _ _ _ _ _ Hc).
  destruct (move_context _ _ _ _ _ _ _ Hi Hm HL1 (Hal _ _ Hok)) as (? & ? & ?); [cbn; by rewrite Hraw|].
  by auto.
Qed.

(** ** Pinning *)

Lemma pin_cpu now l r : cpu_ok now l r -> existsb irqs_off (take 1 l) = false ->
  cpu_ok now (mkContext i false Outside :: l) r.
Proof.
  intros [Hw Hd Ha Hst Hmask He] Hoff. assert (Forall settled l) as Hs.
  { destruct l as [|x l]; [done|]. cbn in Hoff. rewrite orb_false_r in Hoff. destruct Hst as (_ & Hs & _).
    constructor; [|done]. destruct Hmask as [Hm|Hm]; [congruence|done]. }
  split; [exact Hw|exact Hd|exact Ha|by split_and!|by right|by constructor].
Qed.

Lemma rg_pin {A} L c (k : () -> prog Rcu A) Q d :
  local i L d -> l_pin L = None ->
  (forall rest d', (c < MAX_CPUS)%nat -> in_context L c (mkContext i false Outside) rest d' -> rg (k tt) Q d') ->
  (forall d', (MAX_CPUS <= c)%nat -> local i L d' -> rg (k tt) Q d') ->
  rg (pin i c ≫= k) Q d.
Proof.
  intros HL Hpin Hk Hk'. eapply rg_local_act; [exact HL|]. intros d1 Hd1 Hi Hm HL1 [] d2.
  destruct (contexts d1 !! c) as [l|] eqn:Hc.
  - destruct (existsb irqs_off (take 1 l)) eqn:Hoff; [done|]. intros [= <-].
    destruct (reader_at _ _ _ _ _ Hi Hc) as (r & Hr & Hok). rewrite (with_cpu_reader _ _ r) by done.
    destruct (cpu_update MAX_CPUS SLOTS i c l (mkContext i false Outside :: l) r r d1) as [Hi' Hrel]; try done.
    + by apply pin_cpu.
    + intros e _ [Ha Hs]. split; [done|]. intros y e' [->|Hy]%elem_of_cons; [done|by apply Hs].
    + intros y p [->|Hy]%elem_of_cons Hp; [done|]. exact (inv_raw _ _ _ Hi c l y p Hc Hy Hp).
    + intros j Hj. by rewrite view_other.
    + split_and!; [done..|]. apply (Hk l).
      { rewrite <- (inv_contexts _ _ _ Hi). by eapply lookup_lt_Some. }
      destruct HL1 as [Ho _ Hw Hl]. split; try done. exists (mkContext i false Outside :: l).
      cbn [contexts with_cpu with_contexts]. rewrite list_lookup_insert_eq by (by eapply lookup_lt_Some).
      split; [done|]. by apply view_top.
  - intros [= <-]. split_and!; [done|reflexivity|]. apply Hk'; [|done].
    rewrite <- (inv_contexts _ _ _ Hi). by apply lookup_ge_None.
Qed.

Definition unpinned L : Local := mkLocal (l_owner L) None (l_writer L) (l_lock L).

Lemma unpin_cpu now x l r : stage x = Outside -> cpu_ok now (x :: l) r -> cpu_ok now l r.
Proof.
  intros Hx [Hw Hd Ha (_ & Hs & Hst) _ [_ He]%Forall_cons]. unfold counted in Hw, Hd. cbn in Hw, Hd, Ha.
  unfold is_counted in Hw, Hd. rewrite Hx in *. split; try done. destruct l; [done|]. right. by apply Forall_cons in Hs as [? ?].
Qed.

Lemma rg_unpin {A} L c x rest (k : () -> prog Rcu A) Q d :
  in_context L c x rest d -> stage x = Outside ->
  (forall d', local i (unpinned L) d' -> rg (k tt) Q d') -> rg (unpin c ≫= k) Q d.
Proof.
  intros HL Hx Hk. eapply rg_local_step; [exact HL|]. intros d1 Hd1 Hi Hm HL1. cbn [fst snd].
  destruct (in_context_top _ _ _ _ _ Hi Hm HL1) as (Hc & Ht & r & Hr & Hok). rewrite Hc, (with_cpu_reader _ _ r) by done.
  assert (active_of (x :: rest) = active_of rest) as Ha by (cbn; by rewrite Hx).
  destruct (cpu_update MAX_CPUS SLOTS i c (x :: rest) rest r r d1) as [Hi' Hrel]; try done.
  - by eapply unpin_cpu.
  - intros e _ [Hq Hs]. rewrite Ha in Hq. split; [done|]. intros y e' Hy. apply Hs. by right.
  - intros y p Hy Hp. rewrite <- Ha. eapply inv_raw; [exact Hi|exact Hc|by right|done].
  - intros j Hj. by rewrite view_other by congruence.
  - split_and!; [done..|]. apply Hk. destruct HL1 as [Ho _ Hw Hl]. by split.
Qed.

(** Unpinning a CPU the platform does not track. *)
Lemma rg_unpin_none {A} L c (k : () -> prog Rcu A) Q d :
  local i L d -> (MAX_CPUS <= c)%nat -> (forall d', local i L d' -> rg (k tt) Q d') -> rg (unpin c ≫= k) Q d.
Proof.
  intros HL Hc Hk. eapply rg_local_step; [exact HL|]. intros d1 Hd1 Hi Hm HL1. cbn [fst snd].
  rewrite (lookup_ge_None_2 (contexts d1) c) by (by rewrite (inv_contexts _ _ _ Hi)).
  split_and!; [done|reflexivity|auto].
Qed.

(** ** Admission *)

Lemma rg_admit_reader {A} L c x rest (k : result Z RcuError -> prog Rcu A) Q d :
  in_context L c x rest d -> stage x = Outside -> irqs_off x = true ->
  (forall e d', in_context L c x rest d' -> rg (k (Err e)) Q d') ->
  (forall depth d', in_context L c (moved x (if depth =? 0 then Admitting else Inside None None)) rest d' ->
    depth = Z.of_nat (counted rest) -> rg (k (Ok depth)) Q d') ->
  rg (admit_reader c ≫= k) Q d.
Proof.
  intros HL Hx Hoff Herr Hk. eapply rg_local; [exact HL|]. intros d1 Hd1 Hi Hm HL1.
  destruct (in_context_top _ _ _ _ _ Hi Hm HL1) as (Hc & Ht & r & Hr & Hok). rewrite Hr. cbn.
  pose proof Hok as [(b & Hw & Hb) Hd _ _ _ _].
  assert (counted (x :: rest) = counted rest) as Hcn by (rewrite counted_cons; unfold is_counted; by rewrite Hx).
  destruct (word_bits b (counted (x :: rest)) Hd) as [Hmask Hreg]. rewrite Hw, Hmask, Hreg.
  destruct b; [|eexists _, d1; split; [done|]; split_and!; [done|reflexivity|by apply Herr]].
  change (REGISTERED_BIT =? 0) with false. cbn [andb]. rewrite Hcn in *.
  destruct (Z.of_nat (counted rest) =? MAX_READER_DEPTH) eqn:Hmax.
  { eexists _, d1; split; [done|]; split_and!; [done|reflexivity|by apply Herr]. }
  apply Z.eqb_neq in Hmax. unfold MAX_READER_DEPTH in Hmax. eexists _, _. split; [done|].
  rewrite (set_stage_top _ _ _ _ _ _ Hc), <- Hw.
  destruct (move_context _ _ _ _ _ _ _ Hi Hm HL1 (allowed_admit _ _ _ _ Hok true Hx Hoff
    ltac:(rewrite Hcn; exact Hw) eq_refl ltac:(lia))) as (? & ? & ?).
  { cbn. by destruct (Z.of_nat (counted rest) =? 0). }
  split_and!; [done..|]. by apply Hk.
Qed.

Lemma rg_sample_epoch {A} L c x rest (k : Z -> prog Rcu A) Q d :
  in_context L c x rest d -> stage x = Admitting -> irqs_off x = true -> counted rest = 0%nat ->
  (forall e d', Z.odd e = true -> in_context L c x rest d' -> rg (k e) Q d') ->
  (forall e d', Z.odd e = false -> in_context L c (moved x (Sampled e)) rest d' -> rg (k e) Q d') ->
  rg (sample_epoch c ≫= k) Q d.
Proof.
  intros HL Hx Hoff Hz Hodd Hk. eapply rg_local_step; [exact HL|]. intros d1 Hd1 Hi Hm HL1. cbn [fst snd].
  destruct (in_context_top _ _ _ _ _ Hi Hm HL1) as (Hc & Ht & r & Hr & Hok).
  destruct (Z.odd (epoch d1)) eqn:Ho; [split_and!; [done|reflexivity|by apply Hodd]|].
  rewrite (set_stage_keep _ _ _ r _ _ Hc Hr).
  destruct (move_context L c x rest (moved x (Sampled (epoch d1))) r d1 Hi Hm HL1) as (? & ? & ?); [|done|by auto].
  assert (active_of (moved x (Sampled (epoch d1)) :: rest) = active_of (x :: rest)) as Ha by (cbn; by rewrite Hx).
  replace r with (mkReader (registration r) (active_of (x :: rest))) by (rewrite <- (cpu_active _ _ _ Hok); by destruct r).
  apply allowed_keep; try done; auto.
  - unfold is_counted. by rewrite Hx.
  - by eapply moved_stack.
  - unfold epoch_ok. cbn. rewrite <- Z.negb_odd, Ho. split; [|done]. pose proof (inv_epoch _ _ _ Hi). lia.
  - intros e He Hq. eapply quiet_moved; [done|rewrite Ha; apply Hq|]. by intros e' [= <-].
Qed.

Lemma rg_validate_epoch {A} L c x rest e (k : bool -> prog Rcu A) Q d :
  in_context L c x rest d -> stage x = Marked e -> irqs_off x = true ->
  (forall d', in_context L c x rest d' -> rg (k false) Q d') ->
  (forall d', in_context L c (moved x (Inside (Some e) None)) rest d' -> rg (k true) Q d') ->
  rg (validate_epoch c e ≫= k) Q d.
Proof.
  intros HL Hx Hoff Hno Hk. eapply rg_local_step; [exact HL|]. intros d1 Hd1 Hi Hm HL1. cbn [fst snd].
  destruct (in_context_top _ _ _ _ _ Hi Hm HL1) as (Hc & Ht & r & Hr & Hok).
  destruct (epoch d1 =? e) eqn:He; [|split_and!; [done|reflexivity|by apply Hno]].
  rewrite (set_stage_keep _ _ _ r _ _ Hc Hr).
  destruct (move_context L c x rest (moved x (Inside (Some e) None)) r d1 Hi Hm HL1) as (? & ? & ?); [|done|by auto].
  assert (active_of (moved x (Inside (Some e) None) :: rest) = active_of (x :: rest)) as Ha by (cbn; by rewrite Hx).
  pose proof Hok as [_ _ _ (Hst & _) _ [Hep _]%Forall_cons]. rewrite Hx in Hst.
  replace r with (mkReader (registration r) (active_of (x :: rest))) by (rewrite <- (cpu_active _ _ _ Hok); by destruct r).
  apply allowed_keep; try done; auto.
  - unfold is_counted. by rewrite Hx.
  - by eapply moved_stack.
  - unfold epoch_ok in *. by rewrite Hx in Hep.
  - intros e' He' Hq. eapply quiet_moved; [done|rewrite Ha; apply Hq|done].
Qed.

End Reader.

(** ** Strong counts *)

Lemma heap_perm h us us' : us ≡ₚ us' -> heap_ok h us -> heap_ok h us'.
Proof. intros Hp Hh p. specialize (Hh p). by rewrite (occ_Permutation p us us' Hp) in Hh. Qed.

Lemma heap_live h us a : heap_ok h us -> a ∈ us -> exists n, h !! a = Some n.
Proof.
  intros Hh Ha%occ_pos. specialize (Hh a). destruct (h !! a) as [n|]; [by exists n|lia].
Qed.

Lemma heap_inc h us us' a n : heap_ok h us -> h !! a = Some n -> us' ≡ₚ a :: us -> heap_ok (<[a := n + 1]> h) us'.
Proof.
  intros Hh Ha Hp. apply (heap_perm _ (a :: us)); [done|]. intros p. rewrite occ_cons. pose proof (Hh p) as Hhp.
  destruct (decide (a = p)) as [->|Hne].
  - rewrite lookup_insert_eq, hit_refl. rewrite Ha in Hhp. lia.
  - rewrite lookup_insert_ne, hit_ne by congruence. done.
Qed.

Lemma heap_new h us us' a : heap_ok h us -> h !! a = None -> us' ≡ₚ a :: us -> heap_ok (<[a := 1]> h) us'.
Proof.
  intros Hh Ha Hp. apply (heap_perm _ (a :: us)); [done|]. intros p. rewrite occ_cons. pose proof (Hh p) as Hhp.
  destruct (decide (a = p)) as [->|Hne].
  - rewrite lookup_insert_eq, hit_refl. rewrite Ha in Hhp. lia.
  - rewrite lookup_insert_ne, hit_ne by congruence. done.
Qed.

Lemma heap_dec h us us' a : heap_ok h us -> us ≡ₚ a :: us' ->
  exists n, h !! a = Some n /\ heap_ok (if n =? 1 then delete a h else <[a := n - 1]> h) us'.
Proof.
  intros Hh Hp. apply (heap_perm _ _ (a :: us')) in Hh; [|done]. pose proof (Hh a) as Hha.
  rewrite occ_cons, hit_refl in Hha. destruct (h !! a) as [n|]; [|lia]. exists n. split; [done|]. intros p.
  pose proof (Hh p) as Hhp. rewrite occ_cons in Hhp. destruct (decide (a = p)) as [->|Hne].
  - destruct (n =? 1) eqn:H1; [rewrite lookup_delete_eq; lia|rewrite lookup_insert_eq; lia].
  - rewrite hit_ne in Hhp by congruence.
    destruct (n =? 1); [by rewrite lookup_delete_ne by done|by rewrite lookup_insert_ne by done].
Qed.

Lemma remove_one_perm a l : a ∈ l -> l ≡ₚ a :: remove_one a l.
Proof.
  induction l as [|b l IH]; [by intros ?%not_elem_of_nil|]. intros [->|Ha]%elem_of_cons; cbn.
  - by rewrite decide_True.
  - destruct (decide (a = b)) as [->|Hne]; [done|]. rewrite (IH Ha) at 1. apply Permutation_swap.
Qed.

(** ** Owner records *)

Section Records.
Context {B : Type} (f : Owner -> list B).

Lemma owners_split (os : list Owner) i o : os !! i = Some o -> os ≫= f ≡ₚ f o ++ (delete i os ≫= f).
Proof.
  revert i. induction os as [|o' os IH]; intros [|i]; cbn; [done..|by intros [= ->]|]. intros Ho.
  rewrite (IH i Ho). rewrite !app_assoc. by rewrite (Permutation_app_comm (f o')).
Qed.

Lemma owners_update (os : list Owner) i o o' : os !! i = Some o ->
  <[i := o']> os ≫= f ≡ₚ f o' ++ (delete i os ≫= f).
Proof.
  intros Ho. rewrite (owners_split _ i o') by (apply list_lookup_insert_eq; by eapply lookup_lt_Some).
  assert (delete i (<[i := o']> os) = delete i os) as ->; [|done].
  clear. revert i. induction os as [|o os IH]; intros [|i]; cbn; try done. f_equal. apply IH.
Qed.

End Records.

Lemma total_update os i o o' : os !! i = Some o ->
  (sum_list_with o_reserved (<[i := o']> os) + o_reserved o = sum_list_with o_reserved os + o_reserved o')%nat.
Proof.
  revert i. induction os as [|o1 os IH]; intros [|i]; [done..|cbn; intros [= ->]; lia|].
  intros Ho. specialize (IH i Ho).
  change (sum_list_with o_reserved (<[S i := o']> (o1 :: os)))
    with (o_reserved o1 + sum_list_with o_reserved (<[i := o']> os))%nat.
  change (sum_list_with o_reserved (o1 :: os)) with (o_reserved o1 + sum_list_with o_reserved os)%nat. lia.
Qed.

(** ** The markers of readers with a raw pointer *)

Lemma active_even now l : Forall (epoch_ok now) l -> 0 <= active_of l /\
  (active_of l = 0 \/ exists e, active_of l = e + 1 /\ 0 <= e <= now /\ Z.even e = true).
Proof.
  induction l as [|x l IH]; [cbn; lia|]. intros [Hx Hl]%Forall_cons. unfold epoch_ok in Hx. cbn.
  destruct (stage x) as [| | | |[e|] p|]; cbn in Hx; auto; (split; [lia|right; by exists e]).
Qed.

Lemma raw_active now l r x p : cpu_ok now l r -> x ∈ l -> raw_of (stage x) = Some p -> 0 < active_of l.
Proof.
  intros [_ _ _ Hst _ He] Hx Hp. induction l as [|y l IH]; [by apply not_elem_of_nil in Hx|].
  apply Forall_cons in He as [Hey He]. destruct Hst as (Hy & Hs & Hst).
  pose proof (active_settled now l Hs Hst He) as Hact. cbn [active_of]. unfold epoch_ok in Hey.
  apply elem_of_cons in Hx as [->|Hx].
  - destruct (stage y) as [| | | |[e|] q|]; try done; cbn in Hey; [lia|]. by rewrite decide_False in Hact by lia.
  - specialize (IH Hst He Hx). destruct (stage y) as [| | | |[e|] q|]; try done; cbn in Hey; lia.
Qed.

Section Memory.
Context (MAX_CPUS SLOTS i : nat).
Local Abbreviation Inv := (Inv MAX_CPUS SLOTS).
Implicit Types (d : Rcu) (L : Local) (o : Owner).

(** ** A change of counts, slots, FIFO and owner record *)

Definition with_memory (q : RetireQueue) (sl : list ptr) (h : gmap nat Z) o d : Rcu :=
  mkRcu (epoch d) (readers d) (writer d) (retire_lock d) q (hints d) sl h (contexts d) (<[i := o]> (owners d)).

Record memory_ok (q : RetireQueue) (sl : list ptr) (h : gmap nat Z) o d : Prop := {
  mem_slots : sl = slots d \/ (writer d = Some i /\ length sl = length (slots d));
  mem_lock : q = retire d \/ retire_lock d = Some i;
  mem_heap : heap_ok h (units (with_memory q sl h o d));
  mem_ring : ring q (contents q);
  mem_retired : Forall (fun r => retire_epoch r <= epoch d) (contents q);
  mem_reserved : reserved q = total_reserved (with_memory q sl h o d);
  mem_support : forall c l x p, contexts d !! c = Some l -> x ∈ l -> raw_of (stage x) = Some p ->
    supported d p (active_of l) -> supported (with_memory q sl h o d) p (active_of l)
}.

Lemma memory_update q sl h o d : Inv d -> memory_ok q sl h o d ->
  Inv (with_memory q sl h o d) /\ forall j, j <> i -> rely j d (with_memory q sl h o d).
Proof.
  intros [Ir Ic Is Ie Iv Icpu Iraw Ih Iring Iret Ires] [Ms Ml Mh Mr Mre Mres Msup]. split.
  - split; cbn; try done.
    + destruct Ms as [->|[_ ->]]; done.
    + intros c l x p Hc Hx Hp. eapply Msup; eauto.
  - intros j Hj. split; cbn; try done.
    + by rewrite list_lookup_insert_ne.
    + intros Hw. split_and!; [done..|]. destruct Ms as [->|[Hw' _]]; [done|congruence].
    + intros Hl. split; [done|]. destruct Ml as [->|Hl']; [done|congruence].
    + intros c l l' e Hl Hl' _. by simplify_eq.
    + intros c l l' Hl Hl'. by simplify_eq.
    + by rewrite length_insert.
Qed.

(** Units and hands after a change, up to order. *)
Lemma units_memory q sl h o o0 d : owners d !! i = Some o0 ->
  units (with_memory q sl h o d) ≡ₚ
    omap id sl ++ (pointer <$> contents q) ++ owner_units o ++ (delete i (owners d) ≫= owner_units).
Proof. intros Ho. unfold units. cbn. by rewrite (owners_update owner_units _ i o0 o Ho). Qed.
Lemma units_split o0 d : owners d !! i = Some o0 ->
  units d ≡ₚ
    omap id (slots d) ++ (pointer <$> contents (retire d)) ++ owner_units o0 ++ (delete i (owners d) ≫= owner_units).
Proof. intros Ho. unfold units. by rewrite (owners_split owner_units _ i o0 Ho). Qed.

Lemma hands_memory q sl h o o0 d : owners d !! i = Some o0 ->
  hands (with_memory q sl h o d) ≡ₚ o_hand o ++ (delete i (owners d) ≫= o_hand).
Proof. intros Ho. unfold hands. cbn. by rewrite (owners_update o_hand _ i o0 o Ho). Qed.
Lemma hands_split o0 d : owners d !! i = Some o0 -> hands d ≡ₚ o_hand o0 ++ (delete i (owners d) ≫= o_hand).
Proof. intros Ho. unfold hands. by rewrite (owners_split o_hand _ i o0 Ho). Qed.

Lemma reserved_memory q sl h o o0 d : owners d !! i = Some o0 ->
  (total_reserved (with_memory q sl h o d) + o_reserved o0 = total_reserved d + o_reserved o)%nat.
Proof. apply total_update. Qed.

(** ** What the thread knows afterwards *)

Definition reown o L : Local := mkLocal o (l_pin L) (l_writer L) (l_lock L).

Lemma local_memory q sl h o d L L' :
  local i L d -> l_owner L' = o -> l_pin L' = l_pin L ->
  match l_writer L' with Some (e, sl') => writer d = Some i /\ epoch d = e /\ sl = sl' | None => True end ->
  match l_lock L' with Some q' => retire_lock d = Some i /\ q = q' | None => True end ->
  local i L' (with_memory q sl h o d).
Proof.
  intros [Ho Hp _ _] <- Hpin Hw Hl. split; cbn; try done.
  - apply list_lookup_insert_eq. by eapply lookup_lt_Some.
  - by rewrite Hpin.
Qed.

(** The holders of a raw pointer, other than slots. *)
Lemma supported_memory q sl h o o0 d p a : owners d !! i = Some o0 ->
  supported (with_memory q sl h o d) p a <->
  (Some p ∈ sl \/ exists r, r ∈ contents q ++ o_hand o ++ (delete i (owners d) ≫= o_hand) /\
    pointer r = p /\ a < retire_epoch r).
Proof.
  intros Ho. unfold supported. cbn [slots retire with_memory]. by setoid_rewrite (hands_memory q sl h o o0 d Ho).
Qed.
Lemma supported_split o0 d p a : owners d !! i = Some o0 ->
  supported d p a <->
  (Some p ∈ slots d \/ exists r, r ∈ contents (retire d) ++ o_hand o0 ++ (delete i (owners d) ≫= o_hand) /\
    pointer r = p /\ a < retire_epoch r).
Proof. intros Ho. unfold supported. by setoid_rewrite (hands_split o0 d Ho). Qed.

(** A change of counts and of the thread's own units only. *)
Lemma units_action h o' L d :
  Inv d -> local i L d -> o_hand o' = o_hand (l_owner L) -> o_reserved o' = o_reserved (l_owner L) ->
  (forall us, heap_ok (heap d) (o_units (l_owner L) ++ us) -> heap_ok h (o_units o' ++ us)) ->
  Inv (with_memory (retire d) (slots d) h o' d) /\
  (forall j, j <> i -> rely j d (with_memory (retire d) (slots d) h o' d)) /\
  local i (reown o' L) (with_memory (retire d) (slots d) h o' d).
Proof.
  intros Hi HL Hh Hr Hheap. pose proof HL as [Ho _ Hw Hl].
  destruct (memory_update (retire d) (slots d) h o' d Hi) as [Hi' Hrel].
  { split; try (by left); try apply Hi.
    - eapply heap_perm; [|apply (Hheap (omap id (slots d) ++ (pointer <$> contents (retire d)) ++
        (pointer <$> o_hand (l_owner L)) ++ (delete i (owners d) ≫= owner_units)))].
      + rewrite (units_memory _ _ _ _ _ _ Ho). unfold owner_units at 2. rewrite Hh. solve_Permutation.
      + eapply heap_perm; [|apply Hi]. rewrite (units_split _ _ Ho). unfold owner_units at 1. solve_Permutation.
    - rewrite (inv_reserved _ _ _ Hi).
      pose proof (reserved_memory (retire d) (slots d) h o' _ d Ho). lia.
    - intros c l x p _ _ _. rewrite (supported_memory _ _ _ _ _ _ _ _ Ho), (supported_split _ _ _ _ Ho). by rewrite Hh. }
  split_and!; [done..|]. by eapply local_memory.
Qed.

Lemma increment_action a n L d :
  Inv d -> local i L d -> heap d !! a = Some n ->
  let d' := with_memory (retire d) (slots d) (<[a := n + 1]> (heap d)) (add_unit a (l_owner L)) d in
  Inv d' /\ (forall j, j <> i -> rely j d d') /\ local i (reown (add_unit a (l_owner L)) L) d'.
Proof. intros Hi HL Ha. apply units_action; try done. intros us Hus. by apply (heap_inc _ _ _ a n Hus Ha). Qed.

Lemma new_action a L d :
  Inv d -> local i L d -> heap d !! a = None ->
  let d' := with_memory (retire d) (slots d) (<[a := 1]> (heap d)) (add_unit a (l_owner L)) d in
  Inv d' /\ (forall j, j <> i -> rely j d d') /\ local i (reown (add_unit a (l_owner L)) L) d'.
Proof. intros Hi HL Ha. apply units_action; try done. intros us Hus. by apply (heap_new _ _ _ a Hus Ha). Qed.

Lemma unit_live a L d : Inv d -> local i L d -> a ∈ o_units (l_owner L) -> exists n, heap d !! a = Some n.
Proof.
  intros Hi [Ho _ _ _] Ha. eapply heap_live; [apply Hi|]. rewrite (units_split _ _ Ho). unfold owner_units at 1. set_solver.
Qed.

Lemma drop_action a n L d :
  Inv d -> local i L d -> a ∈ o_units (l_owner L) -> heap d !! a = Some n ->
  let d' := with_memory (retire d) (slots d) (if n =? 1 then delete a (heap d) else <[a := n - 1]> (heap d))
    (drop_unit a (l_owner L)) d in
  Inv d' /\ (forall j, j <> i -> rely j d d') /\ local i (reown (drop_unit a (l_owner L)) L) d'.
Proof.
  intros Hi HL Ha Hn. apply units_action; try done. intros us Hus.
  destruct (heap_dec _ _ (remove_one a (o_units (l_owner L)) ++ us) a Hus) as (m & Hm & Hok).
  { rewrite (remove_one_perm a _ Ha) at 1. done. }
  by simplify_eq.
Qed.

(** ** Slots *)

Definition ptr_units (p : ptr) : list nat := match p with Some a => [a] | None => [] end.

Lemma slots_update (sl : list ptr) s old new : sl !! s = Some old ->
  omap id (<[s := new]> sl) ++ ptr_units old ≡ₚ omap id sl ++ ptr_units new.
Proof.
  revert s. induction sl as [|p sl IH]; intros [|s]; [done..|intros [= ->]|intros Hs].
  - cbn. destruct old as [a|], new as [b|]; cbn; rewrite ?app_nil_r; try solve_Permutation; done.
  - change (<[S s := new]> (p :: sl)) with (p :: <[s := new]> sl). specialize (IH s Hs). destruct p as [a|]; cbn.
    + by rewrite IH.
    + exact IH.
Qed.

Definition swapped (replacement old : ptr) (e : Z) o : Owner :=
  let o := match replacement with Some a => drop_unit a o | None => o end in
  match old with Some a => take_hand (mkRetired a e) o | None => o end.

Lemma swapped_units replacement old e o :
  (forall a, replacement = Some a -> a ∈ o_units o) ->
  owner_units (swapped replacement old e o) ++ ptr_units replacement ≡ₚ owner_units o ++ ptr_units old.
Proof.
  intros Hin. unfold swapped, owner_units. destruct replacement as [a|].
  - pose proof (remove_one_perm a _ (Hin a eq_refl)) as Hp. cbn [drop_unit].
    destruct old as [b|]; cbn; revert Hp; generalize (remove_one a (o_units o)); intros R Hp; rewrite Hp; solve_Permutation.
  - destruct old as [b|]; cbn; [solve_Permutation|done].
Qed.

Lemma active_before now l : Forall (epoch_ok now) l -> Z.odd now = true -> 0 <= now -> active_of l < now + 1.
Proof.
  intros He Ho Hn. destruct (active_even now l He) as [_ [->|(e & -> & Hr & Hev)]]; [lia|].
  assert (e <> now) by (intros ->; rewrite <- Z.negb_odd, Ho in Hev; done). lia.
Qed.

Lemma swap_action s replacement old ep sl L d :
  Inv d -> local i L d -> l_writer L = Some (ep, sl) -> Z.odd ep = true -> sl !! s = Some old ->
  (forall a, replacement = Some a -> a ∈ o_units (l_owner L)) ->
  let o' := swapped replacement old (ep + 1) (l_owner L) in
  let d' := with_memory (retire d) (<[s := replacement]> (slots d)) (heap d) o' d in
  Inv d' /\ (forall j, j <> i -> rely j d d') /\
  local i (mkLocal o' (l_pin L) (Some (ep, <[s := replacement]> sl)) (l_lock L)) d'.
Proof.
  intros Hi HL HW Hodd Hold Hin o' d'. pose proof HL as [Ho _ Hw Hl]. rewrite HW in Hw.
  destruct Hw as (Hw & He & Hsl). rewrite <- Hsl in Hold.
  assert (exists h', o_hand o' = h' ++ o_hand (l_owner L) /\ h' = match old with Some b => [mkRetired b (ep + 1)] | None => [] end)
    as (h' & Hh' & Hh'').
  { eexists. split; [|reflexivity]. unfold o', swapped. by destruct replacement, old. }
  assert (o_reserved o' = o_reserved (l_owner L)) as Hr' by (unfold o', swapped; by destruct replacement, old).
  destruct (memory_update (retire d) (<[s := replacement]> (slots d)) (heap d) o' d Hi) as [Hi' Hrel].
  { split; try (by left); try apply Hi.
    - right. by rewrite length_insert.
    - eapply heap_perm; [|apply Hi]. rewrite (units_memory _ _ _ _ _ _ Ho), (units_split _ _ Ho).
      apply (Permutation_app_inv_r (ptr_units old ++ ptr_units replacement)).
      pose proof (slots_update (slots d) s old replacement Hold) as Hs.
      pose proof (swapped_units replacement old (ep + 1) (l_owner L) Hin) as Hu. fold o' in Hu.
      transitivity ((omap id (slots d) ++ ptr_units replacement) ++ (owner_units (l_owner L) ++ ptr_units old) ++
        (pointer <$> contents (retire d)) ++ (delete i (owners d) ≫= owner_units)); [solve_Permutation|].
      rewrite <- Hs, <- Hu. solve_Permutation.
    - rewrite (inv_reserved _ _ _ Hi). pose proof (reserved_memory (retire d) (<[s := replacement]> (slots d)) (heap d) o' _ d Ho). lia.
    - intros c l x p Hc Hx Hp. rewrite (supported_memory _ _ _ _ _ _ _ _ Ho), (supported_split _ _ _ _ Ho), Hh'.
      intros [Hs|(r & Hr & Hpr & Ha)].
      2:{ right. exists r. split; [|done]. clear -Hr. set_solver. }
      destruct (decide (old = Some p)) as [->|Hne].
      + right. exists (mkRetired p (ep + 1)). split; [subst h'; clear; set_solver|]. split; [done|]. cbn.
        destruct (reader_at _ _ _ _ _ Hi Hc) as (rd & _ & [_ _ _ _ _ Hep]). rewrite He in Hep.
        apply (active_before ep l Hep Hodd). pose proof (inv_epoch _ _ _ Hi). lia.
      + left. apply list_elem_of_lookup in Hs as [k Hk]. apply list_elem_of_lookup. exists k.
        rewrite list_lookup_insert_ne; [done|]. intros ->. congruence. }
  split_and!; [done..|]. eapply local_memory; try done. cbn. by rewrite <- Hsl.
Qed.

(** ** The retire FIFO *)

Lemma reserved_bound o d : Inv d -> owners d !! i = Some o -> (o_reserved o <= reserved (retire d))%nat.
Proof.
  intros Hi Ho. rewrite (inv_reserved _ _ _ Hi). unfold total_reserved. clear Hi. revert Ho. generalize i (owners d).
  intros k os. revert k. induction os as [|o1 os IH]; intros [|k]; [done..|intros [= ->]; cbn; lia|].
  intros Ho. specialize (IH k Ho).
  change (sum_list_with o_reserved (o1 :: os)) with (o_reserved o1 + sum_list_with o_reserved os)%nat. lia.
Qed.

(** A change of the FIFO that moves owners between it and the thread. *)
Lemma queue_action q' o' L d :
  Inv d -> local i L d -> l_lock L = Some (retire d) -> ring q' (contents q') ->
  Forall (fun r => retire_epoch r <= epoch d) (contents q') ->
  (reserved q' + o_reserved (l_owner L) = reserved (retire d) + o_reserved o')%nat ->
  (pointer <$> contents q') ++ owner_units o' ≡ₚ (pointer <$> contents (retire d)) ++ owner_units (l_owner L) ->
  (forall c l x p, contexts d !! c = Some l -> x ∈ l -> raw_of (stage x) = Some p -> forall r,
    r ∈ contents (retire d) ++ o_hand (l_owner L) -> active_of l < retire_epoch r -> r ∈ contents q' ++ o_hand o') ->
  let d' := with_memory q' (slots d) (heap d) o' d in
  Inv d' /\ (forall j, j <> i -> rely j d d') /\
  local i (mkLocal o' (l_pin L) (l_writer L) (Some q')) d'.
Proof.
  intros Hi HL HK Hring Hret Hres Hunits Hsup d'. pose proof HL as [Ho _ Hw Hl]. rewrite HK in Hl. destruct Hl as [Hl _].
  destruct (memory_update q' (slots d) (heap d) o' d Hi) as [Hi' Hrel].
  { split; try (by left); try (by right); try done.
    - eapply heap_perm; [|apply Hi]. rewrite (units_memory _ _ _ _ _ _ Ho), (units_split _ _ Ho).
      rewrite !(assoc_L (++) (pointer <$> _)). by rewrite Hunits.
    - pose proof (reserved_memory q' (slots d) (heap d) o' _ d Ho). rewrite (inv_reserved _ _ _ Hi) in Hres. lia.
    - intros c l x p Hc Hx Hp. rewrite (supported_memory _ _ _ _ _ _ _ _ Ho), (supported_split _ _ _ _ Ho).
      intros [Hs|(r & Hr & Hpr & Ha)]; [by left|right]. exists r. split; [|done].
      rewrite (assoc_L (++)), elem_of_app in Hr |- *. destruct Hr as [Hr|Hr]; [left|by right]. by eapply Hsup. }
  split_and!; [done..|]. by eapply local_memory.
Qed.

Lemma commit_action r L d :
  Inv d -> local i L d -> l_lock L = Some (retire d) -> o_hand (l_owner L) = [r] ->
  retire_epoch r <= epoch d -> o_reserved (l_owner L) <> 0%nat ->
  exists q', RetireQueue.commit r (retire d) = Some q' /\
    let o' := set_reserved (Nat.pred (o_reserved (l_owner L))) (empty_hand (l_owner L)) in
    let d' := with_memory q' (slots d) (heap d) o' d in
    Inv d' /\ (forall j, j <> i -> rely j d d') /\
    local i (mkLocal o' (l_pin L) (l_writer L) (Some q')) d'.
Proof.
  intros Hi HL HK Hh Hr Hres. pose proof HL as [Ho _ _ _]. pose proof (reserved_bound _ _ Hi Ho) as Hb.
  destruct (ring_commit (retire d) (contents (retire d)) r (inv_ring _ _ _ Hi)) as (q' & Hq & Hring & Hrq); [lia|].
  pose proof (ring_contents _ _ Hring) as Hc. exists q'. split; [done|].
  apply queue_action; try done; rewrite ?Hc; try done.
  - apply Forall_app. split; [apply Hi|by apply Forall_singleton].
  - cbn. lia.
  - unfold owner_units. cbn. rewrite Hh, fmap_app. cbn. solve_Permutation.
  - intros c l x p _ _ _ r'. by rewrite Hh, !elem_of_app; cbn; set_solver.
Qed.

Lemma pop_action r L d :
  Inv d -> local i L d -> l_lock L = Some (retire d) -> hd_error (contents (retire d)) = Some r ->
  (forall c l, contexts d !! c = Some l -> quiet (retire_epoch r) l) ->
  exists q', RetireQueue.pop (retire d) = Some (Some r, q') /\
    let o' := add_unit (pointer r) (l_owner L) in
    let d' := with_memory q' (slots d) (heap d) o' d in
    Inv d' /\ (forall j, j <> i -> rely j d d') /\
    local i (mkLocal o' (l_pin L) (l_writer L) (Some q')) d'.
Proof.
  intros Hi HL HK Hr Hq. destruct (ring_pop _ _ (inv_ring _ _ _ Hi)) as (q' & Hpop & Hring & Hres).
  pose proof (ring_contents _ _ Hring) as Hc. rewrite Hr in Hpop. exists q'. split; [done|].
  destruct (contents (retire d)) as [|r0 rs] eqn:Hcs; [done|]. injection Hr as ->. cbn in Hc, Hring.
  pose proof (inv_retired _ _ _ Hi) as Hret. rewrite Hcs in Hret. apply Forall_cons in Hret as [_ Hret].
  apply queue_action; try done; rewrite ?Hc, ?Hcs; try done.
  - cbn. lia.
  - unfold owner_units. cbn. solve_Permutation.
  - intros c l x p Hc' Hx Hp r' Hin Ha. destruct (reader_at _ _ _ _ _ Hi Hc') as (rd & _ & Hok).
    pose proof (raw_active _ _ _ _ _ Hok Hx Hp) as Hact. destruct (Hq c l Hc') as [Hqa _].
    cbn in Hin. apply elem_of_cons in Hin as [->|Hin]; [lia|done].
Qed.

Lemma reserve_action q' L d :
  Inv d -> local i L d -> l_lock L = Some (retire d) -> RetireQueue.reserve (retire d) = Ok q' ->
  let o' := set_reserved (S (o_reserved (l_owner L))) (l_owner L) in
  let d' := with_memory q' (slots d) (heap d) o' d in
  Inv d' /\ (forall j, j <> i -> rely j d d') /\
  local i (mkLocal o' (l_pin L) (l_writer L) (Some q')) d'.
Proof.
  intros Hi HL HK Hq. pose proof (ring_reserve _ _ (inv_ring _ _ _ Hi)) as Hr. rewrite Hq in Hr. destruct Hr as [Hring Hres].
  pose proof (ring_contents _ _ Hring) as Hc. apply queue_action; try done; rewrite ?Hc; try done; [apply Hi|cbn; lia].
Qed.

Lemma cancel_action L d :
  Inv d -> local i L d -> l_lock L = Some (retire d) -> o_reserved (l_owner L) <> 0%nat ->
  exists q', RetireQueue.cancel_reservation (retire d) = Some q' /\
    let o' := set_reserved (Nat.pred (o_reserved (l_owner L))) (l_owner L) in
    let d' := with_memory q' (slots d) (heap d) o' d in
    Inv d' /\ (forall j, j <> i -> rely j d d') /\
    local i (mkLocal o' (l_pin L) (l_writer L) (Some q')) d'.
Proof.
  intros Hi HL HK Hres. pose proof HL as [Ho _ _ _]. pose proof (reserved_bound _ _ Hi Ho) as Hb.
  destruct (ring_cancel _ _ (inv_ring _ _ _ Hi)) as (q' & Hq & Hring & Hrq); [lia|].
  pose proof (ring_contents _ _ Hring) as Hc. exists q'. split; [done|].
  apply queue_action; try done; rewrite ?Hc; try done; [apply Hi|cbn; lia].
Qed.

End Memory.
