(* ===== verification/RcuProtocol.v ===== *)
(** Read-copy-update, part 7: admission, exit and grace scans of a reader; the
    locks, the epoch and the hints.

    Read-copy-update, part 8: every method keeps the invariant and panics in
    no interleaving. *)

From stdpp Require Import gmap.
From S2P Require Import Prelude Threads Rcu RcuSafety RcuOwners.
Local Open Scope Z_scope.

Section Sections.
Context (MAX_CPUS SLOTS i : nat).
Local Abbreviation Inv := (Inv MAX_CPUS SLOTS).
Local Abbreviation rg := (rg may_run Inv rely i).
Local Abbreviation in_context := (in_context i).
Implicit Types (d : Rcu) (x : Context) (rest l : list Context) (r : ReaderState) (L : Local).

(** The thread's own context. *)
Definition me (off : bool) (s : Stage) : Context := mkContext i off s.

(** ** Admission *)

Lemma allowed_mark now rest r e :
  cpu_ok now (me true (Sampled e) :: rest) r ->
  allowed now (me true (Sampled e)) rest (me true (Marked e)) (mkReader (registration r) (e + 1)).
Proof.
  intros Hok. pose proof Hok as [_ _ _ (Hz & _) _ [He _]%Forall_cons].
  apply (allowed_keep _ _ _ _ Hok (Marked e)); try done; auto.
  - by eapply moved_stack.
  - intros e' _ [Hq Hs]. eapply quiet_moved; [by split| |done]. right. cbn.
    specialize (Hs _ e (list_elem_of_here _ _) eq_refl). lia.
Qed.

Lemma allowed_clear now rest r s e :
  cpu_ok now (me true s :: rest) r -> (s = Marked e \/ s = Inside (Some e) None) ->
  allowed now (me true s) rest (me true Leaving) (mkReader (registration r) 0).
Proof.
  intros Hok Hs. pose proof Hok as [_ _ _ (Hz & _) _ _].
  assert (counted rest = 0%nat) as Hr by (destruct Hs as [->| ->]; exact Hz).
  pose proof (rest_idle _ _ _ _ Hok Hr) as Hidle.
  apply (allowed_keep _ _ _ _ Hok Leaving); try done; auto.
  - by destruct Hs as [->| ->].
  - by eapply moved_stack.
  - intros e' _ Hq. eapply quiet_moved; [done|by left|done].
Qed.

Lemma rg_masked {A} L c s (op : prog Rcu A) rest d (P : A -> Stage -> Prop) :
  in_context L c (me false s) rest d ->
  (forall d', in_context L c (me true s) rest d' ->
    rg op (fun a d' => exists s', in_context L c (me true s') rest d' /\ P a s' /\ settled (me false s')) d') ->
  rg (with_local_irqs_disabled c op)
    (fun a d' => exists s', in_context L c (me false s') rest d' /\ P a s') d.
Proof.
  intros HL Hop. unfold with_local_irqs_disabled. eapply rg_set_irqs_off; [exact HL|by left|].
  intros d1 HL1. eapply rg_then; [by apply Hop|]. intros a d2 (s' & HL2 & HP & Hs').
  eapply rg_set_irqs_off; [exact HL2|by right|]. intros d3 HL3. exists s'. by split.
Qed.

Definition entered (a : result (option (bool * Z)) RcuError) (s : Stage) : Prop :=
  s = match a with
      | Ok (Some (nested, e)) => Inside (if nested then None else Some e) None
      | _ => Outside
      end.

Lemma rg_read_enter_once L c rest d :
  (c < MAX_CPUS)%nat -> in_context L c (me false Outside) rest d ->
  rg (read_enter_once c) (fun a d' => exists s, in_context L c (me false s) rest d' /\ entered a s) d.
Proof.
  intros Hc HL. apply (rg_masked L c Outside); [done|]. intros d1 HL1.
  eapply rg_admit_reader; [exact HL1|done..| |].
  { intros e d2 HL2. by exists Outside. }
  intros depth d2 HL2 ->. destruct (Z.of_nat (counted rest) =? 0) eqn:Hz; cbn [negb].
  2:{ eapply rg_load_active; [done|exact HL2|]. intros a d3 _ HL3. by exists (Inside None None). }
  assert (counted rest = 0%nat) as Hr by lia. clear Hz.
  eapply rg_sample_epoch; [exact HL2|done..| |].
  { intros e d3 -> HL3. eapply rg_leave; [exact HL3|done..|]. intros d4 HL4. by exists Outside. }
  intros e d3 -> HL3. destruct (checked_add_u64 e 1) as [a|] eqn:Ha.
  2:{ eapply rg_leave; [exact HL3|done..|]. intros d4 HL4. by exists Outside. }
  assert (a = e + 1) as -> by (unfold checked_add_u64 in Ha; by destruct (e + 1 <=? u64_MAX); simplify_eq).
  eapply rg_store_active; [exact HL3|intros; by apply allowed_mark|done|]. intros d4 HL4.
  eapply rg_validate_epoch; [exact HL4|done..| |].
  - intros d5 HL5. eapply rg_store_active; [exact HL5|intros; eapply allowed_clear; [done|by left]|done|].
    intros d6 HL6. eapply rg_leave; [exact HL6|done..|]. intros d7 HL7. by exists Outside.
  - intros d5 HL5. by exists (Inside (Some e) None).
Qed.

Definition guarded L (c : nat) (a : option (result Guard RcuError)) d : Prop :=
  match a with
  | Some (Ok g) => g_cpu g = c /\ (c < MAX_CPUS)%nat /\ exists rest,
      in_context L c (me false (Inside (if g_nested g then None else Some (g_epoch g)) None)) rest d
  | Some (Err _) => local i (unpinned L) d
  | None => owners d !! i = Some (l_owner L)
  end.

Lemma rg_read_enter_loop fuel L c rest d :
  (c < MAX_CPUS)%nat -> in_context L c (me false Outside) rest d ->
  rg (read_enter_loop fuel c) (guarded L c) d.
Proof.
  intros Hc. revert d. induction fuel as [|fuel IH]; intros d HL; [by apply HL|].
  cbn [read_enter_loop]. eapply rg_then; [by apply rg_read_enter_once|].
  intros [[[nested e]|]|error] d1 (s & HL1 & ->).
  - split_and!; [done..|]. by exists rest.
  - by apply IH.
  - eapply rg_unpin; [exact HL1|done|]. by intros d2 HL2.
Qed.

Lemma rg_read_enter fuel L c d :
  local i L d -> l_pin L = None -> rg (read_enter MAX_CPUS i fuel c) (guarded L c) d.
Proof.
  intros HL Hp. unfold read_enter. eapply rg_pin; [exact HL|done|..].
  - intros rest d1 Hc HL1. rewrite (proj2 (Nat.leb_gt _ _)) by done. by eapply rg_read_enter_loop.
  - intros d1 Hc HL1. rewrite (proj2 (Nat.leb_le _ _)) by done.
    eapply rg_unpin_none; [exact HL1|done|]. intros d2 HL2. cbn. destruct L. cbn in *. by subst.
Qed.

(** ** Grace scans *)

(** No reader of these CPUs depends on an owner retired at [e]. *)
Definition passed (e : Z) (cpus : list nat) d : Prop :=
  e <= epoch d /\ forall c l, c ∈ cpus -> contexts d !! c = Some l -> quiet e l.

Lemma passed_stable e cpus d d' : passed e cpus d -> rely i d d' -> passed e cpus d'.
Proof.
  intros [He Hq] Hr. split; [pose proof (rely_epoch _ _ _ Hr); lia|]. intros c l' Hc Hl'.
  destruct (lookup_lt_is_Some_2 (contexts d) c) as [l Hl].
  { rewrite <- (rely_cpus _ _ _ Hr). by eapply lookup_lt_Some. }
  by eapply (rely_quiet _ _ _ Hr c l l'); [..|apply (Hq c)].
Qed.

Lemma idle_quiet now l r e : cpu_ok now l r -> counted l = 0%nat -> quiet e l.
Proof.
  intros [_ _ _ _ _ He] Hz. assert (forall x, x ∈ l -> stage x = Outside) as Hout.
  { intros x Hx. clear He. induction l as [|y l IH]; [by apply not_elem_of_nil in Hx|]. rewrite counted_cons in Hz.
    apply elem_of_cons in Hx as [->|Hx]; [|apply IH; [lia|done]].
    unfold is_counted in Hz. destruct (stage y); cbn in Hz; try lia; done. }
  split; [left|]; [|intros x e' Hx Hs; by rewrite (Hout x Hx) in Hs].
  clear -Hout. induction l as [|y l IH]; [done|]. cbn. rewrite (Hout y) by left. apply IH.
  intros x Hx. apply Hout. by right.
Qed.

(** A positive marker leaves no sampled epoch behind. *)
Lemma marker_quiet now l r e : cpu_ok now l r -> e < active_of l -> 0 < active_of l -> quiet e l.
Proof.
  intros [_ _ _ Hst _ He] Ha Hpos. split; [by right|]. intros x e' Hx Hs.
  destruct l as [|y l]; [by apply not_elem_of_nil in Hx|]. destruct Hst as (Hy & Hset & Hok).
  apply Forall_cons in He as [_ He]. pose proof (active_settled now l Hset Hok He) as Hact.
  apply elem_of_cons in Hx as [->|Hx].
  - rewrite Hs in Hy. cbn in Hpos. rewrite Hs in Hpos. rewrite decide_True in Hact by done. lia.
  - rewrite Forall_forall in Hset. destruct (Hset x Hx) as [_ Hset']. by rewrite Hs in Hset'.
Qed.

Lemma rg_grace_scan L e cpus d :
  (forall c, c ∈ cpus -> (c < MAX_CPUS)%nat) -> local i L d ->
  rg (grace_scan cpus e) (fun b d' => local i L d' /\ rely i d d' /\
    (b = true -> e <= epoch d -> passed e cpus d')) d.
Proof.
  revert d. induction cpus as [|c cpus IH]; intros d Hcpus HL; cbn [grace_scan].
  { split_and!; [done|reflexivity|]. intros _ He. split; [lia|]. by intros c l ?%not_elem_of_nil. }
  pose proof (Hcpus c ltac:(left)) as Hc.
  eapply rg_local; [exact HL|]. intros d1 Hd1 Hi1 Hm1 HL1.
  destruct (lookup_lt_is_Some_2 (contexts d1) c) as [l1 Hl1]; [by rewrite (inv_contexts _ _ _ Hi1)|].
  destruct (reader_at _ _ _ _ _ Hi1 Hl1) as (r1 & Hr1 & Hok1). rewrite Hr1. eexists _, d1. split; [done|].
  split_and!; [done|reflexivity|]. eapply rg_local; [exact HL1|]. intros d2 Hd2 Hi2 Hm2 HL2.
  destruct (lookup_lt_is_Some_2 (contexts d2) c) as [l2 Hl2]; [by rewrite (inv_contexts _ _ _ Hi2)|].
  destruct (reader_at _ _ _ _ _ Hi2 Hl2) as (r2 & Hr2 & Hok2). rewrite Hr2. eexists _, d2. split; [done|].
  split_and!; [done|reflexivity|]. assert (rely i d d2) as Hd by (by transitivity d1).
  destruct (reader_passed (registration r1) (active_epoch r2) e) eqn:Hp; [|by split_and!].
  assert (e <= epoch d -> quiet e l2) as Hq.
  { intros He. pose proof (cpu_depth _ _ _ Hok1) as Hdep. destruct (cpu_word _ _ _ Hok1) as (b & Hw & _).
    destruct (word_bits b _ Hdep) as [Hmask _]. unfold reader_passed in Hp. rewrite Hw, Hmask in Hp.
    destruct (Z.of_nat (counted l1) =? 0) eqn:Hz; cbn [negb] in Hp.
    - eapply (rely_quiet _ _ _ Hd2 c l1 l2); [done|done|pose proof (rely_epoch _ _ _ Hd1); lia|].
      eapply idle_quiet; [done|lia].
    - rewrite (cpu_active _ _ _ Hok2) in Hp. destruct (active_even _ _ (cpu_epochs _ _ _ Hok2)) as [Hpos _].
      eapply marker_quiet; [done|lia..]. }
  eapply rg_weaken; [|apply IH; [intros; apply Hcpus; by right|done]].
  intros b d3 (HL3 & Hd3 & Hb). split_and!; [done|by transitivity d2|]. intros -> He.
  pose proof (rely_epoch _ _ _ Hd) as Hmono. destruct (Hb eq_refl ltac:(lia)) as [He3 Hq3].
  split; [done|]. intros c' l' [->|Hc']%elem_of_cons Hl'; [|by eapply Hq3].
  eapply (rely_quiet _ _ _ Hd3 c l2 l'); [done|done|lia|auto].
Qed.

Lemma rg_grace_complete L e d : local i L d ->
  rg (grace_complete MAX_CPUS e) (fun b d' => local i L d' /\ rely i d d' /\
    (b = true -> e <= epoch d -> passed e (seq 0 MAX_CPUS) d')) d.
Proof. intros HL. apply rg_grace_scan; [|done]. intros c Hc%elem_of_seq. lia. Qed.

(** ** Hints *)

Lemma hints_action h L d : Inv d -> local i L d ->
  Inv (with_hints h d) /\ (forall j, j <> i -> rely j d (with_hints h d)) /\ local i L (with_hints h d).
Proof.
  intros [] []. split_and!; [by split| |by split]. intros j Hj. split; try done; cbn; intros; by simplify_eq.
Qed.

Lemma rg_put_hints {A} L f (k : () -> prog Rcu A) Q d :
  local i L d -> (forall d', local i L d' -> rg (k tt) Q d') -> rg (put_hints f ≫= k) Q d.
Proof.
  intros HL Hk. eapply rg_local_step; [exact HL|]. intros d1 Hd1 Hi Hm HL1. cbn [fst snd].
  destruct (hints_action (f (hints d1)) L d1 Hi HL1) as (? & ? & ?). auto.
Qed.

Lemma rg_publish_wake_edge L d : local i L d -> rg (publish_wake_edge MAX_CPUS) (fun _ d' => local i L d') d.
Proof.
  intros HL. eapply rg_local_get; [exact HL|]. intros d1 Hd1 Hi HL1.
  destruct (front_retire_epoch (hints d1) =? 0); [done|]. eapply rg_then; [by apply rg_grace_complete|].
  intros [] d2 (HL2 & _); [|done]. eapply rg_local_step; [exact HL2|]. intros d3 Hd3 Hi3 Hm HL3. cbn [fst snd].
  destruct (hints_action (set_wake true (hints d3)) L d3 Hi3 HL3) as (? & ? & HL4). split_and!; [done..|].
  destruct (reclaim_wake_queued (hints d3)); cbn [negb]; [done|].
  apply rg_last. by apply (rg_put_hints L).
Qed.

Lemma rg_note_reader_quiescent L d : local i L d -> rg (note_reader_quiescent MAX_CPUS) (fun _ d' => local i L d') d.
Proof.
  intros HL. eapply rg_local_get; [exact HL|]. intros d1 Hd1 Hi HL1.
  destruct (retire_pending (hints d1)); [by apply rg_publish_wake_edge|done].
Qed.

(** ** Exit *)

Lemma rg_reader_exit L c (nested : bool) e rest d :
  (c < MAX_CPUS)%nat -> in_context L c (me false (Inside (if nested then None else Some e) None)) rest d ->
  rg (reader_exit MAX_CPUS c nested) (fun _ d' => in_context L c (me false Outside) rest d') d.
Proof.
  intros Hc HL. unfold reader_exit. eapply rg_then.
  { apply (rg_masked L c _ _ rest d (fun _ s => s = Outside) HL). intros d1 HL1.
    eapply (rg_then _ _ _ _ _ _ _ (fun _ d' => exists s, in_context L c (me true s) rest d' /\ is_counted (me true s) = true /\
      active_of (me true s :: rest) = active_of rest)).
    - destruct nested; [by exists (Inside None None)|].
      apply rg_last. eapply rg_store_active; [exact HL1|intros; eapply allowed_clear; [done|by right]|done|].
      intros d2 HL2. by exists Leaving.
    - intros _ d2 (s & HL2 & Hs & Ha). eapply rg_load_registration; [done|exact HL2|]. intros _ d3 _ HL3.
      apply rg_last. eapply rg_leave; [exact HL3|done..|].
      intros d4 HL4. by exists Outside. }
  intros [] d1 (s & HL1 & ->). destruct nested; [done|]. by apply rg_note_reader_quiescent.
Qed.

Lemma rg_drop_guard L g rest d :
  (g_cpu g < MAX_CPUS)%nat ->
  in_context L (g_cpu g) (me false (Inside (if g_nested g then None else Some (g_epoch g)) None)) rest d ->
  rg (drop_guard MAX_CPUS g) (fun _ d' => local i (unpinned L) d') d.
Proof.
  intros Hc HL. unfold drop_guard. eapply rg_then; [by eapply rg_reader_exit|]. intros [] d1 HL1.
  apply rg_last. by eapply rg_unpin.
Qed.

End Sections.

Section Protocol.
Context (MAX_CPUS SLOTS i : nat).
Local Abbreviation Inv := (Inv MAX_CPUS SLOTS).
Local Abbreviation rg := (rg may_run Inv rely i).
Local Abbreviation in_context := (in_context i).
Local Abbreviation me := (me i).
Implicit Types (d : Rcu) (L : Local) (o : Owner).

(** ** Locks and the epoch *)

Definition hold_writer ep sl L : Local := mkLocal (l_owner L) (l_pin L) (Some (ep, sl)) (l_lock L).
Definition drop_writer L : Local := mkLocal (l_owner L) (l_pin L) None (l_lock L).
Definition hold_lock q L : Local := mkLocal (l_owner L) (l_pin L) (l_writer L) (Some q).
Definition drop_lock L : Local := mkLocal (l_owner L) (l_pin L) (l_writer L) None.

Lemma rg_lock_writer {A} L (k : () -> prog Rcu A) Q d :
  local i L d ->
  (forall ep sl d', local i (hold_writer ep sl L) d' -> Z.even ep = true -> 0 <= ep <= u64_MAX ->
    length sl = SLOTS -> rg (k tt) Q d') ->
  rg (lock_writer i ≫= k) Q d.
Proof.
  intros HL Hk. eapply rg_local_act; [exact HL|]. intros d1 Hd1 Hi Hm HL1 [] d2.
  destruct (writer d1) as [w|] eqn:Hw; [done|]. intros [= <-]. split_and!.
  - destruct Hi. by split.
  - intros j Hj. split; try done; cbn; intros; simplify_eq; done.
  - eapply (Hk (epoch d1) (slots d1)); [|by apply Hi..]. destruct HL1. by split.
Qed.

Lemma rg_unlock_writer {A} L ep sl (k : () -> prog Rcu A) Q d :
  local i (hold_writer ep sl L) d -> Z.even ep = true ->
  (forall d', local i (drop_writer L) d' -> rg (k tt) Q d') -> rg (unlock_writer ≫= k) Q d.
Proof.
  intros HL Hev Hk. eapply rg_local_step; [exact HL|]. intros d1 Hd1 Hi Hm HL1. cbn [fst snd].
  destruct HL1 as [Ho Hp (Hw & He & Hs) Hl]. split_and!.
  - destruct Hi. split; try done. cbn. intros _. by rewrite He.
  - intros j Hj. split; try done; cbn; intros; simplify_eq; done.
  - apply Hk. by split.
Qed.

Lemma rg_store_epoch {A} L ep sl e (k : () -> prog Rcu A) Q d :
  local i (hold_writer ep sl L) d -> ep <= e <= u64_MAX ->
  (forall d', local i (hold_writer e sl L) d' -> rg (k tt) Q d') -> rg (store_epoch e ≫= k) Q d.
Proof.
  intros HL Hle Hk. eapply rg_local_step; [exact HL|]. intros d1 Hd1 Hi Hm HL1. cbn [fst snd].
  destruct HL1 as [Ho Hp (Hw & He & Hs) Hl]. split_and!.
  - destruct Hi as [Ir Ic Is Ie Iv Icpu Iraw Ih Iring Iret Ires]. split; cbn; try done.
    + lia.
    + congruence.
    + intros c l r Hc Hr. destruct (Icpu c l r Hc Hr) as [? ? ? ? ? Hep]. split; try done.
      eapply Forall_impl; [exact Hep|]. intros x. unfold epoch_ok. destruct (stage_epoch (stage x)); [|done]. naive_solver lia.
    + eapply Forall_impl; [exact Iret|]. cbn. lia.
  - intros j Hj. split; try done; cbn; try lia; intros; simplify_eq; done.
  - apply Hk. by split.
Qed.

Lemma rg_lock_retire {A} L (k : () -> prog Rcu A) Q d :
  local i L d -> (forall q d', local i (hold_lock q L) d' -> rg (k tt) Q d') -> rg (lock_retire i ≫= k) Q d.
Proof.
  intros HL Hk. eapply rg_local_act; [exact HL|]. intros d1 Hd1 Hi Hm HL1 [] d2.
  destruct (retire_lock d1) as [w|] eqn:Hw; [done|]. intros [= <-]. split_and!.
  - destruct Hi. by split.
  - intros j Hj. split; try done; cbn; intros; simplify_eq; done.
  - apply (Hk (retire d1)). destruct HL1. by split.
Qed.

Lemma rg_unlock_retire {A} L q (k : () -> prog Rcu A) Q d :
  local i (hold_lock q L) d -> (forall d', local i (drop_lock L) d' -> rg (k tt) Q d') -> rg (unlock_retire ≫= k) Q d.
Proof.
  intros HL Hk. eapply rg_local_step; [exact HL|]. intros d1 Hd1 Hi Hm HL1. cbn [fst snd].
  destruct HL1 as [Ho Hp Hw (Hl & Hq)]. split_and!.
  - destruct Hi. by split.
  - intros j Hj. split; try done; cbn; intros; simplify_eq; done.
  - apply Hk. by split.
Qed.

Lemma rg_load_slot {A} L s (k : ptr -> prog Rcu A) Q d :
  local i L d -> (s < SLOTS)%nat ->
  (forall p d', local i L d' -> match l_writer L with Some (_, sl) => sl !! s = Some p | None => True end ->
    rg (k p) Q d') ->
  rg (load_slot s ≫= k) Q d.
Proof.
  intros HL Hs Hk. eapply rg_local; [exact HL|]. intros d1 Hd1 Hi Hm HL1.
  destruct (lookup_lt_is_Some_2 (slots d1) s) as [p Hp]; [by rewrite (inv_slots _ _ _ Hi)|].
  rewrite Hp. exists p, d1. split; [done|]. split_and!; [done|reflexivity|]. apply Hk; [done|].
  destruct HL1 as [_ _ Hw _]. destruct (l_writer L) as [[ep sl]|]; [|done]. by destruct Hw as (_ & _ & <-).
Qed.

(** ** Ownership *)

Lemma own_memory f q sl h d o : owners d !! i = Some o ->
  own i f (mkRcu (epoch d) (readers d) (writer d) (retire_lock d) q (hints d) sl h (contexts d) (owners d)) =
  with_memory i q sl h (f o) d.
Proof. intros Ho. unfold own. cbn. by rewrite Ho. Qed.

Lemma rg_new_arc {A} L a (k : () -> prog Rcu A) Q d :
  local i L d -> (forall d', local i (reown (add_unit a (l_owner L)) L) d' -> rg (k tt) Q d') ->
  rg (new_arc i a ≫= k) Q d.
Proof.
  intros HL Hk. eapply rg_local_act; [exact HL|]. intros d1 Hd1 Hi Hm HL1 [] d2.
  destruct (heap d1 !! a) as [n|] eqn:Ha; [done|]. intros [= <-]. unfold with_heap.
  rewrite (own_memory _ _ _ _ _ _ (local_owner _ _ _ HL1)).
  destruct (new_action MAX_CPUS SLOTS i a L d1 Hi HL1 Ha) as (? & ? & ?). auto.
Qed.

Lemma rg_increment {A} L a (k : () -> prog Rcu A) Q d :
  local i L d ->
  (forall d1, Inv d1 -> local i L d1 -> a ∈ units d1) ->
  (forall d', local i (reown (add_unit a (l_owner L)) L) d' -> rg (k tt) Q d') ->
  rg (increment_strong_count i a id ≫= k) Q d.
Proof.
  intros HL Hlive Hk. eapply rg_local; [exact HL|]. intros d1 Hd1 Hi Hm HL1.
  destruct (heap_live _ _ a (inv_heap _ _ _ Hi) (Hlive d1 Hi HL1)) as [n Hn]. rewrite Hn. eexists _, _. split; [done|].
  unfold with_heap, id. rewrite (own_memory _ _ _ _ _ _ (local_owner _ _ _ HL1)).
  destruct (increment_action MAX_CPUS SLOTS i a n L d1 Hi HL1 Hn) as (? & ? & ?). auto.
Qed.

Lemma rg_drop_arc {A} L a (k : () -> prog Rcu A) Q d :
  local i L d -> a ∈ o_units (l_owner L) ->
  (forall d', local i (reown (drop_unit a (l_owner L)) L) d' -> rg (k tt) Q d') ->
  rg (drop_arc i a ≫= k) Q d.
Proof.
  intros HL Ha Hk. eapply rg_local; [exact HL|]. intros d1 Hd1 Hi Hm HL1.
  destruct (unit_live MAX_CPUS SLOTS i a L d1 Hi HL1 Ha) as [n Hn]. rewrite Hn. eexists _, _. split; [done|].
  unfold with_heap. rewrite (own_memory _ _ _ _ _ _ (local_owner _ _ _ HL1)).
  destruct (drop_action MAX_CPUS SLOTS i a n L d1 Hi HL1 Ha Hn) as (? & ? & ?). auto.
Qed.

(** ** Loads *)

Lemma supported_unit d p a : supported d p a -> p ∈ units d.
Proof.
  unfold units. rewrite !elem_of_app. intros [Hs|(r & Hr & <- & _)].
  - left. apply list_elem_of_omap. by exists (Some p).
  - apply elem_of_app in Hr as [Hr|Hr]; [right; left; by apply list_elem_of_fmap_2|].
    right. right. unfold hands in Hr. apply list_elem_of_bind in Hr as (o & Hr & Ho).
    apply list_elem_of_bind. exists o. split; [|done]. apply elem_of_app. right. by apply list_elem_of_fmap_2.
Qed.

Lemma allowed_raw now rest r (o : option Z) (p p' : ptr) :
  cpu_ok now (me false (Inside o p) :: rest) r ->
  allowed now (me false (Inside o p)) rest (me false (Inside o p')) r.
Proof.
  intros Hok. pose proof Hok as [_ _ Ha (Hst & _) _ [He _]%Forall_cons].
  assert (r = mkReader (registration r) (active_of (me false (Inside o p) :: rest))) as Hr
    by (rewrite <- Ha; by destruct r). rewrite Hr.
  assert (active_of (me false (Inside o p') :: rest) = active_of (me false (Inside o p) :: rest)) as Heq by done.
  apply (allowed_keep _ _ _ _ Hok (Inside o p')); try done; auto.
  - by eapply moved_stack.
  - right. by split.
  - intros e _ Hq. eapply quiet_moved; [done|apply Hq|done].
Qed.

Definition outer_of (g : Guard) : option Z := if g_nested g then None else Some (g_epoch g).

Lemma rg_load_raw {A} L s c g p0 rest (k : ptr -> prog Rcu A) Q d :
  (s < SLOTS)%nat -> in_context L c (me false (Inside (outer_of g) p0)) rest d ->
  (forall p d', in_context L c (me false (Inside (outer_of g) p)) rest d' -> rg (k p) Q d') ->
  rg (load_raw s c g ≫= k) Q d.
Proof.
  intros Hs HL Hk. eapply rg_local; [exact HL|]. intros d1 Hd1 Hi Hm HL1.
  destruct (in_context_top _ _ _ _ _ _ _ _ Hi Hm HL1) as (Hc & Ht & r & Hr & Hok).
  destruct (lookup_lt_is_Some_2 (slots d1) s) as [p Hp]; [by rewrite (inv_slots _ _ _ Hi)|]. rewrite Hp.
  eexists _, _. split; [done|]. rewrite (set_stage_keep _ _ _ r _ _ Hc Hr).
  destruct (move_context _ _ _ _ _ _ _ _ _ _ Hi Hm HL1 (allowed_raw _ _ _ _ _ p Hok)) as (? & ? & ?); [|auto].
  intros q. cbn. intros ->. left. by eapply list_elem_of_lookup_2.
Qed.

Lemma rg_increment_raw {A} L c g a rest (k : () -> prog Rcu A) Q d :
  in_context L c (me false (Inside (outer_of g) (Some a))) rest d ->
  (forall d', in_context (reown (add_unit a (l_owner L)) L) c (me false (Inside (outer_of g) None)) rest d' ->
    rg (k tt) Q d') ->
  rg (increment_strong_count i a (set_stage c (Inside (outer_of g) None)) ≫= k) Q d.
Proof.
  intros HL Hk. eapply rg_local; [exact HL|]. intros d1 Hd1 Hi Hm HL1.
  destruct (in_context_top _ _ _ _ _ _ _ _ Hi Hm HL1) as (Hc & Ht & r & Hr & Hok).
  assert (a ∈ units d1) as Ha.
  { eapply supported_unit, (inv_raw _ _ _ Hi c _ _ a Hc); [left|done]. }
  destruct (heap_live _ _ a (inv_heap _ _ _ Hi) Ha) as [n Hn]. rewrite Hn. eexists _, _. split; [done|].
  unfold with_heap. rewrite (own_memory _ _ _ _ _ _ (local_owner _ _ _ HL1)).
  destruct (increment_action MAX_CPUS SLOTS i a n _ d1 Hi HL1 Hn) as (Hi2 & Hrel2 & HL2).
  set (d2 := with_memory _ _ _ _ _ _) in *. assert (may_run d2 i) as Hm2 by exact Hm.
  rewrite (set_stage_keep c _ rest r _ d2 Hc Hr).
  destruct (move_context MAX_CPUS SLOTS i (reown (add_unit a (l_owner L)) L) c _ rest _ r d2 Hi2 Hm2 HL2
    (allowed_raw _ _ _ _ _ None Hok)) as (? & Hrel & ?); [done|].
  split_and!; [done| |by apply Hk]. intros j Hj. transitivity d2; auto.
Qed.

(** A thread outside every section and lock. *)
Definition free o : Local := mkLocal o None None None.

Definition taken (a : LoadResult) o : Owner := match a with Loaded (Some p) => add_unit p o | _ => o end.

Lemma drop_added a o : drop_unit a (add_unit a o) = o.
Proof. destruct o. unfold drop_unit, add_unit. cbn. by rewrite decide_True. Qed.

Lemma rg_guard_stable {A} L g (k : bool -> prog Rcu A) Q d :
  local i L d -> (forall b d', local i L d' -> rg (k b) Q d') -> rg (guard_stable g ≫= k) Q d.
Proof.
  intros HL Hk. unfold guard_stable. destruct (g_nested g); [by apply Hk|].
  eapply rg_local_get; [exact HL|]. intros d1 _ _ HL1. by apply Hk.
Qed.

Lemma rg_try_load_if_present fuel cpus s o d :
  (s < SLOTS)%nat -> local i (free o) d ->
  rg (try_load_if_present MAX_CPUS i fuel cpus s) (fun a d' => owners d' !! i = Some (taken a o) /\
    (a <> Spinning -> local i (free (taken a o)) d')) d.
Proof.
  intros Hs. revert d. induction cpus as [|c cpus IH]; intros d HL; cbn [try_load_if_present].
  { split; [apply HL|done]. }
  eapply rg_then; [by apply (rg_read_enter MAX_CPUS SLOTS i fuel (free o))|].
  intros [[g|error]|] d1 Hg; cbn in Hg; [|by split; [apply Hg|]|by split].
  destruct Hg as (Hcpu & Hc & rest & HL1).
  eapply rg_load_raw; [done|exact HL1|]. intros [a|] d2 HL2.
  - eapply rg_increment_raw; [exact HL2|]. intros d3 HL3.
    eapply rg_guard_stable; [exact HL3|]. intros [] d4 HL4.
    + eapply rg_then; [eapply (rg_drop_guard MAX_CPUS SLOTS i _ g rest); [by rewrite Hcpu|rewrite Hcpu; exact HL4]|].
      intros [] d5 HL5. split; [apply HL5|done].
    + eapply rg_drop_arc; [exact HL4|left|]. intros d5 HL5. cbn [l_owner repin reown free] in HL5.
      rewrite drop_added in HL5.
      eapply rg_then; [eapply (rg_drop_guard MAX_CPUS SLOTS i (free o) g rest); [by rewrite Hcpu|rewrite Hcpu; exact HL5]|].
      intros [] d6 HL6. by apply IH.
  - eapply rg_then; [eapply (rg_drop_guard MAX_CPUS SLOTS i (free o) g rest); [by rewrite Hcpu|rewrite Hcpu; exact HL2]|].
    intros [] d3 HL3. split; [apply HL3|done].
Qed.

(** ** Reservations *)

Lemma lock_owner q L d : local i (hold_lock q L) d -> l_lock (hold_lock q L) = Some (retire d).
Proof. intros [_ _ _ [_ Hq]]. cbn in *. by rewrite Hq. Qed.

Lemma rg_reserve_retire o d :
  local i (free o) d ->
  rg (reserve_retire i) (fun a d' => local i (free (match a with Ok _ => set_reserved (S (o_reserved o)) o | Err _ => o end)) d') d.
Proof.
  intros HL. eapply rg_local_get; [exact HL|]. intros d1 _ _ HL1. destruct (checked_add_u64 (epoch d1) 2); [|done].
  eapply rg_lock_retire; [exact HL1|]. intros q d2 HL2. eapply rg_local; [exact HL2|]. intros d3 Hd3 Hi Hm HL3.
  destruct (RetireQueue.reserve (retire d3)) as [q'|e] eqn:Hq.
  - eexists _, _. split; [done|]. unfold with_retire. rewrite (own_memory _ _ _ _ _ _ (local_owner _ _ _ HL3)).
    destruct (reserve_action MAX_CPUS SLOTS i q' _ d3 Hi HL3 (lock_owner _ _ _ HL3) Hq) as (? & ? & HL4).
    split_and!; [done..|]. by eapply (rg_unlock_retire (free (set_reserved (S (o_reserved o)) o))).
  - eexists _, _. split; [done|]. split_and!; [done|reflexivity|]. by eapply (rg_unlock_retire (free o)).
Qed.

Lemma rg_cancel_reservation L d :
  local i L d -> l_lock L = None -> o_reserved (l_owner L) <> 0%nat ->
  rg (cancel_reservation i)
    (fun _ d' => local i (reown (set_reserved (Nat.pred (o_reserved (l_owner L))) (l_owner L)) L) d') d.
Proof.
  intros HL Hlk Hres. eapply rg_lock_retire; [exact HL|]. intros q d1 HL1. eapply rg_local; [exact HL1|]. intros d2 Hd2 Hi Hm HL2.
  destruct (cancel_action MAX_CPUS SLOTS i _ d2 Hi HL2 (lock_owner _ _ _ HL2) Hres) as (q' & Hq & ? & ? & HL3).
  rewrite Hq. eexists _, _. split; [done|]. unfold with_retire. rewrite (own_memory _ _ _ _ _ _ (local_owner _ _ _ HL2)).
  split_and!; [done..|]. eapply (rg_unlock_retire (reown (set_reserved (Nat.pred (o_reserved (l_owner L))) (l_owner L)) L)); [done|].
  intros d4 HL4. unfold reown. rewrite Hlk. exact HL4.
Qed.

(** ** Retirement *)

Definition committed L : Local :=
  reown (set_reserved (Nat.pred (o_reserved (l_owner L))) (empty_hand (l_owner L))) L.

Lemma rg_commit_retired r ep sl L d :
  local i L d -> l_lock L = None -> l_writer L = Some (ep, sl) -> retire_epoch r <= ep ->
  o_hand (l_owner L) = [r] -> o_reserved (l_owner L) <> 0%nat ->
  rg (commit_retired i r) (fun _ d' => local i (committed L) d') d.
Proof.
  intros HL Hlk Hw Hr Hh Hres. eapply rg_lock_retire; [exact HL|]. intros q d1 HL1.
  eapply rg_local_get; [exact HL1|]. intros d2 Hd2 _ HL2. generalize (RetireQueue.is_empty (retire d2)). intros was_empty.
  eapply rg_local; [exact HL2|]. intros d3 Hd3 Hi Hm HL3.
  assert (epoch d3 = ep) as He by (destruct HL3 as [_ _ HW _]; cbn in HW; rewrite Hw in HW; apply HW).
  destruct (commit_action MAX_CPUS SLOTS i r _ d3 Hi HL3 (lock_owner _ _ _ HL3) Hh ltac:(lia) Hres)
    as (q' & Hq & ? & ? & HL4).
  rewrite Hq. eexists _, _. split; [done|]. unfold with_retire. rewrite (own_memory _ _ _ _ _ _ (local_owner _ _ _ HL3)).
  split_and!; [done..|]. cbn [l_owner hold_lock] in HL4.
  eapply (rg_then _ _ _ _ _ _ _ (fun _ d' => local i (hold_lock q' (committed L)) d')).
  { destruct was_empty; [|done]. apply rg_last. by eapply (rg_put_hints MAX_CPUS SLOTS i (hold_lock q' (committed L))). }
  intros [] d5 HL5. eapply rg_put_hints; [exact HL5|]. intros d6 HL6. apply rg_last.
  eapply (rg_unlock_retire (committed L)); [done|]. intros d7 HL7. unfold committed, reown. rewrite Hlk. exact HL7.
Qed.

End Protocol.
