(* ===== verification/RcuWriters.v ===== *)
(** Read-copy-update, part 9: publication, clearing, reclamation and the
    lifecycle of CPUs.

    Read-copy-update, part 10: clients of a domain, in every interleaving. *)

From stdpp Require Import gmap.
From S2P Require Import Prelude Threads Rcu RcuSafety RcuOwners RcuProtocol.
Local Open Scope Z_scope.

Section Writers.
Context (MAX_CPUS SLOTS i : nat).
Local Abbreviation Inv := (Inv MAX_CPUS SLOTS).
Local Abbreviation rg := (rg may_run Inv rely i).
Implicit Types (d : Rcu) (L : Local) (o : Owner).

Lemma checked_add_u64_spec a b c : checked_add_u64 a b = Some c -> c = a + b /\ c <= u64_MAX.
Proof. unfold checked_add_u64. destruct (a + b <=? u64_MAX) eqn:He; [|done]. intros [= <-]. lia. Qed.

(** ** The swap *)

Lemma rg_swap_slot {A} L ep sl s replacement old (k : ptr -> prog Rcu A) Q d :
  local i (hold_writer ep sl L) d -> Z.odd ep = true -> sl !! s = Some old ->
  (forall a, replacement = Some a -> a ∈ o_units (l_owner L)) ->
  (forall d', local i (hold_writer ep (<[s := replacement]> sl) (reown (swapped replacement old (ep + 1) (l_owner L)) L)) d' ->
    rg (k old) Q d') ->
  rg (swap_slot i s replacement (ep + 1) ≫= k) Q d.
Proof.
  intros HL Hodd Hold Hin Hk. eapply rg_local; [exact HL|]. intros d1 Hd1 Hi Hm HL1.
  pose proof HL1 as [_ _ (_ & _ & Hsl) _]. rewrite Hsl, Hold. eexists _, _. split; [done|]. unfold with_slot.
  rewrite (own_memory _ _ _ _ _ _ _ (local_owner _ _ _ HL1)).
  destruct (swap_action MAX_CPUS SLOTS i s replacement old ep sl _ d1 Hi HL1 eq_refl Hodd Hold Hin) as (? & ? & HL2).
  split_and!; [done..|]. by apply Hk.
Qed.

Lemma hand_unit a L d : local i L d -> a ∈ pointer <$> o_hand (l_owner L) -> a ∈ units d.
Proof.
  intros [Ho _ _ _] Ha. rewrite (units_split i _ _ Ho). unfold owner_units at 1. set_solver.
Qed.

(** What [publish] and [clear] end with: the old owner is retired, and its
    unit is returned. *)
Lemma rg_retire_old {A} L ep sl old (k : () -> prog Rcu A) Q d :
  local i (hold_writer ep sl L) d -> Z.even ep = true -> l_lock L = None ->
  o_hand (l_owner L) = [mkRetired old ep] -> o_reserved (l_owner L) <> 0%nat ->
  (forall d', local i (drop_writer (committed (reown (add_unit old (l_owner L)) L))) d' -> rg (k tt) Q d') ->
  rg (increment_strong_count i old id;; commit_retired i (mkRetired old ep);; (unlock_writer ≫= k)) Q d.
Proof.
  intros HL Hev Hlk Hh Hres Hk. eapply rg_increment; [exact HL| |].
  { intros d1 _ HL1. eapply hand_unit; [exact HL1|]. cbn. rewrite Hh. left. }
  intros d1 HL1. eapply rg_then; [eapply (rg_commit_retired MAX_CPUS SLOTS i _ ep sl _ _ HL1); try done|].
  intros [] d2 HL2. by eapply (rg_unlock_writer _ _ _ (committed (reown (add_unit old (l_owner L)) L)) ep sl).
Qed.

Lemma rg_reject {A} L ep sl (a : A) d :
  local i (hold_writer ep sl L) d -> Z.even ep = true -> l_lock L = None -> o_reserved (l_owner L) <> 0%nat ->
  rg (cancel_reservation i;; unlock_writer;; mret a)
    (fun b d' => b = a /\ local i (drop_writer (reown (set_reserved (Nat.pred (o_reserved (l_owner L))) (l_owner L)) L)) d') d.
Proof.
  intros HL Hev Hlk Hres. eapply rg_then; [by eapply (rg_cancel_reservation MAX_CPUS SLOTS i (hold_writer ep sl L))|].
  intros [] d1 HL1.
  eapply (rg_unlock_writer _ _ _ (reown (set_reserved (Nat.pred (o_reserved (l_owner L))) (l_owner L)) L) ep sl); [done..|].
  intros d2 HL2. by split.
Qed.

(** ** Publication *)

Definition unreserved o : Owner := set_reserved (Nat.pred (o_reserved o)) o.

(** The owner record after a publication or a clear. *)
Definition replaced (replacement : ptr) (old : nat) o : Owner :=
  let o := match replacement with Some a => drop_unit a o | None => o end in
  set_reserved (Nat.pred (o_reserved o)) (mkOwner (old :: o_units o) [] (o_reserved o)).

Lemma committed_replaced replacement old e o : o_hand o = [] ->
  committed (reown (add_unit old (swapped replacement (Some old) e o)) (free o)) = free (replaced replacement old o).
Proof. intros Hh. unfold committed, replaced. by destruct replacement. Qed.

Lemma odd_succ e : Z.even e = true -> Z.odd (e + 1) = true.
Proof. intros He. by rewrite Z.add_1_r, Z.odd_succ. Qed.

(** The path of [publish] and [clear] after the checks. *)
Lemma rg_replace {A} o s replacement old ep sl (k : nat -> prog Rcu A) (Q : A -> Rcu -> Prop) d :
  local i (hold_writer ep sl (free o)) d -> Z.even ep = true -> ep + 2 <= u64_MAX ->
  sl !! s = Some (Some old) -> (forall a, replacement = Some a -> a ∈ o_units o) ->
  o_hand o = [] -> o_reserved o <> 0%nat ->
  (forall d', local i (free (replaced replacement old o)) d' -> rg (k old) Q d') ->
  forall bad, rg (store_epoch (ep + 1);;
    old ← swap_slot i s replacement (ep + 2);
    store_epoch (ep + 2);;
    match old with
    | None => bad
    | Some old => increment_strong_count i old id;; commit_retired i (mkRetired old (ep + 2));; unlock_writer;; k old
    end) Q d.
Proof.
  intros HL Hev Hmax Hold Hin Hh Hres Hk bad. eapply rg_store_epoch; [exact HL|lia|]. intros d1 HL1.
  replace (ep + 2) with (ep + 1 + 1) by lia.
  eapply (rg_swap_slot (free o)); [exact HL1|by apply odd_succ|exact Hold|exact Hin|]. intros d2 HL2.
  eapply rg_store_epoch; [exact HL2|lia|]. intros d3 HL3.
  eapply rg_retire_old; [exact HL3|..].
  - replace (ep + 1 + 1) with (ep + 2) by lia. by rewrite Z.even_add_even by (by exists 1).
  - done.
  - cbn. unfold swapped. destruct replacement; cbn; by rewrite Hh.
  - cbn. unfold swapped. by destruct replacement.
  - intros d4 HL4. apply Hk. cbn [l_owner reown] in HL4.
    change (reown (add_unit old (swapped replacement (Some old) (ep + 1 + 1) (l_owner (free o))))
      (reown (swapped replacement (Some old) (ep + 1 + 1) (l_owner (free o))) (free o))) with
      (reown (add_unit old (swapped replacement (Some old) (ep + 1 + 1) o)) (free o)) in HL4.
    by rewrite committed_replaced in HL4.
Qed.

Lemma rg_publish s replacement expected o d :
  (s < SLOTS)%nat -> local i (free o) d -> replacement ∈ o_units o -> o_hand o = [] -> o_reserved o <> 0%nat ->
  rg (publish i s replacement expected) (fun a d' =>
    local i (free (match a with Ok old => replaced (Some replacement) old o | Err _ => unreserved o end)) d') d.
Proof.
  intros Hs HL Hin Hh Hres. eapply rg_lock_writer; [exact HL|]. intros ep sl d1 HL1 Hev Hep Hlen.
  eapply rg_load_slot; [exact HL1|done|]. intros p d2 HL2 Hp. cbn in Hp.
  case_bool_decide as Hcur.
  { eapply rg_weaken; [|by eapply (rg_reject (free o))]. by intros a d3 [-> HL3]. }
  subst p. eapply rg_local_get; [exact HL2|]. intros d3 _ _ HL3.
  assert (epoch d3 = ep) as -> by (by destruct HL3 as [_ _ (_ & He & _) _]).
  destruct (checked_add_u64 ep 1) as [e1|] eqn:H1.
  2:{ eapply rg_weaken; [|by eapply (rg_reject (free o))]. by intros a d4 [-> HL4]. }
  destruct (checked_add_u64 ep 2) as [e2|] eqn:H2.
  2:{ eapply rg_weaken; [|by eapply (rg_reject (free o))]. by intros a d4 [-> HL4]. }
  apply checked_add_u64_spec in H1 as [-> _], H2 as [-> Hmax].
  eapply (rg_replace o s (Some replacement) expected ep sl (fun old => mret (Ok old))); try done.
  by intros a [= <-].
Qed.

Lemma rg_clear s expected o d :
  (s < SLOTS)%nat -> local i (free o) d -> o_hand o = [] -> o_reserved o <> 0%nat ->
  rg (clear i s expected) (fun a d' =>
    local i (free (match a with Ok old => replaced None old o | Err _ => unreserved o end)) d') d.
Proof.
  intros Hs HL Hh Hres. eapply rg_lock_writer; [exact HL|]. intros ep sl d1 HL1 Hev Hep Hlen.
  eapply rg_load_slot; [exact HL1|done|]. intros p d2 HL2 Hp. cbn in Hp.
  case_bool_decide as Hcur.
  { eapply rg_weaken; [|by eapply (rg_reject (free o))]. by intros a d3 [-> HL3]. }
  subst p. eapply rg_local_get; [exact HL2|]. intros d3 _ _ HL3.
  assert (epoch d3 = ep) as -> by (by destruct HL3 as [_ _ (_ & He & _) _]).
  destruct (checked_add_u64 ep 1) as [e1|] eqn:H1.
  2:{ eapply rg_weaken; [|by eapply (rg_reject (free o))]. by intros a d4 [-> HL4]. }
  destruct (checked_add_u64 ep 2) as [e2|] eqn:H2.
  2:{ eapply rg_weaken; [|by eapply (rg_reject (free o))]. by intros a d4 [-> HL4]. }
  apply checked_add_u64_spec in H1 as [-> _], H2 as [-> Hmax].
  eapply (rg_replace o s None expected ep sl (fun old => mret (Ok old))); by try done.
Qed.

Lemma rg_publish_if_empty s replacement o d :
  (s < SLOTS)%nat -> local i (free o) d -> replacement ∈ o_units o ->
  rg (publish_if_empty i s replacement) (fun a d' =>
    local i (free (match a with Ok _ => drop_unit replacement o | Err _ => o end)) d') d.
Proof.
  intros Hs HL Hin. eapply rg_lock_writer; [exact HL|]. intros ep sl d1 HL1 Hev Hep Hlen.
  eapply rg_load_slot; [exact HL1|done|]. intros p d2 HL2 Hp. cbn in Hp.
  case_bool_decide as Hcur; [by eapply (rg_unlock_writer _ _ _ (free o))|].
  subst p. eapply rg_local_get; [exact HL2|]. intros d3 _ _ HL3.
  assert (epoch d3 = ep) as -> by (by destruct HL3 as [_ _ (_ & He & _) _]).
  destruct (checked_add_u64 ep 1) as [e1|] eqn:H1; [|by eapply (rg_unlock_writer _ _ _ (free o))].
  destruct (checked_add_u64 ep 2) as [e2|] eqn:H2; [|by eapply (rg_unlock_writer _ _ _ (free o))].
  apply checked_add_u64_spec in H1 as [-> _], H2 as [-> Hmax].
  eapply rg_store_epoch; [exact HL3|lia|]. intros d4 HL4. replace (ep + 2) with (ep + 1 + 1) by lia.
  eapply rg_local_step; [exact HL4|]. intros d5 Hd5 Hi Hm HL5. cbn [fst snd]. unfold with_slot.
  rewrite (own_memory _ _ _ _ _ _ _ (local_owner _ _ _ HL5)).
  destruct (swap_action MAX_CPUS SLOTS i s (Some replacement) None (ep + 1) sl _ d5 Hi HL5 eq_refl) as (? & ? & HL6);
    [by apply odd_succ|done|by intros a [= <-]|].
  split_and!; [done..|]. eapply (rg_store_epoch _ _ _ (free (drop_unit replacement o))); [exact HL6|lia|]. intros d7 HL7.
  eapply (rg_unlock_writer _ _ _ (free (drop_unit replacement o))); [exact HL7| |by intros d8 HL8].
  replace (ep + 1 + 1) with (ep + 2) by lia. by rewrite Z.even_add_even by (by exists 1).
Qed.

(** ** Reclamation *)

Lemma rg_queue_front {A} L q (k : option Retired -> prog Rcu A) Q d :
  local i (hold_lock q L) d ->
  (forall d', local i (hold_lock q L) d' ->
    match hd_error (contents q) with Some r => retire_epoch r <= epoch d' | None => True end ->
    rg (k (hd_error (contents q))) Q d') ->
  rg (queue_front ≫= k) Q d.
Proof.
  intros HL Hk. eapply rg_local; [exact HL|]. intros d1 Hd1 Hi Hm HL1. pose proof HL1 as [_ _ _ [_ Hq]]. cbn in Hq.
  rewrite (ring_front _ _ (inv_ring _ _ _ Hi)), Hq. eexists _, d1. split; [done|]. split_and!; [done|reflexivity|].
  apply Hk; [done|]. pose proof (inv_retired _ _ _ Hi) as Hr. rewrite Hq in Hr.
  destruct (contents q) as [|r rs]; [done|]. by apply Forall_cons in Hr as [? _].
Qed.

Lemma rg_queue_pop {A} L q r (k : option Retired -> prog Rcu A) Q d :
  local i (hold_lock q L) d -> hd_error (contents q) = Some r -> passed (retire_epoch r) (seq 0 MAX_CPUS) d ->
  (forall q' d', local i (hold_lock q' (reown (add_unit (pointer r) (l_owner L)) L)) d' -> rg (k (Some r)) Q d') ->
  rg (queue_pop i ≫= k) Q d.
Proof.
  intros HL Hr Hp Hk. eapply rg_local; [exact HL|]. intros d1 Hd1 Hi Hm HL1. pose proof HL1 as [_ _ _ [_ Hq]]. cbn in Hq.
  rewrite <- Hq in Hr. destruct (passed_stable i _ _ _ _ Hp Hd1) as [_ Hquiet].
  destruct (pop_action MAX_CPUS SLOTS i r _ d1 Hi HL1 (lock_owner _ _ _ _ HL1) Hr) as (q' & Hpop & ? & ? & HL2).
  { intros c l Hc. apply (Hquiet c l); [|done]. apply elem_of_seq. split; [lia|]. cbn.
    rewrite <- (inv_contexts _ _ _ Hi). by eapply lookup_lt_Some. }
  rewrite Hpop. eexists _, _. split; [done|]. unfold with_retire. rewrite (own_memory _ _ _ _ _ _ _ (local_owner _ _ _ HL1)).
  split_and!; [done..|]. by apply (Hk q').
Qed.

Lemma rg_drain_loop limit o d :
  local i (free o) d -> rg (drain_loop MAX_CPUS i limit) (fun _ d' => local i (free o) d') d.
Proof.
  revert d. induction limit as [|limit IH]; intros d HL; [done|]. cbn [drain_loop].
  eapply rg_lock_retire; [exact HL|]. intros q d1 HL1. eapply rg_queue_front; [exact HL1|]. intros d2 HL2 Hle.
  destruct (hd_error (contents q)) as [r|] eqn:Hr; [|by eapply (rg_unlock_retire _ _ _ (free o))].
  eapply rg_then; [by apply (rg_grace_complete MAX_CPUS SLOTS i)|]. intros [] d3 (HL3 & Hd3 & Hp).
  2:{ by eapply (rg_unlock_retire _ _ _ (free o)). }
  eapply rg_queue_pop; [exact HL3|done|by apply Hp|]. intros q' d4 HL4.
  eapply rg_queue_front; [exact HL4|]. intros d5 HL5 _. eapply rg_put_hints; [exact HL5|]. intros d6 HL6.
  eapply (rg_unlock_retire _ _ _ (free (add_unit (pointer r) o))); [exact HL6|]. intros d7 HL7.
  eapply rg_drop_arc; [exact HL7|left|]. intros d8 HL8. cbn [l_owner free drop_lock] in HL8. rewrite drop_added in HL8.
  eapply rg_then; [by apply IH|]. by intros n d9 HL9.
Qed.

Lemma rg_drain b1 b2 limit o d :
  local i (free o) d -> rg (drain MAX_CPUS i b1 b2 limit) (fun _ d' => local i (free o) d') d.
Proof.
  intros HL. unfold drain. destruct (negb b1 || negb b2); [done|].
  eapply (rg_then _ _ _ _ _ _ _ (fun _ d' => local i (free o) d')).
  { destruct (limit =? 0)%nat; [done|]. apply rg_last. by eapply rg_put_hints. }
  intros [] d1 HL1. eapply rg_then; [by apply rg_drain_loop|]. intros n d2 HL2.
  eapply rg_lock_retire; [exact HL2|]. intros q d3 HL3. eapply rg_queue_front; [exact HL3|]. intros d4 HL4 _.
  eapply (rg_then _ _ _ _ _ _ _ (fun _ d' => local i (hold_lock q (free o)) d')).
  { destruct (hd_error (contents q)) as [r|].
    - eapply rg_then; [by apply (rg_grace_complete MAX_CPUS SLOTS i)|]. by intros b d5 (HL5 & _).
    - eapply rg_put_hints; [exact HL4|]. intros d5 HL5. eapply rg_put_hints; [exact HL5|]. intros d6 HL6.
      eapply rg_put_hints; [exact HL6|]. by intros d7 HL7. }
  intros [pending blocked] d5 HL5. eapply (rg_unlock_retire _ _ _ (free o)); [exact HL5|]. intros d6 HL6.
  eapply (rg_then _ _ _ _ _ _ _ (fun _ d' => local i (free o) d')); [|by intros [] d7 HL7].
  destruct blocked; [|done]. eapply rg_put_hints; [exact HL6|]. intros d7 HL7.
  by apply (rg_publish_wake_edge MAX_CPUS SLOTS i).
Qed.

(** ** Queries *)

Lemma rg_has_pending o d : local i (free o) d -> rg (has_pending i) (fun _ d' => local i (free o) d') d.
Proof.
  intros HL. eapply rg_lock_retire; [exact HL|]. intros q d1 HL1. eapply rg_local; [exact HL1|]. intros d2 _ Hi _ HL2.
  eexists _, d2. split; [done|]. split_and!; [done|reflexivity|]. by eapply (rg_unlock_retire _ _ _ (free o)).
Qed.

Lemma rg_has_reclaimable_pending o d :
  local i (free o) d -> rg (has_reclaimable_pending MAX_CPUS i) (fun _ d' => local i (free o) d') d.
Proof.
  intros HL. eapply rg_lock_retire; [exact HL|]. intros q d1 HL1. eapply rg_queue_front; [exact HL1|]. intros d2 HL2 _.
  eapply (rg_then _ _ _ _ _ _ _ (fun _ d' => local i (hold_lock q (free o)) d')).
  { destruct (hd_error (contents q)) as [r|]; [|done].
    eapply rg_weaken; [|by apply (rg_grace_complete MAX_CPUS SLOTS i)]. by intros b d3 (HL3 & _). }
  intros b d3 HL3. by eapply (rg_unlock_retire _ _ _ (free o)).
Qed.

Lemma rg_slot_is_empty fuel s o d :
  (s < SLOTS)%nat -> local i (free o) d -> rg (slot_is_empty fuel s) (fun _ d' => local i (free o) d') d.
Proof.
  intros Hs. revert d. induction fuel as [|fuel IH]; intros d HL; [done|]. cbn [slot_is_empty].
  eapply rg_local_get; [exact HL|]. intros d1 _ _ HL1. destruct (Z.odd (epoch d1)); [by apply IH|].
  eapply rg_load_slot; [exact HL1|done|]. intros p d2 HL2 _. eapply rg_local_get; [exact HL2|]. intros d3 _ _ HL3.
  destruct (epoch d3 =? epoch d1); [done|by apply IH].
Qed.

(** ** Registration *)

Lemma rg_exchange_registration {A} L c old new (k : option Z -> prog Rcu A) Q d :
  (c < MAX_CPUS)%nat -> local i L d ->
  (old = 0 /\ new = REGISTERED_BIT \/ old = REGISTERED_BIT /\ new = 0) ->
  (forall b d', local i L d' -> rg (k b) Q d') -> rg (exchange_registration c old new ≫= k) Q d.
Proof.
  intros Hc HL Hon Hk. eapply rg_local; [exact HL|]. intros d1 Hd1 Hi Hm HL1.
  destruct (lookup_lt_is_Some_2 (contexts d1) c) as [l Hl]; [by rewrite (inv_contexts _ _ _ Hi)|].
  destruct (reader_at _ _ _ _ _ Hi Hl) as (r & Hr & Hok). rewrite Hr. cbn.
  destruct (registration r =? old) eqn:He; eexists _, _; (split; [done|]).
  2:{ split_and!; [done|reflexivity|by apply Hk]. }
  apply Z.eqb_eq in He. pose proof Hok as [(b & Hw & Hb) Hd Ha Hst Hmask Hep].
  assert (counted l = 0%nat) as Hz.
  { destruct (word_bits b _ Hd) as [Hm' _]. rewrite <- Hw, He in Hm'.
    destruct Hon as [[-> _]|[-> _]]; vm_compute (Z.land _ _) in Hm'; lia. }
  replace (with_reader c (mkReader new (active_epoch r)) d1) with (with_cpu c l (mkReader new (active_epoch r)) d1).
  2:{ unfold with_cpu, with_contexts, with_reader. cbn. by rewrite (list_insert_id (contexts d1)). }
  destruct (cpu_update MAX_CPUS SLOTS i c l l r (mkReader new (active_epoch r)) d1) as [Hi' Hrel]; try done.
  - split; cbn; try done. rewrite Hz. exists (negb (new =? 0)). split; [|lia].
    by destruct Hon as [[_ ->]|[_ ->]].
  - intros x p Hx Hp. by eapply inv_raw.
  - split_and!; [done..|]. apply Hk. destruct HL1 as [Ho Hp Hw' Hl']. split; try done.
    destruct (l_pin L) as [[[c' x] rest]|]; [|done]. destruct Hp as (l' & Hc' & Hv). exists l'. split; [|done].
    cbn. destruct (decide (c = c')) as [<-|Hne]; [rewrite list_lookup_insert_eq by (by eapply lookup_lt_Some); congruence|].
    by rewrite list_lookup_insert_ne.
Qed.

Lemma rg_register_cpu c o d :
  local i (free o) d -> rg (register_cpu MAX_CPUS c) (fun _ d' => local i (free o) d') d.
Proof.
  intros HL. unfold register_cpu. destruct (MAX_CPUS <=? c)%nat eqn:Hc; [done|]. apply Nat.leb_gt in Hc.
  eapply rg_exchange_registration; [done|exact HL|by left|]. by intros b d1 HL1.
Qed.

Lemma rg_unregister_cpu c o d :
  local i (free o) d -> rg (unregister_cpu MAX_CPUS c) (fun _ d' => local i (free o) d') d.
Proof.
  intros HL. unfold unregister_cpu. destruct (MAX_CPUS <=? c)%nat eqn:Hc; [done|]. apply Nat.leb_gt in Hc.
  eapply rg_exchange_registration; [done|exact HL|by right|]. intros [state|] d1 HL1; [done|].
  eapply rg_load_active; [done|exact HL1|]. intros a d2 _ HL2. destruct (a =? 0); [done|].
  eapply rg_exchange_registration; [done|exact HL2|by left|]. by intros b d3 HL3.
Qed.

End Writers.

(** ** Clients

    Threads that use the domain: readers, writers that reserve, publish and
    clear, the reclaimer and the CPU lifecycle. A client keeps the [Arc]s it
    gets or drops them at once; its result is what it keeps. *)

Inductive Client : Type :=
| ClientLoad (fuel : nat) (cpus : list nat) (s : nat) (keep : bool)
| ClientReplace (s expected new : nat) (keep : bool)
| ClientInstall (s new : nat) (keep : bool)
| ClientClear (s expected : nat) (keep : bool)
| ClientDrain (in_task preemptible : bool) (limit : nat)
| ClientRegister (cpu : nat)
| ClientUnregister (cpu : nat)
| ClientIsEmpty (fuel s : nat)
| ClientHasPending
| ClientHasReclaimable.

Section Clients.
Context (MAX_CPUS SLOTS : nat).

Definition release (i : nat) (keep : bool) (a : nat) : prog Rcu (list nat) :=
  if keep then mret [a] else drop_arc i a;; mret [].

Definition client (i : nat) (c : Client) : prog Rcu (list nat) :=
  match c with
  | ClientLoad fuel cpus s keep =>
      r ← try_load_if_present MAX_CPUS i fuel cpus s;
      match r with Loaded (Some a) => release i keep a | _ => mret [] end
  | ClientReplace s expected new keep =>
      r ← reserve_retire i;
      match r with
      | Err _ => mret []
      | Ok _ =>
          new_arc i new;;
          r ← publish i s new expected;
          match r with Ok old => release i keep old | Err e => release i keep new end
      end
  | ClientInstall s new keep =>
      new_arc i new;;
      r ← publish_if_empty i s new;
      match r with Ok _ => mret [] | Err e => release i keep new end
  | ClientClear s expected keep =>
      r ← reserve_retire i;
      match r with
      | Err _ => mret []
      | Ok _ =>
          r ← clear i s expected;
          match r with Ok old => release i keep old | Err _ => mret [] end
      end
  | ClientDrain in_task preemptible limit => drain MAX_CPUS i in_task preemptible limit;; mret []
  | ClientRegister cpu => register_cpu MAX_CPUS cpu;; mret []
  | ClientUnregister cpu => unregister_cpu MAX_CPUS cpu;; mret []
  | ClientIsEmpty fuel s => slot_is_empty fuel s;; mret []
  | ClientHasPending => has_pending i;; mret []
  | ClientHasReclaimable => has_reclaimable_pending MAX_CPUS i;; mret []
  end.

(** The slot a client names exists. *)
Definition client_slot (c : Client) : option nat :=
  match c with
  | ClientLoad _ _ s _ | ClientReplace s _ _ _ | ClientInstall s _ _ | ClientClear s _ _ | ClientIsEmpty _ s => Some s
  | _ => None
  end.

(** A new thread owns nothing yet. *)
Definition spawned (d : Rcu) : Rcu :=
  mkRcu (epoch d) (readers d) (writer d) (retire_lock d) (retire d) (hints d) (slots d) (heap d) (contexts d)
    (owners d ++ [mkOwner [] [] 0]).

Inductive starts : nat -> prog Rcu (list nat) -> Rcu -> Rcu -> Prop :=
| start_client i c d : (forall s, client_slot c = Some s -> (s < SLOTS)%nat) -> starts i (client i c) d (spawned d).

Definition rcu_reaches (CAPACITY : nat) : threads Rcu (list nat) -> Prop :=
  threads_reach may_run starts (rcu_new MAX_CPUS CAPACITY SLOTS).

Local Abbreviation Inv := (Inv MAX_CPUS SLOTS).

(** A finished client owns what it kept. *)
Definition keeps_units (i : nat) (kept : list nat) (d : Rcu) : Prop :=
  exists o, owners d !! i = Some o /\ forall a, a ∈ kept -> a ∈ o_units o.

Lemma keeps_stable i : stable rely i (keeps_units i).
Proof. intros kept d d' (o & Ho & Hk) Hr. exists o. by rewrite (rely_owner _ _ _ Hr). Qed.

Lemma rg_release_kept i keep a L d :
  local i L d -> a ∈ o_units (l_owner L) -> rg may_run Inv rely i (release i keep a) (keeps_units i) d.
Proof.
  intros HL Ha. unfold release. destruct keep.
  - exists (l_owner L). split; [apply HL|]. by intros b ->%list_elem_of_singleton.
  - eapply (rg_drop_arc MAX_CPUS SLOTS i); [exact HL|done|]. intros d1 HL1. eexists. split; [apply HL1|].
    by intros b ?%not_elem_of_nil.
Qed.

Lemma rg_nothing i L d : local i L d -> rg may_run Inv rely i (mret []) (keeps_units i) d.
Proof. intros HL. exists (l_owner L). split; [apply HL|]. by intros b ?%not_elem_of_nil. Qed.

Ltac keep_nothing := eapply rg_nothing; cbn beta in *; eassumption.

Lemma rg_quiet_client {A} i o (p : prog Rcu A) d :
  rg may_run Inv rely i p (fun _ d' => local i (free o) d') d ->
  rg may_run Inv rely i (p;; mret []) (keeps_units i) d.
Proof. intros Hp. eapply rg_then; [exact Hp|]. intros a d1 HL. keep_nothing. Qed.

Lemma rg_client i c d :
  (forall s, client_slot c = Some s -> (s < SLOTS)%nat) -> local i (free (mkOwner [] [] 0)) d ->
  rg may_run Inv rely i (client i c) (keeps_units i) d.
Proof.
  intros Hs HL. destruct c as [fuel cpus s keep|s expected new keep|s new keep|s expected keep| | | | | |]; cbn in Hs.
  - eapply rg_then; [by apply (rg_try_load_if_present MAX_CPUS SLOTS i); [apply Hs|]|].
    intros a d1 [Ho Ha]. destruct a as [[p|]| |]; try (eexists; split; [exact Ho|by intros ? ?%not_elem_of_nil]).
    eapply rg_release_kept; [by apply Ha|left].
  - eapply rg_then; [by apply (rg_reserve_retire MAX_CPUS SLOTS i)|]. intros [[]|e] d1 HL1; [|keep_nothing].
    eapply (rg_new_arc MAX_CPUS SLOTS i); [exact HL1|]. intros d2 HL2.
    eapply rg_then; [apply (rg_publish MAX_CPUS SLOTS i _ _ _ _ _ (Hs s eq_refl) HL2); [left|done|done]|].
    intros [old|e] d3 HL3; (eapply rg_release_kept; [exact HL3|left]).
  - eapply (rg_new_arc MAX_CPUS SLOTS i); [exact HL|]. intros d1 HL1.
    eapply rg_then; [apply (rg_publish_if_empty MAX_CPUS SLOTS i _ _ _ _ (Hs s eq_refl) HL1); left|].
    intros [[]|e] d2 HL2; [keep_nothing|eapply rg_release_kept; [exact HL2|left]].
  - eapply rg_then; [by apply (rg_reserve_retire MAX_CPUS SLOTS i)|]. intros [[]|e] d1 HL1; [|keep_nothing].
    eapply rg_then; [apply (rg_clear MAX_CPUS SLOTS i _ _ _ _ (Hs s eq_refl) HL1); done|].
    intros [old|e] d3 HL3; [eapply rg_release_kept; [exact HL3|left]|keep_nothing].
  - eapply rg_quiet_client. by apply rg_drain.
  - eapply rg_quiet_client. by apply rg_register_cpu.
  - eapply rg_quiet_client. by apply rg_unregister_cpu.
  - eapply rg_quiet_client. apply rg_slot_is_empty; [by apply Hs|done].
  - eapply rg_quiet_client. by apply rg_has_pending.
  - eapply rg_quiet_client. by apply rg_has_reclaimable_pending.
Qed.

(** ** Starting *)

Lemma units_spawned d : units (spawned d) = units d.
Proof. unfold units. cbn. rewrite bind_app. cbn. by rewrite app_nil_r. Qed.
Lemma hands_spawned d : hands (spawned d) = hands d.
Proof. unfold hands. cbn. rewrite bind_app. cbn. by rewrite app_nil_r. Qed.

Lemma spawn_ok i d : Inv d -> length (owners d) = i ->
  Inv (spawned d) /\ (forall j, j <> i -> rely j d (spawned d)) /\ local i (free (mkOwner [] [] 0)) (spawned d).
Proof.
  intros [Ir Ic Is Ie Iv Icpu Iraw Ih Iring Iret Ires] Hlen. split_and!.
  - split; try done.
    + intros c l x p Hc Hx Hp. specialize (Iraw c l x p Hc Hx Hp). unfold supported in *. by rewrite hands_spawned.
    + by rewrite units_spawned.
    + cbn. rewrite Ires. unfold total_reserved. cbn. rewrite sum_list_with_app. cbn. lia.
  - intros j Hj. split; try done; cbn; try (intros; by simplify_eq).
    + destruct (decide (j < length (owners d))%nat); [by rewrite lookup_app_l|].
      rewrite !lookup_ge_None_2; [done|lia|]. rewrite length_app. cbn. lia.
    + rewrite length_app. lia.
  - split; cbn; try done. by rewrite lookup_app_r, Hlen, Nat.sub_diag by lia.
Qed.

Lemma cpu_ok_new : cpu_ok 0 [] reader_new.
Proof. split; [exists false; split; [done|cbn; lia]|by vm_compute|done..]. Qed.

Lemma rcu_new_ok CAPACITY : Inv (rcu_new MAX_CPUS CAPACITY SLOTS).
Proof.
  pose proof (ring_contents _ _ (ring_new CAPACITY)) as Hc.
  split; cbn [readers contexts slots epoch writer heap retire owners rcu_new total_reserved]; rewrite ?length_replicate, ?Hc; try done.
  - intros c l r Hl Hr. apply lookup_replicate in Hl as [-> _], Hr as [-> _]. apply cpu_ok_new.
  - intros c l x p Hl Hx. apply lookup_replicate in Hl as [-> _]. by apply not_elem_of_nil in Hx.
  - intros p. rewrite lookup_empty. unfold units. cbn [slots retire owners rcu_new]. rewrite Hc. cbn. rewrite app_nil_r.
    clear. induction SLOTS as [|n IH]; [done|]. exact IH.
  - apply ring_new.
Qed.

(** Everything about reachable configurations. *)
Lemma rcu_sound CAPACITY c : rcu_reaches CAPACITY c ->
  Inv (shared c) /\ length (owners (shared c)) = length (running c) /\ threads_safe c /\
  forall i p, running c !! i = Some p -> rg may_run Inv rely i p (keeps_units i) (shared c).
Proof.
  apply (threads_sound may_run Inv rely starts (fun n d => length (owners d) = n) keeps_units).
  - intros i. apply keeps_stable.
  - apply rcu_new_ok.
  - done.
  - intros n d d' Hn Hr. pose proof (rely_threads _ _ _ Hr). pose proof (rely_owner _ _ _ Hr) as Ho.
    rewrite (lookup_ge_None_2 (owners d)) in Ho by lia. apply lookup_ge_None in Ho. lia.
  - intros i p d d' [i' c' d1 Hs] Hi Hlen. destruct (spawn_ok i' d1 Hi Hlen) as (? & ? & HL).
    split_and!; [done| |done|by apply rg_client]. cbn. rewrite length_app. cbn. lia.
Qed.

End Clients.
