(* ===== verification/RcuAlone.v ===== *)
(** Read-copy-update, part 11: a method that runs alone returns, and what it
    returns.

    Read-copy-update, part 12: destruction of the slots and of the domain.

    Read-copy-update, part 13: schedules of clients, executed.

    A schedule starts clients and lets a thread perform a number of actions; a
    schedule that can be played reaches a configuration. *)

From stdpp Require Import gmap.
From S2P Require Import Prelude Threads Rcu RcuSafety RcuOwners RcuProtocol RcuWriters.
Local Open Scope Z_scope.

Section Alone.
Context (MAX_CPUS SLOTS i : nat).
Local Abbreviation Inv := (Inv MAX_CPUS SLOTS).
Implicit Types (d : Rcu).

Lemma alone_expect {B} (f : Rcu -> option (B * Rcu)) d : run_alone (expect_step f) d = f d.
Proof. unfold expect_step. rewrite run_alone_bind. cbn. by destruct (f d) as [[b d']|]. Qed.

Lemma grace_alone e cpus d : (forall c, c ∈ cpus -> (c < length (readers d))%nat) ->
  exists b, run_alone (grace_scan cpus e) d = Some (b, d) /\
    (b = true <-> forall c r, c ∈ cpus -> readers d !! c = Some r -> reader_passed (registration r) (active_epoch r) e = true).
Proof.
  induction cpus as [|c cpus IH]; intros Hc; cbn [grace_scan].
  { exists true. split; [done|]. split; [|done]. by intros _ c r ?%not_elem_of_nil. }
  destruct (lookup_lt_is_Some_2 (readers d) c) as [r Hr]; [apply Hc; left|].
  unfold load_registration, load_active. rewrite run_alone_bind, alone_expect, Hr. cbn [mbind option_bind].
  rewrite run_alone_bind, alone_expect, Hr. cbn [mbind option_bind].
  destruct (reader_passed (registration r) (active_epoch r) e) eqn:Hp.
  - destruct IH as (b & -> & Hb); [intros; apply Hc; by right|]. exists b. split; [done|]. rewrite Hb. split.
    + intros Hall c' r' [->|Hc']%elem_of_cons Hr'; [by simplify_eq|by apply (Hall c')].
    + intros Hall c' r' Hc'. apply Hall. by right.
  - exists false. split; [done|]. split; [done|]. intros Hall. rewrite (Hall c r) in Hp; [done|left|done].
Qed.

Lemma edge_alone d : length (readers d) = MAX_CPUS ->
  exists h, run_alone (publish_wake_edge MAX_CPUS) d = Some (tt, with_hints h d).
Proof.
  intros Hlen. assert (d = with_hints (hints d) d) as Hid by (by destruct d). unfold publish_wake_edge.
  rewrite run_alone_bind. cbn [run_alone get step Threads.act]. destruct (front_retire_epoch (hints d) =? 0); [eexists; by rewrite <- Hid|].
  rewrite run_alone_bind. unfold grace_complete.
  destruct (grace_alone (front_retire_epoch (hints d)) (seq 0 MAX_CPUS) d) as (b & -> & _).
  { intros c Hc%elem_of_seq. lia. }
  destruct b; [|eexists; by rewrite <- Hid]. rewrite run_alone_bind. cbn.
  destruct (reclaim_wake_queued (hints d)); cbn; by eexists.
Qed.

Lemma note_alone d : length (readers d) = MAX_CPUS ->
  exists h, run_alone (note_reader_quiescent MAX_CPUS) d = Some (tt, with_hints h d).
Proof.
  intros Hlen. unfold note_reader_quiescent. rewrite run_alone_bind. cbn [run_alone get step Threads.act].
  destruct (retire_pending (hints d)); [by apply edge_alone|]. exists (hints d). by destruct d.
Qed.

(** The state of a domain around a reader of CPU [c]. *)
Definition around (c : nat) (reg act : Z) (l : list Context) d : Rcu :=
  with_contexts c l (with_reader c (mkReader reg act) d).

Section OnCpu.
Context (c : nat) (d : Rcu).
Hypothesis (Hc : (c < length (contexts d))%nat) (Hr : (c < length (readers d))%nat).

Lemma around_contexts reg act l : contexts (around c reg act l d) !! c = Some l.
Proof. cbn. by rewrite list_lookup_insert_eq. Qed.
Lemma around_readers reg act l : readers (around c reg act l d) !! c = Some (mkReader reg act).
Proof. cbn. by rewrite list_lookup_insert_eq. Qed.
Lemma around_set_contexts reg act l l' : with_contexts c l' (around c reg act l d) = around c reg act l' d.
Proof. unfold around, with_contexts. cbn. by rewrite list_insert_insert_eq. Qed.
Lemma around_set_reader reg act l reg' act' :
  with_reader c (mkReader reg' act') (around c reg act l d) = around c reg' act' l d.
Proof. unfold around, with_contexts, with_reader. cbn. by rewrite list_insert_insert_eq. Qed.
Lemma around_stage reg act off s l s' :
  set_stage c s' (around c reg act (mkContext i off s :: l) d) = around c reg act (mkContext i off s' :: l) d.
Proof. unfold set_stage. rewrite around_contexts. apply around_set_contexts. Qed.

(** Actions on such a state. *)
Lemma around_irqs reg act off s l b :
  run_alone (set_irqs_off c b) (around c reg act (mkContext i off s :: l) d) =
    Some (off, around c reg act (mkContext i b s :: l) d).
Proof. unfold set_irqs_off. cbn [run_alone step Threads.act]. by rewrite around_contexts, around_set_contexts. Qed.

Lemma around_admit act off l :
  run_alone (admit_reader c) (around c REGISTERED_BIT act (mkContext i off Outside :: l) d) =
    Some (Ok 0, around c (REGISTERED_BIT + 1) act (mkContext i off Admitting :: l) d).
Proof.
  unfold admit_reader. rewrite alone_expect, around_readers. cbn [mbind option_bind registration active_epoch].
  change (Z.land REGISTERED_BIT REGISTERED_BIT =? 0) with false.
  change (Z.land REGISTERED_BIT DEPTH_MASK) with 0. change (0 =? MAX_READER_DEPTH) with false. cbv iota.
  by rewrite around_set_reader, around_stage.
Qed.

Lemma around_store reg act off s l a s' :
  run_alone (store_active c a s') (around c reg act (mkContext i off s :: l) d) =
    Some (tt, around c reg a (mkContext i off s' :: l) d).
Proof.
  unfold store_active. rewrite alone_expect, around_readers. cbn [mbind option_bind registration active_epoch].
  by rewrite around_set_reader, around_stage.
Qed.

Lemma around_leave act off s l :
  run_alone (leave c) (around c (REGISTERED_BIT + 1) act (mkContext i off s :: l) d) =
    Some (tt, around c REGISTERED_BIT act (mkContext i off Outside :: l) d).
Proof.
  unfold leave. rewrite alone_expect, around_readers. cbn [mbind option_bind registration active_epoch].
  by rewrite around_set_reader, around_stage.
Qed.

Lemma around_load_registration reg act l :
  run_alone (load_registration c) (around c reg act l d) = Some (reg, around c reg act l d).
Proof. unfold load_registration. by rewrite alone_expect, around_readers. Qed.

Lemma around_sample reg act off s l : Z.even (epoch d) = true ->
  run_alone (sample_epoch c) (around c reg act (mkContext i off s :: l) d) =
    Some (epoch d, around c reg act (mkContext i off (Sampled (epoch d)) :: l) d).
Proof.
  intros He. unfold sample_epoch. cbn [run_alone step Threads.act].
  change (epoch (around c reg act (mkContext i off s :: l) d)) with (epoch d).
  rewrite <- Z.negb_even, He. cbn [negb]. by rewrite around_stage.
Qed.

Lemma around_validate reg act off s l :
  run_alone (validate_epoch c (epoch d)) (around c reg act (mkContext i off s :: l) d) =
    Some (true, around c reg act (mkContext i off (Inside (Some (epoch d)) None) :: l) d).
Proof.
  unfold validate_epoch. cbn [run_alone step Threads.act].
  change (epoch (around c reg act (mkContext i off s :: l) d)) with (epoch d).
  rewrite Z.eqb_refl. by rewrite around_stage.
Qed.

(** An outermost reader is admitted in one round. *)
Lemma enter_alone fuel :
  contexts d !! c = Some [] -> readers d !! c = Some (mkReader REGISTERED_BIT 0) -> length (readers d) = MAX_CPUS ->
  Z.even (epoch d) = true -> epoch d + 1 <= u64_MAX ->
  run_alone (read_enter MAX_CPUS i (S fuel) c) d =
    Some (Some (Ok (mkGuard c (epoch d) false)),
      around c (REGISTERED_BIT + 1) (epoch d + 1) [mkContext i false (Inside (Some (epoch d)) None)] d).
Proof.
  intros Hctx Hrd Hlen Hev Hmax. unfold read_enter. rewrite run_alone_bind. cbn [run_alone pin Threads.act].
  rewrite Hctx. cbn [take existsb]. rewrite (proj2 (Nat.leb_gt _ _)) by lia.
  replace (with_contexts c [mkContext i false Outside] d) with (around c REGISTERED_BIT 0 [mkContext i false Outside] d)
    by (unfold around, with_reader; cbn; rewrite list_insert_id by done; by destruct d).
  cbn [read_enter_loop]. rewrite run_alone_bind. unfold read_enter_once, with_local_irqs_disabled.
  rewrite run_alone_bind, around_irqs, run_alone_bind, run_alone_bind, around_admit. cbn [Z.eqb negb].
  rewrite run_alone_bind, around_sample by done. rewrite <- Z.negb_even, Hev. cbn [negb].
  unfold checked_add_u64. rewrite (proj2 (Z.leb_le _ _)) by done.
  rewrite run_alone_bind, around_store, run_alone_bind, around_validate. cbn [run_alone mret thread_ret].
  rewrite run_alone_bind, around_irqs. done.
Qed.

(** Leaving: the CPU's words and contexts are as before the entry. *)
Lemma leave_alone e p :
  contexts d !! c = Some [] -> readers d !! c = Some (mkReader REGISTERED_BIT 0) -> length (readers d) = MAX_CPUS ->
  exists h, run_alone (drop_guard MAX_CPUS (mkGuard c e false))
      (around c (REGISTERED_BIT + 1) (e + 1) [mkContext i false (Inside (Some e) p)] d) = Some (tt, with_hints h d).
Proof.
  intros Hctx Hrd Hlen. unfold drop_guard, reader_exit. cbn [g_cpu g_nested]. unfold with_local_irqs_disabled.
  rewrite run_alone_bind, run_alone_bind, run_alone_bind, around_irqs, run_alone_bind, run_alone_bind, around_store,
    run_alone_bind, around_load_registration, around_leave, run_alone_bind, around_irqs. cbn [run_alone mret thread_ret].
  destruct (note_alone (around c REGISTERED_BIT 0 [mkContext i false Outside] d)) as (h & ->).
  { cbn. by rewrite length_insert. }
  exists h. cbn [run_alone unpin put step Threads.act contexts with_hints]. rewrite around_contexts.
  unfold around, with_contexts, with_reader, with_hints. cbn.
  by rewrite list_insert_insert_eq, !list_insert_id.
Qed.

End OnCpu.

(** ** Loads *)

(** A load on a registered CPU where nothing else runs, while no writer is at
    work, takes one round. *)
Lemma load_alone fuel c cpus s p o d :
  Inv d -> owners d !! i = Some o -> writer d = None -> slots d !! s = Some p ->
  contexts d !! c = Some [] -> readers d !! c = Some (mkReader REGISTERED_BIT 0) ->
  exists h, run_alone (try_load_if_present MAX_CPUS i (S fuel) (c :: cpus) s) d = Some (Loaded p,
    match p with
    | None => with_hints h d
    | Some a => with_hints h (with_owner i (add_unit a o) (with_heap (<[a := default 0 (heap d !! a) + 1]> (heap d)) d))
    end).
Proof.
  intros Hi Ho Hw Hs Hctx Hrd. pose proof (inv_readers _ _ _ Hi) as Hlen.
  pose proof (inv_even _ _ _ Hi Hw) as Hev. pose proof (inv_epoch _ _ _ Hi) as Hep.
  assert (epoch d + 1 <= u64_MAX) as Hmax.
  { assert (epoch d <> u64_MAX) by (intros He; by rewrite He in Hev). lia. }
  pose proof (lookup_lt_Some _ _ _ Hctx) as Hcl. pose proof (lookup_lt_Some _ _ _ Hrd) as Hrl.
  cbn [try_load_if_present]. rewrite run_alone_bind, (enter_alone c d Hcl Hrl) by done.
  rewrite run_alone_bind. unfold load_raw. rewrite alone_expect.
  change (slots (around c (REGISTERED_BIT + 1) (epoch d + 1) [mkContext i false (Inside (Some (epoch d)) None)] d)) with (slots d).
  rewrite Hs. cbn [mbind option_bind g_nested g_epoch]. rewrite (around_stage c d Hcl).
  destruct p as [a|].
  2:{ rewrite run_alone_bind. destruct (leave_alone c d Hcl Hrl (epoch d) None Hctx Hrd Hlen) as (h & ->). by exists h. }
  assert (a ∈ units d) as Ha.
  { unfold units. rewrite !elem_of_app. left. apply list_elem_of_omap. exists (Some a). split; [by eapply list_elem_of_lookup_2|done]. }
  destruct (heap_live _ _ a (inv_heap _ _ _ Hi) Ha) as [n Hn]. rewrite Hn. cbn [default from_option id].
  set (d1 := with_owner i (add_unit a o) (with_heap (<[a := n + 1]> (heap d)) d)).
  rewrite run_alone_bind. unfold increment_strong_count. rewrite alone_expect.
  change (heap (around c (REGISTERED_BIT + 1) (epoch d + 1) [mkContext i false (Inside (Some (epoch d)) (Some a))] d)) with (heap d).
  rewrite Hn. cbn [mbind option_bind]. unfold own. cbn [owners around with_heap with_contexts with_reader]. rewrite Ho.
  change (with_owner i (add_unit a o) _) with
    (around c (REGISTERED_BIT + 1) (epoch d + 1) [mkContext i false (Inside (Some (epoch d)) (Some a))] d1).
  rewrite (around_stage c d1 Hcl). rewrite run_alone_bind. unfold guard_stable. cbn [g_nested g_epoch run_alone get step Threads.act].
  change (epoch (around c (REGISTERED_BIT + 1) (epoch d + 1) [mkContext i false (Inside (Some (epoch d)) None)] d1)) with (epoch d).
  rewrite Z.eqb_refl. rewrite run_alone_bind.
  destruct (leave_alone c d1 Hcl Hrl (epoch d) None Hctx Hrd Hlen) as (h & ->). by exists h.
Qed.

(** ** Reclamation *)

Definition idle d : Prop := forall c l, contexts d !! c = Some l -> l = [].

Lemma idle_passed e d : Inv d -> idle d -> run_alone (grace_complete MAX_CPUS e) d = Some (true, d).
Proof.
  intros Hi Hidle. unfold grace_complete. destruct (grace_alone e (seq 0 MAX_CPUS) d) as (b & -> & Hb).
  { intros c Hc%elem_of_seq. rewrite (inv_readers _ _ _ Hi). lia. }
  f_equal. f_equal. apply Hb. intros c r _ Hr.
  destruct (lookup_lt_is_Some_2 (contexts d) c) as [l Hl].
  { rewrite (inv_contexts _ _ _ Hi), <- (inv_readers _ _ _ Hi). by eapply lookup_lt_Some. }
  pose proof (inv_cpu _ _ _ Hi c l r Hl Hr) as [(on & Hw & _) Hd Ha _ _ _]. rewrite (Hidle c l Hl) in *.
  destruct (word_bits on 0 Hd) as [Hm _]. cbn in Ha, Hw. unfold reader_passed. rewrite Hw, Ha, Hm. cbn.
  by destruct (Z.land _ _ =? 0).
Qed.

Lemma inv_lock l d : Inv d -> Inv (with_retire_lock l d).
Proof. intros []. by split. Qed.

(** One round of [drain_loop] with no reader anywhere. *)
Lemma round_alone o r rs d :
  Inv d -> owners d !! i = Some o -> retire_lock d = None -> idle d -> contents (retire d) = r :: rs ->
  exists d', (forall limit, run_alone (drain_loop MAX_CPUS i (S limit)) d =
      match run_alone (drain_loop MAX_CPUS i limit) d' with Some (n, d) => Some (n + 1, d) | None => None end) /\
    Inv d' /\ owners d' !! i = Some o /\ retire_lock d' = None /\ idle d' /\ contents (retire d') = rs.
Proof.
  intros Hi Ho Hlk Hidle Hc. set (d1 := with_retire_lock (Some i) d).
  assert (local i (hold_lock (retire d) (free o)) d1) as HL1 by done.
  assert (Inv d1) as Hi1 by (by apply inv_lock).
  destruct (pop_action MAX_CPUS SLOTS i r _ d1 Hi1 HL1 eq_refl) as (q' & Hpop & Hi2 & _ & HL2).
  { cbn. by rewrite Hc. }
  { intros c l Hl. rewrite (Hidle c l Hl). split; [by left|]. by intros x e ?%not_elem_of_nil. }
  set (d2 := with_memory _ _ _ _ _ _) in *. cbn [l_owner hold_lock free] in d2.
  assert (contents q' = rs) as Hc'.
  { destruct (ring_pop _ _ (inv_ring _ _ _ Hi)) as (q2 & Hpop2 & Hring & _). cbn in Hpop. rewrite Hpop in Hpop2.
    injection Hpop2 as _ <-. rewrite (ring_contents _ _ Hring), Hc. done. }
  set (d3 := with_retire_lock None (with_hints (set_front (match hd_error rs with Some r => retire_epoch r | None => 0 end) (hints d2)) d2)).
  assert (Inv d3) as Hi3 by (apply inv_lock; destruct Hi2; by split).
  assert (local i (free (add_unit (pointer r) o)) d3) as HL3.
  { destruct HL2 as [Ho2 _ _ _]. split; [exact Ho2|done..]. }
  destruct (unit_live MAX_CPUS SLOTS i (pointer r) _ d3 Hi3 HL3) as [n Hn]; [left|].
  destruct (drop_action MAX_CPUS SLOTS i (pointer r) n _ d3 Hi3 HL3) as (Hi4 & _ & HL4); [left|done|].
  cbn [l_owner free] in HL4, Hi4. rewrite drop_added in HL4, Hi4.
  set (d4 := with_memory i (retire d3) (slots d3) (if n =? 1 then _ else _) o d3) in *.
  exists d4. split; [|split_and!; [done|apply HL4|done|exact Hidle|exact Hc']].
  intros limit. cbn [drain_loop]. rewrite run_alone_bind. cbn [run_alone lock_retire Threads.act]. rewrite Hlk. fold d1.
  rewrite run_alone_bind. unfold queue_front at 1. rewrite alone_expect, (ring_front _ _ (inv_ring _ _ _ Hi1)).
  change (retire d1) with (retire d). rewrite Hc. cbn [mbind option_bind hd_error].
  rewrite run_alone_bind, idle_passed by done. rewrite run_alone_bind. unfold queue_pop. rewrite alone_expect.
  rewrite Hpop. cbn [mbind option_bind]. unfold with_retire. rewrite (own_memory i _ _ _ _ d1 o) by done.
  change (with_memory i q' (slots d1) (heap d1) (add_unit (pointer r) o) d1) with d2.
  rewrite run_alone_bind. unfold queue_front at 1. rewrite alone_expect, (ring_front _ _ (inv_ring _ _ _ Hi2)).
  change (retire d2) with q'. rewrite Hc'. cbn [mbind option_bind]. rewrite run_alone_bind.
  cbn [run_alone put_hints put step Threads.act]. rewrite run_alone_bind. cbn [run_alone unlock_retire put step Threads.act].
  fold d3. rewrite run_alone_bind. unfold drop_arc. rewrite alone_expect, Hn. cbn [mbind option_bind].
  unfold with_heap. rewrite (own_memory i _ _ _ _ d3 (add_unit (pointer r) o)) by apply HL3. rewrite drop_added. fold d4.
  rewrite run_alone_bind. destruct (run_alone (drain_loop MAX_CPUS i limit) d4) as [[m d5]|]; done.
Qed.

(** A domain at rest, seen by thread [i]. *)
Definition at_rest o d : Prop :=
  Inv d /\ owners d !! i = Some o /\ retire_lock d = None /\ idle d.

Lemma drain_loop_alone o limit : forall d, at_rest o d ->
  exists d', run_alone (drain_loop MAX_CPUS i limit) d =
      Some (Z.of_nat (min limit (length (contents (retire d)))), d') /\
    at_rest o d' /\ contents (retire d') = drop limit (contents (retire d)).
Proof.
  induction limit as [|limit IH]; intros d Hd; pose proof Hd as (Hi & Ho & Hlk & Hidle); [by exists d|].
  destruct (contents (retire d)) as [|r rs] eqn:Hc.
  - exists d. split; [|done]. cbn [drain_loop]. rewrite run_alone_bind. cbn [run_alone lock_retire Threads.act].
    rewrite Hlk. rewrite run_alone_bind. unfold queue_front.
    rewrite alone_expect, (ring_front _ _ (inv_ring _ _ _ (inv_lock (Some i) d Hi))).
    change (retire (with_retire_lock (Some i) d)) with (retire d). rewrite Hc. cbn.
    do 2 f_equal. destruct d. cbn in *. by subst.
  - destruct (round_alone o r rs d Hi Ho Hlk Hidle Hc) as (d1 & Hrun & Hi1 & Ho1 & Hlk1 & Hidle1 & Hc1).
    destruct (IH d1) as (d2 & Hd2 & Hrest & Hc2); [done|]. exists d2. rewrite Hrun, Hd2, Hc2, Hc1. cbn [length drop].
    split_and!; [|done..]. do 2 f_equal. lia.
Qed.

Lemma at_rest_hints o h d : at_rest o d -> at_rest o (with_hints h d).
Proof. intros (Hi & ? & ? & ?). split; [|done]. destruct Hi. by split. Qed.

Lemma drain_alone o limit d : at_rest o d ->
  exists d', run_alone (drain MAX_CPUS i true true limit) d =
      Some (Ok (mkDrainStatus (Z.of_nat (min limit (length (contents (retire d)))))
        (bool_decide (limit < length (contents (retire d)))%nat) false), d') /\
    at_rest o d' /\ contents (retire d') = drop limit (contents (retire d)).
Proof.
  intros Hd. unfold drain. cbn [negb orb]. rewrite run_alone_bind.
  assert (exists h, run_alone (if (limit =? 0)%nat then mret tt else put_hints (set_wake false)) d =
    Some (tt, with_hints h d)) as (h & ->).
  { destruct (limit =? 0)%nat; [exists (hints d); by destruct d|by eexists]. }
  rewrite run_alone_bind. destruct (drain_loop_alone o limit _ (at_rest_hints o h d Hd)) as (d1 & -> & Hd1 & Hc1).
  cbn [retire with_hints] in *. pose proof Hd1 as (Hi & Ho & Hlk & Hidle). rewrite run_alone_bind.
  cbn [run_alone lock_retire Threads.act]. rewrite Hlk. rewrite run_alone_bind. unfold queue_front.
  rewrite alone_expect, (ring_front _ _ (inv_ring _ _ _ (inv_lock (Some i) d1 Hi))).
  set (d2 := with_retire_lock (Some i) d1). change (retire d2) with (retire d1). rewrite Hc1. cbn [mbind option_bind].
  destruct (drop limit (contents (retire d))) as [|r rs] eqn:Hdrop.
  - exists (with_retire_lock None (with_hints (set_wake false (set_front 0 (set_pending false (hints d2)))) d2)).
    rewrite bool_decide_false.
    2:{ intros Hlt. apply (f_equal length) in Hdrop. rewrite length_drop in Hdrop. cbn in Hdrop. lia. }
    cbn. split; [done|]. split; [|done]. split; [|done]. apply inv_lock. by destruct Hi; split.
  - exists (with_retire_lock None d2). rewrite bool_decide_true.
    2:{ apply (f_equal length) in Hdrop. rewrite length_drop in Hdrop. cbn in Hdrop. lia. }
    cbn [hd_error]. rewrite run_alone_bind, run_alone_bind, idle_passed; [|by apply inv_lock|done]. cbn.
    split; [done|]. split; [|done]. split; [|done]. by apply inv_lock, inv_lock.
Qed.

End Alone.

Section Teardown.
Context (i : nat).

(** The slots of the domain, then the domain *)
Fixpoint drop_slots (ss : list nat) : prog Rcu () :=
  match ss with [] => mret tt | s :: ss => drop_slot i s;; drop_slots ss end.
Definition teardown (ss : list nat) (fuel : nat) : prog Rcu () := drop_slots ss;; drop_queue i fuel.

(** What destruction keeps: exact counts, the ring, and what threads own. *)
Record sound (o : Owner) (d : Rcu) : Prop := {
  sound_heap : heap_ok (heap d) (units d);
  sound_ring : ring (retire d) (contents (retire d));
  sound_owner : owners d !! i = Some o
}.

Lemma own_same f o d : owners d !! i = Some o -> f o = o -> own i f d = d.
Proof. intros Ho Hf. unfold own. rewrite Ho, Hf. unfold with_owner. rewrite list_insert_id by done. by destruct d. Qed.

(** A unit that the thread is handed and drops at once. *)
Lemma handed_alone o a us d :
  owners d !! i = Some o -> heap_ok (heap d) (a :: us) ->
  exists h, run_alone (drop_arc i a) (own i (add_unit a) d) = Some (tt, with_heap h d) /\ heap_ok h us.
Proof.
  intros Ho Hh. destruct (heap_dec _ _ us a Hh) as (n & Hn & Hok); [done|]. eexists. split; [|exact Hok].
  assert (own i (add_unit a) d = with_owner i (add_unit a o) d) as -> by (unfold own; by rewrite Ho).
  unfold drop_arc. rewrite alone_expect. cbn [heap with_owner]. rewrite Hn.
  cbn [mbind option_bind]. unfold own. cbn [owners with_heap with_owner].
  rewrite list_lookup_insert_eq by (by eapply lookup_lt_Some). cbn [owners with_heap with_owner].
  rewrite drop_added. unfold with_heap, with_owner. cbn. by rewrite list_insert_insert_eq, list_insert_id.
Qed.

Lemma omap_clear (sl : list ptr) s p : sl !! s = Some p ->
  omap id sl ≡ₚ match p with Some a => [a] | None => [] end ++ omap id (<[s := None]> sl).
Proof.
  intros Hs. rewrite insert_take_drop by (by eapply lookup_lt_Some). rewrite <- (take_drop_middle sl s p Hs) at 1.
  rewrite !omap_app. cbn. destruct p as [a|]; cbn; [|done]. by rewrite Permutation_middle.
Qed.

Lemma drop_slot_alone o s p d : sound o d -> slots d !! s = Some p ->
  exists h, run_alone (drop_slot i s) d = Some (tt, with_heap h (with_slot s None d)) /\
    sound o (with_heap h (with_slot s None d)).
Proof.
  intros [Hh Hq Ho] Hs. unfold drop_slot. rewrite run_alone_bind, alone_expect, Hs. cbn [mbind option_bind].
  assert (heap_ok (heap d) (match p with Some a => [a] | None => [] end ++ units (with_slot s None d))) as Hh'.
  { eapply heap_perm; [|exact Hh]. unfold units at 1. by rewrite (omap_clear _ s p Hs), <- app_assoc. }
  destruct p as [a|].
  - change (own i _ _) with (own i (add_unit a) (with_slot s None d)).
    destruct (handed_alone o a (units (with_slot s None d)) (with_slot s None d) Ho Hh') as (h & -> & Hok).
    exists h. by split_and!.
  - rewrite (own_same _ o) by done. exists (heap d). split; [by destruct d|]. by destruct d.
Qed.

(** Every listed slot is emptied; the others and the FIFO are left alone. *)
Lemma drop_slots_alone o ss : forall d, sound o d -> Forall (fun s => (s < length (slots d))%nat) ss ->
  exists d', run_alone (drop_slots ss) d = Some (tt, d') /\ sound o d' /\ retire d' = retire d /\
    owners d' = owners d /\ length (slots d') = length (slots d) /\
    forall s, slots d' !! s = if decide (s ∈ ss) then (fun _ => None) <$> slots d !! s else slots d !! s.
Proof.
  induction ss as [|s ss IH]; intros d Hd Hss.
  { exists d. by split_and!. }
  apply Forall_cons in Hss as [Hlt Hss]. destruct (lookup_lt_is_Some_2 _ _ Hlt) as [p Hp].
  destruct (drop_slot_alone o s p d Hd Hp) as (h & Hrun & Hd1). cbn [drop_slots]. rewrite run_alone_bind, Hrun.
  destruct (IH _ Hd1) as (d2 & -> & Hd2 & Hr & Hown & Hl & Hs).
  { cbn. by rewrite length_insert. }
  exists d2. split_and!; [done|done|by rewrite Hr|by rewrite Hown|rewrite Hl; cbn; apply length_insert|].
  intros s'. rewrite Hs. cbn. destruct (decide (s = s')) as [->|Hne].
  - rewrite list_lookup_insert_eq by done. rewrite (decide_True (P := s' ∈ s' :: ss)) by left. rewrite Hp. cbn.
    by destruct (decide (s' ∈ ss)).
  - rewrite list_lookup_insert_ne by done. by destruct (decide (s' ∈ ss)), (decide (s' ∈ s :: ss)); try set_solver.
Qed.

Lemma drop_queue_alone o fuel : forall d, sound o d -> (length (contents (retire d)) < fuel)%nat ->
  exists d', run_alone (drop_queue i fuel) d = Some (tt, d') /\ sound o d' /\ contents (retire d') = [] /\
    owners d' = owners d /\ slots d' = slots d.
Proof.
  induction fuel as [|fuel IH]; intros d [Hh Hq Ho] Hlt; [lia|]. cbn [drop_queue].
  destruct (ring_pop _ _ Hq) as (q & Hpop & Hring & _). rewrite run_alone_bind. unfold queue_pop at 1.
  rewrite alone_expect, Hpop. cbn [mbind option_bind]. pose proof (ring_contents _ _ Hring) as Hc.
  destruct (contents (retire d)) as [|r rs] eqn:Hr; cbn [hd_error tail] in *.
  - rewrite (own_same _ o) by done. exists (with_retire q d). split; [done|]. split_and!; [|done..].
    split; [|cbn; by rewrite Hc|done]. unfold units in *. rewrite Hr in Hh. cbn. by rewrite Hc.
  - assert (heap_ok (heap d) (pointer r :: units (with_retire q d))) as Hh'.
    { eapply heap_perm; [|exact Hh]. unfold units. rewrite Hr. cbn. rewrite Hc. cbn. by rewrite <- Permutation_middle. }
    rewrite run_alone_bind. change (own i _ _) with (own i (add_unit (pointer r)) (with_retire q d)).
    destruct (handed_alone o (pointer r) _ (with_retire q d) Ho Hh') as (h & -> & Hok).
    destruct (IH (with_heap h (with_retire q d))) as (d' & -> & Hd' & Hc' & Hown & Hsl).
    { split; [done|cbn; by rewrite Hc|done]. }
    { cbn in *. rewrite Hc. lia. }
    by exists d'.
Qed.

(** With nothing left in the hands of threads, everything is released. *)
Lemma teardown_alone o fuel d :
  sound o d -> Forall (fun o => owner_units o = []) (owners d) -> (length (contents (retire d)) < fuel)%nat ->
  exists d', run_alone (teardown (seq 0 (length (slots d))) fuel) d = Some (tt, d') /\
    heap d' = ∅.
Proof.
  intros Hd Hown Hfuel. unfold teardown. rewrite run_alone_bind.
  destruct (drop_slots_alone o (seq 0 (length (slots d))) d Hd) as (d1 & -> & Hd1 & Hr & Ho1 & Hl & Hs).
  { apply Forall_forall. intros s ?%elem_of_seq. lia. }
  destruct (drop_queue_alone o fuel d1 Hd1) as (d2 & -> & [Hh _ _] & Hc & Ho2 & Hs2).
  { by rewrite Hr. }
  exists d2. split; [done|]. apply map_eq. intros a. rewrite lookup_empty. specialize (Hh a).
  assert (units d2 = []) as Hu.
  { unfold units. rewrite Hc, Ho2, Ho1, Hs2. replace (owners d ≫= owner_units) with ([] : list nat).
    - cbn. rewrite app_nil_r. destruct (omap id (slots d1)) as [|x l] eqn:Hx; [done|exfalso].
      assert (x ∈ omap id (slots d1)) as (p & Hp & Hpx)%list_elem_of_omap by (rewrite Hx; left).
      apply list_elem_of_lookup in Hp as [s Hp]. rewrite Hs in Hp. cbn in Hpx. subst p.
      case_decide as Hin; [by destruct (slots d !! s)|]. apply Hin, elem_of_seq. apply lookup_lt_Some in Hp. lia.
    - symmetry. clear -Hown. induction Hown as [|o' l Hx _ IH]; [done|]. cbn. by rewrite Hx, IH. }
  rewrite Hu in Hh. destruct (heap d2 !! a); [cbn in Hh; lia|done].
Qed.

End Teardown.

Inductive Move : Type := Start (c : Client) | Run (i n : nat).

Section Schedule.
Context (MAX_CPUS SLOTS CAPACITY : nat).

Definition can_run (d : Rcu) (i : nat) : bool :=
  forallb (fun l => negb (existsb (fun x => ctx_thread x =? i)%nat l) ||
                    match l with x :: _ => (ctx_thread x =? i)%nat | [] => false end) (contexts d).

Lemma can_run_may d i : can_run d i = true -> may_run d i.
Proof.
  unfold can_run. rewrite forallb_forall. intros H c l Hl Hi. specialize (H l (proj1 (list_elem_of_In _ _) (list_elem_of_lookup_2 _ _ _ Hl))).
  apply list_elem_of_fmap in Hi as (x & -> & Hx). apply orb_true_iff in H as [H|H].
  - apply negb_true_iff, not_true_iff_false in H. destruct H. apply existsb_exists. exists x.
    split; [by apply list_elem_of_In|by apply Nat.eqb_eq].
  - destruct l as [|y l]; [done|]. cbn. f_equal. by apply Nat.eqb_eq.
Qed.

Definition advance (i : nat) (c : threads Rcu (list nat)) : option (threads Rcu (list nat)) :=
  match running c !! i with
  | Some (Act f k) =>
      if can_run (shared c) i then
        match f (shared c) with Some (b, d) => Some (mkThreads d (<[i := k b]> (running c))) | None => None end
      else None
  | _ => None
  end.

(** A thread that has ended stays where it is. *)
Fixpoint advances (n i : nat) (c : threads Rcu (list nat)) : option (threads Rcu (list nat)) :=
  match n with
  | O => Some c
  | S n => match running c !! i with Some (Ret _) => Some c | _ => advance i c ≫= advances n i end
  end.

Definition play_move (m : Move) (c : threads Rcu (list nat)) : option (threads Rcu (list nat)) :=
  match m with
  | Start x =>
      if match client_slot x with Some s => (s <? SLOTS)%nat | None => true end
      then Some (mkThreads (spawned (shared c)) (running c ++ [client MAX_CPUS (length (running c)) x]))
      else None
  | Run i n => advances n i c
  end.
Fixpoint play (ms : list Move) (c : threads Rcu (list nat)) : option (threads Rcu (list nat)) :=
  match ms with [] => Some c | m :: ms => play_move m c ≫= play ms end.
Definition played (ms : list Move) : option (threads Rcu (list nat)) :=
  play ms (mkThreads (rcu_new MAX_CPUS CAPACITY SLOTS) []).

Local Abbreviation reaches := (rcu_reaches MAX_CPUS SLOTS CAPACITY).

Lemma advance_reaches i c c' : reaches c -> advance i c = Some c' -> reaches c'.
Proof.
  unfold advance. destruct c as [d ps]. cbn. intros Hc. destruct (ps !! i) as [[| |B f k]|] eqn:Hp; try done.
  destruct (can_run d i) eqn:Hr; [|done]. destruct (f d) as [[b d']|] eqn:Hf; [|done]. intros [= <-].
  eapply threads_next; [exact Hc|]. by eapply thread_action; [|apply can_run_may|].
Qed.

Lemma advances_reaches n i : forall c c', reaches c -> advances n i c = Some c' -> reaches c'.
Proof.
  induction n as [|n IH]; intros c c' Hc; cbn [advances]; [by intros [= <-]|].
  destruct (running c !! i) as [[| |]|]; try (by intros [= <-]);
    intros (c1 & H1 & H2)%bind_Some; (eapply IH; [by eapply advance_reaches|done]).
Qed.

Lemma play_move_reaches m c c' : reaches c -> play_move m c = Some c' -> reaches c'.
Proof.
  destruct m as [x|i n]; cbn [play_move]; [|apply advances_reaches].
  intros Hc. destruct (match client_slot x with Some s => _ | None => _ end) eqn:Hs; [|done]. intros [= <-].
  destruct c as [d ps]. eapply threads_next; [exact Hc|]. apply thread_start. apply start_client.
  intros s Heq. rewrite Heq in Hs. by apply Nat.ltb_lt.
Qed.

Lemma play_reaches ms c c' : reaches c -> play ms c = Some c' -> reaches c'.
Proof.
  revert c. induction ms as [|m ms IH]; intros c Hc; cbn [play]; [by intros [= <-]|].
  intros (c1 & H1 & H2)%bind_Some. eapply IH; [by eapply play_move_reaches|done].
Qed.

Lemma played_reaches ms c : played ms = Some c -> reaches c.
Proof. apply play_reaches. constructor. Qed.

(** What is observed of the configuration a schedule reaches. *)
Lemma observe {B} (f : threads Rcu (list nat) -> B) ms b :
  f <$> played ms = Some b -> exists c, reaches c /\ f c = b.
Proof. intros (c & Hc & ->)%fmap_Some. exists c. split; [by eapply played_reaches|done]. Qed.

End Schedule.
