(* ===== verification/RcuVerified.v ===== *)
(** Read-copy-update, part 14: the guarantees of a domain, with concrete
    schedules that witness them. *)

From stdpp Require Import gmap.
From S2P Require Import Prelude Threads Rcu RcuSafety RcuOwners RcuProtocol RcuWriters RcuAlone.
Local Open Scope Z_scope.

(** ** The retire FIFO against a list

    The specification is the queued owners, oldest first, and the number of
    reservations; an operation without result is a panic of the code. *)

Inductive QueueOp : Type := Reserve | CancelReservation | Commit (r : Retired) | Front | Pop | IsEmpty.
Inductive QueueAnswer : Type := Done | Full | Entry (o : option Retired) | Empty (b : bool).

Definition queue_exec (op : QueueOp) (q : RetireQueue) : option (QueueAnswer * RetireQueue) :=
  match op with
  | Reserve => match RetireQueue.reserve q with Ok q => Some (Done, q) | Err _ => Some (Full, q) end
  | CancelReservation => q ← RetireQueue.cancel_reservation q; Some (Done, q)
  | Commit r => q ← RetireQueue.commit r q; Some (Done, q)
  | Front => o ← RetireQueue.front q; Some (Entry o, q)
  | Pop => '(o, q) ← RetireQueue.pop q; Some (Entry o, q)
  | IsEmpty => Some (Empty (RetireQueue.is_empty q), q)
  end.

Definition fifo_exec (CAPACITY : nat) (op : QueueOp) (s : list Retired * nat) :
    option (QueueAnswer * (list Retired * nat)) :=
  let '(l, n) := s in
  match op, n with
  | Reserve, _ => if (length l + n <? CAPACITY)%nat then Some (Done, (l, S n)) else Some (Full, s)
  | CancelReservation, S n => Some (Done, (l, n))
  | Commit r, S n => Some (Done, (l ++ [r], n))
  | Front, _ => Some (Entry (hd_error l), s)
  | Pop, _ => Some (Entry (hd_error l), (tail l, n))
  | IsEmpty, _ => Some (Empty (bool_decide (l = [])), s)
  | _, O => None
  end.

Section Histories.
Context {S : Type} (exec : QueueOp -> S -> option (QueueAnswer * S)).

(** The answers of a history of operations, up to a panic. *)
Fixpoint answers (ops : list QueueOp) (s : S) : list (option QueueAnswer) :=
  match ops with
  | [] => []
  | op :: ops => match exec op s with Some (a, s) => Some a :: answers ops s | None => [None] end
  end.
End Histories.

(** One operation on a ring is the operation on its contents. *)
Lemma queue_step (C : nat) op q l : ring q l -> length (entries q) = C ->
  match queue_exec op q, fifo_exec C op (l, reserved q) with
  | Some (a, q'), Some (b, (l', n)) => a = b /\ ring q' l' /\ length (entries q') = C /\ reserved q' = n
  | None, None => True
  | _, _ => False
  end.
Proof.
  intros Hq HC. pose proof (ring_len _ _ Hq) as Hlen. pose proof (ring_room _ _ Hq) as Hroom.
  destruct op as [| |r| | |]; cbn [queue_exec fifo_exec].
  - pose proof (ring_reserve _ _ Hq) as Hr. unfold RetireQueue.reserve in *.
    destruct (Nat.leb_spec (length (entries q)) (len q + reserved q)).
    + rewrite (proj2 (Nat.ltb_ge _ _)) by lia. done.
    + rewrite (proj2 (Nat.ltb_lt _ _)) by lia. destruct Hr as [? Hr]. split_and!; try done.
  - destruct (reserved q) as [|n] eqn:Hn; [by unfold RetireQueue.cancel_reservation; rewrite Hn|].
    destruct (ring_cancel q l Hq) as (q' & Heq & Hq' & Hres); [lia|]. rewrite Heq. cbn. split_and!; [done|done| |lia].
    unfold RetireQueue.cancel_reservation in Heq. rewrite Hn in Heq. by injection Heq as <-.
  - destruct (reserved q) as [|n] eqn:Hn.
    { unfold RetireQueue.commit. rewrite Hn. by destruct (entries q !! _). }
    destruct (ring_commit q l r Hq) as (q' & Heq & Hq' & Hres); [lia|]. rewrite Heq. cbn. split_and!; [done|done| |lia].
    unfold RetireQueue.commit in Heq. rewrite Hn in Heq. destruct (entries q !! _); [|done]. injection Heq as <-.
    cbn. by rewrite length_insert.
  - rewrite (ring_front _ _ Hq). done.
  - destruct (ring_pop q l Hq) as (q' & Heq & Hq' & Hres). rewrite Heq. cbn. split_and!; try done.
    unfold RetireQueue.pop in Heq. destruct (len q =? 0)%nat; [by injection Heq as _ <-|].
    destruct (entries q !! head q) as [[x|]|]; try done. injection Heq as _ <-. cbn. by rewrite length_insert.
  - split_and!; try done. f_equal. unfold RetireQueue.is_empty. rewrite Hlen. by destruct l.
Qed.

Lemma ring_answers (C : nat) ops : forall q l, ring q l -> length (entries q) = C ->
  answers queue_exec ops q = answers (fifo_exec C) ops (l, reserved q).
Proof.
  induction ops as [|op ops IH]; intros q l Hq HC; [done|]. cbn [answers].
  pose proof (queue_step C op q l Hq HC) as Hs.
  destruct (queue_exec op q) as [[a q']|], (fifo_exec C op (l, reserved q)) as [[b [l' n]]|]; try done.
  destruct Hs as (-> & ? & ? & <-). f_equal. by apply IH.
Qed.

(** The ring buffer of retired owners is a bounded FIFO with reservations: any
    history of [reserve], [cancel_reservation], [commit], [front], [pop] and
    [is_empty] on a new queue of any capacity gives the answers of a plain list
    with a reservation counter, panics included, so the wrap-around of the
    indices and the uninitialised entries are never seen. *)
Theorem retire_queue_refines_fifo (CAPACITY : nat) (ops : list QueueOp) :
  answers queue_exec ops (RetireQueue.new CAPACITY) = answers (fifo_exec CAPACITY) ops ([], 0%nat).
Proof.
  change 0%nat with (reserved (RetireQueue.new CAPACITY)). apply ring_answers; [apply ring_new|].
  apply length_replicate.
Qed.

(** ** Every interleaving of clients *)

Section Reachable.
Context (MAX_CPUS SLOTS CAPACITY : nat).
Local Abbreviation reaches := (rcu_reaches MAX_CPUS SLOTS CAPACITY).

(** C22: no use after free. In every interleaving of readers (also nested in
    interrupts on a CPU), writers, the reclaimer and CPU registration, on any
    number of CPUs and slots: no thread touches a released allocation or panics
    otherwise, every raw pointer a reader holds between its load of the slot and
    its increment of the count points to a live object, and so does every
    [Arc] that a finished client kept. *)
Theorem rcu_clients_never_touch_released c : reaches c ->
  threads_safe c /\
  (forall cpu l x p, contexts (shared c) !! cpu = Some l -> x ∈ l -> raw_of (stage x) = Some p ->
    is_Some (heap (shared c) !! p)) /\
  (forall i kept a, running c !! i = Some (Ret kept) -> a ∈ kept -> is_Some (heap (shared c) !! a)).
Proof.
  intros (Hi & _ & Hsafe & Hrg)%rcu_sound. split; [done|]. split.
  - intros cpu l x p Hl Hx Hp. apply (heap_live _ _ p (inv_heap _ _ _ Hi)).
    by eapply supported_unit, (inv_raw _ _ _ Hi).
  - intros i kept a Hk Ha. destruct (Hrg i _ Hk) as (o & Ho & Hkept).
    apply (heap_live _ _ a (inv_heap _ _ _ Hi)). unfold units. rewrite !elem_of_app. right. right.
    apply list_elem_of_bind. exists o. split; [|by eapply list_elem_of_lookup_2]. apply elem_of_app. left. by apply Hkept.
Qed.

(** C23: strong counts are exact and nothing leaks: at any moment of any
    interleaving, the count of an object is the number of its owners (slots
    that publish it, retired entries, and the references threads hold), and an
    object is released exactly when it has none. *)
Theorem strong_counts_are_exact c p : reaches c ->
  heap (shared c) !! p =
    if decide (occ p (units (shared c)) = 0%nat) then None else Some (Z.of_nat (occ p (units (shared c)))).
Proof.
  intros (Hi & _)%rcu_sound. pose proof (inv_heap _ _ _ Hi p) as Hp. destruct (heap (shared c) !! p) as [n|].
  - destruct Hp as [-> Hp]. rewrite decide_False by lia. done.
  - by rewrite decide_True.
Qed.

(** Why a raw pointer is safe: while a reader holds one, either a slot still
    publishes the object, or its retired owner waits (in the FIFO, or in the
    hands of the writer that is retiring it) with a retire epoch above the
    marker the reader's CPU shows, so no grace period that covers it has
    completed. *)
Theorem raw_pointer_blocks_reclamation c cpu l x p r : reaches c ->
  contexts (shared c) !! cpu = Some l -> x ∈ l -> raw_of (stage x) = Some p ->
  readers (shared c) !! cpu = Some r ->
  Some p ∈ slots (shared c) \/
  exists e, mkRetired p e ∈ contents (retire (shared c)) ++ hands (shared c) /\
    reader_passed (registration r) (active_epoch r) e = false.
Proof.
  intros (Hi & _)%rcu_sound Hl Hx Hp Hr. pose proof (inv_cpu _ _ _ Hi cpu l r Hl Hr) as Hcpu.
  destruct (inv_raw _ _ _ Hi cpu l x p Hl Hx Hp) as [?|([q e] & Hin & <- & He)]; [by left|right].
  exists e. split; [done|]. cbn in He. destruct Hcpu as [(on & Hw & _) Hd Ha _ _ _].
  destruct (word_bits on _ Hd) as [Hm _]. unfold reader_passed. rewrite Hw, Hm, Ha.
  assert (counted l <> 0)%nat.
  { apply list_elem_of_In in Hx. unfold counted. intros Hz. apply length_zero_iff_nil in Hz.
    assert (In x (List.filter is_counted l)) as Hf; [|by rewrite Hz in Hf]. apply filter_In. split; [done|].
    unfold is_counted. by destruct (stage x). }
  rewrite (proj2 (Z.eqb_neq _ _)) by lia. cbn. apply andb_false_iff. right. apply Z.ltb_ge. lia.
Qed.

(** A load in a quiet moment (no writer at work, nothing else on its registered
    CPU) terminates in its first round and returns exactly what the slot
    publishes; it takes one reference and changes nothing else of the state but
    the reclamation hints. *)
Theorem load_returns_current c i fuel cpu cpus s p : reaches c ->
  (i < length (running c))%nat -> writer (shared c) = None -> slots (shared c) !! s = Some p ->
  contexts (shared c) !! cpu = Some [] -> readers (shared c) !! cpu = Some (mkReader REGISTERED_BIT 0) ->
  exists h, run_alone (try_load_if_present MAX_CPUS i (S fuel) (cpu :: cpus) s) (shared c) = Some (Loaded p,
    with_hints h match p with
                 | None => shared c
                 | Some a => own i (add_unit a) (with_heap (<[a := default 0 (heap (shared c) !! a) + 1]> (heap (shared c))) (shared c))
                 end).
Proof.
  intros (Hi & Hlen & _)%rcu_sound Hlt Hw Hs Hctx Hrd. rewrite <- Hlen in Hlt.
  destruct (lookup_lt_is_Some_2 _ _ Hlt) as [o Ho].
  destruct (load_alone MAX_CPUS SLOTS i fuel cpu cpus s p o (shared c) Hi Ho Hw Hs Hctx Hrd) as [h ->].
  exists h. do 2 f_equal. destruct p; [|done]. unfold own. cbn. by rewrite Ho.
Qed.


(** C25: nothing leaks: when the threads hold no reference any more, dropping the
    slots and then the domain terminates (one pop more than the FIFO holds) and releases every object, whatever
    history of publications, reclamations and rejected updates came before. *)
Theorem teardown_releases_everything c i : reaches c ->
  (i < length (running c))%nat -> Forall (fun o => owner_units o = []) (owners (shared c)) ->
  exists d, run_alone (teardown i (seq 0 SLOTS) (S (length (contents (retire (shared c)))))) (shared c) = Some (tt, d) /\ heap d = ∅.
Proof.
  intros (Hi & Hlen & _)%rcu_sound Hlt Hown.
  rewrite <- Hlen in Hlt. destruct (lookup_lt_is_Some_2 _ _ Hlt) as [o Ho].
  rewrite <- (inv_slots _ _ _ Hi). apply (teardown_alone i o); [|done|lia].
  split; [apply Hi|apply Hi|done].
Qed.

End Reachable.

(** ** Witnesses

    One CPU, one slot, room for two retired owners. A reader on CPU 0 has
    loaded the raw pointer of object 5 when a writer replaces it by object 6 and
    a reclaimer drains: the drain is blocked. *)

Definition replaced_under_reader (k : nat) : list Move :=
  [Start (ClientRegister 0); Run 0 100; Start (ClientInstall 0 5 false); Run 1 100;
   Start (ClientLoad 3 [0; 0]%nat 0 true); Run 2 k; Start (ClientReplace 0 5 6 false); Run 3 100;
   Start (ClientDrain true true 4); Run 4 100].
Definition the_reader : Context := mkContext 2 false (Inside (Some 2) (Some 5%nat)).

Lemma rcu_clients_never_touch_released_witness : exists c, rcu_reaches 1 1 2 c /\
  contexts (shared c) = [[the_reader]] /\ slots (shared c) = [Some 6%nat] /\ threads_safe c /\
  is_Some (heap (shared c) !! 5%nat).
Proof.
  destruct (observe 1 1 2 (fun c => (contexts (shared c), slots (shared c))) (replaced_under_reader 8)
    ([[the_reader]], [Some 6%nat])) as (c & Hc & [= Hctx Hs]); [vm_compute; reflexivity|].
  exists c. split; [exact Hc|]. split; [exact Hctx|]. split; [exact Hs|].
  destruct (rcu_clients_never_touch_released 1 1 2 c Hc) as (Hsafe & Hraw & _). split; [exact Hsafe|].
  eapply (Hraw 0%nat [the_reader] the_reader); [rewrite Hctx; reflexivity|left|reflexivity].
Defined.

Lemma strong_counts_are_exact_witness : exists c, rcu_reaches 1 1 2 c /\
  heap (shared c) !! 5%nat = Some 2 /\ heap (shared c) !! 7%nat = None.
Proof.
  destruct (observe 1 1 2 (fun c => (occ 5%nat (units (shared c)), occ 7%nat (units (shared c)))) (replaced_under_reader 9)
    (2, 0)%nat) as (c & Hc & [= H5 H7]); [vm_compute; reflexivity|].
  exists c. split; [exact Hc|]. split.
  - rewrite (strong_counts_are_exact 1 1 2 c 5 Hc), H5. reflexivity.
  - rewrite (strong_counts_are_exact 1 1 2 c 7 Hc), H7. reflexivity.
Defined.

Lemma raw_pointer_blocks_reclamation_witness : exists c, rcu_reaches 1 1 2 c /\
  exists e, mkRetired 5 e ∈ contents (retire (shared c)) ++ hands (shared c) /\
    reader_passed (REGISTERED_BIT + 1) 3 e = false.
Proof.
  destruct (observe 1 1 2 (fun c => (contexts (shared c), slots (shared c), readers (shared c))) (replaced_under_reader 8)
    ([[the_reader]], [Some 6%nat], [mkReader (REGISTERED_BIT + 1) 3])) as (c & Hc & [= Hctx Hs Hr]); [vm_compute; reflexivity|].
  exists c. split; [exact Hc|].
  destruct (raw_pointer_blocks_reclamation 1 1 2 c 0%nat [the_reader] the_reader 5
    (mkReader (REGISTERED_BIT + 1) 3) Hc) as [H|H]; [rewrite Hctx; reflexivity|left|reflexivity|rewrite Hr; reflexivity| |exact H].
  rewrite Hs in H. apply list_elem_of_singleton in H. discriminate H.
Defined.

(** Object 5 is published and nothing runs. *)
Definition installed : list Move :=
  [Start (ClientRegister 0); Run 0 100; Start (ClientInstall 0 5 false); Run 1 100].

Lemma load_returns_current_witness : exists c, rcu_reaches 1 1 2 c /\
  exists d, run_alone (try_load_if_present 1 1 1 [0]%nat 0) (shared c) = Some (Loaded (Some 5%nat), d).
Proof.
  destruct (observe 1 1 2 (fun c => (length (running c), writer (shared c), slots (shared c), contexts (shared c),
    readers (shared c))) installed (2%nat, None, [Some 5%nat], [[]], [mkReader REGISTERED_BIT 0]))
    as (c & Hc & [= Hl Hw Hs Hctx Hr]); [vm_compute; reflexivity|].
  exists c. split; [exact Hc|].
  destruct (load_returns_current 1 1 2 c 1 0 0 [] 0 (Some 5%nat) Hc) as [h ->];
    [rewrite Hl; lia|exact Hw|rewrite Hs; reflexivity|rewrite Hctx; reflexivity|rewrite Hr; reflexivity|].
  eexists. reflexivity.
Defined.

(** Two owners are retired and every reader is gone. *)
Definition two_retired : list Move :=
  installed ++ [Start (ClientReplace 0 5 6 false); Run 2 100; Start (ClientReplace 0 6 7 false); Run 3 100].


Lemma teardown_releases_everything_witness : exists c, rcu_reaches 1 1 2 c /\
  contents (retire (shared c)) = [mkRetired 5 4; mkRetired 6 6] /\
  exists d, run_alone (teardown 0 [0]%nat 3) (shared c) = Some (tt, d) /\ heap d = ∅.
Proof.
  destruct (observe 1 1 2 (fun c => (length (running c), owners (shared c), contents (retire (shared c)))) two_retired
    (4%nat, replicate 4 (mkOwner [] [] 0), [mkRetired 5 4; mkRetired 6 6])) as (c & Hc & [= Hl Ho Hq]); [vm_compute; reflexivity|].
  exists c. split; [exact Hc|]. split; [exact Hq|].
  change 3%nat with (S (length [mkRetired 5 4; mkRetired 6 6])). rewrite <- Hq.
  apply (teardown_releases_everything 1 1 2 c 0 Hc).
  - rewrite Hl. lia.
  - rewrite Ho. repeat constructor.
Defined.
