(* ===== verification/ReadyTree.v ===== *)
(** The ordered tree the fair scheduler links its tasks into.

    [intrusive_collections::RBTree] is a third-party crate, so its operations
    are an interface: [ReadyTrees] has the operations the scheduler calls and
    [ReadyTreeLaws] what its documentation promises about them. A tree reads the
    keys of its tasks through an adapter, here the function [key]; its promises
    hold while the linked tasks are in the order of their keys. [plain_trees] is
    an instance on ordinary lists. *)

From S2P Require Import Prelude Sched.
Local Open Scope Z_scope.

(** ** Keys, compared lexicographically *)

Abbreviation ReadyKey := (Z * Z * Z)%type.

Definition before (a b : ReadyKey) : Prop :=
  a.1.1 < b.1.1 \/ a.1.1 = b.1.1 /\ (a.1.2 < b.1.2 \/ a.1.2 = b.1.2 /\ a.2 < b.2).
#[export] Instance before_dec a b : Decision (before a b).
Proof. unfold before. apply _. Defined.

Lemma before_irrefl a : ~ before a a.
Proof. unfold before. lia. Qed.
Lemma before_trans a b c : before a b -> before b c -> before a c.
Proof. unfold before. lia. Qed.
Lemma before_total a b : a = b \/ before a b \/ before b a.
Proof.
  destruct a as [[a1 a2] a3], b as [[b1 b2] b3]. unfold before. simpl.
  destruct (decide (a1 = b1)) as [->|], (decide (a2 = b2)) as [->|], (decide (a3 = b3)) as [->|]; auto; right; lia.
Qed.

(** In key order, strictly: no two tasks have the same key. *)
Fixpoint in_order (key : nat -> ReadyKey) (l : list nat) : Prop :=
  match l with
  | [] => True
  | x :: l => Forall (fun y => before (key x) (key y)) l /\ in_order key l
  end.

(** The position of the first task that is not below [k], and the insertion. *)
Fixpoint lower_index (key : nat -> ReadyKey) (k : ReadyKey) (l : list nat) : nat :=
  match l with
  | [] => 0
  | x :: l => if decide (before (key x) k) then S (lower_index key k l) else 0
  end.
Definition key_insert (key : nat -> ReadyKey) (x : nat) (l : list nat) : list nat :=
  take (lower_index key (key x) l) l ++ x :: drop (lower_index key (key x) l) l.

(** ** The interface *)

Class ReadyTrees (L : Type) : Type := {
  tree_cursor : Type;
  no_trees : L;
  tree_insert : (nat -> ReadyKey) -> nat -> nat -> L -> L;
  tree_front : nat -> L -> tree_cursor;
  tree_lower_bound : (nat -> ReadyKey) -> nat -> ReadyKey -> L -> tree_cursor;
  tree_get : tree_cursor -> L -> option nat;
  tree_next : tree_cursor -> L -> tree_cursor;
  tree_remove : tree_cursor -> L -> option nat * L }.

Class ReadyTreeLaws (L : Type) `{!ReadyTrees L} : Type := {
  members : L -> nat -> list nat;
  points : tree_cursor -> L -> nat -> nat -> Prop;
  no_trees_members j : members no_trees j = [];
  tree_insert_members key q x l j :
    (forall j, x ∉ members l j) -> in_order key (members l q) -> (forall y, y ∈ members l q -> key y <> key x) ->
    members (tree_insert key q x l) j = on_list q (key_insert key x (members l q)) (members l) j;
  tree_front_points q l : points (tree_front q l) l q 0;
  tree_lower_bound_points key q k l :
    in_order key (members l q) -> points (tree_lower_bound key q k l) l q (lower_index key k (members l q));
  tree_get_at c l q n : points c l q n -> tree_get c l = members l q !! n;
  tree_next_points c l q n :
    points c l q n -> (n < length (members l q))%nat -> points (tree_next c l) l q (S n);
  tree_remove_result c l q n : points c l q n -> (tree_remove c l).1 = members l q !! n;
  tree_remove_members c l q n j :
    points c l q n ->
    members (tree_remove c l).2 j =
      on_list q (take n (members l q) ++ drop (S n) (members l q)) (members l) j }.

(** ** Ordinary lists *)

#[export] Instance plain_trees : ReadyTrees (nat -> list nat) := {
  tree_cursor := nat * nat;
  no_trees := fun _ => [];
  tree_insert key q x c := on_list q (key_insert key x (c q)) c;
  tree_front q _ := (q, 0%nat);
  tree_lower_bound key q k c := (q, lower_index key k (c q));
  tree_get p c := c p.1 !! p.2;
  tree_next p _ := (p.1, S p.2);
  tree_remove p c := (c p.1 !! p.2, on_list p.1 (take p.2 (c p.1) ++ drop (S p.2) (c p.1)) c) }.

#[export] Instance plain_trees_laws : ReadyTreeLaws (nat -> list nat).
Proof.
  refine {| members := fun c => c; points := fun p (_ : nat -> list nat) q n => p = (q, n) |};
    intros; subst; done.
Defined.

(** ** Sorted lists *)

Section Sorted.
Context (key : nat -> ReadyKey).

Lemma in_order_app l1 l2 :
  in_order key (l1 ++ l2) <->
  in_order key l1 /\ in_order key l2 /\ forall x y, x ∈ l1 -> y ∈ l2 -> before (key x) (key y).
Proof.
  induction l1 as [|x l1 IH]; simpl.
  { split; [|by intros (_ & ? & _)]. intros ?. split_and!; try done. by intros x y ?%not_elem_of_nil. }
  rewrite IH, Forall_app, !Forall_forall. split.
  - intros ((H1 & H2) & H3 & H4 & H5). split_and!; try done. intros x' y [->|Hx]%elem_of_cons Hy; auto.
  - intros ((H1 & H2) & H3 & H4). split_and!; try done; intros; apply H4; set_solver.
Qed.

Lemma in_order_nodup l : in_order key l -> NoDup l.
Proof.
  induction l as [|x l IH]; [constructor|]. intros [Hx Hl]. constructor; [|auto].
  intros Hin. rewrite Forall_forall in Hx. by apply Hx, before_irrefl in Hin.
Qed.

Lemma lower_index_app k l1 l2 : Forall (fun x => before (key x) k) l1 ->
  lower_index key k (l1 ++ l2) = (length l1 + lower_index key k l2)%nat.
Proof. induction 1 as [|x l1 Hx _ IH]; [done|]. simpl. rewrite decide_True by done. by rewrite IH. Qed.

(** A sorted list splits at the lower bound of any key. *)
Lemma lower_index_split k l : in_order key l -> exists l1 l2,
  l = l1 ++ l2 /\ lower_index key k l = length l1 /\
  Forall (fun x => before (key x) k) l1 /\ Forall (fun x => ~ before (key x) k) l2.
Proof.
  induction l as [|x l IH]; intros Hl; [by exists [], []|]. destruct Hl as [Hx Hl]. simpl.
  destruct (decide (before (key x) k)) as [Hk|Hk].
  - destruct (IH Hl) as (l1 & l2 & -> & -> & H1 & H2). exists (x :: l1), l2. split_and!; [done|done|by constructor|done].
  - exists [], (x :: l). split; [done|]. split; [done|]. split; [constructor|]. constructor; [done|]. eapply Forall_impl; [exact Hx|].
    intros y Hy Hlt. apply Hk. by apply (before_trans _ (key y)).
Qed.

(** The key of a member is found at the member. *)
Lemma lower_index_member l1 x l2 : in_order key (l1 ++ x :: l2) ->
  lower_index key (key x) (l1 ++ x :: l2) = length l1.
Proof.
  intros (_ & _ & H)%in_order_app. rewrite lower_index_app.
  - simpl. rewrite decide_False by apply before_irrefl. lia.
  - apply Forall_forall. intros y Hy. apply H; [done|left].
Qed.

Lemma key_insert_split x l : in_order key l -> (forall y, y ∈ l -> key y <> key x) ->
  exists l1 l2, l = l1 ++ l2 /\ key_insert key x l = l1 ++ x :: l2 /\ in_order key (l1 ++ x :: l2).
Proof.
  intros Hl Hne. destruct (lower_index_split (key x) l Hl) as (l1 & l2 & -> & Hi & H1 & H2).
  exists l1, l2. unfold key_insert. rewrite Hi, take_app_length, drop_app_length. split_and!; try done.
  apply in_order_app in Hl as (S1 & S2 & S12). rewrite Forall_forall in H1, H2. apply in_order_app. split_and!.
  - done.
  - split; [|done]. apply Forall_forall. intros y Hy. destruct (before_total (key y) (key x)) as [He|[Hlt|]]; [|by apply H2 in Hlt|done].
    exfalso. eapply Hne; [|exact He]. set_solver.
  - intros y z Hy [->|Hz]%elem_of_cons; auto.
Qed.

Lemma key_insert_perm x l : key_insert key x l ≡ₚ x :: l.
Proof. unfold key_insert. by rewrite <- Permutation_middle, take_drop. Qed.

Lemma key_insert_sorted x l : in_order key l -> (forall y, y ∈ l -> key y <> key x) -> in_order key (key_insert key x l).
Proof. intros Hl Hne. by destruct (key_insert_split x l Hl Hne) as (l1 & l2 & -> & -> & ?). Qed.

Lemma in_order_remove l1 x l2 : in_order key (l1 ++ x :: l2) -> in_order key (l1 ++ l2).
Proof.
  intros (H1 & [_ H2] & H12)%in_order_app. apply in_order_app. split_and!; try done.
  intros; apply H12; [done|]. by right.
Qed.

(** A sorted list is determined by its elements. *)
Lemma in_order_unique l l' : in_order key l -> in_order key l' -> l ≡ₚ l' -> l = l'.
Proof.
  revert l'. induction l as [|x l IH]; intros l' Hl Hl' Hp; [by apply Permutation_nil_l in Hp|].
  destruct l' as [|y l']; [by apply Permutation_nil_r in Hp|]. destruct Hl as [Hx Hl], Hl' as [Hy Hl'].
  rewrite Forall_forall in Hx, Hy. assert (x = y) as ->.
  { assert (x ∈ y :: l') as [->|Hx']%elem_of_cons by (rewrite <- Hp; left); [done|].
    assert (y ∈ x :: l) as [->|Hy']%elem_of_cons by (rewrite Hp; left); [done|].
    destruct (before_irrefl (key x)). eapply before_trans; eauto. }
  f_equal. apply IH; try done. by apply Permutation_cons_inv in Hp.
Qed.

End Sorted.

Lemma in_order_ext key key' l : (forall x, x ∈ l -> key x = key' x) -> in_order key l -> in_order key' l.
Proof.
  intros He. induction l as [|x l IH]; [done|]. intros [Hx Hl]. split.
  - rewrite Forall_forall in Hx |- *. intros y Hy. rewrite <- !He by set_solver. auto.
  - apply IH; [|done]. intros y Hy. apply He. by right.
Qed.

Lemma lower_index_ext key key' k l : (forall x, x ∈ l -> key x = key' x) -> lower_index key k l = lower_index key' k l.
Proof.
  intros He. induction l as [|x l IH]; [done|]. simpl. rewrite He by left. rewrite IH; [done|].
  intros y Hy. apply He. by right.
Qed.
