(* ===== verification/Cfs.v ===== *)
(** The completely fair scheduler, part 1: [crates/thekernel-axsched/src/cfs.rs].

    Tasks are shared objects ([Arc]): a store of records with one field per
    atomic, which every scheduler can reach. A scheduler is its counters and a
    ready tree of the interface [ReadyTree], which reads the keys of the tasks
    in the store. Every method is one definition; a method that holds a claim
    which its early returns drop releases it in [on_error]. Payloads of tasks
    are not read by the scheduler and are left out. *)

From S2P Require Import Prelude Effects Atomics ReadyTree Sched.
Local Open Scope Z_scope.

(** ** [isize] arithmetic *)

Definition isize_MIN : Z := -9223372036854775808.
Definition isize_MAX : Z := 9223372036854775807.
Definition in_isize (z : Z) : Prop := isize_MIN <= z <= isize_MAX.
#[export] Instance in_isize_dec z : Decision (in_isize z).
Proof. unfold in_isize. apply _. Defined.
Definition saturate (z : Z) : Z := Z.max isize_MIN (Z.min isize_MAX z).
Definition saturating_add_isize (a b : Z) : Z := saturate (a + b).
Definition saturating_sub_isize (a b : Z) : Z := saturate (a - b).
Definition saturating_mul_isize (a b : Z) : Z := saturate (a * b).
Definition checked_add_isize (a b : Z) : option Z := if a + b <=? isize_MAX then Some (a + b) else None.
Definition checked_sub_isize (a b : Z) : option Z := if isize_MIN <=? a - b then Some (a - b) else None.
(** [as isize] of a [usize] *)
Definition as_isize (z : Z) : Z := if z <=? isize_MAX then z else z - 18446744073709551616.

(** ** Parameters *)

Definition RR_TIMESLICE_TICKS : Z := 5.
Definition RT_PRIORITY_MIN : Z := 1.
Definition RT_PRIORITY_MAX : Z := u8_MAX.
Definition FAIR_PREEMPT_GRANULARITY_TICKS : Z := 2.
Definition NICE_RANGE_POS : Z := 19.

Inductive CfsTaskClass : Type := Normal | Batch | Idle | RoundRobin | Fifo.
#[export] Instance CfsTaskClass_eq_dec : EqDecision CfsTaskClass.
Proof. solve_decision. Defined.

Definition class_code (c : CfsTaskClass) : Z :=
  match c with Normal => 0 | Batch => 1 | Idle => 2 | RoundRobin => 3 | Fifo => 4 end.

Record CfsTaskParams : Type := mkParams { class : CfsTaskClass; nice : Z; rt_priority : Z }.
#[export] Instance CfsTaskParams_eq_dec : EqDecision CfsTaskParams.
Proof. solve_decision. Defined.

Definition params_default : CfsTaskParams := mkParams Normal 0 0.

(** [is_realtime] *)
Definition is_realtime (p : CfsTaskParams) : bool :=
  match class p with RoundRobin | Fifo => true | _ => false end.

(** [validated] *)
Definition validated (p : CfsTaskParams) : option CfsTaskParams :=
  let p := match class p with
           | Idle => mkParams (class p) NICE_RANGE_POS 0
           | Normal | Batch => mkParams (class p) (nice p) 0
           | RoundRobin | Fifo => mkParams (class p) 0 (rt_priority p)
           end in
  let valid := if is_realtime p then (RT_PRIORITY_MIN <=? rt_priority p) && (rt_priority p <=? RT_PRIORITY_MAX)
               else (-20 <=? nice p) && (nice p <=? 19) in
  if valid then Some p else None.

(** [packed] and [from_packed]; a byte is read back as an [i8] *)
Definition packed (p : CfsTaskParams) : Z :=
  Z.lor (Z.lor (class_code (class p)) (Z.shiftl (nice p mod 256) 8)) (Z.shiftl (rt_priority p) 16).
Definition as_i8 (b : Z) : Z := if b <? 128 then b else b - 256.
Definition class_of_code (c : Z) : CfsTaskClass :=
  if c =? 1 then Batch else if c =? 2 then Idle else if c =? 3 then RoundRobin else if c =? 4 then Fifo else Normal.
Definition from_packed (value : Z) : CfsTaskParams :=
  default params_default (validated (mkParams
    (class_of_code (Z.land value 255))
    (as_i8 (Z.land (Z.shiftr value 8) 255))
    (Z.land (Z.shiftr value 16) 255))).

Definition NICE2WEIGHT_POS : list Z :=
  [1024; 820; 655; 526; 423; 335; 272; 215; 172; 137; 110; 87; 70; 56; 45; 36; 29; 23; 18; 15].
Definition NICE2WEIGHT_NEG : list Z :=
  [1024; 1277; 1586; 1991; 2501; 3121; 3906; 4904; 6100; 7620; 9548; 11916; 14949; 18705; 23254;
   29154; 36291; 46273; 56483; 71755; 88761].

Definition effective_nice (p : CfsTaskParams) : Z :=
  match class p with Idle => NICE_RANGE_POS | Normal | Batch => nice p | RoundRobin | Fifo => 0 end.
(** [weight_for]; [None] is an index out of range *)
Definition weight_for (p : CfsTaskParams) : option Z :=
  let n := effective_nice p in
  if 0 <=? n then NICE2WEIGHT_POS !! Z.to_nat n else NICE2WEIGHT_NEG !! Z.to_nat (- n).

Definition rt_priority_key (priority : Z) : Z := RT_PRIORITY_MAX - priority.

(** ** Tasks and schedulers *)

Record CFSTask : Type := mkTask {
  ready_class : Z; ready_order : Z; init_vruntime : Z; delta : Z; seeded_vruntime : bool; params : Z;
  rr_time_slice : Z; migration_vruntime_offset : Z; migration_vruntime_offset_valid : bool;
  task_id : Z; queue_owner : Z }.

(** [CFSTask::new] *)
Definition task_new : CFSTask :=
  mkTask 1 0 0 0 false (packed params_default) RR_TIMESLICE_TICKS 0 false 0 UNOWNED.

Definition with_owner (o : Z) (t : CFSTask) : CFSTask :=
  mkTask (ready_class t) (ready_order t) (init_vruntime t) (delta t) (seeded_vruntime t) (params t)
    (rr_time_slice t) (migration_vruntime_offset t) (migration_vruntime_offset_valid t) (task_id t) o.
Definition with_seeded (b : bool) (t : CFSTask) : CFSTask :=
  mkTask (ready_class t) (ready_order t) (init_vruntime t) (delta t) b (params t)
    (rr_time_slice t) (migration_vruntime_offset t) (migration_vruntime_offset_valid t) (task_id t) (queue_owner t).
Definition with_params (p : Z) (t : CFSTask) : CFSTask :=
  mkTask (ready_class t) (ready_order t) (init_vruntime t) (delta t) (seeded_vruntime t) p
    (rr_time_slice t) (migration_vruntime_offset t) (migration_vruntime_offset_valid t) (task_id t) (queue_owner t).
Definition with_slice (n : Z) (t : CFSTask) : CFSTask :=
  mkTask (ready_class t) (ready_order t) (init_vruntime t) (delta t) (seeded_vruntime t) (params t)
    n (migration_vruntime_offset t) (migration_vruntime_offset_valid t) (task_id t) (queue_owner t).
Definition with_offset (o : Z) (t : CFSTask) : CFSTask :=
  mkTask (ready_class t) (ready_order t) (init_vruntime t) (delta t) (seeded_vruntime t) (params t)
    (rr_time_slice t) o (migration_vruntime_offset_valid t) (task_id t) (queue_owner t).
Definition with_offset_valid (b : bool) (t : CFSTask) : CFSTask :=
  mkTask (ready_class t) (ready_order t) (init_vruntime t) (delta t) (seeded_vruntime t) (params t)
    (rr_time_slice t) (migration_vruntime_offset t) b (task_id t) (queue_owner t).
Definition with_vruntime (v d : Z) (t : CFSTask) : CFSTask :=
  mkTask (ready_class t) (ready_order t) v d (seeded_vruntime t) (params t)
    (rr_time_slice t) (migration_vruntime_offset t) (migration_vruntime_offset_valid t) (task_id t) (queue_owner t).
(** [stage_ready_key] *)
Definition stage_ready_key (c order sequence : Z) (t : CFSTask) : CFSTask :=
  mkTask c order (init_vruntime t) (delta t) (seeded_vruntime t) (params t)
    (rr_time_slice t) (migration_vruntime_offset t) (migration_vruntime_offset_valid t) sequence (queue_owner t).

(** [ready_key], [ready_is_rt], [load_sched_params], [rebase_vruntime] *)
Definition ready_key (t : CFSTask) : ReadyKey := (ready_class t, ready_order t, task_id t).
Definition ready_is_rt (t : CFSTask) : bool := ready_class t =? 0.
Definition load_sched_params (t : CFSTask) : CfsTaskParams := from_packed (params t).
Definition rebase_vruntime (v : Z) (t : CFSTask) : CFSTask := with_vruntime v 0 t.

(** [get_vruntime_with]; the division of [isize] truncates *)
Definition get_vruntime_with (t : CFSTask) (p : CfsTaskParams) : option Z :=
  weight ← weight_for p;
  Some (saturating_add_isize (init_vruntime t)
    (if weight =? 1024 then delta t else Z.quot (saturating_mul_isize (delta t) 1024) weight)).

Record CFScheduler : Type := mkScheduler {
  min_vruntime : option Z; sched_id : Z; fair_sequence : Z; rt_front_seq : Z; rt_back_seq : Z }.

(** [CFScheduler::new] *)
Definition new_scheduler : CFScheduler := mkScheduler None UNOWNED 0 0 0.

Definition with_min (m : option Z) (c : CFScheduler) : CFScheduler :=
  mkScheduler m (sched_id c) (fair_sequence c) (rt_front_seq c) (rt_back_seq c).
Definition with_id (i : Z) (c : CFScheduler) : CFScheduler :=
  mkScheduler (min_vruntime c) i (fair_sequence c) (rt_front_seq c) (rt_back_seq c).
Definition with_fair (n : Z) (c : CFScheduler) : CFScheduler :=
  mkScheduler (min_vruntime c) (sched_id c) n (rt_front_seq c) (rt_back_seq c).
Definition with_front (n : Z) (c : CFScheduler) : CFScheduler :=
  mkScheduler (min_vruntime c) (sched_id c) (fair_sequence c) n (rt_back_seq c).
Definition with_back (n : Z) (c : CFScheduler) : CFScheduler :=
  mkScheduler (min_vruntime c) (sched_id c) (fair_sequence c) (rt_front_seq c) n.

Inductive CfsEnqueueAction : Type := ActNew | ActWakeup | ExplicitYield | Requeue (preempt : bool) | ActMigrate.

Record CfsTaskReservation : Type := mkReservation {
  r_task : nat; r_scheduler_id : Z; r_sequence : Z; r_params : CfsTaskParams }.

Record CfsTaskStateSnapshot : Type := mkSnapshot {
  s_params : CfsTaskParams; s_ready_key : ReadyKey; s_init_vruntime : Z; s_delta : Z; s_seeded : bool; s_slice : Z }.

(** [snapshot_reconfiguration_state] and [restore_reconfiguration_state] *)
Definition snapshot_reconfiguration_state (t : CFSTask) : CfsTaskStateSnapshot :=
  mkSnapshot (load_sched_params t) (ready_key t) (init_vruntime t) (delta t) (seeded_vruntime t) (rr_time_slice t).
Definition restore_reconfiguration_state (s : CfsTaskStateSnapshot) (t : CFSTask) : CFSTask :=
  stage_ready_key (s_ready_key s).1.1 (s_ready_key s).1.2 (s_ready_key s).2
    (with_params (packed (s_params s))
      (with_slice (s_slice s) (with_seeded (s_seeded s) (with_vruntime (s_init_vruntime s) (s_delta s) t)))).

Section State.
Context {L : Type} `{ReadyTrees L}.

(** [rr_ticks] is the global [RR_TIMESLICE_TICKS_RUNTIME]. *)
Record Cfs : Type := mkCfs {
  trees : L; cfs_tasks : list CFSTask; schedulers : list CFScheduler; next_scheduler_id : Z; rr_ticks : Z }.

Definition set_trees (l : L) (s : Cfs) : Cfs :=
  mkCfs l (cfs_tasks s) (schedulers s) (next_scheduler_id s) (rr_ticks s).
Definition set_task (x : nat) (t : CFSTask) (s : Cfs) : Cfs :=
  mkCfs (trees s) (<[x := t]> (cfs_tasks s)) (schedulers s) (next_scheduler_id s) (rr_ticks s).
Definition set_sched (q : nat) (c : CFScheduler) (s : Cfs) : Cfs :=
  mkCfs (trees s) (cfs_tasks s) (<[q := c]> (schedulers s)) (next_scheduler_id s) (rr_ticks s).
Definition set_next_id (n : Z) (s : Cfs) : Cfs :=
  mkCfs (trees s) (cfs_tasks s) (schedulers s) n (rr_ticks s).
Definition set_ticks (n : Z) (s : Cfs) : Cfs :=
  mkCfs (trees s) (cfs_tasks s) (schedulers s) (next_scheduler_id s) n.

Definition cfs_boot : Cfs := mkCfs no_trees [] [] 1 RR_TIMESLICE_TICKS.

(** A new task, a new scheduler *)
Definition add_new_task (s : Cfs) : Cfs :=
  mkCfs (trees s) (cfs_tasks s ++ [task_new]) (schedulers s) (next_scheduler_id s) (rr_ticks s).
Definition add_new_scheduler (s : Cfs) : Cfs :=
  mkCfs (trees s) (cfs_tasks s) (schedulers s ++ [new_scheduler]) (next_scheduler_id s) (rr_ticks s).

(** The key adapter of the ready trees *)
Definition key_of (s : Cfs) (x : nat) : ReadyKey :=
  match cfs_tasks s !! x with Some t => ready_key t | None => (0, 0, 0) end.

Section Methods.
Context {E : Type}.
Local Abbreviation Op A := (M Cfs E A).

(** References are always valid: a missing task or scheduler would panic. *)
Definition task_at (x : nat) : Op CFSTask := s ← gets (fun s => s); expect (cfs_tasks s !! x).
Definition sched_at (q : nat) : Op CFScheduler := s ← gets (fun s => s); expect (schedulers s !! q).
Definition update_task (x : nat) (f : CFSTask -> CFSTask) : Op () := t ← task_at x; modify (set_task x (f t)).
Definition update_sched (q : nat) (f : CFScheduler -> CFScheduler) : Op () :=
  c ← sched_at q; modify (set_sched q (f c)).

(** [reset_rr_time_slice], and the vruntime of a task *)
Definition reset_rr_time_slice (x : nat) : Op () :=
  n ← gets rr_ticks; update_task x (with_slice (as_isize n)).
Definition vruntime_of (x : nat) (p : CfsTaskParams) : Op Z := t ← task_at x; expect (get_vruntime_with t p).
Definition sched_params (x : nat) : Op CfsTaskParams := t ← task_at x; mret (load_sched_params t).

(** [stage_migration_vruntime_offset], [take_migration_vruntime] *)
Definition stage_migration_vruntime_offset (x : nat) (source_floor : Z) : Op () :=
  p ← sched_params x;
  if is_realtime p then update_task x (with_offset_valid false)
  else
    v ← vruntime_of x p;
    update_task x (with_offset (saturating_sub_isize v source_floor));;
    update_task x (with_offset_valid true).
Definition take_migration_vruntime (x : nat) (destination_floor : Z) : Op Z :=
  t ← task_at x;
  update_task x (with_offset_valid false);;
  if migration_vruntime_offset_valid t then
    mret (saturating_add_isize destination_floor (migration_vruntime_offset t))
  else
    p ← sched_params x;
    v ← vruntime_of x p;
    mret (Z.max v destination_floor).

(** [task_tick_rr]: the slice before the tick *)
Definition task_tick_rr (x : nat) : Op Z :=
  t ← task_at x;
  let '(r, n) := try_update (fun slice => Some (saturating_sub_isize slice 1)) (rr_time_slice t) in
  update_task x (with_slice n);;
  mret (match r with Ok old => old | Err _ => 0 end).

(** [CFSTask::task_tick] *)
Definition task_tick_fair (x : nat) : Op () :=
  t ← task_at x;
  let '(_, n) := try_update (fun d => Some (saturating_add_isize d 1)) (delta t) in
  update_task x (with_vruntime (init_vruntime t) n).

(** [set_sched_params], which is [apply_validated] *)
Definition apply_validated (x : nat) (p : CfsTaskParams) : Op () :=
  current ← sched_params x;
  v ← vruntime_of x current;
  update_task x (rebase_vruntime v);;
  (if is_realtime p then reset_rr_time_slice x else update_task x (with_slice 0));;
  update_task x (with_params (packed p)).

(** [queue_floor], [min_ready_vruntime], [refresh_min_vruntime] *)
Definition queue_floor (q : nat) : Op Z := c ← sched_at q; mret (default 0 (min_vruntime c)).
Definition min_ready_vruntime (q : nat) : Op (option Z) :=
  s ← gets (fun s => s);
  match tree_get (tree_lower_bound (key_of s) q (1, isize_MIN, isize_MIN) (trees s)) (trees s) with
  | None => mret None
  | Some x => t ← task_at x; mret (if ready_is_rt t then None else Some (ready_order t))
  end.
Definition refresh_min_vruntime (q : nat) (current_vruntime : option Z) : Op () :=
  ready ← min_ready_vruntime q;
  let candidate := match current_vruntime, ready with
                   | Some current, Some ready => Some (Z.min current ready)
                   | Some current, None => Some current
                   | None, Some ready => Some ready
                   | None, None => None
                   end in
  update_sched q (fun c => with_min
    match min_vruntime c, candidate with
    | _, None => None
    | Some old, Some new => Some (Z.max old new)
    | None, Some new => Some new
    end c).

(** [wakeup_floor] *)
Definition wakeup_floor (q : nat) (p : CfsTaskParams) : Op Z :=
  floor ← queue_floor q;
  mret match class p with
       | Normal => saturating_add_isize floor FAIR_PREEMPT_GRANULARITY_TICKS
       | Batch => saturating_add_isize floor (FAIR_PREEMPT_GRANULARITY_TICKS + 1)
       | Idle => saturating_add_isize floor (FAIR_PREEMPT_GRANULARITY_TICKS + 2)
       | RoundRobin | Fifo => floor
       end.

(** [ready_queue.insert] *)
Definition link_task (q x : nat) : Op () := modify (fun s => set_trees (tree_insert (key_of s) q x (trees s)) s).

(** [has_ready_rt_with_higher_priority], [has_ready_rt_with_same_priority] *)
Definition front_task (q : nat) : Op (option CFSTask) :=
  s ← gets (fun s => s);
  match tree_get (tree_front q (trees s)) (trees s) with
  | None => mret None
  | Some x => t ← task_at x; mret (Some t)
  end.
Definition has_ready_rt_with_higher_priority (q : nat) (current_priority : Z) : Op bool :=
  front ← front_task q;
  mret match front with
       | Some t => ready_is_rt t && (ready_order t <? rt_priority_key current_priority)
       | None => false
       end.
Definition has_ready_rt_with_same_priority (q : nat) (current_priority : Z) : Op bool :=
  let key := rt_priority_key current_priority in
  s ← gets (fun s => s);
  match tree_get (tree_lower_bound (key_of s) q (0, key, isize_MIN) (trees s)) (trees s) with
  | None => mret false
  | Some x => t ← task_at x; mret (ready_is_rt t && (ready_order t =? key))
  end.

(** A release whose result is ignored ([let _ = ..]). *)
Definition release_owner (x : nat) (from to : Z) : Op () :=
  t ← task_at x;
  if queue_owner t =? from then update_task x (with_owner to) else mret tt.

End Methods.

Local Abbreviation Op A := (M Cfs SchedulerError A).

(** A claim dropped by an early return. *)
Definition on_error {A} (m : Op A) (cleanup : Op ()) : Op A := fun s =>
  match m s with
  | Fail e s => match cleanup s with Done _ s => Fail e s | Fail _ s => Fail e s | Panic => Panic | Diverged => Diverged end
  | o => o
  end.

(** ** Ownership *)

(** [claim], [transfer_owner] *)
Definition claim (x : nat) (scheduler_id : Z) : Op () :=
  t ← task_at x;
  if queue_owner t =? UNOWNED then update_task x (with_owner scheduler_id)
  else if queue_owner t =? scheduler_id then throw AlreadyQueued
  else if queue_owner t =? CONFIGURING then throw TaskBusy
  else throw ForeignQueue.
Definition transfer_owner (x : nat) (from to : Z) : Op () :=
  t ← task_at x;
  if queue_owner t =? from then update_task x (with_owner to) else throw InconsistentState.

(** [claim_configuration], and the end of a configuration *)
Definition claim_configuration (x : nat) : Op () :=
  t ← task_at x;
  if queue_owner t =? UNOWNED then update_task x (with_owner CONFIGURING)
  else throw (if queue_owner t =? CONFIGURING then TaskBusy else AlreadyQueued).
Definition drop_configuration (x : nat) : Op () := release_owner x CONFIGURING UNOWNED.
Definition finish_configuration (x : nat) : Op () := transfer_owner x CONFIGURING UNOWNED.

(** [configure], [configure_nice], [inherit_fair_vruntime_from] *)
Definition configure (x : nat) (p : CfsTaskParams) : Op () :=
  p ← some_or (validated p) InvalidParameters;
  claim_configuration x;;
  apply_validated x p;;
  finish_configuration x.
Definition configure_nice (x : nat) (n : Z) : Op () :=
  claim_configuration x;;
  on_error
    (current ← sched_params x;
     if is_realtime current then throw IncompatibleClass
     else
       next ← expect (validated (mkParams (class current) n 0));
       apply_validated x next)
    (drop_configuration x);;
  finish_configuration x.
Definition inherit_fair_vruntime_from (x parent : nat) : Op () :=
  claim_configuration x;;
  on_error
    (child_params ← sched_params x;
     parent_params ← sched_params parent;
     if is_realtime child_params || is_realtime parent_params then throw IncompatibleClass
     else
       v ← vruntime_of parent parent_params;
       update_task x (rebase_vruntime (saturating_add_isize v FAIR_PREEMPT_GRANULARITY_TICKS));;
       update_task x (with_seeded true))
    (drop_configuration x);;
  finish_configuration x.

(** ** Schedulers *)

(** [allocate_scheduler_id], [ensure_id] *)
Definition allocate_scheduler_id : Op Z :=
  n ← gets next_scheduler_id;
  let '(r, n') := try_update (fun current => checked_add_usize current 1) n in
  modify (set_next_id n');;
  lift (map_err (fun _ => IdentifierExhausted) r).
Definition ensure_id (q : nat) : Op Z :=
  c ← sched_at q;
  (if sched_id c =? UNOWNED then i ← allocate_scheduler_id; update_sched q (with_id i) else mret tt);;
  c ← sched_at q; mret (sched_id c).

(** [next_fair_sequence], [next_rt_seq] *)
Definition next_fair_sequence (q : nat) : Op Z :=
  c ← sched_at q;
  next ← some_or (checked_add_isize (fair_sequence c) 1) SequenceExhausted;
  update_sched q (with_fair next);;
  mret (fair_sequence c).
Definition next_rt_seq (q : nat) (front : bool) : Op Z :=
  c ← sched_at q;
  if front then
    next ← some_or (checked_sub_isize (rt_front_seq c) 1) SequenceExhausted;
    update_sched q (with_front next);;
    mret next
  else
    next ← some_or (checked_add_isize (rt_back_seq c) 1) SequenceExhausted;
    update_sched q (with_back next);;
    mret (rt_back_seq c).

(** [claim_enqueue_task] *)
Definition claim_enqueue_task (q x : nat) : Op Z := i ← ensure_id q; claim x i;; mret i.

(** The real-time branch of [enqueue_with_action]: whether the task goes to the
    front of its priority, and whether its slice starts afresh *)
Definition rt_placement (c : CfsTaskClass) (action : CfsEnqueueAction) (slice : Z) : bool * bool :=
  match c with
  | RoundRobin =>
      match action with
      | Requeue true => if 0 <? slice then (true, false) else (false, true)
      | ActMigrate => if 0 <? slice then (false, false) else (false, true)
      | _ => (false, true)
      end
  | _ => (match action with Requeue true => true | _ => false end, false)
  end.

(** The vruntime with which a fair task enters *)
Definition enqueue_vruntime (q x : nat) (action : CfsEnqueueAction) (p : CfsTaskParams) : Op Z :=
  match action with
  | ActNew =>
      t ← task_at x;
      if seeded_vruntime t then v ← vruntime_of x p; floor ← queue_floor q; mret (Z.max v floor)
      else queue_floor q
  | ActWakeup => v ← vruntime_of x p; floor ← wakeup_floor q p; mret (Z.max v floor)
  | ExplicitYield =>
      ready ← min_ready_vruntime q;
      floor ← match ready with Some v => mret v | None => queue_floor q end;
      v ← vruntime_of x p;
      mret (Z.max v (saturating_add_isize floor FAIR_PREEMPT_GRANULARITY_TICKS))
  | Requeue _ => vruntime_of x p
  | ActMigrate => floor ← queue_floor q; take_migration_vruntime x floor
  end.

(** [enqueue_with_action] *)
Definition enqueue_with_action (q x : nat) (action : CfsEnqueueAction) : Op () :=
  scheduler_id ← claim_enqueue_task q x;
  on_error
    (p ← sched_params x;
     if is_realtime p then
       t ← task_at x;
       let '(front, reset_rr) := rt_placement (class p) action (rr_time_slice t) in
       sequence ← next_rt_seq q front;
       update_task x (with_offset_valid false);;
       (if reset_rr : bool then reset_rr_time_slice x else mret tt);;
       update_task x (stage_ready_key 0 (rt_priority_key (rt_priority p)) sequence);;
       link_task q x
     else
       sequence ← next_fair_sequence q;
       v ← enqueue_vruntime q x action p;
       match action with ActNew => update_task x (with_seeded false) | _ => mret tt end;;
       match action with ActMigrate => mret tt | _ => update_task x (with_offset_valid false) end;;
       update_task x (rebase_vruntime v);;
       update_task x (stage_ready_key 1 v sequence);;
       link_task q x;;
       refresh_min_vruntime q None)
    (release_owner x scheduler_id UNOWNED).

(** ** Reservations *)

(** [reserve_new_task] *)
Definition reserve_new_task (q x : nat) : Op CfsTaskReservation :=
  scheduler_id ← ensure_id q;
  t ← task_at x;
  (if queue_owner t =? UNOWNED then update_task x (with_owner CONFIGURING)
   else throw (if queue_owner t =? CONFIGURING then TaskBusy
               else if queue_owner t =? scheduler_id then AlreadyQueued else ForeignQueue));;
  p ← sched_params x;
  sequence ← on_error (if is_realtime p then next_rt_seq q false else next_fair_sequence q)
               (release_owner x CONFIGURING UNOWNED);
  mret (mkReservation x scheduler_id sequence p).

(** [commit_reserved_task]; its error retains the reservation *)
Definition commit_reserved_task (q : nat) (r : CfsTaskReservation)
    : M Cfs (SchedulerError * CfsTaskReservation) nat :=
  c ← sched_at q;
  if negb (r_scheduler_id r =? sched_id c) then throw (ForeignQueue, r)
  else
    let x := r_task r in
    t ← task_at x;
    if negb (queue_owner t =? CONFIGURING) || bool_decide (load_sched_params t <> r_params r)
    then throw (InconsistentState, r)
    else
      with_err (fun _ => (InconsistentState, r)) (transfer_owner x CONFIGURING (sched_id c));;
      let p := r_params r in
      (if is_realtime p then
         (if bool_decide (class p = RoundRobin) then reset_rr_time_slice x else mret tt);;
         update_task x (stage_ready_key 0 (rt_priority_key (rt_priority p)) (r_sequence r))
       else
         t ← task_at x;
         floor ← queue_floor q;
         v ← (if seeded_vruntime t then v ← vruntime_of x p; mret (Z.max v floor) else mret floor);
         update_task x (with_seeded false);;
         update_task x (rebase_vruntime v);;
         update_task x (stage_ready_key 1 v (r_sequence r)));;
      link_task q x;;
      (if is_realtime p then mret tt else refresh_min_vruntime q None);;
      mret x.

(** [CfsTaskReservation::cancel] and its drop *)
Definition cancel_reservation (r : CfsTaskReservation) : Op nat :=
  t ← task_at (r_task r);
  if queue_owner t =? CONFIGURING then update_task (r_task r) (with_owner UNOWNED);; mret (r_task r) else panic.
Definition drop_reservation (r : CfsTaskReservation) : Op () := release_owner (r_task r) CONFIGURING UNOWNED.

(** ** Removal *)

(** The cursor loop of [remove_owned_task]; [fuel] bounds the visited tasks *)
Fixpoint find_task (fuel : nat) (key : ReadyKey) (x : nat) (c : tree_cursor) : Op tree_cursor :=
  match fuel with
  | O => diverge
  | S fuel =>
      s ← gets (fun s => s);
      match tree_get c (trees s) with
      | None => throw InconsistentState
      | Some found =>
          if bool_decide (key_of s found <> key) then throw InconsistentState
          else if bool_decide (found = x) then mret c
          else find_task fuel key x (tree_next c (trees s))
      end
  end.

(** [remove_owned_task] *)
Definition remove_owned_task (q x : nat) (next_owner : Z) (preserve : bool) : Op (option nat) :=
  t ← task_at x;
  c ← sched_at q;
  if queue_owner t =? UNOWNED then mret None
  else if queue_owner t =? CONFIGURING then throw TaskBusy
  else if negb (queue_owner t =? sched_id c) || (sched_id c =? UNOWNED) then throw ForeignQueue
  else
    let key := ready_key t in
    s ← gets (fun s => s);
    floor ← queue_floor q;
    cursor ← find_task (S (length (cfs_tasks s))) key x (tree_lower_bound (key_of s) q key (trees s));
    (if preserve then stage_migration_vruntime_offset x floor else mret tt);;
    s ← gets (fun s => s);
    let '(removed, l) := tree_remove cursor (trees s) in
    match removed with
    | None =>
        (if preserve then update_task x (with_offset_valid false) else mret tt);;
        throw InconsistentState
    | Some removed =>
        modify (set_trees l);;
        transfer_owner removed (sched_id c) next_owner;;
        (if key.1.1 =? 0 then mret tt else refresh_min_vruntime q None);;
        mret (Some removed)
    end.

Definition remove_task (q x : nat) : Op (option nat) := remove_owned_task q x UNOWNED false.
Definition remove_task_for_migration (q x : nat) : Op (option nat) := remove_owned_task q x UNOWNED true.

(** [deactivate_task] *)
Definition deactivate_task (q x : nat) (reason : DeactivateReason) : Op () :=
  match reason with
  | MigrateAway => floor ← queue_floor q; stage_migration_vruntime_offset x floor
  | Sleep | Exit => update_task x (with_offset_valid false)
  end.

(** ** Reconfiguration *)

(** [reinsert_reconfigured] *)
Definition reinsert_reconfigured (q x : nat) (p : CfsTaskParams) : Op () :=
  scheduler_id ← ensure_id q;
  sequence ← (if is_realtime p then next_rt_seq q false else next_fair_sequence q);
  (if is_realtime p then update_task x (stage_ready_key 0 (rt_priority_key (rt_priority p)) sequence)
   else v ← vruntime_of x p; update_task x (stage_ready_key 1 v sequence));;
  transfer_owner x CONFIGURING scheduler_id;;
  link_task q x;;
  if is_realtime p then mret tt else refresh_min_vruntime q None.

(** [restore_reconfigured]; a failed transfer panics *)
Definition restore_reconfigured (q x : nat) (snapshot : CfsTaskStateSnapshot) (m : option Z) : Op () :=
  update_task x (restore_reconfiguration_state snapshot);;
  c ← sched_at q;
  t ← task_at x;
  (if queue_owner t =? CONFIGURING then update_task x (with_owner (sched_id c)) else panic);;
  link_task q x;;
  update_sched q (with_min m).

(** [set_task_params] *)
Definition set_task_params (q x : nat) (p : CfsTaskParams) : Op () :=
  p ← some_or (validated p) InvalidParameters;
  t ← task_at x;
  c ← sched_at q;
  if queue_owner t =? UNOWNED then configure x p
  else if queue_owner t =? CONFIGURING then throw TaskBusy
  else if negb (queue_owner t =? sched_id c) || (sched_id c =? UNOWNED) then throw ForeignQueue
  else
    let previous := snapshot_reconfiguration_state t in
    let previous_min_vruntime := min_vruntime c in
    removed ← remove_owned_task q x CONFIGURING false;
    queued ← some_or removed InconsistentState;
    apply_validated queued p;;
    on_error (reinsert_reconfigured q queued p) (restore_reconfigured q queued previous previous_min_vruntime).

(** [set_priority] *)
Definition set_priority (q x : nat) (prio : Z) : Op () :=
  if negb ((-20 <=? prio) && (prio <=? 19)) then throw InvalidParameters
  else
    t ← task_at x;
    c ← sched_at q;
    if queue_owner t =? UNOWNED then configure_nice x prio
    else if queue_owner t =? CONFIGURING then throw TaskBusy
    else if negb (queue_owner t =? sched_id c) || (sched_id c =? UNOWNED) then throw ForeignQueue
    else
      current ← sched_params x;
      if is_realtime current then throw IncompatibleClass
      else set_task_params q x (mkParams (class current) prio 0).

(** ** The trait *)

Definition add_task (q x : nat) : Op () := enqueue_with_action q x ActNew.
Definition put_prev_task (q x : nat) (preempt : bool) : Op () := enqueue_with_action q x (Requeue preempt).
Definition enqueue_action (reason : EnqueueReason) : CfsEnqueueAction :=
  match reason with
  | New => ActNew
  | Wakeup => ActWakeup
  | Yield => ExplicitYield
  | Preempt => Requeue true
  | Migrate => ActMigrate
  end.
Definition enqueue_task (q x : nat) (reason : EnqueueReason) : Op () := enqueue_with_action q x (enqueue_action reason).

(** The removal of the front task, as in [pick_next_task] and in [Drop]; a
    failed transfer panics *)
Definition take_front (q : nat) : Op (option nat) :=
  s ← gets (fun s => s);
  let '(removed, l) := tree_remove (tree_front q (trees s)) (trees s) in
  modify (set_trees l);;
  match removed with
  | None => mret None
  | Some x =>
      c ← sched_at q;
      t ← task_at x;
      if queue_owner t =? sched_id c then update_task x (with_owner UNOWNED);; mret (Some x) else panic
  end.

(** [pick_next_task] *)
Definition pick_next_task (q : nat) : Op (option nat) :=
  next ← take_front q;
  match next with
  | None => refresh_min_vruntime q None
  | Some x =>
      t ← task_at x;
      if ready_is_rt t then mret tt else refresh_min_vruntime q (Some (ready_order t))
  end;;
  mret next.

(** [task_tick] *)
Definition task_tick (q x : nat) : Op bool :=
  p ← sched_params x;
  if is_realtime p then
    higher ← has_ready_rt_with_higher_priority q (rt_priority p);
    if higher : bool then mret true
    else if bool_decide (class p = Fifo) then mret false
    else
      old_slice ← task_tick_rr x;
      if old_slice <=? 1 then
        same ← has_ready_rt_with_same_priority q (rt_priority p);
        if same : bool then mret true else reset_rr_time_slice x;; mret false
      else mret false
  else
    front ← front_task q;
    if match front with Some t => ready_is_rt t | None => false end then mret true
    else
      task_tick_fair x;;
      v ← vruntime_of x p;
      refresh_min_vruntime q (Some v);;
      ready ← min_ready_vruntime q;
      mret match ready with
           | Some ready_min => saturating_add_isize ready_min FAIR_PREEMPT_GRANULARITY_TICKS <? v
           | None => false
           end.

(** The default [account_runtime]: one tick per whole period *)
Fixpoint account_periods (periods : nat) (q x : nat) (reschedule : bool) : Op bool :=
  match periods with
  | O => mret reschedule
  | S periods => r ← task_tick q x; account_periods periods q x (reschedule || r)
  end.
Definition account_runtime (q x : nat) (d : RuntimeDelta) : Op bool :=
  account_periods (Z.to_nat (RuntimeDelta.whole_periods d)) q x false.

(** [Drop for CFScheduler]; [fuel] bounds the drained tasks *)
Fixpoint drain (fuel : nat) (q : nat) : Op () :=
  match fuel with
  | O => diverge
  | S fuel => x ← take_front q; match x with None => mret tt | Some _ => drain fuel q end
  end.
Definition drop_scheduler (q : nat) : Op () := s ← gets (fun s => s); drain (S (length (cfs_tasks s))) q.

(** [set_rr_timeslice_ticks] *)
Definition set_rr_timeslice_ticks (ticks : Z) : Op bool :=
  if ticks =? 0 then mret false else modify (set_ticks ticks);; mret true.

End State.

Arguments Cfs : clear implicits.
