(* ===== verification/CfsSpec.v ===== *)
(** The completely fair scheduler, part 2: parameters and virtual time; the
    invariant that ties owner words, ready trees, ordering sequences and live
    reservations together; what the parts of each operation do, as equations on
    their outcomes; and the steps that keep the invariant: linking, unlinking
    and changing a task, naming a scheduler, taking a sequence number. *)

From S2P Require Import Prelude Effects ReadyTree Sched Cfs Atomics.
Local Open Scope Z_scope.

(** ** Parameters *)

Lemma saturate_range z : in_isize (saturate z).
Proof. unfold in_isize, saturate, isize_MIN, isize_MAX. lia. Qed.
Lemma saturate_id z : in_isize z -> saturate z = z.
Proof. unfold in_isize, saturate, isize_MIN, isize_MAX. lia. Qed.

Definition params_valid (p : CfsTaskParams) : Prop := validated p = Some p.

Lemma validated_valid p p' : validated p = Some p' -> params_valid p'.
Proof.
  unfold params_valid, validated, is_realtime. destruct p as [c n r]. cbn [class nice rt_priority].
  destruct c; cbn -[Z.leb]; match goal with |- context [if ?b then Some _ else None] => destruct b eqn:Hb end;
    try done; intros [= <-]; cbn -[Z.leb]; by rewrite Hb.
Qed.

Lemma params_valid_bounds p : params_valid p ->
  -20 <= nice p <= 19 /\ 0 <= rt_priority p <= 255 /\ (is_realtime p = true -> 1 <= rt_priority p).
Proof.
  unfold params_valid, validated, is_realtime. destruct p as [c n r]. cbn [class nice rt_priority]. unfold NICE_RANGE_POS.
  destruct c; cbn -[Z.leb]; match goal with |- context [if ?b then Some _ else None] => destruct b eqn:Hb end;
    try done; intros [=]; subst; try (apply andb_true_iff in Hb as [?%Z.leb_le ?%Z.leb_le]);
    unfold RT_PRIORITY_MIN, RT_PRIORITY_MAX, u8_MAX in *; lia.
Qed.

Lemma lor_shifted n a b : 0 <= n -> 0 <= a < 2 ^ n -> Z.lor a (Z.shiftl b n) = a + b * 2 ^ n.
Proof.
  intros Hn Ha. pose proof (Z.add_lor_land a (Z.shiftl b n)) as H.
  assert (Z.land a (Z.shiftl b n) = 0) as E.
  { apply Z.bits_inj'. intros k Hk. rewrite Z.land_spec, Z.bits_0. destruct (Z.lt_ge_cases k n).
    - rewrite Z.shiftl_spec_low by lia. apply andb_false_r.
    - rewrite (small_high_bits n a) by lia. done. }
  rewrite Z.shiftl_mul_pow2 in * by lia. lia.
Qed.

Lemma byte_of a b c : 0 <= a < 256 -> 0 <= b < 256 -> 0 <= c < 256 ->
  let v := Z.lor (Z.lor a (Z.shiftl b 8)) (Z.shiftl c 16) in
  Z.land v 255 = a /\ Z.land (Z.shiftr v 8) 255 = b /\ Z.land (Z.shiftr v 16) 255 = c.
Proof.
  intros Ha Hb Hc v. assert (v = a + b * 2 ^ 8 + c * 2 ^ 16) as ->.
  { unfold v. rewrite (lor_shifted 8 a b), lor_shifted by lia. done. }
  change 255 with (Z.ones 8). rewrite !Z.shiftr_div_pow2, !Z.land_ones by lia. split_and!.
  - replace (a + b * 2 ^ 8 + c * 2 ^ 16) with (a + (b + c * 2 ^ 8) * 2 ^ 8) by lia. rewrite Z_mod_plus_full. by apply Z.mod_small.
  - replace (a + b * 2 ^ 8 + c * 2 ^ 16) with (a + (b + c * 2 ^ 8) * 2 ^ 8) by lia.
    rewrite Z_div_plus_full, (Z.div_small a) by lia. rewrite Z.add_0_l, Z_mod_plus_full. by apply Z.mod_small.
  - replace (a + b * 2 ^ 8 + c * 2 ^ 16) with ((a + b * 2 ^ 8) + c * 2 ^ 16) by lia.
    rewrite Z_div_plus_full, (Z.div_small (a + b * 2 ^ 8)) by lia. by apply Z.mod_small.
Qed.

Lemma as_i8_roundtrip n : -128 <= n <= 127 -> as_i8 (n mod 256) = n.
Proof.
  intros Hn. unfold as_i8. destruct (Z.leb_spec 0 n).
  - rewrite Z.mod_small by lia. rewrite (proj2 (Z.ltb_lt _ _)) by lia. done.
  - rewrite <- (Z_mod_plus_full n 1 256), Z.mod_small by lia. rewrite (proj2 (Z.ltb_ge _ _)) by lia. lia.
Qed.

Lemma from_packed_packed p : params_valid p -> from_packed (packed p) = p.
Proof.
  intros Hp. pose proof (params_valid_bounds p Hp) as (Hn & Hr & _). unfold from_packed, packed.
  destruct (byte_of (class_code (class p)) (nice p mod 256) (rt_priority p)) as (-> & -> & ->).
  - destruct (class p); cbn; lia.
  - by apply Z.mod_pos_bound.
  - lia.
  - rewrite as_i8_roundtrip by lia. destruct p as [c n r]. cbn [class nice rt_priority] in *.
    replace (class_of_code (class_code c)) with c by (by destruct c). by rewrite Hp.
Qed.

Lemma weight_valid p : params_valid p -> exists w, weight_for p = Some w /\ 15 <= w <= 88761.
Proof.
  intros Hp. pose proof (params_valid_bounds p Hp) as (Hn & _). unfold weight_for.
  assert (-20 <= effective_nice p <= 19) as He.
  { unfold effective_nice, NICE_RANGE_POS. destruct (class p); lia. }
  assert (Forall (fun w => 15 <= w <= 88761) NICE2WEIGHT_POS) as Hpos by (by repeat constructor).
  assert (Forall (fun w => 15 <= w <= 88761) NICE2WEIGHT_NEG) as Hneg by (by repeat constructor).
  destruct (Z.leb_spec 0 (effective_nice p)).
  - destruct (lookup_lt_is_Some_2 NICE2WEIGHT_POS (Z.to_nat (effective_nice p))) as [w Hw]; [cbn; lia|].
    exists w. split; [done|]. by eapply Forall_lookup_1 in Hpos.
  - destruct (lookup_lt_is_Some_2 NICE2WEIGHT_NEG (Z.to_nat (- effective_nice p))) as [w Hw]; [cbn; lia|].
    exists w. split; [done|]. by eapply Forall_lookup_1 in Hneg.
Qed.

Lemma vruntime_valid t p : params_valid p -> exists v, get_vruntime_with t p = Some v /\ in_isize v.
Proof.
  intros Hp. destruct (weight_valid p Hp) as (w & Hw & _). unfold get_vruntime_with. rewrite Hw. cbn.
  eexists. split; [done|]. apply saturate_range.
Qed.

(** A rebased task has exactly the vruntime it was rebased to, whatever its
    weight. *)
Lemma vruntime_rebased v t p : params_valid p -> in_isize v -> get_vruntime_with (rebase_vruntime v t) p = Some v.
Proof.
  intros Hp Hv. destruct (weight_valid p Hp) as (w & Hw & Hb). unfold get_vruntime_with. rewrite Hw. cbn.
  assert ((if w =? 1024 then 0 else Z.quot (saturating_mul_isize 0 1024) w) = 0) as ->.
  { destruct (w =? 1024); [done|]. change (saturating_mul_isize 0 1024) with 0. by rewrite Z.quot_0_l by lia. }
  unfold saturating_add_isize. rewrite Z.add_0_r. by rewrite saturate_id.
Qed.

(** ** The invariant *)

(** The ordering sequences a scheduler has given out. *)
Definition issued (c : CFScheduler) (realtime : bool) (n : Z) : Prop :=
  if realtime then rt_front_seq c <= n < rt_back_seq c else 0 <= n < fair_sequence c.

Record sched_ok (c : CFScheduler) : Prop := {
  ok_fair : 0 <= fair_sequence c <= isize_MAX;
  ok_front : isize_MIN <= rt_front_seq c <= 0;
  ok_back : 0 <= rt_back_seq c <= isize_MAX;
  ok_min : forall m, min_vruntime c = Some m -> in_isize m }.

(** The class of a valid task is that of its packed parameters. *)
Record task_ok (t : CFSTask) : Prop := {
  ok_params : params_valid (load_sched_params t) /\ params t = packed (load_sched_params t);
  ok_init : in_isize (init_vruntime t);
  ok_order : in_isize (ready_order t);
  ok_offset : in_isize (migration_vruntime_offset t) }.

(** The key of a queued task agrees with its parameters. *)
Definition queued_ok (c : CFScheduler) (t : CFSTask) : Prop :=
  let p := load_sched_params t in
  issued c (is_realtime p) (task_id t) /\
  if is_realtime p then ready_class t = 0 /\ ready_order t = rt_priority_key (rt_priority p)
  else ready_class t = 1.

Section Invariant.
Context {L : Type} `{ReadyTreeLaws L}.
Local Abbreviation Cfs := (Cfs L).
Implicit Types (s : Cfs) (q x y : nat) (t : CFSTask) (c : CFScheduler) (r : CfsTaskReservation).

Definition linked s q : list nat := members (trees s) q.

(** [rs] are the reservations that clients hold; [None] is a used-up one. *)
Abbreviation live rs k r := ((rs : list (option CfsTaskReservation)) !! (k : nat) = Some (Some r)).

Record reservations_ok (rs : list (option CfsTaskReservation)) s : Prop := {
  res_task k r : live rs k r -> exists t, cfs_tasks s !! r_task r = Some t /\
    queue_owner t = CONFIGURING /\ load_sched_params t = r_params r;
  res_id k r : live rs k r -> 0 < r_scheduler_id r < next_scheduler_id s;
  res_issued k r q c : live rs k r -> schedulers s !! q = Some c -> sched_id c = r_scheduler_id r ->
    issued c (is_realtime (r_params r)) (r_sequence r);
  res_unlinked k r q c y t : live rs k r -> schedulers s !! q = Some c -> sched_id c = r_scheduler_id r ->
    y ∈ linked s q -> cfs_tasks s !! y = Some t ->
    is_realtime (load_sched_params t) = is_realtime (r_params r) -> task_id t <> r_sequence r;
  res_distinct j k r r' : live rs j r -> live rs k r' -> j <> k ->
    r_task r <> r_task r' /\
    (r_scheduler_id r = r_scheduler_id r' -> is_realtime (r_params r) = is_realtime (r_params r') ->
     r_sequence r <> r_sequence r') }.

Record cfs_wf (rs : list (option CfsTaskReservation)) s : Prop := {
  wf_next : 1 <= next_scheduler_id s <= usize_MAX;
  wf_id q c : schedulers s !! q = Some c -> 0 <= sched_id c < next_scheduler_id s;
  wf_ids q q' c c' : schedulers s !! q = Some c -> schedulers s !! q' = Some c' ->
    sched_id c = sched_id c' -> sched_id c <> UNOWNED -> q = q';
  wf_sched q c : schedulers s !! q = Some c -> sched_ok c;
  wf_linked q x : x ∈ linked s q -> exists c t, schedulers s !! q = Some c /\ sched_id c <> UNOWNED /\
    cfs_tasks s !! x = Some t /\ queue_owner t = sched_id c /\ queued_ok c t;
  wf_owned x t : cfs_tasks s !! x = Some t ->
    queue_owner t = UNOWNED \/ queue_owner t = CONFIGURING \/ exists q, x ∈ linked s q;
  wf_sorted q : in_order (key_of s) (linked s q);
  wf_task x t : cfs_tasks s !! x = Some t -> task_ok t;
  wf_reservations : reservations_ok rs s }.

(** ** Consequences *)

Lemma cfs_linked_once rs s q q' x : cfs_wf rs s -> x ∈ linked s q -> x ∈ linked s q' -> q = q'.
Proof.
  intros Hwf (c & t & Hc & Hn & Ht & Ho & _)%(wf_linked _ _ Hwf) (c' & t' & Hc' & _ & Ht' & Ho' & _)%(wf_linked _ _ Hwf).
  apply (wf_ids _ _ Hwf q q' c c'); congruence.
Qed.

Lemma owner_not_configuring rs s q c : cfs_wf rs s -> schedulers s !! q = Some c -> sched_id c <> CONFIGURING.
Proof.
  intros Hwf Hc. pose proof (wf_id _ _ Hwf q c Hc). pose proof (wf_next _ _ Hwf). unfold CONFIGURING. lia.
Qed.

(** A task whose owner word is not the name of a scheduler is in no queue. *)
Lemma unowned_unlinked rs s x t : cfs_wf rs s -> cfs_tasks s !! x = Some t ->
  queue_owner t = UNOWNED \/ queue_owner t = CONFIGURING -> forall q, x ∉ linked s q.
Proof.
  intros Hwf Ht Ho q (c & t' & Hc & Hn & Ht' & Ho' & _)%(wf_linked _ _ Hwf).
  pose proof (owner_not_configuring rs s q c Hwf Hc). simplify_eq. destruct Ho; congruence.
Qed.

(** The owner word of a task, as a scheduler reads it. *)
Lemma owner_cases rs s q x c t :
  cfs_wf rs s -> schedulers s !! q = Some c -> cfs_tasks s !! x = Some t ->
  queue_owner t = UNOWNED \/ queue_owner t = CONFIGURING \/
  (queue_owner t = sched_id c /\ sched_id c <> UNOWNED /\ x ∈ linked s q) \/
  (queue_owner t <> UNOWNED /\ queue_owner t <> CONFIGURING /\ queue_owner t <> sched_id c /\
   exists q', q' <> q /\ x ∈ linked s q').
Proof.
  intros Hwf Hc Ht. destruct (wf_owned _ _ Hwf x t Ht) as [?|[?|[q' Hx]]]; [auto..|].
  destruct (wf_linked _ _ Hwf q' x Hx) as (c' & t' & Hc' & Hn & Ht' & Ho & _). simplify_eq.
  pose proof (owner_not_configuring rs s q' c' Hwf Hc'). right. right.
  destruct (decide (q' = q)) as [->|Hne]; [left; simplify_eq; by rewrite Ho|]. right.
  split_and!; [congruence..| |by exists q']. intros Heq. apply Hne.
  apply (wf_ids _ _ Hwf q' q c' c); congruence.
Qed.

Lemma key_of_task s x t : cfs_tasks s !! x = Some t -> key_of s x = ready_key t.
Proof. intros Ht. unfold key_of. by rewrite Ht. Qed.

Lemma linked_task rs s q x : cfs_wf rs s -> x ∈ linked s q ->
  exists c t, schedulers s !! q = Some c /\ cfs_tasks s !! x = Some t /\ queued_ok c t /\ task_ok t.
Proof.
  intros Hwf Hx. destruct (wf_linked _ _ Hwf q x Hx) as (c & t & Hc & _ & Ht & _ & Hq). exists c, t.
  split_and!; try done. by apply (wf_task _ _ Hwf x).
Qed.

(** ** Changes of one task and one scheduler *)

(** The counters of a scheduler only grow apart. *)
Definition grows c c' : Prop :=
  sched_id c' = sched_id c /\ fair_sequence c <= fair_sequence c' /\
  rt_front_seq c' <= rt_front_seq c /\ rt_back_seq c <= rt_back_seq c'.

Lemma issued_grows c c' b n : grows c c' -> issued c b n -> issued c' b n.
Proof. unfold grows, issued. destruct b; lia. Qed.
Lemma queued_grows c c' t : grows c c' -> queued_ok c t -> queued_ok c' t.
Proof. intros Hg [Hi Hk]. split; [by eapply issued_grows|done]. Qed.
Lemma grows_refl c : grows c c.
Proof. unfold grows. lia. Qed.

(** What a step may change: one task [x], the queues as far as [x] goes, and
    the counters of schedulers. The clients hold [rs] before and [rs'] after. *)
Record step_ok (rs rs' : list (option CfsTaskReservation)) x s s' : Prop := {
  st_next : next_scheduler_id s' = next_scheduler_id s;
  st_sched q d : schedulers s' !! q = Some d -> exists d0, schedulers s !! q = Some d0 /\ grows d0 d /\ sched_ok d;
  st_length : length (schedulers s') = length (schedulers s);
  st_tasks y : y <> x -> cfs_tasks s' !! y = cfs_tasks s !! y;
  st_same j y : y <> x -> y ∈ linked s' j <-> y ∈ linked s j;
  st_place t' : cfs_tasks s' !! x = Some t' -> task_ok t' /\
    (((forall j, x ∉ linked s' j) /\ (queue_owner t' = UNOWNED \/ queue_owner t' = CONFIGURING)) \/
     exists q c', (forall j, x ∈ linked s' j <-> j = q) /\ schedulers s' !! q = Some c' /\ sched_id c' <> UNOWNED /\
       queue_owner t' = sched_id c' /\ queued_ok c' t');
  st_absent : cfs_tasks s' !! x = None -> forall j, x ∉ linked s' j;
  st_sorted j : in_order (key_of s') (linked s' j);
  st_live k r : live rs' k r -> live rs k r;
  st_reserved k r : live rs' k r -> r_task r = x -> exists t', cfs_tasks s' !! x = Some t' /\
    queue_owner t' = CONFIGURING /\ load_sched_params t' = r_params r;
  st_fresh k r q c' t' : live rs' k r -> x ∈ linked s' q -> schedulers s' !! q = Some c' ->
    cfs_tasks s' !! x = Some t' -> sched_id c' = r_scheduler_id r ->
    is_realtime (load_sched_params t') = is_realtime (r_params r) -> task_id t' <> r_sequence r }.

Lemma step_reservations rs rs' x s s' : cfs_wf rs s -> step_ok rs rs' x s s' -> reservations_ok rs' s'.
Proof.
  intros Hwf [Hn Hs Hlen Ht Hsame _ _ _ Hlive Hres Hfresh]. pose proof (wf_reservations _ _ Hwf) as [R1 R2 R3 R4 R5].
  split.
  - intros k r Hk. destruct (decide (r_task r = x)) as [Hx|Hx].
    + destruct (Hres k r Hk Hx) as (t' & ? & ?). exists t'. by rewrite Hx.
    + rewrite Ht by done. by apply (R1 k), Hlive.
  - intros k r Hk. rewrite Hn. by apply (R2 k), Hlive.
  - intros k r q c Hk Hc Hid. destruct (Hs q c Hc) as (c0 & Hc0 & Hg & _). eapply issued_grows; [exact Hg|].
    apply (R3 k r q); [by apply Hlive|done|]. by rewrite <- (proj1 Hg).
  - intros k r q c y t Hk Hc Hid Hy Hty Hrt. destruct (decide (y = x)) as [->|Hne]; [by eapply Hfresh|].
    destruct (Hs q c Hc) as (c0 & Hc0 & Hg & _). rewrite Hsame in Hy by done. rewrite Ht in Hty by done.
    apply (R4 k r q c0 y t); try done; [by apply Hlive|]. by rewrite <- (proj1 Hg).
  - intros j k r r' Hj Hk. apply R5; by apply Hlive.
Qed.

Lemma step_wf rs rs' x s s' : cfs_wf rs s -> step_ok rs rs' x s s' -> cfs_wf rs' s'.
Proof.
  intros Hwf Hstep. pose proof (step_reservations _ _ _ _ _ Hwf Hstep) as Hr.
  destruct Hstep as [Hn Hs Hlen Ht Hsame Hplace Habs Hsort _ _ _]. split; try done.
  - rewrite Hn. apply (wf_next _ _ Hwf).
  - intros q d (d0 & Hd0 & [-> _] & _)%Hs. rewrite Hn. by apply (wf_id _ _ Hwf q).
  - intros q1 q2 d1 d2 (e1 & He1 & [-> _] & _)%Hs (e2 & He2 & [-> _] & _)%Hs. by apply (wf_ids _ _ Hwf).
  - by intros q d (d0 & _ & _ & ?)%Hs.
  - intros j y Hy. destruct (decide (y = x)) as [->|Hne].
    + destruct (cfs_tasks s' !! x) as [t'|] eqn:Ht'; [|by apply Habs in Hy].
      destruct (Hplace t' eq_refl) as [_ [[Hno _]|(q & c' & Hq & Hc' & Hid & Ho & Hqo)]]; [by apply Hno in Hy|].
      apply Hq in Hy as ->. by exists c', t'.
    + apply Hsame in Hy; [|done]. destruct (wf_linked _ _ Hwf j y Hy) as (d & u & Hd & Hid & Hu & Ho & Hqo).
      destruct (lookup_lt_is_Some_2 (schedulers s') j) as [d' Hd']; [rewrite Hlen; by eapply lookup_lt_Some|].
      destruct (Hs j d' Hd') as (d0 & Hd0 & Hg & _). simplify_eq. exists d', u. rewrite Ht by done.
      pose proof (proj1 Hg). split_and!; try congruence. by eapply queued_grows.
  - intros y u Hu. destruct (decide (y = x)) as [->|Hne].
    + destruct (Hplace u Hu) as [_ [[_ [?|?]]|(q & c' & Hq & _)]]; [by auto..|]. right. right. exists q. by apply Hq.
    + rewrite Ht in Hu by done. destruct (wf_owned _ _ Hwf y u Hu) as [?|[?|[j Hj]]]; [by auto..|].
      right. right. exists j. by apply Hsame.
  - intros y u Hu. destruct (decide (y = x)) as [->|Hne]; [by destruct (Hplace u Hu)|].
    rewrite Ht in Hu by done. by apply (wf_task _ _ Hwf y).
Qed.

End Invariant.

Section Sections_.
Context {L : Type} `{ReadyTreeLaws L}.
Local Abbreviation Cfs := (Cfs L).
Implicit Types (s : Cfs) (q x y : nat) (t u : CFSTask) (c : CFScheduler) (p : CfsTaskParams).

(** ** Accesses *)

Section Access.
Context {E : Type}.
Local Abbreviation Op A := (M Cfs E A).

Lemma cfs_task_at_run x t s : cfs_tasks s !! x = Some t -> (task_at x : Op CFSTask) s = Done t s.
Proof. intros Ht. unfold task_at. erewrite bind_done by done. by rewrite Ht. Qed.
Lemma sched_at_run q c s : schedulers s !! q = Some c -> (sched_at q : Op CFScheduler) s = Done c s.
Proof. intros Hc. unfold sched_at. erewrite bind_done by done. by rewrite Hc. Qed.
Lemma update_task_run x t f s : cfs_tasks s !! x = Some t -> (update_task x f : Op ()) s = Done tt (set_task x (f t) s).
Proof. intros Ht. unfold update_task. by erewrite bind_done by (by apply cfs_task_at_run). Qed.
Lemma update_sched_run q c f s :
  schedulers s !! q = Some c -> (update_sched q f : Op ()) s = Done tt (set_sched q (f c) s).
Proof. intros Hc. unfold update_sched. by erewrite bind_done by (by apply sched_at_run). Qed.
Lemma sched_params_run x t s :
  cfs_tasks s !! x = Some t -> (sched_params x : Op CfsTaskParams) s = Done (load_sched_params t) s.
Proof. intros Ht. unfold sched_params. by erewrite bind_done by (by apply cfs_task_at_run). Qed.
Lemma vruntime_run x t p v s :
  cfs_tasks s !! x = Some t -> get_vruntime_with t p = Some v -> (vruntime_of x p : Op Z) s = Done v s.
Proof. intros Ht Hv. unfold vruntime_of. erewrite bind_done by (by apply cfs_task_at_run). by rewrite Hv. Qed.
Lemma queue_floor_run q c s :
  schedulers s !! q = Some c -> (queue_floor q : Op Z) s = Done (default 0 (min_vruntime c)) s.
Proof. intros Hc. unfold queue_floor. by erewrite bind_done by (by apply sched_at_run). Qed.
Lemma reset_slice_run x t s : cfs_tasks s !! x = Some t ->
  (reset_rr_time_slice x : Op ()) s = Done tt (set_task x (with_slice (as_isize (rr_ticks s)) t) s).
Proof. intros Ht. unfold reset_rr_time_slice. erewrite bind_done by done. by apply update_task_run. Qed.
Lemma release_owner_run x t from to s : cfs_tasks s !! x = Some t -> queue_owner t = from ->
  (release_owner x from to : Op ()) s = Done tt (set_task x (with_owner to t) s).
Proof.
  intros Ht Ho. unfold release_owner. erewrite bind_done by (by apply cfs_task_at_run).
  rewrite (proj2 (Z.eqb_eq _ _)) by done. by apply update_task_run.
Qed.

End Access.

Lemma transfer_owner_run x t from to s : cfs_tasks s !! x = Some t -> queue_owner t = from ->
  transfer_owner x from to s = Done tt (set_task x (with_owner to t) s).
Proof.
  intros Ht Ho. unfold transfer_owner. erewrite bind_done by (by apply cfs_task_at_run).
  rewrite (proj2 (Z.eqb_eq _ _)) by done. by apply update_task_run.
Qed.

(** Looking up what was set. *)
Lemma set_task_eq x t u s : cfs_tasks s !! x = Some u -> cfs_tasks (set_task x t s) !! x = Some t.
Proof. intros Hx. cbn. by rewrite list_lookup_insert_eq by (by eapply lookup_lt_Some). Qed.
Lemma set_task_ne x y t s : y <> x -> cfs_tasks (set_task x t s) !! y = cfs_tasks s !! y.
Proof. intros Hne. cbn. by rewrite list_lookup_insert_ne. Qed.
Lemma cfs_set_task_twice x t u s : set_task x t (set_task x u s) = set_task x t s.
Proof. unfold set_task. cbn. by rewrite list_insert_insert_eq. Qed.
Lemma set_task_same x t s : cfs_tasks s !! x = Some t -> set_task x t s = s.
Proof. intros Ht. unfold set_task. rewrite list_insert_id by done. by destruct s. Qed.
Lemma set_sched_eq q c c' s : schedulers s !! q = Some c -> schedulers (set_sched q c' s) !! q = Some c'.
Proof. intros Hq. cbn. by rewrite list_lookup_insert_eq by (by eapply lookup_lt_Some). Qed.
Lemma set_sched_ne q q' c s : q' <> q -> schedulers (set_sched q c s) !! q' = schedulers s !! q'.
Proof. intros Hne. cbn. by rewrite list_lookup_insert_ne. Qed.
Lemma set_sched_twice q c c' s : set_sched q c (set_sched q c' s) = set_sched q c s.
Proof. unfold set_sched. cbn. by rewrite list_insert_insert_eq. Qed.
Lemma set_sched_same q c s : schedulers s !! q = Some c -> set_sched q c s = s.
Proof. intros Hc. unfold set_sched. rewrite list_insert_id by done. by destruct s. Qed.

(** ** Reading the ready queue *)

(** A queue in key order, of tasks of a known class. *)
Record queue_ok s q : Prop := {
  qu_sorted : in_order (key_of s) (linked s q);
  qu_task x : x ∈ linked s q -> exists t, cfs_tasks s !! x = Some t /\
    (ready_class t = 0 \/ ready_class t = 1) /\ in_isize (ready_order t) /\ in_isize (task_id t) }.

Lemma wf_queue rs s q : cfs_wf rs s -> queue_ok s q.
Proof.
  intros Hwf. split; [apply (wf_sorted _ _ Hwf)|]. intros x Hx.
  destruct (linked_task rs s q x Hwf Hx) as (c & t & Hc & Ht & [Hi Hk] & Hok). exists t. split; [done|].
  pose proof (wf_sched _ _ Hwf q c Hc) as [? ? ? ?]. pose proof (ok_order _ Hok).
  split; [destruct (is_realtime (load_sched_params t)); [left; apply Hk|right; apply Hk]|]. split; [done|].
  unfold issued, in_isize in *. destruct (is_realtime _); lia.
Qed.

(** The queue does not depend on other tasks. *)
Lemma queue_other s s' q x : queue_ok s q -> x ∉ linked s q -> trees s' = trees s ->
  (forall y, y <> x -> cfs_tasks s' !! y = cfs_tasks s !! y) -> queue_ok s' q /\ forall y, y ∈ linked s q -> key_of s' y = key_of s y.
Proof.
  intros [Hs Ht] Hx Htr Hy. assert (forall y, y ∈ linked s q -> cfs_tasks s' !! y = cfs_tasks s !! y) as Heq.
  { intros y Hin. apply Hy. by intros ->. }
  assert (forall y, y ∈ linked s q -> key_of s' y = key_of s y) as Hkey by (intros y Hin; unfold key_of; by rewrite Heq).
  split; [|done]. split; unfold linked in *; rewrite Htr.
  - eapply in_order_ext; [|exact Hs]. intros y Hin. by rewrite Hkey.
  - intros y Hin. rewrite Heq by done. by apply Ht.
Qed.

(** The least vruntime of the fair tasks. *)
Definition min_ready s q : option Z :=
  x ← linked s q !! lower_index (key_of s) (1, isize_MIN, isize_MIN) (linked s q);
  t ← cfs_tasks s !! x;
  Some (ready_order t).

Lemma lower_class s q x t :
  queue_ok s q -> linked s q !! lower_index (key_of s) (1, isize_MIN, isize_MIN) (linked s q) = Some x ->
  cfs_tasks s !! x = Some t -> ready_is_rt t = false.
Proof.
  intros [Hs Hq] Hx Ht. destruct (lower_index_split _ (1, isize_MIN, isize_MIN) _ Hs) as (l1 & l2 & Hl & Hi & _ & H2).
  rewrite Hi, Hl, lookup_app_r, Nat.sub_diag in Hx by done. destruct l2 as [|y l2]; [done|]. cbn in Hx. simplify_eq.
  apply Forall_cons in H2 as [H2 _]. unfold key_of in H2. rewrite Ht in H2. unfold ready_is_rt. apply Z.eqb_neq.
  intros H0'. apply H2. unfold before, ready_key. cbn. lia.
Qed.

Lemma min_ready_run {E} q s : queue_ok s q -> (min_ready_vruntime q : M Cfs E (option Z)) s = Done (min_ready s q) s.
Proof.
  intros Hq. unfold min_ready_vruntime, min_ready. erewrite bind_done by done.
  rewrite (tree_get_at _ _ _ _ (tree_lower_bound_points (key_of s) q _ (trees s) (qu_sorted _ _ Hq))).
  fold (linked s q). destruct (linked s q !! _) as [x|] eqn:Hx; [|done]. cbn [mbind option_bind].
  destruct (qu_task _ _ Hq x) as (t & Ht & _); [by eapply list_elem_of_lookup_2|].
  erewrite bind_done by (by apply cfs_task_at_run). by rewrite Ht, (lower_class s q x t Hq Hx Ht).
Qed.

Lemma min_ready_range s q v : queue_ok s q -> min_ready s q = Some v -> in_isize v.
Proof.
  intros Hq. unfold min_ready. destruct (linked s q !! _) as [x|] eqn:Hx; [|done]. cbn.
  destruct (qu_task _ _ Hq x) as (t & -> & _ & ? & _); [by eapply list_elem_of_lookup_2|]. by intros [= <-].
Qed.

(** [refresh_min_vruntime] *)
Definition refreshed (current ready : option Z) c : CFScheduler :=
  with_min
    match min_vruntime c, match current, ready with
                          | Some a, Some b => Some (Z.min a b)
                          | Some a, None => Some a
                          | None, o => o
                          end with
    | _, None => None
    | Some old, Some new => Some (Z.max old new)
    | None, Some new => Some new
    end c.

Lemma refresh_run {E} q c current s : queue_ok s q -> schedulers s !! q = Some c ->
  (refresh_min_vruntime q current : M Cfs E ()) s = Done tt (set_sched q (refreshed current (min_ready s q) c) s).
Proof.
  intros Hq Hc. unfold refresh_min_vruntime. erewrite bind_done by (by apply min_ready_run).
  rewrite (update_sched_run q c) by done. do 2 f_equal. unfold refreshed. by destruct current, (min_ready s q).
Qed.

Lemma refreshed_ok current ready c :
  sched_ok c -> (forall v, current = Some v -> in_isize v) -> (forall v, ready = Some v -> in_isize v) ->
  sched_ok (refreshed current ready c) /\ grows c (refreshed current ready c).
Proof.
  intros [H1 H2 H3 H4] Hcur Hrdy. split; [|unfold grows; cbn; lia]. split; cbn; try done.
  intros m. destruct (min_vruntime c) as [o|] eqn:Ho, current as [a|], ready as [b|]; intros [= <-];
    repeat match goal with H : forall v, Some _ = Some v -> _ |- _ => specialize (H _ eq_refl) end; unfold in_isize in *; lia.
Qed.

(** A change of a scheduler that only moves its counters apart. *)
Lemma sched_step_wf rs s q c c' :
  cfs_wf rs s -> schedulers s !! q = Some c -> grows c c' -> sched_ok c' -> cfs_wf rs (set_sched q c' s).
Proof.
  intros Hwf Hc Hg Hok. assert (cfs_tasks s !! length (cfs_tasks s) = None) as Hx by (by apply lookup_ge_None).
  apply (step_wf rs rs (length (cfs_tasks s)) s); [done|]. split; cbn; try done.
  - intros q' d. destruct (decide (q = q')) as [<-|Hne].
    + rewrite list_lookup_insert_eq by (by eapply lookup_lt_Some). intros [= <-]. by exists c.
    + rewrite list_lookup_insert_ne by done. intros Hd. exists d. split_and!; [done|apply grows_refl|by apply (wf_sched _ _ Hwf q')].
  - apply length_insert.
  - intros t'. by rewrite Hx.
  - intros _ j Hin. destruct (linked_task rs s j _ Hwf Hin) as (? & ? & _ & ? & _). congruence.
  - intros j. apply (wf_sorted _ _ Hwf).
  - intros k r Hk Hr. destruct (res_task _ _ (wf_reservations _ _ Hwf) k r Hk) as (? & ? & _). congruence.
  - intros k r q' c0 t' _ _ _ Ht'. congruence.
Qed.

Lemma refresh_wf rs s q c current :
  cfs_wf rs s -> schedulers s !! q = Some c -> (forall v, current = Some v -> in_isize v) ->
  cfs_wf rs (set_sched q (refreshed current (min_ready s q) c) s).
Proof.
  intros Hwf Hc Hcur. destruct (refreshed_ok current (min_ready s q) c) as [Hok Hg]; [by apply (wf_sched _ _ Hwf q)|done| |].
  - intros v Hv. by apply (min_ready_range s q v (wf_queue rs s q Hwf)).
  - by apply (sched_step_wf rs s q c).
Qed.

End Sections_.

Section Steps.
Context {L : Type} `{ReadyTreeLaws L}.
Local Abbreviation Cfs := (Cfs L).
Implicit Types (s : Cfs) (q x y : nat) (t u : CFSTask) (c : CFScheduler) (p : CfsTaskParams).
Abbreviation live rs k r := ((rs : list (option CfsTaskReservation)) !! (k : nat) = Some (Some r)).

(** The owner word of a task that is in no queue. *)
Definition free t : Prop := queue_owner t = UNOWNED \/ queue_owner t = CONFIGURING.

(** No live reservation is for a task that is not being configured. *)
Lemma unreserved rs s x t k r : cfs_wf rs s -> cfs_tasks s !! x = Some t -> queue_owner t <> CONFIGURING ->
  live rs k r -> r_task r <> x.
Proof.
  intros Hwf Ht Ho Hk <-. destruct (res_task _ _ (wf_reservations _ _ Hwf) k r Hk) as (u & ? & ? & _). congruence.
Qed.

Lemma linked_owner rs s q x t : cfs_wf rs s -> x ∈ linked s q -> cfs_tasks s !! x = Some t ->
  queue_owner t <> UNOWNED /\ queue_owner t <> CONFIGURING.
Proof.
  intros Hwf Hx Ht. split; intros Ho; (eapply (unowned_unlinked rs s x t Hwf Ht); [|exact Hx]); [by left|by right].
Qed.

(** ** Changes of a task *)

(** A free task stays free. *)
Lemma free_task_wf rs rs' s x t t' :
  cfs_wf rs s -> cfs_tasks s !! x = Some t -> free t -> free t' -> task_ok t' ->
  (forall k r, live rs' k r -> live rs k r /\
    (r_task r = x -> queue_owner t' = CONFIGURING /\ load_sched_params t' = r_params r)) ->
  cfs_wf rs' (set_task x t' s).
Proof.
  intros Hwf Ht Hf Hf' Hok Hres. pose proof (unowned_unlinked rs s x t Hwf Ht Hf) as Hno.
  apply (step_wf rs rs' x s); [done|]. split; try done.
  - intros q d Hd. exists d. split_and!; [done|apply grows_refl|by apply (wf_sched _ _ Hwf q)].
  - intros y Hy. by apply set_task_ne.
  - rewrite (set_task_eq x t' t) by done. intros ? [= <-]. split; [done|]. left. by split.
  - intros j. eapply in_order_ext; [|apply (wf_sorted _ _ Hwf j)]. intros y Hy. unfold key_of. rewrite set_task_ne; [done|].
    intros ->. by apply (Hno j).
  - intros k r Hk. apply (Hres k r Hk).
  - intros k r Hk Hr. exists t'. rewrite (set_task_eq x t' t) by done. split; [done|]. by apply (Hres k).
  - intros k r q c' u _ Hin. by apply Hno in Hin.
Qed.

(** Nothing changes that the queues or the reservations depend on. *)
Lemma same_task_wf rs s x t t' :
  cfs_wf rs s -> cfs_tasks s !! x = Some t -> queue_owner t' = queue_owner t -> ready_key t' = ready_key t ->
  params t' = params t -> task_ok t' -> cfs_wf rs (set_task x t' s).
Proof.
  intros Hwf Ht Ho Hk Hp Hok. assert (load_sched_params t' = load_sched_params t) as Hl by (unfold load_sched_params; by rewrite Hp).
  assert (forall y, key_of (set_task x t' s) y = key_of s y) as Hkey.
  { intros y. destruct (decide (y = x)) as [->|Hne].
    - rewrite (key_of_task s x t Ht), <- Hk. apply key_of_task. by apply (set_task_eq x t' t).
    - unfold key_of. by rewrite set_task_ne. }
  assert (forall c, queued_ok c t -> queued_ok c t') as Hq.
  { intros c. injection Hk as H1 H2 H3. unfold queued_ok. by rewrite Hl, H1, H2, H3. }
  apply (step_wf rs rs x s); [done|]. split; try done.
  - intros q d Hd. exists d. split_and!; [done|apply grows_refl|by apply (wf_sched _ _ Hwf q)].
  - intros y Hy. by apply set_task_ne.
  - rewrite (set_task_eq x t' t) by done. intros ? [= <-]. split; [done|]. rewrite Ho.
    destruct (wf_owned _ _ Hwf x t Ht) as [Hf|[Hf|[q Hx]]].
    + left. split; [|by left]. apply (unowned_unlinked rs s x t Hwf Ht). by left.
    + left. split; [|by right]. apply (unowned_unlinked rs s x t Hwf Ht). by right.
    + right. destruct (wf_linked _ _ Hwf q x Hx) as (c & u & Hc & Hn & Hu & Hou & Hqo). simplify_eq. exists q, c.
      split_and!; try done; [|by apply Hq]. intros j. split; [|by intros ->]. intros Hj. by apply (cfs_linked_once rs s j q x).
  - by rewrite (set_task_eq x t' t).
  - intros j. eapply in_order_ext; [|apply (wf_sorted _ _ Hwf j)]. intros y _. by rewrite Hkey.
  - intros k r Hr <-. exists t'. rewrite (set_task_eq _ t' t) by done. rewrite Ho, Hl.
    destruct (res_task _ _ (wf_reservations _ _ Hwf) k r Hr) as (u & ? & ?). by simplify_eq.
  - intros k r q c u Hr Hx Hc. rewrite (set_task_eq _ t' t) by done. intros [= <-] Hid Hrt. rewrite Hl in Hrt.
    injection Hk as _ _ ->. by apply (res_unlinked _ _ (wf_reservations _ _ Hwf) k r q c x t).
Qed.

(** ** Unlinking *)

Definition unlinked (l : L) x t s : Cfs := set_task x t (set_trees l s).

Lemma cfs_unlink_wf rs s q x t t' l l1 l2 :
  cfs_wf rs s -> cfs_tasks s !! x = Some t -> linked s q = l1 ++ x :: l2 ->
  (forall j, members l j = on_list q (l1 ++ l2) (linked s) j) -> free t' -> task_ok t' ->
  cfs_wf rs (unlinked l x t' s).
Proof.
  intros Hwf Ht Hl Hm Hf Hok. assert (x ∈ linked s q) as Hx by (rewrite Hl; set_solver).
  pose proof (wf_sorted _ _ Hwf q) as Hs. rewrite Hl in Hs.
  pose proof (in_order_nodup _ _ Hs) as Hnd. apply NoDup_app in Hnd as (Hnd1 & Hdis & [Hx2 Hnd2]%NoDup_cons).
  assert (x ∉ l1 ++ l2) as Hno.
  { rewrite elem_of_app. intros [Hin|Hin]; [|done]. apply (Hdis x Hin). left. }
  assert (forall j, linked (unlinked l x t' s) j = on_list q (l1 ++ l2) (linked s) j) as Hlk by exact Hm.
  assert (forall j, x ∉ linked (unlinked l x t' s) j) as Hnone.
  { intros j. rewrite Hlk. destruct (decide (j = q)) as [->|Hj]; [by rewrite on_list_eq|]. rewrite on_list_ne by done.
    intros Hj'. apply Hj. by apply (cfs_linked_once rs s j q x). }
  assert (forall y, y <> x -> key_of (unlinked l x t' s) y = key_of s y) as Hkey.
  { intros y Hy. unfold key_of, unlinked. by rewrite set_task_ne. }
  apply (step_wf rs rs x s); [done|]. split; try done.
  - intros j d Hd. exists d. split_and!; [done|apply grows_refl|by apply (wf_sched _ _ Hwf j)].
  - intros y Hy. unfold unlinked. by rewrite set_task_ne.
  - intros j y Hy. rewrite Hlk. destruct (decide (j = q)) as [->|Hj]; [|by rewrite on_list_ne].
    rewrite on_list_eq, Hl. set_solver.
  - unfold unlinked. rewrite (set_task_eq x t' t) by done. intros ? [= <-]. split; [done|]. left. by split.
  - intros j. assert (in_order (key_of s) (linked (unlinked l x t' s) j)) as Hj.
    { rewrite Hlk. destruct (decide (j = q)) as [->|Hj]; [rewrite on_list_eq; by eapply in_order_remove|].
      rewrite on_list_ne by done. apply (wf_sorted _ _ Hwf). }
    eapply in_order_ext; [|exact Hj]. intros y Hy. rewrite Hkey; [done|]. intros ->. by apply (Hnone j).
  - intros k r Hk Hr. destruct (unreserved rs s x t k r Hwf Ht); [|done|done].
    by apply (linked_owner rs s q x t).
  - intros k r j c u _ Hin. by apply Hnone in Hin.
Qed.

(** ** Linking *)

Definition link_state q x t c s : Cfs :=
  let s1 := set_task x t (set_sched q c s) in set_trees (tree_insert (key_of s1) q x (trees s)) s1.

Record linkable (rs rs' : list (option CfsTaskReservation)) q x t t' c c' s : Prop := {
  lk_task : cfs_tasks s !! x = Some t;
  lk_sched : schedulers s !! q = Some c;
  lk_named : sched_id c <> UNOWNED;
  lk_free : forall j, x ∉ linked s j;
  lk_grows : grows c c';
  lk_sched_ok : sched_ok c';
  lk_task_ok : task_ok t';
  lk_owner : queue_owner t' = sched_id c;
  lk_queued : queued_ok c' t';
  lk_key : forall y, y ∈ linked s q -> key_of s y <> ready_key t';
  lk_live : forall k r, live rs' k r -> live rs k r /\ r_task r <> x;
  lk_fresh : forall k r, live rs' k r -> r_scheduler_id r = sched_id c ->
    is_realtime (load_sched_params t') = is_realtime (r_params r) -> task_id t' <> r_sequence r }.

Lemma cfs_link_wf rs rs' q x t t' c c' s :
  cfs_wf rs s -> linkable rs rs' q x t t' c c' s ->
  cfs_wf rs' (link_state q x t' c' s) /\ linked (link_state q x t' c' s) q ≡ₚ x :: linked s q /\
  forall j, j <> q -> linked (link_state q x t' c' s) j = linked s j.
Proof.
  intros Hwf [Ht Hc Hn Hno Hg Hcok Htok Ho Hqo Hkey Hlive Hfresh].
  set (s1 := set_task x t' (set_sched q c' s)). set (s2 := link_state q x t' c' s).
  assert (forall y, y <> x -> key_of s1 y = key_of s y) as Hk1 by (intros y Hy; unfold key_of, s1; by rewrite set_task_ne).
  assert (key_of s1 x = ready_key t') as Hkx by (apply key_of_task, (set_task_eq x t' t (set_sched q c' s) Ht)).
  assert (in_order (key_of s1) (linked s q)) as Hs1.
  { eapply in_order_ext; [|apply (wf_sorted _ _ Hwf)]. intros y Hy. rewrite Hk1; [done|]. intros ->. by apply (Hno q). }
  assert (forall y, y ∈ linked s q -> key_of s1 y <> key_of s1 x) as Hne.
  { intros y Hy. rewrite Hkx, Hk1; [by apply Hkey|]. intros ->. by apply (Hno q). }
  assert (forall j, linked s2 j = on_list q (key_insert (key_of s1) x (linked s q)) (linked s) j) as Hlk.
  { intros j. apply (tree_insert_members (key_of s1) q x (trees s) j); done. }
  assert (linked s2 q ≡ₚ x :: linked s q) as Hperm by (rewrite Hlk, on_list_eq; apply key_insert_perm).
  assert (forall j, j <> q -> linked s2 j = linked s j) as Hother by (intros j Hj; by rewrite Hlk, on_list_ne).
  assert (schedulers s2 !! q = Some c') as Hc2 by (apply (set_sched_eq q c c' s Hc)).
  assert (cfs_tasks s2 !! x = Some t') as Ht2 by (apply (set_task_eq x t' t (set_sched q c' s) Ht)).
  pose proof (proj1 Hg) as Hid.
  split; [|done]. apply (step_wf rs rs' x s); [done|]. split; try done.
  - intros j d. destruct (decide (j = q)) as [->|Hj].
    + rewrite Hc2. intros [= <-]. by exists c.
    + cbn. rewrite list_lookup_insert_ne by done. intros Hd. exists d.
      split_and!; [done|apply grows_refl|by apply (wf_sched _ _ Hwf j)].
  - apply length_insert.
  - intros y Hy. unfold s2, link_state. cbn. by rewrite list_lookup_insert_ne.
  - intros j y Hy. destruct (decide (j = q)) as [->|Hj]; [rewrite Hperm; set_solver|by rewrite Hother].
  - rewrite Ht2. intros ? [= <-]. split; [done|]. right. exists q, c'. rewrite Hid. split_and!; try done.
    intros j. destruct (decide (j = q)) as [->|Hj]; [rewrite Hperm; set_solver|]. rewrite Hother by done.
    split; [intros Hj'; by apply Hno in Hj'|done].
  - congruence.
  - intros j. change (key_of s2) with (key_of s1). rewrite Hlk. destruct (decide (j = q)) as [->|Hj].
    + rewrite on_list_eq. by apply key_insert_sorted.
    + rewrite on_list_ne by done. eapply in_order_ext; [|apply (wf_sorted _ _ Hwf)]. intros y Hy. rewrite Hk1; [done|].
      intros ->. by apply (Hno j).
  - intros k r Hk. by apply Hlive.
  - intros k r Hk Hr. by apply Hlive in Hk as [_ ?].
  - intros k r j c0 u Hk Hx Hc0 Hu Hrid. simplify_eq. assert (j = q) as ->.
    { destruct (decide (j = q)) as [|Hj]; [done|]. rewrite Hother in Hx by done. by apply Hno in Hx. }
    simplify_eq. apply (Hfresh k r Hk). congruence.
Qed.

(** A sequence number that was not issued makes the key new. *)
Lemma unissued_key rs s q c c' t' :
  cfs_wf rs s -> schedulers s !! q = Some c -> queued_ok c' t' ->
  ~ issued c (is_realtime (load_sched_params t')) (task_id t') ->
  (forall y, y ∈ linked s q -> key_of s y <> ready_key t') /\
  (forall k r, live rs k r -> r_scheduler_id r = sched_id c ->
    is_realtime (load_sched_params t') = is_realtime (r_params r) -> task_id t' <> r_sequence r).
Proof.
  intros Hwf Hc [_ Hk'] Hno. split.
  - intros y Hy Heq. destruct (linked_task rs s q y Hwf Hy) as (d & u & Hd & Hu & [Hi Hk] & _). simplify_eq.
    rewrite (key_of_task s y u Hu) in Heq. injection Heq as H1 H2 H3. apply Hno. rewrite <- H3.
    destruct (is_realtime (load_sched_params u)), (is_realtime (load_sched_params t')); try done;
      [destruct Hk as [? _]|destruct Hk' as [? _]]; lia.
  - intros k r Hr Hid Hrt Heq. apply Hno. rewrite Hrt, Heq.
    by apply (res_issued _ _ (wf_reservations _ _ Hwf) k r q c).
Qed.

(** ** Naming a scheduler *)

(** The first use of a scheduler takes the next name. *)
Definition named q c s : Cfs :=
  set_sched q (with_id (next_scheduler_id s) c) (set_next_id (next_scheduler_id s + 1) s).

Lemma named_wf rs s q c : cfs_wf rs s -> schedulers s !! q = Some c -> sched_id c = UNOWNED ->
  next_scheduler_id s + 1 <= usize_MAX -> cfs_wf rs (named q c s).
Proof.
  intros Hwf Hc Hu Hmax. pose proof (wf_next _ _ Hwf) as Hnext. set (n := next_scheduler_id s) in *.
  assert (schedulers (named q c s) !! q = Some (with_id n c)) as Hq by (apply (set_sched_eq q c _ (set_next_id (n + 1) s) Hc)).
  assert (forall j, j <> q -> schedulers (named q c s) !! j = schedulers s !! j) as Hother by (intros j Hj; unfold named; by rewrite set_sched_ne).
  assert (forall j d, schedulers (named q c s) !! j = Some d -> (j = q /\ d = with_id n c) \/ (j <> q /\ schedulers s !! j = Some d))
    as Hcases.
  { intros j d. destruct (decide (j = q)) as [->|Hj]; [rewrite Hq; intros [= <-]; by left|rewrite Hother by done; by right]. }
  assert (forall j y, y ∈ linked s j -> j <> q) as Hnq.
  { intros j y Hy ->. destruct (wf_linked _ _ Hwf q y Hy) as (d & ? & ? & ? & _). by simplify_eq. }
  split; cbn [next_scheduler_id cfs_tasks named set_sched set_next_id]; fold n.
  - lia.
  - intros j d [[-> ->]|[_ Hd]]%Hcases; [cbn; lia|]. pose proof (wf_id _ _ Hwf j d Hd) as Hb. fold n in Hb. lia.
  - intros j k d d' [[-> ->]|[Hj Hd]]%Hcases [[-> ->]|[Hk Hd']]%Hcases; try done.
    + pose proof (wf_id _ _ Hwf k d' Hd') as Hb. cbn. fold n in Hb. lia.
    + pose proof (wf_id _ _ Hwf j d Hd) as Hb. cbn. fold n in Hb. lia.
    + by apply (wf_ids _ _ Hwf).
  - intros j d [[-> ->]|[_ Hd]]%Hcases; [|by apply (wf_sched _ _ Hwf j)].
    destruct (wf_sched _ _ Hwf q c Hc) as [? ? ? ?]. by split.
  - intros j y Hy. destruct (wf_linked _ _ Hwf j y Hy) as (d & u & Hd & ?). exists d, u.
    rewrite Hother by (by eapply Hnq). by split.
  - apply (wf_owned _ _ Hwf).
  - apply (wf_sorted _ _ Hwf).
  - apply (wf_task _ _ Hwf).
  - pose proof (wf_reservations _ _ Hwf) as [R1 R2 R3 R4 R5]. split; try done.
    + intros k r Hk. cbn. fold n. specialize (R2 k r Hk). fold n in R2. lia.
    + intros k r j d Hk [[-> ->]|[_ Hd]]%Hcases Hid; [|by apply (R3 k r j)].
      specialize (R2 k r Hk). cbn in Hid. fold n in R2. lia.
    + intros k r j d y u Hk Hd Hid Hy Hu'. pose proof (Hnq j y Hy). rewrite Hother in Hd by done. by apply (R4 k r j d y u).
Qed.

Lemma cfs_ensure_id_run rs s q c : cfs_wf rs s -> schedulers s !! q = Some c ->
  (sched_id c <> UNOWNED /\ ensure_id q s = Done (sched_id c) s) \/
  (sched_id c = UNOWNED /\ next_scheduler_id s + 1 <= usize_MAX /\ ensure_id q s = Done (next_scheduler_id s) (named q c s)) \/
  (sched_id c = UNOWNED /\ next_scheduler_id s = usize_MAX /\ ensure_id q s = Fail IdentifierExhausted s).
Proof.
  intros Hwf Hc. unfold ensure_id. erewrite bind_done by (by apply sched_at_run).
  destruct (sched_id c =? UNOWNED) eqn:Hu.
  2:{ left. apply Z.eqb_neq in Hu. split; [done|]. erewrite bind_done by done. by erewrite bind_done by (by apply sched_at_run). }
  apply Z.eqb_eq in Hu. right. destruct (next_scheduler_id s + 1 <=? usize_MAX) eqn:Hmax.
  - left. split; [done|]. split; [by apply Z.leb_le|].
    assert (allocate_scheduler_id s = Done (next_scheduler_id s) (set_next_id (next_scheduler_id s + 1) s)) as Ha.
    { unfold allocate_scheduler_id, try_update, checked_add_usize, mbind, M_bind, gets, modify. by rewrite Hmax. }
    erewrite bind_done.
    2:{ rewrite (bind_done _ _ _ _ _ Ha). by apply update_sched_run. }
    erewrite bind_done; [|by apply sched_at_run, (set_sched_eq q c)]. done.
  - right. split; [done|]. apply Z.leb_gt in Hmax as Hmax'. split; [pose proof (wf_next _ _ Hwf); lia|]. assert (allocate_scheduler_id s = Fail IdentifierExhausted s) as Ha.
    { unfold allocate_scheduler_id, try_update, checked_add_usize, mbind, M_bind, gets, modify. rewrite Hmax. by destruct s. }
    erewrite bind_fail; [done|]. by apply (bind_fail _ _ _ _ _ Ha).
Qed.

End Steps.
