(* ===== verification/CfsQueue.v ===== *)
(** The completely fair scheduler, part 3: the outcomes of insertion into a
    ready queue and of removal from it. *)

From S2P Require Import Prelude Effects Atomics ReadyTree Sched Cfs CfsSpec.
Local Open Scope Z_scope.

(** Finds the task or scheduler a state was given. *)
Ltac look := lazymatch goal with
  | |- cfs_tasks (set_sched _ _ _) !! _ = _ => cbn [cfs_tasks set_sched]; look
  | |- cfs_tasks (set_trees _ _) !! _ = _ => cbn [cfs_tasks set_trees]; look
  | |- cfs_tasks (set_task _ _ _) !! _ = _ => eapply set_task_eq; look
  | |- schedulers (set_task _ _ _) !! _ = _ => cbn [schedulers set_task]; look
  | |- schedulers (set_trees _ _) !! _ = _ => cbn [schedulers set_trees]; look
  | |- schedulers (set_sched _ _ _) !! _ = _ => eapply set_sched_eq; look
  | |- _ => eassumption
  end.

(** Runs the first step of a method whose outcome is known. *)
Ltac run := first
  [ erewrite bind_done by (eapply cfs_task_at_run; look)
  | erewrite bind_done by (eapply sched_at_run; look)
  | erewrite bind_done by (eapply sched_params_run; look)
  | erewrite bind_done by (eapply update_task_run; look)
  | erewrite bind_done by (eapply update_sched_run; look)
  | erewrite bind_done by (eapply queue_floor_run; look)
  | erewrite bind_done by (eapply reset_slice_run; look)
  | erewrite bind_done by (eapply vruntime_run; [look|eassumption])
  | erewrite bind_done by reflexivity ]; cbv beta iota.

Section Enqueue.
Context {L : Type} `{ReadyTreeLaws L}.
Local Abbreviation Cfs := (Cfs L).
Implicit Types (s : Cfs) (q x y : nat) (t u : CFSTask) (c : CFScheduler) (p : CfsTaskParams).
Abbreviation live rs k r := ((rs : list (option CfsTaskReservation)) !! (k : nat) = Some (Some r)).

(** ** Sequence numbers *)

Record advanced (b : bool) c c' (n : Z) : Prop := {
  adv_grows : grows c c';
  adv_ok : sched_ok c';
  adv_new : ~ issued c b n;
  adv_issued : issued c' b n;
  adv_min : min_vruntime c' = min_vruntime c }.

(** A scheduler that has no sequence numbers left. *)
Definition exhausted c : Prop :=
  fair_sequence c = isize_MAX \/ rt_front_seq c = isize_MIN \/ rt_back_seq c = isize_MAX.

Lemma fair_sequence_run q c s : schedulers s !! q = Some c -> sched_ok c ->
  (exists c', next_fair_sequence q s = Done (fair_sequence c) (set_sched q c' s) /\ advanced false c c' (fair_sequence c)) \/
  (next_fair_sequence q s = Fail SequenceExhausted s /\ exhausted c).
Proof.
  intros Hc [Hf ? ? Hm]. unfold next_fair_sequence, checked_add_isize. run.
  destruct (fair_sequence c + 1 <=? isize_MAX) eqn:He; cbn [some_or].
  - left. apply Z.leb_le in He. run. run. eexists. split; [done|].
    split; unfold grows, issued; cbn; [lia| |lia|lia|done]. split; cbn; try done. lia.
  - right. apply Z.leb_gt in He. split; [done|left; lia].
Qed.

Lemma rt_sequence_run q c (front : bool) s : schedulers s !! q = Some c -> sched_ok c ->
  let n := if front then rt_front_seq c - 1 else rt_back_seq c in
  (exists c', next_rt_seq q front s = Done n (set_sched q c' s) /\ advanced true c c' n) \/
  (next_rt_seq q front s = Fail SequenceExhausted s /\ exhausted c).
Proof.
  intros Hc [Hf ? ? Hm] n. unfold next_rt_seq, checked_add_isize, checked_sub_isize. run. destruct front.
  - destruct (isize_MIN <=? rt_front_seq c - 1) eqn:He; cbn [some_or]; [left|right; apply Z.leb_gt in He; split; [done|unfold exhausted; lia]]. apply Z.leb_le in He.
    run. run. eexists. split; [done|].
    split; unfold grows, issued, n; cbn; [lia| |lia|lia|done]. split; cbn; try done. lia.
  - destruct (rt_back_seq c + 1 <=? isize_MAX) eqn:He; cbn [some_or]; [left|right; apply Z.leb_gt in He; split; [done|unfold exhausted; lia]]. apply Z.leb_le in He.
    run. run. eexists. split; [done|].
    split; unfold grows, issued, n; cbn; [lia| |lia|lia|done]. split; cbn; try done. lia.
Qed.

(** ** Naming and claiming *)

(** What naming a scheduler leaves alone. *)
Record ensured rs q c c1 s s1 : Prop := {
  en_wf : cfs_wf rs s1;
  en_sched : schedulers s1 !! q = Some c1;
  en_named : sched_id c1 <> UNOWNED;
  en_same : c1 = with_id (sched_id c1) c;
  en_known : sched_id c <> UNOWNED -> s1 = s;
  en_trees : trees s1 = trees s;
  en_tasks : cfs_tasks s1 = cfs_tasks s;
  en_other j : j <> q -> schedulers s1 !! j = schedulers s !! j;
  en_length : length (schedulers s1) = length (schedulers s) }.

Lemma ensured_run rs q c s : cfs_wf rs s -> schedulers s !! q = Some c ->
  (exists s1 c1, ensure_id q s = Done (sched_id c1) s1 /\ ensured rs q c c1 s s1) \/
  (ensure_id q s = Fail IdentifierExhausted s /\ sched_id c = UNOWNED /\ next_scheduler_id s = usize_MAX).
Proof.
  intros Hwf Hc. destruct (cfs_ensure_id_run rs s q c Hwf Hc) as [[Hn ->]|[(Hu & Hmax & ->)|(Hu & Hmax & ->)]]; [left|left|by right].
  - exists s, c. split; [done|]. split; try done. by destruct c.
  - exists (named q c s), (with_id (next_scheduler_id s) c). split; [done|].
    pose proof (wf_next _ _ Hwf). split; try done.
    + by apply named_wf.
    + by apply (set_sched_eq q c _ (set_next_id (next_scheduler_id s + 1) s)).
    + cbn. unfold UNOWNED. lia.
    + intros j Hj. unfold named. by rewrite set_sched_ne.
    + apply length_insert.
Qed.

(** The errors of a claim: the task is queued here, being configured, or queued
    elsewhere. *)
Definition refusal q x t s : SchedulerError :=
  if queue_owner t =? CONFIGURING then TaskBusy
  else if decide (x ∈ linked s q) then AlreadyQueued else ForeignQueue.

Lemma claim_run rs q x t c s : cfs_wf rs s -> schedulers s !! q = Some c -> sched_id c <> UNOWNED -> cfs_tasks s !! x = Some t ->
  (queue_owner t = UNOWNED /\ claim x (sched_id c) s = Done tt (set_task x (with_owner (sched_id c) t) s)) \/
  (queue_owner t <> UNOWNED /\ claim x (sched_id c) s = Fail (refusal q x t s) s).
Proof.
  intros Hwf Hc Hn Ht. unfold claim, refusal. run. destruct (queue_owner t =? UNOWNED) eqn:Hu.
  { left. apply Z.eqb_eq in Hu. split; [done|]. by apply update_task_run. }
  right. apply Z.eqb_neq in Hu. split; [done|]. pose proof (owner_not_configuring rs s q c Hwf Hc) as Hnc.
  destruct (owner_cases rs s q x c t Hwf Hc Ht) as [?|[Hf|[(-> & _ & Hx)|(_ & Hf & Hs & q' & Hne & Hx)]]]; [done|..].
  - rewrite Hf. by rewrite (proj2 (Z.eqb_neq _ _)), Z.eqb_refl by congruence.
  - rewrite Z.eqb_refl, (proj2 (Z.eqb_neq _ _)) by done. by rewrite decide_True.
  - rewrite (proj2 (Z.eqb_neq _ (sched_id c))), (proj2 (Z.eqb_neq _ CONFIGURING)), decide_False; try done.
    intros Hx'. apply Hne. by apply (cfs_linked_once rs s q' q x).
Qed.

(** A claim that is given back. *)
Lemma with_owner_back i o t : queue_owner t = o -> with_owner o (with_owner i t) = t.
Proof. intros <-. by destruct t. Qed.

Lemma on_error_done {A} (m : M Cfs SchedulerError A) cleanup s a s' : m s = Done a s' -> on_error m cleanup s = Done a s'.
Proof. unfold on_error. by intros ->. Qed.
Lemma on_error_fail {A} (m : M Cfs SchedulerError A) cleanup s e s1 s2 :
  m s = Fail e s1 -> cleanup s1 = Done tt s2 -> on_error m cleanup s = Fail e s2.
Proof. unfold on_error. by intros -> ->. Qed.

(** ** The vruntime of an entering task *)

Definition placed_vruntime (action : CfsEnqueueAction) (floor : Z) (ready : option Z) t p : Z :=
  let v := default 0 (get_vruntime_with t p) in
  match action with
  | ActNew => if seeded_vruntime t then Z.max v floor else floor
  | ActWakeup => Z.max v match class p with
                         | Normal => saturating_add_isize floor 2
                         | Batch => saturating_add_isize floor 3
                         | Idle => saturating_add_isize floor 4
                         | _ => floor
                         end
  | ExplicitYield => Z.max v (saturating_add_isize (default floor ready) 2)
  | Requeue _ => v
  | ActMigrate => if migration_vruntime_offset_valid t
                  then saturating_add_isize floor (migration_vruntime_offset t) else Z.max v floor
  end.

Lemma placed_range action floor ready t p :
  params_valid p -> in_isize floor -> (forall v, ready = Some v -> in_isize v) ->
  in_isize (placed_vruntime action floor ready t p).
Proof.
  intros Hp Hf Hr. destruct (vruntime_valid t p Hp) as (v & Hv & Hiv). unfold placed_vruntime. rewrite Hv. cbn [default from_option id].
  pose proof (saturate_range) as Hs. unfold saturating_add_isize, in_isize in *.
  destruct action; repeat case_match; try done; try apply Hs;
    repeat match goal with |- context [saturate ?z] => pose proof (Hs z); generalize dependent (saturate z); intros end; lia.
Qed.

Lemma enqueue_vruntime_run q x t c action p s :
  cfs_tasks s !! x = Some t -> schedulers s !! q = Some c -> queue_ok s q -> p = load_sched_params t -> params_valid p ->
  enqueue_vruntime q x action p s =
    Done (placed_vruntime action (default 0 (min_vruntime c)) (min_ready s q) t p)
      match action with ActMigrate => set_task x (with_offset_valid false t) s | _ => s end.
Proof.
  intros Ht Hc Hq Hp Hv. destruct (vruntime_valid t p Hv) as (v & Hg & _).
  assert (get_vruntime_with (with_offset_valid false t) p = Some v) as Hg' by exact Hg.
  destruct action; unfold enqueue_vruntime, placed_vruntime; rewrite Hg; cbn [default from_option id].
  - run. destruct (seeded_vruntime t); [by run; run|by apply queue_floor_run].
  - run. unfold wakeup_floor. erewrite bind_done; [|by erewrite bind_done by (by apply queue_floor_run)]. by destruct (class p).
  - erewrite bind_done by (by apply min_ready_run). erewrite bind_done; [by run|].
    destruct (min_ready s q); [done|by apply queue_floor_run].
  - by apply vruntime_run with t.
  - run. unfold take_migration_vruntime. run. run. destruct (migration_vruntime_offset_valid t); [done|].
    rewrite (bind_done _ _ _ _ _ (sched_params_run x (with_offset_valid false t) _ (set_task_eq _ _ _ _ Ht))).
    change (load_sched_params (with_offset_valid false t)) with (load_sched_params t). rewrite <- Hp.
    by rewrite (bind_done _ _ _ _ _ (vruntime_run x (with_offset_valid false t) p v _ (set_task_eq _ _ _ _ Ht) Hg')).
Qed.

(** ** Insertion *)

(** The task as it enters, with sequence number [n] of scheduler [i]. *)
Definition rt_entered (reset : bool) (ticks n i : Z) p t : CFSTask :=
  let t := with_offset_valid false (with_owner i t) in
  stage_ready_key 0 (rt_priority_key (rt_priority p)) n (if reset then with_slice (as_isize ticks) t else t).
Definition fair_entered (action : CfsEnqueueAction) (v n i : Z) t : CFSTask :=
  stage_ready_key 1 v n (rebase_vruntime v (with_offset_valid false
    (match action with ActNew => with_seeded false | _ => fun t => t end (with_owner i t)))).

(** The queue after an insertion, with the floor refreshed for a fair task. *)
Definition linked_fair q x t c s : Cfs :=
  let s := link_state q x t c s in set_sched q (refreshed None (min_ready s q) c) s.

(** The outcome of an insertion into a queue that has a name. *)
Definition enters (action : CfsEnqueueAction) rs q x t c s s' : Prop :=
  let p := load_sched_params t in
  exists t' c' n, linkable rs rs q x t t' c c' s /\ advanced (is_realtime p) c c' n /\
  if is_realtime p then
    let '(front, reset) := rt_placement (class p) action (rr_time_slice t) in
    n = (if front then rt_front_seq c - 1 else rt_back_seq c) /\
    t' = rt_entered reset (rr_ticks s) n (sched_id c) p t /\ s' = link_state q x t' c' s
  else
    n = fair_sequence c /\
    t' = fair_entered action (placed_vruntime action (default 0 (min_vruntime c)) (min_ready s q) t p) n (sched_id c) t /\
    s' = linked_fair q x t' c' s.

(** A free task with a key of its own can be linked. *)
Lemma entering_linkable rs q x t t' c c' s :
  cfs_wf rs s -> cfs_tasks s !! x = Some t -> free t -> (forall k r, live rs k r -> r_task r <> x) ->
  schedulers s !! q = Some c -> sched_id c <> UNOWNED -> params t' = params t -> queue_owner t' = sched_id c -> task_ok t' ->
  (if is_realtime (load_sched_params t) then ready_class t' = 0 /\ ready_order t' = rt_priority_key (rt_priority (load_sched_params t))
   else ready_class t' = 1) ->
  advanced (is_realtime (load_sched_params t)) c c' (task_id t') -> linkable rs rs q x t t' c c' s.
Proof.
  intros Hwf Ht Ho Hres Hc Hn Hp Ho' Hok Hkey [Hg Hcok Hnew Hiss _].
  assert (load_sched_params t' = load_sched_params t) as Hl by (unfold load_sched_params; by rewrite Hp).
  assert (queued_ok c' t') as Hq.
  { unfold queued_ok. rewrite Hl. by split. }
  destruct (unissued_key rs s q c c' t' Hwf Hc Hq) as [Hk Hf]; [by rewrite Hl|].
  split; try done.
  - by apply (unowned_unlinked rs s x t Hwf Ht).
  - intros k r Hk'. split; [done|]. by apply (Hres k).
Qed.

Lemma unowned_unreserved rs s x t : cfs_wf rs s -> cfs_tasks s !! x = Some t -> queue_owner t = UNOWNED ->
  forall k r, live rs k r -> r_task r <> x.
Proof. intros Hwf Ht Ho k r. eapply unreserved; [done..|]. by rewrite Ho. Qed.

Lemma task_at_ok rs s x t : cfs_wf rs s -> cfs_tasks s !! x = Some t -> task_ok t /\ params_valid (load_sched_params t).
Proof. intros Hwf Ht. pose proof (wf_task _ _ Hwf x t Ht) as Hok. split; [done|]. apply Hok. Qed.

Lemma rt_key_range p : params_valid p -> in_isize (rt_priority_key (rt_priority p)).
Proof.
  intros Hp. pose proof (params_valid_bounds p Hp) as (_ & ? & _). unfold rt_priority_key, RT_PRIORITY_MAX, u8_MAX, in_isize, isize_MIN, isize_MAX. lia.
Qed.

Lemma rt_entered_ok reset ticks n i p t : task_ok t -> params_valid p -> task_ok (rt_entered reset ticks n i p t).
Proof.
  intros [Hp Hi Hr Hm] Hv. pose proof (rt_key_range p Hv). unfold rt_entered. by destruct reset; split; cbn.
Qed.
Lemma fair_entered_ok action v n i t : task_ok t -> in_isize v -> task_ok (fair_entered action v n i t).
Proof. intros [Hp Hi Hr Hm] Hv. unfold fair_entered. by destruct action; split; cbn. Qed.

Lemma sched_floor rs s q c : cfs_wf rs s -> schedulers s !! q = Some c -> sched_ok c /\ in_isize (default 0 (min_vruntime c)).
Proof.
  intros Hwf Hc. pose proof (wf_sched _ _ Hwf q c Hc) as Hok. split; [done|].
  destruct (min_vruntime c) as [m|] eqn:Hm; cbn; [by apply (ok_min c Hok)|]. unfold in_isize, isize_MIN, isize_MAX. lia.
Qed.

(** The real-time and the fair branch after the claim. *)
Lemma enqueue_rt rs q x t c action s :
  cfs_wf rs s -> cfs_tasks s !! x = Some t -> queue_owner t = UNOWNED -> schedulers s !! q = Some c -> sched_id c <> UNOWNED ->
  claim_enqueue_task q x s = Done (sched_id c) (set_task x (with_owner (sched_id c) t) s) -> is_realtime (load_sched_params t) = true ->
  (exists s', enqueue_with_action q x action s = Done tt s' /\ enters action rs q x t c s s') \/
  (enqueue_with_action q x action s = Fail SequenceExhausted s /\ exhausted c).
Proof.
  intros Hwf Ht Ho Hc Hn Hclaim Hrt. destruct (task_at_ok rs s x t Hwf Ht) as [Hok Hv]. destruct (sched_floor rs s q c Hwf Hc) as [Hcok _].
  unfold enqueue_with_action, enters. rewrite (bind_done _ _ _ _ _ Hclaim).
  set (t1 := with_owner (sched_id c) t). set (s1 := set_task x t1 s).
  assert (cfs_tasks s1 !! x = Some t1) as Ht1 by (by apply (set_task_eq x t1 t)).
  rewrite Hrt. destruct (rt_placement _ _ _) as [front reset] eqn:Hpl.
  destruct (rt_sequence_run q c front s1 Hc Hcok) as [(c' & Hseq & Hadv)|[Hseq Hex]].
  - left. exists (link_state q x (rt_entered reset (rr_ticks s) (if front then rt_front_seq c - 1 else rt_back_seq c)
      (sched_id c) (load_sched_params t) t) c' s). split.
    + erewrite on_error_done; [done|]. run. change (load_sched_params t1) with (load_sched_params t). rewrite Hrt. run.
      change (rr_time_slice t1) with (rr_time_slice t). rewrite Hpl. rewrite (bind_done _ _ _ _ _ Hseq).
      unfold s1. change (set_sched q c' (set_task x t1 s)) with (set_task x t1 (set_sched q c' s)).
      assert (cfs_tasks (set_sched q c' s) !! x = Some t) as Hts by exact Ht.
      run. rewrite cfs_set_task_twice. destruct reset.
      * run. rewrite cfs_set_task_twice. run. rewrite cfs_set_task_twice. done.
      * run. run. rewrite cfs_set_task_twice. done.
    + eexists _, c', _. split_and!; [|exact Hadv|done|reflexivity|done].
      apply entering_linkable; try done.
      * by left.
      * by apply (unowned_unreserved rs s x t).
      * by destruct reset.
      * by destruct reset.
      * by apply rt_entered_ok.
      * rewrite Hrt. by destruct reset.
      * rewrite Hrt. by destruct reset.
  - right. split; [|done]. erewrite on_error_fail; [done| |].
    + run. change (load_sched_params t1) with (load_sched_params t). rewrite Hrt. run.
      change (rr_time_slice t1) with (rr_time_slice t). rewrite Hpl. by rewrite (bind_fail _ _ _ _ _ Hseq).
    + erewrite release_owner_run by (try exact Ht1; done). unfold s1, t1. rewrite cfs_set_task_twice, with_owner_back by done.
      by rewrite set_task_same.
Qed.

Lemma enqueue_fair rs q x t c action s :
  cfs_wf rs s -> cfs_tasks s !! x = Some t -> queue_owner t = UNOWNED -> schedulers s !! q = Some c -> sched_id c <> UNOWNED ->
  claim_enqueue_task q x s = Done (sched_id c) (set_task x (with_owner (sched_id c) t) s) -> is_realtime (load_sched_params t) = false ->
  (exists s', enqueue_with_action q x action s = Done tt s' /\ enters action rs q x t c s s') \/
  (enqueue_with_action q x action s = Fail SequenceExhausted s /\ exhausted c).
Proof.
  intros Hwf Ht Ho Hc Hn Hclaim Hrt. destruct (task_at_ok rs s x t Hwf Ht) as [Hok Hv]. destruct (sched_floor rs s q c Hwf Hc) as [Hcok Hfl].
  pose proof (wf_queue rs s q Hwf) as Hq. assert (x ∉ linked s q) as Hx by (apply (unowned_unlinked rs s x t Hwf Ht); by left).
  unfold enqueue_with_action, enters. rewrite (bind_done _ _ _ _ _ Hclaim).
  set (t1 := with_owner (sched_id c) t). set (s1 := set_task x t1 s).
  assert (cfs_tasks s1 !! x = Some t1) as Ht1 by (by apply (set_task_eq x t1 t)). rewrite Hrt.
  destruct (fair_sequence_run q c s1 Hc Hcok) as [(c' & Hseq & Hadv)|[Hseq Hex]].
  2:{ right. split; [|done]. erewrite on_error_fail; [done| |].
      - run. change (load_sched_params t1) with (load_sched_params t). rewrite Hrt. by rewrite (bind_fail _ _ _ _ _ Hseq).
      - erewrite release_owner_run by (try exact Ht1; done). unfold s1, t1. rewrite cfs_set_task_twice, with_owner_back by done.
        by rewrite set_task_same. }
  left. set (v := placed_vruntime action (default 0 (min_vruntime c)) (min_ready s q) t (load_sched_params t)).
  set (t' := fair_entered action v (fair_sequence c) (sched_id c) t).
  assert (in_isize v) as Hvr by (apply placed_range; [done..|intros w; by apply min_ready_range]).
  assert (linkable rs rs q x t t' c c' s) as Hlink.
  { apply entering_linkable; try done; try (by destruct action); [by left|by apply (unowned_unreserved rs s x t)|by apply fair_entered_ok|rewrite Hrt; by destruct action|].
    rewrite Hrt. unfold t'. by destruct action. }
  destruct (cfs_link_wf rs rs q x t t' c c' s Hwf Hlink) as (Hwf2 & _ & _). pose proof (wf_queue rs _ q Hwf2) as Hq2.
  exists (linked_fair q x t' c' s). split; [|by exists t', c', (fair_sequence c)].
  erewrite on_error_done; [done|]. run. change (load_sched_params t1) with (load_sched_params t). rewrite Hrt.
  rewrite (bind_done _ _ _ _ _ Hseq). set (s2 := set_sched q c' s1).
  destruct (queue_other s s2 q x Hq Hx eq_refl) as [Hqs2 Hkey].
  { intros y Hy. by apply (set_task_ne x y t1 s). }
  assert (min_ready s2 q = min_ready s q) as Hmin.
  { unfold min_ready. change (linked s2 q) with (linked s q).
    rewrite (lower_index_ext (key_of s2) (key_of s)) by exact Hkey.
    destruct (linked s q !! _) as [y|] eqn:Hy; [|done]. cbn [mbind option_bind]. unfold s2, s1. cbn [cfs_tasks set_sched].
    rewrite set_task_ne; [done|]. intros ->. apply Hx. by eapply list_elem_of_lookup_2. }
  assert (cfs_tasks s2 !! x = Some t1) as Ht2 by exact Ht1.
  assert (schedulers s2 !! q = Some c') as Hc2 by (by apply (set_sched_eq q c c' s1)).
  pose proof (enqueue_vruntime_run q x t1 c' action (load_sched_params t) s2 Ht2 Hc2 Hqs2 eq_refl Hv) as Hev.
  rewrite (bind_done _ _ _ _ _ Hev), Hmin, (adv_min _ _ _ _ Hadv).
  change (placed_vruntime action (default 0 (min_vruntime c)) (min_ready s q) t1 (load_sched_params t)) with v.
  unfold s2, s1. change (set_sched q c' (set_task x t1 s)) with (set_task x t1 (set_sched q c' s)).
  assert (cfs_tasks (set_sched q c' s) !! x = Some t) as Hts by exact Ht.
  assert (forall u, cfs_tasks (set_task x u (set_sched q c' s)) !! x = Some u) as Hu by (intros u; by apply (set_task_eq x u t)).
  assert (schedulers (link_state q x t' c' s) !! q = Some c') as Hcl by (by apply (set_sched_eq q c c' s)).
  destruct action; repeat (run; rewrite ?cfs_set_task_twice); unfold linked_fair;
    exact (refresh_run q c' None (link_state q x t' c' s) Hq2 Hcl).
Qed.

End Enqueue.

Section Remove.
Context {L : Type} `{ReadyTreeLaws L}.
Local Abbreviation Cfs := (Cfs L).
Implicit Types (s : Cfs) (q x y : nat) (t u : CFSTask) (c : CFScheduler) (p : CfsTaskParams).
Abbreviation live rs k r := ((rs : list (option CfsTaskReservation)) !! (k : nat) = Some (Some r)).

(** ** Insertion *)

Lemma enqueue_same_claim q x action s s1 :
  claim_enqueue_task q x s = claim_enqueue_task q x s1 -> enqueue_with_action q x action s = enqueue_with_action q x action s1.
Proof. intros Heq. unfold enqueue_with_action, mbind, M_bind. by rewrite Heq. Qed.

Lemma named_claim rs q x c c1 s s1 : ensured rs q c c1 s s1 -> ensure_id q s1 = Done (sched_id c1) s1.
Proof.
  intros [Hwf1 Hc1 Hn _ _ _ _ _ _]. destruct (cfs_ensure_id_run rs s1 q c1 Hwf1 Hc1) as [[_ ?]|[(? & _)|(? & _)]]; [done|congruence..].
Qed.

Lemma ensured_exhausted rs q c c1 s s1 : ensured rs q c c1 s s1 -> exhausted c1 -> exhausted c.
Proof. intros Hen. rewrite (en_same _ _ _ _ _ _ Hen). done. Qed.

(** Why an insertion is refused. *)
Definition enqueue_refused rs q x t c (e : SchedulerError) s s1 : Prop :=
  (e = IdentifierExhausted /\ s1 = s /\ sched_id c = UNOWNED /\ next_scheduler_id s = usize_MAX) \/
  exists c1, ensured rs q c c1 s s1 /\
    ((queue_owner t <> UNOWNED /\ e = refusal q x t s) \/ (queue_owner t = UNOWNED /\ e = SequenceExhausted /\ exhausted c)).

Lemma enqueue_outcome rs q x t c action s :
  cfs_wf rs s -> schedulers s !! q = Some c -> cfs_tasks s !! x = Some t ->
  (exists s1 c1 s', ensured rs q c c1 s s1 /\ queue_owner t = UNOWNED /\
    enqueue_with_action q x action s = Done tt s' /\ enters action rs q x t c1 s1 s') \/
  (exists e s1, enqueue_with_action q x action s = Fail e s1 /\ enqueue_refused rs q x t c e s s1).
Proof.
  intros Hwf Hc Ht. destruct (ensured_run rs q c s Hwf Hc) as [(s1 & c1 & Hid & Hen)|[Hid Hmax]].
  2:{ right. exists IdentifierExhausted, s. split; [|by left]. unfold enqueue_with_action. erewrite bind_fail; [done|].
      unfold claim_enqueue_task. by apply (bind_fail _ _ _ _ _ Hid). }
  pose proof Hen as [Hwf1 Hc1 Hn _ _ Htr Htk _ _]. assert (cfs_tasks s1 !! x = Some t) as Ht1 by (by rewrite Htk).
  assert (claim_enqueue_task q x s = claim_enqueue_task q x s1) as Hcl.
  { unfold claim_enqueue_task. by rewrite (bind_done _ _ _ _ _ Hid), (bind_done _ _ _ _ _ (named_claim rs q x c c1 s s1 Hen)). }
  rewrite (enqueue_same_claim q x action s s1 Hcl). clear Hcl.
  pose proof (named_claim rs q x c c1 s s1 Hen) as Hid1.
  destruct (claim_run rs q x t c1 s1 Hwf1 Hc1 Hn Ht1) as [[Ho Hclaim]|[Ho Hclaim]].
  - assert (claim_enqueue_task q x s1 = Done (sched_id c1) (set_task x (with_owner (sched_id c1) t) s1)) as Hce.
    { unfold claim_enqueue_task. rewrite (bind_done _ _ _ _ _ Hid1). by rewrite (bind_done _ _ _ _ _ Hclaim). }
    assert ((exists s', enqueue_with_action q x action s1 = Done tt s' /\ enters action rs q x t c1 s1 s') \/
      (enqueue_with_action q x action s1 = Fail SequenceExhausted s1 /\ exhausted c1)) as [(s' & He & Hin)|[He Hex]].
    { destruct (is_realtime (load_sched_params t)) eqn:Hrt; [by apply enqueue_rt|by apply enqueue_fair]. }
    + left. by exists s1, c1, s'.
    + right. exists SequenceExhausted, s1. split; [done|]. right. exists c1. split; [done|]. right. split_and!; try done. by apply (ensured_exhausted rs q c c1 s s1).
  - right. exists (refusal q x t s1), s1. split.
    { unfold enqueue_with_action. erewrite bind_fail; [done|]. unfold claim_enqueue_task.
      rewrite (bind_done _ _ _ _ _ Hid1). by rewrite (bind_fail _ _ _ _ _ Hclaim). }
    right. exists c1. split; [done|]. left. split; [done|]. unfold refusal, linked. by rewrite Htr.
Qed.

(** What an insertion leaves behind. *)
Lemma enters_wf action rs q x t c s s' : cfs_wf rs s -> enters action rs q x t c s s' ->
  cfs_wf rs s' /\ linked s' q ≡ₚ x :: linked s q /\ (forall j, j <> q -> linked s' j = linked s j) /\
  (forall y, y <> x -> cfs_tasks s' !! y = cfs_tasks s !! y) /\ length (schedulers s') = length (schedulers s).
Proof.
  intros Hwf (t' & c' & n & Hlink & Hadv & Hcase). destruct (cfs_link_wf _ _ _ _ _ _ _ _ _ Hwf Hlink) as (Hwf2 & Hq & Hj).
  assert (forall y, y <> x -> cfs_tasks (link_state q x t' c' s) !! y = cfs_tasks s !! y) as Hty.
  { intros y Hy. by apply (set_task_ne x y t' (set_sched q c' s)). }
  assert (length (schedulers (link_state q x t' c' s)) = length (schedulers s)) as Hlen by apply length_insert.
  destruct (is_realtime _).
  - destruct (rt_placement _ _ _) as [front reset]. by destruct Hcase as (_ & _ & ->).
  - destruct Hcase as (_ & _ & ->). unfold linked_fair. split_and!; try done; [|cbn; by rewrite !length_insert].
    apply (refresh_wf rs _ q c'); [done| |done]. apply (set_sched_eq q c c' s), Hlink.
Qed.

(** ** Removal *)

(** The migration state a removal stages. *)
Definition staged (floor : Z) t : CFSTask :=
  let p := load_sched_params t in
  if is_realtime p then with_offset_valid false t
  else with_offset_valid true (with_offset (saturating_sub_isize (default 0 (get_vruntime_with t p)) floor) t).

Lemma stage_run {E} x t floor s : cfs_tasks s !! x = Some t -> params_valid (load_sched_params t) ->
  (stage_migration_vruntime_offset x floor : M Cfs E ()) s = Done tt (set_task x (staged floor t) s).
Proof.
  intros Ht Hv. unfold stage_migration_vruntime_offset, staged. run.
  destruct (is_realtime (load_sched_params t)); [by apply update_task_run|].
  destruct (vruntime_valid t _ Hv) as (v & Hg & _). rewrite Hg. run. run.
  rewrite (update_task_run x (with_offset (saturating_sub_isize v floor) t)) by (by apply (set_task_eq x _ t)).
  by rewrite cfs_set_task_twice.
Qed.

Lemma staged_ok floor t : task_ok t -> task_ok (staged floor t).
Proof.
  intros [Hp Hi Hr Hm]. unfold staged. destruct (is_realtime _); split; cbn; try done. apply saturate_range.
Qed.

(** The trees after the removal of one task. *)
Definition removed_from (l : L) q l1 l2 s : Prop := forall j, members l j = on_list q (l1 ++ l2) (linked s) j.

(** The state after a removal; a fair task moves the floor. *)
Definition removed (l : L) q x t c s : Cfs :=
  let s1 := unlinked l x t s in
  if ready_class t =? 0 then s1 else set_sched q (refreshed None (min_ready s1 q) c) s1.

Lemma removed_wf rs l l1 l2 q x t t' c s :
  cfs_wf rs s -> schedulers s !! q = Some c -> cfs_tasks s !! x = Some t -> linked s q = l1 ++ x :: l2 ->
  removed_from l q l1 l2 s -> free t' -> task_ok t' -> cfs_wf rs (removed l q x t' c s).
Proof.
  intros Hwf Hc Ht Hl Hrem Hf Hok. unfold removed. pose proof (cfs_unlink_wf rs s q x t t' l l1 l2 Hwf Ht Hl Hrem Hf Hok) as Hwf1.
  destruct (ready_class t' =? 0); [done|]. apply (refresh_wf rs _ q c); try done.
Qed.

(** The cursor of a linked task. *)
Lemma remove_cursor q l1 x l2 (cur : tree_cursor) s : linked s q = l1 ++ x :: l2 -> points cur (trees s) q (length l1) ->
  tree_get cur (trees s) = Some x /\ exists l, tree_remove cur (trees s) = (Some x, l) /\ removed_from l q l1 l2 s.
Proof.
  intros Hl Hp. assert (members (trees s) q !! length l1 = Some x) as Hx.
  { fold (linked s q). by rewrite Hl, lookup_app_r, Nat.sub_diag. }
  split; [by rewrite (tree_get_at _ _ _ _ Hp)|]. exists (tree_remove cur (trees s)).2. split.
  - rewrite <- Hx, <- (tree_remove_result _ _ _ _ Hp). by destruct (tree_remove cur (trees s)).
  - intros j. rewrite (tree_remove_members _ _ _ _ j Hp). fold (linked s q). rewrite Hl. f_equal.
    rewrite take_app_length. f_equal. rewrite drop_app_ge by lia.
    by replace (S (length l1) - length l1)%nat with 1%nat by lia.
Qed.

Lemma remove_linked rs q x t c o (preserve : bool) s :
  cfs_wf rs s -> schedulers s !! q = Some c -> cfs_tasks s !! x = Some t -> x ∈ linked s q ->
  let t' := with_owner o (if preserve then staged (default 0 (min_vruntime c)) t else t) in
  o = UNOWNED \/ o = CONFIGURING ->
  exists l l1 l2, linked s q = l1 ++ x :: l2 /\ removed_from l q l1 l2 s /\
    remove_owned_task q x o preserve s = Done (Some x) (removed l q x t' c s).
Proof.
  intros Hwf Hc Ht Hx t' Hfree. destruct (task_at_ok rs s x t Hwf Ht) as [Hok Hv].
  destruct (linked_owner rs s q x t Hwf Hx Ht) as [Hu Hcf].
  destruct (wf_linked _ _ Hwf q x Hx) as (c0 & t0 & Hc0 & Hn & Ht0 & Ho & _).
  rewrite Hc in Hc0. injection Hc0 as <-. rewrite Ht in Ht0. injection Ht0 as <-.
  apply list_elem_of_split in Hx as (l1 & l2 & Hl). pose proof (wf_sorted _ _ Hwf q) as Hs. rewrite Hl in Hs.
  pose proof (lower_index_member (key_of s) l1 x l2 Hs) as Hi. rewrite (key_of_task s x t Ht), <- Hl in Hi.
  pose proof (tree_lower_bound_points (key_of s) q (ready_key t) (trees s) (wf_sorted _ _ Hwf q)) as Hp.
  fold (linked s q) in Hp. rewrite Hi in Hp. set (cur := tree_lower_bound (key_of s) q (ready_key t) (trees s)) in *.
  destruct (remove_cursor q l1 x l2 cur s Hl Hp) as (Hget & l & Htr & Hrem).
  exists l, l1, l2. split; [done|]. split; [done|]. unfold remove_owned_task. run. run.
  rewrite (proj2 (Z.eqb_neq _ _) Hu), (proj2 (Z.eqb_neq _ _) Hcf), Ho, Z.eqb_refl, (proj2 (Z.eqb_neq _ UNOWNED)) by done. cbn [negb orb].
  run. run. fold cur.
  assert (find_task (S (length (cfs_tasks s))) (ready_key t) x cur s = Done cur s) as Hfind.
  { cbn [find_task]. run. rewrite Hget, bool_decide_false by (rewrite (key_of_task s x t Ht); by intros []). by rewrite bool_decide_true. }
  rewrite (bind_done _ _ _ _ _ Hfind). set (t1 := if preserve then staged (default 0 (min_vruntime c)) t else t) in *.
  assert ((if preserve then stage_migration_vruntime_offset x (default 0 (min_vruntime c)) else mret tt) s =
    Done (E := SchedulerError) tt (set_task x t1 s)) as Hst.
  { unfold t1. destruct preserve; [by apply stage_run|]. by rewrite set_task_same. }
  rewrite (bind_done _ _ _ _ _ Hst). run. change (trees (set_task x t1 s)) with (trees s). rewrite Htr. run.
  change (set_trees l (set_task x t1 s)) with (unlinked l x t1 s).
  assert (cfs_tasks (unlinked l x t1 s) !! x = Some t1) as Ht1 by (by apply (set_task_eq x t1 t)).
  assert (queue_owner t1 = sched_id c) as Ho1 by (unfold t1, staged; destruct preserve; [|done]; by destruct (is_realtime _)).
  rewrite (bind_done _ _ _ _ _ (transfer_owner_run x t1 (sched_id c) o _ Ht1 Ho1)).
  assert (set_task x (with_owner o t1) (unlinked l x t1 s) = unlinked l x t' s) as -> by apply cfs_set_task_twice.
  unfold removed. assert (ready_class t' = ready_class t) as ->.
  { unfold t', t1, staged. destruct preserve; [|done]. by destruct (is_realtime (load_sched_params t)). }
  change ((ready_key t).1.1) with (ready_class t). destruct (ready_class t =? 0); [done|].
  assert (cfs_wf rs (unlinked l x t' s)) as Hwf1.
  { eapply cfs_unlink_wf; try done. unfold t', t1. assert (task_ok (staged (default 0 (min_vruntime c)) t)) as Hsk by (by apply staged_ok).
    destruct preserve; [destruct Hsk|destruct Hok]; by split. }
  erewrite bind_done; [done|]. apply refresh_run; [by apply (wf_queue rs)|done].
Qed.

(** The other outcomes of a removal. *)
Lemma remove_other rs q x t c o preserve s :
  cfs_wf rs s -> schedulers s !! q = Some c -> cfs_tasks s !! x = Some t -> x ∉ linked s q ->
  remove_owned_task q x o preserve s =
    if queue_owner t =? UNOWNED then Done None s
    else Fail (if queue_owner t =? CONFIGURING then TaskBusy else ForeignQueue) s.
Proof.
  intros Hwf Hc Ht Hx. unfold remove_owned_task. run. run. destruct (queue_owner t =? UNOWNED) eqn:Hu; [done|].
  destruct (queue_owner t =? CONFIGURING) eqn:Hcf; [done|]. apply Z.eqb_neq in Hu, Hcf.
  destruct (owner_cases rs s q x c t Hwf Hc Ht) as [?|[?|[(_ & _ & ?)|(_ & _ & Hne & _)]]]; [done..|].
  by rewrite (proj2 (Z.eqb_neq _ _) Hne).
Qed.

(** ** The front of the queue *)

Lemma take_front_run rs q c s : cfs_wf rs s -> schedulers s !! q = Some c ->
  match linked s q with
  | [] => exists l, take_front q s = Done None (set_trees l s) /\ removed_from l q [] [] s
  | x :: l2 => exists t l, cfs_tasks s !! x = Some t /\ removed_from l q [] l2 s /\
      take_front q s = Done (Some x) (unlinked l x (with_owner UNOWNED t) s) /\ cfs_wf rs (unlinked l x (with_owner UNOWNED t) s)
  end.
Proof.
  intros Hwf Hc. unfold take_front. pose proof (tree_front_points q (trees s)) as Hp. destruct (linked s q) as [|x l2] eqn:Hl.
  - exists (tree_remove (tree_front q (trees s)) (trees s)).2. erewrite bind_done by done. split.
    + pose proof (tree_remove_result _ _ _ _ Hp) as Hr. fold (linked s q) in Hr. rewrite Hl in Hr. cbn in Hr.
      destruct (tree_remove _ _) as [o l]. cbn in *. by subst.
    + intros j. rewrite (tree_remove_members _ _ _ _ j Hp). fold (linked s q). by rewrite Hl.
  - assert (x ∈ linked s q) as Hx by (rewrite Hl; left).
    destruct (wf_linked _ _ Hwf q x Hx) as (c0 & t & Hc0 & Hn & Ht & Ho & _). simplify_eq.
    destruct (remove_cursor q [] x l2 (tree_front q (trees s)) s Hl Hp) as (_ & l & Htr & Hrem). exists t, l.
    split; [done|]. split; [done|]. split.
    + erewrite bind_done by done. rewrite Htr. run.
      rewrite (bind_done _ _ _ _ _ (sched_at_run q c (set_trees l s) Hc)).
      rewrite (bind_done _ _ _ _ _ (cfs_task_at_run x t (set_trees l s) Ht)). rewrite Ho, Z.eqb_refl.
      by rewrite (bind_done _ _ _ _ _ (update_task_run x t _ (set_trees l s) Ht)).
    + eapply (cfs_unlink_wf rs s q x t _ l [] l2); try done; [by left|].
      destruct (wf_task _ _ Hwf x t Ht). by split.
Qed.

End Remove.
