(* ===== verification/CfsConfigure.v ===== *)
(** The completely fair scheduler, part 4: configuration of tasks, reservations
    and their commits, and new parameters for queued tasks with the rollback of
    a failed update. *)

From S2P Require Import Prelude Effects Atomics ReadyTree Sched Cfs CfsSpec CfsQueue.
Local Open Scope Z_scope.

Section Configure.
Context {L : Type} `{ReadyTreeLaws L}.
Local Abbreviation Cfs := (Cfs L).
Implicit Types (s : Cfs) (q x y : nat) (t u : CFSTask) (c : CFScheduler) (p : CfsTaskParams).
Abbreviation live rs k r := ((rs : list (option CfsTaskReservation)) !! (k : nat) = Some (Some r)).

(** ** New parameters *)

(** A task with new parameters: its vruntime is kept, its slice starts afresh. *)
Definition applied (ticks : Z) p t : CFSTask :=
  with_params (packed p)
    (with_slice (if is_realtime p then as_isize ticks else 0)
      (rebase_vruntime (default 0 (get_vruntime_with t (load_sched_params t))) t)).

Lemma apply_run x t p s : cfs_tasks s !! x = Some t -> params_valid (load_sched_params t) ->
  apply_validated x p s = Done (E := SchedulerError) tt (set_task x (applied (rr_ticks s) p t) s).
Proof.
  intros Ht Hv. destruct (vruntime_valid t _ Hv) as (v & Hg & _). unfold apply_validated, applied. rewrite Hg.
  run. run. run. destruct (is_realtime p).
  - run. rewrite cfs_set_task_twice. erewrite update_task_run by look. by rewrite cfs_set_task_twice.
  - run. rewrite cfs_set_task_twice. erewrite update_task_run by look. by rewrite cfs_set_task_twice.
Qed.

Lemma applied_params ticks p t : params_valid p -> load_sched_params (applied ticks p t) = p.
Proof. intros Hp. by apply from_packed_packed. Qed.

Lemma applied_ok ticks p t : task_ok t -> params_valid p -> task_ok (applied ticks p t).
Proof.
  intros [[Hp _] Hi Hr Hm] Hv. pose proof (applied_params ticks p t Hv) as Hl. split; try done.
  - by rewrite Hl.
  - destruct (vruntime_valid t _ Hp) as (v & Hg & ?). cbn. by rewrite Hg.
Qed.

(** The vruntime of a task does not change with its parameters. *)
Lemma applied_vruntime ticks p t : params_valid (load_sched_params t) -> params_valid p ->
  get_vruntime_with (applied ticks p t) p = get_vruntime_with t (load_sched_params t).
Proof.
  intros Hv Hp. destruct (vruntime_valid t _ Hv) as (v & Hg & Hr). rewrite Hg. unfold applied. rewrite Hg.
  by apply (vruntime_rebased v t p).
Qed.

(** ** Configuration of a free task *)

Definition busy t : SchedulerError := if queue_owner t =? CONFIGURING then TaskBusy else AlreadyQueued.

Lemma claim_configuration_run x t s : cfs_tasks s !! x = Some t ->
  claim_configuration x s =
    if queue_owner t =? UNOWNED then Done tt (set_task x (with_owner CONFIGURING t) s) else Fail (busy t) s.
Proof.
  intros Ht. unfold claim_configuration. run. destruct (queue_owner t =? UNOWNED); [|done]. by apply update_task_run.
Qed.

(** The end of a configuration that changed [t] into [t'], and its failure. *)
Lemma finish_run x t t' s : cfs_tasks s !! x = Some t -> queue_owner t' = CONFIGURING ->
  finish_configuration x (set_task x t' s) = Done tt (set_task x (with_owner UNOWNED t') s).
Proof.
  intros Ht Ho. unfold finish_configuration. erewrite transfer_owner_run by (try done; look). by rewrite cfs_set_task_twice.
Qed.
Lemma drop_configuration_run x t s : cfs_tasks s !! x = Some t -> queue_owner t = UNOWNED ->
  drop_configuration x (set_task x (with_owner CONFIGURING t) s) = Done tt s.
Proof.
  intros Ht Ho. unfold drop_configuration. erewrite release_owner_run by (try done; look).
  by rewrite cfs_set_task_twice, with_owner_back, set_task_same.
Qed.

Lemma applied_owner ticks p t o o' : queue_owner t = o' -> with_owner o' (applied ticks p (with_owner o t)) = applied ticks p t.
Proof. intros <-. by destruct t. Qed.

Lemma configure_run x t p s : cfs_tasks s !! x = Some t -> params_valid (load_sched_params t) ->
  configure x p s =
    match validated p with
    | None => Fail InvalidParameters s
    | Some p => if queue_owner t =? UNOWNED then Done tt (set_task x (applied (rr_ticks s) p t) s) else Fail (busy t) s
    end.
Proof.
  intros Ht Hv. unfold configure. destruct (validated p) as [p'|]; [|done]. run.
  pose proof (claim_configuration_run x t s Ht) as Hc. destruct (queue_owner t =? UNOWNED) eqn:Hu.
  - apply Z.eqb_eq in Hu. rewrite (bind_done _ _ _ _ _ Hc).
    erewrite bind_done by (eapply apply_run; [look|done]). rewrite cfs_set_task_twice.
    rewrite (finish_run x t) by done. cbn [rr_ticks set_task]. by rewrite applied_owner.
  - by rewrite (bind_fail _ _ _ _ _ Hc).
Qed.

Lemma configure_nice_run x t n s : cfs_tasks s !! x = Some t -> params_valid (load_sched_params t) -> -20 <= n <= 19 ->
  configure_nice x n s =
    if queue_owner t =? UNOWNED then
      if is_realtime (load_sched_params t) then Fail IncompatibleClass s
      else Done tt (set_task x (applied (rr_ticks s) (default params_default (validated (mkParams (class (load_sched_params t)) n 0))) t) s)
    else Fail (busy t) s.
Proof.
  intros Ht Hv Hn. unfold configure_nice. pose proof (claim_configuration_run x t s Ht) as Hc.
  destruct (queue_owner t =? UNOWNED) eqn:Hu; [|by rewrite (bind_fail _ _ _ _ _ Hc)]. apply Z.eqb_eq in Hu.
  rewrite (bind_done _ _ _ _ _ Hc). set (t1 := with_owner CONFIGURING t).
  change (load_sched_params t) with (load_sched_params t1) in *. destruct (is_realtime (load_sched_params t1)) eqn:Hrt.
  - erewrite bind_fail; [done|]. eapply on_error_fail; [|by apply drop_configuration_run]. run. fold t1. by rewrite Hrt.
  - assert (exists p', validated (mkParams (class (load_sched_params t1)) n 0) = Some p') as [p' Hp'].
    { unfold validated, is_realtime in *. cbn [class nice rt_priority].
      destruct (class (load_sched_params t1)); try done; cbn -[Z.leb]; unfold NICE_RANGE_POS;
        (rewrite (proj2 (Z.leb_le _ _)), (proj2 (Z.leb_le _ _)) by lia; by eexists). }
    rewrite Hp'. cbn [default from_option id]. erewrite bind_done.
    2:{ eapply on_error_done. run. fold t1. rewrite Hrt. rewrite Hp'. run. eapply apply_run; [look|done]. }
    rewrite cfs_set_task_twice, (finish_run x t) by done. cbn [rr_ticks set_task]. unfold t1. by rewrite applied_owner.
Qed.

(** A child seeded just behind its parent. *)
Definition inherited t u : CFSTask :=
  with_seeded true (rebase_vruntime
    (saturating_add_isize (default 0 (get_vruntime_with u (load_sched_params u))) FAIR_PREEMPT_GRANULARITY_TICKS) t).

Lemma inherit_run x t parent u s :
  cfs_tasks s !! x = Some t -> cfs_tasks s !! parent = Some u -> params_valid (load_sched_params u) ->
  inherit_fair_vruntime_from x parent s =
    if queue_owner t =? UNOWNED then
      if is_realtime (load_sched_params t) || is_realtime (load_sched_params u) then Fail IncompatibleClass s
      else Done tt (set_task x (inherited t u) s)
    else Fail (busy t) s.
Proof.
  intros Ht Hu Hv. unfold inherit_fair_vruntime_from. pose proof (claim_configuration_run x t s Ht) as Hc.
  destruct (queue_owner t =? UNOWNED) eqn:Ho; [|by rewrite (bind_fail _ _ _ _ _ Hc)]. apply Z.eqb_eq in Ho.
  rewrite (bind_done _ _ _ _ _ Hc). set (t1 := with_owner CONFIGURING t). set (s1 := set_task x t1 s).
  assert (cfs_tasks s1 !! x = Some t1) as Ht1 by (by apply (set_task_eq x t1 t)).
  assert (exists u1, cfs_tasks s1 !! parent = Some u1 /\ load_sched_params u1 = load_sched_params u /\
    get_vruntime_with u1 (load_sched_params u) = get_vruntime_with u (load_sched_params u)) as (u1 & Hu1 & Hl & Hg).
  { destruct (decide (parent = x)) as [->|Hne]; [simplify_eq; by exists t1|]. exists u. unfold s1. by rewrite set_task_ne. }
  change (load_sched_params t) with (load_sched_params t1) in *.
  destruct (is_realtime (load_sched_params t1) || is_realtime (load_sched_params u)) eqn:Hrt.
  - erewrite bind_fail; [done|]. eapply on_error_fail; [|by apply drop_configuration_run]. fold t1 s1. run. run.
    by rewrite Hl, Hrt.
  - destruct (vruntime_valid u _ Hv) as (v & Hgv & _). unfold inherited. rewrite Hgv. rewrite Hgv in Hg. erewrite bind_done.
    2:{ eapply on_error_done. run. erewrite bind_done by (eapply sched_params_run; exact Hu1). rewrite Hl, Hrt.
        erewrite bind_done by (eapply vruntime_run; [exact Hu1|exact Hg]). run. eapply update_task_run. look. }
    unfold s1. rewrite !cfs_set_task_twice, (finish_run x t) by done. do 2 f_equal. unfold t1. destruct t. cbn in *. by subst.
Qed.

(** ** Reservations *)

(** A new reservation of a task that is being configured. *)
Lemma reserve_wf rs s r t :
  cfs_wf rs s -> cfs_tasks s !! r_task r = Some t -> queue_owner t = CONFIGURING -> load_sched_params t = r_params r ->
  0 < r_scheduler_id r < next_scheduler_id s ->
  (forall k r', live rs k r' -> r_task r' <> r_task r /\
    (r_scheduler_id r' = r_scheduler_id r -> is_realtime (r_params r') = is_realtime (r_params r) -> r_sequence r' <> r_sequence r)) ->
  (forall q c, schedulers s !! q = Some c -> sched_id c = r_scheduler_id r -> issued c (is_realtime (r_params r)) (r_sequence r) /\
    forall y u, y ∈ linked s q -> cfs_tasks s !! y = Some u ->
      is_realtime (load_sched_params u) = is_realtime (r_params r) -> task_id u <> r_sequence r) ->
  cfs_wf (rs ++ [Some r]) s.
Proof.
  intros Hwf Ht Ho Hp Hid Hold Hnew.
  assert (forall k r', live (rs ++ [Some r]) k r' -> live rs k r' \/ (k = length rs /\ r' = r)) as Hcases.
  { intros k r' [Hk|[Hge Hk]]%lookup_app_Some; [by left|]. apply list_lookup_singleton_Some in Hk as [Hk [= ->]].
    right. split; [lia|done]. }
  destruct Hwf as [W1 W2 W3 W4 W5 W6 W7 W8 [R1 R2 R3 R4 R5]]. split; try done. split.
  - intros k r' [Hk|[-> ->]]%Hcases; [by apply (R1 k)|by exists t].
  - intros k r' [Hk|[-> ->]]%Hcases; [by apply (R2 k)|done].
  - intros k r' q c [Hk|[-> ->]]%Hcases Hc Hi; [by apply (R3 k r' q)|by apply (Hnew q c)].
  - intros k r' q c y u [Hk|[-> ->]]%Hcases Hc Hi Hy Hu; [by apply (R4 k r' q c y u)|exact (proj2 (Hnew q c Hc Hi) y u Hy Hu)].
  - intros j k r' r'' [Hj|[-> ->]]%Hcases [Hk|[-> ->]]%Hcases Hne; [by apply (R5 j k)|..|done].
    + by apply (Hold j).
    + destruct (Hold k r'' Hk) as [Hx Hs]. split; [by intros He|]. intros He1 He2 He3. by apply Hs.
Qed.

(** Insertion of a reservation. *)
Definition reserves rs q x t c s r s' : Prop :=
  exists c', advanced (is_realtime (load_sched_params t)) c c' (r_sequence r) /\
    r = mkReservation x (sched_id c) (r_sequence r) (load_sched_params t) /\
    s' = set_task x (with_owner CONFIGURING t) (set_sched q c' s) /\ cfs_wf (rs ++ [Some r]) s'.

Lemma reserve_seq q t c s : schedulers s !! q = Some c -> sched_ok c ->
  let rt := is_realtime (load_sched_params t) in
  (exists n c', (if rt then next_rt_seq q false else next_fair_sequence q) s = Done n (set_sched q c' s) /\ advanced rt c c' n) \/
  ((if rt then next_rt_seq q false else next_fair_sequence q) s = Fail SequenceExhausted s /\ exhausted c).
Proof.
  intros Hc Hok rt. destruct rt.
  - destruct (rt_sequence_run q c false s Hc Hok) as [(c' & ? & ?)|[? ?]]; [left; by eexists _, c'|by right].
  - destruct (fair_sequence_run q c s Hc Hok) as [(c' & ? & ?)|[? ?]]; [left; by eexists _, c'|by right].
Qed.

Lemma reserved_wf rs q x t c c' n s :
  cfs_wf rs s -> schedulers s !! q = Some c -> sched_id c <> UNOWNED -> cfs_tasks s !! x = Some t -> queue_owner t = UNOWNED ->
  advanced (is_realtime (load_sched_params t)) c c' n ->
  cfs_wf (rs ++ [Some (mkReservation x (sched_id c) n (load_sched_params t))])
    (set_task x (with_owner CONFIGURING t) (set_sched q c' s)).
Proof.
  intros Hwf Hc Hn Ht Ho [Hg Hok Hnew Hiss _]. pose proof (unowned_unreserved rs s x t Hwf Ht Ho) as Hun.
  assert (cfs_wf rs (set_task x (with_owner CONFIGURING t) (set_sched q c' s))) as Hwf1.
  { apply (free_task_wf rs rs _ x t); [by apply (sched_step_wf rs s q c)|done|by left|by right| |].
    - destruct (wf_task _ _ Hwf x t Ht). by split.
    - intros k r Hk. split; [done|]. intros Hr. by apply Hun in Hk. }
  apply (reserve_wf rs _ _ (with_owner CONFIGURING t)); try done.
  - by apply (set_task_eq x _ t).
  - pose proof (wf_id _ _ Hwf q c Hc). cbn. unfold UNOWNED in *. lia.
  - intros k r Hk. split; [by apply (Hun k)|]. cbn. intros Hid Hrt Heq. apply Hnew. rewrite <- Hrt, <- Heq.
    by apply (res_issued _ _ (wf_reservations _ _ Hwf) k r q c).
  - intros j d Hd Hid. cbn in Hid. assert (j = q) as ->.
    { destruct (decide (j = q)) as [|Hj]; [done|]. cbn in Hd. rewrite list_lookup_insert_ne in Hd by done.
      apply (wf_ids _ _ Hwf j q d c); congruence. }
    assert (d = c') as ->.
    { cbn in Hd. rewrite list_lookup_insert_eq in Hd by (by eapply lookup_lt_Some). by injection Hd. }
    split; [done|]. intros y u Hy Hu Hrt Heq. change (y ∈ linked s q) in Hy.
    destruct (linked_task rs s q y Hwf Hy) as (d & v & Hd' & Hv & [Hi _] & _). simplify_eq.
    assert (y <> x) by (intros ->; eapply (unowned_unlinked rs s x t Hwf Ht); [by left|exact Hy]).
    cbn in Hu. rewrite list_lookup_insert_ne in Hu by done. simplify_eq. cbn in Hrt, Heq. apply Hnew. by rewrite <- Hrt, <- Heq.
Qed.

Lemma reserve_outcome rs q x t c s :
  cfs_wf rs s -> schedulers s !! q = Some c -> cfs_tasks s !! x = Some t ->
  (exists s1 c1 r s', ensured rs q c c1 s s1 /\ queue_owner t = UNOWNED /\
    reserve_new_task q x s = Done r s' /\ reserves rs q x t c1 s1 r s') \/
  (exists e s1, reserve_new_task q x s = Fail e s1 /\ enqueue_refused rs q x t c e s s1).
Proof.
  intros Hwf Hc Ht. unfold reserve_new_task. destruct (ensured_run rs q c s Hwf Hc) as [(s1 & c1 & Hid & Hen)|[Hid Hmax]].
  2:{ right. exists IdentifierExhausted, s. split; [by apply (bind_fail _ _ _ _ _ Hid)|by left]. }
  pose proof Hen as [Hwf1 Hc1 Hn _ _ Htr Htk _ _]. assert (cfs_tasks s1 !! x = Some t) as Ht1 by (by rewrite Htk).
  rewrite (bind_done _ _ _ _ _ Hid). run. destruct (queue_owner t =? UNOWNED) eqn:Hu.
  - apply Z.eqb_eq in Hu. run. run. change (load_sched_params (with_owner CONFIGURING t)) with (load_sched_params t).
    set (s2 := set_task x (with_owner CONFIGURING t) s1). assert (schedulers s2 !! q = Some c1) as Hc2 by exact Hc1.
    destruct (reserve_seq q t c1 s2 Hc2 (wf_sched _ _ Hwf1 q c1 Hc1)) as [(n & c' & Hseq & Hadv)|[Hseq Hex]].
    + left. rewrite (bind_done _ _ _ _ _ (on_error_done _ _ _ _ _ Hseq)).
      eexists s1, c1, _, _. split; [done|]. split; [done|]. split; [done|]. exists c'. split; [done|]. split; [done|].
      split; [done|]. exact (reserved_wf rs q x t c1 c' n s1 Hwf1 Hc1 Hn Ht1 Hu Hadv).
    + right. exists SequenceExhausted, s1. split.
      * erewrite bind_fail; [done|]. eapply on_error_fail; [exact Hseq|]. erewrite release_owner_run; [|by apply (set_task_eq x _ t)|done].
        unfold s2. by rewrite cfs_set_task_twice, with_owner_back, set_task_same.
      * right. exists c1. split; [done|]. right. split_and!; try done. by apply (ensured_exhausted rs q c c1 s s1).
  - right. apply Z.eqb_neq in Hu. exists (refusal q x t s), s1. split.
    + erewrite bind_fail; [done|]. unfold throw. f_equal. unfold refusal. destruct (queue_owner t =? CONFIGURING) eqn:Hcf; [done|].
      apply Z.eqb_neq in Hcf. destruct (owner_cases rs s1 q x c1 t Hwf1 Hc1 Ht1) as [?|[?|[(-> & _ & Hx)|(_ & _ & Hne & q' & Hq' & Hx)]]]; try done.
      * rewrite Z.eqb_refl. unfold linked in *. rewrite Htr in Hx. by rewrite decide_True.
      * rewrite (proj2 (Z.eqb_neq _ _) Hne). unfold linked in *. rewrite Htr in Hx. rewrite decide_False; [done|].
        intros Hx'. apply Hq'. by apply (cfs_linked_once rs s q' q x).
    + right. exists c1. split; [done|by left].
Qed.

End Configure.

Section Reconfigure.
Context {L : Type} `{ReadyTreeLaws L}.
Local Abbreviation Cfs := (Cfs L).
Implicit Types (s : Cfs) (q x y : nat) (t u : CFSTask) (c : CFScheduler) (p : CfsTaskParams).
Abbreviation live rs k r := ((rs : list (option CfsTaskReservation)) !! (k : nat) = Some (Some r)).

(** ** Commits *)

(** The task of a reservation as it enters. *)
Definition rt_committed (ticks n i : Z) p t : CFSTask :=
  let t := with_owner i t in
  stage_ready_key 0 (rt_priority_key (rt_priority p)) n
    (if bool_decide (class p = RoundRobin) then with_slice (as_isize ticks) t else t).
Definition fair_committed (v n i : Z) t : CFSTask :=
  stage_ready_key 1 v n (rebase_vruntime v (with_seeded false (with_owner i t))).

Definition committed q c r t s : CFSTask :=
  let p := r_params r in
  if is_realtime p then rt_committed (rr_ticks s) (r_sequence r) (sched_id c) p t
  else fair_committed (placed_vruntime ActNew (default 0 (min_vruntime c)) (min_ready s q) t p) (r_sequence r) (sched_id c) t.

Lemma commit_linkable rs k r q c t s :
  cfs_wf rs s -> live rs k r -> schedulers s !! q = Some c -> r_scheduler_id r = sched_id c -> cfs_tasks s !! r_task r = Some t ->
  queue_owner t = CONFIGURING -> load_sched_params t = r_params r ->
  linkable rs (<[k := None]> rs) q (r_task r) t (committed q c r t s) c c s.
Proof.
  intros Hwf Hk Hc Hid Ht Ho Hp. destruct (task_at_ok rs s _ t Hwf Ht) as [Hok Hv]. rewrite Hp in Hv.
  destruct (sched_floor rs s q c Hwf Hc) as [Hcok Hfl]. pose proof (wf_reservations _ _ Hwf) as [R1 R2 R3 R4 R5].
  pose proof (R2 k r Hk) as Hrid. set (t' := committed q c r t s).
  assert (params t' = params t /\ queue_owner t' = sched_id c /\ task_id t' = r_sequence r /\ task_ok t') as (Hpar & Ho' & Hseq & Hok').
  { unfold t', committed. destruct (is_realtime (r_params r)).
    - unfold rt_committed. pose proof (rt_key_range _ Hv). destruct Hok. destruct (bool_decide _); split_and!; try done; by split.
    - unfold fair_committed. assert (in_isize (placed_vruntime ActNew (default 0 (min_vruntime c)) (min_ready s q) t (r_params r))).
      { apply placed_range; [done..|]. intros w. apply min_ready_range. by apply (wf_queue rs). }
      destruct Hok. split_and!; try done; by split. }
  assert (load_sched_params t' = r_params r) as Hl by (unfold load_sched_params; rewrite Hpar; exact Hp).
  assert (queued_ok c t') as Hq.
  { unfold queued_ok. rewrite Hl, Hseq. split; [by apply (R3 k r q)|]. unfold t', committed. destruct (is_realtime (r_params r)); [|done].
    unfold rt_committed. by destruct (bool_decide _). }
  assert (forall j r', live (<[k := None]> rs) j r' -> j <> k /\ live rs j r') as Hlive.
  { intros j r' Hj. destruct (decide (k = j)) as [<-|Hne]; [|by rewrite list_lookup_insert_ne in Hj].
    rewrite list_lookup_insert_eq in Hj by (by eapply lookup_lt_Some). done. }
  split; try done.
  - unfold UNOWNED. lia.
  - apply (unowned_unlinked rs s _ t Hwf Ht). by right.
  - intros y Hy Heq. destruct (linked_task rs s q y Hwf Hy) as (d & u & Hd & Hu & [_ Hk'] & _). simplify_eq.
    rewrite (key_of_task s y u Hu) in Heq. injection Heq as H1 H2 H3. rewrite Hseq in H3.
    apply (R4 k r q c y u Hk Hc); try done. destruct Hq as [_ Hkq]. rewrite Hl in Hkq.
    destruct (is_realtime (load_sched_params u)), (is_realtime (r_params r)); try done;
      [destruct Hk' as [? _]|destruct Hkq as [? _]]; lia.
  - intros j r' [Hj Hr']%Hlive. split; [done|]. by apply (R5 j k).
  - intros j r' [Hj Hr']%Hlive Hid' Hrt. rewrite Hseq. rewrite Hl in Hrt. apply not_eq_sym. apply (R5 j k r' r); try done. congruence.
Qed.

Lemma commit_outcome rs k r q c s : cfs_wf rs s -> live rs k r -> schedulers s !! q = Some c ->
  if r_scheduler_id r =? sched_id c then
    exists t s', cfs_tasks s !! r_task r = Some t /\ commit_reserved_task q r s = Done (r_task r) s' /\
      linkable rs (<[k := None]> rs) q (r_task r) t (committed q c r t s) c c s /\
      s' = (if is_realtime (r_params r) then link_state else linked_fair) q (r_task r) (committed q c r t s) c s /\
      cfs_wf (<[k := None]> rs) s'
  else commit_reserved_task q r s = Fail (ForeignQueue, r) s.
Proof.
  intros Hwf Hk Hc. unfold commit_reserved_task. run. destruct (r_scheduler_id r =? sched_id c) eqn:Hid; cbn [negb]; [|done].
  apply Z.eqb_eq in Hid. destruct (res_task _ _ (wf_reservations _ _ Hwf) k r Hk) as (t & Ht & Ho & Hp).
  destruct (task_at_ok rs s _ t Hwf Ht) as [Hok Hv]. rewrite Hp in Hv.
  pose proof (commit_linkable rs k r q c t s Hwf Hk Hc Hid Ht Ho Hp) as Hlink.
  destruct (cfs_link_wf _ _ _ _ _ _ _ _ _ Hwf Hlink) as (Hwf2 & _ & _). set (x := r_task r) in *.
  assert (schedulers (link_state q x (committed q c r t s) c s) !! q = Some c) as Hcl by (by apply (set_sched_eq q c c s)).
  exists t. eexists. split; [done|]. split; [|split; [done|split; [reflexivity|]]].
  2:{ destruct (is_realtime (r_params r)); [done|]. unfold linked_fair. by apply (refresh_wf _ _ q c). }
  run. rewrite Ho, Z.eqb_refl, bool_decide_false by (by intros []). cbn [negb orb].
  assert (with_err (fun _ => (InconsistentState, r)) (transfer_owner x CONFIGURING (sched_id c)) s =
    Done tt (set_task x (with_owner (sched_id c) t) s)) as Htr.
  { unfold with_err. by rewrite (transfer_owner_run x t). }
  rewrite (bind_done _ _ _ _ _ Htr). set (t1 := with_owner (sched_id c) t). set (s1 := set_task x t1 s).
  assert (cfs_tasks s1 !! x = Some t1) as Ht1 by (by apply (set_task_eq x t1 t)).
  assert (schedulers s1 !! q = Some c) as Hc1 by exact Hc.
  assert (set_task x (committed q c r t s) s = set_task x (committed q c r t s) (set_sched q c s)) as Hss by (by rewrite set_sched_same).
  unfold committed in *. destruct (is_realtime (r_params r)) eqn:Hrt.
  - set (t' := rt_committed (rr_ticks s) (r_sequence r) (sched_id c) (r_params r) t) in *.
    erewrite (bind_done _ _ s1 tt (set_task x t' s)).
    2:{ unfold t', rt_committed. destruct (bool_decide (class (r_params r) = RoundRobin)); run; unfold s1; rewrite ?cfs_set_task_twice.
        - rewrite (update_task_run x (with_slice (as_isize (rr_ticks s)) t1)) by (by apply (set_task_eq x _ t)). by rewrite cfs_set_task_twice.
        - rewrite (update_task_run x t1) by done. by rewrite cfs_set_task_twice. }
    unfold link_state. by rewrite <- Hss.
  - destruct (vruntime_valid t1 _ Hv) as (v & Hg & _). assert (get_vruntime_with t (r_params r) = Some v) as Hg0 by exact Hg.
    unfold placed_vruntime in *. rewrite Hg0 in *. cbn [default from_option id] in *.
    set (w := if seeded_vruntime t then Z.max v (default 0 (min_vruntime c)) else default 0 (min_vruntime c)) in *.
    set (t' := fair_committed w (r_sequence r) (sched_id c) t) in *.
    erewrite (bind_done _ _ s1 tt (set_task x t' s)).
    2:{ run. run. erewrite (bind_done _ _ s1 w).
        2:{ unfold w. change (seeded_vruntime t1) with (seeded_vruntime t). destruct (seeded_vruntime t); [by run|done]. }
        run. run. unfold s1. rewrite !cfs_set_task_twice.
        rewrite (update_task_run x (rebase_vruntime w (with_seeded false t1))) by (by apply (set_task_eq x _ t)). by rewrite cfs_set_task_twice. }
    erewrite bind_done by reflexivity. unfold linked_fair, link_state in *. rewrite <- Hss in *.
    by erewrite bind_done by (exact (refresh_run q c None _ (wf_queue _ _ q Hwf2) Hcl)).
Qed.

(** ** Reconfiguration *)

(** Trees with the same members are as good. *)
Lemma trees_wf rs s l : cfs_wf rs s -> (forall j, members l j = linked s j) -> cfs_wf rs (set_trees l s).
Proof.
  intros [W1 W2 W3 W4 W5 W6 W7 W8 [R1 R2 R3 R4 R5]] Hl. assert (forall j, linked (set_trees l s) j = linked s j) as Hlk by exact Hl.
  split; try done.
  - intros j y. rewrite Hlk. apply W5.
  - intros y u. setoid_rewrite Hlk. apply W6.
  - intros j. rewrite Hlk. apply W7.
  - split; try done. intros k r q c y u Hk Hc Hid. rewrite Hlk. by apply (R4 k r q c y u).
Qed.

(** The task with new parameters as it enters again. *)
Definition reentered (n i : Z) p t : CFSTask :=
  with_owner i
    (if is_realtime p then stage_ready_key 0 (rt_priority_key (rt_priority p)) n t
     else stage_ready_key 1 (default 0 (get_vruntime_with t p)) n t).

Lemma reinsert_run rs q x t c p s :
  cfs_wf rs s -> schedulers s !! q = Some c -> sched_id c <> UNOWNED -> cfs_tasks s !! x = Some t ->
  queue_owner t = CONFIGURING -> load_sched_params t = p -> (forall k r, live rs k r -> r_task r <> x) ->
  (exists n c' s', reinsert_reconfigured q x p s = Done tt s' /\ advanced (is_realtime p) c c' n /\
    linkable rs rs q x t (reentered n (sched_id c) p t) c c' s /\
    s' = (if is_realtime p then link_state else linked_fair) q x (reentered n (sched_id c) p t) c' s) \/
  (reinsert_reconfigured q x p s = Fail SequenceExhausted s /\ exhausted c).
Proof.
  intros Hwf Hc Hn Ht Ho Hp Hres. destruct (task_at_ok rs s x t Hwf Ht) as [Hok Hv]. rewrite Hp in Hv.
  destruct (sched_floor rs s q c Hwf Hc) as [Hcok _].
  assert (ensure_id q s = Done (sched_id c) s) as Hid.
  { destruct (cfs_ensure_id_run rs s q c Hwf Hc) as [[_ ?]|[(? & _)|(? & _)]]; [done|congruence..]. }
  unfold reinsert_reconfigured. rewrite (bind_done _ _ _ _ _ Hid).
  pose proof (reserve_seq q t c s Hc Hcok) as Hseq. cbv zeta in Hseq. rewrite Hp in Hseq.
  destruct Hseq as [(n & c' & Hseq & Hadv)|[Hseq Hex]]; [left|right; by rewrite (bind_fail _ _ _ _ _ Hseq)].
  exists n, c'. rewrite (bind_done _ _ _ _ _ Hseq).
  assert (linkable rs rs q x t (reentered n (sched_id c) p t) c c' s) as Hlink.
  { destruct (vruntime_valid t p Hv) as (v & Hg & Hvr). pose proof (rt_key_range p Hv).
    apply entering_linkable; try done; unfold reentered; rewrite ?Hg, ?Hp.
    - by right.
    - by destruct (is_realtime p).
    - destruct Hok. destruct (is_realtime p); by split.
    - by destruct (is_realtime p).
    - by destruct (is_realtime p). }
  destruct (cfs_link_wf _ _ _ _ _ _ _ _ _ Hwf Hlink) as (Hwf2 & _ & _). set (t' := reentered n (sched_id c) p t) in *.
  assert (schedulers (link_state q x t' c' s) !! q = Some c') as Hcl by (by apply (set_sched_eq q c c' s)).
  eexists. split; [|split; [done|split; [done|reflexivity]]].
  assert (cfs_tasks (set_sched q c' s) !! x = Some t) as Hts by exact Ht. destruct (vruntime_valid t p Hv) as (v & Hg & _).
  unfold t', reentered in *. rewrite Hg in *. cbn [default from_option id] in *. destruct (is_realtime p).
  - run. erewrite bind_done by (eapply transfer_owner_run; [look|done]). rewrite cfs_set_task_twice. done.
  - erewrite bind_done.
    2:{ erewrite bind_done by (eapply vruntime_run; [exact Hts|exact Hg]). eapply update_task_run. exact Hts. }
    erewrite bind_done by (eapply transfer_owner_run; [look|done]). rewrite cfs_set_task_twice.
    erewrite bind_done by reflexivity. unfold linked_fair. by rewrite <- (refresh_run q c' None _ (wf_queue _ _ q Hwf2) Hcl).
Qed.

(** A removal moves at most the floor of the scheduler. *)
Lemma removed_shape l q x t c s : schedulers s !! q = Some c ->
  exists m, removed l q x t c s = set_sched q (with_min m c) (unlinked l x t s).
Proof.
  intros Hc. unfold removed. destruct (ready_class t =? 0).
  - exists (min_vruntime c). replace (with_min (min_vruntime c) c) with c by (by destruct c). by rewrite set_sched_same.
  - by eexists.
Qed.

(** The rollback restores the task exactly. *)
Lemma restore_applied ticks p t o : params t = packed (load_sched_params t) ->
  restore_reconfiguration_state (snapshot_reconfiguration_state t) (applied ticks p (with_owner o t)) = with_owner o t.
Proof.
  intros Hp. unfold restore_reconfiguration_state, snapshot_reconfiguration_state. cbn. rewrite <- Hp. by destruct t.
Qed.

(** Reinserting a task at its old key restores the queue. *)
Lemma relink_members rs q x t c l l1 l2 m s s3 :
  cfs_wf rs s -> schedulers s !! q = Some c -> cfs_tasks s !! x = Some t -> linked s q = l1 ++ x :: l2 ->
  removed_from l q l1 l2 s -> s3 = set_task x t (set_sched q (with_min m c) (unlinked l x t s)) ->
  forall j, members (tree_insert (key_of s3) q x l) j = linked s j.
Proof.
  intros Hwf Hc Ht Hl Hrem -> j. set (s3 := set_task x t _).
  assert (forall y, key_of s3 y = key_of s y) as Hkey.
  { intros y. unfold key_of, s3. destruct (decide (y = x)) as [->|Hne]; [|rewrite set_task_ne by done; unfold unlinked; cbn [cfs_tasks set_sched]; by rewrite set_task_ne].
    rewrite (set_task_eq x t t), Ht; [done|]. unfold unlinked. cbn [cfs_tasks set_sched]. by apply (set_task_eq x t t). }
  pose proof (wf_sorted _ _ Hwf q) as Hs. rewrite Hl in Hs. pose proof (in_order_nodup _ _ Hs) as Hnd.
  assert (x ∉ l1 ++ l2) as Hx.
  { rewrite <- Permutation_middle in Hnd. by apply NoDup_cons in Hnd as [? _]. }
  assert (members l q = l1 ++ l2) as Hlq by (rewrite Hrem; apply on_list_eq).
  assert (in_order (key_of s3) (l1 ++ l2)) as Hs12.
  { eapply in_order_ext; [|exact (in_order_remove _ _ _ _ Hs)]. intros y _. by rewrite Hkey. }
  assert (forall y, y ∈ l1 ++ l2 -> key_of s3 y <> key_of s3 x) as Hne.
  { intros y Hy Heq. rewrite !Hkey in Heq. apply in_order_app in Hs as (_ & [Hgt _] & Hlt). rewrite Forall_forall in Hgt.
    apply elem_of_app in Hy as [Hy|Hy].
    - destruct (before_irrefl (key_of s x)). rewrite <- Heq at 1. apply Hlt; [done|left].
    - destruct (before_irrefl (key_of s x)). rewrite <- Heq at 2. by apply Hgt. }
  rewrite (tree_insert_members (key_of s3) q x l j); rewrite ?Hlq; try done.
  2:{ intros k. rewrite Hrem. destruct (decide (k = q)) as [->|Hk]; [by rewrite on_list_eq|]. rewrite on_list_ne by done.
      intros Hin. apply Hk. apply (cfs_linked_once rs s k q x Hwf Hin). rewrite Hl. set_solver. }
  destruct (decide (j = q)) as [->|Hj]; [rewrite on_list_eq|by rewrite on_list_ne, Hrem, on_list_ne by done].
  apply (in_order_unique (key_of s3)).
  - by apply key_insert_sorted.
  - rewrite Hl. eapply in_order_ext; [|exact Hs]. intros y _. by rewrite Hkey.
  - by rewrite key_insert_perm, Hl, Permutation_middle.
Qed.

(** New parameters for a queued task: it is reinserted with the same vruntime,
    or everything is restored. *)
Lemma reconfigure_queued rs q x t c p s :
  cfs_wf rs s -> schedulers s !! q = Some c -> cfs_tasks s !! x = Some t -> x ∈ linked s q -> params_valid p ->
  let run_all := removed ← remove_owned_task q x CONFIGURING false;
    queued ← some_or removed InconsistentState;
    apply_validated queued p;;
    on_error (reinsert_reconfigured q queued p)
      (restore_reconfigured q queued (snapshot_reconfiguration_state t) (min_vruntime c)) in
  (exists s1 n c1 c' s', run_all s = Done tt s' /\ cfs_wf rs s1 /\
    cfs_tasks s1 = <[x := applied (rr_ticks s) p (with_owner CONFIGURING t)]> (cfs_tasks s) /\
    (forall j, linked s j ≡ₚ if decide (j = q) then x :: linked s1 j else linked s1 j) /\
    (exists m, schedulers s1 = <[q := with_min m c]> (schedulers s)) /\
    linkable rs rs q x (applied (rr_ticks s) p (with_owner CONFIGURING t))
      (reentered n (sched_id c) p (applied (rr_ticks s) p (with_owner CONFIGURING t))) c1 c' s1 /\
    s' = (if is_realtime p then link_state else linked_fair) q x
      (reentered n (sched_id c) p (applied (rr_ticks s) p (with_owner CONFIGURING t))) c' s1) \/
  (exists l, run_all s = Fail SequenceExhausted (set_trees l s) /\ exhausted c /\ forall j, members l j = linked s j).
Proof.
  intros Hwf Hc Ht Hx Hp run_all. destruct (task_at_ok rs s x t Hwf Ht) as [Hok Hv].
  destruct (remove_linked rs q x t c CONFIGURING false s Hwf Hc Ht Hx) as (l & l1 & l2 & Hl & Hrem & Hrun); [by right|]. cbv zeta in Hrun.
  set (t1 := with_owner CONFIGURING t) in *. destruct (removed_shape l q x t1 c s Hc) as [m Hshape]. rewrite Hshape in Hrun.
  assert (cfs_wf rs (set_sched q (with_min m c) (unlinked l x t1 s))) as Hwf1.
  { rewrite <- Hshape. eapply removed_wf; try done; [by right|]. destruct Hok. by split. }
  set (s1 := set_sched q (with_min m c) (unlinked l x t1 s)) in *.
  assert (cfs_tasks s1 !! x = Some t1) as Ht1 by (by apply (set_task_eq x t1 t)).
  set (t2 := applied (rr_ticks s) p t1). set (s2 := set_task x t2 s1).
  pose proof (linked_owner rs s q x t Hwf Hx Ht) as [Hnu Hnc].
  assert (cfs_wf rs s2) as Hwf2.
  { apply (free_task_wf rs rs s1 x t1); try done; [by right|by right| |].
    - apply applied_ok; [destruct Hok; by split|done].
    - intros k r Hk. split; [done|]. intros Hr. by destruct (unreserved rs s x t k r Hwf Ht Hnc Hk). }
  assert (cfs_tasks s2 !! x = Some t2) as Ht2 by (by apply (set_task_eq x t2 t1)).
  assert (schedulers s2 !! q = Some (with_min m c)) as Hc2 by (by apply (set_sched_eq q c _ (unlinked l x t1 s))).
  destruct (wf_linked _ _ Hwf q x Hx) as (c0 & t0 & Hc0 & Hn & Ht0 & Ho & _). rewrite Hc in Hc0. injection Hc0 as <-.
  rewrite Ht in Ht0. injection Ht0 as <-.
  assert (run_all s = on_error (reinsert_reconfigured q x p)
    (restore_reconfigured q x (snapshot_reconfiguration_state t) (min_vruntime c)) s2) as Hall.
  { unfold run_all. rewrite (bind_done _ _ _ _ _ Hrun). run.
    by rewrite (bind_done _ _ _ _ _ (apply_run x t1 p s1 Ht1 Hv)). }
  rewrite Hall. destruct (reinsert_run rs q x t2 (with_min m c) p s2 Hwf2 Hc2 Hn Ht2) as [(n & c' & s' & Hre & _ & Hlink & Hs')|[Hre Hex]].
  - done.
  - by apply applied_params.
  - intros k r Hk. by apply (unreserved rs s x t k r Hwf Ht Hnc).
  - left. exists s2, n, (with_min m c), c', s'. split; [by apply on_error_done|]. split; [done|]. split_and!; try done.
    + cbn. by rewrite list_insert_insert_eq.
    + intros j. change (linked s2 j) with (members l j). rewrite Hrem. destruct (decide (j = q)) as [->|Hj].
      * by rewrite on_list_eq, Hl, Permutation_middle.
      * by rewrite on_list_ne.
    + by exists m.
  - right. set (s3 := set_task x t (set_sched q (with_min m c) (unlinked l x t s))).
    exists (tree_insert (key_of s3) q x l). split; [|split; [done|]].
    2:{ apply (relink_members rs q x t c l l1 l2 m s s3); done. }
    assert (s3 = set_task x t s1) as Hs3.
    { unfold s3, s1, unlinked, set_task, set_sched. cbn. by rewrite !list_insert_insert_eq. }
    eapply on_error_fail; [exact Hre|]. unfold restore_reconfigured. run. unfold s2. rewrite cfs_set_task_twice.
    unfold t2, t1. rewrite restore_applied by apply Hok. fold t1. rewrite set_task_same by done.
    rewrite (bind_done _ _ _ _ _ (sched_at_run q (with_min m c) s1 Hc2)). run.
    change (queue_owner t1) with CONFIGURING. rewrite Z.eqb_refl. run.
    replace (with_owner (sched_id (with_min m c)) t1) with t by (unfold t1; cbn; by rewrite <- Ho, with_owner_back).
    rewrite <- Hs3. run. erewrite update_sched_run by (rewrite Hs3; look).
    assert (cfs_tasks s3 = cfs_tasks s) as Hts by (rewrite Hs3; cbn; by rewrite list_insert_insert_eq, list_insert_id).
    f_equal. unfold set_sched, set_trees. cbn [schedulers trees cfs_tasks next_scheduler_id rr_ticks]. rewrite Hts. f_equal.
    rewrite Hs3. cbn. rewrite list_insert_insert_eq, list_insert_id; [done|]. rewrite Hc. by destruct c.
Qed.

End Reconfigure.
