(* ===== verification/CfsTick.v ===== *)
(** The completely fair scheduler, part 5: picking, the tick, deactivation,
    reservations given back, and the end of a scheduler. *)

From S2P Require Import Prelude Effects Atomics ReadyTree Sched Cfs CfsSpec CfsQueue CfsConfigure.
Local Open Scope Z_scope.

Section Pick.
Context {L : Type} `{ReadyTreeLaws L}.
Local Abbreviation Cfs := (Cfs L).
Implicit Types (s : Cfs) (q x y : nat) (t u : CFSTask) (c : CFScheduler) (p : CfsTaskParams).
Abbreviation live rs k r := ((rs : list (option CfsTaskReservation)) !! (k : nat) = Some (Some r)).

(** ** The next task *)

(** The scheduler after [t] was picked: a fair task moves the floor. *)
Definition picked t ready c : CFScheduler := if ready_is_rt t then c else refreshed (Some (ready_order t)) ready c.

Lemma pick_empty rs q c s : cfs_wf rs s -> schedulers s !! q = Some c -> linked s q = [] ->
  exists l, pick_next_task q s = Done None (set_sched q (refreshed None None c) (set_trees l s)) /\
    (forall j, members l j = linked s j) /\ cfs_wf rs (set_sched q (refreshed None None c) (set_trees l s)).
Proof.
  intros Hwf Hc Hl. pose proof (take_front_run rs q c s Hwf Hc) as Hf. rewrite Hl in Hf. destruct Hf as (l & Hf & Hrem). exists l.
  assert (forall j, members l j = linked s j) as Hm.
  { intros j. rewrite Hrem. destruct (decide (j = q)) as [->|Hj]; [by rewrite on_list_eq|by rewrite on_list_ne]. }
  pose proof (trees_wf rs s l Hwf Hm) as Hwf1. assert (min_ready (set_trees l s) q = None) as Hmin.
  { unfold min_ready. change (linked (set_trees l s) q) with (members l q). by rewrite Hm, Hl. }
  split; [|split; [done|]].
  - unfold pick_next_task. rewrite (bind_done _ _ _ _ _ Hf).
    rewrite (bind_done _ _ _ _ _ (refresh_run q c None (set_trees l s) (wf_queue rs _ q Hwf1) Hc)). by rewrite Hmin.
  - pose proof (refresh_wf rs (set_trees l s) q c None Hwf1 Hc) as Hr. rewrite Hmin in Hr. by apply Hr.
Qed.

Lemma pick_first rs q c x rest s : cfs_wf rs s -> schedulers s !! q = Some c -> linked s q = x :: rest ->
  exists t l s', cfs_tasks s !! x = Some t /\ removed_from l q [] rest s /\
    s' = set_sched q (picked t (min_ready (unlinked l x (with_owner UNOWNED t) s) q) c) (unlinked l x (with_owner UNOWNED t) s) /\
    pick_next_task q s = Done (Some x) s' /\ cfs_wf rs s'.
Proof.
  intros Hwf Hc Hl. pose proof (take_front_run rs q c s Hwf Hc) as Hf. rewrite Hl in Hf. destruct Hf as (t & l & Ht & Hrem & Hf & Hwf1).
  set (t1 := with_owner UNOWNED t) in *. set (s1 := unlinked l x t1 s) in *.
  assert (cfs_tasks s1 !! x = Some t1) as Ht1 by (by apply (set_task_eq x t1 t)). assert (schedulers s1 !! q = Some c) as Hc1 by exact Hc.
  eexists t, l, _. split; [done|]. split; [done|]. split; [reflexivity|].
  destruct (task_at_ok rs s x t Hwf Ht) as [Hok _]. unfold pick_next_task, picked. rewrite (bind_done _ _ _ _ _ Hf).
  change (ready_is_rt t) with (ready_is_rt t1). change (ready_order t) with (ready_order t1). destruct (ready_is_rt t1) eqn:Hrt.
  - rewrite set_sched_same by done. split; [|done]. erewrite bind_done; [done|]. run. by rewrite Hrt.
  - split.
    + erewrite bind_done; [done|]. run. rewrite Hrt. by apply (refresh_run q c _ _ (wf_queue rs _ q Hwf1)).
    + apply (refresh_wf rs _ q c); [done..|]. intros v [= <-]. apply Hok.
Qed.

(** ** What the queue holds *)

(** A queued task and its parameters. *)
Definition ready s q u : Prop := exists y, y ∈ linked s q /\ cfs_tasks s !! y = Some u.
Definition ready_rt s q (above : Z -> Prop) : Prop :=
  exists u, ready s q u /\ is_realtime (load_sched_params u) = true /\ above (rt_priority (load_sched_params u)).

Lemma ready_kind rs s q u : cfs_wf rs s -> ready s q u ->
  ready_is_rt u = is_realtime (load_sched_params u) /\
  (ready_is_rt u = true -> ready_class u = 0 /\ ready_order u = rt_priority_key (rt_priority (load_sched_params u))) /\
  (ready_is_rt u = false -> ready_class u = 1).
Proof.
  intros Hwf (y & Hy & Hu). destruct (linked_task rs s q y Hwf Hy) as (d & v & _ & Hv & [_ Hk] & _). simplify_eq.
  unfold ready_is_rt. destruct (is_realtime _); [destruct Hk as [-> ->]|rewrite Hk]; done.
Qed.

(** The first task of a queue is before all others. *)
Lemma front_before rs s q x rest u : cfs_wf rs s -> linked s q = x :: rest -> ready s q u ->
  key_of s x = ready_key u \/ before (key_of s x) (ready_key u).
Proof.
  intros Hwf Hl (y & Hy & Hu). rewrite <- (key_of_task s y u Hu). pose proof (wf_sorted _ _ Hwf q) as Hs. rewrite Hl in Hs, Hy.
  destruct Hs as [Hx _]. rewrite Forall_forall in Hx. apply elem_of_cons in Hy as [->|Hy]; [by left|right; by apply Hx].
Qed.

Lemma front_run {E} rs s q : cfs_wf rs s ->
  (front_task q : M Cfs E (option CFSTask)) s = Done (x ← linked s q !! 0%nat; cfs_tasks s !! x) s.
Proof.
  intros Hwf. unfold front_task. erewrite bind_done by done. rewrite (tree_get_at _ _ _ _ (tree_front_points q (trees s))).
  fold (linked s q). destruct (linked s q !! 0%nat) as [x|] eqn:Hx; [|done]. cbn [mbind option_bind].
  destruct (linked_task rs s q x Hwf) as (_ & t & _ & Ht & _); [by eapply list_elem_of_lookup_2|]. run. by rewrite Ht.
Qed.

Lemma front_cases rs s q : cfs_wf rs s ->
  match (x ← linked s q !! 0%nat; cfs_tasks s !! x) with
  | None => forall u, ~ ready s q u
  | Some t => ready s q t /\ forall u, ready s q u -> ready_key t = ready_key u \/ before (ready_key t) (ready_key u)
  end.
Proof.
  intros Hwf. destruct (linked s q) as [|x rest] eqn:Hl; cbn.
  - intros u (y & Hy & _). rewrite Hl in Hy. by apply not_elem_of_nil in Hy.
  - assert (x ∈ linked s q) as Hx by (rewrite Hl; left). destruct (linked_task rs s q x Hwf Hx) as (_ & t & _ & Ht & _). rewrite Ht.
    split; [by exists x|]. intros u Hu. rewrite <- (key_of_task s x t Ht). by apply (front_before rs s q x rest).
Qed.

(** A real-time task is ready exactly when the first one is real-time. *)
Lemma front_is_rt rs s q : cfs_wf rs s ->
  match (x ← linked s q !! 0%nat; cfs_tasks s !! x) with Some t => ready_is_rt t | None => false end = true <->
  ready_rt s q (fun _ => True).
Proof.
  intros Hwf. pose proof (front_cases rs s q Hwf) as Hf. destruct (x ← _; _) as [t|]; [destruct Hf as [Ht Hle]|].
  - destruct (ready_kind rs s q t Hwf Ht) as (Hk & _ & Hk1). split.
    + intros Hrt. exists t. split; [done|]. by rewrite <- Hk.
    + intros (u & Hu & Hrt & _). destruct (ready_kind rs s q u Hwf Hu) as (Hu1 & Hu2 & _). rewrite <- Hu1 in Hrt.
      destruct (ready_is_rt t); [done|]. pose proof (Hk1 eq_refl). destruct (Hu2 Hrt) as [Hc0 _].
      destruct (Hle u Hu) as [Heq|Hb]; [injection Heq as ? _ _; lia|]. unfold before, ready_key in Hb. cbn in Hb. lia.
  - split; [done|]. intros (u & Hu & _). by apply Hf in Hu.
Qed.

Lemma higher_run {E} rs s q n : cfs_wf rs s ->
  exists b, (has_ready_rt_with_higher_priority q n : M Cfs E bool) s = Done b s /\ (b = true <-> ready_rt s q (fun m => n < m)).
Proof.
  intros Hwf. unfold has_ready_rt_with_higher_priority. rewrite (bind_done _ _ _ _ _ (front_run rs s q Hwf)). eexists. split; [done|].
  pose proof (front_cases rs s q Hwf) as Hf. destruct (x ← _; _) as [t|]; [destruct Hf as [Ht Hle]|].
  - destruct (ready_kind rs s q t Hwf Ht) as (Hk & Hk0 & Hk1). rewrite andb_true_iff, Z.ltb_lt. unfold rt_priority_key. split.
    + intros [Hrt Ho]. exists t. rewrite <- Hk. split; [done|]. split; [done|]. destruct (Hk0 Hrt) as [_ Hord]. unfold rt_priority_key in *. lia.
    + intros (u & Hu & Hrt & Hn). destruct (ready_kind rs s q u Hwf Hu) as (Hu1 & Hu2 & _). rewrite <- Hu1 in Hrt.
      destruct (Hu2 Hrt) as [Hc0 Ho0]. unfold rt_priority_key in *.
      destruct (Hle u Hu) as [Heq|Hb]; [injection Heq as ? ? _|unfold before, ready_key in Hb; cbn in Hb];
        (destruct (ready_is_rt t); [split; [done|destruct (Hk0 eq_refl); lia]|pose proof (Hk1 eq_refl); lia]).
  - split; [done|]. intros (u & Hu & _). by apply Hf in Hu.
Qed.

(** The first task that is not below a key. *)
Lemma lower_found rs s q k : cfs_wf rs s ->
  match linked s q !! lower_index (key_of s) k (linked s q) with
  | None => forall u, ready s q u -> before (ready_key u) k
  | Some x => exists t, cfs_tasks s !! x = Some t /\ ready s q t /\ ~ before (ready_key t) k /\
      forall u, ready s q u -> before (ready_key u) k \/ ready_key t = ready_key u \/ before (ready_key t) (ready_key u)
  end.
Proof.
  intros Hwf. pose proof (wf_sorted _ _ Hwf q) as Hs. destruct (lower_index_split _ k _ Hs) as (l1 & l2 & Hl & -> & H1 & H2).
  rewrite Forall_forall in H1, H2. rewrite Hl, lookup_app_r, Nat.sub_diag by done. destruct l2 as [|x l2]; cbn.
  - intros u (y & Hy & Hu). rewrite <- (key_of_task s y u Hu). apply H1. by rewrite Hl, app_nil_r in Hy.
  - assert (x ∈ linked s q) as Hx by (rewrite Hl; set_solver). destruct (linked_task rs s q x Hwf Hx) as (_ & t & _ & Ht & _).
    exists t. rewrite <- (key_of_task s x t Ht). split; [done|]. split; [by exists x|]. split; [apply H2; left|].
    intros u (y & Hy & Hu). rewrite <- (key_of_task s y u Hu). rewrite Hl in Hy, Hs.
    apply in_order_app in Hs as (_ & [Hx2 _] & _). rewrite Forall_forall in Hx2.
    apply elem_of_app in Hy as [Hy|[->|Hy]%elem_of_cons]; [left; by apply H1|right; by left|right; right; by apply Hx2].
Qed.

Lemma same_run {E} rs s q n : cfs_wf rs s ->
  exists b, (has_ready_rt_with_same_priority q n : M Cfs E bool) s = Done b s /\ (b = true <-> ready_rt s q (fun m => m = n)).
Proof.
  intros Hwf. unfold has_ready_rt_with_same_priority. erewrite bind_done by done.
  set (k := (0, rt_priority_key n, isize_MIN) : ReadyKey).
  rewrite (tree_get_at _ _ _ _ (tree_lower_bound_points (key_of s) q k (trees s) (wf_sorted _ _ Hwf q))).
  fold (linked s q). pose proof (lower_found rs s q k Hwf) as Hf.
  assert (forall u, ready s q u -> is_realtime (load_sched_params u) = true -> rt_priority (load_sched_params u) = n ->
    ready_class u = 0 /\ ready_order u = rt_priority_key n /\ ~ before (ready_key u) k) as Hkey.
  { intros u Hu Hrt <-. destruct (ready_kind rs s q u Hwf Hu) as (H1 & H2 & _). rewrite <- H1 in Hrt. destruct (H2 Hrt) as [H3 H4].
    split; [done|]. split; [done|]. destruct Hu as (y & Hy & Hu). destruct (qu_task _ _ (wf_queue rs s q Hwf) y Hy) as (v & Hv & _ & _ & Hid).
    simplify_eq. unfold before, ready_key, k, in_isize in *. cbn. lia. }
  destruct (linked s q !! _) as [x|].
  - destruct Hf as (t & Ht & Hr & Hnb & Hle). run. eexists. split; [done|]. rewrite andb_true_iff, Z.eqb_eq.
    destruct (ready_kind rs s q t Hwf Hr) as (Hk & Hk0 & Hk1). split.
    + intros [Hrt Ho]. exists t. rewrite <- Hk. split; [done|]. split; [done|]. destruct (Hk0 Hrt) as [_ Hord].
      unfold rt_priority_key in *. lia.
    + intros (u & Hu & Hrt & Hn). destruct (Hkey u Hu Hrt Hn) as (Hc & Ho & Hnu). unfold ready_is_rt. rewrite Z.eqb_eq.
      assert (ready_class t = 0 \/ ready_class t = 1) as Hcl by (destruct (ready_is_rt t); [left; by apply Hk0|right; by apply Hk1]).
      destruct (Hle u Hu) as [?|[Heq|Hb]]; [done|injection Heq as ? ? _; lia|].
      unfold before, ready_key, k in Hb, Hnb. cbn in Hb, Hnb. lia.
  - eexists. split; [done|]. split; [done|]. intros (u & Hu & Hrt & Hn). destruct (Hkey u Hu Hrt Hn) as (_ & _ & Hnu). by destruct Hnu; apply Hf.
Qed.

(** The least vruntime of the fair tasks that are ready. *)
Lemma min_ready_least rs s q : cfs_wf rs s ->
  match min_ready s q with
  | None => forall u, ready s q u -> is_realtime (load_sched_params u) = true
  | Some v => (exists t, ready s q t /\ is_realtime (load_sched_params t) = false /\ ready_order t = v) /\
      forall u, ready s q u -> is_realtime (load_sched_params u) = false -> v <= ready_order u
  end.
Proof.
  intros Hwf. unfold min_ready. set (k := (1, isize_MIN, isize_MIN) : ReadyKey). pose proof (lower_found rs s q k Hwf) as Hf.
  assert (forall u, ready s q u -> is_realtime (load_sched_params u) = false -> ready_class u = 1 /\ ~ before (ready_key u) k) as Hkey.
  { intros u Hu Hrt. destruct (ready_kind rs s q u Hwf Hu) as (H1 & _ & H2). rewrite <- H1 in Hrt. pose proof (H2 Hrt) as H3.
    split; [done|]. destruct Hu as (y & Hy & Hu). destruct (qu_task _ _ (wf_queue rs s q Hwf) y Hy) as (v & Hv & _ & Hord & Hid).
    simplify_eq. unfold before, ready_key, k, in_isize in *. cbn. lia. }
  destruct (linked s q !! _) as [x|]; cbn [mbind option_bind].
  - destruct Hf as (t & -> & Hr & Hnb & Hle). cbn [mbind option_bind]. destruct (ready_kind rs s q t Hwf Hr) as (Hk & Hk0 & Hk1).
    assert (ready_is_rt t = false) as Hrt.
    { destruct (ready_is_rt t) eqn:Hrt; [|done]. destruct (Hk0 eq_refl) as [Hc _]. destruct Hnb. unfold before, ready_key, k. cbn. lia. }
    pose proof (Hk1 Hrt) as Hc1. split; [exists t; by rewrite <- Hk|]. intros u Hu Hfair. destruct (Hkey u Hu Hfair) as [Hcu Hnu].
    destruct (Hle u Hu) as [?|[Heq|Hb]]; [done|injection Heq as ? ? _; lia|]. unfold before, ready_key in Hb. cbn in Hb. lia.
  - intros u Hu. destruct (is_realtime (load_sched_params u)) eqn:Hrt; [done|]. destruct (Hkey u Hu Hrt) as [_ Hnu]. by destruct Hnu; apply Hf.
Qed.

End Pick.

Section Tick.
Context {L : Type} `{ReadyTreeLaws L}.
Local Abbreviation Cfs := (Cfs L).
Implicit Types (s : Cfs) (q x y : nat) (t u : CFSTask) (c : CFScheduler) (p : CfsTaskParams).
Abbreviation live rs k r := ((rs : list (option CfsTaskReservation)) !! (k : nat) = Some (Some r)).

(** ** The tick *)

(** The slice of a round-robin task, and the runtime of a fair one. *)
Definition slice_ticked t : CFSTask := with_slice (saturating_sub_isize (rr_time_slice t) 1) t.
Definition fair_ticked t : CFSTask := with_vruntime (init_vruntime t) (saturating_add_isize (delta t) 1) t.

(** The decision for a real-time task and the task after it, from whether tasks
    of a higher and of the same priority are ready. *)
Definition rt_ticked (higher same : bool) (ticks : Z) t : bool * CFSTask :=
  if higher then (true, t)
  else if bool_decide (class (load_sched_params t) = Fifo) then (false, t)
  else if rr_time_slice t <=? 1 then if same then (true, slice_ticked t) else (false, with_slice (as_isize ticks) t)
  else (false, slice_ticked t).

(** The decision for a fair task with vruntime [v]. *)
Definition fair_preempted (ready : option Z) (v : Z) : bool :=
  match ready with Some m => saturating_add_isize m FAIR_PREEMPT_GRANULARITY_TICKS <? v | None => false end.

Lemma ready_set_task x t t' s q above : cfs_tasks s !! x = Some t -> params t' = params t ->
  ready_rt (set_task x t' s) q above <-> ready_rt s q above.
Proof.
  intros Ht Hp. assert (load_sched_params t' = load_sched_params t) as Hl by (unfold load_sched_params; by rewrite Hp). split.
  - intros (u & (y & Hy & Hu) & Hrt & Ha). destruct (decide (y = x)) as [->|Hne].
    + rewrite (set_task_eq x t' t) in Hu by done. injection Hu as <-. exists t. rewrite <- Hl. split; [by exists x|done].
    + rewrite set_task_ne in Hu by done. exists u. split; [by exists y|done].
  - intros (u & (y & Hy & Hu) & Hrt & Ha). destruct (decide (y = x)) as [->|Hne].
    + rewrite Ht in Hu. injection Hu as <-. exists t'. rewrite Hl. split; [|done]. exists x. split; [done|]. by apply (set_task_eq x t' t).
    + exists u. split; [|done]. exists y. split; [done|]. by rewrite set_task_ne.
Qed.

Lemma min_ready_set_task x t t' s q : cfs_tasks s !! x = Some t -> ready_key t' = ready_key t ->
  min_ready (set_task x t' s) q = min_ready s q.
Proof.
  intros Ht Hk. assert (forall y, key_of (set_task x t' s) y = key_of s y) as Hkey.
  { intros y. unfold key_of. destruct (decide (y = x)) as [->|Hne]; [by rewrite (set_task_eq x t' t), Ht|by rewrite set_task_ne]. }
  unfold min_ready. change (linked (set_task x t' s) q) with (linked s q).
  rewrite (lower_index_ext (key_of (set_task x t' s)) (key_of s)) by done.
  destruct (linked s q !! _) as [y|]; [|done]. cbn [mbind option_bind]. destruct (decide (y = x)) as [->|Hne]; [|by rewrite set_task_ne].
  rewrite (set_task_eq x t' t), Ht by done. cbn. by injection Hk as _ -> _.
Qed.

Lemma slice_wf rs x t n s : cfs_wf rs s -> cfs_tasks s !! x = Some t -> cfs_wf rs (set_task x (with_slice n t) s).
Proof. intros Hwf Ht. apply (same_task_wf rs s x t); try done. destruct (wf_task _ _ Hwf x t Ht). by split. Qed.

Lemma tick_rt rs q x t s : cfs_wf rs s -> cfs_tasks s !! x = Some t -> is_realtime (load_sched_params t) = true ->
  exists higher same,
    (higher = true <-> ready_rt s q (fun m => rt_priority (load_sched_params t) < m)) /\
    (same = true <-> ready_rt s q (fun m => m = rt_priority (load_sched_params t))) /\
    let '(b, t') := rt_ticked higher same (rr_ticks s) t in
    task_tick q x s = Done b (set_task x t' s) /\ cfs_wf rs (set_task x t' s).
Proof.
  intros Hwf Ht Hrt. set (p := load_sched_params t) in *.
  destruct (higher_run (E := SchedulerError) rs s q (rt_priority p) Hwf) as (higher & Hh & Hhigher).
  pose proof (slice_wf rs x t (saturating_sub_isize (rr_time_slice t) 1) s Hwf Ht) as Hwf1. fold (slice_ticked t) in Hwf1.
  destruct (same_run (E := SchedulerError) rs _ q (rt_priority p) Hwf1) as (same & Hs & Hsame). rewrite (ready_set_task x t) in Hsame by done.
  exists higher, same. split; [done|]. split; [done|]. unfold rt_ticked, task_tick. run. fold p. rewrite Hrt, (bind_done _ _ _ _ _ Hh).
  destruct higher; [by rewrite set_task_same|]. destruct (bool_decide (class p = Fifo)); [by rewrite set_task_same|].
  assert (task_tick_rr x s = Done (E := SchedulerError) (rr_time_slice t) (set_task x (slice_ticked t) s)) as Htick.
  { unfold task_tick_rr. run. cbn [try_update]. by run. }
  rewrite (bind_done _ _ _ _ _ Htick). destruct (rr_time_slice t <=? 1); [|done]. rewrite (bind_done _ _ _ _ _ Hs).
  destruct same; [done|]. split; [|by apply slice_wf]. run. by rewrite cfs_set_task_twice.
Qed.

Lemma tick_fair rs q x t c s : cfs_wf rs s -> schedulers s !! q = Some c -> cfs_tasks s !! x = Some t ->
  is_realtime (load_sched_params t) = false ->
  (ready_rt s q (fun _ => True) /\ task_tick q x s = Done true s) \/
  (~ ready_rt s q (fun _ => True) /\ exists v s', get_vruntime_with (fair_ticked t) (load_sched_params t) = Some v /\
    s' = set_sched q (refreshed (Some v) (min_ready s q) c) (set_task x (fair_ticked t) s) /\
    task_tick q x s = Done (fair_preempted (min_ready s q) v) s' /\ cfs_wf rs s').
Proof.
  intros Hwf Hc Ht Hrt. destruct (task_at_ok rs s x t Hwf Ht) as [Hok Hv]. unfold task_tick. run. rewrite Hrt.
  pose proof (front_is_rt rs s q Hwf) as Hf. rewrite (bind_done _ _ _ _ _ (front_run rs s q Hwf)).
  destruct (match (_ : option CFSTask) with Some _ => _ | None => _ end) eqn:Hfront; [left; by rewrite <- Hf|right].
  split; [by rewrite <- Hf|]. destruct (vruntime_valid (fair_ticked t) _ Hv) as (v & Hg & Hr).
  assert (cfs_wf rs (set_task x (fair_ticked t) s)) as Hwf1 by (apply (same_task_wf rs s x t); try done; destruct Hok; by split).
  assert (min_ready (set_task x (fair_ticked t) s) q = min_ready s q) as Hmin by (by apply (min_ready_set_task x t)).
  assert (task_tick_fair x s = Done (E := SchedulerError) tt (set_task x (fair_ticked t) s)) as Htick.
  { unfold task_tick_fair. run. cbn [try_update]. by rewrite (update_task_run x t). }
  eexists v, _. split; [done|]. split; [reflexivity|].
  pose proof (refresh_run (E := SchedulerError) q c (Some v) _ (wf_queue rs _ q Hwf1) Hc) as Href. rewrite Hmin in Href.
  assert (cfs_wf rs (set_sched q (refreshed (Some v) (min_ready s q) c) (set_task x (fair_ticked t) s))) as Hwf2.
  { rewrite <- Hmin. apply (refresh_wf rs _ q c); try done. by intros ? [= <-]. }
  split; [|done]. rewrite (bind_done _ _ _ _ _ Htick). erewrite bind_done by (eapply vruntime_run; [by apply (set_task_eq x _ t)|exact Hg]).
  rewrite (bind_done _ _ _ _ _ Href), (bind_done _ _ _ _ _ (min_ready_run q _ (wf_queue rs _ q Hwf2))).
  unfold fair_preempted. by rewrite <- Hmin.
Qed.

(** ** Deactivation and reservations given back *)

Definition deactivated (reason : DeactivateReason) (floor : Z) t : CFSTask :=
  match reason with MigrateAway => staged floor t | Sleep | Exit => with_offset_valid false t end.

Lemma deactivate_run rs q x t c reason s : cfs_wf rs s -> schedulers s !! q = Some c -> cfs_tasks s !! x = Some t ->
  let t' := deactivated reason (default 0 (min_vruntime c)) t in
  deactivate_task q x reason s = Done tt (set_task x t' s) /\ cfs_wf rs (set_task x t' s).
Proof.
  intros Hwf Hc Ht t'. destruct (task_at_ok rs s x t Hwf Ht) as [Hok Hv]. split.
  - unfold deactivate_task, t'. destruct reason; [by apply update_task_run..|]. run. by apply stage_run.
  - assert (task_ok t') as Hok'.
    { unfold t'. pose proof (staged_ok (default 0 (min_vruntime c)) t Hok). destruct reason; [destruct Hok; by split..|done]. }
    apply (same_task_wf rs s x t); try done; unfold t', deactivated, staged; destruct reason; try done; by destruct (is_realtime _).
Qed.

(** A reservation given back frees its task. *)
Lemma give_back rs k r s : cfs_wf rs s -> live rs k r ->
  exists t, cfs_tasks s !! r_task r = Some t /\ queue_owner t = CONFIGURING /\
    cancel_reservation r s = Done (r_task r) (set_task (r_task r) (with_owner UNOWNED t) s) /\
    drop_reservation r s = Done tt (set_task (r_task r) (with_owner UNOWNED t) s) /\
    cfs_wf (<[k := None]> rs) (set_task (r_task r) (with_owner UNOWNED t) s).
Proof.
  intros Hwf Hk. destruct (res_task _ _ (wf_reservations _ _ Hwf) k r Hk) as (t & Ht & Ho & Hp). exists t.
  split; [done|]. split; [done|]. split; [|split].
  - unfold cancel_reservation. run. by rewrite Ho, Z.eqb_refl; run.
  - by apply release_owner_run.
  - apply (free_task_wf rs _ s (r_task r) t); try done; [by right|by left| |].
    + destruct (wf_task _ _ Hwf _ t Ht). by split.
    + intros j r' Hj. destruct (decide (k = j)) as [<-|Hne].
      * rewrite list_lookup_insert_eq in Hj by (by eapply lookup_lt_Some). done.
      * rewrite list_lookup_insert_ne in Hj by done. split; [done|]. intros Hx.
        by destruct (res_distinct _ _ (wf_reservations _ _ Hwf) j k r' r Hj Hk (not_eq_sym Hne)).
Qed.

(** ** The end of a scheduler *)

Lemma cfs_drain_run rs q c fuel s : cfs_wf rs s -> schedulers s !! q = Some c -> (length (linked s q) < fuel)%nat ->
  exists s', drain fuel q s = Done tt s' /\ cfs_wf rs s' /\ linked s' q = [] /\
    (forall j, j <> q -> linked s' j = linked s j) /\ schedulers s' = schedulers s /\
    (forall y, y ∉ linked s q -> cfs_tasks s' !! y = cfs_tasks s !! y) /\ length (cfs_tasks s') = length (cfs_tasks s) /\
    (forall y t, y ∈ linked s q -> cfs_tasks s !! y = Some t -> cfs_tasks s' !! y = Some (with_owner UNOWNED t)).
Proof.
  revert s. induction fuel as [|fuel IH]; intros s Hwf Hc Hlen; [lia|].
  pose proof (take_front_run rs q c s Hwf Hc) as Hf. cbn [drain]. destruct (linked s q) as [|x rest] eqn:Hl.
  - destruct Hf as (l & Hf & Hrem). rewrite (bind_done _ _ _ _ _ Hf). exists (set_trees l s). split; [done|].
    assert (forall j, members l j = linked s j) as Hm.
    { intros j. rewrite Hrem. destruct (decide (j = q)) as [->|Hj]; [by rewrite on_list_eq|by rewrite on_list_ne]. }
    split; [by apply trees_wf|]. split; [change (members l q = []); by rewrite Hm|]. split; [intros j _; apply Hm|].
    split_and!; try done. by intros y t ?%not_elem_of_nil.
  - destruct Hf as (t & l & Ht & Hrem & Hf & Hwf1). rewrite (bind_done _ _ _ _ _ Hf).
    set (s1 := unlinked l x (with_owner UNOWNED t) s) in *.
    assert (linked s1 q = rest) as Hl1 by (change (members l q = rest); by rewrite Hrem, on_list_eq).
    assert (x ∉ rest) as Hx by (pose proof (in_order_nodup _ _ (wf_sorted _ _ Hwf q)) as Hnd; rewrite Hl in Hnd; by apply NoDup_cons in Hnd as [? _]).
    destruct (IH s1 Hwf1 Hc) as (s' & Hrun & Hwf' & Hq & Hj & Hsch & Hother & Hn & Hin); [rewrite Hl1; cbn in Hlen; lia|].
    exists s'. rewrite Hl1 in Hother, Hin. split; [done|]. split; [done|]. split; [done|]. split; [|split; [done|]].
    { intros j Hne. rewrite Hj by done. change (members l j = linked s j). by rewrite Hrem, on_list_ne. }
    assert (cfs_tasks s1 !! x = Some (with_owner UNOWNED t)) as Ht1 by (by apply (set_task_eq x _ t)).
    assert (forall y, y <> x -> cfs_tasks s1 !! y = cfs_tasks s !! y) as Hne1 by (intros y Hy; by apply (set_task_ne x y _ (set_trees l s))).
    split; [|split].
    + intros y [Hy1 Hy2]%not_elem_of_cons. rewrite Hother by done. by apply Hne1.
    + rewrite Hn. apply length_insert.
    + intros y u [->|Hy]%elem_of_cons Hu; [rewrite Hother by done; by simplify_eq|]. apply Hin; [done|]. rewrite Hne1; [done|]. by intros ->.
Qed.

(** The bound on the iterations is enough. *)
Lemma cfs_linked_length rs q s : cfs_wf rs s -> (length (linked s q) <= length (cfs_tasks s))%nat.
Proof.
  intros Hwf. rewrite <- (length_seq (length (cfs_tasks s)) 0%nat). apply submseteq_length, NoDup_submseteq.
  - eapply in_order_nodup, (wf_sorted _ _ Hwf).
  - intros y Hy. destruct (linked_task rs s q y Hwf Hy) as (_ & t & _ & Ht & _). apply elem_of_seq. apply lookup_lt_Some in Ht. lia.
Qed.

End Tick.
