(* ===== verification/CfsHistory.v ===== *)
(** The completely fair scheduler, part 6: histories of operations.

    The state of a history is the schedulers and tasks together with the
    reservations its clients hold. [cfs_exec] runs one operation, [queue_effect]
    is what the operation means for the ready queues, and [refused_because] is
    the cause of each error. [cfs_step] shows that every operation returns, with
    that effect or for that cause. *)

From S2P Require Import Prelude Effects Atomics ReadyTree Sched Cfs CfsSpec CfsQueue CfsConfigure CfsTick.
Local Open Scope Z_scope.

(** ** Operations *)

Inductive cfs_op : Type :=
| CNewTask | CNewScheduler | CTicks (n : Z)
| CConfigure (x : nat) (p : CfsTaskParams) | CInherit (x parent : nat)
| CReserve (q x : nat) | CCommit (q k : nat) | CCancel (k : nat) | CForget (k : nat)
| CAdd (q x : nat) | CPut (q x : nat) (preempt : bool) | CEnqueue (q x : nat) (reason : EnqueueReason)
| CRemove (q x : nat) | CRemoveForMigration (q x : nat) | CDeactivate (q x : nat) (reason : DeactivateReason)
| CSetParams (q x : nat) (p : CfsTaskParams) | CSetPriority (q x : nat) (prio : Z)
| CPick (q : nat) | CTick (q x : nat) | CAccount (q x : nat) (d : RuntimeDelta) | CDrop (q : nat).

Inductive cfs_value : Type := VUnit | VTask (o : option nat) | VBool (b : bool) | VReservation (k : nat).

(** The reservations that clients hold. *)
Abbreviation held := (list (option CfsTaskReservation)).

Section Exec.
Context {L : Type} `{ReadyTrees L}.

Definition cfs_state : Type := held * Cfs L.

Definition settle {A} (f : A -> cfs_value) (rs : held) (o : outcome (Cfs L) SchedulerError A)
    : option (result cfs_value SchedulerError * cfs_state) :=
  match o with
  | Done a s => Some (Ok (f a), (rs, s))
  | Fail e s => Some (Err e, (rs, s))
  | Panic | Diverged => None
  end.

(** One operation; [None] is a panic, a loop that does not end, or a reservation
    that is not held. *)
Definition cfs_exec (o : cfs_op) (st : cfs_state) : option (result cfs_value SchedulerError * cfs_state) :=
  let '(rs, s) := st in
  match o with
  | CNewTask => Some (Ok VUnit, (rs, add_new_task s))
  | CNewScheduler => Some (Ok VUnit, (rs, add_new_scheduler s))
  | CTicks n => settle VBool rs (set_rr_timeslice_ticks n s)
  | CConfigure x p => settle (fun _ => VUnit) rs (configure x p s)
  | CInherit x parent => settle (fun _ => VUnit) rs (inherit_fair_vruntime_from x parent s)
  | CReserve q x =>
      match reserve_new_task q x s with
      | Done r s => Some (Ok (VReservation (length rs)), (rs ++ [Some r], s))
      | o => settle (fun _ => VUnit) rs o
      end
  | CCommit q k =>
      match rs !! k with
      | Some (Some r) =>
          match commit_reserved_task q r s with
          | Done x s => Some (Ok (VTask (Some x)), (<[k := None]> rs, s))
          | Fail (e, r) s => Some (Err e, (<[k := Some r]> rs, s))
          | Panic | Diverged => None
          end
      | _ => None
      end
  | CCancel k =>
      match rs !! k with
      | Some (Some r) => settle (fun x => VTask (Some x)) (<[k := None]> rs) (cancel_reservation r s)
      | _ => None
      end
  | CForget k =>
      match rs !! k with
      | Some (Some r) => settle (fun _ => VUnit) (<[k := None]> rs) (drop_reservation r s)
      | _ => None
      end
  | CAdd q x => settle (fun _ => VUnit) rs (add_task q x s)
  | CPut q x preempt => settle (fun _ => VUnit) rs (put_prev_task q x preempt s)
  | CEnqueue q x reason => settle (fun _ => VUnit) rs (enqueue_task q x reason s)
  | CRemove q x => settle VTask rs (remove_task q x s)
  | CRemoveForMigration q x => settle VTask rs (remove_task_for_migration q x s)
  | CDeactivate q x reason => settle (fun _ => VUnit) rs (deactivate_task q x reason s)
  | CSetParams q x p => settle (fun _ => VUnit) rs (set_task_params q x p s)
  | CSetPriority q x prio => settle (fun _ => VUnit) rs (set_priority q x prio s)
  | CPick q => settle VTask rs (pick_next_task q s)
  | CTick q x => settle VBool rs (task_tick q x s)
  | CAccount q x d => settle VBool rs (account_runtime q x d s)
  | CDrop q => settle (fun _ => VUnit) rs (drop_scheduler q s)
  end.

(** The references of an operation are to tasks, schedulers and reservations
    that exist. *)
Definition sched_ref (s : Cfs L) (q : nat) : Prop := (q < length (schedulers s))%nat.
Definition task_ref (s : Cfs L) (x : nat) : Prop := (x < length (cfs_tasks s))%nat.
Definition op_refs (o : cfs_op) (st : cfs_state) : Prop :=
  let '(rs, s) := st in
  match o with
  | CNewTask | CNewScheduler => True
  | CTicks n => 0 <= n <= usize_MAX
  | CConfigure x p => task_ref s x
  | CInherit x parent => task_ref s x /\ task_ref s parent
  | CCommit q k => sched_ref s q /\ exists r, rs !! k = Some (Some r)
  | CCancel k | CForget k => exists r, rs !! k = Some (Some r)
  | CPick q | CDrop q => sched_ref s q
  | CReserve q x | CAdd q x | CPut q x _ | CEnqueue q x _ | CRemove q x | CRemoveForMigration q x
  | CDeactivate q x _ | CSetParams q x _ | CSetPriority q x _ | CTick q x | CAccount q x _ => sched_ref s q /\ task_ref s x
  end.

End Exec.

Arguments cfs_state : clear implicits.

(** ** What operations mean for the queues *)

Section Effect.
Context {L : Type} `{ReadyTreeLaws L}.
Local Abbreviation Cfs := (Cfs L).
Implicit Types (s : Cfs) (q x y : nat) (t u : CFSTask) (c : CFScheduler) (p : CfsTaskParams) (rs : held).
Abbreviation live rs k r := ((rs : held) !! (k : nat) = Some (Some r)).

Definition same_queues s s' : Prop := forall j, linked s' j = linked s j.
Definition enters_queue q x s s' : Prop :=
  (forall j, x ∉ linked s j) /\ linked s' q ≡ₚ x :: linked s q /\ forall j, j <> q -> linked s' j = linked s j.
Definition leaves_queue q x s s' : Prop :=
  linked s q ≡ₚ x :: linked s' q /\ forall j, j <> q -> linked s' j = linked s j.
Definition reordered s s' : Prop := forall j, linked s' j ≡ₚ linked s j.

Definition queue_effect (o : cfs_op) (v : cfs_value) s s' : Prop :=
  match o, v with
  | (CAdd q x | CPut q x _ | CEnqueue q x _), _ => enters_queue q x s s'
  | CCommit q _, VTask (Some x) => enters_queue q x s s'
  | (CRemove q x | CRemoveForMigration q x), VTask (Some y) => y = x /\ leaves_queue q x s s'
  | (CRemove q x | CRemoveForMigration q x), _ => v = VTask None /\ (forall j, x ∉ linked s j) /\ same_queues s s'
  | CPick q, VTask (Some x) => linked s q = x :: linked s' q /\ forall j, j <> q -> linked s' j = linked s j
  | CPick q, _ => v = VTask None /\ linked s q = [] /\ same_queues s s'
  | (CSetParams q x _ | CSetPriority q x _), _ => reordered s s'
  | CDrop q, _ => linked s' q = [] /\ forall j, j <> q -> linked s' j = linked s j
  | _, _ => same_queues s s'
  end.

(** The task an operation is about. *)
Definition op_task (o : cfs_op) : option nat :=
  match o with
  | CConfigure x _ | CInherit x _ | CReserve _ x | CAdd _ x | CPut _ x _ | CEnqueue _ x _ | CRemove _ x
  | CRemoveForMigration _ x | CDeactivate _ x _ | CSetParams _ x _ | CSetPriority _ x _ | CTick _ x | CAccount _ x _ => Some x
  | _ => None
  end.
Definition op_sched (o : cfs_op) : option nat :=
  match o with
  | CReserve q _ | CCommit q _ | CAdd q _ | CPut q _ _ | CEnqueue q _ _ | CRemove q _ | CRemoveForMigration q _
  | CDeactivate q _ _ | CSetParams q _ _ | CSetPriority q _ _ | CPick q | CTick q _ | CAccount q _ _ | CDrop q => Some q
  | _ => None
  end.

Definition is_queued s x : Prop := exists q, x ∈ linked s q.
Definition task_with (P : CFSTask -> Prop) s (o : option nat) : Prop :=
  exists x t, o = Some x /\ cfs_tasks s !! x = Some t /\ P t.

(** The cause of an error. *)
Definition refused_because (o : cfs_op) (e : SchedulerError) (rs : held) s : Prop :=
  match e with
  | AlreadyQueued => exists x, op_task o = Some x /\ is_queued s x /\ forall q, op_sched o = Some q -> x ∈ linked s q
  | ForeignQueue =>
      (exists x q, op_task o = Some x /\ op_sched o = Some q /\ is_queued s x /\ x ∉ linked s q) \/
      (exists q k r c, o = CCommit q k /\ live rs k r /\ schedulers s !! q = Some c /\ r_scheduler_id r <> sched_id c)
  | TaskBusy => task_with (fun t => queue_owner t = CONFIGURING) s (op_task o)
  | InvalidParameters =>
      (exists p, (exists x, o = CConfigure x p \/ exists q, o = CSetParams q x p) /\ validated p = None) \/
      (exists q x prio, o = CSetPriority q x prio /\ ~ -20 <= prio <= 19)
  | IncompatibleClass =>
      task_with (fun t => is_realtime (load_sched_params t) = true) s (op_task o) \/
      exists x parent u, o = CInherit x parent /\ cfs_tasks s !! parent = Some u /\ is_realtime (load_sched_params u) = true
  | IdentifierExhausted =>
      next_scheduler_id s = usize_MAX /\
      exists q c, op_sched o = Some q /\ schedulers s !! q = Some c /\ sched_id c = UNOWNED
  | SequenceExhausted => exists q c, op_sched o = Some q /\ schedulers s !! q = Some c /\ exhausted c
  | _ => False
  end.

(** What a refused operation leaves alone: everything but the name of a
    scheduler. *)
Record untouched s s' : Prop := {
  un_queues : same_queues s s';
  un_tasks : cfs_tasks s' = cfs_tasks s;
  un_scheds j : (fun c => (min_vruntime c, fair_sequence c, rt_front_seq c, rt_back_seq c)) <$> schedulers s' !! j =
    (fun c => (min_vruntime c, fair_sequence c, rt_front_seq c, rt_back_seq c)) <$> schedulers s !! j }.

Lemma untouched_refl s : untouched s s.
Proof. by split. Qed.

(** The outcome of an operation. *)
Definition cfs_outcome (o : cfs_op) (rs : held) s (r : result cfs_value SchedulerError) s' : Prop :=
  match r with
  | Ok v => queue_effect o v s s'
  | Err e => untouched s s' /\ refused_because o e rs s
  end.

Definition steps_well (o : cfs_op) (rs : held) s : Prop :=
  exists r rs' s', cfs_exec o (rs, s) = Some (r, (rs', s')) /\ cfs_wf rs' s' /\ cfs_outcome o rs s r s'.

(** ** Each operation *)

Lemma ensured_untouched rs q c c1 s s1 : schedulers s !! q = Some c -> ensured rs q c c1 s s1 -> untouched s s1.
Proof.
  intros Hc [_ Hc1 _ Hsame _ Htr Htk Hother _]. split; [intros j; unfold linked; by rewrite Htr|done|].
  intros j. destruct (decide (j = q)) as [->|Hj]; [|by rewrite Hother]. rewrite Hc, Hc1, Hsame. done.
Qed.

(** The refusals of an insertion or of a reservation. *)
Lemma refused_causes o rs q x t c e s s1 :
  cfs_wf rs s -> schedulers s !! q = Some c -> cfs_tasks s !! x = Some t -> op_task o = Some x -> op_sched o = Some q ->
  enqueue_refused rs q x t c e s s1 -> cfs_wf rs s1 /\ untouched s s1 /\ refused_because o e rs s.
Proof.
  intros Hwf Hc Ht Hx Hq [(-> & -> & Hu & Hmax)|(c1 & Hen & Hcause)].
  { split; [done|]. split; [apply untouched_refl|]. split; [done|]. by exists q, c. }
  split; [apply Hen|]. split; [by apply (ensured_untouched rs q c c1)|]. destruct Hcause as [[Ho ->]|(Ho & -> & Hex)].
  - unfold refusal. destruct (queue_owner t =? CONFIGURING) eqn:Hcf.
    + apply Z.eqb_eq in Hcf. by exists x, t.
    + apply Z.eqb_neq in Hcf. destruct (wf_owned _ _ Hwf x t Ht) as [?|[?|Hqueued]]; [done..|].
      destruct (decide (x ∈ linked s q)) as [Hin|Hin].
      * exists x. split; [done|]. split; [by exists q|]. intros q' Hq'. by simplify_eq.
      * left. by exists x, q.
  - by exists q, c.
Qed.

Lemma enqueue_steps o rs q x action s :
  cfs_wf rs s -> sched_ref s q -> task_ref s x -> op_task o = Some x -> op_sched o = Some q ->
  cfs_exec o (rs, s) = settle (fun _ => VUnit) rs (enqueue_with_action q x action s) ->
  (forall s', enters_queue q x s s' -> queue_effect o VUnit s s') -> steps_well o rs s.
Proof.
  intros Hwf [c Hc]%lookup_lt_is_Some_2 [t Ht]%lookup_lt_is_Some_2 Hx Hq Hex Heff. unfold steps_well. rewrite Hex.
  destruct (enqueue_outcome rs q x t c action s Hwf Hc Ht) as [(s1 & c1 & s' & Hen & Ho & -> & Hin)|(e & s1 & -> & Href)].
  - pose proof (en_wf _ _ _ _ _ _ Hen) as Hwf1. destruct (enters_wf action rs q x t c1 s1 s' Hwf1 Hin) as (Hwf' & Hp & Hj & _).
    eexists _, _, s'. split; [done|]. split; [done|]. apply Heff. unfold linked in Hp, Hj. rewrite (en_trees _ _ _ _ _ _ Hen) in Hp, Hj.
    split; [|done]. apply (unowned_unlinked rs s x t Hwf Ht). by left.
  - destruct (refused_causes o rs q x t c e s s1 Hwf Hc Ht Hx Hq Href) as (Hwf1 & Hun & Hbe). by eexists _, _, s1.
Qed.

Lemma reserve_steps rs q x s : cfs_wf rs s -> sched_ref s q -> task_ref s x -> steps_well (CReserve q x) rs s.
Proof.
  intros Hwf [c Hc]%lookup_lt_is_Some_2 [t Ht]%lookup_lt_is_Some_2. unfold steps_well. cbn [cfs_exec].
  destruct (reserve_outcome rs q x t c s Hwf Hc Ht) as [(s1 & c1 & r & s' & Hen & Ho & -> & (c' & _ & _ & -> & Hwf'))|(e & s1 & -> & Href)].
  - eexists _, _, _. split; [done|]. split; [done|]. intros j. unfold linked. by rewrite <- (en_trees _ _ _ _ _ _ Hen).
  - destruct (refused_causes (CReserve q x) rs q x t c e s s1 Hwf Hc Ht eq_refl eq_refl Href) as (Hwf1 & Hun & Hbe). by eexists _, _, s1.
Qed.

(** A task that enters with a key that was computed before. *)
Lemma linked_any_wf rs rs' (b : bool) q x t t' c c' s : cfs_wf rs s -> linkable rs rs' q x t t' c c' s ->
  let s' := (if b then link_state else linked_fair) q x t' c' s in
  cfs_wf rs' s' /\ linked s' q ≡ₚ x :: linked s q /\ (forall j, j <> q -> linked s' j = linked s j).
Proof.
  intros Hwf Hl s'. destruct (cfs_link_wf _ _ _ _ _ _ _ _ _ Hwf Hl) as (Hwf1 & Hq & Hj). unfold s'. destruct b; [done|].
  split; [|done]. apply (refresh_wf _ _ q c'); [done| |done]. apply (set_sched_eq q c c' s), Hl.
Qed.

Lemma commit_steps rs q k s : cfs_wf rs s -> sched_ref s q -> (exists r, live rs k r) -> steps_well (CCommit q k) rs s.
Proof.
  intros Hwf [c Hc]%lookup_lt_is_Some_2 [r Hk]. unfold steps_well. cbn [cfs_exec]. rewrite Hk.
  pose proof (commit_outcome rs k r q c s Hwf Hk Hc) as Hout. destruct (r_scheduler_id r =? sched_id c) eqn:Hid.
  - destruct Hout as (t & s' & Ht & -> & Hlink & -> & Hwf'). eexists _, _, _. split; [done|]. split; [done|].
    destruct (linked_any_wf _ _ (is_realtime (r_params r)) _ _ _ _ _ _ _ Hwf Hlink) as (_ & Hq & Hj). split; [|done]. apply Hlink.
  - rewrite Hout. exists (Err ForeignQueue), rs, s. split; [by rewrite list_insert_id|]. split; [done|]. split; [apply untouched_refl|].
    right. apply Z.eqb_neq in Hid. by exists q, k, r, c.
Qed.

Lemma back_steps rs k s o : cfs_wf rs s -> (exists r, live rs k r) -> o = CCancel k \/ o = CForget k -> steps_well o rs s.
Proof.
  intros Hwf [r Hk] Ho. destruct (give_back rs k r s Hwf Hk) as (t & Ht & _ & Hcancel & Hforget & Hwf').
  unfold steps_well. destruct Ho as [->| ->]; cbn [cfs_exec]; rewrite Hk, ?Hcancel, ?Hforget; by eexists _, _, _.
Qed.

Lemma remove_steps o rs q x preserve s :
  cfs_wf rs s -> sched_ref s q -> task_ref s x -> o = (if preserve : bool then CRemoveForMigration q x else CRemove q x) -> steps_well o rs s.
Proof.
  intros Hwf [c Hc]%lookup_lt_is_Some_2 [t Ht]%lookup_lt_is_Some_2 Ho. unfold steps_well.
  assert (cfs_exec o (rs, s) = settle VTask rs (remove_owned_task q x UNOWNED preserve s)) as -> by (subst; by destruct preserve).
  destruct (decide (x ∈ linked s q)) as [Hx|Hx].
  - destruct (remove_linked rs q x t c UNOWNED preserve s Hwf Hc Ht Hx) as (l & l1 & l2 & Hl & Hrem & ->); [by left|].
    set (t' := with_owner UNOWNED _). eexists _, _, _. split; [done|]. split.
    { eapply removed_wf; try done; [by left|]. destruct (task_at_ok rs s x t Hwf Ht) as [Hok _].
      pose proof (staged_ok (default 0 (min_vruntime c)) t Hok). unfold t'. destruct preserve; [destruct H0|destruct Hok]; by split. }
    assert (forall j, linked (removed l q x t' c s) j = members l j) as Hm by (intros j; unfold removed; by destruct (_ =? 0)).
    assert (leaves_queue q x s (removed l q x t' c s)) as Hleave.
    { split; [rewrite Hm, Hrem, on_list_eq, Hl; by rewrite Permutation_middle|]. intros j Hj. by rewrite Hm, Hrem, on_list_ne. }
    subst o. by destruct preserve.
  - rewrite (remove_other rs q x t c UNOWNED preserve s Hwf Hc Ht Hx). destruct (queue_owner t =? UNOWNED) eqn:Hu.
    + apply Z.eqb_eq in Hu. eexists _, _, s. split; [done|]. split; [done|].
      assert (forall j, x ∉ linked s j) by (apply (unowned_unlinked rs s x t Hwf Ht); by left). subst o. by destruct preserve.
    + apply Z.eqb_neq in Hu. eexists _, _, s. split; [done|]. split; [done|]. split; [apply untouched_refl|].
      destruct (queue_owner t =? CONFIGURING) eqn:Hcf; [apply Z.eqb_eq in Hcf|apply Z.eqb_neq in Hcf].
      * exists x, t. subst o. by destruct preserve.
      * destruct (wf_owned _ _ Hwf x t Ht) as [?|[?|Hqueued]]; [done..|]. left. exists x, q. subst o. by destruct preserve.
Qed.

(** New objects *)
Lemma new_task_ok : task_ok task_new.
Proof.
  assert (load_sched_params task_new = params_default) as Hl by (vm_compute; reflexivity).
  assert (in_isize 0) by (unfold in_isize, isize_MIN, isize_MAX; lia). by split.
Qed.

Lemma new_task_wf rs s : cfs_wf rs s -> cfs_wf rs (add_new_task s).
Proof.
  intros [W1 W2 W3 W4 W5 W6 W7 W8 [R1 R2 R3 R4 R5]]. pose proof new_task_ok as Hok.
  assert (forall y t, cfs_tasks s !! y = Some t -> cfs_tasks (add_new_task s) !! y = Some t) as Hold by (intros; by apply lookup_app_l_Some).
  assert (forall y t, cfs_tasks (add_new_task s) !! y = Some t -> cfs_tasks s !! y = Some t \/ t = task_new) as Hnew.
  { intros y t [?|[_ ?]]%lookup_app_Some; [by left|]. right. by apply list_lookup_singleton_Some in H0 as [_ <-]. }
  assert (forall q y, y ∈ linked s q -> exists t, cfs_tasks s !! y = Some t) as Hin.
  { intros q y Hy. destruct (W5 q y Hy) as (_ & t & _ & _ & ? & _). by exists t. }
  split; try done.
  - intros q x Hx. destruct (W5 q x Hx) as (c & t & ? & ? & Ht & ?). exists c, t. split_and!; try apply Hold; tauto.
  - intros x t [Ht| ->]%Hnew; [by apply (W6 x)|by left].
  - intros q. eapply in_order_ext; [|apply (W7 q)]. intros y Hy. destruct (Hin q y Hy) as [t Ht].
    by rewrite (key_of_task s y t Ht), (key_of_task (add_new_task s) y t (Hold y t Ht)).
  - intros x t [Ht| ->]%Hnew; [by apply (W8 x)|done].
  - split; try done.
    + intros k r Hk. destruct (R1 k r Hk) as (t & ? & ?). exists t. split; [by apply Hold|done].
    + intros k r q c y t Hk Hc Hid Hy Ht. destruct (Hin q y Hy) as [u Hu]. rewrite (Hold y u Hu) in Ht. injection Ht as <-. by apply (R4 k r q c y u).
Qed.

Lemma new_scheduler_wf rs s : cfs_wf rs s -> cfs_wf rs (add_new_scheduler s).
Proof.
  intros [W1 W2 W3 W4 W5 W6 W7 W8 [R1 R2 R3 R4 R5]].
  assert (forall q c, schedulers (add_new_scheduler s) !! q = Some c -> schedulers s !! q = Some c \/ c = new_scheduler) as Hnew.
  { intros q c [?|[_ ?]]%lookup_app_Some; [by left|]. right. by apply list_lookup_singleton_Some in H0 as [_ <-]. }
  split; try done.
  - intros q c [Hc| ->]%Hnew; [by apply (W2 q)|cbn; unfold UNOWNED; lia].
  - intros q q' c c' [Hc| ->]%Hnew [Hc'| ->]%Hnew Hid Hn; [by apply (W3 q q' c c')|by rewrite Hid in Hn|done..].
  - intros q c [Hc| ->]%Hnew; [by apply (W4 q)|]. split; cbn; unfold isize_MIN, isize_MAX; try lia. done.
  - intros q x Hx. destruct (W5 q x Hx) as (c & t & Hc & ?). exists c, t. split; [by apply lookup_app_l_Some|done].
  - split; try done.
    + intros k r q c Hk [Hc| ->]%Hnew Hid; [by apply (R3 k r q)|]. pose proof (R2 k r Hk). cbn in Hid. unfold UNOWNED in Hid. lia.
    + intros k r q c y t Hk [Hc| ->]%Hnew Hid; [by apply (R4 k r q c)|]. pose proof (R2 k r Hk). cbn in Hid. unfold UNOWNED in Hid. lia.
Qed.

Lemma ticks_wf rs n s : cfs_wf rs s -> cfs_wf rs (set_ticks n s).
Proof. intros [W1 W2 W3 W4 W5 W6 W7 W8 [R1 R2 R3 R4 R5]]. by split; try done; split. Qed.

(** Configuration of a task *)
Lemma changed_free_wf rs x t t' s : cfs_wf rs s -> cfs_tasks s !! x = Some t -> queue_owner t = UNOWNED ->
  queue_owner t' = UNOWNED -> task_ok t' -> cfs_wf rs (set_task x t' s).
Proof.
  intros Hwf Ht Ho Ho' Hok. apply (free_task_wf rs rs s x t); try done; [by left..|]. intros k r Hk. split; [done|].
  intros Hr. by destruct (unowned_unreserved rs s x t Hwf Ht Ho k r Hk).
Qed.

Lemma busy_cause o rs x t s : cfs_wf rs s -> cfs_tasks s !! x = Some t -> queue_owner t <> UNOWNED ->
  op_task o = Some x -> op_sched o = None -> refused_because o (busy t) rs s.
Proof.
  intros Hwf Ht Hu Hx Hq. unfold busy. destruct (queue_owner t =? CONFIGURING) eqn:Hcf.
  - apply Z.eqb_eq in Hcf. by exists x, t.
  - apply Z.eqb_neq in Hcf. destruct (wf_owned _ _ Hwf x t Ht) as [?|[?|?]]; [done..|]. exists x. split_and!; try done.
    intros q Hq'. congruence.
Qed.

Lemma applied_free_wf rs x t p s : cfs_wf rs s -> cfs_tasks s !! x = Some t -> queue_owner t = UNOWNED -> params_valid p ->
  cfs_wf rs (set_task x (applied (rr_ticks s) p t) s).
Proof.
  intros Hwf Ht Ho Hp. apply (changed_free_wf rs x t); try done. apply applied_ok; [by apply (wf_task _ _ Hwf x)|done].
Qed.

Lemma configure_steps rs x p s : cfs_wf rs s -> task_ref s x -> steps_well (CConfigure x p) rs s.
Proof.
  intros Hwf [t Ht]%lookup_lt_is_Some_2. destruct (task_at_ok rs s x t Hwf Ht) as [Hok Hv]. unfold steps_well. cbn [cfs_exec].
  rewrite (configure_run x t p s Ht Hv). destruct (validated p) as [p'|] eqn:Hp.
  - destruct (queue_owner t =? UNOWNED) eqn:Hu.
    + apply Z.eqb_eq in Hu. eexists _, _, _. split; [done|]. split; [|done]. apply applied_free_wf; try done. by eapply validated_valid.
    + apply Z.eqb_neq in Hu. eexists _, _, s. split; [done|]. split; [done|]. split; [apply untouched_refl|]. by apply (busy_cause _ rs x).
  - eexists _, _, s. split; [done|]. split; [done|]. split; [apply untouched_refl|]. left. exists p. split; [|done]. exists x. by left.
Qed.

Lemma inherit_steps rs x parent s : cfs_wf rs s -> task_ref s x -> task_ref s parent -> steps_well (CInherit x parent) rs s.
Proof.
  intros Hwf [t Ht]%lookup_lt_is_Some_2 [u Hu]%lookup_lt_is_Some_2.
  destruct (task_at_ok rs s x t Hwf Ht) as [Hok _], (task_at_ok rs s parent u Hwf Hu) as [_ Hv].
  unfold steps_well. cbn [cfs_exec]. rewrite (inherit_run x t parent u s Ht Hu Hv). destruct (queue_owner t =? UNOWNED) eqn:Ho.
  - apply Z.eqb_eq in Ho. destruct (is_realtime (load_sched_params t) || is_realtime (load_sched_params u)) eqn:Hrt.
    + eexists _, _, s. split; [done|]. split; [done|]. split; [apply untouched_refl|]. apply orb_true_iff in Hrt as [Hrt|Hrt].
      * left. by exists x, t.
      * right. by exists x, parent, u.
    + eexists _, _, _. split; [done|]. split; [|done]. apply (changed_free_wf rs x t); try done. destruct Hok.
      split; try done. apply saturate_range.
  - apply Z.eqb_neq in Ho. eexists _, _, s. split; [done|]. split; [done|]. split; [apply untouched_refl|]. by apply (busy_cause _ rs x).
Qed.

(** Updates of parameters *)
Lemma set_params_queued rs q x t c p s :
  cfs_wf rs s -> schedulers s !! q = Some c -> cfs_tasks s !! x = Some t -> x ∈ linked s q -> params_valid p ->
  set_task_params q x p s = (removed ← remove_owned_task q x CONFIGURING false;
    queued ← some_or removed InconsistentState; apply_validated queued p;;
    on_error (reinsert_reconfigured q queued p)
      (restore_reconfigured q queued (snapshot_reconfiguration_state t) (min_vruntime c))) s.
Proof.
  intros Hwf Hc Ht Hx Hp. destruct (linked_owner rs s q x t Hwf Hx Ht) as [Hu Hcf].
  destruct (wf_linked _ _ Hwf q x Hx) as (c0 & t0 & Hc0 & Hn & Ht0 & Ho & _). rewrite Hc in Hc0. injection Hc0 as <-.
  rewrite Ht in Ht0. injection Ht0 as <-. unfold set_task_params. rewrite Hp. run. run. run.
  by rewrite (proj2 (Z.eqb_neq _ _) Hu), (proj2 (Z.eqb_neq _ _) Hcf), Ho, Z.eqb_refl, (proj2 (Z.eqb_neq _ UNOWNED)) by done.
Qed.

Lemma reconfigured_effect rs q x t c p s :
  cfs_wf rs s -> schedulers s !! q = Some c -> cfs_tasks s !! x = Some t -> x ∈ linked s q -> params_valid p ->
  (exists s', set_task_params q x p s = Done tt s' /\ cfs_wf rs s' /\ reordered s s') \/
  (exists l, set_task_params q x p s = Fail SequenceExhausted (set_trees l s) /\ exhausted c /\ forall j, members l j = linked s j).
Proof.
  intros Hwf Hc Ht Hx Hp. pose proof (reconfigure_queued rs q x t c p s Hwf Hc Ht Hx Hp) as Hcases. cbv zeta in Hcases.
  rewrite (set_params_queued rs q x t c p s) by done.
  destruct Hcases as [(s1 & n & c1 & c' & s' & -> & Hwf1 & _ & Hperm & _ & Hlink & ->)|(l & -> & Hex & Hm)]; [left|right; by exists l].
  eexists. split; [done|]. destruct (linked_any_wf rs rs (is_realtime p) _ _ _ _ _ _ _ Hwf1 Hlink) as (Hwf' & Hq & Hj). split; [done|].
  intros j. specialize (Hperm j). destruct (decide (j = q)) as [->|Hne]; [by rewrite Hq, Hperm|by rewrite Hj, Hperm].
Qed.

(** The cases in which parameters of a task are not changed in its queue. *)
Lemma set_params_other rs q x t c p s :
  cfs_wf rs s -> schedulers s !! q = Some c -> cfs_tasks s !! x = Some t -> x ∉ linked s q -> params_valid p ->
  set_task_params q x p s =
    if queue_owner t =? UNOWNED then Done tt (set_task x (applied (rr_ticks s) p t) s)
    else Fail (if queue_owner t =? CONFIGURING then TaskBusy else ForeignQueue) s.
Proof.
  intros Hwf Hc Ht Hx Hp. unfold set_task_params. rewrite Hp. run. run. run. destruct (task_at_ok rs s x t Hwf Ht) as [_ Hv].
  destruct (queue_owner t =? UNOWNED) eqn:Hu; [by rewrite (configure_run x t p s Ht Hv), Hp, Hu|].
  destruct (queue_owner t =? CONFIGURING) eqn:Hcf; [done|]. apply Z.eqb_neq in Hu, Hcf.
  destruct (owner_cases rs s q x c t Hwf Hc Ht) as [?|[?|[(_ & _ & ?)|(_ & _ & Hne & _)]]]; [done..|].
  by rewrite (proj2 (Z.eqb_neq _ _) Hne).
Qed.

(** A task that is elsewhere. *)
Lemma elsewhere_cause o rs q x t s : cfs_wf rs s -> cfs_tasks s !! x = Some t -> x ∉ linked s q -> queue_owner t <> UNOWNED ->
  op_task o = Some x -> op_sched o = Some q ->
  refused_because o (if queue_owner t =? CONFIGURING then TaskBusy else ForeignQueue) rs s.
Proof.
  intros Hwf Ht Hx Hu Ho Hq. destruct (queue_owner t =? CONFIGURING) eqn:Hcf; [apply Z.eqb_eq in Hcf|apply Z.eqb_neq in Hcf].
  - by exists x, t.
  - destruct (wf_owned _ _ Hwf x t Ht) as [?|[?|?]]; [done..|]. left. by exists x, q.
Qed.

Lemma valid_params_steps o rs q x p s :
  cfs_wf rs s -> sched_ref s q -> task_ref s x -> params_valid p -> op_task o = Some x -> op_sched o = Some q ->
  cfs_exec o (rs, s) = settle (fun _ => VUnit) rs (set_task_params q x p s) ->
  (forall s', reordered s s' -> queue_effect o VUnit s s') -> steps_well o rs s.
Proof.
  intros Hwf [c Hc]%lookup_lt_is_Some_2 [t Ht]%lookup_lt_is_Some_2 Hp Hx Hq Hex Heff. unfold steps_well. rewrite Hex.
  destruct (decide (x ∈ linked s q)) as [Hin|Hin].
  - destruct (reconfigured_effect rs q x t c p s Hwf Hc Ht Hin Hp) as [(s' & -> & Hwf' & Hre)|(l & -> & Hexh & Hm)].
    + eexists _, _, s'. split; [done|]. split; [done|]. by apply Heff.
    + eexists _, _, _. split; [done|]. split; [by apply trees_wf|]. split; [by split|]. by exists q, c.
  - rewrite (set_params_other rs q x t c p s Hwf Hc Ht Hin Hp). destruct (queue_owner t =? UNOWNED) eqn:Hu.
    + apply Z.eqb_eq in Hu. eexists _, _, _. split; [done|]. split; [by apply applied_free_wf|]. apply Heff. intros j. done.
    + apply Z.eqb_neq in Hu. eexists _, _, s. split; [done|]. split; [done|]. split; [apply untouched_refl|].
      by apply (elsewhere_cause o rs q x t).
Qed.

Lemma set_params_steps rs q x p s : cfs_wf rs s -> sched_ref s q -> task_ref s x -> steps_well (CSetParams q x p) rs s.
Proof.
  intros Hwf Hq Hx. destruct (validated p) as [p'|] eqn:Hp.
  - pose proof (validated_valid p p' Hp) as Hp'. apply (valid_params_steps _ rs q x p' s); try done.
    cbn [cfs_exec]. unfold set_task_params. by rewrite Hp, Hp'.
  - unfold steps_well. cbn [cfs_exec]. unfold set_task_params. rewrite Hp. eexists _, _, s. split; [done|]. split; [done|].
    split; [apply untouched_refl|]. left. exists p. split; [|done]. exists x. right. by exists q.
Qed.

Lemma nice_valid p n : is_realtime p = false -> -20 <= n <= 19 -> exists p', validated (mkParams (class p) n 0) = Some p'.
Proof.
  intros Hrt Hn. unfold validated, is_realtime in *. cbn [class nice rt_priority].
  destruct (class p); try done; cbn -[Z.leb]; unfold NICE_RANGE_POS; (rewrite (proj2 (Z.leb_le _ _)), (proj2 (Z.leb_le _ _)) by lia; by eexists).
Qed.

Lemma set_priority_steps rs q x n s : cfs_wf rs s -> sched_ref s q -> task_ref s x -> steps_well (CSetPriority q x n) rs s.
Proof.
  intros Hwf Hq Hx. pose proof Hq as [c Hc]%lookup_lt_is_Some_2. pose proof Hx as [t Ht]%lookup_lt_is_Some_2.
  destruct (task_at_ok rs s x t Hwf Ht) as [Hok Hv]. unfold steps_well. cbn [cfs_exec]. unfold set_priority.
  destruct ((-20 <=? n) && (n <=? 19)) eqn:Hn; cbn [negb].
  2:{ eexists _, _, s. split; [done|]. split; [done|]. split; [apply untouched_refl|]. right. exists q, x, n. split; [done|]. lia. }
  apply andb_true_iff in Hn as [Hn1%Z.leb_le Hn2%Z.leb_le]. run. run. destruct (queue_owner t =? UNOWNED) eqn:Hu.
  - rewrite (configure_nice_run x t n s Ht Hv) by lia. rewrite Hu. apply Z.eqb_eq in Hu.
    destruct (is_realtime (load_sched_params t)) eqn:Hrt.
    + eexists _, _, s. split; [done|]. split; [done|]. split; [apply untouched_refl|]. left. by exists x, t.
    + destruct (nice_valid _ n Hrt) as [p' Hp']; [lia|]. rewrite Hp'. eexists _, _, _. split; [done|]. split; [|by intros j].
      apply applied_free_wf; try done. by eapply validated_valid.
  - destruct (queue_owner t =? CONFIGURING) eqn:Hcf.
    { apply Z.eqb_eq in Hcf. eexists _, _, s. split; [done|]. split; [done|]. split; [apply untouched_refl|]. by exists x, t. }
    apply Z.eqb_neq in Hu, Hcf. destruct (negb (queue_owner t =? sched_id c) || (sched_id c =? UNOWNED)) eqn:Hf.
    { eexists _, _, s. split; [done|]. split; [done|]. split; [apply untouched_refl|].
      destruct (owner_cases rs s q x c t Hwf Hc Ht) as [?|[?|[(He & Hne & _)|(_ & _ & _ & q' & Hq' & Hin)]]]; [done..| |].
      - by rewrite He, Z.eqb_refl, (proj2 (Z.eqb_neq _ _)) in Hf.
      - left. exists x, q. split_and!; try done; [by exists q'|]. intros Hin'. apply Hq'. by apply (cfs_linked_once rs s q' q x). }
    run. destruct (is_realtime (load_sched_params t)) eqn:Hrt.
    { eexists _, _, s. split; [done|]. split; [done|]. split; [apply untouched_refl|]. left. by exists x, t. }
    destruct (nice_valid _ n Hrt) as [p' Hp']; [lia|]. pose proof (validated_valid _ p' Hp') as Hvp.
    destruct (valid_params_steps (CSetParams q x p') rs q x p' s Hwf Hq Hx Hvp eq_refl eq_refl eq_refl) as (r & rs' & s' & He & Hwf' & Hout); [done|].
    exists r, rs', s'. split; [|split; [done|]].
    + cbn [cfs_exec] in He. rewrite <- He. unfold set_task_params. by rewrite Hp', Hvp.
    + destruct r as [v|e]; [done|]. split; [apply Hout|]. destruct Hout as [_ Hout]. destruct e; try done; cbn in *.
      * by destruct Hout as [Hout|(? & ? & ? & ? & ? & _)]; [left|].
      * destruct Hout as [(p0 & (y & [?|[? He']]) & Hp0)|(? & ? & ? & ? & _)]; try done. injection He' as <- <- <-. by rewrite Hvp in Hp0.
      * by destruct Hout as [Hout|(? & ? & ? & ? & _)]; [left|].
Qed.

(** Picking, accounting and the end of a scheduler *)
Lemma pick_steps rs q s : cfs_wf rs s -> sched_ref s q -> steps_well (CPick q) rs s.
Proof.
  intros Hwf [c Hc]%lookup_lt_is_Some_2. unfold steps_well. cbn [cfs_exec]. destruct (linked s q) as [|x rest] eqn:Hl.
  - destruct (pick_empty rs q c s Hwf Hc Hl) as (l & -> & Hm & Hwf'). by eexists _, _, _.
  - destruct (pick_first rs q c x rest s Hwf Hc Hl) as (t & l & s' & Ht & Hrem & -> & -> & Hwf').
    eexists _, _, _. split; [done|]. split; [done|]. set (s' := set_sched _ _ _) in *.
    assert (forall j, linked s' j = on_list q rest (linked s) j) as Hm by (intros j; apply (Hrem j)).
    split; [by rewrite Hm, on_list_eq|]. intros j Hj. by rewrite Hm, on_list_ne.
Qed.

Lemma tick_returns rs q x s : cfs_wf rs s -> sched_ref s q -> task_ref s x ->
  exists b s', task_tick q x s = Done b s' /\ cfs_wf rs s' /\ same_queues s s' /\ sched_ref s' q /\ task_ref s' x.
Proof.
  intros Hwf [c Hc]%lookup_lt_is_Some_2 [t Ht]%lookup_lt_is_Some_2. unfold sched_ref, task_ref.
  pose proof (lookup_lt_Some _ _ _ Hc) as Hq. pose proof (lookup_lt_Some _ _ _ Ht) as Hx. destruct (is_realtime (load_sched_params t)) eqn:Hrt.
  - destruct (tick_rt rs q x t s Hwf Ht Hrt) as (higher & same & _ & _ & Htick). destruct (rt_ticked _ _ _ _) as [b t'].
    destruct Htick as [Htick Hwf']. exists b, (set_task x t' s). split_and!; try done. cbn. by rewrite length_insert.
  - destruct (tick_fair rs q x t c s Hwf Hc Ht Hrt) as [[_ Htick]|(_ & v & s' & _ & -> & Htick & Hwf')].
    + exists true, s. by split_and!.
    + eexists _, _. split; [exact Htick|]. split_and!; try done; cbn; by rewrite length_insert.
Qed.

Lemma account_returns rs n q x b s : cfs_wf rs s -> sched_ref s q -> task_ref s x ->
  exists b' s', account_periods n q x b s = Done b' s' /\ cfs_wf rs s' /\ same_queues s s'.
Proof.
  revert b s. induction n as [|n IH]; intros b s Hwf Hq Hx; cbn [account_periods]; [by exists b, s|].
  destruct (tick_returns rs q x s Hwf Hq Hx) as (b1 & s1 & Htick & Hwf1 & Hsame & Hq1 & Hx1). rewrite (bind_done _ _ _ _ _ Htick).
  destruct (IH (b || b1) s1 Hwf1 Hq1 Hx1) as (b' & s' & -> & Hwf' & Hsame'). exists b', s'. split; [done|]. split; [done|].
  intros j. by rewrite Hsame', Hsame.
Qed.

Lemma tick_steps rs q x s : cfs_wf rs s -> sched_ref s q -> task_ref s x -> steps_well (CTick q x) rs s.
Proof.
  intros Hwf Hq Hx. destruct (tick_returns rs q x s Hwf Hq Hx) as (b & s' & Htick & Hwf' & Hsame & _).
  unfold steps_well. cbn [cfs_exec]. rewrite Htick. by eexists _, _, s'.
Qed.

Lemma account_steps rs q x d s : cfs_wf rs s -> sched_ref s q -> task_ref s x -> steps_well (CAccount q x d) rs s.
Proof.
  intros Hwf Hq Hx. unfold steps_well. cbn [cfs_exec]. unfold account_runtime.
  destruct (account_returns rs (Z.to_nat (RuntimeDelta.whole_periods d)) q x false s Hwf Hq Hx) as (b & s' & -> & Hwf' & Hsame).
  by eexists _, _, s'.
Qed.

Lemma deactivate_steps rs q x reason s : cfs_wf rs s -> sched_ref s q -> task_ref s x -> steps_well (CDeactivate q x reason) rs s.
Proof.
  intros Hwf [c Hc]%lookup_lt_is_Some_2 [t Ht]%lookup_lt_is_Some_2. unfold steps_well. cbn [cfs_exec].
  destruct (deactivate_run rs q x t c reason s Hwf Hc Ht) as [-> Hwf']. by eexists _, _, _.
Qed.

Lemma drop_steps rs q s : cfs_wf rs s -> sched_ref s q -> steps_well (CDrop q) rs s.
Proof.
  intros Hwf [c Hc]%lookup_lt_is_Some_2. unfold steps_well. cbn [cfs_exec]. unfold drop_scheduler. run.
  pose proof (cfs_linked_length rs q s Hwf). destruct (cfs_drain_run rs q c (S (length (cfs_tasks s))) s Hwf Hc) as (s' & -> & Hwf' & Hq & Hj & _); [lia|].
  by eexists _, _, s'.
Qed.

(** Every operation on a well-formed state returns, with its effect or its cause
    of refusal. *)
Lemma cfs_step o rs s : cfs_wf rs s -> op_refs o (rs, s) -> steps_well o rs s.
Proof.
  intros Hwf Href. destruct o; cbn [op_refs] in Href; try destruct Href as [Hq Hx].
  - eexists _, _, _. split; [done|]. split; [by apply new_task_wf|done].
  - eexists _, _, _. split; [done|]. split; [by apply new_scheduler_wf|done].
  - unfold steps_well. cbn [cfs_exec]. unfold set_rr_timeslice_ticks. destruct (n =? 0); [by eexists _, _, s|].
    eexists _, _, _. split; [done|]. split; [by apply ticks_wf|done].
  - by apply configure_steps.
  - by apply inherit_steps.
  - by apply reserve_steps.
  - by apply commit_steps.
  - by apply (back_steps rs k); [|eexists|left].
  - by apply (back_steps rs k); [|eexists|right].
  - by apply (enqueue_steps _ rs q x ActNew).
  - by apply (enqueue_steps _ rs q x (Requeue preempt)).
  - by eapply (enqueue_steps _ rs q x).
  - by apply (remove_steps _ rs q x false).
  - by apply (remove_steps _ rs q x true).
  - by apply deactivate_steps.
  - by apply set_params_steps.
  - by apply set_priority_steps.
  - by apply pick_steps.
  - by apply tick_steps.
  - by apply account_steps.
  - by apply drop_steps.
Qed.

(** ** Histories *)

Inductive cfs_reach : (cfs_state L) -> Prop :=
| cfs_reach_boot : cfs_reach ([], cfs_boot)
| cfs_reach_step st o r st' : cfs_reach st -> op_refs o st -> cfs_exec o st = Some (r, st') -> cfs_reach st'.

Lemma cfs_boot_wf : cfs_wf [] (cfs_boot : Cfs).
Proof.
  assert (forall j, linked (cfs_boot : Cfs) j = []) as Hl by (intros j; apply no_trees_members). split; try done.
  - intros q x. rewrite Hl. by intros ?%not_elem_of_nil.
  - intros q. by rewrite Hl.
Qed.

Lemma cfs_reach_wf st : cfs_reach st -> cfs_wf st.1 st.2.
Proof.
  induction 1 as [|[rs s] o r [rs' s'] Hr IH Href Hex]; [apply cfs_boot_wf|].
  destruct (cfs_step o rs s IH Href) as (r1 & rs1 & s1 & Hex1 & Hwf1 & _). rewrite Hex in Hex1. by injection Hex1 as <- <- <-.
Qed.

(** Running a list of operations, with the references checked. *)
#[export] Instance op_refs_dec o (st : (cfs_state L)) : Decision (op_refs o st).
Proof.
  destruct st as [rs s]. unfold op_refs, sched_ref, task_ref.
  assert (forall k, Decision (exists r, live rs k r)) as Hlive.
  { intros k. destruct (rs !! k) as [[r|]|] eqn:Hk; [left; by exists r|right; intros (r & Hr); congruence..]. }
  destruct o; apply _.
Defined.

Fixpoint cfs_run (os : list cfs_op) (st : (cfs_state L)) : option (cfs_state L) :=
  match os with
  | [] => Some st
  | o :: os => if decide (op_refs o st) then '(_, st) ← cfs_exec o st; cfs_run os st else None
  end.

Lemma cfs_run_reach os st st' : cfs_reach st -> cfs_run os st = Some st' -> cfs_reach st'.
Proof.
  revert st. induction os as [|o os IH]; intros st Hr; cbn [cfs_run]; [by intros [= <-]|].
  destruct (decide (op_refs o st)) as [Href|]; [|done]. destruct (cfs_exec o st) as [[r st1]|] eqn:Hex; [|done]. cbn.
  apply IH. by eapply cfs_reach_step.
Qed.

End Effect.
