(* ===== verification/CfsVerified.v ===== *)
(** The completely fair scheduler, part 7: what its histories guarantee.

    [L] is any implementation of the ready trees that keeps the documented
    behaviour of the ordered tree; the witnesses run on [plain_trees]. *)

From S2P Require Import Prelude Effects Atomics ReadyTree Sched Cfs CfsSpec CfsQueue CfsConfigure CfsTick CfsHistory.
Local Open Scope Z_scope.

(** ** Claims *)

Section Claims.
Context {L : Type} `{ReadyTreeLaws L}.
Local Abbreviation Cfs := (Cfs L).
Implicit Types (s : Cfs) (q x y : nat) (t u : CFSTask) (c : CFScheduler) (p : CfsTaskParams).


(** How a queued task ranks: real-time before fair, higher priority first, less
    virtual time first. *)
Definition ranks_before t u : Prop :=
  let p := load_sched_params t in let p' := load_sched_params u in
  match is_realtime p, is_realtime p' with
  | true, false => True
  | false, true => False
  | true, true => rt_priority p' < rt_priority p
  | false, false => ready_order t < ready_order u
  end.

Lemma ranks_before_key rs s q t u : cfs_wf rs s -> ready s q t -> ready s q u ->
  ranks_before t u <-> ready_class t < ready_class u \/ ready_class t = ready_class u /\ ready_order t < ready_order u.
Proof.
  intros Hwf Ht Hu. destruct (ready_kind rs s q t Hwf Ht) as (H1 & H2 & H3), (ready_kind rs s q u Hwf Hu) as (H4 & H5 & H6).
  unfold ranks_before. rewrite <- H1, <- H4. unfold rt_priority_key in *. destruct (ready_is_rt t), (ready_is_rt u);
    repeat match goal with H : true = true -> _ |- _ => destruct (H eq_refl) as [? ?]; clear H
           | H : false = false -> _ |- _ => pose proof (H eq_refl); clear H end; lia.
Qed.

(** C27: the next task is one that no ready task ranks before, and none is picked
    only from an empty queue. *)
Theorem cfs_picks_the_best rs s q :
  cfs_reach (rs, s) -> sched_ref s q ->
  exists o s', pick_next_task q s = Done o s' /\
    match o with
    | None => linked s q = []
    | Some x => exists t, linked s q = x :: linked s' q /\ cfs_tasks s !! x = Some t /\
        forall y u, y ∈ linked s q -> cfs_tasks s !! y = Some u -> ~ ranks_before u t
    end.
Proof.
  intros Hr [c Hc]%lookup_lt_is_Some_2. pose proof (cfs_reach_wf _ Hr : cfs_wf rs s) as Hwf. destruct (linked s q) as [|x rest] eqn:Hl.
  - destruct (pick_empty rs q c s Hwf Hc Hl) as (l & Hp & _). by exists None, (set_sched q (refreshed None None c) (set_trees l s)).
  - destruct (pick_first rs q c x rest s Hwf Hc Hl) as (t & l & s' & Ht & Hrem & -> & Hp & _). eexists _, _. split; [exact Hp|].
    exists t. split; [|split; [done|]].
    { f_equal. change (rest = members l q). by rewrite Hrem, on_list_eq. }
    intros y u Hy Hu Hb. rewrite <- Hl in Hy. assert (ready s q u) as Hru by (by exists y).
    assert (ready s q t) as Hrt by (exists x; rewrite Hl; split; [left|done]).
    apply (ranks_before_key rs s q u t Hwf Hru Hrt) in Hb.
    destruct (front_before rs s q x rest u Hwf Hl Hru) as [He|Hlt]; rewrite (key_of_task s x t Ht) in *.
    + injection He as ? ? _. lia.
    + unfold before, ready_key in Hlt. cbn in Hlt. lia.
Qed.

(** Whether a real-time task returns to the front of its priority: it was
    preempted, and has budget left if it is round-robin. *)
Definition returns_to_front (reason : EnqueueReason) t : bool :=
  match reason, class (load_sched_params t) with
  | Preempt, Fifo => true
  | Preempt, RoundRobin => 0 <? rr_time_slice t
  | _, _ => false
  end.

(** An entering task splits the queue by its key. *)
Lemma linked_split rs rs' q x t t' c c' s : cfs_wf rs s -> linkable rs rs' q x t t' c c' s ->
  exists l1 l2, linked s q = l1 ++ l2 /\ linked (link_state q x t' c' s) q = l1 ++ x :: l2 /\
    (forall y u, y ∈ l1 -> cfs_tasks s !! y = Some u -> before (ready_key u) (ready_key t')) /\
    (forall y u, y ∈ l2 -> cfs_tasks s !! y = Some u -> before (ready_key t') (ready_key u)).
Proof.
  intros Hwf Hlink. destruct (cfs_link_wf _ _ _ _ _ _ _ _ _ Hwf Hlink) as (Hwf' & Hperm & _). set (s' := link_state q x t' c' s) in *.
  assert (exists l1 l2, linked s' q = l1 ++ x :: l2) as (l1 & l2 & Hsplit) by (apply list_elem_of_split; rewrite Hperm; left).
  exists l1, l2. pose proof (wf_sorted _ _ Hwf' q) as Hs'. rewrite Hsplit in Hs', Hperm.
  rewrite <- Permutation_middle in Hperm. apply Permutation_cons_inv in Hperm.
  assert (forall y, y ∈ l1 ++ l2 -> key_of s' y = key_of s y) as Hkey.
  { intros y Hy. unfold key_of, s'. change (cfs_tasks (link_state q x t' c' s)) with (cfs_tasks (set_task x t' (set_sched q c' s))).
    rewrite set_task_ne; [done|]. intros ->. rewrite Hperm in Hy. by apply (lk_free _ _ _ _ _ _ _ _ _ Hlink q). }
  assert (key_of s' x = ready_key t') as Hx.
  { apply key_of_task. apply (set_task_eq x t' t (set_sched q c' s)), Hlink. }
  assert (linked s q = l1 ++ l2) as Heq.
  { symmetry. apply (in_order_unique (key_of s)); [|apply (wf_sorted _ _ Hwf)|done].
    eapply in_order_ext; [exact Hkey|]. exact (in_order_remove _ _ _ _ Hs'). }
  apply in_order_app in Hs' as (_ & [Hgt _] & Hlt). rewrite Forall_forall in Hgt. split; [done|]. split; [done|].
  split; intros y u Hy Hu; rewrite <- (key_of_task s y u Hu), <- Hkey, <- Hx by set_solver; [apply Hlt; [done|left]|by apply Hgt].
Qed.

(** The sequence number of an entering task against those that were issued. *)
Lemma entered_last rs q x t c s s' reason :
  enters (enqueue_action reason) rs q x t c s s' ->
  exists t' c', linkable rs rs q x t t' c c' s /\ params t' = params t /\
    linked s' q = linked (link_state q x t' c' s) q /\ cfs_tasks s' !! x = Some t' /\
    forall n, issued c (is_realtime (load_sched_params t)) n -> if returns_to_front reason t then task_id t' < n else n < task_id t'.
Proof.
  intros (t' & c' & n & Hlink & Hadv & Hcase). exists t', c'. split; [done|].
  assert (cfs_tasks (link_state q x t' c' s) !! x = Some t') as Ht' by (by apply (set_task_eq x t' t (set_sched q c' s)), Hlink).
  unfold returns_to_front, issued. destruct (is_realtime (load_sched_params t)) eqn:Hrt.
  - destruct (rt_placement _ _ _) as [front reset] eqn:Hpl. destruct Hcase as (-> & -> & ->). split; [by destruct reset|]. split; [done|].
    split; [done|]. intros m Hm.
    assert (front = match reason, class (load_sched_params t) with Preempt, Fifo => true | Preempt, RoundRobin => 0 <? rr_time_slice t
      | _, _ => false end) as Hfront.
    { unfold rt_placement, is_realtime in *. destruct (class (load_sched_params t)), reason; try done; try (by simplify_eq);
        cbn in Hpl; destruct (0 <? rr_time_slice t); by simplify_eq. }
    rewrite <- Hfront. destruct front; unfold rt_entered; destruct reset; cbn; lia.
  - destruct Hcase as (-> & -> & ->). split; [by destruct reason|]. split; [done|]. split; [done|]. intros m Hm.
    unfold is_realtime in Hrt. destruct reason, (class (load_sched_params t)); try done; cbn; lia.
Qed.

(** A task that enters a queue goes behind every ready task of its rank, or,
    when it was preempted with budget left, before them; the others keep their
    order. *)
Theorem cfs_entry_is_fifo rs s q x reason s' :
  cfs_reach (rs, s) -> sched_ref s q -> task_ref s x -> enqueue_task q x reason s = Done tt s' ->
  exists l1 l2 t t', linked s q = l1 ++ l2 /\ linked s' q = l1 ++ x :: l2 /\
    cfs_tasks s !! x = Some t /\ cfs_tasks s' !! x = Some t' /\
    (forall y u, y ∈ l1 -> cfs_tasks s !! y = Some u -> if returns_to_front reason t then ranks_before u t' else ~ ranks_before t' u) /\
    (forall y u, y ∈ l2 -> cfs_tasks s !! y = Some u -> if returns_to_front reason t then ~ ranks_before u t' else ranks_before t' u).
Proof.
  intros Hr [c Hc]%lookup_lt_is_Some_2 [t Ht]%lookup_lt_is_Some_2 He. pose proof (cfs_reach_wf _ Hr : cfs_wf rs s) as Hwf.
  unfold enqueue_task in He.
  destruct (enqueue_outcome rs q x t c (enqueue_action reason) s Hwf Hc Ht) as [(s1 & c1 & s2 & Hen & Ho & Hd & Hin)|(e & s1 & Hf & _)];
    [|by rewrite Hf in He].
  rewrite Hd in He. injection He as ->. pose proof (en_wf _ _ _ _ _ _ Hen) as Hwf1.
  destruct (enters_wf _ rs q x t c1 s1 s' Hwf1 Hin) as (Hwf' & _ & _ & Hother & _).
  destruct (entered_last rs q x t c1 s1 s' reason Hin) as (t' & c' & Hlink & Hpar & Hl & Ht' & Hlast).
  destruct (linked_split _ _ _ _ _ _ _ _ _ Hwf1 Hlink) as (l1 & l2 & Hq & Hq' & H1 & H2). rewrite <- Hl in Hq'.
  exists l1, l2, t, t'. rewrite <- (en_tasks _ _ _ _ _ _ Hen).
  split; [unfold linked in *; by rewrite <- (en_trees _ _ _ _ _ _ Hen)|]. split; [done|]. split; [apply Hlink|]. split; [done|].
  assert (forall y u, y ∈ l1 ++ l2 -> cfs_tasks s1 !! y = Some u ->
    (ranks_before u t' <-> ready_class u < ready_class t' \/ ready_class u = ready_class t' /\ ready_order u < ready_order t') /\
    (ranks_before t' u <-> ready_class t' < ready_class u \/ ready_class t' = ready_class u /\ ready_order t' < ready_order u) /\
    (ready_class u = ready_class t' -> if returns_to_front reason t then task_id t' < task_id u else task_id u < task_id t')) as Hcmp.
  { intros y u Hy Hu. assert (y <> x) as Hne by (intros ->; apply (lk_free _ _ _ _ _ _ _ _ _ Hlink q); by rewrite Hq).
    assert (ready s' q u) as Hru by (exists y; rewrite Hother by done; split; [rewrite Hq'; set_solver|done]).
    assert (ready s' q t') as Hrt by (exists x; split; [rewrite Hq'; set_solver|done]).
    split; [by apply (ranks_before_key rs s' q)|]. split; [by apply (ranks_before_key rs s' q)|]. intros Hcl. apply Hlast.
    rewrite <- Hq in Hy. destruct (linked_task rs s1 q y Hwf1 Hy) as (d & v & Hd1 & Hv & [Hi _] & _).
    rewrite Hu in Hv. injection Hv as <-. rewrite (lk_sched _ _ _ _ _ _ _ _ _ Hlink) in Hd1. injection Hd1 as <-.
    destruct (ready_kind rs s' q u Hwf' Hru) as (K1 & _), (ready_kind rs s' q t' Hwf' Hrt) as (K2 & _).
    assert (load_sched_params t' = load_sched_params t) as Hlp by (unfold load_sched_params; by rewrite Hpar).
    rewrite <- Hlp, <- K2. unfold ready_is_rt in *. by rewrite <- Hcl, K1. }
  split; intros y u Hy Hu; [specialize (H1 y u Hy Hu)|specialize (H2 y u Hy Hu)];
    (destruct (Hcmp y u) as (C1 & C2 & C3); [set_solver|done|]); unfold before, ready_key in *; cbn in *;
    destruct (returns_to_front reason t); rewrite ?C1, ?C2; lia.
Qed.

(** C28: an update of the parameters that fails, by whatever cause, leaves every
    task, every scheduler and every queue exactly as they were. *)
Theorem cfs_failed_update_restores rs s q x p e s' :
  cfs_wf rs s -> sched_ref s q -> task_ref s x -> set_task_params q x p s = Fail e s' ->
  cfs_tasks s' = cfs_tasks s /\ schedulers s' = schedulers s /\ (forall j, linked s' j = linked s j) /\
  refused_because (CSetParams q x p) e rs s.
Proof.
  intros Hwf Hq Hx Hf. destruct (cfs_step (CSetParams q x p) rs s Hwf) as (r & rs' & s1 & Hex & _ & Hout); [done|].
  cbn [cfs_exec] in Hex. rewrite Hf in Hex. injection Hex as <- <- <-. destruct Hout as [[Hs Ht _] Hc].
  split; [done|]. split; [|done]. clear Hs Ht Hc. revert Hf. destruct (validated p) as [p'|] eqn:Hp.
  2:{ unfold set_task_params. rewrite Hp. by intros [= _ <-]. }
  pose proof (validated_valid p p' Hp) as Hp'. apply lookup_lt_is_Some_2 in Hq as [c Hc]. apply lookup_lt_is_Some_2 in Hx as [t Ht].
  assert (set_task_params q x p s = set_task_params q x p' s) as -> by (unfold set_task_params; by rewrite Hp, Hp').
  destruct (decide (x ∈ linked s q)) as [Hin|Hin].
  - destruct (reconfigured_effect rs q x t c p' s Hwf Hc Ht Hin Hp') as [(s1 & -> & _)|(l & -> & _)]; [done|by intros [= _ <-]].
  - rewrite (set_params_other rs q x t c p' s) by done. destruct (queue_owner t =? UNOWNED); [done|by intros [= _ <-]].
Qed.

(** New parameters do not change the virtual time of a task, although they
    change its weight; a queued fair task is reinserted at that virtual time,
    and no other task changes. *)
Theorem cfs_update_keeps_vruntime rs s q x p s' :
  cfs_reach (rs, s) -> sched_ref s q -> task_ref s x -> set_task_params q x p s = Done tt s' ->
  exists t t' p' v, cfs_tasks s !! x = Some t /\ cfs_tasks s' !! x = Some t' /\ validated p = Some p' /\ load_sched_params t' = p' /\
    get_vruntime_with t (load_sched_params t) = Some v /\ get_vruntime_with t' p' = Some v /\
    (x ∈ linked s q -> is_realtime p' = false -> ready_order t' = v) /\
    forall y, y <> x -> cfs_tasks s' !! y = cfs_tasks s !! y.
Proof.
  intros Hr [c Hc]%lookup_lt_is_Some_2 [t Ht]%lookup_lt_is_Some_2 Hd. pose proof (cfs_reach_wf _ Hr : cfs_wf rs s) as Hwf.
  destruct (validated p) as [p'|] eqn:Hp; [|unfold set_task_params in Hd; by rewrite Hp in Hd].
  pose proof (validated_valid p p' Hp) as Hp'. destruct (task_at_ok rs s x t Hwf Ht) as [_ Hv].
  destruct (vruntime_valid t _ Hv) as (v & Hg & Hiv).
  assert (set_task_params q x p s = set_task_params q x p' s) as Hsame by (unfold set_task_params; by rewrite Hp, Hp'). rewrite Hsame in Hd.
  assert (forall o, get_vruntime_with (applied (rr_ticks s) p' (with_owner o t)) p' = Some v) as Hga.
  { intros o. rewrite <- Hg. exact (applied_vruntime (rr_ticks s) p' (with_owner o t) Hv Hp'). }
  destruct (decide (x ∈ linked s q)) as [Hin|Hin].
  - pose proof (reconfigure_queued rs q x t c p' s Hwf Hc Ht Hin Hp') as Hcases. cbv zeta in Hcases.
    rewrite (set_params_queued rs q x t c p' s) in Hd by done.
    destruct Hcases as [(s1 & n & c1 & c' & s2 & Hrun & _ & Hts & _ & _ & Hlink & ->)|(l & Hrun & _)]; rewrite Hrun in Hd; [|done].
    injection Hd as <-. set (t1 := applied (rr_ticks s) p' (with_owner CONFIGURING t)) in *. set (t' := reentered n (sched_id c) p' t1) in *.
    assert (cfs_tasks ((if is_realtime p' then link_state else linked_fair) q x t' c' s1) = <[x := t']> (cfs_tasks s)) as Htasks.
    { transitivity (<[x := t']> (cfs_tasks s1)); [by destruct (is_realtime p')|]. rewrite Hts. by rewrite list_insert_insert_eq. }
    exists t, t', p', v. rewrite Htasks. split; [done|]. split; [by rewrite list_lookup_insert_eq by (by eapply lookup_lt_Some)|].
    split; [done|]. assert (params t' = packed p' /\ init_vruntime t' = init_vruntime t1 /\ delta t' = delta t1) as (E1 & E2 & E3)
      by (unfold t', reentered; by destruct (is_realtime p')).
    split; [unfold load_sched_params; rewrite E1; by apply from_packed_packed|]. split; [done|].
    split; [rewrite <- (Hga CONFIGURING); unfold get_vruntime_with; by rewrite E2, E3|].
    split; [|intros y Hy; by rewrite list_lookup_insert_ne]. intros _ Hrt. unfold t', reentered, t1. rewrite Hrt. cbn. by rewrite Hga.
  - rewrite (set_params_other rs q x t c p' s) in Hd by done. destruct (queue_owner t =? UNOWNED); [|done]. injection Hd as <-.
    exists t, (applied (rr_ticks s) p' t), p', v. split; [done|]. split; [by apply (set_task_eq x _ t)|]. split; [done|].
    split; [by apply applied_params|]. split; [done|]. split; [by rewrite (applied_vruntime _ p' t Hv Hp')|]. split; [done|].
    intros y Hy. by apply set_task_ne.
Qed.

(** A fair task that migrates keeps its virtual time relative to the floor of
    its queue (saturating at the ends of the range). *)
Theorem cfs_migration_keeps_lag rs s q q' x t s1 s2 :
  cfs_reach (rs, s) -> sched_ref s q -> sched_ref s q' -> cfs_tasks s !! x = Some t -> is_realtime (load_sched_params t) = false ->
  remove_task_for_migration q x s = Done (Some x) s1 -> enqueue_task q' x Migrate s1 = Done tt s2 ->
  exists c c' t' v, schedulers s !! q = Some c /\ schedulers s1 !! q' = Some c' /\ cfs_tasks s2 !! x = Some t' /\
    get_vruntime_with t (load_sched_params t) = Some v /\
    ready_order t' = saturating_add_isize (default 0 (min_vruntime c')) (saturating_sub_isize v (default 0 (min_vruntime c))).
Proof.
  intros Hr [c Hc]%lookup_lt_is_Some_2 Hq' Ht Hrt Hrem Henq. pose proof (cfs_reach_wf _ Hr : cfs_wf rs s) as Hwf.
  destruct (task_at_ok rs s x t Hwf Ht) as [Hok Hv]. destruct (vruntime_valid t _ Hv) as (v & Hg & _).
  destruct (cfs_step (CRemoveForMigration q x) rs s Hwf) as (r & rs' & s1' & Hex & Hwf1 & Hout).
  { split; [by eapply lookup_lt_Some|by eapply lookup_lt_Some]. }
  cbn [cfs_exec] in Hex. rewrite Hrem in Hex. cbn in Hex. injection Hex as <- <- <-. destruct Hout as [_ [Hperm _]].
  assert (x ∈ linked s q) as Hin by (rewrite Hperm; left).
  destruct (remove_linked rs q x t c UNOWNED true s Hwf Hc Ht Hin) as (l & l1 & l2 & _ & _ & Hrun); [by left|].
  unfold remove_task_for_migration in Hrem. rewrite Hrem in Hrun. injection Hrun as Hs1.
  set (t1 := with_owner UNOWNED (staged (default 0 (min_vruntime c)) t)) in *.
  assert (cfs_tasks s1 !! x = Some t1) as Ht1.
  { rewrite Hs1. unfold removed. destruct (_ =? 0); by apply (set_task_eq x t1 t (set_trees l s)). }
  assert (length (schedulers s1) = length (schedulers s)) as Hlen by (rewrite Hs1; unfold removed; destruct (_ =? 0); [done|apply length_insert]).
  unfold sched_ref in Hq'. rewrite <- Hlen in Hq'. apply lookup_lt_is_Some_2 in Hq' as [c' Hc']. unfold enqueue_task in Henq.
  destruct (enqueue_outcome rs q' x t1 c' (enqueue_action Migrate) s1 Hwf1 Hc' Ht1)
    as [(s3 & c3 & s4 & Hen & _ & Hd & (t' & c4 & n & Hlink & _ & Hcase))|(e & s3 & Hf & _)]; [|by rewrite Hf in Henq].
  rewrite Hd in Henq. injection Henq as ->.
  assert (load_sched_params t1 = load_sched_params t) as Hl by (unfold t1, staged; by rewrite Hrt). rewrite Hl, Hrt in Hcase.
  destruct Hcase as (-> & -> & ->). exists c, c'. eexists _, v. split; [done|]. split; [done|].
  split; [by apply (set_task_eq x _ t1 (set_sched q' c4 s3)), Hlink|]. split; [done|].
  rewrite (en_same _ _ _ _ _ _ Hen). unfold t1, staged. rewrite Hrt. cbn. by rewrite Hg.
Qed.

(** A granularity above the least virtual time is one above some ready task's. *)
Lemma fair_preempted_iff rs s q v : cfs_wf rs s ->
  fair_preempted (min_ready s q) v = true <->
  exists u, ready s q u /\ is_realtime (load_sched_params u) = false /\ saturating_add_isize (ready_order u) FAIR_PREEMPT_GRANULARITY_TICKS < v.
Proof.
  intros Hwf. pose proof (min_ready_least rs s q Hwf) as Hmin. unfold fair_preempted. destruct (min_ready s q) as [m|].
  - destruct Hmin as [(u & Hu & Hrt & <-) Hle]. rewrite Z.ltb_lt. split; [intros Hlt; by exists u|].
    intros (u' & Hu' & Hrt' & Hlt). specialize (Hle u' Hu' Hrt'). unfold saturating_add_isize, saturate in *. lia.
  - split; [done|]. intros (u & Hu & Hrt & _). by rewrite (Hmin u Hu) in Hrt.
Qed.

(** The tick asks for a switch exactly when a real-time task of higher
    priority is ready, when the slice of a round-robin task ends and another of
    its priority is ready, or when a fair task has run a granularity past a
    ready fair task or any real-time task is ready. *)
Theorem cfs_tick_decides rs s q x t :
  cfs_reach (rs, s) -> sched_ref s q -> cfs_tasks s !! x = Some t ->
  let p := load_sched_params t in
  exists b s', task_tick q x s = Done b s' /\
    if is_realtime p then
      b = true <-> ready_rt s q (fun m => rt_priority p < m) \/
        (class p = RoundRobin /\ rr_time_slice t <= 1 /\ ready_rt s q (fun m => m = rt_priority p))
    else
      b = true <-> ready_rt s q (fun _ => True) \/
        exists u v, ready s q u /\ is_realtime (load_sched_params u) = false /\ get_vruntime_with (fair_ticked t) p = Some v /\
          saturating_add_isize (ready_order u) FAIR_PREEMPT_GRANULARITY_TICKS < v.
Proof.
  intros Hr [c Hc]%lookup_lt_is_Some_2 Ht p. pose proof (cfs_reach_wf _ Hr : cfs_wf rs s) as Hwf. subst p.
  destruct (is_realtime (load_sched_params t)) eqn:Hrt.
  - destruct (tick_rt rs q x t s Hwf Ht Hrt) as (higher & same & Hh & Hs & Htick).
    destruct (rt_ticked higher same (rr_ticks s) t) as [b t'] eqn:Hb. destruct Htick as [Htick _]. eexists _, _. split; [exact Htick|].
    rewrite <- Hh, <- Hs. clear -Hb Hrt. unfold rt_ticked, is_realtime in *. destruct higher; [simplify_eq; tauto|].
    destruct (class (load_sched_params t)); try done; cbn in Hb; [|simplify_eq; naive_solver].
    destruct (Z.leb_spec (rr_time_slice t) 1); destruct same; simplify_eq; naive_solver lia.
  - destruct (tick_fair rs q x t c s Hwf Hc Ht Hrt) as [[Hany Htick]|(Hno & v & s' & Hg & _ & Htick & _)]; eexists _, _; (split; [exact Htick|]).
    + tauto.
    + rewrite (fair_preempted_iff rs s q v Hwf). split; [intros (u & ?); right; exists u, v; tauto|].
      intros [?|(u & w & ? & ? & ? & ?)]; [done|]. exists u. simplify_eq. done.
Qed.

(** The owner word of a task tells where it is: in no queue, in no queue and
    claimed by a configuration or a reservation, or in the queue of exactly one
    scheduler and once. Two live reservations are for different tasks. *)
Theorem cfs_owner_is_exact rs s x t :
  cfs_reach (rs, s) -> cfs_tasks s !! x = Some t ->
  ((queue_owner t = UNOWNED \/ queue_owner t = CONFIGURING) /\ (forall q, x ∉ linked s q) \/
   exists q c, schedulers s !! q = Some c /\ queue_owner t = sched_id c /\ (forall q', x ∈ linked s q' <-> q' = q) /\ NoDup (linked s q)) /\
  forall k k' r r', rs !! k = Some (Some r) -> rs !! k' = Some (Some r') -> r_task r = r_task r' -> k = k'.
Proof.
  intros Hr Ht. pose proof (cfs_reach_wf _ Hr : cfs_wf rs s) as Hwf. split.
  - destruct (wf_owned _ _ Hwf x t Ht) as [Ho|[Ho|[q Hx]]].
    + left. split; [by left|]. apply (unowned_unlinked rs s x t Hwf Ht). by left.
    + left. split; [by right|]. apply (unowned_unlinked rs s x t Hwf Ht). by right.
    + right. destruct (wf_linked _ _ Hwf q x Hx) as (c & t0 & Hc & _ & Ht0 & Ho & _). simplify_eq. exists q, c. split_and!; try done.
      * intros q'. split; [|by intros ->]. intros Hx'. by apply (cfs_linked_once rs s q' q x).
      * eapply in_order_nodup, (wf_sorted _ _ Hwf).
  - intros k k' r r' Hk Hk' Heq. destruct (decide (k = k')) as [|Hne]; [done|].
    by destruct (res_distinct _ _ (wf_reservations _ _ Hwf) k k' r r' Hk Hk' Hne).
Qed.

End Claims.

(** ** Witnesses, on ordinary lists *)

Abbreviation plain := (nat -> list nat).

(** Two queues and four tasks: two fair ones of different nice values, one
    round-robin and one held by a reservation. *)
Definition demo : list cfs_op :=
  [CNewScheduler; CNewScheduler; CNewTask; CNewTask; CNewTask; CNewTask;
   CConfigure 1 (mkParams Batch 5 0); CConfigure 2 (mkParams RoundRobin 0 7);
   CEnqueue 0 0 New; CPick 0; CTick 0 0; CTick 0 0; CTick 0 0; CPut 0 0 true; CEnqueue 0 1 Wakeup; CReserve 1 3].
Definition demo_state : cfs_state plain := default ([], cfs_boot) (cfs_run demo ([], cfs_boot)).

Lemma run_default os : bool_decide (is_Some (cfs_run os ([], cfs_boot : Cfs plain))) = true ->
  cfs_reach (default ([], cfs_boot) (cfs_run os ([], cfs_boot : Cfs plain))).
Proof.
  destruct (cfs_run os _) as [st|] eqn:Hrun; [|done]. intros _. cbn. eapply cfs_run_reach; [constructor|exact Hrun].
Qed.

Lemma demo_reach : cfs_reach (demo_state.1, demo_state.2).
Proof. rewrite <- surjective_pairing. apply run_default. vm_compute. reflexivity. Qed.

Example demo_queue : linked demo_state.2 0 = [0%nat; 1%nat].
Proof. vm_compute. reflexivity. Qed.


Lemma cfs_picks_the_best_witness :
  exists o s', pick_next_task 0 demo_state.2 = Done o s' /\
    match o with
    | None => linked demo_state.2 0 = []
    | Some x => exists t, linked demo_state.2 0 = x :: linked s' 0 /\ cfs_tasks demo_state.2 !! x = Some t /\
        forall y u, y ∈ linked demo_state.2 0 -> cfs_tasks demo_state.2 !! y = Some u -> ~ ranks_before u t
    end.
Proof. apply (cfs_picks_the_best demo_state.1 demo_state.2 0 demo_reach). vm_compute. lia. Defined.

Definition after {A} (o : outcome (Cfs plain) SchedulerError A) : Cfs plain :=
  match o with Done _ s => s | Fail _ s => s | _ => cfs_boot end.

Lemma cfs_entry_is_fifo_witness :
  let s := demo_state.2 in let s' := after (enqueue_task 0 2 New s) in
  exists l1 l2 t t', linked s 0 = l1 ++ l2 /\ linked s' 0 = l1 ++ 2%nat :: l2 /\
    cfs_tasks s !! 2%nat = Some t /\ cfs_tasks s' !! 2%nat = Some t' /\
    (forall y u, y ∈ l1 -> cfs_tasks s !! y = Some u -> if returns_to_front New t then ranks_before u t' else ~ ranks_before t' u) /\
    (forall y u, y ∈ l2 -> cfs_tasks s !! y = Some u -> if returns_to_front New t then ~ ranks_before u t' else ranks_before t' u).
Proof.
  intros s s'. apply (cfs_entry_is_fifo demo_state.1 s 0 2 New s' demo_reach); [vm_compute; lia..|]. vm_compute. reflexivity.
Defined.

(** The demo with no sequence numbers left in the first queue. *)
Definition demo_full : Cfs plain :=
  set_sched 0 (with_fair isize_MAX (default new_scheduler (schedulers demo_state.2 !! 0%nat))) demo_state.2.

Lemma full_wf rs (s : Cfs plain) q c : cfs_wf rs s -> schedulers s !! q = Some c -> cfs_wf rs (set_sched q (with_fair isize_MAX c) s).
Proof.
  intros Hwf Hc. destruct (wf_sched _ _ Hwf q c Hc) as [Hf Hfr Hb Hm]. apply (sched_step_wf _ _ q c); [done|done|unfold grows; cbn; lia|].
  split; [cbn; lia|exact Hfr|exact Hb|exact Hm].
Qed.

Lemma reached_wf rs (s : Cfs plain) : cfs_reach (rs, s) -> cfs_wf rs s.
Proof. exact (cfs_reach_wf (rs, s)). Qed.

Lemma demo_full_wf : cfs_wf demo_state.1 demo_full.
Proof. apply (full_wf demo_state.1 demo_state.2); [exact (reached_wf _ _ demo_reach)|]. vm_compute. reflexivity. Qed.

Lemma cfs_failed_update_restores_witness :
  let s' := after (set_task_params 0 1 (mkParams Normal 3 0) demo_full) in
  cfs_tasks s' = cfs_tasks demo_full /\ schedulers s' = schedulers demo_full /\ (forall j, linked s' j = linked demo_full j) /\
  refused_because (CSetParams 0 1 (mkParams Normal 3 0)) SequenceExhausted demo_state.1 demo_full.
Proof.
  intros s'. apply (cfs_failed_update_restores demo_state.1 demo_full 0 1 (mkParams Normal 3 0) SequenceExhausted s' demo_full_wf);
    [vm_compute; lia..|]. vm_compute. reflexivity.
Defined.

Lemma cfs_update_keeps_vruntime_witness :
  let s := demo_state.2 in let p := mkParams Normal 3 0 in let s' := after (set_task_params 0 1 p s) in
  exists t t' p' v, cfs_tasks s !! 1%nat = Some t /\ cfs_tasks s' !! 1%nat = Some t' /\ validated p = Some p' /\ load_sched_params t' = p' /\
    get_vruntime_with t (load_sched_params t) = Some v /\ get_vruntime_with t' p' = Some v /\
    (1%nat ∈ linked s 0 -> is_realtime p' = false -> ready_order t' = v) /\
    forall y, y <> 1%nat -> cfs_tasks s' !! y = cfs_tasks s !! y.
Proof.
  intros s p s'. apply (cfs_update_keeps_vruntime demo_state.1 s 0 1 p s' demo_reach); [vm_compute; lia..|]. vm_compute. reflexivity.
Defined.

Lemma cfs_migration_keeps_lag_witness :
  let s := demo_state.2 in let s1 := after (remove_task_for_migration 0 1 s) in let s2 := after (enqueue_task 1 1 Migrate s1) in
  let t := default task_new (cfs_tasks s !! 1%nat) in
  exists c c' t' v, schedulers s !! 0%nat = Some c /\ schedulers s1 !! 1%nat = Some c' /\ cfs_tasks s2 !! 1%nat = Some t' /\
    get_vruntime_with t (load_sched_params t) = Some v /\
    ready_order t' = saturating_add_isize (default 0 (min_vruntime c')) (saturating_sub_isize v (default 0 (min_vruntime c))).
Proof.
  intros s s1 s2 t. apply (cfs_migration_keeps_lag demo_state.1 s 0 1 1 t s1 s2 demo_reach); [vm_compute; lia..|vm_compute; reflexivity|vm_compute; reflexivity|vm_compute; reflexivity|vm_compute; reflexivity].
Defined.

Lemma cfs_tick_decides_witness :
  let s := demo_state.2 in let t := default task_new (cfs_tasks s !! 2%nat) in let p := load_sched_params t in
  exists b s', task_tick 0 2 s = Done b s' /\
    if is_realtime p then
      b = true <-> ready_rt s 0 (fun m => rt_priority p < m) \/
        (class p = RoundRobin /\ rr_time_slice t <= 1 /\ ready_rt s 0 (fun m => m = rt_priority p))
    else
      b = true <-> ready_rt s 0 (fun _ => True) \/
        exists u v, ready s 0 u /\ is_realtime (load_sched_params u) = false /\ get_vruntime_with (fair_ticked t) p = Some v /\
          saturating_add_isize (ready_order u) FAIR_PREEMPT_GRANULARITY_TICKS < v.
Proof. intros s t p. apply (cfs_tick_decides demo_state.1 s 0 2 t demo_reach); [vm_compute; lia|vm_compute; reflexivity]. Defined.

Lemma cfs_owner_is_exact_witness :
  let s := demo_state.2 in let t := default task_new (cfs_tasks s !! 1%nat) in
  ((queue_owner t = UNOWNED \/ queue_owner t = CONFIGURING) /\ (forall q, 1%nat ∉ linked s q) \/
   exists q c, schedulers s !! q = Some c /\ queue_owner t = sched_id c /\ (forall q', 1%nat ∈ linked s q' <-> q' = q) /\ NoDup (linked s q)) /\
  forall k k' r r', demo_state.1 !! k = Some (Some r) -> demo_state.1 !! k' = Some (Some r') -> r_task r = r_task r' -> k = k'.
Proof. intros s t. apply (cfs_owner_is_exact demo_state.1 s 1 t demo_reach). vm_compute. reflexivity. Defined.
