(* ===== verification/EevdfMath.v ===== *)
(** Exact integer arithmetic of the EEVDF model, part 1: the helpers of
    [crates/thekernel-axsched/src/eevdf_model.rs].

    A computation ends in a value, in an error of its error type (the unit type
    for functions that return an [Option]), or crashes: an arithmetic operator
    that overflows, a division by zero, an index out of range, a loop that
    exceeds its bound. Operators that are not checked in the source are the
    functions [raw_*], which crash where the operator would overflow. *)

From S2P Require Import Prelude.
Local Open Scope Z_scope.

(** ** Computations *)

Inductive comp (E A : Type) : Type := Value (a : A) | Error (e : E) | Crash.
Arguments Value {E A} a.
Arguments Error {E A} e.
Arguments Crash {E A}.

#[export] Instance comp_ret {E} : MRet (comp E) := fun A a => Value a.
#[export] Instance comp_bind {E} : MBind (comp E) := fun A B f m =>
  match m with Value a => f a | Error e => Error e | Crash => Crash end.

Section Comp.
Context {E A : Type}.
(** [.ok_or(e)?] on an option, and on a function that returns one *)
Definition ok_or_else (o : option A) (e : E) : comp E A := match o with Some a => Value a | None => Error e end.
Definition or_error {F} (m : comp F A) (e : E) : comp E A :=
  match m with Value a => Value a | Error _ => Error e | Crash => Crash end.
(** an index *)
Definition at_index (l : list A) (i : nat) : comp E A := match l !! i with Some a => Value a | None => Crash end.
Definition set_index (l : list A) (i : nat) (a : A) : comp E (list A) :=
  if (i <? length l)%nat then Value (<[i := a]> l) else Crash.
End Comp.

(** ** 128-bit integers *)

Definition u128_MAX : Z := 340282366920938463463374607431768211455.
Definition i128_MAX : Z := 170141183460469231731687303715884105727.
Definition i128_MIN : Z := -170141183460469231731687303715884105728.
Definition in_u128 (z : Z) : Prop := 0 <= z <= u128_MAX.
Definition in_i128 (z : Z) : Prop := i128_MIN <= z <= i128_MAX.
#[export] Instance in_u128_dec z : Decision (in_u128 z).
Proof. unfold in_u128. apply _. Defined.
#[export] Instance in_i128_dec z : Decision (in_i128 z).
Proof. unfold in_i128. apply _. Defined.

Definition wrap_u128 (z : Z) : Z := z mod 340282366920938463463374607431768211456.
Definition wrap_u64 (z : Z) : Z := z mod 18446744073709551616.
Definition checked_add_u128 (a b : Z) : option Z := if a + b <=? u128_MAX then Some (a + b) else None.
Definition checked_sub_u128 (a b : Z) : option Z := if b <=? a then Some (a - b) else None.
Definition checked_mul_u128 (a b : Z) : option Z := if a * b <=? u128_MAX then Some (a * b) else None.
Definition checked_div_u128 (a b : Z) : option Z := if b =? 0 then None else Some (a / b).
Definition checked_add_i128 (a b : Z) : option Z := if decide (in_i128 (a + b)) then Some (a + b) else None.
Definition checked_sub_i128 (a b : Z) : option Z := if decide (in_i128 (a - b)) then Some (a - b) else None.
(** [overflowing_add], [overflowing_sub] *)
Definition overflowing_add_u128 (a b : Z) : Z * bool := (wrap_u128 (a + b), u128_MAX <? a + b).
Definition overflowing_add_u64 (a b : Z) : Z * bool := (wrap_u64 (a + b), u64_MAX <? a + b).
Definition overflowing_sub_u64 (a b : Z) : Z * bool := (wrap_u64 (a - b), a <? b).
(** [<<], which drops the bits above the width *)
Definition shl_u128 (a n : Z) : Z := wrap_u128 (Z.shiftl a n).
Definition shl_u64 (a n : Z) : Z := wrap_u64 (Z.shiftl a n).

Section Raw.
Context {E : Type}.
Definition raw_add (a b : Z) : comp E Z := if a + b <=? u128_MAX then Value (a + b) else Crash.
Definition raw_sub (a b : Z) : comp E Z := if b <=? a then Value (a - b) else Crash.
Definition raw_mul (a b : Z) : comp E Z := if a * b <=? u128_MAX then Value (a * b) else Crash.
Definition raw_div (a b : Z) : comp E Z := if b =? 0 then Crash else Value (a / b).
Definition raw_rem (a b : Z) : comp E Z := if b =? 0 then Crash else Value (a mod b).
End Raw.

Inductive ModelError : Type := ArithmeticExhausted | InvalidWeight | InvalidState.
Abbreviation model A := (comp ModelError A).

(** ** Checked conversions and quotients *)

Definition checked_i128 (value : Z) : model Z := if i128_MAX <? value then Error ArithmeticExhausted else Value value.

(** [-(product as i128)] for a product below [2^127] *)
Definition checked_mul_i128_u128 (value factor : Z) : model Z :=
  if value =? 0 then Value 0
  else
    let magnitude := Z.abs value in
    match checked_mul_u128 magnitude factor with
    | None => Error ArithmeticExhausted
    | Some product =>
        if value <? 0 then
          if Z.shiftl 1 127 <? product then Error ArithmeticExhausted
          else if product =? Z.shiftl 1 127 then Value i128_MIN else Value (- product)
        else if i128_MAX <? product then Error ArithmeticExhausted else Value product
    end.

Definition checked_ceil_div (numerator denominator : Z) : model Z :=
  if denominator =? 0 then Error InvalidWeight
  else
    let quotient := numerator / denominator in
    if numerator mod denominator =? 0 then Value quotient
    else ok_or_else (checked_add_u128 quotient 1) ArithmeticExhausted.

(** One position of [checked_div_129]: the quotient bit and the remainder *)
Definition div_129_bit (half : Z) (odd : bool) (remainder : Z) (bit : bool) : model (bool * Z) :=
  let b := Z.b2z bit in
  if negb odd then
    if half <=? remainder then
      d ← raw_sub remainder half; d ← raw_mul d 2; d ← raw_add d b; mret (true, d)
    else d ← raw_mul remainder 2; d ← raw_add d b; mret (false, d)
  else if half <? remainder then
    d ← raw_sub remainder half; d ← raw_mul d 2; d ← raw_sub d 1; d ← raw_add d b; mret (true, d)
  else if (remainder =? half) && bit then mret (true, 0)
  else d ← raw_mul remainder 2; d ← raw_add d b; mret (false, d).

(** The loop of [checked_div_129], from position [positions - 1] down *)
Fixpoint div_129_loop (positions : nat) (high : bool) (low half : Z) (odd : bool) (quotient remainder : Z) : model (Z * Z) :=
  match positions with
  | O => mret (quotient, remainder)
  | S position =>
      let bit := if (position =? 128)%nat then high else Z.testbit low (Z.of_nat position) in
      '(quotient_bit, remainder) ← div_129_bit half odd remainder bit;
      if (position =? 128)%nat then
        if quotient_bit : bool then Error ArithmeticExhausted
        else div_129_loop position high low half odd quotient remainder
      else if Z.shiftr u128_MAX 1 <? quotient then Error ArithmeticExhausted
      else div_129_loop position high low half odd (Z.lor (shl_u128 quotient 1) (Z.b2z quotient_bit)) remainder
  end.

Definition checked_div_129 (high : bool) (low denominator : Z) : model (Z * Z) :=
  if denominator =? 0 then Error InvalidWeight
  else div_129_loop 129 high low (Z.shiftr denominator 1) (Z.testbit denominator 0) 0 0.

(** The fallback loop of [checked_mul_div_rem] *)
Fixpoint mul_div_loop (positions : nat) (a b denominator quotient remainder : Z) : model (Z * Z) :=
  match positions with
  | O => mret (quotient, remainder)
  | S position =>
      '(double_quotient, doubled_remainder) ←
        checked_div_129 (Z.testbit remainder 127) (shl_u128 remainder 1) denominator;
      '(add_quotient, next_remainder) ←
        (if Z.testbit a (Z.of_nat position) then
           let '(low, high) := overflowing_add_u128 doubled_remainder b in checked_div_129 high low denominator
         else mret (0, doubled_remainder));
      extra ← ok_or_else (checked_add_u128 double_quotient add_quotient) ArithmeticExhausted;
      quotient ← ok_or_else (twice ← checked_mul_u128 quotient 2; checked_add_u128 twice extra) ArithmeticExhausted;
      mul_div_loop position a b denominator quotient next_remainder
  end.

Definition checked_mul_div_rem (a b denominator : Z) : model (Z * Z) :=
  if denominator =? 0 then Error InvalidWeight
  else
    match checked_mul_u128 a b with
    | Some product => mret (product / denominator, product mod denominator)
    | None => mul_div_loop 128 a b denominator 0 0
    end.

Definition checked_mul_div_ceil (a b denominator : Z) : model Z :=
  '(quotient, remainder) ← checked_mul_div_rem a b denominator;
  if remainder =? 0 then mret quotient else ok_or_else (checked_add_u128 quotient 1) ArithmeticExhausted.

(** [gcd_u128]; [fuel] bounds the divisions *)
Fixpoint gcd_loop {E} (fuel : nat) (left right : Z) : comp E Z :=
  if right =? 0 then Value left
  else match fuel with
       | O => Crash
       | S fuel => gcd_loop fuel right (left mod right)
       end.
Definition gcd_u128 {E} (left right : Z) : comp E Z := gcd_loop 257 left right.

(** ** 256-bit intermediates *)

Record Wide : Type := mkWide { limbs : list Z }.
Definition wide_ZERO : Wide := mkWide [0; 0; 0; 0].

(** [Wide::cmp], from the most significant limb *)
Fixpoint cmp_from {E} (k : nat) (a b : list Z) : comp E comparison :=
  match k with
  | O => Value Eq
  | S k =>
      x ← at_index a k;
      y ← at_index b k;
      match x ?= y with Eq => cmp_from k a b | c => Value c end
  end.
Definition wide_cmp {E} (a b : Wide) : comp E comparison := cmp_from 4 (limbs a) (limbs b).
Definition wide_ge {E} (a b : Wide) : comp E bool :=
  c ← wide_cmp a b; mret match c with Lt => false | _ => true end.

Definition wide_bit {E} (w : Wide) (position : Z) : comp E bool :=
  l ← at_index (limbs w) (Z.to_nat (position / 64)); mret (Z.testbit l (position mod 64)).

(** [Wide::shl1]: the carry and the shifted value *)
Fixpoint shl1_limbs (l : list Z) (carry : bool) : bool * list Z :=
  match l with
  | [] => (carry, [])
  | value :: l =>
      let '(c, r) := shl1_limbs l (Z.testbit value 63) in
      (c, Z.lor (shl_u64 value 1) (Z.b2z carry) :: r)
  end.
Definition wide_shl1 (w : Wide) : bool * Wide := let '(c, l) := shl1_limbs (limbs w) false in (c, mkWide l).

(** [Wide::wrapping_sub] *)
Fixpoint sub_limbs (a b : list Z) (borrow : bool) : list Z :=
  match a, b with
  | x :: a, y :: b =>
      let '(value, first_borrow) := overflowing_sub_u64 x y in
      let '(value, second_borrow) := overflowing_sub_u64 value (Z.b2z borrow) in
      value :: sub_limbs a b (first_borrow || second_borrow)
  | _, _ => []
  end.
Definition wide_wrapping_sub (a b : Wide) : Wide := mkWide (sub_limbs (limbs a) (limbs b) false).

(** [Wide::checked_add_one] *)
Fixpoint add_one_limbs (l : list Z) : option (list Z) :=
  match l with
  | [] => None
  | x :: l =>
      let '(value, carry) := overflowing_add_u64 x 1 in
      if carry : bool then r ← add_one_limbs l; Some (value :: r) else Some (value :: l)
  end.
Definition wide_checked_add_one (w : Wide) : option Wide := mkWide <$> add_one_limbs (limbs w).

(** [Wide::set_low_bit] *)
Definition wide_set_low_bit (bit : bool) (w : Wide) : Wide :=
  match limbs w with
  | x :: l => mkWide (Z.lor (Z.ldiff x 1) (Z.b2z bit) :: l)
  | [] => w
  end.

(** A carry into the limbs from [index] on; [fuel] bounds the limbs *)
Fixpoint carry_limbs (fuel index : nat) (carry : Z) (l : list Z) : comp () (list Z) :=
  if carry =? 0 then Value l
  else match fuel with
       | O => Crash
       | S fuel =>
           if (index =? 4)%nat then Error tt
           else
             x ← at_index l index;
             let '(value, overflow) := overflowing_add_u64 x (wrap_u64 carry) in
             l ← set_index l index value;
             carry ← raw_add (Z.shiftr carry 64) (Z.b2z overflow);
             carry_limbs fuel (S index) carry l
       end.

(** [Wide::mul_u128]: a row of the product, and both rows *)
Fixpoint mul_row (index : nat) (left_limb : Z) (rights : list Z) (carry : Z) (l : list Z) : comp () (list Z * Z) :=
  match rights with
  | [] => mret (l, carry)
  | right_limb :: rights =>
      x ← at_index l index;
      value ← ok_or_else (p ← checked_mul_u128 left_limb right_limb; p ← checked_add_u128 p x; checked_add_u128 p carry) tt;
      l ← set_index l index (wrap_u64 value);
      mul_row (S index) left_limb rights (Z.shiftr value 64) l
  end.
Fixpoint mul_rows (left_index : nat) (lefts rights : list Z) (l : list Z) : comp () (list Z) :=
  match lefts with
  | [] => mret l
  | left_limb :: lefts =>
      '(l, carry) ← mul_row left_index left_limb rights 0 l;
      l ← carry_limbs 4 (left_index + 2) carry l;
      mul_rows (S left_index) lefts rights l
  end.
Definition wide_mul_u128 (left right : Z) : comp () Wide :=
  l ← mul_rows 0 [wrap_u64 left; wrap_u64 (Z.shiftr left 64)] [wrap_u64 right; wrap_u64 (Z.shiftr right 64)] [0; 0; 0; 0];
  mret (mkWide l).

(** [Wide::mul]: the limbs from [index] on times [right], added to the result *)
Fixpoint mul_limbs (index : nat) (lefts : list Z) (right : Z) (result : list Z) : comp () (list Z) :=
  match lefts with
  | [] => mret result
  | limb :: lefts =>
      x ← at_index result index;
      product ← ok_or_else (p ← checked_mul_u128 limb (wrap_u64 right); checked_add_u128 p x) tt;
      result ← set_index result index (wrap_u64 product);
      let carry := Z.shiftr product 64 in
      high_product ← ok_or_else (checked_mul_u128 limb (Z.shiftr right 64)) tt;
      if (4 <=? index + 1)%nat && (negb (high_product =? 0) || negb (carry =? 0)) then Error tt
      else
        result ←
          (if (index + 1 <? 4)%nat then
             y ← at_index result (index + 1);
             next ← ok_or_else (n ← checked_add_u128 high_product y; checked_add_u128 n carry) tt;
             result ← set_index result (index + 1) (wrap_u64 next);
             carry_limbs 4 (index + 2) (Z.shiftr next 64) result
           else mret result);
        mul_limbs (S index) lefts right result
  end.
Definition wide_mul (w : Wide) (right : Z) : comp () Wide :=
  l ← mul_limbs 0 (limbs w) right [0; 0; 0; 0]; mret (mkWide l).

(** [Wide::div_exact_u128] and [Wide::rem_u128], from position [positions - 1] down *)
Definition div_wide_bit (w : Wide) (position : nat) (remainder divisor : Z) : model (Z * Z) :=
  b ← wide_bit w (Z.of_nat position);
  checked_div_129 (Z.testbit remainder 127) (Z.lor (shl_u128 remainder 1) (Z.b2z b)) divisor.
Fixpoint div_exact_loop (positions : nat) (w : Wide) (divisor : Z) (quotient : Wide) (remainder : Z) : model (Wide * Z) :=
  match positions with
  | O => mret (quotient, remainder)
  | S position =>
      '(quotient_bit, remainder) ← div_wide_bit w position remainder divisor;
      if 1 <? quotient_bit then Error InvalidState
      else div_exact_loop position w divisor (wide_set_low_bit (negb (quotient_bit =? 0)) (wide_shl1 quotient).2) remainder
  end.
Definition wide_div_exact_u128 (w : Wide) (divisor : Z) : model Wide :=
  if divisor =? 0 then Error InvalidWeight
  else
    '(quotient, remainder) ← div_exact_loop 256 w divisor wide_ZERO 0;
    if remainder =? 0 then mret quotient else Error InvalidState.
Fixpoint rem_loop (positions : nat) (w : Wide) (divisor remainder : Z) : model Z :=
  match positions with
  | O => mret remainder
  | S position => '(_, remainder) ← div_wide_bit w position remainder divisor; rem_loop position w divisor remainder
  end.
Definition wide_rem_u128 (w : Wide) (divisor : Z) : model Z :=
  if divisor =? 0 then Error InvalidWeight else rem_loop 256 w divisor 0.

(** [Wide::low_u128] *)
Definition wide_low_u128 (w : Wide) : model Z :=
  l3 ← at_index (limbs w) 3;
  l2 ← at_index (limbs w) 2;
  if negb (l2 =? 0) || negb (l3 =? 0) then Error ArithmeticExhausted
  else
    l1 ← at_index (limbs w) 1;
    l0 ← at_index (limbs w) 0;
    mret (Z.lor (shl_u128 l1 64) l0).

(** ** Ratios *)

(** The cancellation loops of [checked_ratio_ceil]: one numerator against all
    denominators, then every numerator *)
Fixpoint cancel_one (numerator : Z) (denominators : list Z) : model (Z * list Z) :=
  match denominators with
  | [] => mret (numerator, [])
  | denominator :: denominators =>
      gcd ← gcd_u128 numerator denominator;
      numerator ← raw_div numerator gcd;
      denominator ← raw_div denominator gcd;
      '(numerator, denominators) ← cancel_one numerator denominators;
      mret (numerator, denominator :: denominators)
  end.
Fixpoint cancel_all (numerators denominators : list Z) : model (list Z * list Z) :=
  match numerators with
  | [] => mret ([], denominators)
  | numerator :: numerators =>
      '(numerator, denominators) ← cancel_one numerator denominators;
      '(numerators, denominators) ← cancel_all numerators denominators;
      mret (numerator :: numerators, denominators)
  end.
(** [try_fold(1, checked_mul)] *)
Fixpoint checked_product (value : Z) (factors : list Z) : option Z :=
  match factors with
  | [] => Some value
  | factor :: factors => value ← checked_mul_u128 value factor; checked_product value factors
  end.

(** The long division of [checked_ratio_ceil] *)
Fixpoint ratio_loop (positions : nat) (numerator denominator quotient remainder : Wide) : model (Wide * Wide) :=
  match positions with
  | O => mret (quotient, remainder)
  | S position =>
      let '(carry, shifted) := wide_shl1 remainder in
      b ← wide_bit numerator (Z.of_nat position);
      let shifted := match limbs shifted with x :: l => mkWide (Z.lor x (Z.b2z b) :: l) | [] => shifted end in
      ge ← wide_ge shifted denominator;
      let bit := carry || ge in
      ratio_loop position numerator denominator
        (wide_set_low_bit bit (wide_shl1 quotient).2)
        (if bit then wide_wrapping_sub shifted denominator else shifted)
  end.

Definition checked_ratio_ceil (n0 n1 n2 d0 d1 : Z) : model Z :=
  '(numerators, denominators) ← cancel_all [n0; n1; n2] [d0; d1];
  match checked_product 1 numerators, checked_product 1 denominators with
  | Some numerator, Some denominator => checked_ceil_div numerator denominator
  | _, _ =>
      n0 ← at_index numerators 0;
      n1 ← at_index numerators 1;
      n2 ← at_index numerators 2;
      d0 ← at_index denominators 0;
      d1 ← at_index denominators 1;
      numerator ← or_error (w ← wide_mul_u128 n0 n1; wide_mul w n2) ArithmeticExhausted;
      denominator ← or_error (wide_mul_u128 d0 d1) ArithmeticExhausted;
      '(quotient, remainder) ← ratio_loop 256 numerator denominator wide_ZERO wide_ZERO;
      quotient ← (if bool_decide (limbs remainder = limbs wide_ZERO) then mret quotient
                  else ok_or_else (wide_checked_add_one quotient) ArithmeticExhausted);
      wide_low_u128 quotient
  end.

Definition checked_mul_div_round_nearest_even (a b denominator : Z) : model Z :=
  '(quotient, remainder) ← checked_mul_div_rem a b denominator;
  half ← raw_div denominator 2;
  let round_up := match remainder ?= half with
                  | Gt => true
                  | Lt => false
                  | Eq => negb (Z.testbit denominator 0) && Z.testbit quotient 0
                  end in
  if round_up then ok_or_else (checked_add_u128 quotient 1) ArithmeticExhausted else mret quotient.

(** ** Keys *)

(** [as u128] and [as i128] are reductions modulo [2^128]. *)
Definition bias_i128 (value : Z) : Z := Z.lxor (wrap_u128 value) (Z.shiftl 1 127).
Definition as_i128 (value : Z) : Z := if i128_MAX <? value then value - 340282366920938463463374607431768211456 else value.
Definition unbias_i128 (value : Z) : Z := as_i128 (Z.lxor value (Z.shiftl 1 127)).
