(* ===== verification/EevdfMathSpec.v ===== *)
(** Exact integer arithmetic of the EEVDF model, part 2: every helper computes
    the mathematical result, reports exhaustion exactly when that result does
    not fit, and never crashes. *)

From S2P Require Import Prelude EevdfMath.
Local Open Scope Z_scope.

(** The quotient rounded up. *)
Definition cdiv (n d : Z) : Z := - (- n / d).

Lemma cdiv_spec n d : 0 < d -> cdiv n d = if n mod d =? 0 then n / d else n / d + 1.
Proof.
  intros Hd. unfold cdiv. pose proof (Z.div_mod n d ltac:(lia)) as H. destruct (Z.eqb_spec (n mod d) 0) as [E|E].
  - rewrite E in H. rewrite <- (Z.div_unique (- n) d (- (n / d)) 0) by (lia || nia). lia.
  - pose proof (Z.mod_pos_bound n d Hd). rewrite <- (Z.div_unique (- n) d (- (n / d) - 1) (d - n mod d)) by (lia || nia). lia.
Qed.

Lemma cdiv_bounds n d : 0 < d -> (cdiv n d - 1) * d < n <= cdiv n d * d.
Proof.
  intros Hd. unfold cdiv. pose proof (Z.div_mod (- n) d ltac:(lia)). pose proof (Z.mod_pos_bound (- n) d Hd). nia.
Qed.

Lemma cdiv_unique n d q : 0 < d -> (q - 1) * d < n <= q * d -> q = cdiv n d.
Proof. intros Hd Hq. pose proof (cdiv_bounds n d Hd). nia. Qed.

Lemma cdiv_cancel g n d : 0 < g -> 0 < d -> cdiv (g * n) (g * d) = cdiv n d.
Proof. intros Hg Hd. unfold cdiv. rewrite <- Z.mul_opp_r, Z.div_mul_cancel_l by lia. done. Qed.

Lemma cdiv_nonneg n d : 0 < d -> 0 <= n -> 0 <= cdiv n d.
Proof. intros Hd Hn. pose proof (cdiv_bounds n d Hd). nia. Qed.

Lemma cdiv_le n n' d : 0 < d -> n <= n' -> cdiv n d <= cdiv n' d.
Proof. intros Hd Hn. pose proof (cdiv_bounds n d Hd). pose proof (cdiv_bounds n' d Hd). nia. Qed.

(** ** Words *)

Ltac widths := unfold in_u128, in_i128, in_u64, u128_MAX, i128_MAX, i128_MIN, u64_MAX, wrap_u128, wrap_u64 in *.

Lemma b2z_range b : 0 <= Z.b2z b <= 1.
Proof. destruct b; cbn; lia. Qed.

(** A value whose lowest bits are clear, with a small value added by [lor]. *)
Lemma lor_add n a b : 0 <= n -> 0 <= b < 2 ^ n -> Z.lor (a * 2 ^ n) b = a * 2 ^ n + b.
Proof.
  intros Hn Hb. pose proof (Z.add_lor_land (a * 2 ^ n) b) as H. assert (Z.land (a * 2 ^ n) b = 0) as E.
  { rewrite <- Z.shiftl_mul_pow2 by lia. apply Z.bits_inj'. intros k Hk. rewrite Z.land_spec, Z.bits_0. destruct (Z.lt_ge_cases k n).
    - by rewrite Z.shiftl_spec_low.
    - rewrite (small_high_bits n b) by lia. apply andb_false_r. }
  lia.
Qed.

Lemma lor_double a b : Z.lor (2 * a) (Z.b2z b) = 2 * a + Z.b2z b.
Proof.
  pose proof (b2z_range b). replace (2 * a) with (a * 2 ^ 1) by lia. rewrite lor_add; [done|lia|]. change (2 ^ 1) with 2. lia.
Qed.

Lemma shl_one a : 2 * a <= u128_MAX -> 0 <= a -> shl_u128 a 1 = 2 * a.
Proof.
  intros Ha H0. unfold shl_u128. rewrite Z.shiftl_mul_pow2 by lia. change (2 ^ 1) with 2. widths. rewrite Z.mod_small; lia.
Qed.

(** The top bits of a number, one more bit at a time. *)
Lemma prefix_step n p : 0 <= p -> n / 2 ^ p = 2 * (n / 2 ^ (p + 1)) + Z.b2z (Z.testbit n p).
Proof.
  intros Hp. rewrite Z.testbit_spec' by lia. rewrite Z.pow_add_r by lia. change (2 ^ 1) with 2.
  rewrite <- Z.div_div by (try lia; apply Z.pow_pos_nonneg; lia). apply Z.div_mod. lia.
Qed.

(** Long division by one bit. *)
Lemma division_step n d b : 0 < d -> 0 <= b ->
  (2 * n + b) / d = 2 * (n / d) + (2 * (n mod d) + b) / d /\ (2 * n + b) mod d = (2 * (n mod d) + b) mod d.
Proof.
  intros Hd Hb. pose proof (Z.div_mod n d ltac:(lia)) as H. assert (2 * n + b = (2 * (n mod d) + b) + (2 * (n / d)) * d) as -> by lia.
  rewrite Z.div_add, Z.mod_add by lia. split; [lia|done].
Qed.

(** ** Conversions *)

Lemma checked_i128_spec v : checked_i128 v = if v <=? i128_MAX then Value v else Error ArithmeticExhausted.
Proof. unfold checked_i128. destruct (Z.ltb_spec i128_MAX v), (Z.leb_spec v i128_MAX); try done; lia. Qed.

Lemma checked_mul_i128_spec v f : in_i128 v -> in_u128 f ->
  checked_mul_i128_u128 v f = if decide (in_i128 (v * f)) then Value (v * f) else Error ArithmeticExhausted.
Proof.
  intros Hv Hf. unfold checked_mul_i128_u128, checked_mul_u128. change (Z.shiftl 1 127) with (i128_MAX + 1). widths.
  destruct (Z.eqb_spec v 0) as [->|Hne]; [by rewrite decide_True by lia|].
  destruct (Z.leb_spec (Z.abs v * f) 340282366920938463463374607431768211455).
  2:{ rewrite decide_False; [done|]. nia. }
  destruct (Z.ltb_spec v 0).
  - replace (Z.abs v * f) with (- (v * f)) in * by nia. destruct (Z.ltb_spec (170141183460469231731687303715884105727 + 1) (- (v * f))).
    + rewrite decide_False by lia. done.
    + rewrite decide_True by nia. destruct (Z.eqb_spec (- (v * f)) (170141183460469231731687303715884105727 + 1)); f_equal; lia.
  - replace (Z.abs v * f) with (v * f) in * by nia. destruct (Z.ltb_spec 170141183460469231731687303715884105727 (v * f)).
    + rewrite decide_False by lia. done.
    + rewrite decide_True by nia. done.
Qed.

Lemma checked_ceil_div_spec n d : in_u128 n -> 0 < d -> checked_ceil_div n d = Value (cdiv n d).
Proof.
  intros Hn Hd. unfold checked_ceil_div, checked_add_u128. rewrite (proj2 (Z.eqb_neq d 0)) by lia. rewrite cdiv_spec by done.
  destruct (Z.eqb_spec (n mod d) 0) as [E|E]; [done|]. pose proof (Z.div_mod n d ltac:(lia)) as H.
  pose proof (Z.mod_pos_bound n d Hd). assert (n / d + 1 <= u128_MAX) as Hle by (widths; nia).
  by rewrite (proj2 (Z.leb_le _ _) Hle).
Qed.

(** ** The 129-bit division *)

(** Operators that do not overflow. *)
Ltac fits := cbn; repeat (rewrite (proj2 (Z.leb_le _ u128_MAX)) by lia; cbn).

Lemma div_129_bit_spec d r b : 0 < d <= u128_MAX -> 0 <= r < d ->
  div_129_bit (Z.shiftr d 1) (Z.testbit d 0) r b = Value (d <=? 2 * r + Z.b2z b, (2 * r + Z.b2z b) mod d).
Proof.
  intros Hd Hr. pose proof (b2z_range b) as Hb. rewrite Z.shiftr_div_pow2 by lia. change (2 ^ 1) with 2.
  pose proof (Z.bit0_odd d) as Ho. rewrite Zodd_mod in Ho. pose proof (Z.div_mod d 2 ltac:(lia)) as Hd2.
  pose proof (Z.mod_pos_bound d 2 ltac:(lia)) as Hm. unfold div_129_bit, raw_sub, raw_mul, raw_add. rewrite Ho. set (h := d / 2) in *.
  assert (forall k, 0 <= 2 * r + Z.b2z b - k * d < d -> (2 * r + Z.b2z b) mod d = 2 * r + Z.b2z b - k * d) as Hmod.
  { intros k Hk. symmetry. apply (Z.mod_unique _ _ k); lia. }
  destruct (Z.eqb_spec (d mod 2) 1) as [E|E]; cbn [negb].
  - destruct (Z.ltb_spec h r); [|destruct (Z.eqb_spec r h) as [->|]; [destruct b|]]; cbn [andb Z.b2z] in *.
    + rewrite (proj2 (Z.leb_le h r)) by lia. fits. rewrite (proj2 (Z.leb_le 1 _)) by lia. fits.
      rewrite (proj2 (Z.leb_le d _)), (Hmod 1) by lia. do 2 f_equal. lia.
    + rewrite (proj2 (Z.leb_le d _)), (Hmod 1) by lia. do 2 f_equal. lia.
    + fits. rewrite (proj2 (Z.leb_gt d _)), (Hmod 0) by lia. do 2 f_equal. lia.
    + fits. rewrite (proj2 (Z.leb_gt d _)), (Hmod 0) by lia. do 2 f_equal. lia.
  - destruct (Z.leb_spec h r); fits.
    + rewrite (proj2 (Z.leb_le d _)), (Hmod 1) by lia. do 2 f_equal. lia.
    + rewrite (proj2 (Z.leb_gt d _)), (Hmod 0) by lia. do 2 f_equal. lia.
Qed.

(** The quotient bit is the quotient of the step. *)
Lemma quotient_bit d r b : 0 < d -> 0 <= r < d -> Z.b2z (d <=? 2 * r + Z.b2z b) = (2 * r + Z.b2z b) / d.
Proof.
  intros Hd Hr. pose proof (b2z_range b). destruct (Z.leb_spec d (2 * r + Z.b2z b)); cbn [Z.b2z].
  - apply (Z.div_unique _ _ 1 (2 * r + Z.b2z b - d)); lia.
  - symmetry. apply Z.div_small. lia.
Qed.

Lemma div_129_loop_S p high low half odd quotient remainder :
  div_129_loop (S p) high low half odd quotient remainder =
    '(quotient_bit, remainder) ← div_129_bit half odd remainder (if (p =? 128)%nat then high else Z.testbit low (Z.of_nat p));
    if (p =? 128)%nat then
      if quotient_bit : bool then Error ArithmeticExhausted else div_129_loop p high low half odd quotient remainder
    else if Z.shiftr u128_MAX 1 <? quotient then Error ArithmeticExhausted
    else div_129_loop p high low half odd (Z.lor (shl_u128 quotient 1) (Z.b2z quotient_bit)) remainder.
Proof. done. Qed.

Lemma div_129_loop_spec high low d n positions :
  n = Z.b2z high * 2 ^ 128 + low -> in_u128 low -> 0 < d <= u128_MAX -> n / d <= u128_MAX -> (positions <= 128)%nat ->
  let m := n / 2 ^ Z.of_nat positions in
  div_129_loop positions high low (Z.shiftr d 1) (Z.testbit d 0) (m / d) (m mod d) = Value (n / d, n mod d).
Proof.
  intros Hn Hlow Hd Hfit. induction positions as [|p IH]; intros Hp m; subst m; cbn [div_129_loop].
  { change (2 ^ Z.of_nat 0) with 1. by rewrite Z.div_1_r. }
  rewrite (proj2 (Nat.eqb_neq p 128)) by lia. set (m := n / 2 ^ Z.of_nat (S p)).
  assert (0 <= n) as H0 by (subst n; pose proof (b2z_range high); widths; nia).
  assert (0 < 2 ^ Z.of_nat (S p)) as Hpow by (apply Z.pow_pos_nonneg; lia).
  pose proof (Z.mod_pos_bound m d ltac:(lia)) as Hr. assert (Z.testbit low (Z.of_nat p) = Z.testbit n (Z.of_nat p)) as ->.
  { subst n. rewrite <- (Z.mod_pow2_bits_low low 128 (Z.of_nat p)), <- (Z.mod_pow2_bits_low (_ + _) 128 (Z.of_nat p)) by lia.
    by rewrite (Z.add_comm (_ * _)), Z.mod_add by lia. }
  rewrite div_129_bit_spec by lia. cbn [mbind comp_bind]. set (b := Z.testbit n (Z.of_nat p)).
  pose proof (prefix_step n (Z.of_nat p) ltac:(lia)) as Hpre. fold b in Hpre. replace (Z.of_nat p + 1) with (Z.of_nat (S p)) in Hpre by lia.
  fold m in Hpre. destruct (division_step m d (Z.b2z b)) as [Hq Hm]; [lia|apply b2z_range|].
  assert (0 <= m / d /\ 2 * (m / d) <= u128_MAX) as [Hq0 Hq1].
  { assert (0 <= m) by (apply Z.div_pos; lia). split; [apply Z.div_pos; lia|]. assert (2 * (m / d) <= n / d); [|lia].
    assert (m / d = n / d / 2 ^ Z.of_nat (S p)) as -> by (unfold m; rewrite !Z.div_div, (Z.mul_comm d) by lia; done).
    replace (Z.of_nat (S p)) with (Z.of_nat p + 1) by lia.
    rewrite Z.pow_add_r by lia. change (2 ^ 1) with 2. assert (0 < 2 ^ Z.of_nat p) by (apply Z.pow_pos_nonneg; lia).
    pose proof (Z.mul_div_le (n / d) (2 ^ Z.of_nat p * 2) ltac:(lia)). assert (0 <= n / d) by (apply Z.div_pos; lia).
    assert (0 <= n / d / (2 ^ Z.of_nat p * 2)) by (apply Z.div_pos; lia). nia. }
  change (Z.shiftr u128_MAX 1) with i128_MAX. rewrite (proj2 (Z.ltb_ge _ _)) by (widths; lia).
  rewrite shl_one, lor_double, quotient_bit by lia. rewrite <- Hq, <- Hm, <- Hpre. apply IH. lia.
Qed.

(** Division of [high * 2^128 + low] is exact. *)
Lemma checked_div_129_spec high low d : in_u128 low -> 0 < d <= u128_MAX ->
  let n := Z.b2z high * 2 ^ 128 + low in
  checked_div_129 high low d = if n / d <=? u128_MAX then Value (n / d, n mod d) else Error ArithmeticExhausted.
Proof.
  intros Hlow Hd n. unfold checked_div_129. rewrite (proj2 (Z.eqb_neq d 0)) by lia. rewrite (div_129_loop_S 128), Nat.eqb_refl, div_129_bit_spec by lia.
  cbn [mbind comp_bind]. rewrite Z.mul_0_r, Z.add_0_l.
  assert (0 <= low < 2 ^ 128) as Hl by (widths; lia). destruct (Z.leb_spec d (Z.b2z high)) as [Hh|Hh].
  - destruct high; cbn [Z.b2z] in Hh; [|lia]. assert (d = 1) as -> by lia. rewrite Z.div_1_r.
    rewrite (proj2 (Z.leb_gt n _)); [done|]. unfold n. cbn [Z.b2z]. widths. lia.
  - assert (n / 2 ^ 128 = Z.b2z high) as Hm by (unfold n; rewrite Z.div_add_l, Z.div_small by lia; lia).
    assert (n / d <= u128_MAX) as Hfit.
    { destruct high; cbn [Z.b2z] in *.
      - apply Z.lt_succ_r. change (Z.succ u128_MAX) with (2 ^ 128). apply Z.div_lt_upper_bound; lia.
      - assert (n / d <= n) by (apply Z.div_le_upper_bound; nia). widths. lia. }
    rewrite (proj2 (Z.leb_le _ _) Hfit). pose proof (div_129_loop_spec high low d n 128 eq_refl Hlow Hd Hfit ltac:(lia)) as Hloop.
    cbv zeta in Hloop. change (Z.of_nat 128) with 128 in Hloop. rewrite Hm in Hloop. pose proof (b2z_range high).
    rewrite (Z.div_small (Z.b2z high) d) in Hloop by lia. exact Hloop.
Qed.

(** ** Products and quotients *)

(** Doubling a remainder takes 129 bits. *)
Lemma double_129 r b : 0 <= r <= u128_MAX -> 0 <= b <= 1 ->
  Z.b2z (Z.testbit r 127) * 2 ^ 128 + (shl_u128 r 1 + b) = 2 * r + b /\ in_u128 (shl_u128 r 1 + b).
Proof.
  intros Hr Hb. unfold shl_u128. rewrite Z.shiftl_mul_pow2, Z.testbit_spec' by lia. change (2 ^ 1) with 2. widths.
  change (2 ^ 128) with 340282366920938463463374607431768211456. change (2 ^ 127) with 170141183460469231731687303715884105728.
  assert (r / 170141183460469231731687303715884105728 = (r * 2) / 340282366920938463463374607431768211456) as ->.
  { change 340282366920938463463374607431768211456 with (170141183460469231731687303715884105728 * 2). by rewrite Z.div_mul_cancel_r by lia. }
  pose proof (Z.div_mod (r * 2) 340282366920938463463374607431768211456 ltac:(lia)) as H.
  pose proof (Z.mod_pos_bound (r * 2) 340282366920938463463374607431768211456 ltac:(lia)).
  assert ((r * 2) / 340282366920938463463374607431768211456 < 2) by (apply Z.div_lt_upper_bound; lia).
  assert (0 <= (r * 2) / 340282366920938463463374607431768211456) by (apply Z.div_pos; lia).
  rewrite (Z.mod_small (_ / _) 2) by lia.
  assert ((r * 2) mod 340282366920938463463374607431768211456 mod 2 = 0) as He.
  { rewrite <- Znumtheory.Zmod_div_mod; [apply Z.mod_mul; lia|lia|lia|]. exists 170141183460469231731687303715884105728. done. }
  pose proof (Z.div_mod ((r * 2) mod 340282366920938463463374607431768211456) 2 ltac:(lia)). lia.
Qed.

Lemma double_div r d : 0 <= r < d -> d <= u128_MAX ->
  checked_div_129 (Z.testbit r 127) (shl_u128 r 1) d = Value (2 * r / d, (2 * r) mod d).
Proof.
  intros Hr Hd. destruct (double_129 r 0) as [H1 H2]; [lia..|]. rewrite !Z.add_0_r in *. rewrite checked_div_129_spec by (exact H2 || lia).
  rewrite H1. assert (2 * r / d < 2) by (apply Z.div_lt_upper_bound; lia). by rewrite (proj2 (Z.leb_le _ u128_MAX)) by (widths; lia).
Qed.

Lemma add_div r b d : 0 <= r -> 0 <= b -> r <= u128_MAX -> b <= u128_MAX -> 0 < d <= u128_MAX ->
  (let '(low, high) := overflowing_add_u128 r b in checked_div_129 high low d) =
  if (r + b) / d <=? u128_MAX then Value ((r + b) / d, (r + b) mod d) else Error ArithmeticExhausted.
Proof.
  intros Hr Hb Hr' Hb' Hd. unfold overflowing_add_u128. rewrite checked_div_129_spec; [|widths; pose proof (Z.mod_pos_bound (r + b) 340282366920938463463374607431768211456 ltac:(lia)); lia|done].
  assert (Z.b2z (u128_MAX <? r + b) * 2 ^ 128 + wrap_u128 (r + b) = r + b) as ->; [|done].
  widths. change (2 ^ 128) with 340282366920938463463374607431768211456. destruct (Z.ltb_spec 340282366920938463463374607431768211455 (r + b)); cbn [Z.b2z].
  - rewrite <- (Z.mod_unique (r + b) 340282366920938463463374607431768211456 1 (r + b - 340282366920938463463374607431768211456)); lia.
  - rewrite Z.mod_small; lia.
Qed.

(** The quotient of a prefix of the bits of [a], one bit more. *)
Lemma mul_div_step m b d bit : 0 < d -> 0 <= m -> 0 <= b ->
  let r := (m * b) mod d in
  let r' := (2 * r) mod d in
  ((2 * m + Z.b2z bit) * b) / d = 2 * (m * b / d) + (2 * r / d + (r' + Z.b2z bit * b) / d) /\
  ((2 * m + Z.b2z bit) * b) mod d = (r' + Z.b2z bit * b) mod d.
Proof.
  intros Hd Hm Hb r r'. pose proof (Z.div_mod (m * b) d ltac:(lia)) as H1. fold r in H1.
  pose proof (Z.div_mod (2 * r) d ltac:(lia)) as H2. fold r' in H2.
  assert ((2 * m + Z.b2z bit) * b = (r' + Z.b2z bit * b) + (2 * (m * b / d) + 2 * r / d) * d) as -> by nia.
  rewrite Z.div_add, Z.mod_add by lia. split; [lia|done].
Qed.

Lemma mul_div_loop_S p a b d q r :
  mul_div_loop (S p) a b d q r =
    '(double_quotient, doubled_remainder) ← checked_div_129 (Z.testbit r 127) (shl_u128 r 1) d;
    '(add_quotient, next_remainder) ←
      (if Z.testbit a (Z.of_nat p) then
         let '(low, high) := overflowing_add_u128 doubled_remainder b in checked_div_129 high low d
       else mret (0, doubled_remainder));
    extra ← ok_or_else (checked_add_u128 double_quotient add_quotient) ArithmeticExhausted;
    q ← ok_or_else (twice ← checked_mul_u128 q 2; checked_add_u128 twice extra) ArithmeticExhausted;
    mul_div_loop p a b d q next_remainder.
Proof. done. Qed.

Lemma mul_div_loop_spec a b d positions : in_u128 a -> in_u128 b -> 0 < d <= u128_MAX ->
  let m := a / 2 ^ Z.of_nat positions in m * b / d <= u128_MAX ->
  mul_div_loop positions a b d (m * b / d) ((m * b) mod d) =
    if a * b / d <=? u128_MAX then Value (a * b / d, (a * b) mod d) else Error ArithmeticExhausted.
Proof.
  intros Ha Hb Hd. induction positions as [|p IH]; intros m Hfit.
  { unfold m in *. change (2 ^ Z.of_nat 0) with 1 in *. rewrite Z.div_1_r in *. by rewrite (proj2 (Z.leb_le _ _) Hfit). }
  rewrite mul_div_loop_S. set (r := (m * b) mod d). pose proof (Z.mod_pos_bound (m * b) d ltac:(lia)) as Hr. fold r in Hr.
  assert (0 < 2 ^ Z.of_nat (S p)) as Hpow by (apply Z.pow_pos_nonneg; lia). assert (0 < 2 ^ Z.of_nat p) as Hpow' by (apply Z.pow_pos_nonneg; lia).
  assert (0 <= m) as Hm by (apply Z.div_pos; widths; lia). rewrite double_div by lia. cbn [mbind comp_bind].
  set (bit := Z.testbit a (Z.of_nat p)). set (r' := (2 * r) mod d). pose proof (Z.mod_pos_bound (2 * r) d ltac:(lia)) as Hr'. fold r' in Hr'.
  pose proof (prefix_step a (Z.of_nat p) ltac:(lia)) as Hpre. replace (Z.of_nat p + 1) with (Z.of_nat (S p)) in Hpre by lia. fold m bit in Hpre.
  destruct (mul_div_step m b d bit) as [Hq Hmod]; [lia|done|widths; lia|]. fold r r' in Hq, Hmod.
  set (m' := a / 2 ^ Z.of_nat p) in *. rewrite <- Hpre in Hq, Hmod. set (add := (r' + Z.b2z bit * b) / d) in *.
  assert (0 <= add) as Hadd by (apply Z.div_pos; [pose proof (b2z_range bit); widths; nia|lia]).
  assert (0 <= 2 * r / d) as Hdq by (apply Z.div_pos; lia). assert (0 <= m * b / d) as Hq0 by (apply Z.div_pos; [widths; nia|lia]).
  assert (m' * b / d <= a * b / d) as Hmono.
  { apply Z.div_le_mono; [lia|]. apply Z.mul_le_mono_nonneg_r; [widths; lia|]. apply Z.div_le_upper_bound; [lia|widths; nia]. }
  destruct (Z.leb_spec add u128_MAX) as [Hfa|Hfa].
  2:{ rewrite (proj2 (Z.leb_gt (a * b / d) _)) by lia. destruct bit; [|exfalso; unfold add in Hfa; cbn [Z.b2z] in Hfa; rewrite Z.add_0_r, (Z.div_small r' d) in Hfa by lia; lia].
      rewrite add_div by (widths; lia). unfold add in Hfa. cbn [Z.b2z] in Hfa. rewrite Z.mul_1_l in Hfa. by rewrite (proj2 (Z.leb_gt _ _) Hfa). }
  assert ((if bit then let '(low, high) := overflowing_add_u128 r' b in checked_div_129 high low d else mret (0, r')) =
    Value (add, (m' * b) mod d)) as ->.
  { rewrite Hmod. unfold add in *. destruct bit; cbn [Z.b2z] in *; rewrite ?Z.mul_1_l, ?Z.mul_0_l, ?Z.add_0_r in *.
    - rewrite add_div by (widths; lia). by rewrite (proj2 (Z.leb_le _ _) Hfa).
    - by rewrite (Z.div_small r' d), (Z.mod_small r' d) by lia. }
  cbn [mbind comp_bind]. unfold checked_mul_u128, checked_add_u128. destruct (Z.leb_spec (2 * r / d + add) u128_MAX); cbn [ok_or_else mbind comp_bind].
  2:{ rewrite (proj2 (Z.leb_gt (a * b / d) _)) by lia. done. }
  destruct (Z.leb_spec (m * b / d * 2) u128_MAX); cbn [ok_or_else mbind comp_bind option_bind].
  2:{ rewrite (proj2 (Z.leb_gt (a * b / d) _)) by lia. done. }
  destruct (Z.leb_spec (m * b / d * 2 + (2 * r / d + add)) u128_MAX); cbn [ok_or_else mbind comp_bind].
  2:{ rewrite (proj2 (Z.leb_gt (a * b / d) _)) by lia. done. }
  replace (m * b / d * 2 + (2 * r / d + add)) with (m' * b / d) by lia. apply IH. lia.
Qed.

(** The quotient and the remainder of [a * b / d], whatever the size of the
    product. *)
Lemma checked_mul_div_rem_spec a b d : in_u128 a -> in_u128 b -> 0 < d <= u128_MAX ->
  checked_mul_div_rem a b d = if a * b / d <=? u128_MAX then Value (a * b / d, (a * b) mod d) else Error ArithmeticExhausted.
Proof.
  intros Ha Hb Hd. unfold checked_mul_div_rem. rewrite (proj2 (Z.eqb_neq d 0)) by lia. unfold checked_mul_u128.
  destruct (Z.leb_spec (a * b) u128_MAX) as [Hab|Hab].
  - assert (a * b / d <= u128_MAX) as Hle by (transitivity (a * b); [apply Z.div_le_upper_bound; widths; nia|done]).
    by rewrite (proj2 (Z.leb_le _ _) Hle).
  - pose proof (mul_div_loop_spec a b d 128 Ha Hb Hd) as Hloop. cbv zeta in Hloop. change (Z.of_nat 128) with 128 in Hloop.
    rewrite (Z.div_small a (2 ^ 128)), Z.mul_0_l, Z.div_0_l, Z.mod_0_l in Hloop by (widths; lia). apply Hloop. widths. lia.
Qed.

Lemma rounded_up n d : 0 < d -> 0 <= n -> n / d <= u128_MAX ->
  (if n mod d =? 0 then mret (n / d) else ok_or_else (checked_add_u128 (n / d) 1) ArithmeticExhausted) =
  if cdiv n d <=? u128_MAX then Value (cdiv n d) else Error ArithmeticExhausted.
Proof.
  intros Hd Hn Hfit. rewrite cdiv_spec by done. unfold checked_add_u128. destruct (n mod d =? 0); [by rewrite (proj2 (Z.leb_le _ _) Hfit)|].
  by destruct (n / d + 1 <=? u128_MAX).
Qed.

Lemma checked_mul_div_ceil_spec a b d : in_u128 a -> in_u128 b -> 0 < d <= u128_MAX ->
  checked_mul_div_ceil a b d = if cdiv (a * b) d <=? u128_MAX then Value (cdiv (a * b) d) else Error ArithmeticExhausted.
Proof.
  intros Ha Hb Hd. unfold checked_mul_div_ceil. rewrite checked_mul_div_rem_spec by done. assert (0 <= a * b) by (widths; nia).
  destruct (Z.leb_spec (a * b / d) u128_MAX) as [Hfit|Hfit]; cbn [mbind comp_bind]; [by apply rounded_up; lia|].
  assert (u128_MAX < cdiv (a * b) d) as Hgt.
  { rewrite cdiv_spec by lia. destruct (_ =? 0); lia. }
  by rewrite (proj2 (Z.leb_gt _ _) Hgt).
Qed.

(** Rounding to the nearest integer, ties to even. *)
Definition nearest_even (n d q : Z) : Prop :=
  2 * Z.abs (n - q * d) <= d /\ (2 * Z.abs (n - q * d) = d -> Z.even q = true).

Lemma checked_round_spec a b d : in_u128 a -> in_u128 b -> 0 < d <= u128_MAX ->
  match checked_mul_div_round_nearest_even a b d with
  | Value q => nearest_even (a * b) d q /\ 0 <= q <= u128_MAX
  | Error e => e = ArithmeticExhausted /\ u128_MAX <= a * b / d
  | Crash => False
  end.
Proof.
  intros Ha Hb Hd. unfold checked_mul_div_round_nearest_even. rewrite checked_mul_div_rem_spec by done. set (n := a * b).
  assert (0 <= n) as Hn by (unfold n; widths; nia). destruct (Z.leb_spec (n / d) u128_MAX) as [Hfit|Hfit]; cbn [mbind comp_bind]; [|split; [done|lia]].
  unfold raw_div. cbn [Z.eqb mbind comp_bind]. pose proof (Z.div_mod n d ltac:(lia)) as Hdm. pose proof (Z.mod_pos_bound n d ltac:(lia)) as Hr.
  set (q := n / d) in *. set (r := n mod d) in *. assert (0 <= q) as Hq by (apply Z.div_pos; lia).
  pose proof (Z.div_mod d 2 ltac:(lia)) as Hd2. pose proof (Z.mod_pos_bound d 2 ltac:(lia)).
  assert (Z.testbit d 0 = (d mod 2 =? 1)) as -> by (by rewrite Z.bit0_odd, Zodd_mod).
  assert (Z.testbit q 0 = negb (Z.even q)) as -> by (by rewrite Z.bit0_odd, <- Z.negb_even).
  assert (forall up : bool, (up = true -> d <= 2 * r /\ (2 * r = d -> Z.even q = false)) ->
    (up = false -> 2 * r <= d /\ (2 * r = d -> Z.even q = true)) ->
    match (if up then ok_or_else (checked_add_u128 q 1) ArithmeticExhausted else mret q) with
    | Value q => nearest_even n d q /\ 0 <= q <= u128_MAX
    | Error e => e = ArithmeticExhausted /\ u128_MAX <= q
    | Crash => False
    end) as Hround.
  { intros up Hup Hdown. unfold checked_add_u128, nearest_even. destruct up.
    - destruct (Hup eq_refl) as [H1 H2]. destruct (Z.leb_spec (q + 1) u128_MAX); cbn; [|split; [done|lia]].
      replace (n - (q + 1) * d) with (r - d) by lia. rewrite Z.abs_neq by lia. split; [|lia]. split; [lia|]. intros He.
      rewrite Z.add_1_r, Z.even_succ, <- Z.negb_even, H2; [done|lia].
    - destruct (Hdown eq_refl) as [H1 H2]. cbn. replace (n - q * d) with r by lia. rewrite Z.abs_eq by lia.
      split; [|lia]. split; [lia|]. intros He. apply H2. lia. }
  apply Hround; destruct (Z.compare_spec r (d / 2)) as [E|E|E]; try done; destruct (Z.eqb_spec (d mod 2) 1) as [E2|E2], (Z.even q) eqn:Eq;
    cbn; intros; try done; split; try lia; done.
Qed.

(** ** Greatest common divisors *)

(** Every second division halves the divisor. *)
Lemma gcd_loop_spec {E} k : forall fuel a b, 0 <= a -> 0 <= b < 2 ^ Z.of_nat k -> (2 * k < fuel)%nat -> gcd_loop (E := E) fuel a b = Value (Z.gcd a b).
Proof.
  induction k as [|k IH]; intros fuel a b Ha Hb Hf.
  { change (2 ^ Z.of_nat 0) with 1 in Hb. assert (b = 0) as -> by lia. destruct fuel; cbn; rewrite Z.gcd_0_r_nonneg; done. }
  destruct fuel as [|[|fuel]]; [lia..|]. cbn [gcd_loop]. destruct (Z.eqb_spec b 0) as [->|Hb0]; [by rewrite Z.gcd_0_r_nonneg|].
  pose proof (Z.mod_pos_bound a b ltac:(lia)) as Hm. assert (Z.gcd a b = Z.gcd b (a mod b)) as ->.
  { rewrite (Z.gcd_comm b), Z.gcd_mod by lia. apply Z.gcd_comm. }
  set (r := a mod b) in *. destruct (Z.eqb_spec r 0) as [->|Hr0]; [by rewrite Z.gcd_0_r_nonneg by lia|].
  pose proof (Z.mod_pos_bound b r ltac:(lia)) as Hm'. assert (Z.gcd b r = Z.gcd r (b mod r)) as ->.
  { rewrite (Z.gcd_comm r), Z.gcd_mod by lia. apply Z.gcd_comm. }
  apply IH; [lia| |lia]. rewrite Nat2Z.inj_succ, Z.pow_succ_r in Hb by lia. split; [lia|].
  pose proof (Z.div_mod b r ltac:(lia)). assert (1 <= b / r) by (apply Z.div_le_lower_bound; lia). nia.
Qed.

Lemma gcd_u128_spec {E} a b : 0 <= a -> in_u128 b -> gcd_u128 (E := E) a b = Value (Z.gcd a b).
Proof. intros Ha Hb. apply (gcd_loop_spec 128); [done|change (Z.of_nat 128) with 128; widths; lia|lia]. Qed.

(** ** Keys *)

Lemma bias_spec v : in_i128 v -> bias_i128 v = v + 2 ^ 127.
Proof.
  intros Hv. unfold bias_i128. change (Z.shiftl 1 127) with (2 ^ 127). widths.
  assert (forall x, 0 <= x < 2 ^ 127 -> Z.lxor x (2 ^ 127) = x + 2 ^ 127) as Hlow.
  { intros x Hx. symmetry. apply Z.add_nocarry_lxor.
    rewrite Z.land_comm. replace (2 ^ 127) with (Z.shiftl 1 127) by done. apply Z.bits_inj'. intros k Hk. rewrite Z.land_spec, Z.bits_0.
    destruct (Z.lt_ge_cases k 127); [by rewrite Z.shiftl_spec_low|]. rewrite (small_high_bits 127 x) by lia. apply andb_false_r. }
  destruct (Z.leb_spec 0 v).
  - rewrite Z.mod_small by lia. apply Hlow. lia.
  - rewrite <- (Z.mod_unique v 340282366920938463463374607431768211456 (-1) (v + 340282366920938463463374607431768211456)) by lia.
    replace (v + 340282366920938463463374607431768211456) with ((v + 2 ^ 127) + 2 ^ 127) by lia.
    rewrite <- Hlow, Z.lxor_assoc, Z.lxor_nilpotent, Z.lxor_0_r by lia. done.
Qed.
