(* ===== verification/EevdfWide.v ===== *)
(** Exact integer arithmetic of the EEVDF model, part 3: the 256-bit
    intermediates denote numbers, their operations are exact, and the ratio
    computed through them is the quotient rounded up. *)

From S2P Require Import Prelude EevdfMath EevdfMathSpec.
Local Open Scope Z_scope.

(** ** Limbs as numbers *)

Definition B : Z := 18446744073709551616.
Abbreviation limb x := (0 <= x < B).
Definition wval (l : list Z) : Z := foldr (fun x acc => x + B * acc) 0 l.
Definition base (n : nat) : Z := B ^ Z.of_nat n.

Lemma B_pos : 0 < B.
Proof. done. Qed.
Lemma base_0 : base 0 = 1.
Proof. done. Qed.
Lemma base_S n : base (S n) = B * base n.
Proof. unfold base. rewrite Nat2Z.inj_succ, Z.pow_succ_r by lia. done. Qed.
Lemma base_pos n : 0 < base n.
Proof. apply Z.pow_pos_nonneg; [apply B_pos|lia]. Qed.
Lemma base_add m n : base (m + n) = base m * base n.
Proof. unfold base. rewrite Nat2Z.inj_add, Z.pow_add_r by lia. done. Qed.
Lemma base_4 : base 4 = 2 ^ 256.
Proof. done. Qed.

Lemma wval_nil : wval [] = 0.
Proof. done. Qed.
Lemma wval_cons x l : wval (x :: l) = x + B * wval l.
Proof. done. Qed.

Lemma wval_bound l : Forall (fun x => limb x) l -> 0 <= wval l < base (length l).
Proof.
  induction 1 as [|x l Hx _ IH]; cbn [length]; [rewrite wval_nil, base_0; lia|]. rewrite base_S, wval_cons. nia.
Qed.

Lemma wval_app l k : wval (l ++ k) = wval l + base (length l) * wval k.
Proof.
  induction l as [|x l IH]; cbn [app length]; [rewrite base_0, wval_nil; lia|]. rewrite base_S, !wval_cons, IH. ring.
Qed.

Lemma wval_insert l i x y : l !! i = Some x -> wval (<[i := y]> l) = wval l + (y - x) * base i.
Proof.
  revert i. induction l as [|z l IH]; intros [|i] Hx; cbn in Hx; simplify_eq.
  - change (<[O := y]> (x :: l)) with (y :: l). rewrite !wval_cons, base_0. lia.
  - change (<[S i := y]> (z :: l)) with (z :: <[i := y]> l). rewrite !wval_cons, (IH i Hx), base_S. ring.
Qed.

(** ** Shifts and additions *)

Lemma wrap_u64_spec z : exists k, z = wrap_u64 z + B * k /\ limb (wrap_u64 z) /\ k = z / B.
Proof. exists (z / B). unfold wrap_u64. fold B. pose proof (Z.div_mod z B ltac:(done)). pose proof (Z.mod_pos_bound z B B_pos). lia. Qed.

Lemma shl_u64_spec x : limb x -> exists h, 2 * x = shl_u64 x 1 + B * Z.b2z h /\ h = Z.testbit x 63 /\ limb (shl_u64 x 1).
Proof.
  intros Hx. exists (Z.testbit x 63). split; [|split; [done|unfold shl_u64; destruct (wrap_u64_spec (Z.shiftl x 1)) as (? & _ & ? & _); lia]].
  unfold shl_u64, wrap_u64. fold B. rewrite Z.shiftl_mul_pow2 by lia. change (2 ^ 1) with 2.
  pose proof (Z.div_mod (x * 2) B ltac:(done)) as H. rewrite Z.testbit_spec' by lia. change B with (2 ^ 63 * 2) in *.
  rewrite Z.div_mul_cancel_r in H by done. rewrite (Z.mod_small (x / 2 ^ 63)); [lia|]. split; [apply Z.div_pos; lia|apply Z.div_lt_upper_bound; lia].
Qed.

Lemma shl_u64_low x b : limb x -> Z.lor (shl_u64 x 1) (Z.b2z b) = shl_u64 x 1 + Z.b2z b /\ limb (shl_u64 x 1 + Z.b2z b).
Proof.
  intros Hx. destruct (shl_u64_spec x Hx) as (h & H & _ & Hl). pose proof (b2z_range b). pose proof (b2z_range h).
  assert (shl_u64 x 1 = 2 * (x - 2 ^ 63 * Z.b2z h)) as E by (unfold B in *; lia). rewrite E, lor_double. split; [done|]. unfold B in *. lia.
Qed.

Lemma shl1_limbs_spec l carry : Forall (fun x => limb x) l ->
  let r := shl1_limbs l carry in
  wval r.2 + base (length l) * Z.b2z r.1 = 2 * wval l + Z.b2z carry /\ Forall (fun x => limb x) r.2 /\ length r.2 = length l.
Proof.
  intros Hl. revert carry. induction Hl as [|x l Hx Hl IH]; intros carry; cbn [shl1_limbs]; [cbn; rewrite base_0; split; [lia|done]|].
  destruct (shl_u64_spec x Hx) as (h & H & -> & _). destruct (shl_u64_low x carry Hx) as [-> Hlow].
  specialize (IH (Z.testbit x 63)). destruct (shl1_limbs l (Z.testbit x 63)) as [c r]. cbn [fst snd length] in *. destruct IH as (Hv & Hf & Hn). split_and!.
  - rewrite !wval_cons, base_S. nia.
  - by constructor.
  - by rewrite Hn.
Qed.

Lemma overflowing_sub_spec x y : limb x -> limb y ->
  let r := overflowing_sub_u64 x y in x - y = r.1 - B * Z.b2z r.2 /\ limb r.1 /\ r.2 = (x <? y).
Proof.
  intros Hx Hy. unfold overflowing_sub_u64, wrap_u64. fold B. cbn [fst snd]. destruct (Z.ltb_spec x y); cbn [Z.b2z].
  - rewrite <- (Z.mod_unique (x - y) B (-1) (x - y + B)) by lia. lia.
  - rewrite Z.mod_small by lia. lia.
Qed.

Lemma sub_u64_spec x y (b : bool) : limb x -> limb y ->
  let r := overflowing_sub_u64 x y in let r' := overflowing_sub_u64 r.1 (Z.b2z b) in
  x - y - Z.b2z b = r'.1 - B * Z.b2z (r.2 || r'.2) /\ limb r'.1.
Proof.
  intros Hx Hy. cbv zeta. destruct (overflowing_sub_spec x y Hx Hy) as (H1 & Hl1 & Hb1). destruct (overflowing_sub_u64 x y) as [v c].
  cbn [fst snd] in *. pose proof (b2z_range b). destruct (overflowing_sub_spec v (Z.b2z b) Hl1 ltac:(unfold B; lia)) as (H2 & Hl2 & Hb2).
  split; [|done]. set (r := overflowing_sub_u64 v (Z.b2z b)) in *. destruct c; [|cbn [orb Z.b2z] in *; lia].
  destruct (Z.ltb_spec v (Z.b2z b)); rewrite Hb2 in *; cbn [orb Z.b2z] in *; [|lia].
  symmetry in Hb1. apply Z.ltb_lt in Hb1. lia.
Qed.

Lemma sub_limbs_spec a : forall b borrow, Forall (fun x => limb x) a -> Forall (fun x => limb x) b -> length a = length b ->
  let r := sub_limbs a b borrow in
  (exists c : bool, wval r = wval a - wval b - Z.b2z borrow + base (length a) * Z.b2z c) /\ Forall (fun x => limb x) r /\ length r = length a.
Proof.
  induction a as [|x a IH]; intros [|y b] borrow Ha Hb Hlen; try done.
  { cbn. split; [|done]. exists borrow. rewrite base_0. lia. }
  inversion Ha as [|?? Hx Ha']; inversion Hb as [|?? Hy Hb']; subst. cbn in Hlen. injection Hlen as Hlen.
  pose proof (sub_u64_spec x y borrow Hx Hy) as Hs. cbn [sub_limbs].
  destruct (overflowing_sub_u64 x y) as [v1 b1]. cbn [fst snd] in Hs. destruct (overflowing_sub_u64 v1 (Z.b2z borrow)) as [v2 b2]. cbn [fst snd] in Hs. destruct Hs as [Hs Hv2].
  destruct (IH b (b1 || b2) Ha' Hb' Hlen) as ((c & Hc) & Hf & Hn). split_and!; [|by constructor|cbn; by rewrite Hn].
  exists c. rewrite !wval_cons, Hc. cbn [length]. rewrite base_S. nia.
Qed.

Lemma add_one_spec l : Forall (fun x => limb x) l ->
  match add_one_limbs l with
  | Some r => wval r = wval l + 1 /\ Forall (fun x => limb x) r /\ length r = length l
  | None => wval l + 1 = base (length l)
  end.
Proof.
  induction 1 as [|x l Hx Hl IH]; cbn [add_one_limbs]; [done|]. unfold overflowing_add_u64, wrap_u64. fold B. cbn [fst snd].
  destruct (Z.ltb_spec u64_MAX (x + 1)) as [Hc|Hc].
  - assert (x = B - 1) as -> by (unfold B, u64_MAX in *; lia). replace (B - 1 + 1) with B by lia. rewrite Z_mod_same_full.
    destruct (add_one_limbs l) as [r|]; cbn [mbind option_bind length].
    + destruct IH as (H1 & H2 & H3). rewrite !wval_cons, H1, H3. split_and!; [lia| |done]. constructor; [|done]. split; [lia|done].
    + rewrite wval_cons, base_S. nia.
  - rewrite Z.mod_small by (unfold B, u64_MAX in *; lia). rewrite !wval_cons. split_and!; [lia| |done]. constructor; [|done]. unfold B, u64_MAX in *; lia.
Qed.

(** ** Bits and comparisons *)

Lemma limb_lookup l i x : Forall (fun x => limb x) l -> l !! i = Some x -> limb x.
Proof. intros Hl Hx. by apply (Forall_lookup_1 _ _ _ _ Hl Hx). Qed.

Lemma testbit_wval l : forall i x k, Forall (fun x => limb x) l -> l !! i = Some x -> 0 <= k < 64 ->
  Z.testbit (wval l) (64 * Z.of_nat i + k) = Z.testbit x k.
Proof.
  induction l as [|y l IH]; intros [|i] x k Hl Hx Hk; cbn in Hx; simplify_eq; inversion Hl as [|?? Hy Hl']; subst; rewrite wval_cons.
  - replace (64 * Z.of_nat 0 + k) with k by lia. rewrite Z.add_comm, (Z.mul_comm B). change B with (2 ^ 64) in *.
    rewrite <- lor_add by lia. rewrite Z.lor_spec, <- Z.shiftl_mul_pow2 by lia. rewrite Z.shiftl_spec_low by lia. done.
  - replace (64 * Z.of_nat (S i) + k) with ((64 * Z.of_nat i + k) + 64) by lia. rewrite <- (IH i x k Hl' Hx Hk).
    rewrite <- Z.shiftr_spec by lia. rewrite Z.shiftr_div_pow2 by lia. change (2 ^ 64) with B.
    rewrite Z.add_comm, Z.mul_comm, Z.div_add_l by done. rewrite (Z.div_small y B) by done. f_equal. lia.
Qed.

Lemma wide_bit_spec {E} w p : Forall (fun x => limb x) (limbs w) -> 0 <= p < 64 * Z.of_nat (length (limbs w)) ->
  wide_bit (E := E) w p = Value (Z.testbit (wval (limbs w)) p).
Proof.
  intros Hw Hp. unfold wide_bit, at_index. pose proof (Z.div_mod p 64 ltac:(done)) as Hd. pose proof (Z.mod_pos_bound p 64 ltac:(done)) as Hm.
  pose proof (Z.div_pos p 64 ltac:(lia) ltac:(lia)). destruct (limbs w !! Z.to_nat (p / 64)) as [x|] eqn:Ex.
  2:{ apply lookup_ge_None in Ex. lia. }
  cbn. f_equal. rewrite <- (testbit_wval _ _ _ _ Hw Ex Hm). f_equal. lia.
Qed.

Lemma cmp_from_spec {E} k : forall a b, Forall (fun x => limb x) a -> Forall (fun x => limb x) b -> (k <= length a)%nat -> (k <= length b)%nat ->
  cmp_from (E := E) k a b = Value (wval (take k a) ?= wval (take k b)).
Proof.
  induction k as [|k IH]; intros a b Ha Hb Hka Hkb; [done|]. cbn [cmp_from]. unfold at_index.
  destruct (lookup_lt_is_Some_2 a k ltac:(lia)) as [x Hx]. destruct (lookup_lt_is_Some_2 b k ltac:(lia)) as [y Hy]. rewrite Hx, Hy. cbn [mbind comp_bind].
  rewrite (take_S_r a k x Hx), (take_S_r b k y Hy), !wval_app, !wval_cons, wval_nil, !length_take, !Nat.min_l by lia.
  pose proof (wval_bound _ (Forall_take _ k _ Ha)) as Hba. pose proof (wval_bound _ (Forall_take _ k _ Hb)) as Hbb.
  rewrite length_take, Nat.min_l in Hba, Hbb by lia. pose proof (base_pos k). destruct (Z.compare_spec x y) as [->|Hlt|Hgt].
  - rewrite (IH a b) by (done || lia). rewrite !(Z.add_comm (wval (take k _))), Z.add_compare_mono_l. done.
  - f_equal. symmetry. apply Z.compare_lt_iff. nia.
  - f_equal. symmetry. apply Z.compare_gt_iff. nia.
Qed.

(** 256-bit values *)
Definition wide_ok (l : list Z) : Prop := Forall (fun x => limb x) l /\ length l = 4%nat.

Lemma wide_range l : wide_ok l -> 0 <= wval l < 2 ^ 256.
Proof. intros [Hl Hn]. pose proof (wval_bound l Hl) as H. by rewrite Hn, base_4 in H. Qed.

Lemma wide_ZERO_ok : wide_ok (limbs wide_ZERO) /\ wval (limbs wide_ZERO) = 0.
Proof. split; [|done]. split; [|done]. repeat constructor; unfold B; lia. Qed.

Lemma wide_cmp_spec {E} a b : wide_ok (limbs a) -> wide_ok (limbs b) -> wide_cmp (E := E) a b = Value (wval (limbs a) ?= wval (limbs b)).
Proof.
  intros [Ha Hna] [Hb Hnb]. unfold wide_cmp. rewrite cmp_from_spec by (done || lia). rewrite !take_ge by lia. done.
Qed.

Lemma wide_ge_spec {E} a b : wide_ok (limbs a) -> wide_ok (limbs b) -> wide_ge (E := E) a b = Value (wval (limbs b) <=? wval (limbs a)).
Proof.
  intros Ha Hb. unfold wide_ge. rewrite wide_cmp_spec by done. cbn. f_equal. unfold Z.leb. rewrite Z.compare_antisym.
  by destruct (wval (limbs b) ?= wval (limbs a)).
Qed.

Lemma wide_sub_spec a b : wide_ok (limbs a) -> wide_ok (limbs b) ->
  wide_ok (limbs (wide_wrapping_sub a b)) /\ wval (limbs (wide_wrapping_sub a b)) = (wval (limbs a) - wval (limbs b)) mod 2 ^ 256.
Proof.
  intros [Ha Hna] [Hb Hnb]. destruct (sub_limbs_spec (limbs a) (limbs b) false Ha Hb ltac:(congruence)) as ((c & Hc) & Hf & Hn). cbn [limbs wide_wrapping_sub].
  assert (wide_ok (sub_limbs (limbs a) (limbs b) false)) as Hok by (split; [done|congruence]). split; [done|].
  pose proof (wide_range _ Hok). rewrite Hna, base_4 in Hc. cbn [Z.b2z] in Hc. apply (Z.mod_unique _ _ (- Z.b2z c)); lia.
Qed.

(** ** Products *)

Lemma get_limb {E} l i : wide_ok l -> (i < 4)%nat -> exists y, l !! i = Some y /\ limb y /\ at_index (E := E) l i = Value y.
Proof.
  intros [Hl Hn] Hi. destruct (lookup_lt_is_Some_2 l i ltac:(lia)) as [y Hy]. exists y. unfold at_index. rewrite Hy. split; [done|].
  split; [by apply (limb_lookup l i)|done].
Qed.

Lemma set_limb {E} l i x y : wide_ok l -> l !! i = Some y -> limb x ->
  set_index (E := E) l i x = Value (<[i := x]> l) /\ wide_ok (<[i := x]> l) /\ wval (<[i := x]> l) = wval l + (x - y) * base i.
Proof.
  intros [Hl Hn] Hy Hx. unfold set_index. rewrite (proj2 (Nat.ltb_lt i (length l))) by (by apply lookup_lt_Some in Hy).
  split; [done|]. split; [|by apply wval_insert]. split; [by apply Forall_insert|by rewrite length_insert].
Qed.

(** The outcome of an accumulation whose mathematical value is [total]. *)
Definition accumulates (total : Z) (m : comp () (list Z)) : Prop :=
  match m with
  | Value l => wide_ok l /\ wval l = total
  | Error _ => 2 ^ 256 <= total
  | Crash => False
  end.

Lemma accumulates_bind (total total' : Z) m f :
  accumulates total m -> total <= total' -> (forall l, wide_ok l -> wval l = total -> accumulates total' (f l)) -> accumulates total' (m ≫= f).
Proof. intros Hm Hle Hf. destruct m; cbn in *; [naive_solver|lia|done]. Qed.

Lemma shiftr_64 z : Z.shiftr z 64 = z / B.
Proof. rewrite Z.shiftr_div_pow2 by lia. done. Qed.

Lemma u128_B z : z <= u128_MAX <-> z < B * B.
Proof. change u128_MAX with (B * B - 1). lia. Qed.

Lemma carry_limbs_spec fuel : forall index carry l, wide_ok l -> (index <= 4)%nat -> (5 <= index + fuel)%nat -> 0 <= carry <= u128_MAX ->
  accumulates (wval l + carry * base index) (carry_limbs fuel index carry l).
Proof.
  induction fuel as [|fuel IH]; intros index carry l Hl Hi Hf Hc; [lia|]. cbn [carry_limbs]. pose proof (base_pos index).
  destruct (Z.eqb_spec carry 0) as [->|Hc0]; [split; [done|lia]|]. destruct (Nat.eqb_spec index 4) as [->|Hi4].
  { pose proof (wide_range l Hl). rewrite base_4 in *. cbn. nia. }
  destruct (wrap_u64_spec carry) as (h & Eh & Hw & Hh). unfold overflowing_add_u64.
  destruct (get_limb (E := ()) l index Hl ltac:(lia)) as (x & Hlx & Hx & ->). cbn [mbind comp_bind].
  destruct (wrap_u64_spec (x + wrap_u64 carry)) as (k & Ek & Hv & Hk).
  assert (k = Z.b2z (u64_MAX <? x + wrap_u64 carry)) as Ek'.
  { unfold u64_MAX. change 18446744073709551615 with (B - 1). destruct (Z.ltb_spec (B - 1) (x + wrap_u64 carry)); cbn [Z.b2z]; nia. }
  destruct (set_limb (E := ()) l index _ x Hl Hlx Hv) as (-> & Hok & Hval). cbn [mbind comp_bind]. rewrite <- Ek', shiftr_64, <- Hh.
  pose proof (b2z_range (u64_MAX <? x + wrap_u64 carry)) as Hkr. rewrite <- Ek' in Hkr. rewrite u128_B in Hc.
  assert (0 <= h < B) by nia. unfold raw_add. rewrite (proj2 (Z.leb_le _ u128_MAX)) by (rewrite u128_B; unfold B in *; lia).
  cbn [mbind comp_bind]. replace (wval l + carry * base index) with (wval (<[index := wrap_u64 (x + wrap_u64 carry)]> l) + (h + k) * base (S index)).
  - apply IH; [done|lia|lia|]. rewrite u128_B. unfold B in *. lia.
  - rewrite Hval, base_S. replace (wrap_u64 (x + wrap_u64 carry) - x) with (wrap_u64 carry - B * k) by lia.
    apply (f_equal (fun z => z * base index)) in Eh. lia.
Qed.

(** A product of limbs with two more limbs added. *)
Lemma limb_mul x y u v : limb x -> limb y -> limb u -> limb v -> 0 <= x * y + u + v < B * B.
Proof. unfold B. nia. Qed.

Lemma checked_mul_ok a b : a * b < B * B -> checked_mul_u128 a b = Some (a * b).
Proof. intros H. unfold checked_mul_u128. by rewrite (proj2 (Z.leb_le _ _) (proj2 (u128_B _) H)). Qed.
Lemma checked_add_ok a b : a + b < B * B -> checked_add_u128 a b = Some (a + b).
Proof. intros H. unfold checked_add_u128. by rewrite (proj2 (Z.leb_le _ _) (proj2 (u128_B _) H)). Qed.

Lemma mul_row_spec left_limb rights : limb left_limb -> Forall (fun x => limb x) rights -> forall index carry l,
  wide_ok l -> (index + length rights <= 4)%nat -> limb carry ->
  match mul_row index left_limb rights carry l with
  | Value (l', c) => wide_ok l' /\ limb c /\
      wval l' + c * base (index + length rights) = wval l + (left_limb * wval rights + carry) * base index
  | _ => False
  end.
Proof.
  intros Hlf Hr. induction Hr as [|y rights Hy Hr IH]; intros index carry l Hl Hi Hc; cbn [mul_row].
  { cbn. rewrite Nat.add_0_r. split_and!; try done; lia. }
  cbn [length] in Hi. destruct (get_limb (E := ()) l index Hl ltac:(lia)) as (x & Hlx & Hx & ->). cbn [mbind comp_bind].
  pose proof (limb_mul left_limb y x carry Hlf Hy Hx Hc) as Hm. rewrite checked_mul_ok by lia. cbn [mbind option_bind].
  rewrite checked_add_ok by lia. cbn [mbind option_bind]. rewrite checked_add_ok by lia. cbn [ok_or_else mbind comp_bind].
  destruct (wrap_u64_spec (left_limb * y + x + carry)) as (k & Ek & Hv & Hk).
  set (value := left_limb * y + x + carry) in *. destruct (set_limb (E := ()) l index _ x Hl Hlx Hv) as (-> & Hok & Hval).
  cbn [mbind comp_bind]. rewrite shiftr_64, <- Hk. specialize (IH (S index) k _ Hok ltac:(lia) ltac:(unfold B in *; lia)).
  destruct (mul_row _ _ _ _ _) as [[l' c]| |]; try done. destruct IH as (H4 & H5 & H6). split; [done|split; [done|]].
  cbn [length]. rewrite Nat.add_succ_r. rewrite Nat.add_succ_l in H6. rewrite H6, Hval, wval_cons, base_S.
  replace (wrap_u64 value) with (value - B * k) by lia. unfold value. ring.
Qed.

Lemma mul_rows_spec rights lefts : Forall (fun x => limb x) rights -> length rights = 2%nat -> Forall (fun x => limb x) lefts ->
  forall left_index l, wide_ok l -> (left_index + length lefts <= 2)%nat ->
  accumulates (wval l + wval lefts * wval rights * base left_index) (mul_rows left_index lefts rights l).
Proof.
  intros Hr Hrn Hl. pose proof (wval_bound rights Hr). induction Hl as [|x lefts Hx Hl IH]; intros li l Hok Hi; cbn [mul_rows].
  { rewrite wval_nil. split; [done|lia]. }
  cbn [length] in Hi. pose proof (mul_row_spec x rights Hx Hr li 0 l Hok ltac:(lia) ltac:(done)) as Hm.
  destruct (mul_row li x rights 0 l) as [[l' c]| |]; try done. cbn [mbind comp_bind]. destruct Hm as (H1 & H2 & H3). rewrite Hrn in H3.
  pose proof (wval_bound lefts Hl). pose proof (base_pos li). rewrite wval_cons.
  eapply (accumulates_bind (wval l' + c * base (li + 2))); [apply carry_limbs_spec; try done; try lia; rewrite u128_B; unfold B in *; lia| |].
  - rewrite H3. assert (0 <= B * wval lefts * wval rights * base li) by (unfold B; repeat apply Z.mul_nonneg_nonneg; lia). lia.
  - intros l'' Hok'' Hv. replace (wval l + (x + B * wval lefts) * wval rights * base li) with (wval l'' + wval lefts * wval rights * base (S li)).
    + apply IH; [done|lia].
    + rewrite Hv, H3, base_S. ring.
Qed.

(** A 128-bit value as two limbs. *)
Lemma two_limbs z : in_u128 z -> Forall (fun x => limb x) [wrap_u64 z; wrap_u64 (Z.shiftr z 64)] /\ wval [wrap_u64 z; wrap_u64 (Z.shiftr z 64)] = z /\
  limb (Z.shiftr z 64).
Proof.
  intros [Hz Hz']. rewrite u128_B in Hz'. rewrite shiftr_64. destruct (wrap_u64_spec z) as (k & Ek & Hw & ->).
  assert (limb (z / B)) as Hh by (unfold B in *; lia). assert (wrap_u64 (z / B) = z / B) as E by (apply Z.mod_small; done). rewrite E.
  split; [constructor; [done|constructor; [done|apply Forall_nil_2]]|]. rewrite !wval_cons, wval_nil. split; [lia|done].
Qed.

(** [Wide::mul_u128] never fails: the product of two 128-bit values fits. *)
Lemma wide_mul_u128_spec a b : in_u128 a -> in_u128 b ->
  exists w, wide_mul_u128 a b = Value w /\ wide_ok (limbs w) /\ wval (limbs w) = a * b.
Proof.
  intros Ha Hb. destruct (two_limbs a Ha) as (Hfa & Hva & _). destruct (two_limbs b Hb) as (Hfb & Hvb & _). unfold wide_mul_u128.
  destruct wide_ZERO_ok as [Hz Hz0].
  pose proof (mul_rows_spec _ _ Hfb eq_refl Hfa 0 [0; 0; 0; 0] Hz ltac:(cbn; lia)) as H. rewrite Hva, Hvb, base_0 in H.
  change (wval [0; 0; 0; 0]) with 0 in H. destruct (mul_rows _ _ _ _) as [l|e|]; unfold accumulates in H.
  - exists (mkWide l). cbn [limbs]. split; [done|]. destruct H as [H1 H2]. split; [done|lia].
  - widths. nia.
  - done.
Qed.

(** The high half of a limb's product, and the carries beyond it. *)
Lemma add_high_spec l index high c : wide_ok l -> (index < 4)%nat -> 0 <= high -> limb c -> (forall y, limb y -> high + y + c < B * B) ->
  accumulates (wval l + (high + c) * base index)
    (y ← at_index l index;
     next ← ok_or_else (n ← checked_add_u128 high y; checked_add_u128 n c) tt;
     result ← set_index l index (wrap_u64 next);
     carry_limbs 4 (index + 1) (Z.shiftr next 64) result).
Proof.
  intros Hok Hi Hh Hc Hfit. destruct (get_limb (E := ()) l index Hok Hi) as (y & Hly & Hy & ->). cbn [mbind comp_bind].
  pose proof (Hfit y Hy). rewrite (checked_add_ok high y) by lia. cbn [mbind option_bind]. rewrite checked_add_ok by lia. cbn [ok_or_else mbind comp_bind].
  destruct (wrap_u64_spec (high + y + c)) as (k & Ek & Hv & Hk). destruct (set_limb (E := ()) l index _ y Hok Hly Hv) as (-> & Hok' & Hval).
  cbn [mbind comp_bind]. rewrite shiftr_64, <- Hk.
  replace (wval l + (high + c) * base index) with (wval (<[index := wrap_u64 (high + y + c)]> l) + k * base (index + 1)).
  - apply carry_limbs_spec; [done|lia|lia|]. rewrite u128_B. unfold B in *. lia.
  - rewrite Hval, Nat.add_1_r, base_S. replace (wrap_u64 (high + y + c)) with (high + y + c - B * k) by lia. ring.
Qed.

Lemma mul_limbs_spec right lefts : in_u128 right -> Forall (fun x => limb x) lefts -> forall index l,
  wide_ok l -> (index + length lefts = 4)%nat ->
  accumulates (wval l + wval lefts * right * base index) (mul_limbs index lefts right l).
Proof.
  intros Hr Hl. destruct (wrap_u64_spec right) as (h & Eh & Hw & Hh). destruct (two_limbs right Hr) as (_ & _ & Hs). rewrite shiftr_64, <- Hh in Hs.
  induction Hl as [|x lefts Hx Hl IH]; intros index l Hok Hi; cbn [mul_limbs]. { rewrite wval_nil. split; [done|lia]. }
  cbn [length] in Hi. rewrite !shiftr_64, <- Hh. destruct (get_limb (E := ()) l index Hok ltac:(lia)) as (r & Hlr & Hrr & ->).
  cbn [mbind comp_bind]. pose proof (limb_mul x (wrap_u64 right) r 0 Hx Hw Hrr ltac:(done)) as Hm. rewrite Z.add_0_r in Hm.
  rewrite (checked_mul_ok x (wrap_u64 right)) by lia. cbn [mbind option_bind]. rewrite checked_add_ok by lia. cbn [ok_or_else mbind comp_bind].
  set (product := x * wrap_u64 right + r) in *. destruct (wrap_u64_spec product) as (c & Ec & Hv & Hc).
  destruct (set_limb (E := ()) l index _ r Hok Hlr Hv) as (-> & Hok' & Hval). cbn [mbind comp_bind].
  pose proof (limb_mul x h 0 0 Hx Hs ltac:(done) ltac:(done)) as Hm'. rewrite !Z.add_0_r in Hm'. rewrite (checked_mul_ok x h) by lia.
  cbn [ok_or_else mbind comp_bind]. rewrite shiftr_64, <- Hc. set (l1 := <[index := wrap_u64 product]> l) in *. pose proof (base_pos index) as Hbp.
  assert (wval l + wval (x :: lefts) * right * base index = wval l1 + (x * h + c) * base (S index) + wval lefts * right * base (S index)) as Etot.
  { rewrite wval_cons, Hval, base_S. replace (wrap_u64 product) with (product - B * c) by lia.
    assert (x * right * base index = x * (wrap_u64 right + B * h) * base index) as E by (by rewrite <- Eh). unfold product. lia. }
  rewrite Etot. assert (0 <= wval lefts * right * base (S index)) as Hrest.
  { pose proof (wval_bound lefts Hl). pose proof (base_pos (S index)). destruct Hr. repeat apply Z.mul_nonneg_nonneg; lia. }
  assert (0 <= c < B) as Hcr by (unfold B in *; lia).
  destruct (Nat.leb_spec 4 (index + 1)) as [Hlast|Hmore]; cbn [andb].
  - assert (index = 3%nat) as -> by lia. destruct lefts; [|cbn in Hi; lia]. rewrite wval_nil. change (3 + 1 <? 4)%nat with false. cbn [andb].
    pose proof (wide_range l1 Hok'). rewrite base_4. cbn [mbind comp_bind mul_limbs].
    destruct (Z.eqb_spec (x * h) 0) as [->|Hn1], (Z.eqb_spec c 0) as [->|Hn2]; cbn [negb orb accumulates]; try lia. split; [done|lia].
  - rewrite (proj2 (Nat.ltb_lt _ _) Hmore). replace (index + 2)%nat with (S index + 1)%nat by lia. rewrite (Nat.add_1_r index).
    apply (accumulates_bind (wval l1 + (x * h + c) * base (S index))); [|lia|].
    + apply add_high_spec; [done|lia|lia|done|]. intros y Hy. apply (limb_mul x h y c); done.
    + intros l2 Hok2 <-. apply IH; [done|lia].
Qed.

(** [Wide::mul] is exact, and fails exactly when the product exceeds 256 bits. *)
Lemma wide_mul_spec w right : wide_ok (limbs w) -> in_u128 right ->
  match wide_mul w right with
  | Value r => wide_ok (limbs r) /\ wval (limbs r) = wval (limbs w) * right
  | Error _ => 2 ^ 256 <= wval (limbs w) * right
  | Crash => False
  end.
Proof.
  intros [Hf Hn] Hr. destruct wide_ZERO_ok as [Hz Hz0]. pose proof (mul_limbs_spec right (limbs w) Hr Hf 0 [0; 0; 0; 0] Hz Hn) as H.
  change (wval [0; 0; 0; 0]) with 0 in H. rewrite base_0, Z.add_0_l, Z.mul_1_r in H. unfold wide_mul. by destruct (mul_limbs _ _ _ _).
Qed.

(** ** Long division *)

(** A bit shifted in from below, as the loops write it. *)
Lemma push_bit w b : wide_ok (limbs w) ->
  let s := wide_shl1 w in
  exists x l, limbs s.2 = x :: l /\ wide_ok (Z.lor x (Z.b2z b) :: l) /\ wide_set_low_bit b s.2 = mkWide (Z.lor x (Z.b2z b) :: l) /\
    wval (Z.lor x (Z.b2z b) :: l) + 2 ^ 256 * Z.b2z s.1 = 2 * wval (limbs w) + Z.b2z b.
Proof.
  intros [Hl Hn]. unfold wide_shl1. destruct (limbs w) as [|y l] eqn:E; [done|]. inversion Hl as [|?? Hy Hl']; subst. cbn [shl1_limbs].
  destruct (shl_u64_low y false Hy) as [-> _]. destruct (shl_u64_spec y Hy) as (h & Eh & -> & Hs).
  pose proof (shl1_limbs_spec l (Z.testbit y 63) Hl') as Hrest. destruct (shl1_limbs l (Z.testbit y 63)) as [c r]. cbn [fst snd limbs Z.b2z] in *.
  rewrite Z.add_0_r in *. destruct Hrest as (Hv & Hf & Hr). exists (shl_u64 y 1), r. destruct (shl_u64_low y b Hy) as [Hlor Hlim]. split_and!.
  - done.
  - rewrite Hlor. split; [by constructor|]. cbn in Hn |- *. lia.
  - unfold wide_set_low_bit. cbn [limbs]. do 3 f_equal. pose proof (b2z_range (Z.testbit y 63)).
    assert (shl_u64 y 1 = 2 * (y - 2 ^ 63 * Z.b2z (Z.testbit y 63))) as -> by (unfold B in *; lia). apply Z.bits_inj'. intros k Hk.
    rewrite Z.ldiff_spec. destruct (Z.eq_dec k 0) as [->|]; [by rewrite Z.testbit_even_0|].
    rewrite (Z.bits_above_log2 1 k) by (try lia; change (Z.log2 1) with 0; lia). by rewrite andb_true_r.
  - rewrite Hlor, !wval_cons. cbn in Hn. injection Hn as Hn. rewrite Hn in Hv. change (2 ^ 256) with (B * base 3). nia.
Qed.

(** The quotient so far, one more bit. *)
Lemma push_quotient q b : wide_ok (limbs q) -> 2 * wval (limbs q) + Z.b2z b < 2 ^ 256 ->
  let q' := wide_set_low_bit b (wide_shl1 q).2 in wide_ok (limbs q') /\ wval (limbs q') = 2 * wval (limbs q) + Z.b2z b.
Proof.
  intros Hq Hlt. destruct (push_bit q b Hq) as (x & l & _ & Hok & -> & Hv). cbn [limbs]. pose proof (wide_range _ Hok).
  pose proof (b2z_range (wide_shl1 q).1). split; [done|]. destruct (wide_shl1 q).1; cbn [Z.b2z] in *; lia.
Qed.

Lemma div_wide_bit_spec w p r d : wide_ok (limbs w) -> (p < 256)%nat -> 0 <= r < d -> d <= u128_MAX ->
  let n := 2 * r + Z.b2z (Z.testbit (wval (limbs w)) (Z.of_nat p)) in
  div_wide_bit w p r d = Value (n / d, n mod d) /\ 0 <= n / d <= 1.
Proof.
  intros [Hf Hn] Hp Hr Hd n. unfold div_wide_bit. rewrite wide_bit_spec by (try done; rewrite Hn; lia). cbn [mbind comp_bind].
  pose proof (b2z_range (Z.testbit (wval (limbs w)) (Z.of_nat p))) as Hb.
  assert (0 <= n / d <= 1) as Hq by (split; [apply Z.div_pos; lia|apply Z.lt_succ_r, Z.div_lt_upper_bound; lia]). split; [|done].
  set (b := Z.testbit (wval (limbs w)) (Z.of_nat p)) in *. destruct (double_129 r 0) as [H0 _]; [lia..|]. destruct (double_129 r (Z.b2z b)) as [H1 H2]; [lia..|].
  assert (Z.lor (shl_u128 r 1) (Z.b2z b) = shl_u128 r 1 + Z.b2z b) as ->.
  { assert (shl_u128 r 1 = 2 * (r - Z.b2z (Z.testbit r 127) * 2 ^ 127)) as -> by lia. apply lor_double. }
  rewrite checked_div_129_spec by (exact H2 || lia). rewrite H1. fold n. by rewrite (proj2 (Z.leb_le _ u128_MAX)) by (widths; lia).
Qed.

(** The bits above position [p] of a 256-bit number. *)
Lemma prefix_256 n : 0 <= n < 2 ^ 256 -> n / 2 ^ Z.of_nat 256 = 0.
Proof. intros Hn. apply Z.div_small. change (Z.of_nat 256) with 256. lia. Qed.

Lemma prefix_bits n p : 0 <= n -> n / 2 ^ Z.of_nat p = 2 * (n / 2 ^ Z.of_nat (S p)) + Z.b2z (Z.testbit n (Z.of_nat p)).
Proof. intros Hn. rewrite Nat2Z.inj_succ, <- Z.add_1_r. apply prefix_step. lia. Qed.

Lemma prefix_div_bound n d p : 0 <= n < 2 ^ 256 -> 0 < d -> 0 <= n / 2 ^ Z.of_nat p / d < 2 ^ 256.
Proof.
  intros Hn Hd. assert (0 < 2 ^ Z.of_nat p) by (apply Z.pow_pos_nonneg; lia). assert (0 <= n / 2 ^ Z.of_nat p <= n).
  { split; [by apply Z.div_pos; lia|]. apply Z.div_le_upper_bound; nia. }
  split; [by apply Z.div_pos; lia|]. apply Z.div_lt_upper_bound; nia.
Qed.

Lemma div_exact_loop_spec w d : wide_ok (limbs w) -> 0 < d <= u128_MAX -> forall positions q, (positions <= 256)%nat ->
  let m := wval (limbs w) / 2 ^ Z.of_nat positions in
  wide_ok (limbs q) -> wval (limbs q) = m / d ->
  exists q', div_exact_loop positions w d q (m mod d) = Value (q', wval (limbs w) mod d) /\ wide_ok (limbs q') /\ wval (limbs q') = wval (limbs w) / d.
Proof.
  intros Hw Hd. pose proof (wide_range _ Hw) as Hn. set (n := wval (limbs w)) in *. induction positions as [|p IH]; intros q Hp m Hq Hv.
  { subst m. change (2 ^ Z.of_nat 0) with 1 in *. rewrite Z.div_1_r in *. exists q. done. }
  cbn [div_exact_loop]. subst m. set (m := n / 2 ^ Z.of_nat (S p)) in *. pose proof (Z.mod_pos_bound m d ltac:(lia)) as Hmd.
  destruct (div_wide_bit_spec w p (m mod d) d Hw ltac:(lia) ltac:(lia) ltac:(lia)) as [-> Hb]. fold n in Hb |- *. cbn [mbind comp_bind].
  set (b := Z.b2z (Z.testbit n (Z.of_nat p))) in *. pose proof (b2z_range (Z.testbit n (Z.of_nat p))) as Hbr. fold b in Hbr.
  destruct (division_step m d b ltac:(lia) ltac:(lia)) as [E1 E2]. rewrite <- E2. rewrite (proj2 (Z.ltb_ge 1 _)) by lia.
  pose proof (prefix_bits n p ltac:(lia)) as Epre. fold b m in Epre. pose proof (prefix_div_bound n d p Hn ltac:(lia)) as Hbound.
  set (bit := negb ((2 * (m mod d) + b) / d =? 0)). assert ((2 * (m mod d) + b) / d = Z.b2z bit) as Ebit.
  { unfold bit. destruct (Z.eqb_spec ((2 * (m mod d) + b) / d) 0); cbn; lia. }
  destruct (push_quotient q bit Hq) as [Hok Hval]; [rewrite Hv, <- Ebit, <- E1, <- Epre; lia|].
  rewrite <- Epre. apply IH; [lia|done|]. rewrite Hval, Hv, <- Ebit, <- E1, <- Epre. done.
Qed.

Lemma wide_div_exact_spec w d : wide_ok (limbs w) -> 0 < d <= u128_MAX -> wval (limbs w) mod d = 0 ->
  exists q, wide_div_exact_u128 w d = Value q /\ wide_ok (limbs q) /\ wval (limbs q) = wval (limbs w) / d.
Proof.
  intros Hw Hd He. unfold wide_div_exact_u128. rewrite (proj2 (Z.eqb_neq d 0)) by lia. destruct wide_ZERO_ok as [Hz Hz0].
  destruct (div_exact_loop_spec w d Hw Hd 256 wide_ZERO) as (q & E & Hok & Hval);
    [lia|done|rewrite (prefix_256 _ (wide_range _ Hw)); by rewrite Z.div_0_l by lia|].
  rewrite (prefix_256 _ (wide_range _ Hw)), Z.mod_0_l in E by lia. rewrite E. cbn [mbind comp_bind]. rewrite He, Z.eqb_refl. by exists q.
Qed.

Lemma rem_loop_spec w d : wide_ok (limbs w) -> 0 < d <= u128_MAX -> forall positions, (positions <= 256)%nat ->
  rem_loop positions w d ((wval (limbs w) / 2 ^ Z.of_nat positions) mod d) = Value (wval (limbs w) mod d).
Proof.
  intros Hw Hd. pose proof (wide_range _ Hw) as Hn. set (n := wval (limbs w)) in *. induction positions as [|p IH]; intros Hp.
  { change (2 ^ Z.of_nat 0) with 1. by rewrite Z.div_1_r. }
  cbn [rem_loop]. set (m := n / 2 ^ Z.of_nat (S p)) in *. pose proof (Z.mod_pos_bound m d ltac:(lia)).
  destruct (div_wide_bit_spec w p (m mod d) d Hw ltac:(lia) ltac:(lia) ltac:(lia)) as [-> _]. fold n. cbn [mbind comp_bind].
  destruct (division_step m d (Z.b2z (Z.testbit n (Z.of_nat p))) ltac:(lia) (proj1 (b2z_range _))) as [_ <-].
  rewrite <- IH by lia. do 2 f_equal. symmetry. apply prefix_bits. lia.
Qed.

Lemma wide_rem_spec w d : wide_ok (limbs w) -> 0 < d <= u128_MAX -> wide_rem_u128 w d = Value (wval (limbs w) mod d).
Proof.
  intros Hw Hd. unfold wide_rem_u128. rewrite (proj2 (Z.eqb_neq d 0)) by lia. rewrite <- (rem_loop_spec w d Hw Hd 256) by lia.
  by rewrite (prefix_256 _ (wide_range _ Hw)), Z.mod_0_l by lia.
Qed.

(** ** The ratio *)

(** One step of the long division: the remainder after the next bit. *)
Lemma ratio_step r d b : wide_ok (limbs r) -> wide_ok (limbs d) -> wval (limbs r) < wval (limbs d) ->
  let s := wide_shl1 r in
  exists x l, limbs s.2 = x :: l /\
  let t := 2 * wval (limbs r) + Z.b2z b in let shifted := mkWide (Z.lor x (Z.b2z b) :: l) in
  wide_ge (E := ModelError) shifted d = Value (wval (limbs d) <=? wval (limbs shifted)) /\
  s.1 || (wval (limbs d) <=? wval (limbs shifted)) = (wval (limbs d) <=? t) /\
  let r' := if wval (limbs d) <=? t then wide_wrapping_sub shifted d else shifted in
  wide_ok (limbs r') /\ wval (limbs r') = t mod wval (limbs d).
Proof.
  intros Hr Hd Hlt s. destruct (push_bit r b Hr) as (x & l & Ex & Hok & _ & Hv). exists x, l. split; [done|]. cbv zeta.
  pose proof (wide_range _ Hr). pose proof (wide_range _ Hd). pose proof (wide_range _ Hok). pose proof (b2z_range b).
  change (limbs (mkWide (Z.lor x (Z.b2z b) :: l))) with (Z.lor x (Z.b2z b) :: l). set (t := 2 * wval (limbs r) + Z.b2z b) in *.
  set (sh := wval (Z.lor x (Z.b2z b) :: l)) in *. split; [by apply wide_ge_spec|]. fold s in Hv. split.
  - destruct s.1; cbn [Z.b2z orb] in *.
    + symmetry. apply Z.leb_le. lia.
    + f_equal. lia.
  - destruct (Z.leb_spec (wval (limbs d)) t).
    + destruct (wide_sub_spec (mkWide (Z.lor x (Z.b2z b) :: l)) d Hok Hd) as [Hok' ->]. split; [done|]. cbn [limbs]. fold sh.
      rewrite <- (Z.mod_unique t (wval (limbs d)) 1 (t - wval (limbs d))) by lia.
      symmetry. apply (Z.mod_unique _ _ (- Z.b2z s.1)); lia.
    + split; [done|]. rewrite Z.mod_small by lia. cbn [limbs]. fold sh. destruct s.1; cbn [Z.b2z] in *; lia.
Qed.

Lemma ratio_loop_spec w d : wide_ok (limbs w) -> wide_ok (limbs d) -> 0 < wval (limbs d) -> forall positions q r, (positions <= 256)%nat ->
  let m := wval (limbs w) / 2 ^ Z.of_nat positions in
  wide_ok (limbs q) -> wide_ok (limbs r) -> wval (limbs q) = m / wval (limbs d) -> wval (limbs r) = m mod wval (limbs d) ->
  exists q' r', ratio_loop positions w d q r = Value (q', r') /\ wide_ok (limbs q') /\ wide_ok (limbs r') /\
    wval (limbs q') = wval (limbs w) / wval (limbs d) /\ wval (limbs r') = wval (limbs w) mod wval (limbs d).
Proof.
  intros Hw Hd Hd0. pose proof (wide_range _ Hw) as Hn. set (n := wval (limbs w)) in *. set (dv := wval (limbs d)) in *.
  induction positions as [|p IH]; intros q r Hp m Hq Hr Hvq Hvr.
  { subst m. change (2 ^ Z.of_nat 0) with 1 in *. rewrite Z.div_1_r in *. exists q, r. done. }
  cbn [ratio_loop]. subst m. set (m := n / 2 ^ Z.of_nat (S p)) in *. pose proof (Z.mod_pos_bound m dv ltac:(lia)) as Hmd.
  set (b := Z.testbit n (Z.of_nat p)). destruct (ratio_step r d b Hr Hd ltac:(rewrite Hvr; fold dv; lia)) as (x & l & Ex & Hge & Hbit & Hok & Hval).
  rewrite wide_bit_spec by (first [apply Hw|rewrite (proj2 Hw); lia]). fold n b. destruct (wide_shl1 r) as [carry s]. cbn [fst snd mbind comp_bind] in *.
  rewrite Ex, Hge. cbn [mbind comp_bind]. fold dv in Hbit, Hok, Hval |- *. rewrite Hbit, Hvr. rewrite Hvr in Hok, Hval.
  pose proof (quotient_bit dv (m mod dv) b ltac:(lia) ltac:(lia)) as Eq. set (bit := dv <=? 2 * (m mod dv) + Z.b2z b) in *.
  destruct (division_step m dv (Z.b2z b) ltac:(lia) (proj1 (b2z_range _))) as [E1 E2].
  pose proof (prefix_bits n p ltac:(lia)) as Epre. fold b m in Epre. pose proof (prefix_div_bound n dv p Hn ltac:(lia)) as Hbound.
  destruct (push_quotient q bit Hq) as [Hok' Hval']; [rewrite Hvq, Eq, <- E1, <- Epre; lia|]. apply IH; [lia|done|done| |].
  - rewrite Hval', Hvq, Eq, <- E1, <- Epre. done.
  - rewrite Hval, <- E2, <- Epre. done.
Qed.

Lemma wide_low_spec w : wide_ok (limbs w) ->
  wide_low_u128 w = if wval (limbs w) <=? u128_MAX then Value (wval (limbs w)) else Error ArithmeticExhausted.
Proof.
  intros [Hf Hn]. unfold wide_low_u128, at_index. destruct (limbs w) as [|x0 [|x1 [|x2 [|x3 [|]]]]]; try done.
  repeat match goal with H : Forall _ (_ :: _) |- _ => inversion H; clear H; subst end. cbn [lookup list_lookup mbind comp_bind].
  rewrite !wval_cons, wval_nil. destruct (Z.eqb_spec x2 0) as [->|], (Z.eqb_spec x3 0) as [->|]; cbn [negb orb].
  2-4: rewrite (proj2 (Z.leb_gt _ u128_MAX)) by (change u128_MAX with (B * B - 1); unfold B in *; lia); done.
  rewrite (proj2 (Z.leb_le _ u128_MAX)) by (change u128_MAX with (B * B - 1); unfold B in *; lia). cbn [mret comp_ret]. f_equal.
  assert (shl_u128 x1 64 = x1 * 2 ^ 64) as ->.
  { unfold shl_u128, wrap_u128. rewrite Z.shiftl_mul_pow2 by lia. apply Z.mod_small. unfold B in *. lia. }
  rewrite lor_add by (try lia; change (2 ^ 64) with B; lia). change (2 ^ 64) with B. lia.
Qed.

(** ** Cancellation *)

Definition product (l : list Z) : Z := foldr Z.mul 1 l.

Lemma product_cons x l : product (x :: l) = x * product l.
Proof. done. Qed.
Lemma product_pos l : Forall (fun x => 0 < x <= u128_MAX) l -> 0 < product l.
Proof. induction 1 as [|x l Hx _ IH]; [done|]. rewrite product_cons. lia. Qed.
Lemma product_nonneg l : Forall in_u128 l -> 0 <= product l.
Proof. induction 1 as [|x l Hx _ IH]; [done|]. rewrite product_cons. destruct Hx. lia. Qed.

(** Divisors of coprime numbers are coprime, and so are products. *)
Lemma coprime_divisor a a' b b' : (a' | a) -> (b' | b) -> Z.gcd a b = 1 -> Z.gcd a' b' = 1.
Proof.
  intros Ha Hb Hg. pose proof (Z.gcd_nonneg a' b'). assert (Z.gcd a' b' | 1) as Hd.
  { rewrite <- Hg. apply Z.gcd_greatest; [exact (Z.divide_trans _ _ _ (Z.gcd_divide_l _ _) Ha)|exact (Z.divide_trans _ _ _ (Z.gcd_divide_r _ _) Hb)]. }
  apply Z.divide_1_r in Hd. lia.
Qed.
Lemma coprime_product n l : Forall (fun d => Z.gcd n d = 1) l -> Z.gcd n (product l) = 1.
Proof. induction 1 as [|d l Hd _ IH]; [apply Z.gcd_1_r|]. rewrite product_cons. by apply Z.coprime_mul_r. Qed.
Lemma coprime_products ns ds : Forall (fun n => Forall (fun d => Z.gcd n d = 1) ds) ns -> Z.gcd (product ns) (product ds) = 1.
Proof.
  intros H. rewrite Z.gcd_comm. apply coprime_product. eapply Forall_impl; [exact H|]. intros n Hn. rewrite Z.gcd_comm. by apply coprime_product.
Qed.
Lemma Forall_coprime_divisors n ds' ds : Forall2 Z.divide ds' ds -> Forall (fun d => Z.gcd n d = 1) ds -> Forall (fun d => Z.gcd n d = 1) ds'.
Proof.
  induction 1 as [|d' d ds' ds Hd _ IH]; intros H; [constructor|]. apply Forall_cons in H as [H1 H2]. constructor; [|auto].
  by apply (coprime_divisor n n d d').
Qed.

Lemma cancel_one_spec ds : Forall (fun d => 0 < d <= u128_MAX) ds -> forall n, in_u128 n ->
  exists n' ds' g, cancel_one n ds = Value (n', ds') /\ 0 < g /\ n = g * n' /\ product ds = g * product ds' /\
    in_u128 n' /\ Forall (fun d => 0 < d <= u128_MAX) ds' /\ length ds' = length ds /\
    Forall2 Z.divide ds' ds /\ Forall (fun d => Z.gcd n' d = 1) ds'.
Proof.
  induction 1 as [|d ds Hd Hds IH]; intros n Hn; cbn [cancel_one].
  { exists n, [], 1. split; [done|]. split_and!; try done; try constructor; lia. }
  rewrite gcd_u128_spec by (destruct Hn; widths; lia). cbn [mbind comp_bind]. pose proof (Z.gcd_nonneg n d).
  assert (0 < Z.gcd n d) as Hg by (destruct (Z.eq_dec (Z.gcd n d) 0) as [E|]; [apply Z.gcd_eq_0_r in E; lia|lia]).
  unfold raw_div. rewrite (proj2 (Z.eqb_neq _ 0)) by lia. cbn [mbind comp_bind].
  destruct (Z.gcd_divide_l n d) as [a Ea], (Z.gcd_divide_r n d) as [c Ec]. set (g := Z.gcd n d) in *.
  assert (n / g = a) as -> by (rewrite Ea; apply Z.div_mul; lia). assert (d / g = c) as -> by (rewrite Ec; apply Z.div_mul; lia).
  assert (in_u128 a) as Ha by (destruct Hn; split; nia). destruct (IH a Ha) as (n' & ds' & g' & -> & Hg' & En & Ep & Hn' & Hds' & Hlen & Hdiv & Hco).
  cbn [mbind comp_bind mret comp_ret]. exists n', (c :: ds'), (g * g'). split; [done|]. rewrite !product_cons, Ep. split_and!; try done; try nia.
  - constructor; [|done]. split; nia.
  - cbn. by rewrite Hlen.
  - constructor; [|done]. exists g. lia.
  - constructor; [|done]. apply (coprime_divisor a n' c c); [exists g'; lia|exists 1; lia|].
    apply Z.mul_cancel_l with (p := g); [lia|]. rewrite <- Z.gcd_mul_mono_l_nonneg, (Z.mul_comm g a), (Z.mul_comm g c), <- Ea, <- Ec by lia. lia.
Qed.

Lemma cancel_all_spec ns : Forall in_u128 ns -> forall ds, Forall (fun d => 0 < d <= u128_MAX) ds ->
  exists ns' ds' g, cancel_all ns ds = Value (ns', ds') /\ 0 < g /\ product ns = g * product ns' /\ product ds = g * product ds' /\
    Forall in_u128 ns' /\ length ns' = length ns /\ Forall (fun d => 0 < d <= u128_MAX) ds' /\ length ds' = length ds /\
    Forall2 Z.divide ds' ds /\ Forall (fun n => Forall (fun d => Z.gcd n d = 1) ds') ns'.
Proof.
  induction 1 as [|n ns Hn Hns IH]; intros ds Hds; cbn [cancel_all].
  { exists [], ds, 1. split; [done|]. split_and!; try done; first [lia|apply Forall2_diag; intros d _; apply Z.divide_refl]. }
  destruct (cancel_one_spec ds Hds n Hn) as (n' & ds1 & g1 & -> & Hg1 & En & Ep1 & Hn' & Hds1 & Hl1 & Hdiv1 & Hco1). cbn [mbind comp_bind].
  destruct (IH ds1 Hds1) as (ns' & ds' & g2 & -> & Hg2 & En2 & Ep2 & Hns' & Hln & Hds' & Hld & Hdiv2 & Hco2). cbn [mbind comp_bind mret comp_ret].
  exists (n' :: ns'), ds', (g1 * g2). split; [done|]. rewrite !product_cons. split; [lia|].
  split; [rewrite En, En2; ring|]. split; [rewrite Ep1, Ep2; ring|]. split; [by constructor|]. cbn [length]. split; [by rewrite Hln|]. split; [done|].
  split; [by rewrite Hld, Hl1|]. split; [by etrans|]. constructor; [by eapply Forall_coprime_divisors|done].
Qed.

Lemma checked_product_spec l : Forall in_u128 l -> forall v, in_u128 v ->
  match checked_product v l with Some p => p = v * product l /\ in_u128 p | None => True end.
Proof.
  induction 1 as [|x l Hx Hl IH]; intros v Hv; cbn [checked_product]. { split; [cbn; lia|done]. }
  unfold checked_mul_u128. destruct (Z.leb_spec (v * x) u128_MAX); cbn [mbind option_bind]; [|done].
  assert (in_u128 (v * x)) as Hvx by (destruct Hv, Hx; split; lia). specialize (IH _ Hvx). destruct (checked_product (v * x) l); [|done].
  rewrite product_cons. split; [lia|apply IH].
Qed.

(** The 256-bit path: the quotient of two products, rounded up. *)
Lemma wide_ratio_spec N D : wide_ok (limbs N) -> wide_ok (limbs D) -> 0 < wval (limbs D) ->
  let n := wval (limbs N) in let d := wval (limbs D) in
  ('(quotient, remainder) ← ratio_loop 256 N D wide_ZERO wide_ZERO;
   quotient ← (if bool_decide (limbs remainder = limbs wide_ZERO) then mret quotient
               else ok_or_else (wide_checked_add_one quotient) ArithmeticExhausted);
   wide_low_u128 quotient) = if cdiv n d <=? u128_MAX then Value (cdiv n d) else Error ArithmeticExhausted.
Proof.
  intros HN HD Hd n d. destruct wide_ZERO_ok as [Hz Hz0].
  destruct (ratio_loop_spec N D HN HD Hd 256 wide_ZERO wide_ZERO) as (q & r & -> & Hq & Hr & Hvq & Hvr);
    [lia|done|done|rewrite (prefix_256 _ (wide_range _ HN)); by rewrite Z.div_0_l by lia|
     rewrite (prefix_256 _ (wide_range _ HN)); by rewrite Z.mod_0_l by lia|].
  cbn [mbind comp_bind]. fold n d in Hvq, Hvr. rewrite (cdiv_spec n d Hd). case_bool_decide as Ez.
  - rewrite Ez, Hz0 in Hvr. rewrite <- Hvr. cbn [mbind comp_bind mret comp_ret Z.eqb]. rewrite wide_low_spec, Hvq by done. done.
  - assert (n mod d <> 0) as Hm.
    { intros E. apply Ez. rewrite E in Hvr. destruct Hr as [Hf Hn4]. destruct (limbs r) as [|x0 [|x1 [|x2 [|x3 [|]]]]]; try done.
      repeat match goal with H : Forall _ (_ :: _) |- _ => inversion H; clear H; subst end.
      rewrite !wval_cons, wval_nil in Hvr. cbn. unfold B in *. repeat f_equal; lia. }
    rewrite (proj2 (Z.eqb_neq _ 0)) by done. unfold wide_checked_add_one. pose proof (add_one_spec (limbs q) (proj1 Hq)) as Ha.
    destruct (add_one_limbs (limbs q)) as [l|]; cbn [fmap option_fmap option_map ok_or_else mbind comp_bind].
    + destruct Ha as (Hv & Hf & Hl). rewrite wide_low_spec by (cbn [limbs]; split; [done|by rewrite Hl, (proj2 Hq)]). cbn [limbs]. by rewrite Hv, Hvq.
    + rewrite (proj2 Hq), base_4, Hvq in Ha. rewrite Ha. by rewrite (proj2 (Z.leb_gt _ u128_MAX)) by done.
Qed.

(** The factors through 256 bits. *)
Lemma wide_factors_spec a b c d e : in_u128 a -> in_u128 b -> in_u128 c -> 0 < d <= u128_MAX -> 0 < e <= u128_MAX ->
  let m := numerator ← or_error (w ← wide_mul_u128 a b; wide_mul w c) ArithmeticExhausted;
           denominator ← or_error (wide_mul_u128 d e) ArithmeticExhausted;
           '(quotient, remainder) ← ratio_loop 256 numerator denominator wide_ZERO wide_ZERO;
           quotient ← (if bool_decide (limbs remainder = limbs wide_ZERO) then mret quotient
                       else ok_or_else (wide_checked_add_one quotient) ArithmeticExhausted);
           wide_low_u128 quotient in
  m = if (a * b * c <? 2 ^ 256) && (cdiv (a * b * c) (d * e) <=? u128_MAX) then Value (cdiv (a * b * c) (d * e)) else Error ArithmeticExhausted.
Proof.
  intros Ha Hb Hc Hd He. destruct (wide_mul_u128_spec a b Ha Hb) as (w & -> & Hw & Hvw).
  destruct (wide_mul_u128_spec d e ltac:(split; lia) ltac:(split; lia)) as (D & -> & HD & HvD). cbn [mbind comp_bind or_error].
  pose proof (wide_mul_spec w c Hw Hc) as Hm. rewrite Hvw in Hm. destruct (wide_mul w c) as [N|u|]; cbn [or_error mbind comp_bind];
    [|by rewrite (proj2 (Z.ltb_ge _ _) Hm)|done].
  destruct Hm as [HN HvN]. rewrite <- HvN, <- HvD. pose proof (wide_range _ HN) as [_ Hlt]. rewrite (proj2 (Z.ltb_lt _ _) Hlt).
  apply wide_ratio_spec; [done..|]. rewrite HvD. lia.
Qed.

(** The cancelled numerator: the fraction in lowest terms *)
Lemma lowest_numerator g n d n' d' : 0 < g -> 0 < d' -> n = g * n' -> d = g * d' -> Z.gcd n' d' = 1 -> n / Z.gcd n d = n'.
Proof.
  intros Hg Hd -> -> Hco. rewrite Z.gcd_mul_mono_l_nonneg, Hco, Z.mul_1_r by lia. rewrite Z.mul_comm. apply Z.div_mul. lia.
Qed.

(** [checked_ratio_ceil] is [ceil (n0 n1 n2 / (d0 d1))]: it fails exactly when
    the quotient does not fit, or the numerator of the fraction in lowest terms
    exceeds 256 bits. *)
Lemma checked_ratio_ceil_exact n0 n1 n2 d0 d1 : in_u128 n0 -> in_u128 n1 -> in_u128 n2 -> 0 < d0 <= u128_MAX -> 0 < d1 <= u128_MAX ->
  let n := n0 * n1 * n2 in let d := d0 * d1 in
  checked_ratio_ceil n0 n1 n2 d0 d1 =
    if (n / Z.gcd n d <? 2 ^ 256) && (cdiv n d <=? u128_MAX) then Value (cdiv n d) else Error ArithmeticExhausted.
Proof.
  intros H0 H1 H2 K0 K1 nn dd. unfold checked_ratio_ceil.
  destruct (cancel_all_spec [n0; n1; n2] ltac:(by rewrite !Forall_cons) [d0; d1] ltac:(by rewrite !Forall_cons))
    as (ns & ds & g & -> & Hg & En & Ed & Hns & Hln & Hds & Hld & _ & Hco).
  cbn [mbind comp_bind]. pose proof (product_pos ds Hds) as Hpos. pose proof (product_nonneg ns Hns) as Hnn.
  assert (nn = g * product ns) as En' by (unfold nn; cbn in En; lia). assert (dd = g * product ds) as Ed' by (unfold dd; cbn in Ed; lia).
  rewrite (lowest_numerator g nn dd (product ns) (product ds)) by (done || by apply coprime_products).
  assert (cdiv nn dd = cdiv (product ns) (product ds)) as -> by (rewrite En', Ed'; apply cdiv_cancel; lia).
  pose proof (checked_product_spec ns Hns 1 ltac:(done)) as Pn.
  pose proof (checked_product_spec ds (Forall_impl _ _ _ Hds (fun d Hd => conj (Z.lt_le_incl _ _ (proj1 Hd)) (proj2 Hd))) 1 ltac:(done)) as Pd. rewrite Z.mul_1_l in Pn, Pd.
  clear En Ed En' Ed' Hco. destruct ns as [|a [|b [|c [|]]]], ds as [|d [|e [|]]]; try done.
  apply Forall_cons in Hns as [Ha Hns], Hds as [Hd Hds]. apply Forall_cons in Hns as [Hb Hns], Hds as [He _]. apply Forall_cons in Hns as [Hc _].
  pose proof (wide_factors_spec a b c d e Ha Hb Hc Hd He) as Hwide. cbn [product foldr] in *. rewrite !Z.mul_1_r, Z.mul_assoc in *.
  cbn [at_index lookup list_lookup mbind comp_bind] in *.
  destruct (checked_product 1 [a; b; c]) as [n|], (checked_product 1 [d; e]) as [dn|]; try exact Hwide.
  destruct Pn as [-> Hn], Pd as [-> Hdn]. rewrite checked_ceil_div_spec by done. pose proof (cdiv_bounds (a * b * c) (d * e) Hpos).
  assert (cdiv (a * b * c) (d * e) <= u128_MAX) as Hq by (destruct Hn; nia). rewrite (proj2 (Z.leb_le _ _) Hq).
  rewrite (proj2 (Z.ltb_lt _ (2 ^ 256))) by (destruct Hn; unfold u128_MAX in *; lia). done.
Qed.
