(* ===== verification/EevdfModel.v ===== *)
(** The EEVDF value layer ([crates/thekernel-axsched/src/eevdf_model.rs] and
    [eevdf_profile.rs]): requests, the virtual clock and entities.

    A method that takes [&self] is a function that ends in a value, an error or
    a crash; a method that takes [&mut self] is a method over the state it
    mutates, which keeps what was written before an error. *)

From stdpp Require Import strings.
From S2P Require Import Prelude Effects EevdfMath.
Local Open Scope Z_scope.

(** ** Profiles *)

Record EevdfProfile : Type := mkProfile {
  profile_name : string;
  normal_target_ticks : Z;
  batch_target_ticks : Z;
  idle_target_ticks : Z;
  sleeper_grace_ticks : Z;
  sleeper_decay_ticks : Z;
}.

(** [value.wrapping_sub(1)] *)
Definition is_power_of_two (value : Z) : bool := negb (value =? 0) && (Z.land value (wrap_u128 (value - 1)) =? 0).
Definition has_power_of_two_parameters (p : EevdfProfile) : bool :=
  is_power_of_two (normal_target_ticks p) && is_power_of_two (batch_target_ticks p) && is_power_of_two (idle_target_ticks p)
  && is_power_of_two (sleeper_grace_ticks p) && is_power_of_two (sleeper_decay_ticks p).

(** The profile selected by the build features [eevdf-latency] and
    [eevdf-throughput]; a build with both is rejected. *)
Definition EEVDF_PROFILE (latency throughput : bool) : EevdfProfile :=
  match latency, throughput with
  | true, false => mkProfile "latency"%string 4 16 4 4 32
  | false, true => mkProfile "throughput"%string 16 64 16 16 128
  | false, false => mkProfile "balanced"%string 8 32 8 8 64
  | true, true => mkProfile "invalid-profile-selection"%string 0 0 0 0 0
  end.

(** ** Constants and classes *)

Definition FP_SHIFT : Z := 32.
Definition ONE : Z := 4294967296.
Definition NICE_0 : Z := 1024.
Definition WORK : Z := 4398046511104.

Inductive RequestClass : Type := Normal | Batch | Idle.
#[export] Instance RequestClass_eq_dec : EqDecision RequestClass.
Proof. solve_decision. Defined.

(** A method run on a copy of its state ([let mut next = *self]) *)
Definition on_copy {S E A} (m : M S E A) (s : S) : comp E S :=
  match m s with Done _ s => Value s | Fail e _ => Error e | Panic | Diverged => Crash end.
(** The state a method is called in *)
Definition get {S E} : M S E S := fun s => Done s s.
(** A computation inside a method *)
Definition run {S E A} (m : comp E A) : M S E A := fun s =>
  match m with Value a => Done a s | Error e => Fail e s | Crash => Panic end.

Section Model.
Context (profile : EevdfProfile).

(** The profile's constants are small, so their products do not overflow. *)
Definition GRACE : Z := as_i128 (sleeper_grace_ticks profile * ONE).
Definition DECAY_WINDOW : Z := as_i128 (sleeper_decay_ticks profile * ONE).

Definition target_ticks (class : RequestClass) : Z :=
  match class with
  | Normal => normal_target_ticks profile
  | Batch => batch_target_ticks profile
  | Idle => idle_target_ticks profile
  end.
Definition target_q (class : RequestClass) : Z := target_ticks class.

(** ** Formulas *)

Definition checked_work (ticks : Z) : model Z :=
  work ← ok_or_else (checked_mul_u128 ticks WORK) ArithmeticExhausted; checked_i128 work.

Definition checked_virtual_length (q weight : Z) : model Z :=
  if weight =? 0 then Error InvalidWeight else length ← checked_mul_div_ceil q WORK weight; checked_i128 length.

Definition checked_lag_at (lag stamp weight v : Z) : model Z :=
  if weight =? 0 then Error InvalidWeight
  else
    delta ← ok_or_else (checked_sub_i128 v stamp) ArithmeticExhausted;
    change ← checked_mul_i128_u128 delta weight;
    ok_or_else (checked_add_i128 lag change) ArithmeticExhausted.

Definition checked_deadline (start length : Z) : model Z := ok_or_else (checked_add_i128 start length) ArithmeticExhausted.

Definition request_quantum (class : RequestClass) (weight total_weight : Z) : model Z :=
  if (weight =? 0) || (total_weight =? 0) then Error InvalidWeight
  else
    let target := target_ticks class in
    if total_weight <=? weight then Value target
    else
      q ← checked_mul_div_ceil target weight total_weight;
      mret (Z.min (Z.max q 1) target).

(** [-(quotient as i128)] for a quotient of a nonnegative value *)
Definition signed_ceil_neg_div (value denominator : Z) : model Z :=
  if denominator =? 0 then Error InvalidWeight
  else
    let magnitude := Z.abs value in
    if 0 <=? value then
      quotient ← raw_div magnitude denominator;
      if quotient =? 0 then mret 0 else mret (- as_i128 quotient)
    else quotient ← checked_ceil_div magnitude denominator; checked_i128 quotient.

Definition request_start (v materialized_lag weight : Z) : model Z :=
  offset ← signed_ceil_neg_div materialized_lag weight;
  ok_or_else (checked_add_i128 v offset) ArithmeticExhausted.

(** ** Requests *)

Record Request : Type := mkRequest {
  req_class : RequestClass;
  req_q : Z;
  remaining_ticks : Z;
  remaining_work : Z;
  fraction_num : Z;
  fraction_den : Z;
  virtual_length : Z;
  req_start : Z;
  req_deadline : Z;
}.

(** [Request::projection] *)
Definition projection (q num den : Z) : model (Z * Z) :=
  if (q =? 0) || (den =? 0) || (den <? num) then Error InvalidState
  else
    '(whole_ticks, fractional_ticks) ← checked_mul_div_rem num q den;
    fractional_work ← (if fractional_ticks =? 0 then mret 0 else checked_mul_div_ceil fractional_ticks WORK den);
    whole_work ← ok_or_else (checked_mul_u128 whole_ticks WORK) ArithmeticExhausted;
    work ← ok_or_else (checked_add_u128 whole_work fractional_work) ArithmeticExhausted;
    ticks ← checked_ceil_div work WORK;
    mret (work, ticks).

Definition exact_valid (r : Request) : model () :=
  '(work, ticks) ← projection (req_q r) (fraction_num r) (fraction_den r);
  if negb (work =? remaining_work r) || negb (ticks =? remaining_ticks r) then Error InvalidState else mret tt.

Definition remaining_virtual_length (r : Request) (weight : Z) : model Z :=
  if weight =? 0 then Error InvalidWeight
  else
    exact_valid r;;
    length ← checked_ratio_ceil (fraction_num r) (req_q r) WORK (fraction_den r) weight;
    checked_i128 length.

(** Assignments to the fields of a request *)
Definition with_fraction (num den work ticks : Z) (r : Request) : Request :=
  mkRequest (req_class r) (req_q r) ticks work num den (virtual_length r) (req_start r) (req_deadline r).
Definition with_quantum (q work ticks : Z) (r : Request) : Request :=
  mkRequest (req_class r) q ticks work (fraction_num r) (fraction_den r) (virtual_length r) (req_start r) (req_deadline r).
Definition with_window (start deadline : Z) (r : Request) : Request :=
  mkRequest (req_class r) (req_q r) (remaining_ticks r) (remaining_work r) (fraction_num r) (fraction_den r) (virtual_length r) start deadline.
Definition with_class (class : RequestClass) (r : Request) : Request :=
  mkRequest class (req_q r) (remaining_ticks r) (remaining_work r) (fraction_num r) (fraction_den r) (virtual_length r) (req_start r) (req_deadline r).
Definition with_length (length : Z) (r : Request) : Request :=
  mkRequest (req_class r) (req_q r) (remaining_ticks r) (remaining_work r) (fraction_num r) (fraction_den r) length (req_start r) (req_deadline r).

(** [Request::set_fraction] *)
Definition set_fraction (num den : Z) : M Request ModelError () :=
  gcd ← run (gcd_u128 num den);
  '(num, den) ← run (if gcd =? 0 then mret (0, 1)
                else num ← ok_or_else (checked_div_u128 num gcd) InvalidState;
                     den ← ok_or_else (checked_div_u128 den gcd) InvalidState;
                     mret (num, den));
  q ← gets req_q;
  '(work, ticks) ← run (projection q num den);
  modify (with_fraction num den work ticks).

(** The numerator of [fraction - service_num/service_den] over the reduced
    common denominator, and the factor removed from it: the two arms of the
    [match] in [Request::next_after_service], the second through 256 bits *)
Definition wide_difference (num right_den service_num left_den denominator_gcd : Z) : model (Z * Z) :=
  left_wide ← or_error (wide_mul_u128 num right_den) ArithmeticExhausted;
  right_wide ← or_error (wide_mul_u128 service_num left_den) ArithmeticExhausted;
  order ← wide_cmp left_wide right_wide;
  match order with
  | Lt => Error InvalidState
  | _ =>
      let numerator := wide_wrapping_sub left_wide right_wide in
      reduced_gcd ← (if denominator_gcd =? 1 then mret 1
                     else left_mod ← wide_rem_u128 numerator denominator_gcd; gcd_u128 left_mod denominator_gcd);
      quotient ← wide_div_exact_u128 numerator reduced_gcd;
      numerator ← wide_low_u128 quotient;
      mret (numerator, reduced_gcd)
  end.
Definition reduced_difference (num right_den service_num left_den denominator_gcd : Z) : model (Z * Z) :=
  match checked_mul_u128 num right_den, checked_mul_u128 service_num left_den with
  | Some left_product, Some right_product =>
      numerator ← ok_or_else (checked_sub_u128 left_product right_product) InvalidState;
      reduced_gcd ← gcd_u128 numerator denominator_gcd;
      numerator ← raw_div numerator reduced_gcd;
      mret (numerator, reduced_gcd)
  | _, _ => wide_difference num right_den service_num left_den denominator_gcd
  end.

Definition next_after_service (r : Request) (work : Z) (saturating : bool) : model Request :=
  exact_valid r;;
  if negb (work mod NICE_0 =? 0) then Error InvalidState
  else
    let service_ticks := work / NICE_0 in
    service_den ← ok_or_else (checked_mul_u128 (req_q r) ONE) ArithmeticExhausted;
    '(remaining_service, remaining_remainder) ← checked_mul_div_rem (fraction_num r) service_den (fraction_den r);
    if remaining_service <? service_ticks then
      if negb saturating then Error InvalidState else on_copy (set_fraction 0 1) r
    else if (service_ticks =? remaining_service) && (remaining_remainder =? 0) then on_copy (set_fraction 0 1) r
    else if service_ticks =? 0 then mret r
    else
      service_gcd ← gcd_u128 service_ticks service_den;
      service_num ← raw_div service_ticks service_gcd;
      service_den ← raw_div service_den service_gcd;
      denominator_gcd ← gcd_u128 (fraction_den r) service_den;
      left_den ← raw_div (fraction_den r) denominator_gcd;
      right_den ← raw_div service_den denominator_gcd;
      '(numerator, reduced_gcd) ← reduced_difference (fraction_num r) right_den service_num left_den denominator_gcd;
      common ← raw_div denominator_gcd reduced_gcd;
      denominator ← ok_or_else (value ← checked_mul_u128 left_den common; checked_mul_u128 value right_den) ArithmeticExhausted;
      on_copy (set_fraction numerator denominator) r.

Definition request_new (class : RequestClass) (weight total_weight v materialized_lag : Z) : model Request :=
  q ← request_quantum class weight total_weight;
  length ← checked_virtual_length q weight;
  start ← request_start v materialized_lag weight;
  deadline ← checked_deadline start length;
  on_copy (set_fraction 1 1) (mkRequest class q q 0 1 1 length start deadline).
Definition request_admit (class : RequestClass) (weight total_weight v materialized_lag : Z) : model Request :=
  request_new class weight total_weight v materialized_lag.

Definition remaining (r : Request) : Z := remaining_ticks r.
Definition is_exhausted (r : Request) : bool := fraction_num r =? 0.

Definition consume_work (work : Z) : M Request ModelError () :=
  r ← get;
  next ← run (next_after_service r work false); modify (fun _ => next).
Definition consume_work_up_to (work : Z) : M Request ModelError () :=
  r ← get;
  next ← run (next_after_service r work true); modify (fun _ => next).
Definition consume (ticks : Z) : M Request ModelError () :=
  rest ← gets remaining_ticks;
  if rest <? ticks then throw InvalidState
  else work ← run (checked_work ticks); consume_work_up_to work.

Definition set_quantum (q : Z) : M Request ModelError () :=
  if q =? 0 then throw InvalidState
  else
    num ← gets fraction_num;
    den ← gets fraction_den;
    '(work, ticks) ← run (projection q num den);
    modify (with_quantum q work ticks).

Definition request_renew (weight total_weight v materialized_lag : Z) : M Request ModelError () :=
  class ← gets req_class;
  next ← run (request_new class weight total_weight v materialized_lag);
  modify (fun _ => next).

Definition yielded (r : Request) (weight total_weight v materialized_lag : Z) : model Request :=
  next ← request_new (req_class r) weight total_weight v materialized_lag;
  let start := Z.max (req_start next) (req_deadline r) in
  deadline ← checked_deadline start (virtual_length next);
  mret (with_window start deadline next).
Definition preempted (r : Request) : Request := r.
(** ** The virtual clock *)

Record Clock : Type := mkClock { clock_v : Z; clock_remainder : Z; total_weight : Z; accounted_ticks : Z }.
Record ClockAdvance : Type := mkAdvance { adv_v : Z; adv_remainder : Z; adv_accounted_ticks : Z; delta_v : Z }.

Definition clock_new (total_weight : Z) : Clock := mkClock 0 0 total_weight 0.
Definition clock_at (v total_weight : Z) : Clock := mkClock v 0 total_weight 0.
Definition clock_with_parts (v remainder total_weight accounted_ticks : Z) : Clock :=
  mkClock v (if total_weight =? 0 then 0 else remainder) total_weight accounted_ticks.

(** The common tail of [preview_work_with_ticks] and [preview_advance]: [a * b]
    units of work and [ticks] accounted ticks *)
Definition preview_product (c : Clock) (a b ticks : Z) : model ClockAdvance :=
  if total_weight c =? 0 then Error InvalidWeight
  else if total_weight c <=? clock_remainder c then Error InvalidState
  else
    '(delta, product_remainder) ← checked_mul_div_rem a b (total_weight c);
    let '(remainder_low, remainder_high) := overflowing_add_u128 product_remainder (clock_remainder c) in
    '(remainder_quotient, remainder) ← checked_div_129 remainder_high remainder_low (total_weight c);
    delta ← ok_or_else (checked_add_u128 delta remainder_quotient) ArithmeticExhausted;
    delta_v ← checked_i128 delta;
    v ← ok_or_else (checked_add_i128 (clock_v c) delta_v) ArithmeticExhausted;
    accounted ← ok_or_else (checked_add_u128 (accounted_ticks c) ticks) ArithmeticExhausted;
    mret (mkAdvance v remainder accounted delta_v).

Definition preview_work_with_ticks (c : Clock) (work accounted_tick_delta : Z) : model ClockAdvance :=
  if work =? 0 then
    accounted ← ok_or_else (checked_add_u128 (accounted_ticks c) accounted_tick_delta) ArithmeticExhausted;
    mret (mkAdvance (clock_v c) (clock_remainder c) accounted 0)
  else preview_product c work 1 accounted_tick_delta.
Definition preview_work (c : Clock) (work : Z) : model ClockAdvance := preview_work_with_ticks c work 0.
Definition preview_advance (c : Clock) (ticks : Z) : model ClockAdvance :=
  if ticks =? 0 then preview_work_with_ticks c 0 0 else preview_product c ticks WORK ticks.

Definition advance_ticks (ticks : Z) : M Clock ModelError Z :=
  c ← get;
  next ← run (preview_advance c ticks);
  modify (fun c => mkClock (adv_v next) (adv_remainder next) (total_weight c) (adv_accounted_ticks next));;
  mret (delta_v next).
Definition advance_work (work : Z) : M Clock ModelError Z :=
  c ← get;
  next ← run (preview_work c work);
  modify (fun c => mkClock (adv_v next) (adv_remainder next) (total_weight c) (accounted_ticks c));;
  mret (delta_v next).
Definition advance (ticks : Z) : M Clock ModelError Z := advance_ticks ticks.

Definition jump_to (v : Z) : M Clock ModelError () :=
  now ← gets clock_v;
  if v <? now then throw InvalidState
  else modify (fun c => mkClock v (clock_remainder c) (total_weight c) (accounted_ticks c)).

Definition set_total_weight (weight : Z) : M Clock ModelError () :=
  old_weight ← gets total_weight;
  if old_weight =? weight then
    if weight =? 0 then modify (fun c => mkClock (clock_v c) 0 (total_weight c) (accounted_ticks c)) else mret tt
  else if (old_weight =? 0) || (weight =? 0) then modify (fun c => mkClock (clock_v c) 0 weight (accounted_ticks c))
  else
    remainder ← gets clock_remainder;
    if old_weight <=? remainder then throw InvalidState
    else
      rounded ← run (checked_mul_div_round_nearest_even remainder weight old_weight);
      now ← gets clock_v;
      '(v, remainder) ← run (match rounded ?= weight with
                             | Eq => v ← ok_or_else (checked_add_i128 now 1) ArithmeticExhausted; mret (v, 0)
                             | Lt => mret (now, rounded)
                             | Gt => Error InvalidState
                             end);
      modify (fun c => mkClock v remainder weight (accounted_ticks c)).

Definition checked_add_weight (weight : Z) : M Clock ModelError () :=
  old ← gets total_weight;
  total ← some_or (checked_add_u128 old weight) ArithmeticExhausted;
  set_total_weight total.
Definition checked_sub_weight (weight : Z) : M Clock ModelError () :=
  old ← gets total_weight;
  total ← some_or (checked_sub_u128 old weight) InvalidWeight;
  set_total_weight total.
(** [add_weight], [checked_add], [checked_add_total_weight] and their
    counterparts are aliases. *)
Definition add_weight (weight : Z) : M Clock ModelError () := checked_add_weight weight.
Definition sub_weight (weight : Z) : M Clock ModelError () := checked_sub_weight weight.

Definition work_balance (c : Clock) : model Z :=
  if total_weight c =? 0 then (if clock_remainder c =? 0 then mret 0 else Error InvalidState)
  else
    product ← checked_mul_i128_u128 (clock_v c) (total_weight c);
    remainder ← checked_i128 (clock_remainder c);
    ok_or_else (checked_add_i128 product remainder) ArithmeticExhausted.

(** ** Sleeper credit *)

Definition credit_cap (class : RequestClass) : Z := as_i128 (target_ticks class * WORK).

Definition bounded_sleeper_decay_inner (class : RequestClass) (lag elapsed : Z) : model Z :=
  let cap := credit_cap class in
  let lag := if cap <? lag then cap else lag in
  if elapsed <? 0 then Error InvalidState
  else if elapsed <=? GRACE then mret lag
  else
    past ← ok_or_else (checked_sub_i128 elapsed GRACE) ArithmeticExhausted;
    let beyond := Z.min past DECAY_WINDOW in
    if DECAY_WINDOW <=? beyond then mret 0
    else
      rest ← ok_or_else (checked_sub_i128 DECAY_WINDOW beyond) ArithmeticExhausted;
      if lag =? 0 then mret 0
      else
        let magnitude := Z.abs lag in
        scaled ← checked_mul_div_ceil magnitude (wrap_u128 rest) (wrap_u128 DECAY_WINDOW);
        if lag <? 0 then
          if scaled =? Z.shiftl 1 127 then mret i128_MIN else mret (- as_i128 scaled)
        else checked_i128 (Z.min scaled (wrap_u128 cap)).

(** ** Entities *)

Record Entity : Type := mkEntity {
  ent_class : RequestClass;
  ent_weight : Z;
  ent_lag : Z;
  lag_stamp : Z;
  ent_request : Request;
  sleeper_v : option Z;
}.
Record MigrationSnapshot : Type := mkSnapshot {
  snap_class : RequestClass;
  snap_weight : Z;
  snap_request : Request;
  snap_lag : Z;
  source_v : Z;
  start_offset : Z;
  deadline_offset : Z;
}.

Definition with_lag (class : RequestClass) (weight total_weight v lag : Z) : model Entity :=
  request ← request_new class weight total_weight v lag;
  mret (mkEntity class weight lag v request None).
Definition entity_new (class : RequestClass) (weight total_weight v : Z) : model Entity := with_lag class weight total_weight v 0.
Definition from_weight (weight total_weight : Z) (class : RequestClass) (v : Z) : model Entity := entity_new class weight total_weight v.

Definition is_sleeping (e : Entity) : bool := match sleeper_v e with Some _ => true | None => false end.
Definition sleep_anchor (e : Entity) : option Z := sleeper_v e.

Definition lag_at (e : Entity) (v : Z) : model Z :=
  if ent_weight e =? 0 then Error InvalidWeight
  else if is_sleeping e then mret (ent_lag e)
  else checked_lag_at (ent_lag e) (lag_stamp e) (ent_weight e) v.

(** Assignments to the lag and its stamp *)
Definition with_lag_at (lag stamp : Z) (e : Entity) : Entity :=
  mkEntity (ent_class e) (ent_weight e) lag stamp (ent_request e) (sleeper_v e).
Definition with_request (r : Request) (e : Entity) : Entity :=
  mkEntity (ent_class e) (ent_weight e) (ent_lag e) (lag_stamp e) r (sleeper_v e).
Definition with_sleeper (s : option Z) (e : Entity) : Entity :=
  mkEntity (ent_class e) (ent_weight e) (ent_lag e) (lag_stamp e) (ent_request e) s.

Definition materialize (v : Z) : M Entity ModelError Z :=
  e ← get;
  next ← run (lag_at e v);
  (if negb (is_sleeping e) then modify (with_lag_at next v) else mret tt);;
  gets ent_lag.
Definition freeze_at (v : Z) : M Entity ModelError Z := materialize v.

Definition eligible_at (e : Entity) : model Z :=
  if ent_weight e =? 0 then Error InvalidWeight
  else if 0 <=? ent_lag e then mret (lag_stamp e)
  else
    wait ← checked_ceil_div (Z.abs (ent_lag e)) (ent_weight e);
    offset ← checked_i128 wait;
    ok_or_else (checked_add_i128 (lag_stamp e) offset) ArithmeticExhausted.
Definition is_eligible (e : Entity) (v : Z) : model bool := lag ← lag_at e v; mret (0 <=? lag).

Definition jump_to_eligibility (e : Entity) : M Clock ModelError () := v ← run (eligible_at e); jump_to v.

(** [Entity::service]: the entity and the queue's clock *)
Definition service (ticks fraction_q : Z) : M (Entity * Clock) ModelError Z :=
  '(e, clock) ← get;
  if ONE <=? fraction_q then throw InvalidState
  else if (ticks =? 0) && (fraction_q =? 0) then mret 0
  else if ent_weight e =? 0 then throw InvalidWeight
  else if is_sleeping e then throw InvalidState
  else
    whole_work ← run (checked_work ticks);
    fractional_work ← some_or (checked_mul_u128 fraction_q NICE_0) ArithmeticExhausted;
    service_work ← some_or (checked_add_u128 whole_work fractional_work) ArithmeticExhausted;
    next_clock ← run (preview_work_with_ticks clock service_work ticks);
    lag ← run (checked_lag_at (ent_lag e) (lag_stamp e) (ent_weight e) (adv_v next_clock));
    work ← run (checked_i128 service_work);
    next_lag ← some_or (checked_sub_i128 lag work) ArithmeticExhausted;
    next_request ← run (on_copy (consume_work_up_to service_work) (ent_request e));
    modify (fun '(e, clock) => (e, mkClock (adv_v next_clock) (adv_remainder next_clock) (total_weight clock) (adv_accounted_ticks next_clock)));;
    modify (fun '(e, clock) => (with_request next_request (with_lag_at next_lag (adv_v next_clock) e), clock));;
    mret (delta_v next_clock).

Definition tick_service (ticks : Z) : M (Entity * Clock) ModelError Z := service ticks 0.
Definition bulk_service (ticks : Z) : M (Entity * Clock) ModelError Z := service ticks 0.
Definition fractional_service (fraction_q : Z) : M (Entity * Clock) ModelError Z := service 0 fraction_q.
Definition fractional_service_ns (elapsed_ns period_ns : Z) : M (Entity * Clock) ModelError Z :=
  if (period_ns =? 0) || (period_ns <=? elapsed_ns) then throw InvalidState
  else
    '(fraction_q, remainder) ← run (checked_mul_div_rem elapsed_ns ONE period_ns);
    _ ← fractional_service (wrap_u64 fraction_q);
    mret (wrap_u64 remainder).
Definition entity_tick : M (Entity * Clock) ModelError Z := tick_service 1.
(** *** Requests of an entity *)

Definition entity_renew (total_weight v : Z) : M Entity ModelError () :=
  e ← get;
  if is_sleeping e then throw InvalidState
  else
    lag ← run (lag_at e v);
    next ← run (request_new (ent_class e) (ent_weight e) total_weight v lag);
    modify (fun e => with_request next (with_lag_at lag v e)).

Definition yield_request (total_weight v : Z) : M Entity ModelError () :=
  e ← get;
  if is_sleeping e then throw InvalidState
  else
    lag ← run (lag_at e v);
    next ← run (yielded (ent_request e) (ent_weight e) total_weight v lag);
    modify (fun e => with_request next (with_lag_at lag v e)).

Definition preempt_request : M Entity ModelError () :=
  e ← get;
  if is_sleeping e then throw InvalidState else mret tt.

(** *** Sleep *)

Definition begin_sleep (v : Z) : M Entity ModelError () :=
  e ← get;
  if is_sleeping e then throw InvalidState
  else
    lag ← run (lag_at e v);
    let lag := Z.min lag (credit_cap (ent_class e)) in
    modify (fun e => with_sleeper (Some v) (with_lag_at lag v e)).

Definition begin_sleep_frozen (v : Z) : M Entity ModelError () :=
  e ← get;
  if ent_weight e =? 0 then throw InvalidWeight
  else if is_sleeping e then throw InvalidState
  else modify (fun e => with_sleeper (Some v) (with_lag_at (ent_lag e) v e)).

Definition sleep (v : Z) : M Entity ModelError () := begin_sleep v.

Definition wake (v : Z) : M Entity ModelError () :=
  e ← get;
  slept_at ← some_or (sleeper_v e) InvalidState;
  elapsed ← some_or (checked_sub_i128 v slept_at) ArithmeticExhausted;
  lag ← run (bounded_sleeper_decay_inner (ent_class e) (ent_lag e) elapsed);
  modify (fun e => with_sleeper None (with_lag_at lag v e)).
Definition wake_at (v : Z) : M Entity ModelError () := wake v.

Definition end_sleep_frozen (v : Z) : M Entity ModelError () :=
  e ← get;
  if ent_weight e =? 0 then throw InvalidWeight
  else
    (match sleeper_v e with
     | Some slept_at => if v <? slept_at then throw InvalidState else mret tt
     | None => mret tt
     end);;
    modify (fun e => with_lag_at (ent_lag e) v (with_sleeper None e)).

Definition wake_preserving_progress (v : Z) : M Entity ModelError () :=
  e ← get;
  slept_at ← some_or (sleeper_v e) InvalidState;
  elapsed ← some_or (checked_sub_i128 v slept_at) ArithmeticExhausted;
  if (ent_weight e =? 0) || (req_q (ent_request e) =? 0) then throw InvalidState
  else
    run (exact_valid (ent_request e));;
    lag ← run (bounded_sleeper_decay_inner (ent_class e) (ent_lag e) elapsed);
    start ← run (request_start v lag (ent_weight e));
    remaining_r ← run (remaining_virtual_length (ent_request e) (ent_weight e));
    deadline ← run (checked_deadline start remaining_r);
    modify (fun e => mkEntity (ent_class e) (ent_weight e) lag v (with_window start deadline (ent_request e)) None).

Definition activate_preserving_progress (v : Z) : M Entity ModelError () :=
  e ← get;
  if is_sleeping e then throw InvalidState
  else if ent_weight e =? 0 then throw InvalidWeight
  else if req_q (ent_request e) =? 0 then throw InvalidState
  else
    run (exact_valid (ent_request e));;
    lag ← run (lag_at e v);
    start ← run (request_start v lag (ent_weight e));
    remaining_r ← run (remaining_virtual_length (ent_request e) (ent_weight e));
    deadline ← run (checked_deadline start remaining_r);
    modify (fun e => with_request (with_window start deadline (ent_request e)) (with_lag_at lag v e)).

(** *** Parameter changes *)

Definition reconfigured_request (e : Entity) (new_class : RequestClass) (new_q new_weight anchor lag : Z) : model Request :=
  exact_valid (ent_request e);;
  request ← on_copy (set_quantum new_q) (with_class new_class (ent_request e));
  full_r ← checked_virtual_length new_q new_weight;
  remaining_r ← remaining_virtual_length request new_weight;
  start ← request_start anchor lag new_weight;
  deadline ← checked_deadline start remaining_r;
  mret (with_window start deadline (with_length full_r request)).

Definition rebind_request_quantum (quantum : Z) : M Entity ModelError () :=
  e ← get;
  if quantum =? 0 then throw InvalidState
  else
    let anchor := default (lag_stamp e) (sleeper_v e) in
    request ← run (reconfigured_request e (ent_class e) quantum (ent_weight e) anchor (ent_lag e));
    modify (with_request request);;
    modify (fun e => with_lag_at (ent_lag e) anchor e).

Definition rebind_default_request_quantum (total_weight : Z) : M Entity ModelError () :=
  e ← get;
  quantum ← run (request_quantum (ent_class e) (ent_weight e) total_weight);
  rebind_request_quantum quantum.

Definition reconfigure (new_class : RequestClass) (new_weight new_total_weight v : Z) : M Entity ModelError () :=
  e ← get;
  if new_weight =? 0 then throw InvalidWeight
  else if is_sleeping e then throw InvalidState
  else
    lag ← run (lag_at e v);
    new_q ← run (request_quantum new_class new_weight new_total_weight);
    request ← run (reconfigured_request e new_class new_q new_weight v lag);
    modify (fun e => mkEntity new_class new_weight lag v request (sleeper_v e)).

Definition reconfigure_frozen (new_class : RequestClass) (new_weight new_total_weight v : Z) : M Entity ModelError () :=
  e ← get;
  if new_weight =? 0 then throw InvalidWeight
  else if is_sleeping e then throw InvalidState
  else
    let lag := ent_lag e in
    new_q ← run (request_quantum new_class new_weight new_total_weight);
    request ← run (reconfigured_request e new_class new_q new_weight v lag);
    modify (fun _ => mkEntity new_class new_weight lag v request None).

Definition reconfigure_sleeping (new_class : RequestClass) (new_weight new_total_weight : Z) : M Entity ModelError () :=
  e ← get;
  sleeper ← some_or (sleeper_v e) InvalidState;
  if new_weight =? 0 then throw InvalidWeight
  else
    let lag := ent_lag e in
    new_q ← run (request_quantum new_class new_weight new_total_weight);
    request ← run (reconfigured_request e new_class new_q new_weight sleeper lag);
    modify (fun _ => mkEntity new_class new_weight lag sleeper request (Some sleeper)).

Definition reweight (new_weight new_total_weight v : Z) : M Entity ModelError () :=
  e ← get; reconfigure (ent_class e) new_weight new_total_weight v.
Definition set_weight (new_weight new_total_weight v : Z) : M Entity ModelError () := reweight new_weight new_total_weight v.

(** *** Migration *)

Definition migration_snapshot (e : Entity) (source_v : Z) : model MigrationSnapshot :=
  if ent_weight e =? 0 then Error InvalidWeight
  else if is_sleeping e then Error InvalidState
  else
    lag ← lag_at e source_v;
    start_offset ← ok_or_else (checked_sub_i128 (req_start (ent_request e)) source_v) ArithmeticExhausted;
    deadline_offset ← ok_or_else (checked_sub_i128 (req_deadline (ent_request e)) source_v) ArithmeticExhausted;
    mret (mkSnapshot (ent_class e) (ent_weight e) (ent_request e) lag source_v start_offset deadline_offset).
Definition snapshot (e : Entity) (source_v : Z) : model MigrationSnapshot := migration_snapshot e source_v.

(** The offsets compared with [||]: the second is not computed when the first differs *)
Definition offsets_match (s : MigrationSnapshot) : model bool :=
  start ← ok_or_else (checked_sub_i128 (req_start (snap_request s)) (source_v s)) ArithmeticExhausted;
  if negb (start_offset s =? start) then mret false
  else
    deadline ← ok_or_else (checked_sub_i128 (req_deadline (snap_request s)) (source_v s)) ArithmeticExhausted;
    mret (deadline_offset s =? deadline).

Definition from_migration (s : MigrationSnapshot) (destination_v : Z) : model Entity :=
  let r := snap_request s in
  if (snap_weight s =? 0) || (req_q r =? 0) then Error InvalidState
  else if negb (bool_decide (req_class r = snap_class s)) then Error InvalidState
  else if (target_ticks (snap_class s) <? req_q r) || (req_q r <? remaining_ticks r) || (fraction_den r =? 0)
          || (fraction_den r <? fraction_num r) then Error InvalidState
  else
    exact_valid r;;
    expected_length ← checked_virtual_length (req_q r) (snap_weight s);
    if negb (virtual_length r =? expected_length) then Error InvalidState
    else
      same ← offsets_match s;
      if negb same then Error InvalidState
      else
        start ← ok_or_else (checked_add_i128 destination_v (start_offset s)) ArithmeticExhausted;
        deadline ← ok_or_else (checked_add_i128 destination_v (deadline_offset s)) ArithmeticExhausted;
        mret (mkEntity (snap_class s) (snap_weight s) (snap_lag s) destination_v (with_window start deadline r) None).
Definition reconstruct (s : MigrationSnapshot) (destination_v : Z) : model Entity := from_migration s destination_v.
End Model.
