(* ===== verification/EevdfModelSpec.v ===== *)
(** The EEVDF value layer, part 2: what each formula computes, when a request
    is well formed, and that service is exact. *)

From S2P Require Import Prelude Effects EevdfMath EevdfMathSpec EevdfWide EevdfModel.
Local Open Scope Z_scope.
#[local] Opaque gcd_u128 checked_mul_div_rem checked_div_129 checked_mul_div_ceil checked_ratio_ceil wide_mul_u128 wide_rem_u128 wide_div_exact_u128.

(** ** Postconditions *)

(** The computation does not crash, and its value satisfies [Q]. *)
Definition ends {E A} (m : comp E A) (Q : A -> Prop) : Prop :=
  match m with Value a => Q a | Error _ => True | Crash => False end.

Lemma ends_value {E A} (a : A) (Q : A -> Prop) : Q a -> ends (E := E) (Value a) Q.
Proof. done. Qed.
Lemma ends_error {E A} (e : E) (Q : A -> Prop) : ends (Error e) Q.
Proof. done. Qed.
Lemma ends_bind {E A B} (m : comp E A) (f : A -> comp E B) (P : A -> Prop) (Q : B -> Prop) :
  ends m P -> (forall a, P a -> ends (f a) Q) -> ends (m ≫= f) Q.
Proof. intros Hm Hf. destruct m; [by apply Hf|done..]. Qed.
Lemma ends_mono {E A} (m : comp E A) (P Q : A -> Prop) : ends m P -> (forall a, P a -> Q a) -> ends m Q.
Proof. unfold ends. destruct m; auto. Qed.
Lemma ends_eq {E A} (m : comp E A) (Q : A -> Prop) : ends m Q -> forall a, m = Value a -> Q a.
Proof. by intros H a ->. Qed.
Lemma ends_self {E A} (m : comp E A) (Q : A -> Prop) : ends m Q -> ends m (fun a => Q a /\ m = Value a).
Proof. unfold ends. by destruct m. Qed.

Lemma value_bind {E A B} (a : A) (f : A -> comp E B) : (Value a ≫= f) = f a.
Proof. done. Qed.
Lemma staged_bind {S E A B} (m : comp E A) (f : A -> M S E B) s :
  (run m ≫= f) s = match m with Value a => f a s | Error e => Fail e s | Crash => Panic end.
Proof. by destruct m. Qed.
Lemma get_bind {S E B} (f : S -> M S E B) s : (get ≫= f) s = f s s.
Proof. done. Qed.
Lemma gets_bind {S E A B} (g : S -> A) (f : A -> M S E B) s : (gets g ≫= f) s = f (g s) s.
Proof. done. Qed.

(** The bind rules of methods over a computation that does not crash. *)
Lemma wp_run {S A B} (m : model A) (f : A -> M S ModelError B) (P : A -> Prop) s Q R :
  ends m P -> (forall e, R e s) -> (forall a, P a -> m = Value a -> wp (f a) s Q R) -> wp (run m ≫= f) s Q R.
Proof. intros Hm HR Hf. unfold wp, mbind, M_bind, run. destruct m; cbn in *; [by apply Hf|apply HR|done]. Qed.
Lemma wp_some {S A B} (o : option A) e (f : A -> M S ModelError B) s Q (R : ModelError -> S -> Prop) :
  R e s -> (forall a, o = Some a -> wp (f a) s Q R) -> wp (some_or o e ≫= f) s Q R.
Proof. intros HR Hf. unfold wp, mbind, M_bind, some_or. destruct o; [by apply Hf|apply HR]. Qed.

Lemma on_copy_ends {S A} (m : M S ModelError A) s (Q : S -> Prop) :
  wp m s (fun _ s' => Q s') (fun _ _ => True) -> ends (on_copy m s) Q.
Proof. unfold wp, ends, on_copy. by destruct (m s). Qed.

(** ** Profiles *)

(** A profile some build selects. *)
Definition selected (p : EevdfProfile) : Prop := exists latency throughput, latency && throughput = false /\ p = EEVDF_PROFILE latency throughput.

Lemma selected_facts p : selected p ->
  (forall c, 1 <= target_ticks p c <= 64) /\ (forall c, credit_cap p c = target_ticks p c * WORK) /\
  0 < GRACE p <= 2 ^ 40 /\ 0 < DECAY_WINDOW p <= 2 ^ 40.
Proof.
  intros (l & t & Hlt & ->). split_and!; [| |destruct l, t; done..].
  - intros c. destruct l, t, c; try done; cbn; lia.
  - intros c. destruct l, t, c; done.
Qed.

(** ** Formulas *)

Lemma WORK_pos : 0 < WORK.
Proof. done. Qed.
Lemma in_u128_WORK : in_u128 WORK.
Proof. done. Qed.
#[export] Hint Resolve WORK_pos in_u128_WORK : core.

Lemma ends_option {A} (o : option A) (e : ModelError) (Q : A -> Prop) : (forall a, o = Some a -> Q a) -> ends (ok_or_else o e) Q.
Proof. intros H. destruct o; cbn; auto. Qed.

Lemma checked_add_u128_some a b r : checked_add_u128 a b = Some r -> r = a + b /\ r <= u128_MAX.
Proof. unfold checked_add_u128. destruct (Z.leb_spec (a + b) u128_MAX); naive_solver lia. Qed.
Lemma checked_sub_u128_some a b r : checked_sub_u128 a b = Some r -> r = a - b /\ 0 <= r.
Proof. unfold checked_sub_u128. destruct (Z.leb_spec b a); naive_solver lia. Qed.
Lemma checked_mul_u128_some a b r : checked_mul_u128 a b = Some r -> r = a * b /\ r <= u128_MAX.
Proof. unfold checked_mul_u128. destruct (Z.leb_spec (a * b) u128_MAX); naive_solver lia. Qed.
Lemma checked_add_i128_some a b r : checked_add_i128 a b = Some r -> r = a + b /\ in_i128 r.
Proof. unfold checked_add_i128. case_decide; naive_solver. Qed.
Lemma checked_sub_i128_some a b r : checked_sub_i128 a b = Some r -> r = a - b /\ in_i128 r.
Proof. unfold checked_sub_i128. case_decide; naive_solver. Qed.

Lemma checked_i128_ends v : ends (checked_i128 v) (fun r => r = v /\ r <= i128_MAX).
Proof. rewrite checked_i128_spec. destruct (Z.leb_spec v i128_MAX); cbn; auto. Qed.

Lemma checked_work_ends ticks : 0 <= ticks -> ends (checked_work ticks) (fun w => w = ticks * WORK /\ 0 <= w <= i128_MAX).
Proof.
  intros Ht. unfold checked_work. apply (ends_bind _ _ (fun w => w = ticks * WORK)).
  - apply ends_option. intros w Hw. by apply checked_mul_u128_some in Hw as [-> _].
  - intros w ->. eapply ends_mono; [apply checked_i128_ends|]. intros r [-> Hr]. pose proof WORK_pos. lia.
Qed.

Lemma checked_ceil_ends a b d : in_u128 a -> in_u128 b -> 0 < d <= u128_MAX ->
  ends (checked_mul_div_ceil a b d) (fun q => q = cdiv (a * b) d /\ 0 <= q <= u128_MAX).
Proof.
  intros Ha Hb Hd. rewrite checked_mul_div_ceil_spec by done. destruct (Z.leb_spec (cdiv (a * b) d) u128_MAX); cbn; [|done].
  split; [done|]. split; [|done]. apply cdiv_nonneg; [lia|]. destruct Ha, Hb. lia.
Qed.

Lemma checked_virtual_length_ends q weight : in_u128 q -> in_u128 weight ->
  ends (checked_virtual_length q weight) (fun l => l = cdiv (q * WORK) weight /\ 0 <= l <= i128_MAX /\ 0 < weight).
Proof.
  intros Hq Hw. unfold checked_virtual_length. destruct (Z.eqb_spec weight 0); [done|]. destruct Hw.
  eapply ends_bind; [apply checked_ceil_ends; auto; lia|]. intros l [-> Hl]. eapply ends_mono; [apply checked_i128_ends|]. intros r [-> Hr]. lia.
Qed.

Lemma checked_lag_at_ends lag stamp weight v : in_i128 lag -> in_i128 stamp -> in_i128 v -> in_u128 weight ->
  ends (checked_lag_at lag stamp weight v) (fun l => l = lag + (v - stamp) * weight /\ in_i128 l /\ 0 < weight).
Proof.
  intros Hl Hs Hv Hw. unfold checked_lag_at. destruct (Z.eqb_spec weight 0); [done|].
  apply (ends_bind _ _ (fun d => d = v - stamp /\ in_i128 d)); [apply ends_option; intros; by apply checked_sub_i128_some|]. intros d [-> Hd].
  rewrite checked_mul_i128_spec by done. case_decide; [|done]. cbn [mbind comp_bind]. apply ends_option. intros a Ha.
  apply checked_add_i128_some in Ha as [-> Ha]. destruct Hw. split; [lia|]. split; [done|lia].
Qed.

(** A lag that fits is computed. *)
Lemma checked_lag_at_value lag stamp weight v : in_i128 (v - stamp) -> in_i128 ((v - stamp) * weight) -> in_i128 (lag + (v - stamp) * weight) ->
  0 < weight <= u128_MAX -> checked_lag_at lag stamp weight v = Value (lag + (v - stamp) * weight).
Proof.
  intros H1 H2 H3 Hw. unfold checked_lag_at, checked_sub_i128, checked_add_i128. rewrite (proj2 (Z.eqb_neq weight 0)) by lia.
  rewrite decide_True by done. cbn [ok_or_else mbind comp_bind]. rewrite checked_mul_i128_spec by (try done; split; lia).
  rewrite decide_True by done. cbn [mbind comp_bind]. by rewrite decide_True by done.
Qed.

Lemma checked_deadline_ends start length : ends (checked_deadline start length) (fun d => d = start + length /\ in_i128 d).
Proof. apply ends_option. intros d Hd. by apply checked_add_i128_some. Qed.

Lemma as_i128_small z : 0 <= z <= i128_MAX -> as_i128 z = z.
Proof. intros Hz. unfold as_i128. by rewrite (proj2 (Z.ltb_ge i128_MAX z)) by lia. Qed.

Lemma signed_ceil_neg_div_ends value d : in_i128 value -> in_u128 d ->
  ends (signed_ceil_neg_div value d) (fun r => r = - (value / d) /\ in_i128 r /\ 0 < d).
Proof.
  intros Hv Hd. unfold signed_ceil_neg_div. destruct (Z.eqb_spec d 0); [done|]. assert (0 < d) as Hd0 by (destruct Hd; lia).
  destruct (Z.leb_spec 0 value).
  - unfold raw_div. rewrite (proj2 (Z.eqb_neq d 0)) by lia. cbn [mbind comp_bind]. rewrite Z.abs_eq by lia.
    assert (0 <= value / d <= value) as Hq by (split; [apply Z.div_pos; lia|apply Z.div_le_upper_bound; nia]).
    destruct (Z.eqb_spec (value / d) 0) as [->|]; cbn; [done|]. rewrite as_i128_small by (widths; lia). split; [done|]. widths. lia.
  - rewrite Z.abs_neq by lia. rewrite checked_ceil_div_spec by (widths; lia). cbn [mbind comp_bind].
    eapply ends_mono; [apply checked_i128_ends|]. intros r [-> Hr]. unfold cdiv in *. rewrite Z.opp_involutive in *. split; [done|].
    assert (value / d < 0) by (apply Z.div_lt_upper_bound; lia). widths. lia.
Qed.

(** A request starts at [v - floor (lag / weight)]. *)
Lemma request_start_ends v lag weight : in_i128 v -> in_i128 lag -> in_u128 weight ->
  ends (request_start v lag weight) (fun s => s = v - lag / weight /\ in_i128 s /\ 0 < weight).
Proof.
  intros Hv Hl Hw. unfold request_start. eapply ends_bind; [by apply signed_ceil_neg_div_ends|]. intros o (-> & Ho & Hw0).
  apply ends_option. intros s Hs. apply checked_add_i128_some in Hs as [-> Hs]. split; [lia|done].
Qed.

(** ** Fractions in lowest terms *)

Lemma gcd_pos_r n d : 0 < d -> 0 < Z.gcd n d.
Proof. intros Hd. pose proof (Z.gcd_nonneg n d). destruct (Z.eq_dec (Z.gcd n d) 0) as [E|]; [apply Z.gcd_eq_0_r in E; lia|lia]. Qed.

(** The quotient of a divisor. *)
Lemma gcd_quotients n d : 0 < d -> let g := Z.gcd n d in
  n = g * (n / g) /\ d = g * (d / g) /\ 0 < d / g /\ Z.gcd (n / g) (d / g) = 1.
Proof.
  intros Hd g. pose proof (gcd_pos_r n d Hd) as Hg. fold g in Hg. assert (n = g * (n / g)) as En.
  { apply Z.div_exact; [lia|]. apply Z.mod_divide; [lia|]. apply Z.gcd_divide_l. }
  assert (d = g * (d / g)) as Ed by (apply Z.div_exact; [lia|]; apply Z.mod_divide; [lia|]; apply Z.gcd_divide_r).
  split; [done|]. split; [done|]. split; [nia|]. apply Z.gcd_div_gcd; [lia|done].
Qed.

Lemma lowest_terms n d n' d' : 0 < d -> 0 < d' -> n * d' = n' * d -> Z.gcd n d = 1 -> n = n' / Z.gcd n' d' /\ d = d' / Z.gcd n' d'.
Proof.
  intros Hd Hd' E Hg. destruct (gcd_quotients n' d' Hd') as (En & Ed & Hq & Hgq). set (g := Z.gcd n' d') in *. set (a := n' / g) in *. set (b := d' / g) in *.
  pose proof (gcd_pos_r n' d' Hd'). fold g in H. assert (n * b = a * d) as E' by (rewrite En, Ed in E; nia).
  assert (d = b) as ->; [|split; nia]. apply Z.divide_antisym_nonneg; [lia|lia| |].
  - apply (Z.gauss d n b); [exists a; lia|by rewrite Z.gcd_comm].
  - apply (Z.gauss b a d); [exists n; lia|by rewrite Z.gcd_comm].
Qed.

Lemma gcd1_mul a b c : Z.gcd a b = 1 -> Z.gcd a c = 1 -> Z.gcd a (b * c) = 1.
Proof. rewrite !Znumtheory.Zgcd_1_rel_prime. apply Znumtheory.rel_prime_mult. Qed.
Lemma gcd1_divisors a b c e : Z.gcd a b = 1 -> (c | a) -> (e | b) -> Z.gcd c e = 1.
Proof.
  intros H Hc He. apply Z.divide_1_r_nonneg; [apply Z.gcd_nonneg|]. rewrite <- H. apply Z.gcd_greatest.
  - etransitivity; [apply Z.gcd_divide_l|done].
  - etransitivity; [apply Z.gcd_divide_r|done].
Qed.

(** The difference of two reduced fractions, over the least common
    denominator: what can still be cancelled divides the common part of the
    denominators. *)
Lemma reduced_difference_coprime n ld rd sn g : 0 < g -> Z.gcd n (ld * g) = 1 -> Z.gcd sn (rd * g) = 1 -> Z.gcd ld rd = 1 ->
  let N := n * rd - sn * ld in let rg := Z.gcd N g in
  0 < rg /\ N = rg * (N / rg) /\ g = rg * (g / rg) /\ Z.gcd (N / rg) (ld * (g / rg) * rd) = 1.
Proof.
  intros Hg Hn Hs Hlr N rg. destruct (gcd_quotients N g Hg) as (EN & Eg & Hq & Hc). fold rg in EN, Eg, Hq, Hc. pose proof (gcd_pos_r N g Hg) as Hrg.
  split; [done|]. split; [done|]. split; [done|]. assert (N / rg | N) as HdN by (exists rg; lia).
  assert (Z.gcd N ld = 1) as Hld.
  { unfold N. replace (n * rd - sn * ld) with (n * rd + (- sn) * ld) by lia. rewrite Z.gcd_comm, Z.gcd_add_mult_diag_r. apply gcd1_mul; [|done].
    rewrite Z.gcd_comm. apply (gcd1_divisors _ _ n ld Hn); [done|]. exists g. lia. }
  assert (Z.gcd N rd = 1) as Hrd.
  { unfold N. replace (n * rd - sn * ld) with (- (sn * ld) + n * rd) by lia. rewrite Z.gcd_comm, Z.gcd_add_mult_diag_r, Z.gcd_opp_r.
    apply gcd1_mul; rewrite Z.gcd_comm; [|done]. apply (gcd1_divisors _ _ sn rd Hs); [done|]. exists g. lia. }
  apply gcd1_mul; [apply gcd1_mul; [|done]|]; [apply (gcd1_divisors N ld)|apply (gcd1_divisors N rd)]; done.
Qed.

(** ** Requests *)

(** The exact remaining service, rounded up to fixed work units. *)
Abbreviation service_left q num den := (cdiv (num * q * WORK) den).

Lemma projection_work q num den : 0 < den -> num * q / den * WORK + cdiv ((num * q) mod den * WORK) den = service_left q num den.
Proof.
  intros Hd. set (w := num * q / den). set (f := (num * q) mod den). pose proof (Z.div_mod (num * q) den ltac:(lia)) as E. fold w f in E.
  pose proof (cdiv_bounds (f * WORK) den Hd). apply cdiv_unique; [done|]. rewrite E. nia.
Qed.

Lemma projection_spec q num den : 0 < q <= u128_MAX -> 0 < den <= u128_MAX -> 0 <= num <= den ->
  projection q num den = if service_left q num den <=? u128_MAX then Value (service_left q num den, cdiv (service_left q num den) WORK)
                         else Error ArithmeticExhausted.
Proof.
  intros Hq Hd Hn. unfold projection. rewrite (proj2 (Z.eqb_neq q 0)), (proj2 (Z.eqb_neq den 0)), (proj2 (Z.ltb_ge den num)) by lia. cbn [orb].
  assert (num * q / den <= u128_MAX) as Hw by (apply Z.div_le_upper_bound; nia). rewrite checked_mul_div_rem_spec by (split; lia).
  rewrite (proj2 (Z.leb_le _ _) Hw). cbn [mbind comp_bind]. pose proof (Z.mod_pos_bound (num * q) den ltac:(lia)) as Hm.
  pose proof (projection_work q num den ltac:(lia)) as E. set (w := num * q / den) in *. set (f := (num * q) mod den) in *.
  assert (0 <= w) by (apply Z.div_pos; lia). assert (0 <= cdiv (f * WORK) den <= WORK) as Hc.
  { pose proof (cdiv_bounds (f * WORK) den ltac:(lia)). pose proof WORK_pos. split; [apply cdiv_nonneg; lia|nia]. }
  assert ((if f =? 0 then mret 0 else checked_mul_div_ceil f WORK den) = Value (E := ModelError) (cdiv (f * WORK) den)) as ->.
  { destruct (Z.eqb_spec f 0) as [->|]; [cbn [mret comp_ret]; f_equal; apply cdiv_unique; lia|]. rewrite checked_mul_div_ceil_spec by (try done; split; lia).
    by rewrite (proj2 (Z.leb_le _ u128_MAX)) by (unfold WORK, u128_MAX in *; lia). }
  cbn [mbind comp_bind]. unfold checked_mul_u128, checked_add_u128. set (c := cdiv (f * WORK) den) in *. rewrite <- E.
  destruct (Z.leb_spec (w * WORK) u128_MAX); cbn [ok_or_else mbind comp_bind]; [|by rewrite (proj2 (Z.leb_gt _ u128_MAX)) by lia].
  destruct (Z.leb_spec (w * WORK + c) u128_MAX); cbn [ok_or_else mbind comp_bind]; [|done].
  rewrite checked_ceil_div_spec; [done| |done]. pose proof WORK_pos. split; lia.
Qed.

Definition request_ok (r : Request) : Prop :=
  0 < req_q r <= u128_MAX /\ 0 < fraction_den r <= u128_MAX /\ 0 <= fraction_num r <= fraction_den r /\ Z.gcd (fraction_num r) (fraction_den r) = 1 /\
  remaining_work r = service_left (req_q r) (fraction_num r) (fraction_den r) /\ remaining_work r <= u128_MAX /\
  remaining_ticks r = cdiv (remaining_work r) WORK.

Lemma exact_valid_ok r : request_ok r -> exact_valid r = Value tt.
Proof.
  intros (Hq & Hd & Hn & _ & Hw & Hle & Ht). unfold exact_valid. rewrite projection_spec by done. rewrite <- Hw, <- Ht, (proj2 (Z.leb_le _ _) Hle).
  cbn [mbind comp_bind]. by rewrite !Z.eqb_refl.
Qed.

(** A request with the fraction [num/den] in lowest terms. *)
Definition at_fraction (num den : Z) (r : Request) : Request :=
  let g := Z.gcd num den in
  let work := service_left (req_q r) (num / g) (den / g) in with_fraction (num / g) (den / g) work (cdiv work WORK) r.

Lemma service_left_cancel q num den g n d : 0 < g -> 0 < d -> num = g * n -> den = g * d -> service_left q num den = service_left q n d.
Proof. intros Hg Hd -> ->. rewrite <- !Z.mul_assoc. by apply cdiv_cancel. Qed.

Lemma at_fraction_ok num den r : 0 < req_q r <= u128_MAX -> 0 < den -> den / Z.gcd num den <= u128_MAX -> 0 <= num <= den -> service_left (req_q r) num den <= u128_MAX ->
  request_ok (at_fraction num den r).
Proof.
  intros Hq Hd Hfit Hn Hw. destruct (gcd_quotients num den Hd) as (En & Ed & Hpos & Hg). pose proof (gcd_pos_r num den Hd) as Hg0.
  rewrite (service_left_cancel _ _ _ _ _ _ Hg0 Hpos En Ed) in Hw. unfold request_ok, at_fraction. cbn. split; [done|]. split; [lia|]. split; [nia|]. done.
Qed.

Lemma set_fraction_spec num den r : 0 < req_q r <= u128_MAX -> 0 < den <= u128_MAX -> 0 <= num <= den ->
  set_fraction num den r = if service_left (req_q r) num den <=? u128_MAX then Done tt (at_fraction num den r) else Fail ArithmeticExhausted r.
Proof.
  intros Hq Hd Hn. destruct (gcd_quotients num den ltac:(lia)) as (En & Ed & Hpos & Hg). pose proof (gcd_pos_r num den ltac:(lia)) as Hg0.
  unfold set_fraction, at_fraction. rewrite staged_bind, gcd_u128_spec by (try split; lia). set (g := Z.gcd num den) in *.
  rewrite staged_bind, (proj2 (Z.eqb_neq g 0)) by lia. unfold checked_div_u128. rewrite (proj2 (Z.eqb_neq g 0)) by lia.
  cbn [ok_or_else mbind comp_bind mret comp_ret]. rewrite gets_bind, staged_bind, projection_spec by nia.
  rewrite (service_left_cancel _ _ _ _ _ _ Hg0 Hpos En Ed). by destruct (service_left _ _ _ <=? u128_MAX).
Qed.

(** ** Service *)

(** The arm through 256 bits. *)
Lemma wide_difference_spec num rd sn ld dg : in_u128 num -> in_u128 rd -> in_u128 sn -> in_u128 ld -> 0 < dg <= u128_MAX -> sn * ld <= num * rd ->
  let N := num * rd - sn * ld in let rg := Z.gcd N dg in
  wide_difference num rd sn ld dg = if N / rg <=? u128_MAX then Value (N / rg, rg) else Error ArithmeticExhausted.
Proof.
  intros Hn Hr Hs Hl Hd Hle N rg. pose proof (gcd_pos_r N dg ltac:(lia)) as Hg. fold rg in Hg. destruct (gcd_quotients N dg ltac:(lia)) as (EN & _). fold rg in EN.
  unfold wide_difference. destruct (wide_mul_u128_spec num rd Hn Hr) as (A & -> & HA & EA), (wide_mul_u128_spec sn ld Hs Hl) as (D & -> & HD & ED).
  cbn [or_error mbind comp_bind]. rewrite wide_cmp_spec by done. cbn [mbind comp_bind]. rewrite EA, ED.
  destruct (wide_sub_spec A D HA HD) as [HW EW]. rewrite EA, ED in EW. fold N in EW. pose proof (wide_range _ HA). pose proof (wide_range _ HD).
  rewrite Z.mod_small in EW by lia. assert ((num * rd ?= sn * ld) <> Lt) as Hcmp by (rewrite Z.compare_lt_iff; lia).
  set (W := wide_wrapping_sub A D) in *. assert ((if dg =? 1 then mret 1 else left_mod ← wide_rem_u128 W dg; gcd_u128 left_mod dg) = Value (E := ModelError) rg) as Egcd.
  { destruct (Z.eqb_spec dg 1) as [->|]; [cbn; f_equal; symmetry; apply Z.gcd_1_r|]. rewrite wide_rem_spec by done. cbn [mbind comp_bind].
    pose proof (Z.mod_pos_bound (wval (limbs W)) dg ltac:(lia)). rewrite gcd_u128_spec by (try split; lia). rewrite EW, Z.gcd_mod by lia. f_equal. apply Z.gcd_comm. }
  assert (rg <= u128_MAX) by (pose proof (Z.divide_pos_le rg dg ltac:(lia) (Z.gcd_divide_r N dg)); lia).
  destruct (wide_div_exact_spec W rg HW ltac:(lia)) as (Q & EQ & HQ & EvQ); [rewrite EW; apply Z.mod_divide; [lia|apply Z.gcd_divide_l]|].
  assert (forall m : model (Z * Z), match num * rd ?= sn * ld with Lt => Error InvalidState | _ => m end = m) as Hm by (intros; by destruct (num * rd ?= sn * ld)).
  rewrite Hm, Egcd. cbn [mbind comp_bind]. rewrite EQ. cbn [mbind comp_bind]. rewrite wide_low_spec, EvQ, EW by done. by destruct (N / rg <=? u128_MAX).
Qed.

Lemma reduce_by_gcd N dg : 0 <= N -> 0 < dg <= u128_MAX ->
  (reduced_gcd ← gcd_u128 (E := ModelError) N dg; numerator ← raw_div N reduced_gcd; mret (numerator, reduced_gcd)) = Value (N / Z.gcd N dg, Z.gcd N dg).
Proof.
  intros HN Hd. rewrite gcd_u128_spec by (try split; lia). pose proof (gcd_pos_r N dg ltac:(lia)). cbn [mbind comp_bind]. unfold raw_div.
  by rewrite (proj2 (Z.eqb_neq (Z.gcd N dg) 0)) by lia.
Qed.

Lemma reduced_difference_spec num rd sn ld dg : in_u128 num -> in_u128 rd -> in_u128 sn -> in_u128 ld -> 0 < dg <= u128_MAX -> sn * ld <= num * rd ->
  let N := num * rd - sn * ld in let rg := Z.gcd N dg in
  reduced_difference num rd sn ld dg = if N / rg <=? u128_MAX then Value (N / rg, rg) else Error ArithmeticExhausted.
Proof.
  intros Hn Hr Hs Hl Hd Hle. pose proof (wide_difference_spec num rd sn ld dg Hn Hr Hs Hl Hd Hle) as Hwide. cbv zeta in *.
  unfold reduced_difference. rewrite Hwide. clear Hwide. unfold checked_mul_u128.
  destruct (Z.leb_spec (num * rd) u128_MAX) as [H1|H1]; [|done]. destruct (Z.leb_spec (sn * ld) u128_MAX) as [H2|H2]; [|done].
  unfold checked_sub_u128. rewrite (proj2 (Z.leb_le _ _) Hle). assert (num * rd - sn * ld <= u128_MAX) as HN by (destruct Hs, Hl; nia).
  assert (0 <= num * rd - sn * ld) as HN0 by lia. generalize dependent (num * rd - sn * ld). clear -Hd. intros N HN HN0.
  pose proof (gcd_pos_r N dg ltac:(lia)) as Hg. rewrite (proj2 (Z.leb_le _ u128_MAX)) by (apply Z.div_le_upper_bound; nia).
  cbn [ok_or_else]. rewrite value_bind. by apply reduce_by_gcd.
Qed.

(** A fraction in lowest terms determines the request. *)
Lemma at_fraction_lowest n d n' d' r : 0 < d -> 0 < d' -> n * d' = n' * d -> Z.gcd n d = 1 -> at_fraction n d r = at_fraction n' d' r.
Proof.
  intros Hd Hd' E Hg. destruct (lowest_terms n d n' d' Hd Hd' E Hg) as [En Ed]. unfold at_fraction. rewrite Hg, !Z.div_1_r, <- En, <- Ed. done.
Qed.

Lemma at_fraction_same r : request_ok r -> at_fraction (fraction_num r) (fraction_den r) r = r.
Proof.
  intros (_ & _ & _ & Hg & Hw & _ & Ht). unfold at_fraction. rewrite Hg, !Z.div_1_r, <- Hw, <- Ht. by destruct r.
Qed.

(** The remaining fraction after [s] of [q * ONE] service ticks. *)
Definition left_num (r : Request) (s : Z) : Z := fraction_num r * (req_q r * ONE) - s * fraction_den r.
Definition left_den (r : Request) : Z := fraction_den r * (req_q r * ONE).

Lemma left_den_pos r : request_ok r -> 0 < left_den r.
Proof. intros (Hq & Hd & _). unfold left_den, ONE. nia. Qed.

Lemma service_left_after r s : request_ok r -> 0 <= s -> service_left (req_q r) (left_num r s) (left_den r) <= u128_MAX.
Proof.
  intros Hr Hs. pose proof (left_den_pos r Hr) as Hpos. destruct Hr as (Hq & Hd & _ & _ & Hw & Hle & _). rewrite Hw in Hle.
  etransitivity; [|exact Hle]. assert (0 < req_q r * ONE) by (unfold ONE; lia).
  rewrite <- (service_left_cancel (req_q r) (fraction_num r * (req_q r * ONE)) (left_den r) (req_q r * ONE) (fraction_num r) (fraction_den r)) by (unfold left_den; lia).
  apply cdiv_le; [done|]. unfold left_num. pose proof WORK_pos. nia.
Qed.

(** The fractions of [next_after_service] in the general case. *)
Lemma service_fractions r s : request_ok r -> 0 < s -> 0 < left_num r s ->
  let D := req_q r * ONE in
  let sn := s / Z.gcd s D in let sd := D / Z.gcd s D in
  let g := Z.gcd (fraction_den r) sd in let ld := fraction_den r / g in let rd := sd / g in
  let N := fraction_num r * rd - sn * ld in let rg := Z.gcd N g in
  (0 < sd <= D /\ 0 < sn <= s /\ 0 < g <= fraction_den r /\ 0 < ld <= fraction_den r /\ 0 < rd <= D) /\ 0 < N /\ 0 < rg /\
  let n' := N / rg in let d' := ld * (g / rg) * rd in
  n' * left_den r = left_num r s * d' /\ 0 < d' /\ 0 < g / rg /\ Z.gcd n' d' = 1.
Proof.
  intros (Hq & Hd & Hn & Hred & _) Hs HN0 D sn sd g ld rd N rg. assert (0 < D) as HD by (unfold D, ONE; lia). unfold left_num, left_den in *. fold D in HN0 |- *.
  destruct (gcd_quotients s D HD) as (Es & ED & Hsd & Hcs). fold sn sd in Es, ED, Hsd, Hcs. pose proof (gcd_pos_r s D HD) as Hg1. set (g1 := Z.gcd s D) in *.
  destruct (gcd_quotients (fraction_den r) sd Hsd) as (Eden & Esd & Hrd & Hcl). fold g ld rd in Eden, Esd, Hrd, Hcl. pose proof (gcd_pos_r (fraction_den r) sd Hsd) as Hg. fold g in Hg.
  assert (0 < ld) as Hld by nia. assert (0 < sn) as Hsn by nia.
  assert (fraction_num r * D - s * fraction_den r = g1 * g * N) as EN0.
  { unfold N. clear -Es ED Eden Esd. clearbody rd ld g sd sn g1. clearbody D. rewrite Es, ED, Esd, Eden. ring. }
  assert (0 < N) as HN by (rewrite EN0 in HN0; assert (0 < g1 * g) by nia; nia).
  assert (Z.gcd (fraction_num r) (ld * g) = 1) as H1 by (by rewrite Z.mul_comm, <- Eden). assert (Z.gcd sn (rd * g) = 1) as H2 by (by rewrite Z.mul_comm, <- Esd).
  destruct (reduced_difference_coprime (fraction_num r) ld rd sn g Hg H1 H2 Hcl) as (Hrg & EN & Eg & Hc). fold N in Hrg, EN, Eg, Hc. fold rg in Hrg, EN, Eg, Hc.
  assert (0 < g / rg) as Hgr by nia. split; [|split; [done|split; [done|]]].
  - assert (sd <= D) by nia. assert (sn <= s) by nia. assert (g <= fraction_den r) by nia. assert (ld <= fraction_den r) by nia. assert (rd <= sd) by nia. lia.
  - cbv zeta. split; [|split; [|done]].
    + rewrite EN0. clear -ED Esd Eden EN Eg. clearbody rg. clearbody N. clearbody ld rd. clearbody g. clearbody sd. clearbody g1. clearbody D.
      set (n' := N / rg) in *. set (g' := g / rg) in *. clearbody n' g'. rewrite ED, Eden, Esd, EN, Eg. ring.
    + apply Z.mul_pos_pos; [apply Z.mul_pos_pos|]; lia.
Qed.

(** The last case: the service is positive and smaller than what is left. *)
Lemma service_general r s : request_ok r -> req_q r * ONE <= u128_MAX -> 0 < s <= u128_MAX -> 0 < left_num r s ->
  (service_gcd ← gcd_u128 s (req_q r * ONE);
   service_num ← raw_div s service_gcd;
   service_den ← raw_div (req_q r * ONE) service_gcd;
   denominator_gcd ← gcd_u128 (fraction_den r) service_den;
   left_den ← raw_div (fraction_den r) denominator_gcd;
   right_den ← raw_div service_den denominator_gcd;
   '(numerator, reduced_gcd) ← reduced_difference (fraction_num r) right_den service_num left_den denominator_gcd;
   common ← raw_div denominator_gcd reduced_gcd;
   denominator ← ok_or_else (value ← checked_mul_u128 left_den common; checked_mul_u128 value right_den) ArithmeticExhausted;
   on_copy (set_fraction numerator denominator) r) =
  if left_den r / Z.gcd (left_num r s) (left_den r) <=? u128_MAX then Value (at_fraction (left_num r s) (left_den r) r) else Error ArithmeticExhausted.
Proof.
  intros Hr HD Hs HN0. pose proof (service_fractions r s Hr ltac:(lia) HN0) as H. cbv zeta in H. pose proof (left_den_pos r Hr) as Hpos. pose proof (service_left_after r s Hr ltac:(lia)) as Hfit.
  pose proof Hr as (Hq & Hd & Hn & _). set (D := req_q r * ONE) in *. set (sn := s / Z.gcd s D) in *. set (sd := D / Z.gcd s D) in *.
  set (g := Z.gcd (fraction_den r) sd) in *. set (ld := fraction_den r / g) in *. set (rd := sd / g) in *. set (N := fraction_num r * rd - sn * ld) in *. set (rg := Z.gcd N g) in *.
  destruct H as ((Hsd & Hsn & Hg & Hld & Hrd) & HN & Hrg & Heq & Hd' & Hgr & Hc).
  assert (0 < D) by (unfold D, ONE; lia). assert (0 < Z.gcd s D) by (by apply gcd_pos_r). unfold raw_div.
  rewrite (gcd_u128_spec s D) by (try split; lia). rewrite value_bind, (proj2 (Z.eqb_neq (Z.gcd s D) 0)), !value_bind by lia. fold sn sd.
  rewrite (gcd_u128_spec _ sd) by (try split; lia). rewrite value_bind. fold g. rewrite (proj2 (Z.eqb_neq g 0)), !value_bind by lia. fold ld rd.
  rewrite reduced_difference_spec by (try split; lia). fold N rg. set (n' := N / rg) in *. set (g' := g / rg) in *.
  assert (n' <= ld * g' * rd) as Hle.
  { assert (left_num r s <= left_den r) by (unfold left_num, left_den; nia). nia. }
  destruct (lowest_terms n' (ld * g' * rd) _ _ Hd' Hpos Heq Hc) as [_ <-].
  destruct (Z.leb_spec n' u128_MAX); [|cbn [mbind comp_bind]; rewrite (proj2 (Z.leb_gt _ u128_MAX)); [done|lia]].
  rewrite value_bind, (proj2 (Z.eqb_neq rg 0)), value_bind by lia. fold g'. unfold checked_mul_u128.
  destruct (Z.leb_spec (ld * g') u128_MAX); cbn [mbind option_bind ok_or_else comp_bind]; [|rewrite (proj2 (Z.leb_gt _ u128_MAX)); [done|nia]].
  destruct (Z.leb_spec (ld * g' * rd) u128_MAX); cbn [ok_or_else]; [|done]. assert (0 <= n') by (apply Z.div_pos; lia).
  rewrite ?value_bind. unfold on_copy. rewrite set_fraction_spec by (done || lia). rewrite (at_fraction_lowest n' _ _ _ r Hd' Hpos Heq Hc).
  rewrite (proj2 (Z.leb_le _ u128_MAX)); [done|]. etransitivity; [|exact Hfit]. apply Z.eq_le_incl.
  destruct (lowest_terms n' (ld * g' * rd) _ _ Hd' Hpos Heq Hc) as [E1 E2]. destruct (gcd_quotients (left_num r s) (left_den r) Hpos) as (F1 & F2 & F3 & _).
  rewrite E1, E2. symmetry. apply (service_left_cancel _ _ _ (Z.gcd (left_num r s) (left_den r))); [apply gcd_pos_r|..]; done.
Qed.

(** [next_after_service] computes the exact fraction that is left, in lowest
    terms; it fails only if that fraction is not representable. *)
Lemma next_after_service_spec r work saturating : request_ok r -> in_u128 work ->
  let s := work / NICE_0 in
  next_after_service r work saturating =
    if negb (work mod NICE_0 =? 0) then Error InvalidState
    else if u128_MAX <? req_q r * ONE then Error ArithmeticExhausted
    else if left_num r s <? 0 then (if saturating then Value (at_fraction 0 1 r) else Error InvalidState)
    else if left_den r / Z.gcd (left_num r s) (left_den r) <=? u128_MAX then Value (at_fraction (left_num r s) (left_den r) r)
    else Error ArithmeticExhausted.
Proof.
  intros Hr Hw s. unfold next_after_service. rewrite (exact_valid_ok r Hr), value_bind. destruct (work mod NICE_0 =? 0); cbn [negb]; [|done].
  pose proof Hr as (Hq & Hd & Hn & Hred & _). change (checked_mul_u128 (req_q r) ONE) with (if req_q r * ONE <=? u128_MAX then Some (req_q r * ONE) else None).
  set (D := req_q r * ONE) in *. assert (0 < D) as HD by (unfold D, ONE; lia).
  destruct (Z.leb_spec D u128_MAX) as [HDm|HDm]; [rewrite (proj2 (Z.ltb_ge _ _) HDm)|by rewrite (proj2 (Z.ltb_lt _ _) HDm)]. cbn [ok_or_else]. rewrite value_bind.
  assert (0 <= fraction_num r * D / fraction_den r <= D) as Hfl by (split; [apply Z.div_pos; lia|apply Z.div_le_upper_bound; nia]).
  rewrite checked_mul_div_rem_spec by (try split; lia). rewrite (proj2 (Z.leb_le _ u128_MAX)), value_bind by lia. fold s.
  pose proof (Z.div_mod (fraction_num r * D) (fraction_den r) ltac:(lia)) as E. pose proof (Z.mod_pos_bound (fraction_num r * D) (fraction_den r) ltac:(lia)) as Hm.
  set (fl := fraction_num r * D / fraction_den r) in *. set (rm := (fraction_num r * D) mod fraction_den r) in *.
  assert (left_num r s = (fl - s) * fraction_den r + rm) as EN by (unfold left_num; fold D; lia).
  assert (on_copy (set_fraction 0 1) r = Value (at_fraction 0 1 r)) as Ezero.
  { unfold on_copy. rewrite set_fraction_spec by lia. by rewrite (proj2 (Z.leb_le _ u128_MAX)) by (rewrite <- (cdiv_unique _ 1 0); lia). }
  rewrite Ezero. pose proof (left_den_pos r Hr) as Hpos. destruct (Z.ltb_spec fl s).
  { rewrite (proj2 (Z.ltb_lt (left_num r s) 0)) by nia. by destruct saturating. }
  rewrite (proj2 (Z.ltb_ge (left_num r s) 0)) by nia. destruct ((s =? fl) && (rm =? 0)) eqn:E0.
  { apply andb_true_iff in E0 as [E1%Z.eqb_eq E2%Z.eqb_eq]. assert (left_num r s = 0) as -> by nia. rewrite Z.gcd_0_l, Z.abs_eq, Z.div_same by lia.
    by rewrite (at_fraction_lowest 0 1 0 (left_den r) r). }
  assert (0 < left_num r s) as HN0. { apply andb_false_iff in E0 as [E0%Z.eqb_neq|E0%Z.eqb_neq]; nia. }
  assert (0 <= s <= u128_MAX) as Hs.
  { destruct Hw. unfold s, NICE_0. split; [by apply Z.div_pos|]. apply Z.div_le_upper_bound; lia. }
  destruct (Z.eqb_spec s 0) as [Es|Es].
  { rewrite Es in *. destruct (lowest_terms (fraction_num r) (fraction_den r) (left_num r 0) (left_den r)) as [_ <-]; [lia|done|unfold left_num, left_den; lia|done|].
    rewrite (proj2 (Z.leb_le _ u128_MAX)) by lia. rewrite <- (at_fraction_lowest (fraction_num r) (fraction_den r)); [|lia|done|unfold left_num, left_den; lia|done].
    by rewrite at_fraction_same. }
  apply service_general; [done|done|lia|done].
Qed.

Section Spec.
Context (profile : EevdfProfile) (Hp : selected profile).

Lemma request_quantum_ends class weight total : in_u128 weight -> in_u128 total ->
  ends (request_quantum profile class weight total)
    (fun q => 1 <= q <= target_ticks profile class /\ 0 < weight /\ 0 < total /\ q = Z.max 1 (Z.min (cdiv (target_ticks profile class * weight) total) (target_ticks profile class))).
Proof.
  intros Hw Ht. destruct (selected_facts profile Hp) as (Htt & _). specialize (Htt class). unfold request_quantum.
  destruct (Z.eqb_spec weight 0); [done|]. destruct (Z.eqb_spec total 0); [done|]. cbn [orb]. destruct Hw, Ht.
  pose proof (cdiv_bounds (target_ticks profile class * weight) total ltac:(lia)). destruct (Z.leb_spec total weight).
  - cbn. split; [lia|]. split; [lia|]. split; [lia|]. nia.
  - eapply ends_bind; [apply checked_ceil_ends; widths; lia|]. intros q [-> Hq]. cbn. lia.
Qed.
End Spec.
