(* ===== verification/EevdfEntity.v ===== *)
(** The EEVDF value layer, part 3: the invariant of the clock and of an entity,
    and that every operation keeps it, changes nothing when it fails, and never
    crashes. *)

From S2P Require Import Prelude Effects EevdfMath EevdfMathSpec EevdfWide EevdfModel EevdfModelSpec.
Local Open Scope Z_scope.
#[local] Opaque gcd_u128 checked_mul_div_rem checked_div_129 checked_mul_div_ceil checked_ratio_ceil wide_mul_u128 wide_rem_u128 wide_div_exact_u128.

(** ** The clock *)

Definition clock_ok (c : Clock) : Prop :=
  in_i128 (clock_v c) /\ in_u128 (total_weight c) /\ in_u128 (accounted_ticks c) /\
  0 <= clock_remainder c /\ (clock_remainder c = 0 \/ clock_remainder c < total_weight c).

(** What an advance by [work] does to the clock: [v * W + remainder] grows by the
    work. *)
Definition advanced (c : Clock) (work ticks : Z) (n : ClockAdvance) : Prop :=
  adv_v n = clock_v c + delta_v n /\ in_i128 (adv_v n) /\ 0 <= delta_v n /\
  delta_v n * total_weight c + adv_remainder n = work + clock_remainder c /\
  0 <= adv_remainder n /\ (adv_remainder n = 0 \/ adv_remainder n < total_weight c) /\
  adv_accounted_ticks n = accounted_ticks c + ticks /\ in_u128 (adv_accounted_ticks n) /\ (work <> 0 -> 0 < total_weight c).

Lemma preview_product_ends c a b ticks : clock_ok c -> in_u128 a -> in_u128 b -> 0 <= ticks ->
  ends (preview_product c a b ticks) (advanced c (a * b) ticks).
Proof.
  intros (Hv & HW & Ha & Hr & Hrw) HA HB Ht. unfold preview_product. destruct (Z.eqb_spec (total_weight c) 0); [done|].
  destruct (Z.leb_spec (total_weight c) (clock_remainder c)); [done|]. set (W := total_weight c) in *. assert (0 < W <= u128_MAX) as HW' by (destruct HW; lia).
  rewrite checked_mul_div_rem_spec by done. destruct (Z.leb_spec (a * b / W) u128_MAX); [|done]. rewrite value_bind.
  pose proof (Z.mod_pos_bound (a * b) W ltac:(lia)) as Hm. pose proof (Z.div_mod (a * b) W ltac:(lia)) as E1. set (r1 := (a * b) mod W) in *.
  pose proof (add_div r1 (clock_remainder c) W ltac:(lia) Hr ltac:(lia) ltac:(lia) HW') as Ed. unfold overflowing_add_u128 in Ed |- *. cbv beta iota in Ed |- *.
  rewrite Ed. clear Ed. pose proof (Z.div_mod (r1 + clock_remainder c) W ltac:(lia)) as E2. pose proof (Z.mod_pos_bound (r1 + clock_remainder c) W ltac:(lia)) as Hm2.
  assert (0 <= (r1 + clock_remainder c) / W) by (apply Z.div_pos; lia). assert (0 <= a * b / W) by (destruct HA, HB; apply Z.div_pos; lia).
  destruct (Z.leb_spec ((r1 + clock_remainder c) / W) u128_MAX); [|done]. rewrite value_bind.
  eapply ends_bind; [apply ends_option; intros d Hd; exact (checked_add_u128_some _ _ _ Hd)|]. cbv beta. intros d [-> Hd].
  eapply ends_bind; [apply checked_i128_ends|]. cbv beta. intros d [-> Hd'].
  eapply ends_bind; [apply ends_option; intros v' Hv'; exact (checked_add_i128_some _ _ _ Hv')|]. cbv beta. intros v' [-> Hv'].
  eapply ends_bind; [apply ends_option; intros t Ht'; exact (checked_add_u128_some _ _ _ Ht')|]. cbv beta. intros t [-> Ht'].
  cbn. unfold advanced. cbn. fold W. destruct Ha. split; [done|]. split; [done|]. split; [lia|]. split; [lia|]. split; [lia|]. split; [lia|]. split; [done|]. split; [split; lia|lia].
Qed.

Lemma preview_work_ends c work ticks : clock_ok c -> in_u128 work -> 0 <= ticks -> ends (preview_work_with_ticks c work ticks) (advanced c work ticks).
Proof.
  intros Hc Hw Ht. unfold preview_work_with_ticks. destruct (Z.eqb_spec work 0) as [->|].
  - eapply ends_bind; [apply ends_option; intros t Ht'; exact (checked_add_u128_some _ _ _ Ht')|]. cbv beta. intros t [-> Ht'].
    destruct Hc as (Hv & HW & [] & Hr & Hrw). unfold advanced. cbn. widths. split_and!; lia.
  - rewrite <- (Z.mul_1_r work) at 2. by apply preview_product_ends.
Qed.

Lemma preview_advance_ends c ticks : clock_ok c -> in_u128 ticks -> ends (preview_advance c ticks) (advanced c (ticks * WORK) ticks).
Proof.
  intros Hc Ht. unfold preview_advance. destruct (Z.eqb_spec ticks 0) as [->|]; [by apply preview_work_ends|].
  apply preview_product_ends; [done|done|done|apply Ht].
Qed.

Lemma advanced_ok c work ticks n : clock_ok c -> advanced c work ticks n -> clock_ok (mkClock (adv_v n) (adv_remainder n) (total_weight c) (adv_accounted_ticks n)).
Proof. intros (_ & HW & _) (_ & Hv & _ & _ & Hr & Hrw & _ & Ha & _). by unfold clock_ok. Qed.

(** ** Rules for methods *)

Section Rules.
Context {S : Type}.
Implicit Types (s : S).

(** A method that keeps [I] and changes nothing when it fails. *)
Definition keeps (I : S -> Prop) {A} (m : M S ModelError A) : Prop := forall s, I s -> wp m s (fun _ s' => I s') (fun _ s' => s' = s).

Lemma wp_get {A} (f : S -> M S ModelError A) s Q R : wp (f s) s Q R -> wp (get ≫= f) s Q R.
Proof. done. Qed.
Lemma wp_gets {A B} (g : S -> A) (f : A -> M S ModelError B) s Q R : wp (f (g s)) s Q R -> wp (gets g ≫= f) s Q R.
Proof. done. Qed.
Lemma wp_modify (f : S -> S) s (Q : () -> S -> Prop) (R : ModelError -> S -> Prop) : Q tt (f s) -> wp (modify f) s Q R.
Proof. done. Qed.
Lemma wp_modify_bind {A} (f : S -> S) (k : () -> M S ModelError A) s Q R : wp (k tt) (f s) Q R -> wp (modify f ≫= k) s Q R.
Proof. done. Qed.
Lemma wp_throw {A} e s (Q : A -> S -> Prop) (R : ModelError -> S -> Prop) : R e s -> wp (throw e) s Q R.
Proof. done. Qed.
Lemma wp_mret {A} (a : A) s (Q : A -> S -> Prop) (R : ModelError -> S -> Prop) : Q a s -> wp (mret a) s Q R.
Proof. done. Qed.
Lemma wp_run_end {A} (m : model A) s (Q : A -> S -> Prop) (R : ModelError -> S -> Prop) : ends m (fun a => Q a s) -> (forall e, R e s) -> wp (run m) s Q R.
Proof. intros Hm HR. unfold wp, run. by destruct m. Qed.
End Rules.

(** Runs one staged computation with the given lemma about it. *)
Ltac stage lem := eapply wp_run; [eapply lem|done|cbv beta; intros ?].
Ltac refuse := apply wp_throw; reflexivity.

Lemma advance_ticks_keeps ticks : in_u128 ticks -> keeps clock_ok (advance_ticks ticks).
Proof.
  intros Ht c Hc. apply wp_get. stage (preview_advance_ends c ticks Hc Ht). intros Hadv _. apply wp_modify_bind, wp_mret. by eapply advanced_ok.
Qed.

Lemma advance_work_keeps work : in_u128 work -> keeps clock_ok (advance_work work).
Proof.
  intros Hw c Hc. apply wp_get. stage (preview_work_ends c work 0 Hc Hw (Z.le_refl 0)). intros Hadv _. apply wp_modify_bind, wp_mret.
  pose proof (advanced_ok _ _ _ _ Hc Hadv) as H. destruct Hadv as (_ & _ & _ & _ & _ & _ & E & _). by rewrite E, Z.add_0_r in H.
Qed.

Lemma jump_to_keeps v : in_i128 v -> keeps clock_ok (jump_to v).
Proof.
  intros Hv c Hc. apply wp_gets. destruct (v <? clock_v c); [refuse|]. apply wp_modify. destruct Hc as (_ & Hc). by split.
Qed.

Lemma set_total_weight_keeps weight : in_u128 weight -> keeps clock_ok (set_total_weight weight).
Proof.
  intros Hw c (Hv & HW & Ha & Hr & Hrw). apply wp_gets. destruct (Z.eqb_spec (total_weight c) weight) as [E|Hne].
  { destruct (Z.eqb_spec weight 0); [apply wp_modify|apply wp_mret]; unfold clock_ok; cbn; split_and!; try done; auto; lia. }
  destruct (Z.eqb_spec (total_weight c) 0), (Z.eqb_spec weight 0); cbn [orb]; [apply wp_modify; unfold clock_ok; cbn; split_and!; try done; auto..|].
  apply wp_gets. destruct (Z.leb_spec (total_weight c) (clock_remainder c)); [refuse|].
  eapply (wp_run _ _ (fun q => 0 <= q <= u128_MAX)); [|done|].
  { unfold ends. pose proof (checked_round_spec (clock_remainder c) weight (total_weight c)) as Hround. destruct HW.
    specialize (Hround ltac:(split; lia) Hw ltac:(lia)). destruct (checked_mul_div_round_nearest_even _ _ _); [apply Hround|done|done]. }
  intros q Hq _. apply wp_gets. eapply (wp_run _ _ (fun p => in_i128 p.1 /\ 0 <= p.2 /\ (p.2 = 0 \/ p.2 < weight))); [|done|].
  - destruct (Z.compare_spec q weight); cbn; [|split; [done|lia]|done]. apply (ends_bind _ _ in_i128); [apply ends_option; intros v' Hv'; by apply checked_add_i128_some in Hv' as [_ ?]|].
    intros v' Hv'. cbn. split; [done|]. split; [done|by left].
  - intros [v' r'] (Hv' & Hr' & Hrw') _. apply wp_modify. unfold clock_ok. by cbn.
Qed.

(** ** Requests *)

Definition window_ok (r : Request) : Prop := in_i128 (req_start r) /\ in_i128 (req_deadline r).

(** A request of an entity of the given class and weight. *)
Definition request_of (class : RequestClass) (weight : Z) (r : Request) : Prop :=
  request_ok r /\ req_class r = class /\ virtual_length r = cdiv (req_q r * WORK) weight /\ 0 <= virtual_length r <= i128_MAX /\ window_ok r.

(** The service left at the rate of a weight, rounded up to virtual time. *)
Abbreviation virtual_left r weight := (cdiv (fraction_num r * req_q r * WORK) (fraction_den r * weight)).

Lemma remaining_virtual_length_ends r weight : request_ok r -> in_u128 weight ->
  ends (remaining_virtual_length r weight) (fun l => l = virtual_left r weight /\ 0 <= l <= i128_MAX /\ 0 < weight).
Proof.
  intros Hr Hw. unfold remaining_virtual_length. destruct (Z.eqb_spec weight 0); [done|]. rewrite (exact_valid_ok r Hr), value_bind. destruct Hw.
  pose proof Hr as (Hq & Hd & Hn & _). pose proof WORK_pos.
  assert (0 <= virtual_left r weight) by (apply cdiv_nonneg; [nia|]; repeat apply Z.mul_nonneg_nonneg; lia).
  rewrite checked_ratio_ceil_exact by (try done; split; lia). destruct (_ <? 2 ^ 256); [|done]. cbn [andb]. fold (virtual_left r weight).
  destruct (Z.leb_spec (virtual_left r weight) u128_MAX); [|done]. rewrite value_bind. eapply ends_mono; [apply checked_i128_ends|]. intros l [-> Hl]. lia.
Qed.

Lemma set_quantum_ends q r : request_ok r -> in_u128 q ->
  ends (on_copy (set_quantum q) r) (fun r' => request_ok r' /\
    r' = with_quantum q (service_left q (fraction_num r) (fraction_den r)) (cdiv (service_left q (fraction_num r) (fraction_den r)) WORK) r).
Proof.
  intros Hr Hq. apply on_copy_ends. unfold set_quantum. destruct (Z.eqb_spec q 0); [by apply wp_throw|]. destruct Hq. pose proof Hr as (_ & Hd & Hn & Hg & _).
  apply wp_gets, wp_gets. rewrite projection_spec by lia. destruct (Z.leb_spec (service_left q (fraction_num r) (fraction_den r)) u128_MAX); [|done].
  apply wp_modify. split; [|done]. unfold request_ok. cbn. split_and!; try done; lia.
Qed.

(** A request rebound to a quantum, a class and a weight at [anchor]: only the
    remaining fraction of the old one survives. *)
Definition rebound (r : Request) (class : RequestClass) (q weight anchor lag : Z) : Request :=
  let work := service_left q (fraction_num r) (fraction_den r) in
  let start := anchor - lag / weight in
  mkRequest class q (cdiv work WORK) work (fraction_num r) (fraction_den r) (cdiv (q * WORK) weight) start
    (start + cdiv (fraction_num r * q * WORK) (fraction_den r * weight)).

Lemma reconfigured_request_ends e class q weight anchor lag : request_ok (ent_request e) -> in_u128 q -> in_u128 weight -> in_i128 anchor -> in_i128 lag ->
  ends (reconfigured_request e class q weight anchor lag)
    (fun r => r = rebound (ent_request e) class q weight anchor lag /\ request_of class weight r /\ 0 < weight).
Proof.
  intros Hr Hq Hw Ha Hl. unfold reconfigured_request. rewrite (exact_valid_ok _ Hr), value_bind.
  eapply ends_bind; [apply set_quantum_ends; [by destruct (ent_request e)|done]|]. cbv beta. intros r [Hok ->].
  eapply ends_bind; [by apply checked_virtual_length_ends|]. cbv beta. intros full (-> & Hfull & Hw0).
  eapply ends_bind; [by apply remaining_virtual_length_ends|]. cbv beta. intros rest (-> & Hrest & _).
  eapply ends_bind; [by apply request_start_ends|]. cbv beta. intros start (-> & Hstart & _).
  eapply ends_bind; [apply checked_deadline_ends|]. cbv beta. intros deadline [-> Hdl]. cbn. split; [done|]. by unfold request_of, window_ok.
Qed.

Section Requests.
Context (profile : EevdfProfile) (Hp : selected profile).

Lemma request_new_ends class weight total v lag : in_u128 weight -> in_u128 total -> in_i128 v -> in_i128 lag ->
  ends (request_new profile class weight total v lag) (fun r =>
    request_of class weight r /\ fraction_num r = 1 /\ fraction_den r = 1 /\ 1 <= req_q r <= target_ticks profile class /\
    req_start r = v - lag / weight /\ req_deadline r = req_start r + virtual_length r /\ 0 < weight).
Proof.
  intros Hw Ht Hv Hl. unfold request_new. eapply ends_bind; [by apply request_quantum_ends|]. cbv beta. intros q (Hq & Hw0 & _).
  assert (q <= 64) by (destruct (selected_facts profile Hp) as (Htt & _); specialize (Htt class); lia).
  eapply ends_bind; [apply checked_virtual_length_ends; [widths; lia|done]|]. cbv beta. intros len (-> & Hlen & _).
  eapply ends_bind; [by apply request_start_ends|]. cbv beta. intros start (-> & Hstart & _).
  eapply ends_bind; [apply checked_deadline_ends|]. cbv beta. intros deadline [-> Hdl].
  set (r0 := mkRequest _ _ _ _ _ _ _ _ _). assert (service_left (req_q r0) 1 1 <= u128_MAX) as Hs.
  { rewrite <- (cdiv_unique _ 1 (1 * req_q r0 * WORK)) by lia. cbn. unfold WORK, u128_MAX. lia. }
  unfold on_copy. rewrite set_fraction_spec by (cbn; widths; lia). rewrite (proj2 (Z.leb_le _ _) Hs). cbn [ends].
  split; [|cbn; split_and!; lia || done]. split; [apply at_fraction_ok; cbn; widths; (done || lia)|]. unfold window_ok. cbn. split_and!; try done; lia.
Qed.

Lemma yielded_ends r class weight total v lag : req_class r = class -> in_u128 weight -> in_u128 total -> in_i128 v -> in_i128 lag -> in_i128 (req_deadline r) ->
  ends (yielded profile r weight total v lag) (fun r' => request_of class weight r' /\ req_start r' = Z.max (v - lag / weight) (req_deadline r) /\
    req_deadline r' = req_start r' + virtual_length r' /\ fraction_num r' = 1 /\ fraction_den r' = 1).
Proof.
  intros Ec Hw Ht Hv Hl Hd. unfold yielded. rewrite Ec. eapply ends_bind; [by apply request_new_ends|]. cbv beta.
  intros n ((Hok & Hc & Hlen & Hlen' & Hstart & _) & Hnum & Hden & _ & Es & _). eapply ends_bind; [apply checked_deadline_ends|]. cbv beta. intros d [-> Hd'].
  cbn. rewrite Es in *. split; [|done]. unfold request_of, window_ok. cbn. split; [done|]. split; [done|]. split; [done|]. split; [done|]. split; [|done].
  destruct (Z.max_spec (v - lag / weight) (req_deadline r)) as [[_ ->]|[_ ->]]; done.
Qed.
End Requests.

(** Service keeps the request well formed, and consumes what was served. *)
Lemma consume_ends r work : request_ok r -> in_u128 work ->
  ends (on_copy (consume_work_up_to work) r) (fun r' => request_ok r' /\ next_after_service r work true = Value r' /\
    req_class r' = req_class r /\ req_q r' = req_q r /\ virtual_length r' = virtual_length r /\ req_start r' = req_start r /\ req_deadline r' = req_deadline r).
Proof.
  intros Hr Hw. apply on_copy_ends. apply wp_get. assert (ends (next_after_service r work true) (fun r' => exists n d, r' = at_fraction n d r /\ request_ok r')) as H.
  { rewrite next_after_service_spec by done. pose proof (left_den_pos r Hr) as Hpos. pose proof Hr as (Hq & Hd & Hn & _).
    destruct (negb _); [done|]. destruct (u128_MAX <? _); [done|]. destruct (Z.ltb_spec (left_num r (work / NICE_0)) 0).
    - exists 0, 1. split; [done|]. apply at_fraction_ok; try done; lia.
    - destruct (Z.leb_spec (left_den r / Z.gcd (left_num r (work / NICE_0)) (left_den r)) u128_MAX); [|done].
      assert (0 <= work / NICE_0) by (destruct Hw; by apply Z.div_pos). exists (left_num r (work / NICE_0)), (left_den r). split; [done|].
      apply at_fraction_ok; try done; [|by apply service_left_after]. split; [done|]. unfold left_num, left_den, ONE. nia. }
  eapply wp_run; [exact H|done|]. cbv beta. intros r' (n & d & E & Hok) Hnext. apply wp_modify. rewrite E in *. by split_and!.
Qed.

(** ** Entities *)

Definition entity_ok (e : Entity) : Prop :=
  0 < ent_weight e <= u128_MAX /\ in_i128 (ent_lag e) /\ in_i128 (lag_stamp e) /\ request_of (ent_class e) (ent_weight e) (ent_request e) /\
  (forall v, sleeper_v e = Some v -> v = lag_stamp e).

Lemma entity_weight e : entity_ok e -> in_u128 (ent_weight e).
Proof. intros (Hw & _). split; lia. Qed.
Lemma entity_lag e : entity_ok e -> in_i128 (ent_lag e).
Proof. by intros (_ & Hl & _). Qed.
Lemma entity_stamp e : entity_ok e -> in_i128 (lag_stamp e).
Proof. by intros (_ & _ & Hs & _). Qed.
Lemma entity_request e : entity_ok e -> request_ok (ent_request e).
Proof. by intros (_ & _ & _ & (Hr & _) & _). Qed.
#[export] Hint Resolve entity_weight entity_lag entity_stamp entity_request : eevdf.

Lemma lag_at_ends e v : entity_ok e -> in_i128 v ->
  ends (lag_at e v) (fun l => in_i128 l /\ l = ent_lag e + (if is_sleeping e then 0 else (v - lag_stamp e) * ent_weight e)).
Proof.
  intros He Hv. unfold lag_at. pose proof He as (Hw & Hl & Hs & _). rewrite (proj2 (Z.eqb_neq (ent_weight e) 0)) by lia.
  destruct (is_sleeping e); [cbn; split; [done|lia]|]. eapply ends_mono; [apply checked_lag_at_ends; auto with eevdf|]. intros l (-> & Hl' & _). done.
Qed.

Lemma eligible_at_ends e : entity_ok e -> ends (eligible_at e) (fun v => in_i128 v /\ v = lag_stamp e + (if 0 <=? ent_lag e then 0 else cdiv (- ent_lag e) (ent_weight e))).
Proof.
  intros (Hw & Hl & Hs & _). unfold eligible_at. rewrite (proj2 (Z.eqb_neq (ent_weight e) 0)) by lia. destruct (Z.leb_spec 0 (ent_lag e)); [cbn; split; [done|lia]|].
  rewrite Z.abs_neq by lia. rewrite checked_ceil_div_spec by (widths; lia). rewrite value_bind. eapply ends_bind; [apply checked_i128_ends|].
  cbv beta. intros o [-> Ho]. apply ends_option. intros v Hv. by apply checked_add_i128_some in Hv as [-> ?].
Qed.

(** A new lag and stamp keep the invariant of an entity that is not sleeping. *)
Lemma with_lag_ok e lag v : entity_ok e -> in_i128 lag -> in_i128 v -> is_sleeping e = false -> entity_ok (with_lag_at lag v e).
Proof.
  intros (Hw & _ & _ & Hr & _) Hl Hv Hs. unfold entity_ok. cbn. split_and!; try done; try lia; try apply Hr; try apply Hl; try apply Hv.
  intros u Hu. unfold is_sleeping in Hs. by rewrite Hu in Hs.
Qed.

Lemma with_request_ok e r : entity_ok e -> request_of (ent_class e) (ent_weight e) r -> entity_ok (with_request r e).
Proof. intros (Hw & Hl & Hs & _ & Hsl) Hr. by unfold entity_ok. Qed.

Lemma asleep_ok e lag v : entity_ok e -> in_i128 lag -> in_i128 v -> entity_ok (with_sleeper (Some v) (with_lag_at lag v e)).
Proof. intros (Hw & _ & _ & Hr & _) Hl Hv. unfold entity_ok. cbn. split; [done|]. split; [done|]. split; [done|]. split; [done|]. by intros u [= ->]. Qed.
Lemma awake_ok e lag v : entity_ok e -> in_i128 lag -> in_i128 v -> entity_ok (with_sleeper None (with_lag_at lag v e)).
Proof. intros (Hw & _ & _ & Hr & _) Hl Hv. unfold entity_ok. cbn. split; [done|]. split; [done|]. split; [done|]. by split. Qed.

Lemma rewindowed r start deadline class weight : request_of class weight r -> in_i128 start -> in_i128 deadline -> request_of class weight (with_window start deadline r).
Proof. intros (Hok & Hc & Hv & Hl & _) Hs Hd. by unfold request_of, window_ok. Qed.

Section Entities.
Context (profile : EevdfProfile) (Hp : selected profile).

(** Sleeper credit: the capped lag in the grace period, then a share that
    shrinks to nothing over the decay window. *)
Definition decayed (class : RequestClass) (lag elapsed : Z) : Z :=
  let lag := Z.min lag (credit_cap profile class) in
  if elapsed <=? GRACE profile then lag
  else
    let rest := Z.max 0 (GRACE profile + DECAY_WINDOW profile - elapsed) in
    if lag <? 0 then - cdiv (- lag * rest) (DECAY_WINDOW profile) else cdiv (lag * rest) (DECAY_WINDOW profile).

(** A share of an amount. *)
Lemma share_bounds m rest d : 0 < d -> 0 <= m -> 0 <= rest <= d -> 0 <= cdiv (m * rest) d <= m.
Proof. intros Hd Hm Hr. pose proof (cdiv_bounds (m * rest) d Hd). split; [apply cdiv_nonneg; nia|nia]. Qed.

Lemma decay_ends class lag elapsed : in_i128 lag -> in_i128 elapsed ->
  ends (bounded_sleeper_decay_inner profile class lag elapsed) (fun l => 0 <= elapsed /\ l = decayed class lag elapsed /\ in_i128 l).
Proof.
  intros Hl He. destruct (selected_facts profile Hp) as (Htt & Hcap & Hg & Hd). specialize (Htt class). specialize (Hcap class).
  unfold bounded_sleeper_decay_inner, decayed. set (cap := credit_cap profile class) in *. set (G := GRACE profile) in *. set (W := DECAY_WINDOW profile) in *.
  assert ((if cap <? lag then cap else lag) = Z.min lag cap) as -> by (destruct (Z.ltb_spec cap lag); lia).
  assert (0 <= cap <= 2 ^ 48) as Hcap' by (unfold WORK in Hcap; lia). set (m := Z.min lag cap) in *. assert (in_i128 m) as Hm by (widths; lia).
  destruct (Z.ltb_spec elapsed 0); [done|]. destruct (Z.leb_spec elapsed G); [done|].
  eapply ends_bind; [apply ends_option; intros x Hx; exact (checked_sub_i128_some _ _ _ Hx)|]. cbv beta. intros past [-> Hpast].
  destruct (Z.leb_spec W (Z.min (elapsed - G) W)).
  { cbn. split; [done|]. rewrite Z.max_l, !Z.mul_0_r by lia. rewrite <- (cdiv_unique 0 W 0) by lia. by destruct (m <? 0). }
  rewrite Z.min_l, Z.max_r by lia. eapply ends_bind; [apply ends_option; intros x Hx; exact (checked_sub_i128_some _ _ _ Hx)|]. cbv beta. intros rest [-> Hrest].
  replace (W - (elapsed - G)) with (G + W - elapsed) in * by lia. set (rest := G + W - elapsed) in *.
  destruct (Z.eqb_spec m 0) as [->|Hm0]; [apply (ends_value 0); rewrite Z.ltb_irrefl, Z.mul_0_l, <- (cdiv_unique 0 W 0) by lia; done|].
  unfold wrap_u128. rewrite !(Z.mod_small _ 340282366920938463463374607431768211456) by (widths; lia).
  pose proof (share_bounds (Z.abs m) rest W ltac:(lia) ltac:(lia) ltac:(lia)) as Hsh.
  eapply ends_bind; [apply checked_ceil_ends; widths; lia|]. cbv beta. intros sc [-> Hsc]. destruct (Z.ltb_spec m 0).
  - rewrite Z.abs_neq in * by lia. change (Z.shiftl 1 127) with (i128_MAX + 1). destruct (Z.eqb_spec (cdiv (- m * rest) W) (i128_MAX + 1)) as [E|E].
    + rewrite E. cbn. done.
    + rewrite as_i128_small by (widths; lia). cbn. split; [done|]. split; [done|]. widths; lia.
  - rewrite Z.abs_eq, Z.min_l in * by lia. eapply ends_mono; [apply checked_i128_ends|]. intros l [-> Hl']. split; [done|]. split; [done|]. widths; lia.
Qed.
(** A new entity satisfies the invariant. *)
Lemma with_lag_ends class weight total v lag : in_u128 weight -> in_u128 total -> in_i128 v -> in_i128 lag ->
  ends (with_lag profile class weight total v lag) (fun e => entity_ok e /\ is_sleeping e = false).
Proof.
  intros Hw Ht Hv Hl. unfold with_lag. eapply ends_bind; [by apply request_new_ends|]. cbv beta. intros r (Hr & _ & _ & _ & _ & _ & Hw0). cbn.
  destruct Hw. by unfold entity_ok.
Qed.

(** *** Operations on requests *)

Lemma entity_renew_keeps total v : in_u128 total -> in_i128 v -> keeps entity_ok (entity_renew profile total v).
Proof.
  intros Ht Hv e He. apply wp_get. destruct (is_sleeping e) eqn:Es; [refuse|]. stage (lag_at_ends e v He Hv). intros [Hl _] _.
  stage (request_new_ends profile Hp (ent_class e) (ent_weight e) total v a); auto with eevdf. intros [Hr _] _. apply wp_modify. by apply with_request_ok, Hr; apply with_lag_ok.
Qed.

Lemma yield_request_keeps total v : in_u128 total -> in_i128 v -> keeps entity_ok (yield_request profile total v).
Proof.
  intros Ht Hv e He. apply wp_get. destruct (is_sleeping e) eqn:Es; [refuse|]. stage (lag_at_ends e v He Hv). intros [Hl _] _.
  pose proof He as (_ & _ & _ & (_ & Hc & _ & _ & Hwin) & _). stage (yielded_ends profile Hp (ent_request e) (ent_class e) (ent_weight e) total v a); auto with eevdf; [apply Hwin|].
  intros [Hr _] _. apply wp_modify. by apply with_request_ok, Hr; apply with_lag_ok.
Qed.

Lemma materialize_keeps v : in_i128 v -> keeps entity_ok (materialize v).
Proof.
  intros Hv e He. apply wp_get. stage (lag_at_ends e v He Hv). intros [Hl _] _. destruct (is_sleeping e) eqn:Es; cbn [negb]; [by apply wp_bind, wp_mret|].
  apply wp_modify_bind. by apply with_lag_ok.
Qed.

Lemma preempt_request_keeps : keeps entity_ok preempt_request.
Proof. intros e He. apply wp_get. destruct (is_sleeping e); [refuse|by apply wp_mret]. Qed.

(** *** Sleep *)

Lemma begin_sleep_keeps v : in_i128 v -> keeps entity_ok (begin_sleep profile v).
Proof.
  intros Hv e He. apply wp_get. destruct (is_sleeping e); [refuse|]. stage (lag_at_ends e v He Hv). intros [Hl _] _. apply wp_modify.
  destruct (selected_facts profile Hp) as (Htt & Hcap & _). apply asleep_ok; [done| |done]. rewrite Hcap. specialize (Htt (ent_class e)). unfold WORK. widths. lia.
Qed.

Lemma begin_sleep_frozen_keeps v : in_i128 v -> keeps entity_ok (begin_sleep_frozen v).
Proof.
  intros Hv e He. apply wp_get. destruct (ent_weight e =? 0); [refuse|]. destruct (is_sleeping e); [refuse|]. apply wp_modify. apply asleep_ok; auto with eevdf.
Qed.

Lemma elapsed_since e v : entity_ok e -> in_i128 v -> forall s, sleeper_v e = Some s -> forall d, checked_sub_i128 v s = Some d -> in_i128 d /\ d = v - lag_stamp e.
Proof. intros (_ & _ & _ & _ & Hs) Hv s E d Hd. apply checked_sub_i128_some in Hd as [-> Hd]. by rewrite <- (Hs s E). Qed.

Lemma wake_keeps v : in_i128 v -> keeps entity_ok (wake profile v).
Proof.
  intros Hv e He. apply wp_get, wp_some; [done|]. intros s Es. apply wp_some; [done|]. intros d Ed. destruct (elapsed_since e v He Hv s Es d Ed) as [Hd _].
  stage (decay_ends (ent_class e) (ent_lag e) d); auto with eevdf. intros (_ & _ & Hl) _. apply wp_modify. by apply awake_ok.
Qed.

Lemma end_sleep_frozen_keeps v : in_i128 v -> keeps entity_ok (end_sleep_frozen v).
Proof.
  intros Hv e He. apply wp_get. destruct (ent_weight e =? 0); [refuse|]. pose proof (awake_ok e (ent_lag e) v He ltac:(auto with eevdf) Hv) as Hok.
  apply wp_bind. destruct (sleeper_v e) as [s|]; [destruct (v <? s); [refuse|]|]; apply wp_mret, wp_modify; exact Hok.
Qed.

Lemma wake_preserving_keeps v : in_i128 v -> keeps entity_ok (wake_preserving_progress profile v).
Proof.
  intros Hv e He. apply wp_get, wp_some; [done|]. intros s Es. apply wp_some; [done|]. intros d Ed. destruct (elapsed_since e v He Hv s Es d Ed) as [Hd _].
  destruct (_ || _); [refuse|]. rewrite (exact_valid_ok _ (entity_request e He)). change (run (Value tt)) with (mret (M := M Entity ModelError) tt). apply wp_bind, wp_mret.
  stage (decay_ends (ent_class e) (ent_lag e) d); auto with eevdf. intros (_ & _ & Hl) _.
  stage (request_start_ends v a (ent_weight e)); auto with eevdf. intros (_ & Hstart & _) _.
  stage (remaining_virtual_length_ends (ent_request e) (ent_weight e)); auto with eevdf. intros _ _.
  stage (checked_deadline_ends a0 a1). intros [_ Hdl] _. apply wp_modify. destruct He as (Hw & _ & _ & Hr & _). unfold entity_ok. cbn. split; [done|]. split; [done|].
  split; [done|]. split; [by apply rewindowed|done].
Qed.

Lemma activate_keeps v : in_i128 v -> keeps entity_ok (activate_preserving_progress v).
Proof.
  intros Hv e He. apply wp_get. destruct (is_sleeping e) eqn:Es; [refuse|]. destruct (ent_weight e =? 0); [refuse|]. destruct (req_q (ent_request e) =? 0); [refuse|].
  rewrite (exact_valid_ok _ (entity_request e He)). change (run (Value tt)) with (mret (M := M Entity ModelError) tt). apply wp_bind, wp_mret.
  stage (lag_at_ends e v He Hv). intros [Hl _] _. stage (request_start_ends v a (ent_weight e)); auto with eevdf. intros (_ & Hstart & _) _.
  stage (remaining_virtual_length_ends (ent_request e) (ent_weight e)); auto with eevdf. intros _ _.
  stage (checked_deadline_ends a0 a1). intros [_ Hdl] _. apply wp_modify. apply with_request_ok; [by apply with_lag_ok|].
  destruct He as (_ & _ & _ & Hr & _). by apply rewindowed.
Qed.

(** *** Parameter changes *)

Lemma rebind_keeps q : in_u128 q -> keeps entity_ok (rebind_request_quantum q).
Proof.
  intros Hq e He. apply wp_get. destruct (Z.eqb_spec q 0); [refuse|]. assert (in_i128 (default (lag_stamp e) (sleeper_v e)) /\ default (lag_stamp e) (sleeper_v e) = lag_stamp e) as [Ha Ea].
  { pose proof He as (_ & _ & Hs & _ & Hsl). destruct (sleeper_v e) as [s|]; cbn; [rewrite (Hsl s eq_refl)|]; done. }
  stage (reconfigured_request_ends e (ent_class e) q (ent_weight e) (default (lag_stamp e) (sleeper_v e)) (ent_lag e)); auto with eevdf. intros (_ & Hr & _) _.
  apply wp_modify_bind, wp_modify. rewrite Ea. by apply (with_request_ok e) in Hr.
Qed.

Lemma rebind_default_keeps total : in_u128 total -> keeps entity_ok (rebind_default_request_quantum profile total).
Proof.
  intros Ht e He. apply wp_get. stage (request_quantum_ends profile Hp (ent_class e) (ent_weight e) total); auto with eevdf. intros (Hq & _) _.
  apply rebind_keeps; [|done]. destruct (selected_facts profile Hp) as (Htt & _). specialize (Htt (ent_class e)). widths. lia.
Qed.

(** The stages of the three reconfigurations. *)
Lemma reconfigure_stages e class weight total anchor lag (k : Request -> M Entity ModelError ()) :
  entity_ok e -> in_u128 weight -> in_u128 total -> in_i128 anchor -> in_i128 lag ->
  (forall r q, r = rebound (ent_request e) class q weight anchor lag -> request_quantum profile class weight total = Value q -> request_of class weight r -> 0 < weight ->
    wp (k r) e (fun _ => entity_ok) (fun _ s' => s' = e)) ->
  wp (new_q ← run (request_quantum profile class weight total); request ← run (reconfigured_request e class new_q weight anchor lag); k request)
    e (fun _ => entity_ok) (fun _ s' => s' = e).
Proof.
  intros He Hw Ht Ha Hl Hk. destruct (selected_facts profile Hp) as (Htt & _). specialize (Htt class).
  stage (request_quantum_ends profile Hp class weight total Hw Ht). intros (Hq & _) Eq.
  stage (reconfigured_request_ends e class a weight anchor lag); auto with eevdf; [widths; lia|]. intros (Er & Hr & Hw0) _. by apply (Hk _ a).
Qed.

Lemma reconfigure_keeps class weight total v : in_u128 weight -> in_u128 total -> in_i128 v -> keeps entity_ok (reconfigure profile class weight total v).
Proof.
  intros Hw Ht Hv e He. apply wp_get. destruct (weight =? 0); [refuse|]. destruct (is_sleeping e) eqn:Es; [refuse|]. stage (lag_at_ends e v He Hv). intros [Hl _] _.
  apply reconfigure_stages; auto. intros r q _ _ Hr Hw0. apply wp_modify. unfold entity_ok. cbn. destruct Hw. split; [done|]. split; [done|]. split; [done|]. split; [done|].
  intros u Hu. unfold is_sleeping in Es. by rewrite Hu in Es.
Qed.

Lemma reconfigure_frozen_keeps class weight total v : in_u128 weight -> in_u128 total -> in_i128 v -> keeps entity_ok (reconfigure_frozen profile class weight total v).
Proof.
  intros Hw Ht Hv e He. apply wp_get. destruct (weight =? 0); [refuse|]. destruct (is_sleeping e); [refuse|].
  apply reconfigure_stages; auto with eevdf. intros r q _ _ Hr Hw0. apply wp_modify. unfold entity_ok. cbn. destruct Hw. split; [done|]. split; [by apply entity_lag|]. by split_and!.
Qed.

Lemma reconfigure_sleeping_keeps class weight total : in_u128 weight -> in_u128 total -> keeps entity_ok (reconfigure_sleeping profile class weight total).
Proof.
  intros Hw Ht e He. apply wp_get, wp_some; [done|]. intros s Es. destruct (weight =? 0); [refuse|].
  assert (s = lag_stamp e) as -> by (destruct He as (_ & _ & _ & _ & Hs); by apply Hs).
  apply reconfigure_stages; auto with eevdf. intros r q _ _ Hr Hw0. apply wp_modify. unfold entity_ok. cbn. destruct Hw. split; [done|]. split; [by apply entity_lag|].
  split; [by apply entity_stamp|]. split; [done|]. by intros u [= ->].
Qed.
End Entities.

(** ** Service *)

(** The lag of an entity at a virtual time. *)
Definition true_lag (e : Entity) (v : Z) : Z := ent_lag e + (if is_sleeping e then 0 else (v - lag_stamp e) * ent_weight e).

(** [work] units of service to [e]: the clock advances by the work, the lag
    falls behind by it, and the request consumes it. *)
Record served (e : Entity) (c : Clock) (work : Z) (delta : Z) (e' : Entity) (c' : Clock) : Prop := {
  served_time : clock_v c' = clock_v c + delta;
  served_forward : 0 <= delta;
  served_work : delta * total_weight c + clock_remainder c' = work + clock_remainder c;
  served_total : total_weight c' = total_weight c;
  served_lag : true_lag e' (clock_v c') = true_lag e (clock_v c') - work;
  served_weight : ent_weight e' = ent_weight e;
  served_class : ent_class e' = ent_class e;
  served_awake : is_sleeping e' = is_sleeping e;
  served_request : work <> 0 -> next_after_service (ent_request e) work true = Value (ent_request e');
}.

Definition pair_ok (s : Entity * Clock) : Prop := entity_ok s.1 /\ clock_ok s.2.

Lemma service_wp ticks fraction e c : entity_ok e -> clock_ok c -> in_u128 ticks -> in_u128 fraction ->
  wp (service ticks fraction) (e, c)
    (fun delta s => pair_ok s /\ served e c (ticks * WORK + fraction * NICE_0) delta s.1 s.2 /\
                    accounted_ticks s.2 = accounted_ticks c + ticks)
    (fun _ s => s = (e, c)).
Proof.
  intros He Hc Ht Hf. apply wp_get. cbv beta iota. destruct (Z.leb_spec ONE fraction); [refuse|].
  destruct ((ticks =? 0) && (fraction =? 0)) eqn:E0.
  { apply andb_true_iff in E0 as [->%Z.eqb_eq ->%Z.eqb_eq]. apply wp_mret. split; [done|]. cbn. split; [|lia]. split; cbn; try done; lia. }
  destruct (ent_weight e =? 0); [refuse|]. destruct (is_sleeping e) eqn:Es; [refuse|]. stage (checked_work_ends ticks (proj1 Ht)). intros [-> Hw] _.
  apply wp_some; [done|]. intros fw Efw. apply checked_mul_u128_some in Efw as [-> Hfw]. apply wp_some; [done|]. intros work Ework. apply checked_add_u128_some in Ework as [-> Hwork].
  destruct Hf as [Hf0 _]. assert (in_u128 (ticks * WORK + fraction * NICE_0)) as Hin by (unfold NICE_0 in *; split; lia). set (work := ticks * WORK + fraction * NICE_0) in *.
  stage (preview_work_ends c work ticks Hc Hin (proj1 Ht)). intros Hadv _. pose proof Hadv as (Ev & Hv & Hd & Ework & _ & _ & Eacc & _). rename a into n.
  stage (checked_lag_at_ends (ent_lag e) (lag_stamp e) (ent_weight e) (adv_v n)); auto with eevdf. intros (-> & Hl & _) _.
  stage (checked_i128_ends work). intros [-> _] _. apply wp_some; [done|]. intros lag Elag. apply checked_sub_i128_some in Elag as [-> Hlag].
  stage (consume_ends (ent_request e) work); auto with eevdf. intros (Hreq & Hnext & Hcl & Hq & Hvl & Hst & Hdl) _. do 2 apply wp_modify_bind. apply wp_mret.
  split; [split|split].
  - apply with_request_ok; [by apply with_lag_ok|]. destruct He as (_ & _ & _ & (_ & H1 & H2 & H3 & H4) & _). unfold request_of, window_ok in *. cbn.
    rewrite Hcl, Hvl, Hq, Hst, Hdl. split; [done|]. split; [done|]. split; [done|]. by split.
  - by eapply advanced_ok.
  - split; cbn; try done; try lia. unfold true_lag. cbn. rewrite Es. change (is_sleeping _) with (is_sleeping e) at 1. rewrite Es. lia.
  - done.
Qed.
