(* ===== verification/EevdfFair.v ===== *)
(** The EEVDF value layer, part 4: calls of its operations, queues of entities
    that share a clock, and migration between clocks. *)

From S2P Require Import Prelude Effects EevdfMath EevdfMathSpec EevdfWide EevdfModel EevdfModelSpec EevdfEntity.
Local Open Scope Z_scope.
#[local] Opaque gcd_u128 checked_mul_div_rem checked_div_129 checked_mul_div_ceil checked_ratio_ceil wide_mul_u128 wide_rem_u128 wide_div_exact_u128.

(** ** Calls *)

(** A method of the entity or of the clock, on the pair. *)
Definition on_entity {A} (m : M Entity ModelError A) : M (Entity * Clock) ModelError () := fun '(e, c) =>
  match m e with Done _ e => Done tt (e, c) | Fail err e => Fail err (e, c) | Panic => Panic | Diverged => Diverged end.
Definition on_clock {A} (m : M Clock ModelError A) : M (Entity * Clock) ModelError () := fun '(e, c) =>
  match m c with Done _ c => Done tt (e, c) | Fail err c => Fail err (e, c) | Panic => Panic | Diverged => Diverged end.

(** The calls that change an entity or a clock. *)
Inductive model_call : Type :=
| CallService (ticks fraction_q : Z)
| CallServiceNs (elapsed_ns period_ns : Z)
| CallMaterialize (v : Z)
| CallRenew (total_weight v : Z)
| CallYield (total_weight v : Z)
| CallPreempt
| CallBeginSleep (v : Z)
| CallBeginSleepFrozen (v : Z)
| CallWake (v : Z)
| CallEndSleepFrozen (v : Z)
| CallWakePreserving (v : Z)
| CallActivate (v : Z)
| CallRebind (quantum : Z)
| CallRebindDefault (total_weight : Z)
| CallReconfigure (class : RequestClass) (weight total_weight v : Z)
| CallReconfigureFrozen (class : RequestClass) (weight total_weight v : Z)
| CallReconfigureSleeping (class : RequestClass) (weight total_weight : Z)
| CallAdvanceTicks (ticks : Z)
| CallAdvanceWork (work : Z)
| CallJumpTo (v : Z)
| CallJumpToEligibility
| CallSetTotalWeight (weight : Z)
| CallAddWeight (weight : Z)
| CallSubWeight (weight : Z).

Definition run_call (profile : EevdfProfile) (call : model_call) : M (Entity * Clock) ModelError () :=
  match call with
  | CallService ticks fraction_q => service ticks fraction_q;; mret tt
  | CallServiceNs elapsed_ns period_ns => fractional_service_ns elapsed_ns period_ns;; mret tt
  | CallMaterialize v => on_entity (materialize v)
  | CallRenew total v => on_entity (entity_renew profile total v)
  | CallYield total v => on_entity (yield_request profile total v)
  | CallPreempt => on_entity preempt_request
  | CallBeginSleep v => on_entity (begin_sleep profile v)
  | CallBeginSleepFrozen v => on_entity (begin_sleep_frozen v)
  | CallWake v => on_entity (wake profile v)
  | CallEndSleepFrozen v => on_entity (end_sleep_frozen v)
  | CallWakePreserving v => on_entity (wake_preserving_progress profile v)
  | CallActivate v => on_entity (activate_preserving_progress v)
  | CallRebind quantum => on_entity (rebind_request_quantum quantum)
  | CallRebindDefault total => on_entity (rebind_default_request_quantum profile total)
  | CallReconfigure class weight total v => on_entity (reconfigure profile class weight total v)
  | CallReconfigureFrozen class weight total v => on_entity (reconfigure_frozen profile class weight total v)
  | CallReconfigureSleeping class weight total => on_entity (reconfigure_sleeping profile class weight total)
  | CallAdvanceTicks ticks => on_clock (advance_ticks ticks)
  | CallAdvanceWork work => on_clock (advance_work work)
  | CallJumpTo v => on_clock (jump_to v)
  | CallJumpToEligibility => '(e, _) ← get; on_clock (jump_to_eligibility e)
  | CallSetTotalWeight weight => on_clock (set_total_weight weight)
  | CallAddWeight weight => on_clock (checked_add_weight weight)
  | CallSubWeight weight => on_clock (checked_sub_weight weight)
  end.

(** The arguments fit their types ([u128], [i128], [u64]). *)
Definition call_ok (call : model_call) : Prop :=
  match call with
  | CallService a b => in_u128 a /\ in_u128 b
  | CallServiceNs a b => in_u64 a /\ in_u64 b
  | CallMaterialize v | CallBeginSleep v | CallBeginSleepFrozen v | CallWake v | CallEndSleepFrozen v | CallWakePreserving v | CallActivate v | CallJumpTo v => in_i128 v
  | CallRenew a v | CallYield a v => in_u128 a /\ in_i128 v
  | CallRebind a | CallRebindDefault a | CallAdvanceTicks a | CallAdvanceWork a | CallSetTotalWeight a | CallAddWeight a | CallSubWeight a => in_u128 a
  | CallReconfigure _ a b v | CallReconfigureFrozen _ a b v => in_u128 a /\ in_u128 b /\ in_i128 v
  | CallReconfigureSleeping _ a b => in_u128 a /\ in_u128 b
  | CallPreempt | CallJumpToEligibility => True
  end.

Lemma on_entity_keeps {A} (m : M Entity ModelError A) : keeps entity_ok m -> keeps pair_ok (on_entity m).
Proof. intros Hm [e c] [He Hc]. specialize (Hm e He). unfold wp, on_entity in *. destruct (m e); [by split|by rewrite Hm|done..]. Qed.
Lemma on_clock_keeps {A} (m : M Clock ModelError A) : keeps clock_ok m -> keeps pair_ok (on_clock m).
Proof. intros Hm [e c] [He Hc]. specialize (Hm c Hc). unfold wp, on_clock in *. destruct (m c); [by split|by rewrite Hm|done..]. Qed.

Lemma service_keeps ticks fraction : in_u128 ticks -> in_u128 fraction -> keeps pair_ok (service ticks fraction).
Proof. intros Ht Hf [e c] [He Hc]. eapply wp_mono; [| |apply (service_wp ticks fraction e c He Hc Ht Hf)]; [by intros d s [? _]|done]. Qed.

Lemma keeps_then {S A} (I : S -> Prop) (m : M S ModelError A) : keeps I m -> keeps I (m;; mret tt).
Proof. intros Hm s Hs. apply wp_bind. eapply wp_mono; [| |apply (Hm s Hs)]; done. Qed.

Lemma u64_in_u128 z : in_u64 z -> in_u128 z.
Proof. widths. lia. Qed.

Lemma service_ns_keeps elapsed period : in_u64 elapsed -> in_u64 period -> keeps pair_ok (fractional_service_ns elapsed period).
Proof.
  intros He Hp s Hs. unfold fractional_service_ns. destruct (Z.eqb_spec period 0); [refuse|]. destruct (Z.leb_spec period elapsed); [refuse|]. cbn [orb].
  assert (0 < period <= u128_MAX) as Hper by (widths; lia). eapply (wp_run _ _ (fun p => 0 <= p.1 <= u128_MAX)); [|done|].
  - rewrite checked_mul_div_rem_spec by (try done; by apply u64_in_u128). destruct (Z.leb_spec (elapsed * ONE / period) u128_MAX); [|done].
    cbn. split; [|done]. apply Z.div_pos; [|lia]. widths. unfold ONE. lia.
  - intros [q r] Hq _. apply wp_bind. unfold fractional_service. eapply wp_mono; [| |apply service_keeps; [done| |done]]; [done|done|].
    unfold wrap_u64. pose proof (Z.mod_pos_bound q 18446744073709551616 ltac:(done)). widths. lia.
Qed.

Lemma weight_keeps (f : Z -> Z -> option Z) (err : ModelError) weight : (forall a b r, in_u128 a -> in_u128 b -> f a b = Some r -> in_u128 r) -> in_u128 weight ->
  keeps clock_ok (old ← gets total_weight; total ← some_or (f old weight) err; set_total_weight total).
Proof.
  intros Hf Hw c Hc. apply wp_gets, wp_some; [done|]. intros t Ht. apply set_total_weight_keeps; [|done].
  pose proof Hc as (_ & HW & _). exact (Hf _ _ _ HW Hw Ht).
Qed.

(** Every call keeps the invariant, changes nothing when it fails, and neither
    crashes nor diverges. *)
Lemma run_call_keeps profile call : selected profile -> call_ok call -> keeps pair_ok (run_call profile call).
Proof.
  intros Hp Hok. destruct call; cbn [run_call]; cbn in Hok; repeat match goal with H : _ /\ _ |- _ => destruct H end.
  - by apply keeps_then, service_keeps.
  - by apply keeps_then, service_ns_keeps.
  - by apply on_entity_keeps, materialize_keeps.
  - by apply on_entity_keeps, entity_renew_keeps.
  - by apply on_entity_keeps, yield_request_keeps.
  - by apply on_entity_keeps, preempt_request_keeps.
  - by apply on_entity_keeps, begin_sleep_keeps.
  - by apply on_entity_keeps, begin_sleep_frozen_keeps.
  - by apply on_entity_keeps, wake_keeps.
  - by apply on_entity_keeps, end_sleep_frozen_keeps.
  - by apply on_entity_keeps, wake_preserving_keeps.
  - by apply on_entity_keeps, activate_keeps.
  - by apply on_entity_keeps, rebind_keeps.
  - by apply on_entity_keeps, rebind_default_keeps.
  - by apply on_entity_keeps, reconfigure_keeps.
  - by apply on_entity_keeps, reconfigure_frozen_keeps.
  - by apply on_entity_keeps, reconfigure_sleeping_keeps.
  - by apply on_clock_keeps, advance_ticks_keeps.
  - by apply on_clock_keeps, advance_work_keeps.
  - by apply on_clock_keeps, jump_to_keeps.
  - intros [e c] [He Hc]. apply wp_get. cbv beta iota. apply (on_clock_keeps (jump_to_eligibility e)); [|done]. intros c' Hc'. stage (eligible_at_ends e He).
    intros [Hv _] _. by apply jump_to_keeps.
  - by apply on_clock_keeps, set_total_weight_keeps.
  - apply on_clock_keeps, (weight_keeps checked_add_u128); [|done]. intros a b r [] [] Hr. apply checked_add_u128_some in Hr as [-> ?]. split; lia.
  - apply on_clock_keeps, (weight_keeps checked_sub_u128); [|done]. intros a b r [] [] Hr. apply checked_sub_u128_some in Hr as [-> ?]. split; lia.
Qed.

(** ** Queues *)

(** Two states of an entity with the same weight and the same lag at all times. *)
Definition same_lag (e e' : Entity) : Prop :=
  ent_weight e' = ent_weight e /\ is_sleeping e' = is_sleeping e /\ forall v, true_lag e' v = true_lag e v.

Lemma restamped e lag v r : is_sleeping e = false -> lag = true_lag e v -> same_lag e (with_request r (with_lag_at lag v e)).
Proof.
  intros Es ->. unfold same_lag, true_lag. change (is_sleeping (with_request r _)) with (is_sleeping e). rewrite Es. cbn. split; [done|]. split; [done|]. intros u. lia.
Qed.

(** Calls that neither serve an entity nor change its weight. *)
Definition lag_neutral (call : model_call) : bool :=
  match call with
  | CallMaterialize _ | CallRenew _ _ | CallYield _ _ | CallPreempt | CallActivate _ | CallRebind _ | CallRebindDefault _ => true
  | _ => false
  end.

Lemma rebind_same_lag q e : entity_ok e -> in_u128 q -> wp (rebind_request_quantum q) e (fun _ e' => same_lag e e') (fun _ _ => True).
Proof.
  intros He Hq. apply wp_get. destruct (q =? 0); [by apply wp_throw|]. assert (default (lag_stamp e) (sleeper_v e) = lag_stamp e) as ->.
  { pose proof He as (_ & _ & _ & _ & Hsl). destruct (sleeper_v e) as [s|]; cbn; [rewrite (Hsl s eq_refl)|]; done. }
  stage (reconfigured_request_ends e (ent_class e) q (ent_weight e) (lag_stamp e) (ent_lag e)); auto with eevdf. intros _ _. apply wp_modify_bind, wp_modify. done.
Qed.

Lemma neutral_call_same_lag profile call e c : selected profile -> call_ok call -> lag_neutral call = true -> entity_ok e ->
  wp (run_call profile call) (e, c) (fun _ s' => same_lag e s'.1 /\ s'.2 = c) (fun _ _ => True).
Proof.
  intros Hp Hok Hn He. assert (forall A (m : M Entity ModelError A), wp m e (fun _ e' => same_lag e e') (fun _ _ => True) ->
    wp (on_entity m) (e, c) (fun _ s' => same_lag e s'.1 /\ s'.2 = c) (fun _ _ => True)) as Hlift.
  { intros A m Hm. unfold wp, on_entity in *. by destruct (m e). }
  destruct call; try done; cbn in Hok; repeat match goal with H : _ /\ _ |- _ => destruct H end; apply Hlift; try apply wp_get.
  - stage (lag_at_ends e v He Hok). intros [_ El] _. destruct (is_sleeping e) eqn:Es; cbn [negb]; [by apply wp_bind, wp_mret|].
    apply wp_modify_bind. apply (restamped e a v (ent_request e) Es). by rewrite El; unfold true_lag; rewrite Es.
  - destruct (is_sleeping e) eqn:Es; [by apply wp_throw|]. stage (lag_at_ends e v He H0). intros [Hl El] _.
    stage (request_new_ends profile Hp (ent_class e) (ent_weight e) total_weight v a); auto with eevdf. intros _ _. apply wp_modify, restamped; [done|].
    by rewrite El; unfold true_lag; rewrite Es.
  - destruct (is_sleeping e) eqn:Es; [by apply wp_throw|]. stage (lag_at_ends e v He H0). intros [Hl El] _. pose proof He as (_ & _ & _ & (_ & Hc & _ & _ & Hwin) & _).
    stage (yielded_ends profile Hp (ent_request e) (ent_class e) (ent_weight e) total_weight v a); auto with eevdf; [apply Hwin|]. intros _ _. apply wp_modify, restamped; [done|].
    by rewrite El; unfold true_lag; rewrite Es.
  - destruct (is_sleeping e); [by apply wp_throw|by apply wp_mret].
  - destruct (is_sleeping e) eqn:Es; [by apply wp_throw|]. destruct (_ =? 0); [by apply wp_throw|]. destruct (_ =? 0); [by apply wp_throw|].
    rewrite (exact_valid_ok _ (entity_request e He)). change (run (Value tt)) with (mret (M := M Entity ModelError) tt). apply wp_bind, wp_mret.
    stage (lag_at_ends e v He Hok). intros [Hl El] _. stage (request_start_ends v a (ent_weight e)); auto with eevdf. intros _ _.
    stage (remaining_virtual_length_ends (ent_request e) (ent_weight e)); auto with eevdf. intros _ _. stage (checked_deadline_ends a0 a1). intros _ _.
    apply wp_modify, restamped; [done|]. by rewrite El; unfold true_lag; rewrite Es.
  - by apply rebind_same_lag.
  - stage (request_quantum_ends profile Hp (ent_class e) (ent_weight e) total_weight); auto with eevdf. intros (Hq & _) _. apply rebind_same_lag; [done|].
    destruct (selected_facts profile Hp) as (Htt & _). specialize (Htt (ent_class e)). widths. lia.
Qed.

Record fair_queue : Type := mkFair { fq_clock : Clock; fq_entities : list Entity }.
Definition lag_sum (v : Z) (es : list Entity) : Z := foldr (fun e sum => true_lag e v + sum) 0 es.
Definition weight_sum (es : list Entity) : Z := foldr (fun e sum => ent_weight e + sum) 0 es.

(** The queue's lags and the clock's residue. *)
Definition imbalance (q : fair_queue) : Z := lag_sum (clock_v (fq_clock q)) (fq_entities q) + clock_remainder (fq_clock q).

Definition fair_ok (q : fair_queue) : Prop :=
  clock_ok (fq_clock q) /\ Forall (fun e => entity_ok e /\ is_sleeping e = false) (fq_entities q) /\ weight_sum (fq_entities q) = total_weight (fq_clock q).

(** One entity is served, or changes its request. *)
Inductive fair_step (profile : EevdfProfile) : fair_queue -> fair_queue -> Prop :=
| fair_call q i e e' c' call : fq_entities q !! i = Some e -> call_ok call -> (exists t f, call = CallService t f) \/ lag_neutral call = true ->
    run_call profile call (e, fq_clock q) = Done tt (e', c') -> fair_step profile q (mkFair c' (<[i := e']> (fq_entities q))).

Lemma lag_sum_cons v e es : lag_sum v (e :: es) = true_lag e v + lag_sum v es.
Proof. done. Qed.
Lemma weight_sum_cons e es : weight_sum (e :: es) = ent_weight e + weight_sum es.
Proof. done. Qed.

Lemma lag_sum_shift es v d : Forall (fun e => entity_ok e /\ is_sleeping e = false) es -> lag_sum (v + d) es = lag_sum v es + d * weight_sum es.
Proof.
  induction 1 as [|e es [_ He] _ IH]; [cbn; lia|]. rewrite !lag_sum_cons, weight_sum_cons, IH. unfold true_lag. rewrite He. lia.
Qed.

Lemma sum_insert (f : Entity -> Z) es i e e' : es !! i = Some e ->
  foldr (fun e sum => f e + sum) 0 (<[i := e']> es) = foldr (fun e sum => f e + sum) 0 es - f e + f e'.
Proof.
  revert i. induction es as [|x es IH]; intros [|i] Hi; cbn in Hi; simplify_eq; [cbn; lia|].
  change (<[S i := e']> (x :: es)) with (x :: <[i := e']> es). cbn [foldr]. rewrite (IH i Hi). lia.
Qed.

Lemma fair_step_spec profile q q' : selected profile -> fair_ok q -> fair_step profile q q' -> fair_ok q' /\ imbalance q' = imbalance q.
Proof.
  intros Hp (Hc & Hes & Hw) Hstep. destruct Hstep as [q i e e' c' call Hi Hok Hkind Hrun].
  destruct (Forall_lookup_1 _ _ _ _ Hes Hi) as [He Haw]. pose proof (run_call_keeps profile call Hp Hok (e, fq_clock q) (conj He Hc)) as Hkeep.
  unfold wp in Hkeep. rewrite Hrun in Hkeep. destruct Hkeep as [He' Hc'].
  assert (ent_weight e' = ent_weight e /\ is_sleeping e' = false /\ total_weight c' = total_weight (fq_clock q) /\
    exists d work, clock_v c' = clock_v (fq_clock q) + d /\ d * total_weight (fq_clock q) + clock_remainder c' = work + clock_remainder (fq_clock q) /\
    true_lag e' (clock_v c') = true_lag e (clock_v c') - work) as (Ew & Eaw & Et & d & work & Ev & Ework & El).
  { destruct Hkind as [(t & f & ->)|Hn].
    - destruct Hok as [Ht Hf]. pose proof (service_wp t f e (fq_clock q) He Hc Ht Hf) as Hs. unfold run_call, wp, mbind, M_bind in Hs, Hrun.
      destruct (service t f (e, fq_clock q)) as [d [e1 c1]| | |]; try done. injection Hrun as -> ->. destruct Hs as (_ & [] & _). cbn in *.
      rewrite <- Haw. split; [done|]. split; [done|]. split; [done|]. by exists d, (t * WORK + f * NICE_0).
    - pose proof (neutral_call_same_lag profile call e (fq_clock q) Hp Hok Hn He) as Hs. unfold wp in Hs. rewrite Hrun in Hs. destruct Hs as ((E1 & E2 & E3) & E4). cbn in *.
      subst c'. rewrite E2. split; [done|]. split; [done|]. split; [done|]. exists 0, 0. rewrite E3. split_and!; lia. }
  split.
  - split; [done|]. split; [by apply Forall_insert|]. unfold weight_sum. cbn. rewrite (sum_insert ent_weight _ _ e e' Hi), Et, Ew. unfold weight_sum in Hw. lia.
  - unfold imbalance. cbn [fq_clock fq_entities]. unfold lag_sum at 1. rewrite (sum_insert (fun e => true_lag e (clock_v c')) _ _ e e' Hi), El.
    fold (lag_sum (clock_v c') (fq_entities q)). rewrite Ev, (lag_sum_shift _ _ d Hes), Hw. lia.
Qed.

Lemma lag_sum_le v es : Forall (fun e => true_lag e v <= - ent_weight e) es -> lag_sum v es <= - weight_sum es.
Proof. induction 1 as [|e es He _ IH]; [cbn; lia|]. rewrite lag_sum_cons, weight_sum_cons. lia. Qed.

(** A balanced queue has an entity that is eligible within one unit of virtual
    time. *)
Lemma eligible_soon q : fair_ok q -> imbalance q = 0 -> fq_entities q <> [] ->
  exists e, e ∈ fq_entities q /\ 0 < true_lag e (clock_v (fq_clock q) + 1).
Proof.
  intros (Hc & Hes & Hw) Hbal Hne. set (v := clock_v (fq_clock q)) in *.
  destruct (decide (Exists (fun e => - ent_weight e < true_lag e v) (fq_entities q))) as [Hex|Hno].
  - apply Exists_exists in Hex as (e & Hin & Hlt). exists e. split; [done|]. rewrite Forall_forall in Hes. destruct (Hes e Hin) as [_ Hs]. unfold true_lag in *. rewrite Hs in *. lia.
  - exfalso. apply not_Exists_Forall in Hno; [|intros ?; apply _]. assert (lag_sum v (fq_entities q) <= - weight_sum (fq_entities q)) as Hle.
    { apply lag_sum_le. eapply Forall_impl; [exact Hno|]. intros x Hx. cbn in Hx. lia. }
    destruct (fq_entities q) as [|e es] eqn:E; [done|]. inversion Hes as [|?? [He _] _]; subst. assert (0 < ent_weight e) by (destruct He as (? & _); lia).
    assert (0 <= weight_sum es). { clear -Hes. inversion Hes as [|?? _ H]; subst. clear Hes. induction H as [|x l [(Hx & _) _] _ IH]; [done|]. rewrite weight_sum_cons. lia. }
    unfold imbalance in Hbal. rewrite E in Hbal. fold v in Hbal. destruct Hc as (_ & _ & _ & Hr & Hrw). rewrite weight_sum_cons in *. lia.
Qed.

(** The time an entity reports as its eligibility is the first at which it is. *)
Lemma eligible_at_first e t v : entity_ok e -> is_sleeping e = false -> eligible_at e = Value t -> lag_stamp e <= v -> 0 <= true_lag e v <-> t <= v.
Proof.
  intros He Hs Ht Hv. destruct (ends_eq _ _ (eligible_at_ends e He) t Ht) as [_ ->]. pose proof He as (Hw & _). unfold true_lag. rewrite Hs. destruct (Z.leb_spec 0 (ent_lag e)).
  - split; nia.
  - pose proof (cdiv_bounds (- ent_lag e) (ent_weight e) ltac:(lia)). split; nia.
Qed.

(** ** Reconfiguration *)

(** Reconfiguring reads only the remaining fraction of the old request. *)
Lemma reconfigured_request_fraction e e' class q weight anchor lag : request_ok (ent_request e) -> request_ok (ent_request e') ->
  fraction_num (ent_request e') = fraction_num (ent_request e) -> fraction_den (ent_request e') = fraction_den (ent_request e) ->
  reconfigured_request e' class q weight anchor lag = reconfigured_request e class q weight anchor lag.
Proof.
  intros Hr Hr' En Ed. unfold reconfigured_request. rewrite (exact_valid_ok _ Hr), (exact_valid_ok _ Hr'), !value_bind.
  unfold on_copy, set_quantum. destruct (q =? 0); [done|]. rewrite !gets_bind, !staged_bind. cbn [with_class fraction_num fraction_den]. rewrite En, Ed.
  destruct (projection q (fraction_num (ent_request e)) (fraction_den (ent_request e))) as [[w t]| |]; [|done|done]. cbn [modify]. rewrite !value_bind.
  assert (remaining_virtual_length (with_quantum q w t (with_class class (ent_request e'))) weight =
          remaining_virtual_length (with_quantum q w t (with_class class (ent_request e))) weight) as ->.
  { unfold remaining_virtual_length, exact_valid. cbn [with_quantum with_class req_q fraction_num fraction_den remaining_work remaining_ticks]. by rewrite En, Ed. }
  unfold with_window, with_length, with_quantum, with_class. cbn. by rewrite En, Ed.
Qed.

(** What a successful reconfiguration keeps. *)
Lemma reconfigure_done profile e e' class weight total v : selected profile -> entity_ok e -> in_i128 v -> in_u128 weight -> in_u128 total ->
  reconfigure profile class weight total v e = Done tt e' ->
  entity_ok e' /\ is_sleeping e = false /\ is_sleeping e' = false /\ lag_stamp e' = v /\ lag_at e v = Value (ent_lag e') /\
  fraction_num (ent_request e') = fraction_num (ent_request e) /\ fraction_den (ent_request e') = fraction_den (ent_request e).
Proof.
  intros Hp He Hv Hw Ht H1. pose proof (reconfigure_keeps profile Hp class weight total v Hw Ht Hv e He) as Hkeep. unfold wp in Hkeep. rewrite H1 in Hkeep.
  split; [done|]. revert H1. unfold reconfigure. rewrite get_bind. destruct (weight =? 0); [done|]. destruct (is_sleeping e) eqn:Es; [done|]. rewrite staged_bind.
  pose proof (lag_at_ends e v He Hv) as Hl. destruct (lag_at e v) as [l| |]; [|done|done]. destruct Hl as [Hl _]. rewrite staged_bind.
  destruct (selected_facts profile Hp) as (Htt & _). specialize (Htt class).
  pose proof (request_quantum_ends profile Hp class weight total Hw Ht) as Hq. destruct (request_quantum profile class weight total) as [q| |]; [|done|done].
  destruct Hq as [Hq _]. assert (in_u128 q) as Hq' by (widths; lia).
  rewrite staged_bind. pose proof (reconfigured_request_ends e class q weight v l (entity_request e He) Hq' Hw Hv Hl) as Hr.
  destruct (reconfigured_request e class q weight v l) as [r| |]; [|done|done]. destruct Hr as [-> _]. unfold modify. intros [= <-]. by split_and!.
Qed.

(** ** Migration *)

(** An entity whose lag is stamped at [v]. *)
Definition stamped (e : Entity) (v : Z) : Entity := with_lag_at (true_lag e v) v e.

Lemma offsets_ok e v s : entity_ok e -> migration_snapshot e v = Value s -> offsets_match s = Value true.
Proof.
  intros He Hs. unfold migration_snapshot in Hs. destruct (ent_weight e =? 0); [done|]. destruct (is_sleeping e); [done|]. destruct (lag_at e v); try done. rewrite value_bind in Hs.
  destruct (checked_sub_i128 (req_start (ent_request e)) v) as [a1|] eqn:E1; [|done]. cbn [ok_or_else] in Hs. rewrite value_bind in Hs.
  destruct (checked_sub_i128 (req_deadline (ent_request e)) v) as [a2|] eqn:E2; [|done]. cbn in Hs. injection Hs as <-.
  unfold offsets_match. cbn [snap_request source_v start_offset deadline_offset]. rewrite E1. cbn [ok_or_else]. rewrite value_bind, Z.eqb_refl. cbn [negb].
  rewrite E2. cbn [ok_or_else]. by rewrite value_bind, Z.eqb_refl.
Qed.

Lemma migration_snapshot_spec e v : entity_ok e -> is_sleeping e = false -> in_i128 v ->
  ends (migration_snapshot e v) (fun s => s = mkSnapshot (ent_class e) (ent_weight e) (ent_request e) (true_lag e v) v
    (req_start (ent_request e) - v) (req_deadline (ent_request e) - v) /\ in_i128 (true_lag e v)).
Proof.
  intros He Hs Hv. unfold migration_snapshot. destruct (ent_weight e =? 0); [done|]. rewrite Hs. eapply ends_bind; [by apply lag_at_ends|]. cbv beta. intros l [Hl ->].
  eapply ends_bind; [apply ends_option; intros x Hx; exact (checked_sub_i128_some _ _ _ Hx)|]. cbv beta. intros a1 [-> _].
  eapply ends_bind; [apply ends_option; intros x Hx; exact (checked_sub_i128_some _ _ _ Hx)|]. cbv beta. intros a2 [-> _]. done.
Qed.

Lemma snapshot_offsets_fit e v s : migration_snapshot e v = Value s -> in_i128 (start_offset s) /\ in_i128 (deadline_offset s).
Proof.
  unfold migration_snapshot. destruct (ent_weight e =? 0); [done|]. destruct (is_sleeping e); [done|]. destruct (lag_at e v); [|done|done]. rewrite value_bind.
  destruct (checked_sub_i128 (req_start (ent_request e)) v) as [a1|] eqn:E1; [|done]. cbn [ok_or_else]. rewrite value_bind.
  destruct (checked_sub_i128 (req_deadline (ent_request e)) v) as [a2|] eqn:E2; [|done]. cbn. intros [= <-]. cbn.
  apply checked_sub_i128_some in E1 as [_ E1], E2 as [_ E2]. done.
Qed.

Lemma snapshot_value e v : entity_ok e -> is_sleeping e = false -> lag_stamp e = v -> in_i128 (req_start (ent_request e) - v) -> in_i128 (req_deadline (ent_request e) - v) ->
  exists s, migration_snapshot e v = Value s.
Proof.
  intros He Hs Hst H1 H2. pose proof He as (Hw & Hl & _). unfold migration_snapshot, lag_at, checked_sub_i128. rewrite (proj2 (Z.eqb_neq (ent_weight e) 0)), Hs, Hst by lia.
  rewrite checked_lag_at_value by (rewrite ?Z.sub_diag, ?Z.mul_0_l, ?Z.add_0_r; done). rewrite value_bind, !decide_True by done. cbn [ok_or_else]. rewrite !value_bind. by eexists.
Qed.

(** A snapshot is accepted exactly where its quantum is within the target of its
    class and its offsets fit. *)
Lemma from_migration_spec profile e v s v' : entity_ok e -> is_sleeping e = false -> in_i128 v -> migration_snapshot e v = Value s ->
  from_migration profile s v' =
    if target_ticks profile (ent_class e) <? req_q (ent_request e) then Error InvalidState else
    if decide (in_i128 (v' + start_offset s)) then
      if decide (in_i128 (v' + deadline_offset s)) then
        Value (mkEntity (ent_class e) (ent_weight e) (true_lag e v) v' (with_window (v' + start_offset s) (v' + deadline_offset s) (ent_request e)) None)
      else Error ArithmeticExhausted
    else Error ArithmeticExhausted.
Proof.
  intros He Hs Hv Hsnap. pose proof (offsets_ok e v s He Hsnap) as Hoff. destruct (ends_eq _ _ (migration_snapshot_spec e v He Hs Hv) s Hsnap) as [Es _].
  pose proof He as (Hw & _ & _ & (Hr & Hc & Hvl & Hvl' & _) & _). pose proof Hr as (Hq0 & Hd & Hn & _ & Hwork & Hle & Ht).
  assert (remaining_ticks (ent_request e) <= req_q (ent_request e)) as Hticks.
  { pose proof WORK_pos. rewrite Ht, Hwork. assert (service_left (req_q (ent_request e)) (fraction_num (ent_request e)) (fraction_den (ent_request e)) <= req_q (ent_request e) * WORK).
    { pose proof (cdiv_bounds (fraction_num (ent_request e) * req_q (ent_request e) * WORK) (fraction_den (ent_request e)) ltac:(lia)). nia. }
    pose proof (cdiv_bounds (service_left (req_q (ent_request e)) (fraction_num (ent_request e)) (fraction_den (ent_request e))) WORK ltac:(lia)). nia. }
  unfold from_migration. rewrite Hoff. subst s. cbn [snap_class snap_weight snap_request snap_lag start_offset deadline_offset].
  rewrite (proj2 (Z.eqb_neq (ent_weight e) 0)), (proj2 (Z.eqb_neq (req_q (ent_request e)) 0)) by lia. cbn [orb]. rewrite bool_decide_true by done. cbn [negb].
  destruct (_ <? req_q (ent_request e)); [done|]. cbn [orb]. rewrite (proj2 (Z.ltb_ge _ _) Hticks), (proj2 (Z.eqb_neq (fraction_den (ent_request e)) 0)) by lia.
  rewrite (proj2 (Z.ltb_ge (fraction_den (ent_request e)) _)) by lia. cbn [orb]. rewrite (exact_valid_ok _ Hr), value_bind.
  assert (checked_virtual_length (req_q (ent_request e)) (ent_weight e) = Value (virtual_length (ent_request e))) as ->.
  { unfold checked_virtual_length. rewrite (proj2 (Z.eqb_neq (ent_weight e) 0)) by lia. rewrite checked_mul_div_ceil_spec by (try done; split; lia). rewrite <- Hvl.
    rewrite (proj2 (Z.leb_le _ u128_MAX)) by (widths; lia). rewrite value_bind, checked_i128_spec. by rewrite (proj2 (Z.leb_le _ i128_MAX)) by lia. }
  rewrite value_bind, Z.eqb_refl. cbn [negb]. rewrite value_bind. cbn [negb]. unfold checked_add_i128.
  destruct (decide (in_i128 (v' + (req_start (ent_request e) - v)))); [|done]. cbn [ok_or_else]. rewrite value_bind. by destruct (decide _).
Qed.

(** ** Sleep *)

Lemma wake_done profile e v e' : selected profile -> entity_ok e -> in_i128 v -> wake profile v e = Done tt e' ->
  ent_lag e' = decayed profile (ent_class e) (ent_lag e) (v - lag_stamp e) /\ 0 <= v - lag_stamp e /\ is_sleeping e' = false /\ lag_stamp e' = v.
Proof.
  intros Hp He Hv H. assert (wp (wake profile v) e (fun _ e' => ent_lag e' = decayed profile (ent_class e) (ent_lag e) (v - lag_stamp e) /\ 0 <= v - lag_stamp e /\
    is_sleeping e' = false /\ lag_stamp e' = v) (fun _ _ => True)) as Hwp; [|unfold wp in Hwp; by rewrite H in Hwp].
  apply wp_get, wp_some; [done|]. intros s Es. apply wp_some; [done|]. intros d Ed. destruct (elapsed_since e v He Hv s Es d Ed) as [Hd ->].
  stage (decay_ends profile Hp (ent_class e) (ent_lag e) (v - lag_stamp e)); auto with eevdf. intros (H0 & -> & _) _. by apply wp_modify.
Qed.

Lemma share_mono m rest rest' d : 0 < d -> 0 <= m -> rest <= rest' -> cdiv (m * rest) d <= cdiv (m * rest') d.
Proof. intros Hd Hm Hr. apply cdiv_le; [done|nia]. Qed.

Lemma decayed_bounds profile class lag t1 t2 : selected profile -> 0 <= t1 <= t2 ->
  let cap := credit_cap profile class in
  (0 <= lag -> (0 <= decayed profile class lag t2 <= decayed profile class lag t1) /\ decayed profile class lag t1 <= Z.min lag cap) /\
  (lag < 0 -> (lag <= decayed profile class lag t1 <= decayed profile class lag t2) /\ decayed profile class lag t2 <= 0) /\
  (t2 <= GRACE profile -> decayed profile class lag t2 = Z.min lag cap) /\
  (GRACE profile + DECAY_WINDOW profile <= t2 -> decayed profile class lag t2 = 0).
Proof.
  intros Hp Ht cap. destruct (selected_facts profile Hp) as (Htt & Hcap & Hg & Hd). specialize (Htt class). specialize (Hcap class). fold cap in Hcap. pose proof WORK_pos.
  assert (0 <= cap) by lia. unfold decayed. fold cap. set (G := GRACE profile) in *. set (W := DECAY_WINDOW profile) in *.
  assert (forall t, 0 <= t -> G < t -> 0 <= Z.max 0 (G + W - t) <= W) as Hrest by (intros; lia). split_and!.
  - intros Hl. rewrite (proj2 (Z.ltb_ge (Z.min lag cap) 0)) by lia. pose proof (fun r => share_bounds (Z.min lag cap) r W ltac:(lia) ltac:(lia)) as Hsh.
    pose proof (fun r r' => share_mono (Z.min lag cap) r r' W ltac:(lia) ltac:(lia)) as Hmono.
    destruct (Z.leb_spec t1 G), (Z.leb_spec t2 G); try lia; specialize (Hsh (Z.max 0 (G + W - t2))) as Hs2; [lia|].
    specialize (Hsh (Z.max 0 (G + W - t1))). specialize (Hmono (Z.max 0 (G + W - t2)) (Z.max 0 (G + W - t1))). lia.
  - intros Hl. rewrite (Z.min_l lag cap) by lia. rewrite (proj2 (Z.ltb_lt lag 0)) by lia. pose proof (fun r => share_bounds (- lag) r W ltac:(lia) ltac:(lia)) as Hsh.
    pose proof (fun r r' => share_mono (- lag) r r' W ltac:(lia) ltac:(lia)) as Hmono.
    destruct (Z.leb_spec t1 G), (Z.leb_spec t2 G); try lia; specialize (Hsh (Z.max 0 (G + W - t2))) as Hs2; [lia|].
    specialize (Hsh (Z.max 0 (G + W - t1))). specialize (Hmono (Z.max 0 (G + W - t2)) (Z.max 0 (G + W - t1))). lia.
  - intros Hle. by rewrite (proj2 (Z.leb_le _ _) Hle).
  - intros Hge. rewrite (proj2 (Z.leb_gt t2 G)), Z.max_l, !Z.mul_0_r, <- (cdiv_unique 0 W 0) by lia. by destruct (_ <? _).
Qed.
