(* ===== verification/EevdfModelVerified.v ===== *)
(** The EEVDF value layer: the theorems that make it correct. *)

From stdpp Require Import relations.
From S2P Require Import Prelude Effects EevdfMath EevdfMathSpec EevdfWide EevdfModel EevdfModelSpec EevdfEntity EevdfFair.
Local Open Scope Z_scope.
#[local] Opaque gcd_u128 checked_mul_div_rem checked_div_129 checked_mul_div_ceil checked_ratio_ceil wide_mul_u128 wide_rem_u128 wide_div_exact_u128.

(** C29: every operation on an entity and its clock keeps the
    invariant, leaves both unchanged when it fails, and never overflows, divides
    by zero or loops; new entities and clocks satisfy the invariant. *)
Theorem model_calls_are_safe profile : selected profile ->
  (forall class weight total v lag e, in_u128 weight -> in_u128 total -> in_i128 v -> in_i128 lag ->
    with_lag profile class weight total v lag = Value e -> entity_ok e) /\
  (forall weight, in_u128 weight -> clock_ok (clock_new weight)) /\
  (forall e c call, entity_ok e -> clock_ok c -> call_ok call ->
    match run_call profile call (e, c) with
    | Done _ (e', c') => entity_ok e' /\ clock_ok c'
    | Fail _ s => s = (e, c)
    | Panic | Diverged => False
    end).
Proof.
  intros Hp. split_and!.
  - intros class weight total v lag e Hw Ht Hv Hl He. by apply (ends_eq _ _ (with_lag_ends profile Hp class weight total v lag Hw Ht Hv Hl)).
  - intros weight Hw. unfold clock_ok. cbn. split; [done|]. split; [done|]. split; [done|]. split; [done|by left].
  - intros e c call He Hc Hok. pose proof (run_call_keeps profile call Hp Hok (e, c) (conj He Hc)) as H. unfold wp in H. destruct (run_call profile call (e, c)) as [? []| | |]; done.
Qed.


(** What is left of a request after [work] units of service, as a fraction. *)
Definition leaves (r : Request) (work n d : Z) : Prop :=
  0 < d /\ n * (fraction_den r * (req_q r * WORK)) = (fraction_num r * (req_q r * WORK) - work * fraction_den r) * d.

Lemma leaves_scaled r work n d : work mod NICE_0 = 0 -> leaves r work n d <-> 0 < d /\ n * left_den r = left_num r (work / NICE_0) * d.
Proof.
  intros Hm. unfold leaves, left_den, left_num. pose proof (Z.div_mod work NICE_0 ltac:(done)) as E. rewrite Hm in E. set (s := work / NICE_0) in *. clearbody s.
  subst work. unfold WORK, ONE, NICE_0. split; intros [H1 H2]; (split; [done|nia]).
Qed.

(** A fraction is at least its lowest terms. *)
Lemma lowest_denominator n d n' d' : 0 < d -> 0 < d' -> n * d' = n' * d -> d' / Z.gcd n' d' <= d.
Proof.
  intros Hd Hd' E. destruct (gcd_quotients n' d' Hd') as (En & Ed & Hq & Hg). pose proof (gcd_pos_r n' d' Hd'). set (g := Z.gcd n' d') in *. set (a := n' / g) in *. set (b := d' / g) in *.
  apply Z.divide_pos_le; [done|]. apply (Z.gauss b a d); [exists n; nia|by rewrite Z.gcd_comm].
Qed.

(** C31: the fraction of a request that remains after service is
    exact: it is reduced by the served share and nothing else, and ends at zero
    when the service covers the rest. The operation fails in four cases only: a
    service that is not a multiple of the work unit, an unsaturated overrun, a
    quantum whose product with [ONE] exceeds 128 bits, and a remainder that no
    128-bit fraction equals. *)
Theorem service_is_exact r work saturating : request_ok r -> in_u128 work ->
  match next_after_service r work saturating with
  | Value r' =>
      request_ok r' /\ req_q r' = req_q r /\
      (if fraction_num r * (req_q r * WORK) <=? work * fraction_den r then fraction_num r' = 0
       else leaves r work (fraction_num r') (fraction_den r'))
  | Error InvalidState => work mod NICE_0 <> 0 \/ saturating = false /\ fraction_num r * (req_q r * WORK) < work * fraction_den r
  | Error ArithmeticExhausted => u128_MAX < req_q r * ONE \/ forall n d, leaves r work n d -> u128_MAX < d
  | Error InvalidWeight | Crash => False
  end.
Proof.
  intros Hr Hw. rewrite next_after_service_spec by done. destruct (Z.eqb_spec (work mod NICE_0) 0) as [Hm|]; cbn [negb]; [|by left].
  destruct (Z.ltb_spec u128_MAX (req_q r * ONE)) as [HD|HD]; [by left|]. pose proof (left_den_pos r Hr) as Hpos. assert (0 <= work / NICE_0) as Hs by (destruct Hw; by apply Z.div_pos).
  pose proof (service_left_after r (work / NICE_0) Hr Hs) as Hfit. pose proof (fun n d => leaves_scaled r work n d Hm) as Hleaves.
  assert (fraction_num r * (req_q r * WORK) - work * fraction_den r = NICE_0 * left_num r (work / NICE_0)) as EN.
  { unfold left_num. pose proof (Z.div_mod work NICE_0 ltac:(done)) as E. rewrite Hm in E. set (s := work / NICE_0) in *. clearbody s. subst work. unfold WORK, ONE, NICE_0. ring. }
  pose proof Hr as (Hq & Hd & Hn & _). set (N := left_num r (work / NICE_0)) in *. unfold NICE_0 in EN.
  destruct (Z.ltb_spec N 0); [destruct saturating|].
  - rewrite (proj2 (Z.leb_le _ _)) by lia. split; [|done]. apply at_fraction_ok; try done; lia.
  - right. split; [done|lia].
  - destruct (gcd_quotients N (left_den r) Hpos) as (E1 & E2 & E3 & E4). destruct (Z.leb_spec (left_den r / Z.gcd N (left_den r)) u128_MAX).
    + split; [apply at_fraction_ok; try done; split; [done|]; unfold N, left_num, left_den, ONE; nia|]. split; [done|]. cbn.
      destruct (Z.leb_spec (fraction_num r * (req_q r * WORK)) (work * fraction_den r)).
      * assert (N = 0) as -> by lia. apply Z.div_0_l. rewrite Z.gcd_0_l. lia.
      * apply Hleaves. split; [done|]. set (g := Z.gcd N (left_den r)) in *. clearbody g. rewrite E1 at 2. rewrite E2 at 1. ring.
    + right. intros n d [Hd' E]%Hleaves. pose proof (lowest_denominator n d N (left_den r) Hd' Hpos E). lia.
Qed.

(** Reconfiguration is path independent: a change to one
    class and weight followed by a change to another, at the same virtual time,
    gives exactly the outcome of the second change alone, entity and error
    included; in particular a change and its reverse cancel. *)
Theorem reconfiguration_is_path_independent profile e e1 class1 weight1 total1 class2 weight2 total2 v :
  selected profile -> entity_ok e -> in_i128 v -> in_u128 weight1 -> in_u128 total1 ->
  reconfigure profile class1 weight1 total1 v e = Done tt e1 ->
  on_copy (reconfigure profile class2 weight2 total2 v) e1 = on_copy (reconfigure profile class2 weight2 total2 v) e.
Proof.
  intros Hp He Hv Hw Ht H1. destruct (reconfigure_done profile e e1 class1 weight1 total1 v Hp He Hv Hw Ht H1) as (He1 & Es & Es1 & Est & Hl & En & Ed).
  assert (lag_at e1 v = lag_at e v) as Hlag.
  { rewrite Hl. unfold lag_at. pose proof He1 as (Hw1 & Hl1 & _). rewrite (proj2 (Z.eqb_neq (ent_weight e1) 0)), Es1, Est by lia.
    rewrite checked_lag_at_value by (rewrite ?Z.sub_diag, ?Z.mul_0_l, ?Z.add_0_r; done). f_equal. lia. }
  unfold on_copy, reconfigure. rewrite !get_bind. destruct (weight2 =? 0); [done|]. rewrite Es, Es1, !staged_bind, Hlag.
  destruct (lag_at e v) as [l| |]; [|done|done]. rewrite !staged_bind. destruct (request_quantum profile class2 weight2 total2) as [q| |]; [|done|done].
  rewrite !staged_bind, (reconfigured_request_fraction e e1 class2 q weight2 v l) by auto with eevdf.
  destruct (reconfigured_request e class2 q weight2 v l) as [r| |]; [|done|done]. unfold modify. f_equal. f_equal.
  unfold is_sleeping in Es, Es1. by destruct (sleeper_v e), (sleeper_v e1).
Qed.

(** C32: a snapshot is accepted at the destination exactly when its quantum is
    within the target of its class and its request window fits there; the
    migrated entity keeps its lag, weight, class and remaining fraction and the
    position of its request window relative to the clock, and migrating back
    restores the entity. *)
Theorem migration_round_trip profile e v s v' :
  entity_ok e -> is_sleeping e = false -> in_i128 v -> in_i128 v' -> migration_snapshot e v = Value s ->
  match from_migration profile s v' with
  | Value e' =>
      (req_q (ent_request e) <= target_ticks profile (ent_class e) /\ in_i128 (v' + start_offset s) /\ in_i128 (v' + deadline_offset s)) /\
      entity_ok e' /\ true_lag e' v' = true_lag e v /\ ent_weight e' = ent_weight e /\ ent_class e' = ent_class e /\
      fraction_num (ent_request e') = fraction_num (ent_request e) /\ fraction_den (ent_request e') = fraction_den (ent_request e) /\
      req_start (ent_request e') - v' = req_start (ent_request e) - v /\ req_deadline (ent_request e') - v' = req_deadline (ent_request e) - v /\
      (s' ← migration_snapshot e' v'; from_migration profile s' v) = Value (stamped e v)
  | Error InvalidState => target_ticks profile (ent_class e) < req_q (ent_request e)
  | Error ArithmeticExhausted => ~ (in_i128 (v' + start_offset s) /\ in_i128 (v' + deadline_offset s))
  | Error InvalidWeight | Crash => False
  end.
Proof.
  intros He Hs Hv Hv' Hsnap. destruct (ends_eq _ _ (migration_snapshot_spec e v He Hs Hv) s Hsnap) as [Es Hlag].
  rewrite (from_migration_spec profile e v s v') by done. destruct (Z.ltb_spec (target_ticks profile (ent_class e)) (req_q (ent_request e))) as [|Hq]; [done|].
  destruct (decide (in_i128 (v' + start_offset s))) as [H1|]; [|naive_solver]. destruct (decide (in_i128 (v' + deadline_offset s))) as [H2|]; [|naive_solver].
  split; [done|]. set (e' := mkEntity _ _ _ _ _ _).
  pose proof He as (Hw & _ & _ & Hr & _). assert (entity_ok e') as He'.
  { unfold entity_ok. cbn. split; [done|]. split; [done|]. split; [done|]. split; [by apply rewindowed|done]. }
  assert (is_sleeping e' = false) as Hs' by done. assert (true_lag e' v' = true_lag e v) as El by (unfold true_lag at 1; rewrite Hs'; cbn; lia).
  assert (start_offset s = req_start (ent_request e) - v /\ deadline_offset s = req_deadline (ent_request e) - v) as [Eo1 Eo2] by (by rewrite Es).
  split; [done|]. split; [done|]. split; [done|]. split; [done|]. split; [done|]. split; [done|]. split; [cbn; lia|]. split; [cbn; lia|].
  assert (in_i128 (start_offset s) /\ in_i128 (deadline_offset s)) as [Ho1 Ho2] by exact (snapshot_offsets_fit e v s Hsnap).
  destruct (snapshot_value e' v' He' Hs' eq_refl) as [s' Es']; [cbn; by replace (v' + start_offset s - v') with (start_offset s) by lia|
    cbn; by replace (v' + deadline_offset s - v') with (deadline_offset s) by lia|].
  rewrite Es', value_bind, (from_migration_spec profile e' v' s' v) by done. change (_ <? _) with (target_ticks profile (ent_class e) <? req_q (ent_request e)).
  rewrite (proj2 (Z.ltb_ge _ _) Hq). destruct (ends_eq _ _ (migration_snapshot_spec e' v' He' Hs' Hv') s' Es') as [-> _].
  cbn [start_offset deadline_offset ent_request with_window req_start req_deadline e']. destruct Hr as (_ & _ & _ & _ & Hwin1 & Hwin2).
  replace (v + (v' + start_offset s - v')) with (req_start (ent_request e)) by lia. replace (v + (v' + deadline_offset s - v')) with (req_deadline (ent_request e)) by lia.
  rewrite !decide_True by done. f_equal. rewrite El. unfold stamped, with_lag_at. cbn. unfold is_sleeping in Hs. destruct (sleeper_v e); [done|].
  by destruct (ent_request e).
Qed.

(** C33: the fixed-width arithmetic is the exact arithmetic: the product-quotient
    is the mathematical one and fails exactly when it does not fit in 128 bits;
    the ratio of three factors over two, rounded up, is the mathematical one and
    fails exactly when it does not fit in 128 bits or the numerator of the ratio
    in lowest terms does not fit in 256. *)
Theorem wide_arithmetic_is_exact a b c d e : in_u128 a -> in_u128 b -> in_u128 c -> 0 < d <= u128_MAX -> 0 < e <= u128_MAX ->
  checked_mul_div_rem a b d = (if a * b / d <=? u128_MAX then Value (a * b / d, (a * b) mod d) else Error ArithmeticExhausted) /\
  checked_ratio_ceil a b c d e =
    (if (a * b * c / Z.gcd (a * b * c) (d * e) <? 2 ^ 256) && (cdiv (a * b * c) (d * e) <=? u128_MAX)
     then Value (cdiv (a * b * c) (d * e)) else Error ArithmeticExhausted).
Proof. intros Ha Hb Hc Hd He. split; [by apply checked_mul_div_rem_spec|by apply checked_ratio_ceil_exact]. Qed.

(** Sleeper credit: a sleep never changes the sign of the lag,
    credit is at most the class's cap and what the entity had, debt never grows,
    a longer sleep leaves no more of either, and after the grace and decay time
    nothing is left. *)
Theorem sleeper_credit_is_bounded profile e v1 v2 e1 e2 : selected profile -> entity_ok e -> in_i128 v1 -> in_i128 v2 -> v1 <= v2 ->
  wake profile v1 e = Done tt e1 -> wake profile v2 e = Done tt e2 ->
  (0 <= ent_lag e -> 0 <= ent_lag e2 <= ent_lag e1 /\ ent_lag e1 <= Z.min (ent_lag e) (credit_cap profile (ent_class e))) /\
  (ent_lag e < 0 -> ent_lag e <= ent_lag e1 <= ent_lag e2 /\ ent_lag e2 <= 0) /\
  (v2 <= lag_stamp e + GRACE profile -> ent_lag e2 = Z.min (ent_lag e) (credit_cap profile (ent_class e))) /\
  (lag_stamp e + GRACE profile + DECAY_WINDOW profile <= v2 -> ent_lag e2 = 0) /\
  is_sleeping e2 = false /\ lag_stamp e2 = v2.
Proof.
  intros Hp He H1 H2 Hle E1 E2. destruct (wake_done profile e v1 e1 Hp He H1 E1) as (El1 & Hel1 & _). destruct (wake_done profile e v2 e2 Hp He H2 E2) as (El2 & Hel2 & Hs & Hst).
  destruct (selected_facts profile Hp) as (Htt & Hcap & Hg & Hd). specialize (Htt (ent_class e)). specialize (Hcap (ent_class e)). pose proof WORK_pos.
  rewrite El1, El2. assert (0 <= credit_cap profile (ent_class e)) by lia. pose proof (decayed_bounds profile (ent_class e) (ent_lag e) (v1 - lag_stamp e) (v2 - lag_stamp e) Hp) as (B1 & B2 & B3 & B4); [lia..|].
  split; [done|]. split; [done|]. split; [intros; apply B3; lia|]. split; [intros; apply B4; lia|done].
Qed.

(** The eligibility time of an entity is exact: at any later
    point at which its lag is representable, the entity is eligible exactly when
    that time has come. *)
Theorem eligibility_is_exact e t v b : entity_ok e -> is_sleeping e = false -> in_i128 v -> lag_stamp e <= v ->
  eligible_at e = Value t -> is_eligible e v = Value b -> b = true <-> t <= v.
Proof.
  intros He Hs Hv Hle Ht Hb. unfold is_eligible in Hb. pose proof (lag_at_ends e v He Hv) as Hl. destruct (lag_at e v) as [l| |]; [|done|done].
  destruct Hl as [_ El]. rewrite value_bind in Hb. injection Hb as <-. rewrite Z.leb_le, <- (eligible_at_first e t v He Hs Ht Hle). unfold true_lag. by rewrite El.
Qed.

(** An entity whose quantum was rebound above the target of its
    class cannot be migrated: every destination rejects its snapshot. *)
Theorem rebound_quantum_blocks_migration profile e v s v' : entity_ok e -> is_sleeping e = false -> in_i128 v ->
  target_ticks profile (ent_class e) < req_q (ent_request e) -> migration_snapshot e v = Value s -> from_migration profile s v' = Error InvalidState.
Proof.
  intros He Hs Hv Hq Hsnap. rewrite (from_migration_spec profile e v) by done. by rewrite (proj2 (Z.ltb_lt _ _) Hq).
Qed.

(** ** Witnesses *)

Definition balanced : EevdfProfile := EEVDF_PROFILE false false.
Lemma balanced_selected : selected balanced.
Proof. by exists false, false. Qed.

(** Two entities of a balanced queue, one of them served. *)
Definition sample_request : Request := mkRequest Normal 4 4 17592186044416 1 1 17179869184 0 17179869184.
Definition sample : Entity := mkEntity Normal 1024 0 0 sample_request None.
Definition sample_clock : Clock := clock_new 2048.
Lemma sample_ok : entity_ok sample /\ is_sleeping sample = false.
Proof. apply (ends_eq _ _ (with_lag_ends balanced balanced_selected Normal 1024 2048 0 0 ltac:(done) ltac:(done) ltac:(done) ltac:(done))). by vm_compute. Qed.
Lemma sample_clock_ok : clock_ok sample_clock.
Proof. unfold clock_ok. cbn. split; [done|]. split; [done|]. split; [done|]. split; [done|by left]. Qed.

Lemma model_calls_are_safe_witness : exists e c, run_call balanced (CallService 1 0) (sample, sample_clock) = Done tt (e, c) /\ entity_ok e /\ clock_ok c.
Proof.
  pose proof (model_calls_are_safe balanced balanced_selected) as (_ & _ & H).
  specialize (H sample sample_clock (CallService 1 0) (proj1 sample_ok) sample_clock_ok ltac:(clear H; done)).
  destruct (run_call balanced (CallService 1 0) (sample, sample_clock)) as [[] [e c]| | |] eqn:E; try (by vm_compute in E).
  exists e, c. split; [reflexivity|exact H].
Defined.


Lemma service_is_exact_witness : exists r', next_after_service sample_request WORK true = Value r' /\ leaves sample_request WORK (fraction_num r') (fraction_den r').
Proof.
  pose proof (service_is_exact sample_request WORK true (entity_request sample (proj1 sample_ok)) ltac:(done)) as H.
  destruct (next_after_service sample_request WORK true) as [r'| |] eqn:E; try (by vm_compute in E). exists r'. split; [reflexivity|]. exact (proj2 (proj2 H)).
Defined.

Lemma reconfiguration_is_path_independent_witness : exists e1, reconfigure balanced Batch 512 1536 7 sample = Done tt e1 /\
  on_copy (reconfigure balanced Normal 1024 2048 7) e1 = on_copy (reconfigure balanced Normal 1024 2048 7) sample.
Proof.
  pose proof (fun e1 => reconfiguration_is_path_independent balanced sample e1 Batch 512 1536 Normal 1024 2048 7 balanced_selected (proj1 sample_ok) ltac:(done) ltac:(done) ltac:(done)) as H.
  destruct (reconfigure balanced Batch 512 1536 7 sample) as [[] e1| | |] eqn:E; try (by vm_compute in E). exists e1. split; [reflexivity|]. exact (H e1 eq_refl).
Defined.

Lemma migration_round_trip_witness : exists s e', migration_snapshot sample 5 = Value s /\ from_migration balanced s 1000 = Value e' /\ true_lag e' 1000 = true_lag sample 5.
Proof.
  pose proof (fun s => migration_round_trip balanced sample 5 s 1000 (proj1 sample_ok) eq_refl ltac:(done) ltac:(done)) as H.
  destruct (migration_snapshot sample 5) as [s| |] eqn:E; try (by vm_compute in E). exists s. specialize (H s eq_refl).
  destruct (from_migration balanced s 1000) as [e'| |] eqn:Em; [|clear H; vm_compute in E; injection E as <-; vm_compute in Em; discriminate Em..].
  exists e'. split; [reflexivity|]. split; [reflexivity|]. exact (proj1 (proj2 (proj2 H))).
Defined.

(** The second ratio is about [2 ^ 125], but its numerator has 381 bits. *)
Lemma wide_arithmetic_is_exact_witness : checked_ratio_ceil u128_MAX 3 1 u128_MAX 2 = Value 2 /\
  checked_ratio_ceil (2 ^ 127) (2 ^ 127) (2 ^ 127) u128_MAX u128_MAX = Error ArithmeticExhausted.
Proof.
  split; [rewrite (proj2 (wide_arithmetic_is_exact u128_MAX 3 1 u128_MAX 2 ltac:(done) ltac:(done) ltac:(done) ltac:(done) ltac:(done)))|
    rewrite (proj2 (wide_arithmetic_is_exact (2 ^ 127) (2 ^ 127) (2 ^ 127) u128_MAX u128_MAX ltac:(done) ltac:(done) ltac:(done) ltac:(done) ltac:(done)))]; by vm_compute.
Defined.

(** A task that sleeps with credit. *)
Definition sleeper : Entity := mkEntity Normal 1024 1000 0 sample_request (Some 0).
Lemma sleeper_ok : entity_ok sleeper.
Proof.
  destruct sample_ok as [(Hw & _ & _ & Hr & _) _]. unfold entity_ok. cbn. split; [done|]. split; [done|]. split; [done|]. split; [exact Hr|]. by intros v [= ->].
Qed.
Lemma sleeper_credit_is_bounded_witness : exists e1 e2, wake balanced 10 sleeper = Done tt e1 /\ wake balanced 200000000000 sleeper = Done tt e2 /\ 0 <= ent_lag e2 <= ent_lag e1.
Proof.
  pose proof (fun e1 e2 => sleeper_credit_is_bounded balanced sleeper 10 200000000000 e1 e2 balanced_selected sleeper_ok ltac:(done) ltac:(done) ltac:(done)) as H.
  destruct (wake balanced 10 sleeper) as [[] e1| | |] eqn:E1; try (by vm_compute in E1). destruct (wake balanced 200000000000 sleeper) as [[] e2| | |] eqn:E2; try (by vm_compute in E2).
  exists e1, e2. split; [reflexivity|]. split; [reflexivity|]. destruct (H e1 e2 eq_refl eq_refl) as [Hlag _]. apply Hlag. clear. done.
Defined.

(** An entity in debt becomes eligible one unit later. *)
Definition debtor : Entity := mkEntity Normal 1024 (-1000) 0 sample_request None.
Lemma debtor_ok : entity_ok debtor.
Proof. destruct sample_ok as [(Hw & _ & _ & Hr & _) _]. unfold entity_ok. cbn. split; [done|]. split; [done|]. split; [done|]. by split. Qed.
Lemma eligibility_is_exact_witness : eligible_at debtor = Value 1 /\ (true = true <-> 1 <= 1).
Proof. split; [by vm_compute|]. apply (eligibility_is_exact debtor 1 1 true debtor_ok); by vm_compute. Defined.

(** The quantum of 100 ms of runtime in periods of 10 ms. *)
Lemma rebound_quantum_blocks_migration_witness : exists e s, rebind_request_quantum 10 sample = Done tt e /\ migration_snapshot e 0 = Value s /\
  from_migration balanced s 0 = Error InvalidState.
Proof.
  assert (in_i128 0) as H0 by done. pose proof (rebind_keeps 10 ltac:(done) sample (proj1 sample_ok)) as Hok. unfold wp in Hok.
  destruct (rebind_request_quantum 10 sample) as [[] e| | |] eqn:E; [|clear Hok; by vm_compute in E..]. vm_compute in E. injection E as <-.
  set (e := mkEntity _ _ _ _ _ _) in *.
  destruct (migration_snapshot e 0) as [s| |] eqn:Es; [|by vm_compute in Es..].
  exists e, s. split; [reflexivity|]. split; [exact Es|]. apply (rebound_quantum_blocks_migration balanced e 0 s 0 Hok eq_refl H0 eq_refl Es).
Defined.
