(* ===== verification/EevdfTask.v ===== *)
(** Tasks and deadline reservations of the EEVDF scheduler, the first part of
    [crates/thekernel-axsched/src/eevdf.rs]: scheduling parameters, the shared
    admission ledger of a CPU-affinity domain, the task's atomics and
    scheduler-owned state, and the claims on its owner word.

    A task is a shared object ([Arc]): the world keeps a store of task records,
    with the fields of the intrusive node (key, eligible time, link bit), one
    field per atomic, and the contents of the [UnsafeCell]. The four words of
    the conversion residue and the four words of the reservation server are
    records of their own inside that state. A scheduler's two trees are lists
    of tasks in the order of their keys, which is what the intrusive tree
    refines. The caller's payload is not read by the scheduler and is left out. *)

From S2P Require Import Prelude Effects Atomics EevdfTree EevdfMath EevdfModel Sched.
Local Open Scope Z_scope.

(** ** Parameters *)

Definition RT_PRIORITY_MIN : Z := 1.
Definition RT_PRIORITY_MAX : Z := u8_MAX.
Definition NICE_RANGE_POS : Z := 19.
Definition NICE_MIN : Z := -20.
Definition NICE_MAX : Z := 19.
Definition FAIR_RUNTIME_MIN_NS : Z := 100000.
Definition FAIR_RUNTIME_MAX_NS : Z := 100000000.

Definition clamp_fair_runtime_ns (runtime_ns : Z) : Z :=
  if runtime_ns =? 0 then 0
  else if runtime_ns <? FAIR_RUNTIME_MIN_NS then FAIR_RUNTIME_MIN_NS
  else if FAIR_RUNTIME_MAX_NS <? runtime_ns then FAIR_RUNTIME_MAX_NS
  else runtime_ns.

Definition NICE2WEIGHT_POS : list Z :=
  [1024; 820; 655; 526; 423; 335; 272; 215; 172; 137; 110; 87; 70; 56; 45; 36; 29; 23; 18; 15].
Definition NICE2WEIGHT_NEG : list Z :=
  [1024; 1277; 1586; 1991; 2501; 3121; 3906; 4904; 6100; 7620; 9548; 11916; 14949; 18705; 23254;
   29154; 36291; 46273; 56483; 71755; 88761].

Module EevdfTaskClass.
Inductive t : Type := Normal | Batch | Idle | RoundRobin | Fifo | Deadline.
#[global] Instance t_eq_dec : EqDecision t.
Proof. solve_decision. Defined.
Definition code (c : t) : Z :=
  match c with Normal => 0 | Batch => 1 | Idle => 2 | RoundRobin => 3 | Fifo => 4 | Deadline => 5 end.
End EevdfTaskClass.
Abbreviation EevdfTaskClass := EevdfTaskClass.t.

(** ** Reservations *)

Record DeadlineConfig : Type := mkDeadline { dl_runtime_ns : Z; dl_deadline_ns : Z; dl_period_ns : Z }.
#[export] Instance DeadlineConfig_eq_dec : EqDecision DeadlineConfig.
Proof. solve_decision. Defined.
Definition DeadlineConfig_default : DeadlineConfig := mkDeadline 0 0 0.

Definition DEADLINE_MIN_NS : Z := 1024.
Definition DEADLINE_MIN_PERIOD_NS : Z := 100000.
Definition DEADLINE_UTIL_SCALE : Z := 1000000000.

(** [DeadlineConfig::is_valid] *)
Definition is_valid (d : DeadlineConfig) : bool :=
  negb (dl_runtime_ns d =? 0) && (dl_runtime_ns d <=? dl_deadline_ns d) && (dl_deadline_ns d <=? dl_period_ns d).

(** [DeadlineConfig::normalized_linux] *)
Definition RESERVED : Z := 9223372036854775808.
Definition normalized_linux (d : DeadlineConfig) : option DeadlineConfig :=
  if negb (Z.land (dl_runtime_ns d) RESERVED =? 0) || negb (Z.land (dl_deadline_ns d) RESERVED =? 0)
     || negb (Z.land (dl_period_ns d) RESERVED =? 0) then None
  else
    let period_ns := if dl_period_ns d =? 0 then dl_deadline_ns d else dl_period_ns d in
    let value := mkDeadline (dl_runtime_ns d) (dl_deadline_ns d) period_ns in
    if (dl_runtime_ns value <? DEADLINE_MIN_NS) || (dl_deadline_ns value <? DEADLINE_MIN_NS)
       || (dl_period_ns value <? DEADLINE_MIN_PERIOD_NS) || negb (is_valid value)
    then None else Some value.

Record DeadlineAdmissionDomain : Type := mkDomain { dom_utilization : Z; dom_capacity : Z }.
Definition domain_new : DeadlineAdmissionDomain := mkDomain 0 DEADLINE_UTIL_SCALE.
Definition with_cpu_capacity (cpus : Z) : DeadlineAdmissionDomain :=
  mkDomain 0 (Z.min u64_MAX (DEADLINE_UTIL_SCALE * Z.max cpus 1)).

(** [u64::try_from] of a [u128] *)
Definition u64_try_from (z : Z) : result Z SchedulerError :=
  if z <=? u64_MAX then Ok z else Err ArithmeticExhausted.

(** One round of the loop of [DeadlineAdmissionDomain::replace]: the word it
    wants to store, or the error it returns *)
Definition replace_total (capacity old new current : Z) : result Z SchedulerError :=
  match checked_sub_usize current old with
  | None => Err InconsistentState
  | Some rest =>
      match checked_add_u64 rest new with
      | None => Err ArithmeticExhausted
      | Some total => if capacity <? total then Err TaskBusy else Ok total
      end
  end.

(** The loop: [None] when the environment ends before it does *)
Fixpoint replace_loop (capacity old new current : Z) (env : list attempt)
    : option (result () SchedulerError * option (Z * Z)) :=
  match replace_total capacity old new current with
  | Err e => Some (Err e, None)
  | Ok total =>
      match env with
      | [] => None
      | a :: env =>
          if (Atomics.contents a =? current) && negb (spurious a) then Some (Ok tt, Some (Atomics.contents a, total))
          else replace_loop capacity old new (Atomics.contents a) env
      end
  end.

(** [DeadlineAdmissionDomain::replace], as one step on the ledger *)
Definition replace (old new : Z) (d : DeadlineAdmissionDomain) : result DeadlineAdmissionDomain SchedulerError :=
  match u64_try_from old, u64_try_from new with
  | Err e, _ | Ok _, Err e => Err e
  | Ok old, Ok new =>
      match replace_total (dom_capacity d) old new (dom_utilization d) with
      | Ok total => Ok (mkDomain total (dom_capacity d))
      | Err e => Err e
      end
  end.

Record EevdfTaskParams : Type := mkParams { class : EevdfTaskClass; nice : Z; rt_priority : Z }.
#[export] Instance EevdfTaskParams_eq_dec : EqDecision EevdfTaskParams.
Proof. solve_decision. Defined.
Definition params_default : EevdfTaskParams := mkParams EevdfTaskClass.Normal 0 0.

(** [validated] *)
Definition validated (p : EevdfTaskParams) : option EevdfTaskParams :=
  let p := match class p with
           | EevdfTaskClass.Idle => mkParams (class p) NICE_RANGE_POS 0
           | EevdfTaskClass.Normal | EevdfTaskClass.Batch => mkParams (class p) (nice p) 0
           | EevdfTaskClass.RoundRobin | EevdfTaskClass.Fifo | EevdfTaskClass.Deadline =>
               mkParams (class p) 0 (rt_priority p)
           end in
  let valid := match class p with
               | EevdfTaskClass.RoundRobin | EevdfTaskClass.Fifo =>
                   (RT_PRIORITY_MIN <=? rt_priority p) && (rt_priority p <=? RT_PRIORITY_MAX)
               | EevdfTaskClass.Deadline => rt_priority p =? 0
               | EevdfTaskClass.Normal | EevdfTaskClass.Batch | EevdfTaskClass.Idle =>
                   (NICE_MIN <=? nice p) && (nice p <=? NICE_MAX)
               end in
  if valid then Some p else None.

(** [packed], [from_packed]; [as u8] and [as i8] keep the low eight bits *)
Definition packed (p : EevdfTaskParams) : Z :=
  Z.lor (Z.lor (EevdfTaskClass.code (class p)) (Z.shiftl (nice p mod 256) 8)) (Z.shiftl (rt_priority p) 16).
Definition as_i8 (z : Z) : Z := let b := z mod 256 in if 127 <? b then b - 256 else b.
Definition class_of_code (code : Z) : EevdfTaskClass :=
  if code =? 0 then EevdfTaskClass.Normal else if code =? 1 then EevdfTaskClass.Batch
  else if code =? 2 then EevdfTaskClass.Idle else if code =? 3 then EevdfTaskClass.RoundRobin
  else if code =? 4 then EevdfTaskClass.Fifo else if code =? 5 then EevdfTaskClass.Deadline
  else EevdfTaskClass.Normal.
Definition from_packed (value : Z) : EevdfTaskParams :=
  default params_default
    (validated (mkParams (class_of_code (value mod 256)) (as_i8 (Z.shiftr value 8)) (Z.shiftr value 16 mod 256))).

(** [eevdf_weight_for_nice], [eevdf_weight_for] *)
Definition eevdf_weight_for_nice (n : Z) : option Z :=
  if negb ((NICE_MIN <=? n) && (n <=? NICE_MAX)) then None
  else if 0 <=? n then NICE2WEIGHT_POS !! Z.to_nat n
  else NICE2WEIGHT_NEG !! Z.to_nat (- n).
Definition eevdf_weight_for (p : EevdfTaskParams) : option Z :=
  p ← validated p;
  match class p with
  | EevdfTaskClass.Idle => eevdf_weight_for_nice NICE_RANGE_POS
  | EevdfTaskClass.Normal | EevdfTaskClass.Batch => eevdf_weight_for_nice (nice p)
  | EevdfTaskClass.RoundRobin | EevdfTaskClass.Fifo | EevdfTaskClass.Deadline => eevdf_weight_for_nice 0
  end.

Definition is_rt_class (c : EevdfTaskClass) : bool :=
  match c with EevdfTaskClass.RoundRobin | EevdfTaskClass.Fifo | EevdfTaskClass.Deadline => true | _ => false end.
Definition is_deadline_class (c : EevdfTaskClass) : bool :=
  match c with EevdfTaskClass.Deadline => true | _ => false end.
Definition is_rr_class (c : EevdfTaskClass) : bool :=
  match c with EevdfTaskClass.RoundRobin => true | _ => false end.
Definition fair_class (c : EevdfTaskClass) : option RequestClass :=
  match c with
  | EevdfTaskClass.Normal => Some Normal
  | EevdfTaskClass.Batch => Some Batch
  | EevdfTaskClass.Idle => Some Idle
  | EevdfTaskClass.RoundRobin | EevdfTaskClass.Fifo | EevdfTaskClass.Deadline => None
  end.

(** ** Keys *)

Record EevdfReadyKey : Type := mkKey { class_rank : Z; key_order : Z; key_sequence : Z }.
#[export] Instance EevdfReadyKey_eq_dec : EqDecision EevdfReadyKey.
Proof. solve_decision. Defined.

(** The derived order: field by field *)
Definition key_lt (a b : EevdfReadyKey) : bool :=
  (class_rank a <? class_rank b)
  || ((class_rank a =? class_rank b)
      && ((key_order a <? key_order b)
          || ((key_order a =? key_order b) && (key_sequence a <? key_sequence b)))).

Definition DEADLINE_CLASS_RANK : Z := 0.
Definition RT_CLASS_RANK : Z := 1.
Definition FAIR_CLASS_RANK : Z := 2.
Definition rt_order (priority : Z) : Z := RT_PRIORITY_MAX - priority.

(** ** Scheduler-owned state *)

#[export] Instance Clock_eq_dec : EqDecision Clock.
Proof. solve_decision. Defined.

Record EevdfForkSeed : Type := mkSeed { seed_class : RequestClass; seed_lag : Z }.

Inductive EevdfMigrationOrigin : Type := OriginReady | OriginRunning.
#[export] Instance EevdfMigrationOrigin_eq_dec : EqDecision EevdfMigrationOrigin.
Proof. solve_decision. Defined.

(** The residue of the conversion of wall time to service, and its owner *)
Record RuntimeFraction : Type := mkFraction {
  runtime_fraction_remainder_ns : Z; runtime_fraction_period_ns : Z;
  runtime_fraction_class : EevdfTaskClass; runtime_fraction_weight : Z }.
Definition no_fraction : RuntimeFraction := mkFraction 0 0 EevdfTaskClass.Normal 0.

(** The constant-bandwidth server of a deadline task *)
Record DeadlineState : Type := mkServer {
  deadline_remaining_ns : Z; deadline_absolute_ns : Z; deadline_replenish_at_ns : Z; deadline_throttled : bool }.
Definition no_server : DeadlineState := mkServer 0 0 0 false.

Record MigrationState : Type := mkMigration {
  mig_source_scheduler_id : Z;
  mig_params : EevdfTaskParams;
  mig_snapshot : option MigrationSnapshot;
  mig_source_clock : Clock;
  mig_detached_clock : Clock;
  mig_source_entity : option Entity;
  mig_source_key : EevdfReadyKey;
  mig_source_eligible_at : Z;
  mig_rr_remaining : Z;
  mig_runtime_remainder_ns : Z;
  mig_fraction : RuntimeFraction;
  mig_rr_fraction_q : Z;
  mig_dormant_fair : option Entity;
  mig_server : DeadlineState;
  mig_deadline_domain : option nat;
  mig_origin : EevdfMigrationOrigin;
}.

Record EevdfOwnedState : Type := mkOwned {
  entity : option Entity;
  runtime_remainder_ns : Z;
  fraction : RuntimeFraction;
  rr_fraction_q : Z;
  migration : option MigrationState;
  dormant_fair : option Entity;
  rt_sleeping : bool;
  fork_seed : option EevdfForkSeed;
  sleep_v : option Z;
  server : DeadlineState;
}.
Definition owned_new : EevdfOwnedState := mkOwned None 0 no_fraction 0 None None false None None no_server.

(** [is_virgin] *)
Definition is_virgin (o : EevdfOwnedState) : bool :=
  bool_decide (entity o = None) && bool_decide (migration o = None) && bool_decide (dormant_fair o = None)
  && negb (rt_sleeping o).

(** Assignments to the fields *)
Definition with_entity (e : option Entity) (o : EevdfOwnedState) : EevdfOwnedState :=
  mkOwned e (runtime_remainder_ns o) (fraction o) (rr_fraction_q o) (migration o) (dormant_fair o)
    (rt_sleeping o) (fork_seed o) (sleep_v o) (server o).
Definition with_runtime_remainder (n : Z) (o : EevdfOwnedState) : EevdfOwnedState :=
  mkOwned (entity o) n (fraction o) (rr_fraction_q o) (migration o) (dormant_fair o)
    (rt_sleeping o) (fork_seed o) (sleep_v o) (server o).
Definition with_residue (f : RuntimeFraction) (o : EevdfOwnedState) : EevdfOwnedState :=
  mkOwned (entity o) (runtime_remainder_ns o) f (rr_fraction_q o) (migration o) (dormant_fair o)
    (rt_sleeping o) (fork_seed o) (sleep_v o) (server o).
Definition with_rr_fraction (n : Z) (o : EevdfOwnedState) : EevdfOwnedState :=
  mkOwned (entity o) (runtime_remainder_ns o) (fraction o) n (migration o) (dormant_fair o)
    (rt_sleeping o) (fork_seed o) (sleep_v o) (server o).
Definition with_migration (m : option MigrationState) (o : EevdfOwnedState) : EevdfOwnedState :=
  mkOwned (entity o) (runtime_remainder_ns o) (fraction o) (rr_fraction_q o) m (dormant_fair o)
    (rt_sleeping o) (fork_seed o) (sleep_v o) (server o).
Definition with_dormant (e : option Entity) (o : EevdfOwnedState) : EevdfOwnedState :=
  mkOwned (entity o) (runtime_remainder_ns o) (fraction o) (rr_fraction_q o) (migration o) e
    (rt_sleeping o) (fork_seed o) (sleep_v o) (server o).
Definition with_sleeping (b : bool) (v : option Z) (o : EevdfOwnedState) : EevdfOwnedState :=
  mkOwned (entity o) (runtime_remainder_ns o) (fraction o) (rr_fraction_q o) (migration o) (dormant_fair o)
    b (fork_seed o) v (server o).
Definition with_seed (s : option EevdfForkSeed) (o : EevdfOwnedState) : EevdfOwnedState :=
  mkOwned (entity o) (runtime_remainder_ns o) (fraction o) (rr_fraction_q o) (migration o) (dormant_fair o)
    (rt_sleeping o) s (sleep_v o) (server o).
Definition with_server (d : DeadlineState) (o : EevdfOwnedState) : EevdfOwnedState :=
  mkOwned (entity o) (runtime_remainder_ns o) (fraction o) (rr_fraction_q o) (migration o) (dormant_fair o)
    (rt_sleeping o) (fork_seed o) (sleep_v o) d.

(** The assignments that publish a newly admitted task, and those that return a
    task to its virgin state: every field but the server *)
Definition publish_admitted (e : option Entity) (o : EevdfOwnedState) : EevdfOwnedState :=
  mkOwned e 0 no_fraction 0 None None false None None (server o).
Definition cleared_state (o : EevdfOwnedState) : EevdfOwnedState :=
  mkOwned None 0 no_fraction 0 None None false None None (server o).

(** ** Tasks: the intrusive node and its payload *)

Record EEVDFTask : Type := mkTask {
  key : EevdfReadyKey;
  node_eligible_at : Z;
  linked : bool;
  params : Z;
  fair_runtime_ns : Z;
  deadline_config : DeadlineConfig;
  queue_owner : Z;
  rr_remaining : Z;
  owned : EevdfOwnedState;
}.

(** [EEVDFTask::new] *)
Definition task_new : EEVDFTask :=
  mkTask (mkKey 1 0 0) 0 false (packed params_default) 0 DeadlineConfig_default UNOWNED 0 owned_new.

Definition with_schedule (k : EevdfReadyKey) (e : Z) (t : EEVDFTask) : EEVDFTask :=
  mkTask k e (linked t) (params t) (fair_runtime_ns t) (deadline_config t) (queue_owner t) (rr_remaining t) (owned t).
Definition with_linked (b : bool) (t : EEVDFTask) : EEVDFTask :=
  mkTask (key t) (node_eligible_at t) b (params t) (fair_runtime_ns t) (deadline_config t) (queue_owner t) (rr_remaining t) (owned t).
Definition with_params (p : Z) (t : EEVDFTask) : EEVDFTask :=
  mkTask (key t) (node_eligible_at t) (linked t) p (fair_runtime_ns t) (deadline_config t) (queue_owner t) (rr_remaining t) (owned t).
Definition with_fair_runtime (n : Z) (t : EEVDFTask) : EEVDFTask :=
  mkTask (key t) (node_eligible_at t) (linked t) (params t) n (deadline_config t) (queue_owner t) (rr_remaining t) (owned t).
Definition with_config (d : DeadlineConfig) (t : EEVDFTask) : EEVDFTask :=
  mkTask (key t) (node_eligible_at t) (linked t) (params t) (fair_runtime_ns t) d (queue_owner t) (rr_remaining t) (owned t).
Definition with_owner (o : Z) (t : EEVDFTask) : EEVDFTask :=
  mkTask (key t) (node_eligible_at t) (linked t) (params t) (fair_runtime_ns t) (deadline_config t) o (rr_remaining t) (owned t).
Definition with_rr (n : Z) (t : EEVDFTask) : EEVDFTask :=
  mkTask (key t) (node_eligible_at t) (linked t) (params t) (fair_runtime_ns t) (deadline_config t) (queue_owner t) n (owned t).
Definition with_owned (f : EevdfOwnedState -> EevdfOwnedState) (t : EEVDFTask) : EEVDFTask :=
  mkTask (key t) (node_eligible_at t) (linked t) (params t) (fair_runtime_ns t) (deadline_config t) (queue_owner t) (rr_remaining t)
    (f (owned t)).

(** [load_sched_params] *)
Definition load_sched_params (t : EEVDFTask) : EevdfTaskParams := from_packed (params t).

(** ** Schedulers and the world *)

Record EEVDFScheduler : Type := mkScheduler {
  ready_tree : list nat;
  throttled_tree : list nat;
  running : option nat;
  clock : Clock;
  sched_id : Z;
  fair_sequence : Z;
  rt_front_sequence : Z;
  rt_back_sequence : Z;
  deadline_now_ns : Z;
  deadline_utilization : Z;
  deadline_domain : option nat;
}.
(** [EEVDFScheduler::new] *)
Definition scheduler_new : EEVDFScheduler := mkScheduler [] [] None (clock_new 0) UNOWNED 0 0 0 0 0 None.

Definition with_ready (l : list nat) (q : EEVDFScheduler) : EEVDFScheduler :=
  mkScheduler l (throttled_tree q) (running q) (clock q) (sched_id q) (fair_sequence q) (rt_front_sequence q)
    (rt_back_sequence q) (deadline_now_ns q) (deadline_utilization q) (deadline_domain q).
Definition with_throttled (l : list nat) (q : EEVDFScheduler) : EEVDFScheduler :=
  mkScheduler (ready_tree q) l (running q) (clock q) (sched_id q) (fair_sequence q) (rt_front_sequence q)
    (rt_back_sequence q) (deadline_now_ns q) (deadline_utilization q) (deadline_domain q).
Definition with_running (r : option nat) (q : EEVDFScheduler) : EEVDFScheduler :=
  mkScheduler (ready_tree q) (throttled_tree q) r (clock q) (sched_id q) (fair_sequence q) (rt_front_sequence q)
    (rt_back_sequence q) (deadline_now_ns q) (deadline_utilization q) (deadline_domain q).
Definition with_clock (c : Clock) (q : EEVDFScheduler) : EEVDFScheduler :=
  mkScheduler (ready_tree q) (throttled_tree q) (running q) c (sched_id q) (fair_sequence q) (rt_front_sequence q)
    (rt_back_sequence q) (deadline_now_ns q) (deadline_utilization q) (deadline_domain q).
Definition with_id (i : Z) (q : EEVDFScheduler) : EEVDFScheduler :=
  mkScheduler (ready_tree q) (throttled_tree q) (running q) (clock q) i (fair_sequence q) (rt_front_sequence q)
    (rt_back_sequence q) (deadline_now_ns q) (deadline_utilization q) (deadline_domain q).
Definition with_fair_sequence (n : Z) (q : EEVDFScheduler) : EEVDFScheduler :=
  mkScheduler (ready_tree q) (throttled_tree q) (running q) (clock q) (sched_id q) n (rt_front_sequence q)
    (rt_back_sequence q) (deadline_now_ns q) (deadline_utilization q) (deadline_domain q).
Definition with_front_sequence (n : Z) (q : EEVDFScheduler) : EEVDFScheduler :=
  mkScheduler (ready_tree q) (throttled_tree q) (running q) (clock q) (sched_id q) (fair_sequence q) n
    (rt_back_sequence q) (deadline_now_ns q) (deadline_utilization q) (deadline_domain q).
Definition with_back_sequence (n : Z) (q : EEVDFScheduler) : EEVDFScheduler :=
  mkScheduler (ready_tree q) (throttled_tree q) (running q) (clock q) (sched_id q) (fair_sequence q) (rt_front_sequence q)
    n (deadline_now_ns q) (deadline_utilization q) (deadline_domain q).
Definition with_now (n : Z) (q : EEVDFScheduler) : EEVDFScheduler :=
  mkScheduler (ready_tree q) (throttled_tree q) (running q) (clock q) (sched_id q) (fair_sequence q) (rt_front_sequence q)
    (rt_back_sequence q) n (deadline_utilization q) (deadline_domain q).
Definition with_utilization (n : Z) (q : EEVDFScheduler) : EEVDFScheduler :=
  mkScheduler (ready_tree q) (throttled_tree q) (running q) (clock q) (sched_id q) (fair_sequence q) (rt_front_sequence q)
    (rt_back_sequence q) (deadline_now_ns q) n (deadline_domain q).
Definition with_domain (d : option nat) (q : EEVDFScheduler) : EEVDFScheduler :=
  mkScheduler (ready_tree q) (throttled_tree q) (running q) (clock q) (sched_id q) (fair_sequence q) (rt_front_sequence q)
    (rt_back_sequence q) (deadline_now_ns q) (deadline_utilization q) d.

(** [rr_ticks] is the global [RR_TIMESLICE_TICKS_RUNTIME]. *)
Record Eevdf : Type := mkEevdf {
  tasks : list EEVDFTask;
  schedulers : list EEVDFScheduler;
  domains : list DeadlineAdmissionDomain;
  next_scheduler_id : Z;
  rr_ticks : Z;
}.
Definition set_task (x : nat) (t : EEVDFTask) (s : Eevdf) : Eevdf :=
  mkEevdf (<[x := t]> (tasks s)) (schedulers s) (domains s) (next_scheduler_id s) (rr_ticks s).
Definition set_sched (q : nat) (c : EEVDFScheduler) (s : Eevdf) : Eevdf :=
  mkEevdf (tasks s) (<[q := c]> (schedulers s)) (domains s) (next_scheduler_id s) (rr_ticks s).
Definition set_domain (d : nat) (v : DeadlineAdmissionDomain) (s : Eevdf) : Eevdf :=
  mkEevdf (tasks s) (schedulers s) (<[d := v]> (domains s)) (next_scheduler_id s) (rr_ticks s).
Definition set_next_id (n : Z) (s : Eevdf) : Eevdf :=
  mkEevdf (tasks s) (schedulers s) (domains s) n (rr_ticks s).

Definition eevdf_boot : Eevdf := mkEevdf [] [] [] 1 5.
Definition add_new_task (s : Eevdf) : Eevdf :=
  mkEevdf (tasks s ++ [task_new]) (schedulers s) (domains s) (next_scheduler_id s) (rr_ticks s).
Definition add_new_scheduler (s : Eevdf) : Eevdf :=
  mkEevdf (tasks s) (schedulers s ++ [scheduler_new]) (domains s) (next_scheduler_id s) (rr_ticks s).
Definition add_new_domain (d : DeadlineAdmissionDomain) (s : Eevdf) : Eevdf :=
  mkEevdf (tasks s) (schedulers s) (domains s ++ [d]) (next_scheduler_id s) (rr_ticks s).

Section Methods.
Context {E : Type}.
Local Abbreviation Op A := (M Eevdf E A).

(** References are always valid: a missing task or scheduler would panic. *)
Definition task_at (x : nat) : Op EEVDFTask := s ← gets (fun s => s); expect (tasks s !! x).
Definition sched_at (q : nat) : Op EEVDFScheduler := s ← gets (fun s => s); expect (schedulers s !! q).
Definition update_task (x : nat) (f : EEVDFTask -> EEVDFTask) : Op () := t ← task_at x; modify (set_task x (f t)).
Definition update_sched (q : nat) (f : EEVDFScheduler -> EEVDFScheduler) : Op () :=
  c ← sched_at q; modify (set_sched q (f c)).
(** [owned_state], [owned_state_mut] *)
Definition owned_state (x : nat) : Op EevdfOwnedState := t ← task_at x; mret (owned t).
Definition update_owned (x : nat) (f : EevdfOwnedState -> EevdfOwnedState) : Op () := update_task x (with_owned f).
Definition sched_params (x : nat) : Op EevdfTaskParams := t ← task_at x; mret (load_sched_params t).
Definition owner (x : nat) : Op Z := t ← task_at x; mret (queue_owner t).

(** [apply_validated], [publish_validated]: the slice, then the parameters *)
Definition apply_validated (x : nat) (p : EevdfTaskParams) : Op () :=
  n ← gets rr_ticks;
  update_task x (with_rr (if is_rr_class (class p) then n else 0));;
  update_task x (with_params (packed p)).
Definition publish_validated (x : nat) (p : EevdfTaskParams) (n : Z) : Op () :=
  update_task x (with_rr n);;
  update_task x (with_params (packed p)).

(** A release whose result is ignored ([let _ = ..]) *)
Definition release_owner (x : nat) (from to : Z) : Op () :=
  t ← task_at x;
  if queue_owner t =? from then update_task x (with_owner to) else mret tt.
(** [Drop for EevdfConfigurationClaim], and for reservations and migrations *)
Definition drop_configuration (x : nat) : Op () := release_owner x CONFIGURING UNOWNED.
(** [transfer_owner(..).expect(..)] *)
Definition must_transfer (x : nat) (from to : Z) : Op () :=
  t ← task_at x;
  if queue_owner t =? from then update_task x (with_owner to) else panic.

End Methods.

Abbreviation Op A := (M Eevdf SchedulerError A).

(** What an early return does before it leaves with the error: a claim dropped,
    a reservation given back *)
Definition on_error {A F} (m : M Eevdf F A) (cleanup : Op ()) : M Eevdf F A := fun s =>
  match m s with
  | Fail e s => match cleanup s with Done _ s => Fail e s | Fail _ s => Fail e s | Panic => Panic | Diverged => Diverged end
  | o => o
  end.

(** An error handled by [if let Err(error) = ..] *)
Definition rescue {A} (m : Op A) (handle : SchedulerError -> Op A) : Op A := fun s =>
  match m s with Fail e s => handle e s | o => o end.

(** [set_rr_timeslice_ticks] *)
Definition set_rr_timeslice_ticks (ticks : Z) : Op bool :=
  if ticks =? 0 then mret false
  else modify (fun s => mkEevdf (tasks s) (schedulers s) (domains s) (next_scheduler_id s) ticks);; mret true.

(** ** Claims on the owner word *)

Definition claim (x : nat) (scheduler_id : Z) : Op () :=
  if (scheduler_id =? UNOWNED) || (scheduler_id =? CONFIGURING) then throw InconsistentState
  else
    t ← task_at x;
    if queue_owner t =? UNOWNED then update_task x (with_owner scheduler_id)
    else if queue_owner t =? scheduler_id then throw AlreadyQueued
    else if queue_owner t =? CONFIGURING then throw TaskBusy
    else throw ForeignQueue.
Definition transfer_owner (x : nat) (from to : Z) : Op () :=
  t ← task_at x;
  if queue_owner t =? from then update_task x (with_owner to) else throw InconsistentState.

(** The exchange of [UNOWNED] for [CONFIGURING] and its errors:
    [claim_reconfiguration] *)
Definition claim_reconfiguration (x : nat) : Op () :=
  t ← task_at x;
  if queue_owner t =? UNOWNED then update_task x (with_owner CONFIGURING)
  else throw (if queue_owner t =? CONFIGURING then TaskBusy else AlreadyQueued).
(** [claim_configuration] and [claim_reservation]: only a virgin task *)
Definition claim_configuration (x : nat) : Op () :=
  claim_reconfiguration x;;
  o ← owned_state x;
  if negb (is_virgin o) then must_transfer x CONFIGURING UNOWNED;; throw AlreadyQueued else mret tt.
Definition claim_reservation (x : nat) : Op () := claim_configuration x.
(** [claim_migration] *)
Definition claim_migration (x : nat) : Op () :=
  claim_reconfiguration x;;
  o ← owned_state x;
  if bool_decide (migration o = None) then must_transfer x CONFIGURING UNOWNED;; throw InconsistentState else mret tt.
(** [EevdfConfigurationClaim::finish]; a failed transfer drops the claim *)
Definition finish_configuration (x : nat) : Op () := transfer_owner x CONFIGURING UNOWNED.

(** ** Configuration of a virgin task *)

Definition configure (x : nat) (p : EevdfTaskParams) : Op () :=
  p ← some_or (validated p) InvalidParameters;
  claim_configuration x;;
  apply_validated x p;;
  finish_configuration x.
Definition configure_deadline (x : nat) (d : DeadlineConfig) : Op () :=
  if negb (is_valid d) then throw InvalidParameters
  else
    claim_configuration x;;
    update_task x (with_config d);;
    finish_configuration x.
Definition configure_fair_runtime_ns (x : nat) (runtime_ns : Z) : Op () :=
  let runtime_ns := clamp_fair_runtime_ns runtime_ns in
  claim_configuration x;;
  p ← sched_params x;
  if negb (runtime_ns =? 0) && negb (match class p with EevdfTaskClass.Normal | EevdfTaskClass.Batch => true | _ => false end)
  then drop_configuration x;; throw InvalidParameters
  else
    update_task x (with_fair_runtime runtime_ns);;
    finish_configuration x.
Definition install_fork_seed (x : nat) (seed : EevdfForkSeed) : Op () :=
  claim_configuration x;;
  o ← owned_state x;
  if bool_decide (fork_seed o <> None) then drop_configuration x;; throw AlreadyQueued
  else
    update_owned x (with_seed (Some seed));;
    finish_configuration x.

(** ** Reservations and migrations in flight *)

Record EevdfTaskReservation : Type := mkReservation {
  res_task : nat; res_scheduler_id : Z; res_sequence : Z; res_params : EevdfTaskParams }.
Record EevdfMigration : Type := mkToken {
  tok_task : nat; tok_source_scheduler_id : Z; tok_origin : EevdfMigrationOrigin; tok_parked : bool }.

(** [EevdfTaskReservation::cancel]; its drop is [drop_configuration]. On the
    error the consumed reservation is dropped. *)
Definition cancel_reservation (r : EevdfTaskReservation) : Op nat :=
  o ← owner (res_task r);
  if negb (o =? CONFIGURING) then drop_configuration (res_task r);; throw InconsistentState
  else transfer_owner (res_task r) CONFIGURING UNOWNED;; mret (res_task r).
(** [EevdfMigration::park] and [cancel]; its drop is [drop_configuration]. *)
Definition park (m : EevdfMigration) : Op nat :=
  o ← owner (tok_task m);
  if negb (o =? CONFIGURING) then drop_configuration (tok_task m);; throw InconsistentState
  else transfer_owner (tok_task m) CONFIGURING UNOWNED;; mret (tok_task m).

(** [model_error] and the trees' errors as [tree_error] maps them *)
Definition model_error (e : ModelError) : SchedulerError :=
  match e with EevdfMath.ArithmeticExhausted => ArithmeticExhausted | InvalidWeight | InvalidState => InconsistentState end.
Definition tree_error (e : EevdfTreeError) : SchedulerError :=
  match e with AlreadyLinked => AlreadyQueued | DuplicateKey | ForeignNode => InconsistentState end.
