(* ===== verification/EevdfSched.v ===== *)
(** The EEVDF scheduler, [EEVDFScheduler] of
    [crates/thekernel-axsched/src/eevdf.rs]: deadline admission and
    replenishment, enqueueing, reservations, migration, wake-up, the running
    task, selection, service accounting, parameter changes and the scheduler
    trait. Every method is one definition; a long method is cut where its
    branches are. [on_error] marks what the early returns of a block undo. *)

From S2P Require Import Prelude Effects Atomics EevdfTree EevdfMath EevdfModel Sched EevdfTask.
Local Open Scope Z_scope.

(** A computation of the value layer, its error mapped *)
Definition model_run {A} (m : model A) : Op A :=
  match m with Value a => mret a | Error e => throw (model_error e) | Crash => panic end.
(** [.expect(..)] on such a computation, and on a method *)
Definition must {A} (m : model A) : Op A := match m with Value a => mret a | Error _ | Crash => panic end.
Definition must_op {A} (m : Op A) : Op A := fun s =>
  match m s with Fail _ _ => Panic | o => o end.

(** ** The trees: lists in the order of the keys of the store *)

Inductive tree_name : Type := ReadyTree | ThrottledTree.
#[export] Instance tree_name_eq_dec : EqDecision tree_name.
Proof. solve_decision. Defined.
Definition tree_of (w : tree_name) (c : EEVDFScheduler) : list nat :=
  match w with ReadyTree => ready_tree c | ThrottledTree => throttled_tree c end.
Definition with_tree (w : tree_name) (l : list nat) (c : EEVDFScheduler) : EEVDFScheduler :=
  match w with ReadyTree => with_ready l c | ThrottledTree => with_throttled l c end.

Definition key_in (ts : list EEVDFTask) (x : nat) : EevdfReadyKey :=
  match ts !! x with Some t => key t | None => mkKey 0 0 0 end.
Definition eligible_in (ts : list EEVDFTask) (x : nat) : Z :=
  match ts !! x with Some t => node_eligible_at t | None => 0 end.

Fixpoint insert_sorted (ts : list EEVDFTask) (x : nat) (l : list nat) : list nat :=
  match l with
  | [] => [x]
  | y :: l' => if key_lt (key_in ts x) (key_in ts y) then x :: l else y :: insert_sorted ts x l'
  end.
Definition first_eligible (ts : list EEVDFTask) (now : Z) (l : list nat) : option nat :=
  head (filter (fun x => eligible_in ts x <= now) l).
Definition least_eligible (ts : list EEVDFTask) (l : list nat) : option Z :=
  match l with
  | [] => None
  | x :: l => Some (foldr (fun y m => Z.min (eligible_in ts y) m) (eligible_in ts x) l)
  end.
(** The nodes a bounded search inspects: the task found with the number of nodes
    inspected, and the last key *)
Fixpoint scan (ts : list EEVDFTask) (limit visited : Z) (last_key : option EevdfReadyKey) (predicate : nat -> bool) (l : list nat)
    : option (nat * Z) * option EevdfReadyKey :=
  match l with
  | [] => (None, last_key)
  | x :: l =>
      if visited <? limit then
        if predicate x then (Some (x, visited + 1), Some (key_in ts x))
        else scan ts limit (visited + 1) (Some (key_in ts x)) predicate l
      else (None, last_key)
  end.

Section Trees.
Context (q : nat).

(** [EevdfTree::insert], [remove] *)
Definition tree_insert (w : tree_name) (x : nat) : M Eevdf EevdfTreeError () :=
  t ← task_at x;
  c ← sched_at q;
  s ← gets (fun s => s);
  if linked t then throw AlreadyLinked
  else if existsb (fun y => bool_decide (key_in (tasks s) y = key t)) (tree_of w c) then throw DuplicateKey
  else
    update_task x (with_linked true);;
    update_sched q (with_tree w (insert_sorted (tasks s) x (tree_of w c))).
Definition tree_remove (w : tree_name) (x : nat) : M Eevdf EevdfTreeError nat :=
  t ← task_at x;
  c ← sched_at q;
  if linked t && bool_decide (x ∈ tree_of w c) then
    update_task x (with_linked false);;
    update_sched q (with_tree w (filter (fun y => y <> x) (tree_of w c)));;
    mret x
  else throw ForeignNode.

(** [front], [peek_earliest_eligible], [min_eligible_at], [pop_earliest_eligible] *)
Definition tree_front (w : tree_name) : Op (option nat) := c ← sched_at q; mret (head (tree_of w c)).
Definition peek_earliest_eligible (now : Z) : Op (option nat) :=
  c ← sched_at q; s ← gets (fun s => s); mret (first_eligible (tasks s) now (ready_tree c)).
Definition min_eligible_at : Op (option Z) :=
  c ← sched_at q; s ← gets (fun s => s); mret (least_eligible (tasks s) (ready_tree c)).
(** [remove(..).expect(..)] *)
Definition must_remove (w : tree_name) (x : nat) : Op nat := fun s =>
  match tree_remove w x s with Done y s => Done y s | Fail _ _ | Panic => Panic | Diverged => Diverged end.
Definition pop_earliest_eligible (now : Z) : Op (option nat) :=
  found ← peek_earliest_eligible now;
  match found with None => mret None | Some x => y ← must_remove ReadyTree x; mret (Some y) end.

(** [bounded_ready_candidate], [bounded_ready_candidate_from]; the cursor is the
    last key inspected *)
Record EevdfReadyCandidate : Type := mkCandidate {
  cand_task : nat; cand_key : EevdfReadyKey; cand_class : EevdfTaskClass; cand_visited : Z }.
Definition candidate_of (x : nat) (visited : Z) : Op EevdfReadyCandidate :=
  t ← task_at x; mret (mkCandidate x (key t) (class (load_sched_params t)) visited).
Definition bounded_ready_candidate (limit : Z) (predicate : nat -> bool) : Op (option EevdfReadyCandidate) :=
  c ← sched_at q;
  s ← gets (fun s => s);
  match (scan (tasks s) limit 0 None predicate (ready_tree c)).1 with
  | None => mret None
  | Some (x, visited) => d ← candidate_of x visited; mret (Some d)
  end.
Definition bounded_ready_candidate_from (cursor : option EevdfReadyKey) (limit : Z) (predicate : nat -> bool)
    : Op (option EevdfReadyCandidate * option EevdfReadyKey) :=
  c ← sched_at q;
  s ← gets (fun s => s);
  let from := match cursor with
              | None => ready_tree c
              | Some k => filter (fun x => key_lt k (key_in (tasks s) x) = true) (ready_tree c)
              end in
  let '(found, last_key) := scan (tasks s) limit 0 None predicate from in
  match found with
  | None => mret (None, last_key)
  | Some (x, visited) => d ← candidate_of x visited; mret (Some d, last_key)
  end.

(** [stage_key] *)
Definition stage_key (x : nat) (k : EevdfReadyKey) (e : Z) : Op () := update_task x (with_schedule k e).

(** [insert_staged] *)
Definition insert_staged (x : nat) (k : EevdfReadyKey) (e : Z) (old_key : EevdfReadyKey) (old_eligible_at : Z) : Op () :=
  stage_key x k e;;
  on_error (with_err tree_error (tree_insert ReadyTree x)) (stage_key x old_key old_eligible_at).

(** ** Deadline admission *)

(** [set_deadline_admission_domain] *)
Definition set_deadline_admission_domain (d : nat) : Op () :=
  c ← sched_at q;
  if negb (deadline_utilization c =? 0) || bool_decide (deadline_domain c <> None) then throw TaskBusy
  else update_sched q (with_domain (Some d)).

(** [EEVDFScheduler::deadline_utilization] of a reservation *)
Definition utilization (d : DeadlineConfig) : result Z SchedulerError :=
  if negb (is_valid d) then Err InvalidParameters
  else
    match (value ← checked_mul_u128 (dl_runtime_ns d) DEADLINE_UTIL_SCALE;
           value ← checked_add_u128 value (dl_period_ns d - 1);
           Some (value / dl_period_ns d)) with
    | Some util => Ok util
    | None => Err ArithmeticExhausted
    end.
(** [.unwrap_or(0)], and the utilization of an optional reservation *)
Definition utilization_or_zero (d : DeadlineConfig) : Z := match utilization d with Ok u => u | Err _ => 0 end.
Definition utilization_of (d : option DeadlineConfig) : result Z SchedulerError :=
  match d with None => Ok 0 | Some d => utilization d end.

(** [domain.replace(old, new)] *)
Definition domain_replace (d : nat) (old new : Z) : Op () :=
  s ← gets (fun s => s);
  ledger ← expect (domains s !! d);
  next ← lift (replace old new ledger);
  modify (set_domain d next).

Definition admit_deadline_local (d : DeadlineConfig) : Op () :=
  util ← lift (utilization d);
  c ← sched_at q;
  total ← some_or (checked_add_u128 (deadline_utilization c) util) ArithmeticExhausted;
  if DEADLINE_UTIL_SCALE <? total then throw TaskBusy
  else update_sched q (with_utilization total).
Definition release_deadline_local (d : DeadlineConfig) : Op () :=
  update_sched q (fun c => with_utilization (Z.max 0 (deadline_utilization c - utilization_or_zero d)) c).
(** [utilization(config)?] inside cannot fail: [admit_deadline_local] computed it. *)
Definition admit_deadline (d : DeadlineConfig) : Op () :=
  admit_deadline_local d;;
  c ← sched_at q;
  match deadline_domain c with
  | None => mret tt
  | Some dom =>
      util ← lift (utilization d);
      on_error (domain_replace dom 0 util) (release_deadline_local d)
  end.
Definition release_deadline (d : DeadlineConfig) : Op () :=
  c ← sched_at q;
  match deadline_domain c with
  | None => mret tt
  | Some dom => must_op (domain_replace dom (utilization_or_zero d) 0)
  end;;
  release_deadline_local d.

Definition replace_deadline_domain (old new : option DeadlineConfig) : Op () :=
  c ← sched_at q;
  match deadline_domain c with
  | None => mret tt
  | Some dom =>
      old ← lift (utilization_of old);
      new ← lift (utilization_of new);
      domain_replace dom old new
  end.
Definition replaced_deadline_utilization (old new : option DeadlineConfig) : Op Z :=
  old ← lift (utilization_of old);
  new ← lift (utilization_of new);
  c ← sched_at q;
  rest ← some_or (checked_sub_u128 (deadline_utilization c) old) InconsistentState;
  total ← some_or (checked_add_u128 rest new) ArithmeticExhausted;
  if DEADLINE_UTIL_SCALE <? total then throw TaskBusy else mret total.

(** ** Identity and sequences *)

Definition allocate_scheduler_id : Op Z :=
  n ← gets next_scheduler_id;
  let '(r, n') := try_update (fun current => checked_add_usize current 1) n in
  modify (set_next_id n');;
  lift (map_err (fun _ => IdentifierExhausted) r).
Definition ensure_id : Op Z :=
  c ← sched_at q;
  (if sched_id c =? UNOWNED then i ← allocate_scheduler_id; update_sched q (with_id i) else mret tt);;
  c ← sched_at q; mret (sched_id c).

Definition next_fair_sequence : Op Z :=
  c ← sched_at q;
  next ← some_or (checked_add_i128 (fair_sequence c) 1) SequenceExhausted;
  update_sched q (with_fair_sequence next);;
  mret (fair_sequence c).
Definition next_rt_sequence (front : bool) : Op Z :=
  c ← sched_at q;
  if front then
    next ← some_or (checked_sub_i128 (rt_front_sequence c) 1) SequenceExhausted;
    update_sched q (with_front_sequence next);;
    mret next
  else
    next ← some_or (checked_add_i128 (rt_back_sequence c) 1) SequenceExhausted;
    update_sched q (with_back_sequence next);;
    mret (rt_back_sequence c).
Definition peek_fair_sequence : Op Z :=
  c ← sched_at q; if fair_sequence c =? i128_MAX then throw SequenceExhausted else mret (fair_sequence c).
Definition peek_rt_sequence (front : bool) : Op Z :=
  c ← sched_at q;
  if front then some_or (checked_sub_i128 (rt_front_sequence c) 1) SequenceExhausted
  else _ ← some_or (checked_add_i128 (rt_back_sequence c) 1) SequenceExhausted; mret (rt_back_sequence c).
Definition commit_fair_sequence : Op () :=
  update_sched q (fun c => with_fair_sequence (Z.min i128_MAX (fair_sequence c + 1)) c).
Definition commit_rt_sequence (front : bool) : Op () :=
  update_sched q (fun c =>
    if front then with_front_sequence (Z.max i128_MIN (rt_front_sequence c - 1)) c
    else with_back_sequence (Z.min i128_MAX (rt_back_sequence c + 1)) c).

(** ** Keys and weights *)

Definition fair_weight (p : EevdfTaskParams) : result Z SchedulerError := ok_or (eevdf_weight_for p) InvalidParameters.
(** [runtime_ns.saturating_add(period_ns - 1) / period_ns], at least one *)
Definition fair_runtime_quantum (runtime_ns period_ns : Z) : result Z SchedulerError :=
  if period_ns =? 0 then Err InvalidParameters
  else Ok (Z.max (Z.min u64_MAX (runtime_ns + (period_ns - 1)) / period_ns) 1).
Definition FAIR_PERIOD_NS : Z := 10000000.

Definition fair_key (e : Entity) (sequence : Z) : Op (EevdfReadyKey * Z) :=
  at_ ← model_run (EevdfModel.eligible_at e);
  mret (mkKey FAIR_CLASS_RANK (bias_i128 (req_deadline (ent_request e))) sequence, bias_i128 at_).
Definition rt_key (p : EevdfTaskParams) (sequence : Z) : EevdfReadyKey :=
  mkKey RT_CLASS_RANK (rt_order (rt_priority p)) sequence.
Definition deadline_key (absolute_ns sequence : Z) : EevdfReadyKey := mkKey DEADLINE_CLASS_RANK absolute_ns sequence.
Definition throttled_deadline_key (replenish_ns sequence : Z) : EevdfReadyKey :=
  mkKey DEADLINE_CLASS_RANK replenish_ns sequence.

(** ** Reservation servers *)

(** The server [now] gives a reservation, with the overflow as [None] *)
Definition fresh_server (now : Z) (d : DeadlineConfig) : option DeadlineState :=
  absolute ← checked_add_u64 now (dl_deadline_ns d);
  replenish ← checked_add_u64 now (dl_period_ns d);
  Some (mkServer (dl_runtime_ns d) absolute replenish false).

(** [initialize_deadline_state]: the budget and the deadline are written before
    the replenishment instant is computed *)
Definition initialize_deadline_state (x : nat) : Op () :=
  t ← task_at x;
  let d := deadline_config t in
  if negb (is_valid d) then throw InvalidParameters
  else
    c ← sched_at q;
    absolute ← some_or (checked_add_u64 (deadline_now_ns c) (dl_deadline_ns d)) ArithmeticExhausted;
    update_owned x (fun o => with_server
      (mkServer (dl_runtime_ns d) absolute (deadline_replenish_at_ns (server o)) (deadline_throttled (server o))) o);;
    replenish ← some_or (checked_add_u64 (deadline_now_ns c) (dl_period_ns d)) ArithmeticExhausted;
    update_owned x (with_server (mkServer (dl_runtime_ns d) absolute replenish false)).

(** One round of [replenish_deadlines]: whether a server was moved back *)
Definition replenish_front : Op bool :=
  front ← tree_front ThrottledTree;
  match front with
  | None => mret false
  | Some x =>
      t ← task_at x;
      c ← sched_at q;
      if deadline_now_ns c <? node_eligible_at t then mret false
      else
        x ← must_remove ThrottledTree x;
        let d := deadline_config t in
        assert_ (is_valid d);;
        next ← expect (fresh_server (deadline_now_ns c) d);
        sequence ← must_op (next_rt_sequence false);
        update_owned x (with_server next);;
        stage_key x (deadline_key (deadline_absolute_ns next) sequence) 0;;
        must_op (with_err tree_error (tree_insert ReadyTree x));;
        mret true
  end.
(** [replenish_deadlines]; every round takes one task out of the tree, which
    bounds the rounds by its size *)
Fixpoint replenish_loop (fuel : nat) : Op () :=
  moved ← replenish_front;
  if moved : bool then match fuel with O => diverge | S fuel => replenish_loop fuel end else mret tt.
Definition replenish_deadlines : Op () :=
  c ← sched_at q; replenish_loop (length (throttled_tree c)).

(** [rebase_deadline_clock], [advance_deadline_clock] *)
Definition rebase_deadline_clock (now_ns : Z) : Op () :=
  c ← sched_at q;
  if deadline_now_ns c <? now_ns then update_sched q (with_now now_ns);; replenish_deadlines else mret tt.
Definition advance_deadline_clock (now_ns : Z) : Op () := rebase_deadline_clock now_ns.

End Trees.

Section Scheduler.
Context (profile : EevdfProfile) (q : nat).

(** [fork_lag_for_class] *)
Definition fork_lag_for_class (seed : option EevdfForkSeed) (child_class : RequestClass) : Z :=
  let cap := credit_cap profile child_class in
  match seed with None => 0 | Some seed => Z.max (- cap) (Z.min cap (seed_lag seed)) end.

(** [rebind_fair_runtime], on a copy of the entity *)
Definition rebind_fair_runtime (e : Entity) (runtime_ns total_weight period_ns : Z) : Op Entity :=
  if runtime_ns =? 0 then model_run (on_copy (rebind_default_request_quantum profile total_weight) e)
  else
    quantum ← lift (fair_runtime_quantum runtime_ns period_ns);
    model_run (on_copy (rebind_request_quantum quantum) e).

(** [runtime_fraction_weight], [validate_runtime_fraction_owner] *)
Definition fraction_weight_for (p : EevdfTaskParams) : result Z SchedulerError :=
  if is_rt_class (class p) then Ok 0 else fair_weight p.
Definition validate_runtime_fraction_owner (p : EevdfTaskParams) (o : EevdfOwnedState) : Op () :=
  if (runtime_remainder_ns o =? 0) && (runtime_fraction_remainder_ns (fraction o) =? 0) then mret tt
  else
    weight ← lift (fraction_weight_for p);
    if bool_decide (runtime_fraction_class (fraction o) <> class p)
       || negb (runtime_fraction_weight (fraction o) =? weight)
       || (runtime_fraction_period_ns (fraction o) =? 0)
    then throw InconsistentState else mret tt.
(** [publish_runtime_fraction_owner] *)
Definition publish_runtime_fraction_owner (p : EevdfTaskParams) (weight remainder period_ns : Z) (o : EevdfOwnedState)
    : EevdfOwnedState :=
  if remainder =? 0 then
    with_residue (if runtime_remainder_ns o =? 0 then no_fraction else mkFraction 0 period_ns (class p) weight) o
  else with_residue (mkFraction remainder period_ns (class p) weight) o.

Definition reset_rr_slice (x : nat) : Op () :=
  n ← gets rr_ticks;
  update_task x (with_rr n);;
  update_owned x (with_rr_fraction 0).
Definition release_claim (x : nat) : Op () := c ← sched_at q; must_transfer x (sched_id c) UNOWNED.

(** ** Admission of a new task *)

(** The clock with the new weight, and the entity of the new task *)
Definition fair_entity (p : EevdfTaskParams) (seed : option EevdfForkSeed) (now : Clock) : Op (Clock * Entity) :=
  weight ← lift (fair_weight p);
  next_clock ← model_run (on_copy (checked_add_weight weight) now);
  cls ← expect (fair_class (class p));
  e ← model_run (with_lag profile cls weight (total_weight next_clock) (clock_v next_clock) (fork_lag_for_class seed cls));
  mret (next_clock, e).

(** The reservation of a deadline task and its first server *)
Definition admit_server (x : nat) : Op () :=
  t ← task_at x;
  admit_deadline q (deadline_config t);;
  on_error (initialize_deadline_state q x) (release_deadline q (deadline_config t)).
Definition release_if_deadline (p : EevdfTaskParams) (x : nat) : Op () :=
  if is_deadline_class (class p) then t ← task_at x; release_deadline q (deadline_config t) else mret tt.

(** [enqueue_new], the real-time branch up to the key *)
Definition new_rt_key (x : nat) (p : EevdfTaskParams) : Op EevdfReadyKey :=
  (if is_deadline_class (class p) then admit_server x else mret tt);;
  sequence ← on_error (next_rt_sequence q false) (release_if_deadline p x);
  o ← owned_state x;
  mret (if is_deadline_class (class p) then deadline_key (deadline_absolute_ns (server o)) sequence else rt_key p sequence).
(** The fair branch *)
Definition new_fair_key (x : nat) (p : EevdfTaskParams) (seed : option EevdfForkSeed) : Op (Clock * Entity * (EevdfReadyKey * Z)) :=
  c ← sched_at q;
  '(next_clock, e) ← fair_entity p seed (clock c);
  t ← task_at x;
  e ← rebind_fair_runtime e (fair_runtime_ns t) (total_weight next_clock) FAIR_PERIOD_NS;
  sequence ← next_fair_sequence q;
  k ← fair_key e sequence;
  mret (next_clock, e, k).
Definition enqueue_new (x : nat) : Op () :=
  scheduler_id ← ensure_id q;
  claim x scheduler_id;;
  on_error
    (o ← owned_state x;
     if negb (is_virgin o) then throw AlreadyQueued
     else
       p ← sched_params x;
       let seed := fork_seed o in
       if is_rt_class (class p) && bool_decide (seed <> None) then throw IncompatibleClass
       else
         '(next_clock, e, (k, at_)) ←
           (if is_rt_class (class p) then
              k ← new_rt_key x p; c ← sched_at q; mret (clock c, None, (k, 0))
            else '(next_clock, e, k) ← new_fair_key x p seed; mret (next_clock, Some e, k));
         t ← task_at x;
         on_error (insert_staged q x k at_ (key t) 0) (release_if_deadline p x);;
         update_owned x (publish_admitted e);;
         (if is_rr_class (class p) then reset_rr_slice x else mret tt);;
         update_sched q (with_clock next_clock))
    (release_claim x).

(** [reserve_new_task] *)
Definition reserve_new_task (x : nat) : Op EevdfTaskReservation :=
  scheduler_id ← ensure_id q;
  claim_reservation x;;
  p ← sched_params x;
  sequence ← on_error (if is_rt_class (class p) then next_rt_sequence q false else next_fair_sequence q)
               (must_transfer x CONFIGURING UNOWNED);
  mret (mkReservation x scheduler_id sequence p).

(** [commit_reserved_task]: the key, then the publication *)
Definition reserved_key (x : nat) (p : EevdfTaskParams) (sequence : Z) (seed : option EevdfForkSeed)
    : Op (Clock * option Entity * (EevdfReadyKey * Z)) :=
  c ← sched_at q;
  t ← task_at x;
  if is_rt_class (class p) then
    (if is_deadline_class (class p) then
       let d := deadline_config t in
       if negb (is_valid d) then throw InvalidParameters
       else
         absolute ← some_or (checked_add_u64 (deadline_now_ns c) (dl_deadline_ns d)) ArithmeticExhausted;
         mret (clock c, None, (deadline_key absolute sequence, 0))
     else mret (clock c, None, (rt_key p sequence, 0)))
  else
    '(next_clock, e) ← fair_entity p seed (clock c);
    e ← rebind_fair_runtime e (fair_runtime_ns t) (total_weight next_clock) FAIR_PERIOD_NS;
    k ← fair_key e sequence;
    mret (next_clock, Some e, k).
Definition commit_reserved_task (r : EevdfTaskReservation) : M Eevdf (SchedulerError * EevdfTaskReservation) nat :=
  with_err (fun kind => (kind, r))
    (c ← sched_at q;
     if negb (res_scheduler_id r =? sched_id c) || (sched_id c =? UNOWNED) then throw ForeignQueue
     else
       let x := res_task r in
       let p := res_params r in
       t ← task_at x;
       if negb (queue_owner t =? CONFIGURING) || bool_decide (load_sched_params t <> p) || negb (is_virgin (owned t))
       then throw InconsistentState
       else
         let seed := fork_seed (owned t) in
         if is_rt_class (class p) && bool_decide (seed <> None) then throw IncompatibleClass
         else
           '(next_clock, e, (k, at_)) ← reserved_key x p (res_sequence r) seed;
           (if is_deadline_class (class p) then admit_server x else mret tt);;
           on_error (insert_staged q x k at_ (key t) 0)
             (if is_deadline_class (class p) then release_if_deadline p x;; update_owned x (fun _ => owned t) else mret tt);;
           (if is_rr_class (class p) then reset_rr_slice x else mret tt);;
           update_owned x (publish_admitted e);;
           must_transfer x CONFIGURING (sched_id c);;
           update_sched q (with_clock next_clock);;
           mret x).

(** ** The running task *)

Definition is_running_task (x : nat) : Op bool := c ← sched_at q; mret (bool_decide (running c = Some x)).
Definition validate_running (x : nat) : Op () :=
  c ← sched_at q;
  t ← task_at x;
  if (sched_id c =? UNOWNED) || negb (queue_owner t =? sched_id c) then throw ForeignQueue
  else if bool_decide (running c <> Some x) then throw InconsistentState else mret tt.

(** [ensure_running]: a virgin task may be adopted as the first current task *)
Definition adopt (x : nat) : Op () :=
  o ← owned_state x;
  if negb (is_virgin o) then throw InconsistentState
  else
    p ← sched_params x;
    let seed := fork_seed o in
    if is_rt_class (class p) && bool_decide (seed <> None) then throw IncompatibleClass
    else
      c ← sched_at q;
      '(next_clock, e) ←
        (if is_rt_class (class p) then
           (if is_deadline_class (class p) then admit_server x else mret tt);;
           mret (clock c, None)
         else '(next_clock, e) ← fair_entity p seed (clock c); mret (next_clock, Some e));
      update_owned x (fun o =>
        with_entity e (with_migration None (with_dormant None (with_sleeping false None (with_seed None o)))));;
      (if is_rr_class (class p) then reset_rr_slice x else mret tt);;
      update_sched q (fun c => with_running (Some x) (with_clock next_clock c)).
Definition ensure_running (x : nat) : Op () :=
  c ← sched_at q;
  if bool_decide (running c <> None) then validate_running x
  else
    o ← owner x;
    if negb (o =? UNOWNED) then throw (if o =? sched_id c then InconsistentState else ForeignQueue)
    else
      scheduler_id ← ensure_id q;
      claim x scheduler_id;;
      on_error (adopt x) (release_claim x).

(** ** Comparisons with the ready set *)

(** The front task of the ready tree *)
Definition front_task : Op (option EEVDFTask) :=
  front ← tree_front q ReadyTree;
  match front with None => mret None | Some x => t ← task_at x; mret (Some t) end.
Definition has_ready_rt : Op bool :=
  front ← front_task;
  mret match front with Some t => class_rank (key t) <=? RT_CLASS_RANK | None => false end.
Definition has_higher_rt (priority : Z) : Op bool :=
  front ← front_task;
  mret match front with
       | Some t => (class_rank (key t) =? DEADLINE_CLASS_RANK)
                   || ((class_rank (key t) =? RT_CLASS_RANK) && (key_order (key t) <? rt_order priority))
       | None => false
       end.
Definition has_same_rt (priority : Z) : Op bool :=
  front ← front_task;
  mret match front with
       | Some t => (class_rank (key t) =? RT_CLASS_RANK) && (key_order (key t) =? rt_order priority)
       | None => false
       end.
Definition has_earlier_eligible_fair (deadline : Z) : Op bool :=
  c ← sched_at q;
  found ← peek_earliest_eligible q (bias_i128 (clock_v (clock c)));
  match found with
  | None => mret false
  | Some x =>
      t ← task_at x;
      mret ((class_rank (key t) =? FAIR_CLASS_RANK) && (key_order (key t) <? bias_i128 deadline))
  end.

(** [post_update_outcome]: [Some current] is [PreemptCurrent] *)
Definition post_update_outcome : Op (option nat) :=
  c ← sched_at q;
  match running c with
  | None => mret None
  | Some x =>
      t ← task_at x;
      let p := load_sched_params t in
      should_preempt ←
        (if is_rt_class (class p) then has_higher_rt (rt_priority p)
         else
           match entity (owned t) with
           | None => mret false
           | Some e =>
               rt ← has_ready_rt;
               if rt : bool then mret true
               else
                 eligible ← must (is_eligible e (clock_v (clock c)));
                 if eligible : bool then has_earlier_eligible_fair (req_deadline (ent_request e))
                 else found ← peek_earliest_eligible q (bias_i128 (clock_v (clock c))); mret (bool_decide (found <> None))
           end);
      mret (if should_preempt : bool then Some x else None)
  end.

(** ** Selection *)

Definition pick_rt_front : Op (option nat) :=
  front ← tree_front q ReadyTree;
  match front with None => mret None | Some x => y ← must_remove q ReadyTree x; mret (Some y) end.
Definition pick_ready : Op (option nat) :=
  replenish_deadlines q;;
  rt ← has_ready_rt;
  if rt : bool then pick_rt_front
  else
    c ← sched_at q;
    found ← peek_earliest_eligible q (bias_i128 (clock_v (clock c)));
    least ← min_eligible_at q;
    match found, least with
    | None, None => mret None
    | None, Some least =>
        let next_v := unbias_i128 least in
        (if clock_v (clock c) <? next_v then
           next ← must (on_copy (jump_to next_v) (clock c)); update_sched q (with_clock next)
         else mret tt);;
        c ← sched_at q;
        pop_earliest_eligible q (bias_i128 (clock_v (clock c)))
    | Some _, _ => pop_earliest_eligible q (bias_i128 (clock_v (clock c)))
    end.
(** [pick_next_task] *)
Definition pick_next_task : Op (option nat) :=
  c ← sched_at q;
  if bool_decide (running c <> None) then mret None
  else
    next ← pick_ready;
    match next with
    | None => mret None
    | Some x =>
        must_transfer x (sched_id c) (sched_id c);;
        update_sched q (with_running (Some x));;
        mret (Some x)
    end.

(** ** Service *)

(** The value transition of [fair_service_transaction]: whether the request was
    exhausted before the sample while others were ready, and the next entity
    and clock *)
Definition serve (e : Entity) (now : Clock) (others : bool) (ticks fraction_q : Z) : Op (bool * (Entity * Clock)) :=
  if is_exhausted (ent_request e) && others then
    next ← model_run (on_copy (service ticks fraction_q) (e, now)); mret (true, next)
  else
    e ← (if is_exhausted (ent_request e) then model_run (on_copy (entity_renew profile (total_weight now) (clock_v now)) e)
         else mret e);
    next ← model_run (on_copy (service ticks fraction_q) (e, now));
    mret (false, next).
(** [fair_service_transaction] *)
Definition fair_service_transaction (x : nat) (ticks fraction_q : Z) : Op bool :=
  if (ticks =? 0) && (fraction_q =? 0) then mret false
  else
    o ← owned_state x;
    e ← some_or (entity o) InconsistentState;
    c ← sched_at q;
    let others := bool_decide (ready_tree c <> []) in
    '(boundary, (next_entity, next_clock)) ← serve e (clock c) others ticks fraction_q;
    rt ← has_ready_rt;
    outranked ←
      (if rt : bool then mret true
       else
         eligible ← model_run (is_eligible next_entity (clock_v next_clock));
         if eligible : bool then has_earlier_eligible_fair (req_deadline (ent_request next_entity))
         else found ← peek_earliest_eligible q (bias_i128 (clock_v next_clock)); mret (bool_decide (found <> None)));
    '(exhausted, next_entity) ←
      (if is_exhausted (ent_request next_entity) then
         if others then mret (true, next_entity)
         else
           e ← model_run (on_copy (entity_renew profile (total_weight next_clock) (clock_v next_clock)) next_entity);
           mret (false, e)
       else mret (false, next_entity));
    update_sched q (with_clock next_clock);;
    update_owned x (with_entity (Some next_entity));;
    mret (boundary || outranked || exhausted).

(** The new budget and fraction of a round-robin task, and whether the slice
    ended: the [if] of [rr_service_transaction] *)
Definition rr_renewed (slice consumed : Z) : Z :=
  let within := consumed mod slice in if within =? 0 then slice else slice - within.
Definition rr_budget (slice before service_ticks next_fraction : Z) (higher same : bool) : Z * Z * bool :=
  if higher then
    if (before =? 0) || (before <=? service_ticks) then (0, 0, true) else (before - service_ticks, next_fraction, true)
  else if before =? 0 then
    if same then (0, 0, true) else (rr_renewed slice (Z.max 0 (service_ticks - 1)), next_fraction, false)
  else if service_ticks <? before then (before - service_ticks, next_fraction, false)
  else if same then (0, 0, true)
  else (rr_renewed slice (service_ticks - before), next_fraction, false).
(** [rr_service_transaction]; [set_rr_timeslice_ticks] refuses a slice of zero *)
Definition rr_service_transaction (x : nat) (ticks fraction_q : Z) : Op bool :=
  if (ticks =? 0) && (fraction_q =? 0) then mret false
  else
    t ← task_at x;
    let p := load_sched_params t in
    if negb (is_rr_class (class p)) then has_higher_rt (rt_priority p)
    else
      let old_fraction := rr_fraction_q (owned t) in
      if ONE <=? old_fraction then throw InconsistentState
      else
        fraction_total ← some_or (checked_add_u128 old_fraction fraction_q) ArithmeticExhausted;
        service_ticks ← some_or (checked_add_u128 ticks (fraction_total / ONE)) ArithmeticExhausted;
        higher ← has_higher_rt (rt_priority p);
        same ← has_same_rt (rt_priority p);
        slice ← gets rr_ticks;
        let '(next_remaining, next_rr_fraction, reschedule) :=
          rr_budget slice (rr_remaining t) service_ticks (fraction_total mod ONE) higher same in
        update_task x (with_rr next_remaining);;
        update_owned x (with_rr_fraction next_rr_fraction);;
        mret reschedule.

(** [tick_fair], [tick_rt] *)
Definition tick_fair_bulk (x : nat) (ticks : Z) : Op bool := must_op (fair_service_transaction x ticks 0).
Definition tick_rt_bulk (x : nat) (ticks : Z) : Op bool := must_op (rr_service_transaction x ticks 0).

(** The consistency of the pending runtime with the period of a sample *)
Definition pending_consistent (o : EevdfOwnedState) (period_ns : Z) : bool :=
  let f := fraction o in
  negb ((period_ns <=? runtime_remainder_ns o)
        || (negb (runtime_remainder_ns o =? 0) && negb (runtime_fraction_period_ns f =? 0)
            && negb (runtime_fraction_period_ns f =? period_ns))
        || (negb (runtime_fraction_remainder_ns f =? 0)
            && ((runtime_fraction_period_ns f =? 0) || (runtime_fraction_period_ns f <=? runtime_fraction_remainder_ns f)))).
(** The conversion residue that continues under [period_ns] *)
Definition old_residue (o : EevdfOwnedState) (period_ns : Z) : Z :=
  if runtime_fraction_period_ns (fraction o) =? period_ns then runtime_fraction_remainder_ns (fraction o) else 0.

(** [settle_runtime_remainder] *)
Definition settle_runtime_remainder (x : nat) (period_ns : Z) : Op bool :=
  ensure_running x;;
  if period_ns =? 0 then throw InconsistentState
  else
    t ← task_at x;
    let o := owned t in
    let p := load_sched_params t in
    if negb (pending_consistent o period_ns) then throw InconsistentState
    else
      validate_runtime_fraction_owner p o;;
      if negb (runtime_fraction_remainder_ns (fraction o) =? 0) && negb (runtime_fraction_period_ns (fraction o) =? period_ns)
      then throw InconsistentState
      else
        numerator ← some_or (v ← checked_mul_u128 (runtime_remainder_ns o) ONE; checked_add_u128 v (old_residue o period_ns))
                      ArithmeticExhausted;
        let fraction_ticks := numerator / period_ns in
        if ONE <? fraction_ticks then throw InconsistentState
        else
          let whole := fraction_ticks / ONE in
          let fraction_q := fraction_ticks mod ONE in
          weight ← lift (fraction_weight_for p);
          reschedule ←
            (if is_rt_class (class p) then
               if is_rr_class (class p) then rr_service_transaction x whole fraction_q else has_higher_rt (rt_priority p)
             else fair_service_transaction x whole fraction_q);
          update_owned x (fun o =>
            publish_runtime_fraction_owner p weight (numerator mod period_ns) period_ns (with_runtime_remainder 0 o));;
          mret reschedule.

(** [settle_before_lifecycle] *)
Definition settle_before_lifecycle (x : nat) : Op () :=
  o ← owned_state x;
  if negb (runtime_remainder_ns o =? 0) || negb (runtime_fraction_remainder_ns (fraction o) =? 0)
  then _ ← settle_runtime_remainder x (runtime_fraction_period_ns (fraction o)); mret tt
  else mret tt.

(** [account_deadline_runtime] *)
Definition account_deadline_runtime (x : nat) (elapsed_ns : Z) : Op bool :=
  o ← owned_state x;
  let d := server o in
  if deadline_throttled d || (deadline_remaining_ns d =? 0) then throw InconsistentState
  else
    let exhausted := deadline_remaining_ns d <=? elapsed_ns in
    update_owned x (with_server (mkServer (Z.max 0 (deadline_remaining_ns d - elapsed_ns)) (deadline_absolute_ns d)
                                   (deadline_replenish_at_ns d) exhausted));;
    front ← front_task;
    mret (exhausted
          || match front with
             | Some t => (class_rank (key t) =? DEADLINE_CLASS_RANK) && (key_order (key t) <? deadline_absolute_ns d)
             | None => false
             end).

(** The whole periods of a sample, the runtime it leaves and its residue *)
Definition split_sample (o : EevdfOwnedState) (elapsed period : Z) : option (Z * Z * Z) :=
  total ← checked_add_u128 (runtime_remainder_ns o) elapsed;
  let remainder := total mod period in
  numerator ← (v ← checked_mul_u128 remainder ONE; checked_add_u128 v (old_residue o period));
  let extra_q := numerator / period in
  periods ← (if ONE <=? extra_q then checked_add_u128 (total / period) (extra_q / ONE) else Some (total / period));
  Some (periods, (if ONE <=? extra_q then 0 else remainder), numerator mod period).
(** [account_runtime_transaction] *)
Definition account_runtime_transaction (x : nat) (d : RuntimeDelta) : Op bool :=
  let period := period_ns d in
  if period =? 0 then throw InconsistentState
  else
    c ← sched_at q;
    now ← some_or (checked_add_u64 (deadline_now_ns c) (elapsed_ns d)) ArithmeticExhausted;
    update_sched q (with_now now);;
    replenish_deadlines q;;
    t ← task_at x;
    let p := load_sched_params t in
    if is_deadline_class (class p) then account_deadline_runtime x (elapsed_ns d)
    else
      let o := owned t in
      if negb (pending_consistent o period)
         || (negb (runtime_fraction_remainder_ns (fraction o) =? 0) && negb (runtime_fraction_period_ns (fraction o) =? period))
      then throw InconsistentState
      else
        validate_runtime_fraction_owner p o;;
        weight ← lift (fraction_weight_for p);
        '(periods, next_remainder, residue) ← some_or (split_sample o (elapsed_ns d) period) ArithmeticExhausted;
        reschedule ←
          (if periods =? 0 then mret false
           else if is_rt_class (class p) then rr_service_transaction x periods 0
           else fair_service_transaction x periods 0);
        update_owned x (fun o =>
          publish_runtime_fraction_owner p weight residue period (with_runtime_remainder next_remainder o));;
        mret reschedule.

(** ** Putting the running task back *)

(** A server goes to the tree its state names; a failed insertion into the
    throttled tree keeps the staged key *)
Definition put_server (x : nat) : Op () :=
  t ← task_at x;
  let d := server (owned t) in
  sequence ← next_rt_sequence q false;
  (if deadline_throttled d then
     stage_key x (throttled_deadline_key (deadline_replenish_at_ns d) sequence) (deadline_replenish_at_ns d);;
     with_err tree_error (tree_insert q ThrottledTree x)
   else insert_staged q x (deadline_key (deadline_absolute_ns d) sequence) 0 (key t) (node_eligible_at t));;
  update_sched q (with_running None).

(** The real-time placement: the front of its priority or not, a new slice or not *)
Definition rt_placement (c : EevdfTaskClass) (reason : EnqueueReason) (budget : Z) : option (bool * bool) :=
  match c, reason with
  | EevdfTaskClass.Fifo, Preempt => Some (true, false)
  | EevdfTaskClass.Fifo, Yield => Some (false, false)
  | EevdfTaskClass.RoundRobin, Yield => Some (false, true)
  | EevdfTaskClass.RoundRobin, Preempt => Some (if 0 <? budget then (true, false) else (false, true))
  | _, _ => None
  end.
(** [put_running] *)
Definition put_running (x : nat) (reason : EnqueueReason) : Op () :=
  ensure_running x;;
  settle_before_lifecycle x;;
  t ← task_at x;
  let p := load_sched_params t in
  if is_deadline_class (class p) then put_server x
  else
    c ← sched_at q;
    '(next_entity, (k, at_), reset_rr) ←
      (match entity (owned t) with
       | Some e =>
           next ←
             (match reason with
              | Yield => model_run (on_copy (yield_request profile (total_weight (clock c)) (clock_v (clock c))) e)
              | Preempt =>
                  if remaining (ent_request e) =? 0
                  then model_run (on_copy (entity_renew profile (total_weight (clock c)) (clock_v (clock c))) e)
                  else model_run (on_copy preempt_request e)
              | _ => throw InconsistentState
              end);
           sequence ← next_fair_sequence q;
           k ← fair_key next sequence;
           mret (Some next, k, false)
       | None =>
           if is_rt_class (class p) then
             '(front, reset_rr) ← some_or (rt_placement (class p) reason (rr_remaining t)) IncompatibleClass;
             sequence ← next_rt_sequence q front;
             mret (None, (rt_key p sequence, 0), reset_rr)
           else throw InconsistentState
       end);
    insert_staged q x k at_ (key t) (node_eligible_at t);;
    (if reset_rr : bool then reset_rr_slice x else mret tt);;
    update_owned x (fun o => with_entity next_entity (with_sleeping false None (with_migration None o)));;
    update_sched q (with_running None).

(** ** Removal *)

(** The tree a linked task is in, by its server *)
Definition tree_of_task (o : EevdfOwnedState) : tree_name :=
  if deadline_throttled (server o) then ThrottledTree else ReadyTree.
(** [remove_ready] *)
Definition remove_ready (x : nat) : Op (option nat) :=
  t ← task_at x;
  c ← sched_at q;
  if queue_owner t =? UNOWNED then mret None
  else if negb (queue_owner t =? sched_id c) || (sched_id c =? UNOWNED) then throw ForeignQueue
  else if bool_decide (running c = Some x) then throw InconsistentState
  else if negb (linked t) then throw InconsistentState
  else
    next_clock ←
      (if bool_decide (entity (owned t) <> None) then
         weight ← lift (fair_weight (load_sched_params t));
         next ← model_run (on_copy (checked_sub_weight weight) (clock c));
         mret (Some next)
       else mret None);
    removed ← with_err tree_error (tree_remove q (tree_of_task (owned t)) x);
    release_if_deadline (load_sched_params t) x;;
    match next_clock with Some next => update_sched q (with_clock next) | None => mret tt end;;
    update_owned removed cleared_state;;
    must_transfer removed (sched_id c) UNOWNED;;
    mret (Some removed).

End Scheduler.
