(* ===== verification/EevdfLifecycle.v ===== *)
(** The EEVDF scheduler, part 2 of [EEVDFScheduler] in
    [crates/thekernel-axsched/src/eevdf.rs]: migration between run queues,
    wake-up, parameter changes, the scheduler trait and its drop. *)

From S2P Require Import Prelude Effects Atomics EevdfTree EevdfMath EevdfModel Sched EevdfTask EevdfSched.
Local Open Scope Z_scope.

Section Scheduler.
Context (profile : EevdfProfile) (q : nat).

(** ** Migration *)

(** The snapshot of the entity and the clock without its weight *)
Definition detach (e : option Entity) (now : Clock) : Op (option MigrationSnapshot * Clock) :=
  match e with
  | None => mret (None, now)
  | Some e =>
      snapshot ← model_run (migration_snapshot e (clock_v now));
      detached ← model_run (on_copy (checked_sub_weight (ent_weight e)) now);
      mret (Some snapshot, detached)
  end.
Definition migration_state (c : EEVDFScheduler) (t : EEVDFTask) (snapshot : option MigrationSnapshot) (detached : Clock)
    (origin : EevdfMigrationOrigin) : MigrationState :=
  let o := owned t in
  mkMigration (sched_id c) (load_sched_params t) snapshot (clock c) detached (entity o) (key t) (node_eligible_at t)
    (rr_remaining t) (runtime_remainder_ns o) (fraction o) (rr_fraction_q o) (dormant_fair o) (server o)
    (deadline_domain c) origin.
(** [stage_migration_state] *)
Definition stage_migration_state (x : nat) (m : MigrationState) : Op () :=
  update_owned x (fun o =>
    with_entity None (with_runtime_remainder 0 (with_migration (Some m) (with_dormant None (with_sleeping false None o))))).
(** The reservation of a task that leaves: a shared ledger keeps it *)
Definition detach_reservation (x : nat) : Op () :=
  t ← task_at x;
  c ← sched_at q;
  if is_deadline_class (class (load_sched_params t)) then
    if bool_decide (deadline_domain c <> None) then release_deadline_local q (deadline_config t)
    else release_deadline q (deadline_config t)
  else mret tt.
(** [migration_token_from_task] *)
Definition migration_token_from_task (x : nat) (parked : bool) : Op (option EevdfMigration) :=
  o ← owned_state x;
  mret (m ← migration o; Some (mkToken x (mig_source_scheduler_id m) (mig_origin m) parked)).

(** [begin_ready_migration] *)
Definition begin_ready_migration (x : nat) : Op EevdfMigration :=
  c ← sched_at q;
  t ← task_at x;
  if (sched_id c =? UNOWNED) || negb (queue_owner t =? sched_id c) then throw ForeignQueue
  else if bool_decide (running c = Some x) then throw InconsistentState
  else if negb (linked t) then throw InconsistentState
  else
    '(snapshot, detached) ← detach (entity (owned t)) (clock c);
    removed ← with_err tree_error (tree_remove q (tree_of_task (owned t)) x);
    must_transfer removed (sched_id c) CONFIGURING;;
    stage_migration_state removed (migration_state c t snapshot detached OriginReady);;
    detach_reservation removed;;
    update_sched q (with_clock detached);;
    token ← migration_token_from_task removed false;
    some_or token InconsistentState.

(** [begin_running_migration] *)
Definition begin_running_migration (x : nat) : Op EevdfMigration :=
  ensure_running profile q x;;
  settle_before_lifecycle profile q x;;
  c ← sched_at q;
  t ← task_at x;
  '(snapshot, detached) ← detach (entity (owned t)) (clock c);
  stage_migration_state x (migration_state c t snapshot detached OriginRunning);;
  detach_reservation x;;
  update_sched q (fun c => with_running None (with_clock detached c));;
  must_transfer x (sched_id c) CONFIGURING;;
  token ← migration_token_from_task x false;
  some_or token InconsistentState.

(** [claim_migration_for_commit], and what [migration_error] does to the claim *)
Definition claim_migration_for_commit (x : nat) : Op () :=
  o ← owner x;
  if o =? CONFIGURING then mret tt
  else if o =? UNOWNED then claim_migration x
  else throw ForeignQueue.
Definition unclaim_parked (m : EevdfMigration) : Op () :=
  o ← owner (tok_task m);
  if tok_parked m && (o =? CONFIGURING) then must_transfer (tok_task m) CONFIGURING UNOWNED else mret tt.
(** The claim of a token and the record it stands for *)
Definition open_migration (m : EevdfMigration) : Op MigrationState :=
  let x := tok_task m in
  claim_migration_for_commit x;;
  t ← task_at x;
  d ← some_or (migration (owned t)) InconsistentState;
  if negb (mig_source_scheduler_id d =? tok_source_scheduler_id m) || bool_decide (mig_origin d <> tok_origin m)
     || bool_decide (load_sched_params t <> mig_params d)
  then throw InconsistentState else mret d.

(** The reservation at the destination: a retained one only inside its domain *)
Definition attach_reservation (x : nat) (d : MigrationState) (foreign : SchedulerError) : Op () :=
  c ← sched_at q;
  t ← task_at x;
  match mig_deadline_domain d with
  | Some source => if bool_decide (deadline_domain c <> Some source) then throw foreign else mret tt
  | None => mret tt
  end;;
  if is_deadline_class (class (mig_params d)) then
    if bool_decide (mig_deadline_domain d <> None) then admit_deadline_local q (deadline_config t)
    else admit_deadline q (deadline_config t)
  else mret tt.
Definition unattach_reservation (x : nat) (d : MigrationState) : Op () :=
  t ← task_at x;
  if is_deadline_class (class (mig_params d)) then
    if bool_decide (mig_deadline_domain d <> None) then release_deadline_local q (deadline_config t)
    else release_deadline q (deadline_config t)
  else mret tt.
(** A throttled server enters the throttled tree; its key stays staged when the
    insertion fails *)
Definition insert_throttled (x : nat) (replenish sequence : Z) : Op () :=
  stage_key x (throttled_deadline_key replenish sequence) replenish;;
  with_err tree_error (tree_insert q ThrottledTree x).
(** The state published at the end of a migration *)
Definition arrived (e : option Entity) (d : MigrationState) (rr_fraction : Z) : EevdfOwnedState :=
  mkOwned e (mig_runtime_remainder_ns d) (mig_fraction d) rr_fraction None (mig_dormant_fair d) false None None (mig_server d).

(** The entity rebuilt at the destination, with the clock that includes it *)
Definition rebuild (snapshot : MigrationSnapshot) (now : Clock) : Op (Clock * Entity) :=
  next_clock ← model_run (on_copy (checked_add_weight (snap_weight snapshot)) now);
  e ← model_run (from_migration profile snapshot (clock_v next_clock));
  mret (next_clock, e).
Definition arrival_key (d : MigrationState) (e : option Entity) : Op (EevdfReadyKey * Z) :=
  match e with
  | Some e => sequence ← peek_fair_sequence q; fair_key e sequence
  | None =>
      sequence ← peek_rt_sequence q false;
      mret (if is_deadline_class (class (mig_params d)) then deadline_key (deadline_absolute_ns (mig_server d)) sequence
            else rt_key (mig_params d) sequence, 0)
  end.
(** [commit_migration] after the token was opened *)
Definition arrive (x : nat) (d : MigrationState) : Op nat :=
  destination_id ← ensure_id q;
  c ← sched_at q;
  '(next_clock, e) ←
    (match mig_snapshot d with
     | Some snapshot => '(next_clock, e) ← rebuild snapshot (clock c); mret (next_clock, Some e)
     | None => mret (clock c, None)
     end);
  '(k, at_) ← arrival_key d e;
  attach_reservation x d ForeignQueue;;
  (if deadline_throttled (mig_server d) then
     sequence ← peek_rt_sequence q false;
     on_error (insert_throttled x (deadline_replenish_at_ns (mig_server d)) sequence) (unattach_reservation x d)
   else on_error (insert_staged q x k at_ (mig_source_key d) (mig_source_eligible_at d)) (unattach_reservation x d));;
  let renew_rr := is_rr_class (class (mig_params d)) && (mig_rr_remaining d =? 0) in
  (if renew_rr then reset_rr_slice x else update_task x (with_rr (mig_rr_remaining d)));;
  update_owned x (fun _ => arrived e d (if renew_rr then 0 else mig_rr_fraction_q d));;
  must_transfer x CONFIGURING destination_id;;
  update_sched q (with_clock next_clock);;
  (match e with Some _ => commit_fair_sequence q | None => commit_rt_sequence q false end);;
  mret x.
Definition commit_migration (m : EevdfMigration) : M Eevdf (SchedulerError * EevdfMigration) nat :=
  with_err (fun kind => (kind, m))
    (c ← sched_at q;
     if (tok_source_scheduler_id m =? sched_id c) && negb (sched_id c =? UNOWNED) then throw ForeignQueue
     else on_error (d ← open_migration m; arrive (tok_task m) d) (unclaim_parked m)).

(** [resume_migration] *)
Definition resume_migration (x : nat) : Op EevdfMigration :=
  o ← owner x;
  if negb (o =? UNOWNED) then throw (if o =? CONFIGURING then TaskBusy else ForeignQueue)
  else
    claim_migration x;;
    token ← migration_token_from_task x true;
    match token with
    | Some token => mret token
    | None => must_transfer x CONFIGURING UNOWNED;; throw InconsistentState
    end.

(** [rollback_migration]: without clock progress the source's own entity and key *)
Definition departure_key (d : MigrationState) (now : Clock) : Op (Clock * option Entity * (EevdfReadyKey * Z)) :=
  if bool_decide (now = mig_detached_clock d) then
    mret (mig_source_clock d, mig_source_entity d, (mig_source_key d, mig_source_eligible_at d))
  else
    match mig_snapshot d with
    | Some snapshot =>
        '(next_clock, e) ← rebuild snapshot now;
        k ← fair_key e (key_sequence (mig_source_key d));
        mret (next_clock, Some e, k)
    | None => mret (now, None, (mig_source_key d, mig_source_eligible_at d))
    end.
Definition return_home (x : nat) (d : MigrationState) : Op nat :=
  c ← sched_at q;
  '(next_clock, e, (k, at_)) ← departure_key d (clock c);
  attach_reservation x d InconsistentState;;
  on_error
    (if deadline_throttled (mig_server d)
     then insert_throttled x (deadline_replenish_at_ns (mig_server d)) (key_sequence (mig_source_key d))
     else insert_staged q x k at_ (mig_source_key d) (mig_source_eligible_at d))
    (unattach_reservation x d);;
  let renew_rr := is_rr_class (class (mig_params d)) && bool_decide (mig_origin d = OriginRunning) && (mig_rr_remaining d =? 0) in
  n ← gets rr_ticks;
  update_task x (with_rr (if renew_rr then n else mig_rr_remaining d));;
  update_owned x (fun _ => arrived e d (if renew_rr then 0 else mig_rr_fraction_q d));;
  must_transfer x CONFIGURING (sched_id c);;
  update_sched q (with_clock next_clock);;
  mret x.
Definition rollback_migration (m : EevdfMigration) : M Eevdf (SchedulerError * EevdfMigration) nat :=
  with_err (fun kind => (kind, m))
    (c ← sched_at q;
     if (sched_id c =? UNOWNED) || negb (tok_source_scheduler_id m =? sched_id c) then throw ForeignQueue
     else on_error (d ← open_migration m; return_home (tok_task m) d) (unclaim_parked m)).

(** [enqueue_migrated_task]; a failed token is dropped *)
Definition enqueue_migrated_task (x : nat) : Op nat :=
  token ← resume_migration x;
  c ← sched_at q;
  on_error
    (with_err fst (if tok_source_scheduler_id token =? sched_id c then rollback_migration token else commit_migration token))
    (drop_configuration x).

(** ** Wake-up *)

(** The fair branch of [enqueue_wakeup]: the clock with the weight, the awake
    entity and its key *)
Definition wake_fair (p : EevdfTaskParams) (o : EevdfOwnedState) (e : Entity) : Op (Clock * Entity * (EevdfReadyKey * Z)) :=
  if negb (is_sleeping e) || rt_sleeping o then throw InconsistentState
  else
    c ← sched_at q;
    weight ← lift (fair_weight p);
    next_clock ← model_run (on_copy (checked_add_weight weight) (clock c));
    next ← model_run (on_copy (wake_preserving_progress profile (clock_v (clock c))) e);
    next ← (if clock_v next_clock =? clock_v (clock c) then mret next
            else model_run (on_copy (activate_preserving_progress (clock_v next_clock)) next));
    cls ← some_or (fair_class (class p)) IncompatibleClass;
    if bool_decide (ent_class next <> cls) || negb (ent_weight next =? weight) then throw InconsistentState
    else
      sequence ← next_fair_sequence q;
      k ← fair_key next sequence;
      mret (next_clock, next, k).

(** The server of a woken deadline task: its key, the server renewed because its
    instant has passed, and whether it is still throttled *)
Definition wake_server (now : Z) (config : DeadlineConfig) (d : DeadlineState) (sequence : Z)
    : Op (EevdfReadyKey * option DeadlineState * bool) :=
  let exhausted := deadline_remaining_ns d =? 0 in
  renewed ←
    (if (exhausted && (deadline_replenish_at_ns d <=? now)) || (negb exhausted && (deadline_absolute_ns d <=? now))
     then d ← some_or (fresh_server now config) ArithmeticExhausted; mret (Some d)
     else mret None);
  let throttle := exhausted && bool_decide (renewed = None) in
  let absolute := match renewed with Some r => deadline_absolute_ns r | None => deadline_absolute_ns d end in
  mret (if throttle then throttled_deadline_key (deadline_replenish_at_ns d) sequence else deadline_key absolute sequence,
        renewed, throttle).
(** The real-time branch: the dormant entity, the key and the server *)
Definition wake_rt (x : nat) (p : EevdfTaskParams) (o : EevdfOwnedState)
    : Op (option Entity * (EevdfReadyKey * option DeadlineState * bool)) :=
  c ← sched_at q;
  dormant ← (match dormant_fair o with
             | Some e => e ← model_run (on_copy (end_sleep_frozen (clock_v (clock c))) e); mret (Some e)
             | None => mret None
             end);
  sequence ← next_rt_sequence q false;
  (if is_deadline_class (class p) then
     t ← task_at x;
     plan ← wake_server (deadline_now_ns c) (deadline_config t) (server o) sequence;
     mret (dormant, plan)
   else mret (dormant, (rt_key p sequence, None, false))).
(** The server after the wake-up *)
Definition woken_server (renewed : option DeadlineState) (throttle : bool) (d : DeadlineState) : DeadlineState :=
  match renewed with
  | Some r => r
  | None => if throttle then mkServer (deadline_remaining_ns d) (deadline_absolute_ns d) (deadline_replenish_at_ns d) true else d
  end.
(** [enqueue_wakeup] after the claim *)
Definition wake_claimed (x : nat) : Op () :=
  c ← sched_at q;
  t ← task_at x;
  let o := owned t in
  let p := load_sched_params t in
  if bool_decide (migration o <> None) then throw TaskBusy
  else if bool_decide (running c = Some x) || linked t then throw AlreadyQueued
  else
    '(next_clock, e, dormant, (k, at_), reset_rr, (renewed, throttle)) ←
      (match entity o with
       | Some e =>
           '(next_clock, e, k) ← wake_fair p o e;
           mret (next_clock, Some e, dormant_fair o, k, false, (None, false))
       | None =>
           if is_rt_class (class p) && rt_sleeping o then
             '(dormant, (k, renewed, throttle)) ← wake_rt x p o;
             mret (clock c, None, dormant, (k, 0), is_rr_class (class p), (renewed, throttle))
           else throw InconsistentState
       end);
    (if throttle : bool then
       stage_key x k at_;;
       on_error (with_err tree_error (tree_insert q ThrottledTree x)) (stage_key x (key t) (node_eligible_at t))
     else insert_staged q x k at_ (key t) (node_eligible_at t));;
    (if reset_rr : bool then reset_rr_slice x else mret tt);;
    update_owned x (fun o =>
      with_entity e (with_dormant dormant (with_sleeping false None (with_server (woken_server renewed throttle (server o)) o))));;
    (if is_rr_class (class p) then reset_rr_slice x else mret tt);;
    update_sched q (with_clock next_clock).
Definition enqueue_wakeup (x : nat) : Op () :=
  scheduler_id ← ensure_id q;
  o ← owner x;
  if negb (o =? UNOWNED) then throw (if o =? scheduler_id then AlreadyQueued else ForeignQueue)
  else
    claim x scheduler_id;;
    on_error (wake_claimed x) (release_claim q x).

(** ** Parameter changes *)

(** [active_reconfigured_state]: the entity and the dormant entity of a task that
    is ready or running *)
Definition active_reconfigured_state (o : EevdfOwnedState) (old_params new_params : EevdfTaskParams)
    (next_total_weight v fair_runtime : Z) : Op (option Entity * option Entity) :=
  let old_fair := negb (is_rt_class (class old_params)) in
  let new_fair := negb (is_rt_class (class new_params)) in
  if old_fair && bool_decide (entity o = None) then throw InconsistentState
  else if old_fair && match entity o with Some e => is_sleeping e | None => false end then throw InconsistentState
  else
    match old_fair, new_fair with
    | true, true =>
        e ← some_or (entity o) InconsistentState;
        cls ← expect (fair_class (class new_params));
        weight ← lift (fair_weight new_params);
        e ← model_run (on_copy (reconfigure profile cls weight next_total_weight v) e);
        e ← rebind_fair_runtime profile e fair_runtime next_total_weight FAIR_PERIOD_NS;
        mret (Some e, None)
    | true, false =>
        e ← some_or (entity o) InconsistentState;
        dormant ← model_run (on_copy (freeze_at v) e);
        mret (None, Some dormant)
    | false, true =>
        weight ← lift (fair_weight new_params);
        cls ← expect (fair_class (class new_params));
        e ← (match dormant_fair o with
             | Some d => model_run (on_copy (reconfigure_frozen profile cls weight next_total_weight v) d)
             | None => model_run (entity_new profile cls weight next_total_weight v)
             end);
        e ← rebind_fair_runtime profile e fair_runtime next_total_weight FAIR_PERIOD_NS;
        mret (Some e, None)
    | false, false => mret (None, dormant_fair o)
    end.

(** [sleeping_reconfigured_state]: the same of a sleeping task, and whether it
    sleeps as a real-time task *)
Definition sleeping_reconfigured_state (now : Clock) (o : EevdfOwnedState) (old_params new_params : EevdfTaskParams)
    (fair_runtime : Z) : Op (option Entity * option Entity * bool) :=
  let anchor := default (clock_v now) (sleep_v o) in
  let old_fair := negb (is_rt_class (class old_params)) in
  let new_fair := negb (is_rt_class (class new_params)) in
  match old_fair, new_fair with
  | true, true =>
      e ← some_or (entity o) InconsistentState;
      weight ← lift (fair_weight new_params);
      total ← some_or (checked_add_u128 (total_weight now) weight) ArithmeticExhausted;
      cls ← expect (fair_class (class new_params));
      e ← model_run (on_copy (reconfigure_sleeping profile cls weight total) e);
      e ← rebind_fair_runtime profile e fair_runtime total FAIR_PERIOD_NS;
      mret (Some e, None, false)
  | true, false => mret (None, entity o, true)
  | false, true =>
      weight ← lift (fair_weight new_params);
      total ← some_or (checked_add_u128 (total_weight now) weight) ArithmeticExhausted;
      cls ← expect (fair_class (class new_params));
      e ← (match dormant_fair o with
           | Some d =>
               d ← (if is_sleeping d then mret d else model_run (on_copy (begin_sleep_frozen anchor) d));
               model_run (on_copy (reconfigure_sleeping profile cls weight total) d)
           | None =>
               fresh ← model_run (entity_new profile cls weight total anchor);
               model_run (on_copy (begin_sleep profile anchor) fresh)
           end);
      e ← (if is_sleeping e then mret e else model_run (on_copy (begin_sleep profile anchor) e));
      e ← rebind_fair_runtime profile e fair_runtime total FAIR_PERIOD_NS;
      mret (Some e, None, false)
  | false, false => mret (None, dormant_fair o, true)
  end.

(** [next_rr_budget] *)
Definition next_rr_budget (slice : Z) (old_params new_params : EevdfTaskParams) (old_remaining : Z) : Z :=
  if negb (is_rr_class (class new_params)) then 0
  else if is_rr_class (class old_params) then old_remaining
  else slice.
Definition kept_rr_fraction (old_params new_params : EevdfTaskParams) (old : Z) : Z :=
  if is_rr_class (class old_params) && is_rr_class (class new_params) then old else 0.

(** The checks of both branches: settled runtime, and whether the residue of the
    old class or weight has to go *)
Definition settled_fraction (o : EevdfOwnedState) (old_params new_params : EevdfTaskParams) (allow_settled_fraction : bool) : Op bool :=
  let residue := negb (runtime_fraction_remainder_ns (fraction o) =? 0) in
  if negb (runtime_remainder_ns o =? 0) || (negb allow_settled_fraction && residue) then throw InconsistentState
  else
    validate_runtime_fraction_owner old_params o;;
    old_weight ← lift (fraction_weight_for old_params);
    new_weight ← lift (fraction_weight_for new_params);
    mret (residue && (bool_decide (class old_params <> class new_params) || negb (old_weight =? new_weight))).
(** [clear_runtime_fraction] *)
Definition clear_runtime_fraction (clear : bool) (o : EevdfOwnedState) : EevdfOwnedState :=
  if clear then with_residue no_fraction o else o.

(** The server written to a sleeping task, field by field, so that an overflow
    leaves the fields written before it *)
Definition write_server (x : nat) (now : Z) (d : DeadlineConfig) : Op () :=
  if negb (is_valid d) then throw InvalidParameters
  else
    update_owned x (fun o => with_server (mkServer (dl_runtime_ns d) (deadline_absolute_ns (server o))
      (deadline_replenish_at_ns (server o)) (deadline_throttled (server o))) o);;
    absolute ← some_or (checked_add_u64 now (dl_deadline_ns d)) ArithmeticExhausted;
    update_owned x (fun o => with_server (mkServer (dl_runtime_ns d) absolute
      (deadline_replenish_at_ns (server o)) (deadline_throttled (server o))) o);;
    replenish ← some_or (checked_add_u64 now (dl_period_ns d)) ArithmeticExhausted;
    update_owned x (with_server (mkServer (dl_runtime_ns d) absolute replenish false)).

(** [set_task_params_impl], the [UNOWNED] arm: a virgin or a sleeping task *)
Definition set_unowned_params (x : nat) (p : EevdfTaskParams) (allow_settled_fraction : bool) : Op () :=
  claim_reconfiguration x;;
  on_error
    (t ← task_at x;
     c ← sched_at q;
     let o := owned t in
     let old_params := load_sched_params t in
     if bool_decide (migration o <> None) then throw TaskBusy
     else
       clear ← settled_fraction o old_params p allow_settled_fraction;
       if bool_decide (entity o = None) && negb (rt_sleeping o) && bool_decide (dormant_fair o = None) then
         update_owned x (fun o =>
           clear_runtime_fraction clear (if is_rt_class (class p) then with_seed None o else o));;
         apply_validated x p
       else
         '(e, dormant, sleeping) ← sleeping_reconfigured_state (clock c) o old_params p (fair_runtime_ns t);
         update_owned x (fun o => with_entity e (with_rr_fraction (kept_rr_fraction old_params p (rr_fraction_q o))
           (with_dormant dormant (with_sleeping sleeping (sleep_v o) o))));;
         (if is_deadline_class (class p) then write_server x (deadline_now_ns c) (deadline_config t)
          else update_owned x (with_server no_server));;
         update_owned x (clear_runtime_fraction clear);;
         n ← gets rr_ticks;
         publish_validated x p (next_rr_budget n old_params p (rr_remaining t)))
    (drop_configuration x);;
  finish_configuration x.

(** The clock after the old weight is replaced by the new one, in one step *)
Definition reweighted_clock (now : Clock) (old_weight new_weight : option Z) : Op Clock :=
  total ← (match old_weight with
           | Some w => some_or (checked_sub_u128 (total_weight now) w) InconsistentState
           | None => mret (total_weight now)
           end);
  total ← (match new_weight with
           | Some w => some_or (checked_add_u128 total w) ArithmeticExhausted
           | None => mret total
           end);
  if total =? total_weight now then mret now else model_run (on_copy (set_total_weight total) now).
Definition fair_weight_of (p : EevdfTaskParams) : Op (option Z) :=
  if is_rt_class (class p) then mret None else w ← lift (fair_weight p); mret (Some w).

(** The key a ready task will have *)
Definition replacement_key (c : EEVDFScheduler) (p : EevdfTaskParams) (e : option Entity) (d : DeadlineConfig)
    : Op (EevdfReadyKey * Z) :=
  sequence ← (if is_rt_class (class p) then peek_rt_sequence q false else peek_fair_sequence q);
  match e with
  | Some e => fair_key e sequence
  | None =>
      if is_deadline_class (class p) then
        if negb (is_valid d) then throw InvalidParameters
        else
          absolute ← some_or (checked_add_u64 (deadline_now_ns c) (dl_deadline_ns d)) ArithmeticExhausted;
          mret (deadline_key absolute sequence, 0)
      else mret (rt_key p sequence, 0)
  end.
(** Taking a ready task out of its tree and putting it back under its new key;
    the reservation in the shared ledger and the old place are restored on the
    way out *)
Definition rekey (x : nat) (p : EevdfTaskParams) (k : EevdfReadyKey) (at_ : Z) (old new : option DeadlineConfig) : Op () :=
  t ← task_at x;
  let w := tree_of_task (owned t) in
  removed ← on_error (with_err tree_error (tree_remove q w x)) (must_op (replace_deadline_domain q new old));
  on_error (insert_staged q x k at_ (key t) (node_eligible_at t))
    (must_op (with_err tree_error (tree_insert q w removed));; must_op (replace_deadline_domain q new old));;
  if is_rt_class (class p) then commit_rt_sequence q false else commit_fair_sequence q.
(** [set_task_params_impl], the arm of the scheduler's own task *)
Definition set_owned_params (x : nat) (p : EevdfTaskParams) (allow_settled_fraction : bool) : Op (option nat) :=
  t ← task_at x;
  c ← sched_at q;
  let o := owned t in
  let old_params := load_sched_params t in
  clear ← settled_fraction o old_params p allow_settled_fraction;
  let is_running := bool_decide (running c = Some x) in
  if negb is_running && negb (linked t) then throw InconsistentState
  else
    old_weight ← fair_weight_of old_params;
    new_weight ← fair_weight_of p;
    next_clock ← reweighted_clock (clock c) old_weight new_weight;
    '(e, dormant) ← active_reconfigured_state o old_params p (total_weight next_clock) (clock_v next_clock) (fair_runtime_ns t);
    n ← gets rr_ticks;
    let next_rr := next_rr_budget n old_params p (rr_remaining t) in
    let old := if is_deadline_class (class old_params) then Some (deadline_config t) else None in
    let new := if is_deadline_class (class p) then Some (deadline_config t) else None in
    next_utilization ← replaced_deadline_utilization q old new;
    replacement ← (if is_running then mret None else k ← replacement_key c p e (deadline_config t); mret (Some k));
    replace_deadline_domain q old new;;
    (match replacement with None => mret tt | Some (k, at_) => rekey x p k at_ old new end);;
    next_server ← (if is_deadline_class (class p) then expect (fresh_server (deadline_now_ns c) (deadline_config t))
                   else mret no_server);
    update_owned x (fun o => clear_runtime_fraction clear
      (with_entity e (with_rr_fraction (kept_rr_fraction old_params p (rr_fraction_q o))
        (with_dormant dormant (with_sleeping false None (with_migration None (with_server next_server o)))))));;
    publish_validated x p next_rr;;
    update_sched q (fun c => with_utilization next_utilization (with_clock next_clock c));;
    post_update_outcome q.

(** [set_task_params_impl], [set_task_params] *)
Definition set_task_params_impl (x : nat) (p : EevdfTaskParams) (allow_settled_fraction : bool) : Op (option nat) :=
  p ← some_or (validated p) InvalidParameters;
  t ← task_at x;
  c ← sched_at q;
  if queue_owner t =? CONFIGURING then throw TaskBusy
  else if queue_owner t =? UNOWNED then set_unowned_params x p allow_settled_fraction;; mret None
  else if negb (queue_owner t =? sched_id c) || (sched_id c =? UNOWNED) then throw ForeignQueue
  else set_owned_params x p allow_settled_fraction.
Definition set_task_params (x : nat) (p : EevdfTaskParams) : Op (option nat) := set_task_params_impl x p false.

(** The pending runtime of the current task is settled first; a failed update
    undoes the settlement *)
Definition settled_update {A} (x : nat) (period_ns : Z) (update : Op A) : Op A :=
  c ← sched_at q;
  if bool_decide (running c = Some x) then
    t ← task_at x;
    _ ← settle_runtime_remainder profile q x period_ns;
    on_error update
      (update_sched q (with_clock (clock c));; update_owned x (fun _ => owned t);; update_task x (with_rr (rr_remaining t)))
  else update.
(** [set_task_params_with_runtime] *)
Definition set_task_params_with_runtime (x : nat) (p : EevdfTaskParams) (period_ns : Z) : Op (option nat) :=
  if bool_decide (validated p = None) then throw InvalidParameters
  else settled_update x period_ns (set_task_params_impl x p true).

(** [set_priority_impl], [set_priority], [set_priority_with_runtime] *)
Definition set_priority_impl (x : nat) (prio : Z) (allow_settled_fraction : bool) : Op (option nat) :=
  if negb ((-20 <=? prio) && (prio <=? 19)) then throw InvalidParameters
  else
    t ← task_at x;
    c ← sched_at q;
    if queue_owner t =? CONFIGURING then throw TaskBusy
    else if negb (queue_owner t =? UNOWNED) && ((sched_id c =? UNOWNED) || negb (queue_owner t =? sched_id c)) then throw ForeignQueue
    else
      let current := load_sched_params t in
      if is_rt_class (class current) then throw IncompatibleClass
      else set_task_params_impl x (mkParams (class current) prio 0) allow_settled_fraction.
Definition set_priority (x : nat) (prio : Z) : Op (option nat) := set_priority_impl x prio false.
Definition set_priority_with_runtime (x : nat) (prio period_ns : Z) : Op (option nat) :=
  if negb ((-20 <=? prio) && (prio <=? 19)) then throw InvalidParameters
  else settled_update x period_ns (set_priority_impl x prio true).

(** [set_task_deadline_config_with_runtime], the [UNOWNED] arm *)
Definition set_unowned_deadline (x : nat) (d : DeadlineConfig) : Op () :=
  claim_reconfiguration x;;
  on_error
    (t ← task_at x;
     c ← sched_at q;
     if bool_decide (migration (owned t) <> None) then throw TaskBusy
     else if is_deadline_class (class (load_sched_params t)) && rt_sleeping (owned t) then
       let old := deadline_config t in
       next_utilization ← replaced_deadline_utilization q (Some old) (Some d);
       next ← some_or (fresh_server (deadline_now_ns c) d) ArithmeticExhausted;
       replace_deadline_domain q (Some old) (Some d);;
       update_task x (with_config d);;
       update_owned x (with_server next);;
       stage_key x (deadline_key (deadline_absolute_ns next) (key_sequence (key t))) 0;;
       update_sched q (with_utilization next_utilization)
     else update_task x (with_config d))
    (drop_configuration x);;
  finish_configuration x.
(** A ready server under its new deadline: the shared ledger is restored when the
    sequence or the removal fails, not when the insertion does *)
Definition rekey_deadline (x : nat) (absolute : Z) (old d : DeadlineConfig) : Op () :=
  t ← task_at x;
  sequence ← on_error (peek_rt_sequence q false) (must_op (replace_deadline_domain q (Some d) (Some old)));
  removed ← on_error (with_err tree_error (tree_remove q (tree_of_task (owned t)) x))
              (must_op (replace_deadline_domain q (Some d) (Some old)));
  on_error (insert_staged q x (deadline_key absolute sequence) 0 (key t) (node_eligible_at t))
    (must_op (with_err tree_error (tree_insert q ReadyTree removed)));;
  commit_rt_sequence q false.
(** The arm of the scheduler's own task: the shared ledger is changed before the
    deadline and the replenishment instant are computed *)
Definition set_owned_deadline (x : nat) (d : DeadlineConfig) : Op (option nat) :=
  t ← task_at x;
  c ← sched_at q;
  let old := deadline_config t in
  next_utilization ← replaced_deadline_utilization q (Some old) (Some d);
  replace_deadline_domain q (Some old) (Some d);;
  next ← some_or (fresh_server (deadline_now_ns c) d) ArithmeticExhausted;
  (if bool_decide (running c = Some x) then mret tt else rekey_deadline x (deadline_absolute_ns next) old d);;
  update_task x (with_config d);;
  update_owned x (with_server next);;
  update_sched q (with_utilization next_utilization);;
  post_update_outcome q.
Definition set_task_deadline_config_with_runtime (x : nat) (d : DeadlineConfig) : Op (option nat) :=
  t ← task_at x;
  c ← sched_at q;
  if negb (is_valid d) || negb (is_deadline_class (class (load_sched_params t))) then throw InvalidParameters
  else if queue_owner t =? UNOWNED then set_unowned_deadline x d;; mret None
  else if negb (queue_owner t =? sched_id c) || (sched_id c =? UNOWNED) then throw ForeignQueue
  else set_owned_deadline x d.

(** [stage_task_deadline_config] *)
Definition stage_task_deadline_config (x : nat) (d : DeadlineConfig) : Op () :=
  if negb (is_valid d) then throw InvalidParameters
  else
    t ← task_at x;
    c ← sched_at q;
    if queue_owner t =? UNOWNED then
      claim_reconfiguration x;;
      on_error
        (t ← task_at x;
         if bool_decide (migration (owned t) <> None) then throw TaskBusy else update_task x (with_config d))
        (drop_configuration x);;
      finish_configuration x
    else if (queue_owner t =? sched_id c) && negb (sched_id c =? UNOWNED) then update_task x (with_config d)
    else throw ForeignQueue.

(** [set_task_fair_runtime_with_runtime]: the arms of an unowned, of the running
    and of a ready task *)
Definition set_unowned_fair_runtime (x : nat) (runtime_ns period_ns : Z) : Op () :=
  claim_reconfiguration x;;
  on_error
    (t ← task_at x;
     c ← sched_at q;
     if bool_decide (migration (owned t) <> None) then throw TaskBusy
     else
       (match entity (owned t) with
        | Some e =>
            e ← rebind_fair_runtime profile e runtime_ns (total_weight (clock c)) period_ns;
            update_owned x (with_entity (Some e))
        | None => mret tt
        end);;
       update_task x (with_fair_runtime runtime_ns))
    (drop_configuration x);;
  finish_configuration x.
Definition set_running_fair_runtime (x : nat) (runtime_ns period_ns : Z) : Op () :=
  c ← sched_at q;
  t ← task_at x;
  _ ← settle_runtime_remainder profile q x period_ns;
  on_error
    (o ← owned_state x;
     c ← sched_at q;
     e ← some_or (entity o) InconsistentState;
     e ← rebind_fair_runtime profile e runtime_ns (total_weight (clock c)) period_ns;
     update_owned x (with_entity (Some e));;
     update_task x (with_fair_runtime runtime_ns))
    (update_sched q (with_clock (clock c));; update_owned x (fun _ => owned t);;
     update_task x (with_fair_runtime (fair_runtime_ns t))).
Definition set_ready_fair_runtime (x : nat) (runtime_ns period_ns : Z) : Op () :=
  t ← task_at x;
  c ← sched_at q;
  if negb (linked t) then throw InconsistentState
  else
    e ← some_or (entity (owned t)) InconsistentState;
    e ← rebind_fair_runtime profile e runtime_ns (total_weight (clock c)) period_ns;
    sequence ← peek_fair_sequence q;
    '(k, at_) ← fair_key e sequence;
    removed ← with_err tree_error (tree_remove q ReadyTree x);
    rescue (insert_staged q x k at_ (key t) (node_eligible_at t))
      (fun e => with_err (fun _ => InconsistentState) (tree_insert q ReadyTree removed);; throw e);;
    update_owned x (with_entity (Some e));;
    update_task x (with_fair_runtime runtime_ns);;
    commit_fair_sequence q.
Definition set_task_fair_runtime_with_runtime (x : nat) (runtime_ns period_ns : Z) : Op () :=
  let runtime_ns := clamp_fair_runtime_ns runtime_ns in
  t ← task_at x;
  c ← sched_at q;
  let cls := class (load_sched_params t) in
  if negb (runtime_ns =? 0) && negb (match cls with EevdfTaskClass.Normal | EevdfTaskClass.Batch => true | _ => false end)
  then throw InvalidParameters
  else if is_rt_class cls then update_task x (with_fair_runtime 0)
  else if queue_owner t =? CONFIGURING then throw TaskBusy
  else if queue_owner t =? UNOWNED then set_unowned_fair_runtime x runtime_ns period_ns
  else if negb (queue_owner t =? sched_id c) || (sched_id c =? UNOWNED) then throw ForeignQueue
  else if bool_decide (running c = Some x) then set_running_fair_runtime x runtime_ns period_ns
  else set_ready_fair_runtime x runtime_ns period_ns.

(** ** Queries and fork seeds *)

(** [EEVDFScheduler::fork_seed] *)
Definition fork_seed_of (parent : nat) : Op EevdfForkSeed :=
  c ← sched_at q;
  t ← task_at parent;
  if (sched_id c =? UNOWNED) || negb (queue_owner t =? sched_id c) then throw ForeignQueue
  else
    e ← some_or (entity (owned t)) IncompatibleClass;
    if is_sleeping e then throw IncompatibleClass
    else
      lag ← model_run (lag_at e (clock_v (clock c)));
      let cap := credit_cap profile (ent_class e) in
      mret (mkSeed (ent_class e) (Z.max (- cap) (Z.min cap lag))).

(** [task_timeslice] *)
Definition task_timeslice (x : nat) (allow_unowned_sleeping_fair : bool) : Op (EevdfTaskClass * Z) :=
  c ← sched_at q;
  t ← task_at x;
  n ← gets rr_ticks;
  if sched_id c =? UNOWNED then throw TaskBusy
  else
    let cls := class (load_sched_params t) in
    let fair := match cls with EevdfTaskClass.Normal | EevdfTaskClass.Batch => true | _ => false end in
    let sleeping_fair :=
      allow_unowned_sleeping_fair && (queue_owner t =? UNOWNED) && fair && bool_decide (migration (owned t) = None)
      && match entity (owned t) with Some e => negb (req_q (ent_request e) =? 0) | None => false end in
    if negb (queue_owner t =? sched_id c) && negb sleeping_fair then throw TaskBusy
    else
      mret (cls,
        match cls with
        | EevdfTaskClass.RoundRobin => n
        | EevdfTaskClass.Fifo | EevdfTaskClass.Idle | EevdfTaskClass.Deadline => 0
        | EevdfTaskClass.Normal | EevdfTaskClass.Batch =>
            if total_weight (clock c) =? 0 then 0
            else
              match (match entity (owned t) with Some e => Some e | None => dormant_fair (owned t) end) with
              | Some e => Z.min (req_q (ent_request e)) usize_MAX
              | None => 0
              end
        end).

(** ** The trait *)

Definition add_task (x : nat) : Op () := enqueue_new profile q x.
Definition remove_task (x : nat) : Op (option nat) := remove_ready q x.
Definition remove_task_for_migration (x : nat) : Op (option nat) :=
  token ← begin_ready_migration x; y ← park token; mret (Some y).
Definition put_prev_task (x : nat) (preempt : bool) : Op () := put_running profile q x (if preempt then Preempt else Yield).
Definition enqueue_task (x : nat) (reason : EnqueueReason) : Op () :=
  match reason with
  | New => enqueue_new profile q x
  | Wakeup => enqueue_wakeup x
  | Yield | Preempt => put_running profile q x reason
  | Migrate => _ ← enqueue_migrated_task x; mret tt
  end.

(** [deactivate_task] for [Sleep] and for [Exit], after the lifecycle checks *)
Definition go_to_sleep (x : nat) : Op () :=
  c ← sched_at q;
  t ← task_at x;
  let p := load_sched_params t in
  if is_rt_class (class p) then
    update_owned x (with_sleeping true (Some (clock_v (clock c))));;
    update_sched q (with_running None);;
    must_transfer x (sched_id c) UNOWNED
  else
    weight ← expect (eevdf_weight_for p);
    e ← expect (entity (owned t));
    next_entity ← must (on_copy (begin_sleep profile (clock_v (clock c))) e);
    next_clock ← must (on_copy (checked_sub_weight weight) (clock c));
    update_owned x (fun o => with_entity (Some next_entity) (with_sleeping false (Some (clock_v (clock c))) o));;
    update_sched q (fun c => with_running None (with_clock next_clock c));;
    must_transfer x (sched_id c) UNOWNED.
Definition leave (x : nat) : Op () :=
  t ← task_at x;
  let p := load_sched_params t in
  release_if_deadline q p x;;
  c ← sched_at q;
  next_clock ← (if is_rt_class (class p) then mret (clock c)
                else weight ← expect (eevdf_weight_for p); must (on_copy (checked_sub_weight weight) (clock c)));
  update_owned x (fun o => with_server no_server (cleared_state o));;
  update_sched q (fun c => with_running None (with_clock next_clock c));;
  must_transfer x (sched_id c) UNOWNED.
Definition deactivate_task (x : nat) (reason : DeactivateReason) : Op () :=
  must_op (ensure_running profile q x);;
  must_op (settle_before_lifecycle profile q x);;
  match reason with
  | MigrateAway => token ← must_op (begin_running_migration x); _ ← must_op (park token); mret tt
  | Sleep => go_to_sleep x
  | Exit => leave x
  end.

(** [task_tick], [account_runtime] *)
Definition task_tick (x : nat) : Op bool :=
  must_op (ensure_running profile q x);;
  p ← sched_params x;
  if is_deadline_class (class p) then replenish_deadlines q;; must_op (account_deadline_runtime q x 1)
  else if is_rt_class (class p) then tick_rt_bulk q x 1
  else tick_fair_bulk profile q x 1.
Definition account_runtime (x : nat) (d : RuntimeDelta) : Op bool :=
  must_op (ensure_running profile q x);;
  must_op (account_runtime_transaction profile q x d).

(** ** [Drop for EEVDFScheduler] *)

Definition release_dropped (x : nat) : Op () :=
  c ← sched_at q;
  update_owned x cleared_state;;
  update_task x (with_rr 0);;
  must_transfer x (sched_id c) UNOWNED.
(** Every round takes one task, so the size of the tree bounds the rounds. *)
Fixpoint drain_ready (fuel : nat) : Op () :=
  front ← tree_front q ReadyTree;
  match front with
  | None => mret tt
  | Some x =>
      match fuel with
      | O => diverge
      | S fuel => y ← must_remove q ReadyTree x; release_dropped y;; drain_ready fuel
      end
  end.
(** The fields are dropped after the method: the throttled tree releases its
    nodes, which keep their owner word. The slot of a dropped scheduler is that
    of a new one. *)
Definition drop_scheduler : Op () :=
  c ← sched_at q;
  drain_ready (length (ready_tree c));;
  c ← sched_at q;
  update_sched q (with_running None);;
  (match running c with Some x => release_dropped x | None => mret tt end);;
  for_each (throttled_tree c) (fun x => update_task x (with_linked false));;
  update_sched q (fun _ => scheduler_new).

End Scheduler.
