(* ===== verification/EevdfSchedSpec.v ===== *)
(** Reasoning about the EEVDF scheduler: what every method of a call preserves.

    [steps R m] says that [m] relates the state it starts in to the state it
    leaves, whether it returns or fails, by the preorder [R]. The rules for the
    control structure are in the hint database [steps]; an invariant is the
    preorder of the changes that keep it. *)

From stdpp Require Import relations.
From S2P Require Import Prelude Effects Atomics EevdfTree EevdfMath EevdfModel Sched EevdfTask EevdfSched EevdfLifecycle.
Local Open Scope Z_scope.

(** What a method that returned has done *)
Lemma done_bind {S E A B} (m : M S E A) (f : A -> M S E B) s b s' :
  (m ≫= f) s = Done b s' -> exists a s1, m s = Done a s1 /\ f a s1 = Done b s'.
Proof. unfold mbind, M_bind. destruct (m s) as [a s1|e s1| |]; try done. eauto. Qed.
Lemma done_some_or {S E A} (o : option A) (e : E) (s : S) a s' : some_or o e s = Done a s' -> o = Some a /\ s' = s.
Proof. destruct o; cbn; [|done]. by intros [= -> ->]. Qed.
Lemma done_lift {S E A} (r : result A E) (s : S) a s' : lift r s = Done a s' -> r = Ok a /\ s' = s.
Proof. destruct r; cbn; [|done]. by intros [= -> ->]. Qed.
Lemma done_model {A} (m : model A) s a s' : model_run m s = Done a s' -> m = Value a /\ s' = s.
Proof. destruct m; cbn; try done. by intros [= -> ->]. Qed.
Lemma done_ret {S E A} (a : A) (s : S) b s' : mret (M := M S E) a s = Done b s' -> b = a /\ s' = s.
Proof. by intros [= -> ->]. Qed.
Lemma done_gets {S E A} (f : S -> A) (s : S) a s' : gets (E := E) f s = Done a s' -> a = f s /\ s' = s.
Proof. by intros [= -> ->]. Qed.
Lemma done_task_at {E} x s t s' : task_at (E := E) x s = Done t s' -> tasks s !! x = Some t /\ s' = s.
Proof. unfold task_at, gets, mbind, M_bind, expect. destruct (tasks s !! x); [|done]. by intros [= -> ->]. Qed.
Lemma done_sched_at {E} q s c s' : sched_at (E := E) q s = Done c s' -> schedulers s !! q = Some c /\ s' = s.
Proof. unfold sched_at, gets, mbind, M_bind, expect. destruct (schedulers s !! q); [|done]. by intros [= -> ->]. Qed.
Lemma done_owned {E} x s o s' : owned_state (E := E) x s = Done o s' -> exists t, tasks s !! x = Some t /\ o = owned t /\ s' = s.
Proof. unfold owned_state. intros (t & s1 & [Ht ->]%done_task_at & [-> ->]%done_ret)%done_bind. eauto. Qed.
Lemma done_update_task {E} x f s r s' : update_task (E := E) x f s = Done r s' -> exists t, tasks s !! x = Some t /\ s' = set_task x (f t) s.
Proof. unfold update_task. intros (t & s1 & [Ht ->]%done_task_at & [= <-])%done_bind. eauto. Qed.
Lemma done_update_sched {E} q f s r s' : update_sched (E := E) q f s = Done r s' -> exists c, schedulers s !! q = Some c /\ s' = set_sched q (f c) s.
Proof. unfold update_sched. intros (t & s1 & [Ht ->]%done_sched_at & [= <-])%done_bind. eauto. Qed.

(** Takes a method that returned apart. *)
Ltac done_inv :=
  repeat match goal with
  | H : (_ ≫= _) _ = Done _ _ |- _ => let a := fresh "a" in let s := fresh "s" in let H1 := fresh "H" in apply done_bind in H as (a & s & H1 & H)
  | H : some_or _ _ _ = Done _ _ |- _ => apply done_some_or in H as [H ->]
  | H : lift _ _ = Done _ _ |- _ => apply done_lift in H as [H ->]
  | H : model_run _ _ = Done _ _ |- _ => apply done_model in H as [H ->]
  | H : mret _ _ = Done _ _ |- _ => apply done_ret in H as [H ->]
  | H : gets _ _ = Done _ _ |- _ => apply done_gets in H as [H ->]
  | H : throw _ _ = Done _ _ |- _ => discriminate H
  | H : panic _ = Done _ _ |- _ => discriminate H
  | H : task_at _ _ = Done _ _ |- _ => apply done_task_at in H as [H ->]
  | H : sched_at _ _ = Done _ _ |- _ => apply done_sched_at in H as [H ->]
  | H : owned_state _ _ = Done _ _ |- _ => let t := fresh "t" in apply done_owned in H as (t & H & -> & ->)
  end.

Section Steps.
Context (R : Eevdf -> Eevdf -> Prop) `{!PreOrder R}.

Definition steps {E A} (m : M Eevdf E A) : Prop := forall s,
  match m s with Done _ s' | Fail _ s' => R s s' | Panic | Diverged => True end.
(** A value a method can return *)
Definition yields {E A} (m : M Eevdf E A) (a : A) : Prop := exists s s', m s = Done a s'.

Lemma steps_ret {E A} (a : A) : steps (E := E) (mret a).
Proof. intros s. cbn. reflexivity. Qed.
Lemma steps_throw {E A} (e : E) : steps (A := A) (throw e).
Proof. intros s. cbn. reflexivity. Qed.
Lemma steps_panic {E A} : steps (E := E) (A := A) panic.
Proof. by intros s. Qed.
Lemma steps_diverge {E A} : steps (E := E) (A := A) diverge.
Proof. by intros s. Qed.
Lemma steps_gets {E A} (f : Eevdf -> A) : steps (E := E) (gets f).
Proof. intros s. cbn. reflexivity. Qed.
Lemma steps_some_or {E A} (o : option A) (e : E) : steps (some_or o e).
Proof. intros s. destruct o; cbn; reflexivity. Qed.
Lemma steps_lift {E A} (r : result A E) : steps (lift r).
Proof. intros s. destruct r; cbn; reflexivity. Qed.
Lemma steps_expect {E A} (o : option A) : steps (E := E) (expect o).
Proof. intros s. destruct o; cbn; [reflexivity|done]. Qed.
Lemma steps_assert {E} b : steps (E := E) (assert_ b).
Proof. intros s. destruct b; cbn; [reflexivity|done]. Qed.
Lemma steps_model {A} (m : model A) : steps (model_run m).
Proof. intros s. destruct m; cbn; try reflexivity; done. Qed.
Lemma steps_must {A} (m : model A) : steps (must m).
Proof. intros s. destruct m; cbn; try reflexivity; done. Qed.

Lemma steps_bind_yields {E A B} (m : M Eevdf E A) (f : A -> M Eevdf E B) :
  steps m -> (forall a, yields m a -> steps (f a)) -> steps (m ≫= f).
Proof.
  intros Hm Hf s. unfold mbind, M_bind. specialize (Hm s).
  destruct (m s) as [a s1|e s1| |] eqn:H; try done.
  assert (yields m a) as Hy by (by exists s, s1). specialize (Hf a Hy s1).
  destruct (f a s1); try done; by etrans.
Qed.
Lemma steps_bind {E A B} (m : M Eevdf E A) (f : A -> M Eevdf E B) :
  steps m -> (forall a, steps (f a)) -> steps (m ≫= f).
Proof. intros Hm Hf. apply steps_bind_yields; auto. Qed.

Lemma steps_with_err {E F A} (g : E -> F) (m : M Eevdf E A) : steps m -> steps (with_err g m).
Proof. intros Hm s. unfold with_err. specialize (Hm s). by destruct (m s). Qed.
Lemma steps_must_op {A} (m : Op A) : steps m -> steps (must_op m).
Proof. intros Hm s. unfold must_op. specialize (Hm s). by destruct (m s). Qed.
Lemma steps_on_error {A F} (m : M Eevdf F A) (c : Op ()) : steps m -> steps c -> steps (on_error m c).
Proof.
  intros Hm Hc s. unfold on_error. specialize (Hm s). destruct (m s) as [a s1|e s1| |]; try done.
  specialize (Hc s1). destruct (c s1); try done; by etrans.
Qed.
Lemma steps_rescue {A} (m : Op A) (h : SchedulerError -> Op A) : steps m -> (forall e, steps (h e)) -> steps (rescue m h).
Proof.
  intros Hm Hh s. unfold rescue. specialize (Hm s). destruct (m s) as [a s1|e s1| |]; try done.
  specialize (Hh e s1). destruct (h e s1); try done; by etrans.
Qed.
Lemma steps_for_each {X} (l : list X) (body : X -> Op ()) : (forall x, steps (body x)) -> steps (for_each l body).
Proof. intros Hb. induction l; cbn; [apply steps_ret|]. unfold for_each. fold (@for_each Eevdf SchedulerError X). by apply steps_bind. Qed.
Lemma steps_must_remove q w x : steps (tree_remove q w x) -> steps (must_remove q w x).
Proof. intros Hm s. unfold must_remove. specialize (Hm s). by destruct (tree_remove q w x s). Qed.

End Steps.

Create HintDb steps.
#[export] Hint Resolve steps_ret steps_throw steps_panic steps_diverge steps_gets steps_some_or steps_lift steps_expect
  steps_assert steps_model steps_must steps_with_err steps_must_op steps_on_error steps_rescue steps_for_each
  steps_must_remove : steps.

(** Follows the control structure of a method down to its primitive steps. *)
Ltac steps_control :=
  repeat (cbv beta zeta;
    match goal with
    | |- steps _ (_ ≫= _) => apply steps_bind; [apply _| |intros ?]
    | |- steps _ (on_error _ _) => apply steps_on_error; [apply _| |]
    | |- steps _ (rescue _ _) => apply steps_rescue; [apply _| |intros ?]
    | |- steps _ (with_err _ _) => apply steps_with_err
    | |- steps _ (must_op _) => apply steps_must_op
    | |- steps _ (for_each _ _) => apply steps_for_each; [apply _|intros ?]
    | |- steps _ (must_remove _ _ _) => apply steps_must_remove
    | |- steps _ (match ?x with _ => _ end) => destruct x
    | |- steps _ (let '(_, _) := ?x in _) => destruct x
    end).
Ltac steps_auto := steps_control; eauto with steps typeclass_instances.

Section Primitive.
Context (R : Eevdf -> Eevdf -> Prop) `{!PreOrder R}.

Lemma steps_task_at {E} x : steps R (task_at (E := E) x).
Proof. unfold task_at. steps_auto. Qed.
Lemma steps_sched_at {E} q : steps R (sched_at (E := E) q).
Proof. unfold sched_at. steps_auto. Qed.
Lemma steps_update_task {E} x f : (forall s t, tasks s !! x = Some t -> R s (set_task x (f t) s)) -> steps R (update_task (E := E) x f).
Proof.
  intros H s. unfold update_task, task_at, gets, expect, mbind, M_bind. destruct (tasks s !! x) eqn:Ht; [|done]. cbn. auto.
Qed.
Lemma steps_update_sched {E} q f : (forall s c, schedulers s !! q = Some c -> R s (set_sched q (f c) s)) -> steps R (update_sched (E := E) q f).
Proof.
  intros H s. unfold update_sched, sched_at, gets, expect, mbind, M_bind. destruct (schedulers s !! q) eqn:Ht; [|done]. cbn. auto.
Qed.
Lemma steps_modify {E} f : (forall s, R s (f s)) -> steps R (modify (E := E) f).
Proof. intros H s. cbn. auto. Qed.
Lemma steps_owned_state {E} x : steps R (owned_state (E := E) x).
Proof. unfold owned_state. steps_auto. apply steps_task_at. Qed.
Lemma steps_sched_params {E} x : steps R (sched_params (E := E) x).
Proof. unfold sched_params. steps_auto. apply steps_task_at. Qed.
Lemma steps_owner {E} x : steps R (owner (E := E) x).
Proof. unfold owner. steps_auto. apply steps_task_at. Qed.
End Primitive.
#[export] Hint Resolve steps_task_at steps_sched_at steps_owned_state steps_sched_params steps_owner : steps.

(** Unfolds a method that no rule covers. *)
Ltac head_of t := lazymatch t with ?f _ => head_of f | _ => t end.
Ltac steps_unfold := match goal with |- steps _ ?m => let h := head_of m in unfold h end.
Ltac steps_all := repeat (steps_control; first [solve [eauto 3 with steps typeclass_instances] | progress steps_unfold]).

(** ** One field of one scheduler *)

Section Projection.
Context {V : Type} (proj : EEVDFScheduler -> V) (q : nat).

Definition same_proj (s s' : Eevdf) : Prop := proj <$> schedulers s' !! q = proj <$> schedulers s !! q.
#[export] Instance same_proj_preorder : PreOrder same_proj.
Proof. split; unfold same_proj; repeat intro; congruence. Qed.
Lemma proj_task {E} x f : steps same_proj (update_task (E := E) x f).
Proof. by apply steps_update_task. Qed.
Lemma proj_sched {E} q' f : (forall c, proj (f c) = proj c) -> steps same_proj (update_sched (E := E) q' f).
Proof.
  intros Hf. apply steps_update_sched. intros s c Hc. unfold same_proj. cbn. destruct (decide (q = q')) as [->|]; [|by rewrite list_lookup_insert_ne].
  rewrite list_lookup_insert_eq by (by eapply lookup_lt_Some). rewrite Hc. cbn. by rewrite Hf.
Qed.
End Projection.
Ltac proj_steps :=
  repeat (cbv beta zeta;
    match goal with
    | |- steps _ (_ ≫= _) => apply steps_bind; [apply _| |intros ?]
    | |- steps _ (update_task _ _) => apply proj_task
    | |- steps _ (update_owned _ _) => apply proj_task
    | |- steps _ (update_sched _ (with_tree ?w _)) => apply proj_sched; intros ?; destruct w; reflexivity
    | |- steps _ (update_sched _ _) => apply proj_sched; intros ?; reflexivity
    | |- steps _ (with_err _ _) => apply steps_with_err
    | |- steps _ (must_op _) => apply steps_must_op
    | |- steps _ (must_remove _ _ _) => apply steps_must_remove
    | |- steps _ (match ?x with _ => _ end) => destruct x
    | |- steps _ _ => solve [eauto 2 with steps typeclass_instances]
    | |- steps _ _ => steps_unfold
    end).

(** ** Calls *)

(** A call of the public interface on the scheduler [q]; reservations and
    migrations in flight are arbitrary. *)
Inductive eevdf_call : Type :=
| CallConfigure (x : nat) (p : EevdfTaskParams)
| CallConfigureDeadline (x : nat) (d : DeadlineConfig)
| CallConfigureFairRuntime (x : nat) (runtime_ns : Z)
| CallInstallForkSeed (x : nat) (seed : EevdfForkSeed)
| CallSetSlice (ticks : Z)
| CallBindDomain (d : nat)
| CallAdvanceClock (now_ns : Z)
| CallReserve (x : nat)
| CallCommitReserved (r : EevdfTaskReservation)
| CallCancelReservation (r : EevdfTaskReservation)
| CallDropToken (x : nat)
| CallBeginReady (x : nat)
| CallBeginRunning (x : nat)
| CallCommitMigration (m : EevdfMigration)
| CallRollbackMigration (m : EevdfMigration)
| CallResumeMigration (x : nat)
| CallPark (m : EevdfMigration)
| CallSetParams (x : nat) (p : EevdfTaskParams)
| CallSetParamsWithRuntime (x : nat) (p : EevdfTaskParams) (period_ns : Z)
| CallSetPriority (x : nat) (prio : Z)
| CallSetPriorityWithRuntime (x : nat) (prio period_ns : Z)
| CallSetDeadline (x : nat) (d : DeadlineConfig)
| CallStageDeadline (x : nat) (d : DeadlineConfig)
| CallSetFairRuntime (x : nat) (runtime_ns period_ns : Z)
| CallSettle (x : nat) (period_ns : Z)
| CallForkSeed (x : nat)
| CallEnqueue (x : nat) (reason : EnqueueReason)
| CallRemove (x : nat)
| CallRemoveForMigration (x : nat)
| CallDeactivate (x : nat) (reason : DeactivateReason)
| CallPickNext
| CallPutPrev (x : nat) (preempt : bool)
| CallTick (x : nat)
| CallAccount (x : nat) (d : RuntimeDelta)
| CallDrop.

Definition ignore {E A} (m : M Eevdf E A) : M Eevdf E () := _ ← m; mret tt.
Definition run_call (profile : EevdfProfile) (q : nat) (call : eevdf_call) : Op () :=
  match call with
  | CallConfigure x p => configure x p
  | CallConfigureDeadline x d => configure_deadline x d
  | CallConfigureFairRuntime x n => configure_fair_runtime_ns x n
  | CallInstallForkSeed x seed => install_fork_seed x seed
  | CallSetSlice ticks => ignore (set_rr_timeslice_ticks ticks)
  | CallBindDomain d => set_deadline_admission_domain q d
  | CallAdvanceClock now_ns => advance_deadline_clock q now_ns
  | CallReserve x => ignore (reserve_new_task q x)
  | CallCommitReserved r => ignore (with_err fst (commit_reserved_task profile q r))
  | CallCancelReservation r => ignore (cancel_reservation r)
  | CallDropToken x => drop_configuration x
  | CallBeginReady x => ignore (begin_ready_migration q x)
  | CallBeginRunning x => ignore (begin_running_migration profile q x)
  | CallCommitMigration m => ignore (with_err fst (commit_migration profile q m))
  | CallRollbackMigration m => ignore (with_err fst (rollback_migration profile q m))
  | CallResumeMigration x => ignore (resume_migration x)
  | CallPark m => ignore (park m)
  | CallSetParams x p => ignore (set_task_params profile q x p)
  | CallSetParamsWithRuntime x p n => ignore (set_task_params_with_runtime profile q x p n)
  | CallSetPriority x prio => ignore (set_priority profile q x prio)
  | CallSetPriorityWithRuntime x prio n => ignore (set_priority_with_runtime profile q x prio n)
  | CallSetDeadline x d => ignore (set_task_deadline_config_with_runtime q x d)
  | CallStageDeadline x d => stage_task_deadline_config q x d
  | CallSetFairRuntime x n p => set_task_fair_runtime_with_runtime profile q x n p
  | CallSettle x n => ignore (settle_runtime_remainder profile q x n)
  | CallForkSeed x => ignore (fork_seed_of profile q x)
  | CallEnqueue x reason => enqueue_task profile q x reason
  | CallRemove x => ignore (remove_task q x)
  | CallRemoveForMigration x => ignore (remove_task_for_migration q x)
  | CallDeactivate x reason => deactivate_task profile q x reason
  | CallPickNext => ignore (pick_next_task q)
  | CallPutPrev x preempt => put_prev_task profile q x preempt
  | CallTick x => ignore (task_tick profile q x)
  | CallAccount x d => ignore (account_runtime profile q x d)
  | CallDrop => drop_scheduler q
  end.

(** The three words of a reservation *)
Definition config_ok (d : DeadlineConfig) : Prop := 0 <= dl_runtime_ns d /\ 0 <= dl_deadline_ns d /\ 0 <= dl_period_ns d.
Definition call_typed (call : eevdf_call) : Prop :=
  match call with
  | CallConfigureDeadline _ d | CallSetDeadline _ d | CallStageDeadline _ d => config_ok d
  | _ => True
  end.

(** A history: tasks, schedulers and domains come into being, and calls return or
    fail. A call that panics ends the history. *)
Inductive eevdf_step (profile : EevdfProfile) : Eevdf -> Eevdf -> Prop :=
| step_task s : eevdf_step profile s (add_new_task s)
| step_scheduler s : eevdf_step profile s (add_new_scheduler s)
| step_domain s cpus : eevdf_step profile s (add_new_domain (with_cpu_capacity cpus) s)
| step_done s s' q call : call_typed call -> run_call profile q call s = Done tt s' -> eevdf_step profile s s'
| step_fail s s' q call e : call_typed call -> run_call profile q call s = Fail e s' -> eevdf_step profile s s'.

Lemma step_call R profile s s' : Reflexive R ->
  (forall s, R s (add_new_task s)) -> (forall s, R s (add_new_scheduler s)) -> (forall s cpus, R s (add_new_domain (with_cpu_capacity cpus) s)) ->
  (forall q call, call_typed call -> steps R (run_call profile q call)) -> eevdf_step profile s s' -> R s s'.
Proof.
  intros HR Ht Hs Hd Hc Hst.
  destruct Hst as [s|s|s cpus|s s' q call Hty H|s s' q call e Hty H]; auto; specialize (Hc q call Hty s); by rewrite H in Hc.
Qed.

(** ** The ledgers are never overdrawn *)

Definition ledgers_ok (s : Eevdf) : Prop :=
  Forall (fun d => dom_utilization d <= dom_capacity d) (domains s) /\
  Forall (fun c => deadline_utilization c <= DEADLINE_UTIL_SCALE) (schedulers s) /\
  Forall (fun t => config_ok (deadline_config t)) (tasks s).
Definition keeps_ledgers (s s' : Eevdf) : Prop := ledgers_ok s -> ledgers_ok s'.
#[export] Instance keeps_ledgers_preorder : PreOrder keeps_ledgers.
Proof. split; unfold keeps_ledgers; repeat intro; auto. Qed.

Lemma ledgers_task {E} x f : (forall t, config_ok (deadline_config t) -> config_ok (deadline_config (f t))) ->
  steps keeps_ledgers (update_task (E := E) x f).
Proof.
  intros Hf. apply steps_update_task. intros s t Ht (Hd & Hs & Hc). split_and!; [done..|]. cbn.
  apply Forall_insert; [done|]. apply Hf. by eapply Forall_lookup_1 in Hc.
Qed.
Lemma ledgers_sched {E} q f : (forall c, deadline_utilization c <= DEADLINE_UTIL_SCALE -> deadline_utilization (f c) <= DEADLINE_UTIL_SCALE) ->
  steps keeps_ledgers (update_sched (E := E) q f).
Proof.
  intros Hf. apply steps_update_sched. intros s c Hc (Hd & Hs & Ht). split_and!; [done| |done]. cbn.
  apply Forall_insert; [done|]. apply Hf. by eapply Forall_lookup_1 in Hs.
Qed.
Lemma ledgers_modify {E} f : (forall s, domains (f s) = domains s /\ schedulers (f s) = schedulers s /\ tasks (f s) = tasks s) ->
  steps keeps_ledgers (modify (E := E) f).
Proof. intros Hf. apply steps_modify. intros s. unfold keeps_ledgers, ledgers_ok. by destruct (Hf s) as (-> & -> & ->). Qed.
(** What is read from a task is typed. *)
Lemma ledgers_read {E A} x (f : EEVDFTask -> M Eevdf E A) :
  (forall t, config_ok (deadline_config t) -> steps keeps_ledgers (f t)) -> steps keeps_ledgers (task_at x ≫= f).
Proof.
  intros Hf s. unfold task_at, gets, mbind, M_bind, expect. destruct (tasks s !! x) as [t|] eqn:Ht; [|done]. cbn.
  destruct (f t s) eqn:H; try done; intros (Hd & Hs & Hc); pose proof (Forall_lookup_1 _ _ _ _ Hc Ht) as Hok;
    specialize (Hf t Hok s); rewrite H in Hf; by apply Hf.
Qed.

Lemma replace_bounded old new d d' : replace old new d = Ok d' -> dom_utilization d' <= dom_capacity d'.
Proof.
  unfold replace, replace_total. destruct (u64_try_from old), (u64_try_from new); try done.
  destruct (checked_sub_usize _ _); [|done]. destruct (checked_add_u64 _ _) as [total|]; [|done].
  destruct (Z.ltb_spec (dom_capacity d) total); [done|]. intros [= <-]. cbn. lia.
Qed.
Lemma ledgers_domain d old new : steps keeps_ledgers (domain_replace d old new).
Proof.
  intros s. unfold domain_replace, gets, expect, mbind, M_bind. destruct (domains s !! d) as [l|]; [|done].
  cbn. destruct (replace old new l) as [l'|e] eqn:Hr; cbn; [|reflexivity].
  intros (Hd & Hs & Ht). split_and!; [|done..]. cbn. apply Forall_insert; [done|]. by eapply replace_bounded.
Qed.
Lemma replaced_bounded q old new u : yields (replaced_deadline_utilization q old new) u -> u <= DEADLINE_UTIL_SCALE.
Proof.
  intros (s & s' & H). unfold replaced_deadline_utilization in H. done_inv.
  destruct (Z.ltb_spec DEADLINE_UTIL_SCALE a3); done_inv; by subst.
Qed.
Lemma utilization_nonneg d : config_ok d -> 0 <= utilization_or_zero d.
Proof.
  intros (Hr & Hd & Hp). unfold utilization_or_zero, utilization, is_valid. destruct (negb _) eqn:Hv; [done|].
  apply negb_false_iff in Hv. rewrite !andb_true_iff, !Z.leb_le, negb_true_iff, Z.eqb_neq in Hv.
  destruct (_ ≫= _) as [u|] eqn:H; [|done]. unfold mbind, option_bind in H. unfold checked_mul_u128, checked_add_u128 in H.
  destruct (_ <=? u128_MAX); [|done]. destruct (_ <=? u128_MAX); [|done]. simplify_eq.
  apply Z.div_pos; unfold DEADLINE_UTIL_SCALE; nia.
Qed.

Lemma ledgers_admit_local q d : steps keeps_ledgers (admit_deadline_local q d).
Proof.
  unfold admit_deadline_local. do 3 (apply steps_bind; [apply _|eauto with steps typeclass_instances|intros ?]).
  destruct (Z.ltb_spec DEADLINE_UTIL_SCALE a1); eauto with steps typeclass_instances. by apply ledgers_sched.
Qed.
Lemma ledgers_release_local q d : config_ok d -> steps keeps_ledgers (release_deadline_local q d).
Proof.
  intros Hd%utilization_nonneg. apply ledgers_sched. intros c. cbn. unfold DEADLINE_UTIL_SCALE. lia.
Qed.

Ltac ledger_steps :=
  repeat (cbv beta zeta;
    match goal with
    | |- steps _ (task_at _ ≫= _) => apply ledgers_read; intros ? ?
    | |- steps _ (replaced_deadline_utilization _ _ _ ≫= _) =>
        apply steps_bind_yields; [apply _| |intros ? ?%replaced_bounded]
    | |- steps _ (_ ≫= _) => apply steps_bind; [apply _| |intros ?]
    | |- steps _ (update_task _ _) => apply ledgers_task; solve [auto]
    | |- steps _ (update_owned _ _) => apply ledgers_task; solve [auto]
    | |- steps _ (update_sched _ _) => apply ledgers_sched; intros ?; cbn; unfold DEADLINE_UTIL_SCALE; solve [auto | lia]
    | |- steps _ (modify _) => apply ledgers_modify; intros ?; split_and!; reflexivity
    | |- steps _ (domain_replace _ _ _) => apply ledgers_domain
    | |- steps _ (admit_deadline_local _ _) => apply ledgers_admit_local
    | |- steps _ (release_deadline_local _ _) => apply ledgers_release_local; solve [auto]
    | |- steps _ (on_error _ _) => apply steps_on_error; [apply _| |]
    | |- steps _ (rescue _ _) => apply steps_rescue; [apply _| |intros ?]
    | |- steps _ (with_err _ _) => apply steps_with_err
    | |- steps _ (must_op _) => apply steps_must_op
    | |- steps _ (for_each _ _) => apply steps_for_each; [apply _|intros ?]
    | |- steps _ (must_remove _ _ _) => apply steps_must_remove
    | |- steps _ (match ?x with _ => _ end) => destruct x
    | |- steps _ _ => solve [eauto 2 with steps typeclass_instances]
    | |- steps _ _ => steps_unfold
    end).

Lemma ledgers_tree q w x : steps keeps_ledgers (tree_insert q w x) /\ steps keeps_ledgers (tree_remove q w x).
Proof. split; destruct w; ledger_steps. Qed.
#[local] Hint Extern 1 (steps keeps_ledgers (tree_insert _ _ _)) => apply ledgers_tree : steps.
#[local] Hint Extern 1 (steps keeps_ledgers (tree_remove _ _ _)) => apply ledgers_tree : steps.
Lemma ledgers_replenish q fuel : steps keeps_ledgers (replenish_loop q fuel).
Proof. induction fuel; cbn [replenish_loop]; ledger_steps; auto. Qed.
Lemma ledgers_drain q fuel : steps keeps_ledgers (drain_ready q fuel).
Proof. induction fuel; cbn [drain_ready]; ledger_steps; auto. Qed.
#[local] Hint Resolve ledgers_replenish ledgers_drain : steps.

Lemma ledgers_call profile q call : call_typed call -> steps keeps_ledgers (run_call profile q call).
Proof. intros Hc. destruct call; cbn [run_call]; cbn in Hc; ledger_steps. Qed.

(** No history overdraws a ledger. *)
Lemma history_keeps_ledgers profile s s' : ledgers_ok s -> rtc (eevdf_step profile) s s' -> ledgers_ok s'.
Proof.
  intros Hok. induction 1 as [|s s1 s' Hst _ IH]; [done|]. apply IH. revert Hok. fold (keeps_ledgers s s1).
  eapply step_call; [..|exact Hst]; [apply _| | | |intros; by apply ledgers_call]; intros s0 **; intros (Hd & Hs & Ht); unfold ledgers_ok; cbn;
    rewrite ?Forall_app, ?Forall_singleton; split_and!; try done; cbn; unfold u64_MAX, DEADLINE_UTIL_SCALE; lia.
Qed.
