(* ===== verification/EevdfStructure.v ===== *)
(** The structure of the EEVDF run queues: who owns a task and where it is.

    The skeleton of a state is the owner word, link bit and key of every task,
    and the trees, current task and identity of every scheduler. [Inv h] is the
    invariant of the skeleton, with one task [h] that a method holds in the
    middle of a transition exempt from agreeing with its owner word. *)

From stdpp Require Import relations sorting.
From S2P Require Import Prelude Effects Atomics EevdfTree EevdfMath EevdfModel Sched EevdfTask EevdfSched EevdfLifecycle EevdfSchedSpec.
Local Open Scope Z_scope.

Record TaskSkel : Type := mkTS { kowner : Z; klinked : bool; kkey : EevdfReadyKey }.
Record SchedSkel : Type := mkSS { kready : list nat; kthrottled : list nat; krun : option nat; kid : Z }.
Record Skel : Type := mkSkel { ktasks : list TaskSkel; kscheds : list SchedSkel; knext : Z }.

Definition task_skel (t : EEVDFTask) : TaskSkel := mkTS (queue_owner t) (linked t) (key t).
Definition sched_skel (c : EEVDFScheduler) : SchedSkel := mkSS (ready_tree c) (throttled_tree c) (running c) (sched_id c).
Definition skel (s : Eevdf) : Skel := mkSkel (task_skel <$> tasks s) (sched_skel <$> schedulers s) (next_scheduler_id s).

Definition set_ktask (x : nat) (t : TaskSkel) (k : Skel) : Skel := mkSkel (<[x := t]> (ktasks k)) (kscheds k) (knext k).
Definition set_ksched (q : nat) (c : SchedSkel) (k : Skel) : Skel := mkSkel (ktasks k) (<[q := c]> (kscheds k)) (knext k).

Lemma skel_set_task x t s : skel (set_task x t s) = set_ktask x (task_skel t) (skel s).
Proof. unfold skel, set_ktask. cbn. by rewrite list_fmap_insert. Qed.
Lemma skel_set_sched q c s : skel (set_sched q c s) = set_ksched q (sched_skel c) (skel s).
Proof. unfold skel, set_ksched. cbn. by rewrite list_fmap_insert. Qed.
Lemma skel_task s x t : tasks s !! x = Some t -> ktasks (skel s) !! x = Some (task_skel t).
Proof. intros H. cbn. by rewrite list_lookup_fmap, H. Qed.
Lemma skel_sched s q c : schedulers s !! q = Some c -> kscheds (skel s) !! q = Some (sched_skel c).
Proof. intros H. cbn. by rewrite list_lookup_fmap, H. Qed.

Definition ktree (w : tree_name) (c : SchedSkel) : list nat := match w with ReadyTree => kready c | ThrottledTree => kthrottled c end.
Definition with_ktree (w : tree_name) (l : list nat) (c : SchedSkel) : SchedSkel :=
  match w with ReadyTree => mkSS l (kthrottled c) (krun c) (kid c) | ThrottledTree => mkSS (kready c) l (krun c) (kid c) end.
Definition key_at (k : Skel) (x : nat) : EevdfReadyKey := match ktasks k !! x with Some t => kkey t | None => mkKey 0 0 0 end.
Lemma key_at_skel s x : key_at (skel s) x = key_in (tasks s) x.
Proof. unfold key_at, key_in. cbn. rewrite list_lookup_fmap. by destruct (tasks s !! x). Qed.
Lemma ktree_skel w c : ktree w (sched_skel c) = tree_of w c.
Proof. by destruct w. Qed.

(** [x] is a node of the tree [w] of the scheduler [q]. *)
Definition in_tree (k : Skel) (q : nat) (w : tree_name) (x : nat) : Prop := exists c, kscheds k !! q = Some c /\ x ∈ ktree w c.
(** The keys of a tree increase. *)
Definition ordered (k : Skel) (l : list nat) : Prop := StronglySorted (fun x y => key_lt (key_at k x) (key_at k y) = true) l.

Lemma ordered_tasks s l : ordered (skel s) l <-> StronglySorted (fun x y => key_lt (key_in (tasks s) x) (key_in (tasks s) y) = true) l.
Proof. unfold ordered. split; (induction 1 as [|y l Hs IH Hy]; constructor; [done|]); (eapply Forall_impl; [exact Hy|]); intros z; cbn; by rewrite !key_at_skel. Qed.

Record Inv (h : option nat) (k : Skel) : Prop := {
  inv_next : 0 < knext k <= usize_MAX;
  inv_id q c : kscheds k !! q = Some c -> kid c = UNOWNED \/ 0 < kid c < knext k;
  inv_id_inj q1 q2 c1 c2 : kscheds k !! q1 = Some c1 -> kscheds k !! q2 = Some c2 -> kid c1 = kid c2 -> kid c1 <> UNOWNED -> q1 = q2;
  inv_owner x t : ktasks k !! x = Some t -> kowner t = CONFIGURING \/ 0 <= kowner t < knext k;
  inv_ordered q w c : kscheds k !! q = Some c -> ordered k (ktree w c);
  inv_tree q w x c : kscheds k !! q = Some c -> x ∈ ktree w c ->
    exists t, ktasks k !! x = Some t /\ klinked t = true /\ (h <> Some x -> kowner t = kid c /\ kid c <> UNOWNED);
  inv_one q1 w1 q2 w2 x : in_tree k q1 w1 x -> in_tree k q2 w2 x -> q1 = q2 /\ w1 = w2;
  inv_linked x t : ktasks k !! x = Some t -> klinked t = true -> exists q w, in_tree k q w x;
  inv_run q c x : kscheds k !! q = Some c -> krun c = Some x ->
    exists t, ktasks k !! x = Some t /\ (h <> Some x -> klinked t = false) /\ kowner t = kid c /\ kid c <> UNOWNED;
  inv_placed q c x t : h <> Some x -> kscheds k !! q = Some c -> ktasks k !! x = Some t -> kowner t = kid c -> kid c <> UNOWNED ->
    (exists w, x ∈ ktree w c) \/ krun c = Some x;
}.

(** A task that is not current anywhere; a task in no tree; both *)
Definition free (k : Skel) (x : nat) : Prop := forall q c, kscheds k !! q = Some c -> krun c <> Some x.
Definition unlinked (k : Skel) (x : nat) (o : Z) : Prop := exists t, ktasks k !! x = Some t /\ klinked t = false /\ kowner t = o.
Definition loose (k : Skel) (x : nat) (o : Z) : Prop := unlinked k x o /\ free k x.

Definition sched_owner (k : Skel) (q : nat) (o : Z) : Prop := exists c, kscheds k !! q = Some c /\ kid c = o /\ o <> UNOWNED.

Section Skeleton.
Context (k : Skel).

Lemma inv_weaken x : Inv None k -> Inv (Some x) k.
Proof. intros []. split; try done; naive_solver. Qed.
Lemma unlinked_no_tree h x o q w : Inv h k -> unlinked k x o -> in_tree k q w x -> False.
Proof.
  intros HI (t & Ht & Hl & _) (c & Hc & Hx). destruct (inv_tree _ _ HI _ _ _ _ Hc Hx) as (t' & Ht' & Hl' & _). congruence.
Qed.
(** A task owned by no scheduler is loose. *)
Lemma unowned_loose h x t : Inv h k -> h <> Some x -> ktasks k !! x = Some t -> kowner t = UNOWNED \/ kowner t = CONFIGURING -> loose k x (kowner t).
Proof.
  intros HI Hh Ht Ho.
  assert (forall q c, kscheds k !! q = Some c -> kowner t = kid c -> kid c <> UNOWNED -> False) as Hno.
  { intros q c Hc E Hn. destruct (inv_id _ _ HI _ _ Hc) as [|Hid]; [done|].
    pose proof (inv_next _ _ HI). unfold CONFIGURING in Ho. destruct Ho; [congruence|]. lia. }
  split.
  - exists t. split_and!; [done| |done]. destruct (klinked t) eqn:Hl; [|done].
    destruct (inv_linked _ _ HI _ _ Ht Hl) as (q & w & c & Hc & Hx).
    destruct (inv_tree _ _ HI _ _ _ _ Hc Hx) as (t' & Ht' & _ & Hown). simplify_eq. destruct (Hown Hh). by edestruct Hno.
  - intros q c Hc Hr. destruct (inv_run _ _ HI _ _ _ Hc Hr) as (t' & Ht' & _ & E & Hn). simplify_eq. by edestruct Hno.
Qed.
Lemma close_loose x o : Inv (Some x) k -> loose k x o -> o = UNOWNED \/ o = CONFIGURING -> Inv None k.
Proof.
  intros HI [Hl Hr] Ho. assert (forall q w, ~ in_tree k q w x) as Hno by (intros q w Hi; by eapply unlinked_no_tree).
  destruct Hl as (t & Ht & Hk & E).
  pose proof HI as []. split; try done.
  - intros q w y c Hc Hy. destruct (decide (y = x)) as [->|Hne]; [exfalso; eapply Hno; by exists c|].
    destruct (inv_tree0 q w y c Hc Hy) as (t' & ? & ? & ?). naive_solver.
  - intros q c y Hc Hy. destruct (inv_run0 _ _ _ Hc Hy) as (t' & ? & ? & ?). assert (y <> x) by (intros ->; by eapply Hr). naive_solver.
  - intros q c y t' _ Hc Ht' Eo Hn. destruct (decide (y = x)) as [->|Hne]; [|eapply inv_placed0; naive_solver].
    simplify_eq. destruct (inv_id0 _ _ Hc); [done|]. unfold CONFIGURING in Ho. destruct Ho; [congruence|lia].
Qed.
Lemma close_linked x q w o : Inv (Some x) k -> free k x -> in_tree k q w x -> sched_owner k q o ->
  (exists t, ktasks k !! x = Some t /\ kowner t = o) -> Inv None k.
Proof.
  intros HI Hr Hi (c & Hc & Hid & Hn) (t & Ht & Ho). pose proof HI as []. split; try done.
  - intros q' w' y c' Hc' Hy. destruct (decide (y = x)) as [->|Hne].
    + assert (q' = q /\ w' = w) as [-> ->] by (eapply inv_one0; [by exists c'|done]). simplify_eq.
      destruct (inv_tree0 _ _ _ _ Hc Hy) as (t' & ? & ? & _). simplify_eq. eauto.
    + destruct (inv_tree0 q' w' y c' Hc' Hy) as (t' & ? & ? & ?). naive_solver.
  - intros q' c' y Hc' Hy. destruct (inv_run0 _ _ _ Hc' Hy) as (t' & ? & ? & ?). assert (y <> x) by (intros ->; by eapply Hr). naive_solver.
  - intros q' c' y t' _ Hc' Ht' Eo Hn'. destruct (decide (y = x)) as [->|Hne]; [|eapply inv_placed0; naive_solver].
    simplify_eq. assert (q' = q) as -> by (eapply (inv_id_inj0 q' q); eauto; congruence). destruct Hi as (c0 & Hc0 & Hx).
    simplify_eq. left. eauto.
Qed.
(** The current task of a scheduler, out of the trees *)
Lemma close_current x q c : Inv (Some x) k -> kscheds k !! q = Some c -> krun c = Some x -> unlinked k x (kid c) -> Inv None k.
Proof.
  intros HI Hc Hr Hl. assert (forall q w, ~ in_tree k q w x) as Hno by (intros ?? Hi; by eapply unlinked_no_tree).
  destruct Hl as (t & Ht & Hk & E). pose proof HI as []. split; try done.
  - intros q' w' y c' Hc' Hy. destruct (inv_tree0 q' w' y c' Hc' Hy) as (t' & ? & ? & ?).
    assert (y <> x) by (intros ->; eapply Hno; by exists c'). naive_solver.
  - intros q' c' y Hc' Hy. destruct (inv_run0 _ _ _ Hc' Hy) as (t' & ? & ? & ?). exists t'. split_and!; [done| |naive_solver..]. intros _.
    destruct (decide (y = x)) as [->|]; [congruence|naive_solver].
  - intros q' c' y t' _ Hc' Ht' Eo Hn'. destruct (decide (y = x)) as [->|Hne]; [|eapply inv_placed0; naive_solver].
    simplify_eq. assert (q' = q) as -> by (eapply (inv_id_inj0 q' q); eauto; congruence). simplify_eq. auto.
Qed.
End Skeleton.

(** ** The order of keys *)

Lemma key_lt_spec a b : key_lt a b = true <->
  class_rank a < class_rank b \/ (class_rank a = class_rank b /\ (key_order a < key_order b \/
    (key_order a = key_order b /\ key_sequence a < key_sequence b))).
Proof. unfold key_lt. rewrite !orb_true_iff, !andb_true_iff, !orb_true_iff, !andb_true_iff, !Z.ltb_lt, !Z.eqb_eq. tauto. Qed.
Lemma key_lt_trans a b c : key_lt a b = true -> key_lt b c = true -> key_lt a c = true.
Proof. rewrite !key_lt_spec. lia. Qed.
Lemma key_lt_irrefl a : key_lt a a = true -> False.
Proof. rewrite key_lt_spec. lia. Qed.
Lemma key_lt_total a b : key_lt a b = false -> a <> b -> key_lt b a = true.
Proof.
  intros H Hne. destruct (key_lt b a) eqn:H'; [done|]. exfalso. apply Hne.
  assert (~ key_lt a b = true) as Ha by congruence. assert (~ key_lt b a = true) as Hb by congruence.
  rewrite key_lt_spec in Ha, Hb. destruct a, b. cbn in *. f_equal; lia.
Qed.

Lemma elem_of_insert_sorted ts x l y : y ∈ insert_sorted ts x l <-> y = x \/ y ∈ l.
Proof. induction l as [|z l IH]; cbn; [set_solver|]. destruct (key_lt _ _); set_solver. Qed.
Lemma insert_sorted_ordered ts x l (K := fun a b => key_lt (key_in ts a) (key_in ts b) = true) :
  (forall y, y ∈ l -> key_in ts y <> key_in ts x) -> StronglySorted K l -> StronglySorted K (insert_sorted ts x l).
Proof.
  intros Hne. induction 1 as [|y l Hs IH Hy]; cbn; [by repeat constructor|]. destruct (key_lt (key_in ts x) (key_in ts y)) eqn:Hlt.
  - constructor; [by constructor|]. constructor; [done|]. eapply Forall_impl; [exact Hy|]. intros z Hz. by eapply key_lt_trans.
  - constructor; [apply IH; set_solver|]. apply Forall_forall. intros z [->|Hz]%elem_of_insert_sorted.
    + apply key_lt_total; [done|]. intros E. eapply Hne; [left|done].
    + by eapply Forall_forall in Hz.
Qed.
Lemma sorted_filter {A} (K : A -> A -> Prop) (P : A -> Prop) `{forall x, Decision (P x)} l : StronglySorted K l -> StronglySorted K (filter P l).
Proof.
  induction 1 as [|y l Hs IH Hy]; [constructor|]. rewrite filter_cons. destruct (decide (P y)); [|done].
  constructor; [done|]. rewrite Forall_forall in *. intros z [_ Hz]%list_elem_of_filter. auto.
Qed.

(** ** Transitions of the skeleton *)

Section Transitions.
Context (k : Skel).

Lemma in_tree_ktask x t q w y : in_tree (set_ktask x t k) q w y <-> in_tree k q w y.
Proof. done. Qed.
Lemma ordered_ext k' l : (forall y, y ∈ l -> key_at k' y = key_at k y) -> ordered k l -> ordered k' l.
Proof.
  intros Hk. unfold ordered. induction 1 as [|y l Hs IH Hy]; [constructor|]. constructor; [apply IH; set_solver|].
  rewrite Forall_forall in *. intros z Hz. rewrite !Hk by set_solver. auto.
Qed.
Lemma ordered_ktask x t l : x ∉ l -> ordered k l -> ordered (set_ktask x t k) l.
Proof. intros Hx. apply ordered_ext. intros y Hy. unfold key_at. cbn. rewrite list_lookup_insert_ne; [done|set_solver]. Qed.
Lemma lookup_ksched q c' q' c0 : kscheds (set_ksched q c' k) !! q' = Some c0 ->
  (q' = q /\ c0 = c') \/ (q' <> q /\ kscheds k !! q' = Some c0).
Proof. cbn. intros [(-> & -> & _)|(Hne & H)]%list_lookup_insert_Some; [left|right]; naive_solver. Qed.
Lemma ktree_with w l c w' : ktree w' (with_ktree w l c) = if decide (w' = w) then l else ktree w' c.
Proof. by destruct w, w'. Qed.
(** A loose task may change its owner and its key. *)
Lemma inv_touch x o o' kk : Inv (Some x) k -> loose k x o -> o' = CONFIGURING \/ 0 <= o' < knext k ->
  Inv (Some x) (set_ktask x (mkTS o' false kk) k) /\ loose (set_ktask x (mkTS o' false kk) k) x o'.
Proof.
  intros HI [Hl Hr] Ho. assert (forall q w, ~ in_tree k q w x) as Hno by (intros q w Hi; by eapply unlinked_no_tree).
  destruct Hl as (t & Ht & Hk & E). assert (x < length (ktasks k))%nat as Hlen by (by eapply lookup_lt_Some). split.
  - pose proof HI as []. split; try done.
    + intros y t'. cbn. intros [(-> & <- & _)|(Hne & Hy)]%list_lookup_insert_Some; [done|eauto].
    + intros q w c Hc. apply ordered_ktask; [|by eapply inv_ordered0]. intros Hx. eapply Hno. by exists c.
    + intros q w y c Hc Hy. assert (y <> x) by (intros ->; eapply Hno; by exists c). cbn. rewrite list_lookup_insert_ne by done. eauto.
    + intros y t'. cbn. intros [(-> & <- & _)|(Hne & Hy)]%list_lookup_insert_Some; [done|]. eapply inv_linked0; eauto.
    + intros q c y Hc Hy. assert (y <> x) by (intros ->; by eapply Hr). cbn. rewrite list_lookup_insert_ne by done. eauto.
    + intros q c y t' Hh Hc. cbn. rewrite list_lookup_insert_ne by congruence. eauto.
  - split; [|done]. exists (mkTS o' false kk). cbn. by rewrite list_lookup_insert_eq.
Qed.

(** The key of a task out of the trees may change, current or not. *)
Lemma inv_stage x o kk : Inv (Some x) k -> unlinked k x o ->
  Inv (Some x) (set_ktask x (mkTS o false kk) k) /\ unlinked (set_ktask x (mkTS o false kk) k) x o.
Proof.
  intros HI Hl. assert (forall q w, ~ in_tree k q w x) as Hno by (intros q w Hi; by eapply unlinked_no_tree).
  destruct Hl as (t & Ht & Hk & E). assert (x < length (ktasks k))%nat as Hlen by (by eapply lookup_lt_Some). split.
  - pose proof HI as []. split; try done.
    + intros y t'. cbn. intros [(-> & <- & _)|(Hne & Hy)]%list_lookup_insert_Some; [|eauto]. cbn. rewrite <- E. eauto.
    + intros q w c Hc. apply ordered_ktask; [|by eapply inv_ordered0]. intros Hx. eapply Hno. by exists c.
    + intros q w y c Hc Hy. assert (y <> x) by (intros ->; eapply Hno; by exists c). cbn. rewrite list_lookup_insert_ne by done. eauto.
    + intros y t'. cbn. intros [(-> & <- & _)|(Hne & Hy)]%list_lookup_insert_Some; [done|]. eapply inv_linked0; eauto.
    + intros q c y Hc Hy. destruct (inv_run0 _ _ _ Hc Hy) as (t' & Ht' & ? & ?). cbn. destruct (decide (y = x)) as [->|].
      * rewrite list_lookup_insert_eq by done. simplify_eq. eauto.
      * rewrite list_lookup_insert_ne by done. eauto.
    + intros q c y t' Hh Hc. cbn. rewrite list_lookup_insert_ne by congruence. eauto.
  - exists (mkTS o false kk). cbn. by rewrite list_lookup_insert_eq.
Qed.

(** A task out of the trees enters a tree. *)
Lemma inv_link x o q w c l (k' := set_ksched q (with_ktree w l c) (set_ktask x (mkTS o true (key_at k x)) k)) :
  Inv (Some x) k -> unlinked k x o -> kscheds k !! q = Some c -> (forall y, y ∈ l <-> y = x \/ y ∈ ktree w c) -> ordered k l ->
  Inv (Some x) k' /\ in_tree k' q w x.
Proof.
  intros HI Hl Hc Hmem Hord. assert (forall q w, ~ in_tree k q w x) as Hno by (intros ?? Hi; by eapply unlinked_no_tree).
  destruct Hl as (t & Ht & Hk & E). assert (x < length (ktasks k))%nat as Hlen by (by eapply lookup_lt_Some).
  assert (q < length (kscheds k))%nat as Hq by (by eapply lookup_lt_Some).
  assert (forall y, key_at k' y = key_at k y) as Hkey.
  { intros y. unfold k', key_at. cbn. destruct (decide (y = x)) as [->|]; [by rewrite list_lookup_insert_eq, Ht|by rewrite list_lookup_insert_ne]. }
  assert (forall q' w' y, in_tree k' q' w' y -> (y = x /\ q' = q /\ w' = w) \/ (y <> x /\ in_tree k q' w' y)) as Htree.
  { intros q' w' y (c' & [[-> ->]|[Hne Hc']]%lookup_ksched & Hy).
    - rewrite ktree_with in Hy. destruct (decide (w' = w)) as [->|].
      + apply Hmem in Hy as [->|Hy]; [by left|]. right. split; [intros ->; eapply Hno|]; by exists c.
      + right. split; [intros ->; eapply Hno|]; by exists c.
    - right. split; [intros ->; eapply Hno|]; by exists c'. }
  split; [|exists (with_ktree w l c); cbn; split; [by rewrite list_lookup_insert_eq|rewrite ktree_with, decide_True by done; apply Hmem; auto]].
  assert (forall q' c', kscheds k' !! q' = Some c' -> exists c0, kscheds k !! q' = Some c0 /\ kid c' = kid c0 /\ krun c' = krun c0 /\
    forall w', ktree w' c' = if decide (q' = q /\ w' = w) then l else ktree w' c0) as Hsch.
  { intros q' c' [[-> ->]|[Hne Hc']]%lookup_ksched.
    - exists c. split_and!; [done|by destruct w..|]. intros w'. rewrite ktree_with. repeat case_decide; naive_solver.
    - exists c'. split_and!; [done..|]. intros w'. rewrite decide_False; [done|naive_solver]. }
  pose proof HI as []. split; try done.
  - intros q' c' (c0 & Hc0 & -> & _)%Hsch. eauto.
  - intros q1 q2 c1 c2 (d1 & Hd1 & -> & _)%Hsch (d2 & Hd2 & -> & _)%Hsch. eauto.
  - intros y t'. cbn. intros [(-> & <- & _)|(Hne & Hy)]%list_lookup_insert_Some; [|eauto]. cbn. rewrite <- E. eauto.
  - intros q' w' c' (c0 & Hc0 & _ & _ & Ew)%Hsch. rewrite Ew. destruct (decide (q' = q /\ w' = w)); (apply ordered_ext; [by intros y _|eauto]).
  - intros q' w' y c' Hc' Hy. destruct (Hsch _ _ Hc') as (c0 & Hc0 & Eid & _ & _).
    destruct (Htree q' w' y) as [(-> & -> & ->)|(Hne & c1 & Hc1 & Hy1)]; [by exists c'| |].
    + exists (mkTS o true (key_at k x)). cbn. rewrite list_lookup_insert_eq by done. naive_solver.
    + simplify_eq. destruct (inv_tree0 _ _ _ _ Hc0 Hy1) as (t' & ? & ? & ?). exists t'. cbn. rewrite list_lookup_insert_ne, Eid by done. auto.
  - intros q1 w1 q2 w2 y [(-> & -> & ->)|(Hne & H1)]%Htree [(? & -> & ->)|(? & H2)]%Htree; naive_solver.
  - intros y t'. cbn. intros [(-> & <- & _)|(Hne & Hy)]%list_lookup_insert_Some Hl'.
    + exists q, w. exists (with_ktree w l c). cbn. rewrite list_lookup_insert_eq by done. split; [done|]. rewrite ktree_with, decide_True by done. apply Hmem. auto.
    + destruct (inv_linked0 _ _ Hy Hl') as (q' & w' & c' & Hc' & Hy'). exists q', w'. destruct (decide (q' = q)) as [->|].
      * simplify_eq. exists (with_ktree w l c). cbn. rewrite list_lookup_insert_eq by done. split; [done|]. rewrite ktree_with. case_decide; [subst; apply Hmem; auto|done].
      * exists c'. cbn. by rewrite list_lookup_insert_ne.
  - intros q' c' y (c0 & Hc0 & -> & -> & _)%Hsch Hy. destruct (inv_run0 _ _ _ Hc0 Hy) as (t' & Ht' & ? & ?). cbn. destruct (decide (y = x)) as [->|].
    + rewrite list_lookup_insert_eq by done. simplify_eq. eexists. split_and!; [done|by intros []|naive_solver..].
    + rewrite list_lookup_insert_ne by done. eauto.
  - intros q' c' y t' Hh (c0 & Hc0 & -> & -> & Ew)%Hsch. cbn. rewrite list_lookup_insert_ne by congruence. intros Hy Ho Hn.
    destruct (inv_placed0 _ _ _ _ Hh Hc0 Hy Ho Hn) as [[w' Hw]|]; [|by right]. left. exists w'. rewrite Ew. destruct (decide (q' = q /\ w' = w)) as [Hd|]; [|done].
    destruct Hd as [-> ->]. simplify_eq. apply Hmem. auto.
Qed.

(** A change of one scheduler that keeps its identity and the union of its trees *)
Lemma sched_with q w l c q' c' : kscheds k !! q = Some c -> kscheds (set_ksched q (with_ktree w l c) k) !! q' = Some c' ->
  exists c0, kscheds k !! q' = Some c0 /\ kid c' = kid c0 /\ krun c' = krun c0 /\
    forall w', ktree w' c' = if decide (q' = q /\ w' = w) then l else ktree w' c0.
Proof.
  intros Hc [[-> ->]|[Hne Hc']]%lookup_ksched.
  - exists c. split_and!; [done|by destruct w..|]. intros w'. rewrite ktree_with.
    destruct (decide (w' = w)), (decide (q = q /\ w' = w)); naive_solver.
  - exists c'. split_and!; [done..|]. intros w'. rewrite decide_False; [done|naive_solver].
Qed.

(** A task leaves its tree. *)
Lemma inv_unlink x t q w c (k' := set_ksched q (with_ktree w (filter (fun y => y <> x) (ktree w c)) c) (set_ktask x (mkTS (kowner t) false (kkey t)) k)) :
  Inv None k -> ktasks k !! x = Some t -> kscheds k !! q = Some c -> x ∈ ktree w c ->
  Inv (Some x) k' /\ loose k' x (kowner t).
Proof.
  intros HI Ht Hc Hx. assert (x < length (ktasks k))%nat as Hlen by (by eapply lookup_lt_Some).
  assert (forall y, key_at k' y = key_at k y) as Hkey.
  { intros y. unfold k', key_at. cbn. destruct (decide (y = x)) as [->|]; [by rewrite list_lookup_insert_eq, Ht|by rewrite list_lookup_insert_ne]. }
  assert (forall q' c', kscheds k' !! q' = Some c' -> exists c0, kscheds k !! q' = Some c0 /\ kid c' = kid c0 /\ krun c' = krun c0 /\
    forall w', ktree w' c' = if decide (q' = q /\ w' = w) then filter (fun y => y <> x) (ktree w c) else ktree w' c0) as Hsch
    by (intros q' c'; apply (sched_with q w _ c q' c' Hc)).
  pose proof HI as [].
  assert (forall q' w' y, in_tree k' q' w' y -> y <> x /\ in_tree k q' w' y) as Htree.
  { intros q' w' y (c' & Hc' & Hy). destruct (Hsch _ _ Hc') as (c0 & Hc0 & _ & _ & Ew). rewrite Ew in Hy.
    destruct (decide (q' = q /\ w' = w)) as [[-> ->]|Hno].
    - apply list_elem_of_filter in Hy as [Hne Hy]. split; [done|]. by exists c.
    - split; [|by exists c0]. intros ->. apply Hno. eapply inv_one0; [by exists c0|by exists c]. }
  assert (forall q' c', kscheds k !! q' = Some c' -> krun c' <> Some x) as Hrun.
  { intros q' c' Hc' Hr. destruct (inv_run0 _ _ _ Hc' Hr) as (t' & Ht' & Hl' & _). specialize (Hl' ltac:(done)). destruct (inv_tree0 _ _ _ _ Hc Hx) as (t'' & ? & ? & _). congruence. }
  split; [split; try done|split; [|intros q' c' (c0 & Hc0 & _ & -> & _)%Hsch; eauto]].
  - intros q' c' (c0 & Hc0 & -> & _)%Hsch. eauto.
  - intros q1 q2 c1 c2 (d1 & Hd1 & -> & _)%Hsch (d2 & Hd2 & -> & _)%Hsch. eauto.
  - intros y t'. cbn. intros [(-> & <- & _)|(Hne & Hy)]%list_lookup_insert_Some; cbn; eauto.
  - intros q' w' c' (c0 & Hc0 & _ & _ & Ew)%Hsch. rewrite Ew. apply ordered_ext; [by intros y _|].
    destruct (decide (q' = q /\ w' = w)); [apply sorted_filter|]; eauto. by eapply inv_ordered0.
  - intros q' w' y c' Hc' Hy. destruct (Hsch _ _ Hc') as (c0 & Hc0 & -> & _ & _).
    destruct (Htree q' w' y) as (Hne & c1 & Hc1 & Hy1); [by exists c'|]. simplify_eq.
    destruct (inv_tree0 _ _ _ _ Hc0 Hy1) as (t' & ? & ? & Ho). exists t'. cbn. rewrite list_lookup_insert_ne by done. naive_solver.
  - intros q1 w1 q2 w2 y [_ H1]%Htree [_ H2]%Htree. eauto.
  - intros y t'. cbn. intros [(-> & <- & _)|(Hne & Hy)]%list_lookup_insert_Some Hl'; [done|].
    destruct (inv_linked0 _ _ Hy Hl') as (q' & w' & c' & Hc' & Hy'). exists q', w'. destruct (decide (q' = q)) as [->|].
    + simplify_eq. eexists. cbn. rewrite list_lookup_insert_eq by (by eapply lookup_lt_Some). split; [done|]. rewrite ktree_with.
      destruct (decide (w' = w)) as [->|]; [|done]. by apply list_elem_of_filter.
    + exists c'. cbn. by rewrite list_lookup_insert_ne.
  - intros q' c' y (c0 & Hc0 & -> & -> & _)%Hsch Hy. assert (y <> x) by (intros ->; by eapply Hrun). cbn. rewrite list_lookup_insert_ne by done.
    destruct (inv_run0 _ _ _ Hc0 Hy) as (t' & ? & ? & ?). naive_solver.
  - intros q' c' y t' Hne (c0 & Hc0 & -> & -> & Ew)%Hsch. cbn. rewrite list_lookup_insert_ne by congruence. intros Hy Ho Hn.
    destruct (inv_placed0 _ _ _ _ ltac:(done) Hc0 Hy Ho Hn) as [[w' Hw]|]; [|by right].
    left. exists w'. rewrite Ew. destruct (decide (q' = q /\ w' = w)) as [[-> ->]|]; [|done]. simplify_eq. apply list_elem_of_filter. naive_solver.
  - eexists. cbn. by rewrite list_lookup_insert_eq.
Qed.

(** A held task becomes current, and the current task is held. *)
Lemma inv_start x q c : Inv (Some x) k -> loose k x (kid c) -> kscheds k !! q = Some c -> kid c <> UNOWNED -> krun c = None ->
  Inv None (set_ksched q (mkSS (kready c) (kthrottled c) (Some x) (kid c)) k).
Proof.
  intros HI Hl Hc Hn Hr. set (k' := set_ksched _ _ _). assert (q < length (kscheds k))%nat as Hq by (by eapply lookup_lt_Some).
  assert (forall q' w y, in_tree k' q' w y -> in_tree k q' w y) as Htree.
  { intros q' w y (c' & [[-> ->]|[Hne Hc']]%lookup_ksched & Hy); [exists c; by destruct w|by exists c']. }
  destruct Hl as [(t & Ht & Hk & E) Hf]. pose proof HI as []. split; try done.
  - intros q' c' [[-> ->]|[Hne Hc']]%lookup_ksched; [apply (inv_id0 _ _ Hc)|eauto].
  - intros q1 q2 c1 c2 [[-> ->]|[Hne Hc']]%lookup_ksched [[-> ->]|[Hne2 Hc2]]%lookup_ksched; cbn; try done; eauto.
  - intros q' w c' [[-> ->]|[Hne Hc']]%lookup_ksched; [destruct w; [apply (inv_ordered0 q ReadyTree c Hc)|apply (inv_ordered0 q ThrottledTree c Hc)]|eauto].
  - intros q' w y c' Hc' Hy. assert (in_tree k' q' w y) as (c0 & Hc0 & Hy0)%Htree by (by exists c').
    destruct (inv_tree0 _ _ _ _ Hc0 Hy0) as (t' & ? & ? & ?). exists t'. split_and!; [done..|]. intros _.
    assert (y <> x) by congruence. apply lookup_ksched in Hc' as [[-> ->]|[Hne Hc']]; cbn; naive_solver.
  - intros q1 w1 q2 w2 y H1%Htree H2%Htree. eauto.
  - intros y t' Hy Hl'. destruct (inv_linked0 _ _ Hy Hl') as (q' & w' & c' & Hc' & Hy'). exists q', w'. unfold in_tree, k'. cbn.
    destruct (decide (q' = q)) as [->|]; [rewrite list_lookup_insert_eq by done; simplify_eq; eexists; split; [done|by destruct w']|rewrite list_lookup_insert_ne by done; eauto].
  - intros q' c' y [[-> ->]|[Hne Hc']]%lookup_ksched Hy; cbn in *; simplify_eq; [eauto|].
    assert (y <> x) by (intros ->; by eapply Hf). destruct (inv_run0 _ _ _ Hc' Hy) as (t' & ? & ? & ?). naive_solver.
  - intros q' c' y t' _ [[-> ->]|[Hne Hc']]%lookup_ksched Hy Ho Hn'; cbn in *.
    + destruct (decide (y = x)) as [->|]; [by right|]. destruct (inv_placed0 q c y t') as [[w Hw]|]; try done; [congruence|left; exists w; by destruct w|congruence].
    + destruct (decide (y = x)) as [->|]; [|eapply inv_placed0; eauto; congruence].
      exfalso. apply Hne. eapply (inv_id_inj0 q' q); eauto. congruence.
Qed.
Lemma inv_stop h x q c (k' := set_ksched q (mkSS (kready c) (kthrottled c) None (kid c)) k) :
  Inv h k -> h = None \/ h = Some x -> kscheds k !! q = Some c -> krun c = Some x ->
  Inv (Some x) k' /\ free k' x /\ kid c <> UNOWNED /\ exists t, ktasks k' !! x = Some t /\ kowner t = kid c /\ (h = None -> klinked t = false).
Proof.
  intros HI Hh Hc Hr. assert (forall y, Some x <> Some y -> h <> Some y) as Hh' by (intros y Hy; destruct Hh; congruence). assert (q < length (kscheds k))%nat as Hq by (by eapply lookup_lt_Some).
  assert (forall q' w y, in_tree k' q' w y -> in_tree k q' w y) as Htree.
  { intros q' w y (c' & [[-> ->]|[Hne Hc']]%lookup_ksched & Hy); [exists c; by destruct w|by exists c']. }
  pose proof HI as []. destruct (inv_run0 _ _ _ Hc Hr) as (t & Ht & Hk & Ho & Hn). split; [split; try done|split_and!; [|done|exists t; split_and!; [done..|]; intros ->; by apply Hk]].
  - intros q' c' [[-> ->]|[Hne Hc']]%lookup_ksched; [apply (inv_id0 _ _ Hc)|eauto].
  - intros q1 q2 c1 c2 [[-> ->]|[Hne Hc']]%lookup_ksched [[-> ->]|[Hne2 Hc2]]%lookup_ksched; cbn; try done; eauto.
  - intros q' w c' [[-> ->]|[Hne Hc']]%lookup_ksched; [destruct w; [apply (inv_ordered0 q ReadyTree c Hc)|apply (inv_ordered0 q ThrottledTree c Hc)]|eauto].
  - intros q' w y c' Hc' Hy. assert (in_tree k' q' w y) as (c0 & Hc0 & Hy0)%Htree by (by exists c').
    destruct (inv_tree0 _ _ _ _ Hc0 Hy0) as (t' & ? & ? & Ho'). exists t'. split_and!; [done..|]. intros Hy'%Hh'.
    apply lookup_ksched in Hc' as [[-> ->]|[Hne Hc']]; simplify_eq; cbn; auto.
  - intros q1 w1 q2 w2 y H1%Htree H2%Htree. eauto.
  - intros y t' Hy Hl'. destruct (inv_linked0 _ _ Hy Hl') as (q' & w' & c' & Hc' & Hy'). exists q', w'. unfold in_tree, k'. cbn.
    destruct (decide (q' = q)) as [->|]; [rewrite list_lookup_insert_eq by done; simplify_eq; eexists; split; [done|by destruct w']|rewrite list_lookup_insert_ne by done; eauto].
  - intros q' c' y [[-> ->]|[Hne Hc']]%lookup_ksched Hy; cbn in *; simplify_eq.
    destruct (inv_run0 _ _ _ Hc' Hy) as (t' & ? & Hk' & ? & ?). exists t'. split_and!; auto.
  - intros q' c' y t' Hxy [[-> ->]|[Hne Hc']]%lookup_ksched Hy Ho' Hn'; cbn in *; [|eapply inv_placed0; eauto].
    destruct (inv_placed0 q c y t') as [[w Hw]|]; try done; [by apply Hh'|left; exists w; by destruct w|congruence].
  - intros q' c' [[-> ->]|[Hne Hc']]%lookup_ksched Hr'; [done|].
    destruct (inv_run0 _ _ _ Hc' Hr') as (t' & Ht' & _ & Ho' & _). simplify_eq. apply Hne. eapply (inv_id_inj0 q' q); eauto; congruence.
Qed.

(** A scheduler without identity receives the next one. *)
Lemma inv_new_id h q c : Inv h k -> kscheds k !! q = Some c -> kid c = UNOWNED -> knext k < usize_MAX ->
  Inv h (mkSkel (ktasks k) (<[q := mkSS (kready c) (kthrottled c) (krun c) (knext k)]> (kscheds k)) (knext k + 1)).
Proof.
  intros HI Hc Hid Hn. set (k' := mkSkel _ _ _). set (d := mkSS _ _ _ _) in *.
  assert (forall q' c', kscheds k' !! q' = Some c' -> (q' = q /\ c' = d) \/ (q' <> q /\ kscheds k !! q' = Some c')) as Hsch.
  { intros q' c'. apply (lookup_ksched q d). }
  pose proof HI as [].
  assert (forall w y, y ∈ ktree w c -> h = Some y) as Hheld.
  { intros w y Hy. destruct (inv_tree0 _ _ _ _ Hc Hy) as (t & _ & _ & Ho). destruct (decide (h = Some y)); [done|]. by destruct (Ho n). }
  assert (krun c = None) as Hr. { destruct (krun c) eqn:Er; [|done]. by destruct (inv_run0 _ _ _ Hc Er) as (_ & _ & _ & _ & ?). }
  assert (forall q' w y, in_tree k' q' w y <-> in_tree k q' w y) as Htree.
  { intros q' w y. unfold in_tree. destruct (decide (q' = q)) as [->|Hne].
    - unfold k'. cbn. rewrite list_lookup_insert_eq by (by eapply lookup_lt_Some). unfold d. split; intros (c' & E & Hy); simplify_eq; eexists; split; try done; by destruct w.
    - unfold k'. cbn. by rewrite list_lookup_insert_ne. }
  split.
  - cbn. lia.
  - intros q' c' [[-> ->]|[Hne Hc']]%Hsch; cbn; [right; lia|]. destruct (inv_id0 _ _ Hc'); [by left|right; lia].
  - intros q1 q2 c1 c2 [[-> ->]|[Hne Hc']]%Hsch [[-> ->]|[Hne2 Hc2]]%Hsch; cbn; try done; eauto; intros E Hu;
      [destruct (inv_id0 _ _ Hc2)|destruct (inv_id0 _ _ Hc')]; try congruence; lia.
  - intros x t Ht. cbn. destruct (inv_owner0 _ _ Ht); [by left|right; lia].
  - intros q' w c' [[-> ->]|[Hne Hc']]%Hsch; [destruct w; [apply (inv_ordered0 q ReadyTree c Hc)|apply (inv_ordered0 q ThrottledTree c Hc)]|eauto].
  - intros q' w y c' Hc' Hy. assert (in_tree k q' w y) as (c0 & Hc0 & Hy0) by (apply Htree; by exists c').
    destruct (inv_tree0 _ _ _ _ Hc0 Hy0) as (t & ? & ? & Ho). exists t. split_and!; [done..|]. intros Hh.
    apply Hsch in Hc' as [[-> ->]|[Hne Hc']]; [|naive_solver]. simplify_eq. by destruct Hh; eapply Hheld.
  - intros q1 w1 q2 w2 y H1%Htree H2%Htree. eauto.
  - intros y t Hy Hl. destruct (inv_linked0 _ _ Hy Hl) as (q' & w' & Hi). exists q', w'. by apply Htree.
  - intros q' c' y [[-> ->]|[Hne Hc']]%Hsch Hy; [cbn in Hy; congruence|eauto].
  - intros q' c' y t Hh [[-> ->]|[Hne Hc']]%Hsch Ht Ho Hu; [|eauto]. cbn in Ho. destruct (inv_owner0 _ _ Ht); [|lia]. unfold CONFIGURING in *. lia.
Qed.

(** New objects *)
Lemma inv_new_task h : h = None -> Inv h k -> Inv h (mkSkel (ktasks k ++ [mkTS UNOWNED false (mkKey 1 0 0)]) (kscheds k) (knext k)).
Proof.
  intros -> HI. set (k' := mkSkel _ _ _).
  assert (forall x t, ktasks k !! x = Some t -> ktasks k' !! x = Some t) as Hold by (intros; by apply lookup_app_l_Some).
  assert (forall x t, ktasks k' !! x = Some t -> ktasks k !! x = Some t \/ t = mkTS UNOWNED false (mkKey 1 0 0)) as Hnew.
  { intros x t [H|[_ H]]%lookup_app_Some; [by left|right]. by apply list_lookup_singleton_Some in H as [_ <-]. }
  pose proof HI as []. split; try done.
  - intros x t [H| ->]%Hnew; [eauto|]. right. cbn. unfold UNOWNED. lia.
  - intros q w c Hc. eapply ordered_ext; [|eauto]. intros y Hy. destruct (inv_tree0 _ _ _ _ Hc Hy) as (t & Ht & _). unfold key_at. by rewrite Ht, (Hold _ _ Ht).
  - intros q w x c Hc Hx. destruct (inv_tree0 _ _ _ _ Hc Hx) as (t & Ht & ?). eauto.
  - intros x t [H| ->]%Hnew Hl; [|done]. eapply inv_linked0; eauto.
  - intros q c x Hc Hx. destruct (inv_run0 _ _ _ Hc Hx) as (t & Ht & ?). eauto.
  - intros q c x t Hh Hc [H| ->]%Hnew Ho Hu; [eapply inv_placed0; eauto|]. cbn in Ho. congruence.
Qed.
Lemma inv_new_sched : Inv None k -> Inv None (mkSkel (ktasks k) (kscheds k ++ [mkSS [] [] None UNOWNED]) (knext k)).
Proof.
  intros HI. set (k' := mkSkel _ _ _).
  assert (forall q c, kscheds k !! q = Some c -> kscheds k' !! q = Some c) as Hold by (intros; by apply lookup_app_l_Some).
  assert (forall q c, kscheds k' !! q = Some c -> kscheds k !! q = Some c \/ c = mkSS [] [] None UNOWNED) as Hnew.
  { intros x t [H|[_ H]]%lookup_app_Some; [by left|right]. by apply list_lookup_singleton_Some in H as [_ <-]. }
  assert (forall q w y, in_tree k' q w y -> in_tree k q w y) as Htree.
  { intros q w y (c & [Hc| ->]%Hnew & Hy); [by exists c|]. destruct w; by apply not_elem_of_nil in Hy. }
  pose proof HI as []. split; try done.
  - intros q c [H| ->]%Hnew; [eauto|by left].
  - intros q1 q2 c1 c2 [H1| ->]%Hnew [H2| ->]%Hnew; cbn; try done; eauto.
  - intros q w c [H| ->]%Hnew; [by eapply inv_ordered0|]. destruct w; constructor.
  - intros q w x c [H| ->]%Hnew Hx; [eauto|]. destruct w; by apply not_elem_of_nil in Hx.
  - intros q1 w1 q2 w2 y H1%Htree H2%Htree. eauto.
  - intros x t Ht Hl. destruct (inv_linked0 _ _ Ht Hl) as (q & w & c & Hc & Hx). exists q, w, c. auto.
  - intros q c x [H| ->]%Hnew Hx; [eauto|done].
  - intros q c x t Hh [H| ->]%Hnew Ht Ho Hu; [eauto|done].
Qed.
End Transitions.

(** ** Methods *)

(** What holds of the skeleton when a method returns ([Q]) or fails ([R]). *)
Definition post {E A} (m : M Eevdf E A) (s : Eevdf) (Q : A -> Skel -> Prop) (R : Skel -> Prop) : Prop :=
  match m s with Done a s' => Q a (skel s') | Fail _ s' => R (skel s') | Panic | Diverged => True end.

Definition same_skel (s s' : Eevdf) : Prop := skel s' = skel s.
#[export] Instance same_skel_preorder : PreOrder same_skel.
Proof. split; unfold same_skel; repeat intro; congruence. Qed.

Section Post.
Context {E : Type}.

Lemma post_bind {A B} (m : M Eevdf E A) (f : A -> M Eevdf E B) s P Q R : post m s P R ->
  (forall a s', P a (skel s') -> post (f a) s' Q R) -> post (m ≫= f) s Q R.
Proof. unfold post, mbind, M_bind. intros Hm Hf. destruct (m s); auto. by apply Hf. Qed.
Lemma post_mono {A} (m : M Eevdf E A) s (P Q : A -> Skel -> Prop) (P' R : Skel -> Prop) : post m s P P' ->
  (forall a k, P a k -> Q a k) -> (forall k, P' k -> R k) -> post m s Q R.
Proof. unfold post. destruct (m s); auto. Qed.
Lemma post_neutral {A} (m : M Eevdf E A) s : steps same_skel m -> post m s (fun _ k => k = skel s) (fun k => k = skel s).
Proof. intros Hm. unfold post. specialize (Hm s). by destruct (m s). Qed.
Lemma post_neutral_bind {A B} (m : M Eevdf E A) (f : A -> M Eevdf E B) s (Q : B -> Skel -> Prop) (R : Skel -> Prop) :
  steps same_skel m -> R (skel s) -> (forall a s', skel s' = skel s -> post (f a) s' Q R) -> post (m ≫= f) s Q R.
Proof.
  intros Hm HR Hf. apply (post_bind m f s (fun _ k => k = skel s)); [|exact Hf]. eapply post_mono; [by apply post_neutral|done|]. by intros k ->.
Qed.
Lemma post_task {A} x (f : EEVDFTask -> M Eevdf E A) s Q R :
  (forall t, ktasks (skel s) !! x = Some (task_skel t) -> post (f t) s Q R) -> post (task_at x ≫= f) s Q R.
Proof. intros Hf. unfold post, task_at, gets, mbind, M_bind, expect. destruct (tasks s !! x) eqn:Ht; [|done]. cbn. by apply Hf, skel_task. Qed.
Lemma post_sched {A} q (f : EEVDFScheduler -> M Eevdf E A) s Q R :
  (forall c, kscheds (skel s) !! q = Some (sched_skel c) -> post (f c) s Q R) -> post (sched_at q ≫= f) s Q R.
Proof. intros Hf. unfold post, sched_at, gets, mbind, M_bind, expect. destruct (schedulers s !! q) eqn:Ht; [|done]. cbn. by apply Hf, skel_sched. Qed.
Lemma post_update_task x f s (Q : () -> Skel -> Prop) R :
  (forall t, ktasks (skel s) !! x = Some (task_skel t) -> Q tt (set_ktask x (task_skel (f t)) (skel s))) -> post (update_task (E := E) x f) s Q R.
Proof.
  intros H. unfold post, update_task, task_at, gets, mbind, M_bind, expect. destruct (tasks s !! x) eqn:Ht; [|done]. cbn -[skel].
  rewrite skel_set_task. by apply H, skel_task.
Qed.
Lemma post_update_sched q f s (Q : () -> Skel -> Prop) R :
  (forall c, kscheds (skel s) !! q = Some (sched_skel c) -> Q tt (set_ksched q (sched_skel (f c)) (skel s))) -> post (update_sched (E := E) q f) s Q R.
Proof.
  intros H. unfold post, update_sched, sched_at, gets, mbind, M_bind, expect. destruct (schedulers s !! q) eqn:Ht; [|done]. cbn -[skel].
  rewrite skel_set_sched. by apply H, skel_sched.
Qed.
Lemma post_throw {A} (e : E) s (Q : A -> Skel -> Prop) R : R (skel s) -> post (throw e) s Q R.
Proof. done. Qed.
Lemma post_ret {A} (a : A) s (Q : A -> Skel -> Prop) R : Q a (skel s) -> post (E := E) (mret a) s Q R.
Proof. done. Qed.
Lemma post_with_err {F A} (g : F -> E) (m : M Eevdf F A) s Q R : post m s Q R -> post (with_err g m) s Q R.
Proof. unfold post, with_err. by destruct (m s). Qed.
Lemma post_on_error {A} (m : M Eevdf E A) (c : Op ()) s Q P R : post m s Q P ->
  (forall s', P (skel s') -> post c s' (fun _ => R) R) -> post (on_error m c) s Q R.
Proof. unfold post, on_error. intros Hm Hc. destruct (m s) as [|e s1| |]; auto. specialize (Hc s1 Hm). by destruct (c s1). Qed.
End Post.
Lemma post_must_op {A} (m : Op A) s Q P R : post m s Q P -> post (must_op m) s Q R.
Proof. unfold post, must_op. by destruct (m s). Qed.
Lemma post_rescue {A} (m : Op A) (h : SchedulerError -> Op A) s Q P R : post m s Q P ->
  (forall e s', P (skel s') -> post (h e) s' Q R) -> post (rescue m h) s Q R.
Proof. unfold post, rescue. intros Hm Hc. destruct (m s) as [|e s1| |]; auto. by apply Hc. Qed.

(** *** Steps that do not touch the skeleton *)

Lemma neutral_task {E} x f : (forall t, task_skel (f t) = task_skel t) -> steps same_skel (update_task (E := E) x f).
Proof.
  intros Hf. apply steps_update_task. intros s t Ht. unfold same_skel. rewrite skel_set_task, Hf. unfold set_ktask.
  rewrite list_insert_id by (by apply skel_task). by destruct (skel s).
Qed.
Lemma neutral_sched {E} q f : (forall c, sched_skel (f c) = sched_skel c) -> steps same_skel (update_sched (E := E) q f).
Proof.
  intros Hf. apply steps_update_sched. intros s t Ht. unfold same_skel. rewrite skel_set_sched, Hf. unfold set_ksched.
  rewrite list_insert_id by (by apply skel_sched). by destruct (skel s).
Qed.

Ltac neutral_steps :=
  repeat (cbv beta zeta;
    match goal with
    | |- steps _ (_ ≫= _) => apply steps_bind; [apply _| |intros ?]
    | |- steps _ (update_task _ _) => apply neutral_task; intros ?; reflexivity
    | |- steps _ (update_owned _ _) => apply neutral_task; intros ?; reflexivity
    | |- steps _ (update_sched _ (fun c => if ?b then _ else _)) => destruct b
    | |- steps _ (update_sched _ _) => apply neutral_sched; intros ?; reflexivity
    | |- steps _ (modify _) => apply steps_modify; intros ?; reflexivity
    | |- steps _ (on_error _ _) => apply steps_on_error; [apply _| |]
    | |- steps _ (rescue _ _) => apply steps_rescue; [apply _| |intros ?]
    | |- steps _ (with_err _ _) => apply steps_with_err
    | |- steps _ (must_op _) => apply steps_must_op
    | |- steps _ (match ?x with _ => _ end) => destruct x
    | |- steps _ _ => solve [eauto 2 with steps typeclass_instances]
    | |- steps _ _ => steps_unfold
    end).

Lemma neutral_admit_server q x : steps same_skel (admit_server q x).
Proof. neutral_steps. Qed.
Lemma neutral_new_fair_key p q x t sd : steps same_skel (new_fair_key p q x t sd).
Proof. neutral_steps. Qed.
Lemma neutral_fair_service p q x a b : steps same_skel (fair_service_transaction p q x a b).
Proof. neutral_steps. Qed.
Lemma neutral_rr_service q x a b : steps same_skel (rr_service_transaction q x a b).
Proof. neutral_steps. Qed.
