(* ===== verification/EevdfOwnership.v ===== *)
(** Ownership in the EEVDF scheduler: every call keeps the invariant of
    [EevdfStructure]. The methods that move a task are verified one by one,
    from the moment they hold it to the moment it is back in a queue; the rest
    follows by the rules for the control structure. *)

From stdpp Require Import relations sorting.
From S2P Require Import Prelude Effects Atomics EevdfTree EevdfMath EevdfModel Sched EevdfTask EevdfSched EevdfLifecycle EevdfSchedSpec EevdfStructure.
Local Open Scope Z_scope.

Abbreviation good := (Inv None).
(** The scheduler [q] has the identity [i]; a method holds the task [x], whose
    owner word is [o], outside of the trees. *)
Definition held (x : nat) (o : Z) (q : nat) (i : Z) (k : Skel) : Prop := Inv (Some x) k /\ loose k x o /\ sched_owner k q i.
(** The same, with the task in a tree of [q] *)
Definition linked_in (x : nat) (o : Z) (q : nat) (w : tree_name) (i : Z) (k : Skel) : Prop :=
  Inv (Some x) k /\ in_tree k q w x /\ (exists t, ktasks k !! x = Some t /\ kowner t = o) /\ sched_owner k q i.
Definition placed_in (x : nat) (o : Z) (q : nat) (w : tree_name) (i : Z) (k : Skel) : Prop := linked_in x o q w i k /\ free k x.
(** [x] is the current task of [q]. *)
Definition runs (q x : nat) (k : Skel) : Prop := exists c, kscheds k !! q = Some c /\ krun c = Some x.
(** The schedulers of both states have the same current tasks. *)
Definition same_runs (k k' : Skel) : Prop := forall q, krun <$> kscheds k' !! q = krun <$> kscheds k !! q.
Lemma same_runs_free k k' x : same_runs k k' -> free k x -> free k' x.
Proof. intros H Hf q c Hc Hr. specialize (H q). rewrite Hc in H. cbn in H. destruct (kscheds k !! q) as [c'|] eqn:Hc'; [|done]. cbn in H. apply (Hf q c' Hc'). congruence. Qed.
Lemma same_runs_runs k k' q x : same_runs k k' -> runs q x k -> runs q x k'.
Proof. intros H (c & Hc & Hr). specialize (H q). rewrite Hc in H. cbn in H. destruct (kscheds k' !! q) as [c'|] eqn:Hc'; [|done]. exists c'. split; [done|]. cbn in H. congruence. Qed.

Lemma sched_owner_range h k q i : Inv h k -> sched_owner k q i -> i = CONFIGURING \/ 0 <= i < knext k.
Proof. intros HI (c & Hc & <- & Hn). destruct (inv_id _ _ HI _ _ Hc); [done|lia]. Qed.
Lemma placed_good x q w i k : placed_in x i q w i k -> good k.
Proof. intros [(HI & Hi & Ho & Hs) Hf]. by eapply close_linked. Qed.
Lemma held_good x o q i k : held x o q i k -> o = UNOWNED \/ o = CONFIGURING -> good k.
Proof. intros (HI & Hl & _) Ho. by eapply close_loose. Qed.

(** *** Owner words *)

Lemma held_touch x o q i k o' kk : held x o q i k -> o' = CONFIGURING \/ 0 <= o' < knext k -> held x o' q i (set_ktask x (mkTS o' false kk) k).
Proof. intros (HI & Hl & Hs) Ho. destruct (inv_touch k x o o' kk HI Hl Ho). split_and!; done. Qed.
Lemma held_task x o q i k t : held x o q i k -> ktasks k !! x = Some t -> klinked t = false /\ kowner t = o.
Proof. intros Hh Hk. destruct Hh as (_ & [(t' & Ht & Hl & Ho) _] & _). by simplify_eq. Qed.
Lemma placed_reown x o q w i k o' t : placed_in x o q w i k -> ktasks k !! x = Some t -> o' = CONFIGURING \/ 0 <= o' < knext k ->
  placed_in x o' q w i (set_ktask x (mkTS o' (klinked t) (kkey t)) k).
Proof.
  intros [(HI & Hi & _ & Hs) Hf] Ht Ho. assert (x < length (ktasks k))%nat as Hlen by (by eapply lookup_lt_Some).
  split; [|done]. split_and!; [|done|eexists; cbn; by rewrite list_lookup_insert_eq|done].
  set (k' := set_ktask _ _ _). assert (forall y, key_at k' y = key_at k y) as Hkey.
  { intros y. unfold k', key_at. cbn. destruct (decide (y = x)) as [->|]; [by rewrite list_lookup_insert_eq, Ht|by rewrite list_lookup_insert_ne]. }
  pose proof HI as []. split; try done.
  - intros y t'. cbn. intros [(-> & <- & _)|(Hne & Hy)]%list_lookup_insert_Some; cbn; eauto.
  - intros q' w' c Hc. eapply ordered_ext; [by intros; apply Hkey|by eapply inv_ordered].
  - intros q' w' y c Hc Hy. destruct (inv_tree _ _ _ _ Hc Hy) as (t' & Ht' & Hl' & Ho'). cbn. destruct (decide (y = x)) as [->|].
    + rewrite list_lookup_insert_eq by done. simplify_eq. eexists. split_and!; [done|done|]. by intros [].
    + rewrite list_lookup_insert_ne by done. eauto.
  - intros y t'. cbn. intros [(-> & <- & _)|(Hne & Hy)]%list_lookup_insert_Some; cbn; eauto.
  - intros q' c y Hc Hy. destruct (inv_run _ _ _ Hc Hy) as (t' & Ht' & Hl' & Ho'). cbn. rewrite list_lookup_insert_ne; [eauto|].
    intros ->. by eapply Hf.
  - intros q' c y t' Hh Hc. cbn. rewrite list_lookup_insert_ne by congruence. eauto.
Qed.

Lemma must_transfer_held x o q i s from to : held x o q i (skel s) -> to = CONFIGURING \/ 0 <= to < knext (skel s) ->
  post (E := SchedulerError) (must_transfer x from to) s (fun _ => held x to q i) (fun _ => False).
Proof.
  intros Hh Hto. apply post_task. intros t Ht. destruct (queue_owner t =? from); [|done]. apply post_update_task. intros t' Ht'.
  destruct (held_task _ _ _ _ _ _ Hh Ht') as [Hl _]. cbn in Hl. unfold task_skel. cbn. rewrite Hl. by eapply held_touch.
Qed.
Lemma must_transfer_placed x o q w i s from to : placed_in x o q w i (skel s) -> to = CONFIGURING \/ 0 <= to < knext (skel s) ->
  post (E := SchedulerError) (must_transfer x from to) s (fun _ => placed_in x to q w i) (fun _ => False).
Proof.
  intros Hh Hto. apply post_task. intros t Ht. destruct (queue_owner t =? from); [|done]. apply post_update_task. intros t' Ht'.
  by apply (placed_reown _ _ _ _ _ _ _ _ Hh Ht').
Qed.

(** *** Trees *)

Lemma tree_insert_unlinked x o q w i s : Inv (Some x) (skel s) -> unlinked (skel s) x o -> sched_owner (skel s) q i ->
  post (tree_insert q w x) s (fun _ k => linked_in x o q w i k /\ same_runs (skel s) k) (fun k => k = skel s).
Proof.
  intros HI Hl Hs. unfold post, tree_insert, update_task, update_sched, task_at, sched_at, gets, mbind, M_bind, expect.
  destruct (tasks s !! x) as [t|] eqn:Ht; [|done]. cbn -[skel]. destruct (schedulers s !! q) as [c|] eqn:Hc; [|done]. cbn -[skel].
  destruct (linked t); [done|]. destruct (existsb _ _) eqn:Hex; [done|]. rewrite Ht. cbn -[skel]. rewrite Hc. cbn -[skel].
  rewrite skel_set_sched, skel_set_task. pose proof (skel_task _ _ _ Ht) as Hkt. pose proof (skel_sched _ _ _ Hc) as Hkc.
  assert (queue_owner t = o) as Ho by (destruct Hl as (t' & Ht' & _ & Ho'); simplify_eq; done).
  destruct (inv_link (skel s) x o q w (sched_skel c) (insert_sorted (tasks s) x (tree_of w c)) HI Hl Hkc) as [HI' Hin].
  - intros y. by rewrite elem_of_insert_sorted, ktree_skel.
  - assert (ordered (skel s) (tree_of w c)) as Hord by (rewrite <- ktree_skel; by eapply inv_ordered).
    apply ordered_tasks, insert_sorted_ordered; [|by apply ordered_tasks].
    intros y Hy E. apply not_true_iff_false in Hex. apply Hex. apply existsb_exists. exists y. split; [by apply list_elem_of_In|].
    apply bool_decide_eq_true. rewrite E. unfold key_in. by rewrite Ht.
  - assert (set_ksched q (sched_skel (with_tree w (insert_sorted (tasks s) x (tree_of w c)) c)) (set_ktask x (task_skel (with_linked true t)) (skel s))
      = set_ksched q (with_ktree w (insert_sorted (tasks s) x (tree_of w c)) (sched_skel c)) (set_ktask x (mkTS o true (key_at (skel s) x)) (skel s))) as ->.
    { f_equal; [by destruct w|]. f_equal. unfold key_at. rewrite Hkt. unfold task_skel. cbn. by rewrite Ho. }
    split; [split_and!; [done|done| |]|].
    + eexists. cbn. rewrite list_lookup_insert_eq by (rewrite length_fmap; by eapply lookup_lt_Some). done.
    + destruct Hs as (c0 & Hc0 & Hid & Hn). destruct (decide (q = q)) as [_|]; [|done]. simplify_eq. eexists. cbn.
      rewrite list_lookup_insert_eq by (rewrite length_fmap; by eapply lookup_lt_Some). split; [done|]. by destruct w.
    + intros q'. cbn. destruct (decide (q' = q)) as [->|]; [|by rewrite list_lookup_insert_ne].
      rewrite list_lookup_insert_eq by (rewrite length_fmap; by eapply lookup_lt_Some). cbn in Hkc. rewrite Hkc. by destruct w.
Qed.
Lemma tree_insert_held x o q w i s : held x o q i (skel s) ->
  post (tree_insert q w x) s (fun _ => placed_in x o q w i) (fun k => k = skel s).
Proof.
  intros (HI & [Hl Hf] & Hs). eapply post_mono; [by apply (tree_insert_unlinked x o q w i)|..|done].
  intros [] k [Hk Hr]. split; [done|]. by eapply same_runs_free.
Qed.

Lemma tree_remove_good q w x s : good (skel s) ->
  post (tree_remove q w x) s (fun y k => y = x /\ exists i, held x i q i k) (fun k => k = skel s).
Proof.
  intros HI. unfold post, tree_remove, update_task, update_sched, task_at, sched_at, gets, mbind, M_bind, expect.
  destruct (tasks s !! x) as [t|] eqn:Ht; [|done]. cbn -[skel]. destruct (schedulers s !! q) as [c|] eqn:Hc; [|done]. cbn -[skel].
  destruct (linked t && bool_decide (x ∈ tree_of w c)) eqn:Hin; [|done]. rewrite Ht. cbn -[skel]. rewrite Hc. cbn -[skel].
  apply andb_true_iff in Hin as [_ Hin%bool_decide_eq_true]. rewrite skel_set_sched, skel_set_task. rewrite <- ktree_skel in Hin.
  pose proof (skel_task _ _ _ Ht) as Hkt. pose proof (skel_sched _ _ _ Hc) as Hkc.
  destruct (inv_tree _ _ HI _ _ _ _ Hkc Hin) as (t' & Ht' & _ & Ho). simplify_eq. destruct Ho as [Ho Hn]; [done|].
  destruct (inv_unlink (skel s) x _ q w _ HI Hkt Hkc Hin) as [HI' Hl].
  split; [done|]. exists (sched_id c). cbn in Ho. rewrite ktree_skel in HI', Hl.
  replace (sched_skel (with_tree w (filter (fun y => y <> x) (tree_of w c)) c)) with (with_ktree w (filter (fun y => y <> x) (tree_of w c)) (sched_skel c)) by (by destruct w).
  split_and!; [done|by rewrite <- Ho|]. eexists. cbn. rewrite list_lookup_insert_eq by (rewrite length_fmap; by eapply lookup_lt_Some).
  split; [done|]. by destruct w.
Qed.
Lemma stage_key_held x o q i s kk e : held x o q i (skel s) -> post (stage_key x kk e) s (fun _ => held x o q i) (fun _ => False).
Proof.
  intros Hh. apply post_update_task. intros t Ht. destruct (held_task _ _ _ _ _ _ Hh Ht) as [Hl Ho]. cbn in Hl, Ho.
  unfold task_skel. cbn. rewrite Hl, Ho. eapply held_touch; [done|]. rewrite <- Ho. destruct Hh as (HI & _). by apply (inv_owner _ _ HI _ _ Ht).
Qed.
Lemma staged_insert_held x o q w i s kk e ko eo : held x o q i (skel s) ->
  post (stage_key x kk e;; on_error (with_err tree_error (tree_insert q w x)) (stage_key x ko eo)) s (fun _ => placed_in x o q w i) (held x o q i).
Proof.
  intros Hh. eapply post_bind; [eapply post_mono; [by apply stage_key_held|done|done]|]. intros [] s1 H1. eapply post_on_error.
  - apply post_with_err. eapply post_mono; [by apply tree_insert_held|done|]. intros k ->. exact H1.
  - intros s2 H2. eapply post_mono; [by apply stage_key_held|done|done].
Qed.
Lemma insert_staged_held x o q i s kk e ko eo : held x o q i (skel s) ->
  post (insert_staged q x kk e ko eo) s (fun _ => placed_in x o q ReadyTree i) (held x o q i).
Proof. apply staged_insert_held. Qed.

Definition idle (q : nat) (k : Skel) : Prop := exists c, kscheds k !! q = Some c /\ krun c = None.
Lemma claim_good x q i s : good (skel s) -> sched_owner (skel s) q i ->
  post (claim x i) s (fun _ k => held x i q i k /\ (idle q (skel s) -> idle q k)) good.
Proof.
  intros HI Hs. unfold claim. destruct (_ || _); [done|]. apply post_task. intros t Ht.
  destruct (Z.eqb_spec (queue_owner t) UNOWNED) as [Ho|]; [|by repeat case_match]. apply post_update_task. intros t' Ht'.
  pose proof (unowned_loose _ None x _ HI ltac:(done) Ht (or_introl Ho)) as Hl. cbn in Hl. rewrite Ho in Hl.
  split; [|done]. assert (linked t' = false) as Hl' by (destruct Hl as [(t0 & Ht0 & Hl0 & _) _]; by simplify_eq).
  unfold task_skel. cbn. rewrite Hl'.
  apply (held_touch x UNOWNED); [|by eapply sched_owner_range]. split_and!; [by apply inv_weaken|done|done].
Qed.
Lemma ensure_id_good q s h : Inv h (skel s) ->
  post (ensure_id q) s (fun i k => Inv h k /\ sched_owner k q i /\ (idle q (skel s) -> idle q k)) (Inv h).
Proof.
  intros HI. apply post_sched. intros c Hc. destruct (Z.eqb_spec (sched_id c) UNOWNED) as [Hu|Hu].
  - eapply (post_bind _ _ _ (fun _ k => Inv h k /\ (exists c', kscheds k !! q = Some c' /\ kid c' <> UNOWNED) /\ (idle q (skel s) -> idle q k))).
    + unfold post, allocate_scheduler_id, update_sched, sched_at, gets, mbind, M_bind, expect, try_update, modify, lift, map_err, checked_add_usize.
      destruct (Z.leb_spec (next_scheduler_id s + 1) usize_MAX); cbn -[skel]; [|by destruct s].
      destruct (schedulers s !! q) as [c'|] eqn:Hc'; [|done]. cbn -[skel]. pose proof (skel_sched _ _ _ Hc') as Hkc. rewrite Hkc in Hc. injection Hc as _ _ _ Hid'.
      assert (skel (set_sched q (with_id (next_scheduler_id s) c') (set_next_id (next_scheduler_id s + 1) s)) =
        mkSkel (ktasks (skel s)) (<[q := mkSS (kready (sched_skel c')) (kthrottled (sched_skel c')) (krun (sched_skel c')) (knext (skel s))]> (kscheds (skel s))) (knext (skel s) + 1)) as ->
        by (unfold skel; cbn; by rewrite list_fmap_insert).
      assert (q < length (kscheds (skel s)))%nat as Hq by (by eapply lookup_lt_Some).
      split_and!.
      * apply inv_new_id; [done|done|cbn; congruence|cbn; lia].
      * eexists. cbn [kscheds]. rewrite list_lookup_insert_eq by done. split; [done|]. pose proof (inv_next _ _ HI). cbn -[skel]. unfold UNOWNED. lia.
      * intros (c0 & Hc0 & Hr0). eexists. cbn [kscheds]. rewrite list_lookup_insert_eq by done. split; [done|]. cbn. by simplify_eq.
    + intros [] s1 (HI1 & (c' & Hc' & Hn) & Hi1). apply post_sched. intros c1 Hc1. simplify_eq. apply post_ret. split_and!; [done| |done]. by eexists.
  - apply post_sched. intros c1 Hc1. simplify_eq. apply post_ret. split_and!; [done| |done]. eexists. split; [exact Hc|]. split; cbn; congruence.
Qed.
Lemma release_claim_held x q i s : held x i q i (skel s) -> post (release_claim q x) s (fun _ => good) good.
Proof.
  intros Hh. apply post_sched. intros c Hc. eapply post_mono; [apply (must_transfer_held x i q i _ _ UNOWNED Hh)|..].
  - right. destruct Hh as (HI & _). pose proof (inv_next _ _ HI). unfold UNOWNED. lia.
  - intros [] k H. eapply held_good; [done|]. by left.
  - done.
Qed.

(** A tail that cannot fail and does not move a task *)
Lemma post_quiet {E A} (m : M Eevdf E A) s (Q : A -> Skel -> Prop) R : steps same_skel m -> never_fails m -> (forall a, Q a (skel s)) -> post m s Q R.
Proof.
  intros Hm Hf HQ. specialize (Hm s). unfold post. destruct (m s) as [a s'|e s'| |] eqn:H; try done; [by rewrite Hm|by apply Hf in H].
Qed.
Lemma post_quiet_bind {E A B} (m : M Eevdf E A) (f : A -> M Eevdf E B) s (Q : B -> Skel -> Prop) R :
  steps same_skel m -> never_fails m -> (forall a s', skel s' = skel s -> post (f a) s' Q R) -> post (m ≫= f) s Q R.
Proof.
  intros Hm Hf Hk. apply (post_bind m f s (fun _ k => k = skel s)); [|exact Hk]. by apply post_quiet.
Qed.
Lemma never_fails_must_op {A} (m : Op A) : never_fails (must_op m).
Proof. intros s e s'. unfold must_op. by destruct (m s). Qed.
Lemma never_fails_assert {S E} b : never_fails (S := S) (E := E) (assert_ b).
Proof. intros s e s'. by destruct b. Qed.
Lemma never_fails_panic {S E A} : never_fails (S := S) (E := E) (A := A) panic.
Proof. by intros s e s'. Qed.
#[local] Hint Resolve never_fails_must_op never_fails_assert never_fails_panic : effects.
Ltac never_fails_all :=
  repeat (cbv beta zeta;
    match goal with
    | |- never_fails (_ ≫= _) => apply never_fails_bind; [|intros ?]
    | |- never_fails (match ?x with _ => _ end) => destruct x
    | |- never_fails _ => solve [eauto 2 with effects]
    | |- never_fails ?m => let h := head_of m in unfold h
    end).

(** Walks through a method up to the next step that moves a task. *)
Ltac transport E :=
  match type of E with skel ?s' = skel ?s =>
    repeat match goal with H : context [skel s] |- _ => tryif constr_eq H E then fail else rewrite <- E in H end; clear E
  end.
Ltac post_walk :=
  repeat (cbv beta zeta;
    match goal with
    | |- post (task_at _ ≫= _) _ _ _ => apply post_task; intros ? ?
    | |- post (sched_at _ ≫= _) _ _ _ => apply post_sched; intros ? ?
    | |- post (throw _) _ _ _ => apply post_throw
    | |- post (mret _) _ _ _ => apply post_ret
    | |- post (if ?b then _ else _) _ _ _ => destruct b eqn:?
    | |- post (match ?x with _ => _ end) _ _ _ => destruct x eqn:?
    | |- post (_ ≫= _) _ _ _ =>
        first [apply post_neutral_bind; [solve [neutral_steps]|solve [eauto]|] | apply post_quiet_bind; [solve [neutral_steps]|solve [never_fails_all]|]];
        let a := fresh "a" in let s := fresh "s" in let E := fresh "E" in intros a s E; transport E
    end).

Ltac post_end := eapply post_mono; [apply post_neutral; solve [neutral_steps]|intros ? ? ->|intros ? ->]; eauto.
(** A step that fails with the state it found, and a neutral clean-up *)
Lemma post_clean {A} (m : Op A) (c : Op ()) s Q (P : Skel -> Prop) : steps same_skel c -> post m s Q P -> post (on_error m c) s Q P.
Proof.
  intros Hc Hm. eapply post_on_error; [exact Hm|]. intros s' Hs'. eapply post_mono; [by apply post_neutral|by intros ? ? ->|by intros ? ->].
Qed.

Ltac post_tail := apply post_quiet; [solve [neutral_steps]|solve [never_fails_all]|intros ?; eauto].

Definition keeps_good (s s' : Eevdf) : Prop := good (skel s) -> good (skel s').
#[export] Instance keeps_good_preorder : PreOrder keeps_good.
Proof. split; unfold keeps_good; repeat intro; auto. Qed.
Lemma good_steps {E A} (m : M Eevdf E A) : (forall s, good (skel s) -> post m s (fun _ => good) good) -> steps keeps_good m.
Proof. intros H s. specialize (H s). unfold post in H. destruct (m s); done. Qed.
Lemma steps_post {E A} (m : M Eevdf E A) s : steps keeps_good m -> good (skel s) -> post m s (fun _ => good) good.
Proof. intros H HI. specialize (H s). unfold post. destruct (m s); auto. Qed.

(** ** The methods that move a task *)

Section Methods.
Context (profile : EevdfProfile) (q : nat).

(** The end of an admission: the key is staged and the task linked. *)
Lemma enqueue_new_good x : steps keeps_good (enqueue_new profile q x).
Proof.
  apply good_steps. intros s HI. eapply post_bind; [by apply (ensure_id_good q s None)|]. intros i s1 (HI1 & Hs1 & _).
  eapply post_bind; [by apply claim_good|]. intros [] s2 (Hh & _).
  eapply (post_on_error _ _ _ _ (held x i q i)); [|intros; by eapply release_claim_held].
  post_walk; try done. eapply post_bind; [apply post_clean; [neutral_steps|by apply insert_staged_held]|].
  intros [] s5 Hp%placed_good. post_tail.
Qed.

(** A task claimed for configuration is held, whatever its scheduler. *)
Lemma configuring_held k x t i : good k -> ktasks k !! x = Some t -> kowner t = CONFIGURING -> sched_owner k q i -> held x CONFIGURING q i k.
Proof.
  intros HI Ht Ho Hs. split_and!; [by apply inv_weaken| |done]. rewrite <- Ho. by eapply unowned_loose; eauto.
Qed.
Lemma own_id k c i : kscheds k !! q = Some c -> kid c = i -> i <> UNOWNED -> sched_owner k q i.
Proof. intros. by exists c. Qed.
Lemma insert_configuring x i s kk e ko eo (c : Op ()) : steps same_skel c -> held x CONFIGURING q i (skel s) ->
  post (on_error (insert_staged q x kk e ko eo) c) s (fun _ => placed_in x CONFIGURING q ReadyTree i) good.
Proof.
  intros Hc Hh. eapply post_mono; [apply post_clean; [done|by apply insert_staged_held]|done|].
  intros k Hk. eapply held_good; [done|]. by right.
Qed.
(** The owner word is written after the task is linked. *)
Lemma publish_placed {A} x w i s (f : () -> Op A) : placed_in x CONFIGURING q w i (skel s) ->
  (forall s', good (skel s') -> post (f tt) s' (fun _ => good) good) -> post (must_transfer x CONFIGURING i ≫= f) s (fun _ => good) good.
Proof.
  intros Hp Hf. apply (post_bind _ _ _ (fun _ => good)); [|intros [] s'; apply Hf]. eapply post_mono; [apply (must_transfer_placed _ _ _ _ _ _ _ i Hp)|..].
  - destruct Hp as [(HI & _ & _ & Hs) _]. by eapply sched_owner_range.
  - intros [] k H. by eapply placed_good.
  - done.
Qed.

Lemma commit_reserved_good r : steps keeps_good (commit_reserved_task profile q r).
Proof.
  apply good_steps. intros s HI. apply post_with_err. post_walk; try done. apply orb_false_iff in Heqb as [_ Hid%Z.eqb_neq].
  apply orb_false_iff in Heqb0 as [[Ho%negb_false_iff _]%orb_false_iff _]. apply Z.eqb_eq in Ho.
  assert (held (res_task r) CONFIGURING q (sched_id c) (skel s1)) as Hh by (eapply configuring_held; eauto; by eapply own_id).
  eapply post_bind; [apply insert_configuring; [neutral_steps|exact Hh]|]. intros [] s2 Hp. post_walk.
  eapply publish_placed; [exact Hp|]. intros s5 HI5. post_walk; try done.
Qed.

(** *** The current task *)

Lemma start_running x i s f R : held x i q i (skel s) -> idle q (skel s) ->
  (forall c, sched_skel (f c) = mkSS (ready_tree c) (throttled_tree c) (Some x) (sched_id c)) ->
  post (E := SchedulerError) (update_sched q f) s (fun _ k => good k /\ runs q x k) R.
Proof.
  intros (HI & Hl & (c0 & Hc0 & Hid & Hn)) (c1 & Hc1 & Hr) Hf. apply post_update_sched. intros c Hc. simplify_eq. rewrite Hf. split.
  - by apply (inv_start (skel s) x q (sched_skel c)).
  - eexists. cbn. rewrite list_lookup_insert_eq; [done|]. by eapply lookup_lt_Some.
Qed.
Lemma ensure_running_post x s : good (skel s) -> post (ensure_running profile q x) s (fun _ k => good k /\ runs q x k) good.
Proof.
  intros HI. unfold ensure_running. post_walk; try done.
  - apply bool_decide_eq_true in Heqb. unfold validate_running. post_walk; try done.
    apply bool_decide_eq_false in Heqb1. split; [done|]. eexists. split; [exact H0|]. cbn. destruct (decide (running c0 = Some x)); [done|naive_solver].
  - apply bool_decide_eq_false in Heqb. assert (idle q (skel s0)) as Hi by (eexists; split; [exact H|]; cbn; destruct (running c); naive_solver).
    eapply post_bind; [by apply (ensure_id_good q s0 None)|]. intros i s1 (HI1 & Hs1 & Hi1).
    eapply post_bind; [by apply claim_good|]. intros [] s2 (Hh & Hi2). specialize (Hi2 (Hi1 Hi)).
    eapply (post_on_error _ _ _ _ (held x i q i)); [|intros; by eapply release_claim_held].
    unfold adopt. post_walk; try done. by eapply start_running.
Qed.
(** While a task is current, adopting it again changes nothing. *)
Lemma ensure_running_runs x s : good (skel s) -> runs q x (skel s) ->
  post (ensure_running profile q x) s (fun _ k => good k /\ runs q x k) (fun k => good k /\ runs q x k).
Proof.
  intros HI Hr. pose proof Hr as (c0 & Hc0 & Er). unfold ensure_running. apply post_sched. intros c Hc. simplify_eq. cbn in Er. rewrite Er.
  rewrite bool_decide_true by done. eapply post_mono; [apply post_neutral; neutral_steps|by intros ? ? ->|by intros ? ->].
Qed.
Lemma settle_runs x n s : good (skel s) -> runs q x (skel s) ->
  post (settle_runtime_remainder profile q x n) s (fun _ k => good k /\ runs q x k) (fun k => good k /\ runs q x k).
Proof.
  intros HI Hr. eapply post_bind; [by apply ensure_running_runs|]. intros [] s1 [HI1 Hr1].
  eapply post_mono; [apply post_neutral; neutral_steps|by intros ? ? ->|by intros ? ->].
Qed.
Lemma settle_good x n s : good (skel s) -> post (settle_runtime_remainder profile q x n) s (fun _ k => good k /\ runs q x k) good.
Proof.
  intros HI. eapply post_bind; [by apply ensure_running_post|]. intros [] s1 [HI1 Hr1].
  eapply post_mono; [apply post_neutral; neutral_steps|by intros ? ? ->|by intros ? ->].
Qed.
Lemma lifecycle_runs x s : good (skel s) -> runs q x (skel s) ->
  post (settle_before_lifecycle profile q x) s (fun _ k => good k /\ runs q x k) good.
Proof.
  intros HI Hr. unfold settle_before_lifecycle. post_walk; [|done].
  eapply post_bind; [eapply post_mono; [by apply settle_runs|done|by intros k []]|]. intros b s1 H1. by apply post_ret.
Qed.

(** *** Putting the current task back *)

Definition current (x : nat) (i : Z) (k : Skel) : Prop := Inv (Some x) k /\ unlinked k x i /\ runs q x k /\ sched_owner k q i.
Lemma runs_current x k : good k -> runs q x k -> exists i, current x i k.
Proof.
  intros HI Hr. pose proof Hr as (c & Hc & Er). destruct (inv_run _ _ HI _ _ _ Hc Er) as (t & Ht & Hl & Ho & Hn). exists (kid c).
  split_and!; [by apply inv_weaken| |done|by exists c]. exists t. split_and!; [done|by apply Hl|done].
Qed.
Lemma current_good x i k : current x i k -> good k.
Proof.
  intros (HI & Hl & (c & Hc & Er) & (c' & Hc' & Hid & _)). simplify_eq. by eapply close_current.
Qed.
Lemma stage_key_current x i s kk e : current x i (skel s) -> post (stage_key x kk e) s (fun _ => current x i) (fun _ => False).
Proof.
  intros (HI & Hl & Hr & Hs). apply post_update_task. intros t Ht. pose proof Hl as (t' & Ht' & Hk & Ho). simplify_eq. cbn in Hk.
  destruct (inv_stage (skel s) x _ kk HI Hl) as [HI' Hl']. unfold task_skel. cbn. rewrite Hk. by split_and!.
Qed.
Lemma tree_insert_current x i s w : current x i (skel s) ->
  post (tree_insert q w x) s (fun _ k => linked_in x i q w i k /\ runs q x k) (fun k => k = skel s).
Proof.
  intros (HI & Hl & Hr & Hs). eapply post_mono; [by apply (tree_insert_unlinked x i q w i)|..|done].
  intros [] k [Hk Hsr]. split; [done|]. by eapply same_runs_runs.
Qed.
Lemma insert_staged_current x i s kk e ko eo : current x i (skel s) ->
  post (insert_staged q x kk e ko eo) s (fun _ k => linked_in x i q ReadyTree i k /\ runs q x k) (current x i).
Proof.
  intros Hh. eapply post_bind; [eapply post_mono; [by apply stage_key_current|done|done]|]. intros [] s1 H1. eapply post_on_error.
  - apply post_with_err. eapply post_mono; [by apply tree_insert_current|done|]. intros k ->. exact H1.
  - intros s2 H2. eapply post_mono; [by apply stage_key_current|done|done].
Qed.
Lemma stop_linked x i w s : linked_in x i q w i (skel s) -> runs q x (skel s) ->
  post (E := SchedulerError) (update_sched q (with_running None)) s (fun _ => good) good.
Proof.
  intros (HI & Hi & (t & Ht & Ho) & Hs) (c & Hc & Er). apply post_update_sched. intros c' Hc'. simplify_eq. cbn in Er.
  destruct (inv_stop (skel s) (Some x) x q (sched_skel c') HI ltac:(auto) Hc Er) as (HI' & Hf & Hn & _).
  assert (q < length (kscheds (skel s)))%nat as Hq by (by eapply lookup_lt_Some). destruct Hs as (c0 & Hc0 & Hid & Hn0). simplify_eq.
  eapply (placed_good x q w (kowner t)). split; [|exact Hf]. split_and!; [exact HI'| |by exists t|].
  - destruct Hi as (c1 & Hc1 & Hx). simplify_eq. eexists. cbn. rewrite list_lookup_insert_eq by done. split; [done|]. by destruct w.
  - eexists. cbn. rewrite list_lookup_insert_eq by done. split; [done|]. split; [|exact Hn0]. done.
Qed.

Lemma put_server_good x s : good (skel s) -> runs q x (skel s) -> post (put_server q x) s (fun _ => good) good.
Proof.
  intros HI Hr. unfold put_server. post_walk; try done.
  destruct (runs_current _ _ HI Hr) as [i Hcur].
  apply (post_bind _ _ _ (fun _ k => exists w, linked_in x i q w i k /\ runs q x k)); [|intros [] s1 (w & Hw & Hr1); by eapply stop_linked].
  destruct (deadline_throttled _).
  - eapply post_bind; [eapply post_mono; [by apply stage_key_current|done|done]|]. intros [] s1 H1. apply post_with_err.
    eapply post_mono; [by apply tree_insert_current|intros [] k ?; by eexists|]. intros k ->. by eapply current_good.
  - eapply post_mono; [by apply insert_staged_current|intros [] k ?; by eexists|]. intros k Hk. by eapply current_good.
Qed.
Lemma put_running_good x reason : steps keeps_good (put_running profile q x reason).
Proof.
  apply good_steps. intros s HI. eapply post_bind; [by apply ensure_running_post|]. intros [] s1 [HI1 Hr1].
  eapply post_bind; [by apply lifecycle_runs|]. intros [] s2 [HI2 Hr2]. post_walk; try done; [by apply put_server_good|..].
  all: destruct (runs_current _ _ HI2 Hr2) as [i Hcur].
  all: eapply post_bind; [eapply post_mono; [by apply insert_staged_current|done|intros k Hk; by eapply current_good]|].
  all: intros [] s4 [Hp Hr4]; post_walk; by eapply stop_linked.
Qed.

(** *** Taking a task out *)

Lemma transfer_away x i s from to : held x i q i (skel s) -> to = UNOWNED \/ to = CONFIGURING ->
  post (E := SchedulerError) (must_transfer x from to) s (fun _ => good) good.
Proof.
  intros Hh Hto. eapply post_mono; [apply (must_transfer_held x i q i _ _ to Hh)|..|done].
  - destruct Hto as [-> | ->]; [right|by left]. destruct Hh as (HI & _). pose proof (inv_next _ _ HI). unfold UNOWNED. lia.
  - intros [] k H. by eapply held_good.
Qed.
Lemma remove_ready_good x : steps keeps_good (remove_ready q x).
Proof.
  apply good_steps. intros s HI. unfold remove_ready. post_walk; try done.
  all: eapply post_bind; [apply post_with_err; eapply post_mono; [by apply tree_remove_good|done|by intros k ->]|].
  all: intros y s3 (-> & i & Hh); post_walk.
  all: eapply post_bind; [eapply transfer_away; [exact Hh|by left]|]; intros [] s7 HI7; by apply post_ret.
Qed.
Lemma begin_ready_good x : steps keeps_good (begin_ready_migration q x).
Proof.
  apply good_steps. intros s HI. unfold begin_ready_migration. post_walk; try done.
  eapply post_bind; [apply post_with_err; eapply post_mono; [by apply tree_remove_good|done|by intros k ->]|].
  intros y s3 (-> & i & Hh). eapply post_bind; [eapply transfer_away; [exact Hh|by right]|]. intros [] s4 HI4.
  eapply post_mono; [apply post_neutral; neutral_steps|by intros ? ? ->|by intros ? ->].
Qed.
(** The current task leaves; its owner word follows. *)
Lemma stop_running x s f : good (skel s) -> runs q x (skel s) ->
  (forall c, sched_skel (f c) = mkSS (ready_tree c) (throttled_tree c) None (sched_id c)) ->
  post (E := SchedulerError) (update_sched q f) s (fun _ k => exists i, held x i q i k) (fun _ => False).
Proof.
  intros HI (c & Hc & Er) Hf. apply post_update_sched. intros c' Hc'. simplify_eq. rewrite Hf. cbn in Er.
  destruct (inv_stop (skel s) None x q (sched_skel c') HI ltac:(auto) Hc Er) as (HI' & Hfr & Hn & t & Ht & Ho & Hl). exists (sched_id c').
  split_and!; [exact HI'| |].
  - split; [|exact Hfr]. exists t. split_and!; auto.
  - eexists. cbn. rewrite list_lookup_insert_eq by (by eapply lookup_lt_Some). done.
Qed.
Lemma depart_running x s f from to : good (skel s) -> runs q x (skel s) -> to = UNOWNED \/ to = CONFIGURING ->
  (forall c, sched_skel (f c) = mkSS (ready_tree c) (throttled_tree c) None (sched_id c)) ->
  post (E := SchedulerError) (update_sched q f;; must_transfer x from to) s (fun _ => good) good.
Proof.
  intros HI Hr Hto Hf. eapply post_bind; [eapply post_mono; [by apply (stop_running x)|done|done]|].
  intros [] s1 [i Hh]. by eapply transfer_away.
Qed.
Lemma begin_running_good x : steps keeps_good (begin_running_migration profile q x).
Proof.
  apply good_steps. intros s HI. eapply post_bind; [by apply ensure_running_post|]. intros [] s1 [HI1 Hr1].
  eapply post_bind; [by apply lifecycle_runs|]. intros [] s2 [HI2 Hr2]. post_walk; try done.
  eapply post_bind; [eapply post_mono; [by apply (stop_running x)|done|done]|]. intros [] s6 [i Hh].
  eapply post_bind; [eapply transfer_away; [exact Hh|by right]|]. intros [] s7 HI7.
  eapply post_mono; [apply post_neutral; neutral_steps|by intros ? ? ->|by intros ? ->].
Qed.

(** *** Claims for configuration *)

Abbreviation idle_word o := (o = UNOWNED \/ o = CONFIGURING).
Lemma idle_word_range k o : good k -> idle_word o -> o = CONFIGURING \/ 0 <= o < knext k.
Proof. intros HI [-> | ->]; [right|by left]. pose proof (inv_next _ _ HI). unfold UNOWNED. lia. Qed.
(** A task that no scheduler owns may be claimed, released and given a key. *)
Lemma reword_good k x t o' kk : good k -> ktasks k !! x = Some t -> idle_word (kowner t) -> idle_word o' ->
  klinked t = false /\ good (set_ktask x (mkTS o' false kk) k).
Proof.
  intros HI Ht Ho Ho'. pose proof (unowned_loose k None x t HI ltac:(done) Ht Ho) as Hl.
  split; [destruct Hl as [(t' & Ht' & Hk & _) _]; by simplify_eq|].
  destruct (inv_touch k x _ o' kk (inv_weaken _ _ HI) Hl (idle_word_range _ _ HI Ho')) as [HI' Hl']. by eapply close_loose.
Qed.
Lemma write_owner_good {E} x s o t : good (skel s) -> ktasks (skel s) !! x = Some (task_skel t) -> idle_word (queue_owner t) -> idle_word o ->
  post (E := E) (update_task x (with_owner o)) s (fun _ k => good k /\ exists t', ktasks k !! x = Some t' /\ kowner t' = o) good.
Proof.
  intros HI Ht Ho Ho'. apply post_update_task. intros t' Ht'.
  assert (x < length (ktasks (skel s)))%nat as Hlen by (by eapply lookup_lt_Some).
  destruct (reword_good _ _ _ o (key t') HI Ht Ho Ho') as [Hl HG]. rewrite Ht in Ht'. injection Ht' as Eo El Ek. cbn in Hl.
  unfold task_skel. cbn -[skel]. rewrite <- El, Hl. split; [done|]. eexists. by rewrite list_lookup_insert_eq.
Qed.
Definition configuring (x : nat) (k : Skel) : Prop := good k /\ exists t, ktasks k !! x = Some t /\ kowner t = CONFIGURING.
Lemma claim_reconfiguration_good x s : good (skel s) -> post (claim_reconfiguration x) s (fun _ => configuring x) good.
Proof.
  intros HI. unfold claim_reconfiguration. post_walk; try done. apply Z.eqb_eq in Heqb. eapply write_owner_good; eauto.
Qed.
Lemma must_release_good {E} x : steps keeps_good (must_transfer (E := E) x CONFIGURING UNOWNED).
Proof.
  apply good_steps. intros s HI. unfold must_transfer. post_walk; try done. apply Z.eqb_eq in Heqb.
  eapply post_mono; [eapply write_owner_good; eauto|naive_solver|done].
Qed.
Lemma transfer_owner_good x : steps keeps_good (transfer_owner x CONFIGURING UNOWNED).
Proof.
  apply good_steps. intros s HI. unfold transfer_owner. post_walk; try done. apply Z.eqb_eq in Heqb.
  eapply post_mono; [eapply write_owner_good; eauto|naive_solver|done].
Qed.
Lemma drop_configuration_good {E} x : steps keeps_good (drop_configuration (E := E) x).
Proof.
  apply good_steps. intros s HI. unfold drop_configuration, release_owner. post_walk; try done. apply Z.eqb_eq in Heqb.
  eapply post_mono; [eapply write_owner_good; eauto|naive_solver|done].
Qed.
Lemma claim_reconfiguration_steps x : steps keeps_good (claim_reconfiguration x).
Proof. apply good_steps. intros s HI. eapply post_mono; [by apply claim_reconfiguration_good|by intros ? ? []|done]. Qed.
Lemma ensure_id_steps : steps keeps_good (ensure_id q).
Proof. apply good_steps. intros s HI. eapply post_mono; [by apply (ensure_id_good q s None)|by intros ? ? (? & _)|done]. Qed.
Lemma ensure_running_steps x : steps keeps_good (ensure_running profile q x).
Proof. apply good_steps. intros s HI. eapply post_mono; [by apply ensure_running_post|by intros ? ? []|done]. Qed.
Lemma settle_steps x n : steps keeps_good (settle_runtime_remainder profile q x n).
Proof. apply good_steps. intros s HI. eapply post_mono; [by apply settle_good|by intros ? ? []|done]. Qed.
Lemma neutral_keeps {E A} (m : M Eevdf E A) : steps same_skel m -> steps keeps_good m.
Proof. intros Hm s. specialize (Hm s). unfold keeps_good, same_skel in *. destruct (m s); try done; by rewrite Hm. Qed.

(** Follows a method whose steps each keep the invariant. *)
#[local] Hint Resolve @must_release_good transfer_owner_good @drop_configuration_good claim_reconfiguration_steps ensure_id_steps
  ensure_running_steps settle_steps enqueue_new_good commit_reserved_good put_running_good remove_ready_good begin_ready_good
  begin_running_good : steps.
Ltac good_all :=
  repeat (cbv beta zeta;
    match goal with
    | |- steps _ (_ ≫= _) => apply steps_bind; [apply _| |intros ?]
    | |- steps _ (update_task _ _) => apply neutral_keeps, neutral_task; intros ?; reflexivity
    | |- steps _ (update_owned _ _) => apply neutral_keeps, neutral_task; intros ?; reflexivity
    | |- steps _ (update_sched _ (fun c => if ?b then _ else _)) => destruct b
    | |- steps _ (update_sched _ _) => apply neutral_keeps, neutral_sched; intros ?; reflexivity
    | |- steps _ (modify _) => apply neutral_keeps, steps_modify; intros ?; reflexivity
    | |- steps _ (on_error _ _) => apply steps_on_error; [apply _| |]
    | |- steps _ (rescue _ _) => apply steps_rescue; [apply _| |intros ?]
    | |- steps _ (with_err _ _) => apply steps_with_err
    | |- steps _ (must_op _) => apply steps_must_op
    | |- steps _ (match ?x with _ => _ end) => destruct x
    | |- steps _ _ => solve [eauto 2 with steps typeclass_instances]
    | |- steps _ _ => steps_unfold
    end).

Lemma deactivate_good x reason : steps keeps_good (deactivate_task profile q x reason).
Proof.
  destruct reason; [| |unfold deactivate_task; good_all].
  all: apply good_steps; intros s HI; eapply post_bind; [eapply post_must_op; by apply ensure_running_post|]; intros [] s1 [HI1 Hr1].
  all: eapply post_bind; [eapply post_must_op; by apply lifecycle_runs|]; intros [] s2 [HI2 Hr2].
  - unfold go_to_sleep. post_walk; apply depart_running; auto.
  - unfold leave. post_walk; apply depart_running; auto.
Qed.
Lemma set_unowned_params_good x p b : steps keeps_good (set_unowned_params profile q x p b).
Proof. good_all. Qed.
Lemma set_unowned_fair_runtime_good x n p : steps keeps_good (set_unowned_fair_runtime profile q x n p).
Proof. good_all. Qed.
Lemma set_running_fair_runtime_good x n p : steps keeps_good (set_running_fair_runtime profile q x n p).
Proof. good_all. Qed.
Lemma stage_deadline_good x d : steps keeps_good (stage_task_deadline_config q x d).
Proof. good_all. Qed.
Lemma resume_migration_good x : steps keeps_good (resume_migration x).
Proof. good_all. Qed.

Lemma stage_key_configuring x s kk e : configuring x (skel s) -> post (stage_key x kk e) s (fun _ => configuring x) good.
Proof.
  intros (HI & t & Ht & Ho). apply post_update_task. intros t' Ht'. rewrite Ht in Ht'. injection Ht' as ->. cbn in Ho.
  destruct (reword_good _ _ _ CONFIGURING kk HI Ht ltac:(by right) ltac:(by right)) as [Hl HG]. cbn in Hl. unfold task_skel. cbn -[skel].
  rewrite Hl, Ho. split; [done|]. eexists. cbn [ktasks set_ktask]. rewrite list_lookup_insert_eq by (by eapply lookup_lt_Some). done.
Qed.
Lemma set_unowned_deadline_good x d : steps keeps_good (set_unowned_deadline q x d).
Proof.
  apply good_steps. intros s HI. eapply post_bind; [by apply claim_reconfiguration_good|]. intros [] s1 H1. assert (good (skel s1)) by apply H1.
  apply (post_bind _ _ _ (fun _ => good)); [|intros [] s2 HI2; apply steps_post; [good_all|done]].
  apply (post_on_error _ _ _ _ good); [|intros s2 HI2; apply steps_post; [good_all|done]]. post_walk; try done.
  - eapply post_bind; [by apply stage_key_configuring|]. intros [] s7 [H7 _]. post_tail.
  - post_tail.
Qed.

(** *** Arrivals *)

Lemma insert_throttled_held x o i s n m : held x o q i (skel s) ->
  post (insert_throttled q x n m) s (fun _ => placed_in x o q ThrottledTree i) (held x o q i).
Proof.
  intros Hh. eapply post_bind; [eapply post_mono; [by apply stage_key_held|done|done]|]. intros [] s1 H1. apply post_with_err.
  eapply post_mono; [by apply tree_insert_held|done|by intros k ->].
Qed.
(** The insertion of a task claimed for its migration *)
Lemma insert_arrival x i s (m : Op ()) (c : Op ()) w : steps same_skel c -> post m s (fun _ => placed_in x CONFIGURING q w i) (held x CONFIGURING q i) ->
  post (on_error m c) s (fun _ k => exists w, placed_in x CONFIGURING q w i k) good.
Proof.
  intros Hc Hm. apply post_clean; [done|]. eapply post_mono; [exact Hm|intros [] k ?; by eexists|]. intros k Hk. eapply held_good; [done|]. by right.
Qed.
Lemma configuring_held' x i k : configuring x k -> sched_owner k q i -> held x CONFIGURING q i k.
Proof. intros (HI & t & Ht & Ho) Hs. by eapply configuring_held. Qed.
Lemma post_and {E A} (m : M Eevdf E A) s Q Q' R R' : post m s Q R -> post m s Q' R' -> post m s (fun a k => Q a k /\ Q' a k) (fun k => R k /\ R' k).
Proof. unfold post. by destruct (m s). Qed.
Definition same_tasks (s s' : Eevdf) : Prop := tasks s' = tasks s.
#[local] Instance same_tasks_preorder : PreOrder same_tasks.
Proof. split; unfold same_tasks; repeat intro; congruence. Qed.
Lemma ensure_id_tasks : steps same_tasks (ensure_id q).
Proof. unfold ensure_id, allocate_scheduler_id. steps_auto; [..|apply steps_modify|apply steps_update_sched]; done. Qed.
Lemma ensure_id_configuring x s : configuring x (skel s) -> post (ensure_id q) s (fun i => held x CONFIGURING q i) good.
Proof.
  intros [HI (t & Ht & Ho)]. pose proof (ensure_id_good q s None HI) as H. pose proof (ensure_id_tasks s) as H'. unfold post in *.
  destruct (ensure_id q s) as [i s1| | |]; [|done..]. destruct H as (HI1 & Hs & _). eapply configuring_held'; [|done]. split; [done|].
  exists t. split; [|done]. cbn. by rewrite H'.
Qed.
Lemma post_owner {E A} x (f : Z -> M Eevdf E A) s Q R :
  (forall t, ktasks (skel s) !! x = Some (task_skel t) -> post (f (queue_owner t)) s Q R) -> post (owner x ≫= f) s Q R.
Proof. intros Hf. unfold post, owner, task_at, gets, mbind, M_bind, expect. destruct (tasks s !! x) eqn:Ht; [|done]. cbn. by apply Hf, skel_task. Qed.
Lemma open_migration_good m s : good (skel s) -> post (open_migration m) s (fun _ => configuring (tok_task m)) good.
Proof.
  intros HI. unfold open_migration. apply (post_bind _ _ _ (fun _ => configuring (tok_task m))).
  - unfold claim_migration_for_commit. apply post_owner. intros t Ht. post_walk; try done.
    + apply Z.eqb_eq in Heqb. split; [done|]. by eexists.
    + unfold claim_migration. eapply post_bind; [by apply claim_reconfiguration_good|]. intros [] s1 H1. assert (good (skel s1)) by apply H1.
      post_walk; [|done]. apply (post_bind _ _ _ (fun _ => good)); [apply steps_post; [good_all|done]|]. intros [] s3 H3. by apply post_throw.
  - intros [] s1 H1. assert (good (skel s1)) by apply H1. post_walk; done.
Qed.
Lemma unclaim_good m : steps keeps_good (unclaim_parked m).
Proof. good_all. Qed.
Lemma arrive_good x d s : configuring x (skel s) -> post (arrive profile q x d) s (fun _ => good) good.
Proof.
  intros Hc. eapply post_bind; [by apply ensure_id_configuring|]. intros i s1 Hh.
  assert (good (skel s1)) as HI by (eapply held_good; eauto). post_walk; try done.
  eapply (post_bind _ _ _ (fun _ k => exists w, placed_in x CONFIGURING q w i k)).
  - post_walk.
    + eapply insert_arrival; [neutral_steps|by apply insert_throttled_held].
    + eapply insert_arrival; [neutral_steps|by apply insert_staged_held].
  - intros [] s4 [w Hp]. post_walk. all: eapply publish_placed; [done|]; intros ? ?; post_walk; try done.
Qed.
Lemma return_home_good x d s : configuring x (skel s) -> (forall c, kscheds (skel s) !! q = Some c -> kid c <> UNOWNED) ->
  post (return_home profile q x d) s (fun _ => good) good.
Proof.
  intros Hc Hid. assert (good (skel s)) as HI by apply Hc. unfold return_home. post_walk; try done.
  assert (held x CONFIGURING q (sched_id c) (skel s1)) as Hh.
  { apply configuring_held'; [done|]. eexists. split; [exact H|]. split; [done|]. by apply Hid in H. }
  eapply (post_bind _ _ _ (fun _ k => exists w, placed_in x CONFIGURING q w (sched_id c) k)).
  - destruct (deadline_throttled _); eapply insert_arrival; try (by neutral_steps); [by apply insert_throttled_held|by apply insert_staged_held].
  - intros [] s4 [w Hp]. post_walk. eapply publish_placed; [done|]. intros ? ?. post_walk; try done.
Qed.
Lemma commit_migration_good m : steps keeps_good (commit_migration profile q m).
Proof.
  apply good_steps. intros s HI. apply post_with_err. post_walk; try done. apply (post_on_error _ _ _ _ good).
  - eapply post_bind; [by apply open_migration_good|]. intros d s1 H1. by apply arrive_good.
  - intros s1 HI1. apply steps_post; [apply unclaim_good|done].
Qed.

Definition same_scheds (s s' : Eevdf) : Prop := schedulers s' = schedulers s.
#[local] Instance same_scheds_preorder : PreOrder same_scheds.
Proof. split; unfold same_scheds; repeat intro; congruence. Qed.
Lemma open_migration_scheds m : steps same_scheds (open_migration m).
Proof.
  unfold open_migration, claim_migration_for_commit, claim_migration, claim_reconfiguration, must_transfer.
  steps_auto; apply steps_update_task; done.
Qed.
Lemma rollback_migration_good m : steps keeps_good (rollback_migration profile q m).
Proof.
  apply good_steps. intros s HI. apply post_with_err. post_walk; try done. apply (post_on_error _ _ _ _ good).
  - apply orb_false_iff in Heqb as [Hn%Z.eqb_neq _]. eapply (post_bind _ _ _ (fun _ k => configuring (tok_task m) k /\ kscheds k = kscheds (skel s))).
    + pose proof (open_migration_good m s HI) as Ho. pose proof (open_migration_scheds m s) as Hs. unfold post in *.
      destruct (open_migration m s); try done. split; [done|]. cbn. by rewrite Hs.
    + intros d s1 [H1 Hs]. apply return_home_good; [done|]. rewrite Hs. intros c' Hc'. rewrite H in Hc'. by injection Hc' as <-.
  - intros s1 HI1. apply steps_post; [apply unclaim_good|done].
Qed.

(** *** Wake-up *)

Lemma wake_claimed_held x i s : held x i q i (skel s) -> post (wake_claimed profile q x) s (fun _ => good) (held x i q i).
Proof.
  intros Hh. unfold wake_claimed. post_walk; try done. apply (post_bind _ _ _ (fun _ => good)).
  - post_walk; (eapply post_mono; [by apply staged_insert_held|intros [] k Hk; by eapply placed_good|done]).
  - intros [] s4 HI4. post_tail.
Qed.
Lemma enqueue_wakeup_good x : steps keeps_good (enqueue_wakeup profile q x).
Proof.
  apply good_steps. intros s HI. eapply post_bind; [by apply (ensure_id_good q s None)|]. intros i s1 (HI1 & Hs1 & _). post_walk; try done.
  eapply post_bind; [by apply claim_good|]. intros [] s2 (Hh & _).
  apply (post_on_error _ _ _ _ (held x i q i)); [by apply wake_claimed_held|intros; by eapply release_claim_held].
Qed.
Lemma enqueue_migrated_good x : steps keeps_good (enqueue_migrated_task profile q x).
Proof. pose proof commit_migration_good. pose proof rollback_migration_good. pose proof resume_migration_good. good_all. Qed.

(** *** Re-keying a ready task *)

Lemma reinsert_good x i w s : held x i q i (skel s) -> post (must_op (with_err tree_error (tree_insert q w x))) s (fun _ => good) good.
Proof.
  intros Hh. eapply post_must_op, post_with_err.
  eapply post_mono; [by apply tree_insert_held|intros [] k Hk; by eapply placed_good|exact (fun _ H => H)].
Qed.
Lemma replace_key_good x i s kk e ko eo (c : Op ()) : held x i q i (skel s) ->
  (forall s1, held x i q i (skel s1) -> post c s1 (fun _ => good) good) ->
  post (on_error (insert_staged q x kk e ko eo) c) s (fun _ => good) good.
Proof.
  intros Hh Hc. eapply post_on_error; [|exact Hc]. eapply post_mono; [by apply insert_staged_held|intros [] k Hk; by eapply placed_good|done].
Qed.
Lemma take_out_good x w s (c : Op ()) : good (skel s) -> steps same_skel c ->
  post (on_error (with_err tree_error (tree_remove q w x)) c) s (fun y k => y = x /\ exists i, held x i q i k) good.
Proof.
  intros HI Hc. apply post_clean; [done|]. apply post_with_err. eapply post_mono; [by apply tree_remove_good|done|]. by intros ? ->.
Qed.
Lemma rekey_good x p k at_ old new : steps keeps_good (rekey q x p k at_ old new).
Proof.
  apply good_steps. intros s HI. unfold rekey. post_walk. eapply post_bind; [apply take_out_good; [done|neutral_steps]|].
  intros y s1 (-> & i & Hh). apply (post_bind _ _ _ (fun _ => good)).
  - eapply replace_key_good; [done|]. intros s2 H2. eapply post_bind; [by eapply reinsert_good|]. intros [] s3 H3. post_end.
  - intros [] s2 H2. post_walk; post_tail.
Qed.
Lemma rekey_deadline_good x a old d : steps keeps_good (rekey_deadline q x a old d).
Proof.
  apply good_steps. intros s HI. unfold rekey_deadline. post_walk. eapply post_bind; [apply take_out_good; [done|neutral_steps]|].
  intros y s1 (-> & i & Hh). apply (post_bind _ _ _ (fun _ => good)).
  - eapply replace_key_good; [done|]. intros s2 H2. by eapply reinsert_good.
  - intros [] s2 H2. post_tail.
Qed.
#[local] Hint Resolve rekey_good rekey_deadline_good : steps.
Lemma set_owned_params_good x p b : steps keeps_good (set_owned_params profile q x p b).
Proof. good_all. Qed.
Lemma set_owned_deadline_good x d : steps keeps_good (set_owned_deadline q x d).
Proof. good_all. Qed.

(** A failed insertion restores the task it was given, and a task taken out of a
    tree can go back under its old key. *)
Lemma rewrite_task x t t' s : set_task x t' (set_task x t s) = set_task x t' s.
Proof. unfold set_task. cbn. by rewrite list_insert_insert_eq. Qed.
Lemma set_task_id x t s : tasks s !! x = Some t -> set_task x t s = s.
Proof. intros Ht. unfold set_task. rewrite list_insert_id by done. by destruct s. Qed.
Lemma lookup_set_task x t t' s : tasks s !! x = Some t -> tasks (set_task x t' s) !! x = Some t'.
Proof. intros Ht. cbn. apply list_lookup_insert_eq. by eapply lookup_lt_Some. Qed.
Lemma tree_insert_fails w x s er s' : tree_insert q w x s = Fail er s' -> s' = s.
Proof.
  unfold tree_insert, update_task, update_sched, task_at, sched_at, gets, mbind, M_bind, expect, modify, throw.
  destruct (tasks s !! x) eqn:Ht; [|done]. cbn. destruct (schedulers s !! q) eqn:Hc; [|done]. cbn. destruct (linked _); [by intros [= _ <-]|].
  destruct (existsb _ _); [by intros [= _ <-]|]. rewrite Ht. cbn. by rewrite Hc.
Qed.
Lemma insert_staged_restores x t s kk e eo : ktasks (skel s) !! x = Some t ->
  post (insert_staged q x kk e (kkey t) eo) s (fun _ _ => True) (fun k => k = skel s).
Proof.
  intros Hk. pose proof Hk as Hk'. cbn in Hk'. rewrite list_lookup_fmap in Hk'. destruct (tasks s !! x) as [t0|] eqn:Ht; [|done].
  injection Hk' as <-. unfold post, insert_staged, stage_key. set (u := with_schedule kk e). unfold mbind, M_bind.
  assert (update_task (E := SchedulerError) x u s = Done tt (set_task x (u t0) s)) as -> by (unfold update_task, task_at, gets, mbind, M_bind, expect; by rewrite Ht).
  unfold on_error, with_err. destruct (tree_insert q ReadyTree x (set_task x (u t0) s)) as [|er1 s1| |] eqn:Hi; try done.
  apply tree_insert_fails in Hi as ->. unfold update_task, task_at, gets, mbind, M_bind, expect, modify. rewrite (lookup_set_task _ _ _ _ Ht).
  cbn -[skel]. rewrite rewrite_task, skel_set_task. unfold set_ktask. rewrite list_insert_id; [by destruct (skel s)|]. rewrite Hk. by destruct t0.
Qed.
Lemma tree_remove_done w x y s s1 : tree_remove q w x s = Done y s1 -> exists t c, tasks s !! x = Some t /\ schedulers s !! q = Some c /\
  x ∈ tree_of w c /\ y = x /\ s1 = set_sched q (with_tree w (filter (fun y => y <> x) (tree_of w c)) c) (set_task x (with_linked false t) s).
Proof.
  unfold tree_remove, update_task, update_sched, task_at, sched_at, gets, mbind, M_bind, expect, modify, throw.
  destruct (tasks s !! x) as [t|] eqn:Ht; [|done]. cbn. destruct (schedulers s !! q) as [c|] eqn:Hc; [|done]. cbn.
  destruct (linked t && bool_decide (x ∈ tree_of w c)) eqn:Hin; [|done]. rewrite Ht. cbn. rewrite Hc. intros [= <- <-].
  apply andb_true_iff in Hin as [_ Hin%bool_decide_eq_true]. eauto 10.
Qed.
Lemma ordered_keys k l x y : ordered k l -> x ∈ l -> y ∈ l -> x <> y -> key_at k x <> key_at k y.
Proof.
  intros Ho. induction Ho as [|z l Hs IH Hz]; [by intros ?%not_elem_of_nil|]. rewrite Forall_forall in Hz.
  intros [-> |Hx]%elem_of_cons [-> |Hy]%elem_of_cons Hne E; [done|..|by eapply IH].
  - specialize (Hz y Hy). cbn in Hz. rewrite E in Hz. by apply key_lt_irrefl in Hz.
  - specialize (Hz x Hx). cbn in Hz. rewrite E in Hz. by apply key_lt_irrefl in Hz.
Qed.
(** No task of the tree has the key of [x]. *)
Definition fresh_key (w : tree_name) (x : nat) (k : Skel) : Prop :=
  forall c y, kscheds k !! q = Some c -> y ∈ ktree w c -> key_at k y <> key_at k x.
Lemma tree_remove_fresh w x s : good (skel s) ->
  post (tree_remove q w x) s (fun _ k => fresh_key w x k /\ key_at k x = key_at (skel s) x) (fun _ => True).
Proof.
  intros HI. unfold post. destruct (tree_remove q w x s) as [y s1| | |] eqn:Hr; try done.
  apply tree_remove_done in Hr as (t & c & Ht & Hc & Hx & -> & ->). rewrite skel_set_sched, skel_set_task.
  set (k' := set_ksched _ _ _). assert (x < length (ktasks (skel s)))%nat as Hlen by (eapply lookup_lt_Some, skel_task; done).
  assert (forall y, key_at k' y = key_at (skel s) y) as Hkey.
  { intros y. unfold k', key_at. cbn [ktasks set_ksched set_ktask]. destruct (decide (y = x)) as [->|]; [|by rewrite list_lookup_insert_ne].
    rewrite list_lookup_insert_eq by done. by rewrite (skel_task _ _ _ Ht). }
  split; [|apply Hkey]. intros c' y Hc' Hy. rewrite !Hkey. apply lookup_ksched in Hc' as [[_ ->]|[[] _]]; [|done].
  assert (y ∈ tree_of w c /\ y <> x) as [Hy' Hne] by (destruct w; apply list_elem_of_filter in Hy; naive_solver).
  rewrite <- ktree_skel in Hx, Hy'. by eapply ordered_keys; [apply (inv_ordered _ _ HI q w), skel_sched|..].
Qed.
Lemma tree_goes_back w x o s : unlinked (skel s) x o -> fresh_key w x (skel s) -> post (tree_insert q w x) s (fun _ _ => True) (fun _ => False).
Proof.
  intros (t & Ht & Hl & _) Hf. unfold post, tree_insert, update_task, update_sched, task_at, sched_at, gets, mbind, M_bind, expect, modify, throw.
  cbn in Ht. rewrite list_lookup_fmap in Ht. destruct (tasks s !! x) as [t0|] eqn:Ht0; [|done]. injection Ht as <-. cbn in Hl. cbn -[skel].
  destruct (schedulers s !! q) as [c|] eqn:Hc; [|done]. cbn -[skel]. rewrite Hl. destruct (existsb _ _) eqn:Hex.
  - apply existsb_exists in Hex as (y & Hy%list_elem_of_In & E%bool_decide_eq_true). rewrite <- ktree_skel in Hy.
    apply (Hf _ y (skel_sched _ _ _ Hc) Hy). rewrite !key_at_skel, E. unfold key_in. by rewrite Ht0.
  - rewrite Ht0. cbn -[skel]. by rewrite Hc.
Qed.
Lemma set_ready_fair_runtime_good x n p : steps keeps_good (set_ready_fair_runtime profile q x n p).
Proof.
  apply good_steps. intros s HI. unfold set_ready_fair_runtime. post_walk; try done.
  apply (post_bind _ _ _ (fun y k => y = x /\ (exists i, held x i q i k) /\ fresh_key ReadyTree x k /\ key_at k x = key t)).
  - apply post_with_err. eapply post_mono; [apply (post_and _ _ _ _ _ _ (tree_remove_good q ReadyTree x _ HI) (tree_remove_fresh ReadyTree x _ HI))|..].
    + intros y k [[-> Hi] [Hf Hk]]. split_and!; [done|done|done|]. rewrite Hk. unfold key_at. by rewrite H.
    + by intros k [-> _].
  - intros y s4 (-> & (i & Hh) & Hf & Hk). apply (post_bind _ _ _ (fun _ => good)); [|intros [] s5 H5; post_tail].
    destruct Hh as (HI4 & Hl & Hs). pose proof Hl as [Hu Hfr]. pose proof Hu as (t4 & Ht4 & Hl4 & Ho4).
    assert (key t = kkey t4) as -> by (rewrite <- Hk; unfold key_at; by rewrite Ht4).
    eapply post_rescue; [eapply post_mono; [apply (post_and _ _ _ _ _ _ (insert_staged_held x i q i s4 e z (kkey t4) (node_eligible_at t) ltac:(done)) (insert_staged_restores x t4 s4 e z _ Ht4))|..]|].
    + intros [] k [Hp _]. by eapply placed_good.
    + exact (fun k H => proj2 H).
    + intros er s5 Hs5. cbn in Hs5. rewrite <- Hs5 in *. apply (post_bind _ _ _ (fun _ => good)); [|intros [] s6 H6; by apply post_throw].
      apply post_with_err. eapply post_mono; [apply (post_and _ _ _ _ _ _ (tree_insert_held x i q ReadyTree i s5 ltac:(done)) (tree_goes_back ReadyTree x i s5 Hu Hf))|..].
      * intros [] k [Hp _]. by eapply placed_good.
      * by intros k [_ []].
Qed.

(** *** Replenishment and selection *)

Lemma must_remove_good w x s : good (skel s) -> post (must_remove q w x) s (fun y k => y = x /\ exists i, held x i q i k) good.
Proof.
  intros HI. pose proof (tree_remove_good q w x s HI) as H. unfold post, must_remove in *. by destruct (tree_remove q w x s).
Qed.
Lemma replenish_front_good : steps keeps_good (replenish_front q).
Proof.
  apply good_steps. intros s HI. unfold replenish_front. post_walk; try done.
  eapply post_bind; [by apply must_remove_good|]. intros y s1 (-> & i & Hh). post_walk.
  eapply post_bind; [eapply post_mono; [by apply stage_key_held|done|done]|]. intros [] s6 H6.
  eapply post_bind; [by eapply reinsert_good|]. intros [] s7 H7. by apply post_ret.
Qed.
Lemma replenish_loop_good fuel : steps keeps_good (replenish_loop q fuel).
Proof.
  induction fuel as [|fuel IH]; cbn [replenish_loop]; (apply steps_bind; [apply _|apply replenish_front_good|]); intros [];
    eauto with steps typeclass_instances.
Qed.
#[local] Hint Resolve replenish_loop_good : steps.
Lemma account_transaction_good x d : steps keeps_good (account_runtime_transaction profile q x d).
Proof. pose proof (fun n => neutral_keeps _ (neutral_rr_service q x n 0)). pose proof (fun n => neutral_keeps _ (neutral_fair_service profile q x n 0)). good_all. Qed.

Lemma replenish_current fuel : steps (same_proj running q) (replenish_loop q fuel).
Proof. induction fuel; cbn [replenish_loop]; proj_steps; auto. Qed.
#[local] Hint Resolve replenish_current : steps.
Lemma pick_ready_idle s : idle q (skel s) -> post (pick_ready q) s (fun _ => idle q) (fun _ => True).
Proof.
  intros (c & Hc & Hr). assert (steps (same_proj running q) (pick_ready q)) as Hs by proj_steps. specialize (Hs s). unfold post.
  destruct (pick_ready q s) as [y s1| | |]; try done. unfold same_proj in Hs. cbn in Hc. rewrite list_lookup_fmap in Hc.
  destruct (schedulers s !! q) as [c0|] eqn:Hc0; [|done]. injection Hc as <-. destruct (schedulers s1 !! q) as [c1|] eqn:Hc1; [|done].
  exists (sched_skel c1). split; [by apply skel_sched|]. injection Hs as Hs. cbn in *. congruence.
Qed.
Definition taken (y : option nat) (k : Skel) : Prop := match y with Some x => exists i, held x i q i k | None => good k end.
Lemma take_good w x s : good (skel s) -> post (y ← must_remove q w x; mret (Some y)) s taken good.
Proof. intros HI. eapply post_bind; [by apply must_remove_good|]. intros y s1 (-> & Hh). by apply post_ret. Qed.
Lemma pick_ready_good s : good (skel s) -> post (pick_ready q) s taken good.
Proof.
  intros HI. unfold pick_ready. apply (post_bind _ _ _ (fun _ => good)); [apply steps_post; [good_all|done]|]. intros [] s1 HI1.
  post_walk; try done; [unfold pick_rt_front|unfold pop_earliest_eligible..]; post_walk; try done; by apply take_good.
Qed.
Lemma retransfer_same {E} x o : steps same_skel (must_transfer (E := E) x o o).
Proof.
  intros s. unfold must_transfer, update_task, task_at, gets, mbind, M_bind, expect, modify. destruct (tasks s !! x) as [t|] eqn:Ht; [|done]. cbn -[skel].
  destruct (Z.eqb_spec (queue_owner t) o) as [<-|]; [|done]. rewrite Ht. cbn -[skel]. unfold same_skel. f_equal. apply set_task_id. rewrite Ht. by destruct t.
Qed.
Lemma pick_next_good : steps keeps_good (pick_next_task q).
Proof.
  apply good_steps. intros s HI. unfold pick_next_task. post_walk; [done|]. apply bool_decide_eq_false in Heqb.
  assert (idle q (skel s)) as Hi by (eexists; split; [exact H|]; cbn; destruct (running c); naive_solver).
  eapply post_bind; [eapply post_mono; [apply (post_and _ _ _ _ _ _ (pick_ready_good s HI) (pick_ready_idle s Hi))|exact (fun _ _ H => H)|by intros k []]|].
  intros y s1 [Hy Hi1]. destruct y as [x|]; [|by apply post_ret]. destruct Hy as [i Hh].
  apply (post_bind _ _ _ (fun _ k => held x i q i k /\ idle q k)).
  - apply post_quiet; [apply retransfer_same|never_fails_all|done].
  - intros [] s2 [Hh2 Hi2]. apply (post_bind _ _ _ (fun _ => good)); [|intros [] s3 H3; by apply post_ret].
    eapply post_mono; [by apply (start_running x i)|by intros [] k []|done].
Qed.

(** *** Dropping a scheduler *)

Lemma release_dropped_good x i s : held x i q i (skel s) -> post (release_dropped q x) s (fun _ => good) good.
Proof. intros Hh. unfold release_dropped. post_walk. eapply transfer_away; [exact Hh|by left]. Qed.
Lemma post_front {A} w (f : option nat -> Op A) s Q R :
  (forall c, kscheds (skel s) !! q = Some (sched_skel c) -> post (f (head (tree_of w c))) s Q R) -> post (tree_front q w ≫= f) s Q R.
Proof.
  intros Hf. unfold post, tree_front, sched_at, gets, mbind, M_bind, expect. destruct (schedulers s !! q) eqn:Hc; [|done]. cbn. by apply Hf, skel_sched.
Qed.
Lemma drain_ready_good fuel s : good (skel s) ->
  post (drain_ready q fuel) s (fun _ k => good k /\ exists c, kscheds k !! q = Some c /\ kready c = []) good.
Proof.
  revert s. induction fuel as [|fuel IH]; intros s HI; cbn [drain_ready]; apply post_front; intros c Hc; cbn [tree_of];
    (destruct (ready_tree c) as [|x l] eqn:Hl; cbn [head]; [apply post_ret; split; [done|]; by exists (sched_skel c)|]); [done|].
  eapply post_bind; [by apply must_remove_good|]. intros y s1 (-> & i & Hh).
  eapply post_bind; [by eapply release_dropped_good|]. intros [] s2 H2. by apply IH.
Qed.

Definition unlink (t : TaskSkel) : TaskSkel := mkTS (kowner t) false (kkey t).
(** The throttled tree of [q] is destroyed and the slot of [q] is that of a new scheduler. *)
Lemma inv_drop k k' l i : good k -> kscheds k !! q = Some (mkSS [] l None i) ->
  (forall y, ktasks k' !! y = (fun t => if decide (y ∈ l) then unlink t else t) <$> ktasks k !! y) ->
  kscheds k' = <[q := mkSS [] [] None UNOWNED]> (kscheds k) -> knext k' = knext k -> good k'.
Proof.
  intros HI Hq Ht Hs Hn. set (d := mkSS [] [] None UNOWNED) in *.
  assert (forall q' c, kscheds k' !! q' = Some c -> (q' = q /\ c = d) \/ (q' <> q /\ kscheds k !! q' = Some c)) as Hsch.
  { intros q' c. rewrite Hs. apply (lookup_ksched k q d). }
  assert (forall y t, ktasks k' !! y = Some t -> exists t0, ktasks k !! y = Some t0 /\ kowner t = kowner t0 /\ kkey t = kkey t0 /\ (klinked t = true -> y ∉ l /\ klinked t0 = true)) as Htask.
  { intros y t. rewrite Ht. destruct (ktasks k !! y) as [t0|]; [|done]. cbn. case_decide; intros [= <-]; exists t0; naive_solver. }
  assert (forall y, key_at k' y = key_at k y) as Hkey by (intros y; unfold key_at; rewrite Ht; destruct (ktasks k !! y); cbn; [by case_decide|done]).
  assert (forall q' w y, in_tree k' q' w y -> q' <> q /\ y ∉ l /\ in_tree k q' w y) as Htree.
  { intros q' w y (c & [[-> ->]|[Hne Hc]]%Hsch & Hy); [destruct w; by apply not_elem_of_nil in Hy|]. split_and!; [done| |by exists c].
    intros Hl. apply Hne. eapply (EevdfStructure.inv_one _ _ HI q' w q ThrottledTree y); [by exists c|by eexists]. }
  pose proof HI as []. split.
  - by rewrite Hn.
  - intros q' c [[-> ->]|[Hne Hc]]%Hsch; [by left|rewrite Hn; eauto].
  - intros q1 q2 c1 c2 [[-> ->]|[Hne Hc]]%Hsch [[-> ->]|[Hne2 Hc2]]%Hsch; cbn; try done; eauto.
  - intros y t (t0 & H0 & -> & _)%Htask. rewrite Hn. eauto.
  - intros q' w c [[-> ->]|[Hne Hc]]%Hsch; [destruct w; constructor|]. eapply ordered_ext; [by intros; apply Hkey|eauto].
  - intros q' w y c Hc Hy. destruct (Htree q' w y) as (Hne & Hl & c0 & Hc0 & Hy0); [by exists c|].
    apply Hsch in Hc as [[-> _]|[_ Hc]]; [done|]. simplify_eq. destruct (inv_tree _ _ _ _ Hc Hy0) as (t & H0 & ?). exists t. rewrite Ht, H0. cbn.
    by rewrite decide_False.
  - intros q1 w1 q2 w2 y (_ & _ & H1)%Htree (_ & _ & H2)%Htree. eauto.
  - intros y t (t0 & H0 & _ & _ & Hl)%Htask Hk. destruct (Hl Hk) as [Hy Hk0]. destruct (inv_linked _ _ H0 Hk0) as (q' & w & c & Hc & Hx).
    destruct (decide (q' = q)) as [->|Hne].
    + rewrite Hq in Hc. injection Hc as <-. destruct w; [by apply not_elem_of_nil in Hx|done].
    + exists q', w, c. split; [|done]. by rewrite Hs, list_lookup_insert_ne.
  - intros q' c y [[-> ->]|[Hne Hc]]%Hsch Hr; [done|]. destruct (inv_run _ _ _ Hc Hr) as (t & H0 & Hk & ? & ?). eexists. rewrite Ht, H0. cbn.
    split; [done|]. case_decide; naive_solver.
  - intros q' c y t Hh [[-> ->]|[Hne Hc]]%Hsch (t0 & H0 & -> & _)%Htask Ho Hu; [done|eauto].
Qed.
Lemma unlink_all l s : post (for_each (E := SchedulerError) l (fun x => update_task x (with_linked false))) s
  (fun _ k => kscheds k = kscheds (skel s) /\ knext k = knext (skel s) /\
     forall y, ktasks k !! y = (fun t => if decide (y ∈ l) then unlink t else t) <$> ktasks (skel s) !! y) (fun _ => False).
Proof.
  revert s. induction l as [|x l IH]; intros s; cbn [for_each].
  - apply post_ret. split_and!; [done..|]. intros y. destruct (ktasks (skel s) !! y); cbn; [|done]. by rewrite decide_False by apply not_elem_of_nil.
  - apply (post_bind _ _ _ (fun _ k => k = set_ktask x (default (mkTS 0 false (mkKey 0 0 0)) (unlink <$> ktasks (skel s) !! x)) (skel s))).
    + apply post_update_task. intros t Ht. by rewrite Ht.
    + intros [] s1 Hs1. eapply post_mono; [apply IH|..|done]. intros [] k (E1 & E2 & Hy). rewrite Hs1 in *. split_and!; [done..|].
      intros y. rewrite Hy. cbn [ktasks set_ktask]. destruct (decide (y = x)) as [->|Hne].
      * destruct (ktasks (skel s) !! x) as [t|] eqn:Ht; [|rewrite lookup_ge_None_2; [done|]; rewrite length_insert; by apply lookup_ge_None].
        rewrite list_lookup_insert_eq by (by eapply lookup_lt_Some). cbn -[skel]. rewrite (decide_True _ _ (list_elem_of_here _ _)). by case_decide.
      * rewrite list_lookup_insert_ne by done. destruct (ktasks (skel s) !! y); [|done]. cbn. f_equal.
        destruct (decide (y ∈ l)); [rewrite decide_True by set_solver|rewrite decide_False by set_solver]; done.
Qed.
Lemma release_dropped_scheds x : steps same_scheds (release_dropped q x).
Proof. unfold release_dropped, must_transfer, update_owned. steps_auto; apply steps_update_task; done. Qed.
(** The current task of the dropped scheduler is released. *)
Lemma drop_current_good c s : good (skel s) -> kscheds (skel s) !! q = Some (sched_skel c) -> ready_tree c = [] ->
  post (update_sched q (with_running None);; match running c with Some x => release_dropped q x | None => mret tt end) s
    (fun _ k => good k /\ kscheds k !! q = Some (mkSS [] (throttled_tree c) None (sched_id c))) good.
Proof.
  intros HI Hc Hl. assert (q < length (kscheds (skel s)))%nat as Hq by (by eapply lookup_lt_Some).
  set (P := fun k => kscheds k !! q = Some (mkSS [] (throttled_tree c) None (sched_id c))).
  assert (post (E := SchedulerError) (update_sched q (with_running None)) s (fun _ => P) good) as HP.
  { apply post_update_sched. intros c' Hc'. rewrite Hc in Hc'. injection Hc' as E1 E2 E3 E4. unfold P. cbn [kscheds set_ksched].
    rewrite list_lookup_insert_eq by done. unfold sched_skel. cbn. congruence. }
  destruct (running c) as [x|] eqn:Hr.
  - apply (post_bind _ _ _ (fun _ k => (exists i, held x i q i k) /\ P k)).
    + eapply post_mono; [apply (post_and _ _ _ _ _ _ (stop_running x s (with_running None) HI ltac:(by exists (sched_skel c)) ltac:(done)) HP)|done|by intros k []].
    + intros [] s1 [[i Hh] H1]. pose proof (release_dropped_good x i s1 Hh) as Hg. pose proof (release_dropped_scheds x s1) as Hs.
      unfold post in *. destruct (release_dropped q x s1); try done. split; [done|]. unfold P in H1. cbn in *. by rewrite Hs.
  - apply (post_bind _ _ _ (fun _ k => k = skel s /\ P k)); [|intros [] s1 [E H1]; apply post_ret; by rewrite E in *].
    apply post_update_sched. intros c' Hc'. pose proof Hc' as Hc2. rewrite Hc in Hc2. injection Hc2 as E1 E2 E3 E4.
    assert (sched_skel (with_running None c') = sched_skel c') as -> by (unfold sched_skel; cbn; congruence).
    unfold set_ksched. rewrite list_insert_id by done. split; [by destruct (skel s)|]. unfold P. cbn [kscheds]. rewrite Hc.
    unfold sched_skel. congruence.
Qed.
Lemma post_bind2 {A} (m n : Op ()) (f : () -> Op A) s P Q R : post (m;; n) s P R -> (forall s', P tt (skel s') -> post (f tt) s' Q R) ->
  post (m ≫= fun _ => n ≫= f) s Q R.
Proof. unfold post, mbind, M_bind. intros H Hf. destruct (m s) as [[] s1| | |]; try done. destruct (n s1) as [[] s2| | |]; auto. by apply Hf. Qed.
Lemma drop_scheduler_good : steps keeps_good (drop_scheduler q).
Proof.
  apply good_steps. intros s HI. unfold drop_scheduler. apply post_sched. intros c0 _.
  eapply post_bind; [by apply drain_ready_good|]. intros [] s1 (HI1 & c1 & Hc1 & Hl). apply post_sched. intros c Hc. simplify_eq. cbn in Hl.
  eapply post_bind2; [by apply drop_current_good|]. intros s2 [HI2 Hq]. eapply post_bind; [eapply post_mono; [apply unlink_all|exact (fun _ _ H => H)|done]|].
  intros [] s3 (Hs & Hn & Ht). apply post_update_sched. intros c' _. eapply inv_drop; [exact HI2|exact Hq|exact Ht| |exact Hn].
  cbn [kscheds set_ksched]. by rewrite Hs.
Qed.

#[local] Hint Resolve set_unowned_params_good set_unowned_deadline_good set_owned_params_good set_owned_deadline_good set_ready_fair_runtime_good
  commit_migration_good rollback_migration_good enqueue_wakeup_good enqueue_migrated_good account_transaction_good pick_next_good drop_scheduler_good
  deactivate_good : steps.
Lemma good_call call : steps keeps_good (run_call profile q call).
Proof. destruct call; cbn [run_call]; try (by good_all). Qed.

End Methods.

(** Every history keeps the invariant. *)
Lemma good_boot : good (skel eevdf_boot).
Proof. split; cbn; try done. intros q1 w1 q2 w2 x (c & Hc & _). done. Qed.
Lemma good_step profile s s' : eevdf_step profile s s' -> keeps_good s s'.
Proof.
  apply step_call; [apply _|..].
  - intros s0 HI. pose proof (inv_new_task (skel s0) None eq_refl HI) as H. unfold skel in *. cbn in *. by rewrite fmap_app.
  - intros s0 HI. pose proof (inv_new_sched (skel s0) HI) as H. unfold skel in *. cbn in *. by rewrite fmap_app.
  - intros s0 cpus HI. exact HI.
  - intros q call _. apply good_call.
Qed.
Lemma good_history profile s : rtc (eevdf_step profile) eevdf_boot s -> good (skel s).
Proof.
  intros Hs. pose proof good_boot as HI. induction Hs as [|s0 s1 s2 H1 _ IH]; [done|]. apply IH. by eapply good_step.
Qed.
