(* ===== verification/EevdfSchedVerified.v ===== *)
(** The EEVDF scheduler: the theorems that make it correct, and the corner cases
    in which it does not do what it means to. *)

From stdpp Require Import relations sorting.
From S2P Require Import Prelude Effects Atomics EevdfTree EevdfMath EevdfMathSpec EevdfModel Sched EevdfTask EevdfSched EevdfLifecycle EevdfSchedSpec EevdfStructure EevdfOwnership.
Local Open Scope Z_scope.

(** ** Histories that can be run *)

Inductive event : Type := NewTask | NewScheduler | NewDomain (cpus : Z) | CallOn (q : nat) (call : eevdf_call).
Definition run_event (profile : EevdfProfile) (s : Eevdf) (e : event) : option Eevdf :=
  match e with
  | NewTask => Some (add_new_task s)
  | NewScheduler => Some (add_new_scheduler s)
  | NewDomain cpus => Some (add_new_domain (with_cpu_capacity cpus) s)
  | CallOn q call => match run_call profile q call s with Done _ s' | Fail _ s' => Some s' | Panic | Diverged => None end
  end.
Fixpoint run_events (profile : EevdfProfile) (s : Eevdf) (l : list event) : option Eevdf :=
  match l with [] => Some s | e :: l => s ← run_event profile s e; run_events profile s l end.
Definition event_typed (e : event) : Prop := match e with CallOn _ call => call_typed call | _ => True end.
Lemma run_events_steps profile l s s' : Forall event_typed l -> run_events profile s l = Some s' -> rtc (eevdf_step profile) s s'.
Proof.
  intros Hl. revert s. induction Hl as [|e l He Hl IH]; intros s; cbn; [intros [= ->]; constructor|].
  destruct (run_event profile s e) as [s1|] eqn:H1; [|done]. cbn. intros H2. econstructor; [|by apply IH].
  destruct e as [| |cpus|q call]; cbn in H1; [injection H1 as <-; constructor..|].
  destruct (run_call profile q call s) as [[] s2|er s2| |] eqn:Hr; try done; injection H1 as <-; [by eapply step_done|by eapply step_fail].
Qed.
(** The state after a history that does not panic *)
Definition after (profile : EevdfProfile) (l : list event) : Eevdf := default eevdf_boot (run_events profile eevdf_boot l).
Lemma after_steps profile l : Forall event_typed l -> is_Some (run_events profile eevdf_boot l) -> rtc (eevdf_step profile) eevdf_boot (after profile l).
Proof. intros Hl [s' Hs]. unfold after. rewrite Hs. by apply run_events_steps in Hs. Qed.

#[local] Opaque after.

Definition demo_profile : EevdfProfile := EEVDF_PROFILE false false.
Definition rr_params : EevdfTaskParams := mkParams EevdfTaskClass.RoundRobin 0 10.
Definition deadline_params : EevdfTaskParams := mkParams EevdfTaskClass.Deadline 0 0.
(** Two tasks and two schedulers; one task runs, the other waits. *)
Definition two_fair : list event :=
  [NewScheduler; NewScheduler; NewTask; NewTask; CallOn 0 (CallEnqueue 0 New); CallOn 0 (CallEnqueue 1 New); CallOn 0 CallPickNext].
Definition two_rr : list event :=
  [NewScheduler; NewTask; NewTask; CallOn 0 (CallConfigure 0 rr_params); CallOn 0 (CallConfigure 1 rr_params);
   CallOn 0 (CallEnqueue 0 New); CallOn 0 (CallEnqueue 1 New); CallOn 0 CallPickNext].

(** ** Ownership *)

(** The scheduler [c] has the task [x] in one of its trees or as its current task. *)
Definition holds (c : EEVDFScheduler) (x : nat) : Prop := x ∈ ready_tree c \/ x ∈ throttled_tree c \/ running c = Some x.

Section Placement.
Context (s : Eevdf) (HI : good (skel s)).

Lemma holds_owner q c x : schedulers s !! q = Some c -> holds c x ->
  exists t, tasks s !! x = Some t /\ queue_owner t = sched_id c /\ sched_id c <> UNOWNED.
Proof.
  intros Hc Hx. pose proof (skel_sched _ _ _ Hc) as Hk.
  assert (exists t, ktasks (skel s) !! x = Some t /\ kowner t = sched_id c /\ sched_id c <> UNOWNED) as (t & Ht & Ho).
  { destruct Hx as [Hx|[Hx|Hx]].
    - destruct (inv_tree _ _ HI q ReadyTree x _ Hk Hx) as (t & ? & _ & Ho). exists t. split; [done|]. by apply Ho.
    - destruct (inv_tree _ _ HI q ThrottledTree x _ Hk Hx) as (t & ? & _ & Ho). exists t. split; [done|]. by apply Ho.
    - destruct (inv_run _ _ HI q _ x Hk Hx) as (t & ? & _ & ? & ?). eauto. }
  cbn in Ht. rewrite list_lookup_fmap in Ht. destruct (tasks s !! x) as [t0|]; [|done]. injection Ht as <-. by exists t0.
Qed.
Lemma owner_holds q c x t : schedulers s !! q = Some c -> tasks s !! x = Some t -> queue_owner t = sched_id c -> sched_id c <> UNOWNED -> holds c x.
Proof.
  intros Hc Ht Ho Hn. destruct (inv_placed _ _ HI q _ x _ ltac:(done) (skel_sched _ _ _ Hc) (skel_task _ _ _ Ht) Ho Hn) as [[[] Hw]|Hr];
    [by left|by right; left|by right; right].
Qed.
Lemma holds_once q c x : schedulers s !! q = Some c ->
  ~ (x ∈ ready_tree c /\ x ∈ throttled_tree c) /\ (running c = Some x -> x ∉ ready_tree c /\ x ∉ throttled_tree c).
Proof.
  intros Hc. pose proof (skel_sched _ _ _ Hc) as Hk. split.
  - intros [H1 H2]. destruct (inv_one _ _ HI q ReadyTree q ThrottledTree x) as [_ ?]; [by eexists..|done].
  - intros Hr. destruct (inv_run _ _ HI q _ x Hk Hr) as (t & Ht & Hl & _). specialize (Hl ltac:(done)).
    split; intros Hx; [destruct (inv_tree _ _ HI q ReadyTree x _ Hk Hx) as (t' & ? & ? & _)|destruct (inv_tree _ _ HI q ThrottledTree x _ Hk Hx) as (t' & ? & ? & _)]; congruence.
Qed.
Lemma holds_apart q1 q2 c1 c2 x : schedulers s !! q1 = Some c1 -> schedulers s !! q2 = Some c2 -> holds c1 x -> holds c2 x -> q1 = q2.
Proof.
  intros H1 H2 (t1 & Ht1 & Ho1 & Hn1)%(holds_owner _ _ _ H1) (t2 & Ht2 & Ho2 & Hn2)%(holds_owner _ _ _ H2). simplify_eq.
  apply (inv_id_inj _ _ HI q1 q2 _ _ (skel_sched _ _ _ H1) (skel_sched _ _ _ H2)); cbn; congruence.
Qed.
End Placement.

(** C8: in every reachable state a task is in a tree of a scheduler, or current
    there, exactly when its owner word is the identity of that scheduler; it is
    in only one of these places and in only one scheduler; and each tree lists
    its tasks by strictly increasing keys. *)
Theorem task_is_where_its_owner_word_says profile s : rtc (eevdf_step profile) eevdf_boot s ->
  forall q c, schedulers s !! q = Some c ->
  (forall x t, tasks s !! x = Some t -> holds c x <-> queue_owner t = sched_id c /\ sched_id c <> UNOWNED) /\
  (forall x, ~ (x ∈ ready_tree c /\ x ∈ throttled_tree c) /\ (running c = Some x -> x ∉ ready_tree c /\ x ∉ throttled_tree c)) /\
  (forall x q' c', schedulers s !! q' = Some c' -> holds c x -> holds c' x -> q' = q) /\
  (forall w, StronglySorted (fun x y => key_lt (key_in (tasks s) x) (key_in (tasks s) y) = true) (tree_of w c)).
Proof.
  intros HI%good_history q c Hc. split_and!.
  - intros x t Ht. split; [|by intros []; eapply owner_holds]. intros (t' & Ht' & H)%(holds_owner s HI q c x Hc). by simplify_eq.
  - intros x. by eapply holds_once.
  - intros x q' c' Hc' Hx Hx'. by eapply (holds_apart s HI q' q).
  - intros w. apply ordered_tasks. rewrite <- ktree_skel. eapply inv_ordered; [done|]. by apply skel_sched.
Qed.

Lemma task_is_where_its_owner_word_says_witness :
  exists c, schedulers (after demo_profile two_fair) !! 0%nat = Some c /\ running c = Some 1%nat /\ ready_tree c = [0%nat] /\ sched_id c = 1 /\
    forall x t, tasks (after demo_profile two_fair) !! x = Some t -> holds c x <-> queue_owner t = 1 /\ 1 <> UNOWNED.
Proof.
  assert (rtc (eevdf_step demo_profile) eevdf_boot (after demo_profile two_fair)) as Hs by (apply after_steps; [repeat constructor|vm_compute; by eexists]).
  destruct (schedulers (after demo_profile two_fair) !! 0%nat) as [c|] eqn:Hc; [|vm_compute in Hc; done]. exists c.
  pose proof (task_is_where_its_owner_word_says demo_profile _ Hs 0 c Hc) as [H _].
  assert (running c = Some 1%nat /\ ready_tree c = [0%nat] /\ sched_id c = 1) as (E1 & E2 & E3) by (vm_compute in Hc; by injection Hc as <-).
  rewrite E3 in H. exact (conj eq_refl (conj E1 (conj E2 (conj E3 H)))).
Defined.

(** C9: no sequence of calls overdraws a ledger: the shared utilization of an
    admission domain never exceeds its capacity, and the local utilization of a
    scheduler never exceeds one processor. *)
Theorem no_history_overdraws_a_ledger profile s : rtc (eevdf_step profile) eevdf_boot s ->
  (forall d v, domains s !! d = Some v -> dom_utilization v <= dom_capacity v) /\
  (forall q c, schedulers s !! q = Some c -> deadline_utilization c <= DEADLINE_UTIL_SCALE).
Proof.
  intros Hs. assert (ledgers_ok s) as (Hd & Hc & _) by (eapply history_keeps_ledgers; [|done]; repeat split; constructor).
  split; [intros d v Hv; exact (Forall_lookup_1 _ _ _ _ Hd Hv)|intros q c Hv; exact (Forall_lookup_1 _ _ _ _ Hc Hv)].
Qed.

Definition admitted_deadline : list event :=
  [NewDomain 1; NewScheduler; NewTask; CallOn 0 (CallBindDomain 0); CallOn 0 (CallStageDeadline 0 (mkDeadline 25 100 120));
   CallOn 0 (CallSetParams 0 deadline_params); CallOn 0 (CallEnqueue 0 New)].
Lemma no_history_overdraws_a_ledger_witness :
  exists v, domains (after demo_profile admitted_deadline) !! 0%nat = Some v /\ dom_utilization v = 208333334 /\ dom_utilization v <= dom_capacity v.
Proof.
  assert (rtc (eevdf_step demo_profile) eevdf_boot (after demo_profile admitted_deadline)) as Hs by (apply after_steps; [repeat constructor; done|vm_compute; by eexists]).
  destruct (domains (after demo_profile admitted_deadline) !! 0%nat) as [v|] eqn:Hv; [|vm_compute in Hv; done]. exists v.
  assert (dom_utilization v = 208333334) as E by (vm_compute in Hv; by injection Hv as <-).
  exact (conj eq_refl (conj E (proj1 (no_history_overdraws_a_ledger demo_profile _ Hs) 0%nat v Hv))).
Defined.

(** C13: against any interference on the shared word, the loop of
    [DeadlineAdmissionDomain::replace] either stores exactly once, what the
    atomic [replace] stores from the word at that moment, or stores nothing and
    returns the error [replace] returns for a value the word had; and one
    undisturbed attempt ends it. *)
Theorem admission_loop_is_atomic capacity old new current env : old <= u64_MAX -> new <= u64_MAX ->
  match replace_loop capacity old new current env with
  | Some (Ok _, w) => exists before after, w = Some (before, after) /\
      before ∈ (Atomics.contents <$> env) /\ replace old new (mkDomain before capacity) = Ok (mkDomain after capacity)
  | Some (Err e, w) => w = None /\ exists word, word ∈ current :: (Atomics.contents <$> env) /\ replace old new (mkDomain word capacity) = Err e
  | None => exists word, forall env', exists out, replace_loop capacity old new current (env ++ mkAttempt word false :: env') = Some out
  end.
Proof.
  intros Ho Hn. assert (forall word, replace old new (mkDomain word capacity) =
    match replace_total capacity old new word with Ok total => Ok (mkDomain total capacity) | Err e => Err e end) as Hr.
  { intros word. unfold replace, u64_try_from. destruct (Z.leb_spec old u64_MAX); [|lia]. by destruct (Z.leb_spec new u64_MAX); [|lia]. }
  revert current. induction env as [|a env IH]; intros current; cbn [replace_loop app].
  - destruct (replace_total capacity old new current) as [total|e] eqn:Ht.
    + exists current. intros env'. cbn [replace_loop app]. rewrite ?Ht. cbn. rewrite Z.eqb_refl. eauto.
    + split; [done|]. exists current. rewrite Hr, Ht. split; [left|done].
  - destruct (replace_total capacity old new current) as [total|e] eqn:Ht; [|split; [done|]; exists current; rewrite Hr, Ht; split; [left|done]].
    destruct ((Atomics.contents a =? current) && negb (spurious a)) eqn:Ha.
    + apply andb_true_iff in Ha as [<-%Z.eqb_eq _]. exists (Atomics.contents a), total. rewrite Hr, Ht. split_and!; [done|left|done].
    + specialize (IH (Atomics.contents a)). destruct (replace_loop _ _ _ _ env) as [[[r|e] w]|].
      * destruct IH as (before & after & -> & Hin & E). exists before, after. split_and!; [done|by right|done].
      * destruct IH as (-> & word & Hin & E). split; [done|]. exists word. split; [by right|done].
      * destruct IH as [word IH]. exists word. intros env'. cbn [replace_loop app]. rewrite ?Ht, ?Ha. apply IH.
Qed.
Lemma admission_loop_is_atomic_witness :
  exists before after, Some (60, 80) = Some (before, after) /\
    before ∈ (Atomics.contents <$> [mkAttempt 70 false; mkAttempt 60 true; mkAttempt 60 false]) /\
    replace 10 30 (mkDomain before 100) = Ok (mkDomain after 100).
Proof.
  exact (admission_loop_is_atomic 100 10 30 50 [mkAttempt 70 false; mkAttempt 60 true; mkAttempt 60 false] ltac:(done) ltac:(done)).
Defined.

(** ** Round robin in bulk *)

(** [n + 1] single ticks, the answer being whether one of them asked for a
    reschedule *)
Fixpoint rr_single_ticks (q x n : nat) : Op bool :=
  match n with
  | O => rr_service_transaction q x 1 0
  | S n => b ← rr_single_ticks q x n; b' ← rr_service_transaction q x 1 0; mret (b || b')
  end.

Lemma rr_renewed_succ slice c : 0 < slice -> 0 <= c ->
  rr_renewed slice (c + 1) = if rr_renewed slice c =? 1 then slice else rr_renewed slice c - 1.
Proof.
  intros Hs Hc. unfold rr_renewed. pose proof (Z.mod_pos_bound c slice Hs) as Hm.
  assert ((c + 1) mod slice = if c mod slice + 1 =? slice then 0 else c mod slice + 1) as ->.
  { rewrite <- Zplus_mod_idemp_l. destruct (Z.eqb_spec (c mod slice + 1) slice) as [->|]; [apply Z_mod_same_full|apply Z.mod_small; lia]. }
  destruct (Z.eqb_spec (c mod slice) 0) as [E|E].
  - rewrite E. destruct (Z.eqb_spec (0 + 1) slice); cbn [Z.eqb]; [subst; done|].
    destruct (Z.eqb_spec slice 1); [lia|]. destruct (Z.eqb_spec (0 + 1) 0); lia.
  - destruct (Z.eqb_spec (c mod slice + 1) slice); destruct (Z.eqb_spec (slice - c mod slice) 1); try lia; [done|].
    destruct (Z.eqb_spec (c mod slice + 1) 0); lia.
Qed.
Lemma rr_renewed_pos slice c : 0 < slice -> 0 < rr_renewed slice c.
Proof. intros Hs. unfold rr_renewed. pose proof (Z.mod_pos_bound c slice Hs). destruct (_ =? 0); lia. Qed.
(** One more tick *)
Lemma rr_budget_succ slice before n f higher same : 0 < slice -> 0 <= before -> 1 <= n ->
  rr_budget slice before (n + 1) f higher same =
  let '(r, f', b) := rr_budget slice before n f higher same in
  let '(r', f'', b') := rr_budget slice r 1 f' higher same in (r', f'', b || b').
Proof.
  intros Hs Hb Hn. assert (rr_renewed slice 0 = slice) as H0 by (unfold rr_renewed; by rewrite Z.mod_0_l by lia).
  assert (forall c, 0 <= c -> rr_budget slice (rr_renewed slice c) 1 f false false = (rr_renewed slice (c + 1), f, false)) as Hstep.
  { intros c Hc. pose proof (rr_renewed_pos slice c Hs). rewrite rr_renewed_succ by done. unfold rr_budget.
    destruct (Z.eqb_spec (rr_renewed slice c) 0); [lia|]. destruct (Z.ltb_spec 1 (rr_renewed slice c)); destruct (Z.eqb_spec (rr_renewed slice c) 1); try lia; [done|].
    by replace (1 - rr_renewed slice c) with 0 by lia; rewrite H0. }
  unfold rr_budget at 1 2. destruct higher.
  - destruct (Z.eqb_spec before 0), (Z.leb_spec before n), (Z.leb_spec before (n + 1)); cbn; try done; try lia; unfold rr_budget;
      destruct (Z.eqb_spec (before - n) 0), (Z.leb_spec (before - n) 1); cbn; try lia; try done. by replace (before - (n + 1)) with (before - n - 1) by lia.
  - destruct (Z.eqb_spec before 0) as [->|].
    + destruct same; [done|]. rewrite (Z.max_r 0 (n + 1 - 1)), (Z.max_r 0 (n - 1)) by lia. rewrite Hstep by lia. by replace (n - 1 + 1) with (n + 1 - 1) by lia.
    + destruct (Z.ltb_spec n before), (Z.ltb_spec (n + 1) before); try lia.
      * unfold rr_budget. destruct (Z.eqb_spec (before - n) 0), (Z.ltb_spec 1 (before - n)); try lia. cbn. by replace (before - (n + 1)) with (before - n - 1) by lia.
      * unfold rr_budget. destruct (Z.eqb_spec (before - n) 0), (Z.ltb_spec 1 (before - n)); try lia. destruct same; [done|]. cbn.
        by replace (n + 1 - before) with 0 by lia; replace (1 - (before - n)) with 0 by lia.
      * destruct same; [done|]. rewrite Hstep by lia. by replace (n - before + 1) with (n + 1 - before) by lia.
Qed.

Section Bulk.
Context (q x : nat).

(** What the comparisons with the front of the ready tree answer *)
Definition front_key (s : Eevdf) : option EevdfReadyKey :=
  c ← schedulers s !! q; y ← head (ready_tree c); t ← tasks s !! y; Some (key t).
Definition front_valid (s : Eevdf) : Prop := exists c, schedulers s !! q = Some c /\ forall y, head (ready_tree c) = Some y -> is_Some (tasks s !! y).
Definition higher_in (s : Eevdf) (priority : Z) : bool :=
  match front_key s with
  | Some k => (class_rank k =? DEADLINE_CLASS_RANK) || ((class_rank k =? RT_CLASS_RANK) && (key_order k <? rt_order priority))
  | None => false
  end.
Definition same_in (s : Eevdf) (priority : Z) : bool :=
  match front_key s with Some k => (class_rank k =? RT_CLASS_RANK) && (key_order k =? rt_order priority) | None => false end.
Lemma front_done s : front_valid s -> exists o, front_task q s = Done o s /\ key <$> o = front_key s.
Proof.
  intros (c & Hc & Hv). unfold front_task, front_key, tree_front, sched_at, task_at, gets, mbind, M_bind, option_bind, expect. rewrite Hc. cbn.
  destruct (head (ready_tree c)) as [y|] eqn:Hy; [|by exists None]. destruct (Hv y eq_refl) as [t Ht]. rewrite Ht. by exists (Some t).
Qed.
Lemma has_higher_done s priority : front_valid s -> has_higher_rt q priority s = Done (higher_in s priority) s.
Proof.
  intros (o & Ho & Hk)%front_done. unfold has_higher_rt, higher_in, mbind, M_bind. rewrite Ho, <- Hk. by destruct o.
Qed.
Lemma has_same_done s priority : front_valid s -> has_same_rt q priority s = Done (same_in s priority) s.
Proof.
  intros (o & Ho & Hk)%front_done. unfold has_same_rt, same_in, mbind, M_bind. rewrite Ho, <- Hk. by destruct o.
Qed.
Lemma front_frame s t t' : tasks s !! x = Some t -> key t' = key t ->
  front_key (set_task x t' s) = front_key s /\ (front_valid s -> front_valid (set_task x t' s)).
Proof.
  intros Ht Hk. assert (x < length (tasks s))%nat as Hx by (by eapply lookup_lt_Some). split.
  - unfold front_key. cbn. destruct (schedulers s !! q) as [c|]; [|done]. cbn. destruct (head (ready_tree c)) as [y|]; [|done]. cbn.
    destruct (decide (y = x)) as [->|]; [rewrite list_lookup_insert_eq, Ht by done; cbn; by rewrite Hk|by rewrite list_lookup_insert_ne].
  - intros (c & Hc & Hv). exists c. split; [done|]. intros y Hy. cbn. rewrite lookup_lt_is_Some, length_insert, <- lookup_lt_is_Some. by apply Hv.
Qed.

Definition rr_after (s : Eevdf) (t : EEVDFTask) (r f : Z) : Eevdf := set_task x (with_owned (with_rr_fraction f) (with_rr r t)) s.
Lemma rr_service_done s t n : tasks s !! x = Some t -> is_rr_class (class (load_sched_params t)) = true -> front_valid s ->
  0 <= rr_fraction_q (owned t) < ONE -> 1 <= n <= u128_MAX ->
  rr_service_transaction q x n 0 s =
  let p := rt_priority (load_sched_params t) in
  let '(r, f, b) := rr_budget (rr_ticks s) (rr_remaining t) n (rr_fraction_q (owned t)) (higher_in s p) (same_in s p) in
  Done b (rr_after s t r f).
Proof.
  intros Ht Hrr Hv Hf Hn. unfold rr_service_transaction, mbind, M_bind. destruct (Z.eqb_spec n 0); [lia|]. cbn [andb].
  unfold task_at at 1, gets, mbind, M_bind, expect. rewrite Ht. cbn -[rr_budget]. rewrite Hrr. cbn [negb].
  destruct (Z.leb_spec ONE (rr_fraction_q (owned t))); [lia|]. unfold some_or, checked_add_u128. rewrite Z.add_0_r.
  assert (ONE <= u128_MAX) by done. destruct (Z.leb_spec (rr_fraction_q (owned t)) u128_MAX); [|lia]. cbn -[rr_budget has_higher_rt has_same_rt ONE u128_MAX].
  rewrite Z.div_small, Z.mod_small, Z.add_0_r by done. destruct (Z.leb_spec n u128_MAX); [|lia]. cbn -[rr_budget has_higher_rt has_same_rt]. rewrite has_higher_done, has_same_done by done.
  destruct (rr_budget _ _ _ _ _ _) as [[r f] b]. unfold update_owned, update_task, task_at, gets, mbind, M_bind, expect, modify. rewrite Ht. cbn -[set_task].
  rewrite (lookup_set_task _ _ _ _ Ht). cbn -[set_task]. by rewrite rewrite_task.
Qed.

Lemma rr_budget_fraction slice before n f higher same r f' b : rr_budget slice before n f higher same = (r, f', b) -> f' = f \/ f' = 0.
Proof. unfold rr_budget. repeat case_match; intros [= <- <- <-]; auto. Qed.
Lemma rr_budget_nonneg slice before n f higher same r f' b : 0 < slice -> 0 <= before -> rr_budget slice before n f higher same = (r, f', b) -> 0 <= r.
Proof.
  intros Hs Hb. unfold rr_budget. pose proof (rr_renewed_pos slice (Z.max 0 (n - 1)) Hs). pose proof (rr_renewed_pos slice (n - before) Hs).
  repeat case_match; intros [= <- <- <-]; repeat match goal with H : (_ || _) = false |- _ => apply orb_false_iff in H as [? ?] end; lia.
Qed.

(** Bulk and single ticks agree, for a task that is round robin. *)
Lemma rr_bulk_ticks s t n : tasks s !! x = Some t -> is_rr_class (class (load_sched_params t)) = true -> front_valid s ->
  0 <= rr_fraction_q (owned t) < ONE -> 0 <= rr_remaining t -> 0 < rr_ticks s -> Z.of_nat n < u128_MAX ->
  rr_service_transaction q x (Z.of_nat n + 1) 0 s = rr_single_ticks q x n s.
Proof.
  intros Ht Hrr Hv Hf Hb Hs. induction n as [|n IH]; intros Hn; [done|]. cbn [rr_single_ticks]. unfold mbind at 1, M_bind at 1.
  rewrite <- IH by lia. rewrite Nat2Z.inj_succ. unfold Z.succ. rewrite (rr_service_done s t (Z.of_nat n + 1)), (rr_service_done s t) by (done || lia). cbv zeta.
  rewrite rr_budget_succ by lia.
  destruct (rr_budget (rr_ticks s) (rr_remaining t) (Z.of_nat n + 1) _ _ _) as [[r f] b] eqn:Hbud.
  assert (tasks (rr_after s t r f) !! x = Some (with_owned (with_rr_fraction f) (with_rr r t))) as Ht' by (by eapply lookup_set_task).
  destruct (front_frame s t (with_owned (with_rr_fraction f) (with_rr r t)) Ht eq_refl) as [Hk Hv'].
  unfold mbind, M_bind. rewrite (rr_service_done _ _ 1 Ht'); [|done|by apply Hv'|destruct (rr_budget_fraction _ _ _ _ _ _ _ _ _ Hbud) as [->| ->]; [done|by split]|done].
  unfold higher_in, same_in. fold (rr_after s t r f) in Hk. rewrite Hk. cbn [rr_remaining rr_fraction_q owned with_owned with_rr with_rr_fraction]. cbv zeta.
  change (load_sched_params (with_owned _ (with_rr r t))) with (load_sched_params t). change (rr_ticks (rr_after s t r f)) with (rr_ticks s).
  destruct (rr_budget (rr_ticks s) r 1 f _ _) as [[r' f''] b']. cbn -[set_task]. unfold rr_after. by rewrite rewrite_task.
Qed.
End Bulk.

(** C12: a round-robin task served [n + 1] ticks at once is in the state [n + 1]
    single ticks leave, and asks for a reschedule exactly when one of them does,
    whatever waits at the front of the ready tree. *)
Theorem rr_bulk_is_single_ticks profile s q c x t n : rtc (eevdf_step profile) eevdf_boot s ->
  schedulers s !! q = Some c -> tasks s !! x = Some t -> is_rr_class (class (load_sched_params t)) = true ->
  0 <= rr_fraction_q (owned t) < ONE -> 0 <= rr_remaining t -> 0 < rr_ticks s -> Z.of_nat n < u128_MAX ->
  tick_rt_bulk q x (Z.of_nat n + 1) s = must_op (rr_single_ticks q x n) s.
Proof.
  intros HI%good_history Hc Ht Hrr Hf Hb Hs Hn. unfold tick_rt_bulk, must_op. erewrite rr_bulk_ticks; [done|done|done| |done..].
  exists c. split; [done|]. intros y Hy. destruct (holds_owner s HI q c y Hc) as (ty & Hty & _); [|by eexists].
  left. destruct (ready_tree c); [done|]. injection Hy as ->. left.
Qed.
Lemma rr_bulk_is_single_ticks_witness : exists c t,
  schedulers (after demo_profile two_rr) !! 0%nat = Some c /\ tasks (after demo_profile two_rr) !! 0%nat = Some t /\ running c = Some 0%nat /\ rr_remaining t = 5 /\
  tick_rt_bulk 0 0 (Z.of_nat 6 + 1) (after demo_profile two_rr) = must_op (rr_single_ticks 0 0 6) (after demo_profile two_rr).
Proof.
  assert (rtc (eevdf_step demo_profile) eevdf_boot (after demo_profile two_rr)) as Hs by (apply after_steps; [repeat constructor|vm_compute; by eexists]).
  destruct (schedulers (after demo_profile two_rr) !! 0%nat) as [c|] eqn:Hc; [|vm_compute in Hc; done].
  destruct (tasks (after demo_profile two_rr) !! 0%nat) as [t|] eqn:Ht; [|vm_compute in Ht; done]. exists c, t.
  assert (running c = Some 0%nat) as E1 by (vm_compute in Hc; by injection Hc as <-).
  assert (rr_remaining t = 5 /\ is_rr_class (class (load_sched_params t)) = true /\ rr_fraction_q (owned t) = 0) as (E2 & E3 & E4)
    by (vm_compute in Ht; injection Ht as <-; split_and!; vm_compute; reflexivity).
  split; [reflexivity|]. split; [reflexivity|]. split; [exact E1|]. split; [exact E2|].
  apply (rr_bulk_is_single_ticks demo_profile _ 0 c 0 t 6 Hs Hc Ht E3); [rewrite E4; split; [apply Z.le_refl|reflexivity]|rewrite E2; discriminate|vm_compute; reflexivity|reflexivity].
Defined.

(** ** Accounting *)

Lemma model_bind_value {E A B} (m : comp E A) (f : A -> comp E B) b : m ≫= f = Value b -> exists a, m = Value a /\ f a = Value b.
Proof. destruct m as [a| |]; cbn; try done. eauto. Qed.
Lemma value_option {E A} (o : option A) (e : E) a : ok_or_else o e = Value a -> o = Some a.
Proof. destruct o; cbn; congruence. Qed.
Lemma done_run {S E A} (m : comp E A) (s : S) a s' : run m s = Done a s' -> m = Value a /\ s' = s.
Proof. destruct m; cbn; try done. by intros [= -> ->]. Qed.
Lemma add_u128_value a b c : checked_add_u128 a b = Some c -> c = a + b.
Proof. unfold checked_add_u128. case_match; congruence. Qed.
Lemma preview_accounts c work ticks n : preview_work_with_ticks c work ticks = Value n -> adv_accounted_ticks n = accounted_ticks c + ticks.
Proof.
  unfold preview_work_with_ticks, preview_product. destruct (work =? 0).
  - intros (t & Ht%value_option%add_u128_value & [= <-])%model_bind_value. done.
  - destruct (total_weight c =? 0); [done|]. destruct (total_weight c <=? clock_remainder c); [done|]. intros ([d r] & _ & H)%model_bind_value.
    destruct (overflowing_add_u128 _ _). apply model_bind_value in H as ([d' r'] & _ & H). cbv beta iota in H.
    do 3 apply model_bind_value in H as (? & _ & H). apply model_bind_value in H as (t & Ht%value_option%add_u128_value & H). injection H as <-. done.
Qed.
Lemma service_accounts ticks fraction e c e' c' : on_copy (service ticks fraction) (e, c) = Value (e', c') ->
  accounted_ticks c' = accounted_ticks c + ticks.
Proof.
  unfold on_copy. destruct (service ticks fraction (e, c)) as [d s'| | |] eqn:H; try done. intros [= ->].
  unfold service in H. apply done_bind in H as ([e1 c1] & s1 & [= <- <- <-] & H). cbv beta iota in H.
  destruct (ONE <=? fraction); [done|]. destruct (Z.eqb_spec ticks 0) as [Ht|Ht]; cbn [andb] in H; [destruct (fraction =? 0); [injection H as <- <- <-; lia|]|].
  all: destruct (ent_weight e =? 0); [done|]; destruct (is_sleeping e); [done|]; apply done_bind in H as (w & s1 & [_ ->]%done_run & H).
  all: apply done_bind in H as (fw & s1 & [_ ->]%done_some_or & H); apply done_bind in H as (sw & s1 & [_ ->]%done_some_or & H).
  all: apply done_bind in H as (n & s1 & [Hn%preview_accounts ->]%done_run & H); apply done_bind in H as (l & s1 & [_ ->]%done_run & H).
  all: apply done_bind in H as (wk & s1 & [_ ->]%done_run & H); apply done_bind in H as (nl & s1 & [_ ->]%done_some_or & H).
  all: apply done_bind in H as (nr & s1 & [_ ->]%done_run & H); cbn in H; injection H as <- <- <-; done.
Qed.

Lemma done_steps {E A} R (m : M Eevdf E A) s a s' : steps R m -> m s = Done a s' -> R s s'.
Proof. intros Hm H. specialize (Hm s). by rewrite H in Hm. Qed.

Section Accounting.
Context (profile : EevdfProfile) (q x : nat).

(** What the accounting of the current task reads: the current task, the
    parameters, the pending runtime with its residue, and the service clock *)
Definition account_view (s : Eevdf) : option (option nat * Z * Z * RuntimeFraction * Z) :=
  c ← schedulers s !! q; t ← tasks s !! x;
  Some (running c, params t, runtime_remainder_ns (owned t), fraction (owned t), accounted_ticks (clock c)).
Definition same_view (s s' : Eevdf) : Prop := account_view s' = account_view s.
#[local] Instance same_view_preorder : PreOrder same_view.
Proof. split; unfold same_view; repeat intro; congruence. Qed.
Definition task_view (t : EEVDFTask) : Z * Z * RuntimeFraction := (params t, runtime_remainder_ns (owned t), fraction (owned t)).
Lemma view_set_task s y t t' : tasks s !! y = Some t -> task_view t' = task_view t -> account_view (set_task y t' s) = account_view s.
Proof.
  intros Ht Hv. unfold account_view. cbn. destruct (schedulers s !! q); [|done]. cbn. destruct (decide (x = y)) as [->|]; [|by rewrite list_lookup_insert_ne].
  rewrite list_lookup_insert_eq by (by eapply lookup_lt_Some). rewrite Ht. unfold task_view in Hv. cbn. by injection Hv as -> -> ->.
Qed.
Lemma view_task {E} y f : (forall t, task_view (f t) = task_view t) -> steps same_view (update_task (E := E) y f).
Proof. intros Hf. apply steps_update_task. intros s t Ht. by eapply view_set_task. Qed.
Lemma view_sched {E} q' f : (forall c, (running (f c), clock (f c)) = (running c, clock c)) -> steps same_view (update_sched (E := E) q' f).
Proof.
  intros Hf. apply steps_update_sched. intros s c Hc. unfold same_view, account_view. cbn. destruct (decide (q = q')) as [->|]; [|by rewrite list_lookup_insert_ne].
  rewrite list_lookup_insert_eq by (by eapply lookup_lt_Some). rewrite Hc. cbn. by injection (Hf c) as -> ->.
Qed.
Ltac view_steps :=
  repeat (cbv beta zeta;
    match goal with
    | |- steps _ (_ ≫= _) => apply steps_bind; [apply _| |intros ?]
    | |- steps _ (update_task _ _) => apply view_task; intros ?; reflexivity
    | |- steps _ (update_owned _ _) => apply view_task; intros ?; reflexivity
    | |- steps _ (update_sched _ (with_tree ?w _)) => apply view_sched; intros ?; destruct w; reflexivity
    | |- steps _ (update_sched _ _) => apply view_sched; intros ?; reflexivity
    | |- steps _ (with_err _ _) => apply steps_with_err
    | |- steps _ (must_op _) => apply steps_must_op
    | |- steps _ (must_remove _ _ _) => apply steps_must_remove
    | |- steps _ (match ?x with _ => _ end) => destruct x
    | |- steps _ _ => solve [eauto 2 with steps typeclass_instances]
    | |- steps _ _ => steps_unfold
    end).
Lemma replenish_view fuel : steps same_view (replenish_loop q fuel).
Proof. induction fuel; cbn [replenish_loop]; view_steps; auto. Qed.
#[local] Hint Resolve replenish_view : steps.
Lemma has_ready_rt_reads : steps eq (has_ready_rt q).
Proof. view_steps. Qed.
Lemma validate_owner_reads p o : steps eq (validate_runtime_fraction_owner p o).
Proof. view_steps. Qed.

Lemma serve_accounts e now others ticks f s b e' c' s' : serve profile e now others ticks f s = Done (b, (e', c')) s' ->
  s' = s /\ accounted_ticks c' = accounted_ticks now + ticks.
Proof.
  unfold serve. destruct (is_exhausted (ent_request e) && others); intros H; done_inv; simplify_eq; [split; [done|by eapply service_accounts]|].
  destruct (is_exhausted (ent_request e)); done_inv; simplify_eq; (split; [done|by eapply service_accounts]).
Qed.
Lemma view_clock s c c' r p n fr a : schedulers s !! q = Some c -> account_view s = Some (r, p, n, fr, a) ->
  account_view (set_sched q (with_clock c' c) s) = Some (r, p, n, fr, accounted_ticks c') /\ accounted_ticks (clock c) = a.
Proof.
  intros Hc. unfold account_view. cbn. rewrite list_lookup_insert_eq by (by eapply lookup_lt_Some). rewrite Hc. cbn.
  destruct (tasks s !! x) as [t|]; [|done]. cbn. by intros [= <- <- <- <- <-].
Qed.
Lemma fair_service_accounts ticks f s b s' r p n fr a : account_view s = Some (r, p, n, fr, a) ->
  fair_service_transaction profile q x ticks f s = Done b s' -> account_view s' = Some (r, p, n, fr, a + ticks).
Proof.
  intros Hv. unfold fair_service_transaction. destruct ((ticks =? 0) && (f =? 0)) eqn:Hz.
  { apply andb_true_iff in Hz as [->%Z.eqb_eq _]. intros [_ ->]%done_ret. by rewrite Z.add_0_r. }
  intros H. done_inv. destruct a3 as [bd [e' c']]. apply serve_accounts in H3 as [-> Hacc].
  apply done_bind in H as (rt & s4 & Ho & H). apply (done_steps eq) in Ho; [subst s4|apply has_ready_rt_reads].
  apply done_bind in H as (o & s4 & Ho & H). apply (done_steps eq) in Ho; [subst s4|destruct rt; view_steps].
  apply done_bind in H as ([ex e''] & s4 & Ho & H). apply (done_steps eq) in Ho; [subst s4|view_steps].
  apply done_bind in H as ([] & s4 & (c & Hc & ->)%done_update_sched & H). apply done_bind in H as ([] & s5 & Hu & [_ ->]%done_ret).
  apply (done_steps same_view) in Hu; [|view_steps]. unfold same_view in Hu. rewrite Hu. rewrite H2 in Hc. injection Hc as <-.
  destruct (view_clock _ _ c' _ _ _ _ _ H2 Hv) as [-> <-]. by rewrite Hacc.
Qed.

(** What a sample adds beyond its length: nothing, or less than a nanosecond per
    [ONE] nanoseconds of the period, when the residue rounds a period up. *)
Definition sample_excess (period : Z) : Z := (period - 1) / ONE.
Lemma split_sample_bounds o e period n rem res : 0 < period -> 0 <= runtime_remainder_ns o -> 0 <= e ->
  (old_residue o period < period) -> split_sample o e period = Some (n, rem, res) ->
  runtime_remainder_ns o + e <= n * period + rem <= runtime_remainder_ns o + e + sample_excess period /\ 0 <= rem < period.
Proof.
  intros Hp Hr He Hres. unfold split_sample, mbind, option_bind. destruct (checked_add_u128 _ e) as [total|] eqn:Ht; [|done]. apply add_u128_value in Ht as ->.
  pose proof (Z.mod_pos_bound (runtime_remainder_ns o + e) period Hp) as Hm. set (total := runtime_remainder_ns o + e) in *.
  destruct (checked_mul_u128 (total mod period) ONE) as [v|] eqn:Hv; [|done]. unfold checked_mul_u128 in Hv. case_match; [|done]. injection Hv as <-.
  destruct (checked_add_u128 _ (old_residue o period)) as [num|] eqn:Hn; [|done]. apply add_u128_value in Hn as ->.
  pose proof (Z.div_mod total period ltac:(lia)) as Ediv. assert (0 <= sample_excess period) by (apply Z.div_pos; [lia|done]).
  destruct (Z.leb_spec ONE ((total mod period * ONE + old_residue o period) / period)) as [Hbig|Hsmall].
  - destruct (checked_add_u128 (total / period) _) as [k|] eqn:Hk; [|done]. apply add_u128_value in Hk as ->. intros [= <- <- _].
    assert (ONE * period <= total mod period * ONE + old_residue o period) as Hnum
      by (apply Z.mul_le_mono_nonneg_r with (p := period) in Hbig; [|lia]; pose proof (Z.mul_div_le (total mod period * ONE + old_residue o period) period Hp); lia).
    assert (period - total mod period <= sample_excess period) as Hex by (apply Z.div_le_lower_bound; [done|lia]).
    assert ((total mod period * ONE + old_residue o period) / period / ONE = 1) as ->.
    { assert ((total mod period * ONE + old_residue o period) / period < 2 * ONE) by (apply Z.div_lt_upper_bound; [lia|]; unfold ONE in *; nia).
      symmetry. apply (Z.div_unique _ ONE 1 ((total mod period * ONE + old_residue o period) / period - ONE)); lia. }
    split; [|lia]. nia.
  - intros [= <- <- _]. split; [|done]. lia.
Qed.

Lemma view_lookup s r p n fr a : account_view s = Some (r, p, n, fr, a) -> exists c t, schedulers s !! q = Some c /\ tasks s !! x = Some t /\
  running c = r /\ params t = p /\ runtime_remainder_ns (owned t) = n /\ fraction (owned t) = fr /\ accounted_ticks (clock c) = a.
Proof.
  unfold account_view. destruct (schedulers s !! q) as [c|]; [|done]. cbn. destruct (tasks s !! x) as [t|]; [|done]. cbn. intros [= <- <- <- <- <-]. eauto 10.
Qed.
Lemma done_must_op {A} (m : Op A) s a s' : must_op m s = Done a s' -> m s = Done a s'.
Proof. unfold must_op. by destruct (m s). Qed.
Lemma ensure_running_again s c r s' : schedulers s !! q = Some c -> running c = Some x -> ensure_running profile q x s = Done r s' -> s' = s.
Proof.
  intros Hc Hr. unfold ensure_running, sched_at, gets, mbind, M_bind, expect. rewrite Hc. cbn -[validate_running]. rewrite Hr. rewrite bool_decide_true by done.
  intros H. symmetry. apply (done_steps eq) in H; [done|]. view_steps.
Qed.
Lemma residue_below o period : 0 < period ->
  negb (pending_consistent o period) || (negb (runtime_fraction_remainder_ns (fraction o) =? 0) && negb (runtime_fraction_period_ns (fraction o) =? period)) = false ->
  old_residue o period < period.
Proof.
  intros Hp H. unfold pending_consistent, old_residue in *. rewrite negb_involutive in H.
  destruct (Z.eqb_spec (runtime_fraction_period_ns (fraction o)) period) as [E|]; [|done]. rewrite E in H.
  destruct (Z.eqb_spec (runtime_fraction_remainder_ns (fraction o)) 0); [lia|]. destruct (Z.leb_spec period (runtime_fraction_remainder_ns (fraction o))); [|done].
  destruct (period <=? runtime_remainder_ns o), (negb (runtime_remainder_ns o =? 0)), (period =? 0); cbn in H; done.
Qed.
(** One sample of a fair current task *)
Lemma sample_step s e period b s' p n fr a : account_view s = Some (Some x, p, n, fr, a) -> is_rt_class (class (from_packed p)) = false ->
  0 < period -> 0 <= n -> 0 <= e -> account_runtime profile q x (mkDelta e period) s = Done b s' ->
  exists n' fr' a', account_view s' = Some (Some x, p, n', fr', a') /\ a * period + n + e <= a' * period + n' <= a * period + n + e + sample_excess period /\ 0 <= n' < period.
Proof.
  intros Hv Hrt Hp Hn He H. apply done_bind in H as ([] & s1 & H1%done_must_op & H%done_must_op).
  destruct (view_lookup _ _ _ _ _ _ Hv) as (c & t0 & Hc & _ & Hr & _). apply (ensure_running_again _ _ _ _ Hc Hr) in H1 as ->.
  unfold account_runtime_transaction in H. cbn [period_ns elapsed_ns] in H. destruct (Z.eqb_spec period 0); [lia|]. done_inv.
  apply done_steps with (R := same_view) in H2; [|view_steps]. apply done_steps with (R := same_view) in H3; [|view_steps].
  unfold same_view in *. rewrite <- H2 in Hv. rewrite <- H3 in Hv. clear H2 H3. rename a4 into t.
  destruct (view_lookup _ _ _ _ _ _ Hv) as (c1 & t1 & Hc1 & Ht1 & _ & Hpar & Hrem & _). rewrite H4 in Ht1. injection Ht1 as <-.
  assert (load_sched_params t = from_packed p) as Hlp by (unfold load_sched_params; by rewrite Hpar). rewrite Hlp in H.
  assert (is_deadline_class (class (from_packed p)) = false) as Hd by (by destruct (class (from_packed p))). rewrite Hd, Hrt in H.
  destruct (negb _ || _) eqn:Hcons in H; [done|]. apply residue_below in Hcons; [|lia].
  apply done_bind in H as ([] & s4 & Hval & H). apply (done_steps eq) in Hval; [subst s4|apply validate_owner_reads].
  apply done_bind in H as (w & s4 & [_ ->]%done_lift & H). apply done_bind in H as ([[periods rem] res] & s4 & [Hsplit ->]%done_some_or & H).
  apply split_sample_bounds in Hsplit as [Hex Hb]; [|lia..|done]. rewrite Hrem in Hex.
  apply done_bind in H as (resched & s4 & Hserve & H).
  assert (account_view s4 = Some (Some x, p, n, fr, a + periods)) as Hv4.
  { destruct (Z.eqb_spec periods 0) as [->|]; [|by eapply fair_service_accounts]. apply done_ret in Hserve as [_ ->]. by rewrite Z.add_0_r. }
  apply done_bind in H as ([] & s5 & (t4 & Ht4 & ->)%done_update_task & [_ ->]%done_ret).
  destruct (view_lookup _ _ _ _ _ _ Hv4) as (c4 & t4' & Hc4 & Ht4' & Hr4 & Hp4 & Hn4 & Hf4 & Ha4). rewrite Ht4 in Ht4'. injection Ht4' as <-.
  exists rem. eexists. exists (a + periods). split; [|lia]. unfold account_view. cbn. rewrite Hc4. cbn.
  rewrite list_lookup_insert_eq by (by eapply lookup_lt_Some). cbn. rewrite Hr4, Hp4, Ha4.
  assert (forall pp o, runtime_remainder_ns (publish_runtime_fraction_owner pp w res period o) = runtime_remainder_ns o) as ->
    by (intros pp o; unfold publish_runtime_fraction_owner; destruct (res =? 0); reflexivity). done.
Qed.

Fixpoint account_all (period : Z) (samples : list Z) : Op () :=
  match samples with [] => mret tt | e :: l => _ ← account_runtime profile q x (mkDelta e period); account_all period l end.
Lemma account_all_bounds period samples : 0 < period -> Forall (fun e => 0 <= e) samples -> forall s s' p n fr a,
  account_view s = Some (Some x, p, n, fr, a) -> is_rt_class (class (from_packed p)) = false -> 0 <= n -> account_all period samples s = Done tt s' ->
  exists n' fr' a', account_view s' = Some (Some x, p, n', fr', a') /\
    a * period + n + foldr Z.add 0 samples <= a' * period + n' <= a * period + n + foldr Z.add 0 samples + Z.of_nat (length samples) * sample_excess period.
Proof.
  intros Hp. induction 1 as [|e samples He _ IH]; intros s s' p n fr a Hv Hrt Hn; cbn [account_all foldr length].
  - intros [_ ->]%done_ret. exists n, fr, a. split; [done|lia].
  - intros (b & s1 & H1 & H)%done_bind. destruct (sample_step _ _ _ _ _ _ _ _ _ Hv Hrt Hp Hn He H1) as (n1 & fr1 & a1 & Hv1 & E1 & Hb).
    destruct (IH _ _ _ _ _ _ Hv1 Hrt ltac:(lia) H) as (n' & fr' & a' & Hv' & E'). exists n', fr', a'. split; [done|lia].
Qed.
End Accounting.

(** C11: while a fair task is current, its samples are accounted without loss:
    the ticks accounted by the service clock times the period, plus the runtime
    still pending on the task, grow by at least the sum of the samples, and by at
    most [(period - 1) / 2^32] nanoseconds more per sample; for a period of up to
    [2^32] nanoseconds (4.29 seconds) they grow by exactly the sum. *)
Theorem accounting_is_exact profile q x period samples s s' c t : 0 < period -> Forall (fun e => 0 <= e) samples ->
  schedulers s !! q = Some c -> running c = Some x -> tasks s !! x = Some t ->
  is_rt_class (class (load_sched_params t)) = false -> 0 <= runtime_remainder_ns (owned t) -> account_all profile q x period samples s = Done tt s' ->
  exists c' t', schedulers s' !! q = Some c' /\ tasks s' !! x = Some t' /\ running c' = Some x /\
    let before := accounted_ticks (clock c) * period + runtime_remainder_ns (owned t) in
    let after := accounted_ticks (clock c') * period + runtime_remainder_ns (owned t') in
    before + foldr Z.add 0 samples <= after <= before + foldr Z.add 0 samples + Z.of_nat (length samples) * ((period - 1) / ONE) /\
    (period <= ONE -> after = before + foldr Z.add 0 samples).
Proof.
  intros Hp Hs Hc Hr Ht Hrt Hn H.
  assert (account_view q x s = Some (Some x, params t, runtime_remainder_ns (owned t), fraction (owned t), accounted_ticks (clock c))) as Hv
    by (unfold account_view; rewrite Hc; cbn; rewrite Ht; cbn; by rewrite Hr).
  destruct (account_all_bounds profile q x period samples Hp Hs _ _ _ _ _ _ Hv Hrt Hn H) as (n' & fr' & a' & Hv' & E).
  destruct (view_lookup q x _ _ _ _ _ _ Hv') as (c' & t' & ? & ? & ? & _ & <- & _ & <-). exists c', t'. split_and!; [done..|]. cbv zeta.
  split; [exact E|]. intros Hsmall. unfold sample_excess in E. rewrite Z.div_small in E by lia. lia.
Qed.
Lemma accounting_is_exact_witness : exists s' c' t', account_all demo_profile 0 1 10000000 [25000000; 9999999; 7] (after demo_profile two_fair) = Done tt s' /\
  schedulers s' !! 0%nat = Some c' /\ tasks s' !! 1%nat = Some t' /\ accounted_ticks (clock c') * 10000000 + runtime_remainder_ns (owned t') = 35000006.
Proof.
  destruct (account_all demo_profile 0 1 10000000 [25000000; 9999999; 7] (after demo_profile two_fair)) as [[] s'| | |] eqn:H; [|vm_compute in H; discriminate H..].
  destruct (schedulers (after demo_profile two_fair) !! 0%nat) as [c|] eqn:Hc; [|vm_compute in Hc; discriminate Hc].
  destruct (tasks (after demo_profile two_fair) !! 1%nat) as [t|] eqn:Ht; [|vm_compute in Ht; discriminate Ht].
  assert (running c = Some 1%nat /\ accounted_ticks (clock c) = 0) as [E1 E2] by (vm_compute in Hc; injection Hc as <-; split; reflexivity).
  assert (is_rt_class (class (load_sched_params t)) = false /\ runtime_remainder_ns (owned t) = 0) as [E3 E4]
    by (vm_compute in Ht; injection Ht as <-; split; vm_compute; reflexivity).
  destruct (accounting_is_exact demo_profile 0 1 10000000 [25000000; 9999999; 7] (after demo_profile two_fair) s' c t) as (c' & t' & Hc' & Ht' & _ & E);
    [reflexivity|repeat constructor; discriminate|exact Hc|exact E1|exact Ht|exact E3|rewrite E4; discriminate|exact H|].
  destruct E as [_ E]. rewrite E2, E4 in E. specialize (E ltac:(discriminate)). exact (ex_intro _ s' (ex_intro _ c' (ex_intro _ t' (conj eq_refl (conj Hc' (conj Ht' E)))))).
Defined.

(** ** Selection *)

Lemma unbias_bias v : in_i128 v -> unbias_i128 (bias_i128 v) = v.
Proof.
  intros Hv. unfold unbias_i128, bias_i128. rewrite Z.lxor_assoc, Z.lxor_nilpotent, Z.lxor_0_r. unfold as_i128, wrap_u128, in_i128, i128_MIN, i128_MAX in *.
  destruct (Z.leb_spec 0 v).
  - rewrite Z.mod_small by lia. destruct (Z.ltb_spec 170141183460469231731687303715884105727 v); lia.
  - rewrite <- (Z.mod_unique v 340282366920938463463374607431768211456 (-1) (v + 340282366920938463463374607431768211456)) by lia.
    destruct (Z.ltb_spec 170141183460469231731687303715884105727 (v + 340282366920938463463374607431768211456)); lia.
Qed.

Section Order.
Context (ts : list EEVDFTask).
Abbreviation before_key := (fun x y => key_lt (key_in ts x) (key_in ts y) = true).

Lemma first_eligible_spec now l x : StronglySorted before_key l -> first_eligible ts now l = Some x ->
  x ∈ l /\ eligible_in ts x <= now /\ forall y, y ∈ l -> eligible_in ts y <= now -> y = x \/ before_key x y.
Proof.
  unfold first_eligible. induction 1 as [|z l Hs IH Hz]; [done|]. rewrite filter_cons. destruct (decide (eligible_in ts z <= now)) as [Hle|Hgt]; cbn.
  - intros [= ->]. split_and!; [left|done|]. intros y [->|Hy]%elem_of_cons _; [by left|]. right. rewrite Forall_forall in Hz. by apply Hz.
  - intros H. destruct (IH H) as (Hx & Hle & Hmin). split_and!; [by right|done|]. intros y [->|Hy]%elem_of_cons He; [done|auto].
Qed.
Lemma no_first_eligible now l : first_eligible ts now l = None <-> forall y, y ∈ l -> now < eligible_in ts y.
Proof.
  unfold first_eligible. induction l as [|z l IH]; [split; [by intros _ y ?%not_elem_of_nil|done]|]. rewrite filter_cons.
  destruct (decide (eligible_in ts z <= now)); cbn; split; try done.
  - intros H. specialize (H z (list_elem_of_here _ _)). lia.
  - intros H y [->|Hy]%elem_of_cons; [lia|]. by apply IH.
  - intros H. apply IH. intros y Hy. apply H. by right.
Qed.
Lemma least_eligible_spec l m : least_eligible ts l = Some m -> (exists y, y ∈ l /\ eligible_in ts y = m) /\ forall y, y ∈ l -> m <= eligible_in ts y.
Proof.
  destruct l as [|x l]; [done|]. cbn. intros [= <-]. induction l as [|y l IH]; cbn.
  - split; [exists x; split; [left|done]|]. intros y ->%list_elem_of_singleton. done.
  - destruct IH as [(z & Hz & E) Hmin]. set (m := foldr _ _ l) in *. split.
    + destruct (Z.min_spec (eligible_in ts y) m) as [[_ ->]|[_ ->]]; [exists y; split; [set_solver|done]|exists z; split; [set_solver|done]].
    + intros w Hw. assert (w = y \/ w ∈ x :: l) as [->|Hw'] by set_solver; [lia|]. specialize (Hmin w Hw'). lia.
Qed.
End Order.

(** The choice [x] and the instant of the clock it is made at: the least key, at
    the present instant, while a real-time or deadline task is ready; otherwise
    the least key among the tasks eligible at the instant, which is the present
    one when some task is eligible now, and else the earliest at which one is. *)
Definition urgent (ts : list EEVDFTask) (l : list nat) : Prop := exists y, y ∈ l /\ class_rank (key_in ts y) <= RT_CLASS_RANK.
Definition first_instant (ts : list EEVDFTask) (now : Z) (l : list nat) (instant : Z) : Prop :=
  ((exists y, y ∈ l /\ eligible_in ts y <= now) -> instant = now) /\
  ((forall y, y ∈ l -> now < eligible_in ts y) -> (exists y, y ∈ l /\ eligible_in ts y = instant) /\ forall y, y ∈ l -> instant <= eligible_in ts y).
Definition chosen (ts : list EEVDFTask) (now : Z) (l : list nat) (instant : Z) (x : nat) : Prop :=
  x ∈ l /\
  (urgent ts l -> instant = now /\ forall y, y ∈ l -> y = x \/ key_lt (key_in ts x) (key_in ts y) = true) /\
  (~ urgent ts l -> first_instant ts now l instant /\ eligible_in ts x <= instant /\
     forall y, y ∈ l -> eligible_in ts y <= instant -> y = x \/ key_lt (key_in ts x) (key_in ts y) = true).

Section Selection.
Context (q : nat).

Lemma bind_returns {E A B} (m : M Eevdf E A) (f : A -> M Eevdf E B) s a s' : m s = Done a s' -> (m ≫= f) s = f a s'.
Proof. intros H. unfold mbind, M_bind. by rewrite H. Qed.
Lemma sched_at_done {E} s c : schedulers s !! q = Some c -> sched_at (E := E) q s = Done c s.
Proof. intros Hc. unfold sched_at, gets, mbind, M_bind, expect. by rewrite Hc. Qed.
Lemma must_remove_done s c x : good (skel s) -> schedulers s !! q = Some c -> x ∈ ready_tree c ->
  exists t, tasks s !! x = Some t /\ queue_owner t = sched_id c /\
    must_remove q ReadyTree x s = Done x (set_sched q (with_ready (filter (fun y => y <> x) (ready_tree c)) c) (set_task x (with_linked false t) s)).
Proof.
  intros HI Hc Hx. destruct (inv_tree _ _ HI q ReadyTree x _ (skel_sched _ _ _ Hc) Hx) as (k & Hk & Hl & Ho). destruct (Ho ltac:(done)) as [Ho' _].
  cbn in Hk. rewrite list_lookup_fmap in Hk. destruct (tasks s !! x) as [t|] eqn:Ht; [|done]. injection Hk as <-. cbn in Hl, Ho'. exists t. split; [done|]. split; [done|].
  unfold must_remove, tree_remove, update_task, update_sched, task_at, sched_at, gets, mbind, M_bind, expect, modify. rewrite Ht. cbn. rewrite Hc. cbn.
  rewrite Hl, bool_decide_true by done. cbn. rewrite Ht. cbn. by rewrite Hc.
Qed.
Lemma pick_front s c x l : good (skel s) -> schedulers s !! q = Some c -> ready_tree c = x :: l ->
  class_rank (key_in (tasks s) x) <= RT_CLASS_RANK <-> urgent (tasks s) (x :: l).
Proof.
  intros HI Hc Hl. split; [intros H; exists x; split; [left|done]|]. intros (y & [->|Hy]%elem_of_cons & Hr); [done|].
  pose proof (inv_ordered _ _ HI q ReadyTree _ (skel_sched _ _ _ Hc)) as Ho. rewrite ktree_skel in Ho. cbn [tree_of] in Ho. rewrite Hl in Ho.
  apply ordered_tasks in Ho. apply StronglySorted_inv in Ho as [_ Hall]. rewrite Forall_forall in Hall. specialize (Hall y Hy). cbn in Hall.
  apply key_lt_spec in Hall. lia.
Qed.

(** [pick_ready] after the replenishment: the task it takes out, from a state
    with the same tasks whose clock may have jumped *)
Lemma has_ready_rt_done s c : good (skel s) -> schedulers s !! q = Some c ->
  has_ready_rt q s = Done (match ready_tree c with [] => false | x :: _ => class_rank (key_in (tasks s) x) <=? RT_CLASS_RANK end) s.
Proof.
  intros HI Hc. unfold has_ready_rt, front_task, tree_front, sched_at, task_at, gets, mbind, M_bind, expect. rewrite Hc. cbn.
  destruct (ready_tree c) as [|x l] eqn:Hl; cbn; [done|]. destruct (holds_owner s HI q c x Hc) as (t & Ht & _); [left; rewrite Hl; left|].
  rewrite Ht. cbn. unfold key_in. by rewrite Ht.
Qed.

(** What [must_remove] leaves for the rest of [pick_next_task] *)
Definition ready_to_run (x : nat) (i : Z) (now : Clock) (l : list nat) (s : Eevdf) : Prop :=
  exists t c, tasks s !! x = Some t /\ queue_owner t = i /\ schedulers s !! q = Some c /\ clock c = now /\ ready_tree c = filter (fun y => y <> x) l.
Lemma take_done s c x : good (skel s) -> schedulers s !! q = Some c -> x ∈ ready_tree c ->
  exists s', (y ← must_remove q ReadyTree x; mret (Some y)) s = Done (Some x) s' /\ ready_to_run x (sched_id c) (clock c) (ready_tree c) s'.
Proof.
  intros HI Hc Hx. destruct (must_remove_done s c x HI Hc Hx) as (t & Ht & Ho & Hr). eexists. unfold mbind, M_bind. rewrite Hr. split; [done|].
  exists (with_linked false t). eexists. split_and!; [by eapply lookup_set_task|done|cbn; apply list_lookup_insert_eq; by eapply lookup_lt_Some|done|done].
Qed.
Lemma pop_done s c now x : good (skel s) -> schedulers s !! q = Some c -> first_eligible (tasks s) now (ready_tree c) = Some x ->
  exists s', pop_earliest_eligible q now s = Done (Some x) s' /\ ready_to_run x (sched_id c) (clock c) (ready_tree c) s'.
Proof.
  intros HI Hc Hf. assert (x ∈ ready_tree c) as Hx.
  { unfold first_eligible in Hf. destruct (filter _ (ready_tree c)) eqn:E; [done|]. injection Hf as ->. assert (x ∈ filter (fun x => eligible_in (tasks s) x <= now) (ready_tree c)) as Hin by (rewrite E; left).
    by apply list_elem_of_filter in Hin as [_ ?]. }
  destruct (take_done s c x HI Hc Hx) as (s' & Ht & Hs'). exists s'. split; [|done].
  unfold pop_earliest_eligible, peek_earliest_eligible, sched_at, gets, mbind, M_bind, expect in *. rewrite Hc. cbn in *. by rewrite Hf.
Qed.
Lemma peek_done s c now : schedulers s !! q = Some c ->
  peek_earliest_eligible q now s = Done (first_eligible (tasks s) now (ready_tree c)) s /\ min_eligible_at q s = Done (least_eligible (tasks s) (ready_tree c)) s.
Proof. intros Hc. unfold peek_earliest_eligible, min_eligible_at, sched_at, gets, mbind, M_bind, expect. by rewrite Hc. Qed.

(** The clock at another instant *)
Definition clock_at (v : Z) (c : Clock) : Clock := mkClock v (clock_remainder c) (total_weight c) (accounted_ticks c).
Lemma clock_at_now c : clock_at (clock_v c) c = c.
Proof. by destruct c. Qed.

(** The eligibility times of the ready tasks are biased signed words. *)
Definition times_typed (ts : list EEVDFTask) (l : list nat) : Prop := forall y, y ∈ l -> exists v, in_i128 v /\ eligible_in ts y = bias_i128 v.

Lemma pick_ready_done s0 s c : replenish_deadlines q s0 = Done tt s -> good (skel s) -> schedulers s !! q = Some c -> ready_tree c <> [] ->
  in_i128 (clock_v (clock c)) -> times_typed (tasks s) (ready_tree c) ->
  exists x v s', pick_ready q s0 = Done (Some x) s' /\ in_i128 v /\ chosen (tasks s) (bias_i128 (clock_v (clock c))) (ready_tree c) (bias_i128 v) x /\
    ready_to_run x (sched_id c) (clock_at v (clock c)) (ready_tree c) s'.
Proof.
  intros Hrep HI Hc Hne Hv Hty. unfold pick_ready. unfold mbind at 1, M_bind at 1. rewrite Hrep. unfold mbind at 1, M_bind at 1. rewrite (has_ready_rt_done s c HI Hc).
  assert (StronglySorted (fun x y => key_lt (key_in (tasks s) x) (key_in (tasks s) y) = true) (ready_tree c)) as Hord
    by (apply ordered_tasks; exact (inv_ordered _ _ HI q ReadyTree _ (skel_sched _ _ _ Hc))).
  destruct (ready_tree c) as [|f l] eqn:Hl; [done|]. pose proof (pick_front s c f l HI Hc Hl) as Hurg.
  destruct (Z.leb_spec (class_rank (key_in (tasks s) f)) RT_CLASS_RANK) as [Hr|Hr].
  - destruct (take_done s c f HI Hc) as (s' & Ht & Hs'); [rewrite Hl; left|]. exists f, (clock_v (clock c)), s'. rewrite clock_at_now. split_and!; [|done| |by rewrite <- Hl].
    + unfold pick_rt_front, tree_front, sched_at, gets, mbind, M_bind, expect in *. rewrite Hc. cbn in *. by rewrite Hl.
    + split; [left|]. split; [|by intros []; apply Hurg]. intros _. split; [done|]. intros y [->|Hy]%elem_of_cons; [by left|right]. apply StronglySorted_inv in Hord as [_ Hall].
      rewrite Forall_forall in Hall. by apply Hall.
  - assert (~ urgent (tasks s) (f :: l)) as Hno by (intros Hu; apply Hurg in Hu; lia).
    destruct (peek_done s c (bias_i128 (clock_v (clock c))) Hc) as [Hpeek Hmin]. rewrite Hl in Hpeek, Hmin.
    rewrite (bind_returns _ _ _ _ _ (sched_at_done s c Hc)), (bind_returns _ _ _ _ _ Hpeek), (bind_returns _ _ _ _ _ Hmin).
    destruct (first_eligible (tasks s) (bias_i128 (clock_v (clock c))) (f :: l)) as [x|] eqn:Hfe.
    + destruct (pop_done s c (bias_i128 (clock_v (clock c))) x HI Hc) as (s' & Hp & Hs'); [by rewrite Hl|]. exists x, (clock_v (clock c)), s'. rewrite clock_at_now. split_and!; [done|done| |by rewrite <- Hl].
      destruct (first_eligible_spec _ _ _ _ Hord Hfe) as (Hx & Hle & Hall). split; [done|]. split; [done|]. intros _. split_and!; [|done|done].
      split; [done|]. intros Hlate. specialize (Hlate x Hx). lia.
    + destruct (least_eligible (tasks s) (f :: l)) as [m|] eqn:Hm; [|done]. destruct (least_eligible_spec _ _ _ Hm) as [(y & Hy & Ey) Hall].
      pose proof (proj1 (no_first_eligible _ _ _) Hfe) as Hlate. destruct (Hty y Hy) as (v & Hvr & Ev).
      assert (m = bias_i128 v) as -> by congruence. cbv beta iota zeta. rewrite (unbias_bias v Hvr).
      pose proof (Hlate y Hy) as Hlt. rewrite Ev, !bias_spec in Hlt by done. destruct (Z.ltb_spec (clock_v (clock c)) v); [|lia].
      set (next := clock_at v (clock c)).
      set (s1 := set_sched q (with_clock next c) s). assert (schedulers s1 !! q = Some (with_clock next c)) as Hc1 by (cbn; apply list_lookup_insert_eq; exact (lookup_lt_Some _ _ _ Hc)).
      assert (skel s1 = skel s) as Hk by (unfold s1; rewrite skel_set_sched; unfold set_ksched; change (sched_skel (with_clock next c)) with (sched_skel c); rewrite (list_insert_id _ _ _ (skel_sched _ _ _ Hc)); by destruct (skel s)).
      assert ((must (on_copy (jump_to v) (clock c)) ≫= fun next => update_sched q (with_clock next)) s = Done tt s1) as Hj.
      { assert (on_copy (jump_to v) (clock c) = Value next) as -> by (unfold on_copy, jump_to, gets, mbind, M_bind; destruct (Z.ltb_spec v (clock_v (clock c))); [lia|done]).
        assert (must (Value next) s = Done next s) as Hmust by done. rewrite (bind_returns _ _ _ _ _ Hmust). unfold update_sched.
        by rewrite (bind_returns _ _ _ _ _ (sched_at_done s c Hc)). }
      rewrite (bind_returns _ _ _ _ _ Hj), (bind_returns _ _ _ _ _ (sched_at_done s1 _ Hc1)). cbn [clock with_clock clock_v next].
      destruct (first_eligible (tasks s) (bias_i128 v) (f :: l)) as [x|] eqn:Hfe1;
        [|pose proof (proj1 (no_first_eligible _ _ _) Hfe1 y Hy); lia].
      destruct (pop_done s1 (with_clock next c) (bias_i128 v) x) as (s' & Hp & Hs'); [by rewrite Hk|done|cbn; by rewrite Hl|]. exists x, v, s'. split_and!; [done|done| |by rewrite <- Hl].
      destruct (first_eligible_spec _ _ _ _ Hord Hfe1) as (Hx & Hle & Hall1). split; [done|]. split; [done|]. intros _. split_and!; [|done|done].
      split; [intros (z & Hz & Hz'); specialize (Hlate z Hz); lia|]. intros _. split; [by exists y|done].
Qed.
Lemma replenish_identity fuel : steps (same_proj (fun c => (sched_id c, running c)) q) (replenish_loop q fuel).
Proof. induction fuel; cbn [replenish_loop]; proj_steps; auto. Qed.
Lemma replenish_keeps_identity s s1 c c1 : replenish_deadlines q s = Done tt s1 -> schedulers s !! q = Some c -> schedulers s1 !! q = Some c1 ->
  sched_id c1 = sched_id c.
Proof.
  intros H Hc Hc1. apply done_bind in H as (c' & s' & [_ ->]%done_sched_at & H). apply (done_steps _ _ _ _ _ (replenish_identity _)) in H.
  unfold same_proj in H. rewrite Hc, Hc1 in H. by injection H.
Qed.
End Selection.

(** C10: when the deadline servers that are due have been replenished and some
    task is ready, [pick_next_task] succeeds, makes a task current and takes it
    out of the ready tree: the one with the least key while a real-time or
    deadline task is ready, and otherwise the least virtual deadline among the
    fair tasks that are eligible. The clock keeps its instant, unless only fair
    tasks are ready and none of them is eligible: then it is set to the earliest
    instant at which one is. *)
Theorem pick_next_takes_the_first profile q s s1 c c1 : rtc (eevdf_step profile) eevdf_boot s ->
  schedulers s !! q = Some c -> running c = None -> replenish_deadlines q s = Done tt s1 -> schedulers s1 !! q = Some c1 -> ready_tree c1 <> [] ->
  in_i128 (clock_v (clock c1)) -> times_typed (tasks s1) (ready_tree c1) ->
  exists x v s' c', pick_next_task q s = Done (Some x) s' /\ schedulers s' !! q = Some c' /\ running c' = Some x /\
    clock c' = clock_at v (clock c1) /\ ready_tree c' = filter (fun y => y <> x) (ready_tree c1) /\
    in_i128 v /\ chosen (tasks s1) (bias_i128 (clock_v (clock c1))) (ready_tree c1) (bias_i128 v) x.
Proof.
  intros HI%good_history Hc Hr Hrep Hc1 Hne Hv Hty.
  assert (good (skel s1)) as HI1 by (assert (steps keeps_good (replenish_deadlines q)) as Hk
    by (unfold replenish_deadlines; steps_control; eauto using replenish_loop_good with steps typeclass_instances); by apply (done_steps _ _ _ _ _ Hk Hrep)).
  destruct (pick_ready_done q s s1 c1 Hrep HI1 Hc1 Hne Hv Hty) as (x & v & s2 & Hp & Hv2 & Hch & t & c2 & Ht & Ho & Hc2 & Ek & El).
  rewrite (replenish_keeps_identity q _ _ _ _ Hrep Hc Hc1) in Ho. 
  assert (pick_next_task q s = Done (Some x) (set_sched q (with_running (Some x) c2) (set_task x (with_owner (sched_id c) t) s2))) as Hpick.
  { unfold pick_next_task. rewrite (bind_returns _ _ _ _ _ (sched_at_done q s c Hc)), Hr, bool_decide_false by naive_solver. rewrite (bind_returns _ _ _ _ _ Hp).
    unfold must_transfer, update_task, update_sched, task_at, sched_at, gets, mbind, M_bind, expect, modify. rewrite Ht. cbn -[set_task].
    rewrite Ho, Z.eqb_refl, Ht. cbn. by rewrite Hc2. }
  exists x, v. eexists. exists (with_running (Some x) c2). split; [exact Hpick|]. split; [cbn; apply list_lookup_insert_eq; by eapply lookup_lt_Some|]. by split_and!.
Qed.
Definition two_ready : list event :=
  [NewScheduler; NewTask; NewTask; CallOn 0 (CallEnqueue 0 New); CallOn 0 (CallEnqueue 1 New)].
Lemma pick_next_takes_the_first_witness : exists x v s' c', pick_next_task 0 (after demo_profile two_ready) = Done (Some x) s' /\
  schedulers s' !! 0%nat = Some c' /\ running c' = Some x /\ clock_v (clock c') = v /\ ready_tree c' = filter (fun y => y <> x) [1; 0]%nat.
Proof.
  assert (rtc (eevdf_step demo_profile) eevdf_boot (after demo_profile two_ready)) as Hs by (apply after_steps; [repeat constructor|vm_compute; by eexists]).
  destruct (schedulers (after demo_profile two_ready) !! 0%nat) as [c|] eqn:Hc; [|vm_compute in Hc; discriminate Hc].
  assert (running c = None) as Hr by (vm_compute in Hc; injection Hc as <-; reflexivity).
  destruct (replenish_deadlines 0 (after demo_profile two_ready)) as [[] s1| | |] eqn:Hrep; [|vm_compute in Hrep; discriminate Hrep..].
  destruct (schedulers s1 !! 0%nat) as [c1|] eqn:Hc1; [|vm_compute in Hrep; injection Hrep as <-; discriminate Hc1].
  assert (ready_tree c1 = [1; 0]%nat /\ in_i128 (clock_v (clock c1)) /\ times_typed (tasks s1) [1; 0]%nat) as (Hl & Hv & Ht).
  { vm_compute in Hrep. injection Hrep as <-. injection Hc1 as <-. split; [reflexivity|]. split; [split; discriminate|].
    intros y [->|[->|[]%not_elem_of_nil]%elem_of_cons]%elem_of_cons; exists 0; (split; [split; discriminate|vm_compute; reflexivity]). }
  destruct (pick_next_takes_the_first demo_profile 0 _ s1 c c1 Hs Hc Hr Hrep Hc1) as (x & v & s' & c' & Hp & Hc' & Hx & Hk & Htree & _);
    [rewrite Hl; discriminate|exact Hv|rewrite Hl; exact Ht|]. rewrite Hl in Htree.
  exact (ex_intro _ x (ex_intro _ v (ex_intro _ s' (ex_intro _ c' (conj Hp (conj Hc' (conj Hx (conj (f_equal clock_v Hk) Htree)))))))).
Defined.

(** ** Corner cases *)

(** What is observed of a run: the answer or the error, with the server of the
    task 0, the shared ledger and the local utilization of the scheduler 0 *)
Record observation (A : Type) : Type := observe_at { seen : result A SchedulerError; seen_server : option DeadlineState; seen_ledger : list Z; seen_local : list Z }.
#[local] Arguments observe_at {A}.
#[local] Arguments seen {A}.
Definition observe {A} (o : outcome Eevdf SchedulerError A) : option (observation A) :=
  let view r s := Some (observe_at r (server ∘ owned <$> tasks s !! 0%nat) (dom_utilization <$> domains s) (deadline_utilization <$> schedulers s)) in
  match o with Done a s => view (Ok a) s | Fail e s => view (Err e) s | Panic | Diverged => None end.

(** One task, one scheduler and one domain; a reservation of 25 in 100 every 120 *)
Definition one_of_each : Eevdf := add_new_task (add_new_domain domain_new (add_new_scheduler eevdf_boot)).
Definition reservation : DeadlineConfig := mkDeadline 25 100 120.
Definition admit_reservation : Op () :=
  set_deadline_admission_domain 0 0;;
  stage_task_deadline_config 0 0 reservation;;
  _ ← set_task_params demo_profile 0 0 deadline_params;
  add_task demo_profile 0 0.
Definition exhaust_reservation : Op () :=
  admit_reservation;;
  _ ← pick_next_task 0;
  _ ← account_runtime demo_profile 0 0 (mkDelta 25 1);
  mret tt.

(** A server that exhausted its budget at 25 and must wait until 120: put back,
    it is not picked before that; after a sleep and a wake-up it is picked at 25
    with a full budget. *)
Theorem sleep_refills_an_exhausted_server :
  (seen <$> observe ((exhaust_reservation;; put_prev_task demo_profile 0 0 true;; pick_next_task 0) one_of_each) = Some (Ok None)) /\
  observe ((exhaust_reservation;; deactivate_task demo_profile 0 0 Sleep;; enqueue_task demo_profile 0 0 Wakeup;; pick_next_task 0) one_of_each) =
    Some (observe_at (Ok (Some 0%nat)) (Some (mkServer 25 125 145 false)) [208333334] [208333334]).
Proof. split; vm_compute; reflexivity. Qed.

(** A sleeping fair task that becomes a deadline task runs without a reservation
    in the ledger, and its exit panics. *)
Definition sleep_then_reserve : Op () :=
  set_deadline_admission_domain 0 0;;
  add_task demo_profile 0 0;;
  _ ← pick_next_task 0;
  deactivate_task demo_profile 0 0 Sleep;;
  stage_task_deadline_config 0 0 reservation;;
  _ ← set_task_params demo_profile 0 0 deadline_params;
  enqueue_task demo_profile 0 0 Wakeup;;
  _ ← pick_next_task 0;
  mret tt.
Theorem sleeping_task_reserves_nothing :
  observe (sleep_then_reserve one_of_each) = Some (observe_at (Ok tt) (Some (mkServer 25 100 120 false)) [0] [0]) /\
  (sleep_then_reserve;; deactivate_task demo_profile 0 0 Exit) one_of_each = Panic.
Proof. split; vm_compute; reflexivity. Qed.

(** A change of reservation that fails because the replenishment instant
    overflows has already changed the shared ledger. *)
Theorem failed_reservation_change_leaks :
  observe ((admit_reservation;; advance_deadline_clock 0 50;; set_task_deadline_config_with_runtime 0 0 (mkDeadline 25 100 u64_MAX)) one_of_each) =
  Some (observe_at (Err ArithmeticExhausted) (Some (mkServer 25 100 120 false)) [1] [208333334]).
Proof. vm_compute. reflexivity. Qed.

(** A throttled task that is removed stays marked as throttled: added again as a
    fair task it cannot be removed. *)
Theorem removed_task_stays_throttled :
  seen <$> observe ((exhaust_reservation;; put_prev_task demo_profile 0 0 true;; _ ← remove_task 0 0;
    configure 0 params_default;; add_task demo_profile 0 0;; remove_task 0 0) one_of_each) = Some (Err InconsistentState).
Proof. vm_compute. reflexivity. Qed.

(** With a period above [2^32] nanoseconds the residue of a sample that is still
    pending is counted again: [2^33 - 1] nanoseconds in two samples make a whole
    period of [2^33]. *)
Theorem long_period_is_rounded_up :
  match account_all demo_profile 0 1 (2 ^ 33) [1; 2 ^ 33 - 2] (after demo_profile two_fair) with
  | Done _ s => (accounted_ticks ∘ clock <$> schedulers s !! 0%nat) = Some 1 /\ (runtime_remainder_ns ∘ owned <$> tasks s !! 1%nat) = Some 0
  | _ => False
  end.
Proof. vm_compute. split; reflexivity. Qed.

(** Dropping a scheduler leaves its throttled task owned by an identity no
    scheduler has, and its reservation in the shared ledger. *)
Theorem dropped_scheduler_keeps_its_throttled_task :
  match (exhaust_reservation;; put_prev_task demo_profile 0 0 true;; drop_scheduler 0) one_of_each with
  | Done _ s => queue_owner <$> tasks s = [1] /\ sched_id <$> schedulers s = [UNOWNED] /\ dom_utilization <$> domains s = [208333334]
  | _ => False
  end.
Proof. vm_compute. split_and!; reflexivity. Qed.
